(* ===== verification/_CoqProject ===== *)
-Q . S2P
Prelude.v
Rust.v
Characters.v
Json.v
SinkCache.v
SinkCacheFacts.v
Counters.v
Dlq.v
Ast.v
Engine.v
Columns.v
Windows.v
TumblingWindow.v
HoppingWindow.v
CountWindow.v
SessionWindow.v
StateWindow.v
SlidingWindow.v
LoopFacts.v
Like.v
Values.v
Objects.v
Numbers.v
FloatText.v
Parser.v
Statements.v
ParserFacts.v
RoundTrip.v
Delimited.v
EdgeX.v
Wire.v
Protobuf.v
ProtobufFacts.v
ProtoText.v
Aggregates.v
Accumulators.v
Analytic.v
BatchAggregates.v
SlidingAcc.v
GroupedWindow.v
IncrementalFacts.v
Joins.v
Eval.v
Projection.v
ProjectionFacts.v
Pipeline.v
Stateless.v
Bus.v
StreamBus.v
Admission.v
RecordLines.v
SinkFormat.v
DataTemplate.v
DataTemplateFacts.v
TemplateRoundTrip.v
FileSink.v
Delivery.v
SinkWorker.v
DeliveryFacts.v
SinkWorkerFacts.v
Schema.v
SchemaFacts.v
FieldMask.v
SharedSources.v
Kv.v
Managers.v
Payload.v
ArrayFunctions.v
ScalarFunctions.v
MqttSource.v
RuleManager.v
RuleManagerFacts.v
Manifest.v
GraphRule.v
ManifestFacts.v
Validator.v
RuleCheck.v
Server.v
Reconcile.v
ReconcileFacts.v
