(* ===== verification/Prelude.v ===== *)
(** * rekuiper: a verified model of the streaming SQL engine

    rekuiper runs rules: a SQL statement over streams of JSON rows, and sinks for its
    results.  A rule is a task that reads rows from its streams, evaluates the
    statement row by row or over windows, and hands output records to a sink worker,
    which keeps in an offline cache what it cannot deliver.  Errors go to a
    dead-letter queue.  This development models that path, from the row to the cache,
    and proves what each part promises.

    ** Files, in dependency order, and the sources they translate (under src/crates)

    - [Prelude]: tactics, the hint database [rekuiper], list and sorting lemmas.
    - [Rust]: integers at their width (saturating, checked and wrapping operations on
      [i64]/[u64]), strings as bytes, [trim], number parsing.
    - [Characters]: code points, UTF-8 and its lossy decoding, which white space is.
    - [Json]: [serde_json] values: numbers are a [u64], a negative [i64] or an IEEE
      double ([f64], the Standard Library's [SpecFloat] at 53 bits); conversions,
      decidable equality, order lemmas of doubles.
    - [SinkCache], [SinkCacheFacts]: rekuiper-server/src/sink_cache.rs.  The state is
      the record [SinkCache]: head, page list, tail, counters, and a file system [Fs]
      whose page writes may fail.  [fifo_step] is the abstract bounded queue it refines.
    - [Objects]: JSON objects written from maps and read as maps.
    - [Counters]: [LatencyTracker], [RuleCounters] of rekuiper-core/src/manager.rs and
      [DlqStage] of model.rs.  Counters wrap at 64 bits.
    - [Dlq]: envelopes and payload truncation of model.rs, [route_error] of
      rekuiper-server/src/engine/dlq.rs; the tasks it spawns are values.
    - [Ast]: rekuiper-sql/src/ast.rs.
    - [Engine]: error records, event timestamps (engine/runtime.rs), the channel to the
      sink worker ([enqueue_sink_record], engine/sinks.rs); the interfaces [Evaluator],
      [Incremental] and [Text] the windows are proved against.
    - [Windows]: what the runners of engine/windows.rs share: emission, ingest filter,
      watermarks, the [select!] loop.  A runner is a value of the record [Runner].
    - [TumblingWindow], [HoppingWindow], [CountWindow], [SessionWindow], [StateWindow],
      [SlidingWindow]: the six [run_*_window_rule] functions, event and processing time.
    - [LoopFacts]: properties of the loop for every runner.
    - [Columns]: the eKuiper text of an expression (ast.rs), call classes and output
      columns (eval.rs).
    - [Like], [Values], [Numbers]: eval.rs: the LIKE matcher, operators on values, numbers
      in text.
    - [Parser], [Statements]: rekuiper-sql/src/parser.rs: characters and words, the
      expression levels, [SELECT], [CREATE STREAM] and [CREATE TABLE].  [ParserFacts] shows
      that they are total, [RoundTrip] that they read back what a printer writes.
    - [Aggregates], [BatchAggregates], [SlidingAcc], [Accumulators]: eval/aggregate.rs and
      eval/window.rs: batch aggregates and their row-free accumulators, sliding
      accumulators with eviction, and the cumulative [acc_*] functions.
    - [Analytic]: eval/analytic.rs: [lag], [had_changed], event sequences, on keyed cells of
      the rule state.
    - [GroupedWindow], [IncrementalFacts]: the rest of eval/window.rs and
      [eval_aggregate] of eval.rs: group keys, the partition of a window into groups,
      ordering and limits, and the row-free [IncrementalWindow] and
      [SlidingIncrementalWindow], the instance [row_free_windows] of [Incremental].
    - [Joins]: engine/joins.rs: lookup joins, [ASOF] state, window joins.
    - [Eval], [Projection], [ProjectionFacts]: eval.rs: expressions and conditions with the
      rule state threaded through calls, and the projection of a row.
    - [ArrayFunctions], [ScalarFunctions]: eval/array.rs, json.rs, math.rs, string.rs and
      transform.rs: the scalar functions and their dispatch ([eval_call] of eval.rs).
    - [Pipeline]: aggregate-aware expressions, and the instances that discharge
      [GroupExprs] and [Evaluator] by the modelled evaluator.
    - [Stateless]: [run_stateless_rule] of engine/runtime.rs, both loops.
    - [Bus]: [BusPredicate] of rekuiper-core/src/runtime.rs and its extraction
      from WHERE clauses (engine/mod.rs); [StreamBus]: publication to the
      subscribers of a topic, each a queue with the answers of its channel, which may never
      come, and what publishers outside the admission gate put between the records of a
      batch; [Admission]: concurrent publishers at the admission gate.
    - [Schema], [SchemaFacts]: declared columns: coercion, defaults and enforcement of
      rekuiper-core/src/model.rs, and the task of engine/mod.rs that applies them.
    - [SinkFormat]: options and payloads of engine/sinks.rs; [FileSink]:
      [FileBatchWriter], with a disk that may fail half-way; [Delivery], [DeliveryFacts]:
      [send_action], [deliver_record], [resend_cached], with the network as answers to
      requests; [SinkWorker], [SinkWorkerFacts]: the task of engine/mod.rs that drives them.
      [RecordLines]: a concrete [LineCodec] for records.
    - [Kv]: rekuiper-core/src/kv.rs; [Managers] (with the definitions of model.rs),
      [RuleManager], [RuleManagerFacts]: manager.rs: registries that write through to a store
      whose writes may fail, the life of a rule and of its task, and the status a holder of its
      handle writes past the manager.  A task is a number, and the manager records those it
      aborted.
    - [Manifest], [ManifestFacts]: declarative manifests of model.rs; [Validator]: rekuiper-sql/src/validator.rs with the names of functions.rs;
      [Reconcile], [ReconcileFacts]: rekuiper-server/src/declarative.rs, on the record
      [AppState] of the managers.
    - [Delimited], [Wire], [Protobuf], [ProtobufFacts], [ProtoText]:
      rekuiper-connectors/src/codec.rs: the binary and delimited codecs, varints and
      little-endian numbers, the protobuf codec, and the parser of [.proto] definitions.
      [EdgeX]: the EdgeX codec of the same file.
    - [FieldMask]: the columns a statement refers to
      (rekuiper-server/src/handlers/rules.rs) and the mask a source decodes with
      ([JsonFieldMask] of codec.rs).
    - [SharedSources]: which sources run, who reads them and what
      they decode (engine/mod.rs), on the record [AppState] of the tables the server keeps;
      a video source may be refused, and a source may end by itself.
    - [Payload]: what the [FORMAT] of a stream makes of a message; [MqttSource]: rekuiper-connectors/src/mqtt.rs: the address of a broker and the
      loop of a source.
    - [GraphRule]: rules drawn as graphs, compiled to SQL (model.rs).
    - [RuleCheck]: the checks and descriptions of rules in
      rekuiper-server/src/handlers/rules.rs; [Server]: the requests for rules, streams and
      tables (handlers/rules.rs and streams.rs) on a record [Server] of the managers, the
      tasks of rules and the sources that run.
    - [FloatText], [DataTemplate], [DataTemplateFacts], [TemplateRoundTrip]:
      rekuiper-connectors/src/data_template.rs: the text of doubles, and the template
      language of sinks, from its scanner to its functions.

    ** What the theorems show

    - Sink cache: every operation refines a bounded FIFO queue that drops only the
      oldest records and counts them; no record is lost uncounted even when page writes
      fail; memory stays bounded; a restart keeps the queue; accepted options are
      well-formed.  Two situations break the FIFO order: a memory-only cache that is
      restarted, and a failed page write with older pages on disk.
    - Windows in event time: tumbling and hopping runners emit exactly the accepted
      rows of each aligned interval, from the first row to the watermark, and return; sessions partition the accepted rows
      with bounded gaps and duration; count windows sample exact positions; state
      windows follow the documented automaton in every partition; a sliding window is
      exact at the front.  The watermark never rejects a row within the tolerance of
      its own stream.  Counterexamples: the tumbling loop diverges on the largest
      timestamp, hopping and sliding windows can miss out-of-order rows within the
      tolerance, the joined branch of sparse count windows emits too many rows.
    - Loop: source and enqueued counters are exact whatever the channel does; an error
      record never reaches a window and halts the loop exactly under [Halt].
    - Dead letters and counters: the ring keeps the most recent errors, the drop policy
      only counts, payloads are cut at a character boundary within the limit, latency
      snapshots are cumulative histograms.
    - Evaluation: both LIKE loops return and agree with a reference matcher (they differ
      on a trailing backslash); operators panic exactly on the overflowing quotient;
      slices select the positions between their bounds; the fast path of conditions
      agrees with general evaluation except for numeric equality; analytic state advances
      once per row whether or not the row passes its filter; [lag] returns the value of
      exactly [offset] rows ago; [sequence_match] only reports sequences that occurred.
    - Scalar functions: which calls have an error, exactly, and that the call that cannot fail
      has a null there and otherwise the same result; [sequence] is the numbers from start to
      stop when the steps meet the stop and a vector can hold them; an object is put together again from its parts, a path is
      read back from its text, a text is the join of its split; [conv] keeps the number.
      Counterexamples: steps that pass over the stop, slices whose end overflows, the least
      integer, negative hexadecimal numbers.
    - Parsing: on ASCII text every statement parser returns, and leaves a suffix of its
      input; [parse_expr] reads back what the printer of [RoundTrip] writes for every
      expression, with the fewest parentheses.  Counterexamples: characters beyond ASCII
      panic in two scans, [NOT] binds tightest, text after a statement is ignored.
    - Aggregation: row-free accumulators equal the batch aggregates, the monotonic deque
      gives the exact extremum under any interleaving of pushes and evictions, [acc_*]
      call sites and partitions are independent.  Counterexamples: strings under min and
      max, drifting float sums, the leaking [acc_max_by].
    - Grouping: a group key determines the grouping values it was written from; the
      groups of a window partition its rows, in order of first appearance; an
      incremental window that is pushed the rows of a batch produces exactly the rows of
      the batch evaluation when the statement projects its group columns.
      Counterexamples: an alias equal to the name of a group column, and sliding
      statements that only select columns.
    - Joins: a window join produces the rows of its relational definition, for every join
      type; an [ASOF] join takes the youngest row that is old enough, and its state stays
      bounded.
    - Stateless rules: draining queued records in batches changes nothing but the sampled
      latency; every record received is counted, and ends as an output, filtered or an
      error.
    - Stream bus: a record held back by a predicate does not pass the WHERE clause before a
      schema coerces it, when the numbers it compares are no closer than doubles tell apart; a
      batch is delivered in order, to all of the open subscribers, or to none, and the
      publication returns unless a subscriber never answers; [try_publish] sends to all that
      accept it or to none; requests to several subscribers do not interleave.
      Counterexamples: equal numbers of different types, channels smaller than a chunk, a
      subscriber that closes next to a filtering one, a stalled subscriber, a single record
      inside a batch.
    - Schemas: a coercion gives null or a value of the declared type; enforcement leaves
      exactly the declared columns, coerced, beside the undeclared keys; the strict variant
      stops at the first column that cannot be coerced; the schema task delivers or
      dead-letters every record.  Counterexamples: large unsigned numbers, errors inside
      arrays, predicates the bus evaluates before coercion.
    - Sinks: the object sent for a record has the columns its options ask for and nothing
      internal to the engine, and formatting it twice changes nothing; a worker with one action
      that has a cache and does not batch loses no plain record uncounted, whatever the network
      answers, and with cache-first priority keeps the order of arrival.  Counterexamples: [dataField] in
      batches, lingering batches that fail, rows a memory topic refuses, rows left in a
      buffer while others are cached, partial writes.
    - Managers: whatever the storage answers, the store holds what memory holds, so a restart
      restores the rules with their status, errors written past the manager apart; every task
      ever handed to the manager belongs to a running rule or has been aborted, until a video
      source is refused, which leaves a rule in error with its task.
    - Manifests: interpolation replaces exactly the references; a directory is the disjoint
      union of its files, or an error; the validator accepts a manifest exactly when its
      statements parse and name declared sources, connections and known functions in the clauses
      it looks at; and reconciling brings the server to the definitions of the manifest, with
      new tasks for the rules that changed, after which reconciling again changes nothing.  Counterexamples: rules named otherwise than by their id, the
      version of a directory, clauses the validator skips.
    - Codecs: a record written as a delimited line is read back, column by column, when
      its values survive as text; protobuf messages of every field type, nested and
      repeated, are decoded from their encoding; decoding returns on every input; [.proto]
      definitions are read back from their text, and every text is read to the end.
      Counterexamples: packed fields, [oneof] blocks, numbers that contain the delimiter.
      An EdgeX event gives back the columns it was packed from when their values keep their
      types; texts that look like numbers do not.
    - Sources: a stream has exactly one registered source while some rule reads it, whatever
      the order in which rules start, stop and restart and streams are dropped, which runs
      unless it has ended by itself, and its mask has what every reader asked for, so that a
      rule without a window or schema computes from a shared source what it would from the
      whole payload.  An MQTT source that takes queued messages in batches
      sends what one that takes them one by one would, in order.  Counterexamples: columns
      of window clauses, names in another case, streams dropped under a running rule,
      sources that ended and stay registered, endpoints of restarted rules.
    - Requests: whatever requests a server has served, however its storage answered and
      whichever sources have ended, a running rule has exactly one live task and a stopped one
      none, a rule in error after a video source was refused has one still, and sources run
      only for streams that rules which are not stopped name; creating a rule does all of its
      work or none, a refused video source apart.
      Counterexamples: rules started in bulk, rules halted by their error policy, joined
      streams that do not exist, actions of graphs.
    - Graph rules: a graph compiles exactly when it has a source and no cycle; the statement
      does not depend on its edges otherwise.
    - Data templates: every template renders every document: the scanner, the lexer and the
      parser return on every text, and a text that is not a template is sent as it is; a
      template written by the printer of
      [TemplateRoundTrip] is read back; columns internal to the engine are not visible to a
      template.  Counterexamples: where the language differs from Go's.

    ** Conventions, bounds and fuel

    Rust integers are [Z] with the width's operations written out where the code uses
    them; [usize] counts of in-memory containers are [nat] or unbounded [Z].  Overflow
    of plain [i64] subtraction in window alignment wraps ([wrap64]), as in a release
    build.  A [HashMap] is a [gmap]; where the code depends on its unspecified order
    the model takes the order of [map_to_list].  A clock reading is an argument.

    Some recursions are not structural.  The closing loops of tumbling and hopping windows
    take fuel; their theorems ask for fuel above the number of windows between the
    smallest and largest timestamp plus two, and prove that the run returns.  The LIKE
    loops take [(|s| + 1) * (|p| + 1) + 1] steps at most, proved sufficient for every
    input by a lexicographic measure.  The parser takes fuel for its nesting and for the
    turns of its loops: one more than the length of the input is proved enough; so does the
    parser of [.proto] texts, and the decoder of messages takes the length of its bytes.  The
    loop of a batch takes the number of its records, the loop that sends full batches the
    rows in the buffer, the resend loop the length of the cache, and the drain of a queue its
    length; each turn takes at least one.  Page rotation recurses on the page
    list.  The search for cycles takes the number of nodes, the scanner, the lexer and the
    parser of templates the length of what they read; both are proved enough.  The loop of
    [sequence] takes the logarithm of its turns, 60 of which go beyond what a vector can
    hold.

    ** Interfaces for code outside the model

    [LineCodec] (a record as one line of JSON), [Text] (rendering of values, RFC 3339
    parsing), [SchemaText] (JSON text, dates without a zone), [Unicode] (characters beyond ASCII), [Base64], [WallClock] and [Sketch] (quantile
    sketch), [JsonText] (serde of a definition), [ManifestReader] (TOML, JSON and YAML) and
    [Digest] (SHA-256), [JsonReader] (JSON documents as bytes) and [Lowercase] (lower case
    beyond ASCII) stand for library code, [Net] for the HTTP and MQTT clients and the resolver;
    [Functions] for the scalar function library as the evaluator sees it, which
    [scalar_functions] of [ScalarFunctions] implements over [Libm] (sines and logarithms),
    [Crates] (digests, regular expressions, compression), [Environment] (dates, plugins,
    keyed state), [Random] and [VecLimit] (how many values a vector can hold);
    [ExternalTables] for lookups in Redis, SQL, Modbus and OPC-UA tables.  Between the
    modelled parts, [Evaluator], [ExprEval], [GroupExprs] and [Incremental] are the
    interfaces the windows are proved against; [Pipeline] and [GroupedWindow] implement
    them.  [Templates] is what sink delivery asks of data templates; the instance
    [data_templates] of [DataTemplateFacts] implements it.

    ** Not modelled

    Protocol clients (apart from the loop of the MQTT source), the requests of the REST
    server that [Server] leaves out (connections, plugins, metadata, metrics, traces, rule
    tests, import and export, pushed rows), the command line, the MCP server, plugins and WebAssembly are I/O and calls into other systems, and so are the
    functions that resolve the options of a connector one by one, the reading of
    configuration files, the construction of sink actions, and the subscriptions of a
    rule's task.  The functions of dates are calls into a third-party crate, and the quantile
    sketch is an approximation without a contract; both are interfaces.  Error messages of the parser
    and log messages are not modelled. *)

From Stdlib Require Export ZArith Lia.
From stdpp Require Export base tactics list gmap strings numbers sorting option.

#[global] Set Default Goal Selector "!".
#[global] Open Scope Z_scope.

(** ** Proof automation *)

Ltac split_match :=
  match goal with
  | |- context [match ?x with _ => _ end] => destruct x eqn:?
  | H : context [match ?x with _ => _ end] |- _ => destruct x eqn:?
  end.

(** [simp_eqs] normalises a context full of equations between constructors. *)
Ltac simp_eqs := repeat (progress simplify_eq/=).

(** [solve_len] decides goals about lengths of appended, taken and dropped lists. *)
Ltac solve_len :=
  repeat rewrite ?length_app, ?length_take, ?length_drop, ?length_fmap, ?length_cons in *;
  simpl in *; lia.

(** Boolean comparisons of [Z] and [nat] as propositions. *)
Ltac zbool :=
  repeat match goal with
  | H : context [Z.ltb ?a ?b] |- _ => destruct (Z.ltb_spec a b)
  | H : context [Z.leb ?a ?b] |- _ => destruct (Z.leb_spec a b)
  | H : context [Z.eqb ?a ?b] |- _ => destruct (Z.eqb_spec a b)
  | |- context [Z.ltb ?a ?b] => destruct (Z.ltb_spec a b)
  | |- context [Z.leb ?a ?b] => destruct (Z.leb_spec a b)
  | |- context [Z.eqb ?a ?b] => destruct (Z.eqb_spec a b)
  | |- context [Nat.ltb ?a ?b] => destruct (Nat.ltb_spec a b)
  | |- context [Nat.leb ?a ?b] => destruct (Nat.leb_spec a b)
  end.

Create HintDb rekuiper.

(** ** Lists *)

Lemma filter_filter_eq {A} (P Q R : A -> Prop) `{!forall x, Decision (P x)} `{!forall x, Decision (Q x)}
    `{!forall x, Decision (R x)} (l : list A) :
  (forall x, R x <-> P x /\ Q x) -> filter P (filter Q l) = filter R l.
Proof. intros HR. rewrite list_filter_filter. apply list_filter_iff. intros x. rewrite HR. tauto. Qed.

Lemma filter_all {A} (P : A -> Prop) `{!forall x, Decision (P x)} (l : list A) :
  Forall P l -> filter P l = l.
Proof. induction 1; [done|]. rewrite list.filter_cons_True by done. by f_equal. Qed.

(** Lists that agree on a predicate agree on a stronger one. *)
Lemma filter_stronger {A} (Q R : A -> Prop) `{!forall x, Decision (Q x)} `{!forall x, Decision (R x)}
    (l l' : list A) :
  (forall x, R x -> Q x) -> filter Q l = filter Q l' -> filter R l = filter R l'.
Proof.
  intros HR Heq. rewrite <- (filter_filter_eq R Q R l), <- (filter_filter_eq R Q R l'), Heq;
    [done| |]; intros x; split; [auto|by intros []|auto|by intros []].
Qed.

Lemma Forall_filter_sub {A} (P Q : A -> Prop) `{!forall x, Decision (P x)} (l : list A) :
  Forall Q l -> Forall Q (filter P l).
Proof.
  intros Hl. apply list.Forall_forall. intros x [_ Hx]%list_elem_of_filter.
  by apply (proj1 (list.Forall_forall _ _) Hl).
Qed.

Lemma filter_none {A} (P : A -> Prop) `{!forall x, Decision (P x)} (l : list A) :
  Forall (fun x => ~ P x) l -> filter P l = [].
Proof. induction 1; [done|]. by rewrite list.filter_cons_False. Qed.

(** ** Sorted lists *)

Lemma StronglySorted_snoc {A} (R : A -> A -> Prop) (l : list A) y :
  StronglySorted R (l ++ [y]) <-> StronglySorted R l /\ Forall (fun x => R x y) l.
Proof.
  induction l as [|x l IH]; simpl.
  - split; [by intros _; split; constructor|intros _; repeat constructor].
  - split.
    + intros [Hs Hx]%StronglySorted_inv. apply IH in Hs as [Hs Hy]. apply Forall_app in Hx as [Hx Hxy].
      split; [by constructor|]. constructor; [by apply Forall_inv in Hxy|done].
    + intros [[Hs Hx]%StronglySorted_inv [Hxy Hy]%Forall_cons_1]. constructor; [by apply IH|].
      apply Forall_app. split; [done|by apply list.Forall_singleton].
Qed.

Lemma StronglySorted_weaken {A} (R S : A -> A -> Prop) (l : list A) :
  (forall x y, R x y -> S x y) -> StronglySorted R l -> StronglySorted S l.
Proof.
  intros HRS. induction 1 as [|x l Hl IH Hx]; constructor; [done|].
  eapply list.Forall_impl; [exact Hx|auto].
Qed.

Lemma StronglySorted_filter {A} (R : A -> A -> Prop) (P : A -> Prop) `{!forall x, Decision (P x)} (l : list A) :
  StronglySorted R l -> StronglySorted R (filter P l).
Proof.
  induction 1 as [|x l Hl IH Hx]; [constructor|]. rewrite list.filter_cons.
  destruct (decide (P x)); [|done]. constructor; [done|by apply Forall_filter_sub].
Qed.

(** ** Stable sorting by a comparison

    [slice::sort_by] is stable; insertion from the right gives the stable order whenever
    the comparison is a total preorder. *)

Fixpoint insert_by {A} (cmp : A -> A -> comparison) (x : A) (l : list A) : list A :=
  match l with
  | [] => [x]
  | y :: r => match cmp x y with Gt => y :: insert_by cmp x r | _ => x :: l end
  end.

Definition sort_by {A} (cmp : A -> A -> comparison) (l : list A) : list A := foldr (insert_by cmp) [] l.

Lemma insert_by_perm {A} (cmp : A -> A -> comparison) x l : insert_by cmp x l ≡ₚ x :: l.
Proof.
  induction l as [|y l IH]; simpl; [done|]. destruct (cmp x y); [done|done|].
  rewrite IH. apply Permutation_swap.
Qed.

Lemma sort_by_perm {A} (cmp : A -> A -> comparison) l : sort_by cmp l ≡ₚ l.
Proof. induction l as [|x l IH]; simpl; [done|]. rewrite insert_by_perm. by constructor. Qed.

Section sort_by_sorted.
Context {A} (cmp : A -> A -> comparison) (P : A -> Prop).
Context (cmp_total : forall x y, P x -> P y -> cmp x y = Gt -> cmp y x <> Gt).
Context (cmp_trans : forall x y z, P x -> P y -> P z -> cmp x y <> Gt -> cmp y z <> Gt -> cmp x z <> Gt).

Lemma insert_by_sorted x l :
  P x -> Forall P l -> StronglySorted (fun a b => cmp a b <> Gt) l ->
  StronglySorted (fun a b => cmp a b <> Gt) (insert_by cmp x l).
Proof using cmp_total cmp_trans.
  intros Hx Hl. induction 1 as [|y l Hs IH Hy]; simpl; [repeat constructor|].
  apply list.Forall_cons in Hl as [HPy Hl]. destruct (cmp x y) eqn:E.
  1,2: constructor; [by constructor|]; constructor; [congruence|];
    apply list.Forall_forall; intros z Hz;
    apply (cmp_trans x y z); auto; [by apply (proj1 (list.Forall_forall P l) Hl)|congruence|];
    by apply (proj1 (list.Forall_forall (fun b => cmp y b <> Gt) l) Hy).
  constructor; [by apply IH|]. rewrite (insert_by_perm cmp x l). constructor; [by apply cmp_total|done].
Qed.

Lemma sort_by_sorted l : Forall P l -> StronglySorted (fun a b => cmp a b <> Gt) (sort_by cmp l).
Proof using cmp_total cmp_trans.
  induction 1 as [|x l Hx Hl IH]; simpl; [constructor|].
  apply insert_by_sorted; [done| |done]. by rewrite (sort_by_perm cmp l).
Qed.
End sort_by_sorted.
