(* ===== verification/Rust.v ===== *)
(** * The parts of the Rust standard library the modelled code relies on

    Machine integers are [Z] with their width written out: [saturating_*],
    [checked_*] and [wrapping_*] are the operations of [i64], and [as] casts
    truncate to the width.  [usize] values that count elements held in memory
    are [nat].  Strings are Rocq's [string] (a sequence of 8-bit characters);
    the text functions below treat them as ASCII text, which is what the option
    names and numeric literals they are applied to consist of. *)

From Stdlib Require Import Ascii.
From S2P Require Import Prelude.

Set Default Goal Selector "!".

(** ** 64-bit integers *)

Definition i64_min : Z := - 2 ^ 63.
Definition i64_max : Z := 2 ^ 63 - 1.
Definition u64_max : Z := 2 ^ 64 - 1.

Definition in_i64 (z : Z) : Prop := i64_min <= z <= i64_max.

#[global] Instance in_i64_dec z : Decision (in_i64 z).
Proof. unfold in_i64. apply _. Defined.

(** [clamp64 z] is what every saturating operation of [i64] returns for the
    mathematical result [z]. *)
Definition clamp64 (z : Z) : Z := Z.max i64_min (Z.min i64_max z).

Definition saturating_add (a b : Z) : Z := clamp64 (a + b).
Definition saturating_sub (a b : Z) : Z := clamp64 (a - b).

Definition checked_add (a b : Z) : option Z :=
  if decide (in_i64 (a + b)) then Some (a + b) else None.

(** Wrap-around of release-mode arithmetic and of [as i64] casts. *)
Definition wrap64 (z : Z) : Z := (z + 2 ^ 63) mod 2 ^ 64 - 2 ^ 63.

(** [rem_euclid] with a positive divisor. *)
Definition rem_euclid (a b : Z) : Z := a mod b.

Lemma clamp64_range z : in_i64 (clamp64 z).
Proof. unfold in_i64, clamp64, i64_min, i64_max. lia. Qed.

Lemma clamp64_id z : in_i64 z -> clamp64 z = z.
Proof. unfold in_i64, clamp64. lia. Qed.

Lemma clamp64_mono a b : a <= b -> clamp64 a <= clamp64 b.
Proof. unfold clamp64. lia. Qed.

Lemma saturating_add_exact a b : in_i64 (a + b) -> saturating_add a b = a + b.
Proof. apply clamp64_id. Qed.

Lemma saturating_sub_exact a b : in_i64 (a - b) -> saturating_sub a b = a - b.
Proof. apply clamp64_id. Qed.

Lemma wrap64_id z : in_i64 z -> wrap64 z = z.
Proof.
  unfold in_i64, wrap64, i64_min, i64_max. intros H.
  rewrite Z.mod_small; lia.
Qed.

Lemma wrap64_range z : in_i64 (wrap64 z).
Proof.
  unfold in_i64, wrap64, i64_min, i64_max.
  pose proof (Z.mod_pos_bound (z + 2 ^ 63) (2 ^ 64)). lia.
Qed.

#[export] Hint Resolve clamp64_range wrap64_range : rekuiper.

(** ** Text *)

Definition chars (s : string) : list ascii := String.list_ascii_of_string s.
Definition of_chars (l : list ascii) : string := String.string_of_list_ascii l.

Definition code (c : ascii) : Z := Z.of_N (N_of_ascii c).

(** [char::is_whitespace] on ASCII. *)
Definition is_whitespace (c : ascii) : bool :=
  ((9 <=? code c) && (code c <=? 13)) || (code c =? 32).

Definition is_ascii_digit (c : ascii) : bool := (48 <=? code c) && (code c <=? 57).
Definition is_upper (c : ascii) : bool := (65 <=? code c) && (code c <=? 90).
Definition is_lower (c : ascii) : bool := (97 <=? code c) && (code c <=? 122).
Definition is_ascii_alphanumeric (c : ascii) : bool :=
  is_ascii_digit c || is_upper c || is_lower c.

Definition lower_char (c : ascii) : ascii :=
  if is_upper c then ascii_of_N (N_of_ascii c + 32) else c.

Definition to_ascii_lowercase (s : string) : string := of_chars (map lower_char (chars s)).

Definition eq_ignore_ascii_case (a b : string) : bool :=
  bool_decide (to_ascii_lowercase a = to_ascii_lowercase b).

Fixpoint drop_ws (l : list ascii) : list ascii :=
  match l with
  | c :: r => if is_whitespace c then drop_ws r else l
  | [] => []
  end.

(** [str::trim] *)
Definition trim (s : string) : string :=
  of_chars (rev (drop_ws (rev (drop_ws (chars s))))).

(** Value of a non-empty run of decimal digits. *)
Fixpoint digits_val (acc : Z) (l : list ascii) : option Z :=
  match l with
  | [] => Some acc
  | c :: r => if is_ascii_digit c then digits_val (acc * 10 + (code c - 48)) r else None
  end.

Definition parse_digits (l : list ascii) : option Z :=
  match l with [] => None | _ => digits_val 0 l end.

(** The rest of [l] after the sign character [c], if it starts with it. *)
Definition strip_sign (c : ascii) (l : list ascii) : option (list ascii) :=
  match l with
  | d :: r => if Ascii.eqb d c then Some r else None
  | [] => None
  end.

(** [str::parse::<u64>]: an optional [+], then digits, in range. *)
Definition parse_u64 (s : string) : option Z :=
  v ← parse_digits (default (chars s) (strip_sign "+" (chars s)));
  if v <=? u64_max then Some v else None.

(** [str::parse::<i64>]: an optional sign, then digits, in range. *)
Definition parse_i64 (s : string) : option Z :=
  v ← match strip_sign "-" (chars s) with
      | Some r => Z.opp <$> parse_digits r
      | None => parse_digits (default (chars s) (strip_sign "+" (chars s)))
      end;
  if decide (in_i64 v) then Some v else None.

Lemma digits_val_lower acc l v : 0 <= acc -> digits_val acc l = Some v -> acc <= v.
Proof.
  revert acc. induction l as [|c l IH]; simpl; intros acc Hacc Hv; [by simplify_eq|].
  destruct (is_ascii_digit c) eqn:Hd; [|done].
  assert (48 <= code c <= 57).
  { unfold is_ascii_digit in Hd. apply andb_true_iff in Hd.
    rewrite !Z.leb_le in Hd. lia. }
  apply IH in Hv; lia.
Qed.

Lemma parse_digits_nonneg l v : parse_digits l = Some v -> 0 <= v.
Proof.
  unfold parse_digits. destruct l; [done|].
  intros H. by apply digits_val_lower in H.
Qed.

Lemma parse_u64_range s v : parse_u64 s = Some v -> 0 <= v <= u64_max.
Proof.
  unfold parse_u64. intros H. apply bind_Some in H as (w & Hw & Hv).
  destruct (Z.leb_spec w u64_max); simplify_eq/=. split; [|done].
  by eapply parse_digits_nonneg.
Qed.

Lemma parse_i64_range s v : parse_i64 s = Some v -> in_i64 v.
Proof.
  unfold parse_i64. intros H. apply bind_Some in H as (w & Hw & Hv).
  by case_decide; simplify_eq/=.
Qed.

Lemma chars_of_chars l : chars (of_chars l) = l.
Proof. apply String.list_ascii_of_string_of_list_ascii. Qed.

Lemma of_chars_chars s : of_chars (chars s) = s.
Proof. apply String.string_of_list_ascii_of_string. Qed.
