(* ===== verification/Characters.v ===== *)
(** * Characters and UTF-8

    Text as the Rust standard library sees it: a sequence of code points ([input]), encoded
    as the bytes of a [string].  [char::is_whitespace] is the exact Unicode set; which
    characters beyond ASCII are letters or digits is the interface [Unicode].
    [from_utf8_lossy] decodes any bytes, and is the inverse of the encoding on text. *)

From Stdlib Require Import Ascii.
From S2P Require Import Prelude Rust.

Set Default Goal Selector "!".

(** [char::is_alphanumeric], [char::is_alphabetic] and [char::to_uppercase] on the characters
    beyond ASCII. *)
Class Unicode := {
  alphanumeric : Z -> bool;
  alphabetic : Z -> bool;
  uppercase : Z -> list Z;
}.

Abbreviation input := (list Z).

(** The code points of an ASCII text. *)
Definition cps (s : string) : input := map code (chars s).

(** The UTF-8 encoding. *)
Definition byte_of (z : Z) : ascii := ascii_of_N (Z.to_N z).
Definition utf8 (c : Z) : list ascii :=
  if c <? 128 then [byte_of c]
  else if c <? 2048 then [byte_of (192 + c / 64); byte_of (128 + c mod 64)]
  else if c <? 65536 then [byte_of (224 + c / 4096); byte_of (128 + c / 64 mod 64); byte_of (128 + c mod 64)]
  else [byte_of (240 + c / 262144); byte_of (128 + c / 4096 mod 64); byte_of (128 + c / 64 mod 64);
        byte_of (128 + c mod 64)].
Definition to_str (l : input) : string := of_chars (flat_map utf8 l).

(** [char::is_whitespace] *)
Definition is_space (c : Z) : bool :=
  ((9 <=? c) && (c <=? 13)) || (c =? 32) || (c =? 133) || (c =? 160) || (c =? 5760) ||
  ((8192 <=? c) && (c <=? 8202)) || (c =? 8232) || (c =? 8233) || (c =? 8239) || (c =? 8287) || (c =? 12288).

Definition is_digit (c : Z) : bool := (48 <=? c) && (c <=? 57).
Definition is_ascii_alnum (c : Z) : bool :=
  is_digit c || ((65 <=? c) && (c <=? 90)) || ((97 <=? c) && (c <=? 122)).

Section characters.
Context `{Unicode}.
Definition is_alphanumeric (c : Z) : bool := if c <? 128 then is_ascii_alnum c else alphanumeric c.
Definition word_char (c : Z) : bool := is_alphanumeric c || (c =? code "_").
End characters.

(** The longest prefix of characters that satisfy [p], and the rest. *)
Fixpoint span (p : Z -> bool) (s : input) : input * input :=
  match s with
  | c :: r => if p c then let '(a, b) := span p r in (c :: a, b) else ([], s)
  | [] => ([], [])
  end.

Definition trim_by (p : Z -> bool) (s : input) : input :=
  let front l := (span p l).2 in rev (front (rev (front s))).
Definition trim_cps (s : input) : input := trim_by is_space s.

(** ** Decoding *)

(** What the first byte of a sequence announces: the number of bytes after it, and the
    range of the first of them. *)
Definition lead (b : Z) : option (nat * Z * Z) :=
  if b <? 128 then Some (0%nat, 0, 0)
  else if b <? 194 then None
  else if b <? 224 then Some (1%nat, 128, 191)
  else if b =? 224 then Some (2%nat, 160, 191)
  else if b =? 237 then Some (2%nat, 128, 159)
  else if b <? 240 then Some (2%nat, 128, 191)
  else if b =? 240 then Some (3%nat, 144, 191)
  else if b <? 244 then Some (3%nat, 128, 191)
  else if b =? 244 then Some (3%nat, 128, 143)
  else None.

Definition within (lo hi : Z) (b : ascii) : bool := (lo <=? code b) && (code b <=? hi).

(** The continuation bytes at the start of [l], at most [n], the first between [lo] and
    [hi]. *)
Fixpoint continuation (n : nat) (lo hi : Z) (l : list ascii) : list ascii :=
  match n, l with
  | S n, b :: r => if within lo hi b then b :: continuation n 128 191 r else []
  | _, _ => []
  end.

(** The code point of a sequence with first byte [b]. *)
Definition code_point (b : Z) (cont : list ascii) : Z :=
  let head := match length cont with O => b | 1%nat => b - 192 | 2%nat => b - 224 | _ => b - 240 end in
  foldl (fun acc c => acc * 64 + (code c - 128)) head cont.

(** One step of the decoder: the character, U+FFFD for the longest invalid prefix of a
    sequence, and how many bytes it takes. *)
Definition utf8_step (b : ascii) (r : list ascii) : Z * nat :=
  match lead (code b) with
  | Some (n, lo, hi) =>
      let cont := continuation n lo hi r in
      (if bool_decide (length cont = n) then code_point (code b) cont else 65533, S (length cont))
  | None => (65533, 1%nat)
  end.

Fixpoint utf8_decode (fuel : nat) (l : list ascii) : input :=
  match fuel, l with
  | S fuel, b :: r => let '(c, n) := utf8_step b r in c :: utf8_decode fuel (drop n l)
  | _, _ => []
  end.

(** [String::from_utf8_lossy] *)
Definition from_utf8_lossy (l : list ascii) : input := utf8_decode (length l) l.

(** The characters of a string. *)
Definition of_str (s : string) : input := from_utf8_lossy (chars s).

(** [str::trim] *)
Definition trim_str (s : string) : string := to_str (trim_cps (of_str s)).

(** A Unicode scalar value, a [char]. *)
Definition scalar (c : Z) : Prop := 0 <= c < 55296 \/ 57344 <= c < 1114112.

Lemma code_range c : 0 <= code c < 256.
Proof. unfold code. pose proof (N_ascii_bounded c). lia. Qed.

Lemma byte_code c : byte_of (code c) = c.
Proof. unfold byte_of, code. by rewrite N2Z.id, ascii_N_embedding. Qed.

Lemma code_byte z : 0 <= z < 256 -> code (byte_of z) = z.
Proof. intros Hz. unfold code, byte_of. rewrite N_ascii_embedding; lia. Qed.

(** Six bits of a character as a continuation byte. *)
Lemma continuation_bits z : code (byte_of (128 + z mod 64)) = 128 + z mod 64.
Proof. apply code_byte. pose proof (Z.mod_pos_bound z 64). lia. Qed.

Lemma within_bits z lo hi : lo <= 128 + z mod 64 <= hi -> within lo hi (byte_of (128 + z mod 64)) = true.
Proof. intros Hz. unfold within. rewrite continuation_bits. apply andb_true_iff. rewrite !Z.leb_le. lia. Qed.

(** The first byte of a character of two, three and four bytes. *)
Ltac lead_of := unfold lead;
  repeat match goal with
  | |- context [?a <? ?b] => destruct (Z.ltb_spec a b); try lia
  | |- context [?a =? ?b] => destruct (Z.eqb_spec a b); try lia
  end; eauto.

Lemma lead_two z : 2 <= z < 32 -> lead (192 + z) = Some (1%nat, 128, 191).
Proof. intros Hz. lead_of. Qed.

Lemma lead_three z m : 0 <= z < 16 -> (z = 0 -> 32 <= m) -> (z = 13 -> m < 32) -> 0 <= m < 64 ->
  exists lo hi, lead (224 + z) = Some (2%nat, lo, hi) /\ lo <= 128 + m <= hi.
Proof. intros Hz H0 H13 Hm. lead_of; do 2 eexists; (split; [done|lia]). Qed.

Lemma lead_four z m : 0 <= z < 5 -> (z = 0 -> 16 <= m) -> (z = 4 -> m < 16) -> 0 <= m < 64 ->
  exists lo hi, lead (240 + z) = Some (3%nat, lo, hi) /\ lo <= 128 + m <= hi.
Proof. intros Hz H0 H4 Hm. lead_of; do 2 eexists; (split; [done|lia]). Qed.

Lemma mod64 z : 0 <= z mod 64 < 64.
Proof. apply Z.mod_pos_bound. lia. Qed.

Lemma mod64_range z : 128 <= 128 + z mod 64 <= 191.
Proof. pose proof (mod64 z). lia. Qed.

Lemma div_mod64 z : z = 64 * (z / 64) + z mod 64.
Proof. by apply Z.div_mod. Qed.

Lemma div_4096 c : c / 4096 = c / 64 / 64.
Proof. by rewrite Z.div_div. Qed.

Lemma div_262144 c : c / 262144 = c / 4096 / 64.
Proof. by rewrite Z.div_div. Qed.

Lemma utf8_step_two c rest : 128 <= c < 2048 ->
  utf8_step (byte_of (192 + c / 64)) ([byte_of (128 + c mod 64)] ++ rest) = (c, 2%nat).
Proof.
  intros Hc. pose proof (div_mod64 c). pose proof (mod64 c). unfold utf8_step. rewrite code_byte, lead_two by lia.
  cbn [continuation app]. rewrite within_bits by apply mod64_range. cbn [length]. rewrite bool_decide_eq_true_2 by done.
  f_equal. unfold code_point. cbn [length foldl]. rewrite continuation_bits. lia.
Qed.

Lemma utf8_step_three c rest : 2048 <= c < 65536 -> scalar c ->
  utf8_step (byte_of (224 + c / 4096)) ([byte_of (128 + c / 64 mod 64); byte_of (128 + c mod 64)] ++ rest) = (c, 3%nat).
Proof.
  intros Hc Hs. pose proof (div_mod64 c). pose proof (mod64 c). rewrite div_4096.
  pose proof (div_mod64 (c / 64)). pose proof (mod64 (c / 64)).
  destruct (lead_three (c / 64 / 64) (c / 64 mod 64)) as (lo & hi & Hl & Hr); [lia|lia|unfold scalar in Hs; lia|lia|].
  unfold utf8_step. rewrite code_byte, Hl by lia.
  cbn [continuation app]. rewrite (within_bits _ lo hi) by done. rewrite within_bits by apply mod64_range.
  cbn [length]. rewrite bool_decide_eq_true_2 by done. f_equal. unfold code_point. cbn [length foldl].
  rewrite !continuation_bits. lia.
Qed.

Lemma utf8_step_four c rest : 65536 <= c < 1114112 ->
  utf8_step (byte_of (240 + c / 262144))
    ([byte_of (128 + c / 4096 mod 64); byte_of (128 + c / 64 mod 64); byte_of (128 + c mod 64)] ++ rest) = (c, 4%nat).
Proof.
  intros Hc. pose proof (div_mod64 c). pose proof (mod64 c). rewrite div_262144, !div_4096.
  pose proof (div_mod64 (c / 64)). pose proof (mod64 (c / 64)).
  pose proof (div_mod64 (c / 64 / 64)). pose proof (mod64 (c / 64 / 64)).
  destruct (lead_four (c / 64 / 64 / 64) (c / 64 / 64 mod 64)) as (lo & hi & Hl & Hr); [lia..|].
  unfold utf8_step. rewrite code_byte, Hl by lia.
  cbn [continuation app]. rewrite (within_bits _ lo hi) by done. rewrite !within_bits by apply mod64_range.
  cbn [length]. rewrite bool_decide_eq_true_2 by done. f_equal. unfold code_point. cbn [length foldl].
  rewrite !continuation_bits. lia.
Qed.

Lemma utf8_step_encode c rest : scalar c ->
  exists b r, utf8 c = b :: r /\ utf8_step b (r ++ rest) = (c, S (length r)).
Proof.
  intros Hc. unfold utf8. destruct (Z.ltb_spec c 128).
  { exists (byte_of c), []. split; [done|]. unfold utf8_step. rewrite code_byte by (destruct Hc; lia).
    unfold lead. by rewrite (proj2 (Z.ltb_lt c 128)). }
  destruct (Z.ltb_spec c 2048); [|destruct (Z.ltb_spec c 65536)].
  - do 2 eexists. split; [done|]. by apply utf8_step_two.
  - do 2 eexists. split; [done|]. by apply utf8_step_three.
  - do 2 eexists. split; [done|]. apply utf8_step_four. destruct Hc; lia.
Qed.

Lemma utf8_decode_encode l fuel : Forall scalar l -> (length (flat_map utf8 l) <= fuel)%nat ->
  utf8_decode fuel (flat_map utf8 l) = l.
Proof.
  intros Hl. revert fuel. induction Hl as [|c l Hc _ IH]; intros fuel Hf; [by destruct fuel|].
  cbn [flat_map] in *. destruct (utf8_step_encode c (flat_map utf8 l) Hc) as (b & r & Hu & Hs). rewrite Hu in *.
  cbn [app length] in Hf. rewrite length_app in Hf. destruct fuel as [|fuel]; [lia|].
  cbn [app utf8_decode]. rewrite Hs. cbn [drop]. by rewrite drop_app_length, IH by lia.
Qed.

(** Decoding inverts encoding. *)
Lemma from_utf8_lossy_encode l : Forall scalar l -> from_utf8_lossy (flat_map utf8 l) = l.
Proof. intros Hl. by apply utf8_decode_encode. Qed.

Lemma of_str_to_str l : Forall scalar l -> of_str (to_str l) = l.
Proof. intros Hl. unfold of_str, to_str. rewrite chars_of_chars. by apply from_utf8_lossy_encode. Qed.

(** A string a Rust [String] can hold. *)
Definition is_utf8 (s : string) : Prop := exists l, Forall scalar l /\ s = to_str l.

Lemma to_str_of_str s : is_utf8 s -> to_str (of_str s) = s.
Proof. intros (l & Hl & ->). by rewrite of_str_to_str. Qed.

Lemma of_str_scalar s : is_utf8 s -> Forall scalar (of_str s).
Proof. intros (l & Hl & ->). by rewrite of_str_to_str. Qed.

(** An ASCII string is its own sequence of characters. *)
Lemma to_str_cps s : Forall (fun c => code c < 128) (chars s) -> to_str (cps s) = s.
Proof.
  intros Hs. unfold to_str, cps. rewrite <- (of_chars_chars s) at 2. f_equal.
  induction Hs as [|c l Hc _ IH]; [done|]. cbn [map flat_map]. rewrite IH. unfold utf8.
  by rewrite (proj2 (Z.ltb_lt _ _) Hc), byte_code.
Qed.

Lemma ascii_is_utf8 s : Forall (fun c => code c < 128) (chars s) -> is_utf8 s.
Proof.
  intros Hs. exists (cps s). split; [|by rewrite to_str_cps]. unfold cps. apply List.Forall_map.
  eapply list.Forall_impl; [exact Hs|]. intros c Hc. pose proof (code_range c). unfold scalar. lia.
Qed.

Lemma ascii_str s : Forall (fun c => code c < 128) (chars s) -> of_str s = cps s.
Proof.
  intros Hs. destruct (ascii_is_utf8 s Hs) as (l & Hl & ->). rewrite of_str_to_str by done.
  pose proof (to_str_cps _ Hs) as Heq. rewrite <- (of_str_to_str l Hl) at 1. rewrite <- Heq.
  rewrite of_str_to_str; [by rewrite Heq|]. unfold cps. apply List.Forall_map. eapply list.Forall_impl; [exact Hs|].
  intros c Hc. pose proof (code_range c). unfold scalar. lia.
Qed.

Lemma span_none p s : Forall (fun c => p c = false) s -> (span p s).2 = s.
Proof. intros Hs. destruct Hs as [|c s Hc _]; [done|]. simpl. by rewrite Hc. Qed.

Lemma trim_none s : Forall (fun c => is_space c = false) s -> trim_cps s = s.
Proof.
  intros Hs. unfold trim_cps, trim_by. cbn zeta. rewrite (span_none _ s) by done.
  rewrite span_none by (by apply Forall_rev). apply rev_involutive.
Qed.

(** A text of ASCII characters that are not white space is its own trimming. *)
Lemma trim_str_ascii s : Forall (fun c => code c < 128 /\ is_space (code c) = false) (chars s) -> trim_str s = s.
Proof.
  intros Hs. assert (Ha : Forall (fun c => code c < 128) (chars s)) by (eapply list.Forall_impl; [exact Hs|]; by intros c [? _]).
  unfold trim_str. rewrite ascii_str, trim_none; [by apply to_str_cps| |done].
  unfold cps. apply List.Forall_map. eapply list.Forall_impl; [exact Hs|]. by intros c [_ ?].
Qed.
