(* ===== verification/Json.v ===== *)
(** * JSON values as [serde_json] represents them, and [f64]

    The engine's rows are [HashMap<String, serde_json::Value>].  A JSON number
    is a [u64], a negative [i64] or a finite [f64]; [f64] is the binary64 format
    of Rocq's [SpecFloat] (53-bit mantissa, exponent bound 1024), an executable
    definition of the IEEE operations with round-to-nearest-even. *)

From Stdlib Require Import SpecFloat.
From S2P Require Import Prelude Rust.

Set Default Goal Selector "!".

(** ** [f64] *)

Abbreviation f64 := spec_float.

Definition f64_zero : f64 := S754_zero false.
Definition f64_add : f64 -> f64 -> f64 := SFadd 53 1024.
Definition f64_sub : f64 -> f64 -> f64 := SFsub 53 1024.
Definition f64_mul : f64 -> f64 -> f64 := SFmul 53 1024.
Definition f64_div : f64 -> f64 -> f64 := SFdiv 53 1024.
Definition f64_of_Z (z : Z) : f64 := binary_normalize 53 1024 z 0 false.

Definition f64_ltb (a b : f64) : bool := SFltb a b.
Definition f64_leb (a b : f64) : bool := SFleb a b.
Definition f64_partial_cmp (a b : f64) : option comparison := SFcompare a b.

Definition is_nan (f : f64) : bool := match f with S754_nan => true | _ => false end.

Definition is_finite (f : f64) : bool :=
  match f with S754_zero _ | S754_finite _ _ _ => true | _ => false end.

(** [f64::max]: the other operand when one is NaN. *)
Definition f64_max (a b : f64) : f64 :=
  if is_nan a then b else if f64_ltb a b then b else a.

(** Truncation towards zero of a finite value. *)
Definition f64_trunc (f : f64) : Z :=
  match f with
  | S754_finite s m e =>
      let v := if 0 <=? e then Z.pos m * 2 ^ e else Z.pos m / 2 ^ (- e) in
      if s then - v else v
  | _ => 0
  end.

(** [f as i64] and [f as u64]: truncate and saturate, NaN gives 0. *)
Definition f64_as (lo hi : Z) (f : f64) : Z :=
  match f with
  | S754_nan => 0
  | S754_infinity s => if s then lo else hi
  | _ => Z.max lo (Z.min hi (f64_trunc f))
  end.

Definition f64_as_i64 : f64 -> Z := f64_as i64_min i64_max.
Definition f64_as_u64 : f64 -> Z := f64_as 0 u64_max.

(** ** Numbers and values *)

Inductive number :=
  | PosInt (n : Z)
  | NegInt (n : Z)
  | Float (f : f64).

#[local] Set Warnings "-register-all".

(** Objects are [serde_json::Map], ordered by key. *)
Inductive value :=
  | VNull
  | VBool (b : bool)
  | VNumber (n : number)
  | VString (s : string)
  | VArray (l : list value)
  | VObject (m : list (string * value)).

Abbreviation row := (gmap string value).

Definition number_as_i64 (n : number) : option Z :=
  match n with
  | PosInt u => if u <=? i64_max then Some u else None
  | NegInt i => Some i
  | Float _ => None
  end.

Definition number_as_u64 (n : number) : option Z :=
  match n with PosInt u => Some u | _ => None end.

Definition number_as_f64 (n : number) : f64 :=
  match n with
  | PosInt u => f64_of_Z u
  | NegInt i => f64_of_Z i
  | Float f => f
  end.

Definition as_i64 (v : value) : option Z :=
  match v with VNumber n => number_as_i64 n | _ => None end.
Definition as_u64 (v : value) : option Z :=
  match v with VNumber n => number_as_u64 n | _ => None end.
Definition as_f64 (v : value) : option f64 :=
  match v with VNumber n => Some (number_as_f64 n) | _ => None end.
Definition as_str (v : value) : option string :=
  match v with VString s => Some s | _ => None end.
Definition as_bool (v : value) : option bool :=
  match v with VBool b => Some b | _ => None end.
Definition is_null (v : value) : bool := match v with VNull => true | _ => false end.
Definition is_number (v : value) : bool := match v with VNumber _ => true | _ => false end.

(** [Value::from] on [i64], and [json!] on [f64] (null when not finite). *)
Definition value_of_i64 (i : Z) : value :=
  VNumber (if i <? 0 then NegInt i else PosInt i).
Definition value_of_f64 (f : f64) : value :=
  if is_finite f then VNumber (Float f) else VNull.

(** The invariant of [serde_json::Number]. *)
Definition number_wf (n : number) : Prop :=
  match n with
  | PosInt u => 0 <= u <= u64_max
  | NegInt i => i64_min <= i < 0
  | Float f => is_finite f = true
  end.

(** ** Decidable equality of values *)

#[global] Instance f64_eq_dec : EqDecision f64.
Proof. solve_decision. Defined.

#[global] Instance number_eq_dec : EqDecision number.
Proof. solve_decision. Defined.

Section value_induction.
Context (P : value -> Prop).
Context (HNull : P VNull) (HBool : forall b, P (VBool b)) (HNum : forall n, P (VNumber n))
  (HStr : forall s, P (VString s))
  (HArr : forall l, Forall P l -> P (VArray l))
  (HObj : forall m, Forall (fun kv => P kv.2) m -> P (VObject m)).

Fixpoint value_ind' (v : value) : P v :=
  match v with
  | VNull => HNull
  | VBool b => HBool b
  | VNumber n => HNum n
  | VString s => HStr s
  | VArray l =>
      HArr l ((fix go l := match l return Forall P l with
                           | [] => Forall_nil_2 _
                           | x :: r => Forall_cons_2 _ _ _ (value_ind' x) (go r)
                           end) l)
  | VObject m =>
      HObj m ((fix go m := match m return Forall (fun kv => P kv.2) m with
                           | [] => Forall_nil_2 _
                           | (k, x) :: r => Forall_cons_2 _ (k, x) r (value_ind' x) (go r)
                           end) m)
  end.
End value_induction.

Fixpoint value_eqb (a b : value) : bool :=
  match a, b with
  | VNull, VNull => true
  | VBool x, VBool y => bool_decide (x = y)
  | VNumber x, VNumber y => bool_decide (x = y)
  | VString x, VString y => bool_decide (x = y)
  | VArray x, VArray y =>
      (fix go x y := match x, y with
                     | [], [] => true
                     | u :: x', w :: y' => value_eqb u w && go x' y'
                     | _, _ => false
                     end) x y
  | VObject x, VObject y =>
      (fix go x y := match x, y with
                     | [], [] => true
                     | (k, u) :: x', (j, w) :: y' =>
                         bool_decide (k = j) && value_eqb u w && go x' y'
                     | _, _ => false
                     end) x y
  | _, _ => false
  end.

Lemma value_eqb_eq a b : value_eqb a b = true <-> a = b.
Proof.
  revert b. induction a as [| | | |l IH|m IH] using value_ind'; intros [| | | |l'|m'];
    simpl; try (split; [done | intros [=]]; fail);
    try (rewrite bool_decide_eq_true; split; [by intros ->| by intros [=]]).
  - done.
  - enough (H : forall l', (fix go x y := match x, y with
                     | [], [] => true
                     | u :: x', w :: y' => value_eqb u w && go x' y'
                     | _, _ => false end) l l' = true <-> l = l').
    { rewrite H. split; [by intros -> | by intros [=]]. }
    clear l'. induction IH as [|x l Hx _ IHl]; intros [|y l']; try done.
    rewrite andb_true_iff, Hx, IHl. split; [by intros [-> ->] | by intros [= -> ->]].
  - enough (H : forall m', (fix go x y := match x, y with
                     | [], [] => true
                     | (k, u) :: x', (j, w) :: y' =>
                         bool_decide (k = j) && value_eqb u w && go x' y'
                     | _, _ => false end) m m' = true <-> m = m').
    { rewrite H. split; [by intros -> | by intros [=]]. }
    clear m'. induction IH as [|[k x] m Hx _ IHm]; intros [|[j y] m']; try done.
    simpl in Hx. rewrite !andb_true_iff, Hx, IHm, bool_decide_eq_true.
    split; [by intros [[-> ->] ->] | by intros [= -> -> ->]].
Qed.

#[global] Instance value_eq_dec : EqDecision value.
Proof.
  intros a b. destruct (value_eqb a b) eqn:E.
  - left. by apply value_eqb_eq.
  - right. intros H%value_eqb_eq. congruence.
Defined.

(** ** The order of [f64] away from NaN

    [f64_key] maps a value to a triple whose lexicographic order is [SFcompare];
    the order facts the comparison-based code needs follow from it. *)

Definition f64_key (f : f64) : Z * Z * Z :=
  match f with
  | S754_nan => (3, 0, 0)
  | S754_infinity s => (if s then -2 else 2, 0, 0)
  | S754_zero _ => (0, 0, 0)
  | S754_finite s m e => if s then (-1, - e, - Z.pos m) else (1, e, Z.pos m)
  end.

Definition key_le (a b : Z * Z * Z) : Prop :=
  let '(a1, a2, a3) := a in let '(b1, b2, b3) := b in
  a1 < b1 \/ a1 = b1 /\ (a2 < b2 \/ a2 = b2 /\ a3 <= b3).

Lemma key_le_refl k : key_le k k.
Proof. destruct k as [[??]?]. simpl. lia. Qed.

Lemma key_le_trans a b c : key_le a b -> key_le b c -> key_le a c.
Proof. destruct a as [[??]?], b as [[??]?], c as [[??]?]. simpl. lia. Qed.

Lemma key_le_total a b : key_le a b \/ key_le b a.
Proof. destruct a as [[??]?], b as [[??]?]. simpl. lia. Qed.

Lemma pos_compare_cont_eq a b : Pos.compare_cont Eq a b = Pos.compare a b.
Proof. done. Qed.

Lemma f64_leb_key a b :
  is_nan a = false -> is_nan b = false -> (f64_leb a b = true <-> key_le (f64_key a) (f64_key b)).
Proof.
  intros Ha Hb. unfold f64_leb, SFleb.
  destruct a as [s1|s1| |s1 m1 e1], b as [s2|s2| |s2 m2 e2]; try done;
    try (destruct s1); try (destruct s2); simpl; try (split; [done|lia]);
    try (split; [lia|done]);
    rewrite ?pos_compare_cont_eq;
    destruct (Z.compare_spec e1 e2), (Pos.compare_spec m1 m2); simpl;
    (split; [intros; try done; lia | intros; try done; exfalso; lia]).
Qed.

Lemma f64_ltb_leb a b :
  is_nan a = false -> is_nan b = false -> f64_ltb a b = negb (f64_leb b a).
Proof.
  intros Ha Hb. unfold f64_leb, f64_ltb, SFleb, SFltb.
  destruct a as [s1|s1| |s1 m1 e1], b as [s2|s2| |s2 m2 e2]; try done;
    try (destruct s1); try (destruct s2); simpl; try done;
    change (Pos.compare_cont Eq m1 m2) with (Pos.compare m1 m2);
    change (Pos.compare_cont Eq m2 m1) with (Pos.compare m2 m1);
    rewrite (Z.compare_antisym e1 e2), (Pos.compare_antisym m1 m2);
    destruct (e1 ?= e2), (m1 ?= m2)%positive; done.
Qed.

Lemma f64_leb_refl a : is_nan a = false -> f64_leb a a = true.
Proof. intros H. rewrite f64_leb_key by done. apply key_le_refl. Qed.

Lemma f64_leb_trans a b c :
  is_nan a = false -> is_nan b = false -> is_nan c = false ->
  f64_leb a b = true -> f64_leb b c = true -> f64_leb a c = true.
Proof. intros ???. rewrite !f64_leb_key by done. apply key_le_trans. Qed.

Lemma f64_leb_total a b :
  is_nan a = false -> is_nan b = false -> f64_leb a b = true \/ f64_leb b a = true.
Proof. intros ??. rewrite !f64_leb_key by done. apply key_le_total. Qed.

(** ** Conversions from integers are never NaN *)

Definition shr_nonneg (r : shr_record) : Prop := 0 <= shr_m r.

Lemma shr_1_nonneg r : shr_nonneg r -> shr_nonneg (shr_1 r).
Proof. destruct r as [[|[p|p|]|p] r s]; unfold shr_nonneg; simpl; lia. Qed.

Lemma iter_pos_ind {A} (P : A -> Prop) (f : A -> A) p x :
  (forall y, P y -> P (f y)) -> P x -> P (SpecFloat.iter_pos f p x).
Proof. intros Hf. revert x. induction p as [p IH|p IH|]; intros x Hx; simpl; auto. Qed.

Lemma shr_fexp_nonneg m e l : 0 <= m -> shr_nonneg (fst (shr_fexp 53 1024 m e l)).
Proof.
  intros Hm. unfold shr_fexp, shr.
  assert (Hr : shr_nonneg (shr_record_of_loc m l)) by (destruct l as [|[]]; done).
  destruct (_ - e); [done| |done]. simpl. apply (iter_pos_ind shr_nonneg); [apply shr_1_nonneg|done].
Qed.

Lemma round_nearest_even_nonneg m l : 0 <= m -> 0 <= round_nearest_even m l.
Proof. intros Hm. destruct l as [|[]]; simpl; try lia. destruct (Z.even m); lia. Qed.

Lemma binary_round_aux_not_nan s m e l : 0 <= m -> is_nan (binary_round_aux 53 1024 s m e l) = false.
Proof.
  intros Hm. unfold binary_round_aux.
  pose proof (shr_fexp_nonneg m e l Hm) as H1. destruct (shr_fexp 53 1024 m e l) as [r1 e1]. simpl in H1.
  pose proof (shr_fexp_nonneg (round_nearest_even (shr_m r1) (loc_of_shr_record r1)) e1 loc_Exact
    (round_nearest_even_nonneg _ _ H1)) as H2.
  destruct (shr_fexp 53 1024 (round_nearest_even _ _) e1 loc_Exact) as [r2 e2]. simpl in H2.
  unfold shr_nonneg in H2. destruct (shr_m r2) as [|p|p]; [done| |lia]. by destruct (e2 <=? _).
Qed.

Lemma f64_of_Z_not_nan z : is_nan (f64_of_Z z) = false.
Proof.
  unfold f64_of_Z, binary_normalize. destruct z as [|p|p]; [done| |];
    unfold binary_round; destruct (shl_align _ _ _) as [m e]; by apply binary_round_aux_not_nan.
Qed.

(** What [serde_json] guarantees of the numbers in a value. *)
Definition value_number_wf (v : value) : Prop :=
  match v with VNumber n => number_wf n | _ => True end.

Lemma as_f64_not_nan v f : value_number_wf v -> as_f64 v = Some f -> is_nan f = false.
Proof.
  destruct v as [| |[u|i|g]| | |]; simpl; try done; intros Hwf [= <-]; try apply f64_of_Z_not_nan.
  by destruct g.
Qed.

Lemma f64_cmp_gt a b :
  is_nan a = false -> is_nan b = false ->
  f64_partial_cmp a b = Some Datatypes.Gt <-> f64_leb a b = false.
Proof.
  intros Ha Hb. unfold f64_partial_cmp, f64_leb, SFleb.
  destruct (SFcompare a b) as [[]|] eqn:E; try done. by destruct a as [[]|[]| |[] ? ?], b as [[]|[]| |[] ? ?].
Qed.

Lemma f64_cmp_lt a b :
  is_nan a = false -> is_nan b = false ->
  f64_partial_cmp a b = Some Datatypes.Lt <-> f64_leb b a = false.
Proof.
  intros Ha Hb. pose proof (f64_ltb_leb a b Ha Hb) as Hlt. unfold f64_ltb, SFltb in Hlt.
  unfold f64_partial_cmp. destruct (SFcompare a b) as [[]|], (f64_leb b a); done.
Qed.

Lemma f64_as_range lo hi f : lo <= 0 <= hi -> lo <= f64_as lo hi f <= hi.
Proof. intros Hlh. unfold f64_as. destruct f as [s|s| |s m e]; [|destruct s|..]; lia. Qed.

Lemma as_i64_of_i64 z : in_i64 z -> as_i64 (value_of_i64 z) = Some z.
Proof.
  unfold in_i64, value_of_i64. intros Hz. destruct (Z.ltb_spec z 0); [done|]. simpl.
  destruct (Z.leb_spec z i64_max); [done|lia].
Qed.
