(* ===== verification/SinkCache.v ===== *)
(** * The sink cache ([crates/rekuiper-server/src/sink_cache.rs])

    A FIFO cache for records whose send failed: an in-memory head (oldest), disk
    pages, and an in-memory write page (newest).  The directory of the cache is
    part of the state: [files] maps a page's sequence number to the text of its
    file, and [write_faults] is the sequence of outcomes the next page writes will
    have ([true] = the write fails; once exhausted, writes succeed).  A record's
    JSON line is produced and read by serde_json, which is the parameter
    [LineCodec] with its documented laws [LineCodecOk]. *)

From Stdlib Require Import Ascii.
From S2P Require Import Prelude Rust Json.

Set Default Goal Selector "!".

(** ** Configuration *)

Inductive ResendPriority := LiveFirst | Equal | CacheFirst.

Record CacheConfig := mkCacheConfig {
  memory_threshold : Z;
  max_disk : Z;
  page_size : Z;
  resend_interval : Z;
  clean_at_stop : bool;
  priority : ResendPriority;
  indicator_field : option string;
  destination : option string;
}.

Definition default_config : CacheConfig :=
  {| memory_threshold := 1024; max_disk := 1024000; page_size := 256;
     resend_interval := 0; clean_at_stop := false; priority := Equal;
     indicator_field := None; destination := None |}.

Definition opt_u64 (opts : row) (key : string) : option Z :=
  v ← opts !! key;
  match v with
  | VNumber n =>
      match number_as_u64 n with
      | Some u => Some u
      | None => Some (f64_as_u64 (f64_max (number_as_f64 n) f64_zero))
      end
  | VString s => parse_u64 (trim s)
  | _ => None
  end.

Definition opt_i64 (opts : row) (key : string) : option Z :=
  v ← opts !! key;
  match v with
  | VNumber n => number_as_i64 n
  | VString s => parse_i64 (trim s)
  | _ => None
  end.

Definition opt_bool (opts : row) (key : string) : option bool :=
  v ← opts !! key;
  match v with
  | VBool b => Some b
  | VString s =>
      let t := to_ascii_lowercase (trim s) in
      if bool_decide (t ∈ ["true"; "1"; "yes"]) then Some true
      else if bool_decide (t ∈ ["false"; "0"; "no"]) then Some false
      else None
  | _ => None
  end.

Definition opt_str (opts : row) (key : string) : option string :=
  v ← opts !! key;
  s ← as_str v;
  let t := trim s in
  if bool_decide (t = ""%string) then None else Some t.

Definition from_action (opts : row) : option CacheConfig :=
  if negb (default false (opt_bool opts "enableCache")) then None
  else
    let d := default_config in
    Some
      {| memory_threshold :=
           Z.max 1 (default (memory_threshold d) (opt_u64 opts "memoryCacheThreshold"));
         max_disk := default (max_disk d) (opt_u64 opts "maxDiskCache");
         page_size := Z.max 1 (default (page_size d) (opt_u64 opts "bufferPageSize"));
         resend_interval := default (resend_interval d) (opt_u64 opts "resendInterval");
         clean_at_stop := default (clean_at_stop d) (opt_bool opts "cleanCacheAtStop");
         priority :=
           (let p := default 0 (opt_i64 opts "resendPriority") in
            if p <? 0 then LiveFirst else if p =? 0 then Equal else CacheFirst);
         indicator_field := opt_str opts "resendIndicatorField";
         destination := opt_str opts "resendDestination" |}.

(** ** Lines of a page file *)

Class LineCodec (R : Type) := {
  to_line : R -> string;
  from_line : string -> option R;
}.

Definition newline : ascii := "010".
Definition carriage_return : ascii := "013".

(** What the cache relies on of serde_json's compact writer and its reader: a
    record reads back, and its text holds no line break. *)
Class LineCodecOk (R : Type) `{LineCodec R} : Prop := {
  from_to_line : forall r : R, from_line (to_line r) = Some r;
  to_line_no_newline : forall r : R, newline ∉ chars (to_line r);
  to_line_no_cr : forall r : R, carriage_return ∉ chars (to_line r);
}.

(** [BufRead::lines]: text up to each [\n], a trailing [\r] removed; a last line
    without terminator counts when it is not empty. *)
Definition strip_cr (rev_line : list ascii) : list ascii :=
  match rev_line with
  | c :: r => if Ascii.eqb c carriage_return then r else rev_line
  | [] => []
  end.

Fixpoint lines_from (acc : list ascii) (l : list ascii) : list string :=
  match l with
  | [] => match acc with [] => [] | _ => [of_chars (rev acc)] end
  | c :: r =>
      if Ascii.eqb c newline then of_chars (rev (strip_cr acc)) :: lines_from [] r
      else lines_from (c :: acc) r
  end.

Definition lines (s : string) : list string := lines_from [] (chars s).

Definition len {A} (l : list A) : Z := Z.of_nat (length l).

(** ** State *)

Record Page := mkPage { seq : Z; count : Z }.

Definition SEQ_BASE : Z := Z.shiftl 1 40.

Record Fs := mkFs {
  files : gmap Z string;
  write_faults : list bool;
}.

Record SinkCache (R : Type) := mkSinkCache {
  cfg : CacheConfig;
  fs : Fs;
  head : list R;
  pages : list Page;
  tail : list R;
  disk_records : Z;
  next_seq : Z;
  dropped : Z;
}.

Arguments mkSinkCache {R}.
Arguments cfg {R}. Arguments fs {R}. Arguments head {R}. Arguments pages {R}.
Arguments tail {R}. Arguments disk_records {R}. Arguments next_seq {R}. Arguments dropped {R}.

Section operations.
Context {R : Type} `{LineCodec R}.
Implicit Types (c : SinkCache R) (r : R).

Definition set_head (h : list R) c : SinkCache R :=
  mkSinkCache (cfg c) (fs c) h (pages c) (tail c) (disk_records c) (next_seq c) (dropped c).
Definition set_tail (t : list R) c : SinkCache R :=
  mkSinkCache (cfg c) (fs c) (head c) (pages c) t (disk_records c) (next_seq c) (dropped c).
Definition set_fs (f : Fs) c : SinkCache R :=
  mkSinkCache (cfg c) f (head c) (pages c) (tail c) (disk_records c) (next_seq c) (dropped c).
Definition add_dropped (n : Z) c : SinkCache R :=
  mkSinkCache (cfg c) (fs c) (head c) (pages c) (tail c) (disk_records c) (next_seq c)
    (dropped c + n).
Definition set_pages (ps : list Page) (d n : Z) c : SinkCache R :=
  mkSinkCache (cfg c) (fs c) (head c) ps (tail c) d n (dropped c).

Definition cache_len c : Z := len (head c) + disk_records c + len (tail c).
Definition is_empty c : bool := cache_len c =? 0.
Definition disk_enabled c : bool := page_size (cfg c) <=? max_disk (cfg c).

Definition remove_file (s : Z) c : SinkCache R :=
  set_fs (mkFs (delete s (files (fs c))) (write_faults (fs c))) c.

(** [write_page]: the text of the page and the outcome of the write (the rename
    makes a successful write appear at once). *)
Definition page_text (rs : list R) : string :=
  of_chars (concat (map (fun r => chars (to_line r) ++ [newline]) rs)).

Definition write_page (s : Z) (rs : list R) (f : Fs) : bool * Fs :=
  match write_faults f with
  | true :: w => (false, mkFs (files f) w)
  | false :: w => (true, mkFs (<[s := page_text rs]> (files f)) w)
  | [] => (true, mkFs (<[s := page_text rs]> (files f)) [])
  end.

Definition drop_oldest_page c : option (SinkCache R) :=
  match pages c with
  | [] => None
  | p :: ps =>
      let c := remove_file (seq p) c in
      Some (add_dropped (count p) (set_pages ps (disk_records c - count p) (next_seq c) c))
  end.

(** The records a page file reads back to, corrupt lines skipped. *)
Definition read_page (f : Fs) (s : Z) : list R :=
  match files f !! s with
  | Some text => omap from_line (lines text)
  | None => []
  end.

Definition load_page (p : Page) (ps : list Page) c : SinkCache R :=
  let loaded := read_page (fs c) (seq p) in
  let c := set_pages ps (disk_records c - count p) (next_seq c) c in
  let c := set_head (head c ++ loaded) c in
  remove_file (seq p) (add_dropped (Z.max 0 (count p - len loaded)) c).

Definition load_oldest_page c : option (SinkCache R) :=
  match pages c with
  | [] => None
  | p :: ps => Some (load_page p ps c)
  end.

(** The loop of [spill_tail], by recursion on the pages still on disk: each turn
    discards up to a page of the oldest in-memory records and moves the oldest
    page into memory. *)
Fixpoint spill_loop (ps : list Page) c : SinkCache R :=
  if max_disk (cfg c) <? disk_records c + len (tail c) then
    let n := Z.min (page_size (cfg c)) (len (head c)) in
    let c := add_dropped n (set_head (drop (Z.to_nat n) (head c)) c) in
    match ps with
    | p :: ps' => spill_loop ps' (load_page p ps' c)
    | [] =>
        if n =? 0 then
          let excess :=
            Z.min (Z.max 0 (disk_records c + len (tail c) - max_disk (cfg c))) (len (tail c)) in
          add_dropped excess (set_tail (drop (Z.to_nat excess) (tail c)) c)
        else c
    end
  else c.

Definition spill_tail c : SinkCache R :=
  match tail c with
  | [] => c
  | _ =>
      let c := spill_loop (pages c) c in
      match tail c with
      | [] => c
      | records =>
          let s := next_seq c in
          let c := set_tail [] c in
          match write_page s records (fs c) with
          | (true, f) =>
              set_pages (pages c ++ [mkPage s (len records)])
                (disk_records c + len records) (next_seq c + 1) (set_fs f c)
          | (false, f) => set_head (head c ++ records) (set_fs f c)
          end
      end
  end.

Definition push (r : R) c : SinkCache R :=
  if negb (disk_enabled c) then
    let c :=
      if memory_threshold (cfg c) <=? len (head c)
      then add_dropped 1 (set_head (drop 1 (head c)) c) else c in
    set_head (head c ++ [r]) c
  else if bool_decide (pages c = [] ∧ tail c = []) && (len (head c) <? memory_threshold (cfg c))
  then set_head (head c ++ [r]) c
  else
    let c := set_tail (tail c ++ [r]) c in
    if page_size (cfg c) <=? len (tail c) then spill_tail c else c.

(** [front]: refills the head when it is empty. *)
Definition refill c : SinkCache R :=
  match head c with
  | _ :: _ => c
  | [] =>
      match load_oldest_page c with
      | Some c' => c'
      | None => match tail c with [] => c | t => set_tail [] (set_head t c) end
      end
  end.

Definition front c : option R * SinkCache R :=
  let c := refill c in (list.head (head c), c).

Definition pop_front c : option R * SinkCache R :=
  let '(o, c) := front c in
  match o with
  | None => (None, c)
  | Some _ => (list.head (head c), set_head (drop 1 (head c)) c)
  end.

(** ** Restart *)

Fixpoint drop_excess (ps : list Page) c : SinkCache R :=
  if max_disk (cfg c) <? disk_records c then
    match ps with
    | [] => c
    | _ :: ps' => match drop_oldest_page c with Some c' => drop_excess ps' c' | None => c end
    end
  else c.

Definition adopt_page c (s : Z) : SinkCache R :=
  let n := match files (fs c) !! s with Some text => len (lines text) | None => 0 end in
  if n =? 0 then remove_file s c
  else set_pages (pages c ++ [mkPage s n]) (disk_records c + n) (Z.max (next_seq c) (s + 1)) c.

Definition page_seqs (f : Fs) : list Z := merge_sort Z.le (fst <$> map_to_list (files f)).

Definition adopt_pages c : SinkCache R :=
  let c := foldl adopt_page c (page_seqs (fs c)) in
  drop_excess (pages c) c.

Definition open (cf : CacheConfig) (f : Fs) : SinkCache R :=
  adopt_pages (mkSinkCache cf f [] [] [] 0 SEQ_BASE 0).

(** [slice::chunks] *)
Fixpoint chunks_fuel (fuel : nat) (n : nat) (l : list R) : list (list R) :=
  match fuel, l with
  | S fuel, _ :: _ => take n l :: chunks_fuel fuel n (drop n l)
  | _, _ => []
  end.

Definition chunks (n : Z) (l : list R) : list (list R) :=
  chunks_fuel (length l) (Z.to_nat (Z.min n (len l))) l.

Fixpoint write_chunks (s : Z) (cs : list (list R)) (f : Fs) : Fs :=
  match cs with
  | [] => f
  | rs :: cs => write_chunks (s + 1) cs (write_page s rs f).2
  end.

Definition close c : Fs :=
  if clean_at_stop (cfg c) then mkFs ∅ (write_faults (fs c))
  else
    let c := spill_tail c in
    match head c with
    | [] => fs c
    | h =>
        let first := match pages c with p :: _ => seq p | [] => next_seq c end in
        let cs := chunks (page_size (cfg c)) h in
        let base := Z.max 0 (first - len cs) in
        write_chunks base cs (fs c)
    end.
End operations.

(** [resend_copy] and [cache_dir] *)

Definition resend_copy (cf : CacheConfig) (data : row) : row :=
  match indicator_field cf with
  | Some f => <[f := VBool true]> data
  | None => data
  end.

(** The rule id in a directory name: every char that is not an ASCII letter, digit,
    hyphen or underscore becomes one underscore; the continuation bytes of a char
    beyond ASCII are dropped with it. *)
Definition safe_char (c : ascii) : option ascii :=
  if (128 <=? code c) && (code c <? 192) then None
  else if is_ascii_alphanumeric c || Ascii.eqb c "-" || Ascii.eqb c "_" then Some c
  else Some "_"%char.

Definition safe_rule_dir (rule_id : string) : string := of_chars (omap safe_char (chars rule_id)).
