(* ===== verification/SinkCacheFacts.v ===== *)
(** * The sink cache: invariant, refinement of a bounded FIFO queue, restart

    The disk tier's invariant [disk_ok] and the between-operations invariant
    [cache_ok]; the abstraction [contents] of a cache to the queue it represents;
    [fifo_step], the abstract bounded FIFO queue every operation refines; and the
    behaviour of a restart ([close] then [open]). *)

From Stdlib Require Import Ascii.
From S2P Require Import Prelude Rust Json SinkCache.

Set Default Goal Selector "!".
#[local] Set Warnings "-clear-no-such-hyp".

(** ** Text of a page *)

Lemma strip_cr_notin l : carriage_return ∉ l -> strip_cr l = l.
Proof.
  destruct l as [|c l]; [done|]. intros Hn. simpl.
  destruct (Ascii.eqb_spec c carriage_return) as [->|]; [|done]. set_solver.
Qed.

Lemma lines_from_line acc l rest :
  newline ∉ l ->
  lines_from acc (l ++ newline :: rest)
  = of_chars (rev (strip_cr (rev l ++ acc))) :: lines_from [] rest.
Proof.
  revert acc. induction l as [|c l IH]; intros acc Hn; simpl.
  - done.
  - destruct (Ascii.eqb_spec c newline) as [->|Hc]; [set_solver|].
    rewrite IH by set_solver. by rewrite <- app_assoc.
Qed.

Section codec.
Context {R : Type} `{LineCodecOk R}.

Lemma lines_page_text (rs : list R) : lines (page_text rs) = map to_line rs.
Proof.
  unfold lines, page_text. rewrite chars_of_chars.
  induction rs as [|r rs IH]; [done|]. simpl.
  rewrite <- app_assoc. simpl. rewrite lines_from_line by apply to_line_no_newline.
  rewrite IH, app_nil_r, strip_cr_notin.
  - by rewrite rev_involutive, of_chars_chars.
  - intros Hin.
    apply list_elem_of_In, in_rev, list_elem_of_In in Hin. by apply to_line_no_cr in Hin.
Qed.

Lemma omap_from_lines (rs : list R) : omap (M := list) from_line (map to_line rs) = rs.
Proof. induction rs as [|r rs IH]; csimpl; [done|]. by rewrite from_to_line, IH. Qed.

Lemma read_page_text f s (rs : list R) :
  files f !! s = Some (page_text rs) -> read_page f s = rs.
Proof.
  intros Hs. unfold read_page. by rewrite Hs, lines_page_text, omap_from_lines.
Qed.
End codec.

(** ** Invariant and abstraction *)

Definition config_ok (cf : CacheConfig) : Prop :=
  1 <= page_size cf /\ 1 <= memory_threshold cf /\ 0 <= max_disk cf.

Definition sum_counts (ps : list Page) : Z := foldr (fun p n => count p + n) 0 ps.

Section invariant.
Context {R : Type} `{LineCodecOk R}.
Implicit Types (c : SinkCache R) (r : R).

(** A page on disk: its file holds the text of [count] records. *)
Definition page_ok (f : Fs) (p : Page) : Prop :=
  exists rs : list R, files f !! seq p = Some (page_text rs) /\ count p = len rs /\ rs <> [].

(** The disk tier is consistent: pages in strictly increasing order below
    [next_seq], one file each and no other, [disk_records] their total. *)
Record disk_ok c : Prop := {
  ok_cfg : config_ok (cfg c);
  ok_pages : Forall (page_ok (fs c)) (pages c);
  ok_sorted : StronglySorted Z.lt (seq <$> pages c);
  ok_seqs : Forall (fun p => 0 <= seq p < next_seq c) (pages c);
  ok_next : 0 <= next_seq c;
  ok_dom : dom (files (fs c)) = list_to_set (seq <$> pages c);
  ok_records : disk_records c = sum_counts (pages c);
}.

(** Between operations: the disk budget is respected, the write page is not
    full, and the disk tier is unused when the budget is below a page. *)
Record cache_ok c : Prop := {
  ok_disk : disk_ok c;
  ok_budget : disk_records c <= max_disk (cfg c);
  ok_tail : len (tail c) < page_size (cfg c);
  ok_memory_only : disk_enabled c = false -> pages c = [] /\ tail c = [];
}.

(** The queue a cache represents, oldest record first. *)
Definition page_contents c : list R := concat (map (fun p => read_page (fs c) (seq p)) (pages c)).
Definition contents c : list R := head c ++ page_contents c ++ tail c.

Lemma len_app {A} (l k : list A) : len (l ++ k) = len l + len k.
Proof. unfold len. rewrite length_app. lia. Qed.

Lemma len_nonneg {A} (l : list A) : 0 <= len l.
Proof. unfold len. lia. Qed.

Lemma len_nil {A} (l : list A) : len l <= 0 -> l = [].
Proof. destruct l; [done|]. unfold len. simpl. lia. Qed.

Lemma len_drop {A} (n : Z) (l : list A) : 0 <= n <= len l -> len (drop (Z.to_nat n) l) = len l - n.
Proof. unfold len. rewrite length_drop. lia. Qed.

Lemma sum_counts_nonneg f ps : Forall (page_ok f) ps -> 0 <= sum_counts ps.
Proof.
  induction 1 as [|p ps (rs & _ & Hc & _) _ IH]; simpl; [lia|].
  pose proof (len_nonneg rs). lia.
Qed.

Lemma sum_counts_app ps qs : sum_counts (ps ++ qs) = sum_counts ps + sum_counts qs.
Proof. induction ps as [|p ps IH]; simpl; [done|]. rewrite IH. lia. Qed.

(** A file write or removal elsewhere leaves the other pages readable. *)
Lemma page_ok_files f g p :
  files g !! seq p = files f !! seq p -> page_ok f p -> page_ok g p.
Proof. intros Hfg (rs & Hs & Hc). exists rs. by rewrite Hfg. Qed.

Lemma read_pages_files f g ps :
  (forall p, p ∈ ps -> files g !! seq p = files f !! seq p) ->
  map (fun p => read_page (R := R) g (seq p)) ps = map (fun p => read_page f (seq p)) ps.
Proof.
  intros Hfg. apply map_ext_in. intros p Hp%list_elem_of_In.
  unfold read_page. by rewrite Hfg.
Qed.

Lemma page_ok_delete f s ps :
  s ∉ seq <$> ps -> Forall (page_ok f) ps ->
  Forall (page_ok (mkFs (delete s (files f)) (write_faults f))) ps.
Proof.
  intros Hs Hps. rewrite list.Forall_forall in *. intros p Hp.
  eapply page_ok_files; [|by apply Hps]. simpl.
  apply lookup_delete_ne. intros ->. apply Hs. by apply list_elem_of_fmap_2.
Qed.

Lemma sorted_head_notin p ps :
  StronglySorted Z.lt (seq <$> p :: ps) -> seq p ∉ seq <$> ps.
Proof.
  rewrite fmap_cons. intros [_ Hall]%StronglySorted_inv Hin.
  rewrite list.Forall_forall in Hall. apply Hall in Hin. lia.
Qed.

(** *** Moving the oldest page into memory *)

Lemma load_page_ok p ps c :
  disk_ok c -> pages c = p :: ps ->
  let c' := load_page p ps c in
  disk_ok c' /\ contents c' = contents c /\ dropped c' = dropped c /\
  head c' = head c ++ read_page (fs c) (seq p) /\ len (read_page (R := R) (fs c) (seq p)) = count p /\
  tail c' = tail c /\ disk_records c' = disk_records c - count p.
Proof.
  intros [Hcfg Hpg Hsrt Hsq Hnx Hdom Hrec] Hp. rewrite Hp in *.
  pose proof (sorted_head_notin _ _ Hsrt) as Hnotin.
  apply Forall_cons_1 in Hpg as [(rs & Hf & Hcnt & Hne) Hpg].
  assert (Hrd : read_page (fs c) (seq p) = rs) by exact (read_page_text _ _ _ Hf).
  rewrite fmap_cons in Hsrt. apply StronglySorted_inv in Hsrt as [Hsrt _].
  apply Forall_cons_1 in Hsq as [_ Hsq].
  split; [|split; [|split; [|split; [|split; [|split]]]]].
  - constructor; simpl; try done.
    + by apply page_ok_delete.
    + rewrite dom_delete_L, Hdom, fmap_cons. simpl. clear -Hnotin. set_solver.
    + rewrite Hrec. simpl. lia.
  - unfold contents, page_contents, load_page. simpl. rewrite Hp. simpl.
    rewrite <- !app_assoc. f_equal. f_equal. f_equal. f_equal.
    apply read_pages_files. intros q Hq. simpl. apply lookup_delete_ne.
    intros E. apply Hnotin. rewrite E. by apply list_elem_of_fmap_2.
  - simpl. rewrite Hrd, Hcnt. lia.
  - done.
  - by rewrite Hrd.
  - done.
  - done.
Qed.

(** *** Dropping the oldest records *)

(** [shed c c' k]: [c'] holds what [c] held without its [k] oldest records, and
    counted them. *)
Definition shed c c' (k : Z) : Prop :=
  0 <= k <= len (contents c) /\
  contents c' = drop (Z.to_nat k) (contents c) /\ dropped c' = dropped c + k.

Lemma shed_refl c c' : contents c' = contents c -> dropped c' = dropped c -> shed c c' 0.
Proof.
  intros Hc Hd. unfold shed. pose proof (len_nonneg (contents c)).
  split; [lia|]. rewrite Hc, Hd, drop_0. split; [done|lia].
Qed.

Lemma shed_trans c1 c2 c3 j k : shed c1 c2 j -> shed c2 c3 k -> shed c1 c3 (j + k).
Proof.
  intros (Hj & Hc2 & Hd2) (Hk & Hc3 & Hd3). rewrite Hc2, len_drop in Hk by lia.
  split; [lia|]. rewrite Hc3, Hc2, drop_drop, Hd3, Hd2.
  split; [f_equal; lia|lia].
Qed.

Lemma contents_len c : disk_ok c -> len (contents c) = cache_len c.
Proof.
  intros [_ Hpg _ _ _ _ Hrec]. unfold cache_len, contents, page_contents.
  rewrite Hrec, !len_app. rewrite Z.add_assoc. f_equal. f_equal. clear Hrec.
  induction Hpg as [|p ps (rs & Hf & Hc & _) _ IH]; simpl; [done|].
  rewrite len_app, IH. f_equal. rewrite Hc. by rewrite (read_page_text _ _ _ Hf).
Qed.

Lemma drop_head_ok n c :
  0 <= n <= len (head c) -> disk_ok c ->
  let c' := add_dropped n (set_head (drop (Z.to_nat n) (head c)) c) in
  disk_ok c' /\ shed c c' n.
Proof.
  intros Hn Hok c'. split; [by destruct Hok; constructor|]. split.
  - unfold contents. rewrite len_app. pose proof (len_nonneg (page_contents c ++ tail c)). lia.
  - split; [|done]. unfold contents. simpl. rewrite drop_app_le; [done|]. unfold len in Hn. lia.
Qed.

Lemma spill_loop_ok ps c :
  disk_ok c -> pages c = ps -> len (tail c) <= page_size (cfg c) -> disk_enabled c = true ->
  let c' := spill_loop ps c in
  disk_ok c' /\ tail c' = tail c /\ cfg c' = cfg c /\
  write_faults (fs c') = write_faults (fs c) /\
  disk_records c' + len (tail c') <= max_disk (cfg c) /\
  next_seq c' = next_seq c /\ (exists j, pages c' = drop j ps) /\
  exists k, shed c c' k /\ (disk_records c + len (tail c) <= max_disk (cfg c) -> k = 0).
Proof.
  revert c. induction ps as [|p ps IH]; intros c Hok Hps Htail Hen; simpl.
  - destruct (Z.ltb_spec (max_disk (cfg c)) (disk_records c + len (tail c))) as [Hlt|Hle].
    + apply Z.leb_le in Hen. destruct Hok as [_ _ _ _ _ _ Hrec]. rewrite Hps in Hrec.
      simpl in Hrec. lia.
    + split; [done|]. repeat split_and; try done; [by exists 0%nat|].
      exists 0. split; [by apply shed_refl|done].
  - destruct (Z.ltb_spec (max_disk (cfg c)) (disk_records c + len (tail c))) as [Hlt|Hle].
    + set (n := Z.min (page_size (cfg c)) (len (head c))).
      assert (Hn : 0 <= n <= len (head c)).
      { pose proof (len_nonneg (head c)). destruct (ok_cfg c Hok). lia. }
      destruct (drop_head_ok n c Hn Hok) as [Hok1 Hs1].
      set (c1 := add_dropped n _) in *.
      destruct (load_page_ok p ps c1 Hok1 Hps) as (Hok2 & Hc2 & Hd2 & _ & _ & Ht2 & _).
      destruct (IH (load_page p ps c1) Hok2 eq_refl) 
        as (Hok3 & Ht3 & Hcf3 & Hf3 & Hb3 & Hn3 & [j Hj] & k & Hs3 & _);
        [by rewrite Ht2|done|].
      split; [done|]. rewrite Ht3, Hcf3, Hf3. split; [by rewrite Ht2|].
      split; [done|]. split; [done|]. split; [by rewrite <- Ht3|].
      split; [done|]. split; [by exists (S j)|].
      exists (n + (0 + k)). split; [|lia]. eapply shed_trans; [exact Hs1|].
      eapply shed_trans; [|exact Hs3]. by apply shed_refl.
    + split; [done|]. repeat split_and; try done; [by exists 0%nat|].
      exists 0. split; [by apply shed_refl|done].
Qed.

(** *** Writing the write page to disk *)

(** The state after a successful [write_page] of the tail. *)
Definition append_page (rs : list R) c : SinkCache R :=
  set_pages (pages c ++ [mkPage (next_seq c) (len rs)]) (disk_records c + len rs) (next_seq c + 1)
    (set_fs (mkFs (<[next_seq c := page_text rs]> (files (fs c))) (list.tail (write_faults (fs c))))
      (set_tail [] c)).

Lemma append_page_ok rs c :
  disk_ok c -> tail c = rs -> rs <> [] ->
  disk_ok (append_page rs c) /\ contents (append_page rs c) = contents c.
Proof.
  intros [Hcfg Hpg Hsrt Hsq Hnx Hdom Hrec] Htail Hne.
  assert (Hold : forall p, p ∈ pages c -> seq p <> next_seq c).
  { intros p Hp. rewrite list.Forall_forall in Hsq. specialize (Hsq p Hp). lia. }
  split.
  - constructor; simpl; try done.
    + apply Forall_app. split.
      * rewrite list.Forall_forall in *. intros p Hp.
        eapply page_ok_files; [|by apply Hpg]. simpl.
        rewrite lookup_insert_ne; [done|]. intros E. by destruct (Hold p Hp).
      * repeat constructor. exists rs. simpl. by rewrite lookup_insert_eq.
    + rewrite fmap_app. apply StronglySorted_snoc; split; [done|].
      rewrite Forall_fmap. eapply list.Forall_impl; [exact Hsq|]. simpl. lia.
    + apply Forall_app. split.
      * eapply list.Forall_impl; [exact Hsq|]. simpl. lia.
      * repeat constructor; simpl; lia.
    + lia.
    + rewrite dom_insert_L, Hdom, fmap_app, list_to_set_app_L. simpl.
      generalize (list_to_set (C := gset Z) (seq <$> pages c)). set_solver.
    + rewrite sum_counts_app, Hrec. simpl. lia.
  - unfold contents, page_contents. simpl. rewrite map_app, concat_app. simpl.
    f_equal. rewrite !app_nil_r. f_equal.
    + f_equal. apply read_pages_files. intros p Hp. simpl.
      rewrite lookup_insert_ne; [done|]. intros E. by destruct (Hold p Hp).
    + rewrite Htail. apply read_page_text. simpl. apply lookup_insert_eq.
Qed.

Lemma spill_tail_ok c :
  disk_ok c -> len (tail c) <= page_size (cfg c) -> disk_enabled c = true ->
  disk_records c <= max_disk (cfg c) -> write_faults (fs c) = [] ->
  let c' := spill_tail c in
  disk_ok c' /\ tail c' = [] /\ cfg c' = cfg c /\ write_faults (fs c') = [] /\
  disk_records c' <= max_disk (cfg c) /\
  (forall n, Forall (fun p => n <= seq p) (pages c) -> n <= next_seq c ->
     Forall (fun p => n <= seq p) (pages c') /\ n <= next_seq c') /\
  exists k, shed c c' k /\ k <= len (contents c) - len (tail c) /\
    (disk_records c + len (tail c) <= max_disk (cfg c) -> k = 0).
Proof.
  intros Hok Htail Hen Hbud Hf. unfold spill_tail.
  destruct (tail c) as [|t ts] eqn:Et.
  { repeat split_and; try done. exists 0. split; [by apply shed_refl|]. split; [|done].
    pose proof (len_nonneg (contents c)). unfold len in *. simpl. lia. }
  destruct (spill_loop_ok (pages c) c) 
    as (Hok1 & Ht1 & Hcf1 & Hf1 & Hb1 & Hn1 & [j Hj] & k & Hs1 & Hk0);
    try done; [by rewrite Et|].
  set (c1 := spill_loop (pages c) c) in *. rewrite Et in Ht1. rewrite Ht1.
  unfold write_page. change (fs (set_tail [] c1)) with (fs c1). rewrite Hf1, Hf.
  destruct (append_page_ok (t :: ts) c1) as [Hok2 Hc2]; [done..|].
  unfold append_page in Hok2, Hc2. rewrite Hf1, Hf in Hok2, Hc2.
  split; [exact Hok2|]. rewrite Ht1 in Hb1. repeat split_and; try done.
  { intros m Hm Hmn. simpl. rewrite Hj, Hn1. split; [|lia].
    apply Forall_app. split; [by apply Forall_drop|]. by repeat constructor. }
  exists (k + 0). split; [eapply shed_trans; [exact Hs1|]; by apply shed_refl|].
  split; [|rewrite <- Et; lia].
  destruct Hs1 as (Hk & Hc1 & _). apply (f_equal len) in Hc1. rewrite len_drop in Hc1 by lia.
  unfold contents in Hc1 at 1. rewrite !len_app, Ht1 in Hc1.
  pose proof (len_nonneg (head c1)). pose proof (len_nonneg (page_contents c1)). lia.
Qed.

(** *** The operations against a bounded FIFO queue *)

(** What the cache promises: a queue from which only the oldest records are ever
    discarded, each discard counted, and never the record just pushed. *)
Inductive cache_op := OpPush (r : R) | OpPop.

Inductive fifo_step : list R * Z -> cache_op -> option R -> list R * Z -> Prop :=
  | fifo_push q d r k :
      0 <= k <= len q ->
      fifo_step (q, d) (OpPush r) None (drop (Z.to_nat k) (q ++ [r]), d + k)
  | fifo_pop_empty d : fifo_step ([], d) OpPop None ([], d)
  | fifo_pop q d r : fifo_step (r :: q, d) OpPop (Some r) (q, d).

Definition exec (op : cache_op) c : option R * SinkCache R :=
  match op with
  | OpPush r => (None, push r c)
  | OpPop => pop_front c
  end.

Definition abs c : list R * Z := (contents c, dropped c).

Lemma contents_snoc_tail r c : contents (set_tail (tail c ++ [r]) c) = contents c ++ [r].
Proof. unfold contents, page_contents. simpl. by rewrite <- !app_assoc. Qed.

Lemma push_spill_ok r c :
  cache_ok c -> disk_enabled c = true -> write_faults (fs c) = [] ->
  page_size (cfg c) <= len (tail c ++ [r]) ->
  let c' := spill_tail (set_tail (tail c ++ [r]) c) in
  cache_ok c' /\ write_faults (fs c') = [] /\ fifo_step (abs c) (OpPush r) None (abs c').
Proof.
  intros [Hok Hbud Ht Hmo] Hen Hf Hfull.
  set (c0 := set_tail (tail c ++ [r]) c).
  destruct (spill_tail_ok c0) as (Hok' & Ht' & Hcf' & Hf' & Hb' & _ & k & Hs & Hk & _); try done.
  { by destruct Hok; constructor. }
  { subst c0. simpl. rewrite len_app. unfold len in *. simpl. lia. }
  simpl. split; [|split; [done|]].
  - constructor; [done| | |].
    + by rewrite Hcf'.
    + rewrite Ht', Hcf'. destruct (ok_cfg c Hok). unfold len. simpl. lia.
    + unfold disk_enabled in *. rewrite Hcf'. simpl. by rewrite Hen.
  - destruct Hs as (Hk0 & Hc' & Hd'). unfold abs. rewrite Hc', Hd'.
    subst c0. rewrite contents_snoc_tail in *.
    apply fifo_push. simpl in Hk. rewrite !len_app in Hk. unfold len in *. simpl in *. lia.
Qed.

Lemma fifo_push_keep q d r : fifo_step (q, d) (OpPush r) None (q ++ [r], d).
Proof.
  pose proof (fifo_push q d r 0) as Hp. rewrite drop_0, Z.add_0_r in Hp.
  apply Hp. pose proof (len_nonneg q). lia.
Qed.

Lemma push_memory_ok r c :
  cache_ok c -> disk_enabled c = false ->
  cache_ok (push r c) /\ fs (push r c) = fs c /\
  fifo_step (abs c) (OpPush r) None (abs (push r c)).
Proof.
  intros [Hok Hbud Ht Hmo] Hen. destruct (Hmo Hen) as [Hpg Htl].
  unfold push. rewrite Hen. simpl.
  assert (Hcts : forall h, contents (set_head h c) = h).
  { intros h. unfold contents, page_contents. simpl. by rewrite Hpg, Htl, !app_nil_r. }
  destruct (Z.leb_spec (memory_threshold (cfg c)) (len (head c))).
  - split; [by constructor; [destruct Hok; constructor|..]|]. split; [done|].
    unfold abs. simpl.
    assert (E : contents (set_head (drop 1 (head c) ++ [r])
              (add_dropped 1 (set_head (drop 1 (head c)) c))) = drop (Z.to_nat 1) (contents c ++ [r])).
    { unfold contents at 1, page_contents. simpl. rewrite Hpg, Htl, !app_nil_r.
      unfold contents, page_contents. rewrite Hpg, Htl, !app_nil_r.
      destruct (ok_cfg c Hok) as (_ & Hm & _).
      destruct (head c); [unfold len in *; simpl in *; lia|]. done. }
    rewrite E. apply fifo_push. destruct (ok_cfg c Hok) as (_ & Hm & _).
    unfold contents, page_contents. rewrite Hpg, Htl, !app_nil_r. lia.
  - split; [by constructor; [destruct Hok; constructor|..]|]. split; [done|].
    unfold abs. simpl. rewrite Hcts.
    replace (contents c) with (head c) by (unfold contents, page_contents; by rewrite Hpg, Htl, !app_nil_r).
    apply fifo_push_keep.
Qed.

Lemma snoc_tail_ok r c :
  cache_ok c -> disk_enabled c = true -> write_faults (fs c) = [] ->
  len (tail c ++ [r]) < page_size (cfg c) ->
  let c' := set_tail (tail c ++ [r]) c in
  cache_ok c' /\ write_faults (fs c') = [] /\ fifo_step (abs c) (OpPush r) None (abs c').
Proof.
  intros [Hd Hb Ht Hmo] Hen Hf Hlt c'. split; [|split; [done|]].
  - constructor; [by destruct Hd; constructor|done..|].
    unfold disk_enabled in *. simpl. congruence.
  - unfold abs. subst c'. rewrite contents_snoc_tail. apply fifo_push_keep.
Qed.

Lemma push_ok r c :
  cache_ok c -> write_faults (fs c) = [] ->
  cache_ok (push r c) /\ write_faults (fs (push r c)) = [] /\
  fifo_step (abs c) (OpPush r) None (abs (push r c)).
Proof.
  intros Hok Hf. destruct (disk_enabled c) eqn:Hen.
  2:{ destruct (push_memory_ok r c Hok Hen) as (H1 & H2 & H3). by rewrite H2. }
  unfold push. rewrite Hen. simpl.
  destruct (bool_decide_reflect (pages c = [] ∧ tail c = [])) as [[Hpg Htl]|]; simpl;
    [destruct (Z.ltb_spec (len (head c)) (memory_threshold (cfg c)))|].
  - destruct Hok as [Hd Hb Ht Hmo].
    split; [constructor; [by destruct Hd; constructor|done..]|]. split; [done|].
    unfold abs. simpl.
    replace (contents (set_head (head c ++ [r]) c)) with (contents c ++ [r])
      by (unfold contents, page_contents; simpl; by rewrite Hpg, Htl, !app_nil_r).
    apply fifo_push_keep.
  - destruct (Z.leb_spec (page_size (cfg c)) (len (tail c ++ [r]))); [by apply push_spill_ok|].
    by apply snoc_tail_ok.
  - destruct (Z.leb_spec (page_size (cfg c)) (len (tail c ++ [r]))); [by apply push_spill_ok|].
    by apply snoc_tail_ok.
Qed.

Lemma refill_ok c :
  cache_ok c ->
  cache_ok (refill c) /\ abs (refill c) = abs c /\
  write_faults (fs (refill c)) = write_faults (fs c) /\
  (head (refill c) = [] -> contents c = []).
Proof.
  intros Hok. unfold refill. destruct (head c) as [|h hs] eqn:Eh.
  2:{ repeat split_and; try done. by rewrite Eh. }
  unfold load_oldest_page. destruct (pages c) as [|p ps] eqn:Ep.
  - destruct (tail c) as [|t ts] eqn:Et.
    + repeat split_and; try done. intros _. unfold contents, page_contents. by rewrite Eh, Ep, Et.
    + destruct Hok as [Hd Hb Ht Hmo]. split.
      { constructor; [by destruct Hd; constructor|done| |].
        - simpl. destruct (ok_cfg c Hd). unfold len. simpl. lia.
        - done. }
      split; [|done]. unfold abs, contents, page_contents. simpl. rewrite Eh, Ep, Et. simpl.
      by rewrite app_nil_r.
  - destruct Hok as [Hd Hb Ht Hmo].
    destruct (load_page_ok p ps c Hd Ep) as (Hd' & Hc' & Hdr & Hh & Hl & Ht' & Hrec).
    split.
    { constructor; [done| | |].
      - rewrite Hrec. simpl. pose proof (ok_pages c Hd) as Hp. rewrite Ep in Hp.
        apply Forall_cons_1 in Hp as [(rs & _ & Hc & _) _]. pose proof (len_nonneg rs). lia.
      - by rewrite Ht'.
      - intros Hen. destruct (Hmo Hen) as [Hnil _]. by rewrite Ep in Hnil. }
    split; [unfold abs; by rewrite Hc', Hdr|]. split; [done|].
    rewrite Hh, Eh. simpl. intros Hnil. exfalso.
    pose proof (ok_pages c Hd) as Hp. rewrite Ep in Hp.
    apply Forall_cons_1 in Hp as [(rs & Hf & _ & Hne) _].
    by rewrite (read_page_text _ _ _ Hf) in Hnil.
Qed.

Lemma pop_front_ok c :
  cache_ok c -> write_faults (fs c) = [] ->
  let '(o, c') := pop_front c in
  cache_ok c' /\ write_faults (fs c') = [] /\ fifo_step (abs c) OpPop o (abs c').
Proof.
  intros Hok Hf. unfold pop_front, front.
  destruct (refill_ok c Hok) as (Hok' & Habs & Hf' & Hemp).
  destruct (head (refill c)) as [|h hs] eqn:Eh; simpl.
  - rewrite Hf', Habs. split; [done|]. split; [done|].
    unfold abs. rewrite (Hemp eq_refl). constructor.
  - split.
    { destruct Hok' as [Hd Hb Ht Hmo]. constructor; [by destruct Hd; constructor|done..]. }
    split; [by rewrite Hf'|]. rewrite <- Habs. unfold abs, contents. rewrite Eh. simpl.
    constructor.
Qed.

Lemma exec_ok op c :
  cache_ok c -> write_faults (fs c) = [] ->
  let '(o, c') := exec op c in
  cache_ok c' /\ write_faults (fs c') = [] /\ fifo_step (abs c) op o (abs c').
Proof. destruct op; [apply push_ok | apply pop_front_ok]. Qed.

(** *** Sequences of operations *)

Fixpoint run (ops : list cache_op) c : list R * SinkCache R :=
  match ops with
  | [] => ([], c)
  | op :: ops =>
      let '(o, c) := exec op c in
      let '(out, c) := run ops c in
      (match o with Some r => r :: out | None => out end, c)
  end.

Fixpoint pushed (ops : list cache_op) : list R :=
  match ops with
  | [] => []
  | OpPush r :: ops => r :: pushed ops
  | OpPop :: ops => pushed ops
  end.

Lemma fifo_step_sublist s op o s' :
  fifo_step s op o s' ->
  (option_list o ++ s'.1) `sublist_of` (s.1 ++ pushed [op]) /\
  len s.1 + len (pushed [op]) = len (option_list o) + len s'.1 + (s'.2 - s.2).
Proof.
  destruct 1 as [q d r k Hk| |q d r]; simpl.
  - split; [apply sublist_drop|].
    rewrite len_drop; rewrite len_app; unfold len in *; simpl; lia.
  - split; [done|]. unfold len. simpl. lia.
  - split; [by rewrite app_nil_r|]. unfold len. simpl. lia.
Qed.

Lemma pushed_cons op ops : pushed (op :: ops) = pushed [op] ++ pushed ops.
Proof. by destruct op. Qed.

Lemma run_fifo ops c :
  cache_ok c -> write_faults (fs c) = [] ->
  let '(out, c') := run ops c in
  cache_ok c' /\ write_faults (fs c') = [] /\
  (out ++ contents c') `sublist_of` (contents c ++ pushed ops) /\
  len (contents c) + len (pushed ops) = len out + len (contents c') + (dropped c' - dropped c).
Proof.
  revert c. induction ops as [|op ops IH]; intros c Hok Hf.
  { simpl. repeat split_and; try done; [by rewrite app_nil_r|]. unfold len. simpl. lia. }
  rewrite pushed_cons. simpl run.
  pose proof (exec_ok op c Hok Hf) as Hex. destruct (exec op c) as [o c1].
  destruct Hex as (Hok1 & Hf1 & Hstep%fifo_step_sublist). specialize (IH c1 Hok1 Hf1).
  destruct (run ops c1) as [out c']. destruct IH as (Hok' & Hf' & Hsub & Hlen).
  split; [done|]. split; [done|]. cbn [fst snd abs] in Hstep. destruct Hstep as [Hs1 Hl1].
  replace (match o with Some r => r :: out | None => out end) with (option_list o ++ out)
    by by destruct o.
  rewrite <- app_assoc, !len_app. split; [|lia].
  etrans; [apply sublist_app; [done|exact Hsub]|].
  rewrite !app_assoc. apply sublist_app; [exact Hs1|done].
Qed.

(** *** Restart *)

(** [holds f l]: the directory consists of exactly the pages [l], in order. *)
Definition holds (f : Fs) (l : list (Z * list R)) : Prop :=
  StronglySorted Z.lt l.*1 /\ dom (files f) = list_to_set l.*1 /\
  Forall (fun '(s, rs) => 0 <= s /\ files f !! s = Some (page_text rs) /\ rs <> []) l.

Lemma StronglySorted_lt_le l : StronglySorted Z.lt l -> StronglySorted Z.le l.
Proof.
  induction 1 as [|x l Hl IH Hx]; constructor; [done|].
  eapply list.Forall_impl; [exact Hx|]. simpl. lia.
Qed.

Lemma StronglySorted_lt_NoDup l : StronglySorted Z.lt l -> NoDup l.
Proof.
  induction 1 as [|x l Hl IH Hx]; constructor; [|done].
  intros Hin. rewrite list.Forall_forall in Hx. apply Hx in Hin. lia.
Qed.

Lemma page_seqs_holds f l : holds f l -> page_seqs f = l.*1.
Proof.
  intros (Hs & Hd & _). unfold page_seqs.
  assert (Hp : (map_to_list (files f)).*1 ≡ₚ l.*1).
  { apply NoDup_Permutation; [apply NoDup_fst_map_to_list|by apply StronglySorted_lt_NoDup|].
    intros s. rewrite <- (elem_of_list_to_set (C := gset Z) s l.*1), <- Hd, elem_of_dom, list_elem_of_fmap.
    split.
    - intros ([k t] & -> & Hin). apply elem_of_map_to_list in Hin. simpl. eauto.
    - intros [t Ht]. exists (s, t). split; [done|]. by apply elem_of_map_to_list. }
  apply (StronglySorted_unique Z.le).
  - apply (StronglySorted_merge_sort Z.le).
  - by apply StronglySorted_lt_le.
  - by rewrite merge_sort_Permutation.
Qed.

Definition pages_of (l : list (Z * list R)) : list Page := map (fun '(s, rs) => mkPage s (len rs)) l.

Lemma seq_pages_of l : seq <$> pages_of l = l.*1.
Proof. unfold pages_of. induction l as [|[s rs] l IH]; csimpl; [done|]. by rewrite IH. Qed.

Definition adopted c (l : list (Z * list R)) : SinkCache R :=
  set_pages (pages c ++ pages_of l) (disk_records c + sum_counts (pages_of l))
    (foldr (fun s n => Z.max n (s + 1)) (next_seq c) (rev l.*1)) c.

Lemma foldl_adopt l c :
  Forall (fun '(s, rs) => 0 <= s /\ files (fs c) !! s = Some (page_text rs) /\ rs <> []) l ->
  foldl adopt_page c l.*1 = adopted c l.
Proof.
  revert c. induction l as [|[s rs] l IH]; intros c Hl; simpl.
  - unfold adopted. simpl. rewrite app_nil_r, Z.add_0_r. by destruct c.
  - apply Forall_cons_1 in Hl as [(Hs & Hf & Hne) Hl].
    assert (Hpos : 0 < len rs) by (destruct rs; [done|unfold len; simpl; lia]).
    assert (Ha : adopt_page c s = set_pages (pages c ++ [mkPage s (len rs)])
              (disk_records c + len rs) (Z.max (next_seq c) (s + 1)) c).
    { unfold adopt_page. rewrite Hf, lines_page_text.
      replace (len (map to_line rs)) with (len rs) by (unfold len; by rewrite length_map).
      destruct (Z.eqb_spec (len rs) 0); [lia|done]. }
    rewrite Ha, IH by done. unfold adopted, set_pages. simpl. rewrite <- app_assoc. simpl.
    f_equal; [lia|]. by rewrite foldr_app.
Qed.

Lemma foldr_max_ge l n : n <= foldr (fun s n => Z.max n (s + 1)) n l /\
  Forall (fun s => s < foldr (fun s n => Z.max n (s + 1)) n l) l.
Proof.
  induction l as [|x l [IH1 IH2]]; simpl; [split; [lia|constructor]|].
  split; [lia|]. constructor; [lia|]. eapply list.Forall_impl; [exact IH2|]. simpl. lia.
Qed.

Lemma holds_page_ok f l : holds f l -> Forall (page_ok f) (pages_of l).
Proof.
  intros (_ & _ & Hl). unfold pages_of.
  induction Hl as [|[s rs] l (Hs & Hf & Hne) _ IH]; simpl; constructor; [|done].
  by exists rs.
Qed.

Lemma holds_page_contents f l :
  holds f l -> concat (map (fun p => read_page (R := R) f (seq p)) (pages_of l)) = concat l.*2.
Proof.
  intros (_ & _ & Hl). induction Hl as [|[s rs] l (Hs & Hf & Hne) _ IH]; simpl; [done|].
  rewrite IH. f_equal. by apply read_page_text.
Qed.

(** Opening a directory that holds the pages [l] adopts them all; when they
    exceed the disk budget, whole pages are dropped from the oldest. *)
Definition opened (cf : CacheConfig) (f : Fs) (l : list (Z * list R)) : SinkCache R :=
  adopted (mkSinkCache cf f [] [] [] 0 SEQ_BASE 0) l.

Lemma opened_ok cf f l :
  config_ok cf -> holds f l ->
  disk_ok (opened cf f l) /\ contents (opened cf f l) = concat l.*2 /\ pages (opened cf f l) = pages_of l.
Proof.
  intros Hcf Hl. pose proof Hl as (Hs & Hd & Hall).
  destruct (foldr_max_ge (rev l.*1) SEQ_BASE) as [Hn1 Hn2].
  split; [|split; [|done]].
  - constructor; simpl; try done.
    + by apply holds_page_ok.
    + by rewrite seq_pages_of.
    + apply list.Forall_forall. intros p Hp.
      pose proof (proj1 (list.Forall_forall _ _) Hn2) as Hn3.
      pose proof (proj1 (list.Forall_forall _ _) Hall) as Hall'. split.
      * unfold pages_of in Hp. apply list_elem_of_fmap in Hp as ([s rs] & -> & Hin).
        by apply Hall' in Hin as [? _].
      * apply (Hn3 (seq p)), list_elem_of_In. rewrite <- in_rev.
        apply list_elem_of_In. rewrite <- seq_pages_of. by apply list_elem_of_fmap_2.
    + etrans; [|exact Hn1]. done.
    + by rewrite seq_pages_of.
  - unfold contents, page_contents. simpl. rewrite app_nil_r. by apply holds_page_contents.
Qed.

Lemma drop_oldest_ok p ps c :
  disk_ok c -> pages c = p :: ps -> head c = [] ->
  exists c', drop_oldest_page c = Some c' /\ disk_ok c' /\ pages c' = ps /\ head c' = [] /\
    cfg c' = cfg c /\ tail c' = tail c /\ write_faults (fs c') = write_faults (fs c) /\
    shed c c' (count p).
Proof.
  intros [Hcfg Hpg Hsrt Hsq Hnx Hdom Hrec] Hp Hh. unfold drop_oldest_page. rewrite Hp in *.
  pose proof (sorted_head_notin _ _ Hsrt) as Hnotin.
  apply Forall_cons_1 in Hpg as [(rs & Hf & Hcnt & Hne) Hpg].
  rewrite fmap_cons in Hsrt. apply StronglySorted_inv in Hsrt as [Hsrt _].
  apply Forall_cons_1 in Hsq as [_ Hsq].
  eexists. split; [done|]. repeat split_and; try done.
  - constructor; simpl; try done.
    + by apply page_ok_delete.
    + rewrite dom_delete_L, Hdom, fmap_cons. simpl. clear -Hnotin.
      revert Hnotin. generalize (seq <$> ps). set_solver.
    + rewrite Hrec. simpl. lia.
  - unfold shed, contents, page_contents. simpl. rewrite Hp, Hh. simpl.
    rewrite (read_page_text _ _ _ Hf), Hcnt, !len_app. split.
    { pose proof (len_nonneg rs). pose proof (len_nonneg (tail c)).
      pose proof (len_nonneg (concat (map (fun p => read_page (R := R) (fs c) (seq p)) ps))). lia. }
    split; [|done]. rewrite <- app_assoc, drop_app_length'; [|unfold len; lia].
    f_equal. f_equal. apply read_pages_files. intros q Hq. simpl. apply lookup_delete_ne.
    intros E. apply Hnotin. rewrite E. by apply list_elem_of_fmap_2.
Qed.

Lemma drop_excess_ok ps c :
  disk_ok c -> pages c = ps -> head c = [] ->
  let c' := drop_excess ps c in
  disk_ok c' /\ head c' = [] /\ tail c' = tail c /\ cfg c' = cfg c /\
  write_faults (fs c') = write_faults (fs c) /\
  disk_records c' <= max_disk (cfg c) /\ exists k, shed c c' k /\
  (disk_records c <= max_disk (cfg c) -> k = 0).
Proof.
  revert c. induction ps as [|p ps IH]; intros c Hok Hps Hh; simpl;
    destruct (Z.ltb_spec (max_disk (cfg c)) (disk_records c)) as [Hlt|Hle].
  - pose proof (ok_records c Hok) as Hr. rewrite Hps in Hr. simpl in Hr.
    destruct (ok_cfg c Hok). lia.
  - repeat split_and; try done. exists 0. split; [by apply shed_refl|done].
  - destruct (drop_oldest_ok p ps c Hok Hps Hh)
      as (c1 & -> & Hok1 & Hp1 & Hh1 & Hcf1 & Ht1 & Hf1 & Hs1).
    destruct (IH c1 Hok1 Hp1 Hh1) as (Hok2 & Hh2 & Ht2 & Hcf2 & Hf2 & Hb2 & k & Hs2 & _).
    rewrite Hcf1 in *. rewrite Ht2, Hcf2, Hf2. repeat split_and; try done.
    exists (count p + k). split; [by eapply shed_trans|lia].
  - repeat split_and; try done. exists 0. split; [by apply shed_refl|done].
Qed.

Lemma open_ok cf f l :
  config_ok cf -> holds f l ->
  let c := open (R := R) cf f in
  disk_ok c /\ head c = [] /\ tail c = [] /\ cfg c = cf /\
  write_faults (fs c) = write_faults f /\ disk_records c <= max_disk cf /\
  exists k, 0 <= k <= len (concat l.*2) /\ contents c = drop (Z.to_nat k) (concat l.*2) /\ dropped c = k /\
  (len (concat l.*2) <= max_disk cf -> k = 0).
Proof.
  intros Hcf Hl. unfold open, adopt_pages. simpl.
  rewrite (page_seqs_holds f l Hl), foldl_adopt by apply Hl.
  destruct (opened_ok cf f l Hcf Hl) as (Hok & Hc & Hpg).
  fold (opened cf f l). rewrite Hpg.
  destruct (drop_excess_ok (pages_of l) (opened cf f l)) as (H1 & H2 & H3 & H4 & H5 & H6 & k & Hs & Hk0);
    [done..|].
  repeat split_and; try done. exists k. destruct Hs as (Hk & Hc' & Hd).
  rewrite Hc in *. repeat split_and; try done; try lia.
  intros Hfit. apply Hk0. rewrite <- Hc in Hfit. rewrite contents_len in Hfit by done.
  unfold cache_len, opened, adopted in *. simpl in *. unfold len in Hfit. simpl in Hfit. lia.
Qed.

Lemma chunks_fuel_ok fuel n (l : list R) :
  (1 <= n)%nat -> (length l <= fuel)%nat ->
  concat (chunks_fuel fuel n l) = l /\ Forall (fun ch => ch <> []) (chunks_fuel fuel n l) /\
  (length (chunks_fuel fuel n l) <= length l)%nat.
Proof.
  intros Hn. revert l. induction fuel as [|fuel IH]; intros [|x l] Hl; simpl in *;
    try (split; [done|split; [constructor|simpl; lia]]); [lia|].
  destruct (IH (drop n (x :: l))) as (H1 & H2 & H3).
  { rewrite length_drop. simpl. lia. }
  rewrite length_drop in H3. rewrite H1. split; [apply take_drop|]. split; [|simpl in *; lia].
  constructor; [|done]. destruct n; [lia|done].
Qed.

Lemma chunks_ok n (l : list R) :
  1 <= n -> concat (chunks n l) = l /\ Forall (fun ch => ch <> []) (chunks n l) /\
  len (chunks n l) <= len l.
Proof.
  intros Hn. unfold chunks. destruct l as [|x l].
  { split; [done|]. split; [constructor|]. unfold len. simpl. lia. }
  destruct (chunks_fuel_ok (length (x :: l)) (Z.to_nat (Z.min n (len (x :: l)))) (x :: l))
    as (H1 & H2 & H3); [unfold len; simpl; lia|done|]. unfold len in *. repeat split_and; try done. lia.
Qed.

(** The pages [cs] written from sequence number [s] on. *)
Fixpoint numbered (s : Z) (cs : list (list R)) : list (Z * list R) :=
  match cs with [] => [] | rs :: cs => (s, rs) :: numbered (s + 1) cs end.

Lemma numbered_snd s cs : (numbered s cs).*2 = cs.
Proof. revert s. induction cs as [|rs cs IH]; intros s; csimpl; [done|]. by rewrite IH. Qed.

Lemma StronglySorted_middle l x k :
  StronglySorted Z.lt (l ++ k) -> Forall (fun y => y < x) l -> Forall (fun y => x < y) k ->
  StronglySorted Z.lt (l ++ x :: k).
Proof.
  induction l as [|y l IH]; simpl; intros Hs Hl Hk; [by constructor|].
  apply StronglySorted_inv in Hs as [Hs Hy]. apply Forall_cons_1 in Hl as [Hyx Hl].
  constructor; [by apply IH|]. rewrite Forall_app in *. destruct Hy as [Hy1 Hy2].
  split; [done|]. by constructor.
Qed.

Lemma write_page_holds f s rs pre l :
  holds f (pre ++ l) -> write_faults f = [] -> rs <> [] -> 0 <= s ->
  Forall (fun k => k < s) pre.*1 -> Forall (fun k => s < k) l.*1 ->
  holds (write_page s rs f).2 (pre ++ (s, rs) :: l) /\ write_faults (write_page s rs f).2 = [].
Proof.
  intros (Hs & Hd & Hall) Hf Hne H0s Hpre Hlt. unfold write_page. rewrite Hf. simpl. split; [|done].
  rewrite fmap_app in Hs, Hd.
  assert (Hns : forall k ks, (k, ks) ∈ pre ++ l -> s <> k).
  { intros k ks Hk. apply elem_of_app in Hk as [Hk|Hk]; apply (list_elem_of_fmap_2 fst) in Hk; simpl in Hk;
      [pose proof (proj1 (list.Forall_forall _ _) Hpre _ Hk)
      |pose proof (proj1 (list.Forall_forall _ _) Hlt _ Hk)]; simpl in *; lia. }
  split; [rewrite fmap_app; by apply StronglySorted_middle|]. split.
  { simpl. rewrite dom_insert_L, Hd, fmap_app, fmap_cons, !list_to_set_app_L. simpl.
    generalize (list_to_set (C := gset Z) pre.*1). generalize (list_to_set (C := gset Z) l.*1).
    set_solver. }
  apply list.Forall_forall. intros [k ks] Hk. simpl.
  apply elem_of_app in Hk as [Hk|[[= -> ->]|Hk]%elem_of_cons].
  2:{ by rewrite lookup_insert_eq. }
  all: rewrite lookup_insert_ne by (eapply Hns, elem_of_app; eauto);
    apply (proj1 (list.Forall_forall _ _) Hall (k, ks)), elem_of_app; eauto.
Qed.

Lemma write_chunks_holds cs : forall f s pre l,
  holds f (pre ++ l) -> write_faults f = [] -> Forall (fun ch => ch <> []) cs -> 0 <= s ->
  Forall (fun k => k < s) pre.*1 -> Forall (fun k => s + len cs <= k) l.*1 ->
  holds (write_chunks s cs f) (pre ++ numbered s cs ++ l) /\ write_faults (write_chunks s cs f) = [].
Proof.
  induction cs as [|rs cs IH]; intros f s pre l Hh Hf Hne Hs0 Hpre Hl; simpl; [done|].
  apply Forall_cons_1 in Hne as [Hrs Hne]. pose proof (len_nonneg cs) as Hcs.
  assert (Hlc : len (rs :: cs) = 1 + len cs) by (unfold len; simpl; lia).
  destruct (write_page_holds f s rs pre l) as [Hh1 Hf1]; try done.
  { eapply list.Forall_impl; [exact Hl|]. simpl. lia. }
  replace (pre ++ (s, rs) :: numbered (s + 1) cs ++ l)
    with ((pre ++ [(s, rs)]) ++ numbered (s + 1) cs ++ l) by by rewrite <- app_assoc.
  apply IH; try done; try lia.
  - by rewrite <- app_assoc.
  - rewrite fmap_app. apply Forall_app. split; [|repeat constructor; simpl; lia].
    eapply list.Forall_impl; [exact Hpre|]. simpl. lia.
  - eapply list.Forall_impl; [exact Hl|]. simpl. lia.
Qed.

Lemma disk_ok_holds c :
  disk_ok c -> holds (fs c) (map (fun p => (seq p, read_page (fs c) (seq p))) (pages c)).
Proof.
  intros [_ Hpg Hsrt Hsq _ Hdom _].
  assert (E : (map (fun p => (seq p, read_page (R := R) (fs c) (seq p))) (pages c)).*1 = seq <$> pages c).
  { clear. induction (pages c) as [|p ps IH]; csimpl; [done|]. by rewrite IH. }
  split; [by rewrite E|]. split; [by rewrite E|].
  apply Forall_fmap, list.Forall_forall. intros p Hp. simpl.
  destruct (proj1 (list.Forall_forall _ _) Hpg p Hp) as (rs & Hf & _ & Hne).
  rewrite (read_page_text _ _ _ Hf). repeat split_and; try done.
  pose proof (proj1 (list.Forall_forall _ _) Hsq p Hp). simpl in *. lia.
Qed.

(** The head is written below the pages still on disk. *)
Lemma write_head_holds c :
  disk_ok c -> tail c = [] -> write_faults (fs c) = [] ->
  Forall (fun p => len (head c) <= seq p) (pages c) -> len (head c) <= next_seq c ->
  let first := match pages c with p :: _ => seq p | [] => next_seq c end in
  let cs := chunks (page_size (cfg c)) (head c) in
  exists l, holds (write_chunks (Z.max 0 (first - len cs)) cs (fs c)) l /\ concat l.*2 = contents c.
Proof.
  intros Hok Ht Hf Hlow Hnx first cs.
  destruct (ok_cfg c Hok) as (Hps & _ & _).
  destruct (chunks_ok (page_size (cfg c)) (head c) Hps) as (Hcat & Hne & Hlen). fold cs in Hcat, Hne, Hlen.
  assert (Hbase : Z.max 0 (first - len cs) = first - len cs).
  { subst first. destruct (pages c) as [|p ps]; [lia|]. apply Forall_cons_1 in Hlow as [? _]. lia. }
  pose proof (disk_ok_holds c Hok) as Hh.
  set (l := map (fun p => (seq p, read_page (fs c) (seq p))) (pages c)) in *.
  destruct (write_chunks_holds cs (fs c) (first - len cs) [] l) as [Hw _]; try done.
  { lia. }
  { apply Forall_fmap, Forall_fmap, list.Forall_forall. intros p Hp. simpl.
    subst first. destruct (pages c) as [|q qs] eqn:Eq; [set_solver|].
    pose proof (ok_sorted c Hok) as Hs. rewrite Eq, fmap_cons in Hs.
    apply StronglySorted_inv in Hs as [_ Hq]. apply elem_of_cons in Hp as [->|Hp]; [lia|].
    pose proof (proj1 (list.Forall_forall _ _) Hq (seq p)) as Hlt. simpl in Hlt.
    specialize (Hlt (list_elem_of_fmap_2 seq _ _ Hp)). lia. }
  exists ([] ++ numbered (first - len cs) cs ++ l). rewrite Hbase. split; [done|]. simpl.
  rewrite fmap_app, concat_app, numbered_snd, Hcat. unfold contents, page_contents.
  rewrite Ht, app_nil_r. f_equal. f_equal. subst l. clear.
  induction (pages c) as [|p ps IH]; csimpl; [done|]. by rewrite IH.
Qed.

(** *** Page writes that fail *)

(** A failed write keeps the records, at the back of the memory head. *)
Lemma spill_fault_ok c c1 (rs : list R) :
  disk_ok c1 -> tail c1 = rs ->
  let c' := set_head (head c1 ++ rs)
              (set_fs (mkFs (files (fs c1)) (list.tail (write_faults (fs c1)))) (set_tail [] c1)) in
  disk_ok c' /\ contents c' ≡ₚ contents c1 /\ dropped c' = dropped c1.
Proof.
  intros Hok Ht c'. split; [by destruct Hok; constructor|]. split; [|done].
  unfold contents, page_contents. subst c'. simpl. rewrite app_nil_r, Ht, <- app_assoc.
  apply Permutation_app_head, Permutation_app_comm.
Qed.

Lemma spill_tail_any c :
  disk_ok c -> len (tail c) <= page_size (cfg c) -> disk_enabled c = true ->
  disk_records c <= max_disk (cfg c) ->
  let c' := spill_tail c in
  disk_ok c' /\ tail c' = [] /\ cfg c' = cfg c /\ disk_records c' <= max_disk (cfg c) /\
  exists lost, contents c' ++ lost ≡ₚ contents c /\ dropped c' = dropped c + len lost.
Proof.
  intros Hok Htail Hen Hbud. unfold spill_tail.
  destruct (tail c) as [|t ts] eqn:Et.
  { repeat split_and; try done. exists []. rewrite app_nil_r. split; [done|]. unfold len. simpl. lia. }
  destruct (spill_loop_ok (pages c) c)
    as (Hok1 & Ht1 & Hcf1 & Hf1 & Hb1 & Hn1 & _ & k & (Hk & Hc1 & Hd1) & _);
    try done; [by rewrite Et|].
  set (c1 := spill_loop (pages c) c) in *. rewrite Et in Ht1. rewrite Ht1.
  assert (Hlost : exists lost, contents c1 ++ lost ≡ₚ contents c /\ dropped c1 = dropped c + len lost).
  { exists (take (Z.to_nat k) (contents c)). split.
    - rewrite Hc1, Permutation_app_comm. by rewrite take_drop.
    - rewrite Hd1. unfold len in *. rewrite length_take. lia. }
  destruct Hlost as (lost & Hp & Hd).
  unfold write_page. change (fs (set_tail [] c1)) with (fs c1).
  pose proof (append_page_ok (t :: ts) c1 Hok1 Ht1 ltac:(done)) as [Hok2 Hc2].
  pose proof (spill_fault_ok c c1 (t :: ts) Hok1 Ht1) as (Hok3 & Hc3 & Hd3).
  unfold append_page in Hok2, Hc2. rewrite Ht1 in Hb1. pose proof (len_nonneg (t :: ts)).
  destruct (write_faults (fs c1)) as [|[|] w].
  - split; [exact Hok2|]. repeat split_and; try done. exists lost. split; [|done].
    etrans; [|exact Hp]. apply Permutation_app_tail. by rewrite <- Hc2.
  - split; [exact Hok3|]. repeat split_and; try done; [simpl; lia|].
    exists lost. split; [|exact Hd]. etrans; [|exact Hp].
    apply Permutation_app_tail. exact Hc3.
  - split; [exact Hok2|]. repeat split_and; try done. exists lost. split; [|done].
    etrans; [|exact Hp]. apply Permutation_app_tail. by rewrite <- Hc2.
Qed.

(** No record is lost without being counted, whatever the outcomes of the writes. *)
Definition conserves (q : list R) (d : Z) (q' : list R) (d' : Z) : Prop :=
  exists lost, q' ++ lost ≡ₚ q /\ d' = d + len lost.

Lemma fifo_step_conserves s op o s' :
  fifo_step s op o s' -> conserves (s.1 ++ pushed [op]) s.2 (option_list o ++ s'.1) s'.2.
Proof.
  destruct 1 as [q d r k Hk| |q d r]; simpl.
  - exists (take (Z.to_nat k) (q ++ [r])). split.
    + rewrite Permutation_app_comm. by rewrite take_drop.
    + unfold len in *. rewrite length_take, length_app. simpl. lia.
  - exists []. split; [done|]. unfold len. simpl. lia.
  - exists []. rewrite !app_nil_r. split; [done|]. unfold len. simpl. lia.
Qed.

Lemma push_any r c :
  cache_ok c ->
  cache_ok (push r c) /\ conserves (contents c ++ [r]) (dropped c) (contents (push r c)) (dropped (push r c)).
Proof.
  intros Hok. destruct (disk_enabled c) eqn:Hen.
  2:{ destruct (push_memory_ok r c Hok Hen) as (H1 & _ & H2).
      split; [done|]. by apply fifo_step_conserves in H2. }
  unfold push. rewrite Hen. simpl.
  assert (Hsp : cache_ok (if page_size (cfg c) <=? len (tail c ++ [r])
                   then spill_tail (set_tail (tail c ++ [r]) c) else set_tail (tail c ++ [r]) c) /\
      conserves (contents c ++ [r]) (dropped c)
        (contents (if page_size (cfg c) <=? len (tail c ++ [r])
                   then spill_tail (set_tail (tail c ++ [r]) c) else set_tail (tail c ++ [r]) c))
        (dropped (if page_size (cfg c) <=? len (tail c ++ [r])
                   then spill_tail (set_tail (tail c ++ [r]) c) else set_tail (tail c ++ [r]) c))).
  { destruct Hok as [Hd Hb Ht Hmo].
    destruct (Z.leb_spec (page_size (cfg c)) (len (tail c ++ [r]))) as [Hge|Hlt].
    - destruct (spill_tail_any (set_tail (tail c ++ [r]) c)) as (H1 & H2 & H3 & H4 & lost & H5 & H6).
      + by destruct Hd; constructor.
      + simpl. rewrite len_app. unfold len in *. simpl. lia.
      + done.
      + done.
      + split; [|exists lost; split; [|done]; by rewrite H5, contents_snoc_tail].
        constructor; [done| | |].
        * by rewrite H3.
        * rewrite H2, H3. simpl. destruct (ok_cfg c Hd). unfold len. simpl. lia.
        * unfold disk_enabled in *. rewrite H3. simpl. by rewrite Hen.
    - split.
      + constructor; [by destruct Hd; constructor|done..|].
        unfold disk_enabled in *. simpl. congruence.
      + exists []. rewrite app_nil_r, contents_snoc_tail. split; [done|]. unfold len. simpl. lia. }
  destruct (bool_decide_reflect (pages c = [] ∧ tail c = [])) as [[Hpg Htl]|]; simpl;
    [destruct (Z.ltb_spec (len (head c)) (memory_threshold (cfg c)))|]; try exact Hsp.
  destruct Hok as [Hd Hb Ht Hmo].
  split; [constructor; [by destruct Hd; constructor|done..]|].
  exists []. split; [|unfold len; simpl; lia].
  unfold contents, page_contents; simpl; by rewrite Hpg, Htl, !app_nil_r.
Qed.

Lemma pop_any c :
  cache_ok c ->
  let '(o, c') := pop_front c in
  cache_ok c' /\ conserves (contents c) (dropped c) (option_list o ++ contents c') (dropped c').
Proof.
  intros Hok. unfold pop_front, front.
  destruct (refill_ok c Hok) as (Hok' & Habs & _ & Hemp). unfold abs in Habs. simplify_eq.
  destruct (head (refill c)) as [|h hs] eqn:Eh; simpl.
  - split; [done|]. exists []. rewrite app_nil_r.
    split; [by replace (contents (refill c)) with (contents c)|]. unfold len. simpl. lia.
  - split.
    { destruct Hok' as [Hd Hb Ht Hmo]. constructor; [by destruct Hd; constructor|done..]. }
    exists []. rewrite app_nil_r. split; [|unfold len; simpl; lia].
    replace (contents c) with (contents (refill c)) by done.
    unfold contents. by rewrite Eh.
Qed.

Lemma run_conserves_any ops c :
  cache_ok c ->
  let '(out, c') := run ops c in
  cache_ok c' /\ conserves (contents c ++ pushed ops) (dropped c) (out ++ contents c') (dropped c').
Proof.
  revert c. induction ops as [|op ops IH]; intros c Hok.
  { simpl. split; [done|]. exists []. rewrite !app_nil_r. split; [done|]. unfold len. simpl. lia. }
  rewrite pushed_cons. simpl run.
  assert (Hex : let '(o, c1) := exec op c in cache_ok c1 /\
     conserves (contents c ++ pushed [op]) (dropped c) (option_list o ++ contents c1) (dropped c1)).
  { destruct op as [r|]; simpl; [by apply push_any|].
    rewrite app_nil_r. by apply pop_any. }
  destruct (exec op c) as [o c1]. destruct Hex as (Hok1 & l1 & Hp1 & Hd1).
  specialize (IH c1 Hok1). destruct (run ops c1) as [out c'].
  destruct IH as (Hok' & l2 & Hp2 & Hd2). split; [done|].
  replace (match o with Some r => r :: out | None => out end) with (option_list o ++ out)
    by by destruct o.
  exists (l1 ++ l2). rewrite len_app. split; [|lia].
  rewrite (app_assoc (contents c)), <- Hp1, <- !app_assoc. apply Permutation_app_head.
  rewrite (Permutation_app_comm l1 l2), !app_assoc.
  rewrite Hp2, <- !app_assoc. apply Permutation_app_head, Permutation_app_comm.
Qed.
End invariant.

(** *** Memory *)

Section memory.
Context {R : Type} `{LineCodecOk R}.
Implicit Types (c : SinkCache R).

Definition memory_bounded c : Prop :=
  len (head c) <= Z.max (memory_threshold (cfg c)) (page_size (cfg c)) /\
  Forall (fun p => count p <= page_size (cfg c)) (pages c).

Lemma load_page_memory p ps c :
  disk_ok c -> pages c = p :: ps -> memory_bounded c ->
  len (head c) + page_size (cfg c) <= Z.max (memory_threshold (cfg c)) (page_size (cfg c)) ->
  memory_bounded (load_page p ps c).
Proof.
  intros Hok Hp [_ Hsm] Hh. destruct (load_page_ok p ps c Hok Hp) as (_ & _ & _ & Hhd & Hl & _).
  rewrite Hp in Hsm. apply Forall_cons_1 in Hsm as [Hc Hsm].
  split; [|done]. rewrite Hhd, len_app, Hl. simpl. lia.
Qed.

Lemma spill_loop_memory ps c :
  disk_ok c -> pages c = ps -> memory_bounded c -> memory_bounded (spill_loop ps c).
Proof.
  revert c. induction ps as [|p ps IH]; intros c Hok Hps Hm; simpl;
    destruct (Z.ltb_spec (max_disk (cfg c)) (disk_records c + len (tail c))); try done.
  all: pose proof (ok_cfg c Hok) as (Hpg & _ & _); pose proof (len_nonneg (head c)) as Hlh;
    destruct Hm as [Hh Hsm].
  all: set (n := Z.min (page_size (cfg c)) (len (head c))).
  all: destruct (drop_head_ok n c ltac:(lia) Hok) as [Hok1 _]; set (c1 := add_dropped n _) in *.
  all: assert (Hl1 : len (head c1) = len (head c) - n) by (simpl; apply len_drop; lia).
  - destruct (n =? 0); (split; [simpl in *; lia|exact Hsm]).
  - assert (Hm1 : memory_bounded c1) by (split; [simpl in *; lia|exact Hsm]).
    apply IH; [by destruct (load_page_ok p ps c1 Hok1 Hps)|done|].
    apply load_page_memory; try done. simpl in *. lia.
Qed.

Lemma spill_tail_memory c :
  disk_ok c -> len (tail c) <= page_size (cfg c) -> disk_enabled c = true ->
  write_faults (fs c) = [] -> memory_bounded c -> memory_bounded (spill_tail c).
Proof.
  intros Hok Ht Hen Hf Hm. unfold spill_tail. destruct (tail c) as [|t ts] eqn:Et; [done|].
  pose proof (spill_loop_memory (pages c) c Hok eq_refl Hm) as [Hh Hsm].
  destruct (spill_loop_ok (pages c) c) as (_ & Ht1 & Hcf1 & Hf1 & _); try done; [by rewrite Et|].
  rewrite Ht1, Et. unfold write_page.
  change (fs (set_tail [] (spill_loop (pages c) c))) with (fs (spill_loop (pages c) c)).
  rewrite Hf1, Hf. split; [done|]. simpl. apply Forall_app. split; [done|].
  rewrite Hcf1. by repeat constructor.
Qed.

Lemma push_memory r c :
  cache_ok c -> write_faults (fs c) = [] -> memory_bounded c -> memory_bounded (push r c).
Proof.
  intros [Hd Hb Ht Hmo] Hf [Hh Hsm]. pose proof (ok_cfg c Hd) as (Hps & Hmt & _).
  unfold push. destruct (disk_enabled c) eqn:Hen; simpl.
  - destruct (bool_decide _ && _) eqn:E.
    { apply andb_true_iff in E as [_ E%Z.ltb_lt]. split; [|done]. simpl. rewrite len_app.
      unfold len in *. simpl. lia. }
    destruct (Z.leb_spec (page_size (cfg c)) (len (tail c ++ [r]))); [|done].
    apply spill_tail_memory; try done; [by destruct Hd; constructor|].
    simpl. rewrite len_app. unfold len in *. simpl. lia.
  - destruct (Z.leb_spec (memory_threshold (cfg c)) (len (head c))).
    + split; [|done]. simpl. unfold len in *. rewrite length_app, length_drop. simpl. lia.
    + split; [|done]. simpl. rewrite len_app. unfold len in *. simpl. lia.
Qed.

Lemma pop_memory c : cache_ok c -> memory_bounded c -> memory_bounded (pop_front c).2.
Proof.
  intros [Hd Hb Ht Hmo] [Hh Hsm]. pose proof (ok_cfg c Hd) as (Hps & Hmt & _).
  assert (Hr : memory_bounded (refill c)).
  { unfold refill. destruct (head c) as [|h hs] eqn:Eh; [|by split; rewrite ?Eh].
    unfold load_oldest_page. destruct (pages c) as [|p ps] eqn:Ep.
    - destruct (tail c) eqn:Et; (split; simpl; [rewrite ?Eh; simpl in *; unfold len in *; simpl in *; lia|]).
      + by rewrite Ep.
      + by rewrite Ep.
    - apply load_page_memory; try done; [by split; rewrite ?Eh, ?Ep|].
      rewrite Eh. unfold len. simpl. lia. }
  unfold pop_front, front. destruct (head (refill c)) as [|h hs] eqn:Eh; simpl; [done|].
  destruct Hr as [Hr1 Hr2]. split; [|done]. simpl. rewrite Eh in Hr1.
  unfold len in *. rewrite ?drop_0. simpl in *. lia.
Qed.
End memory.

(** ** Properties *)

Section properties.
Context {R : Type} `{LineCodecOk R}.
Implicit Types (c : SinkCache R).


(** Over any sequence of pushes and pops, what was delivered followed by what
    is still cached is a subsequence of what was pushed (FIFO, nothing duplicated
    or reordered), and every record is delivered, cached or counted as dropped. *)
Theorem sink_cache_run_fifo (ops : list (cache_op (R := R))) c :
  cache_ok c -> write_faults (fs c) = [] ->
  let '(out, c') := run ops c in
  (out ++ contents c') `sublist_of` (contents c ++ pushed ops) /\
  len (contents c) + len (pushed ops) = len out + cache_len c' + (dropped c' - dropped c).
Proof.
  intros Hok Hf. pose proof (run_fifo ops c Hok Hf) as Hr.
  destruct (run ops c) as [out c']. destruct Hr as (Hok' & _ & Hs & Hl).
  by rewrite <- (contents_len c' (ok_disk c' Hok')).
Qed.

(** Whatever page writes fail, the cache loses no record uncounted: delivered,
    cached and dropped records together are the records pushed, and the invariant
    (disk budget included) holds throughout. *)
Theorem sink_cache_conserves_under_faults (ops : list (cache_op (R := R))) c :
  cache_ok c ->
  let '(out, c') := run ops c in
  cache_ok c' /\
  exists lost, (out ++ contents c') ++ lost ≡ₚ contents c ++ pushed ops /\
               dropped c' = dropped c + len lost.
Proof. apply run_conserves_any. Qed.

(** A restart keeps the queue: the cache reopened on the directory [close]
    left behind holds the records cached at the stop without the [k] oldest, and
    all of them ([k = 0]) when they fit the disk budget. *)
Theorem close_open_contents c :
  cache_ok c -> write_faults (fs c) = [] -> clean_at_stop (cfg c) = false ->
  Forall (fun p => len (contents c) <= seq p) (pages c) -> len (contents c) <= next_seq c ->
  exists k, 0 <= k <= len (contents c) /\
    contents (open (cfg c) (close c)) = drop (Z.to_nat k) (contents c) /\
    (len (contents c) <= max_disk (cfg c) -> k = 0).
Proof.
  intros [Hd Hb Ht Hmo] Hf Hcl Hlow Hnx.
  assert (Hsp : disk_ok (spill_tail c) /\ tail (spill_tail c) = [] /\ cfg (spill_tail c) = cfg c /\
    write_faults (fs (spill_tail c)) = [] /\
    (forall n, Forall (fun p => n <= seq p) (pages c) -> n <= next_seq c ->
      Forall (fun p => n <= seq p) (pages (spill_tail c)) /\ n <= next_seq (spill_tail c)) /\
    exists k, shed c (spill_tail c) k /\ (disk_records c + len (tail c) <= max_disk (cfg c) -> k = 0)).
  { destruct (disk_enabled c) eqn:Hen.
    - destruct (spill_tail_ok c) as (? & ? & ? & ? & ? & ? & k & ? & ? & ?); try done; [lia|].
      repeat split_and; try done. by exists k.
    - destruct (Hmo eq_refl) as [_ Htl]. unfold spill_tail. rewrite Htl.
      repeat split_and; try done. exists 0. split; [by apply shed_refl|done]. }
  destruct Hsp as (Hd1 & Ht1 & Hcf1 & Hf1 & Hlow1 & k1 & (Hk1 & Hc1 & _) & Hk10).
  destruct (Hlow1 _ Hlow Hnx) as [Hl1 Hn1]. set (c1 := spill_tail c) in *.
  assert (Hlen1 : len (contents c1) = len (contents c) - k1) by (rewrite Hc1; by apply len_drop).
  assert (Hhl : len (head c1) <= len (contents c1)).
  { unfold contents. rewrite len_app. pose proof (len_nonneg (page_contents c1 ++ tail c1)). lia. }
  assert (Hh : exists l, holds (close c) l /\ concat l.*2 = contents c1).
  { unfold close. rewrite Hcl. fold c1. destruct (head c1) as [|h hs] eqn:Eh.
    - exists (map (fun p => (seq p, read_page (fs c1) (seq p))) (pages c1)).
      split; [by apply disk_ok_holds|]. unfold contents, page_contents. rewrite Eh, Ht1, app_nil_r.
      simpl. f_equal. clear. induction (pages c1) as [|p ps IH]; csimpl; [done|]. by rewrite IH.
    - rewrite <- Eh. apply write_head_holds; try done; [|rewrite Eh; lia].
      eapply list.Forall_impl; [exact Hl1|]. simpl. rewrite Eh. lia. }
  destruct Hh as (l & Hh & Hcl').
  destruct (open_ok (cfg c) (close c) l) as (_ & _ & _ & _ & _ & _ & k2 & Hk2 & Hc2 & _ & Hk20);
    [apply Hd|done|]. rewrite Hcl' in *.
  exists (k1 + k2). rewrite Hlen1 in Hk2. split; [lia|]. split.
  - rewrite Hc2, Hc1, drop_drop. f_equal. lia.
  - intros Hfit. pose proof (contents_len c Hd) as Hcl2. unfold cache_len in Hcl2.
    pose proof (len_nonneg (head c)). assert (k1 = 0) as -> by (apply Hk10; lia).
    rewrite Hk20; lia.
Qed.

(** C33. Memory is bounded: as long as page writes succeed, the in-memory head
    never outgrows the larger of [memoryCacheThreshold] and [bufferPageSize],
    over any sequence of pushes and pops. *)
Theorem sink_cache_memory_bound (ops : list (cache_op (R := R))) c :
  cache_ok c -> write_faults (fs c) = [] -> memory_bounded c ->
  memory_bounded (run ops c).2.
Proof.
  revert c. induction ops as [|op ops IH]; intros c Hok Hf Hm; [done|]. simpl.
  pose proof (exec_ok op c Hok Hf) as Hex.
  assert (Hm1 : memory_bounded (exec op c).2)
    by (destruct op; [by apply push_memory | by apply pop_memory]).
  destruct (exec op c) as [o c1]. destruct Hex as (Hok1 & Hf1 & _).
  specialize (IH c1 Hok1 Hf1 Hm1). by destruct (run ops c1).
Qed.
End properties.

(** A JSON object whose numbers satisfy the invariant of [serde_json::Number]. *)
Definition options_wf (opts : row) : Prop :=
  forall k n, opts !! k = Some (VNumber n) -> number_wf n.

Lemma opt_u64_range opts key n : options_wf opts -> opt_u64 opts key = Some n -> 0 <= n <= u64_max.
Proof.
  intros Hwf. unfold opt_u64. destruct (opts !! key) as [[| |num|t| |]|] eqn:E; simpl; try done.
  - specialize (Hwf _ _ E). destruct num as [u|i|f]; simpl in *; intros [= <-]; [done|..];
      apply f64_as_range; unfold u64_max; lia.
  - apply parse_u64_range.
Qed.

(** Every configuration [from_action] accepts satisfies what the cache's
    theorems require of it: a page and the memory tier hold at least one record,
    and the disk budget is not negative. *)
Theorem from_action_config_ok (opts : row) (cf : CacheConfig) :
  options_wf opts -> from_action opts = Some cf -> config_ok cf.
Proof.
  intros Hwf. unfold from_action. destruct (default false (opt_bool opts "enableCache")); [|done].
  simpl. intros [= <-]. unfold config_ok. simpl. split; [lia|]. split; [lia|].
  destruct (opt_u64 opts "maxDiskCache") as [n|] eqn:E; simpl; [|lia].
  by apply opt_u64_range in E as [? _].
Qed.

(** ** Witnesses

    Records are numbers written in unary, a codec that satisfies the laws. *)

#[global] Instance unary_codec : LineCodec nat :=
  {| to_line n := of_chars (repeat "1"%char n); from_line s := Some (String.length s) |}.

Lemma length_of_chars l : String.length (of_chars l) = length l.
Proof. induction l as [|c l IH]; simpl; [done|]. by rewrite IH. Qed.

#[global] Instance unary_codec_ok : LineCodecOk nat.
Proof.
  constructor; intros n; simpl; rewrite ?chars_of_chars.
  - by rewrite length_of_chars, repeat_length.
  - intros Hin%list_elem_of_In%repeat_spec. done.
  - intros Hin%list_elem_of_In%repeat_spec. done.
Qed.

Definition small_cfg (memory disk page : Z) : CacheConfig :=
  {| memory_threshold := memory; max_disk := disk; page_size := page; resend_interval := 0;
     clean_at_stop := false; priority := Equal; indicator_field := None; destination := None |}.

Definition fresh {R} (cf : CacheConfig) : SinkCache R := mkSinkCache cf (mkFs ∅ []) [] [] [] 0 SEQ_BASE 0.

Lemma fresh_ok {R} `{LineCodecOk R} cf : config_ok cf -> cache_ok (R := R) (fresh cf).
Proof.
  intros Hcf. constructor; [constructor| | |]; simpl; try done; try (by repeat constructor).
  - destruct Hcf as (_ & _ & ?). done.
  - destruct Hcf as (? & _ & _). unfold len. simpl. lia.
Qed.

Definition twenty : list (cache_op (R := nat)) := map OpPush (List.seq 0 20) ++ [OpPop; OpPop].


(** C2 at the same run: two records delivered, the rest cached or counted. *)
Lemma sink_cache_run_fifo_witness :
  let '(out, c') := run twenty (fresh (R := nat) (small_cfg 4 6 3)) in
  (out ++ contents c') `sublist_of` (contents (fresh (R := nat) (small_cfg 4 6 3)) ++ pushed twenty) /\
  len (contents (fresh (R := nat) (small_cfg 4 6 3))) + len (pushed twenty)
  = len out + cache_len c' + (dropped c' - dropped (fresh (R := nat) (small_cfg 4 6 3))).
Proof. apply sink_cache_run_fifo; [by apply fresh_ok|done]. Defined.

(** C3 with the second page write failing. *)
Definition faulty : SinkCache nat :=
  mkSinkCache (small_cfg 1 100 2) (mkFs ∅ [false; true]) [] [] [] 0 SEQ_BASE 0.

Lemma faulty_ok : cache_ok faulty.
Proof. constructor; [constructor| | |]; simpl; try done; try (by repeat constructor). Qed.

Lemma sink_cache_conserves_under_faults_witness :
  let '(out, c') := run (map OpPush [0; 1; 2; 3; 4]%nat) faulty in
  cache_ok c' /\
  exists lost, (out ++ contents c') ++ lost ≡ₚ contents faulty ++ pushed (map OpPush [0; 1; 2; 3; 4]%nat) /\
               dropped c' = dropped faulty + len lost.
Proof. apply sink_cache_conserves_under_faults. apply faulty_ok. Defined.

(** C4 at a cache with a head, pages and a partial write page. *)
Definition stopped : SinkCache nat := (run (map OpPush (List.seq 0 11)) (fresh (R := nat) (small_cfg 4 1000 3))).2.

Lemma stopped_ok : cache_ok stopped.
Proof.
  pose proof (run_conserves_any (map OpPush (List.seq 0 11)) (fresh (R := nat) (small_cfg 4 1000 3))) as H.
  unfold stopped. destruct (run _ _) as [o c]. destruct H as [H _]; [by apply fresh_ok|exact H].
Qed.

Lemma close_open_contents_witness :
  exists k, 0 <= k <= len (contents stopped) /\
    contents (open (cfg stopped) (close stopped)) = drop (Z.to_nat k) (contents stopped) /\
    (len (contents stopped) <= max_disk (cfg stopped) -> k = 0).
Proof.
  apply close_open_contents; [apply stopped_ok|by vm_compute|done| |by vm_compute].
  apply (bool_decide_unpack _). by vm_compute.
Defined.

(** C5 *)
Lemma sink_cache_memory_bound_witness : memory_bounded (run twenty (fresh (R := nat) (small_cfg 4 6 3))).2.
Proof.
  apply sink_cache_memory_bound; [by apply fresh_ok|done|split; [by vm_compute|constructor]].
Defined.

(** C6 *)
Lemma from_action_config_ok_witness :
  config_ok (default default_config (from_action {["enableCache" := VBool true]})).
Proof.
  apply (from_action_config_ok {["enableCache" := VBool true]}); [|done].
  intros k n Hk. apply lookup_singleton_Some in Hk as [_ [=]].
Defined.

(** ** Where the order breaks *)

(** With a disk budget below a page the cache works in memory only, but
    [close] still writes its records to disk and [open] adopts them; records
    pushed after the restart are then delivered before the adopted, older ones. *)
Theorem memory_only_restart_reorders :
  let c := (run (map OpPush [1; 2]%nat) (fresh (R := nat) (small_cfg 3 2 256))).2 in
  let reopened := (open (cfg c) (close c)) in
  disk_enabled c = false /\
  contents c = [1; 2]%nat /\ contents reopened = [1; 2]%nat /\
  (run [OpPush 3%nat; OpPop; OpPop; OpPop] reopened).1 = [3; 1; 2]%nat.
Proof. by vm_compute. Qed.

(** When a page write fails while older pages are on disk, the records of the
    failed page go to the memory head and are delivered before those pages. *)
Theorem failed_page_write_reorders :
  contents (run (map OpPush [0; 1; 2; 3; 4]%nat) faulty).2 = [0; 3; 4; 1; 2]%nat /\
  (run (map OpPush [0; 1; 2; 3; 4]%nat ++ repeat OpPop 5) faulty).1 = [0; 3; 4; 1; 2]%nat.
Proof. by vm_compute. Qed.
