(* ===== verification/Counters.v ===== *)
(** * Per-rule counters and latency histograms
      ([crates/rekuiper-core/src/manager.rs])

    [RuleCounters] and [LatencyTracker]: atomic [u64] cells bumped with
    [fetch_add], which wraps at 2^64.  The rule loops, the dead-letter router and
    the sinks share one [RuleCounters]; the model threads it as a state. *)

From S2P Require Import Prelude Rust.

Set Default Goal Selector "!".

(** [AtomicU64::fetch_add] *)
Definition u64_add (a b : Z) : Z := (a + b) mod 2 ^ 64.

(** ** Latency tracker *)

Record LatencyTracker := mkLatency {
  last_us : Z;
  sum_us : Z;
  lat_count : Z;
  buckets : list Z;
}.

Definition latency_default : LatencyTracker := mkLatency 0 0 0 [0; 0; 0; 0; 0].

Definition bucket_index (per_record_us : Z) : nat :=
  if per_record_us <=? 100 then 0
  else if per_record_us <=? 500 then 1
  else if per_record_us <=? 1000 then 2
  else if per_record_us <=? 5000 then 3
  else 4.

Definition observe_batch (total_latency_us records : Z) (t : LatencyTracker) : LatencyTracker :=
  if records =? 0 then t
  else
    let per_record_us := total_latency_us / records in
    mkLatency per_record_us (u64_add (sum_us t) total_latency_us) (u64_add (lat_count t) records)
      (alter (fun b => u64_add b records) (bucket_index per_record_us) (buckets t)).

Definition observe (latency_us : Z) (t : LatencyTracker) : LatencyTracker :=
  observe_batch latency_us 1 t.

Definition latency_reset (t : LatencyTracker) : LatencyTracker :=
  mkLatency 0 0 0 (replicate (length (buckets t)) 0).

(** [(last_us, cumulative buckets, sum_us, count)] *)
Definition latency_snapshot (total_records : Z) (t : LatencyTracker) : Z * list Z * Z * Z :=
  let untimed_fast := Z.max 0 (total_records - lat_count t) in
  let b i := default 0 (buckets t !! i) in
  let b0 := u64_add (b 0%nat) untimed_fast in
  let b1 := u64_add b0 (b 1%nat) in
  let b2 := u64_add b1 (b 2%nat) in
  let b3 := u64_add b2 (b 3%nat) in
  let b4 := u64_add b3 (b 4%nat) in
  let final_count := Z.max b4 total_records in
  (last_us t, [b0; b1; b2; b3; final_count], sum_us t, final_count).

(** ** Rule counters *)

Inductive DlqStage := CodecDecode | SchemaValidation | SqlEval | DataTemplate | SinkDelivery.

#[global] Instance DlqStage_eq_dec : EqDecision DlqStage.
Proof. solve_decision. Defined.

Definition stage_index (s : DlqStage) : nat :=
  match s with
  | CodecDecode => 0 | SchemaValidation => 1 | SqlEval => 2 | DataTemplate => 3 | SinkDelivery => 4
  end.

Definition stage_from_index (i : nat) : option DlqStage :=
  match i with
  | 0 => Some CodecDecode | 1 => Some SchemaValidation | 2 => Some SqlEval
  | 3 => Some DataTemplate | 4 => Some SinkDelivery | _ => None
  end%nat.

Definition stage_as_str (s : DlqStage) : string :=
  match s with
  | CodecDecode => "CodecDecode" | SchemaValidation => "SchemaValidation" | SqlEval => "SqlEval"
  | DataTemplate => "DataTemplate" | SinkDelivery => "SinkDelivery"
  end.

Definition stage_label_str (s : DlqStage) : string :=
  match s with
  | CodecDecode => "codec_decode" | SchemaValidation => "schema_validation" | SqlEval => "sql_eval"
  | DataTemplate => "data_template" | SinkDelivery => "sink_delivery"
  end.

Record RuleCounters := mkCounters {
  source_in : Z;
  sink_out : Z;
  exceptions : Z;
  filtered : Z;
  enqueued : Z;
  sink_failed : Z;
  dropped_by_policy : Z;
  high_water : Z;
  blocked_micros : Z;
  last_exception : string;
  dlq_records : Z;
  dlq_stages : list Z;
  dlq_sink_failures : Z;
  source_latency : LatencyTracker;
  op_latency : LatencyTracker;
  sink_latency : LatencyTracker;
}.

Definition counters_default : RuleCounters :=
  mkCounters 0 0 0 0 0 0 0 0 0 "" 0 [0; 0; 0; 0; 0] 0
    latency_default latency_default latency_default.

Definition inc_source (n : Z) (c : RuleCounters) : RuleCounters :=
  let '(mkCounters a b d e f g h i j k l m o p q r) := c in
  mkCounters (u64_add a n) b d e f g h i j k l m o p q r.
Definition inc_sink_out (n : Z) (c : RuleCounters) : RuleCounters :=
  let '(mkCounters a b d e f g h i j k l m o p q r) := c in
  mkCounters a (u64_add b n) d e f g h i j k l m o p q r.
Definition inc_exceptions (n : Z) (c : RuleCounters) : RuleCounters :=
  let '(mkCounters a b d e f g h i j k l m o p q r) := c in
  mkCounters a b (u64_add d n) e f g h i j k l m o p q r.
Definition record_exception (err : string) (c : RuleCounters) : RuleCounters :=
  let '(mkCounters a b d e f g h i j k l m o p q r) := c in
  mkCounters a b (u64_add d 1) e f g h i j err l m o p q r.
Definition inc_filtered (n : Z) (c : RuleCounters) : RuleCounters :=
  let '(mkCounters a b d e f g h i j k l m o p q r) := c in
  mkCounters a b d (u64_add e n) f g h i j k l m o p q r.
Definition inc_enqueued (n : Z) (c : RuleCounters) : RuleCounters :=
  let '(mkCounters a b d e f g h i j k l m o p q r) := c in
  mkCounters a b d e (u64_add f n) g h i j k l m o p q r.
Definition inc_sink_failed (n : Z) (c : RuleCounters) : RuleCounters :=
  let '(mkCounters a b d e f g h i j k l m o p q r) := c in
  mkCounters a b d e f (u64_add g n) h i j k l m o p q r.
Definition inc_dropped (n : Z) (c : RuleCounters) : RuleCounters :=
  let '(mkCounters a b d e f g h i j k l m o p q r) := c in
  mkCounters a b d e f g (u64_add h n) i j k l m o p q r.
Definition observe_high_water (depth : Z) (c : RuleCounters) : RuleCounters :=
  let '(mkCounters a b d e f g h i j k l m o p q r) := c in
  mkCounters a b d e f g h (if i <? depth then depth else i) j k l m o p q r.
Definition add_blocked_micros (n : Z) (c : RuleCounters) : RuleCounters :=
  let '(mkCounters a b d e f g h i j k l m o p q r) := c in
  mkCounters a b d e f g h i (u64_add j n) k l m o p q r.
Definition inc_dlq (stage : DlqStage) (c : RuleCounters) : RuleCounters :=
  let '(mkCounters a b d e f g h i j k l m o p q r) := c in
  let idx := stage_index stage in
  mkCounters a b d e f g h i j k (u64_add l 1)
    (if (idx <? 5)%nat then alter (fun x => u64_add x 1) idx m else m) o p q r.
Definition inc_dlq_sink_failures (c : RuleCounters) : RuleCounters :=
  let '(mkCounters a b d e f g h i j k l m o p q r) := c in
  mkCounters a b d e f g h i j k l m (u64_add o 1) p q r.
Definition dlq_stage_records (stage : DlqStage) (c : RuleCounters) : Z :=
  let idx := stage_index stage in
  if (idx <? 5)%nat then default 0 (dlq_stages c !! idx) else 0.

(** ** Facts *)

Lemma u64_add_small a b : 0 <= a -> 0 <= b -> a + b < 2 ^ 64 -> u64_add a b = a + b.
Proof. intros. unfold u64_add. apply Z.mod_small. lia. Qed.

(** A tracker after some observations: the buckets partition the timed records. *)
Definition latency_ok (t : LatencyTracker) : Prop :=
  exists b0 b1 b2 b3 b4, buckets t = [b0; b1; b2; b3; b4] /\
    0 <= b0 /\ 0 <= b1 /\ 0 <= b2 /\ 0 <= b3 /\ 0 <= b4 /\
    lat_count t = b0 + b1 + b2 + b3 + b4.

Lemma observe_batch_ok total records t :
  latency_ok t -> 0 <= records -> lat_count t + records < 2 ^ 64 ->
  latency_ok (observe_batch total records t) /\
  lat_count (observe_batch total records t) = lat_count t + records.
Proof.
  intros (b0 & b1 & b2 & b3 & b4 & Hb & ? & ? & ? & ? & ? & Hc) Hr Hlt.
  unfold observe_batch. destruct (Z.eqb_spec records 0) as [->|Hne].
  { split; [by exists b0, b1, b2, b3, b4|lia]. }
  assert (Hcnt : u64_add (lat_count t) records = lat_count t + records) by (apply u64_add_small; lia).
  rewrite Hcnt. split; [|done]. unfold latency_ok. simpl. rewrite Hb.
  unfold bucket_index. repeat case_match; simpl.
  all: eexists _, _, _, _, _; split; [reflexivity|]; rewrite ?u64_add_small by lia; lia.
Qed.

(** Observations fold over a fresh tracker. *)
Definition observe_all (obs : list (Z * Z)) : LatencyTracker :=
  foldl (fun t '(us, n) => observe_batch us n t) latency_default obs.

Definition observed_records (obs : list (Z * Z)) : Z := foldr (fun o n => o.2 + n) 0 obs.

Lemma observe_fold_ok obs t :
  latency_ok t -> Forall (fun o => 0 <= o.2) obs -> lat_count t + observed_records obs < 2 ^ 64 ->
  let t' := foldl (fun t '(us, n) => observe_batch us n t) t obs in
  latency_ok t' /\ lat_count t' = lat_count t + observed_records obs.
Proof.
  intros Ht Hobs. revert t Ht. induction Hobs as [|[us n] obs Hn Hobs IH]; intros t Ht Hlt; simpl in *.
  { split; [done|lia]. }
  assert (0 <= observed_records obs) by (clear -Hobs; induction Hobs; simpl in *; lia).
  destruct (observe_batch_ok us n t Ht Hn) as [Ht1 Hc1]; [lia|].
  destruct (IH _ Ht1) as [Ht2 Hc2]; [lia|]. split; [done|lia].
Qed.

(** A latency snapshot is a well-formed cumulative histogram: after any
    observations, the buckets are non-decreasing, the last one is the total count,
    and that count covers every record the rule has processed; no 64-bit sum overflows. *)
Theorem latency_snapshot_cumulative (obs : list (Z * Z)) (total : Z) :
  Forall (fun o => 0 <= o.2) obs -> observed_records obs < 2 ^ 64 -> 0 <= total < 2 ^ 64 ->
  let '(_, bs, _, n) := latency_snapshot total (observe_all obs) in
  Sorted Z.le bs /\ length bs = 5%nat /\ list.last bs = Some n /\
  n = Z.max total (observed_records obs).
Proof.
  intros Hobs Hlt Ht.
  destruct (observe_fold_ok obs latency_default) as [Hok Hc]; [|done|simpl; lia|].
  { exists 0, 0, 0, 0, 0. simpl. repeat split; lia. }
  fold (observe_all obs) in Hok, Hc. simpl in Hc.
  destruct Hok as (b0 & b1 & b2 & b3 & b4 & Hb & ? & ? & ? & ? & ? & Hcnt).
  unfold latency_snapshot. rewrite Hb. simpl. rewrite !u64_add_small by lia.
  split; [|split; [done|split; [done|lia]]].
  repeat (constructor; try lia).
Qed.

Lemma latency_snapshot_cumulative_witness :
  let '(_, bs, _, n) := latency_snapshot 5 (observe_all [(50, 1); (7000, 1); (900, 3)]) in
  Sorted Z.le bs /\ length bs = 5%nat /\ list.last bs = Some n /\
  n = Z.max 5 (observed_records [(50, 1); (7000, 1); (900, 3)]).
Proof.
  apply latency_snapshot_cumulative; [repeat constructor; simpl; lia|by vm_compute|lia].
Defined.

Lemma stage_index_roundtrip s : stage_from_index (stage_index s) = Some s.
Proof. by destruct s. Qed.
