(* ===== verification/Dlq.v ===== *)
(** * The dead-letter router
      ([crates/rekuiper-server/src/engine/dlq.rs], [DlqEnvelope] and
      [truncate_raw_payload] of [crates/rekuiper-core/src/model.rs])

    [route_error] counts an error, wraps it in an envelope and keeps the most
    recent ones in a bounded buffer.  The tasks it spawns (dispatch to an external
    sink, halting the rule) run after it returns; they are the [spawned] list of
    the state.  Strings are byte sequences here (UTF-8 text). *)

From Stdlib Require Import Ascii.
From S2P Require Import Prelude Rust Json Counters.

Set Default Goal Selector "!".

(** ** Truncating raw payloads *)

Definition MAX_DLQ_RAW_PAYLOAD_BYTES : nat := Z.to_nat 4096.

(** The UTF-8 bytes of the suffix: an ellipsis (three bytes) and [[truncated]]. *)
Definition truncation_suffix : list ascii :=
  [ascii_of_N 226; ascii_of_N 128; ascii_of_N 166] ++ chars "[truncated]".

(** A continuation byte: [10xxxxxx]. *)
Definition is_continuation (b : ascii) : bool := (128 <=? code b) && (code b <? 192).

(** [str::is_char_boundary] *)
Definition is_char_boundary (bytes : list ascii) (i : nat) : bool :=
  if (i =? 0)%nat then true
  else match bytes !! i with
       | None => (i =? length bytes)%nat
       | Some b => negb (is_continuation b)
       end.

Fixpoint find_boundary (bytes : list ascii) (boundary : nat) : nat :=
  match boundary with
  | O => O
  | S b => if is_char_boundary bytes boundary then boundary else find_boundary bytes b
  end.

Definition truncate_raw_payload (payload : string) (max_bytes : nat) : string :=
  let bytes := chars payload in
  if (length bytes <=? max_bytes)%nat then payload
  else
    let target := (max_bytes - length truncation_suffix)%nat in
    let boundary := find_boundary bytes target in
    of_chars (take boundary bytes ++ truncation_suffix).

(** ** Envelope *)

Record DlqEnvelope := mkEnvelope {
  env_rule_id : string;
  env_timestamp : Z;
  env_stage : DlqStage;
  env_error : string;
  env_raw_payload : option string;
  env_tuple : option value;
  env_sink_type : option string;
}.

Definition envelope_new (now : Z) (rule_id : string) (stage : DlqStage) (error : string) : DlqEnvelope :=
  mkEnvelope rule_id now stage error None None None.

Definition with_raw_payload (raw : string) (e : DlqEnvelope) : DlqEnvelope :=
  mkEnvelope (env_rule_id e) (env_timestamp e) (env_stage e) (env_error e)
    (Some (truncate_raw_payload raw MAX_DLQ_RAW_PAYLOAD_BYTES)) (env_tuple e) (env_sink_type e).

Definition with_tuple (t : value) (e : DlqEnvelope) : DlqEnvelope :=
  mkEnvelope (env_rule_id e) (env_timestamp e) (env_stage e) (env_error e)
    (env_raw_payload e) (Some t) (env_sink_type e).

Definition with_sink_type (s : string) (e : DlqEnvelope) : DlqEnvelope :=
  mkEnvelope (env_rule_id e) (env_timestamp e) (env_stage e) (env_error e)
    (env_raw_payload e) (env_tuple e) (Some s).

(** ** Policy *)

Inductive OnErrorPolicy := Drop | Dlq | Halt.

#[global] Instance OnErrorPolicy_eq_dec : EqDecision OnErrorPolicy.
Proof. solve_decision. Defined.

Definition policy_from_options (options : option row) : OnErrorPolicy :=
  match options with
  | None => Drop
  | Some opts =>
      let fallback := if bool_decide (is_Some (opts !! "dlq")) then Dlq else Drop in
      match opts !! "onError" ≫= as_str with
      | Some val =>
          let v := to_ascii_lowercase val in
          if bool_decide (v = "dlq") then Dlq
          else if bool_decide (v = "halt") then Halt
          else if bool_decide (v = "drop") then Drop
          else fallback
      | None => fallback
      end
  end.

(** ** Router *)

Inductive SpawnedTask :=
  | DispatchExternal (e : DlqEnvelope)
  | HaltRule (rule_id msg : string).

Record DlqRouter := mkRouter {
  rule_id : string;
  on_error : OnErrorPolicy;
  include_raw_payload : bool;
  capacity : nat;
  has_external_sink : bool;
  has_rule_manager : bool;
}.

(** The shared cells the router works on. *)
Record DlqState := mkDlqState {
  counters : RuleCounters;
  buffer : list DlqEnvelope;
  spawned : list SpawnedTask;
}.

Definition push_bounded (cap : nat) (e : DlqEnvelope) (buf : list DlqEnvelope) : list DlqEnvelope :=
  (if (cap <=? length buf)%nat then drop 1 buf else buf) ++ [e].

Definition build_envelope (r : DlqRouter) (now : Z) (stage : DlqStage) (error_msg : string)
    (raw_payload : option string) (tuple : option value) (sink_type : option string) : DlqEnvelope :=
  let e := envelope_new now (rule_id r) stage error_msg in
  let e := if include_raw_payload r then
             match raw_payload with Some raw => with_raw_payload raw e | None => e end
           else e in
  let e := match tuple with Some t => with_tuple t e | None => e end in
  match sink_type with Some st => with_sink_type st e | None => e end.

Definition route_error (r : DlqRouter) (now : Z) (stage : DlqStage) (error_msg : string)
    (raw_payload : option string) (tuple : option value) (sink_type : option string)
    (s : DlqState) : DlqState :=
  let c := record_exception error_msg (counters s) in
  if bool_decide (on_error r = Drop) then mkDlqState c (buffer s) (spawned s)
  else
    let c := inc_dlq stage c in
    let e := build_envelope r now stage error_msg raw_payload tuple sink_type in
    let buf := push_bounded (capacity r) e (buffer s) in
    let sp := spawned s ++ (if has_external_sink r then [DispatchExternal e] else []) in
    let sp := sp ++ (if bool_decide (on_error r = Halt) && has_rule_manager r
                     then [HaltRule (rule_id r) error_msg] else []) in
    mkDlqState c buf sp.

(** The result of a dispatched envelope: a failure is only counted, the router is
    not entered again. *)
Definition finish_dispatch (ok : bool) (s : DlqState) : DlqState :=
  if ok then s else mkDlqState (inc_dlq_sink_failures (counters s)) (buffer s) (spawned s).

(** ** Facts about truncation *)

Lemma length_suffix : length truncation_suffix = 14%nat.
Proof. done. Qed.

Lemma find_boundary_le bytes b : (find_boundary bytes b <= b)%nat.
Proof. induction b as [|b IH]; simpl; [done|]. case_match; lia. Qed.

Lemma find_boundary_ok bytes b : is_char_boundary bytes (find_boundary bytes b) = true.
Proof. induction b as [|b IH]; simpl; [done|]. case_match; done. Qed.

(** Nothing between the boundary found and the target is a boundary. *)
Lemma find_boundary_max bytes b i :
  (find_boundary bytes b < i <= b)%nat -> is_char_boundary bytes i = false.
Proof.
  induction b as [|b IH]; [simpl; lia|]. cbn [find_boundary].
  destruct (is_char_boundary bytes (S b)) eqn:E; [lia|].
  intros Hi. destruct (decide (i = S b)) as [->|]; [done|]. apply IH. lia.
Qed.

(** A payload kept in a dead letter is at most [max_bytes] long (for any limit
    that holds the suffix) and is either the payload itself or the longest prefix
    that fits and ends at a character boundary, followed by the suffix. *)
Theorem truncate_raw_payload_spec (payload : string) (max_bytes : nat) :
  (14 <= max_bytes)%nat ->
  let out := chars (truncate_raw_payload payload max_bytes) in
  (length out <= max_bytes)%nat /\
  (out = chars payload \/
   exists k, is_char_boundary (chars payload) k = true /\
     out = take k (chars payload) ++ truncation_suffix /\ (k + 14 <= max_bytes)%nat /\
     forall i, (k < i)%nat -> (i + 14 <= max_bytes)%nat -> is_char_boundary (chars payload) i = false).
Proof.
  intros Hmax. unfold truncate_raw_payload. rewrite length_suffix.
  destruct (Nat.leb_spec (length (chars payload)) max_bytes) as [Hle|Hlt]; [by split; [|left]|].
  set (k := find_boundary (chars payload) (max_bytes - 14)).
  pose proof (find_boundary_le (chars payload) (max_bytes - 14)) as Hk. fold k in Hk. simpl.
  assert (E : chars (of_chars (take k (chars payload) ++ truncation_suffix))
              = take k (chars payload) ++ truncation_suffix)
    by apply String.list_ascii_of_string_of_list_ascii.
  rewrite E, length_app, length_take, length_suffix. split; [lia|]. right. exists k.
  split; [apply find_boundary_ok|]. split; [done|]. split; [lia|].
  intros i Hi Hi14. apply (find_boundary_max _ (max_bytes - 14)). fold k. lia.
Qed.

Lemma truncate_raw_payload_spec_witness :
  let out := chars (truncate_raw_payload "0123456789012345678901234567890" 20) in
  (length out <= 20)%nat /\
  (out = chars "0123456789012345678901234567890" \/
   exists k, is_char_boundary (chars "0123456789012345678901234567890") k = true /\
     out = take k (chars "0123456789012345678901234567890") ++ truncation_suffix /\ (k + 14 <= 20)%nat /\
     forall i, (k < i)%nat -> (i + 14 <= 20)%nat ->
       is_char_boundary (chars "0123456789012345678901234567890") i = false).
Proof. apply truncate_raw_payload_spec. lia. Defined.

(** Below the length of the suffix the limit is exceeded, although the
    function's documentation promises at most [max_bytes] bytes. *)
Theorem truncate_raw_payload_small_limit :
  length (chars (truncate_raw_payload "payload" 5)) = 14%nat.
Proof. by vm_compute. Qed.

(** ** Facts about routing *)

Record dlq_request := mkRequest {
  rq_now : Z; rq_stage : DlqStage; rq_msg : string;
  rq_raw : option string; rq_tuple : option value; rq_sink : option string;
}.

Definition route_all (r : DlqRouter) (rqs : list dlq_request) (s : DlqState) : DlqState :=
  foldl (fun s q => route_error r (rq_now q) (rq_stage q) (rq_msg q) (rq_raw q) (rq_tuple q) (rq_sink q) s)
    s rqs.

Definition envelope_of (r : DlqRouter) (q : dlq_request) : DlqEnvelope :=
  build_envelope r (rq_now q) (rq_stage q) (rq_msg q) (rq_raw q) (rq_tuple q) (rq_sink q).

(** The last [n] elements of a list. *)
Definition lastn {A} (n : nat) (l : list A) : list A := drop (length l - n) l.

Lemma push_bounded_lastn cap e l :
  (1 <= cap)%nat -> push_bounded cap e (lastn cap l) = lastn cap (l ++ [e]).
Proof.
  intros Hc. unfold push_bounded, lastn. rewrite length_drop, length_app. simpl.
  destruct (Nat.leb_spec cap (length l - (length l - cap))).
  - rewrite drop_drop, drop_app_le by lia. f_equal. f_equal. lia.
  - replace (length l + 1 - cap)%nat with 0%nat by lia.
    replace (length l - cap)%nat with 0%nat by lia. by rewrite !drop_0.
Qed.

Lemma route_error_keep r q s :
  on_error r <> Drop ->
  let s' := route_error r (rq_now q) (rq_stage q) (rq_msg q) (rq_raw q) (rq_tuple q) (rq_sink q) s in
  buffer s' = push_bounded (capacity r) (envelope_of r q) (buffer s) /\
  counters s' = inc_dlq (rq_stage q) (record_exception (rq_msg q) (counters s)).
Proof. intros Hp. unfold route_error. rewrite bool_decide_eq_false_2 by done. done. Qed.

Definition stage_count (st : DlqStage) (rqs : list dlq_request) : Z :=
  Z.of_nat (length (filter (fun q => rq_stage q = st) rqs)).

(** What [route_all] did to the counters, as exact numbers below 2^64. *)
Definition counted (c c' : RuleCounters) (rqs : list dlq_request) : Prop :=
  exceptions c' = exceptions c + Z.of_nat (length rqs) /\
  dlq_records c' = dlq_records c + Z.of_nat (length rqs) /\
  forall st, dlq_stage_records st c' = dlq_stage_records st c + stage_count st rqs.

Definition counters_nonneg (c : RuleCounters) : Prop :=
  0 <= exceptions c /\ 0 <= dlq_records c /\ length (dlq_stages c) = 5%nat /\
  Forall (fun x => 0 <= x) (dlq_stages c).

Definition counters_room (c : RuleCounters) (n : Z) : Prop :=
  exceptions c + n < 2 ^ 64 /\ dlq_records c + n < 2 ^ 64 /\
  Forall (fun x => x + n < 2 ^ 64) (dlq_stages c).

Lemma counted_step q c :
  counters_nonneg c -> counters_room c 1 ->
  let c' := inc_dlq (rq_stage q) (record_exception (rq_msg q) c) in
  counted c c' [q] /\ counters_nonneg c' /\
  (forall n, 0 <= n -> counters_room c (n + 1) -> counters_room c' n).
Proof.
  destruct c as [x0 x1 ex x3 x4 x5 x6 x7 x8 le dr m x9 x10 x11 x12].
  unfold counters_nonneg, counters_room, counted. simpl. intros (He & Hd & Hl & Hm) (Re & Rd & Rm).
  destruct m as [|a [|b [|c [|d [|e [|]]]]]]; try done.
  rewrite !list.Forall_cons in Hm, Rm. destruct Hm as (?&?&?&?&?&_), Rm as (?&?&?&?&?&_).
  rewrite !u64_add_small by lia.
  split; [|split].
  - split; [done|]. split; [done|]. intros st. unfold stage_count, dlq_stage_records.
    rewrite list.filter_cons, list.filter_nil. case_decide; subst; simpl;
      [destruct (rq_stage q)|destruct (rq_stage q), st; try done]; simpl; rewrite ?u64_add_small by lia; lia.
  - split; [lia|]. split; [lia|]. destruct (rq_stage q); simpl; (split; [done|]);
      rewrite ?u64_add_small by lia; repeat (constructor; try lia).
  - intros n Hn (R1 & R2 & R3). rewrite !list.Forall_cons in R3. destruct R3 as (?&?&?&?&?&_).
    split; [lia|]. split; [lia|].
    destruct (rq_stage q); simpl; rewrite ?u64_add_small by lia; repeat (constructor; try lia).
Qed.

Lemma route_all_counts r rqs s :
  on_error r <> Drop -> counters_nonneg (counters s) ->
  counters_room (counters s) (Z.of_nat (length rqs)) ->
  counted (counters s) (counters (route_all r rqs s)) rqs.
Proof.
  intros Hp. revert s. induction rqs as [|q rqs IH]; intros s Hn Hr.
  { split; [simpl; lia|]. split; [simpl; lia|]. intros st. unfold stage_count. simpl. lia. }
  destruct (route_error_keep r q s Hp) as [_ Hc].
  set (s1 := route_error _ _ _ _ _ _ _ s) in *.
  change (route_all r (q :: rqs) s) with (route_all r rqs s1).
  destruct (counted_step q (counters s) Hn) as ((H1 & H2 & H3) & Hn1 & Hr1).
  { destruct Hr as (Ra & Rb & Rc). simpl length in *. split; [lia|]. split; [lia|].
    eapply list.Forall_impl; [exact Rc|]. simpl. lia. }
  rewrite <- Hc in *.
  destruct (IH s1 Hn1) as (G1 & G2 & G3).
  { apply Hr1; [lia|]. destruct Hr as (Ra & Rb & Rc). simpl length in *. split; [lia|]. split; [lia|].
    eapply list.Forall_impl; [exact Rc|]. simpl. lia. }
  unfold counted. rewrite G1, G2, H1, H2. cbn [length].
  split; [lia|]. split; [lia|]. intros st.
  rewrite G3, H3. unfold stage_count. rewrite !list.filter_cons, list.filter_nil. case_decide; simpl; lia.
Qed.

Lemma route_all_buffer r rqs s l :
  on_error r <> Drop -> (1 <= capacity r)%nat -> buffer s = lastn (capacity r) l ->
  buffer (route_all r rqs s) = lastn (capacity r) (l ++ map (envelope_of r) rqs).
Proof.
  intros Hp Hc. revert s l. induction rqs as [|q rqs IH]; intros s l Hs.
  { simpl. by rewrite app_nil_r. }
  destruct (route_error_keep r q s Hp) as [Hb _].
  set (s1 := route_error _ _ _ _ _ _ _ s) in *.
  change (route_all r (q :: rqs) s) with (route_all r rqs s1).
  rewrite (IH _ (l ++ [envelope_of r q])); [by rewrite <- app_assoc|].
  by rewrite Hb, Hs, push_bounded_lastn.
Qed.

(** The dead-letter router keeps exactly the most recent [capacity] errors,
    in order, and its counters count every error once, in total and per stage. *)
Theorem dlq_keeps_most_recent (r : DlqRouter) (rqs : list dlq_request) (c : RuleCounters) :
  on_error r <> Drop -> (1 <= capacity r)%nat ->
  counters_nonneg c -> counters_room c (Z.of_nat (length rqs)) ->
  let s := route_all r rqs (mkDlqState c [] []) in
  buffer s = lastn (capacity r) (map (envelope_of r) rqs) /\
  (length (buffer s) <= capacity r)%nat /\ counted c (counters s) rqs.
Proof.
  intros Hp Hc Hn Hr s. assert (Hb : buffer s = lastn (capacity r) (map (envelope_of r) rqs)).
  { apply (route_all_buffer r rqs _ []); done. }
  split; [done|]. split; [rewrite Hb; unfold lastn; rewrite length_drop; lia|].
  by apply (route_all_counts r rqs (mkDlqState c [] [])).
Qed.

Definition sample_router : DlqRouter := mkRouter "r1" Dlq true 2 false true.
Definition sample_requests : list dlq_request :=
  [mkRequest 1 SqlEval "a" None None None; mkRequest 2 CodecDecode "b" None None None;
   mkRequest 3 SqlEval "c" (Some "raw") None None].

Lemma dlq_keeps_most_recent_witness :
  let s := route_all sample_router sample_requests (mkDlqState counters_default [] []) in
  buffer s = lastn 2 (map (envelope_of sample_router) sample_requests) /\
  (length (buffer s) <= 2)%nat /\ counted counters_default (counters s) sample_requests.
Proof.
  apply (dlq_keeps_most_recent sample_router); [done|simpl; lia| |].
  - repeat split; simpl; try lia. repeat constructor; lia.
  - repeat split; simpl; try lia. repeat constructor; lia.
Defined.

(** Under the default policy an error is counted and nothing else happens: no
    envelope is kept, no task is spawned, no dead-letter counter moves. *)
Theorem dlq_drop_only_counts (r : DlqRouter) (q : dlq_request) (s : DlqState) :
  on_error r = Drop ->
  let s' := route_error r (rq_now q) (rq_stage q) (rq_msg q) (rq_raw q) (rq_tuple q) (rq_sink q) s in
  buffer s' = buffer s /\ spawned s' = spawned s /\
  dlq_records (counters s') = dlq_records (counters s) /\
  dlq_stages (counters s') = dlq_stages (counters s) /\
  exceptions (counters s') = u64_add (exceptions (counters s)) 1 /\
  last_exception (counters s') = rq_msg q.
Proof.
  intros Hp. unfold route_error. rewrite bool_decide_eq_true_2 by done. simpl.
  by destruct (counters s).
Qed.

Lemma dlq_drop_only_counts_witness :
  let s' := route_error (mkRouter "r" Drop true 2 true true) 1 SqlEval "e" None None None
              (mkDlqState counters_default [] []) in
  buffer s' = [] /\ spawned s' = [] /\ dlq_records (counters s') = 0 /\
  dlq_stages (counters s') = [0; 0; 0; 0; 0] /\
  exceptions (counters s') = u64_add 0 1 /\ last_exception (counters s') = "e".
Proof.
  apply (dlq_drop_only_counts (mkRouter "r" Drop true 2 true true)
           (mkRequest 1 SqlEval "e" None None None)). done.
Defined.
