(* ===== verification/Ast.v ===== *)
(** * SQL abstract syntax ([crates/rekuiper-sql/src/ast.rs])

    One constructor per Rust variant, one field per Rust field. *)

From S2P Require Import Prelude Rust Json.

Set Default Goal Selector "!".
#[local] Set Warnings "-register-all".

Inductive BinaryOperator :=
  | Eq | Neq | Lt | Lte | Gt | Gte | And | Or | Add | Sub | Mul | Div | Mod | Like
  | BitAnd | BitOr | BitXor.

#[global] Instance BinaryOperator_eq_dec : EqDecision BinaryOperator.
Proof. solve_decision. Defined.

Inductive UnaryOperator := Not | Neg.

Inductive Expr :=
  | Wildcard
  | WildcardModified (except : list string) (replace : list (Expr * string))
  | Identifier (name : string)
  | Literal (v : value)
  | BinaryOp (left : Expr) (op : BinaryOperator) (right : Expr)
  | UnaryOp (op : UnaryOperator) (expr : Expr)
  | Between (expr low high : Expr) (negated : bool)
  | InList (expr : Expr) (list : list Expr) (negated : bool)
  | IsNull (expr : Expr) (negated : bool)
  | FieldAccess (parent : Expr) (field : string)
  | Index (base index : Expr)
  | Slice (base : Expr) (lo hi : option Expr)
  | Call (name : string) (args : list Expr)
  | Case (operand : option Expr) (when_clauses : list (Expr * Expr)) (else_clause : option Expr)
  | Over (call : Expr) (partition_by when : option Expr).

Inductive TimeUnit := Dd | Hh | Mi | Ss | Ms.

Inductive WindowDef :=
  | TumblingTime (unit : TimeUnit) (length : Z)
  | HoppingTime (unit : TimeUnit) (length interval : Z)
  | SlidingTime (unit : TimeUnit) (length : Z) (delay : option Z)
  | CountWindow (size : nat) (interval : option nat)
  | Session (unit : TimeUnit) (max_duration timeout : Z)
  | StateWindow (start_condition : Expr) (end_condition : option Expr).

Inductive SortOrder := Asc | Desc.

Record OrderByItem := mkOrderBy { order_expr : Expr; order : SortOrder }.

Inductive JoinType := Inner | Left | Right | Full | Cross | Asof | LeftAsof.

#[global] Instance JoinType_eq_dec : EqDecision JoinType.
Proof. solve_decision. Defined.

Record JoinClause := mkJoin {
  join_type : JoinType;
  target : string;
  alias : option string;
  on : option Expr;
}.

Inductive SetOp := Union | UnionAll.

Inductive SelectStmt := mkSelect {
  fields : list Expr;
  field_aliases : list (option string);
  from : string;
  from_alias : option string;
  joins : list JoinClause;
  where_clause : option Expr;
  group_by : list Expr;
  window : option WindowDef;
  window_filter : option Expr;
  window_trigger_condition : option Expr;
  window_partition_by : option Expr;
  having : option Expr;
  order_by : list OrderByItem;
  limit : option nat;
  set_op : option (SetOp * SelectStmt);
}.

Record StreamColumn := mkColumn {
  col_name : string;
  data_type : string;
  default_value : option string;
}.

(** [CreateStreamStmt] and [CreateTableStmt], which have the same fields. *)
Record CreateStmt := mkCreate {
  create_name : string;
  create_fields : list StreamColumn;
  options : gmap string string;
}.

(** ** Induction on expressions, with the hypothesis on every nested expression *)

Definition on_option {A} (P : A -> Prop) (o : option A) : Prop := forall x, o = Some x -> P x.

Section expr_induction.
Context (P : Expr -> Prop).
Context (HWild : P Wildcard)
  (HModified : forall except replace, Forall (fun r => P r.1) replace -> P (WildcardModified except replace))
  (HIdent : forall name, P (Identifier name))
  (HLit : forall v, P (Literal v))
  (HBinary : forall l op r, P l -> P r -> P (BinaryOp l op r))
  (HUnary : forall op x, P x -> P (UnaryOp op x))
  (HBetween : forall x low high n, P x -> P low -> P high -> P (Between x low high n))
  (HIn : forall x items n, P x -> Forall P items -> P (InList x items n))
  (HNull : forall x n, P x -> P (IsNull x n))
  (HField : forall parent field, P parent -> P (FieldAccess parent field))
  (HIndex : forall base index, P base -> P index -> P (Index base index))
  (HSlice : forall base lo hi, P base -> on_option P lo -> on_option P hi -> P (Slice base lo hi))
  (HCall : forall name args, Forall P args -> P (Call name args))
  (HCase : forall operand clauses other, on_option P operand -> Forall (fun c => P c.1 /\ P c.2) clauses ->
     on_option P other -> P (Case operand clauses other))
  (HOver : forall call part when, P call -> on_option P part -> on_option P when -> P (Over call part when)).

Fixpoint Expr_ind' (e : Expr) : P e :=
  let opt o : on_option P o :=
    match o with
    | Some x => fun y (H : Some x = Some y) => match H with eq_refl => Expr_ind' x end
    | None => fun y H => False_ind _ (eq_ind None (fun o => match o with None => True | _ => False end) I _ H)
    end in
  let all := fix all l : Forall P l :=
    match l with [] => Forall_nil_2 _ | x :: r => Forall_cons_2 _ _ _ (Expr_ind' x) (all r) end in
  match e with
  | Wildcard => HWild
  | WildcardModified except replace =>
      HModified except replace
        ((fix go l : Forall (fun r => P r.1) l :=
            match l with
            | [] => Forall_nil_2 _
            | (x, c) :: r => Forall_cons_2 _ (x, c) _ (Expr_ind' x) (go r)
            end) replace)
  | Identifier name => HIdent name
  | Literal v => HLit v
  | BinaryOp l op r => HBinary l op r (Expr_ind' l) (Expr_ind' r)
  | UnaryOp op x => HUnary op x (Expr_ind' x)
  | Between x low high n => HBetween x low high n (Expr_ind' x) (Expr_ind' low) (Expr_ind' high)
  | InList x items n => HIn x items n (Expr_ind' x) (all items)
  | IsNull x n => HNull x n (Expr_ind' x)
  | FieldAccess parent field => HField parent field (Expr_ind' parent)
  | Index base index => HIndex base index (Expr_ind' base) (Expr_ind' index)
  | Slice base lo hi => HSlice base lo hi (Expr_ind' base) (opt lo) (opt hi)
  | Call name args => HCall name args (all args)
  | Case operand clauses other =>
      HCase operand clauses other (opt operand)
        ((fix go l : Forall (fun c => P c.1 /\ P c.2) l :=
            match l with
            | [] => Forall_nil_2 _
            | (w, t) :: r => Forall_cons_2 _ (w, t) _ (conj (Expr_ind' w) (Expr_ind' t)) (go r)
            end) clauses) (opt other)
  | Over call part when => HOver call part when (Expr_ind' call) (opt part) (opt when)
  end.
End expr_induction.
