(* ===== verification/Engine.v ===== *)
(** * Runtime support of the rule loops
      ([crates/rekuiper-server/src/engine/runtime.rs], [enqueue_sink_record] of
      [engine/sinks.rs])

    What the rule loops share: the record being processed, the error path into
    the dead-letter router, event timestamps, and the interfaces of the SQL
    evaluator ([Evaluator]) and of third-party text conversions ([Text]). *)

From S2P Require Import Prelude Rust Json Counters Dlq Ast.

Set Default Goal Selector "!".

(** ** Interfaces *)

(** The state behind [RuleState]: a map shared by the stateful evaluator calls. *)
Abbreviation rule_state := (gmap string value).

(** A row and the stream it came from ([engine/joins.rs]). *)
Record TaggedRow := mkTagged { source : string; tdata : row }.

(** Evaluation of one expression on one row ([rekuiper_sql::Evaluator]): plain evaluation
    is a function of the row; stateful evaluation also reads and writes the rule state. *)
Class ExprEval := {
  eval_bool : Expr -> row -> bool;
  eval_val : Expr -> row -> value;
  eval_bool_stateful : Expr -> row -> rule_state -> bool * rule_state;
}.

(** What the rule loops ask of the SQL evaluator.  [eval_window false] is
    [eval_window_stateful], [eval_window true] is [eval_window_filtered_stateful] (the rows
    already passed [WHERE]); [eval_window_join] is [eval_window_join_batch] of
    [engine/joins.rs]. *)
Class Evaluator := {
  expr_eval :: ExprEval;
  eval_window : bool -> SelectStmt -> list row -> rule_state -> list row * rule_state;
  eval_window_join : SelectStmt -> list TaggedRow -> rule_state -> list row * rule_state;
}.

(** What the processing-time windows ask of the row-free accumulators
    ([IncrementalWindow] and [SlidingIncrementalWindow] of [eval/window.rs]). *)
Class Incremental := {
  inc : Type;
  inc_try_new : SelectStmt -> option inc;
  inc_is_empty : inc -> bool;
  inc_push : row -> inc -> bool * inc;
  inc_take : inc -> list row * inc;
  sinc : Type;
  sinc_try_new : SelectStmt -> option sinc;
  sinc_evict_before : Z -> sinc -> sinc;
  sinc_push : Z -> row -> sinc -> bool * sinc;
  sinc_snapshot : sinc -> list row;
}.

(** Text conversions of serde_json ([Display] of a value, a map as JSON text) and
    chrono ([DateTime::parse_from_rfc3339], as milliseconds). *)
Class Text := {
  value_to_string : value -> string;
  map_to_json : row -> string;
  parse_rfc3339 : string -> option Z;
}.

(** The wall clock (in milliseconds) as functions such as [event_time] and [rule_start]
    read it when the record and the rule state do not say. *)
Class WallClock := wall_clock : Z.

(** ** Records and the sink queue *)

Record StreamRecord := mkRecord { timestamp : Z; data : row }.

(** What the channel to the sink worker answers to one send: it takes the record at
    once; it is full (with the channel's capacity) and takes the record after some
    microseconds, or closes meanwhile; or it is already closed. *)
Inductive SendResult :=
  | Sent
  | FullThenSent (max_capacity elapsed_micros : Z)
  | FullThenClosed (max_capacity : Z)
  | Closed.

(** The effects of a rule loop: counters and dead letters, the channel to the sink
    worker (its answer to the i-th send to come), the records it has taken, and the
    state of the stateful evaluator. *)
Record Env := mkEnv {
  dlq : DlqState;
  sink : nat -> SendResult;
  sent : list StreamRecord;
  rstate : rule_state;
}.

Definition set_counters (c : RuleCounters) (e : Env) : Env :=
  mkEnv (mkDlqState c (buffer (dlq e)) (spawned (dlq e))) (sink e) (sent e) (rstate e).
Definition upd_counters (f : RuleCounters -> RuleCounters) (e : Env) : Env :=
  set_counters (f (counters (dlq e))) e.

(** The channel has answered one send, taking the records [rs]. *)
Definition after_send (rs : list StreamRecord) (e : Env) : Env :=
  mkEnv (dlq e) (fun i => sink e (S i)) (sent e ++ rs) (rstate e).

(** [enqueue_sink_record]: [true] when the record was enqueued. *)
Definition enqueue_sink_record (r : StreamRecord) (e : Env) : bool * Env :=
  match sink e 0 with
  | Sent => (true, upd_counters (inc_enqueued 1) (after_send [r] e))
  | Closed => (false, after_send [] e)
  | FullThenSent max_capacity elapsed_micros =>
      (true, upd_counters (fun c =>
         inc_enqueued 1 (add_blocked_micros elapsed_micros (observe_high_water max_capacity c)))
         (after_send [r] e))
  | FullThenClosed max_capacity =>
      (false, upd_counters (observe_high_water max_capacity) (after_send [] e))
  end.

(** [is_rule_running]: the status read, or running when the lock is contended. *)
Definition is_rule_running (try_read : option string) : bool :=
  match try_read with
  | Some status => bool_decide (status = "running")
  | None => true
  end.

(** ** Error records *)

Definition is_error_key (k : string) : bool :=
  bool_decide (k = "error" \/ k = "__error" \/ k = "__raw_error__").

Section errors.
Context `{Text}.

(** The message of the first error field met in iteration order; [map_to_list]
    stands for the unspecified order of a [HashMap]. *)
Definition check_record_error (d : row) : option string :=
  match List.find (fun kv => is_error_key kv.1) (map_to_list d) with
  | Some (_, v) => Some (default (value_to_string v) (as_str v))
  | None => None
  end.

(** A map as a JSON object, ordered by key. *)
Definition key_leb (a b : string * value) : Prop := String.leb a.1 b.1 = true.

#[export] Instance key_leb_dec : RelDecision key_leb.
Proof. intros a b. unfold key_leb. apply _. Defined.

Definition row_to_value (d : row) : value := VObject (merge_sort key_leb (map_to_list d)).

Definition handle_runtime_error (router : option DlqRouter) (now : Z) (rid : string) (send_error : bool)
    (err_msg : string) (stage : option DlqStage) (record_data : option row) (e : Env) : Env :=
  let e :=
    match router with
    | Some r =>
        let stg := default SqlEval stage in
        let tuple_val := row_to_value <$> record_data in
        let raw_str :=
          match record_data ≫= (fun d => d !! "__raw_payload__" ≫= as_str) with
          | Some s => Some s
          | None => map_to_json <$> record_data
          end in
        mkEnv (route_error r now stg err_msg raw_str tuple_val None (dlq e))
          (sink e) (sent e) (rstate e)
    | None => upd_counters (record_exception err_msg) e
    end in
  if send_error then
    (enqueue_sink_record
       (mkRecord now {["error" := VString err_msg; "rule_id" := VString rid;
                       "__raw_error__" := VString err_msg]}) e).2
  else e.

(** [handle_error_record]: [true] when the record was an error record. *)
Definition handle_error_record (router : option DlqRouter) (now : Z) (rid : string) (send_error : bool)
    (d : row) (e : Env) : bool * Env :=
  match check_record_error d with
  | None => (false, e)
  | Some err_msg =>
      (true, handle_runtime_error router now rid send_error err_msg (Some CodecDecode) (Some d) e)
  end.
End errors.

(** ** Event time *)

Record EventTimeConfig := mkEventTime {
  enabled : bool;
  late_tolerance_ms : Z;
  timestamp_field : option string;
  source_timestamp_fields : gmap string string;
}.

Section timestamps.
Context `{Text}.

Definition parse_timestamp_val (v : value) : option Z :=
  match as_i64 v with
  | Some n => Some n
  | None =>
      match as_u64 v with
      | Some n => Some (wrap64 n)
      | None =>
          match as_f64 v with
          | Some f => Some (f64_as_i64 f)
          | None =>
              match as_str v with
              | Some s => match parse_i64 s with Some n => Some n | None => parse_rfc3339 s end
              | None => None
              end
          end
      end
  end.

Fixpoint first_timestamp (keys : list string) (d : row) : option Z :=
  match keys with
  | [] => None
  | k :: ks =>
      match d !! k ≫= parse_timestamp_val with
      | Some t => Some t
      | None => first_timestamp ks d
      end
  end.

(** [now] is the wall clock read when the row has no timestamp. *)
Definition extract_event_timestamp (now : Z) (d : row) (configured_field : option string) : Z :=
  match (field ← configured_field; v ← d !! field; parse_timestamp_val v) with
  | Some v => v
  | None => default now (first_timestamp ["timestamp"; "ts"; "event_time"; "time"] d)
  end.

(** The timestamp of a row of [source] under the rule's event-time options. *)
Definition event_timestamp (et : EventTimeConfig) (now : Z) (source : string) (d : row) : Z :=
  extract_event_timestamp now d
    (match source_timestamp_fields et !! source with
     | Some f => Some f
     | None => timestamp_field et
     end).
End timestamps.
