(* ===== verification/Columns.v ===== *)
(** * Names of expressions ([crates/rekuiper-sql/src/ast.rs],
      column names and call classes of [eval.rs], [contains_aggregate] of [eval/window.rs])

    The eKuiper text of an expression (it identifies a stateful call site and appears in
    error messages), the output column of a field, and which calls are aggregates or
    analytic functions. *)

From Stdlib Require Import Ascii.
From stdpp Require Import pretty.
From S2P Require Import Prelude Rust Json Ast Engine.

Set Default Goal Selector "!".

(** ** The eKuiper text of an expression *)

(** [Vec::join] *)
Fixpoint join (sep : string) (l : list string) : string :=
  match l with
  | [] => ""
  | [x] => x
  | x :: r => x +:+ sep +:+ join sep r
  end.

(** [str::contains] of a character. *)
Definition contains_char (c : ascii) (s : string) : bool := existsb (Ascii.eqb c) (chars s).

Definition op_text (op : BinaryOperator) : string :=
  match op with
  | Add => "+" | Sub => "-" | Mul => "*" | Div => "/" | Mod => "%"
  | Eq => "=" | Neq => "!=" | Lt => "<" | Lte => "<=" | Gt => ">" | Gte => ">="
  | And => "AND" | Or => "OR" | Like => "LIKE"
  | BitAnd => "&" | BitOr => "|" | BitXor => "^"
  end.

Definition unary_text (op : UnaryOperator) : string :=
  match op with Not => "NOT" | Neg => "-" end.

Section text.
Context `{Text}.

Definition literal_text (v : value) : string :=
  match v with
  | VString s => s
  | VNumber _ => value_to_string v
  | VBool b => if b then "true" else "false"
  | VNull => "nil"
  | _ => value_to_string v
  end.

Fixpoint to_ekuiper_string_qualified (stream : string) (e : Expr) : string :=
  match e with
  | Wildcard => "*"
  | WildcardModified except replace =>
      "*" +:+
      (if bool_decide (except = []) then "" else " EXCEPT (" +:+ join ", " except +:+ ")") +:+
      (if (length replace =? 0)%nat then ""
       else " REPLACE (" +:+
            join ", " (map (fun '(x, c) => to_ekuiper_string_qualified stream x +:+ " AS " +:+ c) replace) +:+ ")")
  | Identifier name =>
      if negb (bool_decide (stream = "")) && negb (contains_char "." name)
      then stream +:+ "." +:+ name else name
  | Literal v => literal_text v
  | BinaryOp l op r =>
      "binaryExpr:{ " +:+ to_ekuiper_string_qualified stream l +:+ " " +:+ op_text op +:+ " " +:+
      to_ekuiper_string_qualified stream r +:+ " }"
  | UnaryOp op x => "unaryExpr:{ " +:+ unary_text op +:+ " " +:+ to_ekuiper_string_qualified stream x +:+ " }"
  | FieldAccess parent field => to_ekuiper_string_qualified "" parent +:+ "." +:+ field
  | Index base index =>
      "binaryExpr:{ " +:+ to_ekuiper_string_qualified stream base +:+ "[" +:+
      to_ekuiper_string_qualified stream index +:+ "] }"
  | Slice base lo hi =>
      let bound o := match o with Some x => to_ekuiper_string_qualified stream x | None => "" end in
      to_ekuiper_string_qualified stream base +:+ "[" +:+ bound lo +:+ ":" +:+ bound hi +:+ "]"
  | Call name args =>
      "Call:{ name:" +:+ name +:+ ", args:[" +:+ join ", " (map (to_ekuiper_string_qualified stream) args) +:+ "] }"
  | Between x low high negated =>
      to_ekuiper_string_qualified stream x +:+ " " +:+ (if negated : bool then "NOT BETWEEN" else "BETWEEN") +:+ " " +:+
      to_ekuiper_string_qualified stream low +:+ " AND " +:+ to_ekuiper_string_qualified stream high
  | InList x items negated =>
      to_ekuiper_string_qualified stream x +:+ " " +:+ (if negated : bool then "NOT IN" else "IN") +:+ " (" +:+
      join ", " (map (to_ekuiper_string_qualified stream) items) +:+ ")"
  | IsNull x negated =>
      to_ekuiper_string_qualified stream x +:+ " " +:+ (if negated : bool then "IS NOT NULL" else "IS NULL")
  | Over call _ _ => to_ekuiper_string_qualified stream call
  | Case _ _ _ => "caseExpr"
  end.

Definition to_ekuiper_string (e : Expr) : string := to_ekuiper_string_qualified "" e.
End text.

(** ** Classes of calls *)

Definition is_aggregate_call (name : string) : bool :=
  bool_decide (to_ascii_lowercase name ∈
    ["count"; "sum"; "avg"; "min"; "max"; "collect"; "lead"; "latest"; "median"; "stddev"; "stddevs";
     "var"; "vars"; "percentile"; "percentile_cont"; "percentile_disc"; "last_value"; "merge_agg";
     "row_number"; "last_agg_hit_count"; "last_agg_hit_time"]).

Fixpoint contains_aggregate (e : Expr) : bool :=
  let opt o := match o with Some x => contains_aggregate x | None => false end in
  match e with
  | Call name args => is_aggregate_call name || existsb contains_aggregate args
  | BinaryOp l _ r => contains_aggregate l || contains_aggregate r
  | UnaryOp _ x => contains_aggregate x
  | Between x low high _ => contains_aggregate x || contains_aggregate low || contains_aggregate high
  | InList x items _ => contains_aggregate x || existsb contains_aggregate items
  | IsNull x _ => contains_aggregate x
  | FieldAccess parent _ => contains_aggregate parent
  | Index base index => contains_aggregate base || contains_aggregate index
  | Slice base lo hi => contains_aggregate base || opt lo || opt hi
  | Case operand when_clauses else_clause =>
      opt operand ||
      existsb (fun '(w, t) => contains_aggregate w || contains_aggregate t) when_clauses ||
      opt else_clause
  | Over call partition_by when => contains_aggregate call || opt partition_by || opt when
  | Wildcard | WildcardModified _ _ | Identifier _ | Literal _ => false
  end.

Definition is_grouped_window (stmt : SelectStmt) : bool :=
  negb (bool_decide (length (group_by stmt) = O)) || existsb contains_aggregate (fields stmt) ||
  match having stmt with Some _ => true | None => false end.

Definition is_acc_call (lowered : string) : bool :=
  bool_decide (lowered ∈
    ["acc_map_agg"; "acc_max"; "acc_max_by"; "acc_min"; "acc_min_by"; "acc_count"; "acc_sum"; "acc_avg";
     "acc_collect"; "acc_distinct_collect"; "distinct_acc"]).

Fixpoint is_analytic_expr (e : Expr) : bool :=
  match e with
  | Call name _ =>
      let name := to_ascii_lowercase name in
      is_acc_call name ||
      bool_decide (name ∈ ["lag"; "had_changed"; "changed_col"; "row_number"; "last_hit_count";
                           "last_hit_time"; "sequence_match"; "sequence_count"])
  | Over call _ _ => is_analytic_expr call
  | _ => false
  end.

(** Whether an expression or one of its parts is an analytic call.  The parts of
    an [OVER] call are the arguments of the call, its partition and its condition. *)
Fixpoint expr_has_analytic (e : Expr) : bool :=
  let opt o := match o with Some x => expr_has_analytic x | None => false end in
  is_analytic_expr e ||
  match e with
  | Call _ args => existsb expr_has_analytic args
  | Over call partition_by when =>
      match call with Call _ args => existsb expr_has_analytic args | _ => false end ||
      opt partition_by || opt when
  | BinaryOp l _ r => expr_has_analytic l || expr_has_analytic r
  | UnaryOp _ x | IsNull x _ | FieldAccess x _ => expr_has_analytic x
  | Index base index => expr_has_analytic base || expr_has_analytic index
  | Slice base lo hi => expr_has_analytic base || opt lo || opt hi
  | Between x low high _ => expr_has_analytic x || expr_has_analytic low || expr_has_analytic high
  | InList x items _ => expr_has_analytic x || existsb expr_has_analytic items
  | Case operand when_clauses else_clause =>
      opt operand ||
      existsb (fun '(c, v) => expr_has_analytic c || expr_has_analytic v) when_clauses || opt else_clause
  | WildcardModified _ replace => existsb (fun '(x, _) => expr_has_analytic x) replace
  | Wildcard | Literal _ | Identifier _ => false
  end.

Definition stmt_has_analytic (stmt : SelectStmt) : bool :=
  existsb expr_has_analytic (fields stmt) ||
  match where_clause stmt with Some c => expr_has_analytic c | None => false end.

(** [delay] calls, whose sleeping the rule loop takes over. *)
Fixpoint expr_has_delay (e : Expr) : bool :=
  let opt o := match o with Some x => expr_has_delay x | None => false end in
  match e with
  | Call name args => eq_ignore_ascii_case name "delay" || existsb expr_has_delay args
  | Over call _ _ => expr_has_delay call
  | BinaryOp l _ r => expr_has_delay l || expr_has_delay r
  | UnaryOp _ x | IsNull x _ | FieldAccess x _ => expr_has_delay x
  | Index base index => expr_has_delay base || expr_has_delay index
  | Slice base lo hi => expr_has_delay base || opt lo || opt hi
  | Between x low high _ => expr_has_delay x || expr_has_delay low || expr_has_delay high
  | InList x items _ => expr_has_delay x || existsb expr_has_delay items
  | Case operand when_clauses else_clause =>
      opt operand ||
      existsb (fun '(c, v) => expr_has_delay c || expr_has_delay v) when_clauses || opt else_clause
  | WildcardModified _ replace => existsb (fun '(x, _) => expr_has_delay x) replace
  | Wildcard | Literal _ | Identifier _ => false
  end.

Definition stmt_has_delay (stmt : SelectStmt) : bool :=
  existsb expr_has_delay (fields stmt) ||
  match where_clause stmt with Some c => expr_has_delay c | None => false end.

(** The analytic calls inside an expression, arguments before the call that uses them. *)
Fixpoint collect_analytic_exprs (e : Expr) : list Expr :=
  let opt o := match o with Some x => collect_analytic_exprs x | None => [] end in
  match e with
  | Call _ args => concat (map collect_analytic_exprs args)
  | Over call partition_by when =>
      match call with Call _ args => concat (map collect_analytic_exprs args) | _ => [] end ++
      opt partition_by ++ opt when
  | BinaryOp l _ r => collect_analytic_exprs l ++ collect_analytic_exprs r
  | UnaryOp _ x | IsNull x _ => collect_analytic_exprs x
  | FieldAccess parent _ => collect_analytic_exprs parent
  | Index base index => collect_analytic_exprs base ++ collect_analytic_exprs index
  | Slice base lo hi => collect_analytic_exprs base ++ opt lo ++ opt hi
  | Between x low high _ => collect_analytic_exprs x ++ collect_analytic_exprs low ++ collect_analytic_exprs high
  | InList x items _ => collect_analytic_exprs x ++ concat (map collect_analytic_exprs items)
  | Case operand when_clauses else_clause =>
      opt operand ++ opt else_clause ++
      concat (map (fun '(c, v) => collect_analytic_exprs c ++ collect_analytic_exprs v) when_clauses)
  | WildcardModified _ replace => concat (map (fun '(x, _) => collect_analytic_exprs x) replace)
  | Wildcard | Literal _ | Identifier _ => []
  end ++ (if is_analytic_expr e then [e] else []).

(** ** Column names *)

Definition is_named (e : Expr) : bool :=
  match e with
  | Wildcard | WildcardModified _ _ | Identifier _ | FieldAccess _ _ | Call _ _ => true
  | _ => false
  end.

Definition kuiper_field (n : nat) : string := "kuiper_field_" +:+ pretty (N.of_nat n).

Definition column_name (e : Expr) (idx : nat) : string :=
  match e with
  | Wildcard | WildcardModified _ _ => "*"
  | Identifier name => name
  | FieldAccess _ leaf => leaf
  | Call name _ => name
  | _ => kuiper_field idx
  end.

Definition field_alias (stmt : SelectStmt) (i : nat) : option string := mjoin (field_aliases stmt !! i).

(** The alias, the name of the expression, or a number among the unnamed fields. *)
Definition select_field_name_at (stmt : SelectStmt) (idx : nat) (field : Expr) : string :=
  match field_alias stmt idx with
  | Some a => a
  | None =>
      let unaliased_idx :=
        length (filter (fun '(i, f) => field_alias stmt i = None /\ is_named f = false)
                  (imap pair (take idx (fields stmt)))) in
      column_name field unaliased_idx
  end.

Definition named_fields (stmt : SelectStmt) : list (string * Expr) :=
  imap (fun idx field => (select_field_name_at stmt idx field, field)) (fields stmt).

(** ** Rows being built *)

(** [entry(k).or_insert(v)] *)
Definition or_insert (k : string) (v : value) (m : row) : row :=
  match m !! k with Some _ => m | None => <[k := v]> m end.

(** Columns [SELECT *] shows. *)
Definition visible (k : string) : bool := negb (String.prefix "__" k).

Definition visible_columns (r : row) : row := filter (fun kv => visible kv.1 = true) r.

(** The rows of two [UNION] branches in one; the right branch wins. *)
Definition merge_union_rows (l r : option row) : option row :=
  match l, r with
  | Some l, Some r => Some (r ∪ l)
  | Some l, None => Some l
  | None, r => r
  end.

(** ** Static types of fields ([infer_expr_type], [infer_select_schema]) *)

Definition float_functions : list string :=
  ["avg"; "stddev"; "stddevs"; "var"; "vars"; "percentile"; "percentile_cont"; "sin"; "cos"; "tan"; "asin";
   "acos"; "atan"; "atan2"; "cosh"; "sinh"; "tanh"; "cot"; "radians"; "degrees"; "exp"; "ln"; "log"; "log2";
   "log10"; "sqrt"; "pi"; "rand"].
Definition bigint_functions : list string :=
  ["count"; "length"; "cardinality"; "array_cardinality"; "array_length"; "array_position"; "row_number";
   "acc_count"; "sequence_count"; "year"; "month"; "day"; "day_of_week"; "day_of_month"; "day_of_year"; "hour";
   "minute"; "second"; "microsecond"; "tstamp"; "to_seconds"; "from_days"; "bitand"; "bitor"; "bitxor"; "bitnot"].
Definition boolean_functions : list string :=
  ["isnan"; "isnumeric"; "isnull"; "had_changed"; "changed_col"; "sequence_match"; "regexp_matches";
   "startswith"; "endswith"; "json_path_exists"; "array_contains"; "array_contains_any"].
Definition string_functions : list string :=
  ["concat"; "lower"; "upper"; "trim"; "ltrim"; "rtrim"; "lpad"; "rpad"; "replace"; "reverse"; "substr";
   "substring"; "regexp_replace"; "regexp_substring"; "regexp_substr"; "split_value"; "chr"; "hex2dec";
   "dec2hex"; "encode"; "base64_encode"; "decode"; "base64_decode"; "uuid"; "newuuid"; "format_date";
   "day_name"; "month_name"; "to_json"; "tojson"; "rule_id"].
Definition array_functions : list string :=
  ["split"; "array_create"; "array_slice"; "array_concat"; "deduplicate"; "array_remove"; "array_distinct";
   "array_intersect"; "array_union"; "array_except"; "array_flatten"; "array_sort"; "repeat"; "sequence";
   "obj_to_kvpair_array"; "object_to_kvpair_array"; "collect"; "keys"; "values"; "items"; "acc_collect"].
Definition struct_functions : list string :=
  ["object_construct"; "object_concat"; "object"; "zip"; "erase"; "object_erase"; "object_pick";
   "kvpair_array_to_obj"; "json_map"; "merge_agg"; "acc_map_agg"].

Definition call_type (lowered : string) : string :=
  if bool_decide (lowered ∈ float_functions) then "float"
  else if bool_decide (lowered ∈ bigint_functions) then "bigint"
  else if bool_decide (lowered ∈ boolean_functions) then "boolean"
  else if bool_decide (lowered ∈ string_functions) then "string"
  else if bool_decide (lowered ∈ array_functions) then "array"
  else if bool_decide (lowered ∈ struct_functions) then "struct"
  else "any".

Definition literal_type (v : value) : string :=
  match v with
  | VBool _ => "boolean"
  | VNumber (PosInt _ | NegInt _) => "bigint"
  | VNumber (Float _) => "float"
  | VString _ => "string"
  | VArray _ => "array"
  | VObject _ => "struct"
  | VNull => "any"
  end.

Fixpoint infer_expr_type (e : Expr) : string :=
  match e with
  | Wildcard | WildcardModified _ _ | Identifier _ | FieldAccess _ _ | Index _ _ => "any"
  | Slice _ _ _ => "array"
  | Literal v => literal_type v
  | BinaryOp l op r =>
      match op with
      | Eq | Neq | Lt | Lte | Gt | Gte | And | Or | Like => "boolean"
      | Div => "float"
      | BitAnd | BitOr | BitXor => "bigint"
      | Add | Sub | Mul | Mod =>
          if bool_decide (infer_expr_type l = "bigint") && bool_decide (infer_expr_type r = "bigint")
          then "bigint" else "float"
      end
  | UnaryOp Not _ => "boolean"
  | UnaryOp Neg x => if bool_decide (infer_expr_type x = "bigint") then "bigint" else "float"
  | Between _ _ _ _ | InList _ _ _ | IsNull _ _ => "boolean"
  | Call name _ => call_type (to_ascii_lowercase name)
  | Case _ when_clauses else_clause =>
      (fix go clauses :=
         match clauses with
         | [] => match else_clause with Some x => infer_expr_type x | None => "any" end
         | (_, t) :: rest =>
             let inferred := infer_expr_type t in
             if bool_decide (inferred = "any") then go rest else inferred
         end) when_clauses
  | Over call _ _ => infer_expr_type call
  end.

(** Later fields replace the type of an earlier one of the same name. *)
Definition infer_select_schema (stmt : SelectStmt) : gmap string string :=
  foldl (fun schema '(name, field) => <[name := infer_expr_type field]> schema) ∅ (named_fields stmt).
