(* ===== verification/Windows.v ===== *)
(** * Window runners, shared machinery
      ([crates/rekuiper-server/src/engine/windows.rs])

    What the six window runners have in common: the emission of a closed window
    to the sink, the filter below the window, the row-free or buffered contents
    of a processing-time window, the clock alignment, the watermark of event-time
    windows, and the [select!] loop.  A runner is a value of [Runner]: its window
    state, what it does with one row, with a timer and at the end of the loop.

    A window operation returns the emissions it makes, in order, and the loop
    performs them; in the code they are performed in place, but no window state is
    read between an emission and the next window operation.  [None] is a step
    that does not return within the fuel. *)

From S2P Require Import Prelude Rust Json Counters Dlq Ast Engine.

Set Default Goal Selector "!".

(** One reading of the clocks per step: wall clock in milliseconds, monotonic clock
    in nanoseconds, and the time the i-th evaluation of the step takes. *)
Record Clock := mkClock { now_ms : Z; instant : Z; elapsed_us : nat -> Z }.

(** [Duration]s are nanoseconds. *)
Definition from_millis (ms : Z) : Z := ms * 1000000.
Definition as_millis (d : Z) : Z := d / 1000000.

(** ** Emissions *)

Definition BATCH_ROWS_KEY : string := "__batch_rows__".

Record Batch := mkBatch {
  brows : list TaggedRow;
  prefiltered : bool;
  window_bounds : option (Z * Z);
}.

(** A closed window: its rows to evaluate, or the outputs of accumulators, whose
    evaluation is timed or not. *)
Inductive Emission :=
  | EmitBatch (b : Batch)
  | EmitOutputs (timed : bool) (outputs : list row).

Definition set_rstate (st : rule_state) (e : Env) : Env :=
  mkEnv (dlq e) (sink e) (sent e) st.

Definition observe_op (us : Z) (c : RuleCounters) : RuleCounters :=
  let '(mkCounters a b d e f g h i j k l m o p q r) := c in
  mkCounters a b d e f g h i j k l m o p (observe us q) r.

Definition with_bounds (bounds : option (Z * Z)) (r : TaggedRow) : TaggedRow :=
  match bounds with
  | Some (start_ms, end_ms) =>
      mkTagged (source r)
        (<["__window_end__" := value_of_i64 end_ms]>
          (<["__window_start__" := value_of_i64 start_ms]> (tdata r)))
  | None => r
  end.

Definition emit_window_outputs (now : Z) (outputs : list row) (e : Env) : Env :=
  match outputs with
  | [] => e
  | [o] => (enqueue_sink_record (mkRecord now o) e).2
  | _ =>
      (enqueue_sink_record
         (mkRecord now {[ BATCH_ROWS_KEY := VArray (row_to_value <$> outputs) ]}) e).2
  end.

(** [Evaluator::passes_where] *)
Definition passes_where `{ExprEval} (stmt : SelectStmt) (d : row) : bool :=
  match where_clause stmt with Some cond => eval_bool cond d | None => true end.

Section emission.
Context `{Evaluator}.

Definition emit_window_batch (select_stmt : SelectStmt) (now elapsed : Z) (b : Batch) (e : Env) : Env :=
  match brows b with
  | [] => e
  | _ :: _ =>
      let batch := with_bounds (window_bounds b) <$> brows b in
      let '(outputs, st) :=
        match joins select_stmt with
        | [] => eval_window (prefiltered b) select_stmt (tdata <$> batch) (rstate e)
        | _ :: _ => eval_window_join select_stmt batch (rstate e)
        end in
      emit_window_outputs now outputs (upd_counters (observe_op elapsed) (set_rstate st e))
  end.

Definition emit (select_stmt : SelectStmt) (now elapsed : Z) (em : Emission) (e : Env) : Env :=
  match em with
  | EmitBatch b => emit_window_batch select_stmt now elapsed b e
  | EmitOutputs timed outputs =>
      emit_window_outputs now outputs
        (if timed then upd_counters (observe_op elapsed) e else e)
  end.

Fixpoint emit_all (select_stmt : SelectStmt) (clk : Clock) (i : nat) (ems : list Emission) (e : Env) : Env :=
  match ems with
  | [] => e
  | em :: r =>
      emit_all select_stmt clk (S i) r (emit select_stmt (now_ms clk) (elapsed_us clk i) em e)
  end.

(** ** Rows entering a window *)

Definition window_ingest_passes (select_stmt : SelectStmt) (d : row) : bool :=
  let where_pass :=
    match joins select_stmt with [] => passes_where select_stmt d | _ :: _ => true end in
  if negb where_pass then false
  else match window_filter select_stmt with
       | Some f => eval_bool f d
       | None => true
       end.

Context `{Incremental}.

Inductive WindowRows :=
  | WIncremental (i : inc)
  | WBuffered (rows : list TaggedRow).

Definition window_rows_new (select_stmt : SelectStmt) : WindowRows :=
  match inc_try_new select_stmt with
  | Some i => WIncremental i
  | None => WBuffered []
  end.

Definition window_rows_is_empty (w : WindowRows) : bool :=
  match w with
  | WIncremental i => inc_is_empty i
  | WBuffered rows => bool_decide (rows = [])
  end.

(** [false] when the row was rejected. *)
Definition window_rows_push (select_stmt : SelectStmt) (t : TaggedRow) (w : WindowRows) : bool * WindowRows :=
  match w with
  | WIncremental i => let '(ok, i) := inc_push (tdata t) i in (ok, WIncremental i)
  | WBuffered rows =>
      if window_ingest_passes select_stmt (tdata t) then (true, WBuffered (rows ++ [t]))
      else (false, w)
  end.

Definition window_rows_emit (bounds : option (Z * Z)) (w : WindowRows) : list Emission * WindowRows :=
  match w with
  | WIncremental i =>
      if inc_is_empty i then ([], w)
      else let '(outputs, i) := inc_take i in ([EmitOutputs true outputs], WIncremental i)
  | WBuffered rows => ([EmitBatch (mkBatch rows true bounds)], WBuffered [])
  end.
End emission.

#[global] Instance TaggedRow_eq_dec : EqDecision TaggedRow.
Proof. solve_decision. Defined.

(** ** Durations and alignment *)

Definition tumbling_window_duration (unit : TimeUnit) (length : Z) : Z :=
  let millis :=
    match unit with
    | Ms => length
    | Ss => length * 1000
    | Mi => length * 60000
    | Hh => length * 3600000
    | Dd => length * 86400000
    end in
  let duration := from_millis (Z.min millis u64_max) in
  if duration =? 0 then from_millis 1 else duration.

(** [duration.as_millis() as i64] *)
Definition millis_i64 (d : Z) : Z := wrap64 (as_millis d).

(** The delay from [now_ms] to the first tick of [aligned_interval]. *)
Definition aligned_wait (period now_ms : Z) : Z :=
  let period_ms := Z.max (millis_i64 period) 1 in
  period_ms - rem_euclid now_ms period_ms.

(** ** Watermarks

    [stream_max_ts], [watermark] and [closed_streams] of the event-time runners. *)

Record Watermark := mkWm {
  watermark : Z;
  stream_max_ts : gmap string Z;
  closed_streams : gset string;
}.

Definition wm_init : Watermark := mkWm i64_min ∅ ∅.

Definition min_list (l : list Z) : option Z :=
  match l with [] => None | x :: r => Some (foldl Z.min x r) end.

Definition active_streams (input_streams : list string) (closed : gset string) : list string :=
  filter (fun s => s ∉ closed) input_streams.

(** The accepted event [ts] of stream [src] advances the watermark to the slowest
    active stream, less the tolerance, once every active stream has been seen. *)
Definition wm_advance (input_streams : list string) (late_tolerance : Z) (src : string) (event_ts : Z)
    (w : Watermark) : Watermark :=
  let cur_max := Z.max (default event_ts (stream_max_ts w !! src)) event_ts in
  let maxs := <[src := cur_max]> (stream_max_ts w) in
  let active := active_streams input_streams (closed_streams w) in
  if forallb (fun s => bool_decide (is_Some (maxs !! s))) active then
    let min_source_ts := default event_ts (min_list (omap (fun s => maxs !! s) active)) in
    let new_wm := saturating_sub min_source_ts late_tolerance in
    mkWm (Z.max (watermark w) new_wm) maxs (closed_streams w)
  else mkWm (watermark w) maxs (closed_streams w).

(** The joined streams end together, when their merge channel closes. *)
Definition wm_close (join_stream_names : list string) (w : Watermark) : Watermark :=
  mkWm (watermark w) (stream_max_ts w) (closed_streams w ∪ list_to_set join_stream_names).

(** ** The rule's configuration *)

Record RuleCtx := mkCtx {
  rid : string;
  stmt : SelectStmt;
  send_error : bool;
  dlq_router : DlqRouter;
  event_time : EventTimeConfig;
  from_is_table : bool;
  join_sources : list string;
}.

(** A name is appended unless it is already listed. *)
Definition push_new (l : list string) (s : string) : list string :=
  if bool_decide (s ∈ l) then l else l ++ [s].

Definition input_streams (c : RuleCtx) : list string :=
  foldl push_new (if from_is_table c then [] else [from (stmt c)]) (join_sources c).

Definition join_stream_names (c : RuleCtx) : list string := foldl push_new [] (join_sources c).

Definition event_ts `{Text} (c : RuleCtx) (clk : Clock) (t : TaggedRow) : Z :=
  event_timestamp (event_time c) (now_ms clk) (source t) (tdata t).

(** The watermark after an accepted row. *)
Definition advance_on (c : RuleCtx) (t : TaggedRow) (ts : Z) (w : Watermark) : Watermark :=
  wm_advance (input_streams c) (late_tolerance_ms (event_time c)) (source t) ts w.

Definition initial_rule_state (rid : string) (start_time_ms : Z) : rule_state :=
  <["__rule_start__" := value_of_i64 start_time_ms]> {["__rule_id__" := VString rid]}.

(** ** The [select!] loop *)

Inductive Event (T : Type) :=
  | FromRecord (d : row)
  | FromClosed
  | JoinRecord (t : TaggedRow)
  | JoinClosed
  | Timer (t : T).
Arguments FromRecord {T}.
Arguments FromClosed {T}.
Arguments JoinRecord {T}.
Arguments JoinClosed {T}.
Arguments Timer {T}.

(** A window runner: [ingest joined] is its treatment of a row of the [FROM]
    stream ([false]) or of a joined stream ([true]). *)
Record Runner := mkRunner {
  wstate : Type;
  timer : Type;
  ingest : bool -> Clock -> TaggedRow -> rule_state -> wstate ->
           option (list Emission * rule_state * wstate);
  on_join_closed : wstate -> wstate;
  timer_enabled : timer -> Clock -> wstate -> bool;
  on_timer : timer -> bool -> Clock -> wstate -> list Emission * wstate;
  on_end : wstate -> list Emission;
}.

Record Loop (W : Type) := mkLoop {
  win : W;
  env : Env;
  joins_open : bool;
  ended : bool;
}.
Arguments mkLoop {W}.
Arguments win {W}.
Arguments env {W}.
Arguments joins_open {W}.
Arguments ended {W}.

Section loop.
Context `{Evaluator} `{Text} (c : RuleCtx) (r : Runner).

Definition end_loop (clk : Clock) (l : Loop (wstate r)) : Loop (wstate r) :=
  mkLoop (win l) (emit_all (stmt c) clk 0 (on_end r (win l)) (env l)) (joins_open l) true.

(** A received row: counted, then diverted if it is an error record, else ingested. *)
Definition receive (joined : bool) (running : option string) (clk : Clock) (t : TaggedRow)
    (l : Loop (wstate r)) : option (Loop (wstate r)) :=
  if negb (is_rule_running running) then Some l
  else
    let e := upd_counters (inc_source 1) (env l) in
    let '(is_error, e) :=
      handle_error_record (Some (dlq_router c)) (now_ms clk) (rid c) (send_error c) (tdata t) e in
    if is_error then
      let l := mkLoop (win l) e (joins_open l) false in
      Some (if decide (on_error (dlq_router c) = Halt) then end_loop clk l else l)
    else
      '(ems, st, w) ← ingest r joined clk t (rstate e) (win l);
      Some (mkLoop w (emit_all (stmt c) clk 0 ems (set_rstate st e)) (joins_open l) false).

Definition loop_step (running : option string) (clk : Clock) (ev : Event (timer r))
    (l : Loop (wstate r)) : option (Loop (wstate r)) :=
  if ended l then Some l
  else
    match ev with
    | FromRecord d => receive false running clk (mkTagged (from (stmt c)) d) l
    | FromClosed => Some (end_loop clk l)
    | JoinRecord t => if joins_open l then receive true running clk t l else Some l
    | JoinClosed =>
        if joins_open l then Some (mkLoop (on_join_closed r (win l)) (env l) false false)
        else Some l
    | Timer t =>
        if timer_enabled r t clk (win l) then
          let '(ems, w) := on_timer r t (is_rule_running running) clk (win l) in
          Some (mkLoop w (emit_all (stmt c) clk 0 ems (env l)) (joins_open l) false)
        else Some l
    end.

Fixpoint loop_run (evs : list (option string * Clock * Event (timer r))) (l : Loop (wstate r))
    : option (Loop (wstate r)) :=
  match evs with
  | [] => Some l
  | (running, clk, ev) :: rest => l' ← loop_step running clk ev l; loop_run rest l'
  end.
End loop.

(** ** Facts: watermarks *)

(** The watermarks a runner reaches: accepted rows advance it, the end of the
    joined streams closes them. *)
Inductive wm_reach (inputs : list string) (tol : Z) : Watermark -> Prop :=
  | wm_reach_init : wm_reach inputs tol wm_init
  | wm_reach_row src ts w :
      wm_reach inputs tol w -> watermark w <= ts ->
      wm_reach inputs tol (wm_advance inputs tol src ts w)
  | wm_reach_close names w :
      wm_reach inputs tol w -> wm_reach inputs tol (wm_close names w).

Lemma foldl_min_le (l : list Z) x : foldl Z.min x l <= x /\ Forall (fun y => foldl Z.min x l <= y) l.
Proof.
  revert x. induction l as [|y l IH]; intros x; simpl; [split; [lia|constructor]|].
  destruct (IH (Z.min x y)) as [H1 H2]. split; [lia|]. constructor; [lia|done].
Qed.

Lemma foldl_min_in (l : list Z) x : foldl Z.min x l = x \/ foldl Z.min x l ∈ l.
Proof.
  revert x. induction l as [|y l IH]; intros x; simpl; [by left|].
  destruct (IH (Z.min x y)) as [H|H]; [|right; by right].
  rewrite H. destruct (Z.min_spec x y) as [[_ ->]|[_ ->]]; [by left|right; by left].
Qed.

Lemma min_list_le l m y : min_list l = Some m -> y ∈ l -> m <= y.
Proof.
  destruct l as [|x l]; simpl; intros [= <-] Hy. destruct (foldl_min_le l x) as [H1 H2].
  apply elem_of_cons in Hy as [->|Hy]; [done|].
  by apply (proj1 (list.Forall_forall _ _) H2).
Qed.

Lemma min_list_in l m : min_list l = Some m -> m ∈ l.
Proof.
  destruct l as [|x l]; simpl; intros [= <-].
  destruct (foldl_min_in l x) as [->|H]; [by left|by right].
Qed.

Lemma wm_advance_mono inputs tol src ts w :
  watermark w <= watermark (wm_advance inputs tol src ts w).
Proof. unfold wm_advance. case_match; simpl; lia. Qed.

Lemma wm_advance_closed inputs tol src ts w :
  closed_streams (wm_advance inputs tol src ts w) = closed_streams w.
Proof. unfold wm_advance. by case_match. Qed.

Lemma wm_advance_maxs inputs tol src ts w :
  stream_max_ts (wm_advance inputs tol src ts w) =
  <[src := Z.max (default ts (stream_max_ts w !! src)) ts]> (stream_max_ts w).
Proof. unfold wm_advance. by case_match. Qed.

(** A bound on every timestamp seen so far bounds the watermark. *)
Definition wm_below (hi : Z) (w : Watermark) : Prop :=
  watermark w <= hi /\ map_Forall (fun _ m => m <= hi) (stream_max_ts w).

Lemma wm_advance_below inputs tol src ts hi w :
  0 <= tol -> in_i64 hi -> ts <= hi -> wm_below hi w -> wm_below hi (wm_advance inputs tol src ts w).
Proof.
  intros Htol Hhi Hts [Hw Hm].
  assert (Hm' : map_Forall (fun _ m => m <= hi)
    (<[src := Z.max (default ts (stream_max_ts w !! src)) ts]> (stream_max_ts w))).
  { apply map_Forall_insert_2; [|done].
    destruct (stream_max_ts w !! src) as [m|] eqn:E; simpl; [apply Hm in E; lia|lia]. }
  split; [|by rewrite wm_advance_maxs].
  unfold wm_advance. set (maxs := <[src := _]> _) in *.
  case_match; simpl; [|done].
  enough (saturating_sub (default ts (min_list (omap (λ s : string, maxs !! s)
    (active_streams inputs (closed_streams w))))) tol <= hi) by lia.
  assert (Hmin : default ts (min_list (omap (λ s : string, maxs !! s)
    (active_streams inputs (closed_streams w)))) <= hi).
  { destruct (min_list _) as [m|] eqn:E; simpl; [|done].
    apply min_list_in, list_elem_of_omap in E as (s & _ & Hs). by apply Hm' in Hs. }
  unfold saturating_sub, clamp64, in_i64 in *. lia.
Qed.

Lemma wm_close_below names hi w : wm_below hi w -> wm_below hi (wm_close names w).
Proof. done. Qed.

Lemma wm_init_below hi : in_i64 hi -> wm_below hi wm_init.
Proof. unfold in_i64. intros. split; [simpl; lia|apply map_Forall_empty]. Qed.

(** Every open input stream holds the watermark back. *)
Definition wm_safe (inputs : list string) (tol : Z) (w : Watermark) : Prop :=
  forall s, s ∈ inputs -> s ∉ closed_streams w -> watermark w <> i64_min ->
  exists m, stream_max_ts w !! s = Some m /\ watermark w <= saturating_sub m tol.

Lemma wm_advance_safe inputs tol src ts w :
  i64_min <= watermark w -> wm_safe inputs tol w -> wm_safe inputs tol (wm_advance inputs tol src ts w).
Proof.
  intros Hmin Hsafe s Hin Hopen. rewrite wm_advance_closed in Hopen. rewrite wm_advance_maxs.
  intros Hne.
  assert (Hold : forall m, stream_max_ts w !! s = Some m ->
    exists m', <[src := Z.max (default ts (stream_max_ts w !! src)) ts]> (stream_max_ts w) !! s = Some m' /\ m <= m').
  { intros m Hm. destruct (decide (src = s)) as [->|Hns].
    - rewrite lookup_insert_eq, Hm. simpl. eexists; split; [done|lia].
    - rewrite lookup_insert_ne by done. eexists; split; [done|lia]. }
  revert Hne. unfold wm_advance. set (maxs := <[src := _]> _) in *.
  destruct (forallb _ _) eqn:Hall; simpl; intros Hne.
  - rewrite forallb_forall in Hall.
    assert (Hact : s ∈ active_streams inputs (closed_streams w)) by (by apply list_elem_of_filter).
    pose proof (Hall s ltac:(by apply list_elem_of_In)) as [m Hm]%bool_decide_eq_true.
    exists m. split; [done|].
    assert (Hin' : m ∈ omap (λ s : string, maxs !! s) (active_streams inputs (closed_streams w))).
    { apply list_elem_of_omap. by exists s. }
    destruct (min_list _) as [mn|] eqn:E; [|by destruct (omap _ _); [apply elem_of_nil in Hin'|]].
    apply (min_list_le _ _ _ E) in Hin'. simpl.
    assert (saturating_sub mn tol <= saturating_sub m tol) by (apply clamp64_mono; lia).
    destruct (decide (watermark w = i64_min)) as [Hw|Hw].
    + unfold saturating_sub in *. pose proof (clamp64_range (m - tol)) as [? _]. lia.
    + destruct (Hsafe s Hin Hopen Hw) as (m0 & Hm0 & Hle).
      destruct (Hold m0 Hm0) as (m' & Hm' & Hmm). simplify_eq.
      assert (saturating_sub m0 tol <= saturating_sub m tol) by (apply clamp64_mono; lia). lia.
  - destruct (Hsafe s Hin Hopen Hne) as (m0 & Hm0 & Hle).
    destruct (Hold m0 Hm0) as (m' & Hm' & Hmm). exists m'. split; [done|].
    assert (saturating_sub m0 tol <= saturating_sub m' tol) by (apply clamp64_mono; lia). lia.
Qed.

Lemma wm_reach_min inputs tol w : wm_reach inputs tol w -> i64_min <= watermark w.
Proof.
  induction 1 as [|src ts w Hr IH Hts|names w Hr IH]; simpl; [done| |done].
  pose proof (wm_advance_mono inputs tol src ts w). lia.
Qed.

Lemma wm_reach_safe inputs tol w : wm_reach inputs tol w -> wm_safe inputs tol w.
Proof.
  induction 1 as [|src ts w Hr IH Hts|names w Hr IH].
  - intros s _ _ H. by destruct H.
  - apply wm_advance_safe; [by eapply wm_reach_min|done].
  - intros s Hin Hopen Hne. simpl in *. apply IH; [done|set_solver|done].
Qed.

(** C14. No false late drop: in every reachable watermark state, a row of an open
    input stream that is at most the late tolerance behind the largest timestamp
    already seen on its own stream (or the first row of its stream) is not below
    the watermark, so the event-time windows accept it; however far the other
    joined streams have advanced. *)
Theorem watermark_no_false_late (inputs : list string) (tol : Z) (w : Watermark) (s : string) (ts : Z) :
  wm_reach inputs tol w -> s ∈ inputs -> s ∉ closed_streams w -> in_i64 ts ->
  (forall m, stream_max_ts w !! s = Some m -> saturating_sub m tol <= ts) ->
  watermark w <= ts.
Proof.
  intros Hr Hin Hopen Hts Htol.
  destruct (decide (watermark w = i64_min)) as [->|Hne]; [by destruct Hts|].
  destruct (wm_reach_safe _ _ _ Hr s Hin Hopen Hne) as (m & Hm & Hle).
  specialize (Htol m Hm). lia.
Qed.

Lemma watermark_no_false_late_witness :
  let w := wm_advance ["a"; "b"] 5 "b" 200 (wm_advance ["a"; "b"] 5 "a" 100 wm_init) in
  watermark w = 95 /\ watermark w <= 95.
Proof.
  split; [by vm_compute|].
  apply (watermark_no_false_late ["a"; "b"] 5 _ "a" 95).
  - apply wm_reach_row; [apply wm_reach_row; [apply wm_reach_init|by vm_compute]|by vm_compute].
  - by left.
  - by apply (bool_decide_unpack _); vm_compute.
  - by vm_compute.
  - intros m Hm. vm_compute in Hm. injection Hm as <-. by vm_compute.
Defined.

(** ** Runs of a window, and the rows it accepts *)

(** What reaches a window from its loop: a row that is no error record, or the end
    of the joined streams. *)
Inductive WInput :=
  | WRow (joined : bool) (clk : Clock) (t : TaggedRow)
  | WJoinClosed.

(** The window [r] fed with [ins]: all its emissions in order, and its final state. *)
Fixpoint window_run (r : Runner) (ins : list WInput) (st : rule_state) (w : wstate r)
    : option (list Emission * rule_state * wstate r) :=
  match ins with
  | [] => Some ([], st, w)
  | WJoinClosed :: rest => window_run r rest st (on_join_closed r w)
  | WRow joined clk t :: rest =>
      '(ems, st, w) ← ingest r joined clk t st w;
      '(ems', st, w) ← window_run r rest st w;
      Some (ems ++ ems', st, w)
  end.

(** Induction over a run: a property of the inputs so far, the emissions, the rule
    state and the window state that every step preserves. *)
Lemma window_run_inv (r : Runner) (P : WInput -> Prop)
    (I : list WInput -> list Emission -> rule_state -> wstate r -> Prop) :
  (forall h ems st w joined clk t, I h ems st w -> P (WRow joined clk t) ->
     exists ems' st' w', ingest r joined clk t st w = Some (ems', st', w') /\
       I (h ++ [WRow joined clk t]) (ems ++ ems') st' w') ->
  (forall h ems st w, I h ems st w -> I (h ++ [WJoinClosed]) ems st (on_join_closed r w)) ->
  forall ins st w, Forall P ins -> I [] [] st w ->
  exists ems st' w', window_run r ins st w = Some (ems, st', w') /\ I ins ems st' w'.
Proof.
  intros Hrow Hclose ins st w HP HI.
  enough (Hgen : forall h ems, I h ems st w ->
    exists ems' st' w', window_run r ins st w = Some (ems', st', w') /\ I (h ++ ins) (ems ++ ems') st' w')
    by (by apply (Hgen [] [])).
  clear HI. revert st w. induction HP as [|i ins Hi _ IH]; intros st w h ems HI.
  { exists [], st, w. by rewrite !app_nil_r. }
  destruct i as [joined clk t|]; cbn [window_run].
  - destruct (Hrow _ _ _ _ _ _ _ HI Hi) as (e1 & st1 & w1 & -> & HI1). cbn [mbind option_bind].
    destruct (IH _ _ _ _ HI1) as (e2 & st2 & w2 & -> & HI2). cbn [mbind option_bind].
    exists (e1 ++ e2), st2, w2. rewrite <- !app_assoc in HI2. done.
  - destruct (IH _ _ _ _ (Hclose _ _ _ _ HI)) as (e2 & st2 & w2 & -> & HI2).
    exists e2, st2, w2. rewrite <- !app_assoc in HI2. done.
Qed.

Definition emission_rows (em : Emission) : list TaggedRow :=
  match em with EmitBatch b => brows b | EmitOutputs _ _ => [] end.

Section accepted.
Context `{Evaluator} `{Text} (c : RuleCtx).

(** The rows that pass the filter below the window, in arrival order. *)
Definition passed (ins : list WInput) : list TaggedRow :=
  omap (fun i => match i with
                 | WRow _ _ t => if window_ingest_passes (stmt c) (tdata t) then Some t else None
                 | WJoinClosed => None
                 end) ins.

Lemma passed_snoc ins joined clk t :
  passed (ins ++ [WRow joined clk t]) =
  passed ins ++ (if window_ingest_passes (stmt c) (tdata t) then [t] else []).
Proof. unfold passed. rewrite omap_app. simpl. by destruct (window_ingest_passes _ _). Qed.

Lemma passed_close ins : passed (ins ++ [WJoinClosed]) = passed ins.
Proof. unfold passed. rewrite omap_app. simpl. by rewrite app_nil_r. Qed.

(** The specification of lateness: the timestamped rows that are neither below the
    watermark on arrival nor filtered out, in arrival order, and the watermark. *)
Fixpoint accept_run (ins : list WInput) (w : Watermark) : list (Z * TaggedRow) * Watermark :=
  match ins with
  | [] => ([], w)
  | WJoinClosed :: rest => accept_run rest (wm_close (join_stream_names c) w)
  | WRow _ clk t :: rest =>
      let ts := event_ts c clk t in
      if ts <? watermark w then accept_run rest w
      else
        let '(acc, w) := accept_run rest (advance_on c t ts w) in
        ((if window_ingest_passes (stmt c) (tdata t) then [(ts, t)] else []) ++ acc, w)
  end.

Definition accepted (ins : list WInput) : list (Z * TaggedRow) := (accept_run ins wm_init).1.

(** All timestamps of the input lie in an interval. *)
Definition ts_within (lo hi : Z) (i : WInput) : Prop :=
  match i with
  | WRow _ clk t => lo <= event_ts c clk t <= hi
  | WJoinClosed => True
  end.

#[global] Instance ts_within_dec lo hi i : Decision (ts_within lo hi i).
Proof. destruct i; simpl; apply _. Defined.
End accepted.

(** ** Sample interfaces, for evaluating runs on concrete inputs

    The evaluator reads columns and outputs its input rows; no accumulators. *)
Module Sample.
Definition column (e : Expr) (d : row) : value :=
  match e with Identifier name => default VNull (d !! name) | _ => VNull end.
Definition holds (e : Expr) (d : row) : bool := default false (as_bool (column e d)).

#[export] Instance sample_evaluator : Evaluator := {|
  expr_eval := {|
    eval_bool := holds;
    eval_val := column;
    eval_bool_stateful e d st := (holds e d, st);
  |};
  eval_window _ _ rows st := (rows, st);
  eval_window_join _ rows st := (tdata <$> rows, st);
|}.
#[export] Instance sample_text : Text := {|
  value_to_string v := default "value" (as_str v);
  map_to_json _ := "{}";
  parse_rfc3339 _ := None;
|}.
#[export] Instance sample_incremental : Incremental := {|
  inc := unit; inc_try_new _ := None; inc_is_empty _ := true; inc_push _ i := (false, i);
  inc_take i := ([], i);
  sinc := unit; sinc_try_new _ := None; sinc_evict_before _ i := i; sinc_push _ _ i := (false, i);
  sinc_snapshot _ := [];
|}.

(** [SELECT * FROM s], event time with the given tolerance. *)
Definition select_s : SelectStmt :=
  mkSelect [Wildcard] [None] "s" None [] None [] None None None None None [] None None.
Definition ctx (tolerance : Z) : RuleCtx :=
  mkCtx "r1" select_s false (mkRouter "r1" Dlq true 2 false true)
    (mkEventTime true tolerance None ∅) false [].
Definition clk : Clock := mkClock 0 0 (fun _ => 0).
Definition at_ts (ts : Z) : TaggedRow := mkTagged "s" {["ts" := value_of_i64 ts]}.
Definition rows_at (l : list Z) : list WInput := (fun ts => WRow false clk (at_ts ts)) <$> l.
End Sample.
