(* ===== verification/TumblingWindow.v ===== *)
(** * Tumbling windows ([run_tumbling_window_rule] of [engine/windows.rs])

    The runner, and its event-time correctness: the batches it emits are exactly
    the consecutive aligned windows of the accepted rows. *)

From S2P Require Import Prelude Rust Json Counters Dlq Ast Engine Windows.

Set Default Goal Selector "!".

Abbreviation trows := (list (Z * TaggedRow)).

Section tumbling.
Context `{Evaluator} `{Text} `{Incremental} (c : RuleCtx) (duration : Z) (fuel : nat).

Definition window_millis : Z := millis_i64 duration.

Record TumblingState := mkTumbling {
  tw_window : WindowRows;
  et_buffer : trows;
  window_start : option Z;
  tw_wm : Watermark;
}.

Definition tumbling_init : TumblingState :=
  mkTumbling (window_rows_new (stmt c)) [] None wm_init.

(** The loop that closes every window the watermark has passed. *)
Fixpoint close_tumbling (fuel : nat) (wm w t0 : Z) (buf : trows)
    : option (list Emission * Z * trows) :=
  match fuel with
  | O => None
  | S fuel =>
      let t_end := saturating_add t0 w in
      if wm <? t_end then Some ([], t0, buf)
      else
        let closed := filter (fun p => p.1 < t_end) buf in
        let still_open := filter (fun p => ~ p.1 < t_end) buf in
        let batch := (filter (fun p => p.1 >= t0) closed).*2 in
        '(ems, t, b) ← close_tumbling fuel wm w t_end still_open;
        Some (EmitBatch (mkBatch batch true (Some (t0, t_end))) :: ems, t, b)
  end.

Definition ingest_tumbling (joined : bool) (clk : Clock) (t : TaggedRow) (st : rule_state)
    (s : TumblingState) : option (list Emission * rule_state * TumblingState) :=
  if enabled (event_time c) then
    let ts := event_ts c clk t in
    if ts <? watermark (tw_wm s) then Some ([], st, s)
    else
      let wm := advance_on c t ts (tw_wm s) in
      let aligned := wrap64 (ts - rem_euclid ts (Z.max window_millis 1)) in
      let ws :=
        match window_start s with
        | None => aligned
        | Some ws => if aligned <? ws then aligned else ws
        end in
      let buf :=
        if window_ingest_passes (stmt c) (tdata t) then et_buffer s ++ [(ts, t)] else et_buffer s in
      '(ems, ws, buf) ← close_tumbling fuel (watermark wm) window_millis ws buf;
      Some (ems, st, mkTumbling (tw_window s) buf (Some ws) wm)
  else
    Some ([], st, mkTumbling (window_rows_push (stmt c) t (tw_window s)).2 (et_buffer s)
                    (window_start s) (tw_wm s)).

Definition tumbling_tick (clk : Clock) (s : TumblingState) : list Emission * TumblingState :=
  if enabled (event_time c) then ([], s)
  else if window_rows_is_empty (tw_window s) then ([], s)
  else
    let end_ms := now_ms clk - rem_euclid (now_ms clk) (Z.max window_millis 1) in
    let start_ms := end_ms - window_millis in
    let '(ems, w) := window_rows_emit (Some (start_ms, end_ms)) (tw_window s) in
    (ems, mkTumbling w (et_buffer s) (window_start s) (tw_wm s)).

Definition tumbling_runner : Runner := {|
  wstate := TumblingState;
  timer := unit;
  ingest := ingest_tumbling;
  on_join_closed s :=
    mkTumbling (tw_window s) (et_buffer s) (window_start s) (wm_close (join_stream_names c) (tw_wm s));
  timer_enabled _ _ _ := true;
  on_timer _ _ clk s := tumbling_tick clk s;
  on_end _ := [];
|}.

End tumbling.


(** ** The specification: aligned windows over the accepted rows *)

Definition rows_in (acc : trows) (lo hi : Z) : list TaggedRow :=
  (filter (fun p => lo <= p.1 < hi) acc).*2.

(** The [n] consecutive windows of length [w] from [first]. *)
Fixpoint tumbling_batches (w : Z) (acc : trows) (first : Z) (n : nat) : list Emission :=
  match n with
  | O => []
  | S n =>
      EmitBatch (mkBatch (rows_in acc first (first + w)) true (Some (first, first + w)))
      :: tumbling_batches w acc (first + w) n
  end.

Lemma tumbling_batches_app w acc first n m :
  tumbling_batches w acc first (n + m) =
  tumbling_batches w acc first n ++ tumbling_batches w acc (first + Z.of_nat n * w) m.
Proof.
  revert first. induction n as [|n IH]; intros first; simpl.
  - do 2 f_equal. lia.
  - rewrite IH. do 3 f_equal. lia.
Qed.

Lemma tumbling_batches_snoc w acc p first n :
  0 < w -> first + Z.of_nat n * w <= p.1 ->
  tumbling_batches w (acc ++ [p]) first n = tumbling_batches w acc first n.
Proof.
  intros Hw. revert first. induction n as [|n IH]; intros first Hp; simpl; [done|].
  rewrite IH by lia. unfold rows_in.
  rewrite list.filter_app, list.filter_cons_False, list.filter_nil, app_nil_r by nia. done.
Qed.

Lemma close_tumbling_spec fuel wm w t0 acc :
  0 < w -> i64_min <= t0 -> wm < i64_max -> Z.of_nat fuel * w > wm - t0 + w ->
  (0 < fuel)%nat ->
  exists n, close_tumbling fuel wm w t0 (filter (fun p => t0 <= p.1) acc) =
    Some (tumbling_batches w acc t0 n, t0 + Z.of_nat n * w,
          filter (fun p => t0 + Z.of_nat n * w <= p.1) acc) /\
    wm < t0 + Z.of_nat n * w + w /\ (n = O \/ t0 + Z.of_nat n * w <= wm).
Proof.
  intros Hw. revert t0. induction fuel as [|fuel IH]; intros t0 Ht0 Hwm Hf Hpos; [lia|].
  cbn [close_tumbling].
  destruct (Z.ltb_spec wm (saturating_add t0 w)) as [Hlt|Hge].
  - exists O. simpl. rewrite !Z.add_0_r. split; [done|].
    unfold saturating_add, clamp64 in Hlt. split; [lia|by left].
  - assert (Hend : saturating_add t0 w = t0 + w).
    { apply saturating_add_exact. unfold in_i64.
      unfold saturating_add, clamp64 in Hge. lia. }
    rewrite Hend in *.
    rewrite (filter_filter_eq (fun p => ~ p.1 < t0 + w) _ (fun p => t0 + w <= p.1))
      by (intros [ts r]; simpl; lia).
    destruct (IH (t0 + w)) as (n & -> & Hn1 & Hn2); [lia|done|lia| |].
    { destruct fuel; [|lia]. lia. }
    exists (S n). cbn [mbind option_bind]. split.
    + f_equal. f_equal; [f_equal|].
      * cbn [tumbling_batches]. unfold rows_in. do 4 f_equal.
        rewrite !list_filter_filter. apply list_filter_iff. intros [ts r]; simpl. lia.
      * lia.
      * apply list_filter_iff. intros [ts r]; simpl. lia.
    + split; [lia|]. right. destruct Hn2; [subst; lia|lia].
Qed.

Section tumbling_facts.
Context `{Evaluator} `{Text} `{Incremental} (c : RuleCtx) (duration : Z) (fuel : nat) (lo hi : Z).
Abbreviation W := (window_millis duration).
Context (Het : enabled (event_time c) = true)
  (Htol : 0 <= late_tolerance_ms (event_time c)) (HW : 0 < W)
  (Hlo : i64_min + W <= lo) (Hhi : hi < i64_max)
  (Hfuel : Z.of_nat fuel * W > hi - lo + 2 * W).

(** The state after the rows [acc] were accepted and [ems] emitted. *)
Definition tumbling_inv (acc : trows) (ems : list Emission) (s : TumblingState) : Prop :=
  wm_below hi (tw_wm s) /\
  match window_start s with
  | None => acc = [] /\ ems = [] /\ et_buffer s = [] /\ watermark (tw_wm s) = i64_min
  | Some ws =>
      exists first n, ems = tumbling_batches W acc first n /\ (W | first) /\ lo - W < first /\
        Forall (fun p => first <= p.1) acc /\ ws = first + Z.of_nat n * W /\
        et_buffer s = filter (fun p => ws <= p.1) acc /\
        watermark (tw_wm s) < ws + W /\ (n = O \/ ws <= watermark (tw_wm s))
  end.

Lemma in_i64_hi : lo <= hi -> in_i64 hi.
Proof. unfold in_i64. lia. Qed.

(** The window start after a row: aligned, not above the row, and the old one once
    a window has been closed. *)
Lemma tumbling_aligned ts : lo <= ts <= hi ->
  let a := wrap64 (ts - rem_euclid ts (Z.max W 1)) in (W | a) /\ a <= ts < a + W /\ lo - W < a.
Proof.
  intros Hts a. subst a. rewrite Z.max_l by lia. unfold rem_euclid.
  pose proof (Z.mod_pos_bound ts W HW). rewrite wrap64_id by (unfold in_i64; lia).
  split; [|lia]. exists (ts / W). pose proof (Z.div_mod ts W). lia.
Qed.

Lemma divide_le_aligned a b ts : (W | a) -> (W | b) -> a <= ts < a + W -> b <= ts -> b <= a.
Proof.
  intros [i ->] [j ->] ??. assert (j < i + 1) by (apply (Z.mul_lt_mono_pos_r W); lia).
  apply Z.mul_le_mono_nonneg_r; lia.
Qed.

(** The part of [ingest] before the closing loop. *)
Lemma tumbling_open acc ems s new ts :
  tumbling_inv acc ems s -> watermark (tw_wm s) <= ts -> lo <= ts <= hi ->
  (new = [] \/ exists t, new = [(ts, t)]) ->
  let a := wrap64 (ts - rem_euclid ts (Z.max W 1)) in
  let ws := match window_start s with None => a | Some ws => if a <? ws then a else ws end in
  exists first n, ws = first + Z.of_nat n * W /\ (W | first) /\ lo - W < first /\ ws <= ts /\
    ems = tumbling_batches W (acc ++ new) first n /\
    Forall (fun p => first <= p.1) (acc ++ new) /\
    et_buffer s ++ new = filter (fun p => ws <= p.1) (acc ++ new) /\
    (n = O \/ ws <= watermark (tw_wm s)).
Proof.
  intros [_ Hinv] Hwm Hts Hnew a. destruct (tumbling_aligned ts Hts) as (Hda & Ha & Hla). fold a in Hda, Ha, Hla.
  assert (Hfnew : forall b, b <= ts -> Forall (fun p : Z * TaggedRow => b <= p.1) new).
  { intros b Hb. destruct Hnew as [->|[t ->]]; [constructor|]. by repeat constructor. }
  destruct (window_start s) as [ws0|]; simpl.
  2: { destruct Hinv as (-> & -> & -> & _). exists a, O. simpl. split_and!; try lia; try done.
       - apply Hfnew; lia.
       - rewrite filter_all; [done|]. apply Hfnew; lia. }
  destruct Hinv as (first & n & -> & Hdf & Hlf & Hall & -> & -> & _ & Hn).
  destruct (decide (n = O)) as [->|Hn0].
  - rewrite Z.mul_0_l, Z.add_0_r. set (ws := if a <? first then a else first).
    assert (ws <= first /\ ws <= a) by (subst ws; zbool; lia).
    assert (HallN : Forall (fun p => ws <= p.1) (acc ++ new)).
    { apply Forall_app. split; [|apply Hfnew; lia]. eapply list.Forall_impl; [done|]. simpl. lia. }
    exists ws, O. simpl. split_and!; try lia; try done.
    + subst ws. by zbool.
    + subst ws. by zbool.
    + rewrite filter_all by done. rewrite filter_all; [done|]. done.
  - destruct Hn as [?|Hn]; [done|].
    assert (Hnot : first + Z.of_nat n * W <= a).
    { apply (divide_le_aligned _ _ ts); [done| |lia|lia]. destruct Hdf as [k ->]. exists (k + Z.of_nat n). lia. }
    rewrite (proj2 (Z.ltb_ge _ _) Hnot). exists first, n.
    assert (Hb : tumbling_batches W (acc ++ new) first n = tumbling_batches W acc first n).
    { destruct Hnew as [->|[t ->]]; [by rewrite app_nil_r|]. apply tumbling_batches_snoc; [done|simpl; lia]. }
    rewrite Hb. split_and!; try lia; try done.
    + apply Forall_app. split; [done|]. apply Hfnew. nia.
    + rewrite list.filter_app. f_equal. symmetry. apply filter_all, Hfnew. lia.
Qed.

Lemma tumbling_step acc ems s joined clk t st :
  tumbling_inv acc ems s -> lo <= event_ts c clk t <= hi ->
  watermark (tw_wm s) <= event_ts c clk t ->
  let new := if window_ingest_passes (stmt c) (tdata t) then [(event_ts c clk t, t)] else [] in
  exists ems' s', ingest_tumbling c duration fuel joined clk t st s = Some (ems', st, s') /\
    tumbling_inv (acc ++ new) (ems ++ ems') s' /\
    tw_wm s' = advance_on c t (event_ts c clk t) (tw_wm s).
Proof.
  intros Hinv Hts Hwm new. set (ts := event_ts c clk t) in *.
  unfold ingest_tumbling. rewrite Het. fold ts. rewrite (proj2 (Z.ltb_ge _ _) Hwm).
  destruct (tumbling_open acc ems s new ts Hinv Hwm Hts) as
    (first & n & Hws & Hdf & Hlf & Hle & -> & Hall & Hbuf & Hn).
  { subst new. destruct (window_ingest_passes _ _); [right; by eexists|by left]. }
  set (ws := match window_start s with None => _ | Some _ => _ end) in *.
  assert (Hb : (if window_ingest_passes (stmt c) (tdata t) then et_buffer s ++ [(ts, t)] else et_buffer s)
     = et_buffer s ++ new) by (subst new; destruct (window_ingest_passes _ _); by rewrite ?app_nil_r).
  rewrite Hb, Hbuf. set (wm := advance_on c t ts (tw_wm s)).
  assert (Hbelow : wm_below hi wm).
  { apply wm_advance_below; [done|apply in_i64_hi; lia|lia|apply Hinv]. }
  assert (lo - W < ws) by nia.
  destruct (close_tumbling_spec fuel (watermark wm) W ws (acc ++ new)) as (m & -> & Hm1 & Hm2);
    [done|lia|destruct Hbelow; lia|destruct Hbelow; nia|nia|].
  eexists _, _. split; [done|]. split; [|done]. split; [done|]. simpl.
  exists first, (n + m)%nat. rewrite tumbling_batches_app, Nat2Z.inj_add, <- Hws.
  split_and!; try done; try lia.
  pose proof (wm_advance_mono (input_streams c) (late_tolerance_ms (event_time c)) (source t) ts (tw_wm s)) as Hmono.
  change (wm_advance _ _ _ _ _) with wm in Hmono.
  destruct Hm2 as [->|Hm2]; [|right; lia].
  rewrite Nat.add_0_r. destruct Hn as [->|Hn]; [by left|]. right. lia.
Qed.

Lemma tumbling_run_inv ins st acc ems s :
  Forall (ts_within c lo hi) ins -> tumbling_inv acc ems s ->
  exists ems' s', window_run (tumbling_runner c duration fuel) ins st s = Some (ems', st, s') /\
    let '(acc', wm) := accept_run c ins (tw_wm s) in
    tumbling_inv (acc ++ acc') (ems ++ ems') s' /\ tw_wm s' = wm.
Proof.
  intros Hins. revert acc ems s. induction Hins as [|i ins Hi Hins IH]; intros acc ems s Hinv.
  { exists [], s. simpl. by rewrite !app_nil_r. }
  destruct i as [joined clk t|]; cbn [window_run accept_run].
  - simpl in Hi. destruct (Z.ltb_spec (event_ts c clk t) (watermark (tw_wm s))) as [Hlate|Hok].
    + cbn [ingest tumbling_runner]. unfold ingest_tumbling at 1. rewrite Het.
      rewrite (proj2 (Z.ltb_lt _ _) Hlate). cbn [mbind option_bind].
      destruct (IH acc ems s Hinv) as (ems' & s' & -> & Hrest). by exists ems', s'.
    + destruct (tumbling_step acc ems s joined clk t st Hinv Hi Hok) as (e1 & s1 & Heq & Hinv1 & Hwm1).
      cbn [ingest tumbling_runner]. rewrite Heq. cbn [mbind option_bind].
      destruct (IH _ _ s1 Hinv1) as (e2 & s2 & -> & Hrest). cbn [mbind option_bind].
      exists (e1 ++ e2), s2. split; [done|]. rewrite Hwm1 in Hrest.
      destruct (accept_run c ins _) as [acc' wm]. by rewrite !app_assoc in *.
  - apply (IH acc ems (mkTumbling _ _ _ _)). destruct Hinv as [Hb Hinv]. by split.
Qed.
End tumbling_facts.


Import Windows.Sample.


Lemma close_tumbling_stuck fuel w t0 buf :
  0 < w -> in_i64 t0 -> close_tumbling fuel i64_max w t0 buf = None.
Proof.
  intros Hw. revert t0 buf. induction fuel as [|fuel IH]; intros t0 buf Ht; [done|]. simpl.
  destruct (Z.ltb_spec i64_max (saturating_add t0 w)) as [Hlt|_].
  { pose proof (clamp64_range (t0 + w)) as [_ ?]. unfold saturating_add in Hlt. lia. }
  rewrite IH; [done|]. apply clamp64_range.
Qed.

(** The closing loop never ends on the largest timestamp.  With no late
    tolerance, one row of the only input stream stamped [i64::MAX] moves the watermark
    to [i64::MAX], which no saturating window end exceeds: for every fuel, the step
    does not return, so the rule's task spins forever. *)
Theorem tumbling_max_timestamp_diverges `{Evaluator} `{Text} `{Incremental} (c : RuleCtx) (duration : Z)
    (joined : bool) (clk : Clock) (t : TaggedRow) (st : rule_state) :
  enabled (event_time c) = true -> late_tolerance_ms (event_time c) = 0 ->
  input_streams c = [source t] -> 0 < window_millis duration ->
  event_ts c clk t = i64_max ->
  forall fuel, ingest_tumbling c duration fuel joined clk t st (tumbling_init c) = None.
Proof.
  intros Het Htol Hin HW Hts fuel. unfold ingest_tumbling. rewrite Het, Hts.
  change (watermark (tw_wm (tumbling_init c))) with i64_min.
  replace (i64_max <? i64_min) with false by done.
  assert (Hwm : watermark (advance_on c t i64_max (tw_wm (tumbling_init c))) = i64_max).
  { unfold advance_on, wm_advance. rewrite Hin, Htol. simpl.
    unfold active_streams. rewrite list.filter_cons_True, list.filter_nil by set_solver.
    simpl. rewrite lookup_insert_eq, bool_decide_true by (by eexists). by vm_compute. }
  rewrite Hwm, close_tumbling_stuck; [done|done|apply wrap64_range].
Qed.

(** A JSON number beyond the range of [i64], as [1e300], is such a timestamp. *)
Lemma tumbling_max_timestamp_diverges_witness :
  let t := mkTagged "s" {["ts" := VNumber (Float (f64_of_Z (10 ^ 300)))]} in
  event_ts (ctx 0) clk t = i64_max /\
  (forall fuel, ingest_tumbling (ctx 0) (from_millis 10) fuel false clk t ∅ (tumbling_init (ctx 0)) = None).
Proof. split; [by vm_compute|]. apply tumbling_max_timestamp_diverges; by vm_compute. Defined.
