(* ===== verification/HoppingWindow.v ===== *)
(** * Hopping windows ([run_hopping_window_rule] of [engine/windows.rs])

    The runner; in event time every emitted window is exactly the accepted rows of
    its interval, and the hops it skips on an early out-of-order row. *)

From S2P Require Import Prelude Rust Json Counters Dlq Ast Engine Windows.

Set Default Goal Selector "!".

Section hopping.
Context `{Evaluator} `{Text} (c : RuleCtx) (length hop : Z) (fuel : nat).

Definition length_ms : Z := millis_i64 length.
Definition hop_ms : Z := Z.max (millis_i64 hop) 1.

Record HoppingState := mkHopping {
  hop_buffer : list (Z * TaggedRow);
  hop_et_buffer : list (Z * TaggedRow);
  next_hop_end : option Z;
  hop_wm : Watermark;
}.

Definition hopping_init : HoppingState := mkHopping [] [] None wm_init.

(** The loop that closes every hop the watermark has passed. *)
Fixpoint close_hops (fuel : nat) (wm len hop cur_end : Z) (buf : list (Z * TaggedRow))
    : option (list Emission * Z * list (Z * TaggedRow)) :=
  match fuel with
  | O => None
  | S fuel =>
      if wm <? cur_end then Some ([], cur_end, buf)
      else
        let cur_start := saturating_sub cur_end len in
        let batch := (filter (fun p => p.1 >= cur_start /\ p.1 < cur_end) buf).*2 in
        let next := saturating_add cur_end hop in
        let retain_after := saturating_sub (saturating_add cur_end hop) len in
        '(ems, e, b) ← close_hops fuel wm len hop next (filter (fun p => p.1 >= retain_after) buf);
        Some ((if bool_decide (batch = []) then []
               else [EmitBatch (mkBatch batch true (Some (cur_start, cur_end)))]) ++ ems, e, b)
  end.

Definition ingest_hop (joined : bool) (clk : Clock) (t : TaggedRow) (st : rule_state)
    (s : HoppingState) : option (list Emission * rule_state * HoppingState) :=
  if enabled (event_time c) then
    let ts := event_ts c clk t in
    if ts <? watermark (hop_wm s) then Some ([], st, s)
    else
      let wm := advance_on c t ts (hop_wm s) in
      let hop_end := default (wrap64 (ts - rem_euclid ts hop_ms + hop_ms)) (next_hop_end s) in
      let buf :=
        if window_ingest_passes (stmt c) (tdata t) then hop_et_buffer s ++ [(ts, t)]
        else hop_et_buffer s in
      '(ems, hop_end, buf) ← close_hops fuel (watermark wm) length_ms hop_ms hop_end buf;
      Some (ems, st, mkHopping (hop_buffer s) buf (Some hop_end) wm)
  else if window_ingest_passes (stmt c) (tdata t) then
    Some ([], st, mkHopping (hop_buffer s ++ [(instant clk, t)]) (hop_et_buffer s)
                    (next_hop_end s) (hop_wm s))
  else Some ([], st, s).

Definition hopping_tick (clk : Clock) (s : HoppingState) : list Emission * HoppingState :=
  if enabled (event_time c) then ([], s)
  else
    let buf := filter (fun p => Z.max 0 (instant clk - p.1) <= length) (hop_buffer s) in
    let s := mkHopping buf (hop_et_buffer s) (next_hop_end s) (hop_wm s) in
    if bool_decide (buf = []) then ([], s)
    else
      let end_ms := now_ms clk - rem_euclid (now_ms clk) hop_ms in
      let start_ms := saturating_sub end_ms length_ms in
      ([EmitBatch (mkBatch buf.*2 true (Some (start_ms, end_ms)))], s).

Definition hopping_runner : Runner := {|
  wstate := HoppingState;
  timer := unit;
  ingest := ingest_hop;
  on_join_closed s :=
    mkHopping (hop_buffer s) (hop_et_buffer s) (next_hop_end s)
      (wm_close (join_stream_names c) (hop_wm s));
  timer_enabled _ _ _ := true;
  on_timer _ _ clk s := hopping_tick clk s;
  on_end _ := [];
|}.
End hopping.

(** ** The specification: the hops over the accepted rows *)

(** The non-empty windows [e - len, e) for the [n] hop ends from [e]. *)
Fixpoint hop_batches (len hop : Z) (acc : list (Z * TaggedRow)) (e : Z) (n : nat) : list Emission :=
  match n with
  | O => []
  | S n =>
      let batch := (filter (fun p => e - len <= p.1 < e) acc).*2 in
      (if bool_decide (batch = []) then [] else [EmitBatch (mkBatch batch true (Some (e - len, e)))])
      ++ hop_batches len hop acc (e + hop) n
  end.

Lemma hop_batches_app len hop acc e n m :
  hop_batches len hop acc e (n + m) =
  hop_batches len hop acc e n ++ hop_batches len hop acc (e + Z.of_nat n * hop) m.
Proof.
  revert e. induction n as [|n IH]; intros e; simpl.
  - do 2 f_equal. lia.
  - rewrite IH, <- app_assoc. do 3 f_equal. lia.
Qed.

Lemma hop_batches_snoc len hop acc p e n :
  0 < hop -> e + Z.of_nat n * hop - hop <= p.1 ->
  hop_batches len hop (acc ++ [p]) e n = hop_batches len hop acc e n.
Proof.
  intros Hw. revert e. induction n as [|n IH]; intros e Hp; simpl; [done|].
  rewrite IH by lia.
  rewrite list.filter_app, list.filter_cons_False, list.filter_nil, app_nil_r by nia. done.
Qed.

(** The hops only look at the rows from the start of the next one. *)
Lemma hop_batches_recent len hop acc acc' e n :
  0 < hop ->
  filter (fun p => e - len <= p.1) acc = filter (fun p => e - len <= p.1) acc' ->
  hop_batches len hop acc e n = hop_batches len hop acc' e n.
Proof.
  intros Hw. revert e. induction n as [|n IH]; intros e Heq; simpl; [done|].
  f_equal; [|apply IH].
  - replace (filter (fun p => e - len <= p.1 < e) acc') with (filter (fun p => e - len <= p.1 < e) acc);
      [done|]. eapply filter_stronger; [|exact Heq]. simpl. intros; lia.
  - eapply filter_stronger; [|exact Heq]. simpl. intros; lia.
Qed.

(** The first hop end after a row, a multiple of the hop. *)
Definition hop_end_after (hop ts : Z) : Z := ts - ts mod hop + hop.

(** How many hop ends from [first] the watermark has reached. *)
Definition hops_reached (hop first wm : Z) : nat := Z.to_nat ((wm - first) / hop + 1).

Lemma hops_reached_exact hop first wm n : 0 < hop -> wm < first + Z.of_nat n * hop ->
  n = O \/ first + Z.of_nat n * hop - hop <= wm -> n = hops_reached hop first wm.
Proof.
  intros Hh Hlt Hn. unfold hops_reached. pose proof (Z.div_mod (wm - first) hop). pose proof (Z.mod_pos_bound (wm - first) hop).
  destruct (decide (wm < first)).
  - assert (n = O) as -> by (destruct Hn; [done|nia]). nia.
  - assert (Z.of_nat n = (wm - first) / hop + 1); [|lia]. destruct Hn as [->|Hn]; [lia|]. nia.
Qed.

(** The timestamp of the first row that is not late. *)
Fixpoint first_row `{Evaluator} `{Text} (c : RuleCtx) (ins : list WInput) (w : Watermark) : option Z :=
  match ins with
  | [] => None
  | WJoinClosed :: rest => first_row c rest (wm_close (join_stream_names c) w)
  | WRow _ clk t :: rest => if event_ts c clk t <? watermark w then first_row c rest w else Some (event_ts c clk t)
  end.

(** In range, the closing loop emits the hops up to the watermark, and keeps all the
    rows the next hops need. *)
Lemma close_hops_spec fuel wm len hop e buf :
  0 < hop -> 0 <= len -> i64_min + len <= e -> wm + hop <= i64_max ->
  Z.of_nat fuel * hop > wm - e + hop -> (0 < fuel)%nat ->
  exists n b, close_hops fuel wm len hop e buf =
      Some (hop_batches len hop buf e n, e + Z.of_nat n * hop, b) /\
    (b = buf /\ n = O \/ b = filter (fun p => e + Z.of_nat n * hop - len <= p.1) buf /\ n <> O /\
     e + Z.of_nat n * hop - hop <= wm) /\
    wm < e + Z.of_nat n * hop.
Proof.
  intros Hh Hlen. revert e buf. induction fuel as [|fuel IH]; intros e buf He Hwm Hf Hpos; [lia|].
  cbn [close_hops]. destruct (Z.ltb_spec wm e) as [Hlt|Hge].
  { exists O, buf. rewrite Z.mul_0_l, Z.add_0_r. split; [done|]. split; [by left|done]. }
  rewrite (saturating_sub_exact e len) by (unfold in_i64; lia).
  rewrite (saturating_add_exact e hop) by (unfold in_i64; lia).
  rewrite (saturating_sub_exact (e + hop) len) by (unfold in_i64; lia).
  destruct (IH (e + hop) (filter (fun p => p.1 >= e + hop - len) buf)) as (n & b & -> & Hb & Hend);
    [lia|lia|lia|destruct fuel; lia|].
  assert (Hfeq : filter (fun p : Z * TaggedRow => p.1 >= e + hop - len) buf =
                 filter (fun p => e + hop - len <= p.1) buf) by (apply list_filter_iff; intros; lia).
  rewrite Hfeq in *.
  exists (S n), b. cbn [mbind option_bind]. split_and!; [| |lia].
  - rewrite (hop_batches_recent len hop (filter _ _) buf (e + hop) n Hh).
    2: { apply filter_filter_eq. intros; tauto. }
    cbn [hop_batches].
    replace (e + hop + Z.of_nat n * hop) with (e + Z.of_nat (S n) * hop) by lia.
    replace (filter (fun p => p.1 >= e - len /\ p.1 < e) buf) with (filter (fun p => e - len <= p.1 < e) buf);
      [done|]. apply list_filter_iff. intros; lia.
  - right. destruct Hb as [[-> ->]|(-> & Hn & Hle)]; (split; [|lia]).
    + apply list_filter_iff. intros; lia.
    + rewrite (filter_filter_eq _ _ (fun p => e + Z.of_nat (S n) * hop - len <= p.1)); [done|].
      intros; nia.
Qed.

Lemma hop_ms_pos hop : 0 < hop_ms hop.
Proof. unfold hop_ms. lia. Qed.

Section hopping_facts.
Context `{Evaluator} `{Text} (c : RuleCtx) (length hop : Z) (fuel : nat) (lo hi : Z).
Abbreviation L := (length_ms length).
Abbreviation Hp := (hop_ms hop).
Context (Het : enabled (event_time c) = true) (Htol : 0 <= late_tolerance_ms (event_time c))
  (HL : 0 <= L) (Hlo : i64_min + L <= lo <= hi) (Hhi : hi + Hp <= i64_max)
  (Hfuel : Z.of_nat fuel * Hp > hi - lo + 2 * Hp).

(** [first]: the hop end the runner starts with. *)
Definition hopping_inv (first : Z) (acc : list (Z * TaggedRow)) (ems : list Emission) (s : HoppingState) : Prop :=
  wm_below hi (hop_wm s) /\
  match next_hop_end s with
  | None => acc = [] /\ ems = [] /\ hop_et_buffer s = []
  | Some e =>
      exists n, ems = hop_batches L Hp acc first n /\ lo < first /\
        e = first + Z.of_nat n * Hp /\ watermark (hop_wm s) < e /\
        (n = O \/ e - Hp <= watermark (hop_wm s)) /\
        filter (fun p => e - L <= p.1) (hop_et_buffer s) = filter (fun p => e - L <= p.1) acc
  end.

Lemma hopping_aligned ts : lo <= ts <= hi ->
  wrap64 (ts - rem_euclid ts Hp + Hp) = hop_end_after Hp ts /\ ts < hop_end_after Hp ts <= ts + Hp.
Proof.
  intros Hts. pose proof (hop_ms_pos hop). unfold rem_euclid, hop_end_after.
  pose proof (Z.mod_pos_bound ts Hp). rewrite wrap64_id by (unfold in_i64; lia). lia.
Qed.

(** The part of [ingest] before the closing loop. *)
Lemma hopping_open first acc ems s new ts :
  hopping_inv first acc ems s -> watermark (hop_wm s) <= ts -> lo <= ts <= hi ->
  (next_hop_end s = None -> first = hop_end_after Hp ts) ->
  (new = [] \/ exists t, new = [(ts, t)]) ->
  let e := default (wrap64 (ts - rem_euclid ts Hp + Hp)) (next_hop_end s) in
  exists n, e = first + Z.of_nat n * Hp /\ lo < first /\
    ems = hop_batches L Hp (acc ++ new) first n /\ (n = O \/ e - Hp <= watermark (hop_wm s)) /\
    filter (fun p => e - L <= p.1) (hop_et_buffer s ++ new) = filter (fun p => e - L <= p.1) (acc ++ new).
Proof.
  intros [_ Hinv] Hwm Hts Hfirst Hnew. pose proof (hop_ms_pos hop).
  destruct (next_hop_end s) as [e|]; simpl.
  - destruct Hinv as (n & -> & Hf & -> & _ & Hn & Hbuf). exists n.
    split_and!; try done; [|by rewrite !list.filter_app, Hbuf].
    destruct Hnew as [->|[t ->]]; [by rewrite app_nil_r|].
    destruct Hn as [->|Hn]; [done|]. rewrite hop_batches_snoc; [done|done|simpl; lia].
  - destruct Hinv as (-> & -> & ->). destruct (hopping_aligned ts Hts) as [-> Ha]. rewrite <- (Hfirst eq_refl) in *.
    exists O. rewrite Z.mul_0_l, Z.add_0_r. split_and!; try done; [lia|by left].
Qed.

Lemma hopping_step first acc ems s joined clk t st :
  hopping_inv first acc ems s -> lo <= event_ts c clk t <= hi ->
  watermark (hop_wm s) <= event_ts c clk t ->
  (next_hop_end s = None -> first = hop_end_after Hp (event_ts c clk t)) ->
  let new := if window_ingest_passes (stmt c) (tdata t) then [(event_ts c clk t, t)] else [] in
  exists ems' s', ingest_hop c length hop fuel joined clk t st s = Some (ems', st, s') /\
    hopping_inv first (acc ++ new) (ems ++ ems') s' /\ next_hop_end s' <> None /\
    hop_wm s' = advance_on c t (event_ts c clk t) (hop_wm s).
Proof.
  intros Hinv Hts Hwm Hfirst new. set (ts := event_ts c clk t) in *. pose proof (hop_ms_pos hop) as Hpos.
  unfold ingest_hop. rewrite Het. fold ts. rewrite (proj2 (Z.ltb_ge _ _) Hwm).
  destruct (hopping_open first acc ems s new ts Hinv Hwm Hts Hfirst) as (n & He & Hf & -> & Hn & Hbuf).
  { subst new. destruct (window_ingest_passes _ _); [right; by eexists|by left]. }
  set (e := default _ (next_hop_end s)) in *.
  assert (Hb : (if window_ingest_passes (stmt c) (tdata t) then hop_et_buffer s ++ [(ts, t)]
     else hop_et_buffer s) = hop_et_buffer s ++ new)
    by (subst new; destruct (window_ingest_passes _ _); by rewrite ?app_nil_r).
  rewrite Hb. set (wm := advance_on c t ts (hop_wm s)).
  assert (Hbelow : wm_below hi wm).
  { apply wm_advance_below; [done|unfold in_i64; lia|lia|apply Hinv]. }
  destruct (close_hops_spec fuel (watermark wm) L Hp e (hop_et_buffer s ++ new))
    as (m & b & -> & Hres & Hend); [done|done|nia|destruct Hbelow; nia|destruct Hbelow; nia|nia|].
  eexists _, _. split; [done|]. split; [|done]. split; [done|]. simpl.
  rewrite (hop_batches_recent L Hp _ (acc ++ new) e m Hpos Hbuf).
  exists (n + m)%nat. rewrite hop_batches_app, Nat2Z.inj_add, <- He.
  pose proof (wm_advance_mono (input_streams c) (late_tolerance_ms (event_time c)) (source t) ts (hop_wm s)) as Hmono.
  change (wm_advance _ _ _ _ _) with wm in Hmono.
  split_and!; try done; try lia.
  destruct Hres as [[-> ->]|(-> & Hm & Hle)].
  - by rewrite Z.mul_0_l, Z.add_0_r.
  - rewrite (filter_filter_eq _ _ (fun p => e + Z.of_nat m * Hp - L <= p.1)) by (intros; tauto).
    eapply filter_stronger; [|exact Hbuf]. intros [x ?]; simpl. nia.
Qed.

Lemma hopping_run_inv first ins st acc ems s :
  Forall (ts_within c lo hi) ins -> hopping_inv first acc ems s ->
  (next_hop_end s = None -> forall ts, first_row c ins (hop_wm s) = Some ts -> first = hop_end_after Hp ts) ->
  exists ems' s', window_run (hopping_runner c length hop fuel) ins st s = Some (ems', st, s') /\
    let '(acc', wm) := accept_run c ins (hop_wm s) in
    hopping_inv first (acc ++ acc') (ems ++ ems') s' /\ hop_wm s' = wm /\
    (next_hop_end s' = None -> next_hop_end s = None /\ first_row c ins (hop_wm s) = None).
Proof.
  intros Hins. revert acc ems s. induction Hins as [|i ins Hi Hins IH]; intros acc ems s Hinv Hfirst.
  { exists [], s. simpl. by rewrite !app_nil_r. }
  destruct i as [joined clk t|]; cbn [window_run accept_run first_row] in *.
  - simpl in Hi. destruct (Z.ltb_spec (event_ts c clk t) (watermark (hop_wm s))) as [Hlate|Hok].
    + cbn [ingest hopping_runner]. unfold ingest_hop at 1. rewrite Het.
      rewrite (proj2 (Z.ltb_lt _ _) Hlate). cbn [mbind option_bind].
      destruct (IH acc ems s Hinv Hfirst) as (ems' & s' & -> & Hrest). by exists ems', s'.
    + destruct (hopping_step first acc ems s joined clk t st Hinv Hi Hok) as (e1 & s1 & Heq & Hinv1 & Hopen & Hwm1).
      { intros Hn. by apply Hfirst. }
      cbn [ingest hopping_runner]. rewrite Heq. cbn [mbind option_bind].
      destruct (IH _ _ s1 Hinv1) as (e2 & s2 & -> & Hrest); [done|]. cbn [mbind option_bind].
      exists (e1 ++ e2), s2. split; [done|]. rewrite Hwm1 in Hrest.
      destruct (accept_run c ins _) as [acc' wm]. rewrite !app_assoc in *. destruct Hrest as (? & ? & Hnone). split_and!; [done|done|].
      intros [? _]%Hnone. done.
  - apply (IH acc ems (mkHopping _ _ _ _)); [|done]. destruct Hinv as [Hb Hinv]. split; [by apply wm_close_below|].
    cbn. destruct (next_hop_end s); [|done]. destruct Hinv as (n & H1 & H2 & H3 & H4 & H5 & H6). exists n. done.
Qed.
End hopping_facts.

(** C21. Event-time hopping windows are exact.  The runner returns; the first hop end is the
    multiple of the hop after the first row that is not late, and what the runner has emitted
    are exactly the non-empty windows [e - length, e) for that hop end and every later one the
    watermark has reached, in order, each holding exactly the accepted rows of its interval
    in arrival order although the buffer is trimmed after every hop; it still holds the
    accepted rows of the hops to come.  (Timestamps are far enough from the ends of [i64].) *)
Theorem hopping_event_time_exact `{Evaluator} `{Text} (c : RuleCtx) (length hop : Z)
    (fuel : nat) (lo hi ts : Z) (ins : list WInput) (st : rule_state) :
  let len := length_ms length in
  let hop' := hop_ms hop in
  enabled (event_time c) = true -> 0 <= late_tolerance_ms (event_time c) -> 0 <= len ->
  i64_min + len <= lo <= hi -> hi + hop' <= i64_max -> Z.of_nat fuel * hop' > hi - lo + 2 * hop' ->
  Forall (ts_within c lo hi) ins -> first_row c ins wm_init = Some ts ->
  let first := hop_end_after hop' ts in
  let wm := watermark (accept_run c ins wm_init).2 in
  let n := hops_reached hop' first wm in
  exists s,
    window_run (hopping_runner c length hop fuel) ins st hopping_init
      = Some (hop_batches len hop' (accepted c ins) first n, st, s) /\
    watermark (hop_wm s) = wm /\
    let next := first + Z.of_nat n * hop' in
    filter (fun p => next - len <= p.1) (hop_et_buffer s) =
    filter (fun p => next - len <= p.1) (accepted c ins).
Proof.
  intros len hop' Het Htol HL Hlo Hhi Hfuel Hins Hrow first wm n.
  destruct (hopping_run_inv c length hop fuel lo hi Het Htol HL Hlo Hhi Hfuel first ins st [] [] hopping_init Hins)
    as (ems & s & Hrun & Hres).
  { split; [|done]. apply wm_init_below. unfold in_i64. subst len hop'. pose proof (hop_ms_pos hop). lia. }
  { intros _ ts'. change (hop_wm hopping_init) with wm_init. rewrite Hrow. by intros [= <-]. }
  unfold accepted in *. change (hop_wm hopping_init) with wm_init in Hres. subst wm n.
  destruct (accept_run c ins wm_init) as [acc wm]. simpl in Hres |- *.
  destruct Hres as ([_ Hinv] & Hwm & Hopen). destruct (next_hop_end s) as [e|]; [|by destruct (Hopen eq_refl); congruence].
  destruct Hinv as (m & -> & Hlf & -> & Hlt & Hm & Hbuf). rewrite Hwm in *.
  rewrite <- (hops_reached_exact hop' first (watermark wm) m (hop_ms_pos hop) Hlt Hm). exists s. split; [exact Hrun|]. split; [by rewrite Hwm|exact Hbuf].
Qed.

Import Windows.Sample.

Lemma hopping_event_time_exact_witness :
  let ins := rows_at [12; 8; 15; 3; 27; 24; 41] in
  first_row (ctx 5) ins wm_init = Some 12 /\ watermark (accept_run (ctx 5) ins wm_init).2 = 36 /\
  exists s,
    window_run (hopping_runner (ctx 5) (from_millis 20) (from_millis 10) 20) ins ∅ hopping_init
      = Some (hop_batches 20 10 (accepted (ctx 5) ins) 20 2, ∅, s) /\
    watermark (hop_wm s) = 36 /\
    filter (fun p => 40 - 20 <= p.1) (hop_et_buffer s) = filter (fun p => 40 - 20 <= p.1) (accepted (ctx 5) ins).
Proof.
  intros ins. split; [by vm_compute|]. split; [by vm_compute|].
  apply (hopping_event_time_exact (ctx 5) (from_millis 20) (from_millis 10) 20 0 50 12);
    [by vm_compute|by vm_compute|by vm_compute|by vm_compute|by vm_compute|by vm_compute| |by vm_compute].
  apply (bool_decide_unpack _). by vm_compute.
Defined.

(** The first hop is aligned on the first row only.  With a 10 ms window hopping
    by 10 ms and 5 ms of tolerance, rows at 12, 8 and 40 are all accepted, but the
    window [0, 10) that holds the second row is never emitted; the tumbling runner
    reopens it for the same input. *)
Theorem hopping_loses_early_row :
  let ins := rows_at [12; 8; 40] in
  fst <$> accepted (ctx 5) ins = [12; 8; 40] /\
  exists s, window_run (hopping_runner (ctx 5) (from_millis 10) (from_millis 10) 20) ins ∅ hopping_init
    = Some ([EmitBatch (mkBatch [at_ts 12] true (Some (10, 20)))], ∅, s) /\
    at_ts 8 ∉ (hop_et_buffer s).*2.
Proof.
  split; [by vm_compute|]. eexists. split; [by vm_compute|].
  apply (bool_decide_unpack _). by vm_compute.
Qed.
