(* ===== verification/CountWindow.v ===== *)
(** * Count windows ([run_count_window_rule] of [engine/windows.rs])

    The runner and what it samples: with [hop <= count] every [hop]-th run of [count]
    consecutive rows, with [hop > count] the last [count] rows of every [hop] rows of
    the [FROM] stream. *)

From S2P Require Import Prelude Rust Json Counters Dlq Ast Engine Windows.

Set Default Goal Selector "!".

Record CountState := mkCount {
  count_buffer : list TaggedRow;
  events_since_trigger : nat;
}.

Definition count_init : CountState := mkCount [] 0.

Section count.
Context `{Evaluator} `{Text} (c : RuleCtx) (size : nat) (interval : option nat).

Definition count_of : nat := Nat.max size 1.
Definition hop_of : nat := Nat.max (default count_of interval) 1.

Definition count_batch (clk : Clock) (rows : list TaggedRow) : Emission :=
  EmitBatch (mkBatch rows false (Some (now_ms clk, now_ms clk))).

(** Both branches with [hop <= count]: tumbling when equal, else overlapping. *)
Definition count_overlap (clk : Clock) (s : CountState) : list Emission * CountState :=
  let buf := count_buffer s in
  if (count_of <=? length buf)%nat then
    let '(batch, rest) :=
      if (hop_of =? count_of)%nat then (take count_of buf, drop count_of buf)
      else (take count_of buf, drop (Nat.min hop_of (length buf)) buf) in
    ([count_batch clk batch], mkCount rest (events_since_trigger s))
  else ([], s).

(** The trigger of both branches with [hop > count]: emit what is buffered, restart. *)
Definition count_flush (clk : Clock) (buf : list TaggedRow) : list Emission * CountState :=
  (if bool_decide (buf = []) then [] else [count_batch clk buf], mkCount [] 0).

(** [FROM] rows: the oldest row goes at every push beyond [count]. *)
Definition count_gap_from (clk : Clock) (s : CountState) : list Emission * CountState :=
  let buf := if (count_of <? length (count_buffer s))%nat then drop 1 (count_buffer s)
             else count_buffer s in
  if (hop_of <=? events_since_trigger s)%nat then count_flush clk buf
  else ([], mkCount buf (events_since_trigger s)).

(** Joined rows: the oldest row goes only when the window triggers. *)
Definition count_gap_join (clk : Clock) (s : CountState) : list Emission * CountState :=
  if (hop_of <=? events_since_trigger s)%nat then
    count_flush clk (if (count_of <? length (count_buffer s))%nat then drop 1 (count_buffer s)
                     else count_buffer s)
  else ([], s).

Definition ingest_count (joined : bool) (clk : Clock) (t : TaggedRow) (st : rule_state)
    (s : CountState) : option (list Emission * rule_state * CountState) :=
  if negb (window_ingest_passes (stmt c) (tdata t)) then Some ([], st, s)
  else
    let s := mkCount (count_buffer s ++ [t]) (S (events_since_trigger s)) in
    let '(ems, s) :=
      if (hop_of <=? count_of)%nat then count_overlap clk s
      else if joined then count_gap_join clk s
      else count_gap_from clk s in
    Some (ems, st, s).

Definition count_runner : Runner := {|
  wstate := CountState;
  timer := Empty_set;
  ingest := ingest_count;
  on_join_closed s := s;
  timer_enabled _ _ _ := false;
  on_timer _ _ _ s := ([], s);
  on_end _ := [];
|}.
End count.

(** ** The specification: positions in the sequence of rows *)

(** The [n] windows of [count] rows, [hop] rows apart, the first after [offset] rows. *)
Definition count_windows (count hop offset : nat) (xs : list TaggedRow) (n : nat) : list (list TaggedRow) :=
  (fun k => take count (drop (k * hop + offset) xs)) <$> seq 0 n.

Definition gap_offset (count hop : nat) : nat := hop - count.

Lemma count_windows_S count hop offset xs n :
  count_windows count hop offset xs (S n) =
  count_windows count hop offset xs n ++ [take count (drop (n * hop + offset) xs)].
Proof. unfold count_windows. by rewrite seq_S, fmap_app. Qed.

Lemma count_windows_snoc count hop offset xs x n :
  (n = O \/ (n - 1) * hop + offset + count <= length xs)%nat ->
  count_windows count hop offset (xs ++ [x]) n = count_windows count hop offset xs n.
Proof.
  intros Hn. unfold count_windows. apply list_fmap_ext. intros i k Hk.
  apply lookup_seq in Hk as [-> Hlt]. destruct Hn as [->|Hn]; [lia|].
  assert ((0 + i) * hop <= (n - 1) * hop)%nat by nia.
  rewrite drop_app_le, take_app_le; [done| |lia]. rewrite length_drop. lia.
Qed.

Section count_facts.
Context `{Evaluator} `{Text} (c : RuleCtx) (size : nat) (interval : option nat).
Abbreviation count := (count_of size).
Abbreviation hop := (hop_of size interval).
Abbreviation off := (gap_offset count hop).

(** Rows the runner may receive for its windows to be regular: a gap window on joined
    rows is not. *)
Definition regular (i : WInput) : Prop :=
  match i with WRow joined _ _ => (hop <= count)%nat \/ joined = false | WJoinClosed => True end.

Definition count_inv (ins : list WInput) (ems : list Emission) (st : rule_state) (s : CountState) : Prop :=
  let xs := passed c ins in
  exists n, emission_rows <$> ems = count_windows count hop off xs n /\
    (n = O \/ (n - 1) * hop + off + count <= length xs)%nat /\
    (length xs < n * hop + off + count)%nat /\
    if decide (hop <= count)%nat then count_buffer s = drop (n * hop) xs
    else events_since_trigger s = (length xs - n * hop)%nat /\ (n * hop <= length xs)%nat /\
         count_buffer s = drop (Nat.max (n * hop) (length xs - count)) xs.

Lemma count_pos : (1 <= count)%nat /\ (1 <= hop)%nat.
Proof. unfold count_of, hop_of. lia. Qed.

Lemma count_overlap_step xs x clk s n :
  (hop <= count)%nat -> count_buffer s = drop (n * hop) xs ++ [x] ->
  (n = O \/ (n - 1) * hop + count <= length xs)%nat -> (length xs < n * hop + count)%nat ->
  let '(ems, s') := count_overlap size interval clk s in
  exists m, emission_rows <$> ems = (fun k => take count (drop (k * hop) (xs ++ [x]))) <$> seq n m /\
    count_buffer s' = drop ((n + m) * hop) (xs ++ [x]) /\
    (n + m = O \/ (n + m - 1) * hop + count <= S (length xs))%nat /\
    (S (length xs) < (n + m) * hop + count)%nat.
Proof.
  intros Hhc Hbuf Hn Hlt. pose proof count_pos. unfold count_overlap.
  assert (Hle : (n * hop <= length xs)%nat).
  { destruct n as [|n]; [lia|]. destruct Hn as [?|Hn]; [lia|]. simpl in *. rewrite Nat.sub_0_r in Hn. lia. }
  rewrite Hbuf, <- drop_app_le by done. rewrite length_drop, length_app. cbn [length].
  destruct (Nat.leb_spec count (length xs + 1 - n * hop)%nat) as [Hfull|Hpart].
  - destruct (Nat.eqb_spec hop count) as [Heq|Hne]; exists 1%nat;
      cbn [fmap list_fmap seq emission_rows count_batch brows count_buffer];
      (split_and!; [done| |right; nia|nia]); rewrite drop_drop; f_equal; lia.
  - exists O. cbn [fmap list_fmap seq]. rewrite Nat.add_0_r, Hbuf. split_and!; [done| |lia|lia].
    by rewrite drop_app_le.
Qed.

Lemma count_gap_step xs x clk s n :
  (count < hop)%nat -> count_buffer s = drop (Nat.max (n * hop) (length xs - count)) xs ++ [x] ->
  events_since_trigger s = S (length xs - n * hop) -> (n * hop <= length xs < n * hop + hop)%nat ->
  let '(ems, s') := count_gap_from size interval clk s in
  exists m, emission_rows <$> ems = (fun k => take count (drop (k * hop + off) (xs ++ [x]))) <$> seq n m /\
    count_buffer s' = drop (Nat.max ((n + m) * hop) (S (length xs) - count)) (xs ++ [x]) /\
    events_since_trigger s' = (S (length xs) - (n + m) * hop)%nat /\
    ((n + m) * hop <= S (length xs) < (n + m) * hop + hop)%nat.
Proof.
  intros Hch Hbuf Hev Hlen. pose proof count_pos. unfold count_gap_from.
  rewrite <- drop_app_le in Hbuf by lia.
  set (buf := if (count <? length (count_buffer s))%nat then _ else _).
  assert (Hb : buf = drop (Nat.max (n * hop) (S (length xs) - count)) (xs ++ [x])).
  { subst buf. rewrite Hbuf, length_drop, length_app. cbn [length].
    destruct (Nat.ltb_spec count (length xs + 1 - Nat.max (n * hop) (length xs - count))%nat).
    - rewrite drop_drop. f_equal. lia.
    - f_equal. lia. }
  rewrite Hev. destruct (Nat.leb_spec hop (S (length xs - n * hop)))%nat as [Htrig|Hno].
  - exists 1%nat. unfold count_flush.
    assert (Hlb : length buf = count) by (rewrite Hb, length_drop, length_app; cbn [length]; lia).
    rewrite bool_decide_false by (intros ->; simpl in Hlb; lia).
    cbn [fmap list_fmap seq emission_rows count_batch brows count_buffer events_since_trigger].
    split_and!; [|symmetry; apply drop_ge; rewrite length_app; cbn [length]; lia|lia|lia|lia].
    f_equal. rewrite take_ge.
    + rewrite Hb. f_equal. unfold gap_offset. lia.
    + rewrite length_drop, length_app. cbn [length]. unfold gap_offset. lia.
  - exists O. cbn [fmap list_fmap seq count_buffer events_since_trigger]. rewrite Nat.add_0_r, Hb.
    split_and!; try done; lia.
Qed.

Lemma count_inv_step ins ems st s joined clk t :
  count_inv ins ems st s -> regular (WRow joined clk t) ->
  exists ems' s', ingest_count c size interval joined clk t st s = Some (ems', st, s') /\
    count_inv (ins ++ [WRow joined clk t]) (ems ++ ems') st s'.
Proof.
  intros (n & Hems & Hn & Hlt & Hbuf) Hreg. unfold ingest_count, count_inv. rewrite passed_snoc.
  destruct (window_ingest_passes _ _) eqn:Hpass; simpl.
  2: { exists [], s. split; [done|]. rewrite !app_nil_r. exists n. done. }
  pose proof count_pos. set (xs := passed c ins) in *.
  assert (Hgen : forall m, emission_rows <$> ems = count_windows count hop off (xs ++ [t]) n ->
    forall ems', emission_rows <$> ems' = (fun k => take count (drop (k * hop + off) (xs ++ [t]))) <$> seq n m ->
    emission_rows <$> (ems ++ ems') = count_windows count hop off (xs ++ [t]) (n + m)).
  { intros m He1 e' He2. rewrite fmap_app, He1, He2. unfold count_windows. by rewrite seq_app, fmap_app. }
  rewrite <- (count_windows_snoc count hop off xs t n Hn) in Hems.
  destruct (decide (hop <= count)%nat) as [Hhc|Hch].
  - rewrite (proj2 (Nat.leb_le _ _) Hhc).
    assert (Hoff : off = O) by (unfold gap_offset; lia). rewrite Hoff in *.
    pose proof (count_overlap_step xs t clk (mkCount (count_buffer s ++ [t]) (S (events_since_trigger s))) n Hhc) as Hstep.
    destruct (count_overlap size interval clk _) as [ems' s'].
    destruct Hstep as (m & He & Hb & Hm1 & Hm2); [by simpl; rewrite Hbuf|lia|lia|].
    exists ems', s'. split; [done|]. exists (n + m)%nat. rewrite length_app. cbn [length].
    split_and!; [|lia|lia|done]. apply Hgen; [done|]. rewrite He. apply list_fmap_ext. intros. by rewrite Nat.add_0_r.
  - rewrite (proj2 (Nat.leb_gt _ _)) by lia. destruct Hreg as [? | ->]; [lia|].
    destruct Hbuf as (Hev & Hle & Hbuf).
    pose proof (count_gap_step xs t clk (mkCount (count_buffer s ++ [t]) (S (events_since_trigger s))) n) as Hstep.
    destruct (count_gap_from size interval clk _) as [ems' s'].
    destruct Hstep as (m & He & Hb & Hev' & Hm); [lia|simpl; by rewrite Hbuf|simpl; lia|unfold gap_offset in Hlt; lia|].
    exists ems', s'. split; [done|]. exists (n + m)%nat. rewrite length_app. cbn [length].
    replace (length xs + 1)%nat with (S (length xs)) by lia.
    split_and!; [by apply Hgen| | |done|lia|done]; unfold gap_offset; [|lia].
    destruct (n + m)%nat as [|k]; [by left|]. right. simpl in Hm. rewrite Nat.sub_succ, Nat.sub_0_r. lia.
Qed.
End count_facts.


Import Windows.Sample.


(** The joined branch of a sparse count window emits too many rows: with
    [COUNTWINDOW(2, 4)], four joined rows trigger one window of three rows, although
    the same four rows on the [FROM] stream trigger one of two. *)
Theorem count_gap_join_oversized :
  let rows := at_ts <$> [1; 2; 3; 4] in
  let run joined := window_run (count_runner (ctx 0) 2 (Some 4%nat)) (WRow joined clk <$> rows) ∅ count_init in
  (exists s, run true = Some ([EmitBatch (mkBatch (drop 1 rows) false (Some (0, 0)))], ∅, s)) /\
  (exists s, run false = Some ([EmitBatch (mkBatch (drop 2 rows) false (Some (0, 0)))], ∅, s)).
Proof. split; eexists; by vm_compute. Qed.
