(* ===== verification/SessionWindow.v ===== *)
(** * Session windows ([run_session_window_rule] of [engine/windows.rs])

    The runner, and its event-time correctness: the accepted rows are cut, in order
    and without loss, into sessions with bounded gaps and bounded duration, and never
    cut anywhere else. *)

From S2P Require Import Prelude Rust Json Counters Dlq Ast Engine Windows.

Set Default Goal Selector "!".

Inductive SessionTimer := IdleElapsed | MaxCheck.

Section session.
Context `{Evaluator} `{Text} `{Incremental} (c : RuleCtx) (max_duration timeout : Z).

Definition timeout_ms : Z := Z.max (millis_i64 timeout) 1.
Definition max_duration_ms : Z := Z.max (millis_i64 max_duration) 1.

Record SessionState := mkSession {
  ss_window : WindowRows;
  opened_at : option Z;
  opened_at_ms : option Z;
  idle_deadline : Z;
  ss_wm : Watermark;
  session_buffer : list (Z * TaggedRow);
  session_start : option Z;
  last_event_ts : option Z;
}.

Definition session_init (start : Z) : SessionState :=
  mkSession (window_rows_new (stmt c)) None None (start + timeout) wm_init [] None None.

Definition session_batch (s_start s_end : Z) (buf : list (Z * TaggedRow)) : Emission :=
  EmitBatch (mkBatch buf.*2 true (Some (s_start, s_end))).

(** The event-time part of the state: buffer, start and last timestamp. *)
Definition session_core : Type := list (Z * TaggedRow) * option Z * option Z.

(** An accepted row that passes the filter extends the session or cuts it. *)
Definition session_add (ts : Z) (t : TaggedRow) (s : session_core) : list Emission * session_core :=
  let '(buf, start, last) := s in
  match last with
  | Some last_ts =>
      if (timeout_ms <? saturating_sub ts last_ts) ||
         (max_duration_ms <=? saturating_sub ts (default ts start))
      then
        ([session_batch (default last_ts start) (saturating_add last_ts timeout_ms) buf],
         ([(ts, t)], Some ts, Some ts))
      else ([], (buf ++ [(ts, t)], start, Some ts))
  | None => ([], (buf ++ [(ts, t)], Some ts, Some ts))
  end.

(** The watermark closes a session that has been idle for the timeout. *)
Definition session_expire (wm : Z) (s : session_core) : list Emission * session_core :=
  let '(buf, start, last) := s in
  match last with
  | Some last_ts =>
      if saturating_add last_ts timeout_ms <=? wm then
        ([session_batch (default last_ts start) (saturating_add last_ts timeout_ms) buf],
         ([], None, None))
      else ([], s)
  | None => ([], s)
  end.

Definition ingest_session (joined : bool) (clk : Clock) (t : TaggedRow) (st : rule_state)
    (s : SessionState) : option (list Emission * rule_state * SessionState) :=
  if enabled (event_time c) then
    let ts := event_ts c clk t in
    if ts <? watermark (ss_wm s) then Some ([], st, s)
    else
      let wm := advance_on c t ts (ss_wm s) in
      let core := (session_buffer s, session_start s, last_event_ts s) in
      let '(ems1, core) :=
        if window_ingest_passes (stmt c) (tdata t) then session_add ts t core else ([], core) in
      let '(ems2, (buf, start, last)) := session_expire (watermark wm) core in
      Some (ems1 ++ ems2, st,
            mkSession (ss_window s) (opened_at s) (opened_at_ms s) (idle_deadline s) wm buf start last)
  else
    let '(ok, w) := window_rows_push (stmt c) t (ss_window s) in
    if ok then
      let '(at_, at_ms) :=
        match opened_at s with
        | None => (Some (instant clk), Some (now_ms clk))
        | Some _ => (opened_at s, opened_at_ms s)
        end in
      Some ([], st, mkSession w at_ at_ms (instant clk + timeout) (ss_wm s) (session_buffer s)
                      (session_start s) (last_event_ts s))
    else Some ([], st, mkSession w (opened_at s) (opened_at_ms s) (idle_deadline s) (ss_wm s)
                         (session_buffer s) (session_start s) (last_event_ts s)).

(** Both timers close the open processing-time session. *)
Definition session_close (clk : Clock) (s : SessionState) : list Emission * SessionState :=
  let start_ms := default (now_ms clk) (opened_at_ms s) in
  let '(ems, w) := window_rows_emit (Some (start_ms, now_ms clk)) (ss_window s) in
  (ems, mkSession w None None (idle_deadline s) (ss_wm s) (session_buffer s) (session_start s)
          (last_event_ts s)).

Definition session_timer (tm : SessionTimer) (clk : Clock) (s : SessionState)
    : list Emission * SessionState :=
  match tm with
  | IdleElapsed => session_close clk s
  | MaxCheck =>
      match opened_at s with
      | Some start =>
          if negb (enabled (event_time c)) && (max_duration <=? instant clk - start)
          then session_close clk s else ([], s)
      | None => ([], s)
      end
  end.

(** After the loop, an open event-time session is emitted. *)
Definition session_end (s : SessionState) : list Emission :=
  if enabled (event_time c) && negb (bool_decide (session_buffer s = [])) then
    [session_batch (default 0 (session_start s))
       (saturating_add (default 0 (last_event_ts s)) timeout_ms) (session_buffer s)]
  else [].

Definition session_runner : Runner := {|
  wstate := SessionState;
  timer := SessionTimer;
  ingest := ingest_session;
  on_join_closed s :=
    mkSession (ss_window s) (opened_at s) (opened_at_ms s) (idle_deadline s)
      (wm_close (join_stream_names c) (ss_wm s)) (session_buffer s) (session_start s) (last_event_ts s);
  timer_enabled tm clk s :=
    match tm with
    | IdleElapsed =>
        bool_decide (is_Some (opened_at s)) && negb (enabled (event_time c)) &&
        (idle_deadline s <=? instant clk)
    | MaxCheck => true
    end;
  on_timer tm _ clk s := session_timer tm clk s;
  on_end := session_end;
|}.
End session.

(** ** The specification: sessions *)

Section sessions.
Context (to maxd : Z).

Definition first_ts (l : list (Z * TaggedRow)) : Z := default 0 (fst <$> list.head l).
Definition last_ts (l : list (Z * TaggedRow)) : Z := default 0 (fst <$> list.last l).

(** Every row is at most the timeout after the one before it, and starts less than the
    maximal duration after the first. *)
Fixpoint session_from (start last : Z) (l : list (Z * TaggedRow)) : Prop :=
  match l with
  | [] => True
  | (ts, _) :: r => ts - last <= to /\ ts - start < maxd /\ session_from start ts r
  end.

Definition is_session (l : list (Z * TaggedRow)) : Prop :=
  match l with
  | [] => False
  | (ts, _) :: r => session_from ts ts r
  end.

Definition emission_of (l : list (Z * TaggedRow)) : Emission :=
  EmitBatch (mkBatch l.*2 true (Some (first_ts l, last_ts l + to))).

(** The cut between two sessions is forced by the gap or by the duration. *)
Definition separated (s1 s2 : list (Z * TaggedRow)) : Prop :=
  to <= first_ts s2 - last_ts s1 \/ maxd <= first_ts s2 - first_ts s1.

Definition all_separated (ss : list (list (Z * TaggedRow))) : Prop :=
  forall i s1 s2, ss !! i = Some s1 -> ss !! S i = Some s2 -> separated s1 s2.

Lemma session_from_snoc start last l ts t :
  session_from start last l -> ts - default last (fst <$> list.last l) <= to -> ts - start < maxd ->
  session_from start last (l ++ [(ts, t)]).
Proof.
  revert last. induction l as [|[x r] l IH]; intros last; [done|]. rewrite last_cons.
  intros (H1 & H2 & H3) Hgap Hdur. split_and!; [done|done|].
  apply IH; [done| |done]. by destruct (list.last l).
Qed.

Lemma is_session_snoc l ts t :
  is_session l -> ts - last_ts l <= to -> ts - first_ts l < maxd -> is_session (l ++ [(ts, t)]).
Proof.
  destruct l as [|[x r] l]; [done|]. unfold last_ts. rewrite last_cons. intros Hs Hgap Hdur.
  apply session_from_snoc; [done| |done]. by destruct (list.last l).
Qed.

Lemma all_separated_snoc ss s :
  all_separated ss -> (forall s0, list.last ss = Some s0 -> separated s0 s) -> all_separated (ss ++ [s]).
Proof.
  intros Hss Hlast i s1 s2 H1 H2. destruct (decide (S i < length ss)%nat) as [Hlt|Hge].
  - rewrite lookup_app_l in H1, H2 by lia. by eapply Hss.
  - assert (Hi : S i = length ss).
    { apply lookup_lt_Some in H2. rewrite length_app in H2. simpl in H2. lia. }
    rewrite lookup_app_l in H1 by lia. rewrite lookup_app_r, Hi, Nat.sub_diag in H2 by lia.
    injection H2 as <-. apply Hlast. rewrite last_lookup, <- Hi. done.
Qed.

Lemma all_separated_inv ss s :
  all_separated (ss ++ [s]) -> all_separated ss /\ (forall s0, list.last ss = Some s0 -> separated s0 s).
Proof.
  intros Hss. split.
  - intros i s1 s2 H1 H2. apply (Hss i); by apply lookup_app_l_Some.
  - intros s0 Hs0. rewrite last_lookup in Hs0. apply (Hss (pred (length ss))).
    + by apply lookup_app_l_Some.
    + destruct ss as [|x ss]; [done|]. simpl. by rewrite list_lookup_middle.
Qed.

Lemma first_ts_snoc l p : l <> [] -> first_ts (l ++ [p]) = first_ts l.
Proof. by destruct l. Qed.

Lemma last_ts_snoc l p : last_ts (l ++ [p]) = p.1.
Proof. unfold last_ts. by rewrite last_snoc. Qed.
End sessions.

Section session_facts.
Context `{Evaluator} `{Text} `{Incremental} (c : RuleCtx) (max_duration timeout : Z) (lo hi : Z).
Abbreviation TO := (timeout_ms timeout).
Abbreviation MAXD := (max_duration_ms max_duration).
Context (Het : enabled (event_time c) = true) (Htol : 0 <= late_tolerance_ms (event_time c))
  (Hlo : i64_min <= lo <= hi) (Hhi : hi + TO <= i64_max) (Hspan : hi - lo <= i64_max).

(** [ss] are the sessions emitted so far, [buf] the open one. *)
Definition session_core_inv (wm : Z) (acc : list (Z * TaggedRow)) (ss : list (list (Z * TaggedRow)))
    (core : session_core) : Prop :=
  let '(buf, start, last) := core in
  Forall (fun p => lo <= p.1 <= hi) buf /\ mjoin ss ++ buf = acc /\
  Forall (is_session TO MAXD) ss /\
  match last with
  | None => buf = [] /\ all_separated TO MAXD ss /\
            (forall s0, list.last ss = Some s0 -> last_ts s0 + TO <= wm)
  | Some l => is_session TO MAXD buf /\ start = Some (first_ts buf) /\ l = last_ts buf /\
              all_separated TO MAXD (ss ++ [buf])
  end.

Lemma is_session_range buf : is_session TO MAXD buf -> Forall (fun p => lo <= p.1 <= hi) buf ->
  lo <= first_ts buf <= hi /\ lo <= last_ts buf <= hi.
Proof.
  intros Hs Hf. destruct buf as [|p buf]; [done|]. split; [by apply Forall_inv in Hf|].
  unfold last_ts. destruct (list.last (p :: buf)) as [q|] eqn:E; [|by apply last_None in E].
  apply (proj1 (list.Forall_forall _ _) Hf). by apply last_Some_elem_of.
Qed.

Lemma session_add_inv wm acc ss core ts t :
  session_core_inv wm acc ss core -> wm <= ts -> lo <= ts <= hi ->
  let '(ems, core') := session_add max_duration timeout ts t core in
  exists ss', ems = emission_of TO <$> ss' /\ session_core_inv wm (acc ++ [(ts, t)]) (ss ++ ss') core'.
Proof.
  destruct core as [[buf start] [l|]]; simpl.
  2: { intros (_ & <- & Hss & -> & Hsep & Hlast) Hwm Hts. exists []. rewrite !app_nil_r. simpl.
       split_and!; try done; [by apply list.Forall_singleton|].
       apply all_separated_snoc; [done|]. intros s0 Hs0. left. apply Hlast in Hs0. simpl. unfold first_ts. simpl. lia. }
  intros (Hr & <- & Hss & Hs & -> & -> & Hsep) Hwm Hts. simpl.
  destruct (is_session_range buf Hs Hr) as [Hf Hl].
  rewrite !saturating_sub_exact by (unfold in_i64, i64_min, i64_max in *; lia).
  rewrite saturating_add_exact by (unfold in_i64, timeout_ms in *; lia).
  destruct (_ || _) eqn:Hcut.
  - exists [buf]. split; [done|]. split_and!; [by apply list.Forall_singleton| | |done|done|done|].
    + rewrite join_app. simpl. by rewrite app_nil_r.
    + apply Forall_app. split; [done|by apply list.Forall_singleton].
    + apply all_separated_snoc; [done|]. intros s0 Hs0. rewrite last_snoc in Hs0. injection Hs0 as <-.
      unfold separated. change (first_ts [(ts, t)]) with ts. apply orb_true_iff in Hcut. lia.
  - exists []. split; [done|]. apply orb_false_iff in Hcut. rewrite app_nil_r.
    assert (Hne : buf <> []) by (by intros ->).
    split_and!; [apply Forall_app; split; [done|by apply list.Forall_singleton]|by rewrite app_assoc|done| | | |].
    + apply is_session_snoc; [done|lia|lia].
    + by rewrite first_ts_snoc.
    + by rewrite last_ts_snoc.
    + apply all_separated_inv in Hsep as [Hsep Hlast]. apply all_separated_snoc; [done|].
      intros s0 Hs0. unfold separated. rewrite first_ts_snoc by done. by apply Hlast.
Qed.

Lemma session_expire_inv wm wm' acc ss core :
  session_core_inv wm acc ss core -> wm <= wm' ->
  let '(ems, core') := session_expire timeout wm' core in
  exists ss', ems = emission_of TO <$> ss' /\ session_core_inv wm' acc (ss ++ ss') core'.
Proof.
  destruct core as [[buf start] [l|]]; simpl.
  2: { intros (Hr & Hj & Hss & -> & Hsep & Hlast) Hwm. exists []. rewrite !app_nil_r in *. split; [done|].
       split_and!; [done|done|done|done|done|]. intros s0 Hs0. apply Hlast in Hs0. lia. }
  intros (Hr & <- & Hss & Hs & -> & -> & Hsep) Hwm. simpl.
  destruct (is_session_range buf Hs Hr) as [Hf Hl].
  rewrite saturating_add_exact by (unfold in_i64, timeout_ms in *; lia).
  destruct (Z.leb_spec (last_ts buf + TO) wm') as [Hle|Hgt].
  - exists [buf]. split; [done|]. split_and!; [done| | |done|done|].
    + rewrite join_app. simpl. by rewrite !app_nil_r.
    + apply Forall_app. split; [done|by apply list.Forall_singleton].
    + intros s0 Hs0. rewrite last_snoc in Hs0. by injection Hs0 as <-.
  - exists []. rewrite (app_nil_r ss). done.
Qed.

Definition session_inv (acc : list (Z * TaggedRow)) (ems : list Emission) (s : SessionState) : Prop :=
  exists ss, ems = emission_of TO <$> ss /\
    session_core_inv (watermark (ss_wm s)) acc ss (session_buffer s, session_start s, last_event_ts s).

Lemma session_step acc ems s joined clk t st :
  session_inv acc ems s -> lo <= event_ts c clk t <= hi ->
  watermark (ss_wm s) <= event_ts c clk t ->
  let new := if window_ingest_passes (stmt c) (tdata t) then [(event_ts c clk t, t)] else [] in
  exists ems' s', ingest_session c max_duration timeout joined clk t st s = Some (ems', st, s') /\
    session_inv (acc ++ new) (ems ++ ems') s' /\
    ss_wm s' = advance_on c t (event_ts c clk t) (ss_wm s).
Proof.
  intros (ss & -> & Hinv) Hts Hwm new. set (ts := event_ts c clk t) in *.
  unfold ingest_session. rewrite Het. fold ts. rewrite (proj2 (Z.ltb_ge _ _) Hwm).
  set (core := (session_buffer s, session_start s, last_event_ts s)) in *.
  assert (Hadd : exists ss1 core1,
    (if window_ingest_passes (stmt c) (tdata t) then session_add max_duration timeout ts t core else ([], core))
      = (emission_of TO <$> ss1, core1) /\
    session_core_inv (watermark (ss_wm s)) (acc ++ new) (ss ++ ss1) core1).
  { subst new. destruct (window_ingest_passes _ _).
    - pose proof (session_add_inv _ _ _ core ts t Hinv Hwm Hts) as Ha.
      destruct (session_add _ _ _ _ _) as [ems1 core1]. destruct Ha as (ss1 & -> & Ha). by exists ss1, core1.
    - exists [], core. rewrite !app_nil_r. done. }
  destruct Hadd as (ss1 & core1 & -> & Hinv1).
  pose proof (wm_advance_mono (input_streams c) (late_tolerance_ms (event_time c)) (source t) ts (ss_wm s)) as Hmono.
  change (wm_advance _ _ _ _ _) with (advance_on c t ts (ss_wm s)) in Hmono.
  pose proof (session_expire_inv _ _ _ _ core1 Hinv1 Hmono) as He.
  destruct (session_expire _ _ core1) as [ems2 [[buf start] last]]. destruct He as (ss2 & -> & He).
  eexists _, _. split; [done|]. split; [|done]. exists (ss ++ ss1 ++ ss2). split.
  - by rewrite !fmap_app.
  - by rewrite app_assoc.
Qed.
End session_facts.

Section session_run_facts.
Context `{Evaluator} `{Text} `{Incremental} (c : RuleCtx) (max_duration timeout : Z) (lo hi : Z).
Context (Het : enabled (event_time c) = true) (Htol : 0 <= late_tolerance_ms (event_time c))
  (Hlo : i64_min <= lo <= hi) (Hhi : hi + timeout_ms timeout <= i64_max) (Hspan : hi - lo <= i64_max).

Lemma session_run_inv ins st acc ems s :
  Forall (ts_within c lo hi) ins -> session_inv max_duration timeout lo hi acc ems s ->
  exists ems' s', window_run (session_runner c max_duration timeout) ins st s = Some (ems', st, s') /\
    let '(acc', wm) := accept_run c ins (ss_wm s) in
    session_inv max_duration timeout lo hi (acc ++ acc') (ems ++ ems') s' /\ ss_wm s' = wm.
Proof.
  intros Hins. revert acc ems s. induction Hins as [|i ins Hi Hins IH]; intros acc ems s Hinv.
  { exists [], s. simpl. by rewrite !app_nil_r. }
  destruct i as [joined clk t|]; cbn [window_run accept_run].
  - simpl in Hi. destruct (Z.ltb_spec (event_ts c clk t) (watermark (ss_wm s))) as [Hlate|Hok].
    + cbn [ingest session_runner]. unfold ingest_session at 1. rewrite Het.
      rewrite (proj2 (Z.ltb_lt _ _) Hlate). cbn [mbind option_bind].
      destruct (IH acc ems s Hinv) as (ems' & s' & -> & Hrest). by exists ems', s'.
    + edestruct (session_step c max_duration timeout lo hi) with (joined := joined) (clk := clk) (t := t)
        (st := st) (s := s) as (e1 & s1 & Heq & Hinv1 & Hwm1); try done.
      cbn [ingest session_runner]. rewrite Heq. cbn [mbind option_bind].
      destruct (IH _ _ s1 Hinv1) as (e2 & s2 & -> & Hrest). cbn [mbind option_bind].
      exists (e1 ++ e2), s2. split; [done|]. rewrite Hwm1 in Hrest.
      destruct (accept_run c ins _) as [acc' wm]. by rewrite !app_assoc in *.
  - apply (IH acc ems (mkSession _ _ _ _ _ _ _ _)). done.
Qed.
End session_run_facts.

(** C10. Event-time session windows segment the accepted rows.  The emissions during
    the run and at its end are, in order, sessions whose concatenation is exactly the
    accepted rows in arrival order (none lost, none repeated); in each session every
    row is at most the timeout after the previous one and less than the maximal
    duration after the first; its bounds are its first timestamp and the timeout
    after its last; and two consecutive sessions are separated by a gap of at least
    the timeout or by the maximal duration. *)
Theorem session_event_time_segments `{Evaluator} `{Text} `{Incremental} (c : RuleCtx)
    (max_duration timeout : Z) (lo hi start : Z) (ins : list WInput) (st : rule_state) :
  let to := timeout_ms timeout in
  let maxd := max_duration_ms max_duration in
  enabled (event_time c) = true -> 0 <= late_tolerance_ms (event_time c) ->
  i64_min <= lo <= hi -> hi + to <= i64_max -> hi - lo <= i64_max ->
  Forall (ts_within c lo hi) ins ->
  exists ems s sessions,
    window_run (session_runner c max_duration timeout) ins st (session_init c timeout start)
      = Some (ems, st, s) /\
    ems ++ on_end (session_runner c max_duration timeout) s = emission_of to <$> sessions /\
    mjoin sessions = accepted c ins /\
    Forall (is_session to maxd) sessions /\ all_separated to maxd sessions.
Proof.
  intros to maxd Het Htol Hlo Hhi Hspan Hins.
  edestruct (session_run_inv c max_duration timeout lo hi Het Hlo Hhi Hspan ins st [] [] (session_init c timeout start))
    as (ems & s & Hrun & Hres); [done| |].
  { exists []. split; [done|]. simpl. split_and!; try done. }
  unfold accepted. change (ss_wm (session_init c timeout start)) with wm_init in Hres.
  destruct (accept_run c ins wm_init) as [acc wm]. destruct Hres as [(ss & Hems & Hinv) _]. simpl in Hems, Hinv |- *.
  destruct Hinv as (Hr & Hj & Hss & Hlast).
  destruct (last_event_ts s) as [l|] eqn:Hl.
  - destruct Hlast as (Hs & Hst & -> & Hsep). exists ems, s, (ss ++ [session_buffer s]).
    split_and!; [done| |rewrite join_app; simpl; by rewrite app_nil_r| |done].
    + unfold session_end. rewrite Het, Hl, Hst, bool_decide_false by (intros E; by rewrite E in Hs).
      destruct (is_session_range max_duration timeout lo hi (session_buffer s) Hs Hr) as [_ Hrange].
      rewrite fmap_app, Hems. f_equal. simpl. unfold session_batch, emission_of.
      rewrite saturating_add_exact; [done|]. subst to. unfold in_i64, timeout_ms in *. lia.
    + apply Forall_app. split; [done|by apply list.Forall_singleton].
  - destruct Hlast as (Hb & Hsep & _). rewrite Hb in *.
    exists ems, s, ss. unfold session_end. rewrite Hb, Het. simpl. by rewrite !app_nil_r in *.
Qed.

Import Windows.Sample.

Lemma session_event_time_segments_witness :
  let ins := rows_at [100; 103; 101; 130; 160; 161; 120; 172; 183; 190; 195] in
  exists ems s sessions,
    window_run (session_runner (ctx 5) (from_millis 30) (from_millis 15)) ins ∅
      (session_init (ctx 5) (from_millis 15) 0) = Some (ems, ∅, s) /\
    ems ++ on_end (session_runner (ctx 5) (from_millis 30) (from_millis 15)) s
      = emission_of 15 <$> sessions /\
    mjoin sessions = accepted (ctx 5) ins /\
    Forall (is_session 15 30) sessions /\ all_separated 15 30 sessions.
Proof.
  apply (session_event_time_segments (ctx 5) (from_millis 30) (from_millis 15) 0 200);
    [by vm_compute|by vm_compute|by vm_compute|by vm_compute|by vm_compute|].
  apply (bool_decide_unpack _). by vm_compute.
Defined.
