(* ===== verification/StateWindow.v ===== *)
(** * State windows ([run_state_window_rule] of [engine/windows.rs])

    The runner keeps one automaton per partition in a shared map.  Each partition
    behaves as the automaton of its own rows, whatever the interleaving. *)

From S2P Require Import Prelude Rust Json Counters Dlq Ast Engine Windows.

Set Default Goal Selector "!".

Record StateWindowState := mkStateWindow {
  on_begin : bool;
  start_time : Z;
  sw_buffer : list TaggedRow;
}.

Definition state_window_idle : StateWindowState := mkStateWindow false 0 [].

Section state.
Context `{Evaluator} `{Text} (c : RuleCtx) (start_condition : Expr) (end_condition : option Expr).

Definition partition_key (t : TaggedRow) : string :=
  match window_partition_by (stmt c) with
  | Some p_expr => value_to_string (eval_val p_expr (tdata t))
  | None => ""
  end.

Definition state_batch (start_ms end_ms : Z) (rows : list TaggedRow) : Emission :=
  EmitBatch (mkBatch rows true (Some (start_ms, end_ms))).

(** One partition's automaton on one row stamped [ts]. *)
Definition state_step (ts : Z) (t : TaggedRow) (st : rule_state) (s : StateWindowState)
    : list Emission * rule_state * StateWindowState :=
  match end_condition with
  | Some end_cond =>
      if negb (on_begin s) then
        let '(b, st) := eval_bool_stateful start_condition (tdata t) st in
        if b then ([], st, mkStateWindow true ts (sw_buffer s ++ [t])) else ([], st, s)
      else
        let s := mkStateWindow (on_begin s) (start_time s) (sw_buffer s ++ [t]) in
        let '(b, st) := eval_bool_stateful end_cond (tdata t) st in
        if b then
          ([state_batch (start_time s) ts (sw_buffer s)], st, mkStateWindow false (start_time s) [])
        else ([], st, s)
  | None =>
      let '(b, st) := eval_bool_stateful start_condition (tdata t) st in
      if negb (on_begin s) then
        if b then ([], st, mkStateWindow true ts (sw_buffer s ++ [t])) else ([], st, s)
      else if b then
        ([state_batch (start_time s) ts (sw_buffer s)], st, mkStateWindow true ts [t])
      else ([], st, mkStateWindow (on_begin s) (start_time s) (sw_buffer s ++ [t]))
  end.

Definition ingest_state (joined : bool) (clk : Clock) (t : TaggedRow) (st : rule_state)
    (partitions : gmap string StateWindowState)
    : option (list Emission * rule_state * gmap string StateWindowState) :=
  if negb (window_ingest_passes (stmt c) (tdata t)) then Some ([], st, partitions)
  else
    let ts := if enabled (event_time c) then event_ts c clk t else now_ms clk in
    let key := partition_key t in
    let s := default state_window_idle (partitions !! key) in
    let '(ems, st, s) := state_step ts t st s in
    Some (ems, st, <[key := s]> partitions).

Definition state_runner : Runner := {|
  wstate := gmap string StateWindowState;
  timer := Empty_set;
  ingest := ingest_state;
  on_join_closed s := s;
  timer_enabled _ _ _ := false;
  on_timer _ _ _ s := ([], s);
  on_end _ := [];
|}.
End state.

(** ** The specification: the windows of one partition

    [segmented rows ws open]: the rows seen so far, the closed windows and the open
    one.  With an end condition a window runs from a row that satisfies the start
    condition to the next one that satisfies the end condition; without, it runs
    until the start condition holds again. *)
Section spec.
Context (starts : row -> bool) (ends : option (row -> bool)).

Inductive segmented : list TaggedRow -> list (list TaggedRow) -> list TaggedRow -> Prop :=
  | seg_nil : segmented [] [] []
  | seg_skip rows ws t :
      segmented rows ws [] -> starts (tdata t) = false -> segmented (rows ++ [t]) ws []
  | seg_open rows ws t :
      segmented rows ws [] -> starts (tdata t) = true -> segmented (rows ++ [t]) ws [t]
  | seg_extend rows ws op t :
      segmented rows ws op -> op <> [] -> default starts ends (tdata t) = false ->
      segmented (rows ++ [t]) ws (op ++ [t])
  | seg_close rows ws op t e :
      segmented rows ws op -> op <> [] -> ends = Some e -> e (tdata t) = true ->
      segmented (rows ++ [t]) (ws ++ [op ++ [t]]) []
  | seg_restart rows ws op t :
      segmented rows ws op -> op <> [] -> ends = None -> starts (tdata t) = true ->
      segmented (rows ++ [t]) (ws ++ [op]) [t].

(** A closed window starts with a start row; with an end condition it ends with the
    first end row after it, without one it holds no other start row. *)
Definition window_shape (w : list TaggedRow) : Prop :=
  match ends with
  | Some e => exists a mid b, w = a :: mid ++ [b] /\ starts (tdata a) = true /\
      Forall (fun t => e (tdata t) = false) mid /\ e (tdata b) = true
  | None => exists a rest, w = a :: rest /\ starts (tdata a) = true /\
      Forall (fun t => starts (tdata t) = false) rest
  end.

Definition open_shape (op : list TaggedRow) : Prop :=
  op = [] \/ exists a mid, op = a :: mid /\ starts (tdata a) = true /\
    Forall (fun t => default starts ends (tdata t) = false) mid.

Lemma segmented_shape rows ws op : segmented rows ws op -> Forall window_shape ws /\ open_shape op.
Proof.
  induction 1 as [|rows ws t _ [IH1 IH2] Ht|rows ws t _ [IH1 IH2] Ht|rows ws op t _ [IH1 IH2] Hne Ht
                  |rows ws op t e _ [IH1 IH2] Hne He Ht|rows ws op t _ [IH1 IH2] Hne He Ht].
  - split; [constructor|by left].
  - split; [done|by left].
  - split; [done|]. right. exists t, []. done.
  - split; [done|]. right. destruct IH2 as [?|(a & mid & -> & Ha & Hmid)]; [done|].
    exists a, (mid ++ [t]). split_and!; [done|done|]. apply Forall_app. split; [done|by apply list.Forall_singleton].
  - split; [|by left]. apply Forall_app. split; [done|]. apply list.Forall_singleton.
    destruct IH2 as [?|(a & mid & -> & Ha & Hmid)]; [done|].
    unfold window_shape. rewrite He in *. simpl in Hmid. by exists a, mid, t.
  - split; [|right; by exists t, []]. apply Forall_app. split; [done|]. apply list.Forall_singleton.
    destruct IH2 as [?|(a & mid & -> & Ha & Hmid)]; [done|].
    unfold window_shape. rewrite He in *. simpl in Hmid. by exists a, mid.
Qed.

Lemma segmented_sublist rows ws op : segmented rows ws op -> sublist (mjoin ws ++ op) rows.
Proof.
  induction 1 as [|rows ws t _ IH Ht|rows ws t _ IH Ht|rows ws op t _ IH Hne Ht
                  |rows ws op t e _ IH Hne He Ht|rows ws op t _ IH Hne He Ht].
  - done.
  - by apply sublist_inserts_r.
  - rewrite app_nil_r in IH. by apply sublist_app.
  - rewrite app_assoc. by apply sublist_app.
  - rewrite join_app. simpl. rewrite !app_nil_r, app_assoc. by apply sublist_app.
  - rewrite join_app. simpl. rewrite app_nil_r. by apply sublist_app.
Qed.
End spec.

Section state_facts.
Context `{Evaluator} `{Text} (c : RuleCtx) (start_condition : Expr) (end_condition : option Expr).
Context (starts : row -> bool) (ends : option (row -> bool)).

(** The conditions hold no stateful function: they read the row only. *)
Definition pure_conditions : Prop :=
  (forall d st, eval_bool_stateful start_condition d st = (starts d, st)) /\
  match end_condition, ends with
  | Some ec, Some e => forall d st, eval_bool_stateful ec d st = (e d, st)
  | None, None => True
  | _, _ => False
  end.

Definition rows_of (k : string) (ins : list WInput) : list TaggedRow :=
  filter (fun t => partition_key c t = k) (passed c ins).

Definition head_key (rows : list TaggedRow) : option string := partition_key c <$> list.head rows.

Definition windows_of (k : string) (ems : list Emission) : list (list TaggedRow) :=
  filter (fun rows => head_key rows = Some k) (emission_rows <$> ems).

Definition open_of (k : string) (parts : gmap string StateWindowState) : list TaggedRow :=
  sw_buffer (default state_window_idle (parts !! k)).

Definition partition_ok (s : StateWindowState) : Prop := on_begin s = negb (bool_decide (sw_buffer s = [])).

Lemma state_step_segmented ts t st s rows ws :
  pure_conditions -> partition_ok s -> segmented starts ends rows ws (sw_buffer s) ->
  exists ems s', state_step start_condition end_condition ts t st s = (ems, st, s') /\
    partition_ok s' /\
    segmented starts ends (rows ++ [t]) (ws ++ (emission_rows <$> ems)) (sw_buffer s') /\
    (ems = [] \/ exists a b, ems = [state_batch a b (sw_buffer s)] \/ ems = [state_batch a b (sw_buffer s ++ [t])]) /\
    (ems <> [] -> sw_buffer s <> []) /\ Forall (fun x => x = t \/ x ∈ sw_buffer s) (sw_buffer s').
Proof.
  intros [Hs He] Hok Hseg. unfold state_step. unfold partition_ok in *.
  assert (Hself : forall l : list TaggedRow, Forall (fun x => x = t \/ x ∈ l) l)
    by (intros l; apply list.Forall_forall; auto).
  assert (Hsnoc : forall l : list TaggedRow, Forall (fun x => x = t \/ x ∈ l) (l ++ [t]))
    by (intros l; apply Forall_app; split; [apply Hself|apply list.Forall_singleton; by left]).
  assert (Hne1 : forall l : list TaggedRow, bool_decide (l ++ [t] = []) = false)
    by (intros l; apply bool_decide_false; by destruct l).
  destruct end_condition as [ec|], ends as [e|] eqn:Eends; try done;
    rewrite ?Hok; destruct (bool_decide_reflect (sw_buffer s = [])) as [Hnil|Hne]; simpl; rewrite ?Hs, ?He.
  - rewrite Hnil in *. destruct (starts (tdata t)) eqn:Hst; eexists _, _; (split; [done|]); simpl; rewrite ?app_nil_r.
    + split_and!; [done|by apply seg_open|by left|done|by apply list.Forall_singleton; left].
    + rewrite Hnil. split_and!; [by rewrite Hok|by apply seg_skip|by left|done|constructor].
  - destruct (e (tdata t)) eqn:Het; eexists _, _; (split; [done|]); simpl; rewrite ?app_nil_r.
    + split_and!; [done|by eapply seg_close|right; by eexists _, _; right|done|constructor].
    + split_and!; [by rewrite Hne1|by apply seg_extend|by left|done|apply Hsnoc].
  - rewrite Hnil in *. destruct (starts (tdata t)) eqn:Hst; eexists _, _; (split; [done|]); simpl; rewrite ?app_nil_r.
    + split_and!; [done|by apply seg_open|by left|done|by apply list.Forall_singleton; left].
    + rewrite Hnil. split_and!; [by rewrite Hok|by apply seg_skip|by left|done|constructor].
  - destruct (starts (tdata t)) eqn:Hst; eexists _, _; (split; [done|]); simpl; rewrite ?app_nil_r.
    + split_and!; [done|by apply seg_restart|right; by eexists _, _; left|done|by apply list.Forall_singleton; left].
    + split_and!; [by rewrite Hne1|by apply seg_extend|by left|done|apply Hsnoc].
Qed.

Definition state_inv (ins : list WInput) (ems : list Emission) (parts : gmap string StateWindowState) : Prop :=
  forall k, let s := default state_window_idle (parts !! k) in
    partition_ok s /\ Forall (fun t => partition_key c t = k) (sw_buffer s) /\
    segmented starts ends (rows_of k ins) (windows_of k ems) (sw_buffer s).

Lemma head_key_batch l t ems a b (k := partition_key c t) :
  (ems = [] \/ ems = [state_batch a b l] \/ ems = [state_batch a b (l ++ [t])]) ->
  (ems <> [] -> l <> []) -> Forall (fun x => partition_key c x = k) l ->
  forall k', windows_of k' ems = if decide (k' = k) then emission_rows <$> ems else [].
Proof.
  intros Hems Hne Hl k'. unfold windows_of.
  destruct Hems as [-> | Hems]; [by destruct (decide _)|].
  destruct l as [|x l]; [destruct Hems as [-> | ->]; by destruct Hne|].
  apply Forall_inv in Hl. simpl in Hl.
  destruct Hems as [-> | ->]; cbn [fmap list_fmap emission_rows state_batch brows];
    destruct (decide (k' = k)) as [->|Hk];
    first [rewrite list.filter_cons_True by (unfold head_key; simpl; congruence)
          |rewrite list.filter_cons_False by (unfold head_key; simpl; congruence)]; done.
Qed.

Lemma state_inv_step ins ems parts joined clk t st :
  pure_conditions -> state_inv ins ems parts ->
  exists ems' parts', ingest_state c start_condition end_condition joined clk t st parts = Some (ems', st, parts') /\
    state_inv (ins ++ [WRow joined clk t]) (ems ++ ems') parts'.
Proof.
  intros Hpure Hinv. unfold ingest_state.
  destruct (window_ingest_passes _ _) eqn:Hpass; cbn [negb].
  2: { exists [], parts. split; [done|]. intros k. unfold rows_of. rewrite passed_snoc, Hpass, !app_nil_r. apply Hinv. }
  set (k0 := partition_key c t). set (ts := if enabled _ then _ else _).
  destruct (Hinv k0) as (Hok & Hkeys & Hseg).
  destruct (state_step_segmented ts t st _ _ _ Hpure Hok Hseg) as (ems' & s' & -> & Hok' & Hseg' & Hems & Hne & Hbuf).
  exists ems', (<[k0 := s']> parts). split; [done|].
  assert (Hwin : forall k', windows_of k' ems' = if decide (k' = k0) then emission_rows <$> ems' else []).
  { destruct Hems as [-> | (a & b & Hems)].
    - apply (head_key_batch [] t [] 0 0); [by left|done|constructor].
    - eapply head_key_batch; [right; exact Hems|done|exact Hkeys]. }
  intros k. unfold rows_of, windows_of. rewrite passed_snoc, Hpass, list.filter_app, fmap_app, list.filter_app.
  change (filter _ (emission_rows <$> ems')) with (windows_of k ems'). rewrite Hwin.
  destruct (decide (k = k0)) as [->|Hk].
  - rewrite lookup_insert_eq. simpl. rewrite list.filter_cons_True, list.filter_nil by done.
    split_and!; [done| |done].
    eapply list.Forall_impl; [exact Hbuf|]. intros x [-> | Hx]; [done|].
    by apply (proj1 (list.Forall_forall _ _) Hkeys).
  - rewrite lookup_insert_ne by done. rewrite list.filter_cons_False, list.filter_nil, !app_nil_r by (by intros <-).
    apply Hinv.
Qed.
End state_facts.

(** C22. State windows keep their partitions apart.  With conditions that read only
    the row, for every partition key the emitted windows and the open one are those
    the documented automaton forms from that partition's rows alone, whatever rows of
    other partitions are interleaved; so every emitted window starts with a row that
    satisfies the start condition and ends with the first one that satisfies the end
    condition (or, without one, right before the next start row), and a partition's
    rows appear in arrival order, each at most once. *)
Theorem state_window_partitions `{Evaluator} `{Text} (c : RuleCtx) (start_condition : Expr)
    (end_condition : option Expr) (starts : row -> bool) (ends : option (row -> bool))
    (ins : list WInput) (st : rule_state) :
  pure_conditions start_condition end_condition starts ends ->
  exists ems parts,
    window_run (state_runner c start_condition end_condition) ins st ∅ = Some (ems, st, parts) /\
    forall k, segmented starts ends (rows_of c k ins) (windows_of c k ems) (open_of k parts) /\
      Forall (window_shape starts ends) (windows_of c k ems) /\
      sublist (mjoin (windows_of c k ems) ++ open_of k parts) (rows_of c k ins).
Proof.
  intros Hpure.
  destruct (window_run_inv (state_runner c start_condition end_condition) (fun _ => True)
    (fun h ems st' parts => st' = st /\ state_inv c starts ends h ems parts)) with (ins := ins) (st := st)
    (w := ∅ : gmap string StateWindowState) as (ems & st' & parts & Hrun & -> & Hinv).
  - intros h ems st' w joined clk t [-> HI] _.
    destruct (state_inv_step c start_condition end_condition starts ends h ems w joined clk t st Hpure HI)
      as (ems' & parts' & Heq & HI'). by exists ems', st, parts'.
  - intros h ems st' w [-> HI]. split; [done|]. intros k. unfold rows_of. rewrite passed_close. apply HI.
  - by apply Forall_true.
  - split; [done|]. intros k. simpl. rewrite lookup_empty. simpl. split_and!; [done|constructor|constructor].
  - exists ems, parts. split; [done|]. intros k. destruct (Hinv k) as (_ & _ & Hseg).
    split_and!; [done|by eapply segmented_shape|by eapply segmented_sublist].
Qed.

Import Windows.Sample.

Definition sample_state_rows : list WInput :=
  (fun '(k, b, e) => WRow false clk (mkTagged "s" {["k" := VString k; "b" := VBool b; "e" := VBool e]})) <$>
    [("x", true, false); ("y", true, true); ("x", false, false); ("y", false, true); ("x", false, true)].

Definition sample_state_ctx : RuleCtx :=
  mkCtx "r1" (mkSelect [Wildcard] [None] "s" None [] None [] None None None (Some (Identifier "k")) None [] None None)
    false (mkRouter "r1" Dlq true 2 false true) (mkEventTime false 0 None ∅) false [].

Lemma state_window_partitions_witness :
  let starts := holds (Identifier "b") in
  let ends := Some (holds (Identifier "e")) in
  exists ems parts,
    window_run (state_runner sample_state_ctx (Identifier "b") (Some (Identifier "e"))) sample_state_rows ∅ ∅
      = Some (ems, ∅, parts) /\
    forall k, segmented starts ends (rows_of sample_state_ctx k sample_state_rows)
        (windows_of sample_state_ctx k ems) (open_of k parts) /\
      Forall (window_shape starts ends) (windows_of sample_state_ctx k ems) /\
      sublist (mjoin (windows_of sample_state_ctx k ems) ++ open_of k parts)
        (rows_of sample_state_ctx k sample_state_rows).
Proof.
  apply (state_window_partitions sample_state_ctx (Identifier "b") (Some (Identifier "e"))). by split.
Defined.
