(* ===== verification/SlidingWindow.v ===== *)
(** * Sliding windows ([run_sliding_window_rule] of [engine/windows.rs])

    The runner with its triggers, delayed or not, in event and processing time.  In
    event time a row at the front of its stream sees exactly the accepted rows of the
    window that ends with it; a row behind the front may not, since rows are evicted
    relative to the newest row and not to the watermark. *)

From S2P Require Import Prelude Rust Json Counters Dlq Ast Engine Windows.

Set Default Goal Selector "!".

(** [sort_by_key] on the first component: a stable sort, by insertion of each element
    after those not above it. *)
Fixpoint insert_after {A} (x : Z * A) (l : list (Z * A)) : list (Z * A) :=
  match l with
  | [] => [x]
  | y :: r => if y.1 <=? x.1 then y :: insert_after x r else x :: l
  end.

Definition sort_by_key {A} (l : list (Z * A)) : list (Z * A) := foldl (flip insert_after) [] l.

Section sliding.
Context `{Evaluator} `{Text} `{Incremental} (c : RuleCtx) (length : Z) (delay : option Z).

Definition slide_millis : Z := millis_i64 length.
Definition delay_ms : Z := default 0 (millis_i64 <$> delay).

Record SlidingState := mkSliding {
  sl_buffer : list (Z * TaggedRow);
  pending_pt_triggers : list (Z * Z * Z);
  sliding_inc : option sinc;
  sl_et_buffer : list (Z * TaggedRow);
  pending_triggers : list (Z * Z);
  sl_wm : Watermark;
}.

Definition sliding_init : SlidingState :=
  mkSliding [] []
    (if negb (enabled (event_time c)) && bool_decide (window_trigger_condition (stmt c) = None) &&
        bool_decide (delay = None)
     then sinc_try_new (stmt c) else None)
    [] [] wm_init.

Definition should_trigger (d : row) : bool :=
  match window_trigger_condition (stmt c) with
  | Some cond => eval_bool cond d
  | None => true
  end.

Definition slide_batch (lo hi : Z) (buf : list (Z * TaggedRow)) : Emission :=
  EmitBatch (mkBatch (filter (fun p => p.1 >= lo /\ p.1 <= hi) buf).*2 true (Some (lo, hi))).

(** Delayed triggers whose deadline the watermark has passed, oldest deadline first. *)
Fixpoint fire_pending (wm : Z) (buf : list (Z * TaggedRow)) (pending : list (Z * Z))
    : list Emission * list (Z * Z) :=
  match pending with
  | [] => ([], [])
  | (trigger_ts, deadline) :: rest =>
      if deadline <=? wm then
        let '(ems, later) := fire_pending wm buf rest in
        (slide_batch (saturating_sub trigger_ts slide_millis) wm buf :: ems, later)
      else ([], pending)
  end.

(** [pending_triggers] sorted by deadline, its second component. *)
Definition sort_pending (l : list (Z * Z)) : list (Z * Z) :=
  (fun p => (p.2, p.1)) <$> sort_by_key ((fun p => (p.2, p.1)) <$> l).

Definition slide_event (ts : Z) (t : TaggedRow) (s : SlidingState) : list Emission * SlidingState :=
  let wm := advance_on c t ts (sl_wm s) in
  let buf := sort_by_key (sl_et_buffer s ++ [(ts, t)]) in
  let '(ems, pending) :=
    if should_trigger (tdata t) then
      if 0 <? delay_ms then
        ([], sort_pending (pending_triggers s ++ [(ts, saturating_add ts delay_ms)]))
      else ([slide_batch (saturating_sub ts slide_millis) ts buf], pending_triggers s)
    else ([], pending_triggers s) in
  let '(ems', pending) := fire_pending (watermark wm) buf pending in
  let min_pending := default ts (fst <$> list.head pending) in
  let retain_ts := saturating_sub (Z.min min_pending ts) slide_millis in
  (ems ++ ems',
   mkSliding (sl_buffer s) (pending_pt_triggers s) (sliding_inc s)
     (filter (fun p => p.1 >= retain_ts) buf) pending wm).

(** Rows not older than the window before [anchor], an [Instant]. *)
Definition retain_since (anchor : Z) (buf : list (Z * TaggedRow)) : list (Z * TaggedRow) :=
  filter (fun p => Z.max 0 (anchor - p.1) <= length) buf.

Definition pt_anchor (now : Z) (pending : list (Z * Z * Z)) : Z :=
  match pending with (t, _, _) :: _ => t | [] => now end.

Definition slide_processing (clk : Clock) (t : TaggedRow) (s : SlidingState) : list Emission * SlidingState :=
  match sliding_inc s with
  | Some i =>
      let i := sinc_evict_before (saturating_sub (now_ms clk) slide_millis) i in
      let i := (sinc_push (now_ms clk) (tdata t) i).2 in
      let outputs := sinc_snapshot i in
      (if bool_decide (outputs = []) then [] else [EmitOutputs false outputs],
       mkSliding (sl_buffer s) (pending_pt_triggers s) (Some i) (sl_et_buffer s) (pending_triggers s) (sl_wm s))
  | None =>
      let now := instant clk in
      let buf := retain_since (pt_anchor now (pending_pt_triggers s)) (sl_buffer s ++ [(now, t)]) in
      let '(ems, pending) :=
        if should_trigger (tdata t) && negb (bool_decide (buf = [])) then
          match delay with
          | Some d =>
              if negb (d =? 0) then ([], pending_pt_triggers s ++ [(now, now + d, now_ms clk)])
              else ([EmitBatch (mkBatch buf.*2 true
                       (Some (saturating_sub (now_ms clk) slide_millis, now_ms clk)))],
                    pending_pt_triggers s)
          | None =>
              ([EmitBatch (mkBatch buf.*2 true
                  (Some (saturating_sub (now_ms clk) slide_millis, now_ms clk)))],
               pending_pt_triggers s)
          end
        else ([], pending_pt_triggers s) in
      (ems, mkSliding buf pending (sliding_inc s) (sl_et_buffer s) (pending_triggers s) (sl_wm s))
  end.

Definition ingest_slide (joined : bool) (clk : Clock) (t : TaggedRow) (st : rule_state)
    (s : SlidingState) : option (list Emission * rule_state * SlidingState) :=
  if negb (window_ingest_passes (stmt c) (tdata t)) then Some ([], st, s)
  else if enabled (event_time c) then
    let ts := event_ts c clk t in
    if ts <? watermark (sl_wm s) then Some ([], st, s)
    else let '(ems, s) := slide_event ts t s in Some (ems, st, s)
  else let '(ems, s) := slide_processing clk t s in Some (ems, st, s).

(** Rows of a delayed trigger: the window before the trigger, and all rows up to the
    deadline. *)
Definition in_delayed (trigger_inst deadline : Z) (ts : Z) : Prop :=
  if decide (ts <= trigger_inst) then Z.max 0 (trigger_inst - ts) <= length else ts <= deadline.

#[global] Instance in_delayed_dec trigger_inst deadline ts : Decision (in_delayed trigger_inst deadline ts).
Proof. unfold in_delayed. destruct (decide _); apply _. Defined.

Fixpoint fire_pt (running : bool) (clk : Clock) (buf : list (Z * TaggedRow)) (pending : list (Z * Z * Z))
    : list Emission * list (Z * Z * Z) :=
  match pending with
  | [] => ([], [])
  | (trigger_inst, deadline, trigger_ms) :: rest =>
      if instant clk <? deadline then ([], pending)
      else
        let '(ems, later) := fire_pt running clk buf rest in
        let batch := (filter (fun p => in_delayed trigger_inst deadline p.1) buf).*2 in
        (if running && negb (bool_decide (batch = [])) then
           EmitBatch (mkBatch batch true (Some (saturating_sub trigger_ms slide_millis, now_ms clk))) :: ems
         else ems, later)
  end.

Definition slide_deadline (running : bool) (clk : Clock) (s : SlidingState) : list Emission * SlidingState :=
  let '(ems, pending) := fire_pt running clk (sl_buffer s) (pending_pt_triggers s) in
  (ems, mkSliding (retain_since (pt_anchor (instant clk) pending) (sl_buffer s)) pending (sliding_inc s)
          (sl_et_buffer s) (pending_triggers s) (sl_wm s)).

Definition sliding_runner : Runner := {|
  wstate := SlidingState;
  timer := unit;
  ingest := ingest_slide;
  on_join_closed s :=
    mkSliding (sl_buffer s) (pending_pt_triggers s) (sliding_inc s) (sl_et_buffer s) (pending_triggers s)
      (wm_close (join_stream_names c) (sl_wm s));
  timer_enabled _ clk s :=
    match pending_pt_triggers s with
    | (_, deadline, _) :: _ => deadline <=? instant clk
    | [] => false
    end;
  on_timer _ running clk s := slide_deadline running clk s;
  on_end _ := [];
|}.
End sliding.

(** ** Facts: the stable sort *)

Section sort_facts.
Context {A : Type}.
Implicit Types (l : list (Z * A)) (x : Z * A).

Definition key_le (a b : Z * A) : Prop := a.1 <= b.1.

Lemma insert_after_perm x l : insert_after x l ≡ₚ x :: l.
Proof.
  induction l as [|y l IH]; simpl; [done|]. case_match; [|done].
  rewrite IH. apply Permutation_swap.
Qed.

Lemma insert_after_sorted x l : StronglySorted key_le l -> StronglySorted key_le (insert_after x l).
Proof.
  induction 1 as [|y l Hl IH Hy]; simpl; [repeat constructor|].
  destruct (Z.leb_spec y.1 x.1) as [Hle|Hgt].
  - constructor; [done|]. rewrite insert_after_perm. by constructor.
  - constructor; [by constructor|]. constructor; [unfold key_le; lia|].
    eapply list.Forall_impl; [exact Hy|]. unfold key_le. simpl. lia.
Qed.

Lemma insert_after_last x l : Forall (fun y => key_le y x) l -> insert_after x l = l ++ [x].
Proof.
  induction 1 as [|y l Hy Hl IH]; simpl; [done|]. unfold key_le in Hy.
  rewrite (proj2 (Z.leb_le _ _) Hy). by f_equal.
Qed.

Lemma insert_after_first x l : Forall (fun y => x.1 < y.1) l -> insert_after x l = x :: l.
Proof. intros Hl. destruct Hl as [|y l Hy Hl]; simpl; [done|]. by rewrite (proj2 (Z.leb_gt _ _) Hy). Qed.

Lemma sort_by_key_snoc l x : sort_by_key (l ++ [x]) = insert_after x (sort_by_key l).
Proof. unfold sort_by_key. by rewrite foldl_app. Qed.

Lemma sort_by_key_sorted l : StronglySorted key_le (sort_by_key l).
Proof.
  induction l as [|x l IH] using rev_ind; [constructor|].
  rewrite sort_by_key_snoc. by apply insert_after_sorted.
Qed.

Lemma sort_by_key_id l : StronglySorted key_le l -> sort_by_key l = l.
Proof.
  induction l as [|x l IH] using rev_ind; [done|]. intros [Hs Hx]%StronglySorted_snoc.
  by rewrite sort_by_key_snoc, IH, insert_after_last.
Qed.

Lemma filter_insert_after (P : Z * A -> Prop) `{!forall x, Decision (P x)} x l :
  StronglySorted key_le l ->
  filter P (insert_after x l) = if decide (P x) then insert_after x (filter P l) else filter P l.
Proof.
  induction 1 as [|y l Hl IH Hy]; simpl.
  { rewrite list.filter_cons. by destruct (decide (P x)). }
  destruct (Z.leb_spec y.1 x.1) as [Hle|Hgt].
  - rewrite !(list.filter_cons P y), IH. destruct (decide (P y)), (decide (P x)); try done.
    simpl. by rewrite (proj2 (Z.leb_le _ _) Hle).
  - rewrite (list.filter_cons P x). destruct (decide (P x)); [|done].
    symmetry. apply insert_after_first. apply list.Forall_forall. intros z [_ Hz]%list_elem_of_filter.
    apply elem_of_cons in Hz as [->|Hz]; [done|].
    apply (proj1 (list.Forall_forall _ _) Hy) in Hz. unfold key_le in Hz. lia.
Qed.

End sort_facts.

Section sliding_facts.
Context `{Evaluator} `{Text} `{Incremental} (c : RuleCtx) (length : Z) (delay : option Z).
Abbreviation W := (slide_millis length).
Context (Het : enabled (event_time c) = true) (Htol : 0 <= late_tolerance_ms (event_time c))
  (Hdelay : delay_ms delay <= 0).

Definition passing (i : WInput) : Prop :=
  match i with
  | WRow _ _ t => window_ingest_passes (stmt c) (tdata t) = true
  | WJoinClosed => True
  end.

#[global] Instance passing_dec i : Decision (passing i).
Proof. destruct i; simpl; apply _. Defined.

(** A bound [m] of all accepted timestamps: the buffer has every row a window that
    ends at [m] needs, and the watermark is not above it. *)
Definition sliding_inv (acc : list (Z * TaggedRow)) (s : SlidingState) : Prop :=
  StronglySorted key_le (sl_et_buffer s) /\ pending_triggers s = [] /\
  forall m, in_i64 m -> Forall (fun p => p.1 <= m) acc ->
    wm_below m (sl_wm s) /\
    filter (fun p => saturating_sub m W <= p.1) (sl_et_buffer s) =
    filter (fun p => saturating_sub m W <= p.1) (sort_by_key acc).

Lemma slide_event_step acc s ts t :
  sliding_inv acc s ->
  let buf := insert_after (ts, t) (sl_et_buffer s) in
  exists s', slide_event c length delay ts t s =
      (if should_trigger c (tdata t) then [slide_batch (saturating_sub ts W) ts buf] else [], s') /\
    sliding_inv (acc ++ [(ts, t)]) s' /\ sl_wm s' = advance_on c t ts (sl_wm s).
Proof.
  intros (Hs & Hp & Hm) buf. unfold slide_event.
  assert (Hb : sort_by_key (sl_et_buffer s ++ [(ts, t)]) = buf)
    by (subst buf; by rewrite sort_by_key_snoc, sort_by_key_id).
  rewrite Hb, Hp, (proj2 (Z.ltb_ge _ _) Hdelay).
  assert (Hsb : StronglySorted key_le buf) by (by apply insert_after_sorted).
  exists (mkSliding (sl_buffer s) (pending_pt_triggers s) (sliding_inc s)
    (filter (fun p => p.1 >= saturating_sub ts W) buf) [] (advance_on c t ts (sl_wm s))).
  split_and!; [| |done].
  { destruct (should_trigger c (tdata t)); simpl; by rewrite Z.min_id. }
  split_and!; [by apply StronglySorted_filter|done|]. intros m Him [Hacc Hts]%Forall_app.
  apply Forall_inv in Hts. simpl in Hts. destruct (Hm m Him Hacc) as [Hwm Heq].
  simpl. split; [apply wm_advance_below; assumption|].
  rewrite (filter_filter_eq _ _ (fun p => saturating_sub m W <= p.1)).
  2: { intros p. assert (saturating_sub ts W <= saturating_sub m W) by (apply clamp64_mono; lia). lia. }
  subst buf. rewrite sort_by_key_snoc, !filter_insert_after, Heq by (done || apply sort_by_key_sorted). done.
Qed.

Lemma sliding_run_inv ins st acc s :
  sliding_inv acc s ->
  exists ems s', window_run (sliding_runner c length delay) ins st s = Some (ems, st, s') /\
    sliding_inv (acc ++ (accept_run c (filter passing ins) (sl_wm s)).1) s'.
Proof.
  revert acc s. induction ins as [|i ins IH]; intros acc s Hinv.
  { exists [], s. by rewrite app_nil_r. }
  rewrite list.filter_cons. destruct i as [joined clk t|]; cbn [window_run ingest sliding_runner].
  - unfold ingest_slide at 1. destruct (decide (passing _)) as [Hpass|Hpass]; simpl in Hpass.
    2: { apply not_true_is_false in Hpass. rewrite Hpass. cbn [negb mbind option_bind].
         destruct (IH acc s Hinv) as (ems & s' & -> & Hres). by exists ems, s'. }
    rewrite Hpass, Het. cbn [negb accept_run]. rewrite Hpass.
    destruct (event_ts c clk t <? watermark (sl_wm s)) eqn:Hlate.
    + cbn [mbind option_bind]. destruct (IH acc s Hinv) as (ems & s' & -> & Hres). by exists ems, s'.
    + destruct (slide_event_step acc s (event_ts c clk t) t Hinv) as (s1 & -> & Hinv1 & Hwm1).
      cbn [mbind option_bind]. destruct (IH _ s1 Hinv1) as (ems & s' & -> & Hres). rewrite Hwm1 in Hres.
      cbn [mbind option_bind]. eexists _, s'. split; [done|].
      destruct (accept_run c _ _) as [acc' wm]. simpl in *. by rewrite <- app_assoc in Hres.
  - rewrite decide_True by done. apply (IH acc (mkSliding _ _ _ _ _ _)).
    destruct Hinv as (Hs & Hp & Hm). done.
Qed.
End sliding_facts.

(** C32. Event-time sliding windows are exact at the front.  Without a delay, a row
    whose timestamp is not below any accepted one is accepted, and if it triggers, the
    one batch it emits holds exactly the accepted rows of the closed interval from the
    window length before it, in timestamp order with ties in arrival order; whatever
    out-of-order rows came before. *)
Theorem sliding_front_exact `{Evaluator} `{Text} `{Incremental} (c : RuleCtx) (length : Z) (delay : option Z)
    (ins : list WInput) (st : rule_state) (joined : bool) (clk : Clock) (t : TaggedRow) :
  let ts := event_ts c clk t in
  let acc := accepted c (filter (passing c) ins) in
  enabled (event_time c) = true -> 0 <= late_tolerance_ms (event_time c) -> delay_ms delay <= 0 ->
  in_i64 ts -> Forall (fun p => p.1 <= ts) acc -> passing c (WRow joined clk t) ->
  should_trigger c (tdata t) = true ->
  exists ems s s' b,
    window_run (sliding_runner c length delay) ins st (sliding_init c delay) = Some (ems, st, s) /\
    ingest (sliding_runner c length delay) joined clk t st s = Some ([EmitBatch b], st, s') /\
    let start := saturating_sub ts (slide_millis length) in
    window_bounds b = Some (start, ts) /\
    brows b = (filter (fun p => start <= p.1 <= ts) (sort_by_key (acc ++ [(ts, t)]))).*2.
Proof.
  intros ts acc Het Htol Hdelay Hts Hacc Hpass Htrig.
  destruct (sliding_run_inv c length delay Het Htol Hdelay ins st [] (sliding_init c delay)) as (ems & s & Hrun & Hinv).
  { split_and!; [constructor|done|]. intros m Hm _. split; [by apply wm_init_below|done]. }
  change ((accept_run c _ _).1) with acc in Hinv. rewrite app_nil_l in Hinv.
  destruct (slide_event_step c length delay Htol Hdelay acc s ts t Hinv) as (s' & Heq & _ & _).
  destruct Hinv as (Hs & _ & Hm). destruct (Hm ts Hts Hacc) as [[Hwm _] Hbuf].
  exists ems, s, s', (mkBatch (filter (fun p => p.1 >= saturating_sub ts (slide_millis length) /\ p.1 <= ts)
    (insert_after (ts, t) (sl_et_buffer s))).*2 true (Some (saturating_sub ts (slide_millis length), ts))).
  split_and!; [done| |split; [done|]].
  - cbn [ingest sliding_runner]. unfold ingest_slide. simpl in Hpass. rewrite Hpass, Het. cbn [negb].
    fold ts. rewrite (proj2 (Z.ltb_ge _ _) Hwm), Heq, Htrig. done.
  - cbn [brows]. f_equal. rewrite sort_by_key_snoc.
    rewrite (list_filter_iff _ (fun p => saturating_sub ts (slide_millis length) <= p.1 <= ts)) by (intros; lia).
    rewrite !filter_insert_after by (done || apply sort_by_key_sorted).
    replace (filter (fun p => saturating_sub ts (slide_millis length) <= p.1 <= ts) (sl_et_buffer s))
      with (filter (fun p => saturating_sub ts (slide_millis length) <= p.1 <= ts) (sort_by_key acc)); [done|].
    symmetry. eapply filter_stronger; [|exact Hbuf]. simpl. intros p Hp. apply Hp.
Qed.

Import Windows.Sample.

Lemma sliding_front_exact_witness :
  let acc := accepted (ctx 20) (filter (passing (ctx 20)) (rows_at [85; 100; 95])) in
  exists ems s s' b,
    window_run (sliding_runner (ctx 20) (from_millis 10) None) (rows_at [85; 100; 95]) ∅
      (sliding_init (ctx 20) None) = Some (ems, ∅, s) /\
    ingest (sliding_runner (ctx 20) (from_millis 10) None) false clk (at_ts 104) ∅ s
      = Some ([EmitBatch b], ∅, s') /\
    let start := saturating_sub 104 10 in
    window_bounds b = Some (start, 104) /\
    brows b = (filter (fun p => start <= p.1 <= 104) (sort_by_key (acc ++ [(104, at_ts 104)]))).*2.
Proof.
  apply (sliding_front_exact (ctx 20) (from_millis 10) None (rows_at [85; 100; 95]) ∅ false clk (at_ts 104));
    [by vm_compute|by vm_compute|by vm_compute|by vm_compute| |by vm_compute|by vm_compute].
  apply (bool_decide_unpack _). by vm_compute.
Defined.

(** Behind the front, rows within the tolerance can be missing: with a 10 ms
    window and 20 ms of tolerance, the rows at 85, 100 and 95 are all accepted, but
    the window of the third, from 85 to 95, no longer holds the first: the row at 100
    evicted it. *)
Theorem sliding_evicts_within_tolerance :
  let ins := rows_at [85; 100; 95] in
  fst <$> accepted (ctx 20) ins = [85; 100; 95] /\
  exists s, window_run (sliding_runner (ctx 20) (from_millis 10) None) ins ∅ (sliding_init (ctx 20) None)
    = Some ([EmitBatch (mkBatch [at_ts 85] true (Some (75, 85)));
             EmitBatch (mkBatch [at_ts 100] true (Some (90, 100)));
             EmitBatch (mkBatch [at_ts 95] true (Some (85, 95)))], ∅, s).
Proof. split; [by vm_compute|]. eexists. by vm_compute. Qed.
