(* ===== verification/LoopFacts.v ===== *)
(** * The [select!] loop of the window runners: accounting and error handling

    Properties of [loop_run] (Windows.v) that hold for every runner: what is counted,
    what reaches the sink queue, and what an error record does. *)

From S2P Require Import Prelude Rust Json Counters Dlq Ast Engine Windows CountWindow.

Set Default Goal Selector "!".

(** ** Effects on the environment

    [effect n e e']: [n] records counted at the source; every record sent is counted
    as enqueued, whatever the channel answers. *)
Definition effect (n : Z) (e e' : Env) : Prop :=
  source_in (counters (dlq e')) mod 2 ^ 64 = (source_in (counters (dlq e)) + n) mod 2 ^ 64 /\
  exists recs, sent e' = sent e ++ recs /\
    enqueued (counters (dlq e')) mod 2 ^ 64 = (enqueued (counters (dlq e)) + Z.of_nat (length recs)) mod 2 ^ 64.

Lemma effect_refl e : effect 0 e e.
Proof. split; [by rewrite Z.add_0_r|]. exists []. by rewrite app_nil_r, Z.add_0_r. Qed.

Lemma effect_trans n m e1 e2 e3 : effect n e1 e2 -> effect m e2 e3 -> effect (n + m) e1 e3.
Proof.
  intros (Hs1 & r1 & Hr1 & He1) (Hs2 & r2 & Hr2 & He2). split.
  - rewrite Hs2, <- Z.add_mod_idemp_l, Hs1, Z.add_mod_idemp_l by lia. f_equal. lia.
  - exists (r1 ++ r2). split; [by rewrite Hr2, Hr1, app_assoc|].
    rewrite He2, <- Z.add_mod_idemp_l, He1, Z.add_mod_idemp_l by lia. f_equal. rewrite length_app. lia.
Qed.

Lemma effect_trans0 e1 e2 e3 : effect 0 e1 e2 -> effect 0 e2 e3 -> effect 0 e1 e3.
Proof. apply (effect_trans 0 0). Qed.

#[export] Instance effect_preorder : PreOrder (effect 0).
Proof. split; [exact effect_refl|exact effect_trans0]. Qed.

(** An update of counters other than these two. *)
Lemma effect_counters f e :
  (forall c, source_in (f c) = source_in c /\ enqueued (f c) = enqueued c) ->
  effect 0 e (upd_counters f e).
Proof.
  intros Hf. destruct (Hf (counters (dlq e))) as [H1 H2]. unfold effect. simpl. rewrite H1, H2.
  apply effect_refl.
Qed.

Lemma effect_rstate st e : effect 0 e (set_rstate st e).
Proof. unfold effect. simpl. apply effect_refl. Qed.

Lemma enqueue_effect r e : effect 0 e (enqueue_sink_record r e).2.
Proof.
  unfold enqueue_sink_record, effect.
  destruct (sink e 0); simpl; destruct (counters (dlq e)); simpl; rewrite Z.add_0_r; (split; [done|]);
    solve [exists [r]; unfold u64_add; by rewrite Z.mod_mod by lia | exists []; by rewrite Z.add_0_r].
Qed.

Lemma emit_window_outputs_effect now outs e : effect 0 e (emit_window_outputs now outs e).
Proof. unfold emit_window_outputs. repeat case_match; [apply effect_refl|apply enqueue_effect..]. Qed.

Lemma observe_op_effect us e : effect 0 e (upd_counters (observe_op us) e).
Proof. apply effect_counters. by intros []. Qed.

#[export] Hint Resolve effect_refl effect_rstate enqueue_effect emit_window_outputs_effect
  observe_op_effect : rekuiper.

Section emit_effects.
Context `{Evaluator} `{Text} (c : RuleCtx).

Lemma emit_effect s now us em e : effect 0 e (emit s now us em e).
Proof.
  destruct em as [b|timed outs]; simpl.
  - unfold emit_window_batch. destruct (brows b); [apply effect_refl|].
    destruct (match joins s with [] => _ | _ :: _ => _ end) as [outs st].
    eapply effect_trans0; [|apply emit_window_outputs_effect].
    eapply effect_trans0; [apply (effect_rstate st)|apply observe_op_effect].
  - eapply effect_trans0; [|apply emit_window_outputs_effect]. destruct timed; auto with rekuiper.
Qed.

Lemma emit_all_effect s clk i ems e : effect 0 e (emit_all s clk i ems e).
Proof.
  revert i e. induction ems as [|em ems IH]; intros i e; simpl; [apply effect_refl|].
  eapply effect_trans0; [apply emit_effect|apply IH].
Qed.

Lemma route_error_counters r now stage msg raw tuple sink s :
  source_in (counters (route_error r now stage msg raw tuple sink s)) = source_in (counters s) /\
  enqueued (counters (route_error r now stage msg raw tuple sink s)) = enqueued (counters s).
Proof. unfold route_error. destruct (counters s). by case_match. Qed.

Lemma handle_error_record_effect router now rid se d e : effect 0 e (handle_error_record router now rid se d e).2.
Proof.
  unfold handle_error_record. destruct (check_record_error d) as [msg|]; [|apply effect_refl].
  cbn [snd]. unfold handle_runtime_error.
  set (e1 := match router with Some _ => _ | None => _ end).
  assert (He1 : effect 0 e e1).
  { subst e1. destruct router as [r|].
    - unfold effect. cbn [dlq sink sent].
      destruct (route_error_counters r now (default SqlEval (Some CodecDecode)) msg
        (match Some d ≫= (fun d => d !! "__raw_payload__" ≫= as_str) with Some s => Some s | None => map_to_json <$> Some d end)
        (row_to_value <$> Some d) None (dlq e)) as [-> ->].
      apply effect_refl.
    - apply effect_counters. by intros []. }
  destruct se; [|done]. eapply effect_trans0; [exact He1|apply enqueue_effect].
Qed.
End emit_effects.

(** ** The loop *)

Section loop_facts.
Context `{Evaluator} `{Text} (c : RuleCtx) (r : Runner).

(** The event is a record the loop takes while the rule runs. *)
Definition takes_record (running : option string) (ev : Event (timer r)) (l : Loop (wstate r)) : bool :=
  negb (ended l) && is_rule_running running &&
  match ev with FromRecord _ => true | JoinRecord _ => joins_open l | _ => false end.

Fixpoint records_taken (evs : list (option string * Clock * Event (timer r))) (l : Loop (wstate r)) : Z :=
  match evs with
  | [] => 0
  | (running, clk, ev) :: rest =>
      (if takes_record running ev l then 1 else 0) +
      match loop_step c r running clk ev l with Some l' => records_taken rest l' | None => 0 end
  end.

Lemma inc_source_effect e : effect 1 e (upd_counters (inc_source 1) e).
Proof.
  unfold effect. simpl. destruct (counters (dlq e)). simpl. split.
  - unfold u64_add. by rewrite Z.mod_mod by lia.
  - exists []. by rewrite app_nil_r, Z.add_0_r.
Qed.

Lemma receive_effect joined running clk t l l' :
  receive c r joined running clk t l = Some l' ->
  effect (if is_rule_running running then 1 else 0) (env l) (env l').
Proof.
  unfold receive. destruct (is_rule_running running); simpl; [|intros [= <-]; apply effect_refl].
  intros Hrec. pose proof (inc_source_effect (env l)) as H1.
  pose proof (handle_error_record_effect (Some (dlq_router c)) (now_ms clk) (rid c) (send_error c) (tdata t)
    (upd_counters (inc_source 1) (env l))) as H2.
  destruct (handle_error_record _ _ _ _ _ _) as [is_error e]. simpl in H2.
  pose proof (effect_trans _ _ _ _ _ H1 H2) as H3. rewrite Z.add_0_r in H3.
  destruct is_error.
  - injection Hrec as <-. destruct (decide _); [|done]. simpl.
    apply (effect_trans 1 0 _ _ _ H3), emit_all_effect.
  - apply bind_Some in Hrec as ([[ems st] w] & _ & [= <-]). simpl.
    apply (effect_trans 1 0 _ _ _ H3). eapply effect_trans0; [apply effect_rstate|apply emit_all_effect].
Qed.

Lemma loop_step_effect running clk ev l l' :
  loop_step c r running clk ev l = Some l' ->
  effect (if takes_record running ev l then 1 else 0) (env l) (env l').
Proof.
  unfold loop_step, takes_record. destruct (ended l); simpl; [intros [= <-]; apply effect_refl|].
  destruct ev as [d| |t| |tm]; rewrite ?andb_false_r, ?andb_true_r.
  - apply receive_effect.
  - intros [= <-]. apply emit_all_effect.
  - destruct (joins_open l); rewrite ?andb_false_r, ?andb_true_r; [apply receive_effect|].
    intros [= <-]. apply effect_refl.
  - destruct (joins_open l); intros [= <-]; apply effect_refl.
  - destruct (timer_enabled r tm clk (win l)); [|intros [= <-]; apply effect_refl].
    destruct (on_timer r tm _ clk (win l)) as [ems w]. intros [= <-]. apply emit_all_effect.
Qed.
End loop_facts.

(** Every runner accounts for its records.  Over any sequence of events, the
    source counter grows by exactly the records taken while the rule was running and
    the loop alive (error records included), the records handed to the sink are only
    appended, and the enqueued counter grows by exactly their number, whether the channel
    takes them at once, is full for a while or closes. *)
Theorem loop_accounting `{Evaluator} `{Text} (c : RuleCtx) (r : Runner)
    (evs : list (option string * Clock * Event (timer r))) (l l' : Loop (wstate r)) :
  loop_run c r evs l = Some l' -> effect (records_taken c r evs l) (env l) (env l').
Proof.
  revert l. induction evs as [|[[running clk] ev] evs IH]; intros l Hrun; simpl in *.
  { injection Hrun as <-. apply effect_refl. }
  apply bind_Some in Hrun as (l1 & Hstep & Hrun). rewrite Hstep.
  eapply effect_trans; [by eapply loop_step_effect|by apply IH].
Qed.

(** An error record never reaches a window: it leaves the window state as it was,
    and under the [Halt] policy it ends the loop, after which no event changes
    anything. *)
Theorem error_record_bypasses_window `{Evaluator} `{Text} (c : RuleCtx) (r : Runner)
    (running : option string) (clk : Clock) (d : row) (l : Loop (wstate r))
    (evs : list (option string * Clock * Event (timer r))) :
  ended l = false -> is_rule_running running = true -> check_record_error d <> None ->
  exists l', loop_step c r running clk (FromRecord d) l = Some l' /\ win l' = win l /\
    ended l' = bool_decide (on_error (dlq_router c) = Halt) /\
    (on_error (dlq_router c) = Halt -> loop_run c r evs l' = Some l').
Proof.
  intros Hend Hrun Herr. unfold loop_step. rewrite Hend. unfold receive. rewrite Hrun. simpl.
  unfold handle_error_record. destruct (check_record_error d) as [msg|]; [|done].
  assert (Hended : forall l' : Loop (wstate r), ended l' = true -> loop_run c r evs l' = Some l').
  { intros l' Hl'. induction evs as [|[[rn ck] ev] evs IH]; [done|]. simpl. unfold loop_step. by rewrite Hl'. }
  destruct (decide (on_error (dlq_router c) = Halt)) as [Hh|Hh].
  - eexists. split; [done|]. rewrite bool_decide_true by done. split_and!; [done|done|]. intros _. by apply Hended.
  - eexists. split; [done|]. rewrite bool_decide_false by done. done.
Qed.

Import Windows.Sample.

Definition sample_loop : Loop CountState :=
  mkLoop count_init
    (mkEnv (mkDlqState counters_default [] []) (fun _ => Sent) [] ∅) true false.

Definition sample_events : list (option string * Clock * Event Empty_set) :=
  [(Some "running", clk, FromRecord {["ts" := value_of_i64 1]});
   (Some "stopped", clk, FromRecord {["ts" := value_of_i64 2]});
   (Some "running", clk, FromRecord {["error" := VString "bad"]});
   (None, clk, JoinRecord (at_ts 3));
   (None, clk, FromClosed);
   (None, clk, FromRecord {["ts" := value_of_i64 4]})].

Lemma loop_accounting_witness :
  exists l', loop_run (ctx 0) (count_runner (ctx 0) 2 None) sample_events sample_loop = Some l' /\
    effect (records_taken (ctx 0) (count_runner (ctx 0) 2 None) sample_events sample_loop)
      (env sample_loop) (env l') /\
    records_taken (ctx 0) (count_runner (ctx 0) 2 None) sample_events sample_loop = 3 /\
    length (sent (env l')) = 1%nat.
Proof.
  eexists. split; [by vm_compute|]. split; [|by vm_compute].
  apply loop_accounting. by vm_compute.
Defined.

Lemma error_record_bypasses_window_witness :
  let c := mkCtx "r1" select_s false (mkRouter "r1" Halt true 2 false true) (mkEventTime false 0 None ∅) false [] in
  let r := count_runner c 2 None in
  exists l', loop_step c r None clk (FromRecord {["error" := VString "bad"]}) sample_loop = Some l' /\
    win l' = win sample_loop /\ ended l' = true /\
    (on_error (dlq_router c) = Halt -> loop_run c r sample_events l' = Some l').
Proof. apply error_record_bypasses_window; [done|done|by vm_compute]. Defined.
