(* ===== verification/Like.v ===== *)
(** * SQL LIKE ([Evaluator::like_match] of [crates/rekuiper-sql/src/eval.rs])

    The two matchers of the code, the byte loop on ASCII strings and the iterator loop
    on other strings, both greedy with one backtracking point, and their equivalence
    with a reference matcher on tokenised patterns.  A string is its list of chars;
    on ASCII strings the bytes are the chars. *)

From S2P Require Import Prelude Rust.

Set Default Goal Selector "!".

#[local] Arguments Z.eqb : simpl never.

Abbreviation char := Z.
Definition c_backslash : char := 92.
Definition c_underscore : char := 95.
Definition c_percent : char := 37.

Definition is_ascii (s : list char) : bool := forallb (fun c => c <? 128) s.

(** ** The byte loop *)

Record AsciiCursor := mkCursor {
  si : nat;
  pi : nat;
  star_pi : option nat;
  star_si : nat;
}.

(** One turn of [while si < s.len()]: the next cursor, or [None] for [return false]. *)
Definition ascii_step (s p : list char) (k : AsciiCursor) : option AsciiCursor :=
  let advance pi' := Some (mkCursor (S (si k)) pi' (star_pi k) (star_si k)) in
  let backtrack :=
    match star_pi k with
    | Some sp => Some (mkCursor (S (star_si k)) (S sp) (Some sp) (S (star_si k)))
    | None => None
    end in
  match p !! pi k with
  | Some b =>
      if b =? c_backslash then
        if bool_decide (p !! S (pi k) = s !! si k /\ is_Some (p !! S (pi k)))
        then advance (S (S (pi k))) else backtrack
      else if b =? c_underscore then advance (S (pi k))
      else if b =? c_percent then Some (mkCursor (si k) (S (pi k)) (Some (pi k)) (si k))
      else if bool_decide (Some b = s !! si k) then advance (S (pi k))
      else backtrack
  | None => backtrack
  end.

(** [while pi < p.len() && p[pi] == '%'] *)
Fixpoint skip_percent (p : list char) : list char :=
  match p with
  | b :: r => if b =? c_percent then skip_percent r else p
  | [] => []
  end.

Fixpoint ascii_loop (fuel : nat) (s p : list char) (k : AsciiCursor) : option bool :=
  match fuel with
  | O => None
  | S fuel =>
      if (si k <? length s)%nat then
        match ascii_step s p k with
        | Some k => ascii_loop fuel s p k
        | None => Some false
        end
      else Some (bool_decide (skip_percent (drop (pi k) p) = []))
  end.

Definition like_fuel (s p : list char) : nat := S (S (length s) * S (length p)).

Definition like_ascii (s p : list char) : option bool :=
  ascii_loop (like_fuel s p) s p (mkCursor 0 0 None 0).

(** ** The iterator loop: an iterator is the list of the chars it has left *)

Record CharsCursor := mkChars {
  s_it : list char;
  p_it : list char;
  star : option (list char * list char);
}.

(** One turn of the loop on [sc :: s_peek]; [None] for [return false]. *)
Definition chars_step (sc : char) (s_peek : list char) (k : CharsCursor) : option CharsCursor :=
  let backtrack :=
    match star k with
    | Some (sp, _ :: ss) => Some (mkChars ss sp (Some (sp, ss)))
    | _ => None
    end in
  match p_it k with
  | pc :: p_peek =>
      if pc =? c_backslash then
        match p_peek with
        | escaped :: p_peek' =>
            if escaped =? sc then Some (mkChars s_peek p_peek' (star k)) else backtrack
        | [] => if c_backslash =? sc then Some (mkChars s_peek [] (star k)) else backtrack
        end
      else if pc =? c_underscore then Some (mkChars s_peek p_peek (star k))
      else if pc =? c_percent then Some (mkChars (s_it k) p_peek (Some (p_peek, s_it k)))
      else if pc =? sc then Some (mkChars s_peek p_peek (star k))
      else backtrack
  | [] => backtrack
  end.

Fixpoint chars_loop (fuel : nat) (k : CharsCursor) : option bool :=
  match fuel with
  | O => None
  | S fuel =>
      match s_it k with
      | sc :: s_peek =>
          match chars_step sc s_peek k with
          | Some k => chars_loop fuel k
          | None => Some false
          end
      | [] => Some (bool_decide (skip_percent (p_it k) = []))
      end
  end.

Definition like_chars (s p : list char) : option bool :=
  chars_loop (like_fuel s p) (mkChars s p None).

Definition like_match (s p : list char) : option bool :=
  if is_ascii s && is_ascii p then like_ascii s p else like_chars s p.

(** ** The reference: tokens *)

Inductive token := TChar (c : char) | TAny | TStar | TNever.

(** [last_escape]: what a backslash at the end of the pattern stands for. *)
Fixpoint tokens (last_escape : token) (p : list char) : list token :=
  match p with
  | [] => []
  | b :: r =>
      if b =? c_backslash then
        match r with
        | [] => [last_escape]
        | e :: r' => TChar e :: tokens last_escape r'
        end
      else if b =? c_underscore then TAny :: tokens last_escape r
      else if b =? c_percent then TStar :: tokens last_escape r
      else TChar b :: tokens last_escape r
  end.

Fixpoint like_ref (ts : list token) (s : list char) : bool :=
  match ts with
  | [] => bool_decide (s = [])
  | TStar :: ts' =>
      (fix any (s : list char) := like_ref ts' s || match s with [] => false | _ :: r => any r end) s
  | TAny :: ts' => match s with [] => false | _ :: r => like_ref ts' r end
  | TChar c :: ts' => match s with [] => false | x :: r => (c =? x) && like_ref ts' r end
  | TNever :: _ => false
  end.

Lemma like_ref_star ts s :
  like_ref (TStar :: ts) s = like_ref ts s || match s with [] => false | _ :: r => like_ref (TStar :: ts) r end.
Proof. by destruct s. Qed.

Lemma like_ref_star_suffix ts s :
  like_ref (TStar :: ts) s = true <-> exists a b, s = a ++ b /\ like_ref ts b = true.
Proof.
  split.
  - induction s as [|x s IH]; rewrite like_ref_star, orb_true_iff; intros [Hm|Hm]; try done.
    + by exists [], [].
    + by exists [], (x :: s).
    + destruct (IH Hm) as (a & b & -> & Hb). by exists (x :: a), b.
  - intros (a & b & -> & Hb). induction a as [|x a IH]; rewrite like_ref_star, orb_true_iff; [by left|by right].
Qed.

(** Tokens that consume exactly one char. *)
Definition fixed (t : token) : Prop := match t with TStar => False | _ => True end.

Lemma like_ref_fixed f ts s :
  Forall fixed f -> like_ref (f ++ ts) s = true ->
  exists a b, s = a ++ b /\ length a = length f /\ like_ref ts b = true.
Proof.
  intros Hf. revert s. induction Hf as [|t f Ht Hf IH]; intros s Hm; [by exists [], s|].
  simpl in Hm. destruct t as [c| | |]; try done; (destruct s as [|x s]; [done|]).
  - apply andb_true_iff in Hm as [_ Hm]. destruct (IH _ Hm) as (a & b & -> & Hl & Hb).
    exists (x :: a), b. simpl. by rewrite Hl.
  - destruct (IH _ Hm) as (a & b & -> & Hl & Hb). exists (x :: a), b. simpl. by rewrite Hl.
Qed.

(** What a trailing backslash stands for: itself in the iterator loop, nothing in the
    byte loop. *)
Definition last_escape (trail : bool) : token := if trail then TChar c_backslash else TNever.

Lemma like_ref_nil_skip trail p :
  like_ref (tokens (last_escape trail) p) [] = bool_decide (skip_percent p = []).
Proof.
  induction p as [|b p IH]; [done|]. simpl.
  destruct (Z.eqb_spec b c_backslash) as [->|Hb]; [by destruct p as [|e p], trail|].
  destruct (Z.eqb_spec b c_underscore) as [->|Hu]; [done|].
  destruct (Z.eqb_spec b c_percent) as [->|Hp]; [|done].
  rewrite like_ref_star, orb_false_r. apply IH.
Qed.

(** ** Both loops as one machine on iterators *)

Definition gstep (trail : bool) (sc : char) (s_peek : list char) (k : CharsCursor) : option CharsCursor :=
  let backtrack :=
    match star k with
    | Some (sp, _ :: ss) => Some (mkChars ss sp (Some (sp, ss)))
    | _ => None
    end in
  match p_it k with
  | pc :: p_peek =>
      if pc =? c_backslash then
        match p_peek with
        | escaped :: p_peek' =>
            if escaped =? sc then Some (mkChars s_peek p_peek' (star k)) else backtrack
        | [] => if trail && (c_backslash =? sc) then Some (mkChars s_peek [] (star k)) else backtrack
        end
      else if pc =? c_underscore then Some (mkChars s_peek p_peek (star k))
      else if pc =? c_percent then Some (mkChars (s_it k) p_peek (Some (p_peek, s_it k)))
      else if pc =? sc then Some (mkChars s_peek p_peek (star k))
      else backtrack
  | [] => backtrack
  end.

Fixpoint gloop (trail : bool) (fuel : nat) (k : CharsCursor) : option bool :=
  match fuel with
  | O => None
  | S fuel =>
      match s_it k with
      | sc :: s_peek =>
          match gstep trail sc s_peek k with
          | Some k => gloop trail fuel k
          | None => Some false
          end
      | [] => Some (bool_decide (skip_percent (p_it k) = []))
      end
  end.

Lemma chars_loop_gloop fuel k : chars_loop fuel k = gloop true fuel k.
Proof.
  revert k. induction fuel as [|fuel IH]; intros k; [done|]. simpl.
  destruct (s_it k) as [|sc sp]; [done|]. change (chars_step sc sp k) with (gstep true sc sp k).
  destruct (gstep true sc sp k); [apply IH|done].
Qed.

Section machine.
Context (trail : bool).
Abbreviation toks := (tokens (last_escape trail)).

(** The answer [A] in terms of the cursor: match the rest, or match from a later
    position of the last star. *)
Definition like_inv (A : Prop) (k : CharsCursor) : Prop :=
  match star k with
  | None => A <-> like_ref (toks (p_it k)) (s_it k) = true
  | Some (sp, ss) =>
      exists f pre, Forall fixed f /\ toks sp = f ++ toks (p_it k) /\ ss = pre ++ s_it k /\
        length pre = length f /\
        (A <-> like_ref (toks (p_it k)) (s_it k) = true \/
               exists a b, ss = a ++ b /\ a <> [] /\ like_ref (toks sp) b = true)
  end.

(** Consuming one char by one token. *)
Lemma like_inv_consume A sc s_peek p p' st t :
  like_inv A (mkChars (sc :: s_peek) p st) -> toks p = t :: toks p' -> fixed t ->
  like_ref (toks p) (sc :: s_peek) = like_ref (toks p') s_peek ->
  like_inv A (mkChars s_peek p' st).
Proof.
  unfold like_inv. simpl. intros Hinv Ht Hfix Heq. destruct st as [[sp ss]|]; [|by rewrite Heq in Hinv].
  destruct Hinv as (f & pre & Hf & Hsp & -> & Hlen & HA).
  exists (f ++ [t]), (pre ++ [sc]). rewrite !length_app, Hsp, Ht, <- !app_assoc. rewrite Heq, Hsp in HA.
  split_and!; try done; [|simpl; lia|]; [apply Forall_app; split; [done|by apply list.Forall_singleton]|].
  by rewrite Ht in HA.
Qed.

(** A mismatch moves to the next position of the last star. *)
Lemma like_inv_mismatch A k :
  like_inv A k -> like_ref (toks (p_it k)) (s_it k) = false ->
  match match star k with Some (sp, _ :: ss) => Some (mkChars ss sp (Some (sp, ss))) | _ => None end with
  | Some k' => like_inv A k'
  | None => ~ A
  end.
Proof.
  unfold like_inv. intros Hinv Hno. destruct (star k) as [[sp ss]|]; simpl; [|rewrite Hinv; congruence].
  destruct Hinv as (f & pre & Hf & Hsp & Hss & Hlen & HA).
  destruct ss as [|x ss]; simpl.
  - rewrite HA. intros [?|(a & b & Hab & Hne & _)]; [congruence|].
    symmetry in Hab. apply app_nil in Hab as [-> _]. done.
  - exists [], []. split_and!; try done. rewrite HA. split.
    + intros [?|(a & b & Hab & Hne & Hm)]; [congruence|].
      destruct a as [|y a]; [done|]. injection Hab as -> ->.
      destruct a as [|z a]; [by left|]. right. by exists (z :: a), b.
    + intros [Hm|(a & b & -> & _ & Hm)]; right; [by exists [x], ss|by exists (x :: a), b].
Qed.

(** A new star supersedes the old one. *)
Lemma like_inv_star A s p p' st :
  like_inv A (mkChars s p st) -> toks p = TStar :: toks p' -> like_inv A (mkChars s p' (Some (p', s))).
Proof.
  unfold like_inv. simpl. intros Hinv Ht.
  assert (Hcore : like_ref (toks p) s = true <->
    like_ref (toks p') s = true \/ exists a b, s = a ++ b /\ a <> [] /\ like_ref (toks p') b = true).
  { rewrite Ht, like_ref_star_suffix. split.
    - intros ([|x a] & b & -> & Hm); [by left|]. right. by exists (x :: a), b.
    - intros [Hm|(a & b & -> & _ & Hm)]; [by exists [], s|by exists a, b]. }
  exists [], []. split_and!; try done. rewrite <- Hcore.
  destruct st as [[sp ss]|]; [|done].
  destruct Hinv as (f & pre & Hf & Hsp & -> & Hlen & ->). split; [|by left].
  intros [?|(a & b & Hab & Hne & Hm)]; [done|].
  rewrite Hsp, Ht in Hm. apply like_ref_fixed in Hm as (u & v & -> & Hu & Hv); [|done].
  rewrite Ht. apply like_ref_star_suffix in Hv as (w & z & -> & Hz).
  apply like_ref_star_suffix. exists (drop (length pre) (a ++ u ++ w)), z. split; [|done].
  apply (f_equal (drop (length pre))) in Hab. rewrite drop_app_length in Hab. rewrite Hab, !app_assoc.
  rewrite drop_app_le; [by rewrite <- !app_assoc|]. rewrite !length_app. lia.
Qed.

(** At the end of the string no later position of the star can match. *)
Lemma like_inv_end A p st :
  like_inv A (mkChars [] p st) -> (A <-> like_ref (toks p) [] = true).
Proof.
  unfold like_inv. simpl. destruct st as [[sp ss]|]; [|done].
  intros (f & pre & Hf & Hsp & -> & Hlen & ->). split; [|by left].
  intros [?|(a & b & Hab & Hne & Hm)]; [done|]. rewrite Hsp in Hm.
  apply like_ref_fixed in Hm as (u & v & -> & Hu & _); [|done].
  apply (f_equal length) in Hab. rewrite !length_app in Hab. simpl in Hab.
  destruct a; [done|]. simpl in Hab. lia.
Qed.

Lemma gstep_inv A sc s_peek k :
  s_it k = sc :: s_peek -> like_inv A k ->
  match gstep trail sc s_peek k with Some k' => like_inv A k' | None => ~ A end.
Proof.
  destruct k as [s p st]. simpl. intros -> Hinv. unfold gstep. cbn [p_it star s_it].
  pose proof (like_inv_mismatch A _ Hinv) as Hmis. simpl in Hmis.
  destruct p as [|pc p]; [by apply Hmis|].
  simpl in Hmis. destruct (Z.eqb_spec pc c_backslash) as [->|Hb].
  - destruct p as [|e p].
    + destruct trail eqn:Ht; simpl; [|by apply Hmis].
      simpl in Hmis. destruct (Z.eqb_spec c_backslash sc) as [<-|Hne]; [|by apply Hmis].
      eapply (like_inv_consume A _ _ _ _ _ (TChar c_backslash)); [exact Hinv| |exact I|]; simpl; rewrite ?Ht; done.
    + simpl in Hmis. destruct (Z.eqb_spec e sc) as [<-|Hne]; [|by apply Hmis].
      eapply (like_inv_consume A); [exact Hinv|reflexivity|exact I|]. simpl. by rewrite Z.eqb_refl.
  - destruct (Z.eqb_spec pc c_underscore) as [->|Hu].
    { eapply (like_inv_consume A); [exact Hinv|reflexivity|exact I|done]. }
    destruct (Z.eqb_spec pc c_percent) as [->|Hp].
    { by eapply like_inv_star. }
    destruct (Z.eqb_spec pc sc) as [<-|Hne].
    + eapply (like_inv_consume A _ _ _ _ _ (TChar pc)); [exact Hinv| |exact I|]; simpl.
      * by rewrite (proj2 (Z.eqb_neq _ _) Hb), (proj2 (Z.eqb_neq _ _) Hu), (proj2 (Z.eqb_neq _ _) Hp).
      * rewrite (proj2 (Z.eqb_neq _ _) Hb), (proj2 (Z.eqb_neq _ _) Hu), (proj2 (Z.eqb_neq _ _) Hp).
        simpl. by rewrite Z.eqb_refl.
    + apply Hmis. simpl. by rewrite (proj2 (Z.eqb_neq _ _) Hne).
Qed.

(** Every turn decreases the measure, so the fuel is enough. *)
Definition star_left (k : CharsCursor) (n : nat) : nat :=
  match star k with Some (_, ss) => length ss | None => n end.

Definition cursor_ok (n m : nat) (k : CharsCursor) : Prop :=
  (length (s_it k) <= star_left k n)%nat /\ (star_left k n <= n)%nat /\ (length (p_it k) <= m)%nat /\
  match star k with Some (sp, _) => (length sp <= m)%nat | None => True end.

Definition like_measure (n m : nat) (k : CharsCursor) : nat := (star_left k n * S m + length (p_it k))%nat.

Ltac solve_cursor st :=
  destruct st as [[? ?]|]; simpl in *; split_and!; try done; try lia; nia.

Lemma gstep_measure n m sc s_peek k k' :
  s_it k = sc :: s_peek -> cursor_ok n m k -> gstep trail sc s_peek k = Some k' ->
  cursor_ok n m k' /\ (like_measure n m k' < like_measure n m k)%nat.
Proof.
  destruct k as [s p st]. simpl. intros -> (H1 & H2 & H3 & H4). unfold gstep. cbn [p_it star s_it].
  unfold cursor_ok, like_measure, star_left in *. cbn [p_it star s_it length] in *.
  assert (Hback : match st with Some (sp, _ :: ss) => Some (mkChars ss sp (Some (sp, ss))) | _ => None end = Some k' ->
    (length (s_it k') <= match star k' with Some (_, ss) => length ss | None => n end)%nat /\
    (match star k' with Some (_, ss) => length ss | None => n end <= n)%nat /\ (length (p_it k') <= m)%nat /\
    match star k' with Some (sp, _) => (length sp <= m)%nat | None => True end /\
    (match star k' with Some (_, ss) => length ss | None => n end * S m + length (p_it k') <
     match st with Some (_, ss) => length ss | None => n end * S m + length p)%nat).
  { destruct st as [[sp [|x ss]]|]; intros [= <-]. simpl in *. lia. }
  assert (Hres : forall (P Q R S T : Prop), P /\ Q /\ R /\ S /\ T -> (P /\ Q /\ R /\ S) /\ T) by tauto.
  intros Hstep. apply Hres. destruct p as [|pc p]; [by apply Hback|]. cbn [length] in *.
  destruct (pc =? c_backslash).
  { destruct p as [|e p]; cbn [length] in *.
    - destruct (trail && _); [injection Hstep as <-; solve_cursor st|by apply Hback].
    - destruct (e =? sc); [injection Hstep as <-; solve_cursor st|by apply Hback]. }
  destruct (pc =? c_underscore); [injection Hstep as <-; solve_cursor st|].
  destruct (pc =? c_percent).
  { injection Hstep as <-. solve_cursor st. }
  destruct (pc =? sc); [injection Hstep as <-; solve_cursor st|by apply Hback].
Qed.

Lemma gloop_correct A n m fuel k :
  like_inv A k -> cursor_ok n m k -> (like_measure n m k < fuel)%nat ->
  exists b, gloop trail fuel k = Some b /\ (A <-> b = true).
Proof.
  revert k. induction fuel as [|fuel IH]; intros k Hinv Hok Hf; [lia|]. simpl.
  destruct (s_it k) as [|sc s_peek] eqn:Hs.
  - exists (bool_decide (skip_percent (p_it k) = [])). split; [done|].
    rewrite <- (like_ref_nil_skip trail). apply (like_inv_end A _ (star k)).
    destruct k; simpl in *. by subst.
  - pose proof (gstep_inv A sc s_peek k Hs Hinv) as Hstep.
    destruct (gstep trail sc s_peek k) as [k'|] eqn:Hk; [|exists false; split; [done|split; [done|intros [=]]]].
    destruct (gstep_measure n m sc s_peek k k' Hs Hok Hk) as [Hok' Hlt]. apply IH; [done|done|lia].
Qed.

Lemma gloop_start s p :
  exists b, gloop trail (like_fuel s p) (mkChars s p None) = Some b /\ b = like_ref (toks p) s.
Proof.
  destruct (gloop_correct (like_ref (toks p) s = true) (length s) (length p) (like_fuel s p) (mkChars s p None))
    as (b & Hb & HA).
  - done.
  - unfold cursor_ok, star_left. simpl. lia.
  - unfold like_measure, like_fuel, star_left. simpl. nia.
  - exists b. split; [done|]. destruct b, (like_ref _ _); try done; [symmetry; by apply HA|by apply HA].
Qed.
End machine.

(** ** The byte loop simulates the machine *)

Definition cursor_of (s p : list char) (k : AsciiCursor) : CharsCursor :=
  mkChars (drop (si k) s) (drop (pi k) p)
    (match star_pi k with Some sp => Some (drop (S sp) p, drop (star_si k) s) | None => None end).

Lemma drop_lookup {A} (l : list A) i x : l !! i = Some x -> drop i l = x :: drop (S i) l.
Proof. intros H. by rewrite (drop_S _ x). Qed.

Lemma drop_lookup_none {A} (l : list A) i : l !! i = None -> drop i l = [].
Proof. intros H. apply drop_ge. by apply lookup_ge_None. Qed.

Lemma ascii_step_gstep s p k sc :
  (star_si k <= si k)%nat -> s !! si k = Some sc ->
  cursor_of s p <$> ascii_step s p k = gstep false sc (drop (S (si k)) s) (cursor_of s p k) /\
  (forall k', ascii_step s p k = Some k' -> (star_si k' <= si k')%nat).
Proof.
  intros Hle Hsc. unfold ascii_step, gstep, cursor_of. cbn [s_it p_it star].
  assert (Hback : cursor_of s p <$> match star_pi k with
      | Some sp => Some (mkCursor (S (star_si k)) (S sp) (Some sp) (S (star_si k))) | None => None end =
    match match star_pi k with Some sp => Some (drop (S sp) p, drop (star_si k) s) | None => None end with
    | Some (sp, _ :: ss) => Some (mkChars ss sp (Some (sp, ss))) | _ => None end).
  { destruct (star_pi k) as [sp|]; [|done].
    assert (is_Some (s !! star_si k)) as [y Hy].
    { apply lookup_lt_is_Some. apply lookup_lt_Some in Hsc. lia. }
    by rewrite (drop_lookup s _ y Hy). }
  assert (Hback' : forall k', match star_pi k with
      | Some sp => Some (mkCursor (S (star_si k)) (S sp) (Some sp) (S (star_si k))) | None => None end = Some k' ->
      (star_si k' <= si k')%nat) by (intros k'; destruct (star_pi k); intros [= <-]; done).
  unfold cursor_of in Hback.
  destruct (p !! pi k) as [b|] eqn:Hb; [|by rewrite (drop_lookup_none p _ Hb)].
  rewrite (drop_lookup p _ b Hb). destruct (b =? c_backslash).
  { destruct (p !! S (pi k)) as [e|] eqn:He.
    - rewrite (drop_lookup p _ e He), Hsc. destruct (Z.eqb_spec e sc) as [->|Hne].
      + rewrite bool_decide_true by (by split; [|eexists]). split; [done|]. intros k' [= <-]. simpl. lia.
      + rewrite bool_decide_false by (intros [[=] _]; done). done.
    - rewrite (drop_lookup_none p _ He). rewrite bool_decide_false by (by intros [_ [? ?]]). done. }
  destruct (b =? c_underscore); [split; [done|]; intros k' [= <-]; simpl; lia|].
  destruct (b =? c_percent); [split; [done|]; intros k' [= <-]; simpl; lia|].
  rewrite Hsc. destruct (Z.eqb_spec b sc) as [->|Hne].
  - rewrite bool_decide_true by done. split; [done|]. intros k' [= <-]. simpl. lia.
  - rewrite bool_decide_false by (by intros [=]). done.
Qed.

Lemma ascii_loop_gloop fuel s p k :
  (star_si k <= si k)%nat -> ascii_loop fuel s p k = gloop false fuel (cursor_of s p k).
Proof.
  revert k. induction fuel as [|fuel IH]; intros k Hle; [done|]. simpl.
  destruct (Nat.ltb_spec (si k) (length s)) as [Hlt|Hge].
  - destruct (lookup_lt_is_Some_2 s (si k) Hlt) as [sc Hsc]. rewrite (drop_lookup s _ sc Hsc).
    destruct (ascii_step_gstep s p k sc Hle Hsc) as [Hstep Hle']. rewrite <- Hstep.
    destruct (ascii_step s p k) as [k'|]; [|done]. simpl. apply IH. by apply Hle'.
  - by rewrite (drop_ge s).
Qed.

(** C24. LIKE is correct on ASCII strings: the byte loop always returns within its
    fuel, and its answer is that of the reference matcher on the tokenised pattern,
    for every string and pattern; its single backtracking point loses no match. *)
Theorem like_ascii_correct (s p : list char) :
  like_ascii s p = Some (like_ref (tokens TNever p) s).
Proof.
  unfold like_ascii. rewrite ascii_loop_gloop by done.
  destruct (gloop_start false s p) as (b & Hb & ->). exact Hb.
Qed.

(** LIKE is correct on other strings: the iterator loop always returns within its
    fuel, with the answer of the reference matcher, a trailing backslash standing for
    itself. *)
Theorem like_chars_correct (s p : list char) :
  like_chars s p = Some (like_ref (tokens (TChar c_backslash) p) s).
Proof.
  unfold like_chars. rewrite chars_loop_gloop.
  destruct (gloop_start true s p) as (b & Hb & ->). exact Hb.
Qed.

(** The two paths read a trailing backslash differently: the one-char string
    backslash is LIKE the one-char pattern backslash only when an unrelated non-ASCII
    char (here e-acute, on both sides) forces the iterator loop. *)
Theorem like_paths_disagree :
  like_match [92] [92] = Some false /\ like_match [233; 92] [233; 92] = Some true /\
  like_match [233; 97] [233; 97] = Some true /\ like_match [97] [97] = Some true.
Proof. by vm_compute. Qed.
