(* ===== verification/Values.v ===== *)
(** * Operators on JSON values ([crates/rekuiper-sql/src/eval.rs])

    Comparison, arithmetic, bitwise and logical operators, BETWEEN, LIKE, indexing and
    slicing.  Fallible operators return [Ok], [Err] with the message, or [Panic] where
    the Rust operation aborts the task. *)

From Stdlib Require Import SpecFloat.
From S2P Require Import Prelude Rust Json Ast Engine Like.

Set Default Goal Selector "!".

(** ** Results *)

Inductive outcome (A : Type) :=
  | Ok (a : A)
  | Err (msg : string)
  | Panic.
Arguments Ok {A}.
Arguments Err {A}.
Arguments Panic {A}.

#[export] Instance outcome_bind : MBind outcome := fun A B f r =>
  match r with Ok a => f a | Err m => Err m | Panic => Panic end.

(** ** Missing pieces of [f64] and [str] *)

Definition f64_eqb (a b : f64) : bool := SFeqb a b.
Definition f64_opp (a : f64) : f64 := SFopp a.
Definition f64_abs (a : f64) : f64 := SFabs a.

(** [f64 % f64]: exact, with the sign of the dividend. *)
Definition f64_rem (a b : f64) : f64 :=
  match a, b with
  | S754_nan, _ | _, S754_nan | S754_infinity _, _ | _, S754_zero _ => S754_nan
  | S754_zero _, _ | _, S754_infinity _ => a
  | S754_finite sa ma ea, S754_finite _ mb eb =>
      let e := Z.min ea eb in
      let r := (Z.pos ma * 2 ^ (ea - e)) mod (Z.pos mb * 2 ^ (eb - e)) in
      if r =? 0 then S754_zero sa
      else binary_normalize 53 1024 (if sa then - r else r) e sa
  end.

(** [f64::EPSILON] = 2^-52 *)
Definition f64_epsilon : f64 := f64_div (f64_of_Z 1) (f64_of_Z (2 ^ 52)).

(** The chars of a UTF-8 string. *)
Fixpoint utf8_chars (bytes : list Z) : list Z :=
  match bytes with
  | [] => []
  | a :: r =>
      if a <? 128 then a :: utf8_chars r
      else match r with
           | b :: r2 =>
               if a <? 224 then (a - 192) * 64 + (b - 128) :: utf8_chars r2
               else match r2 with
                    | c :: r3 =>
                        if a <? 240 then (a - 224) * 4096 + (b - 128) * 64 + (c - 128) :: utf8_chars r3
                        else match r3 with
                             | d :: r4 =>
                                 (a - 240) * 262144 + (b - 128) * 4096 + (c - 128) * 64 + (d - 128)
                                 :: utf8_chars r4
                             | [] => []
                             end
                    | [] => []
                    end
           | [] => []
           end
  end.

Definition str_chars (s : string) : list Z := utf8_chars (code <$> chars s).

Definition bool_cmp (a b : bool) : comparison :=
  match a, b with
  | false, true => Datatypes.Lt
  | true, false => Datatypes.Gt
  | _, _ => Datatypes.Eq
  end.

(** ** Equality and order *)

(** [Value ==]: structural; floats by value, so that the two zeros are equal. *)
Definition number_eq (a b : number) : bool :=
  match a, b with
  | Float x, Float y => f64_eqb x y
  | _, _ => bool_decide (a = b)
  end.

Fixpoint value_eq (a b : value) : bool :=
  match a, b with
  | VNumber x, VNumber y => number_eq x y
  | VArray x, VArray y =>
      (fix go x y := match x, y with
                     | [], [] => true
                     | u :: x', w :: y' => value_eq u w && go x' y'
                     | _, _ => false
                     end) x y
  | VObject x, VObject y =>
      (fix go x y := match x, y with
                     | [], [] => true
                     | (k, u) :: x', (j, w) :: y' => bool_decide (k = j) && value_eq u w && go x' y'
                     | _, _ => false
                     end) x y
  | _, _ => bool_decide (a = b)
  end.

Definition values_equal (a b : value) : bool :=
  if is_null a || is_null b then false
  else if is_number a && is_number b then
    match as_i64 a, as_i64 b with
    | Some ai, Some bi => ai =? bi
    | _, _ =>
        match as_u64 a, as_u64 b with
        | Some au, Some bu => au =? bu
        | _, _ =>
            match as_f64 a, as_f64 b with
            | Some af, Some bf => f64_eqb af bf
            | _, _ => false
            end
        end
    end
  else value_eq a b.

Definition compare_values (a b : value) : option comparison :=
  if is_number a && is_number b then
    af ← as_f64 a; bf ← as_f64 b; f64_partial_cmp af bf
  else
    match as_str a, as_str b with
    | Some x, Some y => Some (String.compare x y)
    | _, _ =>
        match as_bool a, as_bool b with
        | Some x, Some y => Some (bool_cmp x y)
        | _, _ => None
        end
    end.

Definition is_string (v : value) : bool := match v with VString _ => true | _ => false end.
Definition is_boolean (v : value) : bool := match v with VBool _ => true | _ => false end.

(** ** Operators *)

Definition eval_like (l r : value) : option value :=
  match as_str l, as_str r with
  | Some s, Some p => VBool <$> like_match (str_chars s) (str_chars p)
  | _, _ => Some (VBool false)
  end.

Definition value_of_u64 (u : Z) : value := VNumber (PosInt u).

Definition eval_bitwise (l r : value) (op : BinaryOperator) : value :=
  if is_null l || is_null r then VNull
  else
    match as_bool l, as_bool r with
    | Some lb, Some rb =>
        match op with
        | BitAnd => VBool (lb && rb)
        | BitOr => VBool (lb || rb)
        | BitXor => VBool (xorb lb rb)
        | _ => VNull
        end
    | _, _ =>
        match as_i64 l, as_i64 r with
        | Some li, Some ri =>
            match op with
            | BitAnd => value_of_i64 (Z.land li ri)
            | BitOr => value_of_i64 (Z.lor li ri)
            | BitXor => value_of_i64 (Z.lxor li ri)
            | _ => VNull
            end
        | _, _ =>
            match as_u64 l, as_u64 r with
            | Some lu, Some ru =>
                match op with
                | BitAnd => value_of_u64 (Z.land lu ru)
                | BitOr => value_of_u64 (Z.lor lu ru)
                | BitXor => value_of_u64 (Z.lxor lu ru)
                | _ => VNull
                end
            | _, _ => VNull
            end
        end
    end.

Definition saturating_mul (a b : Z) : Z := clamp64 (a * b).

(** [i64 /] and [i64 %] with a non-zero divisor abort on overflow. *)
Definition i64_div (a b : Z) : outcome Z := if decide (in_i64 (Z.quot a b)) then Ok (Z.quot a b) else Panic.
Definition i64_rem (a b : Z) : outcome Z := if decide (in_i64 (Z.quot a b)) then Ok (Z.rem a b) else Panic.

Inductive ArithOp := AAdd | ASub | AMul | ADiv | AMod.

Definition checked (z : Z) : value := if decide (in_i64 z) then value_of_i64 z else VNull.

Definition eval_arith (l r : value) (op : ArithOp) : outcome value :=
  if is_null l || is_null r then Ok VNull
  else
    match as_i64 l, as_i64 r with
    | Some li, Some ri =>
        match op with
        | AAdd => Ok (checked (li + ri))
        | ASub => Ok (checked (li - ri))
        | AMul => Ok (checked (li * ri))
        | AMod => if ri =? 0 then Ok VNull else v ← i64_rem li ri; Ok (value_of_i64 v)
        | ADiv => if ri =? 0 then Ok VNull else Ok (value_of_f64 (f64_div (f64_of_Z li) (f64_of_Z ri)))
        end
    | _, _ =>
        match as_f64 l, as_f64 r with
        | Some lf, Some rf =>
            match op with
            | AAdd => Ok (value_of_f64 (f64_add lf rf))
            | ASub => Ok (value_of_f64 (f64_sub lf rf))
            | AMul => Ok (value_of_f64 (f64_mul lf rf))
            | ADiv => if f64_eqb rf f64_zero then Ok VNull else Ok (value_of_f64 (f64_div lf rf))
            | AMod => if f64_eqb rf f64_zero then Ok VNull else Ok (value_of_f64 (f64_rem lf rf))
            end
        | _, _ => Ok VNull
        end
    end.

Definition eval_unary_op (op : UnaryOperator) (v : value) : value :=
  match op with
  | Not => match v with VBool b => VBool (negb b) | _ => VNull end
  | Neg =>
      if is_null v then VNull
      else
        match as_i64 v with
        | Some i =>
            if decide (in_i64 (- i)) then value_of_i64 (- i) else value_of_f64 (f64_opp (f64_of_Z i))
        | None =>
            match as_u64 v with
            | Some u =>
                if u <=? i64_max then value_of_i64 (- u) else value_of_f64 (f64_opp (f64_of_Z u))
            | None =>
                match as_f64 v with
                | Some f => value_of_f64 (f64_opp f)
                | None => VNull
                end
            end
        end
  end.

Section fallible.
Context `{Text}.

Definition format_ekuiper_val_type (v : value) : string :=
  match v with
  | VNull => "nil"
  | VBool b => "bool(" +:+ (if b then "true" else "false") +:+ ")"
  | VNumber n =>
      match n with
      | Float _ => "float64(" +:+ value_to_string v +:+ ")"
      | _ => "int64(" +:+ value_to_string v +:+ ")"
      end
  | VString s => "string(" +:+ s +:+ ")"
  | VArray _ => "[]interface {}"
  | VObject _ => "map[string]interface {}"
  end.

Definition invalid (l : value) (op : string) (r : value) : string :=
  "invalid operation " +:+ format_ekuiper_val_type l +:+ " " +:+ op +:+ " " +:+ format_ekuiper_val_type r.

Definition op_token (op : BinaryOperator) : string :=
  match op with
  | Add => "+" | Sub => "-" | Mul => "*" | Div => "/" | Mod => "%"
  | Eq => "=" | Neq => "!=" | Lt => "<" | Lte => "<=" | Gt => ">" | Gte => ">="
  | And => "AND" | Or => "OR" | BitAnd => "&" | BitOr => "|" | BitXor => "^" | Like => "LIKE"
  end.

(** [Add], [Sub], [Mul]: saturating on integers. *)
Definition binary_arith (iop : Z -> Z -> Z) (fop : f64 -> f64 -> f64) (op : BinaryOperator) (l r : value)
    : outcome value :=
  match as_f64 l, as_f64 r with
  | Some lf, Some rf =>
      match as_i64 l, as_i64 r with
      | Some li, Some ri => Ok (value_of_i64 (iop li ri))
      | _, _ => Ok (value_of_f64 (fop lf rf))
      end
  | _, _ => Err (invalid l (op_token op) r)
  end.

(** [Div], [Mod] *)
Definition binary_div (iop : Z -> Z -> outcome Z) (fop : f64 -> f64 -> f64) (op : BinaryOperator) (l r : value)
    : outcome value :=
  match as_f64 l, as_f64 r with
  | Some lf, Some rf =>
      if f64_eqb rf f64_zero then Err "divided by zero"
      else
        match as_i64 l, as_i64 r with
        | Some li, Some ri =>
            if ri =? 0 then Err "divided by zero" else v ← iop li ri; Ok (value_of_i64 v)
        | _, _ => Ok (value_of_f64 (fop lf rf))
        end
  | _, _ => Err (invalid l (op_token op) r)
  end.

Definition binary_order (op : BinaryOperator) (l r : value) : outcome value :=
  let ordering :=
    if is_number l && is_number r then
      Ok (lf ← as_f64 l; rf ← as_f64 r; f64_partial_cmp lf rf)
    else
      match as_str l, as_str r with
      | Some ls, Some rs => Ok (Some (String.compare ls rs))
      | _, _ =>
          match as_bool l, as_bool r with
          | Some lb, Some rb => Ok (Some (bool_cmp lb rb))
          | _, _ => Err (invalid l (op_token op) r)
          end
      end in
  o ← ordering;
  Ok (VBool (match op, o with
             | Lt, Some Datatypes.Lt => true
             | Lte, Some (Datatypes.Lt | Datatypes.Eq) => true
             | Gt, Some Datatypes.Gt => true
             | Gte, Some (Datatypes.Gt | Datatypes.Eq) => true
             | _, _ => false
             end)).

Definition binary_eq (negated : bool) (op : BinaryOperator) (l r : value) : outcome value :=
  if is_number l && is_number r then Ok (VBool (xorb negated (values_equal l r)))
  else if (is_string l && is_string r) || (is_boolean l && is_boolean r) then
    Ok (VBool (xorb negated (value_eq l r)))
  else Err (invalid l (op_token op) r).

Definition binary_logic (f : bool -> bool -> bool) (op : BinaryOperator) (l r : value) : outcome value :=
  match as_bool l, as_bool r with
  | Some lb, Some rb => Ok (VBool (f lb rb))
  | _, _ => Err (invalid l (op_token op) r)
  end.

(** The operand of a null comparison or connective is false, of the others null.  LIKE
    always returns (its loops end, see Like.v); the fuel never runs out. *)
Definition eval_binary_op_fallible (l : value) (op : BinaryOperator) (r : value) : outcome value :=
  if is_null l || is_null r then
    match op with
    | And | Or | BitAnd | BitOr | BitXor | Eq | Neq | Gt | Gte | Lt | Lte => Ok (VBool false)
    | _ => Ok VNull
    end
  else
    match op with
    | And => binary_logic andb op l r
    | Or => binary_logic orb op l r
    | Eq => binary_eq false op l r
    | Neq => binary_eq true op l r
    | Lt | Lte | Gt | Gte => binary_order op l r
    | Add => binary_arith saturating_add f64_add op l r
    | Sub => binary_arith saturating_sub f64_sub op l r
    | Mul => binary_arith saturating_mul f64_mul op l r
    | Div => binary_div i64_div f64_div op l r
    | Mod => binary_div i64_rem f64_rem op l r
    | Like => match eval_like l r with Some v => Ok v | None => Panic end
    | BitAnd | BitOr | BitXor => Ok (eval_bitwise l r op)
    end.

Definition eval_between_fallible (v low high : value) (negated : bool) : outcome value :=
  if is_null v || is_null low || is_null high then Ok (VBool false)
  else
    let message other :=
      "between operator cannot compare " +:+ format_ekuiper_val_type v +:+ " and " +:+
      format_ekuiper_val_type other in
    match compare_values v low with
    | None => Err (message low)
    | Some ord1 =>
        match compare_values v high with
        | None => Err (message high)
        | Some ord2 =>
            let in_range :=
              bool_decide (ord1 = Datatypes.Gt \/ ord1 = Datatypes.Eq) &&
              bool_decide (ord2 = Datatypes.Lt \/ ord2 = Datatypes.Eq) in
            Ok (VBool (if negated then negb in_range else in_range))
        end
    end.
End fallible.

(** ** Indexing *)

Definition as_index_i64 (v : value) : option Z :=
  match v with
  | VNumber n =>
      match number_as_i64 n with
      | Some i => Some i
      | None =>
          match number_as_u64 n with
          | Some u => if u <=? i64_max then Some u else None
          | None =>
              let f := number_as_f64 n in
              if is_finite f then Some (f64_as_i64 f) else None
          end
      end
  | VString s => parse_i64 (trim s)
  | _ => None
  end.

Definition object_get (k : string) (m : list (string * value)) : option value :=
  snd <$> List.find (fun kv => bool_decide (kv.1 = k)) m.

Definition index_value (base index : value) : value :=
  match base with
  | VArray arr =>
      match as_index_i64 index with
      | None => VNull
      | Some i =>
          let len := Z.of_nat (length arr) in
          let pos := if 0 <=? i then i else len + i in
          if (pos <? 0) || (len <=? pos) then VNull
          else default VNull (arr !! Z.to_nat pos)
      end
  | VObject m =>
      match index with
      | VString k => default VNull (object_get k m)
      | _ => VNull
      end
  | _ => VNull
  end.

Definition slice_norm (len : Z) (v : option value) (dflt : Z) : option Z :=
  match v with
  | None => Some dflt
  | Some x => i ← as_index_i64 x; Some (if 0 <=? i then i else len + i)
  end.

Definition slice_value (base : value) (lo hi : option value) : value :=
  match base with
  | VArray arr =>
      let len := Z.of_nat (length arr) in
      match slice_norm len lo 0, slice_norm len hi len with
      | Some l, Some h =>
          let l := Z.max 0 (Z.min len l) in
          let h := Z.max 0 (Z.min len h) in
          if h <=? l then VArray []
          else VArray (take (Z.to_nat h - Z.to_nat l) (drop (Z.to_nat l) arr))
      | _, _ => VNull
      end
  | _ => VNull
  end.

(** ** Facts *)

Lemma as_i64_range v i : value_number_wf v -> as_i64 v = Some i -> in_i64 i.
Proof.
  destruct v as [| |[u|j|f]| | |]; simpl; try done; intros Hwf Hi.
  - destruct (Z.leb_spec u i64_max); simplify_eq. unfold in_i64, i64_min. lia.
  - simplify_eq. unfold in_i64, i64_min, i64_max in *. lia.
Qed.

Lemma quot_overflow a b : in_i64 a -> b <> 0 -> ~ in_i64 (Z.quot a b) -> a = i64_min /\ b = -1.
Proof.
  unfold in_i64. intros Ha Hb Hn. destruct (decide (b = -1)) as [->|Hb1].
  { assert (Z.quot a (-1) = - a) as E by (change (-1) with (Z.opp 1); rewrite Z.quot_opp_r, Z.quot_1_r; lia).
    rewrite E in Hn. unfold i64_min, i64_max in *. lia. }
  destruct (decide (b = 1)) as [->|Hb2]; [rewrite Z.quot_1_r in Hn; lia|].
  exfalso. apply Hn. assert (Habs : 2 * Z.abs (Z.quot a b) <= Z.abs a).
  { rewrite <- Z.quot_abs by done. pose proof (Z.mul_quot_le (Z.abs a) (Z.abs b)).
    assert (0 <= Z.quot (Z.abs a) (Z.abs b)) by (apply Z.quot_pos; lia). nia. }
  unfold i64_min, i64_max in *. lia.
Qed.

Lemma i64_div_panic iop a b :
  (iop = i64_div \/ iop = i64_rem) -> in_i64 a -> b <> 0 ->
  iop a b = Panic <-> a = i64_min /\ b = -1.
Proof.
  intros Hiop Ha Hb. split.
  - intros Hp. apply quot_overflow; [done|done|]. intros Hin.
    destruct Hiop as [-> | ->]; unfold i64_div, i64_rem in Hp; by rewrite decide_True in Hp.
  - intros [-> ->]. destruct Hiop as [-> | ->]; by vm_compute.
Qed.

Lemma f64_zero_of_int i : f64_eqb (f64_of_Z i) f64_zero = true -> i = -1 -> False.
Proof. intros H ->. by vm_compute in H. Qed.

Lemma like_match_total s p : is_Some (like_match s p).
Proof.
  unfold like_match. case_match; [rewrite like_ascii_correct|rewrite like_chars_correct]; by eexists.
Qed.

Lemma binary_div_panic `{Text} iop fop op l r :
  (iop = i64_div \/ iop = i64_rem) -> value_number_wf l -> value_number_wf r ->
  binary_div iop fop op l r = Panic <-> as_i64 l = Some i64_min /\ as_i64 r = Some (-1).
Proof.
  intros Hiop Hl Hr. unfold binary_div. split.
  - destruct (as_f64 l) as [lf|], (as_f64 r) as [rf|]; try done.
    destruct (f64_eqb rf f64_zero); [done|].
    destruct (as_i64 l) as [li|] eqn:El, (as_i64 r) as [ri|] eqn:Er; try done.
    destruct (Z.eqb_spec ri 0) as [|Hne]; [done|]. intros Hp.
    assert (Hpan : iop li ri = Panic) by (by destruct (iop li ri)).
    apply i64_div_panic in Hpan as [-> ->]; [done|done|exact (as_i64_range l li Hl El)|done].
  - intros [El Er].
    assert (as_f64 l = Some (f64_of_Z i64_min)) as ->.
    { destruct l as [| |[u|j|f]| | |]; simpl in *; try done; [destruct (u <=? i64_max)|]; by simplify_eq. }
    assert (as_f64 r = Some (f64_of_Z (-1))) as ->.
    { destruct r as [| |[u|j|f]| | |]; simpl in *; try done; [destruct (u <=? i64_max)|]; by simplify_eq. }
    rewrite El, Er. destruct Hiop as [-> | ->]; by vm_compute.
Qed.

(** C34. When an operator aborts.  On values [serde_json] can hold, evaluating a binary
    operator never panics, except for division and modulo of [i64::MIN] by -1, which
    always do: the two zero checks do not cover the overflowing quotient. *)
Theorem binary_op_panics_iff `{Text} (l r : value) (op : BinaryOperator) :
  value_number_wf l -> value_number_wf r ->
  eval_binary_op_fallible l op r = Panic <->
  (op = Div \/ op = Mod) /\ as_i64 l = Some i64_min /\ as_i64 r = Some (-1).
Proof.
  intros Hl Hr. unfold eval_binary_op_fallible.
  destruct (is_null l || is_null r) eqn:Hnull.
  { split; [by destruct op|]. intros (_ & El & Er). by destruct l, r. }
  destruct op; try (split; [|intros [[? | ?] _]; discriminate]).
  all: try (unfold binary_eq, binary_order, binary_logic, binary_arith; intros Hp;
            repeat (case_match || simplify_eq/=); done).
  - rewrite binary_div_panic by (done || by left). split; [by intros []; split; [left|]|by intros []].
  - rewrite binary_div_panic by (done || by right). split; [by intros []; split; [right|]|by intros []].
  - intros Hp. unfold eval_like in Hp. destruct (as_str l) as [x|], (as_str r) as [y|]; try done.
    destruct (like_match_total (str_chars x) (str_chars y)) as [b Hb]. by rewrite Hb in Hp.
Qed.

Definition sample_text : Text := {|
  value_to_string _ := "v"; map_to_json _ := "{}"; parse_rfc3339 _ := None;
|}.

Lemma binary_op_panics_iff_witness :
  @eval_binary_op_fallible sample_text (VNumber (NegInt i64_min)) Div (VNumber (NegInt (-1))) = Panic.
Proof.
  apply (@binary_op_panics_iff sample_text); [by vm_compute|by vm_compute|].
  split; [by left|]. by vm_compute.
Defined.

(** ** Slices *)

(** The elements at positions [l <= i < h], counted from [i0]. *)
Fixpoint slice_ref (l h i0 : Z) (arr : list value) : list value :=
  match arr with
  | [] => []
  | x :: r => (if decide (l <= i0 < h) then [x] else []) ++ slice_ref l h (i0 + 1) r
  end.

Lemma slice_ref_lower arr i0 a b h :
  a <= i0 -> b <= i0 -> slice_ref a h i0 arr = slice_ref b h i0 arr.
Proof.
  revert i0. induction arr as [|x arr IH]; intros i0 Ha Hb; simpl; [done|].
  rewrite (IH (i0 + 1)) by lia. destruct (decide (a <= i0 < h)), (decide (b <= i0 < h)); done || lia.
Qed.

Lemma slice_ref_empty arr i0 l h : h <= i0 -> slice_ref l h i0 arr = [].
Proof.
  revert i0. induction arr as [|x arr IH]; intros i0 Hh; simpl; [done|].
  rewrite decide_False by lia. apply IH. lia.
Qed.

Lemma slice_ref_take arr i0 h : slice_ref i0 (i0 + h) i0 arr = take (Z.to_nat h) arr.
Proof.
  revert i0 h. induction arr as [|x arr IH]; intros i0 h; simpl; [by rewrite take_nil|].
  destruct (decide (0 < h)) as [Hh|Hh].
  - rewrite decide_True by lia. replace (Z.to_nat h) with (S (Z.to_nat (h - 1))) by lia. simpl.
    rewrite (slice_ref_lower _ _ _ (i0 + 1)) by lia.
    replace (i0 + h) with (i0 + 1 + (h - 1)) by lia. by rewrite IH.
  - rewrite decide_False, slice_ref_empty by lia. by replace (Z.to_nat h) with O by lia.
Qed.

Lemma slice_ref_drop arr i0 l h :
  0 <= l -> slice_ref (i0 + l) h i0 arr = slice_ref (i0 + l) h (i0 + l) (drop (Z.to_nat l) arr).
Proof.
  revert i0 l. induction arr as [|x arr IH]; intros i0 l Hl; simpl; [by rewrite drop_nil|].
  destruct (decide (l = 0)) as [->|Hne]; [by rewrite Z.add_0_r|].
  rewrite decide_False by lia. replace (Z.to_nat l) with (S (Z.to_nat (l - 1))) by lia. simpl.
  replace (i0 + l) with (i0 + 1 + (l - 1)) by lia. apply IH. lia.
Qed.

Lemma slice_ref_clamp arr i0 l h :
  slice_ref l h i0 arr =
  slice_ref (Z.max i0 l) (Z.max i0 (Z.min (i0 + Z.of_nat (length arr)) h)) i0 arr.
Proof.
  revert i0 l h. induction arr as [|x arr IH]; intros i0 l h; [done|]. cbn [slice_ref length].
  assert (Hd : forall T (a b : T), (if decide (l <= i0 < h) then a else b) =
    if decide (Z.max i0 l <= i0 < Z.max i0 (Z.min (i0 + Z.of_nat (S (length arr))) h)) then a else b).
  { intros T a b. destruct (decide (l <= i0 < h)), (decide (Z.max i0 l <= i0 < _)); done || lia. }
  rewrite Hd. f_equal. rewrite IH, (IH (i0 + 1) (Z.max i0 l)). f_equal; lia.
Qed.

(** Slicing selects the positions between the bounds: with [len] the length and a
    bound [b < 0] read as [len + b], [base[lo:hi]] is the array of the elements whose
    position [i] satisfies [lo <= i < hi], in order; out-of-range and inverted bounds
    included, and an omitted bound meaning the start or the end. *)
Theorem slice_value_spec (arr : list value) (lo hi : option value) (l h : Z) :
  slice_norm (Z.of_nat (length arr)) lo 0 = Some l ->
  slice_norm (Z.of_nat (length arr)) hi (Z.of_nat (length arr)) = Some h ->
  slice_value (VArray arr) lo hi = VArray (slice_ref l h 0 arr).
Proof.
  intros Hl Hh. unfold slice_value. rewrite Hl, Hh, slice_ref_clamp, Z.add_0_l.
  set (n := Z.of_nat (length arr)). set (h' := Z.max 0 (Z.min n h)).
  pose proof (slice_ref_drop arr 0 (Z.max 0 l) h' ltac:(lia)) as Hd. rewrite !Z.add_0_l in Hd. rewrite Hd.
  pose proof (slice_ref_take (drop (Z.to_nat (Z.max 0 l)) arr) (Z.max 0 l) (h' - Z.max 0 l)) as Ht.
  replace (Z.max 0 l + (h' - Z.max 0 l)) with h' in Ht by lia. rewrite Ht. clear Hd Ht.
  destruct (decide (n < l)) as [Hbig|Hle].
  - rewrite (proj2 (Z.leb_le _ _)) by (subst h' n; lia). rewrite drop_ge by (subst n; lia). by rewrite take_nil.
  - replace (Z.max 0 (Z.min n l)) with (Z.max 0 l) by lia.
    destruct (Z.leb_spec h' (Z.max 0 l)) as [Hinv|Hok].
    + by replace (Z.to_nat (h' - Z.max 0 l)) with O by lia.
    + do 2 f_equal. lia.
Qed.

Lemma slice_value_spec_witness :
  slice_value (VArray (VBool true :: VNull :: [VBool false])) (Some (value_of_i64 (-2))) None =
  VArray (slice_ref 1 3 0 (VBool true :: VNull :: [VBool false])).
Proof. apply slice_value_spec; by vm_compute. Defined.

(** Ordering and equality disagree on large integers: equality compares them
    exactly, the ordering operators through [f64], so 2^53 + 1 is unequal to 2^53,
    not greater, and both at most and at least it. *)
Theorem large_integers_misordered `{Text} :
  let a := value_of_i64 (2 ^ 53 + 1) in
  let b := value_of_i64 (2 ^ 53) in
  eval_binary_op_fallible a Neq b = Ok (VBool true) /\
  eval_binary_op_fallible a Gt b = Ok (VBool false) /\
  eval_binary_op_fallible a Lte b = Ok (VBool true) /\
  eval_binary_op_fallible a Gte b = Ok (VBool true).
Proof. by vm_compute. Qed.
