(* ===== verification/Objects.v ===== *)
(** * Objects and maps

    A JSON object is a list of members with distinct keys; a row is a map.  The lemmas say
    that writing a map as an object and reading an object as a map keep the members. *)

From S2P Require Import Prelude Rust Json Ast Engine Values.

Set Default Goal Selector "!".

Definition row_of_members (m : list (string * value)) : row := list_to_map m.

Lemma find_key_elem k (m : list (string * value)) v : NoDup m.*1 -> (k, v) ∈ m -> object_get k m = Some v.
Proof.
  unfold object_get. induction m as [|[k' v'] m IH]; intros Hnd Hin; [by apply elem_of_nil in Hin|].
  apply list.NoDup_cons in Hnd as [Hni Hnd]. simpl. apply elem_of_cons in Hin as [[= -> ->]|Hin].
  - by rewrite bool_decide_eq_true_2.
  - rewrite bool_decide_eq_false_2; [by apply IH|]. intros ->. apply Hni. apply list_elem_of_fmap. by exists (k, v).
Qed.

Lemma object_get_elem k (m : list (string * value)) v : object_get k m = Some v -> (k, v) ∈ m.
Proof.
  unfold object_get. intros Hf. apply fmap_Some in Hf as ([k' v'] & Hf & ->). apply List.find_some in Hf as [Hin Hk].
  apply bool_decide_eq_true in Hk. simpl in Hk. subst k'. by apply list_elem_of_In.
Qed.

Lemma row_to_value_members d : exists m, row_to_value d = VObject m /\ m ≡ₚ map_to_list d.
Proof. eexists. split; [reflexivity|]. apply merge_sort_Permutation. Qed.

Lemma NoDup_members d (m : list (string * value)) : m ≡ₚ map_to_list d -> NoDup m.*1.
Proof. intros ->. apply NoDup_fst_map_to_list. Qed.

(** An object written from a map has the members of the map. *)
Lemma object_get_row d m k : row_to_value d = VObject m -> object_get k m = d !! k.
Proof.
  intros Hm. destruct (row_to_value_members d) as (m' & Hm' & Hp). rewrite Hm in Hm'. injection Hm' as <-.
  destruct (d !! k) as [v|] eqn:Hk.
  - apply find_key_elem; [by eapply NoDup_members|]. rewrite Hp. by apply elem_of_map_to_list.
  - destruct (object_get k m) as [v|] eqn:Hg; [|done]. apply object_get_elem in Hg. rewrite Hp in Hg.
    apply elem_of_map_to_list in Hg. congruence.
Qed.

Lemma row_of_row_to_value d m : row_to_value d = VObject m -> row_of_members m = d.
Proof.
  intros Hm. destruct (row_to_value_members d) as (m' & Hm' & Hp). rewrite Hm in Hm'. injection Hm' as <-.
  unfold row_of_members. rewrite (list_to_map_proper m (map_to_list d)); [apply list_to_map_to_list|by eapply NoDup_members|done].
Qed.

Lemma row_members_Forall d m (P : string * value -> Prop) : row_to_value d = VObject m -> map_Forall (fun k v => P (k, v)) d -> Forall P m.
Proof.
  intros Hm Hd. destruct (row_to_value_members d) as (m' & Hm' & Hp). rewrite Hm in Hm'. injection Hm' as <-.
  rewrite Hp. apply list.Forall_forall. intros [k v] Hin. apply elem_of_map_to_list in Hin. by apply Hd.
Qed.
