(* ===== verification/Numbers.v ===== *)
(** * Numbers in text ([str::parse::<f64>] of the Rust standard library; [to_f64] and
      [to_i64_arg] of [crates/rekuiper-sql/src/eval.rs])

    [parse_f64] follows the grammar of the standard library and rounds the decimal value
    once, to nearest even. *)

From Stdlib Require Import SpecFloat Ascii.
From S2P Require Import Prelude Rust Characters Json Ast Engine Values.

Set Default Goal Selector "!".

(** ** Decimal text *)

Fixpoint span_digits (l : list ascii) : list ascii * list ascii :=
  match l with
  | c :: r => if is_ascii_digit c then let '(d, t) := span_digits r in (c :: d, t) else ([], l)
  | [] => ([], [])
  end.

(** The number of [prec] bits below exponent [emax] that is nearest to [m * 10 ^ e], with the
    given sign.  Beyond the exponents a double can have, the result is an infinity or a
    zero without computing the power. *)
Definition float_of_decimal (prec emax : Z) (negative : bool) (m e : Z) : spec_float :=
  if m =? 0 then S754_zero negative
  else if 0 <=? e then
    if 310 <? e then S754_infinity negative
    else binary_normalize prec emax (if negative then - (m * 10 ^ e) else m * 10 ^ e) 0 negative
  else if Z.log2 m + 3 * e <? -1200 then S754_zero negative
  else
    let '(q, e', l) := SFdiv_core_binary prec emax m 0 (10 ^ (- e)) 0 in
    binary_round_aux prec emax negative q e' l.

(** An exponent: [e] or [E], a sign, digits. *)
Definition parse_exponent (l : list ascii) : option Z :=
  match l with
  | [] => Some 0
  | c :: r =>
      if Ascii.eqb c "e" || Ascii.eqb c "E" then
        match strip_sign "-" r with
        | Some r => Z.opp <$> parse_digits r
        | None => parse_digits (default r (strip_sign "+" r))
        end
      else None
  end.

Definition parse_decimal (prec emax : Z) (negative : bool) (l : list ascii) : option spec_float :=
  let '(int, rest) := span_digits l in
  let '(frac, rest) :=
    match strip_sign "." rest with
    | Some r => span_digits r
    | None => ([], rest)
    end in
  m ← parse_digits (int ++ frac);
  e ← parse_exponent rest;
  Some (float_of_decimal prec emax negative m (e - Z.of_nat (length frac))).

Definition parse_float (prec emax : Z) (s : string) : option spec_float :=
  let '(negative, l) :=
    match strip_sign "-" (chars s) with
    | Some r => (true, r)
    | None => (false, default (chars s) (strip_sign "+" (chars s)))
    end in
  let word := to_ascii_lowercase (of_chars l) in
  if bool_decide (word = "inf" \/ word = "infinity") then Some (S754_infinity negative)
  else if bool_decide (word = "nan") then Some S754_nan
  else parse_decimal prec emax negative l.

(** [str::parse::<f64>] *)
Definition parse_f64 : string -> option f64 := parse_float 53 1024.

(** ** Arguments of functions *)

(** [f64::trunc] then [as i64]. *)
Definition trunc_i64 (f : f64) : option Z := if is_finite f then Some (f64_as_i64 f) else None.

Definition to_f64 (v : value) : option f64 :=
  match as_f64 v with
  | Some f => Some f
  | None => s ← as_str v; parse_f64 (trim s)
  end.

Definition to_i64_arg (v : value) : option Z :=
  match v with
  | VNumber n =>
      match number_as_i64 n, number_as_u64 n with
      | Some i, _ => Some i
      | None, Some u => if u <=? i64_max then Some u else None
      | None, None => trunc_i64 (number_as_f64 n)
      end
  | VString s =>
      match parse_i64 (trim s) with
      | Some i => Some i
      | None => f ← parse_f64 (trim s); trunc_i64 f
      end
  | VBool b => Some (if b then 1 else 0)
  | _ => None
  end.

Example decimal_tenth : parse_f64 "0.1" = Some (f64_div (f64_of_Z 1) (f64_of_Z 10)).
Proof. by vm_compute. Qed.
Example decimal_limits :
  parse_f64 "1e309" = Some (S754_infinity false) /\ parse_f64 "-2e-324" = Some (S754_zero true) /\
  parse_f64 "4.9e-324" = Some (S754_finite false 1 (-1074)) /\ parse_f64 "." = None /\ parse_f64 "1e" = None /\
  parse_f64 "9007199254740993" = Some (f64_of_Z (2 ^ 53)) /\ parse_f64 "+.5" = parse_f64 "5e-1" /\
  parse_f64 "123456789012345678901234567890e-20" = parse_f64 "1234567890.12345678901234567890".
Proof. by vm_compute. Qed.

(** ** Integers as text *)

(** The decimal digits of a natural number. *)
Fixpoint dec (fuel : nat) (n : Z) : list ascii :=
  let digit := byte_of (48 + n mod 10) in
  match fuel with
  | O => [digit]
  | S fuel => if n <? 10 then [digit] else dec fuel (n / 10) ++ [digit]
  end.
Definition digits (n : Z) : string := of_chars (dec (Z.to_nat (Z.log2 n)) n).

Lemma digits_val_app acc l c : digits_val acc (l ++ [c]) =
  v ← digits_val acc l; if is_ascii_digit c then Some (v * 10 + (code c - 48)) else None.
Proof.
  revert acc. induction l as [|d l IH]; intros acc; simpl; [done|]. destruct (is_ascii_digit d); [|done]. apply IH.
Qed.

Lemma digit_code n : code (byte_of (48 + n mod 10)) = 48 + n mod 10.
Proof.
  pose proof (Z.mod_pos_bound n 10 ltac:(lia)). unfold code, byte_of. rewrite N_ascii_embedding; lia.
Qed.

Lemma digit_is_digit n : is_ascii_digit (byte_of (48 + n mod 10)) = true.
Proof.
  pose proof (Z.mod_pos_bound n 10 ltac:(lia)). unfold is_ascii_digit. rewrite digit_code.
  rewrite andb_true_iff, !Z.leb_le. lia.
Qed.

Lemma dec_spec fuel n : 0 <= n < 10 ^ (Z.of_nat fuel + 1) ->
  dec fuel n <> [] /\ digits_val 0 (dec fuel n) = Some n /\ Forall (fun c => is_ascii_digit c = true) (dec fuel n).
Proof.
  revert n. induction fuel as [|fuel IH]; intros n Hn; simpl.
  - change (10 ^ (Z.of_nat 0 + 1)) with 10 in Hn.
    split_and!; [done| |by repeat constructor; apply digit_is_digit].
    rewrite digit_is_digit, digit_code. f_equal. rewrite Z.mod_small by lia. lia.
  - destruct (Z.ltb_spec n 10).
    + split_and!; [done| |by repeat constructor; apply digit_is_digit]. simpl.
      rewrite digit_is_digit, digit_code. f_equal. rewrite Z.mod_small by lia. lia.
    + destruct (IH (n / 10)) as (Hne & Hv & Hall).
      { split; [apply Z.div_pos; lia|]. apply Z.div_lt_upper_bound; [lia|].
        replace (Z.of_nat (S fuel) + 1) with (Z.succ (Z.of_nat fuel + 1)) in Hn by lia.
        rewrite Z.pow_succ_r in Hn by lia. lia. }
      split_and!.
      * by destruct (dec fuel (n / 10)).
      * rewrite digits_val_app, Hv. simpl. rewrite digit_is_digit, digit_code. f_equal.
        pose proof (Z.div_mod n 10 ltac:(lia)). lia.
      * apply Forall_app. split; [done|]. repeat constructor. apply digit_is_digit.
Qed.

Lemma digits_spec n : 0 <= n -> exists l, chars (digits n) = l /\ l <> [] /\ digits_val 0 l = Some n /\
  Forall (fun c => is_ascii_digit c = true) l.
Proof.
  intros Hn. unfold digits, chars, of_chars. rewrite String.list_ascii_of_string_of_list_ascii.
  eexists. split; [done|]. apply dec_spec. split; [done|].
  destruct (Z.eq_dec n 0) as [->|]; [apply Z.pow_pos_nonneg; lia|].
  rewrite Z2Nat.id by apply Z.log2_nonneg. destruct (Z.log2_spec n ltac:(lia)) as [_ Hlt].
  eapply Z.lt_le_trans; [exact Hlt|]. apply Z.pow_le_mono_l. lia.
Qed.

(** The text of an integer, as [Display] writes it. *)
Definition integer_text (i : Z) : string := if i <? 0 then "-" +:+ digits (- i) else digits i.

Lemma strip_sign_digits c l : is_ascii_digit c = false -> Forall (fun d => is_ascii_digit d = true) l -> strip_sign c l = None.
Proof.
  intros Hc Hall. destruct l as [|d l]; [done|]. simpl. apply list.Forall_cons in Hall as [Hd _].
  destruct (Ascii.eqb_spec d c) as [->|]; [by rewrite Hd in Hc|done].
Qed.

Lemma parse_digits_text n : 0 <= n -> parse_digits (chars (digits n)) = Some n.
Proof. intros Hn. destruct (digits_spec n Hn) as (l & -> & Hne & Hv & _). by destruct l. Qed.

Lemma parse_integer_text i : in_i64 i -> parse_i64 (integer_text i) = Some i.
Proof.
  intros Hi. unfold integer_text, parse_i64. destruct (Z.ltb_spec i 0).
  - change (chars ("-" +:+ digits (- i))) with ("-"%char :: chars (digits (- i))). cbn [strip_sign].
    rewrite Ascii.eqb_refl, parse_digits_text by lia. simpl. rewrite Z.opp_involutive. by rewrite decide_True.
  - destruct (digits_spec i) as (l & Hl & Hne & Hv & Hall); [lia|].
    rewrite !strip_sign_digits by (first [done|by rewrite Hl]). cbn [default].
    rewrite parse_digits_text by lia. simpl. by rewrite decide_True.
Qed.

Lemma integer_text_chars i : Forall (fun c => is_ascii_digit c = true \/ c = "-"%char) (chars (integer_text i)).
Proof.
  assert (Hd : forall n, 0 <= n -> Forall (fun c => is_ascii_digit c = true \/ c = "-"%char) (chars (digits n))).
  { intros n Hn. destruct (digits_spec n Hn) as (l & -> & _ & _ & Hall). eapply list.Forall_impl; [exact Hall|]. by left. }
  unfold integer_text. destruct (Z.ltb_spec i 0); [|apply Hd; lia].
  change (chars ("-" +:+ digits (- i))) with ("-"%char :: chars (digits (- i))). constructor; [by right|apply Hd; lia].
Qed.
