(* ===== verification/FloatText.v ===== *)
(** * Doubles as text ([Display] and [{:.p}] of the Rust standard library)

    A number with a fixed number of decimals is the exact value rounded to nearest even.
    [Display] writes the shortest decimal that reads back as the number, without an exponent. *)

From Stdlib Require Import SpecFloat Ascii.
From S2P Require Import Prelude Rust Characters Json Ast Engine Values Numbers.

Set Default Goal Selector "!".

Definition zeros (n : Z) : list ascii := replicate (Z.to_nat n) "0"%char.

(** [num / den] rounded to the nearest integer, half to even. *)
Definition round_half_even (num den : Z) : Z :=
  let q := num / den in
  let r := num mod den in
  if (2 * r <? den) || ((2 * r =? den) && Z.even q) then q else q + 1.

(** The absolute value of a finite number as a fraction. *)
Definition fraction (m : positive) (e : Z) : Z * Z :=
  if 0 <=? e then (Z.pos m * 2 ^ e, 1) else (Z.pos m, 2 ^ (- e)).

(** The digits of [n] with the point before the last [p]. *)
Definition with_point (n : Z) (p : nat) : list ascii :=
  let ds := chars (digits n) in
  let ds := zeros (Z.of_nat (S p) - Z.of_nat (length ds)) ++ ds in
  match p with
  | O => ds
  | _ => take (length ds - p) ds ++ "."%char :: drop (length ds - p) ds
  end.

Definition signed (s : bool) (l : list ascii) : string := of_chars (if s then "-"%char :: l else l).

(** [format!("{:.p}", f)] *)
Definition float_fixed (p : nat) (f : f64) : string :=
  match f with
  | S754_nan => "NaN"
  | S754_infinity s => signed s (chars "inf")
  | S754_zero s => signed s (with_point 0 p)
  | S754_finite s m e =>
      let '(num, den) := fraction m e in
      signed s (with_point (round_half_even (num * 10 ^ Z.of_nat p) den) p)
  end.

(** The decimal exponent [k] of a positive fraction: [10^(k-1) <= num/den < 10^k]. *)
Fixpoint leading_zeros (fuel : nat) (num den : Z) : Z :=
  match fuel with
  | O => 0
  | S fuel => if den <=? num * 10 then 0 else 1 + leading_zeros fuel (num * 10) den
  end.

Definition decimal_exponent (num den : Z) : Z :=
  if den <=? num then Z.of_nat (length (chars (digits (num / den)))) else - leading_zeros 400 num den.

(** The decimal with [n] digits that reads back as [f] and is nearest to it. *)
Definition shortest_at (f : f64) (num den k : Z) (n : nat) : option Z :=
  let e := k - Z.of_nat n in
  let '(num, den) := if 0 <=? e then (num, den * 10 ^ e) else (num * 10 ^ (- e), den) in
  let lo := num / den in
  let back d := SFeqb (float_of_decimal 53 1024 false d e) f in
  if back lo && (negb (back (lo + 1)) || (2 * (num mod den) <? den)) then Some lo
  else if back (lo + 1) then Some (lo + 1)
  else None.

Fixpoint shortest (f : f64) (num den k : Z) (more n : nat) : Z * nat :=
  match more with
  | O => (round_half_even (num * 10 ^ (Z.of_nat n - k)) den, n)
  | S more => match shortest_at f num den k n with Some d => (d, n) | None => shortest f num den k more (S n) end
  end.

(** The digits [d], [n] of them, with the point after the first [k]. *)
Definition place_point (d : Z) (n : nat) (k : Z) : list ascii :=
  let ds := chars (digits d) in
  if k <=? 0 then chars "0." ++ zeros (- k) ++ ds
  else if Z.of_nat n <=? k then ds ++ zeros (k - Z.of_nat n)
  else take (Z.to_nat k) ds ++ "."%char :: drop (Z.to_nat k) ds.

(** [f.to_string()] *)
Definition float_display (f : f64) : string :=
  match f with
  | S754_nan => "NaN"
  | S754_infinity s => signed s (chars "inf")
  | S754_zero s => signed s ["0"%char]
  | S754_finite s m e =>
      let '(num, den) := fraction m e in
      let k := decimal_exponent num den in
      let '(d, n) := shortest (S754_finite false m e) num den k 17 1 in
      signed s (if d =? 10 ^ Z.of_nat n then place_point 1 1 (k + 1) else place_point d n k)
  end.

(** [f.fract() == 0.0] *)
Definition is_integral (f : f64) : bool :=
  match f with
  | S754_zero _ => true
  | S754_finite _ m e => let '(num, den) := fraction m e in num mod den =? 0
  | _ => false
  end.

Lemma round_half_even_near num den : 0 < den -> 2 * Z.abs (round_half_even num den * den - num) <= den.
Proof.
  intros Hd. unfold round_half_even. pose proof (Z.div_mod num den ltac:(lia)). pose proof (Z.mod_pos_bound num den Hd).
  destruct (Z.ltb_spec (2 * (num mod den)) den); simpl; [nia|].
  destruct (Z.eqb_spec (2 * (num mod den)) den); simpl; [destruct (Z.even _); nia|nia].
Qed.

Definition of_text (s : string) : f64 := default S754_nan (parse_f64 s).

Example fixed_samples :
  map (fun '(p, s) => float_fixed p (of_text s)) [(2, "20.5"); (0, "2.5"); (0, "3.5"); (1, "0.25"); (0, "-0.4"); (6, "0.1"); (3, "1e-9"); (2, "123456789.987")]%nat
  = ["20.50"; "2"; "4"; "0.2"; "-0"; "0.100000"; "0.000"; "123456789.99"].
Proof. by vm_compute. Qed.

Example display_samples :
  map (fun s => float_display (of_text s)) ["0.1"; "-20.5"; "1e21"; "0.30000000000000004"; "1e-7"; "123456.75"; "9007199254740993"; "inf"; "-0"; "5e-324"; "1.7976931348623157e308"]
  = ["0.1"; "-20.5"; "1000000000000000000000"; "0.30000000000000004"; "0.0000001"; "123456.75"; "9007199254740992"; "inf"; "-0";
     of_chars (chars "0." ++ zeros 323 ++ ["5"%char]); of_chars (chars "17976931348623157" ++ zeros 292)].
Proof. by vm_compute. Qed.
