(* ===== verification/Parser.v ===== *)
(** * The SQL parser: text and expressions ([crates/rekuiper-sql/src/parser.rs])

    A recursive-descent parser without a lexer.  The input is the sequence of code points
    that is left; [self.pos] is where it starts.  A parser returns a result and the rest, an
    error (whose message is not modelled), a panic, or runs out of fuel.  [parse_expr] takes
    fuel for its nesting, and its loops the same fuel for their turns; ParserFacts.v shows
    that the length of the input is enough.

    Characters beyond ASCII are letters or digits as the interface [Unicode] says; white
    space is the exact Unicode set.  A [skip_whitespace] right after another is written once. *)

From Stdlib Require Import Ascii.
From S2P Require Import Prelude Rust Characters Json Ast Numbers.

Set Default Goal Selector "!".

(** ** The input *)

Definition skip_whitespace (s : input) : input := (span is_space s).2.

(** [starts_with] of one character; of a text, with the rest after it. *)
Definition looking_at (c : ascii) (s : input) : bool :=
  match s with x :: _ => x =? code c | [] => false end.

Fixpoint strip_prefix (p s : input) : option input :=
  match p, s with
  | [], _ => Some s
  | x :: p, y :: s => if x =? y then strip_prefix p s else None
  | _ :: _, [] => None
  end.

Definition starts_with (p : string) (s : input) : bool := bool_decide (is_Some (strip_prefix (cps p) s)).

(** The text before the first [c] and the rest after it. *)
Fixpoint split_at_char (c : Z) (s : input) : option (input * input) :=
  match s with
  | [] => None
  | x :: r => if x =? c then Some ([], r) else '(a, b) ← split_at_char c r; Some (x :: a, b)
  end.

(** ** Results *)

Inductive presult (A : Type) :=
  | POk (a : A) (rest : input)
  | PErr
  | PPanic
  | PFuel.
Arguments POk {A}.
Arguments PErr {A}.
Arguments PPanic {A}.
Arguments PFuel {A}.

Definition P (A : Type) : Type := input -> presult A.

Definition pret {A} (a : A) : P A := POk a.
Definition pbind {A B} (p : P A) (f : A -> P B) : P B := fun s =>
  match p s with
  | POk a s => f a s
  | PErr => PErr
  | PPanic => PPanic
  | PFuel => PFuel
  end.
Definition perr {A} : P A := fun _ => PErr.
Definition pfuel {A} : P A := fun _ => PFuel.

Declare Scope parser_scope.
Delimit Scope parser_scope with parser.
Notation "x <~ p ; q" := (pbind p (fun x => q)) (at level 100, p at next level, q at level 200, right associativity)
  : parser_scope.
Notation "p ;; q" := (pbind p (fun _ => q)) (at level 100, q at level 200, right associativity) : parser_scope.
#[local] Open Scope parser_scope.

Definition of_option {A} (o : option A) : P A := match o with Some a => pret a | None => perr end.

Definition ws : P unit := fun s => POk tt (skip_whitespace s).

(** [looking_at c] and, if so, past it. *)
Definition accept (c : ascii) : P bool := fun s =>
  if looking_at c s then POk true (drop 1 s) else POk false s.

Section lexemes.
Context `{Unicode}.

Definition peek_word (s : input) : option input :=
  match (span word_char (skip_whitespace s)).1 with [] => None | w => Some w end.

Definition is_keyword (kw : string) (w : input) : bool := eq_ignore_ascii_case (to_str w) kw.

Definition peek_word_is (kw : string) (s : input) : bool :=
  match peek_word s with Some w => is_keyword kw w | None => false end.

(** The next word, past it. *)
Definition word : P string := fun s =>
  let s := skip_whitespace s in
  match peek_word s with Some w => POk (to_str w) (drop (length w) s) | None => PErr end.

Definition match_keyword (kw : string) : P bool := fun s =>
  let s := skip_whitespace s in
  match peek_word s with
  | Some w => if is_keyword kw w then POk true (drop (length w) s) else POk false s
  | None => POk false s
  end.

Definition expect_keyword (kw : string) : P unit :=
  found <~ match_keyword kw; if found : bool then pret tt else perr.

Definition expect_char (c : ascii) : P unit := ws;; found <~ accept c; if found : bool then pret tt else perr.

(** The text up to the closing backtick.  The loop advances by one byte, so a character of
    several bytes leaves it inside that character, where slicing panics. *)
Fixpoint until_backtick (s : input) : presult input :=
  match s with
  | [] => PErr
  | c :: r =>
      if c =? code "`" then POk [] r
      else if 128 <=? c then PPanic
      else match until_backtick r with POk a b => POk (c :: a) b | r => r end
  end.

Definition parse_backtick_identifier : P string :=
  ws;; found <~ accept "`"; if found : bool then ident <~ until_backtick; pret (to_str ident) else perr.

Definition parse_column_identifier : P string := fun s =>
  let s := skip_whitespace s in if looking_at "`" s then parse_backtick_identifier s else word s.

(** A text between the quote character that starts the input and its next occurrence. *)
Definition quoted : P string := fun s =>
  match s with
  | q :: r => match split_at_char q r with Some (a, b) => POk (to_str a) b | None => PErr end
  | [] => PErr
  end.

Definition double_quote : ascii := "034".
Definition at_quote (s : input) : bool := looking_at "'" s || looking_at double_quote s.

Definition parse_object_key : P string := fun s =>
  let s := skip_whitespace s in if at_quote s then quoted s else word s.

(** ** Number literals *)

Definition is_number_start (s : input) : bool :=
  match s with
  | c :: r => is_digit c || ((c =? code ".") && match r with d :: _ => is_digit d | [] => false end)
  | [] => false
  end.

(** The fraction after the integer part: the point and its digits. *)
Definition fraction (has_int_part : bool) (s : input) : input * input :=
  match s with
  | c :: r =>
      if (c =? code ".") && (match r with d :: _ => is_digit d | [] => false end || has_int_part)
      then let '(d, r) := span is_digit r in (c :: d, r) else ([], s)
  | [] => ([], [])
  end.

Definition exponent (s : input) : input * input :=
  match s with
  | c :: r =>
      if (c =? code "e") || (c =? code "E") then
        let '(sign, r) := match r with
                          | x :: r' => if (x =? code "+") || (x =? code "-") then ([x], r') else ([], r)
                          | [] => ([], r)
                          end in
        let '(d, r) := span is_digit r in
        match d with [] => ([], s) | _ => (c :: sign ++ d, r) end
      else ([], s)
  | [] => ([], [])
  end.

(** The value of a number literal; [float_marker] when it has a point or an exponent. *)
Definition number_value (text : string) (float_marker : bool) : option value :=
  let as_float := value_of_f64 <$> parse_f64 text in
  if float_marker then as_float
  else
    match parse_i64 text, parse_u64 text with
    | Some n, _ => Some (value_of_i64 n)
    | None, Some n => Some (VNumber (PosInt n))
    | None, None => as_float
    end.

Definition parse_number : P Expr := fun s =>
  let s := skip_whitespace s in
  let '(int, r) := span is_digit s in
  let '(frac, r) := fraction (bool_decide (int <> [])) r in
  let '(exp, r) := exponent r in
  let text := int ++ frac ++ exp in
  if bool_decide (text = [] \/ text = cps ".") then PErr
  else match number_value (to_str text) (bool_decide (frac <> [] \/ exp <> [])) with
       | Some v => POk (Literal v) r
       | None => PErr
       end.
End lexemes.

(** ** Expressions

    Each level of precedence is built from the next tighter one; [expr] is [parse_expr] with
    less fuel, [n] the fuel of the loops. *)

Section levels.
Context `{Unicode}.

(** Whether an operator of the level follows, and the input after it (or where the
    level stops). *)
Definition probe : Type := input -> option BinaryOperator * input.

Definition or_probe : probe := fun s =>
  match match_keyword "OR" s with POk true s => (Some Or, s) | POk false s => (None, s) | _ => (None, s) end.

Definition and_probe : probe := fun s =>
  if peek_word_is "AND" s
  then match match_keyword "AND" s with POk _ s => (Some And, s) | _ => (None, s) end
  else (None, s).

Definition symbol_probe (op_of : input -> option BinaryOperator) : probe := fun s =>
  let s := skip_whitespace s in
  match op_of s with Some op => (Some op, drop 1 s) | None => (None, s) end.

Definition bitor_probe : probe := symbol_probe (fun s =>
  if looking_at "|" s && negb (starts_with "||" s) then Some BitOr else None).
Definition bitxor_probe : probe := symbol_probe (fun s => if looking_at "^" s then Some BitXor else None).
Definition bitand_probe : probe := symbol_probe (fun s =>
  if looking_at "&" s && negb (starts_with "&&" s) then Some BitAnd else None).
Definition additive_probe : probe := symbol_probe (fun s =>
  if looking_at "+" s then Some Add else if looking_at "-" s then Some Sub else None).
Definition multiplicative_probe : probe := symbol_probe (fun s =>
  if looking_at "*" s then Some Mul else if looking_at "/" s then Some Div
  else if looking_at "%" s then Some Mod else None).

(** A left-associative level. *)
Fixpoint binary_loop (n : nat) (next : P Expr) (pr : probe) (left : Expr) : P Expr :=
  match n with
  | O => pfuel
  | S n => fun s =>
      match pr s with
      | (None, s) => POk left s
      | (Some op, s) => (right <~ next; binary_loop n next pr (BinaryOp left op right)) s
      end
  end.

Definition binary_level (n : nat) (pr : probe) (next : P Expr) : P Expr :=
  left <~ next; binary_loop n next pr left.

(** *** Literals, calls and postfixes *)

Section primary.
Context (n : nat) (expr : P Expr).

(** [item, item, ...] up to the closing character; a trailing comma is accepted. *)
Fixpoint comma_list {A} (n : nat) (close : ascii) (item : P (list A)) (acc : list A) : P (list A) :=
  match n with
  | O => pfuel
  | S n => fun s =>
      let s := skip_whitespace s in
      if looking_at close s then POk acc s
      else
        (items <~ item; ws;; more <~ accept ",";
         if more : bool then comma_list n close item (acc ++ items) else pret (acc ++ items)) s
  end.

Definition closed_list {A} (close : ascii) (item : P (list A)) : P (list A) :=
  items <~ comma_list n close item []; expect_char close;; pret items.

Definition parse_in_list : P (list Expr) :=
  expect_char "(";; closed_list ")" (e <~ expr; pret [e]).

Definition object_entry : P (list Expr) :=
  key <~ parse_object_key; expect_char ":";; v <~ expr; pret [Literal (VString key); v].

(** A [*] alone as an argument. *)
Definition lone_star (s : input) : bool :=
  looking_at "*" s &&
  let after := skip_whitespace (drop 1 s) in looking_at "," after || looking_at ")" after.

Fixpoint call_args (n : nat) (acc : list Expr) : P (list Expr) :=
  match n with
  | O => pfuel
  | S n => fun s =>
      let s := skip_whitespace s in
      let next arg : P (list Expr) :=
        ws;; more <~ accept ","; if more : bool then call_args n (acc ++ [arg]) else pret (acc ++ [arg]) in
      if lone_star s then next Wildcard (drop 1 s) else (arg <~ expr; next arg) s
  end.

(** The arguments after the opening parenthesis, with the closing one. *)
Definition parse_args : P (list Expr) := fun s =>
  let s := skip_whitespace s in
  (args <~ (if looking_at ")" s then pret [] else call_args n []); expect_char ")";; pret args) s.

Fixpoint over_clauses (n : nat) (partition_by when : option Expr) : P (option Expr * option Expr) :=
  match n with
  | O => pfuel
  | S n => fun s =>
      if peek_word_is "PARTITION" s then
        (match_keyword "PARTITION";; expect_keyword "BY";; e <~ expr; over_clauses n (Some e) when) s
      else if peek_word_is "WHEN" s then
        (match_keyword "WHEN";; e <~ expr; over_clauses n partition_by (Some e)) s
      else POk (partition_by, when) (skip_whitespace s)
  end.

Definition parse_over (call : Expr) : P Expr :=
  found <~ match_keyword "OVER";
  if found : bool then
    expect_char "(";; clauses <~ over_clauses n None None; expect_char ")";;
    pret (Over call clauses.1 clauses.2)
  else pret call.

Fixpoint when_clauses (n : nat) (acc : list (Expr * Expr)) : P (list (Expr * Expr)) :=
  match n with
  | O => pfuel
  | S n =>
      found <~ match_keyword "WHEN";
      if found : bool then
        condition <~ expr; expect_keyword "THEN";; result <~ expr; when_clauses n (acc ++ [(condition, result)])
      else pret acc
  end.

(** [parse_case], after the keyword. *)
Definition parse_case : P Expr :=
  operand <~ (fun s => if peek_word_is "WHEN" s then POk None s else (e <~ expr; pret (Some e)) s);
  clauses <~ when_clauses n [];
  if bool_decide (clauses = []) then perr
  else
    found <~ match_keyword "ELSE";
    other <~ (if found : bool then e <~ expr; pret (Some e) else pret None);
    expect_keyword "END";; pret (Case operand clauses other).

(** The upper bound of a slice, after the colon, and the bracket. *)
Definition slice_end : P (option Expr) := fun s =>
  let s := skip_whitespace s in
  (hi <~ (if looking_at "]" s then pret None else e <~ expr; pret (Some e)); expect_char "]";; pret hi) s.

Definition parse_subscript (base : Expr) : P Expr := fun s =>
  let s := skip_whitespace s in
  if looking_at ":" s then (hi <~ slice_end; pret (Slice base None hi)) (drop 1 s)
  else
    (first <~ expr; ws;; colon <~ accept ":";
     if colon : bool then hi <~ slice_end; pret (Slice base (Some first) hi)
     else expect_char "]";; pret (Index base first)) s.

Definition dot_field : P string := fun s =>
  let s := skip_whitespace s in
  if looking_at "*" s then POk "*" (drop 1 s)
  else if looking_at "`" s then parse_backtick_identifier s else word s.

Definition arrow_field : P string := fun s =>
  let s := skip_whitespace s in
  if at_quote s then quoted s else if looking_at "`" s then parse_backtick_identifier s else word s.

Fixpoint postfix_loop (n : nat) (e : Expr) : P Expr :=
  match n with
  | O => pfuel
  | S n => fun s =>
      let s := skip_whitespace s in
      if looking_at "." s then (f <~ dot_field; postfix_loop n (FieldAccess e f)) (drop 1 s)
      else if starts_with "->" s then (f <~ arrow_field; postfix_loop n (FieldAccess e f)) (drop 2 s)
      else if looking_at "[" s then (e <~ parse_subscript e; postfix_loop n e) (drop 1 s)
      else POk e s
  end.

Definition parse_postfix (e : Expr) : P Expr := postfix_loop n e.

(** A word: a literal, [CASE], a call or a column. *)
Definition parse_word : P Expr :=
  w <~ word;
  if eq_ignore_ascii_case w "true" then parse_postfix (Literal (VBool true))
  else if eq_ignore_ascii_case w "false" then parse_postfix (Literal (VBool false))
  else if eq_ignore_ascii_case w "null" then parse_postfix (Literal VNull)
  else if eq_ignore_ascii_case w "CASE" then e <~ parse_case; parse_postfix e
  else
    ws;; is_call <~ accept "(";
    if is_call : bool then args <~ parse_args; e <~ parse_over (Call w args); parse_postfix e
    else parse_postfix (Identifier w).

Definition parse_primary : P Expr := fun s =>
  let s := skip_whitespace s in
  if bool_decide (s = []) then PErr
  else if looking_at "`" s then (ident <~ parse_backtick_identifier; parse_postfix (Identifier ident)) s
  else if looking_at "(" s then (e <~ expr; expect_char ")";; parse_postfix e) (drop 1 s)
  else if at_quote s then (t <~ quoted; parse_postfix (Literal (VString t))) s
  else if looking_at "[" s then
    (args <~ closed_list "]" (e <~ expr; pret [e]); parse_postfix (Call "array_create" args)) (drop 1 s)
  else if looking_at "{" s then
    (args <~ closed_list "}" object_entry; parse_postfix (Call "json_map" args)) (drop 1 s)
  else if is_number_start s then (e <~ parse_number; parse_postfix e) s
  else parse_word s.

(** *** Operators *)

Fixpoint parse_unary (n : nat) : P Expr :=
  match n with
  | O => pfuel
  | S n => fun s =>
      let s := skip_whitespace s in
      if peek_word_is "NOT" s then (match_keyword "NOT";; e <~ parse_unary n; pret (UnaryOp Not e)) s
      else if looking_at "-" s then (e <~ parse_unary n; pret (UnaryOp Neg e)) (drop 1 s)
      else if looking_at "+" s then parse_unary n (drop 1 s)
      else parse_primary s
  end.

Definition parse_multiplicative : P Expr := binary_level n multiplicative_probe (parse_unary n).
Definition parse_additive : P Expr := binary_level n additive_probe parse_multiplicative.
Definition parse_bitand : P Expr := binary_level n bitand_probe parse_additive.
Definition parse_bitxor : P Expr := binary_level n bitxor_probe parse_bitand.
Definition parse_bitor : P Expr := binary_level n bitor_probe parse_bitxor.

(** The comparison operator the input starts with, and its length. *)
Definition comparison_op (s : input) : option (BinaryOperator * nat) :=
  if starts_with ">=" s then Some (Gte, 2%nat)
  else if starts_with "<=" s then Some (Lte, 2%nat)
  else if starts_with "!=" s || starts_with "<>" s then Some (Neq, 2%nat)
  else if starts_with "==" s then Some (Eq, 2%nat)
  else if looking_at ">" s then Some (Gt, 1%nat)
  else if looking_at "<" s then Some (Lt, 1%nat)
  else if looking_at "=" s then Some (Eq, 1%nat)
  else None.

(** The input after a keyword that was seen. *)
Definition after_keyword (kw : string) (s : input) : input :=
  match match_keyword kw s with POk _ s => s | _ => s end.

Definition parse_comparison : P Expr :=
  left <~ parse_bitor;
  fun s =>
    let s := skip_whitespace s in
    if peek_word_is "NOT" s then
      let s' := after_keyword "NOT" s in
      if peek_word_is "LIKE" s' then
        (right <~ parse_bitor; pret (UnaryOp Not (BinaryOp left Like right))) (after_keyword "LIKE" s')
      else POk left s
    else if peek_word_is "LIKE" s then
      (right <~ parse_bitor; pret (BinaryOp left Like right)) (after_keyword "LIKE" s)
    else
      match comparison_op s with
      | Some (op, len) => (right <~ parse_bitor; pret (BinaryOp left op right)) (drop len s)
      | None => POk left s
      end.

Definition between_bounds (left : Expr) (negated : bool) : P Expr :=
  low <~ parse_comparison; expect_keyword "AND";; high <~ parse_comparison; pret (Between left low high negated).

Definition parse_range : P Expr :=
  left <~ parse_comparison;
  fun s =>
    let s := skip_whitespace s in
    if peek_word_is "BETWEEN" s then between_bounds left false (after_keyword "BETWEEN" s)
    else if peek_word_is "NOT" s then
      let s' := after_keyword "NOT" s in
      if peek_word_is "BETWEEN" s' then between_bounds left true (after_keyword "BETWEEN" s')
      else if peek_word_is "IN" s' then
        (items <~ parse_in_list; pret (InList left items true)) (after_keyword "IN" s')
      else if peek_word_is "LIKE" s' then
        (right <~ parse_comparison; pret (UnaryOp Not (BinaryOp left Like right))) (after_keyword "LIKE" s')
      else POk left s
    else if peek_word_is "IN" s then
      (items <~ parse_in_list; pret (InList left items false)) (after_keyword "IN" s)
    else if peek_word_is "IS" s then
      (negated <~ match_keyword "NOT"; expect_keyword "NULL";; pret (IsNull left negated)) (after_keyword "IS" s)
    else if peek_word_is "LIKE" s then
      (right <~ parse_comparison; pret (BinaryOp left Like right)) (after_keyword "LIKE" s)
    else POk left s.

Definition parse_and : P Expr := binary_level n and_probe parse_range.
Definition parse_or : P Expr := binary_level n or_probe parse_and.
End primary.

Fixpoint parse_expr (fuel : nat) : P Expr :=
  match fuel with
  | O => pfuel
  | S n => parse_or (S n) (parse_expr n)
  end.
End levels.
