(* ===== verification/Statements.v ===== *)
(** * The SQL parser: statements ([crates/rekuiper-sql/src/parser.rs])

    [SELECT] with its clauses, window definitions, and [CREATE STREAM] and [CREATE TABLE]
    with their column definitions and options.  The conventions are those of Parser.v;
    [n] is the fuel of the loops and of the expressions. *)

From Stdlib Require Import SpecFloat Ascii.
From S2P Require Import Prelude Rust Characters Json Ast Numbers Parser.

Set Default Goal Selector "!".
#[local] Open Scope parser_scope.

(** ** Window definitions *)

Definition time_unit_from_str (s : string) : option TimeUnit :=
  let l := to_ascii_lowercase s in
  if bool_decide (l = "dd") then Some Dd
  else if bool_decide (l = "hh") then Some Hh
  else if bool_decide (l = "mi") then Some Mi
  else if bool_decide (l = "ss") then Some Ss
  else if bool_decide (l = "ms") then Some Ms
  else None.

Definition parse_window_unit (e : Expr) : option TimeUnit :=
  match e with
  | Identifier name => time_unit_from_str name
  | Literal (VString s) => time_unit_from_str s
  | _ => None
  end.

(** [f.is_finite() && f >= 0.0 && f.trunc() == f] *)
Definition is_whole (f : f64) : bool :=
  is_finite f && f64_leb f64_zero f && SFeqb (f64_of_Z (f64_trunc f)) f.

Definition parse_window_u64 (e : Expr) : option Z :=
  match e with
  | Literal (VNumber (PosInt u)) => Some u
  | Literal (VNumber (NegInt i)) => if 0 <=? i then Some i else None
  | Literal (VNumber (Float f)) => if is_whole f then Some (f64_as_u64 f) else None
  | _ => None
  end.

Definition parse_window_usize (e : Expr) : option nat := Z.to_nat <$> parse_window_u64 e.

(** The optional last argument of a window. *)
Definition optional_arg {A} (parse : Expr -> option A) (args : list Expr) : option (option A) :=
  match args with
  | [] => Some None
  | [a] => v ← parse a; Some (Some v)
  | _ => None
  end.

(** The window of a call; [None] when the arguments are wrong, [Some None] when the call is
    not a window. *)
Definition window_of_call (name : string) (args : list Expr) : option (option WindowDef) :=
  let l := to_ascii_lowercase name in
  if bool_decide (l = "statewindow") then
    match args with
    | start :: rest => e ← optional_arg Some rest; Some (Some (StateWindow start e))
    | [] => None
    end
  else if bool_decide (l = "tumblingwindow") then
    match args with
    | [u; len] => u ← parse_window_unit u; len ← parse_window_u64 len; Some (Some (TumblingTime u len))
    | _ => None
    end
  else if bool_decide (l = "hoppingwindow") then
    match args with
    | [u; len; i] =>
        u ← parse_window_unit u; len ← parse_window_u64 len; i ← parse_window_u64 i; Some (Some (HoppingTime u len i))
    | _ => None
    end
  else if bool_decide (l = "slidingwindow") then
    match args with
    | u :: len :: rest =>
        u ← parse_window_unit u; len ← parse_window_u64 len; d ← optional_arg parse_window_u64 rest;
        Some (Some (SlidingTime u len d))
    | _ => None
    end
  else if bool_decide (l = "countwindow") then
    match args with
    | size :: rest =>
        size ← parse_window_usize size; i ← optional_arg parse_window_usize rest; Some (Some (CountWindow size i))
    | [] => None
    end
  else if bool_decide (l = "sessionwindow") then
    match args with
    | [u; d; t] =>
        u ← parse_window_unit u; d ← parse_window_u64 d; t ← parse_window_u64 t;
        if (d =? 0) || (t =? 0) then None else Some (Some (Session u d t))
    | _ => None
    end
  else Some None.

Definition try_parse_window_def (e : Expr) : option (option WindowDef) :=
  match e with
  | Call name args => window_of_call name args
  | Over (Call name args) _ _ => window_of_call name args
  | _ => Some None
  end.

(** ** SELECT *)

Section select.
Context `{Unicode}.
Context (n : nat).
#[local] Abbreviation expr := (parse_expr n).

(** [item, item, ...]: at least one, no trailing comma. *)
Fixpoint items {A} (n : nat) (item : P A) (acc : list A) : P (list A) :=
  match n with
  | O => pfuel
  | S n =>
      x <~ item; ws;; more <~ accept ",";
      if more : bool then items n item (acc ++ [x]) else pret (acc ++ [x])
  end.

Definition replacement : P (Expr * string) :=
  e <~ expr; expect_keyword "AS";; col <~ parse_column_identifier; pret (e, col).

(** The modifiers after a [*], until none follows. *)
Fixpoint wildcard_modifiers (n : nat) (except : list string) (replace : list (Expr * string)) (is_modified : bool)
    : P Expr :=
  match n with
  | O => pfuel
  | S n' => fun s =>
      if peek_word_is "EXCEPT" s then
        (match_keyword "EXCEPT";; expect_char "(";; cols <~ items n parse_column_identifier [];
         expect_char ")";; wildcard_modifiers n' (except ++ cols) replace true) s
      else if peek_word_is "REPLACE" s then
        (match_keyword "REPLACE";; expect_char "(";; reps <~ items n replacement [];
         expect_char ")";; wildcard_modifiers n' except (replace ++ reps) true) s
      else POk (if is_modified then WildcardModified except replace else Wildcard) (skip_whitespace s)
  end.

(** An alias after [AS]: a quoted name, or a word that does not start the next clause. *)
Definition alias_name : P (option string) := fun s =>
  let s := skip_whitespace s in
  if looking_at "`" s then (a <~ parse_backtick_identifier; pret (Some a)) s
  else
    match peek_word s with
    | Some w =>
        if existsb (fun kw => is_keyword kw w) ["FROM"; "WHERE"; "AND"; "OR"] then POk None s
        else POk (Some (to_str w)) (drop (length w) s)
    | None => POk None s
    end.

Definition field_alias : P (option string) := fun s =>
  let s := skip_whitespace s in
  if peek_word_is "AS" s then (match_keyword "AS";; alias_name) s
  else if looking_at "`" s then (a <~ parse_backtick_identifier; pret (Some a)) s
  else POk None s.

Definition select_field : P (Expr * option string) := fun s =>
  let s := skip_whitespace s in
  if looking_at "*" s then (e <~ wildcard_modifiers n [] [] false; pret (e, None)) (drop 1 s)
  else if peek_word_is "FROM" s then PErr
  else (e <~ expr; a <~ field_alias; pret (e, a)) s.

Definition RESERVED : list string :=
  ["WHERE"; "GROUP"; "ORDER"; "LIMIT"; "HAVING"; "JOIN"; "INNER"; "LEFT"; "RIGHT"; "FULL"; "CROSS"; "OUTER";
   "ASOF"; "ON"; "UNION"; "ALL"; "SELECT"; "FROM"; "AS"; "DESC"; "ASC"; "OVER"; "PARTITION"; "BY"; "BETWEEN";
   "IN"; "LIKE"; "IS"; "NOT"; "NULL"; "AND"; "OR"; "CASE"; "WHEN"; "THEN"; "ELSE"; "END"].

Definition parse_optional_alias : P (option string) :=
  found <~ match_keyword "AS";
  if found : bool then
    fun s =>
      let s := skip_whitespace s in
      if looking_at "`" s then (a <~ parse_backtick_identifier; pret (Some a)) s
      else (a <~ word; pret (Some a)) s
  else fun s =>
    if looking_at "`" s then (a <~ parse_backtick_identifier; pret (Some a)) s
    else
      match peek_word s with
      | Some w =>
          if existsb (fun r => is_keyword r w) RESERVED then POk None s
          else POk (Some (to_str w)) (drop (length w) (skip_whitespace s))
      | None => POk None s
      end.

(** *** Joins *)

(** The words before [JOIN]: [LEFT], [RIGHT], [FULL], [CROSS], [INNER] or [ASOF], then
    [ASOF] after [LEFT], then [OUTER]; [None] when no [JOIN] follows. *)
Definition join_prefixes : list (string * JoinType) :=
  [("LEFT", Left); ("RIGHT", Right); ("FULL", Full); ("CROSS", Cross); ("INNER", Inner); ("ASOF", Asof)].

Definition skip_keyword (kw : string) (s : input) : input :=
  if peek_word_is kw s then after_keyword kw s else s.

Definition join_header (s : input) : option (JoinType * input) :=
  let '(join_type, s) :=
    match List.find (fun p => peek_word_is p.1 s) join_prefixes with
    | Some (kw, jt) =>
        let s := after_keyword kw s in
        if bool_decide (jt = Left) && peek_word_is "ASOF" s then (LeftAsof, after_keyword "ASOF" s) else (jt, s)
    | None => (Inner, s)
    end in
  let s := skip_keyword "OUTER" s in
  match match_keyword "JOIN" s with POk true s => Some (join_type, s) | _ => None end.

Definition not_targets : list string := ["WHERE"; "GROUP"; "ORDER"; "LIMIT"; "HAVING"; "JOIN"; "ON"; "ASOF"].

Definition join_target : P string := fun s =>
  match peek_word s with
  | Some t => if existsb (fun kw => is_keyword kw t) not_targets then PErr else word s
  | None => PErr
  end.

Fixpoint parse_joins (n' : nat) (acc : list JoinClause) : P (list JoinClause) :=
  match n' with
  | O => pfuel
  | S n' => fun s =>
      match join_header s with
      | None => POk acc s
      | Some (join_type, s) =>
          (target <~ join_target; alias <~ parse_optional_alias; found <~ match_keyword "ON";
           on <~ (if found : bool then e <~ expr; pret (Some e) else pret None);
           parse_joins n' (acc ++ [mkJoin join_type target alias on])) s
      end
  end.

(** *** GROUP BY *)

(** What the items of [GROUP BY] have given so far. *)
Record Grouping := mkGrouping {
  g_exprs : list Expr;
  g_window : option WindowDef;
  g_filter : option Expr;
  g_trigger : option Expr;
  g_partition : option Expr;
}.

Definition no_grouping : Grouping := mkGrouping [] None None None None.

Definition set_trigger (e : Expr) (g : Grouping) : Grouping :=
  mkGrouping (g_exprs g) (g_window g) (g_filter g) (Some e) (g_partition g).
Definition set_partition (e : Expr) (g : Grouping) : Grouping :=
  mkGrouping (g_exprs g) (g_window g) (g_filter g) (g_trigger g) (Some e).
Definition set_filter (e : Expr) (g : Grouping) : Grouping :=
  mkGrouping (g_exprs g) (g_window g) (Some e) (g_trigger g) (g_partition g).
Definition set_window (w : WindowDef) (g : Grouping) : Grouping :=
  mkGrouping (g_exprs g) (Some w) (g_filter g) (g_trigger g) (g_partition g).
Definition add_group (e : Expr) (g : Grouping) : Grouping :=
  mkGrouping (g_exprs g ++ [e]) (g_window g) (g_filter g) (g_trigger g) (g_partition g).

(** The clauses of an item [call OVER (...)], unless given before. *)
Definition adopt_over (item : Expr) (g : Grouping) : Grouping :=
  match item with
  | Over _ partition_by when =>
      mkGrouping (g_exprs g) (g_window g) (g_filter g)
        (match g_trigger g with Some t => Some t | None => when end)
        (match g_partition g with Some p => Some p | None => partition_by end)
  | _ => g
  end.

Fixpoint window_over (n' : nat) (g : Grouping) : P Grouping :=
  match n' with
  | O => pfuel
  | S n' => fun s =>
      if peek_word_is "WHEN" s then (match_keyword "WHEN";; e <~ expr; window_over n' (set_trigger e g)) s
      else if peek_word_is "PARTITION" s then
        (match_keyword "PARTITION";; expect_keyword "BY";; e <~ expr; window_over n' (set_partition e g)) s
      else POk g (skip_whitespace s)
  end.

(** [FILTER (WHERE ...)] and [OVER (...)] after a window. *)
Fixpoint window_clauses (n' : nat) (g : Grouping) : P Grouping :=
  match n' with
  | O => pfuel
  | S n' => fun s =>
      if peek_word_is "FILTER" s then
        (match_keyword "FILTER";; expect_char "(";; expect_keyword "WHERE";; e <~ expr; expect_char ")";;
         window_clauses n' (set_filter e g)) s
      else if peek_word_is "OVER" s then
        (match_keyword "OVER";; expect_char "(";; g <~ window_over n g; expect_char ")";; window_clauses n' g) s
      else POk g (skip_whitespace s)
  end.

Fixpoint group_items (n' : nat) (g : Grouping) : P Grouping :=
  match n' with
  | O => pfuel
  | S n' =>
      item <~ expr;
      let g := adopt_over item g in
      w <~ of_option (try_parse_window_def item);
      g <~ match w with Some w => window_clauses n (set_window w g) | None => pret (add_group item g) end;
      ws;; more <~ accept ",";
      if more : bool then group_items n' g else pret g
  end.

Definition parse_group_by : P Grouping := fun s =>
  if peek_word_is "GROUP" s
  then (expect_keyword "GROUP";; expect_keyword "BY";; group_items n no_grouping) s
  else POk no_grouping s.

(** *** ORDER BY and LIMIT *)

Definition order_item : P OrderByItem :=
  e <~ expr;
  fun s =>
    if peek_word_is "DESC" s then POk (mkOrderBy e Desc) (after_keyword "DESC" s)
    else POk (mkOrderBy e Asc) (skip_keyword "ASC" s).

Definition optional {A} (kw : string) (p : P A) : P (option A) :=
  found <~ match_keyword kw; if found : bool then x <~ p; pret (Some x) else pret None.

Definition parse_order_by : P (list OrderByItem) :=
  l <~ optional "ORDER" (expect_keyword "BY";; items n order_item []); pret (default [] l).

Definition limit_value : P nat := w <~ word; v <~ of_option (parse_u64 w); pret (Z.to_nat v).

(** *** The statement *)

Definition semicolon : P unit := ws;; accept ";";; pret tt.
End select.

Fixpoint parse_select `{Unicode} (fuel : nat) : P SelectStmt :=
  match fuel with
  | O => pfuel
  | S fuel =>
      let n := S fuel in
      expect_keyword "SELECT";;
      fs <~ items n (select_field n) [];
      expect_keyword "FROM";;
      from <~ word;
      from_alias <~ parse_optional_alias;
      joins <~ parse_joins n n [];
      where_clause <~ optional "WHERE" (parse_expr n);
      g <~ parse_group_by n;
      having <~ optional "HAVING" (parse_expr n);
      order_by <~ parse_order_by n;
      limit <~ optional "LIMIT" limit_value;
      semicolon;;
      set_op <~ optional "UNION" (all <~ match_keyword "ALL"; s <~ parse_select fuel;
                                  pret (if all : bool then UnionAll else Union, s));
      pret (mkSelect fs.*1 fs.*2 from from_alias joins where_clause (g_exprs g) (g_window g) (g_filter g)
              (g_trigger g) (g_partition g) having order_by limit set_op)
  end.

(** A whole text. *)
Definition parse_select_text `{Unicode} (s : input) : presult SelectStmt := parse_select (S (length s)) s.

(** ** CREATE STREAM and CREATE TABLE *)

Definition one_of (s : string) (c : Z) : bool := existsb (Z.eqb c) (cps s).
Definition quote_char (c : Z) : bool := one_of "'`" c || (c =? code double_quote).
Definition trim_end (p : Z -> bool) (s : input) : input := rev (span p (rev s)).2.
Definition ends_with (c : ascii) (s : input) : bool := looking_at c (rev s).
Definition strip_suffix (p : string) (s : input) : option input :=
  r ← strip_prefix (rev (cps p)) (rev s); Some (rev r).
Definition lower_cp (c : Z) : Z := if (65 <=? c) && (c <=? 90) then c + 32 else c.
Definition upper_cp (c : Z) : Z := if (97 <=? c) && (c <=? 122) then c - 32 else c.

(** Inside which quotes a scan is. *)
Record Quotes := mkQuotes { in_single : bool; in_double : bool }.
Definition no_quotes : Quotes := mkQuotes false false.
Definition quoting (q : Quotes) : bool := in_single q || in_double q.

(** The quotes after a character. *)
Definition quote_step (c : Z) (q : Quotes) : Quotes :=
  if in_single q then mkQuotes (negb (c =? code "'")) (in_double q)
  else if in_double q then mkQuotes false (negb (c =? code double_quote))
  else mkQuotes (c =? code "'") (c =? code double_quote).

(** The text up to the parenthesis that closes [depth] ones, and the rest after it. *)
Fixpoint find_close (depth : nat) (q : Quotes) (s : input) : option (input * input) :=
  match s with
  | [] => None
  | c :: r =>
      let next depth := '(a, b) ← find_close depth (quote_step c q) r; Some (c :: a, b) in
      if quoting q then next depth
      else if c =? code "(" then next (S depth)
      else if c =? code ")" then
        match depth with
        | S O => Some ([], r)
        | _ => next (pred depth)
        end
      else next depth
  end.

(** Pieces between commas outside quotes; [cur] is the piece read so far, in reverse. *)
Fixpoint split_pairs (q : Quotes) (cur : input) (s : input) : list input :=
  match s with
  | [] => if bool_decide (trim_cps (rev cur) = []) then [] else [rev cur]
  | c :: r =>
      if negb (quoting q) && (c =? code ",") then rev cur :: split_pairs q [] r
      else split_pairs (quote_step c q) (c :: cur) r
  end.

(** The same at parenthesis depth 0, keeping an empty last piece. *)
Fixpoint split_commas (depth : nat) (q : Quotes) (cur : input) (s : input) : list input :=
  match s with
  | [] => [rev cur]
  | c :: r =>
      if quoting q then split_commas depth (quote_step c q) (c :: cur) r
      else if c =? code "(" then split_commas (S depth) q (c :: cur) r
      else if c =? code ")" then split_commas (pred depth) q (c :: cur) r
      else if (c =? code ",") && (depth =? 0)%nat then rev cur :: split_commas depth q [] r
      else split_commas depth (quote_step c q) (c :: cur) r
  end.
Definition split_top_level_commas (s : input) : list input := split_commas 0 no_quotes [] s.

Section create.
Context `{Unicode}.

(** [str::to_uppercase] *)
Definition to_uppercase (s : input) : input := flat_map (fun c => if c <? 128 then [upper_cp c] else uppercase c) s.

Definition unquote (v : input) : input :=
  if ((looking_at "'" v && ends_with "'" v) || (looking_at double_quote v && ends_with double_quote v))
     && (2 <=? length v)%nat
  then drop 1 (take (length v - 1) v) else v.

Definition add_option (opts : gmap string string) (part : input) : gmap string string :=
  match split_at_char (code "=") (trim_cps part) with
  | Some (k, v) =>
      <[to_str (to_uppercase (trim_by quote_char (trim_cps k))) := to_str (unquote (trim_cps v))]> opts
  | None => opts
  end.

Definition parse_with_options : P (gmap string string) :=
  found <~ match_keyword "WITH";
  if found : bool then
    fun s =>
      let s := skip_whitespace s in
      if looking_at "(" s then
        match find_close 1 no_quotes (drop 1 s) with
        | Some (content, rest) => POk (foldl add_option ∅ (split_pairs no_quotes [] content)) rest
        | None => PErr
        end
      else POk ∅ s
  else pret ∅.

(** *** Column types *)

Definition digits_only (s : input) : bool := bool_decide (s <> []) && forallb is_digit s.

Definition simple_types : list string :=
  ["bigint"; "int"; "integer"; "smallint"; "tinyint"; "float"; "double"; "real"; "numeric"; "decimal"; "string";
   "text"; "varchar"; "char"; "datetime"; "timestamp"; "date"; "time"; "boolean"; "bool"; "bytea"; "binary"; "blob";
   "array"; "struct"; "json"; "object"; "map"].

(** The text between the opening [p] and the closing character. *)
Definition enclosed (p : string) (close : ascii) (t : input) : option input :=
  r ← strip_prefix (cps p) t;
  if ends_with close t then Some (trim_cps (take (length r - 1) r)) else None.

Fixpoint split_char (c : Z) (cur s : input) : list input :=
  match s with
  | [] => [rev cur]
  | x :: r => if x =? c then rev cur :: split_char c [] r else split_char c (x :: cur) r
  end.

Definition some_of {A} (l : list (option A)) : option A := foldr (fun a b => match a with Some _ => a | None => b end) None l.

(** The type of a field [name type] of a struct; a single token is a type. *)
Definition field_type (f : input) : input :=
  let '(_, rest) := span (fun c => negb (is_space c)) f in
  match rest with [] => f | _ => trim_cps (drop 1 rest) end.

Fixpoint is_valid_type (fuel : nat) (ty : input) : bool :=
  match fuel with
  | O => false
  | S fuel =>
      let t := map lower_cp (trim_cps ty) in
      if bool_decide (t = []) then false
      else if bool_decide (to_str t ∈ simple_types) then true
      else
        match some_of [enclosed "decimal(" ")" t; enclosed "numeric(" ")" t] with
        | Some inner =>
            let parts := trim_cps <$> split_char (code ",") [] inner in
            bool_decide (length parts <= 2)%nat && forallb digits_only parts
        | None =>
            match some_of [enclosed "varchar(" ")" t; enclosed "char(" ")" t] with
            | Some inner => digits_only inner
            | None =>
                match some_of [enclosed "array(" ")" t; enclosed "array[" "]" t] with
                | Some inner => bool_decide (inner = []) || is_valid_type fuel inner
                | None =>
                    match strip_suffix "[]" t with
                    | Some base => is_valid_type fuel (trim_cps base)
                    | None =>
                        match enclosed "struct(" ")" t with
                        | Some inner =>
                            bool_decide (inner = []) ||
                            forallb (fun part =>
                              let part := trim_cps part in
                              bool_decide (part = []) || is_valid_type fuel (field_type part))
                              (split_top_level_commas inner)
                        | None => false
                        end
                    end
                end
            end
        end
  end.
Definition is_valid_stream_type (ty : input) : bool := is_valid_type (S (length ty)) ty.

(** *** Column definitions *)

Definition is_ascii_space (c : Z) : bool := existsb (Z.eqb c) [9; 10; 12; 13; 32].

(** Whether [DEFAULT] starts here, as a word of its own. *)
Definition at_default (prev : option Z) (s : input) : option input :=
  r ← strip_prefix (cps "default") (map lower_cp (take 7 s));
  if match prev with None => true | Some c => is_ascii_space c end &&
     match drop 7 s with [] => true | c :: _ => is_ascii_space c end
  then Some (drop 7 s) else None.

(** The scan of [split_at_default]: the text before the keyword (in reverse) and after it.
    It goes byte by byte and slices at every one, so a character of several bytes outside
    quotes and brackets panics. *)
Fixpoint default_scan (depth : nat) (q : Quotes) (seen : input) (s : input) : presult (input * option input) :=
  match s with
  | [] => POk (trim_cps (rev seen), None) []
  | c :: r =>
      if quoting q then default_scan depth (quote_step c q) (c :: seen) r
      else if one_of "([" c then default_scan (S depth) q (c :: seen) r
      else if one_of ")]" c then default_scan (pred depth) q (c :: seen) r
      else if quote_char c && negb (c =? code "`") then default_scan depth (quote_step c q) (c :: seen) r
      else if (depth =? 0)%nat then
        match at_default (head seen) s with
        | Some rest => POk (trim_cps (rev seen), Some (trim_cps rest)) []
        | None => if 128 <=? c then PPanic else default_scan depth q (c :: seen) r
        end
      else default_scan depth q (c :: seen) r
  end.
Definition split_at_default (s : input) : presult (input * option input) := default_scan 0 no_quotes [] s.

(** A column name and the text after it; [None] when a quote is not closed. *)
Definition column_head (part : input) : option (input * input) :=
  match part with
  | c :: r =>
      if quote_char c then '(name, rest) ← split_at_char c r; Some (name, trim_cps rest)
      else let '(name, rest) := span (fun c => negb (is_space c)) part in Some (name, trim_cps rest)
  | [] => Some ([], [])
  end.

Definition strip_null (t : input) : input :=
  match some_of [strip_suffix "not null" t; strip_suffix "NOT NULL" t; strip_suffix "null" t; strip_suffix "NULL" t] with
  | Some r => trim_cps r
  | None => t
  end.

Definition column_type (raw : input) : input :=
  let raw := strip_null (trim_cps raw) in
  if bool_decide (raw = []) then cps "string"
  else map lower_cp (trim_by (fun c => quote_char c || one_of ",;" c) raw).

Definition column_default (s : input) : string := to_str (trim_cps (trim_end (one_of ";,") (trim_cps s))).

Fixpoint column_defs (parts : list input) : presult (list StreamColumn) :=
  match parts with
  | [] => POk [] []
  | part :: parts =>
      let part := trim_cps part in
      if bool_decide (part = []) then column_defs parts
      else
        match column_head part with
        | None => PErr
        | Some (name, remainder) =>
            if bool_decide (name = []) then column_defs parts
            else
              match split_at_default remainder with
              | POk (raw_type, dflt) _ =>
                  let ty := column_type raw_type in
                  if negb (is_valid_stream_type ty) then PErr
                  else
                    match column_defs parts with
                    | POk cols _ => POk (mkColumn (to_str name) (to_str ty) (column_default <$> dflt) :: cols) []
                    | r => r
                    end
              | PErr => PErr
              | PPanic => PPanic
              | PFuel => PFuel
              end
        end
  end.

Definition parse_column_defs : P (list StreamColumn) := fun s =>
  if looking_at "(" s then
    match find_close 1 no_quotes (drop 1 s) with
    | Some (inner, rest) =>
        match column_defs (split_top_level_commas inner) with POk cols _ => POk cols rest | r => r end
    | None => PErr
    end
  else POk [] s.

(** [parse_create_stream] and [parse_create_table]: [kind] is [STREAM] or [TABLE]. *)
Definition parse_create (kind : string) : P CreateStmt :=
  expect_keyword "CREATE";; expect_keyword kind;;
  name <~ word;
  fields <~ (fun s =>
    let s := skip_whitespace s in
    if looking_at "(" s then parse_column_defs s
    else if peek_word_is "WITH" s || bool_decide (s = []) || looking_at ";" s then POk [] s
    else PErr);
  options <~ parse_with_options;
  ws;; accept ";";; ws;;
  fun s => if bool_decide (s = []) then POk (mkCreate name fields options) s else PErr.

Definition parse_create_stream : P CreateStmt := parse_create "STREAM".
Definition parse_create_table : P CreateStmt := parse_create "TABLE".
End create.
