(* ===== verification/ParserFacts.v ===== *)
(** * The SQL parser always returns

    Every parser of Parser.v and Statements.v, given as much fuel as its input is long plus
    one, returns a result or an error and leaves a suffix of its input; it panics only on
    inputs with characters beyond ASCII. *)

From Stdlib Require Import Ascii.
From S2P Require Import Prelude Rust Characters Json Ast Numbers Parser Statements.

Set Default Goal Selector "!".
#[local] Open Scope parser_scope.

Definition is_ascii (s : input) : Prop := Forall (fun c => c < 128) s.

(** A result that a parser may give on [s]. *)
Definition fine {A} (s : input) (r : presult A) : Prop :=
  match r with
  | POk _ r => r `suffix_of` s
  | PErr => True
  | PPanic => ~ is_ascii s
  | PFuel => False
  end.

Definition ok_at {A} (p : P A) (s : input) : Prop := fine s (p s).

(** A rest that is shorter than the input. *)
Definition shorter (r s : input) : Prop := r `suffix_of` s /\ (length r < length s)%nat.

Lemma suffix_length (r s : input) : r `suffix_of` s -> (length r <= length s)%nat.
Proof. intros [k ->]. rewrite length_app. lia. Qed.

Lemma suffix_ascii (r s : input) : r `suffix_of` s -> is_ascii s -> is_ascii r.
Proof. intros [k ->]. unfold is_ascii. rewrite Forall_app. by intros [_ ?]. Qed.

Lemma suffix_drop (m : nat) (s : input) : drop m s `suffix_of` s.
Proof. exists (take m s). by rewrite take_drop. Qed.

Lemma shorter_drop (m : nat) (s : input) : (0 < m)%nat -> s <> [] -> shorter (drop m s) s.
Proof. intros Hm Hs. split; [apply suffix_drop|]. rewrite length_drop. destruct s; [done|]. simpl. lia. Qed.

Lemma shorter_suffix r s t : shorter r s -> s `suffix_of` t -> shorter r t.
Proof. intros [H1 H2] Ht. split; [by etrans|]. apply suffix_length in Ht. lia. Qed.

Lemma suffix_shorter r s t : r `suffix_of` s -> shorter s t -> shorter r t.
Proof. intros H1 [H2 H3]. split; [by etrans|]. apply suffix_length in H1. lia. Qed.

Lemma fine_weaken {A} r s (x : presult A) : r `suffix_of` s -> fine r x -> fine s x.
Proof.
  intros Hr. destruct x; simpl; [intros; by etrans|done| |done].
  intros Hn Hs. by eapply Hn, suffix_ascii.
Qed.

Lemma fine_ok {A} (a : A) s : fine s (POk a s).
Proof. simpl. done. Qed.

Lemma ok_ret {A} (a : A) s : ok_at (pret a) s.
Proof. unfold ok_at. simpl. done. Qed.

Lemma ok_bind {A B} (p : P A) (f : A -> P B) s :
  ok_at p s -> (forall a r, p s = POk a r -> r `suffix_of` s -> ok_at (f a) r) -> ok_at (pbind p f) s.
Proof.
  unfold ok_at, pbind. intros Hp Hf. destruct (p s) as [a r| | |]; simpl in *; try done.
  eapply fine_weaken; [exact Hp|]. by apply Hf.
Qed.

Lemma pbind_inv {A B} (p : P A) (f : A -> P B) s b r :
  pbind p f s = POk b r -> exists a r', p s = POk a r' /\ f a r' = POk b r.
Proof. unfold pbind. destruct (p s) as [a r'| | |]; try done. intros Hf. by exists a, r'. Qed.

(** Running [p] on a suffix of the input. *)
Lemma ok_on {A} (p : P A) r s : r `suffix_of` s -> ok_at p r -> fine s (p r).
Proof. intros. by eapply fine_weaken. Qed.

(** ** Lexemes *)

Lemma span_app p s : (span p s).1 ++ (span p s).2 = s.
Proof. induction s as [|c s IH]; simpl; [done|]. destruct (p c); [|done]. destruct (span p s). simpl in *. by rewrite IH. Qed.

Lemma span_suffix p s : (span p s).2 `suffix_of` s.
Proof. exists (span p s).1. by rewrite span_app. Qed.

Lemma skip_suffix s : skip_whitespace s `suffix_of` s.
Proof. apply span_suffix. Qed.

Lemma span_all p s : Forall (fun c => p c = true) (span p s).1.
Proof.
  induction s as [|c s IH]; simpl; [constructor|]. destruct (p c) eqn:Hc; [|constructor].
  destruct (span p s). simpl in *. by constructor.
Qed.

Lemma ok_ws s : ok_at ws s.
Proof. apply skip_suffix. Qed.

Lemma looking_at_ne c s : looking_at c s = true -> s <> [].
Proof. by destruct s. Qed.

Lemma ok_accept c s : ok_at (accept c) s.
Proof. unfold ok_at, accept. case_match; simpl; [apply suffix_drop|done]. Qed.

Lemma accept_shorter c s r : accept c s = POk true r -> shorter r s.
Proof.
  unfold accept. destruct (looking_at c s) eqn:Hl; [|done]. intros [= <-].
  apply shorter_drop; [lia|]. by eapply looking_at_ne.
Qed.

Lemma strip_prefix_app p s r : strip_prefix p s = Some r -> s = p ++ r.
Proof.
  revert s. induction p as [|x p IH]; intros [|y s] Hp; simpl in *; simplify_eq; [done|done|].
  destruct (Z.eqb_spec x y); [|done]. subst. by rewrite (IH _ Hp).
Qed.

Lemma starts_with_ne p s : p <> "" -> starts_with p s = true -> s <> [].
Proof.
  intros Hp Hs ->. unfold starts_with in Hs. apply bool_decide_eq_true in Hs as [r Hr].
  apply strip_prefix_app in Hr. destruct p; [done|]. done.
Qed.

Lemma split_at_char_spec c s a b : split_at_char c s = Some (a, b) -> s = a ++ c :: b /\ c ∉ a.
Proof.
  revert a. induction s as [|x s IH]; intros a Hs; simpl in *; [done|].
  destruct (Z.eqb_spec x c) as [->|Hx].
  - simplify_eq. split; [done|]. apply not_elem_of_nil.
  - apply bind_Some in Hs as ([a' b'] & Hs & ?). simplify_eq. destruct (IH a' Hs) as [-> Hc].
    split; [done|]. rewrite not_elem_of_cons. done.
Qed.

Lemma quoted_fine s : fine s (quoted s) /\ (forall a r, quoted s = POk a r -> shorter r s).
Proof.
  unfold quoted. destruct s as [|q s]; [done|]. destruct (split_at_char q s) as [[a b]|] eqn:Hs; [|done].
  apply split_at_char_spec in Hs as [-> _]. split; simpl.
  - exists (q :: a ++ [q]). simpl. by rewrite <- app_assoc.
  - intros ? ? [= <- <-]. split; [exists (q :: a ++ [q]); simpl; by rewrite <- app_assoc|].
    simpl. rewrite length_app. simpl. lia.
Qed.

Section lexemes.
Context `{Unicode}.

Lemma peek_word_spec s w : peek_word s = Some w ->
  w <> [] /\ skip_whitespace s = w ++ drop (length w) (skip_whitespace s).
Proof.
  unfold peek_word. pose proof (span_app word_char (skip_whitespace s)) as Hs.
  destruct (span word_char (skip_whitespace s)) as [a b]. simpl in *. destruct a as [|c a]; [done|].
  intros [= <-]. split; [done|]. rewrite <- Hs. by rewrite drop_app_length.
Qed.

Lemma drop_word_shorter s w : peek_word s = Some w -> shorter (drop (length w) (skip_whitespace s)) s.
Proof.
  intros Hw. apply peek_word_spec in Hw as [Hne Hs].
  eapply shorter_suffix; [|apply skip_suffix]. apply shorter_drop.
  - destruct w; [done|]. simpl. lia.
  - intros Hn. rewrite Hn in Hs. destruct w; [done|]. done.
Qed.

Lemma skip_idemp s : skip_whitespace (skip_whitespace s) = skip_whitespace s.
Proof.
  unfold skip_whitespace. induction s as [|c s IH]; simpl; [done|]. destruct (is_space c) eqn:Hc.
  - destruct (span is_space s) eqn:Hs. done.
  - simpl. by rewrite Hc.
Qed.

Lemma peek_word_skip s : peek_word (skip_whitespace s) = peek_word s.
Proof. unfold peek_word. by rewrite skip_idemp. Qed.

Lemma word_fine s : fine s (word s) /\ (forall a r, word s = POk a r -> shorter r s).
Proof.
  unfold word. rewrite peek_word_skip. destruct (peek_word s) as [w|] eqn:Hw; [|done].
  pose proof (drop_word_shorter s w Hw) as Hd. split; [apply Hd|]. by intros ? ? [= <- <-].
Qed.

Lemma ok_match_keyword kw s : ok_at (match_keyword kw) s.
Proof.
  unfold ok_at, match_keyword. rewrite peek_word_skip.
  destruct (peek_word s) as [w|] eqn:Hw; simpl; [|apply skip_suffix].
  case_match; simpl; [apply (drop_word_shorter s w Hw)|apply skip_suffix].
Qed.

Lemma match_keyword_shorter kw s r : match_keyword kw s = POk true r -> shorter r s.
Proof.
  unfold match_keyword. rewrite peek_word_skip. destruct (peek_word s) as [w|] eqn:Hw; [|done].
  case_match; [|done]. intros [= <-]. by apply drop_word_shorter.
Qed.

Lemma peek_match kw s : peek_word_is kw s = true -> exists r, match_keyword kw s = POk true r.
Proof.
  unfold peek_word_is, match_keyword. rewrite peek_word_skip. destruct (peek_word s); [|done]. intros ->. by eexists.
Qed.

Lemma after_keyword_shorter kw s : peek_word_is kw s = true -> shorter (after_keyword kw s) s.
Proof.
  intros Hp. destruct (peek_match kw s Hp) as [r Hr]. unfold after_keyword. rewrite Hr.
  by apply (match_keyword_shorter kw).
Qed.

Lemma expect_keyword_fine kw s : ok_at (expect_keyword kw) s /\ (forall a r, expect_keyword kw s = POk a r -> shorter r s).
Proof.
  unfold expect_keyword, ok_at, pbind. pose proof (ok_match_keyword kw s) as Hok. unfold ok_at in Hok.
  pose proof (match_keyword_shorter kw s) as Hs. destruct (match_keyword kw s) as [[] r| | |]; simpl in *; try done.
  split; [done|]. intros ? ? [= <- <-]. by apply Hs.
Qed.

Lemma expect_char_fine c s : ok_at (expect_char c) s /\ (forall a r, expect_char c s = POk a r -> shorter r s).
Proof.
  unfold expect_char, ok_at, pbind, ws, accept. cbn.
  destruct (looking_at c (skip_whitespace s)) eqn:Hl; [|done].
  assert (Hd : shorter (drop 1 (skip_whitespace s)) s).
  { eapply shorter_suffix; [|apply skip_suffix]. apply shorter_drop; [lia|]. by eapply looking_at_ne. }
  split; [apply Hd|]. by intros ? ? [= <- <-].
Qed.

Lemma until_backtick_fine s : fine s (until_backtick s).
Proof.
  induction s as [|c s IH]; simpl; [done|]. destruct (c =? code "`"); [by exists [c]|].
  destruct (Z.leb_spec 128 c); simpl.
  - intros Ha. apply list.Forall_cons in Ha as [Hc _]. lia.
  - destruct (until_backtick s) as [a b| | |]; simpl in *; try done.
    + by apply suffix_cons_r.
    + intros Ha. apply list.Forall_cons in Ha as [_ Ha]. done.
Qed.

Lemma backtick_fine s :
  ok_at parse_backtick_identifier s /\ (forall a r, parse_backtick_identifier s = POk a r -> shorter r s).
Proof.
  unfold parse_backtick_identifier, ok_at, pbind, ws, accept. cbn.
  destruct (looking_at "`" (skip_whitespace s)) eqn:Hl; [|done]. cbn.
  assert (Hd : shorter (drop 1 (skip_whitespace s)) s).
  { eapply shorter_suffix; [|apply skip_suffix]. apply shorter_drop; [lia|]. by eapply looking_at_ne. }
  pose proof (until_backtick_fine (drop 1 (skip_whitespace s))) as Hu.
  destruct (until_backtick _) as [a b| | |]; simpl in *; try done.
  - split; [etrans; [done|apply Hd]|]. intros ? ? [= <- <-]. by eapply suffix_shorter.
  - split; [|done]. intros Ha. apply Hu. eapply suffix_ascii; [apply Hd|done].
Qed.
End lexemes.

(** ** Sequences of steps *)

Ltac len :=
  repeat match goal with
         | H : shorter _ _ |- _ => destruct H
         | H : _ `suffix_of` _ |- _ => apply suffix_length in H
         end; simpl in *; lia.

Section steps.
Context `{Unicode}.
Context {A : Type}.

Lemma ok_err (s : input) : ok_at (perr (A := A)) s.
Proof. done. Qed.

Lemma ok_bind_shorter {B} (p : P B) (f : B -> P A) s :
  fine s (p s) /\ (forall a r, p s = POk a r -> shorter r s) ->
  (forall a r, shorter r s -> ok_at (f a) r) -> ok_at (pbind p f) s.
Proof. intros [Hp Hs] Hf. apply ok_bind; [exact Hp|]. intros a r Hr _. by eapply Hf, Hs. Qed.

Lemma ok_expect_char c (q : P A) s : (forall r, shorter r s -> ok_at q r) -> ok_at (expect_char c;; q) s.
Proof. intros Hq. apply ok_bind_shorter; [apply expect_char_fine|auto]. Qed.

Lemma ok_expect_keyword kw (q : P A) s : (forall r, shorter r s -> ok_at q r) -> ok_at (expect_keyword kw;; q) s.
Proof. intros Hq. apply ok_bind_shorter; [apply expect_keyword_fine|auto]. Qed.

Lemma ok_word (f : string -> P A) s : (forall w r, shorter r s -> ok_at (f w) r) -> ok_at (pbind word f) s.
Proof. intros Hf. apply ok_bind_shorter; [apply word_fine|auto]. Qed.

Lemma ok_ws_then (q : P A) s : (forall r, r `suffix_of` s -> ok_at q r) -> ok_at (ws;; q) s.
Proof. intros Hq. apply ok_bind; [apply ok_ws|]. auto. Qed.

Lemma ok_accept_then c (f : bool -> P A) s :
  (forall r, shorter r s -> ok_at (f true) r) -> (forall r, r `suffix_of` s -> ok_at (f false) r) ->
  ok_at (pbind (accept c) f) s.
Proof.
  intros Ht Hf. apply ok_bind; [apply ok_accept|]. intros [] r Hr Hs; [|auto]. by eapply Ht, accept_shorter.
Qed.

Lemma ok_match_then kw (f : bool -> P A) s :
  (forall r, shorter r s -> ok_at (f true) r) -> (forall r, r `suffix_of` s -> ok_at (f false) r) ->
  ok_at (pbind (match_keyword kw) f) s.
Proof.
  intros Ht Hf. apply ok_bind; [apply ok_match_keyword|]. intros [] r Hr Hs; [|auto]. by eapply Ht, match_keyword_shorter.
Qed.

(** A keyword that was seen. *)
Lemma ok_seen kw (q : P A) s :
  peek_word_is kw s = true -> (forall r, shorter r s -> ok_at q r) -> ok_at (match_keyword kw;; q) s.
Proof.
  intros Hp Hq. destruct (peek_match kw s Hp) as [r Hr]. apply ok_bind; [apply ok_match_keyword|].
  intros b r' Hr' Hs. rewrite Hr in Hr'. injection Hr' as <- <-. by apply Hq, (match_keyword_shorter kw).
Qed.

Lemma fine_after_keyword kw (q : P A) s :
  peek_word_is kw s = true -> (forall r, shorter r s -> ok_at q r) -> fine s (q (after_keyword kw s)).
Proof.
  intros Hp Hq. pose proof (after_keyword_shorter kw s Hp) as Ha. apply ok_on; [apply Ha|auto].
Qed.

(** The input after its white space, and after a character or two seen there. *)
Lemma fine_skip (q : P A) s :
  (forall r, r `suffix_of` s -> ok_at q r) -> fine s (q (skip_whitespace s)).
Proof. intros Hq. apply ok_on; [apply skip_suffix|]. apply Hq, skip_suffix. Qed.

Lemma fine_drop (m : nat) (q : P A) s : (0 < m)%nat -> s <> [] ->
  (forall r, shorter r s -> ok_at q r) -> fine s (q (drop m s)).
Proof. intros Hm Hs Hq. apply ok_on; [apply suffix_drop|]. by apply Hq, shorter_drop. Qed.

(** A parser that skips white space first. *)
Lemma shrinks_after_skip (x : presult A) s :
  fine (skip_whitespace s) x /\ (forall a r, x = POk a r -> shorter r (skip_whitespace s)) ->
  fine s x /\ (forall a r, x = POk a r -> shorter r s).
Proof.
  intros [H1 H2]. split; [eapply fine_weaken; [apply skip_suffix|done]|].
  intros a r Hr. eapply shorter_suffix; [by eapply H2|apply skip_suffix].
Qed.
End steps.

Lemma ok_column_identifier `{Unicode} s :
  fine s (parse_column_identifier s) /\ (forall a r, parse_column_identifier s = POk a r -> shorter r s).
Proof.
  unfold parse_column_identifier. apply shrinks_after_skip. case_match; [apply backtick_fine|apply word_fine].
Qed.

Lemma ok_object_key `{Unicode} s :
  fine s (parse_object_key s) /\ (forall a r, parse_object_key s = POk a r -> shorter r s).
Proof. unfold parse_object_key. apply shrinks_after_skip. case_match; [apply quoted_fine|apply word_fine]. Qed.

Lemma fraction_suffix b s : (fraction b s).2 `suffix_of` s.
Proof.
  unfold fraction. destruct s as [|c s]; [done|]. case_match; [|done].
  pose proof (span_suffix is_digit s). destruct (span is_digit s). simpl in *. by apply suffix_cons_r.
Qed.

Lemma exponent_suffix s : (exponent s).2 `suffix_of` s.
Proof.
  unfold exponent. destruct s as [|c s]; [done|]. case_match; [|done].
  set (x := match s with [] => _ | _ :: _ => _ end).
  assert (Hx : x.2 `suffix_of` s).
  { subst x. destruct s as [|y s]; [done|]. case_match; simpl; [by apply suffix_cons_r|done]. }
  destruct x as [sign r]. simpl in Hx. pose proof (span_suffix is_digit r). destruct (span is_digit r) as [[|d ds] r'].
  - done.
  - simpl in *. apply suffix_cons_r. by etrans.
Qed.

Lemma ok_number s : ok_at parse_number s.
Proof.
  unfold ok_at, parse_number. eapply fine_weaken; [apply skip_suffix|]. set (t := skip_whitespace s).
  pose proof (span_suffix is_digit t) as H1. destruct (span is_digit t) as [int r]. simpl in H1.
  pose proof (fraction_suffix (bool_decide (int <> [])) r) as H2. destruct (fraction _ r) as [frac r2]. simpl in H2.
  pose proof (exponent_suffix r2) as H3. destruct (exponent r2) as [exp r3]. simpl in H3.
  case_match; [done|]. case_match; [|done]. simpl. by do 2 (etrans; [done|]).
Qed.

(** ** Expressions *)

Section levels.
Context `{Unicode}.

(** A probe that finds an operator moves past it. *)
Definition probes (pr : probe) : Prop :=
  forall s, let '(o, r) := pr s in match o with Some _ => shorter r s | None => r `suffix_of` s end.

Lemma symbol_probes op_of : (forall s, op_of s <> None -> s <> []) -> probes (symbol_probe op_of).
Proof.
  intros Hne s. unfold symbol_probe. specialize (Hne (skip_whitespace s)). destruct (op_of _); [|apply skip_suffix].
  eapply shorter_suffix; [|apply skip_suffix]. apply shorter_drop; [lia|by apply Hne].
Qed.

Lemma or_probes : probes or_probe.
Proof.
  intros s. unfold or_probe. pose proof (ok_match_keyword "OR" s) as Hok. unfold ok_at in Hok.
  pose proof (match_keyword_shorter "OR" s) as Hs. destruct (match_keyword "OR" s) as [[] r| | |]; simpl in *; try done.
  by apply Hs.
Qed.

Lemma and_probes : probes and_probe.
Proof.
  intros s. unfold and_probe. destruct (peek_word_is "AND" s) eqn:Hp; [|done].
  destruct (peek_match "AND" s Hp) as [r Hr]. rewrite Hr. by apply (match_keyword_shorter "AND").
Qed.

Ltac symbol_probes := apply symbol_probes; intros []; [by repeat case_match|done].
Lemma bitor_probes : probes bitor_probe. Proof. symbol_probes. Qed.
Lemma bitxor_probes : probes bitxor_probe. Proof. symbol_probes. Qed.
Lemma bitand_probes : probes bitand_probe. Proof. symbol_probes. Qed.
Lemma additive_probes : probes additive_probe. Proof. symbol_probes. Qed.
Lemma multiplicative_probes : probes multiplicative_probe. Proof. symbol_probes. Qed.

(** [fits k p]: [p] is fine on every input of length at most [k]. *)
Definition fits {A} (k : nat) (p : P A) : Prop := forall s, (length s <= k)%nat -> ok_at p s.

Lemma fits_le {A} k k' (p : P A) : (k' <= k)%nat -> fits k p -> fits k' p.
Proof. intros Hk Hp s Hs. apply Hp. lia. Qed.

Lemma ok_binary_loop n k next pr left : probes pr -> fits k next -> (k < n)%nat ->
  fits k (binary_loop n next pr left).
Proof.
  intros Hpr. revert k left. induction n as [|n IH]; intros k left Hnext Hk s Hs; [lia|].
  unfold ok_at. simpl. specialize (Hpr s). destruct (pr s) as [[op|] r]; [|done].
  apply ok_on; [apply Hpr|]. apply ok_bind; [apply Hnext; len|]. intros right r' _ Hr'.
  apply (IH (length r')); [|len|done]. eapply fits_le; [|done]. len.
Qed.

Lemma ok_binary_level n k pr next : probes pr -> fits k next -> (k < n)%nat -> fits k (binary_level n pr next).
Proof.
  intros Hpr Hnext Hk s Hs. apply ok_bind; [by apply Hnext|]. intros left r _ Hr.
  apply (ok_binary_loop n k); [done|done|done|len].
Qed.

(** [expr] is fine on inputs shorter than [K], and the loops have more fuel than [K]. *)
Context (n K : nat) (expr : P Expr).
Context (HK : (K < n)%nat) (Hexpr : forall s, (length s < K)%nat -> ok_at expr s).

Lemma ok_expr_then {A} (f : Expr -> P A) s :
  (length s < K)%nat -> (forall e r, r `suffix_of` s -> ok_at (f e) r) -> ok_at (pbind expr f) s.
Proof. intros Hs Hf. apply ok_bind; [by apply Hexpr|]. auto. Qed.

Lemma ok_comma_list {A} m close (item : P (list A)) acc s : (length s < m)%nat ->
  fits (length s) item -> ok_at (comma_list m close item acc) s.
Proof.
  revert acc s. induction m as [|m IH]; intros acc s Hs Hitem; [lia|]. unfold ok_at. simpl.
  destruct (looking_at close (skip_whitespace s)); [apply skip_suffix|]. apply fine_skip. intros r Hr.
  apply ok_bind; [apply Hitem; len|]. intros l r1 _ Hr1. apply ok_ws_then. intros r2 Hr2.
  apply ok_accept_then; intros r3 Hr3; [|apply ok_ret].
  apply IH; [len|]. eapply fits_le; [|done]. len.
Qed.

Lemma ok_closed_list {A} close (item : P (list A)) s : (length s < K)%nat -> fits (length s) item ->
  ok_at (closed_list n close item) s.
Proof.
  intros Hs Hitem. unfold closed_list. apply ok_bind; [apply ok_comma_list; [lia|done]|]. intros l r _ Hr.
  apply ok_expect_char. intros. apply ok_ret.
Qed.

Lemma ok_one_expr k : (k < K)%nat -> fits k (e <~ expr; pret [e]).
Proof. intros Hk s Hs. apply ok_expr_then; [lia|]. intros. apply ok_ret. Qed.

Lemma ok_in_list s : (length s <= K)%nat -> ok_at (parse_in_list n expr) s.
Proof.
  intros Hs. unfold parse_in_list. apply ok_expect_char. intros r Hr.
  apply ok_closed_list; [len|]. apply ok_one_expr. len.
Qed.

Lemma ok_object_entry k : (k < K)%nat -> fits k (object_entry expr).
Proof.
  intros Hk s Hs. unfold object_entry. apply ok_bind_shorter; [apply ok_object_key|]. intros key r Hr.
  apply ok_expect_char. intros r1 Hr1. apply ok_expr_then; [len|]. intros. apply ok_ret.
Qed.

Lemma ok_call_args m acc s : (length s < m)%nat -> (length s < K)%nat -> ok_at (call_args expr m acc) s.
Proof.
  revert acc s. induction m as [|m IH]; intros acc s Hm Hs; [lia|]. unfold ok_at. simpl.
  assert (Hnext : forall arg r, r `suffix_of` s -> ok_at (ws;; more <~ accept ",";
    if more : bool then call_args expr m (acc ++ [arg]) else pret (acc ++ [arg])) r).
  { intros arg r Hr. apply ok_ws_then. intros r1 Hr1. apply ok_accept_then; intros r2 Hr2; [apply IH; len|apply ok_ret]. }
  destruct (lone_star (skip_whitespace s)).
  - apply ok_on; [etrans; [apply suffix_drop|apply skip_suffix]|]. apply Hnext. etrans; [apply suffix_drop|apply skip_suffix].
  - apply fine_skip. intros r Hr. apply ok_expr_then; [len|]. intros e r1 Hr1. apply Hnext. by etrans.
Qed.

Lemma ok_parse_args s : (length s < K)%nat -> ok_at (parse_args n expr) s.
Proof.
  intros Hs. unfold parse_args. apply fine_skip. intros r Hr.
  apply ok_bind; [case_match; [apply ok_ret|apply ok_call_args; len]|].
  intros args r1 _ Hr1. apply ok_expect_char. intros. apply ok_ret.
Qed.

Lemma ok_over_clauses m pb w s : (length s < m)%nat -> (length s <= K)%nat -> ok_at (over_clauses expr m pb w) s.
Proof.
  revert pb w s. induction m as [|m IH]; intros pb w s Hm Hs; [lia|]. unfold ok_at. simpl.
  destruct (peek_word_is "PARTITION" s) eqn:Hp.
  { apply ok_seen; [done|]. intros r Hr. apply ok_expect_keyword. intros r1 Hr1.
    apply ok_expr_then; [len|]. intros e r2 Hr2. apply IH; len. }
  destruct (peek_word_is "WHEN" s) eqn:Hw; [|apply skip_suffix].
  apply ok_seen; [done|]. intros r Hr. apply ok_expr_then; [len|]. intros e r2 Hr2. apply IH; len.
Qed.

Lemma ok_over call s : (length s <= K)%nat -> ok_at (parse_over n expr call) s.
Proof.
  intros Hs. unfold parse_over. apply ok_match_then; intros r Hr; [|apply ok_ret].
  apply ok_expect_char. intros r1 Hr1. apply ok_bind; [apply ok_over_clauses; len|]. intros cl r2 _ Hr2.
  apply ok_expect_char. intros. apply ok_ret.
Qed.

Lemma ok_when_clauses m acc s : (length s < m)%nat -> (length s <= K)%nat -> ok_at (when_clauses expr m acc) s.
Proof.
  revert acc s. induction m as [|m IH]; intros acc s Hm Hs; [lia|]. simpl.
  apply ok_match_then; intros r Hr; [|apply ok_ret]. apply ok_expr_then; [len|]. intros e r1 Hr1.
  apply ok_expect_keyword. intros r2 Hr2. apply ok_expr_then; [len|]. intros e2 r3 Hr3. apply IH; len.
Qed.

Lemma ok_optional_expr (b : bool) s : (length s < K)%nat ->
  ok_at (if b then e <~ expr; pret (Some e) else pret None) s.
Proof. intros Hs. destruct b; [|apply ok_ret]. apply ok_expr_then; [done|]. intros. apply ok_ret. Qed.

Lemma ok_case s : (length s < K)%nat -> ok_at (parse_case n expr) s.
Proof.
  intros Hs. unfold parse_case. apply ok_bind.
  { unfold ok_at. cbn beta. destruct (peek_word_is "WHEN" s); [apply fine_ok|]. by apply (ok_optional_expr true). }
  intros operand r _ Hr. apply ok_bind; [apply ok_when_clauses; len|]. intros clauses r1 _ Hr1.
  case_match; [apply ok_err|]. apply ok_match_then; intros r2 Hr2.
  - apply ok_bind; [apply (ok_optional_expr true); len|]. intros other r3 _ Hr3. apply ok_expect_keyword. intros. apply ok_ret.
  - apply ok_bind; [apply ok_ret|]. intros other r3 _ Hr3. apply ok_expect_keyword. intros. apply ok_ret.
Qed.

Lemma ok_slice_end s : (length s < K)%nat -> ok_at (slice_end expr) s.
Proof.
  intros Hs. unfold slice_end. apply fine_skip. intros r Hr.
  apply ok_bind; [case_match; [apply ok_ret|apply (ok_optional_expr true); len]|].
  intros hi r1 _ Hr1. apply ok_expect_char. intros. apply ok_ret.
Qed.

Lemma ok_subscript base s : (length s < K)%nat -> ok_at (parse_subscript expr base) s.
Proof.
  intros Hs. unfold parse_subscript. destruct (looking_at ":" (skip_whitespace s)) eqn:Hc; unfold ok_at; cbn zeta beta; rewrite Hc.
  - apply ok_on; [etrans; [apply suffix_drop|apply skip_suffix]|].
    pose proof (suffix_drop 1 (skip_whitespace s)). pose proof (skip_suffix s).
    apply ok_bind; [apply ok_slice_end; len|]. intros. apply ok_ret.
  - apply fine_skip. intros r Hr. apply ok_expr_then; [len|]. intros e r1 Hr1. apply ok_ws_then. intros r2 Hr2.
    apply ok_accept_then; intros r3 Hr3.
    + apply ok_bind; [apply ok_slice_end; len|]. intros. apply ok_ret.
    + apply ok_expect_char. intros. apply ok_ret.
Qed.

Lemma ok_dot_field s : ok_at dot_field s.
Proof.
  unfold ok_at, dot_field. eapply fine_weaken; [apply skip_suffix|]. case_match; [simpl; apply suffix_drop|].
  case_match; [apply backtick_fine|apply word_fine].
Qed.

Lemma ok_arrow_field s : ok_at arrow_field s.
Proof.
  unfold ok_at, arrow_field. eapply fine_weaken; [apply skip_suffix|]. case_match; [apply quoted_fine|].
  case_match; [apply backtick_fine|apply word_fine].
Qed.

Lemma ok_postfix_loop m e s : (length s < m)%nat -> (length s <= K)%nat -> ok_at (postfix_loop expr m e) s.
Proof.
  revert e s. induction m as [|m IH]; intros e s Hm Hs; [lia|]. unfold ok_at. simpl.
  eapply fine_weaken; [apply skip_suffix|]. pose proof (skip_suffix s) as Hk. set (t := skip_whitespace s) in *.
  destruct (looking_at "." t) eqn:Hdot.
  { apply fine_drop; [lia|by eapply looking_at_ne|]. intros r Hr. apply ok_bind; [apply ok_dot_field|].
    intros f r1 _ Hr1. apply IH; len. }
  destruct (starts_with "->" t) eqn:Harr.
  { apply fine_drop; [lia|by apply (starts_with_ne "->")|]. intros r Hr. apply ok_bind; [apply ok_arrow_field|].
    intros f r1 _ Hr1. apply IH; len. }
  destruct (looking_at "[" t) eqn:Hb; [|apply fine_ok].
  apply fine_drop; [lia|by eapply looking_at_ne|]. intros r Hr. apply ok_bind; [apply ok_subscript; len|].
  intros e' r1 _ Hr1. apply IH; len.
Qed.

Lemma ok_postfix e s : (length s <= K)%nat -> ok_at (parse_postfix n expr e) s.
Proof. intros Hs. apply ok_postfix_loop; lia. Qed.

Lemma ok_parse_word s : (length s <= K)%nat -> ok_at (parse_word n expr) s.
Proof.
  intros Hs. unfold parse_word. apply ok_word. intros w r Hr.
  do 3 (case_match; [apply ok_postfix; len|]).
  case_match.
  { apply ok_bind; [apply ok_case; len|]. intros e r1 _ Hr1. apply ok_postfix. len. }
  apply ok_ws_then. intros r1 Hr1. apply ok_accept_then; intros r2 Hr2; [|apply ok_postfix; len].
  apply ok_bind; [apply ok_parse_args; len|]. intros args r3 _ Hr3.
  apply ok_bind; [apply ok_over; len|]. intros e r4 _ Hr4. apply ok_postfix. len.
Qed.

Lemma ok_primary s : (length s <= K)%nat -> ok_at (parse_primary n expr) s.
Proof.
  intros Hs. unfold ok_at, parse_primary. eapply fine_weaken; [apply skip_suffix|].
  pose proof (skip_suffix s) as Hk. set (t := skip_whitespace s) in *. case_match; [done|].
  destruct (looking_at "`" t) eqn:Hbt.
  { apply ok_bind; [apply backtick_fine|]. intros i r _ Hr. apply ok_postfix. len. }
  destruct (looking_at "(" t) eqn:Hpar.
  { apply fine_drop; [lia|by eapply looking_at_ne|]. intros r Hr. apply ok_expr_then; [len|]. intros e r1 Hr1.
    apply ok_expect_char. intros r2 Hr2. apply ok_postfix. len. }
  case_match; [apply ok_bind; [apply quoted_fine|]; intros i r _ Hr; apply ok_postfix; len|].
  destruct (looking_at "[" t) eqn:Hbr.
  { apply fine_drop; [lia|by eapply looking_at_ne|]. intros r Hr.
    apply ok_bind; [apply ok_closed_list; [len|apply ok_one_expr; len]|]. intros args r1 _ Hr1. apply ok_postfix. len. }
  destruct (looking_at "{" t) eqn:Hcu.
  { apply fine_drop; [lia|by eapply looking_at_ne|]. intros r Hr.
    apply ok_bind; [apply ok_closed_list; [len|apply ok_object_entry; len]|]. intros args r1 _ Hr1. apply ok_postfix. len. }
  case_match; [|apply ok_parse_word; len].
  apply ok_bind; [apply ok_number|]. intros e r _ Hr. apply ok_postfix. len.
Qed.

Lemma ok_unary m s : (length s < m)%nat -> (length s <= K)%nat -> ok_at (parse_unary n expr m) s.
Proof.
  revert s. induction m as [|m IH]; intros s Hm Hs; [lia|]. unfold ok_at. simpl.
  eapply fine_weaken; [apply skip_suffix|]. pose proof (skip_suffix s) as Hk. set (t := skip_whitespace s) in *.
  destruct (peek_word_is "NOT" t) eqn:Hn.
  { apply ok_seen; [done|]. intros r Hr. apply ok_bind; [apply IH; len|]. intros. apply ok_ret. }
  destruct (looking_at "-" t) eqn:Hm'.
  { apply fine_drop; [lia|by eapply looking_at_ne|]. intros r Hr. apply ok_bind; [apply IH; len|]. intros. apply ok_ret. }
  destruct (looking_at "+" t) eqn:Hp; [|apply ok_primary; len].
  apply (fine_drop 1 (parse_unary n expr m)); [lia|by eapply looking_at_ne|]. intros r Hr. apply IH; len.
Qed.

Lemma ok_bitor : fits K (parse_bitor n expr).
Proof.
  apply ok_binary_level; [apply bitor_probes| |done]. apply ok_binary_level; [apply bitxor_probes| |done].
  apply ok_binary_level; [apply bitand_probes| |done]. apply ok_binary_level; [apply additive_probes| |done].
  apply ok_binary_level; [apply multiplicative_probes| |done]. intros s Hs. apply ok_unary; lia.
Qed.

Lemma comparison_op_ne s op m : comparison_op s = Some (op, m) -> s <> [] /\ (0 < m)%nat.
Proof. destruct s; [done|]. unfold comparison_op. intros Hc. split; [done|]. repeat case_match; simplify_eq; lia. Qed.

Lemma ok_comparison : fits K (parse_comparison n expr).
Proof.
  intros s Hs. unfold parse_comparison. apply ok_bind; [by apply ok_bitor|]. intros left r _ Hr.
  unfold ok_at. eapply fine_weaken; [apply skip_suffix|]. pose proof (skip_suffix r) as Hk.
  set (t := skip_whitespace r) in *.
  assert (Hright : forall t' (f : Expr -> Expr), shorter t' t -> ok_at (right <~ parse_bitor n expr; pret (f right)) t').
  { intros t' f Ht. apply ok_bind; [apply ok_bitor; len|]. intros. apply ok_ret. }
  destruct (peek_word_is "NOT" t) eqn:Hn.
  { pose proof (after_keyword_shorter "NOT" t Hn) as Ha. set (t1 := after_keyword "NOT" t) in *.
    destruct (peek_word_is "LIKE" t1) eqn:Hl; [|apply fine_ok].
    eapply fine_weaken; [apply Ha|]. apply fine_after_keyword; [done|]. intros r1 Hr1.
    apply (Hright _ (fun right => UnaryOp Not (BinaryOp left Like right))). eapply suffix_shorter; [apply Hr1|done]. }
  destruct (peek_word_is "LIKE" t) eqn:Hl.
  { apply fine_after_keyword; [done|]. intros r1 Hr1. by apply (Hright _ (fun right => BinaryOp left Like right)). }
  destruct (comparison_op t) as [[op m]|] eqn:Hc; [|apply fine_ok].
  apply comparison_op_ne in Hc as [Hne Hm]. apply fine_drop; [done|done|]. intros r1 Hr1.
  by apply (Hright _ (fun right => BinaryOp left op right)).
Qed.

Lemma ok_between left negated s : (length s <= K)%nat -> ok_at (between_bounds n expr left negated) s.
Proof.
  intros Hs. unfold between_bounds. apply ok_bind; [by apply ok_comparison|]. intros low r _ Hr.
  apply ok_expect_keyword. intros r1 Hr1. apply ok_bind; [apply ok_comparison; len|]. intros. apply ok_ret.
Qed.

Lemma ok_range : fits K (parse_range n expr).
Proof.
  intros s Hs. unfold parse_range. apply ok_bind; [by apply ok_comparison|]. intros left r _ Hr.
  unfold ok_at. eapply fine_weaken; [apply skip_suffix|]. pose proof (skip_suffix r) as Hk.
  set (t := skip_whitespace r) in *.
  assert (Hin : forall t' neg, shorter t' t -> ok_at (l <~ parse_in_list n expr; pret (InList left l neg)) t').
  { intros t' neg Ht. apply ok_bind; [apply ok_in_list; len|]. intros. apply ok_ret. }
  assert (Hlike : forall t' (f : Expr -> Expr), shorter t' t -> ok_at (right <~ parse_comparison n expr; pret (f right)) t').
  { intros t' f Ht. apply ok_bind; [apply ok_comparison; len|]. intros. apply ok_ret. }
  assert (Hbet : forall t' neg, shorter t' t -> ok_at (between_bounds n expr left neg) t').
  { intros t' neg Ht. apply ok_between. len. }
  destruct (peek_word_is "BETWEEN" t) eqn:Hb; [apply fine_after_keyword; auto|].
  destruct (peek_word_is "NOT" t) eqn:Hn.
  { pose proof (after_keyword_shorter "NOT" t Hn) as Ha. set (t1 := after_keyword "NOT" t) in *.
    assert (Hsh : forall r, shorter r t1 -> shorter r t) by (intros r1 Hr1; eapply suffix_shorter; [apply Hr1|done]).
    destruct (peek_word_is "BETWEEN" t1) eqn:Hb1.
    { eapply fine_weaken; [apply Ha|]. apply fine_after_keyword; auto. }
    destruct (peek_word_is "IN" t1) eqn:Hi1.
    { eapply fine_weaken; [apply Ha|]. apply fine_after_keyword; auto. }
    destruct (peek_word_is "LIKE" t1) eqn:Hl1; [|apply fine_ok].
    eapply fine_weaken; [apply Ha|]. apply fine_after_keyword; [done|]. intros r1 Hr1.
    apply (Hlike _ (fun right => UnaryOp Not (BinaryOp left Like right))). auto. }
  destruct (peek_word_is "IN" t) eqn:Hi; [apply fine_after_keyword; auto|].
  destruct (peek_word_is "IS" t) eqn:His.
  { apply fine_after_keyword; [done|]. intros r1 Hr1. apply ok_bind; [apply ok_match_keyword|]. intros neg r2 _ Hr2.
    apply ok_expect_keyword. intros. apply ok_ret. }
  destruct (peek_word_is "LIKE" t) eqn:Hl; [|apply fine_ok].
  apply fine_after_keyword; [done|]. intros r1 Hr1. by apply (Hlike _ (fun right => BinaryOp left Like right)).
Qed.

Lemma ok_or : fits K (parse_or n expr).
Proof.
  apply ok_binary_level; [apply or_probes| |done]. apply ok_binary_level; [apply and_probes|apply ok_range|done].
Qed.
End levels.

Lemma ok_parse_expr `{Unicode} n s : (length s < n)%nat -> ok_at (parse_expr n) s.
Proof.
  revert s. induction n as [|n IH]; intros s Hs; [lia|]. simpl.
  apply (ok_or (S n) n); [lia|done|lia].
Qed.

(** ** Statements *)

Section select.
Context `{Unicode}.
Context (n : nat).

Lemma ok_pexpr {A} (f : Expr -> P A) s :
  (length s < n)%nat -> (forall e r, r `suffix_of` s -> ok_at (f e) r) -> ok_at (pbind (parse_expr n) f) s.
Proof. intros Hs Hf. apply ok_bind; [by apply ok_parse_expr|]. auto. Qed.

Lemma ok_items {A} m (item : P A) acc s : (length s < m)%nat -> fits (length s) item -> ok_at (items m item acc) s.
Proof.
  revert acc s. induction m as [|m IH]; intros acc s Hs Hitem; [lia|]. simpl.
  apply ok_bind; [by apply Hitem|]. intros x r _ Hr. apply ok_ws_then. intros r1 Hr1.
  apply ok_accept_then; intros r2 Hr2; [|apply ok_ret]. apply IH; [len|]. eapply fits_le; [|done]. len.
Qed.

Lemma ok_replacement k : (k < n)%nat -> fits k (replacement n).
Proof.
  intros Hk s Hs. apply ok_pexpr; [lia|]. intros e r Hr. apply ok_expect_keyword. intros r1 Hr1.
  apply ok_bind_shorter; [apply ok_column_identifier|]. intros. apply ok_ret.
Qed.

Lemma ok_wildcard_modifiers m ex re b s : (length s < m)%nat -> (length s < n)%nat ->
  ok_at (wildcard_modifiers n m ex re b) s.
Proof.
  revert ex re b s. induction m as [|m IH]; intros ex re b s Hm Hs; [lia|]. unfold ok_at. cbn [wildcard_modifiers].
  destruct (peek_word_is "EXCEPT" s) eqn:He.
  { apply ok_seen; [done|]. intros r Hr. apply ok_expect_char. intros r1 Hr1.
    apply ok_bind; [apply ok_items; [len|]|].
    { intros t _. apply ok_column_identifier. }
    intros cols r2 _ Hr2. apply ok_expect_char. intros r3 Hr3. apply IH; len. }
  destruct (peek_word_is "REPLACE" s) eqn:Hp; [|apply skip_suffix].
  apply ok_seen; [done|]. intros r Hr. apply ok_expect_char. intros r1 Hr1.
  apply ok_bind; [apply ok_items; [len|apply ok_replacement; len]|].
  intros reps r2 _ Hr2. apply ok_expect_char. intros r3 Hr3. apply IH; len.
Qed.

Lemma ok_backtick_some s : ok_at (a <~ parse_backtick_identifier; pret (Some a)) s.
Proof. apply ok_bind; [apply backtick_fine|]. intros. apply ok_ret. Qed.

Lemma fine_word {A} (f : input -> A) s w : peek_word s = Some w ->
  fine s (POk (f w) (drop (length w) (skip_whitespace s))).
Proof. intros Hw. apply (drop_word_shorter s w Hw). Qed.

Lemma ok_alias_name s : ok_at alias_name s.
Proof.
  unfold ok_at, alias_name. eapply fine_weaken; [apply skip_suffix|]. case_match; [apply ok_backtick_some|].
  destruct (peek_word (skip_whitespace s)) as [w|] eqn:Hw; [|apply fine_ok]. case_match; [apply fine_ok|].
  rewrite <- (skip_idemp s) at 2. by apply (fine_word (fun w => Some (to_str w))).
Qed.

Lemma ok_field_alias s : ok_at field_alias s.
Proof.
  unfold ok_at, field_alias. eapply fine_weaken; [apply skip_suffix|].
  destruct (peek_word_is "AS" (skip_whitespace s)) eqn:Ha.
  - apply ok_seen; [done|]. intros. apply ok_alias_name.
  - case_match; [apply ok_backtick_some|apply fine_ok].
Qed.

Lemma ok_select_field k : (k < n)%nat -> fits k (select_field n).
Proof.
  intros Hk s Hs. unfold ok_at, select_field. eapply fine_weaken; [apply skip_suffix|]. pose proof (skip_suffix s) as Hr.
  set (t := skip_whitespace s) in *. destruct (looking_at "*" t) eqn:Hl.
  { apply fine_drop; [lia|by eapply looking_at_ne|]. intros r Hr1. apply ok_bind; [apply ok_wildcard_modifiers; len|].
    intros. apply ok_ret. }
  case_match; [done|]. apply ok_pexpr; [len|]. intros e r Hr1. apply ok_bind; [apply ok_field_alias|]. intros. apply ok_ret.
Qed.

Lemma ok_optional_alias s : ok_at parse_optional_alias s.
Proof.
  unfold parse_optional_alias. apply ok_match_then; intros r Hr; unfold ok_at; cbn beta zeta.
  - eapply fine_weaken; [apply skip_suffix|]. case_match; [apply ok_backtick_some|].
    apply ok_word. intros. apply ok_ret.
  - case_match; [apply ok_backtick_some|]. destruct (peek_word r) as [w|] eqn:Hw; [|apply fine_ok].
    case_match; [apply fine_ok|]. by apply (fine_word (fun w => Some (to_str w))).
Qed.

Lemma skip_keyword_suffix kw s : skip_keyword kw s `suffix_of` s.
Proof. unfold skip_keyword. destruct (peek_word_is kw s) eqn:Hp; [apply (after_keyword_shorter kw s Hp)|done]. Qed.

Lemma join_header_shorter s jt r : join_header s = Some (jt, r) -> shorter r s.
Proof.
  unfold join_header. set (x := match List.find _ _ with Some _ => _ | None => _ end).
  assert (Hx : x.2 `suffix_of` s).
  { subst x. destruct (List.find _ _) as [[kw j]|] eqn:Hf; [|done].
    apply find_some in Hf as [_ Hp]. simpl in Hp. pose proof (after_keyword_shorter kw s Hp) as Ha.
    destruct (bool_decide (j = Left) && peek_word_is "ASOF" (after_keyword kw s)) eqn:Hb; [|apply Ha].
    apply andb_true_iff in Hb as [_ Hb]. simpl. etrans; [apply (after_keyword_shorter "ASOF" _ Hb)|apply Ha]. }
  destruct x as [j t]. simpl in Hx. pose proof (skip_keyword_suffix "OUTER" t) as Ho.
  pose proof (match_keyword_shorter "JOIN" (skip_keyword "OUTER" t)) as Hm.
  destruct (match_keyword "JOIN" _) as [[] r1| | |]; try done. intros [= <- <-].
  eapply shorter_suffix; [by apply Hm|]. by etrans.
Qed.

Lemma ok_join_target {A} (f : string -> P A) s :
  (forall w r, shorter r s -> ok_at (f w) r) -> ok_at (pbind join_target f) s.
Proof.
  intros Hf. apply ok_bind_shorter; [|done]. unfold join_target. destruct (peek_word s); [|done].
  case_match; [done|]. apply word_fine.
Qed.

Lemma ok_optional {A} kw (p : P A) s : (forall r, shorter r s -> ok_at p r) -> ok_at (optional kw p) s.
Proof.
  intros Hp. unfold optional. apply ok_match_then; intros r Hr; [|apply ok_ret].
  apply ok_bind; [by apply Hp|]. intros. apply ok_ret.
Qed.

Lemma ok_joins m acc s : (length s < m)%nat -> (length s < n)%nat -> ok_at (parse_joins n m acc) s.
Proof.
  revert acc s. induction m as [|m IH]; intros acc s Hm Hs; [lia|]. unfold ok_at. cbn [parse_joins].
  destruct (join_header s) as [[jt r]|] eqn:Hj; [|apply fine_ok]. apply join_header_shorter in Hj.
  apply ok_on; [apply Hj|]. apply ok_join_target. intros w r1 Hr1. apply ok_bind; [apply ok_optional_alias|].
  intros a r2 _ Hr2. apply ok_match_then; intros r3 Hr3.
  - apply ok_bind; [apply ok_pexpr; [len|]; intros; apply ok_ret|]. intros o r4 _ Hr4. apply IH; len.
  - apply ok_bind; [apply ok_ret|]. intros o r4 _ Hr4. apply IH; len.
Qed.

Lemma ok_window_over m g s : (length s < m)%nat -> (length s < n)%nat -> ok_at (window_over n m g) s.
Proof.
  revert g s. induction m as [|m IH]; intros g s Hm Hs; [lia|]. unfold ok_at. cbn [window_over].
  destruct (peek_word_is "WHEN" s) eqn:Hw.
  { apply ok_seen; [done|]. intros r Hr. apply ok_pexpr; [len|]. intros e r1 Hr1. apply IH; len. }
  destruct (peek_word_is "PARTITION" s) eqn:Hp; [|apply skip_suffix].
  apply ok_seen; [done|]. intros r Hr. apply ok_expect_keyword. intros r1 Hr1.
  apply ok_pexpr; [len|]. intros e r2 Hr2. apply IH; len.
Qed.

Lemma ok_window_clauses m g s : (length s < m)%nat -> (length s < n)%nat -> ok_at (window_clauses n m g) s.
Proof.
  revert g s. induction m as [|m IH]; intros g s Hm Hs; [lia|]. unfold ok_at. cbn [window_clauses].
  destruct (peek_word_is "FILTER" s) eqn:Hf.
  { apply ok_seen; [done|]. intros r Hr. apply ok_expect_char. intros r1 Hr1. apply ok_expect_keyword. intros r2 Hr2.
    apply ok_pexpr; [len|]. intros e r3 Hr3. apply ok_expect_char. intros r4 Hr4. apply IH; len. }
  destruct (peek_word_is "OVER" s) eqn:Ho; [|apply skip_suffix].
  apply ok_seen; [done|]. intros r Hr. apply ok_expect_char. intros r1 Hr1.
  apply ok_bind; [apply ok_window_over; len|]. intros g' r2 _ Hr2. apply ok_expect_char. intros r3 Hr3. apply IH; len.
Qed.

Lemma ok_group_items m g s : (length s < m)%nat -> (length s < n)%nat -> ok_at (group_items n m g) s.
Proof.
  revert g s. induction m as [|m IH]; intros g s Hm Hs; [lia|]. cbn [group_items].
  apply ok_pexpr; [done|]. intros e r Hr. apply ok_bind.
  { unfold of_option. case_match; [apply ok_ret|apply ok_err]. }
  intros w r1 _ Hr1. apply ok_bind.
  { case_match; [apply ok_window_clauses; len|apply ok_ret]. }
  intros g' r2 _ Hr2. apply ok_ws_then. intros r3 Hr3. apply ok_accept_then; intros r4 Hr4; [apply IH; len|apply ok_ret].
Qed.

Lemma ok_group_by s : (length s < n)%nat -> ok_at (parse_group_by n) s.
Proof.
  intros Hs. unfold ok_at, parse_group_by. case_match; [|apply fine_ok].
  apply ok_expect_keyword. intros r Hr. apply ok_expect_keyword. intros r1 Hr1. apply ok_group_items; len.
Qed.

Lemma ok_order_item k : (k < n)%nat -> fits k (order_item n).
Proof.
  intros Hk s Hs. apply ok_pexpr; [lia|]. intros e r Hr. unfold ok_at. cbn beta.
  destruct (peek_word_is "DESC" r) eqn:Hd; [apply (after_keyword_shorter "DESC" r Hd)|apply skip_keyword_suffix].
Qed.

Lemma ok_order_by s : (length s < n)%nat -> ok_at (parse_order_by n) s.
Proof.
  intros Hs. unfold parse_order_by. apply ok_bind; [|intros; apply ok_ret]. apply ok_optional. intros r Hr.
  apply ok_expect_keyword. intros r1 Hr1. apply ok_items; [len|apply ok_order_item; len].
Qed.

Lemma ok_limit s : ok_at limit_value s.
Proof.
  unfold limit_value. apply ok_word. intros w r Hr. apply ok_bind; [|intros; apply ok_ret].
  unfold of_option. case_match; [apply ok_ret|apply ok_err].
Qed.

Lemma ok_semicolon s : ok_at semicolon s.
Proof.
  unfold semicolon. apply ok_ws_then. intros r Hr. apply ok_bind; [apply ok_accept|]. intros. apply ok_ret.
Qed.
End select.

Lemma ok_parse_select `{Unicode} n s : (length s < n)%nat -> ok_at (parse_select n) s.
Proof.
  revert s. induction n as [|n IH]; intros s Hs; [lia|]. cbn [parse_select].
  apply ok_expect_keyword. intros r1 Hr1. apply ok_bind; [apply ok_items; [len|apply ok_select_field; len]|].
  intros fs r2 _ Hr2. apply ok_expect_keyword. intros r3 Hr3. apply ok_word. intros from r4 Hr4.
  apply ok_bind; [apply ok_optional_alias|]. intros a r5 _ Hr5. apply ok_bind; [apply ok_joins; len|]. intros js r6 _ Hr6.
  apply ok_bind; [apply ok_optional; intros; apply ok_parse_expr; len|]. intros w r7 _ Hr7.
  apply ok_bind; [apply ok_group_by; len|]. intros g r8 _ Hr8.
  apply ok_bind; [apply ok_optional; intros; apply ok_parse_expr; len|]. intros h r9 _ Hr9.
  apply ok_bind; [apply ok_order_by; len|]. intros o r10 _ Hr10.
  apply ok_bind; [apply ok_optional; intros; apply ok_limit|]. intros l r11 _ Hr11.
  apply ok_bind; [apply ok_semicolon|]. intros _ r12 _ Hr12.
  apply ok_bind; [|intros; apply ok_ret]. apply ok_optional. intros r13 Hr13.
  apply ok_bind; [apply ok_match_keyword|]. intros all r14 _ Hr14.
  apply ok_bind; [apply IH; len|]. intros. apply ok_ret.
Qed.

(** ** CREATE statements *)

Lemma find_close_app depth q s a b : find_close depth q s = Some (a, b) -> s = a ++ code ")" :: b.
Proof.
  revert depth q a. induction s as [|c s IH]; intros depth q a Hf; simpl in Hf; [done|].
  assert (Hnext : forall d, ('(a, b) ← find_close d (quote_step c q) s; Some (c :: a, b)) = Some (a, b) ->
    c :: s = a ++ code ")" :: b).
  { intros d Hd. apply bind_Some in Hd as ([a' b'] & Hd & ?). simplify_eq/=. f_equal. by eapply IH. }
  destruct (quoting q); [by eapply Hnext|]. destruct (c =? code "("); [by eapply Hnext|].
  destruct (Z.eqb_spec c (code ")")) as [->|]; [|by eapply Hnext].
  destruct depth as [|[|depth]]; [by eapply Hnext| |by eapply Hnext]. by simplify_eq/=.
Qed.

Lemma is_ascii_rev s : is_ascii (rev s) <-> is_ascii s.
Proof. unfold is_ascii. split; intros Hs; [rewrite <- (rev_involutive s)|]; by apply Forall_rev. Qed.

Lemma is_ascii_trim p s : is_ascii s -> is_ascii (trim_by p s).
Proof.
  intros Hs. unfold trim_by. rewrite is_ascii_rev. eapply suffix_ascii; [apply span_suffix|].
  rewrite is_ascii_rev. eapply suffix_ascii; [apply span_suffix|done].
Qed.

Lemma split_commas_ascii depth q cur s : is_ascii cur -> is_ascii s -> Forall is_ascii (split_commas depth q cur s).
Proof.
  revert depth q cur. induction s as [|c s IH]; intros depth q cur Hcur Hs; simpl.
  { constructor; [by rewrite is_ascii_rev|constructor]. }
  apply list.Forall_cons in Hs as [Hc Hs].
  assert (is_ascii (c :: cur)) by (by constructor).
  repeat case_match; auto. constructor; [by rewrite is_ascii_rev|]. apply IH; [constructor|done].
Qed.

Lemma default_scan_fine depth q seen s :
  match default_scan depth q seen s with PErr | PFuel => False | PPanic => ~ is_ascii s | POk _ _ => True end.
Proof.
  revert depth q seen. induction s as [|c s IH]; intros depth q seen; simpl; [done|].
  assert (Hr : forall (d : nat) (q : Quotes) (sn : input),
    match default_scan d q sn s with PErr | PFuel => False | PPanic => ~ is_ascii (c :: s) | POk _ _ => True end).
  { intros d q' sn. specialize (IH d q' sn). destruct (default_scan d q' sn s); try done.
    intros Ha. apply IH. by apply list.Forall_cons in Ha as [_ Ha]. }
  destruct (quoting q); [apply Hr|]. destruct (one_of "([" c); [apply Hr|]. destruct (one_of ")]" c); [apply Hr|].
  destruct (quote_char c && negb (c =? code "`")); [apply Hr|]. destruct (depth =? 0)%nat; [|apply Hr].
  destruct (at_default (head seen) (c :: s)); [done|]. destruct (Z.leb_spec 128 c); [|apply Hr].
  intros Ha. apply list.Forall_cons in Ha as [Hc _]. lia.
Qed.

Lemma column_head_ascii part name rest : is_ascii part -> column_head part = Some (name, rest) -> is_ascii rest.
Proof.
  unfold column_head. destruct part as [|c part]; [intros _ [= <- <-]; constructor|]. intros Ha. destruct (quote_char c).
  - intros Hb. apply bind_Some in Hb as ([n r] & Hsp & Hb). simplify_eq. apply split_at_char_spec in Hsp as [-> _].
    apply is_ascii_trim. eapply suffix_ascii; [|exact Ha]. exists (c :: name ++ [c]). simpl. by rewrite <- app_assoc.
  - pose proof (span_suffix (fun c => negb (is_space c)) (c :: part)) as Hs.
    destruct (span _ (c :: part)) as [nm r]. intros [= <- <-]. apply is_ascii_trim. eapply suffix_ascii; [exact Hs|done].
Qed.

(** The columns of a definition list, which has no rest. *)
Lemma column_defs_fine parts :
  match column_defs parts with
  | POk _ _ | PErr => True
  | PPanic => ~ Forall is_ascii parts
  | PFuel => False
  end.
Proof.
  induction parts as [|part parts IH]; simpl; [done|].
  assert (Hr : match column_defs parts with POk _ _ | PErr => True | PPanic => ~ Forall is_ascii (part :: parts) | PFuel => False end).
  { destruct (column_defs parts); try done. intros Ha. apply IH. by apply list.Forall_cons in Ha as [_ Ha]. }
  destruct (bool_decide (trim_cps part = [])); [exact Hr|].
  destruct (column_head (trim_cps part)) as [[name rest]|] eqn:Hh; [|done].
  destruct (bool_decide (name = [])); [exact Hr|].
  unfold split_at_default. pose proof (default_scan_fine 0 no_quotes [] rest) as Hd.
  destruct (default_scan 0 no_quotes [] rest) as [[ty d] r| | |]; try done.
  - destruct (negb _); [done|]. by destruct (column_defs parts).
  - intros Ha. apply list.Forall_cons in Ha as [Ha _]. apply Hd. eapply column_head_ascii; [|done].
    by apply is_ascii_trim.
Qed.

(** The fuel of the type check suffices: every nested type is shorter. *)
Lemma length_span2 p s : (length (span p s).2 <= length s)%nat.
Proof. apply suffix_length, span_suffix. Qed.

Lemma length_trim p s : (length (trim_by p s) <= length s)%nat.
Proof.
  unfold trim_by. rewrite length_rev. etrans; [apply length_span2|]. rewrite length_rev. apply length_span2.
Qed.

Lemma enclosed_length p close t inner : p <> "" -> enclosed p close t = Some inner -> (length inner < length t)%nat.
Proof.
  intros Hp. unfold enclosed. intros He. apply bind_Some in He as (r & Hr & He). apply strip_prefix_app in Hr as ->.
  case_match; [|done]. injection He as <-. eapply Nat.le_lt_trans; [apply length_trim|].
  rewrite length_take, length_app. unfold cps. rewrite length_map. destruct p; [done|]. simpl. lia.
Qed.

Lemma strip_suffix_length p t r : p <> "" -> strip_suffix p t = Some r -> (length r < length t)%nat.
Proof.
  intros Hp Hs. unfold strip_suffix in Hs. apply bind_Some in Hs as (r' & Hr & Hs). injection Hs as <-.
  apply strip_prefix_app in Hr. rewrite <- (length_rev t), Hr, length_app, !length_rev.
  unfold cps. rewrite length_map. destruct p; [done|]. simpl. lia.
Qed.

Lemma split_commas_length depth q cur s part : part ∈ split_commas depth q cur s -> (length part <= length cur + length s)%nat.
Proof.
  revert depth q cur. induction s as [|c s IH]; intros depth q cur Hp; simpl in Hp.
  { apply list_elem_of_singleton in Hp as ->. rewrite length_rev. simpl. lia. }
  assert (Hgo : forall d q', part ∈ split_commas d q' (c :: cur) s -> (length part <= length cur + S (length s))%nat).
  { intros d q' Hd. apply IH in Hd. simpl in Hd. lia. }
  simpl. repeat case_match; eauto. apply elem_of_cons in Hp as [->|Hp]; [rewrite length_rev; lia|].
  apply IH in Hp. simpl in Hp. lia.
Qed.

Lemma field_type_length f : (length (field_type f) <= length f)%nat.
Proof.
  unfold field_type. pose proof (length_span2 (fun c => negb (is_space c)) f) as Hs.
  destruct (span _ f) as [a [|c r]]; [done|]. simpl in *. etrans; [apply length_trim|]. rewrite drop_0. lia.
Qed.

Lemma some_of_some {A} (l : list (option A)) x : some_of l = Some x -> Some x ∈ l.
Proof.
  induction l as [|[y|] l IH]; simpl; [done| |].
  - intros [= ->]. apply list_elem_of_here.
  - intros Hx. apply list_elem_of_further. auto.
Qed.

Lemma is_valid_type_fuel f1 f2 ty : (length ty < f1)%nat -> (length ty < f2)%nat -> is_valid_type f1 ty = is_valid_type f2 ty.
Proof.
  revert f2 ty. induction f1 as [|f1 IH]; intros [|f2] ty H1 H2; [lia|lia|lia|]. cbn [is_valid_type].
  set (t := map lower_cp (trim_cps ty)).
  assert (Ht : (length t <= length ty)%nat) by (subst t; rewrite length_map; apply length_trim).
  assert (Hin : forall inner, (length inner < length t)%nat -> is_valid_type f1 inner = is_valid_type f2 inner).
  { intros inner Hi. apply IH; lia. }
  destruct (bool_decide (t = [])); [done|]. destruct (bool_decide (to_str t ∈ simple_types)); [done|].
  destruct (some_of [enclosed "decimal(" _ t; _]); [done|]. destruct (some_of [enclosed "varchar(" _ t; _]); [done|].
  destruct (some_of [enclosed "array(" _ t; _]) as [inner|] eqn:Ha.
  { f_equal. apply Hin. apply some_of_some in Ha. rewrite !elem_of_cons, elem_of_nil in Ha.
    destruct Ha as [Ha|[Ha|[]]]; symmetry in Ha; (eapply enclosed_length; [|exact Ha]; done). }
  destruct (strip_suffix "[]" t) as [base|] eqn:Hb.
  { apply Hin. eapply Nat.le_lt_trans; [apply length_trim|]. eapply strip_suffix_length; [|exact Hb]; done. }
  destruct (enclosed "struct(" _ t) as [inner|] eqn:Hs; [|done]. f_equal.
  apply enclosed_length in Hs; [|done].
  assert (Hall : Forall (fun part => length part <= length inner)%nat (split_top_level_commas inner)).
  { apply list.Forall_forall. intros part Hp. apply split_commas_length in Hp. simpl in Hp. lia. }
  induction Hall as [|part parts Hp _ IHp]; simpl; [done|]. rewrite IHp. do 2 f_equal. apply Hin.
  eapply Nat.le_lt_trans; [apply field_type_length|]. eapply Nat.le_lt_trans; [apply length_trim|]. lia.
Qed.

Section create.
Context `{Unicode}.

Lemma ok_column_defs s : ok_at parse_column_defs s.
Proof.
  unfold ok_at, parse_column_defs. destruct s as [|c s]; [apply fine_ok|]. case_match; [|apply fine_ok].
  change (drop 1 (c :: s)) with s. destruct (find_close 1 no_quotes s) as [[inner rest]|] eqn:Hf; [|done].
  apply find_close_app in Hf as ->. pose proof (column_defs_fine (split_top_level_commas inner)) as Hc.
  destruct (column_defs _) as [cols r| | |]; try done.
  - simpl. exists (c :: inner ++ [code ")"]). simpl. by rewrite <- app_assoc.
  - simpl. intros Ha. apply Hc. apply split_commas_ascii; [constructor|].
    apply list.Forall_cons in Ha as [_ Ha]. by apply Forall_app in Ha as [Ha _].
Qed.

Lemma ok_with_options s : ok_at parse_with_options s.
Proof.
  unfold parse_with_options. apply ok_match_then; intros r Hr; [|apply ok_ret]. unfold ok_at. cbn beta zeta.
  eapply fine_weaken; [apply skip_suffix|]. destruct (skip_whitespace r) as [|c t]; [apply fine_ok|].
  case_match; [|apply fine_ok]. change (drop 1 (c :: t)) with t. destruct (find_close 1 no_quotes t) as [[inner rest]|] eqn:Hf; [|done].
  apply find_close_app in Hf as ->. simpl. exists (c :: inner ++ [code ")"]). simpl. by rewrite <- app_assoc.
Qed.

Lemma ok_parse_create kind s : ok_at (parse_create kind) s.
Proof.
  unfold parse_create. apply ok_expect_keyword. intros r1 Hr1. apply ok_expect_keyword. intros r2 Hr2.
  apply ok_word. intros name r3 Hr3. apply ok_bind.
  { unfold ok_at. cbn beta zeta. eapply fine_weaken; [apply skip_suffix|]. case_match; [apply ok_column_defs|].
    case_match; [apply fine_ok|done]. }
  intros cols r4 _ Hr4. apply ok_bind; [apply ok_with_options|]. intros opts r5 _ Hr5. apply ok_ws_then. intros r6 Hr6.
  apply ok_bind; [apply ok_accept|]. intros _ r7 _ Hr7. apply ok_ws_then. intros r8 Hr8. unfold ok_at. cbn beta.
  case_match; [apply fine_ok|done].
Qed.

Lemma create_consumes_all kind s stmt r : parse_create kind s = POk stmt r -> r = [].
Proof.
  unfold parse_create. intros Hp. repeat (apply pbind_inv in Hp as (? & ? & _ & Hp)). cbn beta in Hp.
  case_bool_decide; [|done]. by simplify_eq.
Qed.
End create.

(** C25. The parser is total and keeps its place.  On every text, the statement parsers
    return: a [SELECT] with a suffix of the text as rest, a [CREATE STREAM] or [CREATE TABLE]
    with the whole text consumed, or an error; none of their loops runs out of the fuel the
    length of the text gives.  They panic only on texts with characters beyond ASCII. *)
Theorem statement_parsers_total `{Unicode} (s : input) :
  fine s (parse_select_text s) /\
  (forall kind, fine s (parse_create kind s) /\ forall stmt r, parse_create kind s = POk stmt r -> r = []) /\
  (is_ascii s -> parse_select_text s <> PPanic /\ forall kind, parse_create kind s <> PPanic).
Proof.
  assert (Hsel : fine s (parse_select_text s)) by (apply (ok_parse_select (S (length s))); lia).
  split_and!; [done| |].
  - intros kind. split; [apply ok_parse_create|apply create_consumes_all].
  - intros Ha. split.
    + intros Hp. by rewrite Hp in Hsel.
    + intros kind Hp. pose proof (ok_parse_create kind s) as Hc. unfold ok_at in Hc. by rewrite Hp in Hc.
Qed.

Module ParserSample.
#[export] Instance ascii_only : Unicode := {| alphanumeric _ := false; alphabetic _ := false; uppercase c := [c] |}.
End ParserSample.
Import ParserSample.

(** The text of a backtick identifier is scanned byte by byte, so a character of several
    bytes in it panics, and so does one in the type of a column. *)
Lemma parser_panics_beyond_ascii :
  parse_select_text (cps "SELECT `" ++ [233] ++ cps "` FROM s") = PPanic /\
  parse_create "STREAM" (cps "CREATE STREAM s (a str" ++ [239] ++ cps "ng)") = PPanic.
Proof. by vm_compute. Qed.

(** [NOT] binds tighter than comparisons: [NOT a > 5] is [(NOT a) > 5]. *)
Lemma not_binds_tightest :
  parse_expr 20 (cps "NOT a > 5") =
    POk (BinaryOp (UnaryOp Not (Identifier "a")) Gt (Literal (value_of_i64 5))) [].
Proof. by vm_compute. Qed.

(** A misspelt clause is taken for an alias and the rest of the statement is ignored:
    the filter is lost. *)
Lemma select_ignores_trailing_text :
  exists stmt rest, parse_select_text (cps "SELECT a FROM s WHER a > 5") = POk stmt rest /\
    from_alias stmt = Some "WHER" /\ where_clause stmt = None /\ rest = cps "a > 5".
Proof. do 2 eexists. by vm_compute. Qed.

Lemma statement_parsers_total_witness :
  let s := cps "SELECT a FROM s WHERE `b c` > 5" in
  is_ascii s /\ fine s (parse_select_text s) /\
  (forall kind, fine s (parse_create kind s) /\ forall stmt r, parse_create kind s = POk stmt r -> r = []) /\
  (is_ascii s -> parse_select_text s <> PPanic /\ forall kind, parse_create kind s <> PPanic).
Proof. intros s. split; [by repeat constructor|]. exact (statement_parsers_total s). Defined.
