(* ===== verification/RoundTrip.v ===== *)
(** * Printing and parsing expressions

    A printer of SQL expressions with the fewest parentheses the grammar allows, and the
    proof that [parse_expr] reads its output back: precedence and associativity of all
    operators, ranges, calls, [OVER] clauses, [CASE], subscripts and literals. *)

From Stdlib Require Import Ascii.
From S2P Require Import Prelude Rust Characters Json Ast Numbers Parser ParserFacts.

Set Default Goal Selector "!".
#[local] Open Scope parser_scope.

(** ** The printer *)

(** The level of an operator: 0 binds loosest. *)
Definition op_level (op : BinaryOperator) : nat :=
  match op with
  | Or => 0 | And => 1
  | Eq | Neq | Lt | Lte | Gt | Gte | Like => 3
  | BitOr => 4 | BitXor => 5 | BitAnd => 6
  | Add | Sub => 7
  | Mul | Div | Mod => 8
  end.

(** The level of an expression: 2 for ranges, 9 for prefix operators and numbers (which
    take no postfix), 10 for what can be followed by a postfix. *)
Definition level (e : Expr) : nat :=
  match e with
  | BinaryOp _ op _ => op_level op
  | Between _ _ _ _ | InList _ _ _ | IsNull _ _ => 2
  | UnaryOp _ _ | Literal (VNumber _) => 9
  | _ => 10
  end.

Definition op_text (op : BinaryOperator) : input :=
  cps match op with
      | Or => " OR " | And => " AND " | Eq => " = " | Neq => " != " | Lt => " < " | Lte => " <= " | Gt => " > "
      | Gte => " >= " | Like => " LIKE " | BitOr => " | " | BitXor => " ^ " | BitAnd => " & " | Add => " + "
      | Sub => " - " | Mul => " * " | Div => " / " | Mod => " % "
      end.

(** Words that are not columns or functions at the start of an expression. *)
Definition special_words : list string := ["true"; "false"; "null"; "case"; "not"].

Definition ascii_word_char (c : ascii) : bool := is_ascii_alphanumeric c || Ascii.eqb c "_".

(** A name that needs no quotes. *)
Definition plain (name : string) : bool :=
  match chars name with
  | [] => false
  | c :: r => negb (is_ascii_digit c) && forallb ascii_word_char (c :: r)
  end && bool_decide (to_ascii_lowercase name ∉ special_words).

(** A text that can stand between two [q]. *)
Definition quotable (q : ascii) (s : string) : bool :=
  forallb (fun c => (code c <? 128) && negb (Ascii.eqb c q)) (chars s).

Definition between_quotes (q : ascii) (s : string) : input := code q :: cps s ++ [code q].

Definition name_text (name : string) : input := if plain name then cps name else between_quotes "`" name.
Definition field_text (field : string) : input := if bool_decide (field = "*") then cps "*" else name_text field.

Definition literal_sql (v : value) : input :=
  match v with
  | VNull => cps "NULL"
  | VBool true => cps "TRUE"
  | VBool false => cps "FALSE"
  | VNumber (PosInt n) => cps (digits n)
  | VString s => between_quotes (if quotable "'" s then "'" else double_quote) s
  | _ => []
  end.

Fixpoint sep (l : list input) : input :=
  match l with
  | [] => []
  | [x] => x
  | x :: r => x ++ cps ", " ++ sep r
  end.

Definition paren (s : input) : input := cps "(" ++ s ++ cps ")".

Definition negation (negated : bool) : input := if negated then cps " NOT" else [].

Fixpoint body (e : Expr) : input :=
  let pr d x := if (level x <? d)%nat then paren (body x) else body x in
  match e with
  | Wildcard => cps "*"
  | WildcardModified _ _ => []
  | Identifier name => name_text name
  | Literal v => literal_sql v
  | BinaryOp l op r =>
      let lv := op_level op in
      if (lv =? 3)%nat then pr 4%nat l ++ op_text op ++ pr 4%nat r else pr lv l ++ op_text op ++ pr (S lv) r
  | UnaryOp Not x => cps "NOT " ++ pr 9%nat x
  | UnaryOp Neg x => cps "-" ++ pr 9%nat x
  | Between x low high negated =>
      pr 3%nat x ++ negation negated ++ cps " BETWEEN " ++ pr 3%nat low ++ cps " AND " ++ pr 3%nat high
  | InList x items negated => pr 3%nat x ++ negation negated ++ cps " IN " ++ paren (sep (map (pr 0%nat) items))
  | IsNull x negated => pr 3%nat x ++ cps " IS" ++ negation negated ++ cps " NULL"
  | FieldAccess parent field => pr 10%nat parent ++ cps "." ++ field_text field
  | Index base index => pr 10%nat base ++ cps "[" ++ pr 0%nat index ++ cps "]"
  | Slice base lo hi =>
      pr 10%nat base ++ cps "[" ++ from_option (pr 0%nat) [] lo ++ cps ":" ++ from_option (pr 0%nat) [] hi ++ cps "]"
  | Call name args => cps name ++ paren (sep (map (pr 0%nat) args))
  | Case operand clauses other =>
      cps "CASE " ++ from_option (fun x => paren (body x) ++ cps " ") [] operand
        ++ concat (map (fun c => cps "WHEN " ++ pr 0%nat c.1 ++ cps " THEN " ++ pr 0%nat c.2 ++ cps " ") clauses)
        ++ from_option (fun x => cps "ELSE " ++ pr 0%nat x ++ cps " ") [] other ++ cps "END"
  | Over call partition_by when =>
      body call ++ cps " OVER (" ++ from_option (fun x => cps "PARTITION BY " ++ pr 0%nat x ++ cps " ") [] partition_by
        ++ from_option (fun x => cps "WHEN " ++ pr 0%nat x) [] when ++ cps ")"
  end.

(** [e] as an operand of a level-[d] operator. *)
Definition pr (d : nat) (e : Expr) : input := if (level e <? d)%nat then paren (body e) else body e.
Definition print_expr (e : Expr) : input := body e.

(** Expressions the printer covers: names in ASCII that a pair of backticks can quote, calls
    of plain names, literals the parser can produce (no negative or fractional numbers), no
    wildcards outside argument lists. *)
Definition printable_literal (v : value) : bool :=
  match v with
  | VNull | VBool _ => true
  | VNumber (PosInt n) => (0 <=? n) && (n <=? u64_max)
  | VString s => quotable "'" s || quotable double_quote s
  | _ => false
  end.

Fixpoint printable (e : Expr) : bool :=
  let opt o := match o with Some x => printable x | None => true end in
  match e with
  | Wildcard | WildcardModified _ _ => false
  | Identifier name => quotable "`" name
  | Literal v => printable_literal v
  | BinaryOp l _ r => printable l && printable r
  | UnaryOp _ x => printable x
  | Between x low high _ => printable x && printable low && printable high
  | InList x items _ => printable x && forallb printable items
  | IsNull x _ => printable x
  | FieldAccess parent field => printable parent && (bool_decide (field = "*") || quotable "`" field)
  | Index base index => printable base && printable index
  | Slice base lo hi => printable base && opt lo && opt hi
  | Call name args =>
      plain name && forallb (fun a => match a with Wildcard => true | _ => printable a end) args
  | Case operand clauses other =>
      opt operand && negb (bool_decide (clauses = [])) && forallb (fun c => printable c.1 && printable c.2) clauses
        && opt other
  | Over call partition_by when =>
      match call with Call _ _ => printable call | _ => false end && opt partition_by && opt when
  end.

(** ** Reading words, quoted texts and numbers *)

(** Lengths of concatenations. *)
Ltac lens := repeat first [rewrite length_app in * | progress cbn [length] in *]; lia.

Lemma pbind_ok {A B} (p : P A) (f : A -> P B) s a r : p s = POk a r -> pbind p f s = f a r.
Proof. intros Hp. unfold pbind. by rewrite Hp. Qed.

Lemma ws_then {A} (q : P A) s : (ws;; q) s = q (skip_whitespace s).
Proof. done. Qed.

Section reading.
Context `{Unicode}.

(** What may follow a word or a number: nothing, or a character that does not continue it. *)
Definition brk (rest : input) : bool := match rest with c :: _ => negb (word_char c) | [] => true end.

Lemma span_stop p w rest : Forall (fun c => p c = true) w -> match rest with c :: _ => p c = false | [] => True end ->
  span p (w ++ rest) = (w, rest).
Proof.
  intros Hw Hr. induction Hw as [|c w Hc _ IH]; simpl.
  - destruct rest as [|c r]; simpl; [done|]. by rewrite Hr.
  - by rewrite Hc, IH.
Qed.

Lemma code_inj a b : code a = code b -> a = b.
Proof. intros Hc. by rewrite <- (byte_code a), Hc, byte_code. Qed.

Lemma ascii_word_char_code c : ascii_word_char c = true ->
  word_char (code c) = true /\ code c < 128 /\ is_space (code c) = false.
Proof.
  unfold ascii_word_char, word_char, is_alphanumeric, is_ascii_alnum, is_ascii_alphanumeric, is_space, is_digit,
    is_ascii_digit, is_upper, is_lower.
  intros Hc. apply orb_true_iff in Hc as [Hc|Hc].
  - assert (48 <= code c <= 57 \/ 65 <= code c <= 90 \/ 97 <= code c <= 122) as Hr.
    { rewrite !orb_true_iff, !andb_true_iff, !Z.leb_le in Hc. lia. }
    split_and!; [|lia|].
    + rewrite (proj2 (Z.ltb_lt (code c) 128)) by lia.
      rewrite !orb_true_iff, !andb_true_iff, !Z.leb_le. lia.
    + rewrite !orb_false_iff, !andb_false_iff, !Z.leb_gt, !Z.eqb_neq. lia.
  - apply Ascii.eqb_eq in Hc as ->. by vm_compute.
Qed.

Lemma brk_stop rest : brk rest = true -> match rest with c :: _ => word_char c = false | [] => True end.
Proof. destruct rest; simpl; [done|]. by intros ?%negb_true_iff. Qed.

Lemma skip_id c s : is_space c = false -> skip_whitespace (c :: s) = c :: s.
Proof. intros Hc. unfold skip_whitespace. simpl. by rewrite Hc. Qed.

(** A word of ASCII letters, digits and underscores. *)
Definition is_word (w : string) : Prop := w <> "" /\ Forall (fun c => ascii_word_char c = true) (chars w).

Lemma is_word_ascii w : is_word w -> Forall (fun c => code c < 128) (chars w).
Proof. intros [_ Hw]. eapply list.Forall_impl; [exact Hw|]. intros c Hc. by apply ascii_word_char_code. Qed.

Lemma skip_word w rest : is_word w -> skip_whitespace (cps w ++ rest) = cps w ++ rest.
Proof.
  intros [Hne Hw]. unfold cps. destruct w as [|c w]; [done|]. simpl in *. apply list.Forall_cons in Hw as [Hc _].
  apply skip_id. by apply ascii_word_char_code.
Qed.

Lemma peek_word_text w rest : is_word w -> brk rest = true -> peek_word (cps w ++ rest) = Some (cps w).
Proof.
  intros Hw Hb. unfold peek_word. rewrite skip_word by done. rewrite span_stop; [| |by apply brk_stop].
  - simpl. destruct Hw as [Hne _]. destruct w; [done|]. done.
  - unfold cps. apply List.Forall_map. destruct Hw as [_ Hw]. eapply list.Forall_impl; [exact Hw|].
    intros c Hc. by apply ascii_word_char_code.
Qed.

Lemma word_text w rest : is_word w -> brk rest = true -> word (cps w ++ rest) = POk w rest.
Proof.
  intros Hw Hb. unfold word. rewrite peek_word_skip, peek_word_text, skip_word by done.
  rewrite drop_app_length, to_str_cps by (by apply is_word_ascii). done.
Qed.

Lemma is_keyword_text kw w : is_word w -> is_keyword kw (cps w) = eq_ignore_ascii_case w kw.
Proof. intros Hw. unfold is_keyword. by rewrite to_str_cps by (by apply is_word_ascii). Qed.

Lemma plain_word name : plain name = true -> is_word name.
Proof.
  unfold plain, is_word. intros Hp. apply andb_true_iff in Hp as [Hp _]. destruct name as [|c r]; [done|]. simpl in Hp.
  split; [done|]. apply andb_true_iff in Hp as [_ Hp].
  change (forallb ascii_word_char (chars (String c r)) = true) in Hp. apply list.Forall_forall. intros x Hx.
  rewrite forallb_forall in Hp. apply Hp. by apply list_elem_of_In.
Qed.

Lemma plain_not_special name kw : plain name = true -> kw ∈ special_words -> eq_ignore_ascii_case name kw = false.
Proof.
  unfold plain. intros Hp Hk. apply andb_true_iff in Hp as [_ Hp]. apply bool_decide_eq_true in Hp.
  unfold eq_ignore_ascii_case. apply bool_decide_eq_false. intros Heq. apply Hp. rewrite Heq.
  unfold special_words in *. rewrite !elem_of_cons in Hk |- *.
  destruct Hk as [->|[->|[->|[->|[->|Hk]]]]]; [by vm_compute; tauto..|by apply elem_of_nil in Hk].
Qed.

Lemma quotable_spec q s : quotable q s = true ->
  Forall (fun c => code c < 128) (chars s) /\ code q ∉ cps s.
Proof.
  unfold quotable, cps. intros Hq. induction (chars s) as [|c l IH]; simpl in *.
  - split; [constructor|apply not_elem_of_nil].
  - apply andb_true_iff in Hq as [Hc Hl]. destruct (IH Hl) as [H1 H2].
    apply andb_true_iff in Hc as [Hc Hn]. apply Z.ltb_lt in Hc. apply negb_true_iff in Hn.
    split; [by constructor|]. rewrite not_elem_of_cons. split; [|done]. intros Heq. apply code_inj in Heq as ->.
    by rewrite Ascii.eqb_refl in Hn.
Qed.

Lemma split_at_char_text c a b : c ∉ a -> split_at_char c (a ++ c :: b) = Some (a, b).
Proof.
  induction a as [|x a IH]; simpl; intros Ha; [by rewrite Z.eqb_refl|].
  apply not_elem_of_cons in Ha as [Hx Ha]. rewrite (proj2 (Z.eqb_neq x c)) by done. by rewrite IH.
Qed.

Lemma quoted_text q s rest : quotable q s = true -> quoted (between_quotes q s ++ rest) = POk s rest.
Proof.
  intros Hq. destruct (quotable_spec q s Hq) as [Ha Hn]. unfold between_quotes, quoted. simpl.
  rewrite <- app_assoc. simpl. rewrite split_at_char_text by done. by rewrite to_str_cps.
Qed.

Lemma until_backtick_text s rest : is_ascii s -> code "`" ∉ s -> until_backtick (s ++ code "`" :: rest) = POk s rest.
Proof.
  induction s as [|c s IH]; intros Ha Hn; simpl; [done|].
  apply list.Forall_cons in Ha as [Hc Ha]. apply not_elem_of_cons in Hn as [Hx Hn].
  rewrite (proj2 (Z.eqb_neq c _)) by done. destruct (Z.leb_spec 128 c); [lia|]. by rewrite IH.
Qed.

Lemma is_ascii_cps s : Forall (fun c => code c < 128) (chars s) -> is_ascii (cps s).
Proof. intros Hs. unfold is_ascii, cps. by apply List.Forall_map. Qed.

Lemma backtick_text s rest : quotable "`" s = true ->
  parse_backtick_identifier (between_quotes "`" s ++ rest) = POk s rest.
Proof.
  intros Hq. destruct (quotable_spec _ s Hq) as [Ha Hn].
  change (between_quotes "`" s ++ rest) with (code "`" :: (cps s ++ [code "`"]) ++ rest). rewrite <- app_assoc.
  unfold parse_backtick_identifier, pbind, ws. rewrite skip_id by done.
  change (accept "`" (code "`" :: cps s ++ [code "`"] ++ rest)) with (POk true (cps s ++ code "`" :: rest)). cbn beta iota.
  rewrite until_backtick_text; [|by apply is_ascii_cps|done]. unfold pret. by rewrite to_str_cps.
Qed.
End reading.

Section levels.
Context `{Unicode}.

(** ** The levels of the grammar *)

Definition prb (i : nat) : probe :=
  match i with
  | 0 => or_probe | 1 => and_probe | 4 => bitor_probe | 5 => bitxor_probe | 6 => bitand_probe
  | 7 => additive_probe | _ => multiplicative_probe
  end%nat.

(** The parser of level [i] inside [parse_expr (S m)]. *)
Definition lvl (i m : nat) : P Expr :=
  let n := S m in
  let expr := parse_expr m in
  match i with
  | 0 => parse_or n expr | 1 => parse_and n expr | 2 => parse_range n expr | 3 => parse_comparison n expr
  | 4 => parse_bitor n expr | 5 => parse_bitxor n expr | 6 => parse_bitand n expr | 7 => parse_additive n expr
  | 8 => parse_multiplicative n expr | 9 => parse_unary n expr n | _ => parse_primary n expr
  end%nat.

Definition is_binary (i : nat) : bool := match i with 0 | 1 | 4 | 5 | 6 | 7 | 8 => true | _ => false end%nat.

Lemma lvl_binary i m : is_binary i = true -> lvl i m = binary_level (S m) (prb i) (lvl (S i) m).
Proof. by do 9 (destruct i as [|i]; [done|]). Qed.

(** What would continue an expression: [NOT] followed by one of some words; per level, an
    operator or a word; at every level, a postfix, an argument list or [OVER]. *)
Definition not_then (kws : list string) (s : input) : bool :=
  peek_word_is "NOT" s && existsb (fun kw => peek_word_is kw (after_keyword "NOT" s)) kws.

Definition has_op (pr : probe) (s : input) : bool := match (pr s).1 with Some _ => true | None => false end.

Definition continues (l : nat) (s : input) : bool :=
  match l with
  | 2 => existsb (fun kw => peek_word_is kw s) ["BETWEEN"; "IN"; "IS"; "LIKE"] || not_then ["BETWEEN"; "IN"; "LIKE"] s
  | 3 => peek_word_is "LIKE" s || not_then ["LIKE"] s || match comparison_op s with Some _ => true | None => false end
  | _ => has_op (prb l) s
  end%nat.

Definition calls (s : input) : bool := looking_at "(" s || peek_word_is "OVER" s.
Definition postfixes (s : input) : bool := looking_at "." s || starts_with "->" s || looking_at "[" s.

(** Nothing of level [i] or tighter continues here. *)
Definition stops (i : nat) (s : input) : bool :=
  negb (calls s) && negb (postfixes s) && forallb (fun l => negb ((i <=? l)%nat && continues l s)) (seq 0 9).

Lemma stops_level i l s : (i <= l)%nat -> (l < 9)%nat -> stops i s = true -> continues l s = false.
Proof.
  intros Hl H9 Hs. unfold stops in Hs. apply andb_true_iff in Hs as [_ Hs]. rewrite forallb_forall in Hs.
  specialize (Hs l). rewrite in_seq in Hs. specialize (Hs ltac:(lia)).
  rewrite (proj2 (Nat.leb_le i l)) in Hs by done. by apply negb_true_iff.
Qed.

Lemma stops_up i j s : (i <= j)%nat -> stops i s = true -> stops j s = true.
Proof.
  intros Hij Hs. unfold stops in *. apply andb_true_iff in Hs as [Hc Hs]. apply andb_true_iff. split; [exact Hc|].
  apply forallb_forall. rewrite forallb_forall in Hs. intros l Hl. specialize (Hs l Hl). apply negb_true_iff in Hs.
  apply negb_true_iff. apply andb_false_iff in Hs as [Hs|Hs]; [|by rewrite Hs, andb_false_r].
  apply Nat.leb_gt in Hs. rewrite (proj2 (Nat.leb_gt j l)) by lia. done.
Qed.

Lemma stops_calls i s : stops i s = true -> calls s = false /\ postfixes s = false.
Proof.
  intros Hs. unfold stops in Hs. apply andb_true_iff in Hs as [Hs _]. apply andb_true_iff in Hs as [H1 H2].
  by apply negb_true_iff in H1, H2.
Qed.

(** [reads i txt e]: the parser of level [i] reads [txt] as [e] before anything that does
    not continue it. *)
Definition reads (i : nat) (txt : input) (e : Expr) : Prop := forall m rest,
  (length (txt ++ rest) < S m)%nat -> brk rest = true -> stops i (skip_whitespace rest) = true ->
  lvl i m (txt ++ rest) = POk e (skip_whitespace rest).

(** The same, up to white space before the rest. *)
Definition reads_ws (i : nat) (txt : input) (e : Expr) : Prop := forall m rest,
  (length (txt ++ rest) < S m)%nat -> brk rest = true -> stops i (skip_whitespace rest) = true ->
  exists r, lvl i m (txt ++ rest) = POk e r /\ r `suffix_of` rest /\ skip_whitespace r = skip_whitespace rest.

(** The same at a left-associative level, up to the turn of its loop. *)
Definition reads_left (i : nat) (txt : input) (e : Expr) : Prop := forall m rest,
  (length (txt ++ rest) < S m)%nat -> brk rest = true -> stops (S i) (skip_whitespace rest) = true ->
  exists r, r `suffix_of` rest /\ skip_whitespace r = skip_whitespace rest /\
    lvl i m (txt ++ rest) = binary_loop (S m) (lvl (S i) m) (prb i) e r.

Lemma reads_reads_ws i txt e : reads i txt e -> reads_ws i txt e.
Proof.
  intros Hr m rest Hl Hb Hs. exists (skip_whitespace rest). split_and!; [by apply Hr|apply skip_suffix|apply skip_idemp].
Qed.

Lemma reads_expr txt e m rest : reads 0 txt e -> (length (txt ++ rest) < m)%nat -> brk rest = true ->
  stops 0 (skip_whitespace rest) = true -> parse_expr m (txt ++ rest) = POk e (skip_whitespace rest).
Proof. intros Hr Hl Hb Hs. destruct m as [|m]; [lia|]. by apply Hr. Qed.

(** *** Left-associative levels *)

Lemma probe_stop i s : is_binary i = true -> continues i (skip_whitespace s) = false ->
  prb i s = (None, if (i =? 1)%nat then s else skip_whitespace s).
Proof.
  intros Hb Hc.
  assert (Hsym : forall op_of, has_op (symbol_probe op_of) (skip_whitespace s) = false ->
    symbol_probe op_of s = (None, skip_whitespace s)).
  { intros op_of. unfold has_op, symbol_probe. rewrite skip_idemp. by destruct (op_of (skip_whitespace s)). }
  destruct i as [|[|i]].
  3: by do 7 (destruct i as [|i]; [first [discriminate Hb|by apply Hsym]|]).
  - revert Hc. unfold continues, has_op, prb, or_probe, match_keyword. rewrite skip_idemp.
    destruct (peek_word (skip_whitespace s)) as [w|]; [|done]. by destruct (is_keyword "OR" w).
  - revert Hc. unfold continues, has_op, prb, and_probe, peek_word_is at 1. rewrite peek_word_skip.
    fold (peek_word_is "AND" s). destruct (peek_word_is "AND" s) eqn:Hp; [|done].
    assert (Hp' : peek_word_is "AND" (skip_whitespace s) = true) by (unfold peek_word_is; by rewrite peek_word_skip).
    by destruct (peek_match "AND" _ Hp') as [r ->].
Qed.

Lemma probe_skip i s op r : prb i (skip_whitespace s) = (Some op, r) -> prb i s = (Some op, r).
Proof.
  assert (Hsym : forall op_of, symbol_probe op_of (skip_whitespace s) = (Some op, r) -> symbol_probe op_of s = (Some op, r)).
  { intros op_of. unfold symbol_probe. by rewrite skip_idemp. }
  destruct i as [|[|i]].
  3: by do 6 (destruct i as [|i]; [apply Hsym|]); apply Hsym.
  - unfold prb, or_probe, match_keyword. rewrite skip_idemp.
    destruct (peek_word (skip_whitespace s)) as [w|]; [|done]. by destruct (is_keyword "OR" w).
  - unfold prb, and_probe, match_keyword, peek_word_is. rewrite skip_idemp, peek_word_skip.
    destruct (peek_word s) as [w|]; [|done]. by destruct (is_keyword "AND" w).
Qed.

Lemma lvl_fits i m : fits m (lvl i m).
Proof.
  assert (Hexpr : forall s, (length s < m)%nat -> ok_at (parse_expr m) s) by (intros; by apply ok_parse_expr).
  assert (Hun : fits m (lvl 9 m)) by (intros s Hs; apply (ok_unary _ m); [lia|done|lia|lia]).
  assert (Hb8 : fits m (lvl 8 m)) by (apply ok_binary_level; [apply multiplicative_probes|done|lia]).
  assert (Hb7 : fits m (lvl 7 m)) by (apply ok_binary_level; [apply additive_probes|done|lia]).
  assert (Hb6 : fits m (lvl 6 m)) by (apply ok_binary_level; [apply bitand_probes|done|lia]).
  assert (Hb5 : fits m (lvl 5 m)) by (apply ok_binary_level; [apply bitxor_probes|done|lia]).
  assert (Hb4 : fits m (lvl 4 m)) by (apply ok_binary_level; [apply bitor_probes|done|lia]).
  assert (Hb2 : fits m (lvl 2 m)) by (apply ok_range; [lia|done]).
  destruct i as [|[|[|[|i]]]].
  - apply ok_or; [lia|done].
  - apply ok_binary_level; [apply and_probes|done|lia].
  - done.
  - apply ok_comparison; [lia|done].
  - do 6 (destruct i as [|i]; [done|]). intros s Hs. apply (ok_primary _ m); [lia|done|done].
Qed.

Lemma prb_probes i : probes (prb i).
Proof.
  do 8 (destruct i as [|i]; [first [apply or_probes|apply and_probes|apply bitor_probes|apply bitxor_probes
    |apply bitand_probes|apply additive_probes|apply multiplicative_probes]|]). apply multiplicative_probes.
Qed.

(** More fuel does not change a loop that has enough. *)
Lemma binary_loop_fuel k1 k2 next p e s : probes p -> fits (length s) next ->
  (length s < k1)%nat -> (length s < k2)%nat -> binary_loop k1 next p e s = binary_loop k2 next p e s.
Proof.
  intros Hp. revert k2 e s. induction k1 as [|k1 IH]; intros [|k2] e s Hn H1 H2; [lia|lia|lia|]. simpl.
  specialize (Hp s). destruct (p s) as [[op|] r]; [|done]. unfold pbind.
  assert (Hf : ok_at next r) by (apply Hn; len). unfold ok_at in Hf.
  destruct (next r) as [right r'| | |]; [|done..]. simpl in Hf.
  apply IH; [eapply fits_le; [|done]; len|len|len].
Qed.

Lemma reads_left_up i txt e : is_binary i = true -> reads_ws (S i) txt e -> reads_left i txt e.
Proof.
  intros Hi Hr m rest Hl Hb Hs. destruct (Hr m rest Hl Hb Hs) as (r & Hp & Hsuf & Hsk). exists r. split_and!; [done|done|].
  rewrite lvl_binary by done. unfold binary_level. by apply pbind_ok.
Qed.

Lemma reads_left_stop i txt e m rest : is_binary i = true -> reads_left i txt e ->
  (length (txt ++ rest) < S m)%nat -> brk rest = true -> stops i (skip_whitespace rest) = true ->
  exists r, r `suffix_of` rest /\ skip_whitespace r = skip_whitespace rest /\
    lvl i m (txt ++ rest) = POk e (if (i =? 1)%nat then r else skip_whitespace rest).
Proof.
  intros Hi Hr Hl Hb Hs.
  destruct (Hr m rest Hl Hb) as (r & Hsuf & Hsk & Hp); [eapply stops_up; [|exact Hs]; lia|]. exists r.
  split_and!; [done|done|]. rewrite Hp. simpl. rewrite probe_stop, Hsk; [done|done|]. rewrite Hsk.
  eapply stops_level; [| |exact Hs]; [done|]. by do 9 (destruct i as [|i]; [lia|]).
Qed.

Lemma reads_of_left i txt e : is_binary i = true -> i <> 1%nat -> reads_left i txt e -> reads i txt e.
Proof.
  intros Hi H1 Hr m rest Hl Hb Hs. destruct (reads_left_stop i txt e m rest Hi Hr Hl Hb Hs) as (r & _ & _ & ->).
  by rewrite (proj2 (Nat.eqb_neq i 1)).
Qed.

Lemma reads_ws_of_left txt e : reads_left 1 txt e -> reads_ws 1 txt e.
Proof.
  intros Hr m rest Hl Hb Hs. destruct (reads_left_stop 1 txt e m rest eq_refl Hr Hl Hb Hs) as (r & Hsuf & Hsk & Hp).
  by exists r.
Qed.

(** Leading white space changes nothing. *)
Lemma lvl_space i m s : lvl i m (32 :: s) = lvl i m s.
Proof.
  assert (Hskip : skip_whitespace (32 :: s) = skip_whitespace s).
  { unfold skip_whitespace. simpl. by destruct (span is_space s). }
  assert (H10 : parse_primary (S m) (parse_expr m) (32 :: s) = parse_primary (S m) (parse_expr m) s).
  { unfold parse_primary. by rewrite Hskip. }
  assert (H9 : lvl 9 m (32 :: s) = lvl 9 m s) by (unfold lvl; cbn [parse_unary]; by rewrite Hskip).
  assert (Hb : forall i, is_binary i = true -> lvl (S i) m (32 :: s) = lvl (S i) m s -> lvl i m (32 :: s) = lvl i m s).
  { intros j Hj Heq. rewrite (lvl_binary j m Hj). unfold binary_level, pbind. by rewrite Heq. }
  assert (H4 : lvl 4 m (32 :: s) = lvl 4 m s) by (do 5 (apply Hb; [done|]); done).
  assert (H3 : lvl 3 m (32 :: s) = lvl 3 m s).
  { unfold lvl, parse_comparison, pbind. unfold lvl in H4. by rewrite H4. }
  assert (H2 : lvl 2 m (32 :: s) = lvl 2 m s).
  { unfold lvl, parse_range, pbind. unfold lvl in H3. by rewrite H3. }
  do 10 (destruct i as [|i]; [try done; repeat (apply Hb; [done|]); done|]). done.
Qed.

Lemma op_probe op t : is_binary (op_level op) = true -> prb (op_level op) (skip_whitespace (op_text op ++ t)) = (Some op, 32 :: t).
Proof. by destruct op; vm_compute. Qed.

Lemma op_stops op t : is_binary (op_level op) = true ->
  stops (S (op_level op)) (skip_whitespace (op_text op ++ t)) = true /\ brk (op_text op ++ t) = true.
Proof. by destruct op; vm_compute. Qed.

Lemma op_text_length op : (2 <= length (op_text op))%nat.
Proof. destruct op; vm_compute; lia. Qed.

Lemma skip_length s : (length (skip_whitespace s) <= length s)%nat.
Proof. apply suffix_length, skip_suffix. Qed.

Lemma binary_loop_turn k next p e s op r1 right r2 : p s = (Some op, r1) -> next r1 = POk right r2 ->
  binary_loop (S k) next p e s = binary_loop k next p (BinaryOp e op right) r2.
Proof. intros Hp Hn. simpl. rewrite Hp. unfold pbind. by rewrite Hn. Qed.

Lemma reads_left_op l_txt l op r_txt r : is_binary (op_level op) = true ->
  reads_left (op_level op) l_txt l -> reads_ws (S (op_level op)) r_txt r ->
  reads_left (op_level op) (l_txt ++ op_text op ++ r_txt) (BinaryOp l op r).
Proof.
  intros Hi Hl Hr m rest Hlen Hb Hs. rewrite <- !app_assoc in *. destruct (op_stops op (r_txt ++ rest) Hi) as [Hst Hbr].
  destruct (Hl m _ Hlen Hbr Hst) as (t & Hsuf & Hsk & Hp). pose proof (op_text_length op) as Ho.
  destruct (Hr m rest) as (r' & Hpr & Hsuf' & Hsk'); [lens|done|done|]. exists r'. split_and!; [done|done|].
  rewrite Hp. etrans; [eapply binary_loop_turn|].
  - apply probe_skip. rewrite Hsk. by apply op_probe.
  - rewrite lvl_space. exact Hpr.
  - apply suffix_length in Hsuf'. rewrite !length_app in Hlen.
    apply binary_loop_fuel; [apply prb_probes| |lia|lia]. eapply fits_le; [|apply lvl_fits]. lia.
Qed.

(** *** Comparisons and ranges *)

Lemma reads_at i txt e m rest : reads i txt e -> (length (txt ++ rest) < S m)%nat -> brk rest = true ->
  stops i (skip_whitespace rest) = true -> lvl i m (32 :: txt ++ rest) = POk e (skip_whitespace rest).
Proof. intros Hr Hl Hb Hs. rewrite lvl_space. by apply Hr. Qed.

(** A keyword between spaces. *)
Definition kw_at (kw : string) (t : input) : input := cps kw ++ 32 :: t.

Lemma comparison_up txt e : reads 4 txt e -> reads 3 txt e.
Proof.
  intros Hr m rest Hl Hb Hs.
  change (lvl 3 m) with (parse_comparison (S m) (parse_expr m)). unfold parse_comparison, pbind at 1.
  change (parse_bitor (S m) (parse_expr m)) with (lvl 4 m). rewrite Hr by (first [done|eapply stops_up; [|exact Hs]; lia]).
  cbn beta zeta. rewrite skip_idemp. set (s := skip_whitespace rest) in *.
  apply (stops_level 3 3) in Hs; [|lia|lia]. simpl in Hs. apply orb_false_iff in Hs as [Hs Hc].
  apply orb_false_iff in Hs as [Hl1 Hn]. rewrite Hl1. unfold not_then in Hn. simpl in Hn. rewrite orb_false_r in Hn.
  destruct (peek_word_is "NOT" s); simpl in Hn; [by rewrite Hn|]. by destruct (comparison_op s) as [[]|].
Qed.

Lemma comparison_op_text op t : op_level op = 3%nat ->
  let s := skip_whitespace (op_text op ++ t) in
  stops 4 s = true /\ brk (op_text op ++ t) = true /\ peek_word_is "NOT" s = false /\
  (if bool_decide (op = Like) then peek_word_is "LIKE" s = true /\ after_keyword "LIKE" s = 32 :: t
   else peek_word_is "LIKE" s = false /\ exists k, comparison_op s = Some (op, k) /\ drop k s = 32 :: t).
Proof.
  destruct op; intros Hop; try discriminate Hop; vm_compute; split_and!; try done.
  all: eexists; split; done.
Qed.

Lemma reads_comparison l_txt l op r_txt r : op_level op = 3%nat -> reads 4 l_txt l -> reads 4 r_txt r ->
  reads 3 (l_txt ++ op_text op ++ r_txt) (BinaryOp l op r).
Proof.
  intros Hop Hl Hr m rest Hlen Hb Hs. rewrite <- !app_assoc in *.
  destruct (comparison_op_text op (r_txt ++ rest) Hop) as (Hst & Hbr & Hnot & Hlike).
  change (lvl 3 m) with (parse_comparison (S m) (parse_expr m)). unfold parse_comparison, pbind at 1.
  change (parse_bitor (S m) (parse_expr m)) with (lvl 4 m). rewrite Hl by done.
  cbn beta zeta. rewrite skip_idemp, Hnot.
  assert (Hright : forall f, (right <~ lvl 4 m; pret (f right)) (32 :: r_txt ++ rest) = POk (f r : Expr) (skip_whitespace rest)).
  { intros f. unfold pbind. rewrite reads_at with (e := r); [done|done| |done|eapply stops_up; [|exact Hs]; lia].
    lens. }
  case_bool_decide as Hl'.
  - subst. destruct Hlike as [-> ->]. apply (Hright (fun right => BinaryOp l Like right)).
  - destruct Hlike as [-> (k & -> & ->)]. apply (Hright (fun right => BinaryOp l op right)).
Qed.

Lemma range_up txt e : reads 3 txt e -> reads 2 txt e.
Proof.
  intros Hr m rest Hl Hb Hs.
  change (lvl 2 m) with (parse_range (S m) (parse_expr m)). unfold parse_range, pbind at 1.
  change (parse_comparison (S m) (parse_expr m)) with (lvl 3 m). rewrite Hr by (first [done|eapply stops_up; [|exact Hs]; lia]).
  cbn beta zeta. rewrite skip_idemp. set (s := skip_whitespace rest) in *.
  apply (stops_level 2 2) in Hs; [|lia|lia]. simpl in Hs. apply orb_false_iff in Hs as [Hs Hn].
  rewrite !orb_false_iff in Hs. destruct Hs as (-> & -> & -> & -> & _).
  unfold not_then in Hn. simpl in Hn. destruct (peek_word_is "NOT" s); simpl in Hn; [|done].
  rewrite !orb_false_iff in Hn. by destruct Hn as (-> & -> & -> & _).
Qed.

Lemma cps_app a b : cps (a +:+ b) = cps a ++ cps b.
Proof. unfold cps, chars. induction a as [|c a IH]; simpl; [done|]. by rewrite IH. Qed.

(** The first character of an expression: not white space, nor a character that closes or
    separates. *)
Definition opens (c : Z) : bool := negb (is_space c) && negb (existsb (Z.eqb c) (cps ")],:}*")).
Definition good_head (txt : input) : Prop := exists c r, txt = c :: r /\ opens c = true.

Lemma good_head_app a b : good_head a -> good_head (a ++ b).
Proof. intros (c & r & -> & Hc). by exists c, (r ++ b). Qed.

Lemma opens_skip txt : good_head txt -> skip_whitespace txt = txt.
Proof.
  intros (c & r & -> & Hc). apply skip_id. unfold opens in Hc. apply andb_true_iff in Hc as [Hc _].
  by apply negb_true_iff.
Qed.

Lemma opens_not c txt : good_head txt -> c ∈ [")"; "]"; ","; ":"; "}"; "*"]%char -> looking_at c txt = false.
Proof.
  intros (x & r & -> & Hx) Hc. simpl. unfold opens in Hx. apply andb_true_iff in Hx as [_ Hx].
  apply negb_true_iff in Hx. apply Z.eqb_neq. intros ->. revert Hx.
  rewrite !elem_of_cons, elem_of_nil in Hc. by destruct Hc as [->|[->|[->|[->|[->|[->|[]]]]]]]; vm_compute.
Qed.

(** Characters at the start of what follows an expression. *)
Lemma close_stops c rest : c ∈ [")"; "]"; ","; ":"]%char ->
  brk (code c :: rest) = true /\ skip_whitespace (code c :: rest) = code c :: rest /\ stops 0 (code c :: rest) = true.
Proof. rewrite !elem_of_cons, elem_of_nil. by intros [->|[->|[->|[->|[]]]]]; vm_compute. Qed.

(** Reading an expression before a closing or separating character. *)
Lemma expr_before c txt e m rest : c ∈ [")"; "]"; ","; ":"]%char -> reads 0 txt e ->
  (length (txt ++ code c :: rest) < m)%nat -> parse_expr m (txt ++ code c :: rest) = POk e (code c :: rest).
Proof.
  intros Hc Hr Hl. destruct (close_stops c rest Hc) as (Hb & Hk & Hs).
  rewrite (reads_expr txt e) by (first [done|by rewrite Hk]). by rewrite Hk.
Qed.

(** *** Ranges *)

Lemma range_word kw negated t : kw ∈ ["BETWEEN"; "IN"] ->
  let rest := negation negated ++ cps (" " +:+ kw +:+ " ") ++ t in
  let s := skip_whitespace rest in
  brk rest = true /\ stops 3 s = true /\
  (if negated then
     peek_word_is "BETWEEN" s = false /\ peek_word_is "NOT" s = true /\
     (let s' := after_keyword "NOT" s in
      peek_word_is "BETWEEN" s' = bool_decide (kw = "BETWEEN") /\ peek_word_is kw s' = true /\ after_keyword kw s' = 32 :: t)
   else peek_word_is "BETWEEN" s = bool_decide (kw = "BETWEEN") /\ peek_word_is "NOT" s = false /\
     peek_word_is kw s = true /\ after_keyword kw s = 32 :: t).
Proof. rewrite !elem_of_cons, elem_of_nil. by intros [->|[->|[]]]; destruct negated; vm_compute. Qed.

Lemma and_word t : brk (cps " AND " ++ t) = true /\ stops 3 (skip_whitespace (cps " AND " ++ t)) = true /\
  expect_keyword "AND" (skip_whitespace (cps " AND " ++ t)) = POk tt (32 :: t).
Proof. by vm_compute. Qed.

Lemma between_text x low_txt low high_txt high negated m rest :
  reads 3 low_txt low -> reads 3 high_txt high -> (length (low_txt ++ cps " AND " ++ high_txt ++ rest) < S m)%nat ->
  brk rest = true -> stops 3 (skip_whitespace rest) = true ->
  between_bounds (S m) (parse_expr m) x negated (32 :: low_txt ++ cps " AND " ++ high_txt ++ rest)
    = POk (Between x low high negated) (skip_whitespace rest).
Proof.
  intros Hlow Hhigh Hl Hb Hs. unfold between_bounds, pbind at 1.
  change (parse_comparison (S m) (parse_expr m)) with (lvl 3 m).
  destruct (and_word (high_txt ++ rest)) as (Hba & Hsa & Hka).
  rewrite (reads_at 3 low_txt low) by done. unfold pbind at 1. rewrite Hka. unfold pbind.
  rewrite (reads_at 3 high_txt high); [done|done|lens|done|done].
Qed.

Lemma reads_between x_txt x low_txt low high_txt high negated :
  reads 3 x_txt x -> reads 3 low_txt low -> reads 3 high_txt high ->
  reads 2 (x_txt ++ negation negated ++ cps " BETWEEN " ++ low_txt ++ cps " AND " ++ high_txt) (Between x low high negated).
Proof.
  intros Hx Hlow Hhigh m rest Hl Hb Hs. rewrite <- !app_assoc in *.
  change (lvl 2 m) with (parse_range (S m) (parse_expr m)). unfold parse_range, pbind at 1.
  change (parse_comparison (S m) (parse_expr m)) with (lvl 3 m).
  destruct (range_word "BETWEEN" negated (low_txt ++ cps " AND " ++ high_txt ++ rest)) as (Hbr & Hst & Hw);
    [apply list_elem_of_here|].
  change (" " +:+ "BETWEEN" +:+ " ") with " BETWEEN " in *. rewrite Hx by done. cbn beta zeta. rewrite skip_idemp.
  assert (Hbnd : between_bounds (S m) (parse_expr m) x negated (32 :: low_txt ++ cps " AND " ++ high_txt ++ rest)
    = POk (Between x low high negated) (skip_whitespace rest)).
  { apply between_text; [done|done| |done|eapply stops_up; [|exact Hs]; lia].
    clear -Hl. destruct negated; lens. }
  destruct negated.
  - destruct Hw as (-> & -> & -> & _ & ->). done.
  - destruct Hw as (-> & _ & _ & ->). done.
Qed.

(** *** Lists *)

(** Each expression with its text. *)
Definition texts (l : list (input * Expr)) : input := sep l.*1.

Lemma texts_cons txt e l : l <> [] -> texts ((txt, e) :: l) = txt ++ cps ", " ++ texts l.
Proof. destruct l; [done|]. done. Qed.

Lemma skip_space s : skip_whitespace (32 :: s) = skip_whitespace s.
Proof. unfold skip_whitespace. simpl. by destruct (span is_space s). Qed.

Lemma comma_list_space {A} k close (item : P (list A)) acc s :
  comma_list k close item acc (32 :: s) = comma_list k close item acc s.
Proof. destruct k; [done|]. cbn [comma_list]. by rewrite skip_space. Qed.

Lemma comma_list_text l m k acc close rest : close ∈ [")"; "]"]%char ->
  Forall (fun te => reads 0 te.1 te.2 /\ good_head te.1) l ->
  (length (texts l ++ code close :: rest) < k)%nat -> (length (texts l ++ code close :: rest) < m)%nat ->
  comma_list k close (e <~ parse_expr m; pret [e]) acc (texts l ++ code close :: rest)
    = POk (acc ++ l.*2) (code close :: rest).
Proof.
  intros Hc Hall. revert k acc. induction Hall as [|[txt e] l [Hr Hg] Hall IH]; intros k acc Hk Hm.
  { destruct k as [|k]; [simpl in Hk; lia|]. change (texts [] ++ code close :: rest) with (code close :: rest).
    cbn [comma_list].
    assert (Hc' : close ∈ [")"; "]"; ","; ":"]%char) by (rewrite !elem_of_cons in *; tauto).
    destruct (close_stops close rest Hc') as (_ & -> & _). simpl. rewrite Z.eqb_refl. by rewrite app_nil_r. }
  destruct k as [|k]; [lens|]. simpl in Hr, Hg.
  assert (Hnot : looking_at close txt = false).
  { apply opens_not; [done|]. rewrite !elem_of_cons in *. tauto. }
  cbn [comma_list].
  assert (Hgo : forall t, looking_at close (skip_whitespace (txt ++ t)) = false /\ skip_whitespace (txt ++ t) = txt ++ t).
  { intros t. rewrite (opens_skip (txt ++ t)) by (by apply good_head_app). split; [|done].
    destruct Hg as (c & r & -> & _). done. }
  destruct l as [|te l].
  - assert (Hc' : close ∈ [")"; "]"; ","; ":"]%char) by (rewrite !elem_of_cons in *; tauto).
    unfold texts in *. cbn [fmap list_fmap sep fst] in *. destruct (Hgo (code close :: rest)) as [-> ->].
    assert (Hitem : (e <~ parse_expr m; pret [e]) (txt ++ code close :: rest) = POk [e] (code close :: rest)).
    { by rewrite (pbind_ok _ _ _ e (code close :: rest)) by (by apply expr_before). }
    rewrite (pbind_ok _ _ _ _ _ Hitem), ws_then. destruct (close_stops close rest Hc') as (_ & -> & _).
    rewrite (pbind_ok _ _ _ false (code close :: rest)); [done|]. unfold accept.
    rewrite !elem_of_cons, elem_of_nil in Hc. by destruct Hc as [->|[->|[]]].
  - rewrite texts_cons in * by done. rewrite <- !app_assoc in *.
    change (cps ", " ++ texts (te :: l) ++ code close :: rest)
      with (code "," :: 32 :: texts (te :: l) ++ code close :: rest) in *.
    set (more := 32 :: texts (te :: l) ++ code close :: rest) in *. destruct (Hgo (code "," :: more)) as [-> ->].
    assert (Hitem : (e <~ parse_expr m; pret [e]) (txt ++ code "," :: more) = POk [e] (code "," :: more)).
    { rewrite (pbind_ok _ _ _ e (code "," :: more)); [done|]. apply expr_before; [rewrite !elem_of_cons; tauto|done|done]. }
    rewrite (pbind_ok _ _ _ _ _ Hitem), ws_then. destruct (close_stops "," more) as (_ & -> & _);
      [rewrite !elem_of_cons; tauto|].
    rewrite (pbind_ok _ _ _ true more) by done. subst more. rewrite comma_list_space, IH by lens.
    by rewrite <- app_assoc.
Qed.

Lemma in_list_text l m rest : Forall (fun te => reads 0 te.1 te.2 /\ good_head te.1) l ->
  (length (paren (texts l) ++ rest) < S m)%nat ->
  parse_in_list (S m) (parse_expr m) (32 :: paren (texts l) ++ rest) = POk l.*2 rest.
Proof.
  intros Hall Hl. unfold parse_in_list.
  change (32 :: paren (texts l) ++ rest) with (32 :: code "(" :: (texts l ++ [code ")"]) ++ rest).
  change (paren (texts l) ++ rest) with (code "(" :: (texts l ++ [code ")"]) ++ rest) in Hl.
  rewrite <- !app_assoc in *. cbn [app] in *.
  rewrite (pbind_ok _ _ _ tt (texts l ++ code ")" :: rest)) by done. unfold closed_list.
  rewrite (pbind_ok _ _ _ l.*2 (code ")" :: rest)); [done|].
  apply (comma_list_text l m (S m) []); [apply list_elem_of_here|done|lens|lens].
Qed.

Lemma reads_in_list x_txt x l negated : reads 3 x_txt x -> Forall (fun te => reads 0 te.1 te.2 /\ good_head te.1) l ->
  reads_ws 2 (x_txt ++ negation negated ++ cps " IN " ++ paren (texts l)) (InList x l.*2 negated).
Proof.
  intros Hx Hall m rest Hl Hb Hs. rewrite <- !app_assoc in *. exists rest. split; [|done].
  change (lvl 2 m) with (parse_range (S m) (parse_expr m)). unfold parse_range.
  change (parse_comparison (S m) (parse_expr m)) with (lvl 3 m).
  destruct (range_word "IN" negated (paren (texts l) ++ rest)) as (Hbr & Hst & Hw).
  { rewrite !elem_of_cons. tauto. }
  change (" " +:+ "IN" +:+ " ") with " IN " in *.
  rewrite (pbind_ok _ _ _ x (skip_whitespace (negation negated ++ cps " IN " ++ paren (texts l) ++ rest)))
    by (by apply Hx). cbn beta zeta. rewrite skip_idemp.
  assert (Hin : forall neg, (items <~ parse_in_list (S m) (parse_expr m); pret (InList x items neg))
      (32 :: paren (texts l) ++ rest) = POk (InList x l.*2 neg) rest).
  { intros neg. rewrite (pbind_ok _ _ _ l.*2 rest); [done|].
    apply in_list_text; [done|]. clear -Hl. destruct negated; lens. }
  destruct negated.
  - destruct Hw as (-> & -> & -> & -> & ->). apply Hin.
  - destruct Hw as (-> & -> & -> & ->). apply Hin.
Qed.

Lemma null_words negated t : brk t = true ->
  let rest := cps " IS" ++ negation negated ++ cps " NULL" ++ t in
  let s := skip_whitespace rest in
  brk rest = true /\ stops 3 s = true /\ peek_word_is "BETWEEN" s = false /\ peek_word_is "NOT" s = false /\
  peek_word_is "IN" s = false /\ peek_word_is "IS" s = true /\
  (neg <~ match_keyword "NOT"; expect_keyword "NULL";; pret neg) (after_keyword "IS" s) = POk negated t.
Proof.
  intros Ht.
  assert (Hnull : expect_keyword "NULL" (cps " NULL" ++ t) = POk tt t).
  { unfold expect_keyword, match_keyword, pbind. change (skip_whitespace (cps " NULL" ++ t)) with (cps "NULL" ++ t).
    rewrite peek_word_text by (first [done|by split; [done|repeat constructor]]).
    by rewrite is_keyword_text by (by split; [done|repeat constructor]). }
  destruct negated; cbn beta zeta; (split_and!; [by vm_compute..|]).
  - change (after_keyword "IS" (skip_whitespace (cps " IS" ++ negation true ++ cps " NULL" ++ t))) with (cps " NOT NULL" ++ t).
    rewrite (pbind_ok _ _ _ true (cps " NULL" ++ t)) by done. by rewrite (pbind_ok _ _ _ tt t).
  - change (after_keyword "IS" (skip_whitespace (cps " IS" ++ negation false ++ cps " NULL" ++ t))) with (cps " NULL" ++ t).
    assert (Hno : match_keyword "NOT" (cps " NULL" ++ t) = POk false (cps "NULL" ++ t)).
    { unfold match_keyword. change (skip_whitespace (cps " NULL" ++ t)) with (cps "NULL" ++ t).
      rewrite peek_word_text by (first [done|by split; [done|repeat constructor]]).
      by rewrite is_keyword_text by (by split; [done|repeat constructor]). }
    rewrite (pbind_ok _ _ _ _ _ Hno). rewrite (pbind_ok _ _ _ tt t); [done|]. exact Hnull.
Qed.

Lemma reads_is_null x_txt x negated : reads 3 x_txt x ->
  reads_ws 2 (x_txt ++ cps " IS" ++ negation negated ++ cps " NULL") (IsNull x negated).
Proof.
  intros Hx m rest Hl Hb Hs. rewrite <- !app_assoc in *. exists rest. split; [|done].
  destruct (null_words negated rest Hb) as (Hbr & Hst & Hw1 & Hw2 & Hw3 & Hw4 & Hnull).
  change (lvl 2 m) with (parse_range (S m) (parse_expr m)). unfold parse_range.
  change (parse_comparison (S m) (parse_expr m)) with (lvl 3 m).
  rewrite (pbind_ok _ _ _ x (skip_whitespace (cps " IS" ++ negation negated ++ cps " NULL" ++ rest)))
    by (by apply Hx). cbn beta zeta. rewrite skip_idemp, Hw1, Hw2, Hw3, Hw4.
  apply pbind_inv in Hnull as (neg & r & Hneg & Hnull). rewrite (pbind_ok _ _ _ _ _ Hneg).
  apply pbind_inv in Hnull as (u & r' & Hu & Hnull). rewrite (pbind_ok _ _ _ _ _ Hu).
  unfold pret in *. by simplify_eq.
Qed.

(** ** Postfixes *)

(** [reads_post txt e]: [txt] is a primary expression, read up to its postfixes. *)
Definition reads_post (txt : input) (e : Expr) : Prop := forall m rest,
  (length (txt ++ rest) < S m)%nat -> brk rest = true -> calls (skip_whitespace rest) = false ->
  lvl 10 m (txt ++ rest) = postfix_loop (parse_expr m) (S m) e rest.

Lemma postfix_skip expr k e s : postfix_loop expr (S k) e (skip_whitespace s) = postfix_loop expr (S k) e s.
Proof. cbn [postfix_loop]. by rewrite skip_idemp. Qed.

Lemma postfix_fuel m k1 k2 e s : (length s <= m)%nat -> (length s < k1)%nat -> (length s < k2)%nat ->
  postfix_loop (parse_expr m) k1 e s = postfix_loop (parse_expr m) k2 e s.
Proof.
  revert k2 e s. induction k1 as [|k1 IH]; intros [|k2] e s Hm H1 H2; [lia|lia|lia|]. cbn [postfix_loop].
  pose proof (skip_length s) as Hk. set (t := skip_whitespace s) in *.
  assert (Hstep : forall (p : P Expr) r, ok_at p r -> (length r < length s)%nat ->
    (e' <~ p; postfix_loop (parse_expr m) k1 e') r = (e' <~ p; postfix_loop (parse_expr m) k2 e') r).
  { intros p r Hp Hr. unfold pbind, ok_at in *. destruct (p r) as [e' r'| | |]; [|done..]. simpl in Hp.
    apply suffix_length in Hp. apply IH; lia. }
  assert (Hfield : forall (p : P string) r, ok_at p r -> (length r < length s)%nat ->
    (f <~ p; postfix_loop (parse_expr m) k1 (FieldAccess e f)) r = (f <~ p; postfix_loop (parse_expr m) k2 (FieldAccess e f)) r).
  { intros p r Hp Hr. unfold pbind, ok_at in *. destruct (p r) as [f r'| | |]; [|done..]. simpl in Hp.
    apply suffix_length in Hp. apply IH; lia. }
  assert (Hd : forall j c, looking_at c t = true -> (0 < j)%nat -> (length (drop j t) < length s)%nat).
  { intros j c Hc Hj. rewrite length_drop. destruct t; [done|]. simpl in *. lia. }
  destruct (looking_at "." t) eqn:Hdot; [apply Hfield; [apply ok_dot_field|by eapply Hd; [|lia]]|].
  destruct (starts_with "->" t) eqn:Harr.
  { apply Hfield; [apply ok_arrow_field|]. apply (starts_with_ne "->") in Harr; [|done]. rewrite length_drop.
    destruct t; [done|]. simpl in *. lia. }
  destruct (looking_at "[" t) eqn:Hb; [|done]. apply Hstep; [|by eapply Hd; [|lia]].
  apply (ok_subscript (S m) m); [lia|intros; by apply ok_parse_expr|]. pose proof (Hd 1%nat "["%char Hb ltac:(lia)). lia.
Qed.

Lemma reads_of_post txt e : reads_post txt e -> reads 10 txt e.
Proof.
  intros Hr m rest Hl Hb Hs. apply stops_calls in Hs as [Hc Hp]. rewrite Hr by done. cbn [postfix_loop].
  unfold postfixes in Hp. rewrite !orb_false_iff in Hp. by destruct Hp as [[-> ->] ->].
Qed.

(** One postfix after the text of [b]. *)
Lemma reads_postfix b_txt b c txt e : c ∈ ["."; "["]%char -> reads_post b_txt b ->
  (forall m rest, (length (txt ++ rest) < m)%nat -> brk rest = true ->
     postfix_loop (parse_expr m) (S m) b (code c :: txt ++ rest) = postfix_loop (parse_expr m) m e rest) ->
  reads_post (b_txt ++ code c :: txt) e.
Proof.
  intros Hc Hb Hstep m rest Hl Hbr Hcall. rewrite <- app_assoc in *. cbn [app] in *.
  assert (Hs : brk (code c :: txt ++ rest) = true /\ calls (skip_whitespace (code c :: txt ++ rest)) = false).
  { rewrite !elem_of_cons, elem_of_nil in Hc. by destruct Hc as [->|[->|[]]]; vm_compute. }
  destruct Hs as [Hs1 Hs2]. rewrite Hb by done. rewrite Hstep; [|lens|done].
  apply postfix_fuel; lens.
Qed.

Lemma field_text_head field rest : quotable "`" field = true -> field <> "*" -> brk rest = true ->
  dot_field (field_text field ++ rest) = POk field rest.
Proof.
  intros Hq Hne Hb. unfold field_text. rewrite bool_decide_eq_false_2 by done. unfold name_text.
  destruct (plain field) eqn:Hp.
  - pose proof (plain_word field Hp) as Hw. unfold dot_field. rewrite skip_word by done.
    destruct Hw as [Hn Hall]. destruct field as [|c f]; [done|].
    apply list.Forall_cons in Hall as [Hc Hall]. change (cps (String c f) ++ rest) with (code c :: cps f ++ rest).
    assert (Hx : forall d, ascii_word_char d = false -> looking_at d (code c :: cps f ++ rest) = false).
    { intros d Hd. simpl. apply Z.eqb_neq. intros Heq. apply code_inj in Heq as ->. by rewrite Hc in Hd. }
    rewrite (Hx "*"%char), (Hx "`"%char) by done. apply (word_text (String c f)); [by split; [|constructor]|done].
  - unfold dot_field. rewrite (opens_skip (between_quotes "`" field ++ rest)).
    { change (looking_at "*" (between_quotes "`" field ++ rest)) with false.
      change (looking_at "`" (between_quotes "`" field ++ rest)) with true. by apply backtick_text. }
    by exists (code "`"), ((cps field ++ [code "`"]) ++ rest).
Qed.

Lemma reads_field b_txt b field : reads_post b_txt b -> field = "*" \/ quotable "`" field = true ->
  reads_post (b_txt ++ cps "." ++ field_text field) (FieldAccess b field).
Proof.
  intros Hb Hf. apply (reads_postfix b_txt b "." (field_text field)); [apply list_elem_of_here|done|].
  intros m rest Hl Hbr. cbn [postfix_loop].
  change (skip_whitespace (code "." :: field_text field ++ rest)) with (code "." :: field_text field ++ rest).
  change (looking_at "." (code "." :: field_text field ++ rest)) with true. cbn iota.
  change (drop 1 (code "." :: field_text field ++ rest)) with (field_text field ++ rest).
  apply (pbind_ok dot_field (fun f => postfix_loop (parse_expr m) m (FieldAccess b f))).
  destruct (decide (field = "*")) as [->|Hne]; [done|]. apply field_text_head; [by destruct Hf|done|done].
Qed.

(** A subscript after the text of [b]. *)
Lemma reads_subscript b_txt b txt e : reads_post b_txt b ->
  (forall m rest, (length (txt ++ rest) < m)%nat -> parse_subscript (parse_expr m) b (txt ++ rest) = POk e rest) ->
  reads_post (b_txt ++ cps "[" ++ txt) e.
Proof.
  intros Hb Hsub. apply (reads_postfix b_txt b "[" txt); [rewrite !elem_of_cons; tauto|done|].
  intros m rest Hl Hbr. cbn [postfix_loop].
  set (t := txt ++ rest) in *. change (skip_whitespace (code "[" :: t)) with (code "[" :: t).
  change (looking_at "." (code "[" :: t)) with false. change (starts_with "->" (code "[" :: t)) with false.
  change (looking_at "[" (code "[" :: t)) with true. change (drop 1 (code "[" :: t)) with t. cbn iota.
  subst t. by rewrite (pbind_ok _ _ _ e rest) by (by apply Hsub).
Qed.

(** A subscript that starts with an expression, up to the bracket or the colon. *)
Definition subscript_rest (m : nat) (b first : Expr) : P Expr :=
  ws;; colon <~ accept ":";
  if colon : bool then hi <~ slice_end (parse_expr m); pret (Slice b (Some first) hi)
  else expect_char "]";; pret (Index b first).

Lemma subscript_first m b txt e c t : reads 0 txt e -> good_head txt ->
  (length (txt ++ code c :: t) < m)%nat -> c ∈ ["]"; ":"]%char ->
  parse_subscript (parse_expr m) b (txt ++ code c :: t) = subscript_rest m b e (code c :: t).
Proof.
  intros Hr Hg Hl Hc. assert (Hc' : c ∈ [")"; "]"; ","; ":"]%char) by (rewrite !elem_of_cons in *; tauto).
  unfold parse_subscript. cbn zeta. rewrite (opens_skip (txt ++ code c :: t)) by (by apply good_head_app).
  assert (looking_at ":" (txt ++ code c :: t) = false) as ->.
  { apply opens_not; [by apply good_head_app|]. rewrite !elem_of_cons. tauto. }
  by rewrite (pbind_ok _ _ _ e (code c :: t)) by (by apply expr_before).
Qed.

Lemma reads_index b_txt b i_txt i : reads_post b_txt b -> reads 0 i_txt i -> good_head i_txt ->
  reads_post (b_txt ++ cps "[" ++ i_txt ++ cps "]") (Index b i).
Proof.
  intros Hb Hi Hg. apply (reads_subscript b_txt b (i_txt ++ cps "]")); [done|]. intros m rest Hl.
  rewrite <- app_assoc in *. change (cps "]" ++ rest) with (code "]" :: rest) in *.
  by rewrite (subscript_first m b i_txt i "]" rest) by (first [done|apply list_elem_of_here]).
Qed.

(** An optional expression with its text. *)
Definition reads_opt (txt : input) (o : option Expr) : Prop :=
  match o with Some e => reads 0 txt e /\ good_head txt | None => txt = [] end.

Lemma slice_end_text m txt hi rest : reads_opt txt hi -> (length (txt ++ code "]" :: rest) < m)%nat ->
  slice_end (parse_expr m) (txt ++ code "]" :: rest) = POk hi rest.
Proof.
  intros Hr Hl. unfold slice_end. destruct hi as [e|]; [|by rewrite Hr]. destruct Hr as [Hr Hg].
  rewrite (opens_skip (txt ++ code "]" :: rest)) by (by apply good_head_app).
  assert (looking_at "]" (txt ++ code "]" :: rest) = false) as ->.
  { apply opens_not; [by apply good_head_app|]. rewrite !elem_of_cons. tauto. }
  rewrite (pbind_ok _ _ _ (Some e) (code "]" :: rest)); [done|].
  by rewrite (pbind_ok _ _ _ e (code "]" :: rest)) by (apply expr_before; [rewrite !elem_of_cons; tauto|done|done]).
Qed.

Lemma reads_slice b_txt b lo_txt lo hi_txt hi : reads_post b_txt b -> reads_opt lo_txt lo -> reads_opt hi_txt hi ->
  reads_post (b_txt ++ cps "[" ++ lo_txt ++ cps ":" ++ hi_txt ++ cps "]") (Slice b lo hi).
Proof.
  intros Hb Hlo Hhi. apply (reads_subscript b_txt b (lo_txt ++ cps ":" ++ hi_txt ++ cps "]")); [done|]. intros m rest Hl.
  rewrite <- !app_assoc in *. change (cps "]" ++ rest) with (code "]" :: rest) in *.
  change (cps ":" ++ hi_txt ++ code "]" :: rest) with (code ":" :: hi_txt ++ code "]" :: rest) in *.
  assert (Hend : forall o, (h <~ slice_end (parse_expr m); pret (Slice b o h)) (hi_txt ++ code "]" :: rest) = POk (Slice b o hi) rest).
  { intros o. by rewrite (pbind_ok _ _ _ hi rest) by (apply slice_end_text; [done|lens]). }
  destruct lo as [e|].
  - destruct Hlo as [Hlo Hg].
    rewrite (subscript_first m b lo_txt e ":") by (first [done|rewrite !elem_of_cons; tauto]). apply (Hend (Some e)).
  - simpl in Hlo. subst lo_txt. apply Hend.
Qed.

(** ** Primary expressions *)

(** Not the start of a prefix operator. *)
Definition prefix_op (s : input) : bool := peek_word_is "NOT" s || looking_at "-" s || looking_at "+" s.
Definition primary_head (txt : input) : Prop :=
  good_head txt /\ forall rest, brk rest = true -> prefix_op (txt ++ rest) = false.

Lemma primary_head_app txt t : brk t = true -> t <> [] -> primary_head txt -> primary_head (txt ++ t).
Proof.
  intros Hb Hn [Hg Hp]. split; [by apply good_head_app|]. intros rest Hr. rewrite <- app_assoc. apply Hp.
  destruct t; [done|]. exact Hb.
Qed.

(** A text that starts with a punctuation character other than a sign. *)
Lemma primary_head_char c t : opens c = true -> word_char c = false -> c <> code "-" -> c <> code "+" ->
  primary_head (c :: t).
Proof.
  intros Ho Hw Hm Hp. split; [by exists c, t|]. intros rest Hb. unfold prefix_op, peek_word_is, peek_word.
  cbn [app]. assert (Hsp : is_space c = false).
  { unfold opens in Ho. apply andb_true_iff in Ho as [Ho _]. by apply negb_true_iff. }
  rewrite skip_id by done. cbn [span]. rewrite Hw. cbn [fst looking_at].
  by rewrite (proj2 (Z.eqb_neq _ _) Hm), (proj2 (Z.eqb_neq _ _) Hp).
Qed.

Lemma word_char_not c d : ascii_word_char c = true -> ascii_word_char d = false -> (code c =? code d) = false.
Proof. intros Hc Hd. apply Z.eqb_neq. intros Heq. apply code_inj in Heq as ->. by rewrite Hc in Hd. Qed.

Lemma word_head w : is_word w -> exists c r, w = String c r /\ ascii_word_char c = true.
Proof. intros [Hn Hw]. destruct w as [|c r]; [done|]. apply list.Forall_cons in Hw as [Hc _]. by exists c, r. Qed.

Lemma looking_at_word d w rest : is_word w -> ascii_word_char d = false -> looking_at d (cps w ++ rest) = false.
Proof. intros Hw Hd. destruct (word_head w Hw) as (c & r & -> & Hc). by apply (word_char_not c d). Qed.

Lemma good_head_word w : is_word w -> good_head (cps w).
Proof.
  intros Hw. destruct (word_head w Hw) as (c & r & -> & Hc). exists (code c), (cps r). split; [done|].
  unfold opens. destruct (ascii_word_char_code c Hc) as (_ & _ & ->). simpl.
  by rewrite !(word_char_not c) by done.
Qed.

Lemma primary_head_word w : is_word w -> eq_ignore_ascii_case w "NOT" = false -> primary_head (cps w).
Proof.
  intros Hw Hn. split; [by apply good_head_word|]. intros rest Hb. unfold prefix_op, peek_word_is.
  rewrite peek_word_text, is_keyword_text, Hn by done. by rewrite !looking_at_word.
Qed.

Lemma reads_paren txt e : reads 0 txt e -> reads_post (paren txt) e.
Proof.
  intros Hr m rest Hl Hb Hc.
  change (paren txt ++ rest) with (code "(" :: (txt ++ [code ")"]) ++ rest) in *. rewrite <- app_assoc in *.
  cbn [app] in *. change (lvl 10 m) with (parse_primary (S m) (parse_expr m)). unfold parse_primary. cbn zeta.
  rewrite skip_id by done. rewrite bool_decide_eq_false_2 by done. cbn [looking_at].
  change (code "(" =? code "`") with false. change (code "(" =? code "(") with true. cbn iota. cbn [drop].
  by rewrite (pbind_ok _ _ _ e (code ")" :: rest)) by (apply expr_before; [apply list_elem_of_here|done|lens]).
Qed.

Lemma reads_string q t : q = "'"%char \/ q = double_quote -> quotable q t = true ->
  reads_post (between_quotes q t) (Literal (VString t)).
Proof.
  intros Hq Ht m rest Hl Hb Hc. change (lvl 10 m) with (parse_primary (S m) (parse_expr m)). unfold parse_primary. cbn zeta.
  assert (skip_whitespace (between_quotes q t ++ rest) = between_quotes q t ++ rest) as ->.
  { unfold between_quotes. cbn [app]. apply skip_id. by destruct Hq as [->| ->]. }
  rewrite bool_decide_eq_false_2 by done.
  assert (looking_at "`" (between_quotes q t ++ rest) = false /\ looking_at "(" (between_quotes q t ++ rest) = false /\
    at_quote (between_quotes q t ++ rest) = true) as (-> & -> & ->) by (by destruct Hq as [->| ->]).
  by rewrite (pbind_ok _ _ _ t rest) by (by apply quoted_text).
Qed.

Lemma reads_backtick name : quotable "`" name = true -> reads_post (between_quotes "`" name) (Identifier name).
Proof.
  intros Hn m rest Hl Hb Hc. change (lvl 10 m) with (parse_primary (S m) (parse_expr m)). unfold parse_primary. cbn zeta.
  assert (skip_whitespace (between_quotes "`" name ++ rest) = between_quotes "`" name ++ rest) as -> by done.
  rewrite bool_decide_eq_false_2 by done.
  change (looking_at "`" (between_quotes "`" name ++ rest)) with true. cbn iota.
  by rewrite (pbind_ok _ _ _ name rest) by (by apply backtick_text).
Qed.

(** *** Words *)

(** A word that does not start with a digit. *)
Definition is_name (w : string) : Prop :=
  is_word w /\ match chars w with c :: _ => is_ascii_digit c = false | [] => True end.

Lemma plain_name name : plain name = true -> is_name name.
Proof.
  intros Hp. split; [by apply plain_word|]. unfold plain in Hp. apply andb_true_iff in Hp as [Hp _].
  destruct (chars name); [done|]. apply andb_true_iff in Hp as [Hp _]. by apply negb_true_iff.
Qed.

(** What [parse_word] does after the word. *)
Definition word_rest (m : nat) (w : string) : P Expr :=
  let n := S m in
  let expr := parse_expr m in
  if eq_ignore_ascii_case w "true" then parse_postfix n expr (Literal (VBool true))
  else if eq_ignore_ascii_case w "false" then parse_postfix n expr (Literal (VBool false))
  else if eq_ignore_ascii_case w "null" then parse_postfix n expr (Literal VNull)
  else if eq_ignore_ascii_case w "CASE" then e <~ parse_case n expr; parse_postfix n expr e
  else
    ws;; is_call <~ accept "(";
    if is_call : bool then args <~ parse_args n expr; e <~ parse_over n expr (Call w args); parse_postfix n expr e
    else parse_postfix n expr (Identifier w).

Lemma primary_word w m t : is_name w -> brk t = true -> lvl 10 m (cps w ++ t) = word_rest m w t.
Proof.
  intros [Hw Hd] Hb. change (lvl 10 m) with (parse_primary (S m) (parse_expr m)). unfold parse_primary. cbn zeta.
  rewrite skip_word by done. pose proof (fun d => looking_at_word d w t Hw) as Hn.
  destruct (word_head w Hw) as (c & r & Heq & Hc).
  rewrite bool_decide_eq_false_2 by (by subst w). unfold at_quote. rewrite !Hn by done.
  assert (is_number_start (cps w ++ t) = false) as ->.
  { subst w. change (cps (String c r) ++ t) with (code c :: cps r ++ t). cbn [is_number_start].
    rewrite (word_char_not c ".") by done. rewrite orb_false_r. exact Hd. }
  cbn [orb]. unfold parse_word. by rewrite (pbind_ok _ _ _ w t) by (by apply word_text).
Qed.

Lemma reads_constant w v : (w, v) ∈ [("TRUE", VBool true); ("FALSE", VBool false); ("NULL", VNull)] ->
  reads_post (cps w) (Literal v) /\ primary_head (cps w).
Proof.
  intros Hw. assert (Hn : is_name w /\ eq_ignore_ascii_case w "NOT" = false /\
    forall m rest, word_rest m w rest = postfix_loop (parse_expr m) (S m) (Literal v) rest).
  { rewrite !elem_of_cons, elem_of_nil in Hw. destruct Hw as [[= -> ->]|[[= -> ->]|[[= -> ->]|[]]]].
    all: by split; [split; [by split; [|repeat constructor]|]|]. }
  destruct Hn as (Hn & Hnot & Hrest). split; [|apply primary_head_word; [apply Hn|done]].
  intros m rest Hl Hb Hc. by rewrite primary_word, Hrest.
Qed.

(** The words [parse_word] treats as names. *)
Lemma word_rest_name m name t : plain name = true -> word_rest m name t =
  (is_call <~ accept "(";
   if is_call : bool
   then args <~ parse_args (S m) (parse_expr m); e <~ parse_over (S m) (parse_expr m) (Call name args); parse_postfix (S m) (parse_expr m) e
   else parse_postfix (S m) (parse_expr m) (Identifier name)) (skip_whitespace t).
Proof.
  intros Hp. pose proof (plain_not_special name) as Hs. unfold special_words in Hs. unfold word_rest. cbn zeta.
  assert (Hcase : eq_ignore_ascii_case name "CASE" = eq_ignore_ascii_case name "case") by done.
  rewrite Hcase, !Hs by (first [done|rewrite !elem_of_cons; tauto]). done.
Qed.

Lemma plain_not name : plain name = true -> eq_ignore_ascii_case name "NOT" = false.
Proof.
  intros Hp. change (eq_ignore_ascii_case name "NOT") with (eq_ignore_ascii_case name "not").
  apply plain_not_special; [done|]. unfold special_words. rewrite !elem_of_cons. tauto.
Qed.

Lemma reads_name name : plain name = true -> reads_post (cps name) (Identifier name).
Proof.
  intros Hp m rest Hl Hb Hc. rewrite primary_word, word_rest_name by (first [done|by apply plain_name]).
  unfold calls in Hc. apply orb_false_iff in Hc as [Hc _].
  rewrite (pbind_ok _ _ _ false (skip_whitespace rest)) by (unfold accept; by rewrite Hc).
  apply postfix_skip.
Qed.

(** *** Calls *)

(** An argument with its text: a wildcard or an expression. *)
Definition arg_ok (te : input * Expr) : Prop :=
  te = (cps "*", Wildcard) \/ (reads 0 te.1 te.2 /\ good_head te.1).

Lemma call_args_space expr k acc s : call_args expr k acc (32 :: s) = call_args expr k acc s.
Proof. destruct k; [done|]. cbn [call_args]. by rewrite skip_space. Qed.

(** What [call_args] does after an argument. *)
Definition next_arg (expr : P Expr) (k : nat) (acc : list Expr) : P (list Expr) :=
  ws;; more <~ accept ","; if more : bool then call_args expr k acc else pret acc.

Lemma call_arg te m k acc c t : arg_ok te -> c ∈ [")"; ","]%char -> (length (te.1 ++ code c :: t) < m)%nat ->
  call_args (parse_expr m) (S k) acc (te.1 ++ code c :: t) = next_arg (parse_expr m) k (acc ++ [te.2]) (code c :: t).
Proof.
  intros Hte Hc Hl. cbn [call_args]. destruct Hte as [->|[Hr Hg]].
  { rewrite !elem_of_cons, elem_of_nil in Hc. by destruct Hc as [->|[->|[]]]. }
  assert (Hc' : c ∈ [")"; "]"; ","; ":"]%char) by (rewrite !elem_of_cons in *; tauto).
  rewrite (opens_skip (te.1 ++ code c :: t)) by (by apply good_head_app).
  assert (lone_star (te.1 ++ code c :: t) = false) as ->.
  { unfold lone_star. rewrite opens_not; [done|by apply good_head_app|]. rewrite !elem_of_cons. tauto. }
  by rewrite (pbind_ok _ _ _ te.2 (code c :: t)) by (by apply expr_before).
Qed.

Lemma call_args_text te l m k acc rest : Forall arg_ok (te :: l) ->
  (length (texts (te :: l) ++ code ")" :: rest) < k)%nat -> (length (texts (te :: l) ++ code ")" :: rest) < m)%nat ->
  call_args (parse_expr m) k acc (texts (te :: l) ++ code ")" :: rest) = POk (acc ++ (te :: l).*2) (code ")" :: rest).
Proof.
  revert te k acc. induction l as [|te' l IH]; intros te k acc Hall Hk Hm; apply list.Forall_cons in Hall as [Hte Hall].
  - change (texts [te]) with te.1 in *. destruct k as [|k]; [lens|].
    by rewrite call_arg by (first [done|apply list_elem_of_here]).
  - destruct te as [txt e]. rewrite texts_cons in * by done. rewrite <- !app_assoc in *.
    change (cps ", " ++ texts (te' :: l) ++ code ")" :: rest)
      with (code "," :: 32 :: texts (te' :: l) ++ code ")" :: rest) in *.
    destruct k as [|k]; [lens|]. rewrite (call_arg (txt, e)) by (first [done|rewrite !elem_of_cons; tauto]).
    unfold next_arg. rewrite ws_then.
    rewrite (pbind_ok _ _ _ true (32 :: texts (te' :: l) ++ code ")" :: rest)) by done.
    rewrite call_args_space, IH by (first [done|lens]). by rewrite <- app_assoc.
Qed.

Lemma parse_args_text l m rest : Forall arg_ok l -> (length (texts l ++ code ")" :: rest) < m)%nat ->
  parse_args (S m) (parse_expr m) (texts l ++ code ")" :: rest) = POk l.*2 rest.
Proof.
  intros Hall Hl. unfold parse_args. cbn zeta. destruct l as [|te l]; [done|].
  assert (Hskip : skip_whitespace (texts (te :: l) ++ code ")" :: rest) = texts (te :: l) ++ code ")" :: rest /\
    looking_at ")" (texts (te :: l) ++ code ")" :: rest) = false).
  { assert (Hh : exists t, texts (te :: l) ++ code ")" :: rest = te.1 ++ t).
    { destruct l as [|te' l]; [by eexists|]. destruct te. rewrite texts_cons, <- !app_assoc by done. by eexists. }
    destruct Hh as [t ->]. apply list.Forall_cons in Hall as [[->|[_ Hg]] _]; [done|]. split.
    - apply opens_skip. by apply good_head_app.
    - apply opens_not; [by apply good_head_app|apply list_elem_of_here]. }
  destruct Hskip as [-> ->]. by rewrite (pbind_ok _ _ _ (te :: l).*2 (code ")" :: rest)) by (apply call_args_text; [done|lia|done]).
Qed.

Lemma call_text name l m t : plain name = true -> Forall arg_ok l ->
  (length (cps name ++ paren (texts l) ++ t) < S m)%nat ->
  lvl 10 m (cps name ++ paren (texts l) ++ t) =
  (e <~ parse_over (S m) (parse_expr m) (Call name l.*2); parse_postfix (S m) (parse_expr m) e) t.
Proof.
  intros Hp Hall Hl. rewrite primary_word, word_rest_name by (first [done|by apply plain_name]).
  change (paren (texts l) ++ t) with (code "(" :: (texts l ++ [code ")"]) ++ t) in *. rewrite <- app_assoc in *.
  cbn [app] in *. rewrite skip_id by done. rewrite (pbind_ok _ _ _ true (texts l ++ code ")" :: t)) by done.
  by rewrite (pbind_ok _ _ _ l.*2 t) by (apply parse_args_text; [done|lens]).
Qed.

Lemma match_keyword_no kw s : peek_word_is kw (skip_whitespace s) = false -> match_keyword kw s = POk false (skip_whitespace s).
Proof.
  unfold peek_word_is, match_keyword. destruct (peek_word (skip_whitespace s)) as [w|]; [|done]. by intros ->.
Qed.

Lemma reads_call name l : plain name = true -> Forall arg_ok l -> reads_post (cps name ++ paren (texts l)) (Call name l.*2).
Proof.
  intros Hp Hall m rest Hl Hb Hc. rewrite <- app_assoc in *. rewrite call_text by done.
  unfold calls in Hc. apply orb_false_iff in Hc as [_ Hc]. unfold parse_over.
  rewrite (pbind_ok _ _ _ (Call name l.*2) (skip_whitespace rest)); [apply postfix_skip|].
  by rewrite (pbind_ok _ _ _ false (skip_whitespace rest)) by (by apply match_keyword_no).
Qed.

(** *** OVER *)

(** Reading an expression before white space and a text where expressions end. *)
Lemma expr_then txt e t m : reads 0 txt e -> (length (txt ++ t) < m)%nat -> brk t = true ->
  stops 0 (skip_whitespace t) = true -> parse_expr m (32 :: txt ++ t) = POk e (skip_whitespace t).
Proof.
  intros Hr Hl Hb Hs. destruct m as [|m]; [lia|]. change (parse_expr (S m)) with (lvl 0 m).
  rewrite lvl_space. by apply Hr.
Qed.

Definition when_text (w : option Expr) (txt : input) : input := from_option (fun _ => cps "WHEN " ++ txt) [] w.
Definition partition_text (p : option Expr) (txt : input) : input :=
  from_option (fun _ => cps "PARTITION BY " ++ txt ++ cps " ") [] p.

Lemma over_when m k pb w w_txt t : reads_opt w_txt w -> (length (when_text w w_txt ++ code ")" :: t) < m)%nat ->
  over_clauses (parse_expr m) (S (S k)) pb None (when_text w w_txt ++ code ")" :: t) = POk (pb, w) (code ")" :: t).
Proof.
  intros Hw Hl. destruct w as [e|]; [|done]. destruct Hw as [Hr _].
  change (when_text (Some e) w_txt ++ code ")" :: t) with (cps "WHEN" ++ 32 :: w_txt ++ code ")" :: t) in *.
  cbn [over_clauses]. set (r := 32 :: w_txt ++ code ")" :: t) in *.
  change (peek_word_is "PARTITION" (cps "WHEN" ++ r)) with false. change (peek_word_is "WHEN" (cps "WHEN" ++ r)) with true.
  cbn iota. rewrite (pbind_ok _ _ _ true r) by done. subst r.
  rewrite (pbind_ok _ _ _ e (code ")" :: t)); [done|]. apply expr_then; [done|lens|done|done].
Qed.

Lemma over_clauses_skip expr k pb w s : over_clauses expr k pb w (skip_whitespace s) = over_clauses expr k pb w s.
Proof.
  destruct k; [done|]. cbn [over_clauses]. unfold peek_word_is. rewrite peek_word_skip, skip_idemp.
  assert (Hm : forall kw (q : P (option Expr * option Expr)), (match_keyword kw;; q) (skip_whitespace s) = (match_keyword kw;; q) s).
  { intros kw q. unfold pbind, match_keyword. by rewrite skip_idemp. }
  by rewrite !Hm.
Qed.

Lemma over_partition m k p p_txt w w_txt t : reads_opt p_txt p -> reads_opt w_txt w ->
  (length (partition_text p p_txt ++ when_text w w_txt ++ code ")" :: t) < m)%nat ->
  over_clauses (parse_expr m) (S (S (S k))) None None (partition_text p p_txt ++ when_text w w_txt ++ code ")" :: t)
    = POk (p, w) (code ")" :: t).
Proof.
  intros Hp Hw Hl. destruct p as [e|]; [|by apply over_when]. destruct Hp as [Hr _]. unfold partition_text in *.
  cbn [from_option] in *. rewrite <- !app_assoc in *. set (tail := when_text w w_txt ++ code ")" :: t) in *.
  change (cps "PARTITION BY " ++ p_txt ++ cps " " ++ tail) with (cps "PARTITION" ++ cps " BY" ++ 32 :: p_txt ++ 32 :: tail) in *.
  set (next := S (S k)). cbn [over_clauses]. set (r := 32 :: p_txt ++ 32 :: tail) in *.
  change (peek_word_is "PARTITION" (cps "PARTITION" ++ cps " BY" ++ r)) with true. cbn iota.
  rewrite (pbind_ok _ _ _ true (cps " BY" ++ r)) by done. rewrite (pbind_ok _ _ _ tt r) by done. subst r.
  assert (Hs : stops 0 (skip_whitespace (32 :: tail)) = true).
  { subst tail. destruct w; by vm_compute. }
  rewrite (pbind_ok _ _ _ e (skip_whitespace (32 :: tail))); [|apply expr_then; [done|lens|done|done]].
  rewrite skip_space. unfold next. rewrite over_clauses_skip. apply over_when; [done|]. fold tail. lens.
Qed.

Lemma reads_over name l p p_txt w w_txt : plain name = true -> Forall arg_ok l -> reads_opt p_txt p -> reads_opt w_txt w ->
  reads_post ((cps name ++ paren (texts l)) ++ cps " OVER (" ++ partition_text p p_txt ++ when_text w w_txt ++ cps ")")
    (Over (Call name l.*2) p w).
Proof.
  intros Hn Hall Hp Hw m rest Hl Hb Hc. rewrite <- !app_assoc in *. rewrite call_text by done. unfold parse_over.
  change (cps ")" ++ rest) with (code ")" :: rest) in *.
  set (t := partition_text p p_txt ++ when_text w w_txt ++ code ")" :: rest) in *.
  rewrite (pbind_ok _ _ _ (Over (Call name l.*2) p w) rest); [done|].
  rewrite (pbind_ok _ _ _ true (cps " (" ++ t)) by done. rewrite (pbind_ok _ _ _ tt t) by done. subst t.
  pose proof (eq_refl : length (cps " OVER (") = 7%nat) as Hover. destruct m as [|[|m]]; [lens|lens|].
  rewrite (pbind_ok _ _ _ (p, w) (code ")" :: rest)); [done|]. apply over_partition; [done|done|lens].
Qed.

(** *** CASE *)

Definition clause_text (c : input * input) : input := cps "WHEN " ++ c.1 ++ cps " THEN " ++ c.2 ++ cps " ".
Definition else_text (o : option Expr) (txt : input) : input := from_option (fun _ => cps "ELSE " ++ txt ++ cps " ") [] o.

(** A clause with the texts of its two expressions. *)
Definition clause_ok (c : (input * input) * (Expr * Expr)) : Prop := reads 0 c.1.1 c.2.1 /\ reads 0 c.1.2 c.2.2.

(** The keywords of [CASE] end an expression. *)
Lemma case_words kw t : kw ∈ ["THEN"; "WHEN"; "ELSE"] ->
  stops 0 (cps kw ++ 32 :: t) = true /\ skip_whitespace (cps kw ++ 32 :: t) = cps kw ++ 32 :: t /\
  (forall kw', kw' ∈ ["THEN"; "WHEN"; "ELSE"] ->
     match_keyword kw' (cps kw ++ 32 :: t) = if bool_decide (kw' = kw) then POk true (32 :: t) else POk false (cps kw ++ 32 :: t)).
Proof.
  rewrite !elem_of_cons, elem_of_nil.
  intros [->|[->|[->|[]]]]; (split_and!; [done|done|]); intros kw'; rewrite !elem_of_cons, elem_of_nil.
  all: by intros [->|[->|[->|[]]]].
Qed.

Lemma end_word t : brk t = true ->
  stops 0 (cps "END" ++ t) = true /\ skip_whitespace (cps "END" ++ t) = cps "END" ++ t /\
  (forall kw, kw ∈ ["THEN"; "WHEN"; "ELSE"] -> match_keyword kw (cps "END" ++ t) = POk false (cps "END" ++ t)) /\
  expect_keyword "END" (cps "END" ++ t) = POk tt t.
Proof.
  intros Hb. assert (Hw : is_word "END") by (by split; [|repeat constructor]).
  assert (Hp : forall kw, peek_word_is kw (cps "END" ++ t) = eq_ignore_ascii_case "END" kw).
  { intros kw. unfold peek_word_is. by rewrite peek_word_text, is_keyword_text. }
  split_and!.
  - assert (Hor : continues 0 (cps "END" ++ t) = false).
    { unfold continues, prb, has_op, or_probe. by rewrite match_keyword_no by (by rewrite skip_word, Hp). }
    assert (Hand : continues 1 (cps "END" ++ t) = false) by (unfold continues, prb, has_op, and_probe; by rewrite Hp).
    assert (Hrange : continues 2 (cps "END" ++ t) = false) by (unfold continues, not_then, existsb; by rewrite !Hp).
    assert (Hcmp : continues 3 (cps "END" ++ t) = false) by (unfold continues, not_then, existsb; by rewrite !Hp).
    unfold stops, calls. rewrite Hp. cbn [seq forallb]. by rewrite Hor, Hand, Hrange, Hcmp.
  - by apply skip_word.
  - intros kw Hk. rewrite match_keyword_no, skip_word; [done|done|]. rewrite skip_word, Hp by done.
    rewrite !elem_of_cons, elem_of_nil in Hk. by destruct Hk as [->|[->|[->|[]]]].
  - unfold expect_keyword, match_keyword, pbind. rewrite skip_word by done.
    rewrite peek_word_text, is_keyword_text by done. done.
Qed.

(** What follows the clauses of a [CASE]. *)
Definition case_tail (o : option Expr) (o_txt rest : input) : input := else_text o o_txt ++ cps "END" ++ rest.

Lemma case_tail_ok o o_txt rest : brk rest = true ->
  let t := case_tail o o_txt rest in
  stops 0 t = true /\ skip_whitespace t = t /\ match_keyword "WHEN" t = POk false t.
Proof.
  intros Hb. unfold case_tail. destruct o as [e|]; cbn [else_text from_option].
  - change ((cps "ELSE " ++ o_txt ++ cps " ") ++ cps "END" ++ rest) with (cps "ELSE" ++ 32 :: (o_txt ++ cps " ") ++ cps "END" ++ rest).
    destruct (case_words "ELSE" ((o_txt ++ cps " ") ++ cps "END" ++ rest)) as (H1 & H2 & H3); [rewrite !elem_of_cons; tauto|].
    split_and!; [done|done|]. apply H3. rewrite !elem_of_cons. tauto.
  - destruct (end_word rest Hb) as (H1 & H2 & H3 & _). split_and!; [done|done|]. apply H3. rewrite !elem_of_cons. tauto.
Qed.

(** One clause, before a text where expressions end. *)
Lemma when_clause c m k acc t : clause_ok c -> stops 0 t = true -> skip_whitespace t = t ->
  (length (clause_text c.1 ++ t) < m)%nat ->
  when_clauses (parse_expr m) (S k) acc (clause_text c.1 ++ t) = when_clauses (parse_expr m) k (acc ++ [c.2]) t.
Proof.
  intros [Hcond Hres] Hs Hk Hl. destruct c as [[a_txt b_txt] [a b]]. unfold clause_text in *. simpl in Hcond, Hres.
  cbn [fst snd] in *. rewrite <- !app_assoc in *. change (cps " " ++ t) with (32 :: t) in *.
  change (cps "WHEN " ++ a_txt ++ cps " THEN " ++ b_txt ++ 32 :: t)
    with (cps "WHEN" ++ 32 :: a_txt ++ 32 :: cps "THEN" ++ 32 :: b_txt ++ 32 :: t) in *.
  destruct (case_words "THEN" (b_txt ++ 32 :: t)) as (Ht1 & Ht2 & Ht3); [rewrite !elem_of_cons; tauto|].
  cbn [when_clauses]. rewrite (pbind_ok _ _ _ true (32 :: a_txt ++ 32 :: cps "THEN" ++ 32 :: b_txt ++ 32 :: t)) by done.
  rewrite (pbind_ok _ _ _ a (cps "THEN" ++ 32 :: b_txt ++ 32 :: t)).
  2: { rewrite (expr_then a_txt a); [by rewrite skip_space, Ht2|done|lens|done|by rewrite skip_space, Ht2]. }
  rewrite (pbind_ok _ _ _ tt (32 :: b_txt ++ 32 :: t)).
  2: { unfold expect_keyword. by rewrite (pbind_ok _ _ _ true (32 :: b_txt ++ 32 :: t)). }
  rewrite (pbind_ok _ _ _ b t); [done|].
  rewrite (expr_then b_txt b); [by rewrite skip_space, Hk|done|lens|done|by rewrite skip_space, Hk].
Qed.

Lemma when_clauses_text l m k acc t : Forall clause_ok l ->
  stops 0 t = true -> skip_whitespace t = t -> match_keyword "WHEN" t = POk false t ->
  (length (concat (map clause_text l.*1) ++ t) < m)%nat -> (length l < k)%nat ->
  when_clauses (parse_expr m) k acc (concat (map clause_text l.*1) ++ t) = POk (acc ++ l.*2) t.
Proof.
  intros Hall Hs Hk Hw. revert k acc. induction Hall as [|c l Hc Hall IH]; intros k acc Hl Hlen;
    (destruct k as [|k]; [simpl in Hlen; lia|]).
  - cbn [fmap list_fmap map concat app when_clauses]. rewrite (pbind_ok _ _ _ false t) by done. by rewrite app_nil_r.
  - cbn [fmap list_fmap map concat] in *. rewrite <- !app_assoc in *.
    rewrite when_clause; [|done| | |done].
    + rewrite IH; [by rewrite <- app_assoc|lens|simpl in Hlen; lia].
    + destruct l as [|c' l]; [done|]. by apply (case_words "WHEN"); rewrite !elem_of_cons; tauto.
    + destruct l as [|c' l]; [done|]. by apply (case_words "WHEN"); rewrite !elem_of_cons; tauto.
Qed.

Lemma when_clauses_space expr k acc s : when_clauses expr (S k) acc (32 :: s) = when_clauses expr (S k) acc s.
Proof. cbn [when_clauses]. unfold pbind, match_keyword. by rewrite skip_space. Qed.

Definition operand_text (o : option Expr) (txt : input) : input := from_option (fun _ => paren txt ++ cps " ") [] o.

(** The operand of a [CASE], in parentheses. *)
Definition operand_ok (o : option Expr) (txt : input) : Prop :=
  match o with Some e => reads 0 (paren txt) e | None => True end.

Lemma case_operand m o o_txt t : operand_ok o o_txt -> peek_word_is "WHEN" (32 :: t) = true -> stops 0 t = true ->
  skip_whitespace t = t -> (length (operand_text o o_txt ++ t) < m)%nat ->
  exists t', (t' = t \/ t' = 32 :: t) /\
    (if peek_word_is "WHEN" (32 :: operand_text o o_txt ++ t) then POk None (32 :: operand_text o o_txt ++ t)
     else (e <~ parse_expr m; pret (Some e)) (32 :: operand_text o o_txt ++ t)) = POk o t'.
Proof.
  intros Ho Hw Hs Hk Hl. destruct o as [e|]; cbn [operand_text from_option] in *.
  - exists t. split; [by left|]. rewrite <- app_assoc in *. change (cps " " ++ t) with (32 :: t) in *.
    change (peek_word_is "WHEN" (32 :: paren o_txt ++ 32 :: t)) with false. cbn iota.
    rewrite (pbind_ok _ _ _ e t); [done|].
    rewrite (expr_then (paren o_txt) e); [by rewrite skip_space, Hk|done|done|done|by rewrite skip_space, Hk].
  - exists (32 :: t). split; [by right|]. cbn [app]. by rewrite Hw.
Qed.

Lemma else_part m o o_txt rest : reads_opt o_txt o -> brk rest = true -> (length (case_tail o o_txt rest) < m)%nat ->
  (found <~ match_keyword "ELSE";
   other <~ (if found : bool then e <~ parse_expr m; pret (Some e) else pret None);
   expect_keyword "END";; pret other) (case_tail o o_txt rest) = POk o rest.
Proof.
  intros Ho Hb Hl. destruct (end_word rest Hb) as (He1 & He2 & He3 & He4). unfold case_tail in *.
  destruct o as [e|]; cbn [else_text from_option] in *.
  - destruct Ho as [Hr _]. rewrite <- !app_assoc in *. change (cps " " ++ cps "END" ++ rest) with (32 :: cps "END" ++ rest) in *.
    change (cps "ELSE " ++ o_txt ++ 32 :: cps "END" ++ rest) with (cps "ELSE" ++ 32 :: o_txt ++ 32 :: cps "END" ++ rest) in *.
    rewrite (pbind_ok _ _ _ true (32 :: o_txt ++ 32 :: cps "END" ++ rest)) by done.
    rewrite (pbind_ok _ _ _ (Some e) (cps "END" ++ rest)); [by rewrite (pbind_ok _ _ _ tt rest)|].
    rewrite (pbind_ok _ _ _ e (cps "END" ++ rest)); [done|].
    rewrite (expr_then o_txt e); [by rewrite skip_space, He2|done|lens|done|by rewrite skip_space, He2].
  - rewrite (pbind_ok _ _ _ false (cps "END" ++ rest)); [|apply He3; rewrite !elem_of_cons; tauto].
    rewrite (pbind_ok _ _ _ None (cps "END" ++ rest)) by done. by rewrite (pbind_ok _ _ _ tt rest).
Qed.

Lemma length_clauses (l : list (input * input)) : (length l <= length (concat (map clause_text l)))%nat.
Proof.
  induction l as [|c l IH]; [done|]. cbn [map concat length]. rewrite length_app. unfold clause_text at 1. rewrite length_app.
  pose proof (eq_refl : length (cps "WHEN ") = 5%nat). lia.
Qed.

Lemma clauses_head c l t : let s := concat (map clause_text (c :: l)) ++ t in
  stops 0 s = true /\ skip_whitespace s = s /\ peek_word_is "WHEN" (32 :: s) = true.
Proof.
  cbn zeta. split_and!; [| |done].
  all: by apply (case_words "WHEN"); rewrite !elem_of_cons; tauto.
Qed.

Lemma reads_case o o_txt l other e_txt : operand_ok o o_txt -> l <> [] -> Forall clause_ok l -> reads_opt e_txt other ->
  reads_post (cps "CASE " ++ operand_text o o_txt ++ concat (map clause_text l.*1) ++ else_text other e_txt ++ cps "END")
    (Case o l.*2 other).
Proof.
  intros Ho Hne Hall He m rest Hl Hb Hc. rewrite <- !app_assoc in *.
  change (else_text other e_txt ++ cps "END" ++ rest) with (case_tail other e_txt rest) in *.
  set (t := concat (map clause_text l.*1) ++ case_tail other e_txt rest) in *.
  change (cps "CASE " ++ operand_text o o_txt ++ t) with (cps "CASE" ++ 32 :: operand_text o o_txt ++ t) in *.
  rewrite primary_word; [|by split; [by split; [|repeat constructor]|]|done].
  change (word_rest m "CASE" (32 :: operand_text o o_txt ++ t))
    with ((e <~ parse_case (S m) (parse_expr m); parse_postfix (S m) (parse_expr m) e) (32 :: operand_text o o_txt ++ t)).
  rewrite (pbind_ok _ _ _ (Case o l.*2 other) rest); [done|]. unfold parse_case.
  destruct l as [|c l]; [done|]. destruct (clauses_head c.1 l.*1 (case_tail other e_txt rest)) as (Ht1 & Ht2 & Ht3).
  change (concat (map clause_text (c.1 :: l.*1)) ++ case_tail other e_txt rest) with t in *.
  destruct (case_operand m o o_txt t) as (t' & Ht' & Hop); [done|done|done|done|lens|].
  rewrite (pbind_ok _ _ _ o t') by exact Hop. clear Hop.
  destruct (case_tail_ok other e_txt rest Hb) as (Hs1 & Hs2 & Hs3).
  pose proof (length_clauses (c :: l).*1) as Hlen. rewrite length_fmap in Hlen.
  rewrite (pbind_ok _ _ _ (c :: l).*2 (case_tail other e_txt rest)).
  2: { transitivity (when_clauses (parse_expr m) (S m) [] t); [destruct Ht' as [->| ->]; [done|apply when_clauses_space]|].
       subst t. apply when_clauses_text; [done|done|done|done|lens|]. rewrite !length_app in Hl. cbn [length] in *.
       rewrite !length_app in Hl. lia. }
  rewrite bool_decide_eq_false_2 by done.
  assert (Helse := else_part m other e_txt rest He Hb ltac:(subst t; lens)).
  apply pbind_inv in Helse as (found & r1 & Hf & Helse). rewrite (pbind_ok _ _ _ _ _ Hf).
  apply pbind_inv in Helse as (other' & r2 & Ho2 & Helse). rewrite (pbind_ok _ _ _ _ _ Ho2).
  apply pbind_inv in Helse as (u & r3 & Hu & Helse). rewrite (pbind_ok _ _ _ _ _ Hu).
  unfold pret in *. by simplify_eq.
Qed.

(** *** Numbers *)

Lemma digit_code_facts c : is_ascii_digit c = true -> is_digit (code c) = true /\ ascii_word_char c = true.
Proof.
  intros Hd. split; [exact Hd|]. unfold ascii_word_char, is_ascii_alphanumeric. by rewrite Hd.
Qed.

Lemma digits_word n : 0 <= n -> is_word (digits n).
Proof.
  intros Hn. destruct (digits_spec n Hn) as (l & Hl & Hne & _ & Hall). split.
  - intros Heq. rewrite Heq in Hl. by subst l.
  - rewrite Hl. eapply list.Forall_impl; [exact Hall|]. intros c Hc. by apply digit_code_facts.
Qed.

Lemma number_value_digits n : 0 <= n <= u64_max -> number_value (digits n) false = Some (VNumber (PosInt n)).
Proof.
  intros Hn. destruct (digits_spec n) as (l & Hl & Hne & Hv & Hall); [lia|].
  unfold number_value, parse_i64, parse_u64. rewrite Hl.
  assert (Hsign : forall d, is_ascii_digit d = false -> strip_sign d l = None).
  { intros d Hd. destruct l as [|c l]; [done|]. simpl. apply list.Forall_cons in Hall as [Hc _].
    destruct (Ascii.eqb_spec c d) as [->|]; [by rewrite Hc in Hd|done]. }
  rewrite !Hsign by done. cbn [default].
  assert (parse_digits l = Some n) as -> by (by destruct l). cbn [mbind option_bind].
  destruct (decide (in_i64 n)).
  - unfold value_of_i64. by rewrite (proj2 (Z.ltb_ge n 0)) by lia.
  - by rewrite (proj2 (Z.leb_le n u64_max)) by lia.
Qed.

Lemma number_text n rest : 0 <= n <= u64_max -> brk rest = true -> looking_at "." rest = false ->
  parse_number (cps (digits n) ++ rest) = POk (Literal (VNumber (PosInt n))) rest.
Proof.
  intros Hn Hb Hdot. pose proof (digits_word n ltac:(lia)) as Hw. unfold parse_number. rewrite skip_word by done.
  destruct (digits_spec n) as (l & Hl & Hne & _ & Hall); [lia|].
  assert (Hdig : Forall (fun c => is_digit c = true) (cps (digits n))).
  { unfold cps. rewrite Hl. apply List.Forall_map. eapply list.Forall_impl; [exact Hall|]. intros c Hc. exact Hc. }
  apply brk_stop in Hb.
  assert (Hstop : forall p, (forall c, p c = true -> word_char c = true) ->
    match rest with c :: _ => p c = false | [] => True end).
  { intros p Hp. destruct rest as [|c r]; [done|]. destruct (p c) eqn:Hc; [|done]. apply Hp in Hc. by rewrite Hc in Hb. }
  rewrite span_stop; [|done|].
  2: { apply Hstop. intros c Hc. unfold word_char, is_alphanumeric, is_ascii_alnum, is_digit in *.
       rewrite (proj2 (Z.ltb_lt c 128)) by (rewrite andb_true_iff, !Z.leb_le in Hc; lia). by rewrite Hc. }
  assert (Hfrac : fraction (bool_decide (cps (digits n) <> [])) rest = ([], rest)).
  { destruct rest as [|c r]; [done|]. cbn [fraction]. simpl in Hdot. by rewrite Hdot. }
  assert (Hexp : exponent rest = ([], rest)).
  { pose proof (Hstop (fun c => (c =? code "e") || (c =? code "E"))) as He. destruct rest as [|c r]; [done|].
    cbn [exponent]. rewrite He; [done|]. intros d Hd. rewrite orb_true_iff, !Z.eqb_eq in Hd. by destruct Hd as [->| ->]. }
  rewrite Hfrac, Hexp. cbn [app]. rewrite app_nil_r.
  assert (Hc : exists c r, cps (digits n) = code c :: r /\ is_ascii_digit c = true).
  { unfold cps. rewrite Hl. destruct l as [|c l]; [done|]. apply list.Forall_cons in Hall as [Hc _]. by exists c, (map code l). }
  destruct Hc as (c & r & Heq & Hc).
  rewrite bool_decide_eq_false_2.
  2: { rewrite Heq. intros [Hx|Hx]; [done|]. injection Hx as Hx _. apply code_inj in Hx as ->. done. }
  rewrite (bool_decide_eq_false_2 ([] <> [] \/ [] <> [])) by (by intros [?|?]).
  by rewrite to_str_cps, number_value_digits by (first [done|by apply is_word_ascii]).
Qed.

(** ** Prefix operators *)

(** [reads 9] with the fuel of the prefix operators on its own. *)
Definition reads_unary (txt : input) (e : Expr) : Prop := forall m k rest,
  (length (txt ++ rest) < S m)%nat -> (length (txt ++ rest) < k)%nat -> brk rest = true ->
  stops 9 (skip_whitespace rest) = true ->
  parse_unary (S m) (parse_expr m) k (txt ++ rest) = POk e (skip_whitespace rest).

Lemma reads_of_unary txt e : reads_unary txt e -> reads 9 txt e.
Proof. intros Hr m rest Hl Hb Hs. by apply Hr. Qed.

Lemma stops_10 s : stops 9 s = true -> stops 10 s = true.
Proof. apply stops_up. lia. Qed.

Lemma primary_unary m k txt rest : (0 < k)%nat -> primary_head txt -> brk rest = true ->
  parse_unary (S m) (parse_expr m) k (txt ++ rest) = lvl 10 m (txt ++ rest).
Proof.
  intros Hk [Hg Hp] Hb. destruct k as [|k]; [lia|]. cbn [parse_unary]. specialize (Hp rest Hb). unfold prefix_op in Hp.
  rewrite !orb_false_iff in Hp. destruct Hp as [[Hp1 Hp2] Hp3].
  rewrite (opens_skip (txt ++ rest)) by (by apply good_head_app). by rewrite Hp1, Hp2, Hp3.
Qed.

Lemma unary_of_post txt e : primary_head txt -> reads_post txt e -> reads_unary txt e.
Proof.
  intros Hh Hr m k rest Hl Hk Hb Hs. rewrite primary_unary by (first [done|lia]).
  apply (reads_of_post txt e Hr); [done|done|]. by apply stops_10.
Qed.

Lemma unary_number n : 0 <= n <= u64_max -> reads_unary (cps (digits n)) (Literal (VNumber (PosInt n))).
Proof.
  intros Hn m k rest Hl Hk Hb Hs. pose proof (digits_word n ltac:(lia)) as Hw.
  destruct (digits_spec n) as (l & Heq & Hne & _ & Hall); [lia|].
  assert (Hc : exists c r, digits n = String c r /\ is_ascii_digit c = true).
  { destruct (word_head _ Hw) as (c & r & Hd & _). exists c, r. split; [done|]. rewrite Hd in Heq. simpl in Heq. subst l.
    by apply list.Forall_cons in Hall as [Hc _]. }
  destruct Hc as (c & r & Hcr & Hc).
  assert (Hnot : eq_ignore_ascii_case (digits n) "NOT" = false).
  { rewrite Hcr. unfold eq_ignore_ascii_case. apply bool_decide_eq_false. intros Heq'.
    assert (Hn' : lower_char c = "n"%char) by (injection Heq'; done).
    unfold lower_char, is_upper, is_ascii_digit in *. rewrite andb_true_iff, !Z.leb_le in Hc.
    rewrite (proj2 (Z.leb_gt 65 (code c))) in Hn' by lia. cbn [andb] in Hn'. subst c. vm_compute in Hc. by destruct Hc. }
  rewrite primary_unary; [|lia|by apply primary_head_word|done].
  change (lvl 10 m) with (parse_primary (S m) (parse_expr m)). unfold parse_primary. cbn zeta. rewrite skip_word by done.
  rewrite bool_decide_eq_false_2 by (by rewrite Hcr). unfold at_quote. rewrite !looking_at_word by done.
  assert (is_number_start (cps (digits n) ++ rest) = true) as ->.
  { rewrite Hcr. change (cps (String c r) ++ rest) with (code c :: cps r ++ rest). cbn [is_number_start].
    change (is_digit (code c)) with (is_ascii_digit c). by rewrite Hc. }
  cbn [orb]. apply stops_calls in Hs as [Hcalls Hpost].
  assert (Hdot : looking_at "." rest = false).
  { unfold postfixes in Hpost. destruct (looking_at "." rest) eqn:Hd; [|done]. destruct rest as [|x rest]; [done|].
    simpl in Hd. apply Z.eqb_eq in Hd as ->. by rewrite skip_id in Hpost. }
  rewrite (pbind_ok _ _ _ (Literal (VNumber (PosInt n))) rest) by (by apply number_text).
  unfold parse_postfix. cbn [postfix_loop].
  unfold postfixes in Hpost. rewrite !orb_false_iff in Hpost. by destruct Hpost as [[-> ->] ->].
Qed.

Lemma unary_not txt x : reads_unary txt x -> reads_unary (cps "NOT " ++ txt) (UnaryOp Not x).
Proof.
  intros Hx m k rest Hl Hk Hb Hs. rewrite <- app_assoc in *. set (t := txt ++ rest) in *.
  change (cps "NOT " ++ t) with (cps "NOT" ++ 32 :: t) in *. destruct k as [|k]; [lia|]. cbn [parse_unary].
  change (skip_whitespace (cps "NOT" ++ 32 :: t)) with (cps "NOT" ++ 32 :: t).
  change (peek_word_is "NOT" (cps "NOT" ++ 32 :: t)) with true. cbn iota.
  rewrite (pbind_ok _ _ _ true (32 :: t)) by done.
  assert (Hsp : parse_unary (S m) (parse_expr m) k (32 :: t) = parse_unary (S m) (parse_expr m) k t).
  { destruct k; [done|]. cbn [parse_unary]. by rewrite skip_space. }
  rewrite (pbind_ok _ _ _ x (skip_whitespace rest)); [done|]. rewrite Hsp. apply Hx; [fold t; lens|fold t; lens|done|done].
Qed.

Lemma unary_neg txt x : reads_unary txt x -> reads_unary (cps "-" ++ txt) (UnaryOp Neg x).
Proof.
  intros Hx m k rest Hl Hk Hb Hs. rewrite <- app_assoc in *. set (t := txt ++ rest) in *.
  change (cps "-" ++ t) with (code "-" :: t) in *. destruct k as [|k]; [lia|]. cbn [parse_unary].
  change (skip_whitespace (code "-" :: t)) with (code "-" :: t).
  change (peek_word_is "NOT" (code "-" :: t)) with false. change (looking_at "-" (code "-" :: t)) with true. cbn iota.
  change (drop 1 (code "-" :: t)) with t.
  rewrite (pbind_ok _ _ _ x (skip_whitespace rest)); [done|]. apply Hx; [fold t; lens|fold t; lens|done|done].
Qed.

(** ** From one level to the looser ones *)

(** What is known of a text of level [i]. *)
Definition strong (i : nat) (txt : input) (e : Expr) : Prop :=
  match i with
  | 2 => reads_ws 2 txt e
  | 3 => reads 3 txt e
  | 9 => reads_unary txt e
  | 10 => primary_head txt /\ reads_post txt e
  | _ => reads_left i txt e
  end%nat.

Lemma strong_reads i txt e : (i <= 9)%nat -> i <> 1%nat -> i <> 2%nat -> strong i txt e -> reads i txt e.
Proof.
  intros Hi H1 H2 Hs. destruct (decide (i = 3%nat)) as [->|H3]; [exact Hs|].
  destruct (decide (i = 9%nat)) as [->|H9]; [by apply reads_of_unary|].
  apply reads_of_left; [by do 10 (destruct i as [|i]; [done|]); lia|done|].
  do 9 (destruct i as [|i]; [done|]). lia.
Qed.

Lemma strong_reads_ws i txt e : (i <= 9)%nat -> strong i txt e -> reads_ws i txt e.
Proof.
  intros Hi Hs. destruct (decide (i = 1%nat)) as [->|H1]; [by apply reads_ws_of_left|].
  destruct (decide (i = 2%nat)) as [->|H2]; [exact Hs|]. apply reads_reads_ws. by apply strong_reads.
Qed.

Lemma strong_up i txt e : (i < 10)%nat -> strong (S i) txt e -> strong i txt e.
Proof.
  intros Hi Hs. destruct (decide (i = 9%nat)) as [->|H9]; [by apply unary_of_post; apply Hs|].
  destruct (decide (i = 3%nat)) as [->|H3]; [apply comparison_up; apply (strong_reads 4); [lia|done|done|exact Hs]|].
  destruct (decide (i = 2%nat)) as [->|H2]; [apply reads_reads_ws, range_up; exact Hs|].
  assert (Hb : is_binary i = true) by (do 10 (destruct i as [|i]; [done|]); lia).
  assert (Hl : reads_left i txt e) by (apply reads_left_up; [done|]; apply strong_reads_ws; [lia|done]).
  do 9 (destruct i as [|i]; [first [done|exact Hl]|]). lia.
Qed.

Lemma strong_down i j txt e : (i <= j)%nat -> (j <= 10)%nat -> strong j txt e -> strong i txt e.
Proof. intros Hij Hj. induction Hij as [|j Hij IH]; [done|]. intros Hs. apply IH; [lia|]. apply strong_up; [lia|done]. Qed.

Lemma strong_paren d txt e : (d <= 10)%nat -> strong 0 txt e -> strong d (paren txt) e.
Proof.
  intros Hd Hs. apply (strong_down d 10); [done|done|]. split; [by apply primary_head_char|].
  apply reads_paren. apply (strong_reads 0); [lia|done|done|done].
Qed.

(** An operand: in parentheses when it binds looser. *)
Lemma strong_pr d e : (d <= 10)%nat -> (level e <= 10)%nat -> strong (level e) (body e) e -> strong d (pr d e) e.
Proof.
  intros Hd Hl Hs. unfold pr. destruct (Nat.ltb_spec (level e) d).
  - apply strong_paren; [done|]. by apply (strong_down 0 (level e)); [lia|lia|].
  - by apply (strong_down d (level e)).
Qed.

Lemma level_le e : (level e <= 10)%nat.
Proof. destruct e as [| | |[] |l op r| | | | | | | | | |]; simpl; try lia. destruct op; simpl; lia. Qed.

(** ** Every printable expression is read back *)

Definition good (e : Expr) : Prop := good_head (body e) /\ strong (level e) (body e) e.

Lemma good_pr d e : (d <= 10)%nat -> good e -> strong d (pr d e) e /\ good_head (pr d e).
Proof.
  intros Hd [Hg Hs]. split; [apply strong_pr; [done|apply level_le|done]|]. unfold pr.
  destruct (level e <? d)%nat; [|done]. by exists (code "("), (body e ++ cps ")").
Qed.

Lemma good_expr e : good e -> reads 0 (pr 0 e) e /\ good_head (pr 0 e).
Proof. intros He. apply (good_pr 0) in He as [Hs Hg]; [|lia]. split; [|done]. apply (strong_reads 0); [lia|done|done|done]. Qed.

(** A primary expression. *)
Lemma good_primary e : level e = 10%nat -> primary_head (body e) -> reads_post (body e) e -> good e.
Proof. intros Hl Hp Hr. split; [apply Hp|]. by rewrite Hl. Qed.

Lemma good_postfix b c t e : good b -> level e = 10%nat -> body e = pr 10 b ++ code c :: t -> c ∈ ["."; "["]%char ->
  (reads_post (pr 10 b) b -> reads_post (body e) e) -> good e.
Proof.
  intros Hb Hl Heq Hc Hr. apply (good_pr 10) in Hb as [[Hp Hpost] _]; [|lia].
  apply good_primary; [done| |by apply Hr]. rewrite Heq.
  assert (Hbrk : brk (code c :: t) = true) by (rewrite !elem_of_cons, elem_of_nil in Hc; by destruct Hc as [->|[->|[]]]).
  by apply primary_head_app.
Qed.

Lemma good_opt o : on_option (fun x => printable x = true -> good x) o ->
  match o with Some x => printable x | None => true end = true -> reads_opt (from_option (pr 0) [] o) o.
Proof. intros Ho Hp. destruct o as [x|]; [|done]. apply good_expr. by apply (Ho x). Qed.

Lemma good_binary l op r : good l -> good r -> good (BinaryOp l op r).
Proof.
  intros Hl Hr. pose proof (level_le (BinaryOp l op r)) as Hop. simpl in Hop.
  assert (Hlt : (op_level op < 9)%nat) by (destruct op; simpl; lia).
  unfold good. change (level (BinaryOp l op r)) with (op_level op).
  change (body (BinaryOp l op r)) with
    (if (op_level op =? 3)%nat then pr 4%nat l ++ op_text op ++ pr 4%nat r else pr (op_level op) l ++ op_text op ++ pr (S (op_level op)) r).
  destruct (Nat.eqb_spec (op_level op) 3) as [H3|H3].
  - destruct (good_pr 4 l ltac:(lia) Hl) as [Hsl Hgl], (good_pr 4 r ltac:(lia) Hr) as [Hsr _].
    split; [by apply good_head_app|]. rewrite H3.
    by apply reads_comparison; [done|apply (strong_reads 4); [lia|done|done|done]..].
  - assert (Hb : is_binary (op_level op) = true) by (by destruct op).
    destruct (good_pr (op_level op) l ltac:(lia) Hl) as [Hsl Hgl], (good_pr (S (op_level op)) r ltac:(lia) Hr) as [Hsr _].
    split; [by apply good_head_app|].
    assert (Hres : reads_left (op_level op) (pr (op_level op) l ++ op_text op ++ pr (S (op_level op)) r) (BinaryOp l op r)).
    { apply reads_left_op; [done| |by apply strong_reads_ws]. clear -Hsl Hb. by destruct op. }
    clear -Hres Hb. by destruct op.
Qed.

Lemma good_unary op x : good x -> good (UnaryOp op x).
Proof.
  intros Hx. apply (good_pr 9) in Hx as [Hs _]; [|lia]. destruct op; (split; [by eexists _, _|]).
  - by apply unary_not.
  - by apply unary_neg.
Qed.

Lemma good_name name : quotable "`" name = true -> good (Identifier name).
Proof.
  intros Hq. apply good_primary; [done| |]; simpl; unfold name_text; destruct (plain name) eqn:Hp.
  - apply primary_head_word; [by apply plain_word|by apply plain_not].
  - by apply primary_head_char.
  - by apply reads_name.
  - by apply reads_backtick.
Qed.

Lemma good_literal v : printable_literal v = true -> good (Literal v).
Proof.
  intros Hp. destruct v as [|[]|n|t| |]; try done.
  - by destruct (reads_constant "NULL" VNull) as [??]; [rewrite !elem_of_cons; tauto|apply good_primary].
  - by destruct (reads_constant "TRUE" (VBool true)) as [??]; [rewrite !elem_of_cons; tauto|apply good_primary].
  - by destruct (reads_constant "FALSE" (VBool false)) as [??]; [rewrite !elem_of_cons; tauto|apply good_primary].
  - destruct n as [n| |]; try done. simpl in Hp. rewrite andb_true_iff, !Z.leb_le in Hp. split.
    + apply good_head_word, digits_word. lia.
    + by apply unary_number.
  - simpl in Hp. apply good_primary; [done|..]; simpl; destruct (quotable "'" t) eqn:Hq.
    1, 2: by apply primary_head_char.
    + apply reads_string; [by left|done].
    + apply reads_string; [by right|]. by rewrite orb_false_l in Hp.
Qed.

(** Texts of a list of expressions. *)
Definition with_text (l : list Expr) : list (input * Expr) := map (fun x => (pr 0 x, x)) l.

Lemma texts_with l : texts (with_text l) = sep (map (pr 0) l).
Proof. unfold texts, with_text. f_equal. induction l as [|x l IH]; [done|]. cbn [map fmap list_fmap] in *. by rewrite <- IH. Qed.

Lemma with_text_snd l : (with_text l).*2 = l.
Proof. induction l as [|x l IH]; [done|]. cbn [with_text map fmap list_fmap] in *. f_equal. exact IH. Qed.

Lemma good_args args : Forall (fun x => printable x = true -> good x) args ->
  forallb (fun a => match a with Wildcard => true | _ => printable a end) args = true -> Forall arg_ok (with_text args).
Proof.
  intros Hall. induction Hall as [|x l Hx _ IH]; intros Hp; [constructor|]. simpl in Hp. apply andb_true_iff in Hp as [Hpx Hp].
  constructor; [|by apply IH]. assert (x = Wildcard \/ printable x = true) as [->|Hpr] by (destruct x; tauto); [by left|].
  right. by apply good_expr, Hx.
Qed.

Lemma good_items items : Forall (fun x => printable x = true -> good x) items -> forallb printable items = true ->
  Forall (fun te => reads 0 te.1 te.2 /\ good_head te.1) (with_text items).
Proof.
  intros Hall. induction Hall as [|x l Hx _ IH]; intros Hp; [constructor|]. simpl in Hp. apply andb_true_iff in Hp as [Hpx Hp].
  constructor; [|by apply IH]. by apply good_expr, Hx.
Qed.

Lemma good_call name args : plain name = true -> Forall arg_ok (with_text args) -> good (Call name args).
Proof.
  intros Hn Hall. apply good_primary; [done| |].
  - change (body (Call name args)) with (cps name ++ paren (sep (map (pr 0) args))). apply primary_head_app; [done|done|].
    apply primary_head_word; [by apply plain_word|by apply plain_not].
  - change (body (Call name args)) with (cps name ++ paren (sep (map (pr 0) args))). 
    pose proof (reads_call name (with_text args) Hn Hall) as Hr. by rewrite with_text_snd, texts_with in Hr.
Qed.

Lemma good_over name args p w : plain name = true -> Forall arg_ok (with_text args) ->
  reads_opt (from_option (pr 0) [] p) p -> reads_opt (from_option (pr 0) [] w) w -> good (Over (Call name args) p w).
Proof.
  intros Hn Hall Hp Hw.
  assert (Heq : body (Over (Call name args) p w) = (cps name ++ paren (texts (with_text args))) ++ cps " OVER ("
    ++ partition_text p (from_option (pr 0) [] p) ++ when_text w (from_option (pr 0) [] w) ++ cps ")").
  { rewrite texts_with. by destruct p, w. }
  apply good_primary; [done| |]; rewrite Heq.
  - apply primary_head_app; [done|done|]. apply primary_head_app; [done|done|].
    apply primary_head_word; [by apply plain_word|by apply plain_not].
  - pose proof (reads_over name (with_text args) p _ w _ Hn Hall Hp Hw) as Hr. by rewrite with_text_snd in Hr.
Qed.

Lemma good_in_list x items negated : good x -> Forall (fun te => reads 0 te.1 te.2 /\ good_head te.1) (with_text items) ->
  good (InList x items negated).
Proof.
  intros Hx Hall. apply (good_pr 3) in Hx as [Hs Hg]; [|lia]. unfold good.
  change (body (InList x items negated)) with (pr 3 x ++ negation negated ++ cps " IN " ++ paren (sep (map (pr 0) items))).
  split; [by apply good_head_app|]. pose proof (reads_in_list (pr 3 x) x (with_text items) negated Hs Hall) as Hr.
  by rewrite with_text_snd, texts_with in Hr.
Qed.

Definition with_texts (l : list (Expr * Expr)) : list ((input * input) * (Expr * Expr)) :=
  map (fun c => ((pr 0 c.1, pr 0 c.2), c)) l.

Lemma with_texts_snd l : (with_texts l).*2 = l.
Proof. induction l as [|x l IH]; [done|]. cbn [with_texts map fmap list_fmap] in *. f_equal. exact IH. Qed.

Lemma with_texts_concat l : concat (map clause_text (with_texts l).*1) =
  concat (map (fun c => cps "WHEN " ++ pr 0 c.1 ++ cps " THEN " ++ pr 0 c.2 ++ cps " ") l).
Proof. induction l as [|x l IH]; [done|]. cbn [with_texts map fmap list_fmap concat] in *. f_equal. exact IH. Qed.

Lemma good_clauses l : Forall (fun c => (printable c.1 = true -> good c.1) /\ (printable c.2 = true -> good c.2)) l ->
  forallb (fun c => printable c.1 && printable c.2) l = true -> Forall clause_ok (with_texts l).
Proof.
  intros Hall. induction Hall as [|c l [H1 H2] _ IH]; intros Hp; [constructor|]. simpl in Hp.
  apply andb_true_iff in Hp as [Hc Hp]. apply andb_true_iff in Hc as [Hc1 Hc2]. constructor; [|by apply IH].
  split; [apply (good_expr _ (H1 Hc1))|apply (good_expr _ (H2 Hc2))].
Qed.

Lemma good_case o l other : on_option good o -> l <> [] -> Forall clause_ok (with_texts l) ->
  reads_opt (from_option (pr 0) [] other) other -> good (Case o l other).
Proof.
  intros Ho Hne Hall He.
  assert (Heq : body (Case o l other) = cps "CASE " ++ operand_text o (from_option body [] o)
    ++ concat (map clause_text (with_texts l).*1) ++ else_text other (from_option (pr 0) [] other) ++ cps "END").
  { rewrite with_texts_concat. by destruct o, other. }
  apply good_primary; [done| |]; rewrite Heq.
  - apply (primary_head_app (cps "CASE") (32 :: _)); [done|done|]. by apply primary_head_word; [split; [|repeat constructor]|].
  - pose proof (reads_case o (from_option body [] o) (with_texts l) other (from_option (pr 0) [] other)) as Hr.
    rewrite with_texts_snd in Hr. apply Hr; [| |done|done].
    + destruct o as [x|]; [|done]. apply (strong_reads 0); [lia|done|done|]. apply strong_paren; [lia|].
      destruct (Ho x eq_refl) as [_ Hs]. by apply (strong_down 0 (level x)); [lia|apply level_le|].
    + by destruct l.
Qed.

(** What the induction shows; with the arguments of a call, for [OVER]. *)
Definition known (e : Expr) : Prop :=
  (printable e = true -> good e) /\
  match e with Call _ args => Forall (fun x => printable x = true -> good x) args | _ => True end.

Lemma known_all l : Forall known l -> Forall (fun x => printable x = true -> good x) l.
Proof. intros Hl. eapply list.Forall_impl; [exact Hl|]. by intros x [Hx _]. Qed.

Lemma known_opt o : on_option known o -> on_option (fun x => printable x = true -> good x) o.
Proof. intros Ho x Hx. by destruct (Ho x Hx). Qed.

Lemma known_clauses l : Forall (fun c => known c.1 /\ known c.2) l ->
  Forall (fun c => (printable c.1 = true -> good c.1) /\ (printable c.2 = true -> good c.2)) l.
Proof. intros Hl. eapply list.Forall_impl; [exact Hl|]. by intros c [[H1 _] [H2 _]]. Qed.

Lemma printable_known e : known e.
Proof.
  induction e as [| | name | v | l op r [Hl _] [Hr _] | op x [Hx _] | x low high n [Hx _] [Hlow _] [Hhigh _]
    | x items n [Hx _] Hall | x n [Hx _] | parent field [Hp _] | b i [Hb _] [Hi _] | b lo hi [Hb _] Hlo%known_opt Hhi%known_opt
    | name args Hall%known_all | o clauses other Ho%known_opt Hcl%known_clauses He%known_opt
    | call p w [_ Hc] Hp%known_opt Hw%known_opt] using Expr_ind'.
  all: split; [intros Hpr; cbn [printable] in Hpr; repeat rewrite andb_true_iff in Hpr; try done|try done].
  - by apply good_name.
  - by apply good_literal.
  - destruct Hpr as [H1 H2]. by apply good_binary; [apply Hl|apply Hr].
  - by apply good_unary, Hx.
  - destruct Hpr as [[H1 H2] H3].
    destruct (good_pr 3 x ltac:(lia) (Hx H1)) as [Hs Hg], (good_pr 3 low ltac:(lia) (Hlow H2)) as [Hs2 _],
      (good_pr 3 high ltac:(lia) (Hhigh H3)) as [Hs3 _].
    split; [by apply (good_head_app (pr 3 x))|]. by apply reads_reads_ws, (reads_between (pr 3 x) x (pr 3 low) low (pr 3 high)).
  - destruct Hpr as [H1 H2]. apply good_in_list; [by apply Hx|apply good_items; [by apply known_all|done]].
  - destruct (good_pr 3 x ltac:(lia) (Hx Hpr)) as [Hs Hg].
    split; [by apply (good_head_app (pr 3 x))|]. by apply (reads_is_null (pr 3 x)).
  - destruct Hpr as [H1 H2]. apply (good_postfix parent "." (field_text field)); [by apply Hp|done|done|apply list_elem_of_here|].
    intros Hpost. apply (reads_field (pr 10 parent)); [done|].
    apply orb_true_iff in H2 as [H2|H2]; [left; by apply bool_decide_eq_true in H2|by right].
  - destruct Hpr as [H1 H2].
    apply (good_postfix b "[" (pr 0 i ++ cps "]")); [by apply Hb|done|done|rewrite !elem_of_cons; tauto|].
    intros Hpost. destruct (good_expr i (Hi H2)) as [Hr Hg]. by apply (reads_index (pr 10 b) b (pr 0 i)).
  - destruct Hpr as [[H1 H2] H3].
    apply (good_postfix b "[" (from_option (pr 0) [] lo ++ cps ":" ++ from_option (pr 0) [] hi ++ cps "]"));
      [by apply Hb|done|done|rewrite !elem_of_cons; tauto|].
    intros Hpost. by apply (reads_slice (pr 10 b) b (from_option (pr 0) [] lo) lo (from_option (pr 0) [] hi)); [|apply good_opt..].
  - destruct Hpr as [H1 H2]. by apply good_call, good_args.
  - destruct Hpr as [[[H1 H2] H3] H4]. apply negb_true_iff, bool_decide_eq_false in H2.
    apply good_case; [|done|by apply good_clauses|by apply good_opt].
    intros x ->. by apply (Ho x).
  - destruct Hpr as [[H1 H2] H3]. destruct call as [| | | | | | | | | | | |name args| |]; try done.
    cbn [printable] in H1. apply andb_true_iff in H1 as [Hn Ha].
    apply good_over; [done|by apply good_args|by apply good_opt|by apply good_opt].
Qed.

Lemma printable_reads e : printable e = true -> reads 0 (print_expr e) e.
Proof.
  intros Hp. destruct (proj1 (printable_known e) Hp) as [_ Hs].
  apply (strong_reads 0); [lia|done|done|]. by apply (strong_down 0 (level e)); [lia|apply level_le|].
Qed.

(** C11. Printing and parsing expressions: [parse_expr] reads back every printable expression,
    whatever its operators, their precedence and associativity, its ranges, calls, [OVER]
    clauses, [CASE] branches, subscripts and literals, from the text with the fewest
    parentheses, and leaves exactly what follows it, up to white space.  What follows must not
    start with a character of a word, nor continue the expression by an operator, an argument
    list or a postfix; the fuel is the length of the input. *)
Theorem parse_print_expr e rest : printable e = true -> brk rest = true -> stops 0 (skip_whitespace rest) = true ->
  parse_expr (S (length (print_expr e ++ rest))) (print_expr e ++ rest) = POk e (skip_whitespace rest).
Proof. intros Hp Hb Hs. apply reads_expr; [by apply printable_reads|lia|done|done]. Qed.
End levels.

(** ** A concrete expression *)

Module PrinterSample.
Import ParserFacts.ParserSample.

(** [NOT (a OR b - (c - 2) * -3 IN (1, x[0].`the unit`)) AND lag(v, 1) OVER (PARTITION BY id )
    NOT BETWEEN 'lo' AND CASE WHEN TRUE THEN y[:3] ELSE NULL END] *)
Definition sample : Expr :=
  let num n := Literal (VNumber (PosInt n)) in
  BinaryOp
    (UnaryOp Not (BinaryOp (Identifier "a") Or
       (InList (BinaryOp (Identifier "b") Sub
                  (BinaryOp (BinaryOp (Identifier "c") Sub (num 2)) Mul (UnaryOp Neg (num 3))))
          [num 1; FieldAccess (Index (Identifier "x") (num 0)) "the unit"] false)))
    And
    (Between (Over (Call "lag" [Identifier "v"; num 1]) (Some (Identifier "id")) None) (Literal (VString "lo"))
       (Case None [(Literal (VBool true), Slice (Identifier "y") None (Some (num 3)))] (Some (Literal VNull))) true).

Lemma sample_text : to_str (print_expr sample) =
  "NOT (a OR b - (c - 2) * -3 IN (1, x[0].`the unit`)) AND lag(v, 1) OVER (PARTITION BY id ) NOT BETWEEN 'lo' AND CASE WHEN TRUE THEN y[:3] ELSE NULL END".
Proof. by vm_compute. Qed.
End PrinterSample.
Import ParserFacts.ParserSample PrinterSample.

Lemma parse_print_expr_witness :
  parse_expr (S (length (print_expr sample ++ cps " FROM t"))) (print_expr sample ++ cps " FROM t") = POk sample (cps "FROM t").
Proof. apply (parse_print_expr sample (cps " FROM t")); vm_compute; reflexivity. Defined.
