(* ===== verification/Delimited.v ===== *)
(** * The binary and delimited codecs ([BinaryCodec] and [DelimitedCodec] of
      [crates/rekuiper-connectors/src/codec.rs])

    A record as one line of cells between delimiters, in the order of the headers, with
    quotes around the cells that need them; and opaque bytes as an object with a base64
    text.  Lines and cells are sequences of characters, the delimiter is any character. *)

From Stdlib Require Import Ascii.
From stdpp Require Import pretty.
From S2P Require Import Prelude Rust Characters Json Ast Engine Values Numbers.

Set Default Goal Selector "!".

(** The standard engine of the base64 crate. *)
Class Base64 := {
  b64_encode : list ascii -> string;
  b64_decode : string -> option (list ascii);
}.

(** ** Opaque bytes *)

Definition binary_decode `{Base64} (bytes : list ascii) : value := VObject [("_binary", VString (b64_encode bytes))].

Definition binary_encode `{Base64} `{Text} (v : value) : list ascii :=
  let marked :=
    match v with
    | VObject m =>
        match object_get "_binary" m, object_get "_raw" m with
        | Some (VString s), _ => Some s
        | _, Some (VString s) => Some s
        | _, _ => None
        end
    | _ => None
    end in
  match marked with
  | Some s => default [] (b64_decode s)
  | None => match v with VString s => chars s | _ => chars (value_to_string v) end
  end.

(** ** Delimited lines *)

Definition quote : Z := 34.

Definition parse_token (token : string) : value :=
  let token := trim_str token in
  match parse_i64 token, parse_f64 token with
  | Some i, _ => value_of_i64 i
  | None, Some f => if is_finite f then VNumber (Float f) else VString token
  | None, None => VString token
  end.

(** A finished field, with whether it was quoted. *)
Definition field_of (current : input) (quoted : bool) : input * bool :=
  if quoted then (current, true) else (trim_cps current, false).

Fixpoint split_fields (delimiter : Z) (current : input) (quoted in_quotes : bool) (line : input) : list (input * bool) :=
  match line with
  | [] => [field_of current quoted]
  | c :: r =>
      if in_quotes then
        if c =? quote then
          match r with
          | c2 :: r2 =>
              if c2 =? quote then split_fields delimiter (current ++ [quote]) quoted true r2
              else split_fields delimiter current quoted false r
          | [] => split_fields delimiter current quoted false r
          end
        else split_fields delimiter (current ++ [c]) quoted true r
      else if (c =? quote) && bool_decide (trim_cps current = []) then split_fields delimiter [] true true r
      else if c =? delimiter then field_of current quoted :: split_fields delimiter [] false false r
      else split_fields delimiter (current ++ [c]) quoted false r
  end.

Definition split_quoted (line : input) (delimiter : Z) : list (input * bool) := split_fields delimiter [] false false line.

(** A cell that contains a delimiter, a quote or a line break. *)
Definition needs_quotes (delimiter : Z) (cell : input) : bool :=
  existsb (fun c => (c =? delimiter) || (c =? quote) || (c =? 10) || (c =? 13)) cell.

Definition escape (cell : input) : input := flat_map (fun c => if c =? quote then [quote; quote] else [c]) cell.

Definition quote_cell (cell : input) (delimiter : Z) : input :=
  if needs_quotes delimiter cell then quote :: escape cell ++ [quote] else cell.

Record DelimitedCodec := mkDelimited { delimiter : Z; headers : list string }.

Definition delimiter_from_name (name : string) : Z :=
  let name := to_ascii_lowercase (trim_str name) in
  if bool_decide (name = "tab" \/ name = "\t") then 9
  else if bool_decide (name = "pipe") then 124
  else if bool_decide (name = "comma") then 44
  else if bool_decide (name = "semicolon") then 59
  else default 44 (head (of_str name)).

Section codec.
Context `{Text}.

Definition decode (codec : DelimitedCodec) (line : input) : row :=
  let fields := split_quoted line (delimiter codec) in
  foldl (fun map ih => <[ih.2 := parse_token (from_option (to_str ∘ fst) "" (fields !! ih.1))]> map)
    ∅ (zip (seq 0 (length (headers codec))) (headers codec)).

Definition decode_row (codec : DelimitedCodec) (line : input) : row :=
  if bool_decide (headers codec <> []) then decode codec line
  else
    let fields := split_quoted line (delimiter codec) in
    list_to_map (zip_with (fun i f => ("col" +:+ pretty i, parse_token (to_str f.1))) (seq 0 (length fields)) fields).

(** The text of a value in a cell, and whether it may be quoted. *)
Definition cell_text (v : option value) : input * bool :=
  match v with
  | None | Some VNull => ([], false)
  | Some (VString s) => (of_str s, true)
  | Some (VNumber n) => (of_str (value_to_string (VNumber n)), false)
  | Some (VBool b) => (of_str (if b then "true" else "false"), false)
  | Some other => (of_str (value_to_string other), true)
  end.

Definition cell (codec : DelimitedCodec) (v : option value) : input :=
  let '(text, quotable) := cell_text v in if quotable then quote_cell text (delimiter codec) else text.

Fixpoint join (delimiter : Z) (cells : list input) : input :=
  match cells with
  | [] => []
  | [c] => c
  | c :: r => c ++ delimiter :: join delimiter r
  end.

Definition encode (codec : DelimitedCodec) (record : row) : input :=
  join (delimiter codec) (map (fun h => cell codec (record !! h)) (headers codec)).
End codec.

(** ** Fields of a written line *)

(** What may follow a cell: the end of the line or a delimiter. *)
Definition cell_end (d : Z) (rest : input) : Prop := rest = [] \/ exists r, rest = d :: r.

Lemma split_plain d cur quoted cell rest : Forall (fun c => c <> d /\ c <> quote) cell ->
  split_fields d cur quoted false (cell ++ rest) = split_fields d (cur ++ cell) quoted false rest.
Proof.
  intros Hc. revert cur. induction Hc as [|c cell [Hd Hq] _ IH]; intros cur; cbn [app]; [by rewrite app_nil_r|].
  cbn [split_fields]. rewrite (proj2 (Z.eqb_neq c quote)), (proj2 (Z.eqb_neq c d)) by done. cbn [andb].
  by rewrite IH, <- app_assoc.
Qed.

Lemma split_escaped d cur cell rest : d <> quote -> cell_end d rest ->
  split_fields d cur true true (escape cell ++ quote :: rest) = split_fields d (cur ++ cell) true false rest.
Proof.
  intros Hd Hr. revert cur. induction cell as [|c cell IH]; intros cur; cbn [escape flat_map app].
  - cbn [split_fields]. rewrite Z.eqb_refl, app_nil_r. destruct Hr as [->|[r ->]]; [done|].
    by rewrite (proj2 (Z.eqb_neq d quote)).
  - fold (escape cell). destruct (Z.eqb_spec c quote) as [->|Hc].
    + cbn [app split_fields]. rewrite !Z.eqb_refl. by rewrite IH, <- app_assoc.
    + cbn [app split_fields]. rewrite (proj2 (Z.eqb_neq c quote)) by done. by rewrite IH, <- app_assoc.
Qed.

Lemma needs_quotes_false d cell : needs_quotes d cell = false -> Forall (fun c => c <> d /\ c <> quote) cell.
Proof.
  unfold needs_quotes. induction cell as [|c cell IH]; cbn [existsb]; intros Hn; [constructor|].
  apply orb_false_iff in Hn as [Hc Hn]. rewrite !orb_false_iff, !Z.eqb_neq in Hc. constructor; [tauto|by apply IH].
Qed.

(** The field a cell is read back as. *)
Definition read_cell (d : Z) (cell : input) : input * bool :=
  if needs_quotes d cell then (cell, true) else (trim_cps cell, false).

Lemma split_cell d cell rest : d <> quote -> cell_end d rest ->
  split_fields d [] false false (quote_cell cell d ++ rest) =
  match rest with [] => [read_cell d cell] | _ :: r => read_cell d cell :: split_fields d [] false false r end.
Proof.
  intros Hd Hr. unfold quote_cell, read_cell.
  assert (Hend : forall cur quoted, split_fields d cur quoted false rest =
    match rest with [] => [field_of cur quoted] | _ :: r => field_of cur quoted :: split_fields d [] false false r end).
  { intros cur quoted. destruct Hr as [->|[r ->]]; [done|]. cbn [split_fields].
    by rewrite (proj2 (Z.eqb_neq d quote)), Z.eqb_refl by done. }
  destruct (needs_quotes d cell) eqn:Hn.
  - cbn [app split_fields]. rewrite Z.eqb_refl. rewrite bool_decide_eq_true_2 by done. cbn [andb].
    rewrite <- app_assoc. cbn [app]. rewrite split_escaped by done. apply Hend.
  - rewrite split_plain by (by apply needs_quotes_false). apply Hend.
Qed.

(** Quoting is undone by splitting: a line written cell by cell is read back as exactly
    its cells, whatever delimiters, quotes and line breaks they contain, with the flag of
    the cells that were quoted; only white space around a cell that needs no quotes is
    lost.  The quote character itself must not be the delimiter. *)
Theorem delimited_fields_roundtrip (d : Z) (cells : list input) : d <> quote -> cells <> [] ->
  split_quoted (join d (map (fun c => quote_cell c d) cells)) d = map (read_cell d) cells.
Proof.
  intros Hd. unfold split_quoted. induction cells as [|c cells IH]; intros Hne; [done|]. destruct cells as [|c' cells].
  - cbn [map join]. rewrite <- (app_nil_r (quote_cell c d)). rewrite split_cell; [done|done|by left].
  - cbn [map]. change (join d (quote_cell c d :: quote_cell c' d :: map (fun c => quote_cell c d) cells))
      with (quote_cell c d ++ d :: join d (map (fun c => quote_cell c d) (c' :: cells))).
    rewrite split_cell by (first [done|right; by eexists]). f_equal. by apply IH.
Qed.

Lemma delimited_fields_roundtrip_witness :
  let cells := [cps "a,b"; cps " plain "; code "'" :: quote :: cps "x"; []] in
  split_quoted (join 44 (map (fun c => quote_cell c 44) cells)) 44
  = [(cps "a,b", true); (cps "plain", false); (code "'" :: quote :: cps "x", true); ([], false)].
Proof.
  etrans; [apply (delimited_fields_roundtrip 44 [cps "a,b"; cps " plain "; code "'" :: quote :: cps "x"; []]); done|].
  by vm_compute.
Defined.

(** ** Records *)

(** A column of the line as a value. *)
Definition column (fields : list (input * bool)) (i : nat) : value :=
  parse_token (from_option (to_str ∘ fst) "" (fields !! i)).

Lemma columns_lookup fields k hs (m : row) h : NoDup hs ->
  foldl (fun map ih => <[ih.2 := column fields ih.1]> map) m (zip (seq k (length hs)) hs) !! h =
  match list_find (h =.) hs with Some (i, _) => Some (column fields (k + i)) | None => m !! h end.
Proof.
  revert k m. induction hs as [|h' hs IH]; intros k m Hnd; [done|]. apply list.NoDup_cons in Hnd as [Hh Hnd].
  cbn [length seq zip zip_with foldl fst snd list_find]. rewrite IH by done. destruct (decide (h = h')) as [->|Hne].
  - destruct (list_find (h' =.) hs) as [[i x]|] eqn:Hf.
    + apply list_find_Some in Hf as (Hi & -> & _). by apply list_elem_of_lookup_2 in Hi.
    + by rewrite lookup_insert_eq, Nat.add_0_r.
  - destruct (list_find (h =.) hs) as [[i x]|] eqn:Hf; simpl; [by rewrite Nat.add_succ_r|].
    by rewrite lookup_insert_ne.
Qed.

Section records.
Context `{Text}.

(** The characters of an integer. *)
Definition number_char (c : Z) : bool := is_digit c || (c =? code "-").

(** A value that survives: an integer of 64 bits, or a string that would not be read as a
    number and has no white space around it. *)
Definition survives (v : value) : Prop :=
  (exists i, in_i64 i /\ v = value_of_i64 i) \/ (exists s, v = VString s /\ is_utf8 s /\ parse_token s = v).

Context (integers_as_text : forall i, in_i64 i -> value_to_string (value_of_i64 i) = integer_text i).

Lemma integer_text_ascii i : Forall (fun c => code c < 128) (chars (integer_text i)).
Proof.
  eapply list.Forall_impl; [apply integer_text_chars|]. intros c [Hc| ->]; [|by vm_compute].
  unfold is_ascii_digit in Hc. rewrite andb_true_iff, !Z.leb_le in Hc. lia.
Qed.

Lemma integer_text_cps i : Forall (fun c => number_char c = true) (cps (integer_text i)).
Proof.
  unfold cps. apply List.Forall_map. eapply list.Forall_impl; [apply integer_text_chars|].
  intros c [Hc| ->]; [|by vm_compute]. unfold number_char. change (is_digit (code c)) with (is_ascii_digit c). by rewrite Hc.
Qed.

Lemma number_char_facts d c : number_char c = true -> number_char d = false -> d <> quote ->
  is_space c = false /\ ((c =? d) || (c =? quote) || (c =? 10) || (c =? 13)) = false.
Proof.
  unfold number_char, is_digit. intros Hc Hd Hq.
  assert (48 <= c <= 57 \/ c = 45) as Hr.
  { change (code "-") with 45 in Hc. rewrite orb_true_iff, andb_true_iff, !Z.leb_le, Z.eqb_eq in Hc. lia. }
  split; [unfold is_space; rewrite !orb_false_iff, !andb_false_iff, !Z.leb_gt, !Z.eqb_neq; lia|].
  assert (c <> d) as Hcd.
  { intros ->. by rewrite Hc in Hd. }
  unfold quote. rewrite !orb_false_iff, !Z.eqb_neq. lia.
Qed.

(** What is read of a written value. *)
Lemma survives_cell codec v : delimiter codec <> quote -> number_char (delimiter codec) = false -> survives v ->
  exists text, cell codec (Some v) = quote_cell text (delimiter codec) /\
    parse_token (to_str (read_cell (delimiter codec) text).1) = v.
Proof.
  intros Hq Hd [(i & Hi & ->)|(s & -> & Hs & Hp)].
  - set (t := cps (integer_text i)).
    pose proof (integer_text_cps i) as Ht. fold t in Ht.
    assert (Hn : needs_quotes (delimiter codec) t = false).
    { unfold needs_quotes. clearbody t. induction Ht as [|c l Hc _ IH]; [done|]. cbn [existsb].
      by destruct (number_char_facts (delimiter codec) c Hc Hd Hq) as [_ ->]. }
    exists t. split.
    + unfold cell, value_of_i64. cbn [cell_text]. fold (value_of_i64 i). rewrite integers_as_text by done.
      rewrite ascii_str by apply integer_text_ascii. unfold quote_cell. fold t. by rewrite Hn.
    + unfold read_cell. rewrite Hn. cbn [fst]. rewrite trim_none.
      2: { eapply list.Forall_impl; [exact Ht|]. intros c Hc. by apply (number_char_facts (delimiter codec)). }
      subst t. rewrite to_str_cps by apply integer_text_ascii. unfold parse_token, trim_str.
      rewrite ascii_str by apply integer_text_ascii. rewrite trim_none.
      2: { eapply list.Forall_impl; [apply integer_text_cps|]. intros c Hc. by apply (number_char_facts (delimiter codec)). }
      rewrite to_str_cps by apply integer_text_ascii. by rewrite parse_integer_text.
  - exists (of_str s). split; [done|]. unfold read_cell. destruct (needs_quotes _ _); cbn [fst].
    + by rewrite to_str_of_str.
    + assert (Htrim : trim_str s = s).
      { unfold parse_token in Hp. destruct (parse_i64 (trim_str s)); [done|].
        destruct (parse_f64 (trim_str s)) as [f|]; [destruct (is_finite f); [done|]|]; by simplify_eq. }
      change (to_str (trim_cps (of_str s))) with (trim_str s). by rewrite Htrim.
Qed.

(** A record written as a line is read back: under distinct headers, every column whose
    value is a 64-bit integer, or a string that does not look like a number and has no white
    space around it, returns unchanged whatever characters it contains, and nothing else
    appears.  The delimiter is not the quote character, nor one of the characters of the
    integers, which are written without quotes; the hypothesis on [value_to_string] is the
    documented decimal form of integers. *)
Theorem delimited_record_roundtrip codec (record : row) : NoDup (headers codec) ->
  delimiter codec <> quote -> number_char (delimiter codec) = false -> headers codec <> [] ->
  (forall h, h ∈ headers codec -> exists v, record !! h = Some v /\ survives v) ->
  decode codec (encode codec record) = filter (fun kv => kv.1 ∈ headers codec) record.
Proof.
  intros Hnd Hq Hd Hne Hrec.
  assert (Htexts : exists texts, map (fun h => cell codec (record !! h)) (headers codec)
      = map (fun t => quote_cell t (delimiter codec)) texts /\
    Forall2 (fun h t => Some (parse_token (to_str (read_cell (delimiter codec) t).1)) = record !! h) (headers codec) texts).
  { clear Hnd Hne. induction (headers codec) as [|h hs IH]; [by exists []|].
    destruct IH as (texts & Heq & Hall); [intros h' Hh'; apply Hrec; by right|].
    destruct (Hrec h (list_elem_of_here h hs)) as (v & Hv & Hs). destruct (survives_cell codec v Hq Hd Hs) as (t & Hc & Hp).
    exists (t :: texts). cbn [map]. rewrite Hv, Hc, Heq. split; [done|]. constructor; [by rewrite Hp|done]. }
  destruct Htexts as (texts & Heq & Hall). apply map_eq. intros h. rewrite map_lookup_filter.
  unfold decode, encode. rewrite Heq, delimited_fields_roundtrip; [|done|intros ->; apply Hne; by inversion Hall].
  pose proof (columns_lookup (map (read_cell (delimiter codec)) texts) 0 (headers codec) ∅ h Hnd) as Hcol.
  unfold column in Hcol at 1. rewrite Hcol. clear Hcol.
  destruct (list_find (h =.) (headers codec)) as [[i h']|] eqn:Hf.
  - apply list_find_Some in Hf as (Hi & <- & _). destruct (Forall2_lookup_l _ _ _ _ _ Hall Hi) as (t & Ht & Hp).
    unfold column. rewrite Nat.add_0_l, list_lookup_fmap, Ht. cbn [fmap option_fmap option_map from_option compose fst].
    rewrite <- Hp. cbn [mbind option_bind]. rewrite option_guard_True; [done|]. simpl. by eapply list_elem_of_lookup_2.
  - apply list_find_None in Hf. rewrite lookup_empty. destruct (record !! h) as [v|]; [|done]. cbn [mbind option_bind].
    rewrite option_guard_False; [done|]. intros Hin. rewrite list.Forall_forall in Hf. exact (Hf h Hin eq_refl).
Qed.
End records.

(** ** A concrete line *)

Module DelimitedSample.
#[export] Instance display : Text := {|
  value_to_string v := match v with VNumber (PosInt n) => digits n | VNumber (NegInt n) => "-" +:+ digits (- n) | _ => "" end;
  map_to_json _ := "";
  parse_rfc3339 _ := None;
|}.

Definition codec : DelimitedCodec := mkDelimited 44 ["id"; "name"].
Definition record : row := {["id" := value_of_i64 (-7); "name" := VString "a, b"; "extra" := VNull]}.

Lemma line : encode codec record = cps "-7," ++ quote :: cps "a, b" ++ [quote].
Proof. by vm_compute. Qed.
End DelimitedSample.
Import DelimitedSample.

Lemma delimited_record_roundtrip_witness :
  decode codec (encode codec record) = filter (fun kv => kv.1 ∈ headers codec) record.
Proof.
  apply delimited_record_roundtrip; [|apply (bool_decide_unpack _); by vm_compute|done|done|done|].
  - intros i Hi. unfold integer_text. cbn [value_to_string display value_of_i64]. unfold value_of_i64.
    by destruct (i <? 0).
  - intros h Hh. unfold codec in Hh. cbn [headers] in Hh. rewrite !elem_of_cons, elem_of_nil in Hh.
    destruct Hh as [->|[->|[]]]; eexists; (split; [by vm_compute|]).
    + left. exists (-7). by split.
    + right. exists "a, b". split_and!; [done| |by vm_compute]. apply ascii_is_utf8. by repeat constructor.
Defined.

(** A quoted number or a text with white space around it does not survive, a missing column
    comes back as the empty string, and the integers of a line whose delimiter is one of
    their characters are torn apart. *)
Lemma delimited_losses :
  decode codec (encode codec {["id" := VString "42"; "name" := VString " x, "]})
    = {["id" := value_of_i64 42; "name" := VString "x,"]} /\
  decode codec (encode codec ∅) = {["id" := VString ""; "name" := VString ""]} /\
  decode (mkDelimited (code "-") ["id"; "name"]) (encode (mkDelimited (code "-") ["id"; "name"]) record)
    = {["id" := VString ""; "name" := value_of_i64 7]}.
Proof. by vm_compute. Qed.

(** A tab given as itself is trimmed away before it is looked at: the delimiter becomes a
    comma. *)
Lemma literal_tab_is_comma : delimiter_from_name (of_chars [byte_of 9]) = 44 /\ delimiter_from_name "tab" = 9.
Proof. by vm_compute. Qed.
