(* ===== verification/EdgeX.v ===== *)
(** * EdgeX events ([EdgeXCodec] of [crates/rekuiper-connectors/src/codec.rs])

    An event with its readings is flattened to one record with the metadata under
    [__meta__]; a record is packed as an event of version 3.  Documents are the values
    serde_json reads and writes. *)

From Stdlib Require Import Ascii.
From Stdlib Require Import Ascii SpecFloat.
From S2P Require Import Prelude Rust Characters Json Ast Engine Columns Values Numbers Objects Delimited.

Set Default Goal Selector "!".

(** ** The data transfer objects, as their derived readers take them *)

Record EdgeXReading := mkReading {
  r_id : string; r_device : string; r_resource : string; r_profile : string; r_type : string;
  r_value : option value; r_binary : option string; r_origin : Z;
}.

Record EdgeXEvent := mkEvent {
  e_api : string; e_id : string; e_device : string; e_profile : string; e_source : string;
  e_origin : Z; e_readings : list EdgeXReading; e_tags : row;
}.

(** The position of a field in its structure. *)
Definition field_index (names : list string) (k : string) : option nat := fst <$> list_find (fun n => n = k) names.

(** A structure is read from an object, or from an array with its fields in order; at least
    [required] of them. *)
Definition struct_fields (names : list string) (required : nat) (v : value) : option (string -> option value) :=
  match v with
  | VObject m => Some (fun k => object_get k m)
  | VArray l => if (required <=? length l)%nat && (length l <=? length names)%nat then Some (fun k => i ← field_index names k; l !! i) else None
  | _ => None
  end.

Definition string_field (field : string -> option value) (k : string) : option string :=
  match field k with None => Some "" | Some (VString s) => Some s | Some _ => None end.

Definition origin_field (field : string -> option value) : option Z :=
  match field "origin" with
  | None => Some 0
  | Some (VNumber n) => number_as_i64 n
  | Some _ => None
  end.

Definition binary_field (field : string -> option value) : option (option string) :=
  match field "binaryValue" with None | Some VNull => Some None | Some (VString s) => Some (Some s) | Some _ => None end.

Definition value_field (field : string -> option value) : option value :=
  match field "value" with Some VNull => None | o => o end.

Definition reading_names : list string := ["id"; "deviceName"; "resourceName"; "profileName"; "valueType"; "value"; "binaryValue"; "origin"].
Definition event_names : list string := ["apiVersion"; "id"; "deviceName"; "profileName"; "sourceName"; "origin"; "readings"; "tags"].

Definition read_reading (v : value) : option EdgeXReading :=
  f ← struct_fields reading_names 6 v;
  i ← string_field f "id"; d ← string_field f "deviceName"; r ← string_field f "resourceName"; p ← string_field f "profileName";
  t ← string_field f "valueType"; b ← binary_field f; o ← origin_field f;
  Some (mkReading i d r p t (value_field f) b o).

Definition readings_field (field : string -> option value) : option (list EdgeXReading) :=
  match field "readings" with None => Some [] | Some (VArray l) => mapM read_reading l | Some _ => None end.

Definition tags_field (field : string -> option value) : option row :=
  match field "tags" with None => Some ∅ | Some (VObject m) => Some (list_to_map (rev m)) | Some _ => None end.

Definition read_event (v : value) : option EdgeXEvent :=
  f ← struct_fields event_names 0 v;
  a ← string_field f "apiVersion"; i ← string_field f "id"; d ← string_field f "deviceName"; p ← string_field f "profileName";
  s ← string_field f "sourceName"; o ← origin_field f; rs ← readings_field f; ts ← tags_field f;
  Some (mkEvent a i d p s o rs ts).

(** ** Values *)

Definition parse_bool (s : string) : option bool :=
  if bool_decide (s = "true") then Some true else if bool_decide (s = "false") then Some false else None.

(** [Number::from_f64] of a number's text. *)
Definition float_value (s : string) : option value := f ← parse_f64 s; if is_finite f then Some (VNumber (Float f)) else None.

Definition first_some {A} (l : list (option A)) : option A := list.head (omap id l).

Definition typed_value (vt s : string) : option value :=
  if String.prefix "int" vt || String.prefix "uint" vt then value_of_i64 <$> parse_i64 s
  else if String.prefix "float" vt || bool_decide (vt = "double") then float_value s
  else if bool_decide (vt = "bool" \/ vt = "boolean") then VBool <$> parse_bool s
  else None.

Definition parse_edgex_value (val : option value) (binary : option string) (value_type : string) : value :=
  match binary, val with
  | Some b, _ => VString b
  | None, None => VNull
  | None, Some (VString s) =>
      let t := trim_str s in
      default (VString s)
        (first_some [typed_value (to_ascii_lowercase value_type) t; value_of_i64 <$> parse_i64 t; float_value t; VBool <$> parse_bool t])
  | None, Some v => v
  end.

(** ** Decoding *)

Section edgex.
Context `{Text}.

(** The text of a document that is itself a string, by [serde_json::from_str]. *)
Context (from_str : string -> option value).

Definition member (k : string) (v : value) : option value := match v with VObject m => object_get k m | _ => None end.

Definition event_value (root : value) : value :=
  match member "payload" root with
  | Some (VString s) => default (VString s) (from_str s)
  | Some p => p
  | None => default root (member "event" root)
  end.

Definition or_else {A} (o o' : option A) : option A := match o with Some _ => o | None => o' end.

Definition correlation_id (root : value) : string :=
  default "" (or_else (member "correlationId" root) (member "correlationid" root) ≫= as_str).

Definition put_text (k s : string) (m : row) : row := if bool_decide (s = "") then m else <[k := VString s]> m.
Definition put_origin (o : Z) (m : row) : row := if o =? 0 then m else <["origin" := value_of_i64 o]> m.

Definition event_meta (correlation : string) (e : EdgeXEvent) : row :=
  let m := put_text "deviceName" (e_device e) ∅ in
  let m := put_text "profileName" (e_profile e) m in
  let m := put_text "sourceName" (e_source e) m in
  let m := put_text "id" (e_id e) m in
  let m := put_origin (e_origin e) m in
  let m := put_text "correlationid" correlation m in
  if bool_decide (e_tags e = ∅) then m else <["tags" := row_to_value (e_tags e)]> m.

Definition reading_meta (r : EdgeXReading) : row :=
  put_origin (r_origin r) (put_text "valueType" (r_type r) (put_text "profileName" (r_profile r)
    (put_text "deviceName" (r_device r) (put_text "id" (r_id r) ∅)))).

(** The columns and the metadata with one more reading; a reading without a name is skipped. *)
Definition flatten (acc : row * row) (r : EdgeXReading) : row * row :=
  if bool_decide (r_resource r = "") then acc
  else (<[r_resource r := parse_edgex_value (r_value r) (r_binary r) (r_type r)]> acc.1, <[r_resource r := row_to_value (reading_meta r)]> acc.2).

Definition add_external (meta : option value) (m : row) : row :=
  match meta with Some (VObject ext) => foldl (fun m kv => <[kv.1 := kv.2]> m) m ext | _ => m end.

Definition event_record (correlation : string) (meta : option value) (e : EdgeXEvent) : option row :=
  let '(row_data, meta_map) := foldl flatten (∅, event_meta correlation e) (e_readings e) in
  if bool_decide (row_data = ∅) then None else Some (<["__meta__" := row_to_value (add_external meta meta_map)]> row_data).

(** [None] when the event cannot be read, otherwise the record, if it has a column. *)
Definition decode (root : value) (meta : option value) : option (option row) :=
  event_record (correlation_id root) meta <$> read_event (event_value root).

(** ** Encoding *)

Definition edgex_value_to_string_and_type (v : value) : string * string :=
  match v with
  | VNumber (Float _) => ("Float64", value_to_string v)
  | VNumber _ => ("Int64", value_to_string v)
  | VBool b => ("Bool", if b then "true" else "false")
  | VString s => ("String", s)
  | other => ("String", value_to_string other)
  end.

Definition hidden (k : string) : bool := bool_decide (k = "__meta__") || String.prefix "_" k.

(** [uuid] gives the identifiers, by the column's name. *)
Definition make_reading (device profile : string) (now : Z) (uuid : string -> string) (kv : string * value) : EdgeXReading :=
  let '(k, v) := kv in
  let '(t, s) := edgex_value_to_string_and_type v in
  mkReading (uuid k) device k profile t (Some (VString s)) None now.

Definition make_event (record : row) (device profile source : string) (now : Z) (event_id : string) (uuid : string -> string) : EdgeXEvent :=
  let columns := List.filter (fun kv => negb (hidden kv.1)) (merge_sort key_leb (map_to_list record)) in
  mkEvent "v3" event_id device profile source now (map (make_reading device profile now uuid) columns) ∅.

Definition write_reading (r : EdgeXReading) : value :=
  VObject [("id", VString (r_id r)); ("deviceName", VString (r_device r)); ("resourceName", VString (r_resource r));
           ("profileName", VString (r_profile r)); ("valueType", VString (r_type r)); ("value", default VNull (r_value r));
           ("binaryValue", match r_binary r with Some b => VString b | None => VNull end); ("origin", value_of_i64 (r_origin r))].

Definition write_event (e : EdgeXEvent) : value :=
  VObject [("apiVersion", VString (e_api e)); ("id", VString (e_id e)); ("deviceName", VString (e_device e));
           ("profileName", VString (e_profile e)); ("sourceName", VString (e_source e)); ("origin", value_of_i64 (e_origin e));
           ("readings", VArray (map write_reading (e_readings e))); ("tags", row_to_value (e_tags e))].

Definition encode (record : row) (device profile source : string) (now : Z) (event_id : string) (uuid : string -> string) : value :=
  write_event (make_event record device profile source now event_id uuid).
End edgex.

(** * EdgeX events are read back

    The columns of a record come back from the event it was packed into. *)

#[local] Set Warnings "-register-all".
#[local] Set Warnings "-clear-no-such-hyp".

Section facts.
Context `{Text} (from_str : string -> option value).
Context (integers_as_text : forall i, in_i64 i -> value_to_string (value_of_i64 i) = integer_text i).

(** ** Documents *)

Lemma number_of_i64 i : in_i64 i -> match value_of_i64 i with VNumber n => number_as_i64 n | _ => None end = Some i.
Proof.
  intros Hi. unfold value_of_i64, in_i64 in *. destruct (Z.ltb_spec i 0); [done|]. unfold number_as_i64. by rewrite (proj2 (Z.leb_le i i64_max)) by lia.
Qed.

Lemma value_of_i64_number i : exists n, value_of_i64 i = VNumber n.
Proof. unfold value_of_i64. destruct (i <? 0); by eexists. Qed.

Lemma origin_read f i : f "origin" = Some (value_of_i64 i) -> in_i64 i -> origin_field f = Some i.
Proof.
  intros Hf Hi. unfold origin_field. rewrite Hf. pose proof (number_of_i64 i Hi) as Hn. destruct (value_of_i64_number i) as [n Hv].
  by rewrite Hv in *.
Qed.

Lemma string_read f k s : f k = Some (VString s) -> string_field f k = Some s.
Proof. intros Hf. unfold string_field. by rewrite Hf. Qed.

Lemma read_write_reading r : in_i64 (r_origin r) -> r_value r <> Some VNull -> read_reading (write_reading r) = Some r.
Proof.
  intros Ho Hv. unfold read_reading, write_reading. cbn [struct_fields mbind option_bind].
  destruct r as [i d res p t v b o]. cbn [r_id r_device r_resource r_profile r_type r_value r_binary r_origin] in *.
  rewrite (string_read _ "id" i), (string_read _ "deviceName" d), (string_read _ "resourceName" res), (string_read _ "profileName" p),
    (string_read _ "valueType" t), (origin_read _ o) by done.
  destruct b, v as [[]|]; done.
Qed.

Lemma read_write_event e : in_i64 (e_origin e) -> e_tags e = ∅ -> Forall (fun r => in_i64 (r_origin r) /\ r_value r <> Some VNull) (e_readings e) ->
  read_event (write_event e) = Some e.
Proof.
  intros Ho Ht Hr. unfold read_event, write_event. cbn [struct_fields mbind option_bind].
  destruct e as [a i d p s o rs ts]. cbn [e_api e_id e_device e_profile e_source e_origin e_readings e_tags] in *. subst ts.
  rewrite (string_read _ "apiVersion" a), (string_read _ "id" i), (string_read _ "deviceName" d), (string_read _ "profileName" p),
    (string_read _ "sourceName" s), (origin_read _ o) by done.
  cbn [mbind option_bind]. assert (Hm : mapM read_reading (map write_reading rs) = Some rs).
  { apply mapM_Some. clear -Hr. induction Hr as [|r rs [Ho Hv] _ IH]; constructor; [by apply read_write_reading|done]. }
  unfold readings_field, tags_field. match goal with |- context [match ?x with None => Some [] | _ => _ end] => change x with (Some (VArray (map write_reading rs))) end.
  cbv iota. by rewrite Hm.
Qed.

(** ** Values *)

(** A value that keeps its type: an integer of 64 bits, a boolean, or a text that is not read
    as a number or a boolean. *)
Definition keeps (v : value) : Prop :=
  (exists i, in_i64 i /\ v = value_of_i64 i) \/ (exists b, v = VBool b) \/ (exists s, v = VString s /\ parse_edgex_value (Some v) None "String" = v).

Lemma read_back v : keeps v -> let '(t, s) := edgex_value_to_string_and_type v in parse_edgex_value (Some (VString s)) None t = v.
Proof.
  intros [(i & Hi & ->)|[[b ->]|(s & -> & Hs)]]; [|by destruct b; vm_compute|done].
  pose proof (integers_as_text i Hi) as Ht. destruct (value_of_i64_number i) as [n Hn]. rewrite Hn in *.
  assert (He : edgex_value_to_string_and_type (VNumber n) = ("Int64", integer_text i)).
  { unfold value_of_i64 in Hn. destruct (i <? 0); injection Hn as <-; cbn; by rewrite Ht. }
  rewrite He.
  unfold parse_edgex_value. cbv beta iota zeta. rewrite trim_str_ascii.
  - change (to_ascii_lowercase "Int64") with "int64". unfold typed_value. cbn [String.prefix orb]. rewrite parse_integer_text by done.
    unfold first_some. cbn. by rewrite Hn.
  - eapply list.Forall_impl; [apply integer_text_chars|]. intros c [Hc| ->]; [|by vm_compute]. unfold is_ascii_digit in Hc.
    rewrite andb_true_iff, !Z.leb_le in Hc. split; [lia|]. unfold is_space. rewrite !orb_false_iff, !andb_false_iff, !Z.leb_gt, !Z.eqb_neq. lia.
Qed.

(** ** Columns *)

Lemma fold_insert_lookup (l : list (string * value)) k v : NoDup l.*1 ->
  (foldl (fun m kv => <[kv.1 := kv.2]> m) (∅ : row) l) !! k = Some v <-> (k, v) ∈ l.
Proof.
  induction l as [|[j w] l IH] using rev_ind; [simpl; rewrite lookup_empty; intros _; split; [done|by intros ?%not_elem_of_nil]|].
  rewrite fmap_app, foldl_app. intros [Hl [Hd _]]%list.NoDup_app. simpl. rewrite elem_of_app, list_elem_of_singleton.
  destruct (decide (j = k)) as [->|Hjk].
  - rewrite lookup_insert_eq. split; [intros [= ->]; by right|]. intros [Hin|[= ->]]; [|done]. exfalso. apply (Hd k); [|by left].
    apply list_elem_of_fmap. by exists (k, v).
  - rewrite lookup_insert_ne, IH by done. split; [by left|]. by intros [?|[= -> _]].
Qed.

Lemma flatten_columns device profile now uuid l acc : Forall (fun kv => kv.1 <> "" /\ keeps kv.2) l ->
  (foldl flatten acc (map (make_reading device profile now uuid) l)).1 = foldl (fun m kv => <[kv.1 := kv.2]> m) acc.1 l.
Proof.
  revert acc. induction l as [|[k v] l IH]; intros acc Hl; [done|]. apply list.Forall_cons in Hl as [[Hk Hv] Hl]. cbn [map foldl]. rewrite IH by done.
  f_equal. pose proof (read_back v Hv) as Hr. unfold make_reading. destruct (edgex_value_to_string_and_type v) as [t s]. unfold flatten. cbn [r_resource r_value r_binary r_type].
  rewrite bool_decide_false by done. cbn [fst]. by rewrite Hr.
Qed.

(** The columns of a record that an event takes. *)
Definition packed (record : row) : row := filter (fun kv => hidden kv.1 = false) record.

Lemma columns_elem record k v : (k, v) ∈ List.filter (fun kv => negb (hidden kv.1)) (merge_sort key_leb (map_to_list record)) <-> packed record !! k = Some v.
Proof.
  unfold packed. rewrite map_lookup_filter_Some, list_elem_of_In, filter_In, <- list_elem_of_In, merge_sort_Permutation, elem_of_map_to_list, negb_true_iff.
  done.
Qed.

Lemma columns_NoDup record : NoDup (List.filter (fun kv => negb (hidden kv.1)) (merge_sort key_leb (map_to_list record))).*1.
Proof.
  assert (Hn : NoDup (merge_sort key_leb (map_to_list record)).*1) by (rewrite merge_sort_Permutation; apply NoDup_fst_map_to_list).
  induction (merge_sort key_leb (map_to_list record)) as [|[k v] l IH]; [constructor|]. apply list.NoDup_cons in Hn as [Hk Hn]. cbn.
  destruct (hidden k); cbn; [by apply IH|]. apply list.NoDup_cons. split; [|by apply IH]. intros Hin. apply Hk.
  apply list_elem_of_fmap in Hin as (kv & -> & Hin). rewrite list_elem_of_In, filter_In, <- list_elem_of_In in Hin. apply list_elem_of_fmap. naive_solver.
Qed.

(** C39. The columns of a record come back from the event it was packed into, under their
    names and with their types, without those whose names begin with an underscore, and with
    the metadata of the event as one more column.  The record has at least one such column,
    none without a name, and values that keep their types: integers of 64 bits, booleans, and
    texts that are not read as numbers or booleans; an integer prints as its digits. *)
Theorem edgex_roundtrip record device profile source now event_id uuid meta :
  packed record <> ∅ -> packed record !! "" = None -> map_Forall (fun _ v => keeps v) (packed record) -> in_i64 now ->
  exists m, decode from_str (encode record device profile source now event_id uuid) meta = Some (Some (<["__meta__" := m]> (packed record))).
Proof.
  intros Hne Hempty Hk Hnow. unfold encode.
  set (e := make_event record device profile source now event_id uuid).
  set (cols := List.filter (fun kv => negb (hidden kv.1)) (merge_sort key_leb (map_to_list record))).
  assert (Hcols : Forall (fun kv => kv.1 <> "" /\ keeps kv.2) cols).
  { apply list.Forall_forall. intros [k v] Hin%columns_elem. split; [simpl; intros ->; congruence|exact (Hk k v Hin)]. }
  assert (Hread : read_event (write_event e) = Some e).
  { apply read_write_event; [done|done|]. apply list.Forall_forall. intros r Hr. change (e_readings e) with (map (make_reading device profile now uuid) cols) in Hr.
    apply list_elem_of_In, in_map_iff in Hr as ([k v] & <- & _). unfold make_reading. by destruct (edgex_value_to_string_and_type v). }
  unfold decode. change (event_value from_str (write_event e)) with (write_event e). rewrite Hread. cbn [fmap option_fmap option_map].
  unfold event_record. change (e_readings e) with (map (make_reading device profile now uuid) cols).
  pose proof (flatten_columns device profile now uuid cols (∅, event_meta (correlation_id (write_event e)) e) Hcols) as Hf. cbn [fst] in Hf.
  destruct (foldl flatten _ _) as [row_data meta_map]. cbn [fst] in Hf.
  assert (row_data = packed record) as ->.
  { apply map_eq. intros k. apply option_eq. intros v. rewrite Hf, fold_insert_lookup by apply columns_NoDup. apply columns_elem. }
  rewrite bool_decide_false by done. by eexists.
Qed.
End facts.

(** ** Samples *)

Module EdgeXSample.
#[export] Instance display : Text := {|
  value_to_string v := match v with VNumber (PosInt n) => digits n | VNumber (NegInt n) => "-" +:+ digits (- n) | _ => "" end;
  map_to_json _ := "";
  parse_rfc3339 _ := None;
|}.

Definition no_text (s : string) : option value := None.
Definition reading (k t : string) (v : value) : value := VObject [("resourceName", VString k); ("valueType", VString t); ("value", v)].
Definition event (readings : list value) : value :=
  VObject [("apiVersion", VString "v3"); ("id", VString "evt-123"); ("deviceName", VString "Sensor01"); ("origin", value_of_i64 17); ("readings", VArray readings)].
Definition columns (root : value) : option (option row) := (fun o : option row => (fun r : row => delete "__meta__" r) <$> o) <$> decode no_text root None.
Definition meta_of (root : value) (meta : option value) : option value := decode no_text root meta ≫= fun o : option row => o ≫= fun r : row => r !! "__meta__".

Example decoded : columns (event [reading "Temperature" "Float64" (VString "28.5"); reading "Status" "String" (VString "NORMAL"); reading "n" "Int16" (VString " 7 ")]) =
  Some (Some {["Temperature" := VNumber (Float (default S754_nan (parse_f64 "28.5"))); "Status" := VString "NORMAL"; "n" := value_of_i64 7]}).
Proof. repeat split; vm_compute; reflexivity. Qed.

(** An envelope, a request, an event as an array, and what is no event. *)
Example envelopes :
  let ev := event [reading "a" "Bool" (VString "true")] in
  columns (VObject [("payload", ev)]) = Some (Some {["a" := VBool true]}) /\ columns (VObject [("event", ev)]) = Some (Some {["a" := VBool true]}) /\
  columns (VArray [VString "v3"; VString "i"; VString "d"; VString "p"; VString "s"; value_of_i64 1; VArray [reading "a" "" (value_of_i64 1)]]) = Some (Some {["a" := value_of_i64 1]}) /\
  columns (VObject [("id", VNull)]) = None /\ columns (event []) = Some None.
Proof. repeat split; vm_compute; reflexivity. Qed.

(** A text that looks like a number loses its type, whatever its declared type; a reading
    can take the place of the event's own metadata. *)
Example losses :
  columns (event [reading "serial" "String" (VString "00042")]) = Some (Some {["serial" := value_of_i64 42]}) /\
  meta_of (event [reading "deviceName" "Int8" (VString "1")]) None =
    Some (VObject [("deviceName", VObject [("valueType", VString "Int8")]); ("id", VString "evt-123"); ("origin", value_of_i64 17)]).
Proof. repeat split; vm_compute; reflexivity. Qed.

Definition output : row := {["t" := value_of_i64 (-5); "ok" := VBool true; "s" := VString "x1"; "_hidden" := VNull]}.
End EdgeXSample.
Import EdgeXSample.

Lemma edgex_roundtrip_witness :
  exists m, decode no_text (encode output "kuiper" "profile" "rule1" 99 "e" (fun k => k)) None = Some (Some (<["__meta__" := m]> (packed output))).
Proof.
  apply edgex_roundtrip; [|by vm_compute|by vm_compute| |done].
  - intros i Hi. unfold integer_text. cbn [value_to_string display]. unfold value_of_i64. by destruct (i <? 0).
  - assert (Hl : map_to_list (packed output) = [("ok", VBool true); ("s", VString "x1"); ("t", value_of_i64 (-5))]) by (by vm_compute).
    apply map_Forall_to_list. rewrite Hl. apply list.Forall_cons. split; [right; left; by exists true|].
    apply list.Forall_cons. split; [right; right; exists "x1"; split; [reflexivity|vm_compute; reflexivity]|].
    apply list.Forall_singleton. left. exists (-5). split; [unfold in_i64; vm_compute; split; discriminate|reflexivity].
Defined.
