(* ===== verification/Wire.v ===== *)
(** * Bytes on the wire (varints of [crates/rekuiper-connectors/src/codec.rs];
      [to_le_bytes] and [from_le_bytes] of the Rust standard library)

    Base-128 integers, fixed-width little-endian integers, and the bits of floating-point
    numbers.  A reader takes the bytes that are left, [bytes\[pos..\]] in the code, and
    returns a value with the bytes after it. *)

From Stdlib Require Import SpecFloat Ascii.
From S2P Require Import Prelude Rust Characters Json.

Set Default Goal Selector "!".

(** ** Integers at their width *)

Definition wrap32 (z : Z) : Z := (z + 2 ^ 31) mod 2 ^ 32 - 2 ^ 31.
Definition as_u32 (z : Z) : Z := z mod 2 ^ 32.
Definition as_u64 (z : Z) : Z := z mod 2 ^ 64.

Definition in_i32 (z : Z) : Prop := - 2 ^ 31 <= z < 2 ^ 31.

(** ** Varints *)

(** The shifts of [(0..64).step_by(7)]. *)
Definition shifts : list Z := [0; 7; 14; 21; 28; 35; 42; 49; 56; 63].

Fixpoint read_bits (shifts : list Z) (result : Z) (s : list ascii) : option (Z * list ascii) :=
  match shifts, s with
  | shift :: shifts, b :: s =>
      let result := Z.lor result (as_u64 (Z.shiftl (Z.land (code b) 127) shift)) in
      if Z.land (code b) 128 =? 0 then Some (result, s) else read_bits shifts result s
  | _, _ => None
  end.
Definition read_varint (s : list ascii) : option (Z * list ascii) := read_bits shifts 0 s.

(** The loop of [write_varint]; a [u64] takes at most ten bytes. *)
Fixpoint write_bits (fuel : nat) (value : Z) : list ascii :=
  let bits := Z.land value 127 in
  let rest := Z.shiftr value 7 in
  match fuel with
  | O => [byte_of bits]
  | S fuel => if rest =? 0 then [byte_of bits] else byte_of (Z.lor bits 128) :: write_bits fuel rest
  end.
Definition write_varint (value : Z) : list ascii := write_bits 9 value.

Definition write_tag (number wire_type : Z) : list ascii := write_varint (Z.lor (as_u64 (Z.shiftl number 3)) wire_type).

(** ** Fixed widths *)

Fixpoint to_le_bytes (n : nat) (z : Z) : list ascii :=
  match n with O => [] | S n => byte_of (z mod 256) :: to_le_bytes n (z / 256) end.
Fixpoint from_le_bytes (l : list ascii) : Z :=
  match l with [] => 0 | b :: l => code b + 256 * from_le_bytes l end.

(** The first [n] bytes and the rest. *)
Definition take_bytes (n : Z) (s : list ascii) : option (list ascii * list ascii) :=
  if Z.of_nat (length s) <? n then None else Some (take (Z.to_nat n) s, drop (Z.to_nat n) s).

(** ** Floating-point numbers *)

Definition sign_bit (prec emax : Z) (s : bool) : Z := if s then 2 * emax * 2 ^ (prec - 1) else 0.

(** [to_bits]: sign, biased exponent, fraction. *)
Definition to_bits (prec emax : Z) (f : spec_float) : Z :=
  let frac := 2 ^ (prec - 1) in
  let top := 2 * emax - 1 in
  match f with
  | S754_zero s => sign_bit prec emax s
  | S754_infinity s => sign_bit prec emax s + top * frac
  | S754_nan => top * frac + frac / 2
  | S754_finite s m e =>
      sign_bit prec emax s +
      if Z.pos m <? frac then Z.pos m else (e - emin prec emax + 1) * frac + (Z.pos m - frac)
  end.

Definition from_bits (prec emax : Z) (b : Z) : spec_float :=
  let frac := 2 ^ (prec - 1) in
  let s := 2 * emax * frac <=? b in
  let ex := b / frac mod (2 * emax) in
  let m := b mod frac in
  if ex =? 0 then match m with Z.pos m => S754_finite s m (emin prec emax) | _ => S754_zero s end
  else if ex =? 2 * emax - 1 then if m =? 0 then S754_infinity s else S754_nan
  else match m + frac with Z.pos m => S754_finite s m (ex - 1 + emin prec emax) | _ => S754_nan end.

(** [as f32] of a double, and [as f64] of a single. *)
Definition round_to (prec emax : Z) (f : spec_float) : spec_float :=
  match f with
  | S754_finite s m e => binary_normalize prec emax (if s then - Z.pos m else Z.pos m) e s
  | _ => f
  end.
Definition f32_of_f64 : f64 -> spec_float := round_to 24 128.
Definition f64_of_f32 : spec_float -> f64 := round_to 53 1024.

Definition f64_to_le_bytes (f : f64) : list ascii := to_le_bytes 8 (to_bits 53 1024 f).
Definition f32_to_le_bytes (f : spec_float) : list ascii := to_le_bytes 4 (to_bits 24 128 f).
Definition f64_from_le_bytes (l : list ascii) : f64 := from_bits 53 1024 (from_le_bytes l).
Definition f32_from_le_bytes (l : list ascii) : spec_float := from_bits 24 128 (from_le_bytes l).

(** ** Varints are read back *)

Lemma write_bits_small fuel v : 0 <= v < 128 -> write_bits fuel v = [byte_of v].
Proof.
  intros Hv. assert (Hb : Z.land v 127 = v).
  { change 127 with (Z.ones 7). rewrite Z.land_ones by lia. by apply Z.mod_small. }
  destruct fuel; cbn [write_bits]; rewrite Hb; [done|].
  by rewrite Z.shiftr_div_pow2, Z.div_small by lia.
Qed.

Lemma land_127 v : Z.land v 127 = v mod 128.
Proof. change 127 with (Z.ones 7). by rewrite Z.land_ones by lia. Qed.

Lemma high_bits a k i : 0 <= a < 2 ^ k -> 0 <= k <= i -> Z.testbit a i = false.
Proof. intros Ha Hk. rewrite <- (Z.mod_small a (2 ^ k)) by done. by apply Z.mod_pow2_bits_high. Qed.

Lemma lor_disjoint a b k : 0 <= k -> 0 <= a < 2 ^ k -> 0 <= b -> Z.lor a (b * 2 ^ k) = a + b * 2 ^ k.
Proof.
  intros Hk Ha Hb.
  assert (Hsplit : forall i, 0 <= i -> Z.testbit a i = false \/ Z.testbit (b * 2 ^ k) i = false).
  { intros i Hi. destruct (Z.lt_ge_cases i k).
    - right. by rewrite Z.mul_pow2_bits_low by lia.
    - left. by apply (high_bits a k). }
  rewrite Z.add_nocarry_lxor; apply Z.bits_inj'; intros i Hi.
  - rewrite Z.lor_spec, Z.lxor_spec. destruct (Hsplit i Hi) as [-> | ->]; [by destruct (Z.testbit _ _)|].
    by destruct (Z.testbit _ _).
  - rewrite Z.land_spec, Z.bits_0. destruct (Hsplit i Hi) as [-> | ->]; [done|apply andb_false_r].
Qed.

Lemma byte_bits b : code b = Z.land (code b) 127 + (if Z.land (code b) 128 =? 0 then 0 else 128).
Proof. by destruct b as [[] [] [] [] [] [] [] []]. Qed.

(** The bytes of a varint: seven bits, and whether another follows. *)
Lemma low_byte v : 0 <= v < 128 -> code (byte_of v) = v /\ Z.land v 127 = v /\ Z.land v 128 = 0.
Proof.
  intros Hv. split_and!; [apply code_byte; lia|by rewrite land_127, Z.mod_small|].
  apply Z.bits_inj'. intros i Hi. rewrite Z.land_spec, Z.bits_0. destruct (Z.lt_ge_cases i 7).
  - change 128 with (1 * 2 ^ 7). rewrite Z.mul_pow2_bits_low by done. apply andb_false_r.
  - by rewrite (high_bits v 7) by lia.
Qed.

Lemma high_byte v : 0 <= v < 128 ->
  code (byte_of (Z.lor v 128)) = v + 128 /\ Z.land (v + 128) 127 = v /\ (Z.land (v + 128) 128 =? 0) = false.
Proof.
  intros Hv. change 128 with (1 * 2 ^ 7) at 1. rewrite lor_disjoint by lia. change (1 * 2 ^ 7) with 128.
  assert (Hc : code (byte_of (v + 128)) = v + 128) by (apply code_byte; lia). split_and!; [done| |].
  - rewrite land_127. rewrite <- (Z.mul_1_l 128) at 1. rewrite Z.mod_add by lia. by apply Z.mod_small.
  - pose proof (byte_bits (byte_of (v + 128))) as Hb. rewrite Hc in Hb.
    rewrite land_127 in Hb. rewrite <- (Z.mul_1_l 128) in Hb at 2. rewrite Z.mod_add, Z.mod_small in Hb by lia.
    destruct (Z.land (v + 128) 128 =? 0); [lia|done].
Qed.

Definition shifts_from (j n : nat) : list Z := map (fun i => 7 * Z.of_nat i) (seq j n).

Lemma shifts_from_S j n : shifts_from j (S n) = 7 * Z.of_nat j :: shifts_from (S j) n.
Proof. done. Qed.

Lemma or_in result bits k : 0 <= k -> 0 <= result < 2 ^ k -> 0 <= bits -> bits * 2 ^ k < 2 ^ 64 ->
  Z.lor result (as_u64 (Z.shiftl bits k)) = result + bits * 2 ^ k.
Proof.
  intros Hk Hr Hb Hlt. rewrite Z.shiftl_mul_pow2 by done. unfold as_u64. rewrite Z.mod_small by lia.
  by apply lor_disjoint.
Qed.

Lemma read_write_bits n j v result rest : 0 <= v -> v * 2 ^ (7 * Z.of_nat j) < 2 ^ 64 -> (j + n)%nat = 9%nat ->
  0 <= result < 2 ^ (7 * Z.of_nat j) ->
  read_bits (shifts_from j (S n)) result (write_bits n v ++ rest) = Some (result + v * 2 ^ (7 * Z.of_nat j), rest).
Proof.
  revert j v result. induction n as [|n IH]; intros j v result Hv Hlt Hj Hr.
  all: set (k := 7 * Z.of_nat j) in *; assert (Hk : 0 <= k) by lia.
  all: rewrite shifts_from_S; fold k.
  - assert (v < 128).
    { assert (k = 63) as Hk63 by lia. rewrite Hk63 in Hlt. change (2 ^ 64) with (2 * 2 ^ 63) in Hlt. lia. }
    rewrite write_bits_small by lia. cbn [app read_bits]. destruct (low_byte v) as (-> & -> & ->); [lia|].
    rewrite Z.eqb_refl. by rewrite or_in.
  - cbn [write_bits]. rewrite Z.shiftr_div_pow2 by lia. change (2 ^ 7) with 128. rewrite land_127.
    pose proof (Z.mod_pos_bound v 128 ltac:(lia)). pose proof (Z.div_mod v 128 ltac:(lia)) as Hdm.
    assert (0 < 2 ^ k) by (apply Z.pow_pos_nonneg; lia).
    destruct (Z.eqb_spec (v / 128) 0) as [Hz|Hnz].
    + cbn [app read_bits]. destruct (low_byte (v mod 128)) as (-> & -> & ->); [lia|].
      rewrite Z.eqb_refl. replace (v mod 128) with v by lia. by rewrite or_in.
    + cbn [app read_bits]. destruct (high_byte (v mod 128)) as (-> & -> & ->); [lia|].
      rewrite or_in; [|done|done|lia|nia].
      assert (Hpow : 2 ^ (7 * Z.of_nat (S j)) = 128 * 2 ^ k).
      { replace (7 * Z.of_nat (S j)) with (7 + k) by lia. by rewrite Z.pow_add_r by lia. }
      rewrite IH; [|apply Z.div_pos; lia|rewrite Hpow; nia|lia|rewrite Hpow; nia].
      rewrite Hpow. f_equal. f_equal. nia.
Qed.

(** A [u64] is read back from its varint. *)
Lemma read_write_varint v rest : 0 <= v <= u64_max -> read_varint (write_varint v ++ rest) = Some (v, rest).
Proof.
  intros Hv. unfold u64_max in Hv. unfold read_varint, write_varint. change shifts with (shifts_from 0 10).
  rewrite (read_write_bits 9 0); [f_equal; f_equal; simpl; lia|lia|simpl; lia|done|simpl; lia].
Qed.

(** A varint that is read takes at least a byte. *)
Lemma read_bits_shorter l result s v r : read_bits l result s = Some (v, r) -> (length r < length s)%nat.
Proof.
  revert result s. induction l as [|k l IH]; intros result [|b s]; cbn [read_bits]; try done.
  destruct (_ =? 0); [intros [= _ ->]; simpl; lia|]. intros Hr. apply IH in Hr. simpl. lia.
Qed.

Lemma read_varint_shorter s v r : read_varint s = Some (v, r) -> (length r < length s)%nat.
Proof. apply read_bits_shorter. Qed.

(** ** Fixed widths are read back *)

Lemma to_le_bytes_length n z : length (to_le_bytes n z) = n.
Proof. revert z. induction n as [|n IH]; intros z; simpl; [done|]. by rewrite IH. Qed.

Lemma from_to_le_bytes n z : 0 <= z < 256 ^ Z.of_nat n -> from_le_bytes (to_le_bytes n z) = z.
Proof.
  revert z. induction n as [|n IH]; intros z Hz; cbn [to_le_bytes from_le_bytes]; [simpl in Hz; lia|].
  rewrite Nat2Z.inj_succ, Z.pow_succ_r in Hz by lia.
  rewrite code_byte by (apply Z.mod_pos_bound; lia). rewrite IH.
  - pose proof (Z.div_mod z 256). lia.
  - split; [apply Z.div_pos; lia|]. apply Z.div_lt_upper_bound; lia.
Qed.

Lemma take_bytes_app n l rest : n = Z.of_nat (length l) -> take_bytes n (l ++ rest) = Some (l, rest).
Proof.
  intros ->. unfold take_bytes. rewrite length_app, Nat2Z.id.
  destruct (Z.ltb_spec (Z.of_nat (length l + length rest)) (Z.of_nat (length l))); [lia|].
  by rewrite take_app_length, drop_app_length.
Qed.

Lemma take_bytes_suffix n s l r : take_bytes n s = Some (l, r) -> s = l ++ r /\ length l = Z.to_nat n.
Proof.
  unfold take_bytes. destruct (Z.ltb_spec (Z.of_nat (length s)) n); [done|]. intros [= <- <-].
  rewrite take_drop. split; [done|]. rewrite length_take. lia.
Qed.

(** ** Floating-point numbers are read back *)

Lemma digits2_pos_spec m : 2 ^ (Z.pos (digits2_pos m) - 1) <= Z.pos m < 2 ^ Z.pos (digits2_pos m).
Proof.
  assert (Hs : forall d, 2 ^ (Z.pos (Pos.succ d) - 1) = 2 * 2 ^ (Z.pos d - 1) /\ 2 ^ Z.pos (Pos.succ d) = 2 * 2 ^ Z.pos d).
  { intros d. rewrite Pos2Z.inj_succ. rewrite <- !Z.pow_succ_r by lia. split; f_equal; lia. }
  induction m as [m IH|m IH|]; cbn [digits2_pos]; [| |done]; destruct (Hs (digits2_pos m)) as [-> ->]; lia.
Qed.

Section floats.
Context (prec emax : Z) (Hprec : 1 < prec) (Hemax : prec < emax).
#[local] Abbreviation frac := (2 ^ (prec - 1)).

Lemma frac_pos : 0 < frac.
Proof using Hprec. apply Z.pow_pos_nonneg; lia. Qed.

Lemma fields_of_bits s ex m : 0 <= m < frac -> 0 <= ex < 2 * emax ->
  let b := sign_bit prec emax s + (ex * frac + m) in
  (2 * emax * frac <=? b) = s /\ b / frac mod (2 * emax) = ex /\ b mod frac = m /\ 0 <= b < 4 * emax * frac.
Proof using Hprec Hemax.
  intros Hm He. pose proof frac_pos. unfold sign_bit. cbn zeta.
  assert (Hb : (if s then 2 * emax * frac else 0) + (ex * frac + m) = ((if s then 2 * emax else 0) + ex) * frac + m)
    by (destruct s; lia).
  rewrite Hb. split_and!.
  - destruct s; [apply Z.leb_le; nia|apply Z.leb_gt; nia].
  - rewrite Z.div_add_l by lia. rewrite (Z.div_small m) by done. rewrite Z.add_0_r.
    destruct s; [|by apply Z.mod_small]. rewrite <- (Z.mul_1_l (2 * emax)) at 1.
    rewrite Z.add_comm, Z.mod_add by lia. by apply Z.mod_small.
  - rewrite Z.add_comm, Z.mod_add by lia. by apply Z.mod_small.
  - destruct s; nia.
  - destruct s; nia.
Qed.

(** A number the format can hold, with the exponent field and the fraction of its bits. *)
Lemma finite_bits s m e : bounded prec emax m e = true ->
  exists ex fr, to_bits prec emax (S754_finite s m e) = sign_bit prec emax s + (ex * frac + fr) /\
    0 <= fr < frac /\ 0 <= ex < 2 * emax - 1 /\
    (ex = 0 /\ fr = Z.pos m /\ e = emin prec emax \/ 0 < ex /\ fr + frac = Z.pos m /\ ex - 1 + emin prec emax = e).
Proof using Hprec Hemax.
  intros Hb. pose proof frac_pos. unfold bounded, canonical_mantissa, fexp in Hb.
  rewrite andb_true_iff, Z.eqb_eq, Z.leb_le in Hb. destruct Hb as [Hc He].
  destruct (digits2_pos_spec m) as [Hlo Hhi]. set (d := Z.pos (digits2_pos m)) in *.
  assert (Hdp : d <= prec) by lia. unfold to_bits. destruct (Z.ltb_spec (Z.pos m) frac) as [Hlt|Hge].
  - exists 0, (Z.pos m). split; [lia|]. split; [lia|]. split; [lia|]. left. split_and!; [done|done|].
    assert (d < prec); [|lia]. destruct (Z.lt_ge_cases d prec); [done|].
    assert (frac <= 2 ^ (d - 1)) by (apply Z.pow_le_mono_r; lia). lia.
  - exists (e - emin prec emax + 1), (Z.pos m - frac).
    assert (Z.pos m < 2 * frac).
    { rewrite <- Z.pow_succ_r by lia. eapply Z.lt_le_trans; [exact Hhi|]. apply Z.pow_le_mono_r; lia. }
    split; [lia|]. split; [lia|]. unfold emin in *. split; [lia|]. right. lia.
Qed.

(** The bits of every value of the format but a NaN determine it, and fit its width. *)
Lemma from_to_bits f : valid_binary prec emax f = true -> is_nan f = false ->
  from_bits prec emax (to_bits prec emax f) = f /\ 0 <= to_bits prec emax f < 4 * emax * frac.
Proof using Hprec Hemax.
  intros Hv Hn. pose proof frac_pos. destruct f as [s|s| |s m e]; [| |done|].
  - destruct (fields_of_bits s 0 0) as (H1 & H2 & H3 & H4); [lia|lia|]. rewrite Z.add_0_r in *.
    unfold from_bits. cbn [to_bits]. rewrite H1, H2, H3. by rewrite Z.eqb_refl.
  - destruct (fields_of_bits s (2 * emax - 1) 0) as (H1 & H2 & H3 & H4); [lia|lia|]. rewrite Z.add_0_r in *.
    unfold from_bits. cbn [to_bits]. rewrite H1, H2, H3. rewrite (proj2 (Z.eqb_neq _ 0)) by lia. by rewrite !Z.eqb_refl.
  - destruct (finite_bits s m e Hv) as (ex & fr & -> & Hfr & Hex & Hcase).
    destruct (fields_of_bits s ex fr) as (H1 & H2 & H3 & H4); [done|lia|].
    unfold from_bits. rewrite H1, H2, H3. split; [|done]. destruct Hcase as [(-> & -> & <-)|(Hpos & Hm & He)]; [done|].
    rewrite (proj2 (Z.eqb_neq ex 0)), (proj2 (Z.eqb_neq ex (2 * emax - 1))) by lia. by rewrite Hm, He.
Qed.
End floats.

Lemma f64_bytes f : valid_binary 53 1024 f = true -> is_finite f = true -> f64_from_le_bytes (f64_to_le_bytes f) = f.
Proof.
  intros Hv Hf. assert (Hn : is_nan f = false) by (by destruct f).
  destruct (from_to_bits 53 1024 ltac:(lia) ltac:(lia) f Hv Hn) as [Heq Hr].
  unfold f64_from_le_bytes, f64_to_le_bytes. rewrite from_to_le_bytes; [done|]. exact Hr.
Qed.

Lemma f32_bytes f : valid_binary 24 128 f = true -> is_finite f = true -> f32_from_le_bytes (f32_to_le_bytes f) = f.
Proof.
  intros Hv Hf. assert (Hn : is_nan f = false) by (by destruct f).
  destruct (from_to_bits 24 128 ltac:(lia) ltac:(lia) f Hv Hn) as [Heq Hr].
  unfold f32_from_le_bytes, f32_to_le_bytes. rewrite from_to_le_bytes; [done|]. exact Hr.
Qed.

Example pi_bits : to_bits 53 1024 (f64_div (f64_of_Z 22) (f64_of_Z 7)) = 4614259503928742473
  /\ to_bits 24 128 (f32_of_f64 (f64_div (f64_of_Z 1) (f64_of_Z 10))) = 1036831949.
Proof. by vm_compute. Qed.
