(* ===== verification/Protobuf.v ===== *)
(** * The protobuf codec ([ProtobufCodec] of [crates/rekuiper-connectors/src/codec.rs])

    Records as protobuf messages, following a message definition: decoding and encoding on
    the wire types of Wire.v.  Both recurse on the definition for nested messages; the loop
    of the decoder takes fuel for its turns, of which the number of bytes is enough.
    Positions in the byte array are the bytes that are left. *)

From Stdlib Require Import SpecFloat Ascii.
From S2P Require Import Prelude Rust Characters Json Ast Engine Values Numbers Delimited Wire.

Set Default Goal Selector "!".

(** ** Message definitions *)

Record ProtoField := mkField { f_name : string; proto_type : string; number : Z; repeated : bool }.

#[local] Set Warnings "-register-all".

(** The nested definitions by name. *)
Inductive ProtoMessage := mkMessage (name : string) (fields : list ProtoField) (nested : list (string * ProtoMessage)).

(** [f] of the nested definition of type [ty]. *)
Definition nested_with {B} (f : ProtoMessage -> B) (ty : string) : list (string * ProtoMessage) -> option B :=
  fix go l :=
    match l with
    | [] => None
    | (name, m) :: r => if bool_decide (name = ty) then Some (f m) else go r
    end.

(** ** Conversions of values *)

Definition num_to_i64 (v : value) : option Z :=
  match v with
  | VNumber (PosInt u) => if u <=? i64_max then Some u else None
  | VNumber (NegInt i) => Some i
  | VNumber (Float f) => if is_finite f then Some (f64_as_i64 f) else None
  | VString s => parse_i64 (trim_str s)
  | VBool b => Some (if b then 1 else 0)
  | _ => None
  end.

Definition num_to_u64 (v : value) : option Z :=
  match v with
  | VNumber (PosInt u) => Some u
  | VNumber (NegInt i) => None
  | VNumber (Float f) => if is_finite f && f64_leb f64_zero f then Some (f64_as_u64 f) else None
  | VString s => parse_u64 (trim_str s)
  | VBool b => Some (if b then 1 else 0)
  | _ => None
  end.

Definition value_to_bool (v : value) : option bool :=
  match v with
  | VBool b => Some b
  | VNumber n => Some (negb (SFeqb (number_as_f64 n) f64_zero))
  | VString s =>
      let t := to_ascii_lowercase (trim_str s) in
      if bool_decide (t = "true" \/ t = "1") then Some true
      else if bool_decide (t = "false" \/ t = "0") then Some false
      else None
  | _ => None
  end.

(** ** Decoding *)

(** A result, malformed input, or no fuel. *)
Inductive decoded (A : Type) := Good (a : A) | Malformed | Fuel.
Arguments Good {A}.
Arguments Malformed {A}.
Arguments Fuel {A}.

Abbreviation bytes := (list ascii).

Definition or_malformed {A B} (o : option A) (f : A -> decoded B) : decoded B :=
  match o with Some a => f a | None => Malformed end.

(** The bytes after a field that is skipped. *)
Definition skip_field (wire_type : Z) (s : bytes) : option bytes :=
  if wire_type =? 0 then snd <$> read_varint s
  else if wire_type =? 1 then snd <$> take_bytes 8 s
  else if wire_type =? 2 then '(len, s) ← read_varint s; snd <$> take_bytes len s
  else if wire_type =? 5 then snd <$> take_bytes 4 s
  else None.

Definition read_len_bytes (s : bytes) : option (bytes * bytes) := '(len, s) ← read_varint s; take_bytes len s.

(** The value of a varint field. *)
Definition varint_value (ty : string) : option (Z -> value) :=
  let unzigzag v := Z.lxor (Z.shiftr v 1) (- Z.land v 1) in
  if bool_decide (ty = "int32") then Some (fun v => value_of_i64 (wrap32 v))
  else if bool_decide (ty = "int64") then Some (fun v => value_of_i64 (wrap64 v))
  else if bool_decide (ty = "uint32") then Some (fun v => VNumber (PosInt (as_u32 v)))
  else if bool_decide (ty = "uint64") then Some (fun v => VNumber (PosInt v))
  else if bool_decide (ty = "sint32") then Some (fun v => value_of_i64 (wrap32 (unzigzag v)))
  else if bool_decide (ty = "sint64") then Some (fun v => value_of_i64 (unzigzag v))
  else if bool_decide (ty = "bool") then Some (fun v => VBool (negb (v =? 0)))
  else None.

Definition finite_number (f : f64) : option value := if is_finite f then Some (VNumber (Float f)) else None.

(** The width of a fixed field, its wire type, and its value; none when it is not a JSON
    number. *)
Definition fixed_value (ty : string) : option (Z * Z * (bytes -> option value)) :=
  if bool_decide (ty = "float") then Some (4, 5, fun raw => finite_number (f64_of_f32 (f32_from_le_bytes raw)))
  else if bool_decide (ty = "double") then Some (8, 1, fun raw => finite_number (f64_from_le_bytes raw))
  else if bool_decide (ty = "fixed64") then Some (8, 1, fun raw => Some (VNumber (PosInt (from_le_bytes raw))))
  else if bool_decide (ty = "sfixed64") then Some (8, 1, fun raw => Some (value_of_i64 (wrap64 (from_le_bytes raw))))
  else if bool_decide (ty = "fixed32") then Some (4, 5, fun raw => Some (VNumber (PosInt (from_le_bytes raw))))
  else if bool_decide (ty = "sfixed32") then Some (4, 5, fun raw => Some (value_of_i64 (wrap32 (from_le_bytes raw))))
  else None.

Section codec.
Context `{Base64} `{Text}.

(** The value of a length-delimited field of a known type. *)
Definition length_value (ty : string) : option (bytes -> value) :=
  if bool_decide (ty = "string") then Some (fun raw => VString (to_str (from_utf8_lossy raw)))
  else if bool_decide (ty = "bytes") then Some (fun raw => VString (b64_encode raw))
  else None.

Definition skip_known (wire_type : Z) (s : bytes) : decoded (option value * bytes) :=
  or_malformed (skip_field wire_type s) (fun s => Good (None, s)).

(** A nested message (skipped when it is malformed), or a pairing of type and wire type that
    is not known. *)
Definition decode_other (nested : option (bytes -> decoded value)) (wire_type : Z) (s : bytes)
    : decoded (option value * bytes) :=
  match (if wire_type =? 2 then nested else None) with
  | Some decode =>
      or_malformed (read_len_bytes s) (fun '(raw, s) =>
        match decode raw with Good v => Good (Some v, s) | Malformed => Good (None, s) | Fuel => Fuel end)
  | None => skip_known wire_type s
  end.

(** One field whose number is known: its value (none when the field is skipped) and the
    bytes after it.  [nested] decodes its type as a nested message. *)
Definition decode_field_sized (nested : option (bytes -> decoded value)) (ty : string) (wire_type : Z) (s : bytes)
    : decoded (option value * bytes) :=
  match (if wire_type =? 2 then length_value ty else None), fixed_value ty with
  | Some value_of, _ => or_malformed (read_len_bytes s) (fun '(raw, s) => Good (Some (value_of raw), s))
  | None, Some (width, wt, value_of) =>
      if wire_type =? wt then or_malformed (take_bytes width s) (fun '(raw, s) => Good (value_of raw, s))
      else decode_other nested wire_type s
  | None, None => decode_other nested wire_type s
  end.

Definition decode_field (nested : option (bytes -> decoded value)) (ty : string) (wire_type : Z) (s : bytes)
    : decoded (option value * bytes) :=
  match (if wire_type =? 0 then varint_value ty else None) with
  | Some value_of => or_malformed (read_varint s) (fun '(v, s) => Good (Some (value_of v), s))
  | None => decode_field_sized nested ty wire_type s
  end.

(** A decoded value in the object: the values of a repeated field are collected. *)
Definition add_value (field : ProtoField) (v : value) (map : row) : row :=
  <[f_name field :=
      if repeated field then
        match map !! f_name field with
        | Some (VArray arr) => VArray (arr ++ [v])
        | Some prev => VArray [prev; v]
        | None => VArray [v]
        end
      else v]> map.

(** The loop of [decode_inner]; [nested] decodes the nested messages of a type. *)
Fixpoint decode_loop (nested : string -> option (bytes -> decoded value)) (fields : list ProtoField) (n : nat)
    (map : row) (s : bytes) : decoded value :=
  match s, n with
  | [], _ => Good (row_to_value map)
  | _, O => Fuel
  | _, S n =>
      or_malformed (read_varint s) (fun '(tag, s) =>
        let wire_type := Z.land tag 7 in
        match List.find (fun f => number f =? as_u32 (Z.shiftr tag 3)) fields with
        | None => or_malformed (skip_field wire_type s) (decode_loop nested fields n map)
        | Some field =>
            match decode_field (nested (proto_type field)) (proto_type field) wire_type s with
            | Good (Some v, s) => decode_loop nested fields n (add_value field v map) s
            | Good (None, s) => decode_loop nested fields n map s
            | Malformed => Malformed
            | Fuel => Fuel
            end
        end)
  end.

Fixpoint decode_inner (msg : ProtoMessage) (s : bytes) : decoded value :=
  match msg with
  | mkMessage _ fields nested => decode_loop (fun ty => nested_with decode_inner ty nested) fields (length s) ∅ s
  end.

Definition decode (s : bytes) (msg : ProtoMessage) : value :=
  match decode_inner msg s with Good v => v | _ => VNull end.

(** ** Encoding *)

Definition float_of_value (v : value) : option f64 :=
  match as_f64 v with Some f => Some f | None => f64_of_Z <$> num_to_i64 v end.

(** A varint field: the number written for a value. *)
Definition varint_of (ty : string) : option (value -> option Z) :=
  if bool_decide (ty = "int32") then Some (fun v => as_u64 ∘ wrap32 <$> num_to_i64 v)
  else if bool_decide (ty = "int64") then Some (fun v => as_u64 <$> num_to_i64 v)
  else if bool_decide (ty = "uint32" \/ ty = "uint64") then Some num_to_u64
  else if bool_decide (ty = "sint32") then
    Some (fun v => i ← num_to_i64 v; let i := wrap32 i in
                   Some (as_u32 (Z.lxor (wrap32 (Z.shiftl i 1)) (Z.shiftr i 31))))
  else if bool_decide (ty = "sint64") then
    Some (fun v => i ← num_to_i64 v; Some (as_u64 (Z.lxor (wrap64 (Z.shiftl i 1)) (Z.shiftr i 63))))
  else if bool_decide (ty = "bool") then Some (fun v => (fun b : bool => if b then 1 else 0) <$> value_to_bool v)
  else None.

(** A fixed field: its wire type and the bytes written for a value. *)
Definition fixed_of (ty : string) : option (Z * (value -> option bytes)) :=
  if bool_decide (ty = "float") then
    Some (5, fun v => match float_of_value v with
                      | Some f => Some (f32_to_le_bytes (f32_of_f64 f))
                      | None => s ← as_str v; f ← parse_float 24 128 (trim_str s); Some (f32_to_le_bytes f)
                      end)
  else if bool_decide (ty = "double") then
    Some (1, fun v => match float_of_value v with
                      | Some f => Some (f64_to_le_bytes f)
                      | None => s ← as_str v; f ← parse_f64 (trim_str s); Some (f64_to_le_bytes f)
                      end)
  else if bool_decide (ty = "fixed64") then Some (1, fun v => to_le_bytes 8 <$> num_to_u64 v)
  else if bool_decide (ty = "sfixed64") then Some (1, fun v => to_le_bytes 8 ∘ as_u64 <$> num_to_i64 v)
  else if bool_decide (ty = "fixed32") then Some (5, fun v => to_le_bytes 4 ∘ as_u32 <$> num_to_u64 v)
  else if bool_decide (ty = "sfixed32") then Some (5, fun v => to_le_bytes 4 ∘ as_u32 <$> num_to_i64 v)
  else None.

(** A text or bytes field: the bytes written for a value; nothing for null. *)
Definition length_of (ty : string) : option (value -> option bytes) :=
  if bool_decide (ty = "string") then
    Some (fun v => match v with VString s => Some (chars s) | VNull => None | _ => Some (chars (value_to_string v)) end)
  else if bool_decide (ty = "bytes") then
    Some (fun v => match v with
                   | VString s => Some (default (chars s) (b64_decode (trim_str s)))
                   | VNull => None
                   | _ => Some (chars (value_to_string v))
                   end)
  else None.

Definition length_delimited (number : Z) (raw : bytes) : bytes :=
  write_tag number 2 ++ write_varint (Z.of_nat (length raw)) ++ raw.

(** One value of a field; [nested] encodes its type as a nested message.  A value that
    cannot be converted writes nothing. *)
Definition encode_field (nested : option (value -> bytes)) (field : ProtoField) (v : value) : bytes :=
  let ty := proto_type field in
  match varint_of ty, fixed_of ty, length_of ty with
  | Some f, _, _ => from_option (fun z => write_tag (number field) 0 ++ write_varint z) [] (f v)
  | _, Some (wt, f), _ => from_option (fun raw => write_tag (number field) wt ++ raw) [] (f v)
  | _, _, Some f => from_option (length_delimited (number field)) [] (f v)
  | None, None, None =>
      match v, nested with VObject _, Some encode => length_delimited (number field) (encode v) | _, _ => [] end
  end.

(** The values a field writes: the items of an array when it is repeated. *)
Definition field_values (field : ProtoField) (m : list (string * value)) : list value :=
  match object_get (f_name field) m with
  | Some (VArray items) => if repeated field then items else [VArray items]
  | Some v => [v]
  | None => []
  end.

Fixpoint encode_message (msg : ProtoMessage) (v : value) : bytes :=
  match msg, v with
  | mkMessage _ fields nested, VObject m =>
      flat_map (fun field =>
        flat_map (encode_field (nested_with encode_message (proto_type field) nested) field) (field_values field m)) fields
  | _, _ => []
  end.

Definition encode (v : value) (msg : ProtoMessage) : bytes := encode_message msg v.
End codec.

(** Induction on message definitions, with the hypothesis on every nested one. *)
Section message_induction.
Context (P : ProtoMessage -> Prop)
  (HM : forall name fields nested, Forall (fun km => P km.2) nested -> P (mkMessage name fields nested)).

Fixpoint ProtoMessage_ind' (m : ProtoMessage) : P m :=
  match m with
  | mkMessage name fields nested =>
      HM name fields nested
        ((fix go (l : list (string * ProtoMessage)) : Forall (fun km => P km.2) l :=
            match l with
            | [] => Forall_nil_2 _
            | (k, m) :: r => Forall_cons_2 _ (k, m) _ (ProtoMessage_ind' m) (go r)
            end) nested)
  end.
End message_induction.

Lemma nested_with_cons {B} (f : ProtoMessage -> B) ty k m l :
  nested_with f ty ((k, m) :: l) = if bool_decide (k = ty) then Some (f m) else nested_with f ty l.
Proof. done. Qed.

Lemma nested_with_spec {B} (f : ProtoMessage -> B) ty l :
  match nested_with f ty l with
  | Some b => exists k m, (k, m) ∈ l /\ b = f m /\ forall C (g : ProtoMessage -> C), nested_with g ty l = Some (g m)
  | None => forall C (g : ProtoMessage -> C), nested_with g ty l = None
  end.
Proof.
  induction l as [|[k m] l IH]; [done|]. rewrite nested_with_cons. destruct (bool_decide (k = ty)) eqn:Hk.
  - exists k, m. split_and!; [apply list_elem_of_here|done|]. intros C g. by rewrite nested_with_cons, Hk.
  - destruct (nested_with f ty l) as [b|].
    + destruct IH as (k' & m' & Hin & Hb & Hg). exists k', m'. split_and!; [by right|done|].
      intros C g. rewrite nested_with_cons, Hk. apply Hg.
    + intros C g. rewrite nested_with_cons, Hk. apply IH.
Qed.

(** ** Decoding always returns *)

Section totality.
Context `{Base64} `{Text}.

(** A result that is not out of fuel, and leaves no more than [s]. *)
Definition sound {A} (s : bytes) (r : decoded (A * bytes)) : Prop :=
  match r with Good (_, r) => (length r <= length s)%nat | Malformed => True | Fuel => False end.

Lemma take_bytes_le n s l r : take_bytes n s = Some (l, r) -> (length r <= length s)%nat.
Proof. intros Ht. apply take_bytes_suffix in Ht as [-> _]. rewrite length_app. lia. Qed.

Lemma read_len_le s raw r : read_len_bytes s = Some (raw, r) -> (length r <= length s)%nat.
Proof.
  unfold read_len_bytes. destruct (read_varint s) as [[len s']|] eqn:Hv; [|done]. simpl. intros Ht.
  apply read_varint_shorter in Hv. apply take_bytes_le in Ht. lia.
Qed.

Lemma skip_field_le wt s r : skip_field wt s = Some r -> (length r <= length s)%nat.
Proof.
  unfold skip_field. intros Hs.
  destruct (wt =? 0); [|destruct (wt =? 1); [|destruct (wt =? 2); [|destruct (wt =? 5); [|done]]]].
  - apply fmap_Some in Hs as ([v r'] & Hv & ->). apply read_varint_shorter in Hv. simpl. lia.
  - apply fmap_Some in Hs as ([v r'] & Hv & ->). by apply take_bytes_le in Hv.
  - destruct (read_varint s) as [[len s']|] eqn:Hv; [|done]. simpl in Hs. apply read_varint_shorter in Hv.
    apply fmap_Some in Hs as ([v r'] & Ht & ->). apply take_bytes_le in Ht. simpl. lia.
  - apply fmap_Some in Hs as ([v r'] & Hv & ->). by apply take_bytes_le in Hv.
Qed.

Lemma decode_field_sound nested ty wt s : (forall f, nested = Some f -> forall raw, f raw <> Fuel) ->
  sound s (decode_field nested ty wt s).
Proof.
  intros Hn.
  assert (Hother : sound s (decode_other nested wt s)).
  { unfold decode_other. destruct (if wt =? 2 then nested else None) as [f|] eqn:Hf.
    - assert (Hf' : nested = Some f) by (by destruct (wt =? 2)).
      destruct (read_len_bytes s) as [[raw r]|] eqn:Hr; [|done]. apply read_len_le in Hr. simpl.
      specialize (Hn f Hf' raw). by destruct (f raw).
    - unfold skip_known. destruct (skip_field wt s) as [r|] eqn:Hs; [|done]. by apply skip_field_le in Hs. }
  unfold decode_field. destruct (if wt =? 0 then varint_value ty else None) as [value_of|].
  { destruct (read_varint s) as [[v r]|] eqn:Hr; [|done]. apply read_varint_shorter in Hr. simpl. lia. }
  unfold decode_field_sized. destruct (if wt =? 2 then length_value ty else None) as [value_of|].
  { destruct (read_len_bytes s) as [[raw r]|] eqn:Hr; [|done]. by apply read_len_le in Hr. }
  destruct (fixed_value ty) as [[[width wt'] f]|]; [|done]. destruct (wt =? wt'); [|done].
  destruct (take_bytes width s) as [[raw r]|] eqn:Hr; [|done]. by apply take_bytes_le in Hr.
Qed.

Lemma decode_loop_total nested fields n map s :
  (forall ty f, nested ty = Some f -> forall raw, f raw <> Fuel) -> (length s <= n)%nat ->
  decode_loop nested fields n map s <> Fuel /\
  forall n', (length s <= n')%nat -> decode_loop nested fields n' map s = decode_loop nested fields n map s.
Proof.
  intros Hn. revert map s. induction n as [|n IH]; intros map s Hl.
  { destruct s; [|simpl in Hl; lia]. split; [done|]. by intros []. }
  destruct s as [|b s]; [split; [done|by intros []]|].
  assert (Hnext : forall map r, (length r < length (b :: s))%nat -> decode_loop nested fields n map r <> Fuel /\
    forall n', (S (length r) <= n')%nat -> decode_loop nested fields (pred n') map r = decode_loop nested fields n map r).
  { intros map' r Hr. destruct (IH map' r) as [H1 H2]; [simpl in *; lia|]. split; [done|]. intros n' Hn'. apply H2. lia. }
  cbn [decode_loop]. set (s0 := b :: s) in *.
  assert (Hstep : forall n', (length s0 <= n')%nat -> decode_loop nested fields n' map s0 =
    or_malformed (read_varint s0) (fun '(tag, s) =>
        match List.find (fun f => number f =? as_u32 (Z.shiftr tag 3)) fields with
        | None => or_malformed (skip_field (Z.land tag 7) s) (decode_loop nested fields (pred n') map)
        | Some field =>
            match decode_field (nested (proto_type field)) (proto_type field) (Z.land tag 7) s with
            | Good (Some v, s) => decode_loop nested fields (pred n') (add_value field v map) s
            | Good (None, s) => decode_loop nested fields (pred n') map s
            | Malformed => Malformed
            | Fuel => Fuel
            end
        end)).
  { intros [|n'] Hn'; [simpl in Hn'; lia|]. done. }
  destruct (read_varint s0) as [[tag r]|] eqn:Hr.
  2: { split; [done|]. intros n' Hn'. by rewrite Hstep. }
  pose proof (read_varint_shorter _ _ _ Hr) as Hlt. cbn [or_malformed] in *.
  destruct (List.find _ fields) as [field|].
  - pose proof (decode_field_sound (nested (proto_type field)) (proto_type field) (Z.land tag 7) r (Hn _)) as Hf.
    destruct (decode_field _ _ _ r) as [[[v|] r']| |]; simpl in Hf; [| | |done].
    + destruct (Hnext (add_value field v map) r') as [H1 H2]; [lia|]. split; [done|]. intros n' Hn'.
      rewrite Hstep by done. apply H2. lia.
    + destruct (Hnext map r') as [H1 H2]; [lia|]. split; [done|]. intros n' Hn'. rewrite Hstep by done. apply H2. lia.
    + split; [done|]. intros n' Hn'. by rewrite Hstep.
  - destruct (skip_field _ r) as [r'|] eqn:Hs; cbn [or_malformed] in *.
    + apply skip_field_le in Hs. destruct (Hnext map r') as [H1 H2]; [lia|]. split; [done|]. intros n' Hn'.
      rewrite Hstep by done. apply H2. lia.
    + split; [done|]. intros n' Hn'. by rewrite Hstep.
Qed.

Lemma decode_inner_total msg s : decode_inner msg s <> Fuel.
Proof.
  revert s. induction msg as [name fields nested IH] using ProtoMessage_ind'. intros s. cbn [decode_inner].
  apply decode_loop_total; [|done]. intros ty f Hf raw.
  pose proof (nested_with_spec decode_inner ty nested) as Hs. rewrite Hf in Hs.
  destruct Hs as (k & m & Hin & -> & _). rewrite list.Forall_forall in IH. by apply (IH (k, m)).
Qed.
End totality.
