(* ===== verification/ProtobufFacts.v ===== *)
(** * Encoding and decoding protobuf messages

    [decode] inverts [encode] on the values of a message definition: every scalar type,
    nested messages and repeated fields.  The proof follows the encoder: each value it
    writes is read back by one turn of the decoder's loop ([value_roundtrip]), and the loop
    rebuilds the object field by field. *)

From Stdlib Require Import SpecFloat Ascii.
From S2P Require Import Prelude Rust Characters Json Ast Engine Values Objects Numbers Delimited Wire Protobuf.

Set Default Goal Selector "!".

(** ** Integers that change width and sign *)

Lemma as_u64_wrap x y : (exists k, x = y + k * 2 ^ 64) -> as_u64 x = as_u64 y.
Proof. intros [k ->]. unfold as_u64. by rewrite Z.mod_add. Qed.

Lemma as_u32_wrap x y : (exists k, x = y + k * 2 ^ 32) -> as_u32 x = as_u32 y.
Proof. intros [k ->]. unfold as_u32. by rewrite Z.mod_add. Qed.

Lemma wrap64_spec x : exists k, wrap64 x = x + k * 2 ^ 64.
Proof.
  exists (- ((x + 2 ^ 63) / 2 ^ 64)). unfold wrap64. pose proof (Z.div_mod (x + 2 ^ 63) (2 ^ 64) ltac:(lia)). lia.
Qed.

Lemma wrap32_spec x : exists k, wrap32 x = x + k * 2 ^ 32.
Proof.
  exists (- ((x + 2 ^ 31) / 2 ^ 32)). unfold wrap32. pose proof (Z.div_mod (x + 2 ^ 31) (2 ^ 32) ltac:(lia)). lia.
Qed.

Lemma wrap32_id i : in_i32 i -> wrap32 i = i.
Proof. unfold in_i32, wrap32. intros Hi. rewrite Z.mod_small; lia. Qed.

Lemma wrap32_shift i k : wrap32 (i + k * 2 ^ 32) = wrap32 i.
Proof. unfold wrap32. f_equal. replace (i + k * 2 ^ 32 + 2 ^ 31) with (i + 2 ^ 31 + k * 2 ^ 32) by lia. by apply Z.mod_add. Qed.

Lemma mod_shift i m : 0 < m -> exists k, i mod m = i + k * m.
Proof. intros Hm. exists (- (i / m)). pose proof (Z.div_mod i m). lia. Qed.

Lemma wrap64_u64 i : in_i64 i -> wrap64 (as_u64 i) = i.
Proof.
  intros Hi. rewrite <- (wrap64_id i Hi) at 2. unfold wrap64, as_u64. f_equal. by rewrite Zplus_mod_idemp_l.
Qed.

Lemma wrap32_u32 i : in_i32 i -> wrap32 (as_u32 i) = i.
Proof.
  intros Hi. unfold as_u32. destruct (mod_shift i (2 ^ 32)) as [k ->]; [lia|]. rewrite wrap32_shift. by apply wrap32_id.
Qed.

Lemma wrap32_u64 i : in_i32 i -> wrap32 (as_u64 i) = i.
Proof.
  intros Hi. unfold as_u64. destruct (mod_shift i (2 ^ 64)) as [k ->]; [lia|].
  replace (k * 2 ^ 64) with (k * 2 ^ 32 * 2 ^ 32) by lia. rewrite wrap32_shift. by apply wrap32_id.
Qed.

Lemma in_i32_i64 i : in_i32 i -> in_i64 i.
Proof. unfold in_i32, in_i64, i64_min, i64_max. lia. Qed.

(** The zigzag form of an integer, and back. *)
Definition zigzag (i : Z) : Z := if i <? 0 then - 2 * i - 1 else 2 * i.

Lemma unzigzag i : Z.lxor (Z.shiftr (zigzag i) 1) (- Z.land (zigzag i) 1) = i.
Proof.
  rewrite Z.shiftr_div_pow2 by lia. change (Z.land (zigzag i) 1) with (Z.land (zigzag i) (Z.ones 1)).
  rewrite Z.land_ones by lia. change (2 ^ 1) with 2. unfold zigzag. destruct (Z.ltb_spec i 0).
  - replace (- 2 * i - 1) with (1 + (- i - 1) * 2) by lia. rewrite Z.div_add, Z.mod_add by lia.
    change (1 / 2) with 0. change (1 mod 2) with 1. rewrite Z.add_0_l. rewrite Z.lxor_m1_r. unfold Z.lnot. lia.
  - replace (2 * i) with (i * 2) by lia. rewrite Z.div_mul, Z.mod_mul by lia. by rewrite Z.lxor_0_r.
Qed.

Lemma zigzag_sign w i x : 0 < w -> - 2 ^ w <= i < 2 ^ w -> Z.lxor x (Z.shiftr i w) = if i <? 0 then - x - 1 else x.
Proof.
  intros Hw Hi. assert (0 < 2 ^ w) by (apply Z.pow_pos_nonneg; lia). rewrite Z.shiftr_div_pow2 by lia.
  destruct (Z.ltb_spec i 0).
  - assert (i / 2 ^ w = -1) as ->.
    { symmetry. apply (Z.div_unique _ _ _ (i + 2 ^ w)); lia. }
    rewrite Z.lxor_m1_r. unfold Z.lnot. lia.
  - rewrite Z.div_small by lia. apply Z.lxor_0_r.
Qed.

Lemma zigzag_64 i : in_i64 i -> as_u64 (Z.lxor (wrap64 (Z.shiftl i 1)) (Z.shiftr i 63)) = zigzag i.
Proof.
  unfold in_i64, i64_min, i64_max. intros Hi. rewrite zigzag_sign by lia. rewrite Z.shiftl_mul_pow2 by lia.
  change (2 ^ 1) with 2. destruct (wrap64_spec (i * 2)) as [k ->]. unfold zigzag. destruct (Z.ltb_spec i 0).
  - rewrite (as_u64_wrap _ (- 2 * i - 1)) by (exists (- k); lia). unfold as_u64. apply Z.mod_small. lia.
  - rewrite (as_u64_wrap _ (2 * i)) by (exists k; lia). unfold as_u64. apply Z.mod_small. lia.
Qed.

Lemma zigzag_32 i : in_i32 i -> as_u32 (Z.lxor (wrap32 (Z.shiftl i 1)) (Z.shiftr i 31)) = zigzag i.
Proof.
  unfold in_i32. intros Hi. rewrite zigzag_sign by lia. rewrite Z.shiftl_mul_pow2 by lia.
  change (2 ^ 1) with 2. destruct (wrap32_spec (i * 2)) as [k ->]. unfold zigzag. destruct (Z.ltb_spec i 0).
  - rewrite (as_u32_wrap _ (- 2 * i - 1)) by (exists (- k); lia). unfold as_u32. apply Z.mod_small. lia.
  - rewrite (as_u32_wrap _ (2 * i)) by (exists k; lia). unfold as_u32. apply Z.mod_small. lia.
Qed.

(** ** Values that a definition describes *)

Definition scalar_types : list string :=
  ["int32"; "int64"; "uint32"; "uint64"; "sint32"; "sint64"; "bool"; "float"; "double"; "fixed64"; "sfixed64";
   "fixed32"; "sfixed32"; "string"; "bytes"].

Section fits.
Context `{Base64} `{Text}.

(** A JSON value of a scalar type. *)
Inductive scalar_fits : string -> value -> Prop :=
  | fits_i32 ty i : ty ∈ ["int32"; "sint32"; "sfixed32"] -> in_i32 i -> scalar_fits ty (value_of_i64 i)
  | fits_i64 ty i : ty ∈ ["int64"; "sint64"; "sfixed64"] -> in_i64 i -> scalar_fits ty (value_of_i64 i)
  | fits_u32 ty u : ty ∈ ["uint32"; "fixed32"] -> 0 <= u < 2 ^ 32 -> scalar_fits ty (VNumber (PosInt u))
  | fits_u64 ty u : ty ∈ ["uint64"; "fixed64"] -> 0 <= u <= u64_max -> scalar_fits ty (VNumber (PosInt u))
  | fits_bool b : scalar_fits "bool" (VBool b)
  | fits_float f : valid_binary 24 128 (f32_of_f64 f) = true -> is_finite (f32_of_f64 f) = true ->
      f64_of_f32 (f32_of_f64 f) = f -> is_finite f = true -> scalar_fits "float" (VNumber (Float f))
  | fits_double f : valid_binary 53 1024 f = true -> is_finite f = true -> scalar_fits "double" (VNumber (Float f))
  | fits_string s : is_utf8 s -> scalar_fits "string" (VString s)
  | fits_bytes raw : scalar_fits "bytes" (VString (b64_encode raw)).

(** A value of a type, where [nested] describes the nested message of that name. *)
Definition value_fits (nested : option (value -> Prop)) (ty : string) (v : value) : Prop :=
  scalar_fits ty v \/ ((ty ∉ scalar_types) /\ exists p, nested = Some p /\ p v).

(** The value of a field; a repeated one is an array that is not empty. *)
Definition field_fits (nested : option (value -> Prop)) (field : ProtoField) (v : value) : Prop :=
  if repeated field
  then exists items, items <> [] /\ v = VArray items /\ Forall (value_fits nested (proto_type field)) items
  else value_fits nested (proto_type field) v.

(** An object whose keys are fields of the message, with values that fit them. *)
Fixpoint message_fits (msg : ProtoMessage) (v : value) : Prop :=
  match msg with
  | mkMessage _ fields nested =>
      exists d, v = row_to_value d /\
      forall k x, d !! k = Some x -> exists field, field ∈ fields /\ f_name field = k /\
        field_fits (nested_with message_fits (proto_type field) nested) field x
  end.

(** Names and numbers of fields are distinct, and numbers are those of protobuf. *)
Fixpoint well_formed (msg : ProtoMessage) : Prop :=
  match msg with
  | mkMessage _ fields nested =>
      NoDup (f_name <$> fields) /\ NoDup (number <$> fields) /\
      Forall (fun f => 1 <= number f < 2 ^ 29) fields /\
      (fix all (l : list (string * ProtoMessage)) : Prop :=
         match l with [] => True | (_, m) :: r => well_formed m /\ all r end) nested
  end.

Lemma well_formed_nested name fields nested k m : well_formed (mkMessage name fields nested) -> (k, m) ∈ nested -> well_formed m.
Proof.
  cbn [well_formed]. intros (_ & _ & _ & Hall). induction nested as [|[k' m'] l IH]; [by intros ?%elem_of_nil|].
  destruct Hall as [Hm Hall]. rewrite elem_of_cons. intros [[= <- <-]|Hin]; [done|by apply IH].
Qed.
End fits.

(** ** One value *)

Lemma read_tag n wt rest : 1 <= n < 2 ^ 29 -> 0 <= wt < 8 -> exists tag,
  read_varint (write_tag n wt ++ rest) = Some (tag, rest) /\ as_u32 (Z.shiftr tag 3) = n /\ Z.land tag 7 = wt.
Proof.
  intros Hn Hw.
  assert (Htag : Z.lor (as_u64 (Z.shiftl n 3)) wt = wt + n * 2 ^ 3).
  { rewrite Z.shiftl_mul_pow2 by lia. unfold as_u64. rewrite Z.mod_small by lia. rewrite Z.lor_comm.
    apply lor_disjoint; lia. }
  exists (wt + n * 2 ^ 3). unfold write_tag. rewrite Htag. split; [apply read_write_varint; unfold u64_max; lia|].
  rewrite Z.shiftr_div_pow2, Z.div_add by lia. rewrite (Z.div_small wt) by lia. split.
  - unfold as_u32. apply Z.mod_small. lia.
  - change 7 with (Z.ones 3). rewrite Z.land_ones, Z.mod_add by lia. by apply Z.mod_small.
Qed.

Section values.
Context `{Base64} `{Text}.
Context (b64_inverse : forall raw, b64_decode (trim_str (b64_encode raw)) = Some raw).

(** What encoding one value writes is a tag and bytes that decode to the value. *)
Definition reads_back (enc : option (value -> bytes)) (dec : option (bytes -> decoded value)) (field : ProtoField) (v : value) : Prop :=
  exists wt payload, 0 <= wt < 8 /\ encode_field enc field v = write_tag (number field) wt ++ payload /\
    forall rest, decode_field dec (proto_type field) wt (payload ++ rest) = Good (Some v, rest).

Lemma varint_reads_back enc dec field v f z g : varint_of (proto_type field) = Some f -> f v = Some z ->
  0 <= z <= u64_max -> varint_value (proto_type field) = Some g -> g z = v -> reads_back enc dec field v.
Proof.
  intros Hf Hz Hr Hg <-. exists 0, (write_varint z). split; [lia|]. unfold encode_field. rewrite Hf, Hz. split; [done|].
  intros rest. unfold decode_field. rewrite Z.eqb_refl, Hg, read_write_varint by done. done.
Qed.

Lemma fixed_reads_back enc dec field v f raw wt width g : varint_of (proto_type field) = None ->
  fixed_of (proto_type field) = Some (wt, f) -> f v = Some raw -> wt = 1 \/ wt = 5 ->
  fixed_value (proto_type field) = Some (width, wt, g) -> width = Z.of_nat (length raw) -> g raw = Some v ->
  reads_back enc dec field v.
Proof.
  intros Hv Hf Hraw Hwt Hg Hw Hval. exists wt, raw. split; [destruct Hwt; lia|]. unfold encode_field. rewrite Hv, Hf, Hraw.
  split; [done|]. intros rest. unfold decode_field, decode_field_sized.
  assert ((wt =? 0) = false /\ (wt =? 2) = false) as [-> ->] by (by destruct Hwt as [->| ->]).
  rewrite Hg, Z.eqb_refl, take_bytes_app by done. simpl. by rewrite Hval.
Qed.

Lemma read_length_delimited raw rest : Z.of_nat (length raw) <= u64_max ->
  read_len_bytes (write_varint (Z.of_nat (length raw)) ++ raw ++ rest) = Some (raw, rest).
Proof. intros Hl. unfold read_len_bytes. rewrite read_write_varint by lia. by apply take_bytes_app. Qed.

Lemma length_reads_back enc dec field v f raw g : varint_of (proto_type field) = None -> fixed_of (proto_type field) = None ->
  length_of (proto_type field) = Some f -> f v = Some raw -> Z.of_nat (length (encode_field enc field v)) <= u64_max ->
  length_value (proto_type field) = Some g -> g raw = v -> reads_back enc dec field v.
Proof.
  intros Hv Hx Hf Hraw Hl Hg Hgv. exists 2, (write_varint (Z.of_nat (length raw)) ++ raw). split; [lia|].
  assert (Henc : encode_field enc field v = length_delimited (number field) raw).
  { unfold encode_field. by rewrite Hv, Hx, Hf, Hraw. }
  rewrite Henc in *. unfold length_delimited in Hl. rewrite !length_app in Hl. split; [done|]. intros rest. rewrite <- app_assoc.
  unfold decode_field, decode_field_sized. cbn [Z.eqb]. change (2 =? 2) with true. rewrite Hg.
  rewrite read_length_delimited by lia. simpl. by rewrite Hgv.
Qed.

Lemma not_scalar ty : ty ∉ scalar_types ->
  varint_of ty = None /\ fixed_of ty = None /\ length_of ty = None /\ varint_value ty = None /\
  fixed_value ty = None /\ length_value ty = None.
Proof.
  unfold scalar_types. rewrite !not_elem_of_cons. intros Hty.
  assert (Hne : forall t, t ∈ scalar_types -> bool_decide (ty = t) = false).
  { intros t Ht. apply bool_decide_eq_false. intros ->. unfold scalar_types in Ht.
    rewrite !elem_of_cons, elem_of_nil in Ht. tauto. }
  unfold varint_of, fixed_of, length_of, varint_value, fixed_value, length_value.
  rewrite (bool_decide_eq_false_2 (ty = "uint32" \/ ty = "uint64")) by tauto.
  rewrite !Hne by (unfold scalar_types; rewrite !elem_of_cons; tauto). done.
Qed.

Lemma nested_reads_back enc dec field e d m : proto_type field ∉ scalar_types -> enc = Some e -> dec = Some d ->
  Z.of_nat (length (e (VObject m))) <= u64_max -> d (e (VObject m)) = Good (VObject m) -> reads_back enc dec field (VObject m).
Proof.
  intros Hty -> -> Hl Hd. destruct (not_scalar _ Hty) as (H1 & H2 & H3 & H4 & H5 & H6).
  exists 2, (write_varint (Z.of_nat (length (e (VObject m)))) ++ e (VObject m)). split; [lia|].
  unfold encode_field. rewrite H1, H2, H3. split; [done|]. intros rest. rewrite <- app_assoc.
  unfold decode_field, decode_field_sized, decode_other. rewrite H4, H5, H6. change (2 =? 2) with true.
  change (2 =? 0) with false. cbn iota. rewrite read_length_delimited by done. simpl. by rewrite Hd.
Qed.

Lemma num_to_i64_int i : in_i64 i -> num_to_i64 (value_of_i64 i) = Some i.
Proof.
  unfold in_i64. intros Hi. unfold value_of_i64. destruct (Z.ltb_spec i 0); simpl; [done|].
  by rewrite (proj2 (Z.leb_le i i64_max)) by lia.
Qed.

Lemma as_u64_range z : 0 <= as_u64 z <= u64_max.
Proof. unfold as_u64, u64_max. pose proof (Z.mod_pos_bound z (2 ^ 64)). lia. Qed.

Lemma as_u32_range z : 0 <= as_u32 z < 2 ^ 32.
Proof. apply Z.mod_pos_bound. lia. Qed.

Lemma zigzag_range w i : 0 < w -> - 2 ^ w <= i < 2 ^ w -> 0 <= zigzag i < 2 ^ (w + 1).
Proof. intros Hw Hi. rewrite Z.pow_add_r by lia. unfold zigzag. destruct (Z.ltb_spec i 0); lia. Qed.

Lemma le_bytes_i64 i : in_i64 i -> wrap64 (from_le_bytes (to_le_bytes 8 (as_u64 i))) = i.
Proof. intros Hi. rewrite from_to_le_bytes; [by apply wrap64_u64|]. pose proof (as_u64_range i). unfold u64_max in *. lia. Qed.

Lemma le_bytes_i32 i : in_i32 i -> wrap32 (from_le_bytes (to_le_bytes 4 (as_u32 i))) = i.
Proof. intros Hi. rewrite from_to_le_bytes; [by apply wrap32_u32|]. pose proof (as_u32_range i). lia. Qed.

(** The integer types. *)
Lemma i32_reads_back enc dec field i : proto_type field ∈ ["int32"; "sint32"; "sfixed32"] -> in_i32 i ->
  reads_back enc dec field (value_of_i64 i).
Proof.
  intros Hty Hi. pose proof (num_to_i64_int i (in_i32_i64 i Hi)) as Hnum.
  rewrite !elem_of_cons, elem_of_nil in Hty. destruct Hty as [Hty|[Hty|[Hty|[]]]].
  - eapply varint_reads_back; [by rewrite Hty|cbv beta; rewrite Hnum; reflexivity|apply as_u64_range|by rewrite Hty|].
    cbn beta. simpl. by rewrite (wrap32_id i Hi), wrap32_u64.
  - eapply varint_reads_back; [by rewrite Hty|cbv beta; rewrite Hnum; reflexivity| |by rewrite Hty|].
    + rewrite (wrap32_id i Hi), (zigzag_32 i Hi). pose proof (zigzag_range 31 i ltac:(lia) ltac:(unfold in_i32 in Hi; lia)).
      unfold u64_max. lia.
    + cbn beta. rewrite (wrap32_id i Hi), (zigzag_32 i Hi), unzigzag. by rewrite wrap32_id.
  - eapply fixed_reads_back; [by rewrite Hty|by rewrite Hty|cbv beta; rewrite Hnum; reflexivity|by right|by rewrite Hty|done|].
    cbv beta. unfold compose. by rewrite le_bytes_i32.
Qed.

Lemma i64_reads_back enc dec field i : proto_type field ∈ ["int64"; "sint64"; "sfixed64"] -> in_i64 i ->
  reads_back enc dec field (value_of_i64 i).
Proof.
  intros Hty Hi. pose proof (num_to_i64_int i Hi) as Hnum.
  rewrite !elem_of_cons, elem_of_nil in Hty. destruct Hty as [Hty|[Hty|[Hty|[]]]].
  - eapply varint_reads_back; [by rewrite Hty|cbv beta; rewrite Hnum; reflexivity|apply as_u64_range|by rewrite Hty|].
    cbn beta. by rewrite wrap64_u64.
  - eapply varint_reads_back; [by rewrite Hty|cbv beta; rewrite Hnum; reflexivity| |by rewrite Hty|].
    + apply as_u64_range.
    + cbn beta. by rewrite zigzag_64, unzigzag by done.
  - eapply fixed_reads_back; [by rewrite Hty|by rewrite Hty|cbv beta; rewrite Hnum; reflexivity|by left|by rewrite Hty|done|].
    cbv beta. unfold compose. by rewrite le_bytes_i64.
Qed.

Lemma u32_reads_back enc dec field u : proto_type field ∈ ["uint32"; "fixed32"] -> 0 <= u < 2 ^ 32 ->
  reads_back enc dec field (VNumber (PosInt u)).
Proof.
  intros Hty Hu. assert (Hmod : as_u32 u = u) by (by apply Z.mod_small).
  rewrite !elem_of_cons, elem_of_nil in Hty. destruct Hty as [Hty|[Hty|[]]].
  - eapply varint_reads_back; [by rewrite Hty|done|unfold u64_max; lia|by rewrite Hty|]. cbn beta. by rewrite Hmod.
  - eapply fixed_reads_back; [by rewrite Hty|by rewrite Hty|done|by right|by rewrite Hty|done|].
    cbn beta. unfold compose. rewrite Hmod, from_to_le_bytes; [done|]. lia.
Qed.

Lemma u64_reads_back enc dec field u : proto_type field ∈ ["uint64"; "fixed64"] -> 0 <= u <= u64_max ->
  reads_back enc dec field (VNumber (PosInt u)).
Proof.
  intros Hty Hu. rewrite !elem_of_cons, elem_of_nil in Hty. destruct Hty as [Hty|[Hty|[]]].
  - by eapply varint_reads_back; [by rewrite Hty|done|done|by rewrite Hty|].
  - eapply fixed_reads_back; [by rewrite Hty|by rewrite Hty|done|by left|by rewrite Hty|done|].
    cbn beta. rewrite from_to_le_bytes; [done|]. unfold u64_max in Hu. lia.
Qed.

Lemma float_reads_back enc dec field f : proto_type field = "float" -> valid_binary 24 128 (f32_of_f64 f) = true ->
  is_finite (f32_of_f64 f) = true -> f64_of_f32 (f32_of_f64 f) = f -> is_finite f = true ->
  reads_back enc dec field (VNumber (Float f)).
Proof.
  intros Hty Hv Hfin Heq Hff.
  eapply (fixed_reads_back _ _ _ _ _ (f32_to_le_bytes (f32_of_f64 f)));
    [by rewrite Hty|by rewrite Hty|done|by right|by rewrite Hty| |].
  - unfold f32_to_le_bytes. by rewrite to_le_bytes_length.
  - cbn beta. rewrite f32_bytes, Heq by done. unfold finite_number. by rewrite Hff.
Qed.

(** Every value that fits its type is read back. *)
Lemma value_reads_back enc dec fit field v : value_fits fit (proto_type field) v ->
  Z.of_nat (length (encode_field enc field v)) <= u64_max ->
  (forall p, proto_type field ∉ scalar_types -> fit = Some p -> p v -> exists m e d, v = VObject m /\ enc = Some e /\ dec = Some d /\
     (Z.of_nat (length (e v)) <= u64_max -> d (e v) = Good v)) ->
  reads_back enc dec field v.
Proof.
  intros [Hs|(Hty & p & Hp & Hv)] Hlen Hnested.
  - remember (proto_type field) as ty eqn:Hty. symmetry in Hty.
    destruct Hs as [ty i Hx|ty i Hx|ty u Hx|ty u Hx|b|f|f Hv Hf|s Hs|raw].
    + apply i32_reads_back; [by rewrite Hty|done].
    + apply i64_reads_back; [by rewrite Hty|done].
    + apply u32_reads_back; [by rewrite Hty|done].
    + apply u64_reads_back; [by rewrite Hty|done].
    + eapply varint_reads_back; [by rewrite Hty|done|by destruct b|by rewrite Hty|by destruct b].
    + by apply float_reads_back.
    + eapply (fixed_reads_back _ _ _ _ _ (f64_to_le_bytes f)); [by rewrite Hty|by rewrite Hty|done|by left|by rewrite Hty| |].
      * unfold f64_to_le_bytes. by rewrite to_le_bytes_length.
      * cbn beta. rewrite f64_bytes by done. unfold finite_number. by rewrite Hf.
    + eapply (length_reads_back _ _ _ _ _ (chars s)); [by rewrite Hty|by rewrite Hty|by rewrite Hty|done|done|by rewrite Hty|].
      cbn beta. f_equal. by apply to_str_of_str.
    + eapply (length_reads_back _ _ _ _ _ raw); [by rewrite Hty|by rewrite Hty|by rewrite Hty| |done|by rewrite Hty|done].
      change (Some (default (chars (b64_encode raw)) (b64_decode (trim_str (b64_encode raw)))) = Some raw). by rewrite b64_inverse.
  - destruct (Hnested p Hty Hp Hv) as (m & e & d & -> & -> & -> & Hrt).
    assert (Hel : Z.of_nat (length (e (VObject m))) <= u64_max).
    { unfold encode_field in Hlen. destruct (not_scalar _ Hty) as (H1 & H2 & H3 & _). rewrite H1, H2, H3 in Hlen.
      unfold length_delimited in Hlen. rewrite !length_app in Hlen. lia. }
    eapply nested_reads_back; [done|done|done|done|by apply Hrt].
Qed.
End values.

(** ** Objects *)

(** The values of a repeated field are collected. *)
Lemma collect_items field items map : repeated field = true -> items <> [] -> map !! f_name field = None ->
  foldl (fun m v => add_value field v m) map items = <[f_name field := VArray items]> map.
Proof.
  intros Hrep Hne Hnone. destruct items as [|v items]; [done|]. cbn [foldl]. unfold add_value at 2. rewrite Hrep, Hnone.
  change [v] with ([] ++ [v]). clear Hne Hnone.
  assert (Hgo : forall acc, foldl (fun m v => add_value field v m) (<[f_name field := VArray acc]> map) items
    = <[f_name field := VArray (acc ++ items)]> map).
  { induction items as [|w items IH]; intros acc; [by rewrite app_nil_r|]. cbn [foldl].
    unfold add_value at 2. rewrite Hrep, lookup_insert_eq, insert_insert_eq, IH. by rewrite <- app_assoc. }
  apply Hgo.
Qed.

(** One field of the object [d] added to a map. *)
Definition contribution (d map : row) (field : ProtoField) : row :=
  match d !! f_name field with Some x => <[f_name field := x]> map | None => map end.

Lemma contributions_lookup (d : row) fs map k : foldl (contribution d) map fs !! k =
  if bool_decide (k ∈ f_name <$> fs) then match d !! k with Some x => Some x | None => map !! k end else map !! k.
Proof.
  revert map. induction fs as [|f fs IH]; intros map; [done|]. cbn [foldl]. rewrite IH, fmap_cons.
  unfold contribution. destruct (decide (k = f_name f)) as [->|Hne].
  - rewrite (bool_decide_eq_true_2 (f_name f ∈ f_name f :: _)) by apply list_elem_of_here.
    destruct (d !! f_name f) as [x|]; case_bool_decide; try done; by rewrite lookup_insert_eq.
  - rewrite (bool_decide_ext (k ∈ f_name f :: _) (k ∈ f_name <$> fs)).
    2: { rewrite elem_of_cons. tauto. }
    destruct (d !! f_name f); [|done]. by rewrite lookup_insert_ne.
Qed.

Section message.
Context `{Base64} `{Text}.
Context (enc : string -> option (value -> bytes)) (dec : string -> option (bytes -> decoded value)).
Context (dec_total : forall ty f, dec ty = Some f -> forall raw, f raw <> Fuel).
Context (fields : list ProtoField) (distinct : NoDup (number <$> fields))
  (numbered : Forall (fun f => 1 <= number f < 2 ^ 29) fields).

#[local] Abbreviation encode_one field v := (encode_field (enc (proto_type field)) field v).
#[local] Abbreviation back field v := (reads_back (enc (proto_type field)) (dec (proto_type field)) field v).

Lemma find_number field : field ∈ fields -> List.find (fun f => number f =? number field) fields = Some field.
Proof using distinct.
  clear numbered. induction fields as [|f fs IH]; [by intros ?%elem_of_nil|]. rewrite fmap_cons in distinct.
  apply list.NoDup_cons in distinct as [Hn Hd]. rewrite elem_of_cons. cbn [List.find]. intros [->|Hf]; [by rewrite Z.eqb_refl|].
  destruct (Z.eqb_spec (number f) (number field)) as [He|]; [|by apply IH].
  destruct Hn. rewrite He. by apply list_elem_of_fmap_2.
Qed.

(** One turn of the decoder reads what one value wrote. *)
Lemma decode_turn field v n map rest : field ∈ fields -> back field v -> (length (encode_one field v ++ rest) <= n)%nat ->
  decode_loop dec fields n map (encode_one field v ++ rest) = decode_loop dec fields n (add_value field v map) rest.
Proof using dec_total distinct numbered.
  intros Hf (wt & payload & Hwt & Henc & Hdec) Hn. rewrite Henc in *. rewrite <- app_assoc in *.
  pose proof (proj1 (list.Forall_forall _ _) numbered field Hf) as Hnum. cbn beta in Hnum.
  destruct (read_tag (number field) wt (payload ++ rest) Hnum Hwt) as (tag & Hr & Hs & Hl).
  pose proof (read_varint_shorter _ _ _ Hr) as Hlt. set (s := write_tag (number field) wt ++ payload ++ rest) in *.
  destruct n as [|n]; [lia|]. destruct s as [|b s'] eqn:Hseq; [simpl in Hlt; lia|].
  rewrite length_app in Hlt.
  destruct (decode_loop_total dec fields n (add_value field v map) rest dec_total) as [_ Heq]; [lia|].
  rewrite (Heq (S n)) by lia. cbn [decode_loop]. rewrite Hr. cbn [or_malformed]. rewrite Hs, find_number by done.
  by rewrite Hl, Hdec.
Qed.

Lemma decode_items field items n map rest : field ∈ fields -> Forall (fun v => back field v) items ->
  (length (flat_map (fun v => encode_one field v) items ++ rest) <= n)%nat ->
  decode_loop dec fields n map (flat_map (fun v => encode_one field v) items ++ rest)
    = decode_loop dec fields n (foldl (fun m v => add_value field v m) map items) rest.
Proof using dec_total distinct numbered.
  intros Hf Hall. revert map. induction Hall as [|v items Hv Hall IH]; intros map Hn; [done|].
  cbn [flat_map foldl] in *. rewrite <- app_assoc in *. rewrite decode_turn by done. apply IH.
  rewrite length_app in Hn. lia.
Qed.

(** *** The whole object *)

Context (d : row).

Definition field_back (field : ProtoField) (x : value) : Prop :=
  if repeated field then exists items, items <> [] /\ x = VArray items /\ Forall (fun v => back field v) items
  else back field x.

Context (values_back : forall field x, field ∈ fields -> d !! f_name field = Some x -> field_back field x).
#[local] Abbreviation object := (merge_sort key_leb (map_to_list d)).
#[local] Abbreviation field_bytes field := (flat_map (fun v => encode_one field v) (field_values field object)).

Lemma decode_field_values field n map rest : field ∈ fields -> map !! f_name field = None ->
  (length (field_bytes field ++ rest) <= n)%nat ->
  decode_loop dec fields n map (field_bytes field ++ rest) = decode_loop dec fields n (contribution d map field) rest.
Proof using dec_total distinct numbered values_back.
  intros Hf Hnone Hn. unfold field_values, contribution in *. rewrite (object_get_row _ _ _ eq_refl) in *.
  destruct (d !! f_name field) as [x|] eqn:Hx; [|done].
  pose proof (values_back field x Hf Hx) as Hback. unfold field_back in Hback. destruct (repeated field) eqn:Hr.
  - destruct Hback as (items & Hne & -> & Hall). rewrite decode_items by done. by rewrite collect_items.
  - assert (Hsingle : (match x with VArray items => [VArray items] | v => [v] end) = [x]) by (by destruct x).
    rewrite Hsingle in *. rewrite decode_items by (first [done|by constructor]). cbn [foldl]. unfold add_value. by rewrite Hr.
Qed.

Lemma decode_all fs n map : fs ⊆ fields -> NoDup (f_name <$> fs) -> (forall f, f ∈ fs -> map !! f_name f = None) ->
  (length (flat_map (fun field => field_bytes field) fs) <= n)%nat ->
  decode_loop dec fields n map (flat_map (fun field => field_bytes field) fs) = Good (row_to_value (foldl (contribution d) map fs)).
Proof using dec_total distinct numbered values_back.
  revert map. induction fs as [|f fs IH]; intros map Hsub Hnd Hnone Hn; [by destruct n|].
  rewrite fmap_cons in Hnd. apply list.NoDup_cons in Hnd as [Hf Hnd]. cbn [flat_map foldl] in *.
  assert (Hin : f ∈ fields) by (apply Hsub; by left).
  rewrite decode_field_values; [|done|apply Hnone; by left|done]. rewrite length_app in Hn.
  apply IH; [intros x Hx; apply Hsub; by right|done| |lia].
  intros g Hg. unfold contribution. destruct (d !! f_name f); [|apply Hnone; by right].
  rewrite lookup_insert_ne; [apply Hnone; by right|]. intros Heq. apply Hf. rewrite Heq. by apply list_elem_of_fmap_2.
Qed.
End message.

(** ** The round trip *)

Section roundtrip.
Context `{Base64} `{Text}.
Context (b64_inverse : forall raw, b64_decode (trim_str (b64_encode raw)) = Some raw).

Lemma fits_object msg v : message_fits msg v -> exists m, v = VObject m.
Proof. destruct msg. intros (d & -> & _). by eexists. Qed.

(** The bytes of one value are among the bytes of the message. *)
Lemma flat_map_length {A} (f : A -> bytes) x l : x ∈ l -> (length (f x) <= length (flat_map f l))%nat.
Proof.
  induction l as [|y l IH]; [by intros ?%elem_of_nil|]. rewrite elem_of_cons. cbn [flat_map]. rewrite length_app.
  intros [->|Hx]; [lia|]. apply IH in Hx. lia.
Qed.

Lemma decode_encode_inner msg v : well_formed msg -> message_fits msg v -> Z.of_nat (length (encode_message msg v)) <= u64_max ->
  decode_inner msg (encode_message msg v) = Good v.
Proof.
  revert v. induction msg as [name fields nested IH] using ProtoMessage_ind'. intros v Hwf (d & -> & Hfit) Hlen.
  pose proof (well_formed_nested name fields nested) as Hnested.
  destruct Hwf as (Hnames & Hnumbers & Hrange & Hwf). cbn [decode_inner encode_message] in *. unfold row_to_value in Hlen |- * at 1.
  pose (enc ty := nested_with encode_message ty nested). pose (dec ty := nested_with decode_inner ty nested).
  set (bs := flat_map (fun field => flat_map (fun v => encode_field (enc (proto_type field)) field v)
    (field_values field (merge_sort key_leb (map_to_list d)))) fields).
  change (Z.of_nat (length bs) <= u64_max) in Hlen. change (decode_loop dec fields (length bs) ∅ bs = Good (row_to_value d)).
  assert (Htotal : forall ty f, dec ty = Some f -> forall raw, f raw <> Fuel).
  { intros ty f Hf raw. pose proof (nested_with_spec decode_inner ty nested) as Hs. unfold dec in Hf. rewrite Hf in Hs.
    destruct Hs as (k & m & _ & -> & _). apply decode_inner_total. }
  assert (Hone : forall field v, field ∈ fields -> value_fits (nested_with message_fits (proto_type field) nested) (proto_type field) v ->
    Z.of_nat (length (encode_field (enc (proto_type field)) field v)) <= u64_max ->
    reads_back (enc (proto_type field)) (dec (proto_type field)) field v).
  { intros field v Hf Hv Hl. eapply value_reads_back; [done|exact Hv|done|]. intros p Hty Hp Hpv.
    pose proof (nested_with_spec message_fits (proto_type field) nested) as Hs. rewrite Hp in Hs.
    destruct Hs as (k & m & Hin & -> & Hg). destruct (fits_object m v Hpv) as [o ->].
    exists o, (encode_message m), (decode_inner m). split_and!; [done|apply Hg|apply Hg|]. intros Hl'.
    rewrite list.Forall_forall in IH. apply (IH (k, m)); [done|eapply Hnested; [by split_and!|exact Hin]|done|done]. }
  etrans; [apply (decode_all enc dec Htotal fields Hnumbers Hrange d)|].
  - intros field x Hf Hx. destruct (Hfit _ x Hx) as (f & Hf' & Hname & Hff).
    assert (f = field) as ->.
    { destruct (list_elem_of_lookup_1 _ _ Hf) as [i Hi], (list_elem_of_lookup_1 _ _ Hf') as [j Hj].
      assert (j = i) as ->; [|by simplify_eq]. eapply NoDup_lookup; [exact Hnames|..]; rewrite list_lookup_fmap;
        [by rewrite Hj|rewrite Hi; simpl; by rewrite Hname]. }
    assert (Hle : forall w, w ∈ field_values field (merge_sort key_leb (map_to_list d)) ->
      Z.of_nat (length (encode_field (enc (proto_type field)) field w)) <= u64_max).
    { intros w Hw.
      pose proof (flat_map_length (fun v => encode_field (enc (proto_type field)) field v) w _ Hw) as H1.
      pose proof (flat_map_length (fun field => flat_map (fun v => encode_field (enc (proto_type field)) field v)
        (field_values field (merge_sort key_leb (map_to_list d)))) field fields Hf) as H2. cbv beta in H2.
      fold bs in H2. lia. }
    unfold field_values in Hle. rewrite (object_get_row _ _ _ eq_refl), Hx in Hle. unfold field_back, field_fits in *.
    destruct (repeated field) eqn:Hr.
    + destruct Hff as (items & Hne & -> & Hall). exists items. split_and!; [done|done|].
      apply list.Forall_forall. intros w Hw. rewrite list.Forall_forall in Hall. by apply Hone; [|apply Hall|apply Hle].
    + apply Hone; [done|done|]. apply Hle. destruct x; apply list_elem_of_here.
  - done.
  - done.
  - intros f Hf. apply lookup_empty.
  - done.
  - assert (Hd : foldl (contribution d) ∅ fields = d); [|by rewrite Hd].
    apply map_eq. intros k. rewrite contributions_lookup, lookup_empty. case_bool_decide as Hk; [by destruct (d !! k)|].
    destruct (d !! k) as [x|] eqn:Hx; [|done]. destruct (Hfit k x Hx) as (f & Hf & <- & _). destruct Hk. by apply list_elem_of_fmap_2.
Qed.

(** C12. Encoding then decoding gives the record back.  For a message definition with distinct
    field names and numbers, and an object whose values fit the types of their fields,
    [decode] of [encode] is the same object: all integer widths and signs, zigzag and fixed
    encodings, floats a single or double can hold, booleans, texts, bytes, nested messages
    and repeated fields that are not empty.  The hypothesis on base64 is that decoding
    inverts encoding; the length bound is that of the length prefixes. *)
Theorem protobuf_roundtrip msg v : well_formed msg -> message_fits msg v ->
  Z.of_nat (length (encode v msg)) <= u64_max -> decode (encode v msg) msg = v.
Proof. intros Hwf Hfit Hlen. unfold decode, encode in *. by rewrite decode_encode_inner. Qed.
End roundtrip.

(** ** A concrete message *)

Module ProtobufSample.
Import Delimited.DelimitedSample.

(** Two letters per byte in place of base64. *)
Definition letter (z : Z) : ascii := byte_of (97 + z).
Fixpoint of_letters (l : list ascii) : list ascii :=
  match l with a :: b :: r => byte_of ((code a - 97) * 16 + (code b - 97)) :: of_letters r | _ => [] end.
#[export] Instance letters : Base64 := {|
  b64_encode raw := of_chars (flat_map (fun b => [letter (code b / 16); letter (code b mod 16)]) raw);
  b64_decode s := Some (of_letters (chars s));
|}.

Lemma letter_code z : 0 <= z < 16 -> code (letter z) = 97 + z.
Proof. intros Hz. apply code_byte. lia. Qed.

Lemma halves b : 0 <= code b / 16 < 16 /\ 0 <= code b mod 16 < 16 /\ code b = code b / 16 * 16 + code b mod 16.
Proof.
  pose proof (code_range b). pose proof (Z.mod_pos_bound (code b) 16). pose proof (Z.div_mod (code b) 16).
  split_and!; [apply Z.div_pos; lia|apply Z.div_lt_upper_bound; lia|lia|lia|lia].
Qed.

Lemma letters_inverse raw : b64_decode (trim_str (b64_encode raw)) = Some raw.
Proof.
  cbn [b64_encode b64_decode letters]. rewrite trim_str_ascii; rewrite chars_of_chars.
  - f_equal. induction raw as [|b raw IH]; [done|]. cbn [flat_map app of_letters]. rewrite IH.
    destruct (halves b) as (H1 & H2 & H3). rewrite !letter_code by done. f_equal.
    rewrite <- (byte_code b) at 3. f_equal. lia.
  - induction raw as [|b raw IH]; [constructor|]. cbn [flat_map app]. destruct (halves b) as (H1 & H2 & H3).
    assert (Hl : forall z, 0 <= z < 16 -> code (letter z) < 128 /\ is_space (code (letter z)) = false).
    { intros z Hz. rewrite letter_code by done. split; [lia|]. unfold is_space.
      rewrite !orb_false_iff, !andb_false_iff, !Z.leb_gt, !Z.eqb_neq. lia. }
    constructor; [by apply Hl|]. constructor; [by apply Hl|done].
Qed.

Definition point : ProtoMessage := mkMessage "Point" [mkField "x" "sint32" 1 false; mkField "y" "double" 2 false] [].
Definition frame : ProtoMessage :=
  mkMessage "Frame" [mkField "vin" "string" 1 false; mkField "speeds" "int64" 2 true; mkField "at" "Point" 16 false]
    [("Point", point)].
Definition at_value : value := row_to_value {["x" := value_of_i64 (-3); "y" := VNumber (Float (f64_of_Z 2))]}.
Definition frame_value : value :=
  row_to_value {["vin" := VString "V3"; "speeds" := VArray [value_of_i64 (-1); value_of_i64 300]; "at" := at_value]}.

Lemma frame_bytes : encode frame_value frame =
  map byte_of ([10; 2; 86; 51; 16; 255; 255; 255; 255; 255; 255; 255; 255; 255; 1; 16; 172; 2; 130; 1; 11; 8; 5; 17]
               ++ [0; 0; 0; 0; 0; 0; 0; 64]).
Proof. by vm_compute. Qed.

Lemma point_fits : message_fits point at_value.
Proof.
  eexists. split; [reflexivity|]. intros k x Hx. rewrite !lookup_insert_Some, lookup_singleton_Some in Hx.
  destruct Hx as [[<- <-]|[_ [<- <-]]].
  - exists (mkField "x" "sint32" 1 false). split; [apply list_elem_of_here|]. split; [done|]. left.
    apply (fits_i32 "sint32" (-3)); [rewrite !elem_of_cons; tauto|unfold in_i32; lia].
  - exists (mkField "y" "double" 2 false). split; [rewrite !elem_of_cons; tauto|]. split; [done|]. left. by constructor.
Qed.

Lemma frame_fits : message_fits frame frame_value.
Proof.
  eexists. split; [reflexivity|]. intros k x Hx. rewrite !lookup_insert_Some, lookup_singleton_Some in Hx.
  destruct Hx as [[<- <-]|[_ [[<- <-]|[_ [<- <-]]]]].
  - exists (mkField "vin" "string" 1 false). split; [apply list_elem_of_here|]. split; [done|]. left. constructor.
    apply ascii_is_utf8. by repeat constructor.
  - exists (mkField "speeds" "int64" 2 true). split; [rewrite !elem_of_cons; tauto|]. split; [done|].
    exists [value_of_i64 (-1); value_of_i64 300]. split_and!; [done|done|].
    assert (Hi : forall i, in_i64 i -> value_fits None "int64" (value_of_i64 i)).
    { intros i Hi. left. apply fits_i64; [apply list_elem_of_here|done]. }
    constructor; [by apply (Hi (-1))|]. constructor; [by apply (Hi 300)|constructor].
  - exists (mkField "at" "Point" 16 false). split; [rewrite !elem_of_cons; tauto|]. split; [done|]. right.
    split; [|exists (message_fits point); split; [done|apply point_fits]].
    apply (bool_decide_unpack _). by vm_compute.
Qed.

Lemma frame_well_formed : well_formed frame.
Proof.
  cbn [well_formed frame point]. split_and!; try done.
  1, 2, 4, 5: apply (bool_decide_unpack _); by vm_compute.
  all: repeat constructor; cbn [number]; lia.
Qed.
End ProtobufSample.
Import Delimited.DelimitedSample ProtobufSample.

Lemma protobuf_roundtrip_witness : decode (encode frame_value frame) frame = frame_value.
Proof.
  apply protobuf_roundtrip; [exact letters_inverse|exact frame_well_formed|exact frame_fits|].
  rewrite frame_bytes. vm_compute. discriminate.
Defined.

(** Decoding always returns, on any bytes and any definition: every turn of the decoder's
    loop consumes a byte, nested messages included, so that the number of bytes bounds the
    turns, and no length prefix reads beyond the end. *)
Theorem protobuf_decode_total `{Base64} `{Text} msg s : decode_inner msg s <> Fuel /\
  forall nested fields n map, (forall ty f, nested ty = Some f -> forall raw, f raw <> Fuel) -> (length s <= n)%nat ->
    decode_loop nested fields n map s = decode_loop nested fields (length s) map s.
Proof. split; [apply decode_inner_total|]. intros nested fields n map Hn Hl. by apply decode_loop_total. Qed.

(** A packed repeated field, which current versions of protobuf write by default, is skipped
    without a trace, and so is a number that is not finite. *)
Lemma packed_and_nan_skipped :
  decode (map byte_of [10; 2; 1; 2]) (mkMessage "M" [mkField "xs" "int32" 1 true] []) = row_to_value ∅ /\
  decode (map byte_of [13; 0; 0; 192; 127]) (mkMessage "M" [mkField "f" "float" 1 false] []) = row_to_value ∅.
Proof. by vm_compute. Qed.
