(* ===== verification/ProtoText.v ===== *)
(** * Protobuf definitions ([parse_proto] of [crates/rekuiper-connectors/src/codec.rs])

    The parser of [.proto] texts: comments, a cursor over the characters that are left, and
    the bodies of messages, with nested messages, skipped statements and fields.  Results are
    those of Parser.v; error messages are not modelled, except that building one may panic. *)

From Stdlib Require Import Ascii.
From S2P Require Import Prelude Rust Characters Json Ast Numbers Parser Statements ParserFacts RoundTrip Delimited Wire Protobuf.

Set Default Goal Selector "!".

(** ** Comments *)

(** Where [strip_proto_comments] is: in code, in a text (after a backslash), after the first
    slash of a comment, in a line comment, before the star of a block comment, in a block
    comment (after a star). *)
Inductive CommentMode := InCode | InText | InEscape | InLine | AtStar | InBlock (prev_star : bool).

Fixpoint strip_comments (mode : CommentMode) (s : input) : input :=
  match s with
  | [] => match mode with AtStar | InBlock _ => [32] | _ => [] end
  | c :: r =>
      match mode with
      | InText =>
          c :: strip_comments (if c =? code "\" then InEscape else if c =? quote then InCode else InText) r
      | InEscape => c :: strip_comments InText r
      | InCode =>
          if c =? quote then c :: strip_comments InText r
          else if (c =? code "/") && looking_at "/" r then strip_comments InLine r
          else if (c =? code "/") && looking_at "*" r then strip_comments AtStar r
          else c :: strip_comments InCode r
      | InLine => if c =? 10 then 10 :: strip_comments InCode r else strip_comments InLine r
      | AtStar => strip_comments (InBlock false) r
      | InBlock prev_star =>
          if prev_star && (c =? code "/") then 32 :: strip_comments InCode r
          else strip_comments (InBlock (c =? code "*")) r
      end
  end.
Definition strip_proto_comments (s : input) : input := strip_comments InCode s.

(** ** The cursor *)

Definition insert_message (name : string) (m : ProtoMessage) (l : list (string * ProtoMessage)) : list (string * ProtoMessage) :=
  (name, m) :: List.filter (fun km => negb (bool_decide (km.1 = name))) l.

(** In code, in a text, after a backslash in a text. *)
Inductive TextMode := Code | Text | Escape.

Definition text_step (c : Z) (mode : TextMode) : TextMode :=
  match mode with
  | Code => if c =? quote then Text else Code
  | Text => if c =? code "\" then Escape else if c =? quote then Code else Text
  | Escape => Text
  end.

(** The text up to the brace that closes [depth] ones, and the rest after it. *)
Fixpoint block_scan (depth : nat) (mode : TextMode) (s : input) : option (input * input) :=
  match s with
  | [] => None
  | c :: r =>
      let next depth := '(a, b) ← block_scan depth (text_step c mode) r; Some (c :: a, b) in
      match mode with
      | Code =>
          if c =? code "{" then next (S depth)
          else if c =? code "}" then match depth with S O => Some ([], r) | _ => next (pred depth) end
          else next depth
      | _ => next depth
      end
  end.

(** The inner text of a balanced block, and where the cursor is left. *)
Definition consume_block (s : input) : option input * input :=
  let s := skip_whitespace s in
  if looking_at "{" s then
    match block_scan 1 Code (drop 1 s) with Some (inner, rest) => (Some inner, rest) | None => (None, drop 1 s) end
  else (None, s).

(** The rest after a statement: after a semicolon or a balanced block outside texts. *)
Fixpoint skip_scan (mode : TextMode) (s : input) : input :=
  match s with
  | [] => []
  | c :: r =>
      match mode with
      | Code =>
          if c =? code ";" then r
          else if c =? code "{" then match block_scan 1 Code r with Some (_, rest) => rest | None => [] end
          else skip_scan (text_step c Code) r
      | _ => skip_scan (text_step c mode) r
      end
  end.
Definition skip_statement (s : input) : input := skip_scan Code (skip_whitespace s).

Definition expect (c : ascii) (s : input) : bool * input :=
  let s := skip_whitespace s in if looking_at c s then (true, drop 1 s) else (false, s).

Section text.
Context `{Unicode}.

Definition is_alphabetic (c : Z) : bool :=
  if c <? 128 then ((65 <=? c) && (c <=? 90)) || ((97 <=? c) && (c <=? 122)) else alphabetic c.

Definition ident_char (c : Z) : bool := is_alphanumeric c || (c =? code "_") || (c =? code ".").

Definition consume_ident (s : input) : option string * input :=
  match skip_whitespace s with
  | c :: r =>
      if is_alphabetic c || (c =? code "_")
      then let '(w, rest) := span ident_char r in (Some (to_str (c :: w)), rest)
      else (None, c :: r)
  | [] => (None, [])
  end.

(** Whether byte [n] of a text is inside a character, where slicing panics. *)
Fixpoint inside_char (n : nat) (s : input) : bool :=
  match s with
  | [] => false
  | c :: r =>
      let w := length (utf8 c) in
      if (n =? 0)%nat then false else if (n <? w)%nat then true else inside_char (n - w) r
  end.

(** ** Messages *)

(** The last segment of a dotted name. *)
Definition last_segment (name : string) : string :=
  from_option to_str name (list.last (Statements.split_char (code ".") [] (of_str name))).

Definition skipped_types : list string := ["option"; "reserved"; "extensions"; "extend"].

(** A field after its first word: the field and the rest, nothing for a statement that is
    skipped. *)
Definition parse_field (first : string) (s : input) : presult (option ProtoField) :=
  let labelled := bool_decide (first ∈ ["repeated"; "optional"; "required"]) in
  match (if labelled then consume_ident s else (Some first, s)) with
  | (None, _) => PErr
  | (Some type_name, s) =>
      if bool_decide (type_name ∈ skipped_types) then POk None (skip_statement s)
      else
        match consume_ident s with
        | (None, _) => PErr
        | (Some field_name, s) =>
            let '(found, s) := expect "=" s in
            if found then
              let '(digits, rest) := span is_digit (skip_whitespace s) in
              match parse_digits (chars (to_str digits)) with
              | Some n =>
                  if n <? 2 ^ 32
                  then POk (Some (mkField field_name (last_segment type_name) n (bool_decide (first = "repeated"))))
                         (skip_statement rest)
                  else PErr
              | None => PErr
              end
            else PErr
        end
  end.

(** After [enum] or [oneof]: the keyword, a name and a block, or a statement. *)
Definition skip_definition (s : input) : input :=
  let s := (consume_ident (consume_ident s).2).2 in
  match consume_block s with (Some _, rest) => rest | (None, rest) => skip_statement rest end.

Fixpoint parse_message_body (fuel : nat) (name : string) (fields : list ProtoField)
    (nested : list (string * ProtoMessage)) (s : input) : presult ProtoMessage :=
  match fuel with
  | O => PFuel
  | S fuel =>
      let s := skip_whitespace s in
      if bool_decide (s = []) then POk (mkMessage name fields nested) []
      else if starts_with "message " s then
        match consume_ident (consume_ident s).2 with
        | (None, _) => PErr
        | (Some nested_name, s) =>
            match consume_block s with
            | (None, _) => PErr
            | (Some inner, rest) =>
                match parse_message_body fuel nested_name [] [] inner with
                | POk m _ => parse_message_body fuel name fields (insert_message nested_name m nested) rest
                | r => r
                end
            end
        end
      else if starts_with "enum " s || starts_with "oneof " s then
        parse_message_body fuel name fields nested (skip_definition s)
      else
        match consume_ident s with
        | (None, s) => if inside_char 20 s then PPanic else PErr
        | (Some first, s) =>
            match parse_field first s with
            | POk (Some f) s => parse_message_body fuel name (fields ++ [f]) nested s
            | POk None s => parse_message_body fuel name fields nested s
            | PErr => PErr
            | PPanic => PPanic
            | PFuel => PFuel
            end
        end
  end.

Fixpoint parse_messages (fuel : nat) (messages : list (string * ProtoMessage)) (s : input)
    : presult (list (string * ProtoMessage)) :=
  match fuel with
  | O => PFuel
  | S fuel' =>
      let s := skip_whitespace s in
      if bool_decide (s = []) then POk messages []
      else
        match consume_ident s with
        | (None, s) => POk messages s
        | (Some word, s) =>
            if bool_decide (word = "message") then
              match consume_ident s with
              | (None, _) => PErr
              | (Some name, s) =>
                  match consume_block s with
                  | (None, _) => PErr
                  | (Some inner, rest) =>
                      match parse_message_body fuel name [] [] inner with
                      | POk m _ => parse_messages fuel' (insert_message name m messages) rest
                      | PErr => PErr
                      | PPanic => PPanic
                      | PFuel => PFuel
                      end
                  end
              end
            else parse_messages fuel' messages (skip_statement s)
        end
  end.

(** The messages of a [.proto] text by name. *)
Definition parse_proto (text : input) : presult (list (string * ProtoMessage)) :=
  let cleaned := strip_proto_comments text in parse_messages (S (length cleaned)) [] cleaned.
End text.

(** * Protobuf definitions are read back

    [parse_proto] returns on every text, and on the text of message
    definitions, printed one statement after the other, it returns the definitions. *)

(** ** Every text is read to the end *)

(** Stripping comments only adds spaces: it makes no text longer, and keeps ASCII. *)
Lemma strip_comments_length mode s : (length (strip_comments mode s) <= length s + match mode with AtStar | InBlock _ => 1 | _ => 0 end)%nat.
Proof.
  revert mode. induction s as [|c r IH]; intros mode; [by destruct mode|].
  destruct mode; cbn [strip_comments]; repeat case_match; cbn [length];
    repeat match goal with |- context [strip_comments ?m r] => pose proof (IH m); clear IH end; simpl in *; lia.
Qed.

Lemma strip_comments_ascii mode s : is_ascii s -> is_ascii (strip_comments mode s).
Proof.
  intros Hs. revert mode. induction Hs as [|c r Hc _ IH]; intros mode.
  - destruct mode; repeat constructor.
  - destruct mode; cbn [strip_comments]; repeat case_match; try apply IH; (constructor; [lia|apply IH]).
Qed.

Lemma block_scan_spec depth mode s inner rest : block_scan depth mode s = Some (inner, rest) -> exists c, s = inner ++ c :: rest.
Proof.
  revert depth mode inner. induction s as [|c r IH]; intros depth mode inner; simpl; [done|].
  set (next d := '(a, b) ← block_scan d (text_step c mode) r; Some (c :: a, b)).
  assert (Hnext : forall d, next d = Some (inner, rest) -> exists c', c :: r = inner ++ c' :: rest).
  { intros d. unfold next. destruct (block_scan d (text_step c mode) r) as [[a b]|] eqn:E; simpl; [|done].
    intros [= <- <-]. destruct (IH _ _ _ E) as [c' ->]. by exists c'. }
  destruct mode; [|apply Hnext..]. repeat case_match; try apply Hnext. intros [= <- <-]. by exists c.
Qed.

Lemma block_scan_suffix depth mode s inner rest : block_scan depth mode s = Some (inner, rest) -> rest `suffix_of` s.
Proof. intros (c & ->)%block_scan_spec. exists (inner ++ [c]). by rewrite <- app_assoc. Qed.

Lemma consume_block_spec s inner rest : consume_block s = (Some inner, rest) ->
  shorter rest s /\ (length inner < length s)%nat /\ (is_ascii s -> is_ascii inner).
Proof.
  unfold consume_block. destruct (looking_at "{" (skip_whitespace s)) eqn:El; [|done].
  destruct (block_scan 1 Code _) as [[a b]|] eqn:Eb; [|done]. intros [= <- <-].
  pose proof (skip_suffix s) as Hs. pose proof (shorter_drop 1 _ ltac:(lia) (looking_at_ne _ _ El)) as Hd.
  pose proof (block_scan_suffix _ _ _ _ _ Eb) as Hb. apply block_scan_spec in Eb as (c & Eb).
  split_and!.
  - eapply suffix_shorter; [exact Hb|]. by eapply shorter_suffix.
  - destruct Hd as [_ Hd]. apply suffix_length in Hs. rewrite Eb, length_app in Hd. simpl in Hd. lia.
  - intros Ha. assert (is_ascii (drop 1 (skip_whitespace s))) as Ha' by (eapply suffix_ascii; [apply Hd|]; by eapply suffix_ascii).
    rewrite Eb in Ha'. by apply Forall_app in Ha' as [? _].
Qed.

Lemma consume_block_suffix s o rest : consume_block s = (o, rest) -> rest `suffix_of` s.
Proof.
  destruct o as [inner|]; [by intros [[? _] _]%consume_block_spec|].
  unfold consume_block. repeat case_match; intros [= <-]; (etrans; [|apply skip_suffix]); [apply suffix_drop|done].
Qed.

Lemma skip_scan_suffix mode s : skip_scan mode s `suffix_of` s.
Proof.
  revert mode. induction s as [|c r IH]; intros mode; [done|].
  assert (forall m, skip_scan m r `suffix_of` c :: r) as Hr by (intros m; by apply suffix_cons_r).
  destruct mode; simpl; try apply Hr. repeat case_match; try apply Hr.
  - by apply suffix_cons_r.
  - apply suffix_cons_r. by eapply block_scan_suffix.
  - apply suffix_nil.
Qed.

Lemma skip_statement_suffix s : skip_statement s `suffix_of` s.
Proof. unfold skip_statement. etrans; [apply skip_scan_suffix|apply skip_suffix]. Qed.

Lemma expect_suffix c s : (expect c s).2 `suffix_of` s.
Proof.
  unfold expect. case_match; simpl; [etrans; [apply suffix_drop|]|]; apply skip_suffix.
Qed.

Lemma inside_char_ascii n s : is_ascii s -> inside_char n s = false.
Proof.
  intros Hs. revert n. induction Hs as [|c r Hc _ IH]; intros n; [done|]. simpl. unfold utf8.
  rewrite (proj2 (Z.ltb_lt _ _) Hc). simpl. destruct n as [|n]; [done|]. simpl. apply IH.
Qed.

Section total.
Context `{Unicode}.

Lemma consume_ident_suffix s o r : consume_ident s = (o, r) -> r `suffix_of` s.
Proof.
  unfold consume_ident. pose proof (skip_suffix s) as Hs. destruct (skip_whitespace s) as [|c t]; [by intros [= <- <-]|].
  case_match; [|by intros [= <- <-]]. destruct (span ident_char t) as [w rest] eqn:E. intros [= <- <-].
  etrans; [|exact Hs]. apply suffix_cons_r. pose proof (span_suffix ident_char t) as Hr. by rewrite E in Hr.
Qed.

Lemma consume_ident_shorter s w r : consume_ident s = (Some w, r) -> shorter r s.
Proof.
  unfold consume_ident. pose proof (skip_suffix s) as Hs. destruct (skip_whitespace s) as [|c t]; [done|].
  case_match; [|done]. destruct (span ident_char t) as [w' rest] eqn:E. intros [= <- <-].
  eapply shorter_suffix; [|exact Hs]. pose proof (span_suffix ident_char t) as Hr. rewrite E in Hr. simpl in Hr. split.
  - by apply suffix_cons_r.
  - apply suffix_length in Hr. simpl. lia.
Qed.

Lemma skip_definition_suffix s : skip_definition s `suffix_of` (consume_ident s).2.
Proof.
  unfold skip_definition. destruct (consume_ident s) as [o s1] eqn:E1. simpl. destruct (consume_ident s1) as [o2 s2] eqn:E2.
  apply consume_ident_suffix in E2. simpl. destruct (consume_block s2) as [[i|] r] eqn:Eb; apply consume_block_suffix in Eb.
  - by etrans.
  - etrans; [apply skip_statement_suffix|]. by etrans.
Qed.

Lemma parse_field_fine first s : fine s (parse_field first s).
Proof.
  unfold parse_field. set (labelled := bool_decide _). clearbody labelled.
  assert (Ht : match (if labelled then consume_ident s else (Some first, s)) with (_, r) => r `suffix_of` s end).
  { destruct labelled; [|done]. destruct (consume_ident s) as [o r] eqn:E. by eapply consume_ident_suffix. }
  destruct (if labelled then _ else _) as [[ty|] s1]; [|done]. case_match; simpl.
  { etrans; [apply skip_statement_suffix|done]. }
  destruct (consume_ident s1) as [[name|] s2] eqn:E2; [|done]. apply consume_ident_suffix in E2.
  pose proof (expect_suffix "=" s2) as E3. destruct (expect "=" s2) as [[] s3]; [|done]. simpl in E3.
  pose proof (span_suffix is_digit (skip_whitespace s3)) as E4. destruct (span is_digit (skip_whitespace s3)) as [d s4].
  simpl in E4. pose proof (skip_suffix s3). repeat case_match; try done. simpl. pose proof (skip_statement_suffix s4).
  repeat (etrans; [eassumption|]). done.
Qed.

(** A word at the start of [s] is consumed: what [starts_with "enum "] relies on. *)
Lemma keyword_shorter (kw : string) s : kw <> "" -> s = skip_whitespace s -> starts_with kw s = true ->
  match kw with String a _ => is_alphabetic (code a) = true | _ => True end -> shorter (consume_ident s).2 s.
Proof.
  intros Hne Hs Hkw Ha. destruct kw as [|a kw]; [done|]. unfold starts_with in Hkw. apply bool_decide_eq_true in Hkw as [r Hr].
  apply strip_prefix_app in Hr. cbn in Hr. subst s. destruct (consume_ident _) as [[w|] t] eqn:E; [by eapply consume_ident_shorter|].
  exfalso. unfold consume_ident in E. rewrite <- Hs in E. rewrite Ha in E. simpl in E. by destruct (span _ _).
Qed.

Lemma parse_message_body_fine fuel name fields nested s : (length s < fuel)%nat -> fine s (parse_message_body fuel name fields nested s).
Proof.
  revert name fields nested s. induction fuel as [|fuel IH]; intros name fields nested s Hlen; [lia|]. cbn [parse_message_body].
  pose proof (skip_suffix s) as Hs. pose proof (skip_idemp s) as Hid. set (t := skip_whitespace s) in *. clearbody t.
  eapply fine_weaken; [exact Hs|]. apply suffix_length in Hs.
  assert (Hgo : forall fields' nested' r, shorter r t -> fine t (parse_message_body fuel name fields' nested' r)).
  { intros fields' nested' r [Hr1 Hr2]. eapply fine_weaken; [exact Hr1|]. apply IH. lia. }
  case_bool_decide; [apply suffix_nil|]. case_match eqn:Em.
  - destruct (consume_ident t) as [o1 s1] eqn:E1. apply consume_ident_suffix in E1. simpl.
    destruct (consume_ident s1) as [[n|] s2] eqn:E2; [|done]. apply consume_ident_shorter in E2.
    destruct (consume_block s2) as [[inner|] rest] eqn:E3; [|done]. apply consume_block_spec in E3 as (E3 & Hi & Hascii).
    assert (shorter s2 t) as Hs2 by (by eapply shorter_suffix).
    assert (fine inner (parse_message_body fuel n [] [] inner)) as Hin by (apply IH; destruct Hs2; lia).
    destruct (parse_message_body fuel n [] [] inner); simpl in Hin |- *; try done.
    + apply Hgo. destruct Hs2. eapply shorter_suffix; [exact E3|done].
    + intros Ht. apply Hin, Hascii. eapply suffix_ascii; [apply Hs2|done].
  - case_match eqn:Ee.
    + apply Hgo. eapply suffix_shorter; [apply skip_definition_suffix|].
      apply orb_true_iff in Ee as [Ee|Ee]; (eapply keyword_shorter; [|done|exact Ee|]; done).
    + destruct (consume_ident t) as [[first|] s1] eqn:E1.
      * apply consume_ident_shorter in E1. pose proof (parse_field_fine first s1) as Hf.
        destruct (parse_field first s1) as [[f|] r| | |]; simpl in Hf |- *; try done.
        -- apply Hgo. by eapply suffix_shorter.
        -- apply Hgo. by eapply suffix_shorter.
        -- intros Ht. apply Hf. eapply suffix_ascii; [apply E1|done].
      * case_match eqn:Ei; simpl; [|done]. intros Ht. apply consume_ident_suffix in E1.
        rewrite inside_char_ascii in Ei; [done|]. by eapply suffix_ascii.
Qed.

Lemma parse_messages_fine fuel messages s : (length s < fuel)%nat -> fine s (parse_messages fuel messages s).
Proof.
  revert messages s. induction fuel as [|fuel IH]; intros messages s Hlen; [lia|]. cbn [parse_messages].
  pose proof (skip_suffix s) as Hs. set (t := skip_whitespace s) in *. clearbody t.
  eapply fine_weaken; [exact Hs|]. apply suffix_length in Hs.
  assert (Hgo : forall messages' r, shorter r t -> fine t (parse_messages fuel messages' r)).
  { intros messages' r [Hr1 Hr2]. eapply fine_weaken; [exact Hr1|]. apply IH. lia. }
  case_bool_decide; [apply suffix_nil|]. destruct (consume_ident t) as [[word|] s1] eqn:E1; [|by eapply consume_ident_suffix].
  apply consume_ident_shorter in E1. case_bool_decide.
  - destruct (consume_ident s1) as [[n|] s2] eqn:E2; [|done]. apply consume_ident_shorter in E2.
    destruct (consume_block s2) as [[inner|] rest] eqn:E3; [|done]. apply consume_block_spec in E3 as (E3 & Hi & Hascii).
    assert (shorter s2 t) as Hs2 by (destruct E1; by eapply shorter_suffix).
    assert (fine inner (parse_message_body (S fuel) n [] [] inner)) as Hin.
    { apply parse_message_body_fine. destruct Hs2. lia. }
    destruct (parse_message_body (S fuel) n [] [] inner); simpl in Hin |- *; try done.
    + apply Hgo. destruct Hs2. eapply shorter_suffix; [exact E3|done].
    + intros Ht. apply Hin, Hascii. eapply suffix_ascii; [apply Hs2|done].
  - apply Hgo. eapply suffix_shorter; [apply skip_statement_suffix|done].
Qed.
End total.

(** [parse_proto] returns a result or an error on every text, whatever is unbalanced or
    unterminated in it: each turn of its loops, at every depth of nested messages, consumes
    text.  It panics only on texts with characters beyond ASCII (the error message of a
    field that is missing is cut at a byte). *)
Theorem parse_proto_total `{Unicode} (text : input) :
  match parse_proto text with
  | POk _ _ | PErr => True
  | PPanic => exists c, c ∈ text /\ 128 <= c
  | PFuel => False
  end.
Proof.
  unfold parse_proto. pose proof (parse_messages_fine (S (length (strip_proto_comments text))) [] _ (Nat.lt_succ_diag_r _)) as Hfine.
  destruct (parse_messages _ _ _); simpl in Hfine; try done.
  destruct (decide (Exists (fun c => 128 <= c) text)) as [He|Hne].
  - by apply list.Exists_exists in He.
  - exfalso. apply Hfine, strip_comments_ascii. apply list.not_Exists_Forall in Hne; [|apply _].
    eapply list.Forall_impl; [exact Hne|]. simpl. lia.
Qed.

(** ** Printing definitions *)

(** An identifier of ASCII characters, without dots. *)
Definition is_ident (s : string) : bool :=
  match chars s with
  | c :: r => (is_upper c || is_lower c || Ascii.eqb c "_") && forallb ascii_word_char r
  | [] => false
  end.
Definition statement_words : list string :=
  ["repeated"; "optional"; "required"; "option"; "reserved"; "extensions"; "extend"; "message"; "enum"; "oneof"].

(** The words of a field after the first one. *)
Definition field_end (f : ProtoField) : input :=
  cps " " ++ cps (f_name f) ++ cps " = " ++ cps (digits (number f)) ++ cps ";".
Definition field_proto (f : ProtoField) : input :=
  cps " " ++ (if repeated f then cps "repeated" ++ cps " " else []) ++ cps (proto_type f) ++ field_end f.

Definition message_text (name : string) (body : input) : input :=
  cps " message " ++ cps name ++ cps " {" ++ body ++ cps "}".

(** The body of a message: its fields, then the messages nested in it, the last of the list
    first. *)
Fixpoint body_proto (m : ProtoMessage) : input :=
  match m with
  | mkMessage _ fields nested =>
      flat_map field_proto fields ++
      (fix go (l : list (string * ProtoMessage)) : input :=
         match l with [] => [] | (k, n) :: l => go l ++ message_text k (body_proto n) end) nested ++ cps " "
  end.
Fixpoint proto_text (messages : list (string * ProtoMessage)) : input :=
  match messages with [] => [] | (k, m) :: l => proto_text l ++ message_text k (body_proto m) end.

Definition field_printable (f : ProtoField) : Prop :=
  is_ident (f_name f) = true /\ is_ident (proto_type f) = true /\ (proto_type f ∉ statement_words) /\ 0 <= number f < 2 ^ 32.

(** Messages that a text can define: names are identifiers, a message is stored under its
    own name, and no two in the same place have the same name. *)
Fixpoint message_printable (k : string) (m : ProtoMessage) : Prop :=
  match m with
  | mkMessage name fields nested =>
      k = name /\ is_ident name = true /\ Forall field_printable fields /\ NoDup nested.*1 /\
      (fix all (l : list (string * ProtoMessage)) : Prop :=
         match l with [] => True | (k, n) :: l => message_printable k n /\ all l end) nested
  end.

Lemma body_proto_eq name fields nested : body_proto (mkMessage name fields nested) =
  flat_map field_proto fields ++ proto_text nested ++ cps " ".
Proof. done. Qed.

Lemma nested_printable k name fields nested : message_printable k (mkMessage name fields nested) ->
  k = name /\ is_ident name = true /\ Forall field_printable fields /\ NoDup nested.*1 /\
  Forall (fun km => message_printable km.1 km.2) nested.
Proof.
  cbn [message_printable]. intros (-> & Hn & Hf & Hd & Hall). split_and!; try done. clear -Hall.
  induction nested as [|[k m] l IH]; [constructor|]. destruct Hall as [Hm Hl]. constructor; [done|]. by apply IH.
Qed.

(** ** Characters of the text *)

(** Characters that are nothing special to a scanner; nor to [strip_proto_comments]. *)
Definition plain_char (c : Z) : Prop := c <> quote /\ c <> code "/".
Definition flat_char (c : Z) : Prop := plain_char c /\ c <> code "{" /\ c <> code "}".

Lemma flat_plain s : Forall flat_char s -> Forall plain_char s.
Proof. intros Hs. eapply list.Forall_impl; [exact Hs|]. by intros c []. Qed.

Lemma strip_comments_plain s : Forall plain_char s -> strip_comments InCode s = s.
Proof.
  induction 1 as [|c r [Hq Hs] _ IH]; [done|]. cbn [strip_comments].
  rewrite (proj2 (Z.eqb_neq _ _) Hq), (proj2 (Z.eqb_neq _ _) Hs). simpl. by rewrite IH.
Qed.

(** A text whose braces are balanced: a scanner in a block passes over it. *)
Definition closed (a : input) : Prop := forall d b,
  block_scan (S d) Code (a ++ b) = (block_scan (S d) Code b ≫= fun xy => Some (a ++ xy.1, xy.2)).

Lemma closed_nil : closed [].
Proof. intros d b. simpl. by destruct (block_scan _ _ b) as [[]|]. Qed.

Lemma closed_app a b : closed a -> closed b -> closed (a ++ b).
Proof.
  intros Ha Hb d s. rewrite <- app_assoc, Ha, Hb. destruct (block_scan _ _ s) as [[x y]|]; [|done]. simpl. by rewrite app_assoc.
Qed.

Lemma closed_flat a : Forall flat_char a -> closed a.
Proof.
  induction 1 as [|c r [[Hq _] [Ho Hc]] _ IH]; [apply closed_nil|]. intros d b. cbn [app block_scan].
  rewrite (proj2 (Z.eqb_neq _ _) Ho), (proj2 (Z.eqb_neq _ _) Hc). cbn [text_step]. rewrite (proj2 (Z.eqb_neq _ _) Hq), IH.
  by destruct (block_scan _ _ b) as [[]|].
Qed.

Lemma scan_block a d s : closed a -> block_scan (S d) Code (a ++ code "}" :: s) =
  match d with O => Some (a, s) | _ => block_scan d Code s ≫= fun xy => Some (a ++ code "}" :: xy.1, xy.2) end.
Proof.
  intros Ha. rewrite Ha. destruct d as [|d]; [simpl; by rewrite app_nil_r|].
  change (block_scan (S (S d)) Code (code "}" :: s)) with ('(x, y) ← block_scan (S d) Code s; Some (code "}" :: x, y)).
  by destruct (block_scan (S d) Code s) as [[x y]|].
Qed.

Lemma closed_block a : closed a -> closed (code "{" :: a ++ cps "}").
Proof.
  intros Ha d b. change ((code "{" :: a ++ cps "}") ++ b) with (code "{" :: (a ++ cps "}") ++ b). rewrite <- app_assoc.
  change (block_scan (S d) Code (code "{" :: a ++ cps "}" ++ b))
    with ('(x, y) ← block_scan (S (S d)) Code (a ++ code "}" :: b); Some (code "{" :: x, y)).
  rewrite scan_block by done. destruct (block_scan (S d) Code b) as [[x y]|]; [|done]. simpl. by rewrite <- app_assoc.
Qed.

Lemma forallb_Forall {A} (p : A -> bool) l : forallb p l = true -> Forall (fun x => p x = true) l.
Proof. intros Hl. apply list.Forall_forall. intros x Hx. apply (proj1 (List.forallb_forall p l) Hl). by apply list_elem_of_In. Qed.

Lemma ident_word w : is_ident w = true -> is_word w.
Proof.
  unfold is_ident, is_word. destruct w as [|a w]; [done|]. cbn [chars String.list_ascii_of_string].
  rewrite andb_true_iff. intros [Ha Hw]. split; [done|]. constructor.
  - unfold ascii_word_char, is_ascii_alphanumeric. apply orb_true_iff in Ha as [Ha| ->]; [|by rewrite orb_true_r].
    apply orb_true_iff in Ha as [-> | ->]; by rewrite ?orb_true_r.
  - by apply forallb_Forall.
Qed.

Lemma flat_code c : c ∉ [double_quote; "/"; "{"; "}"]%char -> flat_char (code c).
Proof.
  intros Hc. rewrite !list.not_elem_of_cons in Hc. destruct Hc as (H1 & H2 & H3 & H4 & _).
  unfold flat_char, plain_char. change quote with (code double_quote).
  split_and!; intros ?%code_inj; contradiction.
Qed.

Lemma flat_text s : forallb (fun c => bool_decide (c ∉ [double_quote; "/"; "{"; "}"]%char)) (chars s) = true -> Forall flat_char (cps s).
Proof.
  intros Hs%forallb_Forall. unfold cps. apply List.Forall_map. eapply list.Forall_impl; [exact Hs|].
  intros c ?%bool_decide_eq_true. by apply flat_code.
Qed.

Lemma word_flat w : Forall (fun c => ascii_word_char c = true) (chars w) -> Forall flat_char (cps w).
Proof.
  intros Hw. unfold cps. apply List.Forall_map. eapply list.Forall_impl; [exact Hw|]. intros c Hc. apply flat_code.
  intros Hin. repeat (apply elem_of_cons in Hin as [-> |Hin]; [done|]). by apply elem_of_nil in Hin.
Qed.

Lemma digits_chars n : 0 <= n -> Forall (fun c => is_digit c = true) (cps (digits n)) /\ Forall flat_char (cps (digits n)).
Proof.
  intros Hn. destruct (digits_word n Hn) as [_ Hw]. split; [|by apply word_flat]. destruct (digits_spec n Hn) as (l & Hl & _ & _ & Hall).
  unfold cps. rewrite Hl. apply List.Forall_map. eapply list.Forall_impl; [exact Hall|]. intros c Hc. by apply digit_code_facts.
Qed.

Lemma field_flat f : field_printable f -> Forall flat_char (field_proto f).
Proof.
  intros (Hn & Ht & _ & Hnum). unfold field_proto, field_end. apply ident_word in Hn as [_ Hn], Ht as [_ Ht].
  rewrite !Forall_app. split_and!; try (by apply flat_text); try (by apply word_flat); [|apply digits_chars; lia].
  destruct (repeated f); [|constructor]. rewrite Forall_app. split; by apply flat_text.
Qed.

Lemma closed_message k b : is_ident k = true -> closed b -> closed (message_text k b).
Proof.
  intros [_ Hk]%ident_word Hb. unfold message_text. apply closed_app; [by apply closed_flat, flat_text|].
  apply closed_app; [by apply closed_flat, word_flat|].
  change (cps " {" ++ b ++ cps "}") with (cps " " ++ code "{" :: b ++ cps "}").
  apply closed_app; [by apply closed_flat, flat_text|]. by apply closed_block.
Qed.

Lemma plain_message k b : is_ident k = true -> Forall plain_char b -> Forall plain_char (message_text k b).
Proof.
  intros [_ Hk]%ident_word Hb. unfold message_text. rewrite !Forall_app.
  split_and!; try done; try (by repeat constructor). by apply flat_plain, word_flat.
Qed.

(** The body of a printable message is balanced, and free of comments. *)
Lemma body_chars k m : message_printable k m -> closed (body_proto m) /\ Forall plain_char (body_proto m).
Proof.
  revert k. induction m as [name fields nested IH] using ProtoMessage_ind'. intros k (_ & _ & Hf & _ & Hall)%nested_printable.
  rewrite body_proto_eq. assert (Hfields : Forall flat_char (flat_map field_proto fields)).
  { clear -Hf. induction Hf as [|f l Hf _ IHl]; [constructor|]. cbn [flat_map]. rewrite Forall_app. split; [by apply field_flat|done]. }
  assert (Hn : closed (proto_text nested) /\ Forall plain_char (proto_text nested)).
  { clear -IH Hall. induction IH as [|[k m] l Hm _ IHl]; [split; [apply closed_nil|constructor]|].
    apply list.Forall_cons in Hall as [Hp Hall]. simpl in Hp. destruct (Hm _ Hp) as [H1 H2], (IHl Hall) as [H3 H4].
    assert (is_ident k = true) as Hk by (destruct m; by apply nested_printable in Hp as (-> & ? & _)).
    cbn [proto_text]. rewrite Forall_app. split_and!; [apply closed_app; [done|by apply closed_message]|done|by apply plain_message]. }
  destruct Hn as [Hn1 Hn2]. split.
  - apply closed_app; [by apply closed_flat|]. apply closed_app; [done|]. by apply closed_flat, flat_text.
  - rewrite !Forall_app. split_and!; [by apply flat_plain|done|by repeat constructor].
Qed.

(** ** Reading the text *)

Section reading.
Context `{Unicode}.

(** What may follow an identifier. *)
Definition stops_ident (rest : input) : Prop := match rest with c :: _ => ident_char c = false | [] => True end.

Lemma consume_word w rest : is_ident w = true -> stops_ident rest -> consume_ident (cps w ++ rest) = (Some w, rest).
Proof.
  intros Hi Hr. pose proof (ident_word w Hi) as Hw.
  pose proof (is_word_ascii w Hw) as Hascii. unfold consume_ident. rewrite skip_word by done.
  destruct Hw as [_ Hw]. unfold is_ident in Hi. destruct w as [|a w]; [done|]. cbn [chars String.list_ascii_of_string] in Hi, Hw.
  apply andb_true_iff in Hi as [Ha _]. apply list.Forall_cons in Hw as [_ Hw].
  change (cps (String a w) ++ rest) with (code a :: (cps w ++ rest)). cbn [chars String.list_ascii_of_string].
  replace (is_alphabetic (code a) || (code a =? code "_")) with true.
  - rewrite span_stop; [| |done].
    + f_equal. f_equal. by apply (to_str_cps (String a w)).
    + unfold cps. apply List.Forall_map. eapply list.Forall_impl; [exact Hw|]. intros c Hc. unfold ident_char.
      pose proof (proj1 (ascii_word_char_code c Hc)) as Hwc. unfold word_char in Hwc. by rewrite Hwc.
  - symmetry. apply orb_true_iff in Ha as [Ha|Ha%Ascii.eqb_eq]; [|by subst]. unfold is_upper, is_lower in Ha. unfold is_alphabetic.
    pose proof (code_range a). rewrite orb_true_iff, !andb_true_iff, !Z.leb_le in Ha.
    rewrite (proj2 (Z.ltb_lt (code a) 128)) by lia. rewrite !orb_true_iff, !andb_true_iff, !Z.leb_le. lia.
Qed.

Lemma consume_space s : consume_ident (32 :: s) = consume_ident s.
Proof. unfold consume_ident. by rewrite skip_space. Qed.

Lemma consume_spaced w rest : is_ident w = true -> stops_ident rest -> consume_ident (cps " " ++ cps w ++ rest) = (Some w, rest).
Proof. intros. change (cps " " ++ cps w ++ rest) with (32 :: (cps w ++ rest)). rewrite consume_space. by apply consume_word. Qed.

(** A keyword and a space start only the text of that keyword. *)
Lemma starts_word (kw w : list ascii) rest r : " "%char ∉ kw -> " "%char ∉ w ->
  strip_prefix (map code (kw ++ [" "%char])) (map code w ++ 32 :: rest) = Some r -> kw = w.
Proof.
  revert w. induction kw as [|a kw IH]; intros [|b w] Hkw Hw; cbn [app map strip_prefix]; [done|..].
  - case_match; [|done]. apply Z.eqb_eq in H0. apply list.not_elem_of_cons in Hw as [Hw _]. by apply (code_inj " ") in H0.
  - case_match; [|done]. apply Z.eqb_eq in H0. apply list.not_elem_of_cons in Hkw as [Hkw _]. change 32 with (code " ") in H0. by apply code_inj in H0.
  - apply list.not_elem_of_cons in Hkw as [_ Hkw], Hw as [_ Hw]. case_match; [|done]. apply Z.eqb_eq, code_inj in H0 as ->.
    intros Hr. f_equal. by eapply IH.
Qed.

Lemma word_no_space w : Forall (fun c => ascii_word_char c = true) (chars w) -> " "%char ∉ chars w.
Proof. intros Hw Hin. by apply (proj1 (list.Forall_forall _ _) Hw) in Hin. Qed.

Lemma starts_other kw w rest : kw ∈ ["message"; "enum"; "oneof"] -> is_ident w = true -> w <> kw ->
  starts_with (kw +:+ " ") (cps w ++ 32 :: rest) = false.
Proof.
  intros Hkw [_ Hw]%ident_word Hne. unfold starts_with. apply bool_decide_eq_false. intros [r Hr]. apply Hne.
  rewrite <- (of_chars_chars w), <- (of_chars_chars kw). f_equal. symmetry. eapply starts_word; [..|apply word_no_space, Hw|].
  - apply word_no_space. clear -Hkw. repeat (apply elem_of_cons in Hkw as [-> |Hkw]; [by repeat constructor|]). by apply elem_of_nil in Hkw.
  - unfold cps in Hr. erewrite <- Hr. f_equal. f_equal. clear. induction kw as [|a kw IH]; [done|]. exact (f_equal (cons a) IH).
Qed.

Lemma last_segment_word w : is_ident w = true -> last_segment w = w.
Proof.
  intros Hw%ident_word. pose proof (is_word_ascii _ Hw) as Hascii. unfold last_segment. rewrite ascii_str by done.
  assert (Hsplit : forall cur s, code "." ∉ s -> split_char (code ".") cur s = [rev cur ++ s]).
  { intros cur s. revert cur. induction s as [|x s IH]; intros cur; simpl; [by rewrite app_nil_r|].
    rewrite list.not_elem_of_cons. intros [Hx Hs]. rewrite (proj2 (Z.eqb_neq _ _)) by done. rewrite IH by done. simpl. by rewrite <- app_assoc. }
  rewrite Hsplit; [simpl; by apply to_str_cps|]. destruct Hw as [_ Hw]. unfold cps. intros (c & Hc & Hin)%list_elem_of_fmap.
  apply code_inj in Hc as <-. by apply (proj1 (list.Forall_forall _ _) Hw) in Hin.
Qed.

Lemma parse_number_text n : 0 <= n -> parse_digits (chars (to_str (cps (digits n)))) = Some n.
Proof. intros Hn. rewrite to_str_cps; [by apply parse_digits_text|]. by apply is_word_ascii, digits_word. Qed.

Lemma not_word w (l : list string) : (w ∉ statement_words) ->
  forallb (fun x => bool_decide (x ∈ statement_words)) l = true -> w ∉ l.
Proof. intros Hw Hl%forallb_Forall Hin. apply Hw. by apply (proj1 (list.Forall_forall _ _) Hl), bool_decide_eq_true in Hin. Qed.

(** A field is read, whatever follows it. *)
Lemma parse_field_text f rest : field_printable f ->
  let first := if repeated f then "repeated" else proto_type f in
  parse_field first ((if repeated f then cps " " ++ cps (proto_type f) else []) ++ field_end f ++ rest) = POk (Some f) rest.
Proof.
  intros (Hn & Ht & Hw & Hnum) first. unfold parse_field.
  assert (Htype : (if bool_decide (first ∈ ["repeated"; "optional"; "required"])
      then consume_ident ((if repeated f then cps " " ++ cps (proto_type f) else []) ++ field_end f ++ rest)
      else (Some first, (if repeated f then cps " " ++ cps (proto_type f) else []) ++ field_end f ++ rest))
    = (Some (proto_type f), field_end f ++ rest)).
  { subst first. destruct (repeated f).
    - rewrite bool_decide_eq_true_2 by apply list_elem_of_here. rewrite <- app_assoc. by apply consume_spaced.
    - rewrite bool_decide_eq_false_2; [done|by apply not_word]. }
  rewrite Htype. rewrite bool_decide_eq_false_2 by (by apply not_word).
  unfold field_end. rewrite <- !app_assoc, consume_spaced by done.
  change (expect "=" (cps " = " ++ cps (digits (number f)) ++ cps ";" ++ rest)) with (true, 32 :: cps (digits (number f)) ++ cps ";" ++ rest).
  cbv beta iota. rewrite skip_space, skip_word by (apply digits_word; lia). rewrite span_stop by (try apply digits_chars; try lia; done).
  rewrite parse_number_text by lia. rewrite (proj2 (Z.ltb_lt _ _)) by lia. rewrite last_segment_word by done.
  change (skip_statement (cps ";" ++ rest)) with rest. f_equal. f_equal. destruct f as [name ty num rep]. simpl in *. f_equal.
  subst first. destruct rep; [done|]. apply bool_decide_eq_false_2. intros ->. apply Hw, list_elem_of_here.
Qed.

Lemma body_field f fuel name fields nested rest : field_printable f ->
  parse_message_body (S fuel) name fields nested (field_proto f ++ rest) = parse_message_body fuel name (fields ++ [f]) nested rest.
Proof.
  intros Hf. pose proof (parse_field_text f rest Hf) as Hread. destruct Hf as (Hn & Ht & Hw & Hnum).
  set (first := if repeated f then "repeated" else proto_type f) in Hread.
  assert (Hfirst : is_ident first = true /\ first ∉ ["message"; "enum"; "oneof"]).
  { subst first. destruct (repeated f); [split; [done|]; by apply (bool_decide_eq_true_1 _)|]. split; [done|by apply not_word]. }
  destruct Hfirst as [Hi Hne]. set (tail := (if repeated f then cps " " ++ cps (proto_type f) else []) ++ field_end f ++ rest) in Hread.
  assert (Htail : exists t, tail = 32 :: t) by (subst tail; destruct (repeated f); by eexists). destruct Htail as [t Ht'].
  replace (field_proto f ++ rest) with (32 :: (cps first ++ tail)).
  2:{ subst first tail. unfold field_proto. destruct (repeated f); rewrite <- ?app_assoc; reflexivity. }
  cbn [parse_message_body]. rewrite skip_space, skip_word by (by apply ident_word).
  rewrite bool_decide_eq_false_2 by (by destruct first).
  assert (Hkw : forall kw, kw ∈ ["message"; "enum"; "oneof"] -> starts_with (kw +:+ " ") (cps first ++ tail) = false).
  { intros kw Hkw. rewrite Ht'. apply starts_other; [done|done|]. by intros ->. }
  change "message " with ("message" +:+ " "). change "enum " with ("enum" +:+ " "). change "oneof " with ("oneof" +:+ " ").
  rewrite !Hkw by (by apply (bool_decide_eq_true_1 _)). simpl orb. rewrite consume_word by (rewrite ?Ht'; done). by rewrite Hread.
Qed.

Lemma body_fields fs fuel name fields nested rest : Forall field_printable fs ->
  parse_message_body (length fs + fuel) name fields nested (flat_map field_proto fs ++ rest) =
  parse_message_body fuel name (fields ++ fs) nested rest.
Proof.
  intros Hfs. revert fields. induction Hfs as [|f fs Hf _ IH]; intros fields; [by rewrite app_nil_r|].
  cbn [flat_map length Nat.add]. rewrite <- app_assoc, body_field by done. rewrite IH, <- app_assoc. done.
Qed.

Lemma consume_message k b rest : is_ident k = true -> closed b ->
  consume_ident (cps " " ++ cps k ++ cps " {" ++ b ++ cps "}" ++ rest) = (Some k, cps " {" ++ b ++ cps "}" ++ rest) /\
  consume_block (cps " {" ++ b ++ cps "}" ++ rest) = (Some b, rest).
Proof.
  intros Hk Hb. split; [by apply consume_spaced|]. unfold consume_block.
  change (skip_whitespace (cps " {" ++ b ++ cps "}" ++ rest)) with (code "{" :: b ++ code "}" :: rest). simpl looking_at. cbn iota.
  change (drop 1 (code "{" :: b ++ code "}" :: rest)) with (b ++ code "}" :: rest). by rewrite scan_block.
Qed.

Lemma insert_new k m l : k ∉ l.*1 -> insert_message k m l = (k, m) :: l.
Proof.
  intros Hk. unfold insert_message. f_equal. induction l as [|[k' m'] l IH]; [done|]. cbn in Hk |- *.
  apply list.not_elem_of_cons in Hk as [Hne Hk]. rewrite bool_decide_eq_false_2 by done. simpl. by rewrite IH.
Qed.

Lemma body_message k b m fuel name fields nested rest : is_ident k = true -> closed b ->
  parse_message_body fuel k [] [] b = POk m [] ->
  parse_message_body (S fuel) name fields nested (message_text k b ++ rest) =
  parse_message_body fuel name fields (insert_message k m nested) rest.
Proof.
  intros Hk Hb Hm. destruct (consume_message k b rest Hk Hb) as [Hc1 Hc2].
  unfold message_text. rewrite <- !app_assoc.
  change (cps " message " ++ cps k ++ cps " {" ++ b ++ cps "}" ++ rest)
    with (32 :: (cps "message" ++ cps " " ++ cps k ++ cps " {" ++ b ++ cps "}" ++ rest)).
  remember (cps " {" ++ b ++ cps "}" ++ rest) as tail eqn:Htail. clear Htail.
  cbn [parse_message_body]. rewrite skip_space, skip_word by (by apply ident_word).
  rewrite bool_decide_eq_false_2 by done.
  replace (starts_with "message " (cps "message" ++ cps " " ++ cps k ++ tail)) with true
    by (symmetry; apply bool_decide_eq_true; by eexists).
  rewrite consume_word by done. cbn [snd]. by rewrite Hc1, Hc2, Hm.
Qed.

(** What the parser makes of the body of a message. *)
Definition body_read (fuel : nat) (k : string) (m : ProtoMessage) : Prop :=
  parse_message_body fuel k [] [] (body_proto m) = POk m [].

Lemma body_nested l fuel name fields rest : Forall (fun km => message_printable km.1 km.2) l -> NoDup l.*1 ->
  (forall n, (fuel <= n)%nat -> Forall (fun km => body_read n km.1 km.2) l) ->
  parse_message_body (length l + fuel) name fields [] (proto_text l ++ rest) = parse_message_body fuel name fields l rest.
Proof.
  intros Hl Hd Hread. revert fuel rest Hread. induction Hl as [|[k m] l Hm Hl IH]; intros fuel rest Hread; [done|].
  cbn [proto_text length]. rewrite <- app_assoc. cbn in Hd, Hm. apply list.NoDup_cons in Hd as [Hk Hd].
  replace (S (length l) + fuel)%nat with (length l + S fuel)%nat by lia.
  rewrite IH; [|done|].
  - rewrite body_message with (m := m).
    + by rewrite insert_new.
    + destruct m. by apply nested_printable in Hm as (-> & ? & _).
    + by eapply body_chars.
    + specialize (Hread fuel ltac:(lia)). by apply list.Forall_cons in Hread as [? _].
  - intros n Hn. specialize (Hread n ltac:(lia)). by apply list.Forall_cons in Hread as [_ ?].
Qed.

Lemma proto_text_length l k m : (k, m) ∈ l -> (length l + length (body_proto m) <= length (proto_text l))%nat.
Proof.
  assert (Htext : forall k b, (10 + length b <= length (message_text k b))%nat).
  { intros k' b. unfold message_text. rewrite !length_app. simpl. lia. }
  assert (Hlen : forall l, (length l <= length (proto_text l))%nat).
  { induction l0 as [|[k' m'] l0 IH]; [simpl; lia|]. cbn [proto_text length]. rewrite length_app.
    specialize (Htext k' (body_proto m')). lia. }
  induction l as [|[k' m'] l IH]; [by intros ?%elem_of_nil|]. cbn [proto_text length]. rewrite length_app.
  specialize (Htext k' (body_proto m')). intros [Heq|Hin]%elem_of_cons.
  - injection Heq as -> ->. specialize (Hlen l). lia.
  - specialize (IH Hin). lia.
Qed.

Lemma fields_length fs : (length fs <= length (flat_map field_proto fs))%nat.
Proof.
  induction fs as [|f fs IH]; cbn [flat_map length]; [lia|]. rewrite length_app.
  assert (1 <= length (field_proto f))%nat by (unfold field_proto; rewrite length_app; simpl; lia). lia.
Qed.

Lemma body_reads k m fuel : message_printable k m -> (length (body_proto m) < fuel)%nat -> body_read fuel k m.
Proof.
  revert k fuel. induction m as [name fields nested IH] using ProtoMessage_ind'. intros k fuel Hm Hlen.
  pose proof (nested_printable _ _ _ _ Hm) as (-> & Hname & Hf & Hd & Hall). unfold body_read.
  rewrite body_proto_eq in Hlen |- *. rewrite !length_app in Hlen. pose proof (fields_length fields) as Hfl.
  assert (Hl : (length nested <= length (proto_text nested))%nat).
  { destruct nested as [|[k m] l]; [simpl; lia|]. pose proof (proto_text_length ((k, m) :: l) k m ltac:(apply list_elem_of_here)). lia. }
  simpl in Hlen. replace fuel with (length fields + (length nested + (fuel - length fields - length nested)))%nat by lia.
  rewrite body_fields by done. rewrite body_nested; [|done|done|].
  - destruct (fuel - length fields - length nested)%nat eqn:E; [lia|]. done.
  - intros n Hn. apply list.Forall_forall. intros [k m] Hin. simpl.
    pose proof (proto_text_length nested k m Hin). apply (proj1 (list.Forall_forall _ _) IH _ Hin).
    + by apply (proj1 (list.Forall_forall _ _) Hall _ Hin).
    + cbn [snd]. lia.
Qed.

Lemma messages_step k m fuel messages rest : message_printable k m -> (length (body_proto m) < S fuel)%nat ->
  parse_messages (S fuel) messages (message_text k (body_proto m) ++ rest) =
  parse_messages fuel (insert_message k m messages) rest.
Proof.
  intros Hm Hlen. assert (is_ident k = true) as Hk by (destruct m; by apply nested_printable in Hm as (-> & ? & _)).
  pose proof (body_reads k m (S fuel) Hm Hlen) as Hread. unfold body_read in Hread.
  destruct (consume_message k (body_proto m) rest Hk ltac:(by eapply body_chars)) as [Hc1 Hc2].
  unfold message_text. rewrite <- !app_assoc.
  change (cps " message " ++ cps k ++ cps " {" ++ body_proto m ++ cps "}" ++ rest)
    with (32 :: (cps "message" ++ cps " " ++ cps k ++ cps " {" ++ body_proto m ++ cps "}" ++ rest)).
  remember (cps " {" ++ body_proto m ++ cps "}" ++ rest) as tail eqn:Htail. clear Htail. remember (body_proto m) as b.
  cbn [parse_messages]. rewrite skip_space, skip_word by (by apply ident_word).
  rewrite bool_decide_eq_false_2 by done. rewrite consume_word by done. rewrite bool_decide_eq_true_2 by done.
  by rewrite Hc1, Hc2, Hread.
Qed.

Lemma messages_read l fuel rest : Forall (fun km => message_printable km.1 km.2) l -> NoDup l.*1 ->
  (forall k m, (k, m) ∈ l -> length (body_proto m) < fuel)%nat ->
  parse_messages (length l + fuel) [] (proto_text l ++ rest) = parse_messages fuel l rest.
Proof.
  intros Hl Hd. revert fuel rest. induction Hl as [|[k m] l Hm Hl IH]; intros fuel rest Hlen; [done|].
  cbn [proto_text length]. rewrite <- app_assoc. cbn in Hd, Hm. apply list.NoDup_cons in Hd as [Hk Hd].
  replace (S (length l) + fuel)%nat with (length l + S fuel)%nat by lia. rewrite IH; [|done|].
  - rewrite messages_step; [by rewrite insert_new|done|]. specialize (Hlen k m ltac:(apply list_elem_of_here)). lia.
  - intros k' m' Hin. specialize (Hlen k' m' ltac:(by apply elem_of_cons; right)). lia.
Qed.

(** C13. Definitions are read back: on the text of message definitions — fields with their
    labels, types and numbers, then the messages nested in them, to any depth — whose names
    are identifiers, distinct in each scope, [parse_proto] returns these definitions. *)
Theorem parse_proto_text messages : Forall (fun km => message_printable km.1 km.2) messages -> NoDup messages.*1 ->
  parse_proto (proto_text messages) = POk messages [].
Proof.
  intros Hall Hd. unfold parse_proto, strip_proto_comments. rewrite strip_comments_plain.
  - pose proof (proto_text_length messages) as Hlen.
    replace (S (length (proto_text messages))) with (length messages + (S (length (proto_text messages)) - length messages))%nat.
    + rewrite <- (app_nil_r (proto_text messages)) at 2. rewrite messages_read; [|done|done|].
      * destruct (S _ - _)%nat eqn:E; [|done]. destruct messages as [|[k m] l]; [done|].
        specialize (Hlen k m ltac:(apply list_elem_of_here)). lia.
      * intros k m Hin. specialize (Hlen k m Hin). lia.
    + destruct messages as [|[k m] l]; [done|]. specialize (Hlen k m ltac:(apply list_elem_of_here)). lia.
  - clear Hd. induction Hall as [|[k m] l Hm Hl IH]; [constructor|]. cbn [proto_text]. rewrite Forall_app. split; [done|].
    simpl in Hm. apply plain_message; [|by eapply body_chars]. destruct m. by apply nested_printable in Hm as (-> & ? & _).
Qed.
End reading.

(** ** Concrete definitions *)

Module ProtoTextSample.
Import ParserFacts.ParserSample.

Definition definitions : list (string * ProtoMessage) :=
  [("Frame", mkMessage "Frame"
      [mkField "id" "uint64" 1 false; mkField "at" "Point" 2 false; mkField "tags" "string" 3 true]
      [("Point", mkMessage "Point" [mkField "x" "sint32" 1 false; mkField "y" "double" 2 false] [])]);
   ("Empty", mkMessage "Empty" [] [])].

Lemma definitions_text : to_str (proto_text definitions) = " message Empty { } message Frame { uint64 id = 1; Point at = 2; repeated string tags = 3; message Point { sint32 x = 1; double y = 2; } }".
Proof. vm_compute. reflexivity. Qed.

(** Comments, options and enumerations are skipped; qualified types lose their package. *)
Lemma skipped_statements :
  parse_proto (cps "syntax = 'proto3'; /* a } brace */ message M { option x = 1; enum E { A = 0; } optional .a.b.T f = 7 [deprecated = true]; // end")
    = PErr /\
  parse_proto (cps "syntax = 'proto3'; /" ++ cps "* a } brace *" ++ cps "/ message M { option x = 1; enum E { A = 0; } optional a.b.T f = 7 [deprecated = true]; }")
    = POk [("M", mkMessage "M" [mkField "f" "T" 7 false] [])] [] /\
  parse_proto (cps "message M { oneof choice { int32 a = 1; string b = 2; } }") = POk [("M", mkMessage "M" [] [])] [] /\
  parse_proto (cps "message M { 1 = x; }") = PErr /\
  parse_proto (cps "message M { -aaaaaaaaaaaaaaaaaa" ++ [233] ++ cps "x; }") = PPanic.
Proof. split_and!; vm_compute; reflexivity. Qed.
End ProtoTextSample.

Import ParserFacts.ParserSample.

Lemma parse_proto_text_witness :
  parse_proto (proto_text ProtoTextSample.definitions) = POk ProtoTextSample.definitions [].
Proof.
  apply parse_proto_text.
  - repeat first [apply list.Forall_nil_2 | apply list.Forall_cons_2 | split];
      first [reflexivity | by apply (bool_decide_unpack _) | by vm_compute].
  - by apply (bool_decide_unpack _).
Defined.
