(* ===== verification/Aggregates.v ===== *)
(** * Aggregates: batch functions and row-free accumulators
      ([crates/rekuiper-sql/src/eval/aggregate.rs], [Acc] of [eval/window.rs])

    [agg_*] compute an aggregate over the rows of a window; [Acc] computes the same
    aggregates one row at a time.  The code promises that the second mirrors the
    first exactly; the theorems say when it does. *)

From Stdlib Require Import SpecFloat.
From S2P Require Import Prelude Rust Json Ast Engine Values.

Set Default Goal Selector "!".

Definition f64_neg_zero : f64 := S754_zero true.
Definition f64_sqrt : f64 -> f64 := SFsqrt 53 1024.

(** [Iterator::sum] of [f64] starts from the neutral element -0.0. *)
Definition f64_sum (l : list f64) : f64 := foldl f64_add f64_neg_zero l.

Definition is_wildcard (e : Expr) : bool := match e with Wildcard => true | _ => false end.

(** ** Batch aggregates *)

Section batch.
Context `{ExprEval}.

Definition agg_count (args : list Expr) (records : list row) : value :=
  match args with
  | [] => VNull
  | [Wildcard] => value_of_i64 (Z.of_nat (length records))
  | arg :: _ =>
      value_of_i64 (foldl (fun n rec => if is_null (eval_val arg rec) then n else n + 1) 0 records)
  end.

Definition agg_numeric_values (arg : Expr) (records : list row) : list value :=
  filter (fun v => is_null v = false /\ is_number v = true) ((fun rec => eval_val arg rec) <$> records).

Definition floats (vals : list value) : list f64 := omap as_f64 vals.

(** [None] when a value is no [i64] or a partial sum overflows. *)
Fixpoint sum_i64 (acc : Z) (vals : list value) : option Z :=
  match vals with
  | [] => Some acc
  | v :: r => i ← as_i64 v; n ← checked_add acc i; sum_i64 n r
  end.

Definition agg_sum (args : list Expr) (records : list row) : value :=
  match args with
  | [arg] =>
      if is_wildcard arg then VNull
      else
        let vals := agg_numeric_values arg records in
        if bool_decide (vals = []) then VNull
        else if forallb (fun v => bool_decide (is_Some (as_i64 v))) vals then
          match sum_i64 0 vals with
          | Some acc => value_of_i64 acc
          | None => value_of_f64 (f64_sum (floats vals))
          end
        else value_of_f64 (f64_sum (floats vals))
  | _ => VNull
  end.

Definition agg_avg (args : list Expr) (records : list row) : value :=
  match args with
  | [arg] =>
      if is_wildcard arg then VNull
      else
        let vals := agg_numeric_values arg records in
        if bool_decide (vals = []) then VNull
        else value_of_f64 (f64_div (f64_sum (floats vals)) (f64_of_Z (Z.of_nat (length vals))))
  | _ => VNull
  end.

(** The first value that no later one beats. *)
Definition best_by (wanted : comparison) (best v : value) : value :=
  if bool_decide (compare_values v best = Some wanted) then v else best.

Definition agg_extreme (wanted : comparison) (args : list Expr) (records : list row) : value :=
  match args with
  | [arg] =>
      if is_wildcard arg then VNull
      else
        let vals := filter (fun v => is_null v = false) ((fun rec => eval_val arg rec) <$> records) in
        let filtered := if existsb is_number vals then filter (fun v => is_number v = true) vals else vals in
        match filtered with
        | [] => VNull
        | first :: rest => foldl (best_by wanted) first rest
        end
  | _ => VNull
  end.

Definition agg_min : list Expr -> list row -> value := agg_extreme Datatypes.Lt.
Definition agg_max : list Expr -> list row -> value := agg_extreme Datatypes.Gt.

(** Welford's update of (count, mean, sum of squared deviations). *)
Definition welford (s : Z * f64 * f64) (x : f64) : Z * f64 * f64 :=
  let '(count, mean, m2) := s in
  let count := count + 1 in
  let delta := f64_sub x mean in
  let mean := f64_add mean (f64_div delta (f64_of_Z count)) in
  let delta2 := f64_sub x mean in
  (count, mean, f64_add m2 (f64_mul delta delta2)).

Definition agg_ssd (args : list Expr) (records : list row) : option (f64 * Z) :=
  match args with
  | [arg] =>
      if is_wildcard arg then None
      else
        let '(count, _, m2) :=
          foldl welford (0, f64_zero, f64_zero) (omap as_f64 ((fun rec => eval_val arg rec) <$> records)) in
        if count =? 0 then None else Some (m2, count)
  | _ => None
  end.

Definition agg_stddev (args : list Expr) (records : list row) : value :=
  match agg_ssd args records with
  | None => VNull
  | Some (ssd, n) => if n =? 0 then VNull else value_of_f64 (f64_sqrt (f64_div ssd (f64_of_Z n)))
  end.

Definition agg_stddevs (args : list Expr) (records : list row) : value :=
  match agg_ssd args records with
  | None => VNull
  | Some (ssd, n) => if n <? 2 then VNull else value_of_f64 (f64_sqrt (f64_div ssd (f64_of_Z (n - 1))))
  end.

Definition agg_var (args : list Expr) (records : list row) : value :=
  match agg_ssd args records with
  | None => VNull
  | Some (ssd, n) => if n =? 0 then VNull else value_of_f64 (f64_div ssd (f64_of_Z n))
  end.

Definition agg_vars (args : list Expr) (records : list row) : value :=
  match agg_ssd args records with
  | None => VNull
  | Some (ssd, n) => if n <? 2 then VNull else value_of_f64 (f64_div ssd (f64_of_Z (n - 1)))
  end.

(** [group_value]: plain columns are read from the row. *)
Definition group_value (e : Expr) (r : row) : value :=
  match e with
  | Identifier name => default VNull (r !! name)
  | _ => eval_val e r
  end.
End batch.

(** ** Accumulators *)

(** The DDSketch behind median and percentiles ([CompactDdSketch]). *)
Class Sketch := {
  sketch : Type;
  sketch_new : sketch;
  sketch_insert : f64 -> sketch -> sketch;
  sketch_quantile : f64 -> sketch -> option f64;
}.

Inductive AggKind :=
  | CountAll | Count | Sum | Avg | Min | Max | Stddev | Stddevs | Var | Vars | Median
  | Percentile (p : f64).

#[global] Instance AggKind_eq_dec : EqDecision AggKind.
Proof. solve_decision. Defined.

Section acc.
Context `{Sketch}.

Inductive Acc :=
  | AccCount (n : Z)
  | AccSum (int : Z) (float : f64) (int_ok any : bool)
  | AccAvg (sum : f64) (n : Z)
  | AccExtreme (best : option value)
  | AccWelford (kind : AggKind) (count : Z) (mean m2 : f64)
  | AccSketch (q : f64) (s : sketch).

Definition acc_new (kind : AggKind) : Acc :=
  match kind with
  | CountAll | Count => AccCount 0
  | Sum => AccSum 0 f64_zero true false
  | Avg => AccAvg f64_zero 0
  | Min | Max => AccExtreme None
  | Stddev | Stddevs | Var | Vars => AccWelford kind 0 f64_zero f64_zero
  | Median => AccSketch (f64_div (f64_of_Z 1) (f64_of_Z 2)) sketch_new
  | Percentile p => AccSketch p sketch_new
  end.

(** The value, if it is a number. *)
Definition numeric (v : option value) : option value :=
  x ← v; if is_number x then Some x else None.

Definition acc_update (kind : AggKind) (v : option value) (a : Acc) : Acc :=
  match a with
  | AccCount n =>
      if decide (kind = CountAll) then AccCount (n + 1)
      else match v with
           | Some x => if is_null x then a else AccCount (n + 1)
           | None => a
           end
  | AccSum int float int_ok any =>
      match numeric v with
      | None => a
      | Some x =>
          let float := f64_add float (default f64_zero (as_f64 x)) in
          if int_ok then
            match (i ← as_i64 x; checked_add int i) with
            | Some next => AccSum next float true true
            | None => AccSum int float false true
            end
          else AccSum int float false true
      end
  | AccAvg sum n =>
      match numeric v with
      | Some x => AccAvg (f64_add sum (default f64_zero (as_f64 x))) (n + 1)
      | None => a
      end
  | AccExtreme best =>
      match numeric v with
      | None => a
      | Some x =>
          let wanted := if decide (kind = Min) then Datatypes.Lt else Datatypes.Gt in
          match best with
          | None => AccExtreme (Some x)
          | Some current =>
              if bool_decide (compare_values x current = Some wanted) then AccExtreme (Some x) else a
          end
      end
  | AccWelford k count mean m2 =>
      match v ≫= as_f64 with
      | Some x => let '(count, mean, m2) := welford (count, mean, m2) x in AccWelford k count mean m2
      | None => a
      end
  | AccSketch q s =>
      match v ≫= as_f64 with
      | Some x => AccSketch q (sketch_insert x s)
      | None => a
      end
  end.

Definition acc_finish (a : Acc) : value :=
  match a with
  | AccCount n => value_of_i64 n
  | AccSum int float int_ok any =>
      if negb any then VNull else if int_ok then value_of_i64 int else value_of_f64 float
  | AccAvg sum n => if n =? 0 then VNull else value_of_f64 (f64_div sum (f64_of_Z n))
  | AccExtreme best => default VNull best
  | AccWelford kind count mean m2 =>
      match kind with
      | Stddev => if count =? 0 then VNull else value_of_f64 (f64_sqrt (f64_div m2 (f64_of_Z count)))
      | Stddevs =>
          if count <? 2 then VNull else value_of_f64 (f64_sqrt (f64_div m2 (f64_of_Z (count - 1))))
      | Var => if count =? 0 then VNull else value_of_f64 (f64_div m2 (f64_of_Z count))
      | Vars => if count <? 2 then VNull else value_of_f64 (f64_div m2 (f64_of_Z (count - 1)))
      | _ => VNull
      end
  | AccSketch q s => match sketch_quantile q s with Some f => value_of_f64 f | None => VNull end
  end.
End acc.

(** ** Facts *)

Section mirror.
Context `{ExprEval} `{Sketch}.

(** The accumulator of [kind] after the rows of a group, as [IncrementalWindow] feeds it. *)
Definition acc_over (kind : AggKind) (arg : Expr) (records : list row) : Acc :=
  foldl (fun a r => acc_update kind (if decide (kind = CountAll) then None else Some (group_value arg r)) a)
    (acc_new kind) records.

(** The batch function of [kind]; median and percentiles are approximated by a sketch
    in the accumulators and left out. *)
Definition agg_batch (kind : AggKind) (arg : Expr) (records : list row) : value :=
  match kind with
  | CountAll => agg_count [Wildcard] records
  | Count => agg_count [arg] records
  | Sum => agg_sum [arg] records
  | Avg => agg_avg [arg] records
  | Min => agg_min [arg] records
  | Max => agg_max [arg] records
  | Stddev => agg_stddev [arg] records
  | Stddevs => agg_stddevs [arg] records
  | Var => agg_var [arg] records
  | Vars => agg_vars [arg] records
  | Median | Percentile _ => VNull
  end.

Definition exact_kind (kind : AggKind) : Prop :=
  match kind with Median | Percentile _ => False | _ => True end.

(** A fold over rows is a fold over the values of the argument. *)
Lemma acc_over_values kind arg records :
  kind <> CountAll -> Forall (fun r => group_value arg r = eval_val arg r) records ->
  acc_over kind arg records =
  foldl (fun a v => acc_update kind (Some v) a) (acc_new kind) ((fun r => eval_val arg r) <$> records).
Proof.
  intros Hk. unfold acc_over. generalize (acc_new kind). intros a Hr. revert a.
  induction Hr as [|r rs Hr _ IH]; intros a; simpl; [done|].
  rewrite decide_False by done. by rewrite Hr, IH.
Qed.

Definition numbers (vs : list value) : list value := filter (fun v => is_number v = true) vs.

Lemma number_not_null v : is_number v = true -> is_null v = false.
Proof. by destruct v. Qed.

Lemma agg_numeric_values_eq arg records :
  agg_numeric_values arg records = numbers ((fun r => eval_val arg r) <$> records).
Proof.
  apply list_filter_iff. intros v. split; [by intros []|]. intros Hv. split; [by apply number_not_null|done].
Qed.

Lemma numeric_number v : is_number v = true -> numeric (Some v) = Some v.
Proof. intros Hv. unfold numeric. simpl. by rewrite Hv. Qed.

Lemma numeric_other v : is_number v = false -> numeric (Some v) = None.
Proof. intros Hv. unfold numeric. simpl. by rewrite Hv. Qed.

(** Accumulators that skip other values fold over the numbers only. *)
Definition numeric_acc (a : Acc) : Prop :=
  match a with AccSum _ _ _ _ | AccAvg _ _ | AccExtreme _ => True | _ => False end.

Lemma update_numeric_acc kind v a : numeric_acc a -> numeric_acc (acc_update kind v a).
Proof. intros Ha. destruct a; try done; simpl; repeat case_match; done. Qed.

Lemma update_skips kind v a : numeric_acc a -> is_number v = false -> acc_update kind (Some v) a = a.
Proof. intros Ha Hv. destruct a; try done; unfold acc_update; by rewrite numeric_other. Qed.

Lemma fold_numbers kind (a : Acc) vs :
  numeric_acc a ->
  foldl (fun a v => acc_update kind (Some v) a) a vs =
  foldl (fun a v => acc_update kind (Some v) a) a (numbers vs).
Proof.
  revert a. induction vs as [|v vs IH]; intros a Ha; [done|].
  unfold numbers. rewrite list.filter_cons. cbn [foldl].
  destruct (decide (is_number v = true)) as [Hv|Hv]; cbn [foldl].
  - by apply IH, update_numeric_acc.
  - rewrite update_skips by (done || by apply not_true_is_false). by apply IH.
Qed.

Lemma sum_fold ns int float ok any :
  Forall (fun v => is_number v = true) ns ->
  exists int' ok', foldl (fun a v => acc_update Sum (Some v) a) (AccSum int float ok any) ns =
      AccSum int' (foldl f64_add float (floats ns)) ok' (any || negb (bool_decide (ns = []))) /\
    match (if ok then sum_i64 int ns else None) with
    | Some s => ok' = true /\ int' = s
    | None => ok' = false
    end.
Proof.
  intros Hns. revert int float ok any. induction Hns as [|v ns Hv _ IH]; intros int float ok any.
  { exists int, ok. rewrite orb_false_r. split; [done|]. by destruct ok. }
  cbn [foldl]. unfold acc_update at 2. rewrite (numeric_number v Hv).
  assert (exists f, as_f64 v = Some f) as [f Hf] by (destruct v; try done; by eexists).
  unfold floats. cbn [omap list_omap]. rewrite Hf. cbn [default foldl].
  replace (any || negb (bool_decide (v :: ns = []))) with (true || negb (bool_decide (ns = [])))
    by (rewrite (bool_decide_false (v :: ns = [])) by done; by destruct any).
  destruct ok; [|apply (IH int _ false true)].
  cbn [sum_i64]. destruct (as_i64 v) as [i|]; cbn [mbind option_bind]; [|apply (IH int _ false true)].
  destruct (checked_add int i) as [next|]; cbn [mbind option_bind];
    [apply (IH next _ true true)|apply (IH int _ false true)].
Qed.

Lemma sum_i64_all ns s acc :
  sum_i64 acc ns = Some s -> forallb (fun v => bool_decide (is_Some (as_i64 v))) ns = true.
Proof.
  revert acc. induction ns as [|v ns IH]; intros acc; simpl; [done|].
  intros (i & Hi & (n & _ & Hs)%bind_Some)%bind_Some. rewrite Hi, bool_decide_true by (by eexists).
  by eapply IH.
Qed.

Lemma f64_sum_zero fs :
  fs <> [] -> Forall (fun f => f <> f64_neg_zero) fs -> foldl f64_add f64_zero fs = f64_sum fs.
Proof.
  intros Hne Hfs. destruct Hfs as [|f fs Hf _]; [done|]. unfold f64_sum. simpl. f_equal.
  destruct f as [[]|[]| |]; done.
Qed.

Lemma floats_nonempty ns : Forall (fun v => is_number v = true) ns -> ns <> [] -> floats ns <> [].
Proof. intros Hns Hne. destruct Hns as [|v ns Hv _]; [done|]. by destruct v. Qed.

Lemma floats_length ns : Forall (fun v => is_number v = true) ns -> length (floats ns) = length ns.
Proof.
  induction 1 as [|v ns Hv _ IH]; [done|]. unfold floats in *. destruct v; try done. csimpl. by rewrite IH.
Qed.

Lemma avg_fold ns sum n :
  Forall (fun v => is_number v = true) ns ->
  foldl (fun a v => acc_update Avg (Some v) a) (AccAvg sum n) ns =
  AccAvg (foldl f64_add sum (floats ns)) (n + Z.of_nat (length ns)).
Proof.
  intros Hns. revert sum n. induction Hns as [|v ns Hv _ IH]; intros sum n; [by rewrite Z.add_0_r|].
  cbn [foldl]. unfold acc_update at 2. rewrite (numeric_number v Hv), IH. destruct v; try done. csimpl. f_equal. lia.
Qed.

Lemma extreme_fold kind ns first :
  Forall (fun v => is_number v = true) ns ->
  foldl (fun a v => acc_update kind (Some v) a) (AccExtreme (Some first)) ns =
  AccExtreme (Some (foldl (best_by (if decide (kind = Min) then Datatypes.Lt else Datatypes.Gt)) first ns)).
Proof.
  intros Hns. revert first. induction Hns as [|v ns Hv _ IH]; intros first; [done|].
  cbn [foldl]. unfold acc_update at 2. rewrite (numeric_number v Hv). unfold best_by at 2.
  destruct (bool_decide _); apply IH.
Qed.

Lemma welford_fold kind vs count mean m2 :
  foldl (fun a v => acc_update kind (Some v) a) (AccWelford kind count mean m2) vs =
  let '(count, mean, m2) := foldl welford (count, mean, m2) (omap as_f64 vs) in AccWelford kind count mean m2.
Proof.
  revert count mean m2. induction vs as [|v vs IH]; intros count mean m2; [done|].
  cbn [foldl omap list_omap]. unfold acc_update at 2. cbn [mbind option_bind].
  destruct (as_f64 v) as [x|]; [|apply IH]. cbn [foldl].
  destruct (welford (count, mean, m2) x) as [[c' m'] v']. apply IH.
Qed.

Lemma welford_count l s : (fst (fst s)) <= (fst (fst (foldl welford s l))).
Proof.
  revert s. induction l as [|x l IH]; intros [[c m] v]; simpl; [lia|].
  etrans; [|apply IH]. simpl. lia.
Qed.

Lemma numbers_Forall vs : Forall (fun v => is_number v = true) (numbers vs).
Proof. apply list.Forall_forall. by intros v [Hv _]%list_elem_of_filter. Qed.

Lemma count_fold arg records n :
  Forall (fun r => group_value arg r = eval_val arg r) records ->
  foldl (fun a r => acc_update Count (Some (group_value arg r)) a) (AccCount n) records =
  AccCount (foldl (fun n r => if is_null (eval_val arg r) then n else n + 1) n records).
Proof.
  intros Hr. revert n. induction Hr as [|r rs Hr _ IH]; intros n; [done|]. cbn [foldl].
  unfold acc_update at 2. rewrite decide_False by done. rewrite Hr. destruct (is_null _); apply IH.
Qed.

Lemma count_all_fold (records : list row) n :
  foldl (fun a r => acc_update CountAll None a) (AccCount n) records = AccCount (n + Z.of_nat (length records)).
Proof.
  revert n. induction records as [|r rs IH]; intros n; simpl; [by rewrite Z.add_0_r|].
  rewrite IH. f_equal. lia.
Qed.

Lemma mirror_count kind arg records :
  (kind = CountAll \/ kind = Count) -> is_wildcard arg = false ->
  Forall (fun r => group_value arg r = eval_val arg r) records ->
  acc_finish (acc_over kind arg records) = agg_batch kind arg records.
Proof.
  intros [-> | ->] Hw Hr; unfold acc_over.
  - etrans; [|reflexivity]. simpl. by rewrite count_all_fold.
  - change (foldl _ (acc_new Count) records) with
      (foldl (fun a r => acc_update Count (Some (group_value arg r)) a) (AccCount 0) records).
    rewrite count_fold by done. by destruct arg.
Qed.

Section numeric_mirror.
Context (arg : Expr) (records : list row).
Context (Hw : is_wildcard arg = false) (Hr : Forall (fun r => group_value arg r = eval_val arg r) records).
Abbreviation vs := ((fun r => eval_val arg r) <$> records).

Lemma mirror_sum :
  Forall (fun f => f <> f64_neg_zero) (floats (numbers vs)) ->
  acc_finish (acc_over Sum arg records) = agg_sum [arg] records.
Proof.
  intros Hz. rewrite acc_over_values, fold_numbers by done.
  unfold agg_sum. rewrite Hw, agg_numeric_values_eq. pose proof (numbers_Forall vs) as Hns.
  set (ns := numbers vs) in *.
  destruct (sum_fold ns 0 f64_zero true false Hns) as (int & ok & Hf & Hs).
  cbn [acc_new]. rewrite Hf. cbn [acc_finish orb].
  destruct (bool_decide_reflect (ns = [])) as [|Hne]; [done|]. cbn [negb].
  rewrite f64_sum_zero in * by (done || by apply floats_nonempty).
  destruct (sum_i64 0 ns) as [s|] eqn:E.
  - destruct Hs as [-> ->]. by rewrite (sum_i64_all _ _ _ E).
  - rewrite Hs. by destruct (forallb _ ns).
Qed.

Lemma mirror_avg :
  Forall (fun f => f <> f64_neg_zero) (floats (numbers vs)) ->
  acc_finish (acc_over Avg arg records) = agg_avg [arg] records.
Proof.
  intros Hz. rewrite acc_over_values, fold_numbers by done.
  unfold agg_avg. rewrite Hw, agg_numeric_values_eq. pose proof (numbers_Forall vs) as Hns.
  set (ns := numbers vs) in *. cbn [acc_new]. rewrite avg_fold by done. cbn [acc_finish].
  destruct (bool_decide_reflect (ns = [])) as [->|Hne]; [done|].
  rewrite f64_sum_zero by (done || by apply floats_nonempty).
  rewrite (proj2 (Z.eqb_neq _ _)); [done|]. destruct ns; [done|simpl; lia].
Qed.

Lemma mirror_extreme kind wanted :
  (kind = Min /\ wanted = Datatypes.Lt \/ kind = Max /\ wanted = Datatypes.Gt) ->
  (Exists (fun v => is_number v = true) vs \/ Forall (fun v => is_null v = true) vs) ->
  acc_finish (acc_over kind arg records) = agg_extreme wanted [arg] records.
Proof.
  intros Hk Hcase.
  assert (Hnew : acc_new kind = AccExtreme None) by (by destruct Hk as [[-> _]|[-> _]]).
  assert (Hwant : (if decide (kind = Min) then Datatypes.Lt else Datatypes.Gt) = wanted)
    by (by destruct Hk as [[-> ->]|[-> ->]]).
  rewrite acc_over_values by (done || by destruct Hk as [[-> _]|[-> _]]).
  rewrite Hnew, fold_numbers by done.
  unfold agg_extreme. rewrite Hw. pose proof (numbers_Forall vs) as Hns.
  assert (Hfil : filter (fun v => is_number v = true) (filter (fun v => is_null v = false) vs) = numbers vs).
  { apply filter_filter_eq. intros v. split; [|by intros []]. intros Hv. split; [done|by apply number_not_null]. }
  destruct Hcase as [Hex|Hnull].
  - assert (existsb is_number (filter (fun v => is_null v = false) vs) = true) as ->.
    { apply existsb_exists. apply Exists_exists in Hex as (v & Hin & Hv). exists v. split; [|done].
      apply list_elem_of_In, list_elem_of_filter. split; [by apply number_not_null|by apply list_elem_of_In]. }
    rewrite Hfil. destruct Hns as [|v ns Hv Hns]; [done|].
    cbn [foldl]. unfold acc_update at 2. rewrite (numeric_number v Hv).
    by rewrite extreme_fold, Hwant by done.
  - assert (filter (fun v => is_null v = false) vs = []) as ->.
    { apply filter_none. eapply list.Forall_impl; [exact Hnull|]. by intros [] ?. }
    assert (numbers vs = []) as ->.
    { apply filter_none. eapply list.Forall_impl; [exact Hnull|]. by intros [] ?. }
    done.
Qed.

Lemma mirror_welford kind :
  (kind = Stddev \/ kind = Stddevs \/ kind = Var \/ kind = Vars) ->
  acc_finish (acc_over kind arg records) = agg_batch kind arg records.
Proof.
  intros Hk. rewrite acc_over_values by (done || by destruct Hk as [->|[->|[->| ->]]]).
  assert (Hnew : acc_new kind = AccWelford kind 0 f64_zero f64_zero) by (by destruct Hk as [->|[->|[->| ->]]]).
  rewrite Hnew, welford_fold.
  unfold agg_batch, agg_stddev, agg_stddevs, agg_var, agg_vars, agg_ssd. rewrite Hw.
  destruct (foldl welford _ _) as [[count mean] m2].
  destruct Hk as [->|[->|[->| ->]]]; cbn [acc_finish]; destruct (Z.eqb_spec count 0) as [->|Hne]; try done.
  all: by rewrite (proj2 (Z.eqb_neq _ _) Hne).
Qed.
End numeric_mirror.

(** When the accumulator of [kind] over [arg] mirrors the batch function on [records]. *)
Definition mirrors (kind : AggKind) (arg : Expr) (records : list row) : Prop :=
  let vs := (fun r => eval_val arg r) <$> records in
  exact_kind kind /\ Forall (fun r => group_value arg r = eval_val arg r) records /\
  Forall (fun f => f <> f64_neg_zero) (floats (numbers vs)) /\
  (kind = Min \/ kind = Max -> Exists (fun v => is_number v = true) vs \/ Forall (fun v => is_null v = true) vs).

Lemma acc_over_batch kind arg records :
  is_wildcard arg = false -> mirrors kind arg records ->
  acc_finish (acc_over kind arg records) = agg_batch kind arg records.
Proof.
  intros Hw (Hex & Hr & Hz & Hcase). destruct kind; try done.
  - apply mirror_count; auto.
  - apply mirror_count; auto.
  - by apply mirror_sum.
  - by apply mirror_avg.
  - apply mirror_extreme; auto.
  - apply mirror_extreme; auto.
  - apply mirror_welford; auto.
  - apply mirror_welford; auto.
  - apply mirror_welford; auto 6.
  - apply mirror_welford; auto 6.
Qed.
End mirror.

(** Row-free accumulators mirror the batch aggregates: for count, sum, avg, min,
    max and the four deviations, feeding a group's rows to the accumulator one by one
    and finishing gives the value the batch function computes from the whole group,
    integer overflow and mixed types included; provided the argument is read the same
    way by both, no float is -0.0, and for min and max the group has a number or only
    nulls. *)
Theorem acc_mirrors_batch `{ExprEval} `{Sketch} (kind : AggKind) (arg : Expr) (records : list row) :
  let vs := (fun r => eval_val arg r) <$> records in
  exact_kind kind -> is_wildcard arg = false ->
  Forall (fun r => group_value arg r = eval_val arg r) records ->
  Forall (fun f => f <> f64_neg_zero) (floats (numbers vs)) ->
  (kind = Min \/ kind = Max -> Exists (fun v => is_number v = true) vs \/ Forall (fun v => is_null v = true) vs) ->
  acc_finish (acc_over kind arg records) = agg_batch kind arg records.
Proof. intros vs Hex Hw Hr Hz Hcase. by apply acc_over_batch. Qed.

(** Sample interfaces: columns only, no sketch. *)
Definition read_column (e : Expr) (r : row) : value :=
  match e with Identifier name => default VNull (r !! name) | _ => VNull end.

#[local] Instance unit_sketch : Sketch := {|
  sketch := unit; sketch_new := tt; sketch_insert _ s := s; sketch_quantile _ _ := None;
|}.

#[local] Instance column_evaluator : ExprEval := {|
  eval_bool _ _ := true;
  eval_val := read_column;
  eval_bool_stateful _ _ st := (true, st);
|}.

Definition x_rows (vs : list value) : list row := (fun v => {["x" := v]}) <$> vs.

Lemma acc_mirrors_batch_witness :
  let records := x_rows [value_of_i64 7; VString "n/a"; value_of_f64 (f64_div (f64_of_Z 5) (f64_of_Z 2)); VNull] in
  acc_finish (acc_over Sum (Identifier "x") records) = agg_sum [Identifier "x"] records /\
  acc_finish (acc_over Max (Identifier "x") records) = agg_max [Identifier "x"] records.
Proof.
  split.
  - apply (acc_mirrors_batch Sum); [done|done|by repeat constructor| |by intros [|]].
    apply (bool_decide_unpack _). by vm_compute.
  - apply (acc_mirrors_batch Max); [done|done|by repeat constructor| |].
    + apply (bool_decide_unpack _). by vm_compute.
    + intros _. left. by left.
Defined.

(** The accumulators drop strings: over a group of the strings b and a, the batch
    [min] and [max] return a string, the accumulators return null. *)
Theorem acc_min_loses_strings :
  let records := x_rows [VString "b"; VString "a"] in
  let x := Identifier "x" in
  agg_min [x] records = VString "a" /\ acc_finish (acc_over Min x records) = VNull /\
  agg_max [x] records = VString "b" /\ acc_finish (acc_over Max x records) = VNull.
Proof. by vm_compute. Qed.
