(* ===== verification/Accumulators.v ===== *)
(** * Running accumulators of a rule ([acc_*] of [eval/aggregate.rs], [eval_acc_call] and
      [RuleState::insert_bounded] of [eval.rs])

    Cumulative functions such as [acc_max] keep their state in the rule's state map,
    under a key made of the function, the call site and the [OVER] partition. *)

From S2P Require Import Prelude Rust Json Ast Engine Values.

Set Default Goal Selector "!".

Definition MAX_STATE_KEYS : Z := 10000.
Definition MAX_ACC_ITEMS : Z := 10000.

Definition is_metadata_key (k : string) : bool := String.prefix "__" k || String.prefix "$$" k.

(** When a new key would exceed the bound, some other key goes, except metadata; the
    order of [map_to_list] stands for the unspecified order of a [HashMap]. *)
Definition insert_bounded (key : string) (val : value) (guard : rule_state) : rule_state :=
  let guard :=
    if bool_decide (guard !! key = None) && (MAX_STATE_KEYS <=? Z.of_nat (size guard)) then
      match List.find (fun kv => negb (is_metadata_key kv.1)) (map_to_list guard) with
      | Some (evict_key, _) => delete evict_key guard
      | None => guard
      end
    else guard in
  <[key := val]> guard.

(** Oldest item out beyond the bound, then push. *)
Definition push_item {A} (x : A) (l : list A) : list A :=
  (if MAX_ACC_ITEMS <=? Z.of_nat (length l) then drop 1 l else l) ++ [x].

Section acc.
Context `{Text}.

Definition to_string_always (v : value) : string :=
  match v with
  | VNull => ""
  | VString s => s
  | _ => value_to_string v
  end.

Definition map_agg_entry (item : value) : option (string * value) :=
  match item with
  | VObject m =>
      match object_get "key" m, object_get "value" m with
      | Some (VString k), Some v => Some (k, v)
      | _, _ => None
      end
  | _ => None
  end.

(** The first entry with the key gets the value. *)
Fixpoint update_entry (k : string) (v : value) (l : list (string * value)) : option (list (string * value)) :=
  match l with
  | [] => None
  | (k', v') :: r =>
      if bool_decide (k' = k) then Some ((k', v) :: r) else cons (k', v') <$> update_entry k v r
  end.

Definition acc_map_agg (state_key : string) (args : list value) (st : rule_state) : value * rule_state :=
  match args with
  | [k; v] =>
      let key_str := to_string_always k in
      let entries := match st !! state_key with Some (VArray arr) => omap map_agg_entry arr | _ => [] end in
      let entries :=
        match update_entry key_str v entries with
        | Some e => e
        | None => push_item (key_str, v) entries
        end in
      let out := VArray ((fun e => VObject [("key", VString e.1); ("value", e.2)]) <$> entries) in
      (out, insert_bounded state_key out st)
  | _ => (VNull, st)
  end.

(** Whether a comparison wins. *)
Definition wins (take_greater : bool) (o : comparison) : bool :=
  match o with
  | Datatypes.Gt => take_greater
  | Datatypes.Lt => negb take_greater
  | Datatypes.Eq => false
  end.

Definition acc_extreme (take_greater : bool) (state_key : string) (args : list value) (st : rule_state)
    : value * rule_state :=
  match args with
  | [val] =>
      if is_null val then (default VNull (st !! state_key), st)
      else
        match st !! state_key with
        | Some current =>
            match compare_values val current with
            | Some ord =>
                if wins take_greater ord then (val, insert_bounded state_key val st) else (current, st)
            | None => (current, st)
            end
        | None => (val, insert_bounded state_key val st)
        end
  | _ => (VNull, st)
  end.

Definition stored_pair (v : value) : option (value * value) :=
  match v with
  | VObject m =>
      match object_get "compare" m, object_get "value" m with
      | Some c, Some x => Some (c, x)
      | _, _ => None
      end
  | _ => None
  end.

Definition acc_extreme_by (take_greater : bool) (state_key : string) (args : list value) (st : rule_state)
    : value * rule_state :=
  match args with
  | [val; compare] =>
      let stored := st !! state_key ≫= stored_pair in
      if is_null val || is_null compare then (default VNull (snd <$> stored), st)
      else
        let should_store :=
          match stored with
          | None => true
          | Some (stored_compare, _) =>
              match compare_values compare stored_compare with
              | Some ord => bool_decide (ord = Datatypes.Eq) || wins take_greater ord
              | None => false
              end
          end in
        if should_store then
          (val, insert_bounded state_key (VObject [("compare", compare); ("value", val)]) st)
        else (default VNull (snd <$> stored), st)
  | _ => (VNull, st)
  end.

Definition acc_count (state_key : string) (args : list value) (st : rule_state) : value * rule_state :=
  match args with
  | [v] =>
      if is_null v then (default (value_of_i64 0) (st !! state_key), st)
      else
        let next := saturating_add (default 0 (st !! state_key ≫= as_i64)) 1 in
        (value_of_i64 next, insert_bounded state_key (value_of_i64 next) st)
  | _ => (VNull, st)
  end.

(** [eval_arith] with [Add], which never panics. *)
Definition arith_add (l r : value) : value :=
  match eval_arith l r AAdd with Ok v => v | _ => VNull end.

Definition acc_sum (state_key : string) (args : list value) (st : rule_state) : value * rule_state :=
  match args with
  | [val] =>
      if is_null val || negb (is_number val) then (default VNull (st !! state_key), st)
      else
        let next := match st !! state_key with Some cur => arith_add cur val | None => val end in
        (next, insert_bounded state_key next st)
  | _ => (VNull, st)
  end.

Definition acc_avg_current (state_key : string) (st : rule_state) : value :=
  match st !! state_key with
  | Some (VObject m) =>
      match object_get "sum" m ≫= as_f64, object_get "count" m ≫= as_i64 with
      | Some s, Some c => if 0 <? c then value_of_f64 (f64_div s (f64_of_Z c)) else VNull
      | _, _ => VNull
      end
  | _ => VNull
  end.

Definition acc_avg (state_key : string) (args : list value) (st : rule_state) : value * rule_state :=
  match args with
  | [val] =>
      if is_null val || negb (is_number val) then (acc_avg_current state_key st, st)
      else
        let '(sum, count) :=
          match st !! state_key with
          | Some (VObject m) =>
              (default (value_of_i64 0) (object_get "sum" m), default 0 (object_get "count" m ≫= as_i64))
          | _ => (value_of_i64 0, 0)
          end in
        let sum := arith_add sum val in
        let count := saturating_add count 1 in
        let avg :=
          match as_f64 sum with
          | Some s => if 0 <? count then value_of_f64 (f64_div s (f64_of_Z count)) else VNull
          | None => VNull
          end in
        (avg, insert_bounded state_key (VObject [("count", value_of_i64 count); ("sum", sum)]) st)
  | _ => (VNull, st)
  end.

Definition stored_list (state_key : string) (st : rule_state) : list value :=
  match st !! state_key with Some (VArray arr) => arr | _ => [] end.

Definition acc_collect (state_key : string) (args : list value) (st : rule_state) : value * rule_state :=
  match args with
  | [] => (VNull, st)
  | v :: _ =>
      let list := stored_list state_key st in
      if is_null v then (VArray list, st)
      else
        let list := push_item v list in
        (VArray list, insert_bounded state_key (VArray list) st)
  end.

Definition acc_distinct_collect (state_key : string) (args : list value) (st : rule_state)
    : value * rule_state :=
  match args with
  | [] => (VNull, st)
  | v :: _ =>
      let list := stored_list state_key st in
      if negb (is_null v) && negb (existsb (fun x => values_equal x v) list) then
        let list := push_item v list in
        (VArray list, insert_bounded state_key (VArray list) st)
      else (VArray list, st)
  end.

(** [skip_update]: the [WHEN] condition of [OVER] is false, only read the state. *)
Definition eval_acc_call (name : string) (args : list value) (call_id partition_key : string)
    (skip_update : bool) (st : rule_state) : value * rule_state :=
  let state_key := name +:+ ":" +:+ call_id +:+ ":" +:+ partition_key in
  if skip_update then
    if bool_decide (name = "acc_count") then (default (value_of_i64 0) (st !! state_key), st)
    else if bool_decide (name = "acc_avg") then (acc_avg_current state_key st, st)
    else (default VNull (st !! state_key), st)
  else if bool_decide (name = "acc_map_agg") then acc_map_agg state_key args st
  else if bool_decide (name = "acc_max") then acc_extreme true state_key args st
  else if bool_decide (name = "acc_max_by") then acc_extreme_by true state_key args st
  else if bool_decide (name = "acc_min") then acc_extreme false state_key args st
  else if bool_decide (name = "acc_min_by") then acc_extreme_by false state_key args st
  else if bool_decide (name = "acc_count") then acc_count state_key args st
  else if bool_decide (name = "acc_sum") then acc_sum state_key args st
  else if bool_decide (name = "acc_avg") then acc_avg state_key args st
  else if bool_decide (name = "acc_collect") then acc_collect state_key args st
  else if bool_decide (name = "acc_distinct_collect" \/ name = "distinct_acc") then
    acc_distinct_collect state_key args st
  else (VNull, st).
End acc.

(** ** Facts: every call works on its own cell *)

(** A step on the cell [key]: its value and the new content of the cell depend only on
    the old content, and other cells are kept while the map is below its bound. *)
Definition local_step (key : string) (f : rule_state -> value * rule_state) : Prop :=
  (forall st1 st2, st1 !! key = st2 !! key ->
     (f st1).1 = (f st2).1 /\ (f st1).2 !! key = (f st2).2 !! key) /\
  (forall st k, k <> key -> Z.of_nat (size st) < MAX_STATE_KEYS -> (f st).2 !! k = st !! k) /\
  (forall st, (size (f st).2 <= S (size st))%nat).

Lemma insert_bounded_key key v st : insert_bounded key v st !! key = Some v.
Proof. unfold insert_bounded. apply lookup_insert_eq. Qed.

Lemma insert_bounded_other key v st k :
  k <> key -> Z.of_nat (size st) < MAX_STATE_KEYS -> insert_bounded key v st !! k = st !! k.
Proof.
  intros Hk Hs. unfold insert_bounded. rewrite lookup_insert_ne by done.
  by rewrite (proj2 (Z.leb_gt _ _) Hs), andb_false_r.
Qed.

Lemma size_insert_le (k : string) (v : value) (m : rule_state) : (size (<[k := v]> m) <= S (size m))%nat.
Proof.
  destruct (m !! k) as [x|] eqn:E.
  - rewrite map_size_insert_Some by (by eexists). lia.
  - rewrite map_size_insert_None by done. lia.
Qed.

Lemma insert_bounded_size key v st : (size (insert_bounded key v st) <= S (size st))%nat.
Proof.
  unfold insert_bounded. etrans; [apply size_insert_le|]. apply le_n_S.
  destruct (_ && _); [|done]. destruct (List.find _ _) as [[k x]|]; [|done].
  rewrite map_size_delete. destruct (st !! k); simpl; lia.
Qed.

(** Calls that read the cell, then leave the map alone or write the cell. *)
Lemma local_cell key (cell : option value -> value * option value) :
  local_step key (fun st => let '(v, o) := cell (st !! key) in
    (v, match o with Some x => insert_bounded key x st | None => st end)).
Proof.
  split_and!.
  - intros st1 st2 Heq. rewrite Heq. destruct (cell (st2 !! key)) as [v [x|]]; simpl; [|done].
    by rewrite !insert_bounded_key.
  - intros st k Hk Hs. destruct (cell (st !! key)) as [v [x|]]; simpl; [|done]. by apply insert_bounded_other.
  - intros st. destruct (cell (st !! key)) as [v [x|]]; simpl; [apply insert_bounded_size|lia].
Qed.

Lemma local_step_ext key f g : (forall st, f st = g st) -> local_step key g -> local_step key f.
Proof.
  intros Hfg (H1 & H2 & H3). split_and!; intros; rewrite ?Hfg; auto.
Qed.

Section locality.
Context `{Text}.

Lemma local_const key v : local_step key (fun st => (v, st)).
Proof. apply (local_cell key (fun _ => (v, None))). Qed.

Lemma local_read key (f : option value -> value) : local_step key (fun st => (f (st !! key), st)).
Proof. apply (local_cell key (fun o => (f o, None))). Qed.

Lemma acc_map_agg_local key args : local_step key (acc_map_agg key args).
Proof.
  destruct args as [|k [|v [|? ?]]]; try apply local_const.
  eapply local_step_ext; [|apply (local_cell key (fun o =>
    let entries := match o with Some (VArray arr) => omap map_agg_entry arr | _ => [] end in
    let entries := match update_entry (to_string_always k) v entries with
                   | Some e => e | None => push_item (to_string_always k, v) entries end in
    let out := VArray ((fun e => VObject [("key", VString e.1); ("value", e.2)]) <$> entries) in
    (out, Some out)))]. done.
Qed.

Lemma acc_extreme_local g key args : local_step key (acc_extreme g key args).
Proof.
  destruct args as [|v [|? ?]]; try apply local_const.
  eapply local_step_ext; [|apply (local_cell key (fun o =>
    if is_null v then (default VNull o, None)
    else match o with
         | Some current =>
             match compare_values v current with
             | Some ord => if wins g ord then (v, Some v) else (current, None)
             | None => (current, None)
             end
         | None => (v, Some v)
         end))].
  intros st. simpl. repeat case_match; by simplify_eq.
Qed.

Lemma acc_extreme_by_local g key args : local_step key (acc_extreme_by g key args).
Proof.
  destruct args as [|v [|cmp [|? ?]]]; try apply local_const.
  eapply local_step_ext; [|apply (local_cell key (fun o =>
    let stored := o ≫= stored_pair in
    if is_null v || is_null cmp then (default VNull (snd <$> stored), None)
    else if match stored with
            | None => true
            | Some (c, _) => match compare_values cmp c with
                             | Some ord => bool_decide (ord = Datatypes.Eq) || wins g ord
                             | None => false end
            end
         then (v, Some (VObject [("compare", cmp); ("value", v)]))
         else (default VNull (snd <$> stored), None)))].
  intros st. cbn [acc_extreme_by]. destruct (is_null v || is_null cmp); [done|]. cbv zeta.
  by destruct (match st !! key ≫= stored_pair with None => _ | Some _ => _ end).
Qed.

Lemma acc_count_local key args : local_step key (acc_count key args).
Proof.
  destruct args as [|v [|? ?]]; try apply local_const. unfold acc_count.
  destruct (is_null v); [apply (local_read key (fun o => default (value_of_i64 0) o))|].
  apply (local_cell key (fun o => let next := saturating_add (default 0 (o ≫= as_i64)) 1 in
    (value_of_i64 next, Some (value_of_i64 next)))).
Qed.

Lemma acc_sum_local key args : local_step key (acc_sum key args).
Proof.
  destruct args as [|v [|? ?]]; try apply local_const. unfold acc_sum.
  destruct (is_null v || _); [apply (local_read key (fun o => default VNull o))|].
  apply (local_cell key (fun o => let next := match o with Some cur => arith_add cur v | None => v end in
    (next, Some next))).
Qed.

Lemma acc_avg_local key args : local_step key (acc_avg key args).
Proof.
  destruct args as [|v [|? ?]]; try apply local_const. unfold acc_avg.
  destruct (is_null v || _).
  { apply (local_read key (fun o => match o with
      | Some (VObject m) =>
          match object_get "sum" m ≫= as_f64, object_get "count" m ≫= as_i64 with
          | Some s, Some c => if 0 <? c then value_of_f64 (f64_div s (f64_of_Z c)) else VNull
          | _, _ => VNull
          end
      | _ => VNull end)). }
  eapply local_step_ext; [|apply (local_cell key (fun o =>
    let '(sum, count) := match o with
      | Some (VObject m) => (default (value_of_i64 0) (object_get "sum" m), default 0 (object_get "count" m ≫= as_i64))
      | _ => (value_of_i64 0, 0) end in
    let sum := arith_add sum v in
    let count := saturating_add count 1 in
    (match as_f64 sum with
     | Some s => if 0 <? count then value_of_f64 (f64_div s (f64_of_Z count)) else VNull
     | None => VNull end,
     Some (VObject [("count", value_of_i64 count); ("sum", sum)]))))].
  intros st. destruct (st !! key) as [[]|] eqn:E; rewrite E; done.
Qed.

Lemma acc_collect_local key args : local_step key (acc_collect key args).
Proof.
  destruct args as [|v r]; [apply local_const|]. unfold acc_collect, stored_list.
  destruct (is_null v); [apply (local_read key (fun o => VArray (match o with Some (VArray arr) => arr | _ => [] end)))|].
  apply (local_cell key (fun o => let l := push_item v (match o with Some (VArray arr) => arr | _ => [] end) in
    (VArray l, Some (VArray l)))).
Qed.

Lemma acc_distinct_collect_local key args : local_step key (acc_distinct_collect key args).
Proof.
  destruct args as [|v r]; [apply local_const|]. unfold acc_distinct_collect, stored_list.
  eapply local_step_ext; [|apply (local_cell key (fun o =>
    let l := match o with Some (VArray arr) => arr | _ => [] end in
    if negb (is_null v) && negb (existsb (fun x => values_equal x v) l)
    then (VArray (push_item v l), Some (VArray (push_item v l))) else (VArray l, None)))].
  intros st. destruct (st !! key) as [[]|] eqn:E; rewrite E; cbv zeta; by destruct (_ && _).
Qed.

Lemma acc_avg_current_local key : local_step key (fun st => (acc_avg_current key st, st)).
Proof.
  apply (local_read key (fun o => match o with
    | Some (VObject m) =>
        match object_get "sum" m ≫= as_f64, object_get "count" m ≫= as_i64 with
        | Some s, Some c => if 0 <? c then value_of_f64 (f64_div s (f64_of_Z c)) else VNull
        | _, _ => VNull
        end
    | _ => VNull end)).
Qed.

Definition acc_state_key (name call_id partition_key : string) : string :=
  name +:+ ":" +:+ call_id +:+ ":" +:+ partition_key.

Lemma eval_acc_call_local name args call_id partition_key skip :
  local_step (acc_state_key name call_id partition_key) (eval_acc_call name args call_id partition_key skip).
Proof.
  unfold eval_acc_call. fold (acc_state_key name call_id partition_key).
  set (key := acc_state_key name call_id partition_key).
  destruct skip; repeat case_bool_decide;
    auto using acc_map_agg_local, acc_extreme_local, acc_extreme_by_local, acc_count_local, acc_sum_local,
      acc_avg_local, acc_collect_local, acc_distinct_collect_local, acc_avg_current_local, local_const.
  - apply (local_read key (fun o => default (value_of_i64 0) o)).
  - apply (local_read key (fun o => default VNull o)).
Qed.
End locality.

(** ** Runs of calls *)

Record acc_call := mkCall {
  call_name : string;
  call_args : list value;
  call_id : string;
  call_partition : string;
  call_skip : bool;
}.

Section runs.
Context `{Text}.

Definition call_key (c : acc_call) : string := acc_state_key (call_name c) (call_id c) (call_partition c).

Definition run_call (st : rule_state) (c : acc_call) : rule_state :=
  (eval_acc_call (call_name c) (call_args c) (call_id c) (call_partition c) (call_skip c) st).2.

Lemma run_call_local (c : acc_call) :
  local_step (call_key c) (eval_acc_call (call_name c) (call_args c) (call_id c) (call_partition c) (call_skip c)).
Proof. apply eval_acc_call_local. Qed.

Lemma run_calls_cell calls st1 st2 key :
  st1 !! key = st2 !! key -> Z.of_nat (size st1) + Z.of_nat (length calls) <= MAX_STATE_KEYS ->
  foldl run_call st1 calls !! key = foldl run_call st2 (filter (fun c => call_key c = key) calls) !! key.
Proof.
  revert st1 st2. induction calls as [|c calls IH]; intros st1 st2 Heq Hs; [done|].
  cbn [foldl length] in *. rewrite list.filter_cons.
  destruct (run_call_local c) as (Hloc & Hframe & Hsize). specialize (Hsize st1).
  fold (run_call st1 c) in Hsize.
  destruct (decide (call_key c = key)) as [<-|Hne]; cbn [foldl].
  - apply IH; [by apply Hloc|lia].
  - apply IH; [|lia]. rewrite <- Heq. apply Hframe; [done|lia].
Qed.
End runs.

(** Call sites and partitions evolve independently.  As long as the rule holds at
    most the bound of 10,000 state keys, the accumulator of a call site and partition
    after any sequence of calls, and the value its next call returns, are those it
    would have if only its own calls had been made, whatever calls of other functions,
    sites and partitions are interleaved. *)
Theorem acc_calls_independent `{Text} (calls : list acc_call) (c : acc_call) (st : rule_state) :
  Z.of_nat (size st) + Z.of_nat (length calls) <= MAX_STATE_KEYS ->
  let own := filter (fun c' => call_key c' = call_key c) calls in
  foldl run_call st calls !! call_key c = foldl run_call st own !! call_key c /\
  (eval_acc_call (call_name c) (call_args c) (call_id c) (call_partition c) (call_skip c)
     (foldl run_call st calls)).1 =
  (eval_acc_call (call_name c) (call_args c) (call_id c) (call_partition c) (call_skip c)
     (foldl run_call st own)).1.
Proof.
  intros Hs own. assert (Hcell : foldl run_call st calls !! call_key c = foldl run_call st own !! call_key c)
    by (by apply run_calls_cell).
  split; [done|]. by apply (run_call_local c).
Qed.

Definition sample_text : Text := {|
  value_to_string _ := "v"; map_to_json _ := "{}"; parse_rfc3339 _ := None;
|}.

Lemma acc_calls_independent_witness :
  let calls := [mkCall "acc_max" [value_of_i64 5] "acc_max(t)" "str:a" false;
                mkCall "acc_max" [value_of_i64 9] "acc_max(t)" "str:b" false;
                mkCall "acc_max" [value_of_i64 3] "acc_max(t)" "str:a" false] in
  let c := mkCall "acc_max" [value_of_i64 4] "acc_max(t)" "str:a" false in
  let own := filter (fun c' => call_key c' = call_key c) calls in
  foldl (@run_call sample_text) ∅ calls !! call_key c = foldl (@run_call sample_text) ∅ own !! call_key c /\
  (@eval_acc_call sample_text "acc_max" [value_of_i64 4] "acc_max(t)" "str:a" false
     (foldl (@run_call sample_text) ∅ calls)).1 =
  (@eval_acc_call sample_text "acc_max" [value_of_i64 4] "acc_max(t)" "str:a" false
     (foldl (@run_call sample_text) ∅ own)).1.
Proof.
  intros calls c own. apply (@acc_calls_independent sample_text calls c ∅). by vm_compute.
Defined.

(** A skipped [acc_max_by] leaks its internal state: when the [WHEN] condition of
    [OVER] is false, the call returns the stored object with the comparison key, where
    the updating call returns the plain value. *)
Theorem acc_max_by_skip_leaks `{Text} :
  let args := [VString "a"; value_of_i64 7] in
  let '(v1, st) := eval_acc_call "acc_max_by" args "c" "" false ∅ in
  let '(v2, _) := eval_acc_call "acc_max_by" args "c" "" true st in
  v1 = VString "a" /\ v2 = VObject [("compare", value_of_i64 7); ("value", VString "a")].
Proof. by vm_compute. Qed.
