(* ===== verification/Analytic.v ===== *)
(** * Analytic functions over the rows of a rule ([crates/rekuiper-sql/src/eval/analytic.rs])

    [lag], [had_changed] / [changed_col] and the event sequences [sequence_match] /
    [sequence_count].  Each call site and partition owns cells of the rule state, written
    with [insert_bounded].  The theorems follow one call site along the rows of a rule:
    [lag] returns the value of exactly [offset] rows ago, and [sequence_match] only reports
    sequences that did occur in order and in time. *)

From stdpp Require Import pretty.
From S2P Require Import Prelude Rust Json Ast Engine Values Numbers Accumulators.

Set Default Goal Selector "!".

(** ** lag *)

Definition MAX_LAG : Z := 10000.

Definition lag_key (call_id partition_key : string) : string := "lag:" +:+ call_id +:+ ":" +:+ partition_key.

(** The value [max_keep] rows back, and the history with the current value. *)
Definition lag_out (max_keep : nat) (dflt : value) (history : list value) : value :=
  if (max_keep <=? length history)%nat then default VNull (history !! (length history - max_keep)%nat) else dflt.
Definition lag_push (max_keep : nat) (v : value) (history : list value) : list value :=
  (if (max_keep <=? length history)%nat then drop (length history - max_keep + 1) history else history) ++ [v].

Definition eval_lag (args : list value) (call_id partition_key : string) (skip_update : bool) (st : rule_state)
    : value * rule_state :=
  match args with
  | v :: rest =>
      if (3 <? length rest)%nat then (VNull, st)
      else
        let offset := default 1 (rest !! 0%nat ≫= to_i64_arg) in
        if offset <=? 0 then (v, st)
        else
          let max_keep := Z.to_nat (Z.min offset MAX_LAG) in
          let dflt := default VNull (rest !! 1%nat) in
          let ignore_null := default false (rest !! 2%nat ≫= as_bool) in
          let state_key := lag_key call_id partition_key in
          let history := stored_list state_key st in
          let out := lag_out max_keep dflt history in
          if negb skip_update && (negb ignore_null || negb (is_null v)) then
            (out, insert_bounded state_key (VArray (lag_push max_keep v history)) st)
          else (out, st)
  | [] => (VNull, st)
  end.

(** ** had_changed, changed_col *)

Definition changed_key (name call_id : string) (idx : nat) (partition_key : string) : string :=
  name +:+ ":" +:+ call_id +:+ ":" +:+ pretty (N.of_nat idx) +:+ ":" +:+ partition_key.

(** One column: whether anything changed so far, the first changed value, the state. *)
Definition changed_step (name call_id partition_key : string) (s : bool * value * rule_state)
    (c : nat * value) : bool * value * rule_state :=
  let '(any_changed, first_val, st) := s in
  let '(idx, current) := c in
  if is_null current then s
  else
    let state_key := changed_key name call_id idx partition_key in
    let changed := match st !! state_key with None => true | Some p => negb (values_equal p current) end in
    if changed then
      (true, if is_null first_val then current else first_val, insert_bounded state_key current st)
    else s.

Definition eval_changed (name : string) (args : list value) (call_id partition_key : string) (st : rule_state)
    : value * rule_state :=
  match args with
  | [] => (VNull, st)
  | a :: rest =>
      let cols := if negb (bool_decide (rest = [])) && is_boolean a then rest else args in
      let '(any_changed, first_val, st) :=
        foldl (changed_step name call_id partition_key) (false, VNull, st) (imap pair cols) in
      (if bool_decide (name = "had_changed") then VBool any_changed
       else if any_changed then first_val else VNull, st)
  end.

(** ** sequence_match, sequence_count *)

Definition MAX_CEP_PARTITIONS : Z := 10000.

Definition cep_key (name call_id partition_key : string) : string :=
  "cep:" +:+ name +:+ ":" +:+ call_id +:+ ":" +:+ partition_key.

(** The automaton of a sequence: conditions met so far, time of the first one, number of
    completed sequences. *)
Record Cep := mkCep { stage : nat; start_ts : Z; completed : Z }.

Definition cep_read (event_ts : Z) (cell : option value) : Cep :=
  match cell with
  | Some (VArray [a; b; c]) =>
      mkCep (Z.to_nat (default 0 (as_u64 a))) (default event_ts (as_i64 b)) (default 0 (as_i64 c))
  | _ => mkCep 0 event_ts 0
  end.

Definition cep_write (c : Cep) : value :=
  VArray [value_of_i64 (Z.of_nat (stage c)); value_of_i64 (start_ts c); value_of_i64 (completed c)].

(** One event: expiry of the sequence in progress, then the transition, then acceptance. *)
Definition cep_step (max_span_ms event_ts : Z) (steps : list value) (c : Cep) : bool * Cep :=
  let num_steps := length steps in
  let step_bool idx := default false (steps !! idx ≫= as_bool) in
  let stage0 :=
    if (0 <? stage c)%nat && (0 <? max_span_ms) && (max_span_ms <? saturating_sub event_ts (start_ts c))
    then O else stage c in
  let '(stage1, start1) :=
    if (stage0 =? 0)%nat then
      if step_bool O then (1%nat, event_ts) else (stage0, start_ts c)
    else if (stage0 <? num_steps)%nat then
      if step_bool stage0 then (S stage0, start_ts c)
      else if step_bool O then (1%nat, event_ts)
      else (stage0, start_ts c)
    else (stage0, start_ts c) in
  if (num_steps <=? stage1)%nat then (true, mkCep O start1 (saturating_add (completed c) 1))
  else (false, mkCep stage1 start1 (completed c)).

(** When a new key would exceed the bound, another sequence goes. *)
Definition cep_insert (key : string) (val : value) (guard : rule_state) : rule_state :=
  let guard :=
    if bool_decide (guard !! key = None) && (MAX_CEP_PARTITIONS <=? Z.of_nat (size guard)) then
      match List.find (fun kv => String.prefix "cep:" kv.1) (map_to_list guard) with
      | Some (evict_key, _) => delete evict_key guard
      | None => guard
      end
    else guard in
  <[key := val]> guard.

Definition eval_sequence_cep (name : string) (args : list value) (event_ts : Z) (call_id partition_key : string)
    (skip_update : bool) (st : rule_state) : value * rule_state :=
  let is_count := bool_decide (name = "sequence_count") in
  match args with
  | span :: steps =>
      if (length steps <? 2)%nat then (if is_count then value_of_i64 0 else VBool false, st)
      else
        let max_span_ms := default 0 (to_i64_arg span) in
        let state_key := cep_key name call_id partition_key in
        let c := cep_read event_ts (st !! state_key) in
        if skip_update then (if is_count then value_of_i64 (completed c) else VBool false, st)
        else
          let '(matched_now, c) := cep_step max_span_ms event_ts steps c in
          (if is_count then value_of_i64 (completed c) else VBool matched_now,
           cep_insert state_key (cep_write c) st)
  | [] => (if is_count then value_of_i64 0 else VBool false, st)
  end.

(** ** Facts: one call site along the rows *)

(** The values of a call on successive inputs. *)
Fixpoint run_calls {A} (f : A -> rule_state -> value * rule_state) (l : list A) (st : rule_state) : list value :=
  match l with
  | [] => []
  | x :: r => let '(v, st) := f x st in v :: run_calls f r st
  end.

Lemma stored_list_insert key l st : stored_list key (insert_bounded key (VArray l) st) = l.
Proof. unfold stored_list. by rewrite insert_bounded_key. Qed.

Lemma lag_push_last k v h :
  (0 < k)%nat -> lag_push k v (drop (length h - k) h) = drop (length (h ++ [v]) - k) (h ++ [v]).
Proof.
  intros Hk. unfold lag_push. rewrite length_drop, length_app. simpl.
  destruct (Nat.leb_spec k (length h - (length h - k))).
  - rewrite drop_drop, drop_app_le by lia. do 2 f_equal. lia.
  - replace (length h - k)%nat with O by lia. rewrite drop_0.
    by replace (length h + 1 - k)%nat with O by lia.
Qed.

Lemma lag_out_last k d h v r :
  (0 < k)%nat ->
  (replicate k d ++ h ++ v :: r) !! length h = Some (lag_out k d (drop (length h - k) h)).
Proof.
  intros Hk. unfold lag_out. rewrite length_drop.
  destruct (Nat.leb_spec k (length h - (length h - k))) as [Hle|Hlt].
  - rewrite lookup_app_r by (rewrite length_replicate; lia). rewrite length_replicate.
    rewrite lookup_app_l by lia. rewrite lookup_drop.
    replace (length h - k + (length h - (length h - k) - k))%nat with (length h - k)%nat by lia.
    destruct (lookup_lt_is_Some_2 h (length h - k)) as [x ->]; [lia|done].
  - rewrite lookup_app_l by (rewrite length_replicate; lia). apply lookup_replicate_2. lia.
Qed.

Section lag.
Context (call_id partition_key : string) (offset : Z) (dflt : value).
Context (Hoffset : 0 < offset <= MAX_LAG).
Let k := Z.to_nat offset.
Let call (v : value) := eval_lag [v; value_of_i64 offset; dflt] call_id partition_key false.

Lemma lag_call v st :
  call v st =
  (lag_out k dflt (stored_list (lag_key call_id partition_key) st),
   insert_bounded (lag_key call_id partition_key)
     (VArray (lag_push k v (stored_list (lag_key call_id partition_key) st))) st).
Proof using Hoffset.
  unfold call, eval_lag. simpl. unfold value_of_i64, k, MAX_LAG in *.
  destruct (Z.ltb_spec offset 0) as [|_]; [lia|]. simpl.
  destruct (Z.leb_spec offset i64_max) as [|Hbig]; [|unfold i64_max in Hbig; lia]. simpl.
  destruct (Z.leb_spec offset 0) as [|_]; [lia|]. by rewrite Z.min_l by lia.
Qed.

Lemma lag_run_from vs : forall h st,
  stored_list (lag_key call_id partition_key) st = drop (length h - k) h ->
  run_calls call vs st = take (length vs) (drop (length h) (replicate k dflt ++ h ++ vs)).
Proof using Hoffset.
  induction vs as [|v vs IH]; intros h st Hst; [done|].
  assert (Hk : (0 < k)%nat) by (unfold k; lia).
  cbn [run_calls]. rewrite lag_call, Hst. rewrite (drop_S _ _ _ (lag_out_last k dflt h v vs Hk)). cbn [length take].
  f_equal. rewrite (IH (h ++ [v])).
  - by rewrite length_app, Nat.add_1_r, <- app_assoc.
  - rewrite stored_list_insert. by apply lag_push_last.
Qed.
End lag.

(** [lag] delays a column by exactly its offset: along any rows of a call site and
    partition, with an offset between 1 and 10,000, the results are the column shifted by
    [offset] rows, preceded by the default. *)
Theorem lag_shifts_column (call_id partition_key : string) (offset : Z) (dflt : value) (vs : list value)
    (st : rule_state) :
  0 < offset <= MAX_LAG -> st !! lag_key call_id partition_key = None ->
  run_calls (fun v => eval_lag [v; value_of_i64 offset; dflt] call_id partition_key false) vs st =
  take (length vs) (replicate (Z.to_nat offset) dflt ++ vs).
Proof.
  intros Ho Hst. rewrite (lag_run_from call_id partition_key offset dflt Ho vs []); [done|].
  unfold stored_list. by rewrite Hst.
Qed.

Lemma lag_shifts_column_witness :
  run_calls (fun v => eval_lag [v; value_of_i64 2; VNull] "c" "" false)
    [value_of_i64 1; value_of_i64 2; value_of_i64 3; value_of_i64 4] ∅ =
  [VNull; VNull; value_of_i64 1; value_of_i64 2].
Proof. apply (lag_shifts_column "c" "" 2 VNull); [unfold MAX_LAG; lia|done]. Defined.

(** ** Facts: event sequences *)

Definition cep_wf (c : Cep) : Prop := in_i64 (start_ts c) /\ in_i64 (completed c).

Lemma cep_read_write ts c : cep_wf c -> cep_read ts (Some (cep_write c)) = c.
Proof.
  intros [Hs Hc]. unfold cep_read, cep_write. rewrite !as_i64_of_i64 by done.
  destruct c as [s a n]. simpl. f_equal. unfold value_of_i64. destruct (Z.ltb_spec (Z.of_nat s) 0); [lia|].
  simpl. lia.
Qed.

Lemma cep_insert_key key v st : cep_insert key v st !! key = Some v.
Proof. unfold cep_insert. apply lookup_insert_eq. Qed.

(** An event: its timestamp and the values of the conditions. *)
Abbreviation event := (Z * list value)%type.

Definition holds_at (evs : list event) (i j : nat) : Prop :=
  exists ts steps, evs !! i = Some (ts, steps) /\ steps !! j = Some (VBool true).

(** The conditions number 0, 1, ... hold at the positions [idxs], in increasing order. *)
Definition occurs (evs : list event) (idxs : list nat) : Prop :=
  StronglySorted lt idxs /\ forall j i, idxs !! j = Some i -> holds_at evs i j.

Definition started (evs : list event) (idxs : list nat) (start : Z) : Prop :=
  exists i steps, idxs !! 0%nat = Some i /\ evs !! i = Some (start, steps).

Lemma occurs_snoc evs idxs n :
  occurs evs idxs -> Forall (fun i => (i < n)%nat) idxs -> holds_at evs n (length idxs) ->
  occurs evs (idxs ++ [n]).
Proof.
  intros [Hs Hh] Hlt Hn. split; [by apply StronglySorted_snoc|]. intros j i Hj.
  destruct (decide (j < length idxs)%nat).
  - apply Hh. by rewrite lookup_app_l in Hj.
  - rewrite lookup_app_r in Hj by lia. apply list_lookup_singleton_Some in Hj as [Hj ->].
    by replace j with (length idxs) by lia.
Qed.

Section sequences.
Context (span : Z) (k : nat) (evs : list event).
Context (Hk : (2 <= k)%nat) (Harity : Forall (fun e => length e.2 = k) evs).
Context (Hts : Forall (fun e => in_i64 e.1) evs).

(** The automaton after [n] events: a stage [s > 0] stands for [s] conditions met. *)
Definition cep_inv (n : nat) (c : Cep) : Prop :=
  cep_wf c /\ (stage c < k)%nat /\
  ((0 < stage c)%nat -> exists idxs, length idxs = stage c /\ occurs evs idxs /\
     Forall (fun i => (i < n)%nat) idxs /\ started evs idxs (start_ts c)).

(** A completed sequence at event [n]. *)
Definition sequence_at (n : nat) : Prop :=
  exists idxs, length idxs = k /\ occurs evs idxs /\ list.last idxs = Some n /\
    (0 < span -> exists start tn steps, started evs idxs start /\ evs !! n = Some (tn, steps) /\
       saturating_sub tn start <= span).

Lemma cep_first n ts steps cnt :
  evs !! n = Some (ts, steps) -> in_i64 cnt -> default false (steps !! 0%nat ≫= as_bool) = true ->
  cep_inv (S n) (mkCep 1 ts cnt).
Proof using Hk Hts.
  intros Hn Hc H0. split_and!.
  - split; [|done]. by apply (proj1 (list.Forall_lookup _ _) Hts n (ts, steps)).
  - simpl. lia.
  - intros _. exists [n]. split_and!; [done| | |].
    + split; [repeat constructor|]. intros j i Hj. apply list_lookup_singleton_Some in Hj as [-> ->].
      exists ts, steps. split; [done|]. by destruct (steps !! 0%nat) as [[]|]; simplify_eq/=.
    + constructor; [lia|constructor].
    + by exists n, steps.
Qed.

Lemma cep_inv_mono n c : cep_inv n c -> cep_inv (S n) c.
Proof.
  intros (Hw & Hs & Hi). split_and!; [done|done|]. intros H. destruct (Hi H) as (idxs & ? & ? & Hlt & ?).
  exists idxs. split_and!; [done|done| |done]. eapply list.Forall_impl; [exact Hlt|simpl; lia].
Qed.

Lemma cep_step_sound n ts steps c :
  evs !! n = Some (ts, steps) -> cep_inv n c ->
  cep_inv (S n) (cep_step span ts steps c).2 /\ ((cep_step span ts steps c).1 = true -> sequence_at n).
Proof using Hk Harity Hts.
  intros Hn Hc. pose proof Hc as ([Hst Hcnt] & Hlt & Hidx).
  assert (Hlen : length steps = k) by (by apply (proj1 (list.Forall_lookup _ _) Harity n (ts, steps))).
  unfold cep_step. rewrite Hlen.
  set (expired := (0 <? stage c)%nat && (0 <? span) && (span <? saturating_sub ts (start_ts c))).
  set (stage0 := if expired then O else stage c).
  assert (Hs0 : (stage0 <= stage c)%nat) by (unfold stage0; destruct expired; lia).
  assert (Hidle : cep_inv (S n) (mkCep stage0 (start_ts c) (completed c))).
  { split_and!; [done|simpl; lia|]. simpl. intros H. unfold stage0 in *. destruct expired; [lia|].
    apply (cep_inv_mono n c Hc). done. }
  destruct (Nat.eqb_spec stage0 0) as [Hz|Hnz].
  { destruct (default false (steps !! 0%nat ≫= as_bool)) eqn:H0; cbv zeta iota beta.
    - destruct (Nat.leb_spec k 1); [lia|]. split; [by eapply cep_first|done].
    - destruct (Nat.leb_spec k stage0); [lia|]. split; [done|done]. }
  destruct (Nat.ltb_spec stage0 k) as [Hsk|]; [|lia].
  destruct (default false (steps !! stage0 ≫= as_bool)) eqn:Hj; cbv zeta iota beta.
  2: { destruct (default false (steps !! 0%nat ≫= as_bool)) eqn:H0; cbv zeta iota beta.
    - destruct (Nat.leb_spec k 1); [lia|]. split; [by eapply cep_first|done].
    - destruct (Nat.leb_spec k stage0); [lia|]. split; [done|done]. }
  assert (Hex : expired = false) by (unfold stage0 in Hnz; by destruct expired).
  assert (Hsc : stage0 = stage c) by (unfold stage0; by rewrite Hex). rewrite Hsc in *.
  destruct Hidx as (idxs & Hil & Hocc & Hall & i0 & steps0 & Hi0 & He0); [lia|].
  assert (Hocc' : occurs evs (idxs ++ [n])).
  { apply occurs_snoc; [done|done|]. exists ts, steps. split; [done|]. rewrite Hil.
    by destruct (steps !! stage c) as [[]|]; simplify_eq/=. }
  assert (Hst' : started evs (idxs ++ [n]) (start_ts c)).
  { exists i0, steps0. split; [|done]. by apply lookup_app_l_Some. }
  destruct (Nat.leb_spec k (S (stage c))) as [Hdone|Hmore].
  - split.
    + split_and!; [|simpl; lia|simpl; lia]. split; [done|apply clamp64_range].
    + intros _. exists (idxs ++ [n]). split_and!; [rewrite length_app; simpl; lia|done|by rewrite last_snoc|].
      intros Hspan. exists (start_ts c), ts, steps. split_and!; [done|done|].
      unfold expired in Hex. destruct (Nat.ltb_spec 0 (stage c)); [|lia].
      destruct (Z.ltb_spec 0 span); [|lia]. simpl in Hex.
      by destruct (Z.ltb_spec span (saturating_sub ts (start_ts c))).
  - split; [|done]. split_and!; [done|simpl; lia|]. intros _. exists (idxs ++ [n]).
    split_and!; [rewrite length_app; simpl; lia|done| |done].
    apply Forall_app. split; [|constructor; [lia|constructor]].
    eapply list.Forall_impl; [exact Hall|simpl; lia].
Qed.
End sequences.

Section sequence_run.
Context (call_id partition_key : string) (spanv : value) (k : nat) (evs : list event).
Context (Hk : (2 <= k)%nat) (Harity : Forall (fun e => length e.2 = k) evs).
Context (Hts : Forall (fun e => in_i64 e.1) evs).
Let span := default 0 (to_i64_arg spanv).
Let key := cep_key "sequence_match" call_id partition_key.
Let call (e : event) := eval_sequence_cep "sequence_match" (spanv :: e.2) e.1 call_id partition_key false.

Lemma sequence_run_from rest : forall n st,
  drop n evs = rest ->
  (forall ts, in_i64 ts -> cep_inv k evs n (cep_read ts (st !! key))) ->
  forall i, run_calls call rest st !! i = Some (VBool true) -> sequence_at span k evs (n + i).
Proof using Hk Harity Hts.
  induction rest as [|[ts steps] rest IH]; intros n st Hd HR i Hi; [done|].
  assert (Hn : evs !! n = Some (ts, steps)) by (rewrite <- (Nat.add_0_r n), <- lookup_drop, Hd; done).
  assert (Hin : in_i64 ts) by (by apply (proj1 (list.Forall_lookup _ _) Hts n (ts, steps))).
  assert (Hlen : length steps = k) by (by apply (proj1 (list.Forall_lookup _ _) Harity n (ts, steps))).
  destruct (cep_step_sound span k evs Hk Harity Hts n ts steps _ Hn (HR ts Hin)) as [Hinv Hm].
  cbn [run_calls] in Hi. unfold call, eval_sequence_cep in Hi. cbn [fst snd] in Hi. fold span key in Hi.
  destruct (Nat.ltb_spec (length steps) 2); [lia|].
  destruct (cep_step span ts steps (cep_read ts (st !! key))) as [m c] eqn:Hstep. cbn [fst snd] in *.
  rewrite bool_decide_false in Hi by done. destruct i as [|i].
  - simpl in Hi. rewrite Nat.add_0_r. apply Hm. by simplify_eq.
  - simpl in Hi. replace (n + S i)%nat with (S n + i)%nat by lia.
    eapply (IH (S n)); [| |exact Hi].
    + replace (S n) with (n + 1)%nat by lia. by rewrite <- drop_drop, Hd.
    + intros ts' _. rewrite cep_insert_key, cep_read_write; [done|]. apply Hinv.
Qed.
End sequence_run.

(** [sequence_match] only reports sequences that occurred: whenever it answers true at
    row [n], there are rows in increasing order, the last of them [n], at which the
    conditions held one after the other, and when a span is given the last of them is at
    most that long after the first. *)
Theorem sequence_match_sound (call_id partition_key : string) (spanv : value) (k : nat) (evs : list event)
    (st : rule_state) (n : nat) :
  (2 <= k)%nat -> Forall (fun e => length e.2 = k) evs -> Forall (fun e => in_i64 e.1) evs ->
  st !! cep_key "sequence_match" call_id partition_key = None ->
  run_calls (fun e => eval_sequence_cep "sequence_match" (spanv :: e.2) e.1 call_id partition_key false) evs st !! n
    = Some (VBool true) ->
  exists idxs,
    length idxs = k /\ StronglySorted lt idxs /\ list.last idxs = Some n /\
    (forall j i, idxs !! j = Some i -> exists ts steps, evs !! i = Some (ts, steps) /\ steps !! j = Some (VBool true)) /\
    (0 < default 0 (to_i64_arg spanv) ->
     exists start tn steps, started evs idxs start /\ evs !! n = Some (tn, steps) /\
       saturating_sub tn start <= default 0 (to_i64_arg spanv)).
Proof.
  intros Hk Ha Ht Hst Hrun.
  destruct (sequence_run_from call_id partition_key spanv k evs Hk Ha Ht evs O st) with (i := n)
    as (idxs & ? & [? ?] & ? & ?); [done| |done|].
  - intros ts Hin. rewrite Hst. split_and!; [split; [done|unfold in_i64, i64_min, i64_max; simpl; lia]| |simpl; lia].
    simpl. lia.
  - exists idxs. split_and!; auto.
Qed.

Lemma sequence_match_sound_witness :
  let yes := VBool true in let no := VBool false in
  let evs : list event := [(10, [yes; no]); (15, [no; no]); (18, [no; yes]); (40, [no; yes])] in
  let outs := run_calls (fun e => eval_sequence_cep "sequence_match" (value_of_i64 20 :: e.2) e.1 "c" "" false) evs ∅ in
  outs = [no; no; yes; no] /\
  exists idxs, length idxs = 2%nat /\ StronglySorted lt idxs /\ list.last idxs = Some 2%nat.
Proof.
  intros yes no evs outs. split; [by vm_compute|].
  destruct (sequence_match_sound "c" "" (value_of_i64 20) 2 evs ∅ 2) as (idxs & ? & ? & ? & _);
    [lia|repeat constructor|repeat constructor; done|done|by vm_compute|]. by exists idxs.
Defined.
