(* ===== verification/BatchAggregates.v ===== *)
(** * Positional and order aggregates ([crates/rekuiper-sql/src/eval/aggregate.rs])

    The aggregates of a window that look at positions or at the order of the values:
    [collect], [latest], [lead], [last_value], [merge_agg], [median], the percentiles and
    the counters of aggregate hits; and [eval_aggregate_call_stateful], which dispatches
    on the name of the function. *)

From Stdlib Require Import SpecFloat.
From S2P Require Import Prelude Rust Json Ast Engine Columns Values Numbers Aggregates Accumulators.

Set Default Goal Selector "!".

(** Objects of a row and of a map under construction. *)
Definition merge_object (m : list (string * value)) (acc : row) : row :=
  foldl (fun acc kv => <[kv.1 := kv.2]> acc) acc m.

(** [f64::floor] and [f64::ceil] of a value that is not negative, [as usize]. *)
Definition f64_floor_nat (f : f64) : nat := Z.to_nat (f64_as_u64 f).
Definition f64_ceil_nat (f : f64) : nat :=
  let z := f64_as_u64 f in Z.to_nat (if f64_ltb (f64_of_Z z) f then z + 1 else z).

Definition cmp_or_equal (a b : value) : comparison := default Datatypes.Eq (compare_values a b).
Definition f64_cmp_or_equal (a b : f64) : comparison := default Datatypes.Eq (f64_partial_cmp a b).

Section aggregates.
Context `{ExprEval} `{WallClock}.

(** The values of an argument on every row. *)
Definition arg_values (arg : Expr) (records : list row) : list value := (fun rec => eval_val arg rec) <$> records.

Definition first_non_null (vals : list value) : option value := List.find (fun v => negb (is_null v)) vals.

Definition agg_collect (args : list Expr) (records : list row) : value :=
  match args with
  | [Wildcard] => VArray ((fun rec => row_to_value (visible_columns rec)) <$> records)
  | [arg] => VArray (filter (fun v => is_null v = false) (arg_values arg records))
  | _ => VNull
  end.

(** The value of an argument on the first row. *)
Definition on_first (arg : option Expr) (records : list row) : option value :=
  a ← arg; rec ← list.head records; Some (eval_val a rec).

Definition agg_latest (args : list Expr) (records : list row) : value :=
  match args with
  | arg :: rest =>
      if (1 <? length rest)%nat || is_wildcard arg then VNull
      else default (default VNull (on_first (list.head rest) records))
             (first_non_null (rev (arg_values arg records)))
  | [] => VNull
  end.

Definition agg_lead (args : list Expr) (records : list row) : value :=
  match args with
  | arg :: rest =>
      if (3 <? length rest)%nat || is_wildcard arg then VNull
      else
        let offset := default 1 (on_first (rest !! 0%nat) records ≫= to_i64_arg) in
        let dflt := default VNull (on_first (rest !! 1%nat) records) in
        if offset <? 0 then dflt
        else
          let ignore_null := default true (on_first (rest !! 2%nat) records ≫= as_bool) in
          let vals := arg_values arg records in
          let vals := if ignore_null then filter (fun v => is_null v = false) vals else vals in
          default dflt (vals !! Z.to_nat offset)
  | [] => VNull
  end.

Definition agg_sorted_numbers (arg : Expr) (records : list row) : list f64 :=
  sort_by f64_cmp_or_equal (omap as_f64 (agg_numeric_values arg records)).

(** The numbers among the values of the argument, in increasing order. *)
Definition sorted_values (arg : Expr) (records : list row) : list value :=
  sort_by cmp_or_equal (agg_numeric_values arg records).

Definition agg_median (args : list Expr) (records : list row) : value :=
  match args with
  | [arg] =>
      if is_wildcard arg then VNull
      else
        let raw := sorted_values arg records in
        let mid := (length raw / 2)%nat in
        match raw with
        | [] => VNull
        | _ :: _ =>
            if Nat.odd (length raw) then default VNull (raw !! mid)
            else
              match raw !! (mid - 1)%nat ≫= as_f64, raw !! mid ≫= as_f64 with
              | Some lo, Some hi => value_of_f64 (f64_div (f64_add lo hi) (f64_of_Z 2))
              | _, _ => VNull
              end
        end
  | _ => VNull
  end.

(** The fraction of a percentile, read on the first row. *)
Definition agg_percentile_p (args : list Expr) (records : list row) : option f64 :=
  match args with
  | [arg; p] =>
      if is_wildcard arg then None
      else
        p ← on_first (Some p) records ≫= to_f64;
        if f64_leb f64_zero p && f64_leb p (f64_of_Z 1) then Some p else None
  | _ => None
  end.

Definition agg_percentile (args : list Expr) (records : list row) : value :=
  match agg_percentile_p args records, args with
  | Some p, arg :: _ =>
      let vals := agg_sorted_numbers arg records in
      let n := length vals in
      match vals with
      | [] => VNull
      | [x] => value_of_f64 x
      | _ =>
          let rank := f64_mul p (f64_of_Z (Z.of_nat n - 1)) in
          let i := f64_floor_nat rank in
          match vals !! i, vals !! S i with
          | Some lo, Some hi =>
              let frac := f64_sub rank (f64_of_Z (Z.of_nat i)) in
              value_of_f64 (f64_add lo (f64_mul frac (f64_sub hi lo)))
          | _, _ => default VNull (value_of_f64 <$> list.last vals)
          end
      end
  | _, _ => VNull
  end.

Definition agg_percentile_disc (args : list Expr) (records : list row) : value :=
  match agg_percentile_p args records, args with
  | Some p, arg :: _ =>
      let raw := sorted_values arg records in
      let n := length raw in
      match raw with
      | [] => VNull
      | _ :: _ =>
          let index :=
            if f64_eqb p f64_zero then O
            else Nat.min (f64_ceil_nat (f64_mul p (f64_of_Z (Z.of_nat n))) - 1) (n - 1) in
          default VNull (raw !! index)
      end
  | _, _ => VNull
  end.

Definition has_value (rec : row) : bool := existsb (fun kv => negb (is_null kv.2)) (map_to_list rec).

Definition agg_last_value (args : list Expr) (records : list row) : value :=
  match args with
  | arg :: rest =>
      if (1 <? length rest)%nat then VNull
      else if (length rest =? 1)%nat && bool_decide (records = []) then VNull
      else
        let ignore_nulls := default false (on_first (list.head rest) records ≫= as_bool) in
        if is_wildcard arg then
          default VNull
            (row_to_value <$>
             (if ignore_nulls then List.find has_value (rev records) else list.last records))
        else if ignore_nulls then default VNull (first_non_null (rev (arg_values arg records)))
        else default VNull (list.last (arg_values arg records))
  | [] => VNull
  end.

Definition agg_merge_agg (args : list Expr) (records : list row) : value :=
  match args with
  | [Wildcard] => row_to_value (foldl (fun acc rec => rec ∪ acc) ∅ records)
  | [arg] =>
      row_to_value
        (foldl (fun acc v => match v with VObject m => merge_object m acc | _ => acc end) ∅
           (arg_values arg records))
  | _ => VNull
  end.

Definition agg_row_number (args : list Expr) : value :=
  match args with [] => value_of_i64 1 | _ => VNull end.

(** Hits of the aggregate in this rule, and the end of the previous window hit, or the
    wall clock when the rows carry no window bound.  The count is incremented
    without a check and wraps around. *)
Definition agg_last_agg_hit_count (st : rule_state) : value * rule_state :=
  let key := "$$last_agg_hit_count" in
  let cur := default 0 (st !! key ≫= as_i64) in
  (value_of_i64 cur, insert_bounded key (value_of_i64 (wrap64 (cur + 1))) st).

Definition agg_last_agg_hit_time (records : list row) (st : rule_state) : value * rule_state :=
  let key := "$$last_agg_hit_time" in
  let prev := default 0 (st !! key ≫= as_i64) in
  let window_end :=
    default wall_clock
      (rec ← list.head records;
       v ← match (rec : row) !! "__window_end__" with Some v => Some v | None => rec !! "window_end" end;
       as_i64 v) in
  (value_of_i64 prev, insert_bounded key (value_of_i64 window_end) st).

Definition eval_aggregate_call (name : string) (args : list Expr) (records : list row) (st : rule_state)
    : value * rule_state :=
  let lower := to_ascii_lowercase name in
  if bool_decide (lower = "count") then (agg_count args records, st)
  else if bool_decide (lower = "sum") then (agg_sum args records, st)
  else if bool_decide (lower = "avg") then (agg_avg args records, st)
  else if bool_decide (lower = "min") then (agg_min args records, st)
  else if bool_decide (lower = "max") then (agg_max args records, st)
  else if bool_decide (lower = "collect") then (agg_collect args records, st)
  else if bool_decide (lower = "lead") then (agg_lead args records, st)
  else if bool_decide (lower = "latest") then (agg_latest args records, st)
  else if bool_decide (lower = "median") then (agg_median args records, st)
  else if bool_decide (lower = "stddev") then (agg_stddev args records, st)
  else if bool_decide (lower = "stddevs") then (agg_stddevs args records, st)
  else if bool_decide (lower = "var") then (agg_var args records, st)
  else if bool_decide (lower = "vars") then (agg_vars args records, st)
  else if bool_decide (lower = "percentile" \/ lower = "percentile_cont") then (agg_percentile args records, st)
  else if bool_decide (lower = "percentile_disc") then (agg_percentile_disc args records, st)
  else if bool_decide (lower = "last_value") then (agg_last_value args records, st)
  else if bool_decide (lower = "merge_agg") then (agg_merge_agg args records, st)
  else if bool_decide (lower = "row_number") then (agg_row_number args, st)
  else if bool_decide (lower = "last_agg_hit_count") then agg_last_agg_hit_count st
  else if bool_decide (lower = "last_agg_hit_time") then agg_last_agg_hit_time records st
  else (VNull, st).
End aggregates.
