(* ===== verification/SlidingAcc.v ===== *)
(** * Invertible accumulators of sliding windows ([SlidingAcc] of [eval/window.rs])

    Insertion and expiry in amortised constant time; extrema by a monotonic deque. *)

From Stdlib Require Import SpecFloat.
From S2P Require Import Prelude Rust Json Ast Engine Values Aggregates.

Set Default Goal Selector "!".

Inductive SlidingAcc :=
  | SCount (n : Z) (entries : list (Z * bool))
  | SSum (int_sum : Z) (float_sum : f64) (float_count valid_count : nat)
         (entries : list (Z * option Z * option f64))
  | SAvg (sum : f64) (n : nat) (entries : list (Z * option f64))
  | SExtreme (is_max : bool) (mono_deque : list (Z * f64 * value)).

Definition sliding_new (kind : AggKind) : SlidingAcc :=
  match kind with
  | CountAll | Count => SCount 0 []
  | Sum => SSum 0 f64_zero 0 0 []
  | Avg => SAvg f64_zero 0 []
  | Min => SExtreme false []
  | Max => SExtreme true []
  | _ => SCount 0 []
  end.

(** [f] makes the older value [g] irrelevant. *)
Definition dominates (is_max : bool) (f g : f64) : bool := if is_max then f64_leb g f else f64_leb f g.

(** The loop that pops dominated values off the back. *)
Fixpoint drop_while {A} (p : A -> bool) (l : list A) : list A :=
  match l with
  | [] => []
  | x :: r => if p x then drop_while p r else l
  end.

Definition pop_back_while {A} (p : A -> bool) (l : list A) : list A := reverse (drop_while p (reverse l)).

Definition sliding_push (kind : AggKind) (ts : Z) (v : option value) (a : SlidingAcc) : SlidingAcc :=
  match a with
  | SCount n entries =>
      if decide (kind = CountAll) then SCount (n + 1) (entries ++ [(ts, true)])
      else
        let valid := match v with Some x => negb (is_null x) | None => false end in
        SCount (if valid then n + 1 else n) (entries ++ [(ts, valid)])
  | SSum int_sum float_sum float_count valid_count entries =>
      match numeric v with
      | Some x =>
          let f := default f64_zero (as_f64 x) in
          match as_i64 x with
          | Some i =>
              SSum (saturating_add int_sum i) (f64_add float_sum f) float_count (S valid_count)
                (entries ++ [(ts, Some i, Some f)])
          | None =>
              SSum int_sum (f64_add float_sum f) (S float_count) (S valid_count)
                (entries ++ [(ts, None, Some f)])
          end
      | None => SSum int_sum float_sum float_count valid_count (entries ++ [(ts, None, None)])
      end
  | SAvg sum n entries =>
      match numeric v with
      | Some x =>
          let f := default f64_zero (as_f64 x) in
          SAvg (f64_add sum f) (S n) (entries ++ [(ts, Some f)])
      | None => SAvg sum n (entries ++ [(ts, None)])
      end
  | SExtreme is_max mono_deque =>
      match numeric v with
      | Some x =>
          match as_f64 x with
          | Some f =>
              SExtreme is_max (pop_back_while (fun e => dominates is_max f e.1.2) mono_deque ++ [(ts, f, x)])
          | None => a
          end
      | None => a
      end
  end.

Fixpoint evict_count (cutoff : Z) (n : Z) (entries : list (Z * bool)) : SlidingAcc :=
  match entries with
  | (ts, valid) :: r =>
      if ts <? cutoff then evict_count cutoff (if valid then n - 1 else n) r else SCount n entries
  | [] => SCount n []
  end.

Fixpoint evict_sum (cutoff : Z) (int_sum : Z) (float_sum : f64) (float_count valid_count : nat)
    (entries : list (Z * option Z * option f64)) : SlidingAcc :=
  match entries with
  | (ts, opt_i, opt_f) :: r =>
      if ts <? cutoff then
        match opt_f with
        | Some f =>
            match opt_i with
            | Some i =>
                evict_sum cutoff (saturating_sub int_sum i) (f64_sub float_sum f) float_count
                  (pred valid_count) r
            | None =>
                evict_sum cutoff int_sum (f64_sub float_sum f) (pred float_count) (pred valid_count) r
            end
        | None => evict_sum cutoff int_sum float_sum float_count valid_count r
        end
      else SSum int_sum float_sum float_count valid_count entries
  | [] => SSum int_sum float_sum float_count valid_count []
  end.

Fixpoint evict_avg (cutoff : Z) (sum : f64) (n : nat) (entries : list (Z * option f64)) : SlidingAcc :=
  match entries with
  | (ts, opt_f) :: r =>
      if ts <? cutoff then
        match opt_f with
        | Some f => evict_avg cutoff (f64_sub sum f) (pred n) r
        | None => evict_avg cutoff sum n r
        end
      else SAvg sum n entries
  | [] => SAvg sum n []
  end.

Definition sliding_evict_before (cutoff : Z) (a : SlidingAcc) : SlidingAcc :=
  match a with
  | SCount n entries => evict_count cutoff n entries
  | SSum i f fc vc entries =>
      match evict_sum cutoff i f fc vc entries with
      | SSum i f fc O entries => SSum 0 f64_zero 0 0 entries
      | other => other
      end
  | SAvg sum n entries =>
      match evict_avg cutoff sum n entries with
      | SAvg sum O entries => SAvg f64_zero 0 entries
      | other => other
      end
  | SExtreme is_max mono_deque =>
      SExtreme is_max (drop_while (fun e => e.1.1 <? cutoff) mono_deque)
  end.

Definition sliding_current (a : SlidingAcc) : value :=
  match a with
  | SCount n _ => value_of_i64 n
  | SSum int_sum float_sum float_count valid_count _ =>
      if (valid_count =? 0)%nat then VNull
      else if (float_count =? 0)%nat then value_of_i64 int_sum
      else value_of_f64 float_sum
  | SAvg sum n _ =>
      if (n =? 0)%nat then VNull else value_of_f64 (f64_div sum (f64_of_Z (Z.of_nat n)))
  | SExtreme _ mono_deque =>
      match mono_deque with
      | (_, _, v) :: _ => v
      | [] => VNull
      end
  end.

(** ** Histories *)

Inductive SlidingOp :=
  | SPush (ts : Z) (v : option value)
  | SEvict (cutoff : Z).

Definition sliding_step (kind : AggKind) (a : SlidingAcc) (op : SlidingOp) : SlidingAcc :=
  match op with
  | SPush ts v => sliding_push kind ts v a
  | SEvict cutoff => sliding_evict_before cutoff a
  end.

Definition sliding_history (kind : AggKind) (ops : list SlidingOp) : SlidingAcc :=
  foldl (sliding_step kind) (sliding_new kind) ops.

(** The specification: what was pushed and not evicted. *)
Definition window_step (w : list (Z * option value)) (op : SlidingOp) : list (Z * option value) :=
  match op with
  | SPush ts v => w ++ [(ts, v)]
  | SEvict cutoff => filter (fun e => cutoff <= e.1) w
  end.

Definition window_contents (ops : list SlidingOp) : list (Z * option value) := foldl window_step [] ops.

(** ** Facts: queues *)

Lemma drop_while_filter {A} (p : A -> bool) (l : list A) :
  StronglySorted (fun x y => p y = true -> p x = true) l ->
  drop_while p l = filter (fun x => p x = false) l.
Proof.
  induction 1 as [|x l Hl IH Hx]; [done|]. simpl. rewrite list.filter_cons.
  destruct (p x) eqn:Hp; [exact IH|]. rewrite decide_True by done. f_equal.
  symmetry. apply filter_all. eapply list.Forall_impl; [exact Hx|]. intros y Hy. simpl in Hy.
  destruct (p y); [|done]. specialize (Hy eq_refl). congruence.
Qed.

Lemma pop_back_snoc {A} (p : A -> bool) (l : list A) y :
  pop_back_while p (l ++ [y]) = if p y then pop_back_while p l else l ++ [y].
Proof.
  unfold pop_back_while. rewrite reverse_snoc. simpl. destruct (p y); [done|].
  by rewrite reverse_cons, reverse_involutive.
Qed.

Lemma pop_back_filter {A} (p : A -> bool) (l : list A) :
  StronglySorted (fun x y => p x = true -> p y = true) l ->
  pop_back_while p l = filter (fun x => p x = false) l.
Proof.
  induction l as [|y l IH] using rev_ind; [done|]. intros [Hs Hy]%StronglySorted_snoc.
  rewrite pop_back_snoc, list.filter_app, list.filter_cons, list.filter_nil.
  destruct (p y) eqn:Hp.
  - rewrite decide_False by done. rewrite app_nil_r. by apply IH.
  - rewrite decide_True by done. f_equal. symmetry. apply filter_all.
    eapply list.Forall_impl; [exact Hy|]. intros x Hx. simpl in Hx. destruct (p x); [|done]. specialize (Hx eq_refl). congruence.
Qed.

(** ** Facts: the monotonic deque *)

Section deque.
Context (is_max : bool).
Abbreviation entry := (Z * f64 * value)%type.
Abbreviation dom := (fun x y : entry => dominates is_max x.1.2 y.1.2).

Definition proper (e : entry) : Prop := is_nan e.1.2 = false.

Lemma dom_refl x : proper x -> dom x x = true.
Proof. intros Hx. unfold dominates. destruct is_max; by apply f64_leb_refl. Qed.

Lemma dom_trans x y z : proper x -> proper y -> proper z -> dom x y = true -> dom y z = true -> dom x z = true.
Proof.
  unfold dominates, proper. destruct is_max; intros Hx Hy Hz H1 H2; [exact (f64_leb_trans _ _ _ Hz Hy Hx H2 H1)|].
  exact (f64_leb_trans _ _ _ Hx Hy Hz H1 H2).
Qed.

Lemma dom_total x y : proper x -> proper y -> dom x y = false -> dom y x = true.
Proof.
  unfold dominates, proper. intros Hx Hy Hd.
  destruct is_max; destruct (f64_leb_total _ _ Hx Hy) as [H|H]; congruence.
Qed.

(** The entries no later entry dominates. *)
Fixpoint maxima (w : list entry) : list entry :=
  match w with
  | [] => []
  | x :: l => if existsb (fun y => dom y x) l then maxima l else x :: maxima l
  end.

Lemma maxima_snoc w v : maxima (w ++ [v]) = filter (fun e => dom v e = false) (maxima w) ++ [v].
Proof.
  induction w as [|x w IH]; [done|]. simpl. rewrite existsb_app. simpl. rewrite orb_false_r.
  destruct (existsb _ w); [by rewrite IH|]. cbn [orb]. rewrite list.filter_cons.
  destruct (dom v x) eqn:Hd; [by rewrite decide_False|]. rewrite decide_True by done. simpl. by f_equal.
Qed.

Lemma maxima_sub w e : e ∈ maxima w -> e ∈ w.
Proof.
  induction w as [|x w IH]; simpl; [done|]. destruct (existsb _ w); [right; auto|].
  intros [->|He]%elem_of_cons; [by left|right; auto].
Qed.

Lemma maxima_Forall (P : entry -> Prop) w : Forall P w -> Forall P (maxima w).
Proof.
  intros Hw. apply list.Forall_forall. intros e He%maxima_sub. by apply (proj1 (list.Forall_forall _ _) Hw).
Qed.

Lemma maxima_sorted (R : entry -> entry -> Prop) w : StronglySorted R w -> StronglySorted R (maxima w).
Proof.
  induction 1 as [|x w Hw IH Hx]; simpl; [constructor|]. destruct (existsb _ w); [done|].
  constructor; [done|by apply maxima_Forall].
Qed.

Lemma existsb_false {A} (p : A -> bool) l : existsb p l = false -> Forall (fun x => p x = false) l.
Proof.
  intros Hl. apply list.Forall_forall. intros x Hx%list_elem_of_In. destruct (p x) eqn:Hp; [|done].
  rewrite <- Hl. symmetry. apply existsb_exists. by exists x.
Qed.

Lemma maxima_decreasing w : StronglySorted (fun x y => dom y x = false) (maxima w).
Proof.
  induction w as [|x w IH]; simpl; [constructor|]. destruct (existsb _ w) eqn:He; [done|].
  constructor; [done|]. by apply maxima_Forall, existsb_false.
Qed.

(** What dominates an entry of the deque dominates the later ones. *)
Lemma maxima_suffix w v :
  Forall proper w -> proper v -> StronglySorted (fun x y => dom v x = true -> dom v y = true) (maxima w).
Proof.
  intros Hw Hv. pose proof (maxima_Forall _ _ Hw) as Hm.
  induction (maxima_decreasing w) as [|x l Hl IH Hx]; [constructor|].
  apply Forall_cons_1 in Hm as [Hpx Hm]. constructor; [by apply IH|].
  apply list.Forall_forall. intros y Hy Hvx.
  pose proof (proj1 (list.Forall_forall _ _) Hx y Hy) as Hyx.
  pose proof (proj1 (list.Forall_forall _ _) Hm y Hy) as Hpy.
  apply (dom_trans v x y); try done. by apply dom_total.
Qed.

Lemma deque_push w v :
  Forall proper w -> proper v ->
  pop_back_while (fun e => dom v e) (maxima w) ++ [v] = maxima (w ++ [v]).
Proof.
  intros Hw Hv. rewrite maxima_snoc, pop_back_filter; [done|]. by apply maxima_suffix.
Qed.

Definition by_time (x y : entry) : Prop := x.1.1 <= y.1.1.

Lemma maxima_filter_time cutoff w :
  StronglySorted by_time w ->
  maxima (filter (fun e => cutoff <= e.1.1) w) = filter (fun e => cutoff <= e.1.1) (maxima w).
Proof.
  induction 1 as [|x w Hw IH Hx]; [done|]. rewrite list.filter_cons.
  destruct (decide (cutoff <= x.1.1)) as [Hc|Hc].
  - assert (Hall : Forall (fun e : entry => cutoff <= e.1.1) (x :: w)).
    { constructor; [done|]. eapply list.Forall_impl; [exact Hx|]. unfold by_time. simpl. intros y Hy. lia. }
    rewrite (filter_all _ w) by (by apply Forall_cons_1 in Hall as [_ ?]).
    symmetry. apply filter_all. by apply maxima_Forall.
  - simpl. destruct (existsb _ w); [done|]. by rewrite IH, list.filter_cons_False.
Qed.

Lemma deque_evict cutoff w :
  StronglySorted by_time w ->
  drop_while (fun e => e.1.1 <? cutoff) (maxima w) = maxima (filter (fun e => cutoff <= e.1.1) w).
Proof.
  intros Hw. rewrite maxima_filter_time by done. rewrite drop_while_filter.
  - apply list_filter_iff. intros e. rewrite Z.ltb_ge. done.
  - eapply StronglySorted_weaken; [|apply maxima_sorted, Hw]. intros x y Hxy. unfold by_time in Hxy.
    rewrite !Z.ltb_lt. lia.
Qed.

(** The front is an extreme of the window. *)
Lemma maxima_front w x l :
  Forall proper w -> maxima w = x :: l -> x ∈ w /\ Forall (fun y => dom x y = true) w.
Proof.
  intros Hw. revert x l. induction Hw as [|y w Hy Hw IH]; intros x l; simpl; [done|].
  destruct (existsb _ w) eqn:He.
  - intros Hx. destruct (IH _ _ Hx) as [Hin Hdom]. split; [by right|]. constructor; [|done].
    apply existsb_exists in He as (z & Hz%list_elem_of_In & Hzy).
    pose proof (proj1 (list.Forall_forall _ _) Hdom z Hz) as Hxz. simpl in Hxz.
    apply (dom_trans x z y); try done; by apply (proj1 (list.Forall_forall _ _) Hw).
  - intros [= <- _]. split; [by left|]. constructor; [by apply dom_refl|].
    apply existsb_false in He. apply list.Forall_forall. intros z Hz.
    apply dom_total; [by apply (proj1 (list.Forall_forall _ _) Hw)|done|].
    by apply (proj1 (list.Forall_forall _ _) He).
Qed.

Lemma maxima_nil w : maxima w = [] -> w = [].
Proof.
  induction w as [|x w IH]; simpl; [done|]. destruct (existsb _ w) eqn:He; [|done].
  intros Hw%IH. by rewrite Hw in He.
Qed.
End deque.

(** ** The accumulators against the window contents *)

Definition entry_time (e : Z * option value) (f : Z * option value) : Prop := e.1 <= f.1.

(** The push times never decrease. *)
Definition push_time (op : SlidingOp) : option Z := match op with SPush ts _ => Some ts | SEvict _ => None end.
Definition times_ordered (ops : list SlidingOp) : Prop := StronglySorted Z.le (omap push_time ops).

(** All pushed numbers are numbers [serde_json] can hold. *)
Definition op_wf (op : SlidingOp) : Prop :=
  match op with SPush _ (Some v) => value_number_wf v | _ => True end.

#[global] Instance number_wf_dec n : Decision (number_wf n).
Proof. destruct n; simpl; apply _. Defined.
#[global] Instance op_wf_dec op : Decision (op_wf op).
Proof. destruct op as [ts [[]|]|]; simpl; apply _. Defined.

Lemma window_times ops e : e ∈ window_contents ops -> e.1 ∈ omap push_time ops.
Proof.
  induction ops as [|op ops IH] using rev_ind; [by intros ?%elem_of_nil|].
  unfold window_contents. rewrite foldl_app, omap_app. simpl. intros He. apply elem_of_app.
  destruct op as [ts v|c]; simpl in *.
  - apply elem_of_app in He as [He|He%list_elem_of_singleton]; [left; auto|]. subst. right. by left.
  - left. apply list_elem_of_filter in He as [_ He]. auto.
Qed.

Lemma window_sorted ops : times_ordered ops -> StronglySorted entry_time (window_contents ops).
Proof.
  induction ops as [|op ops IH] using rev_ind; [constructor|].
  unfold times_ordered, window_contents. rewrite omap_app, foldl_app. simpl. destruct op as [ts v|c]; simpl.
  - intros [Ho Hts]%StronglySorted_snoc. apply StronglySorted_snoc. split; [by apply IH|].
    apply list.Forall_forall. intros e He%window_times. by apply (proj1 (list.Forall_forall _ _) Hts).
  - rewrite app_nil_r. intros Ho. by apply StronglySorted_filter, IH.
Qed.

(** The numbers of the window, as deque entries. *)
Definition as_entry (e : Z * option value) : option (Z * f64 * value) :=
  x ← numeric e.2; f ← as_f64 x; Some (e.1, f, x).

Definition number_entries (w : list (Z * option value)) : list (Z * f64 * value) := omap as_entry w.

Lemma as_entry_time e x : as_entry e = Some x -> x.1.1 = e.1.
Proof. unfold as_entry. by intros (y & _ & (f & _ & [= <-])%bind_Some)%bind_Some. Qed.

Lemma number_entries_filter c w :
  number_entries (filter (fun e => c <= e.1) w) = filter (fun e => c <= e.1.1) (number_entries w).
Proof.
  unfold number_entries. induction w as [|e w IH]; [done|]. rewrite list.filter_cons. csimpl.
  destruct (as_entry e) as [x|] eqn:Hx.
  - rewrite list.filter_cons, (as_entry_time e x Hx). destruct (decide (c <= e.1)); [|done].
    csimpl. by rewrite Hx, IH.
  - destruct (decide (c <= e.1)); [|done]. csimpl. by rewrite Hx.
Qed.

Lemma number_entries_sorted w : StronglySorted entry_time w -> StronglySorted by_time (number_entries w).
Proof.
  unfold number_entries. induction 1 as [|e w Hw IH He]; [constructor|]. csimpl.
  destruct (as_entry e) as [x|] eqn:Hx; [|done]. constructor; [done|].
  apply list.Forall_forall. intros y (f & Hf & Hy)%list_elem_of_omap.
  apply (proj1 (list.Forall_forall _ _) He) in Hf. unfold by_time, entry_time in *.
  by rewrite (as_entry_time e x Hx), (as_entry_time f y Hy).
Qed.

Lemma number_entries_proper ops : Forall op_wf ops -> Forall proper (number_entries (window_contents ops)).
Proof.
  induction ops as [|op ops IH] using rev_ind; [constructor|]. intros [Hops Hop]%Forall_app.
  apply Forall_inv in Hop. specialize (IH Hops). unfold window_contents in *. rewrite foldl_app. simpl.
  destruct op as [ts v|c]; simpl.
  - unfold number_entries. rewrite omap_app. apply Forall_app. split; [done|]. csimpl.
    destruct (as_entry (ts, v)) as [x|] eqn:Hx; [|constructor]. apply list.Forall_singleton.
    unfold as_entry in Hx. destruct v as [v|]; [|done]. unfold numeric in Hx. simpl in Hx, Hop.
    destruct (is_number v); [|done]. simpl in Hx.
    destruct (as_f64 v) as [f|] eqn:Hf; [|done]. injection Hx as <-. by eapply as_f64_not_nan.
  - rewrite number_entries_filter. by apply Forall_filter_sub.
Qed.

Lemma sliding_extreme_deque (is_max : bool) ops :
  times_ordered ops -> Forall op_wf ops ->
  sliding_history (if is_max then Max else Min) ops =
  SExtreme is_max (maxima is_max (number_entries (window_contents ops))).
Proof.
  unfold sliding_history, window_contents. set (kind := if is_max then Max else Min).
  induction ops as [|op ops IH] using rev_ind; [by destruct is_max|]. intros Ho [Hw Hop]%Forall_app.
  assert (Hord : times_ordered ops).
  { unfold times_ordered in *. rewrite omap_app in Ho. destruct op; simpl in Ho.
    - by apply StronglySorted_snoc in Ho as [Ho _].
    - by rewrite app_nil_r in Ho. }
  rewrite !foldl_app. simpl. rewrite IH by done. clear IH.
  pose proof (number_entries_proper ops Hw) as Hp. unfold window_contents in Hp.
  pose proof (number_entries_proper (ops ++ [op])) as Hp'. unfold window_contents in Hp'.
  rewrite foldl_app in Hp'. simpl in Hp'. specialize (Hp' ltac:(by apply Forall_app)).
  destruct op as [ts v|c]; cbn [sliding_step window_step] in *.
  - unfold number_entries in *. rewrite omap_app in *. csimpl. cbn [sliding_push].
    csimpl in Hp'. unfold as_entry in *. simpl in *.
    destruct (numeric v) as [x|]; simpl in *; [|by rewrite app_nil_r].
    destruct (as_f64 x) as [f|]; simpl in *; [|by rewrite app_nil_r].
    apply Forall_app in Hp' as [_ Hv]. apply Forall_inv in Hv.
    f_equal. by apply (deque_push is_max _ (ts, f, x)).
  - rewrite number_entries_filter. cbn [sliding_evict_before]. f_equal. apply deque_evict.
    by apply number_entries_sorted, (window_sorted ops).
Qed.

(** C20. Sliding extrema are exact.  Whatever the interleaving of insertions, with
    non-decreasing timestamps, and evictions, the value the monotonic deque reports is
    that of an entry of the current window that no entry of the window exceeds (for
    max; for min, that exceeds none), and null only when the window has no number. *)
Theorem sliding_extreme_exact (is_max : bool) (ops : list SlidingOp) :
  let w := number_entries (window_contents ops) in
  times_ordered ops -> Forall op_wf ops ->
  let out := sliding_current (sliding_history (if is_max then Max else Min) ops) in
  w = [] /\ out = VNull \/
  exists ts f, (ts, f, out) ∈ w /\
    Forall (fun e => (if is_max then f64_leb e.1.2 f else f64_leb f e.1.2) = true) w.
Proof.
  intros w Ho Hw out. subst out. rewrite sliding_extreme_deque by done. fold w. simpl.
  destruct (maxima is_max w) as [|[[ts f] v] l] eqn:Hm.
  - left. split; [by eapply maxima_nil|done].
  - right. exists ts, f. apply (maxima_front is_max w (ts, f, v) l); [|done]. by apply number_entries_proper.
Qed.

Definition sample_ops : list SlidingOp :=
  [SPush 1 (Some (value_of_i64 5)); SPush 2 (Some (value_of_i64 3)); SPush 2 (Some (VString "x"));
   SPush 4 (Some (value_of_i64 4)); SEvict 2; SPush 5 (Some (value_of_i64 1))].

Lemma sliding_extreme_exact_witness :
  let w := number_entries (window_contents sample_ops) in
  let out := sliding_current (sliding_history Max sample_ops) in
  out = value_of_i64 4 /\
  (w = [] /\ out = VNull \/ exists ts f, (ts, f, out) ∈ w /\ Forall (fun e => f64_leb e.1.2 f = true) w).
Proof.
  split; [by vm_compute|]. apply (sliding_extreme_exact true).
  - repeat (constructor; [|by repeat (constructor; [by vm_compute|])]). constructor.
  - apply (bool_decide_unpack _). by vm_compute.
Defined.

(** Sliding float sums drift: after inserting 10^16 and 0.5 and evicting the first,
    the window holds only 0.5, but the running sum is 0: the subtraction does not undo
    the rounding of the addition. *)
Theorem sliding_sum_drifts :
  let half := value_of_f64 (f64_div (f64_of_Z 1) (f64_of_Z 2)) in
  let ops := [SPush 1 (Some (value_of_i64 (10 ^ 16))); SPush 2 (Some half); SEvict 2] in
  window_contents ops = [(2, Some half)] /\
  sliding_current (sliding_history Sum ops) = value_of_f64 f64_zero /\
  sliding_current (sliding_history Avg ops) = value_of_f64 f64_zero.
Proof. by vm_compute. Qed.
