(* ===== verification/GroupedWindow.v ===== *)
(** * Grouped windows ([crates/rekuiper-sql/src/eval/window.rs],
      [eval_aggregate_stateful] and the column names of [eval.rs])

    A window trigger with aggregates or [GROUP BY]: the batch evaluation partitions
    the rows by an encoded key and aggregates every group; [IncrementalWindow] keeps
    one set of accumulators per group instead of the rows.  The theorems: the encoded
    key stands for the group values, the partition is the one by key, and the
    incremental window produces the rows of the batch evaluation. *)

From Stdlib Require Import Ascii.
From stdpp Require Import pretty.
From S2P Require Import Prelude Rust Json Ast Engine Columns Values Aggregates BatchAggregates SlidingAcc Windows.

Set Default Goal Selector "!".

(** ** Group keys and partitions *)

Definition unit_separator : ascii := "031".

Section batch.
Context `{ExprEval} `{Text}.

Definition write_group_key (key : string) (v : value) : string :=
  match v with
  | VString s => key +:+ "s" +:+ pretty (N.of_nat (String.length s)) +:+ ":" +:+ s
  | other => key +:+ "v" +:+ value_to_string other
  end +:+ String unit_separator "".

Definition group_key (group_by : list Expr) (r : row) : string :=
  foldl (fun key e => write_group_key key (group_value e r)) "" group_by.

(** [partition_keyed_groups]: the index of a key and the groups in first-seen order. *)
Definition partition_step (group_by : list Expr) (s : gmap string nat * list (string * list row)) (r : row)
    : gmap string nat * list (string * list row) :=
  let '(index, groups) := s in
  let key := group_key group_by r in
  match index !! key with
  | Some i => (index, alter (fun g => (g.1, g.2 ++ [r])) i groups)
  | None => (<[key := length groups]> index, groups ++ [(key, [r])])
  end.

Definition partition_keyed_groups (group_by : list Expr) (rows : list row) : list (string * list row) :=
  (foldl (partition_step group_by) (∅, []) rows).2.

(** ** Order and limit *)

Definition order_value (e : Expr) (r : row) (idx : nat) : value :=
  let v := eval_val e r in
  match e with
  | Call _ _ => if is_null v then default v (r !! column_name e idx) else v
  | _ => v
  end.

Fixpoint compare_rows (idx : nat) (items : list OrderByItem) (a b : row) : comparison :=
  match items with
  | [] => Datatypes.Eq
  | item :: rest =>
      let ord := default Datatypes.Eq
        (compare_values (order_value (order_expr item) a idx) (order_value (order_expr item) b idx)) in
      match match order item with Asc => ord | Desc => CompOpp ord end with
      | Datatypes.Eq => compare_rows (S idx) rest a b
      | o => o
      end
  end.

Definition apply_order_limit (stmt : SelectStmt) (rows : list row) : list row :=
  let rows := if (length (order_by stmt) =? 0)%nat || (length rows <=? 1)%nat then rows
              else sort_by (compare_rows 0 (order_by stmt)) rows in
  match limit stmt with Some n => take n rows | None => rows end.
End batch.

(** ** Batch evaluation *)

(** What the batch evaluation asks of the rest of the evaluator: general expressions
    over a group and the row built so far, and the projection of a single row. *)
Class GroupExprs := {
  eval_agg_expr : Expr -> list row -> row -> string -> rule_state -> value * rule_state;
  eval_select : SelectStmt -> row -> rule_state -> option row * rule_state;
}.

(** A state-passing map with early removal, and a fold. *)
Fixpoint omap_state {A B} (f : A -> rule_state -> option B * rule_state) (l : list A) (st : rule_state)
    : list B * rule_state :=
  match l with
  | [] => ([], st)
  | x :: r =>
      let '(o, st) := f x st in
      let '(ys, st) := omap_state f r st in
      (match o with Some y => y :: ys | None => ys end, st)
  end.

Section aggregate.
Context `{ExprEval} `{Text} `{WallClock} `{GroupExprs}.

(** [SELECT p.*] over the first record of the group. *)
Definition expand_star (parent : Expr) (first : option row) (out : row) : row :=
  match first with
  | None => out
  | Some rec =>
      match eval_val parent rec, parent with
      | VObject m, _ => foldl (fun o kv => if visible kv.1 then or_insert kv.1 kv.2 o else o) out m
      | _, Identifier p_name =>
          let has_other_namespace :=
            existsb (fun kv => negb (bool_decide (kv.1 = p_name)) && visible kv.1 &&
                       match kv.2 with VObject _ => true | _ => false end) (map_to_list rec) in
          if has_other_namespace then out else out ∪ visible_columns rec
      | _, _ => out
      end
  end.

(** One field of the projection: its output name, its expression and the row so far. *)
Definition aggregate_field (records : list row) (pkey : string) (f : string * Expr) (s : row * rule_state)
    : row * rule_state :=
  let '(key, field) := f in
  let '(out, st) := s in
  let first := list.head records in
  match field with
  | Wildcard => (match first with Some rec => out ∪ visible_columns rec | None => out end, st)
  | WildcardModified except replace =>
      let kept k := negb (bool_decide (k ∈ except)) || bool_decide (k ∈ replace.*2) in
      let out := match first with
                 | Some rec => out ∪ filter (fun kv => kept kv.1 = true) (visible_columns rec)
                 | None => out
                 end in
      foldl (fun '(out, st) '(e, col) =>
               let '(v, st) := eval_agg_expr e records out pkey st in (<[col := v]> out, st))
        (out, st) replace
  | Identifier name => (or_insert key (default VNull (first ≫= (fun rec => rec !! name))) out, st)
  | FieldAccess parent leaf =>
      if bool_decide (leaf = "*") then (expand_star parent first out, st)
      else (or_insert key (match first with Some rec => eval_val field rec | None => VNull end) out, st)
  | Call name args =>
      if is_aggregate_call name then
        let '(v, st) := eval_aggregate_call name args records st in (<[key := v]> out, st)
      else let '(v, st) := eval_agg_expr field records out pkey st in (or_insert key v out, st)
  | _ => let '(v, st) := eval_agg_expr field records out pkey st in (or_insert key v out, st)
  end.

(** A statement without its [UNION] branch. *)
Definition eval_aggregate_single (stmt : SelectStmt) (records : list row) (pkey : string) (st : rule_state)
    : option row * rule_state :=
  let '(out, st) := foldl (fun s f => aggregate_field records pkey f s) (∅, st) (named_fields stmt) in
  match having stmt with
  | Some cond =>
      let '(v, st) := eval_agg_expr cond records out pkey st in
      (if bool_decide (v = VBool true) then Some out else None, st)
  | None => (Some out, st)
  end.

Fixpoint eval_aggregate (stmt : SelectStmt) (records : list row) (pkey : string) (st : rule_state)
    : option row * rule_state :=
  match set_op stmt with
  | Some (_, rhs) =>
      let '(l, st) := eval_aggregate_single stmt records pkey st in
      let '(r, st) := eval_aggregate rhs records pkey st in
      (merge_union_rows l r, st)
  | None => eval_aggregate_single stmt records pkey st
  end.

Definition without_where (stmt : SelectStmt) : SelectStmt :=
  let '(mkSelect a b c d e _ g h i j k l m n o) := stmt in mkSelect a b c d e None g h i j k l m n o.

(** [eval_window_filtered_stateful]: the rows of a trigger that passed [WHERE]. *)
Definition eval_window_filtered (stmt : SelectStmt) (rows : list row) (st : rule_state)
    : list row * rule_state :=
  match rows with
  | [] => ([], st)
  | _ :: _ =>
      let '(out, st) :=
        if negb (is_grouped_window stmt) then omap_state (eval_select (without_where stmt)) rows st
        else match group_by stmt with
             | [] => let '(o, st) := eval_aggregate stmt rows "" st in
                     (match o with Some r => [r] | None => [] end, st)
             | gb => omap_state (fun g st => eval_aggregate stmt g.2 g.1 st) (partition_keyed_groups gb rows) st
             end in
      (apply_order_limit stmt out, st)
  end.

(** [eval_window_stateful] *)
Definition eval_window_rows (stmt : SelectStmt) (rows : list row) (st : rule_state) : list row * rule_state :=
  eval_window_filtered stmt (filter (fun r => passes_where stmt r = true) rows) st.
End aggregate.

(** ** Incremental windows *)

Inductive Plan :=
  | PlanFirst (name : string) (expr : Expr)
  | PlanAgg (name : string) (kind : AggKind) (arg : option Expr).

(** The aggregates of one argument that have an accumulator. *)
Definition simple_kinds : list (string * AggKind) :=
  [("count", Count); ("sum", Sum); ("avg", Avg); ("min", Min); ("max", Max); ("stddev", Stddev);
   ("stddevs", Stddevs); ("var", Var); ("vars", Vars); ("median", Median)].

Definition agg_kind (lower : string) (args : list Expr) : option AggKind :=
  match args with
  | [Wildcard] => if bool_decide (lower = "count") then Some CountAll else None
  | [_] => snd <$> List.find (fun p => bool_decide (p.1 = lower)) simple_kinds
  | [Wildcard; _] => None
  | [_; Literal (VNumber n)] =>
      let p := number_as_f64 n in
      if bool_decide (lower ∈ ["percentile"; "percentile_cont"; "percentile_disc"]) &&
         f64_leb f64_zero p && f64_leb p (f64_of_Z 1)
      then Some (Percentile p) else None
  | _ => None
  end.

Definition field_plan (f : string * Expr) : option Plan :=
  let '(name, field) := f in
  match field with
  | Identifier _ => Some (PlanFirst name field)
  | FieldAccess parent _ => if contains_aggregate parent then None else Some (PlanFirst name field)
  | Call fname args =>
      match args with
      | [] => None
      | a :: _ =>
          if contains_aggregate a then None
          else
            kind ← agg_kind (to_ascii_lowercase fname) args;
            Some (PlanAgg name kind (if is_wildcard a then None else Some a))
      end
  | _ => None
  end.

(** The statement has a plan only without joins, [HAVING], [UNION] or nested aggregates. *)
Definition make_plans (stmt : SelectStmt) : option (list Plan) :=
  if match set_op stmt with Some _ => true | None => false end ||
     negb (bool_decide (length (joins stmt) = O)) ||
     match having stmt with Some _ => true | None => false end ||
     negb (is_grouped_window stmt) || existsb contains_aggregate (group_by stmt)
  then None
  else mapM field_plan (named_fields stmt).

(** The output columns of the group values. *)
Definition make_group_names (stmt : SelectStmt) : list string := imap (fun idx g => column_name g idx) (group_by stmt).

Section incremental.
Context `{ExprEval} `{Text} `{Sketch}.

Record Group := mkGroup {
  group_values : list value;
  firsts : list value;
  accs : list Acc;
}.

Record IncrementalWindow := mkIncremental {
  iw_where : option Expr;
  iw_group_by : list Expr;
  iw_group_names : list string;
  iw_plans : list Plan;
  iw_order_stmt : SelectStmt;
  iw_index : gmap string nat;
  iw_groups : list Group;
}.

Definition incremental_try_new (stmt : SelectStmt) : option IncrementalWindow :=
  plans ← make_plans stmt;
  Some (mkIncremental (where_clause stmt) (group_by stmt) (make_group_names stmt) plans stmt ∅ []).

Definition incremental_is_empty (w : IncrementalWindow) : bool := bool_decide (length (iw_groups w) = O).

Definition new_group (group_by : list Expr) (plans : list Plan) (r : row) : Group :=
  mkGroup ((fun g => group_value g r) <$> group_by)
    ((fun p => match p with PlanFirst _ e => group_value e r | PlanAgg _ _ _ => VNull end) <$> plans)
    ((fun p => match p with PlanAgg _ kind _ => acc_new kind | PlanFirst _ _ => AccCount 0 end) <$> plans).

Definition update_acc (r : row) (p : Plan) (a : Acc) : Acc :=
  match p with
  | PlanAgg _ kind None => acc_update kind None a
  | PlanAgg _ kind (Some e) => acc_update kind (Some (group_value e r)) a
  | PlanFirst _ _ => a
  end.

Definition update_group (plans : list Plan) (r : row) (g : Group) : Group :=
  mkGroup (group_values g) (firsts g) (zip_with (update_acc r) plans (accs g)).

(** [push]: [false] when [WHERE] rejected the row. *)
Definition incremental_push (r : row) (w : IncrementalWindow) : bool * IncrementalWindow :=
  if match iw_where w with Some cond => negb (eval_bool cond r) | None => false end then (false, w)
  else
    let key := group_key (iw_group_by w) r in
    let '(index, groups) :=
      match iw_index w !! key with
      | Some i => (iw_index w, alter (update_group (iw_plans w) r) i (iw_groups w))
      | None =>
          (<[key := length (iw_groups w)]> (iw_index w),
           iw_groups w ++ [update_group (iw_plans w) r (new_group (iw_group_by w) (iw_plans w) r)])
      end in
    (true, mkIncremental (iw_where w) (iw_group_by w) (iw_group_names w) (iw_plans w) (iw_order_stmt w)
             index groups).

(** The columns of a plan, added to a row. *)
Definition plan_column (finish : Acc -> value) (out : row) (c : Plan * value * Acc) : row :=
  match c with
  | (PlanFirst name _, first, _) => or_insert name first out
  | (PlanAgg name _ _, _, acc) => <[name := finish acc]> out
  end.

Definition group_columns (names : list string) (values : list value) : row :=
  foldl (fun out '(name, v) => <[name := v]> out) ∅ (zip names values).

Definition group_row (w : IncrementalWindow) (g : Group) : row :=
  foldl (plan_column acc_finish) (group_columns (iw_group_names w) (group_values g))
    (zip (zip (iw_plans w) (firsts g)) (accs g)).

(** [take]: the output rows of every group; the window is empty again. *)
Definition incremental_take (w : IncrementalWindow) : list row * IncrementalWindow :=
  (apply_order_limit (iw_order_stmt w) (group_row w <$> iw_groups w),
   mkIncremental (iw_where w) (iw_group_by w) (iw_group_names w) (iw_plans w) (iw_order_stmt w) ∅ []).
End incremental.

(** ** Sliding incremental windows *)

Section sliding_incremental.
Context `{ExprEval} `{Text}.

Record SlidingGroup := mkSlidingGroup {
  sg_values : list value;
  sg_firsts : list value;
  sg_accs : list SlidingAcc;
}.

Record SlidingIncrementalWindow := mkSlidingIncremental {
  sw_where : option Expr;
  sw_group_by : list Expr;
  sw_group_names : list string;
  sw_plans : list Plan;
  sw_order_stmt : SelectStmt;
  sw_index : gmap string nat;
  sw_groups : list SlidingGroup;
}.

(** Deviations and quantiles have no eviction. *)
Definition evictable (p : Plan) : bool :=
  match p with
  | PlanAgg _ (Stddev | Stddevs | Var | Vars | Median | Percentile _) _ => false
  | _ => true
  end.

Definition sliding_try_new (stmt : SelectStmt) : option SlidingIncrementalWindow :=
  plans ← make_plans stmt;
  if forallb evictable plans then
    Some (mkSlidingIncremental (where_clause stmt) (group_by stmt) (make_group_names stmt) plans stmt ∅ [])
  else None.

Definition set_groups (index : gmap string nat) (groups : list SlidingGroup) (w : SlidingIncrementalWindow)
    : SlidingIncrementalWindow :=
  mkSlidingIncremental (sw_where w) (sw_group_by w) (sw_group_names w) (sw_plans w) (sw_order_stmt w)
    index groups.

Definition new_sliding_group (group_by : list Expr) (plans : list Plan) (r : row) : SlidingGroup :=
  mkSlidingGroup ((fun g => group_value g r) <$> group_by)
    ((fun p => match p with PlanFirst _ e => group_value e r | PlanAgg _ _ _ => VNull end) <$> plans)
    ((fun p => sliding_new (match p with PlanAgg _ kind _ => kind | PlanFirst _ _ => Count end)) <$> plans).

Definition push_acc (ts : Z) (r : row) (p : Plan) (a : SlidingAcc) : SlidingAcc :=
  match p with
  | PlanAgg _ kind None => sliding_push kind ts None a
  | PlanAgg _ kind (Some e) => sliding_push kind ts (Some (group_value e r)) a
  | PlanFirst _ _ => a
  end.

Definition push_group (plans : list Plan) (ts : Z) (r : row) (g : SlidingGroup) : SlidingGroup :=
  mkSlidingGroup (sg_values g) (sg_firsts g) (zip_with (push_acc ts r) plans (sg_accs g)).

Definition sliding_incremental_push (ts : Z) (r : row) (w : SlidingIncrementalWindow)
    : bool * SlidingIncrementalWindow :=
  if match sw_where w with Some cond => negb (eval_bool cond r) | None => false end then (false, w)
  else
    let key := group_key (sw_group_by w) r in
    (true,
     match sw_index w !! key with
     | Some i => set_groups (sw_index w) (alter (push_group (sw_plans w) ts r) i (sw_groups w)) w
     | None =>
         set_groups (<[key := length (sw_groups w)]> (sw_index w))
           (sw_groups w ++ [push_group (sw_plans w) ts r (new_sliding_group (sw_group_by w) (sw_plans w) r)]) w
     end).

Definition sliding_incremental_evict (cutoff : Z) (w : SlidingIncrementalWindow) : SlidingIncrementalWindow :=
  set_groups (sw_index w)
    ((fun g => mkSlidingGroup (sg_values g) (sg_firsts g) (sliding_evict_before cutoff <$> sg_accs g))
     <$> sw_groups w) w.

(** An accumulator with something in its window. *)
Definition acc_active (a : SlidingAcc) : bool :=
  match a with
  | SCount n _ => 0 <? n
  | SSum _ _ _ valid_count _ => (0 <? valid_count)%nat
  | SAvg _ n _ => (0 <? n)%nat
  | SExtreme _ mono_deque => negb (bool_decide (length mono_deque = O))
  end.

Definition sliding_column (out : row) (c : Plan * value * SlidingAcc) : row :=
  match c with
  | (PlanFirst name _, first, _) => or_insert name first out
  | (PlanAgg name _ _, _, acc) => <[name := sliding_current acc]> out
  end.

Definition sliding_row (w : SlidingIncrementalWindow) (g : SlidingGroup) : row :=
  foldl sliding_column (group_columns (sw_group_names w) (sg_values g))
    (zip (zip (sw_plans w) (sg_firsts g)) (sg_accs g)).

Definition sliding_snapshot (w : SlidingIncrementalWindow) : list row :=
  let shown g := existsb acc_active (sg_accs g) || bool_decide (length (sg_accs g) = O) in
  apply_order_limit (sw_order_stmt w)
    (sliding_row w <$> filter (fun g => shown g = true) (sw_groups w)).
End sliding_incremental.

Definition sliding_incremental_is_empty (w : SlidingIncrementalWindow) : bool :=
  let unused a :=
    match a with
    | SCount n _ => n =? 0
    | SSum _ _ _ valid_count _ => (valid_count =? 0)%nat
    | SAvg _ n _ => (n =? 0)%nat
    | SExtreme _ mono_deque => bool_decide (length mono_deque = O)
    end in
  bool_decide (length (sw_groups w) = O) || forallb (fun g => forallb unused (sg_accs g)) (sw_groups w).

(** The row-free windows the runners of [Windows] and [SlidingWindow] are proved against. *)
#[export] Instance row_free_windows `{ExprEval} `{Text} `{Sketch} : Incremental := {|
  inc := IncrementalWindow;
  inc_try_new := incremental_try_new;
  inc_is_empty := incremental_is_empty;
  inc_push := incremental_push;
  inc_take := incremental_take;
  sinc := SlidingIncrementalWindow;
  sinc_try_new := sliding_try_new;
  sinc_evict_before := sliding_incremental_evict;
  sinc_push := sliding_incremental_push;
  sinc_snapshot := sliding_snapshot;
|}.

(** ** Facts: the partition *)

Lemma lookup_snoc_new {A} (l : list A) (x y : A) (i : nat) :
  x ∉ l -> (l ++ [x]) !! i = Some y <-> y = x /\ i = length l \/ y <> x /\ l !! i = Some y.
Proof.
  intros Hx. rewrite lookup_app_Some. split.
  - intros [Hi|[Hge Hi]].
    + right. split; [|done]. intros ->. by eapply Hx, list_elem_of_lookup_2.
    + apply list_lookup_singleton_Some in Hi as [Hi ->]. left. split; [done|lia].
  - intros [[-> ->]|[_ Hi]]; [right|by left]. split; [done|]. by rewrite Nat.sub_diag.
Qed.

Section partition_facts.
Context `{ExprEval} `{Text} (gb : list Expr).

(** The keys in first-seen order. *)
Definition first_seen (rows : list row) : list string := foldl push_new [] (group_key gb <$> rows).

Definition group_of_key (rows : list row) (k : string) : string * list row :=
  (k, filter (fun r => group_key gb r = k) rows).

Lemma first_seen_snoc rows r : first_seen (rows ++ [r]) = push_new (first_seen rows) (group_key gb r).
Proof. unfold first_seen. by rewrite fmap_app, foldl_app. Qed.

Lemma first_seen_NoDup rows : base.NoDup (first_seen rows).
Proof.
  induction rows as [|r rows IH] using rev_ind; [constructor|].
  rewrite first_seen_snoc. unfold push_new. case_bool_decide; [done|].
  apply list.NoDup_app. split_and!; [done| |apply NoDup_singleton].
  intros x Hx ->%list_elem_of_singleton. done.
Qed.

Lemma first_seen_elem rows k : k ∈ first_seen rows <-> exists r, r ∈ rows /\ group_key gb r = k.
Proof.
  induction rows as [|r rows IH] using rev_ind.
  { split; [by intros ?%elem_of_nil|by intros (r & ?%elem_of_nil & _)]. }
  rewrite first_seen_snoc.
  assert (Hpush : forall l x, k ∈ push_new l x <-> k ∈ l \/ x = k).
  { intros l x. unfold push_new. case_bool_decide.
    - split; [by left|by intros [| <-]].
    - rewrite list.elem_of_app, list_elem_of_singleton. split; (intros [?|?]; [by left|by right]). }
  rewrite Hpush, IH. split.
  - intros [(r' & Hr & Hk)|Hk]; [exists r'|exists r]; (split; [|done]); apply list.elem_of_app; [by left|].
    right. by apply list_elem_of_singleton.
  - intros (r' & [Hr| ->%list_elem_of_singleton]%list.elem_of_app & Hk); [left; eauto|by right].
Qed.

Lemma group_of_key_other rows r k : group_key gb r <> k -> group_of_key (rows ++ [r]) k = group_of_key rows k.
Proof. intros Hne. unfold group_of_key. rewrite list.filter_app, (filter_none _ [r]), app_nil_r by auto. done. Qed.

Lemma group_of_key_same rows r :
  group_of_key (rows ++ [r]) (group_key gb r) =
  (group_key gb r, (group_of_key rows (group_key gb r)).2 ++ [r]).
Proof. unfold group_of_key. simpl. rewrite list.filter_app, (filter_all _ [r]) by auto. done. Qed.

Lemma group_of_key_new rows k : k ∉ first_seen rows -> (group_of_key rows k).2 = [].
Proof.
  intros Hk. apply filter_none, list.Forall_forall. intros r Hr Hkr. apply Hk, first_seen_elem. eauto.
Qed.

(** What the loop keeps: the groups, and the position of every key. *)
Definition index_ok (index : gmap string nat) (keys : list string) : Prop :=
  forall k i, index !! k = Some i <-> keys !! i = Some k.

Lemma partition_step_old index rows r i :
  index_ok index (first_seen rows) -> index !! group_key gb r = Some i ->
  alter (fun g => (g.1, g.2 ++ [r])) i (group_of_key rows <$> first_seen rows) =
  group_of_key (rows ++ [r]) <$> first_seen (rows ++ [r]).
Proof.
  intros Hidx Hk%Hidx. rewrite first_seen_snoc. unfold push_new.
  rewrite bool_decide_true by (by eapply list_elem_of_lookup_2).
  apply list_eq. intros j. rewrite list_lookup_fmap. destruct (decide (j = i)) as [->|Hj].
  - rewrite list_lookup_alter, decide_True, list_lookup_fmap, Hk by done. simpl. by rewrite group_of_key_same.
  - rewrite list_lookup_alter_ne, list_lookup_fmap by done.
    destruct (first_seen rows !! j) as [k|] eqn:Hj'; [|done]. simpl. rewrite group_of_key_other; [done|].
    intros <-. apply Hj. by apply (NoDup_lookup _ _ _ _ (first_seen_NoDup rows) Hj').
Qed.

Lemma partition_step_new rows r :
  group_key gb r ∉ first_seen rows ->
  (group_of_key rows <$> first_seen rows) ++ [(group_key gb r, [r])] =
  group_of_key (rows ++ [r]) <$> first_seen (rows ++ [r]).
Proof.
  intros Hnew. rewrite first_seen_snoc. unfold push_new. rewrite bool_decide_false by done.
  rewrite fmap_app. f_equal.
  - apply list_fmap_ext. intros j k Hj. rewrite group_of_key_other; [done|]. intros <-.
    by eapply Hnew, list_elem_of_lookup_2.
  - simpl. by rewrite group_of_key_same, group_of_key_new.
Qed.

Lemma partition_inv rows :
  exists index, foldl (partition_step gb) (∅, []) rows = (index, group_of_key rows <$> first_seen rows) /\
    index_ok index (first_seen rows).
Proof.
  induction rows as [|r rows (index & Hrun & Hidx)] using rev_ind.
  { exists ∅. split; [done|]. intros k i. split; [by rewrite lookup_empty|by intros ?%lookup_lt_Some; simpl in *; lia]. }
  rewrite foldl_app, Hrun. cbn [foldl]. unfold partition_step.
  destruct (index !! group_key gb r) as [i|] eqn:Hk.
  - exists index. rewrite (partition_step_old index) by done. split; [done|].
    rewrite first_seen_snoc. unfold push_new.
    rewrite bool_decide_true by (by eapply list_elem_of_lookup_2, Hidx). done.
  - assert (Hnew : group_key gb r ∉ first_seen rows).
    { intros [i Hi]%list_elem_of_lookup. apply Hidx in Hi. congruence. }
    eexists. rewrite partition_step_new, length_fmap by done. split; [done|].
    rewrite first_seen_snoc. unfold push_new. rewrite bool_decide_false by done.
    intros k i. rewrite lookup_snoc_new, <- (Hidx k i) by done.
    rewrite lookup_insert_Some. split; intros [[? ?]|[? ?]]; by auto.
Qed.
End partition_facts.

(** ** Facts: the group key *)

Lemma append_cons (c : ascii) (a b : string) : String c a +:+ b = String c (a +:+ b).
Proof. done. Qed.

Lemma append_nil_l (a : string) : "" +:+ a = a.
Proof. done. Qed.

Lemma append_assoc (a b c : string) : (a +:+ b) +:+ c = a +:+ (b +:+ c).
Proof. induction a as [|x a IH]; [done|]. by rewrite !append_cons, IH. Qed.

Lemma append_sep_inj (c : ascii) (a1 a2 b1 b2 : string) :
  c ∉ chars a1 -> c ∉ chars a2 -> a1 +:+ String c b1 = a2 +:+ String c b2 -> a1 = a2 /\ b1 = b2.
Proof.
  revert a2. induction a1 as [|x a1 IH]; intros [|y a2] H1 H2 Heq; rewrite ?append_cons, ?append_nil_l in Heq.
  - by injection Heq.
  - injection Heq as -> _. destruct H2. by left.
  - injection Heq as -> _. destruct H1. by left.
  - injection Heq as -> Heq. destruct (IH a2) as [-> ->]; [| |done|done]; intros Hc.
    + apply H1. by right.
    + apply H2. by right.
Qed.

Lemma append_length_inj (a1 a2 b1 b2 : string) :
  String.length a1 = String.length a2 -> a1 +:+ b1 = a2 +:+ b2 -> a1 = a2 /\ b1 = b2.
Proof.
  revert a2. induction a1 as [|x a1 IH]; intros [|y a2] Hl Heq; simpl in Hl; try done.
  rewrite !append_cons in Heq. injection Hl as Hl. injection Heq as -> Heq. by destruct (IH a2 Hl Heq) as [-> ->].
Qed.

(** A decimal numeral has no colon. *)
Lemma pretty_N_no_colon (n : N) : ":"%char ∉ chars (pretty n).
Proof.
  assert (Hgo : forall x s, ":"%char ∉ chars s -> ":"%char ∉ chars (pretty_N_go x s)).
  { intros x. induction (N.lt_wf_0 x) as [x _ IH]. intros s Hs.
    destruct (decide (x = 0)%N) as [->|Hne]; [by rewrite pretty_N_go_0|].
    rewrite pretty_N_go_step by lia. apply IH; [apply N.div_lt; lia|].
    unfold chars. simpl. intros [Hc|Hc]%list.elem_of_cons; [|done].
    revert Hc. unfold pretty_N_char. by repeat case_match. }
  unfold pretty, pretty_N. case_decide; [by apply (bool_decide_unpack _)|]. apply Hgo. by apply not_elem_of_nil.
Qed.

Section key_facts.
Context `{ExprEval} `{Text}.

Definition key_part (v : value) : string := write_group_key "" v.

Lemma write_group_key_part key v : write_group_key key v = key +:+ key_part v.
Proof. destruct v; unfold key_part, write_group_key; by rewrite !append_assoc. Qed.

Definition key_of (vs : list value) : string := foldr (fun v s => key_part v +:+ s) "" vs.

Lemma group_key_values es r : group_key es r = key_of ((fun e => group_value e r) <$> es).
Proof.
  unfold group_key. assert (Hgen : forall k, foldl (fun key e => write_group_key key (group_value e r)) k es
    = k +:+ key_of ((fun e => group_value e r) <$> es)); [|apply Hgen].
  induction es as [|e es IH]; intros k; simpl.
  - induction k as [|c k IH]; [done|]. by rewrite append_cons, <- IH.
  - by rewrite IH, write_group_key_part, append_assoc.
Qed.

(** The text of [v] holds no separator, and no other value of [others] has it. *)
Definition rendered_apart (others : list value) (v : value) : Prop :=
  is_string v = true \/
  (unit_separator ∉ chars (value_to_string v)) /\
  Forall (fun w => is_string w = false -> value_to_string v = value_to_string w -> v = w) others.

Lemma key_part_inj vs v w k1 k2 :
  rendered_apart (w :: vs) v -> rendered_apart [] w ->
  key_part v +:+ k1 = key_part w +:+ k2 -> v = w /\ k1 = k2.
Proof.
  intros Hv Hw. unfold key_part, write_group_key.
  destruct (is_string v) eqn:Ev, (is_string w) eqn:Ew.
  - destruct v as [| | |s| |], w as [| | |t| |]; try done. rewrite !append_assoc, !append_nil_l, !append_cons, !append_nil_l. intros Heq.
    injection Heq as Heq.
    apply append_sep_inj in Heq as [Hn Heq]; [|apply pretty_N_no_colon..].
    apply (inj pretty) in Hn. apply append_length_inj in Heq as [-> Heq]; [|lia]. by injection Heq as ->.
  - destruct v as [| | |s| |], w; try done; by rewrite !append_assoc.
  - destruct w as [| | |s| |], v; try done; by rewrite !append_assoc.
  - destruct Hv as [Hv|[Hv1 Hv2]]; [congruence|]. destruct Hw as [Hw|[Hw _]]; [congruence|].
    assert (Hform : forall x k, is_string x = false ->
      match x with VString s => "" +:+ "s" +:+ pretty (N.of_nat (String.length s)) +:+ ":" +:+ s
                 | _ => "" +:+ "v" +:+ value_to_string x end +:+ String unit_separator "" +:+ k
      = String "v" (value_to_string x +:+ String unit_separator k)).
    { intros x k Hx. destruct x; try done; by rewrite ?append_assoc. }
    intros Heq. rewrite !append_assoc, !Hform in Heq by done. injection Heq as Heq.
    apply append_sep_inj in Heq as [Ht ->]; [|done..]. split; [|done].
    apply Forall_inv in Hv2. auto.
Qed.

Lemma rendered_apart_weaken vs ws v : ws ⊆ vs -> rendered_apart vs v -> rendered_apart ws v.
Proof.
  intros Hsub [Hv|[Hs Hv]]; [by left|right]. split; [done|]. rewrite list.Forall_forall in Hv |- *. auto.
Qed.

Lemma key_of_inj vs ws :
  length vs = length ws -> Forall (rendered_apart ws) vs -> Forall (rendered_apart []) ws ->
  key_of vs = key_of ws -> vs = ws.
Proof.
  revert ws. induction vs as [|v vs IH]; intros [|w ws] Hl Hvs Hws Heq; try done.
  apply list.Forall_cons in Hvs as [Hv Hvs]. apply list.Forall_cons in Hws as [Hw Hws].
  apply (key_part_inj ws) in Heq as [-> Heq]; [|done..]. f_equal. apply IH; [by injection Hl| |done|done].
  eapply list.Forall_impl; [exact Hvs|]. intros x. apply rendered_apart_weaken. by apply list_subseteq_cons.
Qed.
End key_facts.

(** A group key stands for its group values: as long as the values at hand that are
    not strings have distinct texts without the separator (as JSON texts do), two rows
    have the same encoded key exactly when all their group values are equal; strings may
    hold anything, separators and digits included. *)
Theorem group_key_unambiguous `{ExprEval} `{Text} (es : list Expr) (r1 r2 : row) :
  let vs r := (fun e => group_value e r) <$> es in
  Forall (rendered_apart (vs r2)) (vs r1) -> Forall (rendered_apart []) (vs r2) ->
  group_key es r1 = group_key es r2 <-> vs r1 = vs r2.
Proof.
  intros vs H1 H2. rewrite !group_key_values. split; [|by unfold vs; intros ->].
  apply key_of_inj; [by unfold vs; rewrite !length_fmap|done|done].
Qed.

(** C29. [GROUP BY] partitions the rows by key, the encoding of their group values: there is
    one group per key, in the order the keys are first seen, each with exactly the rows of
    that key in arrival order; no other group and no row twice. *)
Theorem group_partition_exact `{ExprEval} `{Text} (gb : list Expr) (rows : list row) :
  partition_keyed_groups gb rows = group_of_key gb rows <$> first_seen gb rows /\
  base.NoDup (first_seen gb rows) /\
  (forall k, k ∈ first_seen gb rows <-> exists r, r ∈ rows /\ group_key gb r = k).
Proof.
  destruct (partition_inv gb rows) as (index & Hrun & _). unfold partition_keyed_groups. rewrite Hrun.
  split; [done|]. split; [apply first_seen_NoDup|apply first_seen_elem].
Qed.

(** ** Samples *)

Module Sample.
Import Windows.Sample.

#[export] Instance no_sketch : Sketch := {|
  sketch := unit; sketch_new := tt; sketch_insert _ s := s; sketch_quantile _ _ := None;
|}.

#[export] Instance sample_clock : WallClock := 0.
#[export] Instance no_group_exprs : GroupExprs := {|
  eval_agg_expr _ _ _ _ st := (VNull, st); eval_select _ r st := (Some r, st);
|}.

(** Scalars as JSON text. *)
#[export] Instance scalar_text : Text := {|
  value_to_string v :=
    match v with
    | VNull => "null"
    | VBool b => if b then "true" else "false"
    | VNumber n => default "float" (pretty <$> number_as_i64 n)
    | VString s => s
    | _ => "..."
    end;
  map_to_json _ := "{}";
  parse_rfc3339 _ := None;
|}.

Definition grouped (fields : list Expr) (aliases : list (option string)) (gb : list Expr) : SelectStmt :=
  mkSelect fields aliases "s" None [] None gb None None None None None [] None None.

Definition dev_row (dev : string) (x : Z) : row := {["dev" := VString dev; "x" := value_of_i64 x]}.

(** [SELECT dev, count( * ), max(x) FROM s GROUP BY dev] *)
Definition by_device : SelectStmt :=
  grouped [Identifier "dev"; Call "count" [Wildcard]; Call "max" [Identifier "x"]] [] [Identifier "dev"].

Definition device_rows : list row := [dev_row "a" 1; dev_row "b" 5; dev_row "a" 3].

(** [SELECT a AS b, count( * ) FROM s GROUP BY b] *)
Definition aliased : SelectStmt :=
  grouped [Identifier "a"; Call "count" [Wildcard]] [Some "b"; None] [Identifier "b"].

Definition batch_rows (stmt : SelectStmt) (rows : list row) : list row := (eval_window_rows stmt rows ∅).1.
End Sample.

Import Windows.Sample Sample.

Lemma group_key_unambiguous_witness :
  let es := [Identifier "dev"; Identifier "x"] in
  group_key es (dev_row "a" 1) = group_key es (dev_row "a" 2) <->
  [VString "a"; value_of_i64 1] = [VString "a"; value_of_i64 2].
Proof.
  apply (group_key_unambiguous [Identifier "dev"; Identifier "x"] (dev_row "a" 1) (dev_row "a" 2)).
  - constructor; [by left|]. constructor; [|constructor]. right. split; [by apply (bool_decide_unpack _)|].
    constructor; [done|]. constructor; [|constructor]. by intros _ ?.
  - constructor; [by left|]. constructor; [|constructor]. right. split; [by apply (bool_decide_unpack _)|constructor].
Defined.
