(* ===== verification/IncrementalFacts.v ===== *)
(** * Incremental windows compute the batch result
      ([IncrementalWindow], [SlidingIncrementalWindow] of [eval/window.rs])

    The groups of an incremental window are the groups of the batch partition, each
    summarised by its first row and its accumulators; under the conditions in which
    the accumulators mirror the batch aggregates, and when the [GROUP BY] columns are
    projected under their own names, the rows it outputs are those of the batch
    evaluation. *)

From S2P Require Import Prelude Rust Json Ast Engine Columns Values Aggregates BatchAggregates SlidingAcc Windows GroupedWindow.

Set Default Goal Selector "!".

(** ** Groups are summaries of the batch partition *)

Section summary.
Context `{ExprEval} `{Text} `{Sketch} (gb : list Expr) (plans : list Plan).

Definition plan_first (r : row) (p : Plan) : value :=
  match p with PlanFirst _ e => group_value e r | PlanAgg _ _ _ => VNull end.

(** The accumulator of a plan after the rows of its group. *)
Definition plan_acc (records : list row) (p : Plan) : Acc :=
  foldl (fun a r => update_acc r p a)
    (match p with PlanAgg _ kind _ => acc_new kind | PlanFirst _ _ => AccCount 0 end) records.

Definition summary (g : string * list row) : Group :=
  let r0 := default ∅ (list.head g.2) in
  mkGroup ((fun e => group_value e r0) <$> gb) (plan_first r0 <$> plans) (plan_acc g.2 <$> plans).

Lemma zip_with_fmap_r {A B C} (f : A -> B -> C) (g : A -> B) (l : list A) :
  zip_with f l (g <$> l) = (fun x => f x (g x)) <$> l.
Proof. induction l as [|x l IH]; [done|]. simpl. f_equal. apply IH. Qed.

Lemma summary_push k rs r :
  rs <> [] -> update_group plans r (summary (k, rs)) = summary (k, rs ++ [r]).
Proof.
  intros Hne. unfold update_group, summary. simpl. rewrite zip_with_fmap_r.
  assert (list.head (rs ++ [r]) = list.head rs) as -> by (by destruct rs).
  f_equal. apply list_fmap_ext. intros i p _. unfold plan_acc. by rewrite foldl_app.
Qed.

Lemma summary_new k r : update_group plans r (new_group gb plans r) = summary (k, [r]).
Proof. unfold update_group, summary, new_group. simpl. by rewrite zip_with_fmap_r. Qed.

Lemma summary_alter i r (groups : list (string * list row)) :
  Forall (fun g => g.2 <> []) groups ->
  alter (update_group plans r) i (summary <$> groups) =
  summary <$> alter (fun g => (g.1, g.2 ++ [r])) i groups.
Proof.
  intros Hne. apply list_eq. intros j. rewrite list_lookup_fmap, !list_lookup_alter, !list_lookup_fmap.
  destruct (decide (i = j)) as [->|]; [|done].
  destruct (groups !! j) as [[k rs]|] eqn:Hj; [|done]. simpl. f_equal. apply summary_push.
  rewrite list.Forall_lookup in Hne. exact (Hne _ _ Hj).
Qed.

Lemma partition_nonempty rows : Forall (fun g => g.2 <> []) (partition_keyed_groups gb rows).
Proof.
  destruct (partition_inv gb rows) as (index & Hrun & _). unfold partition_keyed_groups. rewrite Hrun.
  apply list.Forall_forall. intros g (k & -> & (r & Hr & Hk)%first_seen_elem)%list_elem_of_fmap. simpl.
  intros Hnil. apply (not_elem_of_nil r). rewrite <- Hnil. by apply list_elem_of_filter.
Qed.
End summary.

(** The window after the rows of one interval. *)
Definition push_rows `{ExprEval} `{Text} `{Sketch} (rows : list row) (w : IncrementalWindow) : IncrementalWindow :=
  foldl (fun w r => (incremental_push r w).2) w rows.

Section pushes.
Context `{ExprEval} `{Text} `{Sketch} (stmt : SelectStmt) (w : IncrementalWindow).
Context (Hnew : incremental_try_new stmt = Some w).

Abbreviation passing := (filter (fun r => passes_where stmt r = true)).

Lemma try_new_fields :
  make_plans stmt = Some (iw_plans w) /\ w = mkIncremental (where_clause stmt) (group_by stmt)
    (make_group_names stmt) (iw_plans w) stmt ∅ [].
Proof. unfold incremental_try_new in Hnew. by destruct (make_plans stmt); simplify_eq/=. Qed.

(** Pushing the rows one by one is folding the passing rows into the partition. *)
Lemma push_rows_partition rows :
  push_rows rows w =
  mkIncremental (where_clause stmt) (group_by stmt) (make_group_names stmt) (iw_plans w) stmt
    (foldl (partition_step (group_by stmt)) (∅, []) (passing rows)).1
    (summary (group_by stmt) (iw_plans w) <$> partition_keyed_groups (group_by stmt) (passing rows)).
Proof.
  destruct try_new_fields as [_ Hw].
  induction rows as [|r rows IH] using rev_ind; [by rewrite Hw at 1|].
  unfold push_rows in *. rewrite foldl_app, IH, list.filter_app. simpl. unfold incremental_push. simpl.
  assert (Hp : passes_where stmt r = negb (match where_clause stmt with
    Some cond => negb (eval_bool cond r) | None => false end)).
  { unfold passes_where. destruct (where_clause stmt); [by rewrite negb_involutive|done]. }
  destruct (match where_clause stmt with Some cond => negb (eval_bool cond r) | None => false end).
  - rewrite (filter_none _ [r]) by (constructor; [by rewrite Hp|constructor]). by rewrite app_nil_r.
  - rewrite (filter_all _ [r]) by (constructor; [by rewrite Hp|constructor]). simpl.
    pose proof (partition_nonempty (group_by stmt) (passing rows)) as Hne.
    unfold partition_keyed_groups in *. rewrite foldl_app. simpl.
    destruct (foldl _ _ (passing rows)) as [index groups]. simpl in *.
    destruct (index !! group_key (group_by stmt) r) as [i|]; simpl.
    + by rewrite summary_alter.
    + rewrite fmap_app, length_fmap. simpl. by rewrite (summary_new _ _ (group_key (group_by stmt) r)).
Qed.
End pushes.

(** ** The rows of a group *)

Section rows.
Context `{ExprEval} `{Text} `{Sketch} `{WallClock} `{GroupExprs}.

(** The column of a plan, computed from the rows of the group. *)
Definition plan_col (records : list row) (out : row) (p : Plan) : row :=
  match p with
  | PlanFirst name _ => or_insert name (plan_first (default ∅ (list.head records)) p) out
  | PlanAgg name _ _ => <[name := acc_finish (plan_acc records p)]> out
  end.

Lemma zip3_fmap {A B C} (f : A -> B) (g : A -> C) (l : list A) :
  zip (zip l (f <$> l)) (g <$> l) = (fun x => (x, f x, g x)) <$> l.
Proof. induction l as [|x l IH]; [done|]. simpl. f_equal. apply IH. Qed.

Lemma foldl_fmap {A B C} (f : C -> B -> C) (g : A -> B) (l : list A) (c : C) :
  foldl f c (g <$> l) = foldl (fun c x => f c (g x)) c l.
Proof. revert c. induction l as [|x l IH]; intros c; [done|]. simpl. apply IH. Qed.

Lemma group_row_summary (w : IncrementalWindow) gb k rs :
  group_row w (summary gb (iw_plans w) (k, rs)) =
  foldl (plan_col rs)
    (group_columns (iw_group_names w) ((fun e => group_value e (default ∅ (list.head rs))) <$> gb)) (iw_plans w).
Proof.
  unfold group_row, summary. simpl. rewrite zip3_fmap, foldl_fmap. f_equal.
Qed.

(** What makes a plan compute the column the batch evaluation computes. *)
Definition plan_ok (records : list row) (p : Plan) : Prop :=
  match p with
  | PlanFirst _ (FieldAccess _ leaf) => leaf <> "*"
  | PlanFirst _ _ | PlanAgg _ _ None => True
  | PlanAgg _ kind (Some arg) => mirrors kind arg records
  end.

Lemma simple_kind_call name kind arg records st :
  snd <$> List.find (fun p => bool_decide (p.1 = to_ascii_lowercase name)) simple_kinds = Some kind ->
  exact_kind kind ->
  kind <> CountAll /\ is_aggregate_call name = true /\
  eval_aggregate_call name [arg] records st = (agg_batch kind arg records, st).
Proof.
  intros Hf Hex. destruct (List.find _ _) as [[n k]|] eqn:E; [|done]. injection Hf as ->.
  apply List.find_some in E as [Hin Hn%bool_decide_eq_true]. simpl in Hn.
  unfold is_aggregate_call, eval_aggregate_call. rewrite <- Hn. clear Hn.
  simpl in Hin. destruct_or! Hin; simplify_eq; try done; (split_and!; [discriminate|by vm_compute|]).
  all: repeat first [rewrite bool_decide_true by done | rewrite bool_decide_false by done]; done.
Qed.

(** With an exact kind, the call has one argument and a simple name. *)
Lemma agg_kind_simple lower a args kind :
  is_wildcard a = false -> agg_kind lower (a :: args) = Some kind -> exact_kind kind ->
  args = [] /\ snd <$> List.find (fun p => bool_decide (p.1 = lower)) simple_kinds = Some kind.
Proof.
  intros Hw Hk Hex. destruct args as [|b [|c args]]; [by destruct a| |]; exfalso.
  2: { destruct a; try done; by destruct b as [| | |[]| | | | | | | | | | |]. }
  destruct a; try done; destruct b as [| | |[]| | | | | | | | | | |]; simpl in Hk; try done.
  all: case_match; simplify_eq; done.
Qed.

Lemma plan_acc_over name kind arg records :
  kind <> CountAll -> plan_acc records (PlanAgg name kind (Some arg)) = acc_over kind arg records.
Proof.
  intros Hk. unfold plan_acc, acc_over. generalize (acc_new kind). induction records as [|r rs IH]; intros a; [done|].
  simpl. rewrite decide_False by done. apply IH.
Qed.

Lemma plan_acc_count_all name records :
  plan_acc records (PlanAgg name CountAll None) = AccCount (Z.of_nat (length records)).
Proof. apply (count_all_fold records 0). Qed.

Lemma aggregate_field_plan records k name field p out st :
  records <> [] -> field_plan (name, field) = Some p -> plan_ok records p ->
  aggregate_field records k (name, field) (out, st) = (plan_col records out p, st).
Proof.
  intros Hne Hp Hok. destruct records as [|r0 rs]; [done|]. clear Hne. simpl in Hp.
  destruct field as [| |n| | | | | | |parent leaf| | |fname args| |]; try done.
  - by injection Hp as <-.
  - destruct (contains_aggregate parent); [done|]. injection Hp as <-. simpl in Hok |- *.
    by rewrite bool_decide_false by done.
  - destruct args as [|a args]; [done|]. destruct (contains_aggregate a); [done|].
    apply bind_Some in Hp as (kind & Hkind & [= <-]). simpl in Hok.
    destruct (is_wildcard a) eqn:Hw.
    + destruct a; try done. destruct args as [|b args]; [|by destruct args, b as [| | |[]| | | | | | | | | | |]].
      simpl in Hkind. case_bool_decide as Hl; [|done]. injection Hkind as <-.
      cbn [plan_col]. rewrite plan_acc_count_all. simpl. unfold is_aggregate_call, eval_aggregate_call.
      by rewrite Hl, !bool_decide_true by set_solver.
    + destruct (agg_kind_simple _ _ _ _ Hw Hkind) as [-> Hf]; [by destruct Hok|].
      destruct (simple_kind_call fname kind a (r0 :: rs) st Hf) as (Hk & Hagg & Hcall); [by destruct Hok|].
      simpl. rewrite Hagg, Hcall. unfold plan_col. rewrite plan_acc_over, acc_over_batch by done. done.
Qed.
End rows.

(** ** The batch evaluation of a planned statement *)

Section batch.
Context `{ExprEval} `{Text} `{Sketch} `{WallClock} `{GroupExprs}.

Lemma make_plans_spec stmt plans :
  make_plans stmt = Some plans ->
  set_op stmt = None /\ having stmt = None /\ is_grouped_window stmt = true /\
  Forall2 (fun f p => field_plan f = Some p) (named_fields stmt) plans.
Proof.
  unfold make_plans. intros Hp. destruct (set_op stmt); [done|]. destruct (having stmt); [by rewrite orb_true_r in Hp|].
  destruct (is_grouped_window stmt); [|by rewrite !orb_true_r in Hp].
  case_match; [done|]. split_and!; [done..|]. by apply mapM_Some_1.
Qed.

Lemma aggregate_fold records k st fs plans out :
  records <> [] -> Forall2 (fun f p => field_plan f = Some p) fs plans -> Forall (plan_ok records) plans ->
  foldl (fun s f => aggregate_field records k f s) (out, st) fs = (foldl (plan_col records) out plans, st).
Proof.
  intros Hne Hfs. revert out. induction Hfs as [|[n e] p fs plans Hp _ IH]; intros out Hok; [done|].
  apply list.Forall_cons in Hok as [Hok1 Hok]. cbn [foldl].
  rewrite (aggregate_field_plan _ _ _ _ p) by done. by apply IH.
Qed.

Lemma eval_aggregate_plans stmt plans records k st :
  make_plans stmt = Some plans -> records <> [] -> Forall (plan_ok records) plans ->
  eval_aggregate stmt records k st = (Some (foldl (plan_col records) ∅ plans), st).
Proof.
  intros (Hset & Hhav & _ & Hfs)%make_plans_spec Hne Hok.
  assert (eval_aggregate stmt records k st = eval_aggregate_single stmt records k st) as ->.
  { destruct stmt. simpl in *. by subst. }
  unfold eval_aggregate_single. rewrite (aggregate_fold _ _ _ _ plans) by done. by rewrite Hhav.
Qed.

Lemma omap_state_all {A B} (f : A -> rule_state -> option B * rule_state) (h : A -> B) l st :
  Forall (fun x => f x st = (Some (h x), st)) l -> omap_state f l st = (h <$> l, st).
Proof. induction 1 as [|x l Hx _ IH]; [done|]. simpl. by rewrite Hx, IH. Qed.

(** Without [GROUP BY] there is one group. *)
Lemma partition_no_group rows : rows <> [] -> partition_keyed_groups [] rows = [("", rows)].
Proof.
  unfold partition_keyed_groups. intros Hne.
  assert (Hrun : foldl (partition_step []) (∅, []) rows = ({["" := 0%nat]}, [("", rows)])); [|by rewrite Hrun].
  induction rows as [|r rows IH] using rev_ind; [done|]. rewrite foldl_app.
  destruct rows as [|r' rows]; [done|]. by rewrite IH.
Qed.

(** The batch evaluation gives one row per group of the partition. *)
Lemma eval_window_filtered_plans stmt plans rows st :
  make_plans stmt = Some plans ->
  Forall (fun g => Forall (plan_ok g.2) plans) (partition_keyed_groups (group_by stmt) rows) ->
  eval_window_filtered stmt rows st =
  (apply_order_limit stmt
     ((fun g => foldl (plan_col g.2) ∅ plans) <$> partition_keyed_groups (group_by stmt) rows), st).
Proof.
  intros Hp Hok. pose proof (make_plans_spec _ _ Hp) as (_ & _ & Hgr & _).
  pose proof (partition_nonempty (group_by stmt) rows) as Hne.
  destruct rows as [|r rows].
  { unfold apply_order_limit. simpl. rewrite orb_true_r. by destruct (limit stmt) as [[]|]. }
  unfold eval_window_filtered. rewrite Hgr. simpl. set (all := r :: rows) in *.
  destruct (group_by stmt) as [|g gb].
  - rewrite partition_no_group in * by done. apply Forall_inv in Hok.
    rewrite (eval_aggregate_plans stmt plans); [done|done|by subst all|exact Hok].
  - rewrite (omap_state_all _ (fun g => foldl (plan_col g.2) ∅ plans)); [done|].
    rewrite list.Forall_forall in Hok, Hne |- *. intros x Hx. apply eval_aggregate_plans; auto.
Qed.
End batch.

(** ** Group columns that are projected anyway *)

(** Every [GROUP BY] expression is a field of the projection under its column name, and
    no other expression is projected under that name. *)
Definition groups_projected (stmt : SelectStmt) (plans : list Plan) : Prop :=
  Forall (fun '(n, g) => PlanFirst n g ∈ plans /\
            Forall (fun p => match p with PlanFirst n' e => n' = n -> e = g | PlanAgg _ _ _ => True end) plans)
    (zip (make_group_names stmt) (group_by stmt)).

Section columns.
Context `{ExprEval} `{Text} `{Sketch} (records : list row).

Abbreviation r0 := (default ∅ (list.head records)).

Lemma or_insert_lookup k v (m : row) j :
  or_insert k v m !! j = (if decide (k = j) then Some (default v (m !! j)) else m !! j).
Proof.
  unfold or_insert. destruct (decide (k = j)) as [->|Hne]; destruct (m !! _) eqn:E; rewrite ?E; try done.
  - by rewrite lookup_insert_eq.
  - by rewrite lookup_insert_ne.
Qed.

Lemma plan_col_lookup out p k :
  plan_col records out p !! k =
  match p with
  | PlanFirst n e => if decide (n = k) then Some (default (group_value e r0) (out !! k)) else out !! k
  | PlanAgg n _ _ => if decide (n = k) then Some (acc_finish (plan_acc records p)) else out !! k
  end.
Proof.
  destruct p as [n e|n kind arg]; simpl; [apply or_insert_lookup|].
  destruct (decide (n = k)) as [->|Hne]; [by rewrite lookup_insert_eq|by rewrite lookup_insert_ne].
Qed.

Lemma plan_cols_keep out plans k : is_Some (out !! k) -> is_Some (foldl (plan_col records) out plans !! k).
Proof.
  revert out. induction plans as [|p plans IH]; intros out Hk; [done|]. apply IH.
  rewrite plan_col_lookup. repeat case_match; eauto.
Qed.

Lemma plan_cols_first out plans k e :
  PlanFirst k e ∈ plans -> is_Some (foldl (plan_col records) out plans !! k).
Proof.
  revert out. induction plans as [|p plans IH]; intros out Hin; [by apply elem_of_nil in Hin|].
  apply list.elem_of_cons in Hin as [<-|Hin]; simpl; [|by apply IH].
  apply plan_cols_keep. rewrite or_insert_lookup, decide_True by done. eauto.
Qed.

(** Starting from columns that the projection repeats changes nothing. *)
Lemma plan_cols_base (base : row) plans :
  (forall k v, base !! k = Some v ->
     (exists e, PlanFirst k e ∈ plans) /\ (forall e, PlanFirst k e ∈ plans -> group_value e r0 = v)) ->
  foldl (plan_col records) base plans = foldl (plan_col records) ∅ plans.
Proof.
  intros Hbase. set (rel := fun m1 m2 : row => forall k, m1 !! k = m2 !! k \/ m2 !! k = None /\ m1 !! k = base !! k).
  assert (Hrel : forall ps m1 m2, ps ⊆ plans -> rel m1 m2 ->
    rel (foldl (plan_col records) m1 ps) (foldl (plan_col records) m2 ps)).
  { induction ps as [|p ps IH]; intros m1 m2 Hsub Hr; [done|]. apply IH; [by intros x Hx; apply Hsub; right|]. intros k.
    rewrite !plan_col_lookup. destruct p as [n e|n kind arg]; destruct (decide (n = k)) as [->|]; auto.
    destruct (Hr k) as [->|[Hn Hb]]; [by left|]. rewrite Hn, Hb. left. f_equal. simpl.
    destruct (base !! k) as [v|] eqn:Hv; [|done]. simpl. symmetry. apply (Hbase k v Hv). apply Hsub. by left. }
  apply map_eq. intros k. destruct (Hrel plans base ∅) with k as [Heq|[Hn Hb]]; [done| |done|].
  { intros j. right. by rewrite lookup_empty. }
  destruct (base !! k) as [v|] eqn:Hv; [|by rewrite Hn, Hb].
  destruct (Hbase k v Hv) as [[e He] _]. destruct (plan_cols_first ∅ plans k e He). congruence.
Qed.

Lemma group_columns_lookup names vs k v : group_columns names vs !! k = Some v -> (k, v) ∈ zip names vs.
Proof.
  unfold group_columns. generalize (zip names vs). intros l.
  induction l as [|[n x] l IH] using rev_ind; [by simpl; rewrite lookup_empty|].
  rewrite foldl_app. simpl. rewrite list.elem_of_app, list_elem_of_singleton.
  intros [[-> ->]|[_ Hk]]%lookup_insert_Some; auto.
Qed.

Lemma group_columns_projected stmt plans :
  groups_projected stmt plans ->
  foldl (plan_col records) (group_columns (make_group_names stmt) ((fun e => group_value e r0) <$> group_by stmt)) plans
  = foldl (plan_col records) ∅ plans.
Proof.
  intros Hproj. apply plan_cols_base. intros k v Hk%group_columns_lookup.
  apply list_elem_of_lookup in Hk as [i Hk]. rewrite lookup_zip_with, list_lookup_fmap in Hk.
  unfold groups_projected in Hproj. rewrite list.Forall_lookup in Hproj.
  destruct (make_group_names stmt !! i) as [n|] eqn:Hn; [|done].
  destruct (group_by stmt !! i) as [g|] eqn:Hg; [|done]. simpl in Hk. injection Hk as -> <-.
  destruct (Hproj i (k, g)) as [Hin Hall]; [by rewrite lookup_zip_with, Hn, Hg|].
  split; [by exists g|]. intros e He. rewrite list.Forall_forall in Hall. by rewrite (Hall _ He eq_refl).
Qed.
End columns.

(** C26. An incremental window outputs what the batch evaluation outputs.  For every
    statement that gets an incremental plan and projects its [GROUP BY] columns under
    their own names, pushing the rows of a window one by one and closing it gives
    exactly the rows [eval_window] computes from the buffered rows, in the same order:
    the same groups, first values and aggregates, the same [ORDER BY] and [LIMIT];
    provided every aggregate mirrors its batch function on every group and no field is
    [p.*].  The batch evaluation leaves the rule state as it was. *)
Theorem incremental_window_matches_batch `{ExprEval} `{Text} `{Sketch} `{WallClock} `{GroupExprs} (stmt : SelectStmt)
    (w : IncrementalWindow) (rows : list row) (st : rule_state) :
  incremental_try_new stmt = Some w ->
  groups_projected stmt (iw_plans w) ->
  Forall (fun g => Forall (plan_ok g.2) (iw_plans w))
    (partition_keyed_groups (group_by stmt) (filter (fun r => passes_where stmt r = true) rows)) ->
  eval_window_rows stmt rows st = ((incremental_take (push_rows rows w)).1, st).
Proof.
  intros Hnew Hproj Hok. destruct (try_new_fields stmt w Hnew) as [Hplans _].
  unfold eval_window_rows. rewrite (eval_window_filtered_plans stmt (iw_plans w)) by done.
  rewrite (push_rows_partition stmt w Hnew). unfold incremental_take. cbn [fst iw_order_stmt iw_groups].
  f_equal. f_equal. rewrite <- list_fmap_compose. apply list_fmap_ext. intros i [k rs] _. simpl.
  etrans; [|symmetry; apply (group_row_summary (mkIncremental _ _ _ (iw_plans w) _ _ _))].
  by rewrite (group_columns_projected rs stmt).
Qed.

(** ** Sliding windows without aggregates *)

Inductive SlidingWindowOp :=
  | SWPush (ts : Z) (r : row)
  | SWEvict (cutoff : Z).

Section sliding_facts.
Context `{ExprEval} `{Text}.

Definition sliding_op (w : SlidingIncrementalWindow) (op : SlidingWindowOp) : SlidingIncrementalWindow :=
  match op with
  | SWPush ts r => (sliding_incremental_push ts r w).2
  | SWEvict cutoff => sliding_incremental_evict cutoff w
  end.

Definition is_first (p : Plan) : bool := match p with PlanFirst _ _ => true | PlanAgg _ _ _ => false end.

(** Nothing was ever pushed into the accumulators of the group. *)
Definition idle_group (plans : list Plan) (g : SlidingGroup) : Prop :=
  sg_accs g = (fun _ => SCount 0 []) <$> plans.

Lemma idle_push ts r plans g : Forall (fun p => is_first p = true) plans ->
  idle_group plans g -> idle_group plans (push_group plans ts r g).
Proof.
  unfold idle_group. intros Hp Hg. simpl. rewrite Hg, zip_with_fmap_r. apply list_fmap_ext. intros i p Hi.
  rewrite list.Forall_lookup in Hp. by specialize (Hp i p Hi); destruct p.
Qed.

Lemma idle_new r gb plans : Forall (fun p => is_first p = true) plans -> idle_group plans (new_sliding_group gb plans r).
Proof.
  intros Hp. unfold idle_group. simpl. apply list_fmap_ext. intros i p Hi.
  rewrite list.Forall_lookup in Hp. by specialize (Hp i p Hi); destruct p.
Qed.

Lemma idle_evict cutoff plans g :
  idle_group plans g ->
  idle_group plans (mkSlidingGroup (sg_values g) (sg_firsts g) (sliding_evict_before cutoff <$> sg_accs g)).
Proof. unfold idle_group. intros Hg. simpl. by rewrite Hg, <- list_fmap_compose. Qed.

Lemma idle_inactive (plans : list Plan) : existsb acc_active ((fun _ => SCount 0 []) <$> plans) = false.
Proof. by induction plans. Qed.

Lemma idle_op w op :
  Forall (fun p => is_first p = true) (sw_plans w) -> Forall (idle_group (sw_plans w)) (sw_groups w) ->
  sw_plans (sliding_op w op) = sw_plans w /\ Forall (idle_group (sw_plans w)) (sw_groups (sliding_op w op)).
Proof.
  intros Hp Hg. destruct op as [ts r|cutoff]; simpl.
  - unfold sliding_incremental_push.
    destruct (match sw_where w with Some cond => _ | None => false end); [done|].
    destruct (sw_index w !! group_key (sw_group_by w) r) as [i|]; simpl; (split; [done|]).
    + rewrite list.Forall_lookup in Hg |- *. intros j g. rewrite list_lookup_alter.
      destruct (decide (i = j)) as [->|]; [|apply Hg]. intros (g' & Hg' & ->)%fmap_Some.
      apply idle_push; [done|]. by eapply Hg.
    + apply list.Forall_app. split; [done|]. apply list.Forall_singleton. by apply idle_push, idle_new.
  - split; [done|]. apply list.Forall_fmap. eapply list.Forall_impl; [exact Hg|].
    intros g. apply idle_evict.
Qed.
End sliding_facts.

(** A sliding window without aggregates never emits.  When the projection of a
    grouped statement has only columns, the row-free sliding window the runner chooses
    reports no row, whatever rows were pushed and evicted: a group is reported only
    when an accumulator is active, and the placeholder of a column never is. *)
Theorem sliding_projection_never_emits `{ExprEval} `{Text} (stmt : SelectStmt) (w : SlidingIncrementalWindow)
    (ops : list SlidingWindowOp) :
  sliding_try_new stmt = Some w -> sw_plans w <> [] -> Forall (fun p => is_first p = true) (sw_plans w) ->
  sliding_snapshot (foldl sliding_op w ops) = [].
Proof.
  intros Hnew Hne Hp.
  assert (Hinv : sw_plans (foldl sliding_op w ops) = sw_plans w /\
                 Forall (idle_group (sw_plans w)) (sw_groups (foldl sliding_op w ops))).
  { induction ops as [|op ops [Hp' Hg]] using rev_ind.
    - split; [done|]. unfold sliding_try_new in Hnew. apply bind_Some in Hnew as (plans & _ & Hw).
      case_match; simplify_eq/=. constructor.
    - rewrite foldl_app. cbn [foldl]. rewrite <- Hp' in Hp, Hg |- *. by apply idle_op. }
  destruct Hinv as [_ Hg]. unfold sliding_snapshot.
  rewrite filter_none; [unfold apply_order_limit; simpl; rewrite orb_true_r; by destruct (limit _) as [[]|]|].
  eapply list.Forall_impl; [exact Hg|]. intros g Hidle. rewrite Hidle, length_fmap.
  destruct (sw_plans w) as [|p plans]; [done|]. rewrite bool_decide_false, orb_false_r by done.
  by rewrite idle_inactive.
Qed.

Import Windows.Sample GroupedWindow.Sample.

Definition incremental_rows (stmt : SelectStmt) (rows : list row) : option (list row) :=
  w ← incremental_try_new stmt; Some (incremental_take (push_rows rows w)).1.

Lemma incremental_window_matches_batch_witness :
  exists w, incremental_try_new by_device = Some w /\
    eval_window_rows by_device device_rows ∅ = ((incremental_take (push_rows device_rows w)).1, ∅) /\
    (incremental_take (push_rows device_rows w)).1 =
      [{["dev" := VString "a"; "count" := value_of_i64 2; "max" := value_of_i64 3]};
       {["dev" := VString "b"; "count" := value_of_i64 1; "max" := value_of_i64 5]}].
Proof.
  eexists. split; [reflexivity|]. split; [|by apply (bool_decide_unpack _); vm_compute].
  apply incremental_window_matches_batch; [reflexivity| |].
  - repeat constructor.
  - assert (partition_keyed_groups (group_by by_device) (filter (fun r => passes_where by_device r = true) device_rows)
      = [("s1:a" +:+ String unit_separator "", [dev_row "a" 1; dev_row "a" 3]);
         ("s1:b" +:+ String unit_separator "", [dev_row "b" 5])]) as -> by (by vm_compute).
    repeat constructor; discriminate.
Defined.

(** An alias that shadows a [GROUP BY] column changes the result: for
    [SELECT a AS b, count( * ) ... GROUP BY b] the batch evaluation projects column [a] as [b],
    the incremental window keeps the group value of [b]. *)
Theorem incremental_alias_diverges :
  let rows : list row := [{["a" := value_of_i64 1; "b" := value_of_i64 2]}] in
  batch_rows aliased rows = [{["b" := value_of_i64 1; "count" := value_of_i64 1]}] /\
  incremental_rows aliased rows = Some [{["b" := value_of_i64 2; "count" := value_of_i64 1]}].
Proof. by vm_compute. Qed.

Lemma sliding_projection_never_emits_witness :
  let stmt := grouped [Identifier "dev"] [] [Identifier "dev"] in
  exists w, sliding_try_new stmt = Some w /\
    sliding_snapshot (foldl sliding_op w [SWPush 1 (dev_row "a" 1); SWPush 2 (dev_row "b" 5); SWEvict 1]) = [] /\
    batch_rows stmt [dev_row "a" 1] = [{["dev" := VString "a"]}].
Proof.
  eexists. split; [reflexivity|]. split; [|by vm_compute].
  apply (sliding_projection_never_emits (grouped [Identifier "dev"] [] [Identifier "dev"])); [reflexivity|done|by repeat constructor].
Defined.
