(* ===== verification/Joins.v ===== *)
(** * Joins ([crates/rekuiper-server/src/engine/joins.rs])

    Lookup joins of one record with table rows, the state of stream-to-stream [ASOF]
    joins, and the join of the rows of a window: a nested loop over the buffered rows with
    a bound on the number of results, then the window's evaluation. *)

From S2P Require Import Prelude Rust Json Ast Engine Columns Values Aggregates BatchAggregates SlidingAcc.
From S2P Require Import Windows GroupedWindow.

Set Default Goal Selector "!".

(** ** Tables and external lookups *)

(** The table manager: options of every table, and locally stored rows. *)
Record TableManager := mkTables {
  tables : gmap string (gmap string string);
  table_rows : gmap string (list row);
}.

(** The stores outside the process: a Redis [GET] (address, key), a row of a SQL table
    (url, table, column, value), a snapshot of a Modbus or OPC-UA table under the options
    of the table and the source configurations; [None] when there is nothing or the call
    fails.  [sql_config] decodes a stored SQL configuration into its url and table. *)
Class ExternalTables := {
  redis_lookup_key : string -> string -> option value;
  sql_lookup_key : string -> string -> string -> string -> option value;
  modbus_snapshot : gmap string string -> gmap string value -> option row;
  opcua_snapshot : gmap string string -> gmap string value -> option row;
  sql_config : value -> option (string * string);
}.

Definition get_table (tm : TableManager) (name : string) : option (gmap string string) := tables tm !! name.
Definition get_table_rows (tm : TableManager) (name : string) : list row := default [] (table_rows tm !! name).

Definition is_empty_str (s : string) : bool := bool_decide (s = "").

(** An option under any spelling of its case; blank values count as missing. *)
Definition option_ignore_case (name : string) (options : gmap string string) : option string :=
  match List.find (fun kv => eq_ignore_ascii_case kv.1 name) (map_to_list options) with
  | Some (_, v) => if is_empty_str (trim v) then None else Some v
  | None => None
  end.

Definition sql_table_fallback (options : gmap string string) (name : string) : string :=
  match option_ignore_case "TABLE" options, option_ignore_case "DATASOURCE" options with
  | Some v, _ => v
  | None, Some v => v
  | None, None => name
  end.

Definition resolve_redis_addr (source_configs : gmap string value) (conf_key : string) : string :=
  let dflt := "127.0.0.1:6379" in
  if is_empty_str conf_key then dflt
  else
    match source_configs !! ("redis/" +:+ conf_key) with
    | Some (VObject m) =>
        let addr := match object_get "addr" m with
                    | Some v => Some v
                    | None => match object_get "address" m with Some v => Some v | None => object_get "url" m end
                    end in
        match addr ≫= as_str with
        | Some s => if is_empty_str s then dflt else s
        | None => dflt
        end
    | Some (VString s) => if is_empty_str s then dflt else s
    | _ => dflt
    end.

Definition lookup_value_to_row (v : value) : row :=
  match v with
  | VObject m => merge_object m ∅
  | scalar => {["value" := scalar]}
  end.

(** The latest right row per target stream and key, with its timestamp. *)
Abbreviation AsofJoinState := (gmap (string * string) (Z * row)).

Section joins.
Context `{ExprEval} `{Text} `{ExternalTables}.

(** ** Keys of point lookups *)

Inductive Side := StreamSide | TableSide | UnknownSide.

Definition named (name : string) (target : string) (alias : option string) : bool :=
  bool_decide (name = target) || match alias with Some a => bool_decide (name = a) | None => false end.

Definition side (e : Expr) (from : string) (from_alias : option string) (j : JoinClause) : Side :=
  match e with
  | FieldAccess (Identifier name) _ =>
      if named name (target j) (alias j) then TableSide
      else if named name from from_alias then StreamSide
      else UnknownSide
  | FieldAccess _ _ => UnknownSide
  | Identifier _ => StreamSide
  | _ => UnknownSide
  end.

Definition key_column (e : Expr) : option string :=
  match e with
  | FieldAccess _ field => Some field
  | Identifier name => Some name
  | _ => None
  end.

Definition scalarize (v : value) : option string :=
  match v with
  | VString s => Some s
  | VNumber _ => Some (value_to_string v)
  | VBool b => Some (if b then "true" else "false")
  | _ => None
  end.

(** The table column and the key of an equality between stream and table. *)
Definition join_key_parts (j : JoinClause) (from : string) (from_alias : option string) (combined : row)
    : option (string * string) :=
  match on j with
  | Some (BinaryOp l Eq r) =>
      '(table_expr, key_expr) ←
        match side l from from_alias j, side r from from_alias j with
        | TableSide, _ => Some (l, r)
        | _, TableSide => Some (r, l)
        | _, _ => None
        end;
      col ← key_column table_expr;
      key ← scalarize (eval_val key_expr combined);
      Some (col, key)
  | _ => None
  end.

Definition extract_lookup_key (j : JoinClause) (from : string) (from_alias : option string) (combined : row)
    : option string := snd <$> join_key_parts j from from_alias combined.

(** ** Candidate rows of a table *)

Definition resolve_sql_lookup (tm : TableManager) (source_configs : gmap string value) (target : string)
    : option (string * string) :=
  options ← get_table tm target;
  let stored :=
    key ← options !! "CONF_KEY";
    if is_empty_str key then None else source_configs !! ("sql/" +:+ key) in
  match stored with
  | Some conf_val =>
      '(url, table) ← sql_config conf_val;
      let table := if is_empty_str (trim table) then sql_table_fallback options target else table in
      if is_empty_str (trim url) then None else Some (url, table)
  | None =>
      let url := default "" (match options !! "URL" with Some v => Some v | None => options !! "DATASOURCE" end) in
      if is_empty_str url then None else Some (url, default target (options !! "TABLE"))
  end.

Definition is_type (table_type : string) (names : list string) : bool :=
  existsb (eq_ignore_ascii_case table_type) names.

Definition lookup_candidates (tm : TableManager) (source_configs : gmap string value) (from : string)
    (from_alias : option string) (j : JoinClause) (combined : row) : list row :=
  let options := default ∅ (get_table tm (target j)) in
  let table_type := default "" (options !! "TYPE") in
  let row_of o := match o with Some v => [lookup_value_to_row v] | None => [] end in
  if is_type table_type ["redis"] then
    match extract_lookup_key j from from_alias combined with
    | None => []
    | Some key =>
        row_of (redis_lookup_key (resolve_redis_addr source_configs (default "" (options !! "CONF_KEY"))) key)
    end
  else if is_type table_type ["sql"] then
    match resolve_sql_lookup tm source_configs (target j), join_key_parts j from from_alias combined with
    | Some (url, table), Some (col, val) => row_of (sql_lookup_key url table col val)
    | _, _ => []
    end
  else if is_type table_type ["modbus"] then
    match modbus_snapshot options source_configs with Some r => [r] | None => [] end
  else if is_type table_type ["opcua"; "opc_ua"; "opc-ua"] then
    match opcua_snapshot options source_configs with Some r => [r] | None => [] end
  else get_table_rows tm (target j).

(** ** Combining rows *)

Definition insert_namespaced (name : string) (alias : option string) (r : row) (m : row) : row :=
  let obj := row_to_value r in
  let m := <[name := obj]> m in
  match alias with
  | Some a => if bool_decide (a = name) then m else <[a := obj]> m
  | None => m
  end.

(** The left row with the columns of the right one it does not have, and the right one
    under its names. *)
Definition combine (j : JoinClause) (left right : row) : row :=
  insert_namespaced (target j) (alias j) right (left ∪ right).

Definition on_holds (j : JoinClause) (probe : row) : bool :=
  match on j with Some cond => eval_bool cond probe | None => true end.

Definition seed_row (stmt : SelectStmt) (r : row) : row := insert_namespaced (from stmt) (from_alias stmt) r r.

Definition is_asof (j : JoinClause) : bool :=
  match join_type j with Asof | LeftAsof => true | _ => false end.

(** The first candidate that satisfies [ON]. *)
Definition first_match (j : JoinClause) (left : row) (candidates : list row) : option row :=
  List.find (fun r => on_holds j (combine j left r)) candidates.

(** ** Lookup joins of one record *)

Fixpoint lookup_joins (tm : TableManager) (source_configs : gmap string value) (stmt : SelectStmt)
    (js : list JoinClause) (combined : row) : option row :=
  match js with
  | [] => Some combined
  | j :: rest =>
      if is_asof j then lookup_joins tm source_configs stmt rest combined
      else
        match first_match j combined
                (lookup_candidates tm source_configs (from stmt) (from_alias stmt) j combined) with
        | Some r => lookup_joins tm source_configs stmt rest (combine j combined r)
        | None =>
            if decide (join_type j = Left) then lookup_joins tm source_configs stmt rest combined else None
        end
  end.

Definition apply_lookup_joins (tm : TableManager) (source_configs : gmap string value) (stmt : SelectStmt)
    (record : row) : option row :=
  match joins stmt with
  | [] => Some record
  | js => lookup_joins tm source_configs stmt js (seed_row stmt record)
  end.

(** ** The state of [ASOF] joins *)

Definition MAX_ASOF_KEYS : Z := 10000.

(** The column of the right side that a qualified operand of [ON] names. *)
Definition right_column (j : JoinClause) : option string :=
  match on j with
  | Some (BinaryOp l Eq r) =>
      let column e :=
        match e with
        | FieldAccess (Identifier p) field => if named p (target j) (alias j) then Some field else None
        | _ => None
        end in
      match column l with Some c => Some c | None => column r end
  | _ => None
  end.

Definition extract_right_key (j : JoinClause) (from : string) (from_alias : option string) (right_probe : row)
    : option string :=
  col ← match join_key_parts j from from_alias right_probe with
        | Some (col, _) => Some col
        | None => right_column j
        end;
  v ← right_probe !! col;
  scalarize v.

(** [min_by_key]: the first of the entries with the smallest timestamp. *)
Definition oldest_key (s : AsofJoinState) : option (string * string) :=
  match map_to_list s with
  | [] => None
  | e :: rest => Some (foldl (fun m x => if x.2.1 <? m.2.1 then x else m) e rest).1
  end.

Definition asof_put (map_key : string * string) (right_ts : Z) (right_row : row) (s : AsofJoinState) : AsofJoinState :=
  let s :=
    match s !! map_key with
    | None =>
        if MAX_ASOF_KEYS <=? Z.of_nat (size s) then
          match oldest_key s with Some k => delete k s | None => s end
        else s
    | Some _ => s
    end in
  match s !! map_key with
  | Some (ts, _) => if ts <=? right_ts then <[map_key := (right_ts, right_row)]> s else s
  | None => <[map_key := (right_ts, right_row)]> s
  end.

Definition ingest_right_event (stmt : SelectStmt) (target_stream : string) (right_ts : Z) (right_row : row)
    (s : AsofJoinState) : AsofJoinState :=
  foldl (fun s j =>
    if bool_decide (target j <> target_stream) || negb (is_asof j) then s
    else
      match extract_right_key j (from stmt) (from_alias stmt)
              (insert_namespaced (target j) (alias j) right_row right_row) with
      | Some key_val => asof_put (target_stream, key_val) right_ts right_row s
      | None => s
      end) s (joins stmt).

(** The right row of a key, if it is not younger than the left event. *)
Definition asof_get (s : AsofJoinState) (target key_val : string) (left_ts : Z) : option row :=
  match s !! (target, key_val) with
  | Some (right_ts, r) => if right_ts <=? left_ts then Some r else None
  | None => None
  end.

Fixpoint probe_joins (s : AsofJoinState) (stmt : SelectStmt) (left_ts : Z) (js : list JoinClause) (combined : row)
    : option row :=
  match js with
  | [] => Some combined
  | j :: rest =>
      if negb (is_asof j) then probe_joins s stmt left_ts rest combined
      else
        let matched :=
          '(_, key_val) ← join_key_parts j (from stmt) (from_alias stmt) combined;
          asof_get s (target j) key_val left_ts in
        match matched with
        | Some right_row => probe_joins s stmt left_ts rest (combine j combined right_row)
        | None =>
            if decide (join_type j = LeftAsof) then probe_joins s stmt left_ts rest combined else None
        end
  end.

Definition probe_left_event (s : AsofJoinState) (stmt : SelectStmt) (left_ts : Z) (left_row : row) : option row :=
  probe_joins s stmt left_ts (joins stmt) (seed_row stmt left_row).

(** ** Joins of the rows of a window *)

Definition MAX_JOIN_FANOUT : nat := Z.to_nat 10000.

(** Push below the bound. *)
Definition push_capped (x : row) (l : list row) : list row :=
  if (length l <? MAX_JOIN_FANOUT)%nat then l ++ [x] else l.

(** One left row against a table. *)
Definition table_step (tm : TableManager) (source_configs : gmap string value) (stmt : SelectStmt) (j : JoinClause)
    (next : list row) (left : row) : list row :=
  let candidates := lookup_candidates tm source_configs (from stmt) (from_alias stmt) j left in
  if decide (join_type j = Cross) then
    foldl (fun next r => push_capped (combine j left r) next) next candidates
  else
    match first_match j left candidates with
    | Some r => next ++ [combine j left r]
    | None =>
        match join_type j with
        | Left | Full => next ++ [left]
        | _ => next
        end
    end.

(** The event time of a row of an [ASOF] join. *)
Definition row_ts (dflt : Z) (r : row) : Z :=
  default dflt
    (v ← match r !! "timestamp" with Some v => Some v | None => r !! "ts" end;
     match as_i64 v with Some i => Some i | None => f64_as_i64 <$> as_f64 v end).

(** The youngest right row that is not younger than the left one and satisfies [ON]; the
    last of them among equals. *)
Definition asof_best (j : JoinClause) (left : row) (rights : list row) : option (Z * row) :=
  let left_ts := row_ts i64_max left in
  foldl (fun best right =>
           let right_ts := row_ts 0 right in
           if left_ts <? right_ts then best
           else
             let probe := combine j left right in
             if on_holds j probe &&
                match best with None => true | Some (b_ts, _) => b_ts <=? right_ts end
             then Some (right_ts, probe) else best)
    None rights.

Definition asof_step (j : JoinClause) (rights : list row) (next : list row) (left : row) : list row :=
  match asof_best j left rights with
  | Some (_, probe) => push_capped probe next
  | None => if decide (join_type j = LeftAsof) then push_capped left next else next
  end.

(** One left row against the right rows from index [ri] on: the rows joined so far, which
    right rows were matched, and whether this left row matched; it ends at the bound. *)
Fixpoint scan_rights (j : JoinClause) (lrow : row) (rights : list row) (ri : nat)
    (next : list row) (matched : gset nat) (any : bool) : list row * gset nat * bool :=
  match rights with
  | [] => (next, matched, any)
  | rrow :: rest =>
      let probe := combine j lrow rrow in
      if negb (on_holds j probe) then scan_rights j lrow rest (S ri) next matched any
      else
        let next := push_capped probe next in
        let matched := {[ri]} ∪ matched in
        if (MAX_JOIN_FANOUT <=? length next)%nat then (next, matched, true)
        else scan_rights j lrow rest (S ri) next matched true
  end.

Fixpoint scan_lefts (j : JoinClause) (rights : list row) (lefts : list row) (next : list row) (matched : gset nat)
    : list row * gset nat :=
  match lefts with
  | [] => (next, matched)
  | lrow :: rest =>
      let '(next, matched) :=
        if is_asof j then (asof_step j rights next lrow, matched)
        else
          let '(next, matched, any) := scan_rights j lrow rights 0 next matched false in
          (if any : bool then next
           else match join_type j with Left | Full => next ++ [lrow] | _ => next end, matched) in
      if (MAX_JOIN_FANOUT <=? length next)%nat then (next, matched)
      else scan_lefts j rights rest next matched
  end.

(** [RIGHT] and [FULL] keep the right rows without a match, up to the bound. *)
Definition preserve_rights (j : JoinClause) (rights : list row) (matched : gset nat) (next : list row) : list row :=
  match join_type j with
  | Right | Full =>
      foldl (fun next '(ri, rrow) =>
               if decide (ri ∈ matched) then next
               else push_capped (insert_namespaced (target j) (alias j) rrow rrow) next)
        next (imap pair rights)
  | _ => next
  end.

Definition stream_join (j : JoinClause) (rights lefts : list row) : list row :=
  let '(next, matched) := scan_lefts j rights lefts [] ∅ in preserve_rights j rights matched next.

Definition rows_of (stream : string) (batch : list TaggedRow) : list row :=
  tdata <$> filter (fun r => source r = stream) batch.

(** One join clause. *)
Definition join_step (tm : TableManager) (source_configs : gmap string value) (stmt : SelectStmt)
    (batch : list TaggedRow) (j : JoinClause) (combined_rows : list row) : list row :=
  match get_table tm (target j) with
  | Some _ => foldl (table_step tm source_configs stmt j) [] combined_rows
  | None => stream_join j (rows_of (target j) batch) combined_rows
  end.

(** All join clauses; an empty intermediate result ends the pipeline, except after [RIGHT]
    and [FULL]. *)
Fixpoint join_rows (tm : TableManager) (source_configs : gmap string value) (stmt : SelectStmt)
    (batch : list TaggedRow) (js : list JoinClause) (combined_rows : list row) : option (list row) :=
  match js with
  | [] => Some combined_rows
  | j :: rest =>
      let next := join_step tm source_configs stmt batch j combined_rows in
      if (length next =? 0)%nat && negb (bool_decide (join_type j = Right \/ join_type j = Full)) then None
      else join_rows tm source_configs stmt batch rest next
  end.

Definition eval_window_join_batch `{WallClock} `{GroupExprs} (tm : TableManager) (source_configs : gmap string value)
    (stmt : SelectStmt) (batch : list TaggedRow) (st : rule_state) : list row * rule_state :=
  match batch with
  | [] => ([], st)
  | _ :: _ =>
      match join_rows tm source_configs stmt batch (joins stmt) (seed_row stmt <$> rows_of (from stmt) batch) with
      | None => ([], st)
      | Some rows => eval_window_rows stmt rows st
      end
  end.
End joins.

(** * Properties of joins

    The nested loop of a window join computes the relational join, cut at the bound; an
    [ASOF] join takes the youngest eligible row; the [ASOF] state is bounded. *)

Lemma fanout_pos : (0 < MAX_JOIN_FANOUT)%nat.
Proof. unfold MAX_JOIN_FANOUT. lia. Qed.

#[local] Opaque MAX_JOIN_FANOUT.

(** ** Lists cut at the bound *)

#[local] Abbreviation cap := (take MAX_JOIN_FANOUT).

Lemma cap_idem {A} (l l' : list A) : cap (cap l ++ l') = cap (l ++ l').
Proof. rewrite !take_app, take_take, Nat.min_id, length_take. f_equal. f_equal. lia. Qed.

Lemma cap_full {A} (l l' : list A) : (MAX_JOIN_FANOUT <= length l)%nat -> cap (l ++ l') = cap l.
Proof. intros Hl. by rewrite take_app_le. Qed.

Lemma cap_small {A} (l : list A) : (length (cap l) < MAX_JOIN_FANOUT)%nat -> cap l = l.
Proof. rewrite length_take. intros Hl. apply take_ge. lia. Qed.

Lemma push_capped_cap x l : (length l <= MAX_JOIN_FANOUT)%nat -> push_capped x l = cap (l ++ [x]).
Proof.
  intros Hl. unfold push_capped. destruct (Nat.ltb_spec (length l) MAX_JOIN_FANOUT).
  - rewrite take_ge; [done|]. rewrite length_app. simpl. lia.
  - rewrite cap_full by lia. rewrite take_ge; [done|lia].
Qed.

Lemma foldl_push_capped {A} (f : A -> row) (P : A -> Prop) `{!forall x, Decision (P x)} l : forall next,
  (length next <= MAX_JOIN_FANOUT)%nat ->
  foldl (fun next x => if decide (P x) then next else push_capped (f x) next) next l =
  cap (next ++ (f <$> filter (fun x => ~ P x) l)).
Proof.
  induction l as [|x l IH]; intros next Hn; simpl; [by rewrite app_nil_r, take_ge|].
  rewrite list.filter_cons. destruct (decide (P x)) as [Hp|Hp].
  - rewrite decide_False by (intros ?; done). by apply IH.
  - rewrite decide_True by done. rewrite push_capped_cap by done.
    rewrite IH by (rewrite length_take; lia). rewrite cap_idem, <- app_assoc. done.
Qed.

(** ** The relational join *)

Section relational.
Context `{ExprEval} `{Text} `{ExternalTables} (j : JoinClause).

Definition matching (rights : list row) (l : row) : list row :=
  filter (fun r => on_holds j (combine j l r) = true) rights.

Definition keeps_left : bool := match join_type j with Left | Full => true | _ => false end.
Definition keeps_right : bool := match join_type j with Right | Full => true | _ => false end.

(** The rows a left row contributes. *)
Definition join_left (rights : list row) (l : row) : list row :=
  match matching rights l with
  | [] => if keeps_left then [l] else []
  | ms => combine j l <$> ms
  end.

Definition unmatched (rights lefts : list row) : list row :=
  filter (fun r => Forall (fun l => on_holds j (combine j l r) = false) lefts) rights.

Definition relational_join (rights lefts : list row) : list row :=
  concat (map (join_left rights) lefts) ++
  (if keeps_right then (fun r => insert_namespaced (target j) (alias j) r r) <$> unmatched rights lefts else []).

(** The right row at [i] matches one of the left rows. *)
Definition hit (rights lefts : list row) (i : nat) : Prop :=
  exists r l, rights !! i = Some r /\ l ∈ lefts /\ on_holds j (combine j l r) = true.

Lemma scan_rights_spec l rights : forall ri next matched any,
  (length next < MAX_JOIN_FANOUT)%nat ->
  exists matched', scan_rights j l rights ri next matched any =
    (cap (next ++ (combine j l <$> matching rights l)), matched', any || negb (bool_decide (matching rights l = []))) /\
  ((length (next ++ (combine j l <$> matching rights l)) < MAX_JOIN_FANOUT)%nat ->
   forall i, i ∈ matched' <-> i ∈ matched \/ exists k, i = (ri + k)%nat /\ hit rights [l] k).
Proof.
  induction rights as [|r rights IH]; intros ri next matched any Hn.
  { exists matched. split.
    - simpl. by rewrite app_nil_r, take_ge, orb_false_r by lia.
    - intros _ i. split; [by left|]. intros [?|(k & _ & r & x & Hk & _)]; done. }
  simpl scan_rights. unfold matching. rewrite list.filter_cons. fold (matching rights l).
  destruct (on_holds j (combine j l r)) eqn:Hr; simpl negb; cbv iota.
  - rewrite decide_True by done. rewrite push_capped_cap by lia.
    rewrite take_ge by (rewrite length_app; simpl; lia). cbn [fmap list_fmap].
    replace (next ++ combine j l r :: (combine j l <$> matching rights l))
      with ((next ++ [combine j l r]) ++ (combine j l <$> matching rights l)) by (by rewrite <- app_assoc).
    destruct (Nat.leb_spec MAX_JOIN_FANOUT (length (next ++ [combine j l r]))) as [Hfull|Hmore].
    + exists ({[ri]} ∪ matched). split.
      * rewrite cap_full by done. rewrite take_ge; [by rewrite orb_true_r|]. rewrite length_app. simpl. lia.
      * intros Hlt. rewrite length_app in Hlt. lia.
    + destruct (IH (S ri) (next ++ [combine j l r]) ({[ri]} ∪ matched) true Hmore) as (m' & Heq & Hm).
      exists m'. split; [by rewrite Heq, orb_true_r|]. intros Hlt i. rewrite (Hm Hlt i). split.
      * intros [[->%elem_of_singleton|Hi]%elem_of_union|(k & -> & Hk)].
        -- right. exists O. split; [lia|]. exists r, l. split_and!; [done|left|done].
        -- by left.
        -- right. exists (S k). split; [lia|done].
      * intros [Hi|([|k] & -> & Hk)].
        -- left. apply elem_of_union. by right.
        -- left. apply elem_of_union. left. rewrite Nat.add_0_r. by apply elem_of_singleton.
        -- right. exists k. split; [lia|done].
  - rewrite decide_False by done. destruct (IH (S ri) next matched any Hn) as (m' & Heq & Hm).
    exists m'. split; [done|]. intros Hlt i. rewrite (Hm Hlt i). split.
    + intros [Hi|(k & -> & Hk)]; [by left|]. right. exists (S k). split; [lia|done].
    + intros [Hi|([|k] & -> & Hk)]; [by left| |].
      * destruct Hk as (r' & l' & Hr' & ->%list_elem_of_singleton & Ho). simplify_eq/=. congruence.
      * right. exists k. split; [lia|done].
Qed.

(** The rows of one left row, after the bound. *)
Lemma scan_left_spec l rights next matched :
  is_asof j = false -> (length next < MAX_JOIN_FANOUT)%nat ->
  exists matched',
    (let '(next, matched, any) := scan_rights j l rights 0 next matched false in
     (if any : bool then next
      else match join_type j with Left | Full => next ++ [l] | _ => next end, matched)) =
    (cap (next ++ join_left rights l), matched') /\
    ((length (next ++ join_left rights l) < MAX_JOIN_FANOUT)%nat ->
     forall i, i ∈ matched' <-> i ∈ matched \/ hit rights [l] i).
Proof.
  intros Ha Hn. destruct (scan_rights_spec l rights 0 next matched false Hn) as (m' & -> & Hm). exists m'.
  unfold join_left. revert Hm. destruct (matching rights l) as [|m ms] eqn:E; intros Hm.
  - rewrite bool_decide_true by done. cbn [orb negb fmap list_fmap]. rewrite app_nil_r, take_ge by lia. split.
    + unfold keeps_left. f_equal. destruct (join_type j); rewrite ?app_nil_r, take_ge; try done;
        try lia; rewrite length_app; simpl; lia.
    + intros _ i. rewrite (Hm ltac:(rewrite length_app; simpl; lia) i). split; (intros [Hi|Hi]; [by left|right]).
      * by destruct Hi as (k & -> & Hk).
      * by exists i.
  - rewrite bool_decide_false by done. cbn [orb negb]. split; [done|]. intros Hlt i. rewrite (Hm Hlt i).
    split; (intros [Hi|Hi]; [by left|right]); [by destruct Hi as (k & -> & Hk)|by exists i].
Qed.

Lemma scan_lefts_spec rights lefts : forall next matched,
  is_asof j = false -> (length next < MAX_JOIN_FANOUT)%nat ->
  exists matched',
    scan_lefts j rights lefts next matched = (cap (next ++ concat (map (join_left rights) lefts)), matched') /\
    ((length (next ++ concat (map (join_left rights) lefts)) < MAX_JOIN_FANOUT)%nat ->
     forall i, i ∈ matched' <-> i ∈ matched \/ hit rights lefts i).
Proof.
  induction lefts as [|l lefts IH]; intros next matched Ha Hn.
  { exists matched. simpl. rewrite app_nil_r, take_ge by lia. split; [done|]. intros _ i. split; [by left|].
    intros [?|(r & l & _ & Hl & _)]; [done|]. by apply not_elem_of_nil in Hl. }
  cbn [scan_lefts map concat]. rewrite Ha. rewrite (app_assoc next).
  destruct (scan_left_spec l rights next matched Ha Hn) as (m1 & -> & Hm1).
  destruct (Nat.leb_spec MAX_JOIN_FANOUT (length (cap (next ++ join_left rights l)))) as [Hfull|Hmore].
  - exists m1. rewrite length_take in Hfull. split; [by rewrite (cap_full (next ++ join_left rights l)) by lia|].
    intros Hlt. rewrite length_app in Hlt. lia.
  - pose proof (cap_small _ Hmore) as Hcap. rewrite Hcap in Hmore |- *. destruct (IH (next ++ join_left rights l) m1 Ha Hmore) as (m2 & Heq & Hm2).
    exists m2. split; [done|]. intros Hlt i. rewrite (Hm2 Hlt i), (Hm1 Hmore i). split.
    + intros [[Hi|(r & l' & Hr & ->%list_elem_of_singleton & Ho)]|(r & l' & Hr & Hl & Ho)];
        [by left|right; exists r, l; split_and!; [done|left|done]|
         right; exists r, l'; split_and!; [done|by right|done]].
    + intros [Hi|(r & l' & Hr & [->|Hl]%elem_of_cons & Ho)]; [by do 2 left| |].
      * left. right. exists r, l. split_and!; [done|by apply list_elem_of_singleton|done].
      * right. by exists r, l'.
Qed.

(** The right rows that no left row matched. *)
Lemma unmatched_rows {B} (f : row -> B) rights lefts (matched : gset nat) :
  (forall i, i ∈ matched <-> hit rights lefts i) ->
  (fun x => f x.2) <$> filter (fun x : nat * row => ~ x.1 ∈ matched) (imap pair rights) =
  f <$> unmatched rights lefts.
Proof.
  intros Hm. assert (Hg : forall g rs, (forall i r, rs !! i = Some r -> (g i ∈ matched <->
      ~ Forall (fun l => on_holds j (combine j l r) = false) lefts)) ->
    (fun x => f x.2) <$> filter (fun x : nat * row => ~ x.1 ∈ matched) (imap (fun i r => (g i, r)) rs) =
    f <$> unmatched rs lefts).
  { intros g rs. revert g. induction rs as [|r rs IH]; intros g Hrs; [done|].
    unfold unmatched. cbn [imap]. rewrite !list.filter_cons. fold (unmatched rs lefts).
    pose proof (Hrs O r eq_refl) as Hr0. cbn [fst]. specialize (IH (g ∘ S)).
    destruct (decide (Forall (fun l => on_holds j (combine j l r) = false) lefts)) as [HF|HF].
    - rewrite decide_True by tauto. cbn [fmap list_fmap]. f_equal. apply IH. intros i r' Hr'. by apply (Hrs (S i)).
    - rewrite decide_False by tauto. apply IH. intros i r' Hr'. by apply (Hrs (S i)). }
  apply Hg. intros i r Hr. rewrite Hm. split.
  - intros (r' & l & Hr' & Hl & Ho) HF. simplify_eq. rewrite list.Forall_forall in HF.
    specialize (HF l Hl). congruence.
  - intros HF. apply not_Forall_Exists in HF; [|intros ?; apply _]. apply list.Exists_exists in HF as (l & Hl & Ho).
    exists r, l. split_and!; [done|done|]. simpl in Ho. by destruct (on_holds j (combine j l r)).
Qed.
End relational.

(** C30. The nested loop of a window join is the relational join: for every kind of join but
    [ASOF], the result is the rows of the left side with each of their matches, in order,
    unmatched left rows for [LEFT] and [FULL], then unmatched right rows for [RIGHT] and
    [FULL], cut at 10,000 rows. *)
Theorem stream_join_relational `{ExprEval} `{Text} `{ExternalTables} (j : JoinClause) (rights lefts : list row) :
  is_asof j = false ->
  stream_join j rights lefts = take MAX_JOIN_FANOUT (relational_join j rights lefts).
Proof.
  intros Ha. unfold stream_join.
  destruct (scan_lefts_spec j rights lefts [] ∅ Ha fanout_pos) as (m & -> & Hm). simpl app in *.
  set (ls := concat (map (join_left j rights) lefts)) in *. unfold relational_join. fold ls.
  unfold preserve_rights, keeps_right.
  assert (Hp : foldl (fun next '(ri, rrow) =>
               if decide (ri ∈ m) then next
               else push_capped (insert_namespaced (target j) (alias j) rrow rrow) next) (cap ls) (imap pair rights)
     = cap (ls ++ ((fun r => insert_namespaced (target j) (alias j) r r) <$> unmatched j rights lefts))).
  { transitivity (foldl (fun next x => if decide (x.1 ∈ m) then next
       else push_capped ((fun x : nat * row => insert_namespaced (target j) (alias j) x.2 x.2) x) next)
       (cap ls) (imap pair rights)).
    { generalize (cap ls). induction (imap pair rights) as [|[ri r] l IH]; intros next; simpl; [done|apply IH]. }
    rewrite (foldl_push_capped _ (fun x : nat * row => x.1 ∈ m)) by (rewrite length_take; lia).
    rewrite cap_idem. destruct (decide (length ls < MAX_JOIN_FANOUT)%nat) as [Hlt|Hge].
    - f_equal. f_equal. apply (unmatched_rows j (fun r => insert_namespaced (target j) (alias j) r r)).
      intros i. rewrite (Hm Hlt i), elem_of_empty. tauto.
    - by rewrite !cap_full by lia. }
  destruct (join_type j); rewrite ?app_nil_r; try done; apply Hp.
Qed.

(** ** [ASOF]: the youngest row that is not younger than the left one *)

Section asof.
Context `{ExprEval} `{Text} (j : JoinClause) (l : row).

Definition eligible (r : row) : Prop :=
  row_ts 0 r <= row_ts i64_max l /\ on_holds j (combine j l r) = true.

(** [best] is what [asof_best] holds after the rows [seen]. *)
Definition youngest (seen : list row) (best : option (Z * row)) : Prop :=
  match best with
  | None => Forall (fun r => ~ eligible r) seen
  | Some (ts, probe) =>
      exists pre r post, seen = pre ++ r :: post /\ eligible r /\ ts = row_ts 0 r /\ probe = combine j l r /\
        Forall (fun x => eligible x -> row_ts 0 x <= ts) pre /\ Forall (fun x => eligible x -> row_ts 0 x < ts) post
  end.

Lemma youngest_skip seen best r :
  youngest seen best -> (eligible r -> match best with None => False | Some (ts, _) => row_ts 0 r < ts end) ->
  youngest (seen ++ [r]) best.
Proof.
  intros Hb Hr. destruct best as [[ts probe]|]; simpl in *.
  - destruct Hb as (pre & x & post & -> & Hx & Hts & Hp & Hpre & Hpost).
    exists pre, x, (post ++ [r]). split_and!; try done; [by rewrite <- app_assoc|].
    apply Forall_app. split; [done|]. by apply list.Forall_singleton.
  - apply Forall_app. split; [done|]. by apply list.Forall_singleton.
Qed.

Lemma youngest_take seen best r :
  youngest seen best -> eligible r -> match best with None => True | Some (ts, _) => ts <= row_ts 0 r end ->
  youngest (seen ++ [r]) (Some (row_ts 0 r, combine j l r)).
Proof.
  intros Hb Hr Hle. exists seen, r, []. split_and!; try done.
  destruct best as [[ts probe]|]; simpl in *.
  - destruct Hb as (pre & x & post & -> & Hx & Hts & Hp & Hpre & Hpost). subst ts.
    apply Forall_app. split.
    + eapply list.Forall_impl; [exact Hpre|]. simpl. intros y Hy He. specialize (Hy He). lia.
    + constructor; [done|]. eapply list.Forall_impl; [exact Hpost|]. simpl. intros y Hy He. specialize (Hy He). lia.
  - eapply list.Forall_impl; [exact Hb|]. intros y Hy He. done.
Qed.

Lemma asof_fold rights : forall seen best,
  youngest seen best ->
  youngest (seen ++ rights)
    (foldl (fun best rrow =>
           let right_ts := row_ts 0 rrow in
           if row_ts i64_max l <? right_ts then best
           else
             let probe := combine j l rrow in
             if on_holds j probe && match best with None => true | Some (b_ts, _) => b_ts <=? right_ts end
             then Some (right_ts, probe) else best) best rights).
Proof.
  induction rights as [|r rights IH]; intros seen best Hb; [by rewrite app_nil_r|].
  cbn [foldl]. replace (seen ++ r :: rights) with ((seen ++ [r]) ++ rights) by (by rewrite <- app_assoc).
  apply IH. cbv zeta. destruct (Z.ltb_spec (row_ts i64_max l) (row_ts 0 r)) as [Hlate|Hok].
  { apply youngest_skip; [done|]. intros [Hle _]. lia. }
  destruct (on_holds j (combine j l r)) eqn:Ho; simpl.
  2: { apply youngest_skip; [done|]. intros [_ Ho']. congruence. }
  destruct best as [[ts probe]|]; [|by eapply youngest_take].
  destruct (Z.leb_spec ts (row_ts 0 r)) as [Hle|Hlt]; [by eapply youngest_take|].
  apply youngest_skip; [done|]. done.
Qed.
End asof.

(** An [ASOF] join pairs a left row with the youngest right row of the window that is not
    younger than it and satisfies [ON], the last one among rows of the same time; it finds
    none only when no right row is eligible. *)
Theorem asof_join_youngest `{ExprEval} `{Text} (j : JoinClause) (l : row) (rights : list row) :
  match asof_best j l rights with
  | None => Forall (fun r => ~ eligible j l r) rights
  | Some (ts, probe) =>
      exists pre r post, rights = pre ++ r :: post /\ eligible j l r /\ ts = row_ts 0 r /\ probe = combine j l r /\
        Forall (fun x => eligible j l x -> row_ts 0 x <= ts) pre /\
        Forall (fun x => eligible j l x -> row_ts 0 x < ts) post
  end.
Proof. apply (asof_fold j l rights [] None). by constructor. Qed.

(** ** The [ASOF] state *)

Lemma oldest_key_some (s : AsofJoinState) : s <> ∅ -> exists k, oldest_key s = Some k /\ is_Some (s !! k).
Proof.
  intros Hs. unfold oldest_key. destruct (map_to_list s) as [|e rest] eqn:E.
  { by apply map_to_list_empty_iff in E. }
  assert (Hin : forall l m, m ∈ map_to_list s -> (forall x, x ∈ l -> x ∈ map_to_list s) ->
    foldl (fun m x => if x.2.1 <? m.2.1 then x else m) m l ∈ map_to_list s).
  { induction l as [|x l IH]; intros m Hm Hl; simpl; [done|]. apply IH; [|intros y Hy; apply Hl; by right].
    destruct (_ <? _); [apply Hl; left|done]. }
  specialize (Hin rest e). rewrite E in Hin. destruct (foldl _ e rest) as [k v].
  exists k. split; [done|]. exists v. apply elem_of_map_to_list. rewrite E.
  apply Hin; [left|intros x Hx; by right].
Qed.

Lemma asof_put_size (key : string * string) (ts : Z) (r : row) (s : AsofJoinState) :
  Z.of_nat (size s) <= MAX_ASOF_KEYS -> Z.of_nat (size (asof_put key ts r s)) <= MAX_ASOF_KEYS.
Proof.
  intros Hs. unfold asof_put. destruct (s !! key) as [[ts0 r0]|] eqn:E.
  { rewrite E. destruct (ts0 <=? ts); [|done]. by rewrite map_size_insert_Some by (by eexists). }
  destruct (Z.leb_spec MAX_ASOF_KEYS (Z.of_nat (size s))) as [Hfull|Hfree].
  - destruct (oldest_key_some s) as (k & -> & Hk).
    { intros ->. rewrite map_size_empty in Hfull. unfold MAX_ASOF_KEYS in Hfull. lia. }
    assert (delete k s !! key = None) as -> by (by apply lookup_delete_None; right).
    rewrite map_size_insert_None by (by apply lookup_delete_None; right).
    rewrite map_size_delete_Some by done. unfold MAX_ASOF_KEYS in *. lia.
  - rewrite E. rewrite map_size_insert_None by done. lia.
Qed.

(** The state of [ASOF] joins holds at most 10,000 keys, whatever events arrive. *)
Theorem asof_state_bounded `{ExprEval} `{Text} (stmt : SelectStmt) (evs : list (string * Z * row)) :
  Z.of_nat (size (foldl (fun s e => ingest_right_event stmt e.1.1 e.1.2 e.2 s) ∅ evs)) <= MAX_ASOF_KEYS.
Proof.
  assert (Hone : forall js t ts r s, Z.of_nat (size s) <= MAX_ASOF_KEYS ->
    Z.of_nat (size (foldl (fun s j =>
      if bool_decide (target j <> t) || negb (is_asof j) then s
      else match extract_right_key j (from stmt) (from_alias stmt) (insert_namespaced (target j) (alias j) r r) with
           | Some key_val => asof_put (t, key_val) ts r s
           | None => s
           end) s js)) <= MAX_ASOF_KEYS).
  { intros js t ts r. induction js as [|j js IH]; intros s Hs; simpl; [done|]. apply IH.
    destruct (_ || _); [done|]. destruct (extract_right_key _ _ _ _); [by apply asof_put_size|done]. }
  assert (Hemp : Z.of_nat (size (∅ : AsofJoinState)) <= MAX_ASOF_KEYS)
    by (rewrite map_size_empty; unfold MAX_ASOF_KEYS; lia).
  revert Hemp. generalize (∅ : AsofJoinState). induction evs as [|[[t ts] r] evs IH]; intros s Hs; simpl; [done|].
  apply IH. by apply Hone.
Qed.

(** ** Samples *)

Import Windows.Sample.

#[local] Instance no_external : ExternalTables := {|
  redis_lookup_key _ _ := None; sql_lookup_key _ _ _ _ := None; modbus_snapshot _ _ := None;
  opcua_snapshot _ _ := None; sql_config _ := None;
|}.

Lemma stream_join_relational_witness :
  let j := mkJoin Full "r" None (Some (Identifier "ok")) in
  let lefts : list row := [{["a" := value_of_i64 1; "ok" := VBool true]}; {["a" := value_of_i64 2; "ok" := VBool false]}] in
  let rights : list row := [{["b" := value_of_i64 3]}] in
  stream_join j rights lefts = take MAX_JOIN_FANOUT (relational_join j rights lefts) /\
  length (stream_join j rights lefts) = 2%nat.
Proof.
  intros j lefts rights. split; [by apply stream_join_relational|by vm_compute].
Defined.
