(* ===== verification/Eval.v ===== *)
(** * Expressions ([eval_stateful_expr_fallible], [eval_bool_stateful_fallible],
      [eval_case_fallible] of [crates/rekuiper-sql/src/eval.rs])

    Evaluation of an expression on a record, with the rule state threaded through the
    function calls it contains, and the fast path of conditions that compare a column
    with a literal. *)

From Stdlib Require Import SpecFloat.
From S2P Require Import Prelude Rust Json Ast Engine Columns Values Numbers Aggregates Accumulators Analytic.

Set Default Goal Selector "!".

(** The scalar function library ([eval_call_fallible] and [eval_call] on evaluated
    arguments) and the debug form of an expression that keys the per-row analytic values. *)
Class Functions := {
  eval_call_fallible : string -> list value -> outcome value;
  eval_call : string -> list value -> value;
  expr_debug : Expr -> string;
}.

(** ** State and errors *)

Definition M (A : Type) : Type := rule_state -> outcome A * rule_state.

Definition ret {A} (x : outcome A) : M A := fun st => (x, st).

#[export] Instance M_bind : MBind M := fun A B f m st =>
  match m st with
  | (Ok a, st) => f a st
  | (Err e, st) => (Err e, st)
  | (Panic, st) => (Panic, st)
  end.

(** [bind_to m f], for binders inside the evaluator's recursion. *)
Definition bind_to {A B} (m : M A) (f : A -> M B) : M B := m ≫= f.

(** A step on the rule state that cannot fail. *)
Definition lift_state (f : rule_state -> value * rule_state) : M value :=
  fun st => let '(v, st) := f st in (Ok v, st).

(** The values of a list of expressions, from the left, up to the first error. *)
Definition eval_all (f : Expr -> M value) : list Expr -> M (list value) :=
  fix go l :=
    match l with
    | [] => ret (Ok [])
    | x :: r => bind_to (f x) (fun v => bind_to (go r) (fun vs => ret (Ok (v :: vs))))
    end.

(** [Result::unwrap_or]; a panic ends the task, what follows it is not observed. *)
Definition unwrap_or {A} (d : A) (o : outcome A) : A := match o with Ok a => a | _ => d end.

Section eval.
Context `{Text} `{Functions} `{WallClock}.

Definition value_to_key (v : value) : string :=
  match v with
  | VNull => "null:"
  | VBool b => "bool:" +:+ (if b then "true" else "false")
  | VNumber _ => "num:" +:+ value_to_string v
  | VString s => "str:" +:+ s
  | VArray _ | VObject _ => "json:" +:+ value_to_string v
  end.

Definition eval_identifier (record : row) (name : string) : value :=
  match record !! name with
  | Some v => v
  | None =>
      if bool_decide (name = "window_start" \/ name = "window_end") then
        default VNull (record !! ("__" +:+ name +:+ "__"))
      else VNull
  end.

(** A field of an object, a qualified column, or a bare column that no object of the
    record owns. *)
Definition eval_field (record : row) (parent : Expr) (parent_val : value) (field : string) : value :=
  match (match parent_val with VObject m => object_get field m | _ => None end) with
  | Some v => v
  | None =>
      match parent with
      | Identifier p_name =>
          match record !! (p_name +:+ "." +:+ field) with
          | Some v => v
          | None =>
              let owned_by_other :=
                existsb (fun kv => negb (bool_decide (kv.1 = p_name)) &&
                           match kv.2 with
                           | VObject m => bool_decide (is_Some (object_get field m))
                           | _ => false
                           end) (map_to_list record) in
              if owned_by_other then VNull else default VNull (record !! field)
          end
      | _ => VNull
      end
  end.

(** ** Functions of the record: metadata, event time, rule and window bounds *)

Definition first_present (keys : list string) (record : row) : option value :=
  list.head (omap (fun k => record !! k) keys).

(** A key of a metadata object, exact or in another case. *)
Definition meta_get (key : string) (m : list (string * value)) : option value :=
  match object_get key m with
  | Some v => Some v
  | None => snd <$> List.find (fun kv => eq_ignore_ascii_case kv.1 key) m
  end.

Definition resolve_meta (evalv : Expr -> row -> value) (args : list Expr) (record : row) (object_keys : list string)
    : value :=
  let meta_obj := match first_present object_keys record with Some (VObject m) => Some m | _ => None end in
  let whole := match meta_obj with Some m => VObject m | None => VNull end in
  match args with
  | [] | Wildcard :: _ => whole
  | a :: _ =>
      let key := match a with
                 | Identifier name => Some name
                 | other => as_str (evalv other record)
                 end in
      match key with
      | None => VNull
      | Some key =>
          match meta_obj ≫= meta_get key with
          | Some v => v
          | None => default VNull (record !! key)
          end
      end
  end.

Definition resolve_event_time (record : row) : value :=
  default (value_of_i64 wall_clock)
    (List.find (fun v => negb (is_null v))
       (omap (fun k => record !! k) ["timestamp"; "event_time"; "__timestamp__"])).

Definition resolve_rule_id (record : row) : value :=
  match record !! "__rule_id__" with Some (VString s) => VString s | _ => VString "" end.

Definition resolve_rule_start (record : row) : value :=
  match record !! "__rule_start__" with Some (VNumber n) => VNumber n | _ => value_of_i64 wall_clock end.

Definition resolve_window_bound (record : row) (keys : list string) : value :=
  default VNull (first_present keys record).

Definition eval_context_call (evalv : Expr -> row -> value) (name : string) (args : list Expr) (record : row)
    : option value :=
  let lowered := to_ascii_lowercase name in
  if bool_decide (lowered = "meta") then Some (resolve_meta evalv args record ["__meta__"; "meta"])
  else if bool_decide (lowered = "mqtt") then
    Some (resolve_meta evalv args record ["__mqtt__"; "mqtt"; "__meta__"])
  else if bool_decide (lowered = "event_time") then Some (resolve_event_time record)
  else if bool_decide (lowered = "rule_id") then Some (resolve_rule_id record)
  else if bool_decide (lowered = "rule_start") then Some (resolve_rule_start record)
  else if bool_decide (lowered = "window_start") then
    Some (resolve_window_bound record ["window_start"; "__window_start__"])
  else if bool_decide (lowered = "window_end") then
    Some (resolve_window_bound record ["window_end"; "__window_end__"])
  else None.

(** ** Stateful calls *)

(** [changed_cols]: the columns that differ from the last time, under a prefix; the state
    is written without a bound on the number of keys. *)
Definition changed (prev : option value) (v : value) : bool :=
  match prev with
  | None => true
  | Some p => negb (is_null p && is_null v) && negb (values_equal p v)
  end.

Definition changed_col_step (ignore_null : bool) (prefix : string) (state_key : string -> string)
    (s : row * rule_state) (c : string * value) : row * rule_state :=
  let '(out, st) := s in
  let '(col_name, v) := c in
  if ignore_null && is_null v then s
  else if changed (st !! state_key col_name) v then
    (<[prefix +:+ col_name := v]> out, <[state_key col_name := v]> st)
  else s.

Definition changed_cols (call_id partition_key : string) (args : list Expr) (vals : list value) (st : rule_state)
    : value * rule_state :=
  let prefix := match vals !! 0%nat with Some (VString s) => s | _ => "" end in
  let ignore_null := match vals !! 1%nat with Some (VBool b) => b | _ => false end in
  let cols := zip (imap (fun i e => column_name e i) (drop 2 args)) (drop 2 vals) in
  let key col := "changed_cols:" +:+ call_id +:+ ":" +:+ col +:+ ":" +:+ partition_key in
  let '(out, st) := foldl (changed_col_step ignore_null prefix key) (∅, st) cols in
  (if bool_decide (out = ∅) then VNull else row_to_value out, st).

Definition row_number (call_id partition_key : string) (skip_update : bool) (st : rule_state) : value * rule_state :=
  let key := "row_number:" +:+ call_id +:+ ":" +:+ partition_key in
  let current := default 0 (st !! key ≫= as_i64) in
  if skip_update then (value_of_i64 current, st)
  else
    let next := saturating_add current 1 in
    (value_of_i64 next, <[key := value_of_i64 next]> st).

Definition last_hit_count (call_id partition_key : string) (st : rule_state) : value * rule_state :=
  let key := "$$last_hit_count:" +:+ call_id +:+ ":" +:+ partition_key in
  let current := default 0 (st !! key ≫= as_i64) in
  (value_of_i64 current, <[key := value_of_i64 (saturating_add current 1)]> st).

Definition last_hit_time (call_id partition_key : string) (record : row) (st : rule_state) : value * rule_state :=
  let key := "$$last_hit_time:" +:+ call_id +:+ ":" +:+ partition_key in
  let prev := default 0 (st !! key ≫= as_i64) in
  (value_of_i64 prev, <[key := value_of_i64 (default 0 (as_i64 (resolve_event_time record)))]> st).

(** [rule_id] and [rule_start] with the rule state as a second source. *)
Definition rule_id (record : row) (st : rule_state) : value :=
  match record !! "__rule_id__", st !! "__rule_id__" with
  | Some (VString s), _ => VString s
  | _, Some (VString s) => VString s
  | _, _ => VString ""
  end.

Definition rule_start (record : row) (st : rule_state) : value :=
  match record !! "__rule_start__", st !! "__rule_start__" with
  | Some (VNumber n), _ => VNumber n
  | _, Some (VNumber n) => VNumber n
  | _, _ => value_of_i64 wall_clock
  end.

(** [eval_stateful_call_fallible] on the call [e] = [name(args)]: [rec] evaluates an
    argument with the state, [evalv] on a fresh state. *)
Definition call_step (rec : Expr -> M value) (evalv : Expr -> row -> value) (record : row) (e : Expr)
    (name : string) (args : list Expr) (partition_key : option string) (skip_update : bool) : M value :=
  let lowered := to_ascii_lowercase name in
  let call_id := to_ekuiper_string e in
  let pkey := default "" partition_key in
  if is_acc_call lowered then
    bind_to (eval_all rec args) (fun vals => lift_state (eval_acc_call lowered vals call_id pkey skip_update))
  else if bool_decide (lowered = "lag") then
    bind_to (eval_all rec args) (fun vals => lift_state (eval_lag vals call_id pkey skip_update))
  else if bool_decide (lowered = "sequence_match" \/ lowered = "sequence_count") then
    bind_to (eval_all rec args) (fun vals =>
      lift_state (eval_sequence_cep lowered vals (default 0 (as_i64 (resolve_event_time record))) call_id pkey skip_update))
  else if bool_decide (lowered = "had_changed" \/ lowered = "changed_col") then
    bind_to (eval_all rec args) (fun vals => lift_state (eval_changed lowered vals call_id pkey))
  else if bool_decide (lowered = "changed_cols") && (2 <=? length args)%nat then
    bind_to (eval_all rec args) (fun vals => lift_state (changed_cols call_id pkey args vals))
  else if bool_decide (lowered = "row_number") then
    match args with
    | [] => lift_state (row_number call_id pkey skip_update)
    | _ => ret (Ok VNull)
    end
  else if bool_decide (lowered = "last_hit_count") then lift_state (last_hit_count call_id pkey)
  else if bool_decide (lowered = "last_hit_time") then lift_state (last_hit_time call_id pkey record)
  else if bool_decide (lowered = "rule_id") then fun st => (Ok (rule_id record st), st)
  else if bool_decide (lowered = "rule_start") then fun st => (Ok (rule_start record st), st)
  else
    match eval_context_call evalv name args record with
    | Some v => ret (Ok v)
    | None =>
        if bool_decide (lowered ∈ ["count"; "sum"; "avg"; "min"; "max"]) then
          let local : ExprEval :=
            {| eval_val := evalv; eval_bool _ _ := false; eval_bool_stateful _ _ st := (false, st) |} in
          ret (Ok (if bool_decide (lowered = "count") then agg_count args [record]
                   else if bool_decide (lowered = "sum") then agg_sum args [record]
                   else if bool_decide (lowered = "avg") then agg_avg args [record]
                   else if bool_decide (lowered = "min") then agg_min args [record]
                   else agg_max args [record]))
        else bind_to (eval_all rec args) (fun vals => ret (eval_call_fallible name vals))
    end.

(** ** Expressions *)

Fixpoint eval_expr (record row_values : row) (e : Expr) {struct e} : M value :=
  let eval := eval_expr record row_values in
  let evalv a r := unwrap_or VNull (eval_expr r ∅ a ∅).1 in
  match (if negb (bool_decide (row_values = ∅)) && is_analytic_expr e
         then row_values !! expr_debug e else None) with
  | Some v => ret (Ok v)
  | None =>
      match e with
      | Wildcard | WildcardModified _ _ => ret (Ok VNull)
      | Literal v => ret (Ok v)
      | Identifier name => ret (Ok (eval_identifier record name))
      | FieldAccess parent field =>
          bind_to (eval parent) (fun p => ret (Ok (eval_field record parent p field)))
      | Index base index =>
          bind_to (eval base) (fun b => bind_to (eval index) (fun i => ret (Ok (index_value b i))))
      | Slice base lo hi =>
          bind_to (eval base) (fun b =>
          bind_to (match lo with Some x => bind_to (eval x) (fun v => ret (Ok (Some v))) | None => ret (Ok None) end) (fun l =>
          bind_to (match hi with Some x => bind_to (eval x) (fun v => ret (Ok (Some v))) | None => ret (Ok None) end) (fun h =>
          ret (Ok (slice_value b l h)))))
      | BinaryOp l op r =>
          bind_to (eval l) (fun lv => bind_to (eval r) (fun rv => ret (eval_binary_op_fallible lv op rv)))
      | UnaryOp op x => bind_to (eval x) (fun v => ret (Ok (eval_unary_op op v)))
      | Between x low high negated =>
          bind_to (eval x) (fun v =>
          bind_to (eval low) (fun l =>
          bind_to (eval high) (fun h => ret (eval_between_fallible v l h negated))))
      | InList x items negated =>
          bind_to (eval x) (fun v =>
          bind_to ((fix go items :=
                      match items with
                      | [] => ret (Ok false)
                      | i :: rest =>
                          bind_to (eval i) (fun iv => if values_equal v iv then ret (Ok true) else go rest)
                      end) items)
            (fun matched => ret (Ok (VBool (xorb negated matched)))))
      | IsNull x negated => bind_to (eval x) (fun v => ret (Ok (VBool (xorb negated (is_null v)))))
      | Call name args => call_step eval evalv record e name args None false
      | Over call partition_by when =>
          bind_to (match partition_by with
                   | Some p => bind_to (eval p) (fun v => ret (Ok (value_to_key v)))
                   | None => ret (Ok "")
                   end) (fun partition_key =>
          bind_to (match when with
                   | Some cond => bind_to (eval cond) (fun v => ret (Ok (negb (default false (as_bool v)))))
                   | None => ret (Ok false)
                   end) (fun skip_update =>
          match call with
          | Call name args => call_step eval evalv record call name args (Some partition_key) skip_update
          | _ => eval call
          end))
      | Case operand when_clauses else_clause =>
          let otherwise := match else_clause with Some x => eval x | None => ret (Ok VNull) end in
          match operand with
          | Some op =>
              bind_to (eval op) (fun op_val =>
                (fix go clauses :=
                   match clauses with
                   | [] => otherwise
                   | (w, t) :: rest =>
                       bind_to (eval w) (fun wv => if values_equal op_val wv then eval t else go rest)
                   end) when_clauses)
          | None =>
              (fix go clauses :=
                 match clauses with
                 | [] => otherwise
                 | (w, t) :: rest =>
                     bind_to (eval w) (fun wv =>
                       if bool_decide (wv = VBool true) then eval t else go rest)
                 end) when_clauses
          end
      end
  end.

(** ** Conditions *)

Section record.
Context (record row_values : row).

Definition where_result (r : outcome value) : outcome bool :=
  match r with
  | Ok (VBool b) => Ok b
  | Ok VNull => Ok false
  | Ok other =>
      Err ("run Where error: invalid condition that returns non-bool value " +:+ format_ekuiper_val_type other)
  | Err e => Err ("run Where error: " +:+ e)
  | Panic => Panic
  end.

(** A comparison of the fast path: of two floats, or of other values. *)
Definition fast_compare (l : value) (op : BinaryOperator) (r : value) : outcome bool :=
  match as_f64 l, as_f64 r with
  | Some lf, Some rf =>
      match op with
      | Gt => Ok (f64_ltb rf lf)
      | Gte => Ok (f64_leb rf lf)
      | Lt => Ok (f64_ltb lf rf)
      | Lte => Ok (f64_leb lf rf)
      | Eq => Ok (f64_ltb (f64_abs (f64_sub lf rf)) f64_epsilon)
      | Neq => Ok (f64_leb f64_epsilon (f64_abs (f64_sub lf rf)))
      | _ => where_result (eval_binary_op_fallible l op r)
      end
  | _, _ => where_result (eval_binary_op_fallible l op r)
  end.

(** The general evaluation of a condition. *)
Definition eval_bool_general (e : Expr) : M bool := fun st =>
  let '(r, st) := eval_expr record row_values e st in (where_result r, st).

Definition eval_bool_stateful_fallible (e : Expr) : M bool :=
  match e with
  | BinaryOp (Identifier name) op (Literal lit) =>
      match record !! name with
      | Some l_val => ret (fast_compare l_val op lit)
      | None => eval_bool_general e
      end
  | BinaryOp (Literal lit) op (Identifier name) =>
      match record !! name with
      | Some r_val => ret (fast_compare lit op r_val)
      | None => eval_bool_general e
      end
  | _ => eval_bool_general e
  end.
End record.
End eval.

(** ** Facts: the fast path *)

Lemma f64_partial_cmp_some a b :
  is_nan a = false -> is_nan b = false -> exists o, f64_partial_cmp a b = Some o.
Proof.
  intros Ha Hb. unfold f64_partial_cmp.
  destruct a as [[]|[]| |[] ? ?], b as [[]|[]| |[] ? ?]; try done; simpl; eexists; reflexivity.
Qed.

(** On numbers, the comparison operators agree with those of [f64]. *)
Lemma fast_order_agrees lf rf :
  is_nan lf = false -> is_nan rf = false ->
  exists o, f64_partial_cmp lf rf = Some o /\
    f64_ltb rf lf = bool_decide (o = Datatypes.Gt) /\ f64_ltb lf rf = bool_decide (o = Datatypes.Lt) /\
    f64_leb rf lf = bool_decide (o <> Datatypes.Lt) /\ f64_leb lf rf = bool_decide (o <> Datatypes.Gt).
Proof.
  intros Hl Hr. destruct (f64_partial_cmp_some lf rf Hl Hr) as [o Ho]. exists o. split; [done|].
  rewrite !f64_ltb_leb by done.
  pose proof (f64_cmp_gt lf rf Hl Hr) as Hgt. pose proof (f64_cmp_lt lf rf Hl Hr) as Hlt. rewrite Ho in Hgt, Hlt.
  destruct o, (f64_leb lf rf), (f64_leb rf lf); try done; exfalso; destruct Hgt, Hlt; naive_solver.
Qed.

Definition is_equality (op : BinaryOperator) : Prop := op = Eq \/ op = Neq.

Lemma fast_compare_agrees `{Text} l op r :
  value_number_wf l -> value_number_wf r -> ~ (is_equality op /\ is_number l = true /\ is_number r = true) ->
  fast_compare l op r = where_result (eval_binary_op_fallible l op r).
Proof.
  intros Hl Hr Hop. unfold fast_compare.
  destruct (as_f64 l) as [lf|] eqn:El; [|done]. destruct (as_f64 r) as [rf|] eqn:Er; [|done].
  assert (Hln : is_number l = true) by (by destruct l). assert (Hrn : is_number r = true) by (by destruct r).
  pose proof (as_f64_not_nan l lf Hl El) as Hlf. pose proof (as_f64_not_nan r rf Hr Er) as Hrf.
  destruct (fast_order_agrees lf rf Hlf Hrf) as (o & Ho & H1 & H2 & H3 & H4).
  assert (Hord : forall op', binary_order op' l r =
    Ok (VBool (match op', o with
               | Lt, Datatypes.Lt => true | Lte, (Datatypes.Lt | Datatypes.Eq) => true
               | Gt, Datatypes.Gt => true | Gte, (Datatypes.Gt | Datatypes.Eq) => true
               | _, _ => false end))).
  { intros op'. unfold binary_order. rewrite Hln, Hrn, El, Er. simpl. rewrite Ho. simpl. by destruct op', o. }
  assert (Hnn : is_null l || is_null r = false) by (by destruct l, r).
  unfold eval_binary_op_fallible. rewrite Hnn.
  destruct op; try done; try (rewrite Hord; simpl; f_equal; rewrite ?H1, ?H2, ?H3, ?H4; by destruct o).
  - destruct Hop. split; [by left|done].
  - destruct Hop. split; [by right|done].
Qed.

Section fast_path.
Context `{Text} `{Functions} `{WallClock} (record row_values : row).

(** Condition on the operands of a comparison between a column and a literal. *)
Definition comparable (op : BinaryOperator) (name : string) (lit : value) : Prop :=
  value_number_wf lit /\
  match record !! name with
  | Some v => value_number_wf v /\ ~ (is_equality op /\ is_number v = true /\ is_number lit = true)
  | None => True
  end.

Lemma eval_column name v st :
  record !! name = Some v -> eval_expr record row_values (Identifier name) st = (Ok v, st).
Proof. intros Hv. simpl. rewrite andb_false_r. unfold eval_identifier. by rewrite Hv. Qed.

Lemma eval_literal v st : eval_expr record row_values (Literal v) st = (Ok v, st).
Proof. simpl. by rewrite andb_false_r. Qed.

Lemma eval_binary l op r lv rv st :
  (forall st, eval_expr record row_values l st = (Ok lv, st)) ->
  (forall st, eval_expr record row_values r st = (Ok rv, st)) ->
  eval_expr record row_values (BinaryOp l op r) st = (eval_binary_op_fallible lv op rv, st).
Proof.
  intros Hl Hr. cbn [eval_expr is_analytic_expr]. rewrite andb_false_r.
  unfold bind_to, mbind, M_bind. by rewrite Hl, Hr.
Qed.
End fast_path.

(** C27. The fast path of conditions agrees with general evaluation: for a column
    compared with a literal, on either side and with any operator, the direct
    comparison gives the same result, error or state change as evaluating the
    expression; except for equality and inequality of two numbers. *)
Theorem where_fast_path_agrees `{Text} `{Functions} `{WallClock} (record row_values : row) (name : string) (op : BinaryOperator)
    (lit : value) (st : rule_state) :
  comparable record op name lit ->
  let column_first := BinaryOp (Identifier name) op (Literal lit) in
  let literal_first := BinaryOp (Literal lit) op (Identifier name) in
  eval_bool_stateful_fallible record row_values column_first st = eval_bool_general record row_values column_first st /\
  eval_bool_stateful_fallible record row_values literal_first st = eval_bool_general record row_values literal_first st.
Proof.
  intros [Hlit Hval]. cbn [eval_bool_stateful_fallible]. destruct (record !! name) as [v|] eqn:Hv; [|done].
  destruct Hval as [Hwf Hop]. unfold eval_bool_general, ret.
  erewrite !eval_binary by (intros; by (apply eval_column || apply eval_literal)). split.
  - by rewrite fast_compare_agrees.
  - rewrite fast_compare_agrees; [done|done|done|]. intros (? & ? & ?). by apply Hop.
Qed.

#[local] Instance no_text : Text := {|
  value_to_string _ := "v"; map_to_json _ := "{}"; parse_rfc3339 _ := None;
|}.
#[local] Instance no_functions : Functions := {|
  eval_call_fallible _ _ := Ok VNull; eval_call _ _ := VNull; expr_debug _ := "";
|}.
#[local] Instance no_clock : WallClock := 0.

Lemma where_fast_path_agrees_witness :
  let record : row := {["t" := value_of_i64 21]} in
  let column_first := BinaryOp (Identifier "t") Gt (Literal (value_of_i64 20)) in
  let literal_first := BinaryOp (Literal (value_of_i64 20)) Gt (Identifier "t") in
  eval_bool_stateful_fallible record ∅ column_first ∅ = eval_bool_general record ∅ column_first ∅ /\
  eval_bool_stateful_fallible record ∅ literal_first ∅ = eval_bool_general record ∅ literal_first ∅.
Proof.
  apply where_fast_path_agrees. split; [by vm_compute|].
  assert (({["t" := value_of_i64 21]} : row) !! "t" = Some (value_of_i64 21)) as -> by (by vm_compute).
  split; [by vm_compute|]. by intros [[|] _].
Defined.

(** Equality of a column with a literal depends on how it is written: 2^-60 = 0,
    and 2^53 + 1 = 2^53, hold as a condition, by the fast path's tolerance on floats,
    but not when the same comparison is evaluated as an expression. *)
Theorem where_equality_depends_on_path :
  let cond lit := BinaryOp (Identifier "x") Eq (Literal lit) in
  let tiny : row := {["x" := value_of_f64 (f64_div (f64_of_Z 1) (f64_of_Z (2 ^ 60)))]} in
  let large : row := {["x" := value_of_i64 (2 ^ 53 + 1)]} in
  (eval_bool_stateful_fallible tiny ∅ (cond (value_of_i64 0)) ∅).1 = Ok true /\
  (eval_expr tiny ∅ (cond (value_of_i64 0)) ∅).1 = Ok (VBool false) /\
  (eval_bool_stateful_fallible large ∅ (cond (value_of_i64 (2 ^ 53))) ∅).1 = Ok true /\
  (eval_expr large ∅ (cond (value_of_i64 (2 ^ 53))) ∅).1 = Ok (VBool false).
Proof. by vm_compute. Qed.

(** ** The expression evaluator as the interface of the windows *)

#[export] Instance sql_expr_eval `{Text} `{Functions} `{WallClock} : ExprEval := {|
  eval_bool e r := unwrap_or false (eval_bool_stateful_fallible r ∅ e ∅).1;
  eval_val e r := unwrap_or VNull (eval_expr r ∅ e ∅).1;
  eval_bool_stateful e r st :=
    let '(o, st) := eval_bool_stateful_fallible r ∅ e st in (unwrap_or false o, st);
|}.
