(* ===== verification/Projection.v ===== *)
(** * Projection of a row ([eval_select_*] of [crates/rekuiper-sql/src/eval.rs])

    The fields of a [SELECT] on one record: the numeric fast path, wildcards, columns,
    [extract] and [changed_cols], general expressions with their error messages, [UNION]
    branches, and the order in which [WHERE] and the analytic functions are evaluated. *)

From Stdlib Require Import SpecFloat.
From stdpp Require Import pretty.
From S2P Require Import Prelude Rust Json Ast Engine Columns Values Numbers Aggregates Accumulators Analytic Eval.

Set Default Goal Selector "!".

(** ** Arithmetic on columns and literals in [f64] *)

Definition is_i64 (v : value) : bool := bool_decide (is_Some (as_i64 v)).

(** The value, and whether only [i64] operands and no division were met. *)
Fixpoint fast_f64 (record : row) (e : Expr) : option (f64 * bool) :=
  match e with
  | Literal v => f ← as_f64 v; Some (f, is_i64 v)
  | Identifier name => v ← record !! name; f ← as_f64 v; Some (f, is_i64 v)
  | BinaryOp l op r =>
      '(lf, li) ← fast_f64 record l;
      '(rf, ri) ← fast_f64 record r;
      match op with
      | Add => Some (f64_add lf rf, li && ri)
      | Sub => Some (f64_sub lf rf, li && ri)
      | Mul => Some (f64_mul lf rf, li && ri)
      | Div => if f64_eqb rf f64_zero then None else Some (f64_div lf rf, false)
      | _ => None
      end
  | _ => None
  end.

Definition is_fast_op (e : Expr) : bool :=
  match e with BinaryOp _ (Add | Sub | Mul | Div) _ => true | _ => false end.

Definition try_eval_numeric_fast (e : Expr) (record : row) : option value :=
  if is_fast_op e then
    '(res, all_i64) ← fast_f64 record e;
    if negb (is_finite res) then None
    else if all_i64 && f64_leb (f64_of_Z i64_min) res && f64_leb res (f64_of_Z i64_max) then None
    else Some (VNumber (Float res))
  else None.

(** ** One field *)

Definition is_call (name : string) (e : Expr) : bool :=
  match e with Call n _ => eq_ignore_ascii_case n name | _ => false end.

(** Insert all entries of an object that satisfy [keep]. *)
Definition insert_object (keep : string -> bool) (m : list (string * value)) (out : row) : row :=
  foldl (fun out kv => if keep kv.1 then <[kv.1 := kv.2]> out else out) out m.

Section projection.
Context `{Text} `{Functions} `{WallClock}.

Definition select_error (alias : string) (from : string) (field : Expr) (err : string) : string :=
  "run Select error: alias: " +:+ alias +:+ " expr: " +:+ to_ekuiper_string_qualified from field +:+
  " meet error, err:" +:+ err.

Definition map_err {A} (f : string -> string) (m : M A) : M A := fun st =>
  match m st with (Err e, st) => (Err (f e), st) | r => r end.

(** [eval_stateful_expr]: errors give null. *)
Definition eval_or_null (record row_values : row) (e : Expr) : M value := fun st =>
  match eval_expr record row_values e st with (Err _, st) => (Ok VNull, st) | r => r end.

(** The columns of [changed_cols], compared with the state of the field number [idx]. *)
Definition changed_cols_arg (record row_values : row) (idx : nat) (prefix : string) (ignore_null : bool)
    (out : row) (a : nat * Expr) : M row :=
  let key col := "changed_cols:" +:+ pretty (N.of_nat idx) +:+ ":" +:+ col +:+ ":" in
  match a.2 with
  | Wildcard => fun st =>
      let '(out, st) := foldl (changed_col_step ignore_null prefix key) (out, st)
        (filter (fun kv => kv.1 <> "__meta__") (map_to_list record)) in
      (Ok out, st)
  | e =>
      bind_to (eval_or_null record row_values e) (fun v st =>
        let '(out, st) := changed_col_step ignore_null prefix key (out, st) (column_name e a.1, v) in
        (Ok out, st))
  end.

(** A state- and error-passing fold. *)
Fixpoint foldM {A B} (f : B -> A -> M B) (b : B) (l : list A) : M B :=
  match l with
  | [] => ret (Ok b)
  | x :: r => bind_to (f b x) (fun b => foldM f b r)
  end.

Definition project_changed_cols (record row_values : row) (idx : nat) (args : list Expr) (out : row) : M row :=
  match args with
  | p :: n :: cols =>
      bind_to (eval_or_null record row_values p) (fun pv =>
      bind_to (eval_or_null record row_values n) (fun nv =>
      foldM (changed_cols_arg record row_values idx (default "" (as_str pv)) (default false (as_bool nv)))
        out (imap pair cols)))
  | _ => ret (Ok out)
  end.

(** The field number [idx], its output column [key] and its alias. *)
Definition project_field (stmt : SelectStmt) (record row_values : row) (out : row) (f : nat * (string * Expr)) : M row :=
  let '(idx, (key, field)) := f in
  let alias := field_alias stmt idx in
  let eval := eval_expr record row_values in
  match field with
  | Wildcard => ret (Ok (visible_columns record ∪ out))
  | WildcardModified except replace =>
      let kept k := negb (bool_decide (k ∈ except)) || bool_decide (k ∈ replace.*2) in
      foldM (fun out '(rep_expr, col) =>
               bind_to (map_err (select_error col (from stmt) rep_expr) (eval rep_expr))
                 (fun v => ret (Ok (<[col := v]> out))))
        (filter (fun kv => kept kv.1 = true) (visible_columns record) ∪ out) replace
  | Identifier name => ret (Ok (<[key := eval_identifier record name]> out))
  | FieldAccess parent leaf =>
      if bool_decide (leaf = "*") then
        bind_to (map_err (select_error (default "*" alias) (from stmt) field) (eval parent)) (fun parent_val =>
          ret (Ok (match parent_val, parent with
                   | VObject m, _ => insert_object visible m out
                   | _, Identifier p_name =>
                       let has_other_namespace :=
                         existsb (fun kv => negb (bool_decide (kv.1 = p_name)) && visible kv.1 &&
                                    match kv.2 with VObject _ => true | _ => false end) (map_to_list record) in
                       if has_other_namespace then out else visible_columns record ∪ out
                   | _, _ => out
                   end)))
      else
        bind_to (map_err (select_error (default leaf alias) (from stmt) field) (eval field))
          (fun v => ret (Ok (<[key := v]> out)))
  | Call name args =>
      if eq_ignore_ascii_case name "extract" then
        match args with
        | [] => ret (Ok out)
        | arg :: _ =>
            bind_to (map_err (select_error (default "extract" alias) (from stmt) field) (eval arg)) (fun v =>
              ret (Ok (match v with VObject m => insert_object (fun _ => true) m out | _ => out end)))
        end
      else if eq_ignore_ascii_case name "changed_cols" && (2 <=? length args)%nat then
        project_changed_cols record row_values idx args out
      else
        bind_to (map_err (fun err => match alias with
                                     | Some a => select_error a (from stmt) field err
                                     | None => "run Select error: expr: " +:+
                                         to_ekuiper_string_qualified (from stmt) field +:+ " meet error, err:" +:+ err
                                     end) (eval field))
          (fun v => ret (Ok (<[key := v]> out)))
  | _ =>
      bind_to (match try_eval_numeric_fast field record with
               | Some v => ret (Ok v)
               | None =>
                   map_err (fun err => match alias with
                                       | Some a => select_error a (from stmt) field err
                                       | None => "run Select error: expr: " +:+
                                           to_ekuiper_string_qualified (from stmt) field +:+ " meet error, err:" +:+ err
                                       end) (eval field)
               end)
        (fun v => ret (Ok (<[key := v]> out)))
  end.

(** ** Statements *)

(** A statement without its [UNION] branch. *)
Definition project_single (stmt : SelectStmt) (record row_values : row) : M row :=
  foldM (project_field stmt record row_values) ∅ (imap pair (named_fields stmt)).

(** [eval_select_stateful_with_names] with the statement's own names. *)
Fixpoint eval_select_stateful_fallible (stmt : SelectStmt) (record row_values : row) : M (option row) :=
  bind_to (project_single stmt record row_values) (fun left =>
    match set_op stmt with
    | Some (_, rhs) =>
        bind_to (eval_select_stateful_fallible rhs record row_values)
          (fun right => ret (Ok (merge_union_rows (Some left) right)))
    | None => ret (Ok (Some left))
    end).

(** [eval_select_stateful]: errors give no row. *)
Definition eval_select_stateful (stmt : SelectStmt) (record : row) (st : rule_state) : option row * rule_state :=
  let '(o, st) := eval_select_stateful_fallible stmt record ∅ st in (unwrap_or None o, st).

(** One analytic call, unless the row already has its value. *)
Definition advance_call (wrap : string -> string) (record : row) (row_values : row) (call : Expr) : M row :=
  match row_values !! expr_debug call with
  | Some _ => ret (Ok row_values)
  | None =>
      bind_to (map_err wrap (eval_expr record row_values call))
        (fun v => ret (Ok (<[expr_debug call := v]> row_values)))
  end.

(** The analytic calls of the fields, then of the condition. *)
Definition advance_analytic (stmt : SelectStmt) (condition : Expr) (record : row) : M row :=
  bind_to
    (foldM (fun row_values f =>
       foldM (advance_call (fun err =>
                "run Select error: " +:+
                (match field_alias stmt f.1 with Some a => "alias: " +:+ a +:+ " " | None => "" end) +:+
                "expr: " +:+ to_ekuiper_string_qualified (from stmt) f.2 +:+ " meet error, err:" +:+ err) record)
         row_values (collect_analytic_exprs f.2)) ∅ (imap pair (fields stmt)))
    (fun row_values =>
       foldM (advance_call (fun err => "run Where error: " +:+ err) record) row_values
         (collect_analytic_exprs condition)).

Definition eval_select_stateless_fast (stmt : SelectStmt) (has_analytic : bool) (record : row) : M (option row) :=
  match where_clause stmt with
  | None => eval_select_stateful_fallible stmt record ∅
  | Some condition =>
      if negb has_analytic then
        bind_to (eval_bool_stateful_fallible record ∅ condition) (fun b =>
          if b then eval_select_stateful_fallible stmt record ∅ else ret (Ok None))
      else
        bind_to (advance_analytic stmt condition record) (fun row_values =>
        bind_to (eval_bool_stateful_fallible record row_values condition) (fun b =>
          if b then eval_select_stateful_fallible stmt record row_values else ret (Ok None)))
  end.

Definition eval_select_filtered_stateful_fallible (stmt : SelectStmt) (record : row) : M (option row) :=
  eval_select_stateless_fast stmt (stmt_has_analytic stmt) record.

(** [eval_select]: every branch filters the record itself and starts from a fresh state. *)
Fixpoint eval_select_fresh (stmt : SelectStmt) (record : row) : option row :=
  let own :=
    if match where_clause stmt with
       | Some cond => unwrap_or false (eval_bool_stateful_fallible record ∅ cond ∅).1
       | None => true
       end
    then match (project_single stmt record ∅ ∅).1 with Ok r => Some r | _ => None end
    else None in
  match set_op stmt with
  | Some (_, rhs) => merge_union_rows own (eval_select_fresh rhs record)
  | None => own
  end.

(** ** Several rows: [unnest] *)

Definition unnest_row (base : row) (placeholder : string) (item : value) : row :=
  let r := delete placeholder base in
  match item with
  | VObject m => insert_object (fun _ => true) m r
  | scalar => <[placeholder := scalar]> r
  end.

Definition eval_own_rows_multi (stmt : SelectStmt) (record : row) (st : rule_state) : list row * rule_state :=
  let '(o, st) := project_single stmt record ∅ st in
  match o with
  | Ok base =>
      match List.find (fun f => is_call "unnest" f.2.2 || is_call "extract" f.2.2) (imap pair (named_fields stmt)) with
      | Some (idx, (placeholder, Call _ args)) =>
          let '(items, st) :=
            match args with
            | arg :: _ => let '(o, st) := eval_expr record ∅ arg st in (unwrap_or VNull o, st)
            | [] => (VNull, st)
            end in
          match items with
          | VArray items => (unnest_row base placeholder <$> items, st)
          | _ => ([base], st)
          end
      | _ => ([base], st)
      end
  | _ => ([], st)
  end.

(** Rows of a [HashMap] compare by their contents. *)
Definition row_eq (a b : row) : bool :=
  value_eq (row_to_value a) (row_to_value b).

Fixpoint eval_select_stateful_multi (stmt : SelectStmt) (record : row) (st : rule_state) : list row * rule_state :=
  let '(rows, st) := eval_own_rows_multi stmt record st in
  match set_op stmt with
  | Some (op, rhs) =>
      let '(rrows, st) := eval_select_stateful_multi rhs record st in
      (match op with
       | Union => foldl (fun rows r => if existsb (row_eq r) rows then rows else rows ++ [r]) rows rrows
       | UnionAll => rows ++ rrows
       end, st)
  | None => (rows, st)
  end.
End projection.
