(* ===== verification/ProjectionFacts.v ===== *)
(** * Properties of the projection

    Analytic functions advance exactly once per row, before [WHERE]; the arithmetic fast
    path; [UNION] branches. *)

From Stdlib Require Import SpecFloat.
From S2P Require Import Prelude Rust Json Ast Engine Columns Values Numbers Aggregates Accumulators Analytic.
From S2P Require Import Eval Projection.

Set Default Goal Selector "!".

(** ** Computations that leave the rule state alone *)

Definition pure {A} (m : M A) : Prop := forall st, (m st).2 = st.

Create HintDb pure.

Lemma pure_ret {A} (x : outcome A) : pure (ret x).
Proof. done. Qed.

Lemma pure_bind {A B} (m : M A) (f : A -> M B) : pure m -> (forall a, pure (f a)) -> pure (bind_to m f).
Proof.
  intros Hm Hf st. unfold bind_to, mbind, M_bind. specialize (Hm st).
  destruct (m st) as [[a| |] st']; simpl in Hm; subst; [apply Hf|done|done].
Qed.

Lemma pure_map_err {A} f (m : M A) : pure m -> pure (map_err f m).
Proof. intros Hm st. unfold map_err. specialize (Hm st). by destruct (m st) as [[]]. Qed.

Lemma pure_eval_all (f : Expr -> M value) args : Forall (fun a => pure (f a)) args -> pure (eval_all f args).
Proof.
  induction 1 as [|a args Ha _ IH]; simpl; [apply pure_ret|].
  apply pure_bind; [done|]. intros v. apply pure_bind; [done|]. intros vs. apply pure_ret.
Qed.

Lemma pure_foldM {A B} (f : B -> A -> M B) l : forall b, (forall b x, x ∈ l -> pure (f b x)) -> pure (foldM f b l).
Proof.
  induction l as [|x l IH]; intros b Hf; simpl; [apply pure_ret|].
  apply pure_bind; [apply Hf; left|]. intros b'. apply IH. intros. apply Hf. by right.
Qed.

#[export] Hint Resolve pure_ret pure_bind pure_map_err pure_eval_all : pure.

(** ** Expressions whose analytic calls are known *)

(** Apart from the analytic calls, only [changed_cols] writes to the rule state; [OVER]
    applies to a call, as the parser produces it. *)
Fixpoint quiet (e : Expr) : bool :=
  let opt o := match o with Some x => quiet x | None => true end in
  match e with
  | Call name args => negb (bool_decide (to_ascii_lowercase name = "changed_cols")) && forallb quiet args
  | Over call partition_by when =>
      match call with Call _ _ => true | _ => false end && quiet call && opt partition_by && opt when
  | BinaryOp l _ r => quiet l && quiet r
  | UnaryOp _ x | IsNull x _ | FieldAccess x _ => quiet x
  | Index base index => quiet base && quiet index
  | Slice base lo hi => quiet base && opt lo && opt hi
  | Between x low high _ => quiet x && quiet low && quiet high
  | InList x items _ => quiet x && forallb quiet items
  | Case operand when_clauses else_clause =>
      opt operand && forallb (fun '(c, v) => quiet c && quiet v) when_clauses && opt else_clause
  | WildcardModified _ replace => forallb (fun '(x, _) => quiet x) replace
  | Wildcard | Literal _ | Identifier _ => true
  end.

Section cached.
Context `{Text} `{Functions} `{WallClock} (record row_values : row).

(** Every analytic call inside the expression has its value. *)
Definition cached (e : Expr) : Prop :=
  forall a, a ∈ collect_analytic_exprs e -> is_Some (row_values !! expr_debug a).

Lemma call_step_pure rec evalv e name args pkey skip :
  is_analytic_expr (Call name args) = false -> to_ascii_lowercase name <> "changed_cols" ->
  pure (eval_all rec args) -> pure (call_step rec evalv record e name args pkey skip).
Proof.
  intros Ha Hc Hargs. simpl in Ha. apply orb_false_iff in Ha as [Hacc Hl].
  apply bool_decide_eq_false in Hl. rewrite !not_elem_of_cons in Hl. destruct Hl as (?&?&?&?&?&?&?&?&_).
  unfold call_step. rewrite Hacc.
  rewrite !bool_decide_false by (try done; intros [|]; done). simpl.
  do 2 (case_bool_decide; [done|]). destruct (eval_context_call _ _ _ _); [apply pure_ret|].
  case_bool_decide; auto with pure.
Qed.

(** A cached analytic expression is read, not evaluated. *)
Lemma analytic_is_cached e :
  cached e -> is_analytic_expr e = true ->
  exists v, (if negb (bool_decide (row_values = ∅)) && is_analytic_expr e
             then row_values !! expr_debug e else None) = Some v.
Proof.
  intros Hc Ha. assert (Hin : e ∈ collect_analytic_exprs e).
  { destruct e; try done; cbn [collect_analytic_exprs]; rewrite Ha; apply elem_of_app; right; left. }
  destruct (Hc e Hin) as [v Hv]. exists v. rewrite Ha, bool_decide_false; [done|].
  intros ->. by rewrite lookup_empty in Hv.
Qed.

Lemma cached_app (l1 l2 : list Expr) :
  (forall a, a ∈ l1 ++ l2 -> is_Some (row_values !! expr_debug a)) ->
  (forall a, a ∈ l1 -> is_Some (row_values !! expr_debug a)) /\
  (forall a, a ∈ l2 -> is_Some (row_values !! expr_debug a)).
Proof. intros Hc. split; intros a Ha; apply Hc, elem_of_app; auto. Qed.

Lemma cached_concat {A} (f : A -> list Expr) (l : list A) x :
  (forall a, a ∈ concat (map f l) -> is_Some (row_values !! expr_debug a)) -> x ∈ l ->
  forall a, a ∈ f x -> is_Some (row_values !! expr_debug a).
Proof.
  intros Hc Hx a Ha. apply Hc. induction l as [|y l IH]; [by apply not_elem_of_nil in Hx|].
  simpl. apply elem_of_app. apply elem_of_cons in Hx as [->|Hx]; [by left|right]. apply IH; [|done].
  intros b Hb. apply Hc. simpl. apply elem_of_app. by right.
Qed.
End cached.

Section eval_pure.
Context `{Text} `{Functions} `{WallClock} (record row_values : row).
#[local] Abbreviation known := (cached row_values).

Definition settled (e : Expr) : Prop := quiet e = true -> known e -> pure (eval_expr record row_values e).

Ltac split_known H :=
  unfold cached in H; cbn [collect_analytic_exprs] in H;
  repeat match goal with
  | K : forall a, a ∈ _ ++ _ -> is_Some _ |- _ =>
      apply cached_app in K; let K2 := fresh "K" in destruct K as [K K2]
  end.

(** The value of a settled optional part. *)
Lemma pure_opt {A} (o : option Expr) (f : value -> outcome A) (d : outcome A) :
  on_option settled o -> match o with Some x => quiet x | None => true end = true ->
  (forall a, a ∈ match o with Some x => collect_analytic_exprs x | None => [] end ->
     is_Some (row_values !! expr_debug a)) ->
  pure (match o with Some x => bind_to (eval_expr record row_values x) (fun v => ret (f v)) | None => ret d end).
Proof. intros Ho Hq Hk. destruct o as [x|]; [|done]. apply pure_bind; [exact (Ho x eq_refl Hq Hk)|done]. Qed.

Lemma settled_args args :
  Forall settled args -> forallb quiet args = true ->
  (forall a, a ∈ concat (map collect_analytic_exprs args) -> is_Some (row_values !! expr_debug a)) ->
  pure (eval_all (eval_expr record row_values) args).
Proof.
  intros Hs Hq Hk. apply pure_eval_all. apply list.Forall_forall. intros x Hx.
  apply (proj1 (list.Forall_forall _ _) Hs x Hx).
  - rewrite forallb_forall in Hq. apply Hq. by apply list_elem_of_In.
  - intros a. by apply (cached_concat row_values collect_analytic_exprs args x).
Qed.

Lemma settled_call name args :
  Forall settled args -> settled (Call name args).
Proof.
  intros Hs Hq Hk. cbn [eval_expr]. destruct (is_analytic_expr (Call name args)) eqn:Ha.
  { destruct (analytic_is_cached row_values _ Hk Ha) as [v Hv]. rewrite Ha in Hv. rewrite Hv. done. }
  rewrite andb_false_r. simpl in Hq. apply andb_true_iff in Hq as [Hn Hq].
  rewrite negb_true_iff, bool_decide_eq_false in Hn. split_known Hk.
  apply call_step_pure; [done|done|]. by apply settled_args.
Qed.

Lemma settled_over call part when :
  settled call -> Forall settled (match call with Call _ args => args | _ => [] end) ->
  on_option settled part -> on_option settled when -> settled (Over call part when).
Proof.
  intros Hs Hargs Hp Hw Hq Hk. cbn [eval_expr]. destruct (is_analytic_expr (Over call part when)) eqn:Ha.
  { destruct (analytic_is_cached row_values _ Hk Ha) as [v Hv]. rewrite Ha in Hv. rewrite Hv. done. }
  rewrite andb_false_r. cbn [quiet] in Hq. rewrite !andb_true_iff in Hq. destruct Hq as [[[Hc Hq] Hqp] Hqw].
  destruct call as [| | | | | | | | | | | |name args| |]; try done. split_known Hk.
  apply pure_bind; [by apply pure_opt|]. intros pkey. apply pure_bind; [by apply pure_opt|]. intros skip.
  simpl in Hq. apply andb_true_iff in Hq as [Hn Hq]. rewrite negb_true_iff, bool_decide_eq_false in Hn.
  apply call_step_pure; [done|done|]. by apply settled_args.
Qed.

Lemma settled_in x items negated : settled x -> Forall settled items -> settled (InList x items negated).
Proof.
  intros Hx Hs Hq Hk. cbn [eval_expr is_analytic_expr]. rewrite andb_false_r.
  simpl in Hq. apply andb_true_iff in Hq as [Hqx Hq]. split_known Hk.
  apply pure_bind; [by apply Hx|]. intros v. apply pure_bind; [|done].
  assert (Kc : forall a, a ∈ concat (map collect_analytic_exprs items) -> is_Some (row_values !! expr_debug a)) by done.
  clear -Hs Hq Kc. induction items as [|i items IH]; [done|]. apply Forall_cons_1 in Hs as [Hi Hs].
  simpl in Hq. apply andb_true_iff in Hq as [Hqi Hq]. simpl in Kc. apply cached_app in Kc as [Ki Kc].
  apply pure_bind; [by apply Hi|]. intros iv. destruct (values_equal v iv); [done|]. by apply IH.
Qed.

Lemma settled_clauses (test : value -> bool) (otherwise : M value) clauses :
  Forall (fun c => settled c.1 /\ settled c.2) clauses ->
  forallb (fun '(c, v) => quiet c && quiet v) clauses = true ->
  (forall a, a ∈ concat (map (fun '(c, v) => collect_analytic_exprs c ++ collect_analytic_exprs v) clauses) ->
     is_Some (row_values !! expr_debug a)) -> pure otherwise ->
  pure ((fix go clauses :=
           match clauses with
           | [] => otherwise
           | (w, t) :: rest =>
               bind_to (eval_expr record row_values w)
                 (fun wv => if test wv then eval_expr record row_values t else go rest)
           end) clauses).
Proof.
  intros Hs Hq Hk Ho. induction clauses as [|[w t] clauses IH]; [done|].
  apply Forall_cons_1 in Hs as [[Hw Ht] Hs]. simpl in Hq. rewrite !andb_true_iff in Hq.
  destruct Hq as [[Hqw Hqt] Hq]. simpl in Hk. apply cached_app in Hk as [Hk1 Hk2].
  apply cached_app in Hk1 as [Hk1 Hk3].
  apply pure_bind; [by apply Hw|]. intros wv. destruct (test wv); [by apply Ht|by apply IH].
Qed.

Lemma settled_case operand clauses other :
  on_option settled operand -> Forall (fun c => settled c.1 /\ settled c.2) clauses ->
  on_option settled other -> settled (Case operand clauses other).
Proof.
  intros Ho Hs He Hq Hk. cbn [eval_expr is_analytic_expr]. rewrite andb_false_r.
  cbn [quiet] in Hq. rewrite !andb_true_iff in Hq. destruct Hq as [[Hqo Hqc] Hqe]. split_known Hk.
  assert (Hoth : pure (match other with Some x => eval_expr record row_values x | None => ret (Ok VNull) end)).
  { destruct other as [x|]; [by apply (He x)|done]. }
  destruct operand as [op|].
  - apply pure_bind; [by apply (Ho op)|]. intros ov. by apply (settled_clauses (values_equal ov)).
  - by apply (settled_clauses (fun wv => bool_decide (wv = VBool true))).
Qed.

Ltac settle :=
  intros Hq Hk; cbn [eval_expr is_analytic_expr]; rewrite andb_false_r;
  cbn [quiet] in Hq; rewrite ?andb_true_iff in Hq; split_known Hk.

(** Evaluating an expression whose analytic calls are cached does not touch the state. *)
Lemma eval_cached_pure e : settled e /\ Forall settled (match e with Call _ args => args | _ => [] end).
Proof.
  induction e as [| except replace _ | | |l op r [Hl _] [Hr _]|op x [Hx _]|x low high n [Hx _] [Hlo _] [Hhi _]
    |x items n [Hx _] Hi|x n [Hx _]|parent field [Hp _]|base index [Hb _] [Hi _]|base lo hi [Hb _] Hlo Hhi
    |name args Ha|operand clauses other Ho Hc He|call part when [Hc Hargs] Hp Hw] using Expr_ind';
    try (split; [|constructor]).
  1-4: by settle.
  - settle. destruct Hq. apply pure_bind; [by apply Hl|]. intros lv. apply pure_bind; [by apply Hr|done].
  - settle. apply pure_bind; [by apply Hx|done].
  - settle. destruct Hq as [[? ?] ?]. apply pure_bind; [by apply Hx|]. intros v.
    apply pure_bind; [by apply Hlo|]. intros lv. apply pure_bind; [by apply Hhi|done].
  - apply settled_in; [done|]. eapply list.Forall_impl; [exact Hi|by intros ? []].
  - settle. apply pure_bind; [by apply Hx|done].
  - settle. apply pure_bind; [by apply Hp|done].
  - settle. destruct Hq. apply pure_bind; [by apply Hb|]. intros bv. apply pure_bind; [by apply Hi|done].
  - settle. destruct Hq as [[? ?] ?]. apply pure_bind; [by apply Hb|]. intros bv.
    apply pure_bind; [apply pure_opt; [by intros ? [? _]%Hlo|done|done]|]. intros lv.
    apply pure_bind; [apply pure_opt; [by intros ? [? _]%Hhi|done|done]|done].
  - assert (Hs : Forall settled args) by (eapply list.Forall_impl; [exact Ha|by intros ? []]).
    split; [by apply settled_call|done].
  - apply settled_case.
    + by intros ? [? _]%Ho.
    + eapply list.Forall_impl; [exact Hc|]. intros ? [[] []]. done.
    + by intros ? [? _]%He.
  - apply settled_over; [done|done|by intros ? [? _]%Hp|by intros ? [? _]%Hw].
Qed.
End eval_pure.

(** ** The projection of a row whose analytic calls are known *)

Section project_pure.
Context `{Text} `{Functions} `{WallClock} (record row_values : row).

Lemma cached_pure e : quiet e = true -> cached row_values e -> pure (eval_expr record row_values e).
Proof. apply eval_cached_pure. Qed.

Lemma cached_arg name args a : cached row_values (Call name args) -> a ∈ args -> cached row_values a.
Proof.
  intros Hk Ha. unfold cached in Hk. cbn [collect_analytic_exprs] in Hk. apply cached_app in Hk as [Hk _].
  intros x. by apply (cached_concat row_values collect_analytic_exprs args a).
Qed.

Lemma project_call_pure stmt out idx key name args :
  quiet (Call name args) = true -> cached row_values (Call name args) ->
  pure (project_field stmt record row_values out (idx, (key, Call name args))).
Proof.
  intros Hq Hk. pose proof Hq as Hq'. simpl in Hq'. apply andb_true_iff in Hq' as [Hn Hargs].
  rewrite negb_true_iff, bool_decide_eq_false in Hn. unfold project_field.
  destruct (eq_ignore_ascii_case name "extract").
  - destruct args as [|a args]; [done|]. simpl in Hargs. apply andb_true_iff in Hargs as [Ha _].
    apply pure_bind; [|done]. apply pure_map_err, cached_pure; [done|].
    apply (cached_arg name (a :: args)); [done|left].
  - unfold eq_ignore_ascii_case. rewrite bool_decide_false by done. cbn [andb].
    apply pure_bind; [|done]. by apply pure_map_err, cached_pure.
Qed.

Lemma project_field_pure stmt out idx key field :
  quiet field = true -> cached row_values field ->
  pure (project_field stmt record row_values out (idx, (key, field))).
Proof.
  intros Hq Hk. destruct field; try done; try (by apply project_call_pure);
    try (unfold project_field; apply pure_bind; [|done];
         destruct (try_eval_numeric_fast _ _); [done|]; by apply pure_map_err, cached_pure).
  - apply pure_foldM. intros out' [e col] He. apply pure_bind; [|done]. apply pure_map_err, cached_pure.
    + simpl in Hq. rewrite forallb_forall in Hq. apply (Hq (e, col)). by apply list_elem_of_In.
    + unfold cached in Hk. cbn [collect_analytic_exprs] in Hk. apply cached_app in Hk as [Hk _]. intros a.
      by apply (cached_concat row_values (fun '(x, _) => collect_analytic_exprs x) replace (e, col)).
  - unfold project_field. case_bool_decide; (apply pure_bind; [|done]); apply pure_map_err, cached_pure; try done.
    unfold cached in Hk. cbn [collect_analytic_exprs] in Hk. by apply cached_app in Hk as [Hk _].
Qed.

Lemma project_single_pure stmt :
  Forall (fun f => quiet f = true /\ cached row_values f) (fields stmt) -> pure (project_single stmt record row_values).
Proof.
  intros Hf. apply pure_foldM. intros out [idx [key field]] Hin. unfold named_fields in Hin.
  apply list_elem_of_lookup in Hin as [i Hi]. rewrite !list_lookup_imap in Hi.
  destruct (fields stmt !! i) as [f|] eqn:E; simplify_eq/=.
  destruct (proj1 (list.Forall_lookup _ _) Hf idx field E). by apply project_field_pure.
Qed.

Lemma eval_bool_pure cond :
  quiet cond = true -> cached row_values cond -> pure (eval_bool_stateful_fallible record row_values cond).
Proof.
  intros Hq Hk. assert (Hg : pure (eval_bool_general record row_values cond)).
  { intros st. unfold eval_bool_general. pose proof (cached_pure cond Hq Hk st) as Hp.
    by destruct (eval_expr record row_values cond st). }
  unfold eval_bool_stateful_fallible. repeat (split_match; try done).
Qed.
End project_pure.

(** ** The values of the analytic calls of a row *)

Section advance.
Context `{Text} `{Functions} `{WallClock}.

Lemma bind_to_ok {A B} (m : M A) (f : A -> M B) st b st' :
  bind_to m f st = (Ok b, st') -> exists a st1, m st = (Ok a, st1) /\ f a st1 = (Ok b, st').
Proof.
  unfold bind_to, mbind, M_bind. destruct (m st) as [[a| |] st1]; [|done|done]. intros Hf. by exists a, st1.
Qed.

Lemma advance_call_ok wrap record rv call st rv' st' :
  advance_call wrap record rv call st = (Ok rv', st') -> rv ⊆ rv' /\ is_Some (rv' !! expr_debug call).
Proof.
  unfold advance_call. destruct (rv !! expr_debug call) as [v|] eqn:E.
  - intros [= <- <-]. by rewrite E.
  - intros (v & st1 & _ & [= <- <-])%bind_to_ok. split; [by apply insert_subseteq|].
    rewrite lookup_insert_eq. by eexists.
Qed.

Lemma advance_calls_ok wrap record calls : forall rv st rv' st',
  foldM (advance_call wrap record) rv calls st = (Ok rv', st') ->
  rv ⊆ rv' /\ forall a, a ∈ calls -> is_Some (rv' !! expr_debug a).
Proof.
  induction calls as [|c calls IH]; intros rv st rv' st' Hf; simpl in Hf.
  - injection Hf as <- <-. split; [done|]. by intros a ?%not_elem_of_nil.
  - apply bind_to_ok in Hf as (rv1 & st1 & Hfst & Hsnd). apply advance_call_ok in Hfst as [Hs1 [v Hv]].
    apply IH in Hsnd as [Hs2 Hsnd]. split; [by etrans|]. intros a [->|Ha]%elem_of_cons; [|auto].
    exists v. by eapply lookup_weaken.
Qed.

Lemma advance_fields_ok (wrap : nat * Expr -> string -> string) record l : forall rv st rv' st',
  foldM (fun rv f => foldM (advance_call (wrap f) record) rv (collect_analytic_exprs f.2)) rv l st = (Ok rv', st') ->
  rv ⊆ rv' /\ forall f, f ∈ l -> cached rv' f.2.
Proof.
  induction l as [|f l IH]; intros rv st rv' st' Hf; simpl in Hf.
  - injection Hf as <- <-. split; [done|]. by intros g ?%not_elem_of_nil.
  - apply bind_to_ok in Hf as (rv1 & st1 & Hfst & Hsnd). apply advance_calls_ok in Hfst as [Hs1 Hfst].
    apply IH in Hsnd as [Hs2 Hsnd]. split; [by etrans|]. intros g [->|Hg]%elem_of_cons; [|auto].
    intros a Ha. destruct (Hfst a Ha) as [v Hv]. exists v. by eapply lookup_weaken.
Qed.

Lemma advance_analytic_ok stmt cond record st rv st1 :
  advance_analytic stmt cond record st = (Ok rv, st1) ->
  Forall (cached rv) (fields stmt) /\ cached rv cond.
Proof.
  intros (rv0 & st0 & Hfst & Hsnd)%bind_to_ok. apply (advance_fields_ok (fun f err =>
                "run Select error: " +:+
                (match field_alias stmt f.1 with Some a => "alias: " +:+ a +:+ " " | None => "" end) +:+
                "expr: " +:+ to_ekuiper_string_qualified (from stmt) f.2 +:+ " meet error, err:" +:+ err)) in Hfst as [_ Hfst].
  apply advance_calls_ok in Hsnd as [Hs Hsnd]. split; [|done].
  apply list.Forall_lookup. intros i f Hi a Ha. destruct (Hfst (i, f)) with (a := a) as [v Hv]; [|done|].
  - apply list_elem_of_lookup. exists i. by rewrite list_lookup_imap, Hi.
  - exists v. by eapply lookup_weaken.
Qed.
End advance.

(** Analytic functions advance once per row, before [WHERE].  In a statement whose only
    stateful functions are the analytic ones, once their calls have been evaluated (each
    distinct call once, fields first, then the condition), neither the condition nor the
    projection changes the rule state again, whether the row passes [WHERE] or not. *)
Theorem analytic_advance_once `{Text} `{Functions} `{WallClock} (stmt : SelectStmt) (condition : Expr) (record : row)
    (st st1 : rule_state) (row_values : row) :
  where_clause stmt = Some condition -> set_op stmt = None ->
  quiet condition = true -> Forall (fun f => quiet f = true) (fields stmt) ->
  advance_analytic stmt condition record st = (Ok row_values, st1) ->
  (eval_select_stateless_fast stmt true record st).2 = st1.
Proof.
  intros Hw Hs Hq Hf Ha. destruct (advance_analytic_ok _ _ _ _ _ _ Ha) as [Hcf Hcc].
  unfold eval_select_stateless_fast. rewrite Hw. simpl. unfold bind_to at 1, mbind, M_bind. rewrite Ha.
  apply (pure_bind (eval_bool_stateful_fallible record row_values condition)); [by apply eval_bool_pure|].
  intros [|]; [|done]. destruct stmt. simpl in Hs. subst. cbn [eval_select_stateful_fallible].
  apply pure_bind; [|done]. apply project_single_pure. simpl in *.
  apply list.Forall_lookup. intros i f Hi.
  exact (conj (list.Forall_lookup_1 _ _ i f Hf Hi) (list.Forall_lookup_1 _ _ i f Hcf Hi)).
Qed.

(** ** Samples and counterexamples *)

Module Sample.
#[export] Instance sample_text : Text := {|
  value_to_string _ := "v"; map_to_json _ := "{}"; parse_rfc3339 _ := None;
|}.
#[export] Instance sample_functions : Functions := {|
  eval_call_fallible _ _ := Ok VNull; eval_call _ _ := VNull;
  expr_debug e := to_ekuiper_string e;
|}.
#[export] Instance sample_clock : WallClock := 0.

Definition select_from (fields : list Expr) (cond : option Expr) (other : option (SetOp * SelectStmt)) : SelectStmt :=
  mkSelect fields [] "s" None [] cond [] None None None None None [] None other.
End Sample.
Import Sample.

Lemma analytic_advance_once_witness :
  let count := Call "acc_count" [Identifier "x"] in
  let stmt := select_from [count; Identifier "x"] (Some (BinaryOp count Gt (Literal (value_of_i64 5)))) None in
  let record : row := {["x" := value_of_i64 1]} in
  (eval_select_stateless_fast stmt true record ∅).2 =
    {["acc_count:" +:+ to_ekuiper_string count +:+ ":" := value_of_i64 1]}.
Proof.
  intros count stmt record.
  apply (analytic_advance_once stmt (BinaryOp count Gt (Literal (value_of_i64 5))) record ∅ _
           {[to_ekuiper_string count := value_of_i64 1]}); try done.
  by repeat constructor.
Defined.

(** The quotient of two integer columns depends on where it is written: 7 / 2 is 3.5 as
    a field of the projection, by the fast path, and 3 in a condition or inside another
    expression. *)
Theorem select_division_depends_on_context :
  let quotient := BinaryOp (Identifier "a") Div (Identifier "b") in
  let record : row := {["a" := value_of_i64 7; "b" := value_of_i64 2]} in
  let half := f64_div (f64_of_Z 7) (f64_of_Z 2) in
  (project_single (select_from [quotient] None None) record ∅ ∅).1 = Ok {["kuiper_field_0" := VNumber (Float half)]} /\
  (project_single (select_from [UnaryOp Neg quotient] None None) record ∅ ∅).1
    = Ok {["kuiper_field_0" := value_of_i64 (-3)]} /\
  (eval_bool_stateful_fallible record ∅ (BinaryOp quotient Eq (Literal (value_of_i64 3))) ∅).1 = Ok true.
Proof. by vm_compute. Qed.

(** In a running rule the [WHERE] of the right branch of a [UNION] is ignored: the
    row-by-row evaluation applies the condition of the first branch only, although
    [eval_select] filters each branch by its own condition. *)
Theorem union_right_where_ignored :
  let never := select_from [Identifier "b"] (Some (Literal (VBool false))) None in
  let stmt := select_from [Identifier "a"] None (Some (UnionAll, never)) in
  let record : row := {["a" := value_of_i64 1; "b" := value_of_i64 2]} in
  (eval_select_filtered_stateful_fallible stmt record ∅).1 = Ok (Some {["a" := value_of_i64 1; "b" := value_of_i64 2]}) /\
  eval_select_fresh stmt record = Some {["a" := value_of_i64 1]}.
Proof. by vm_compute. Qed.
