(* ===== verification/Pipeline.v ===== *)
(** * The evaluator behind the rule loops ([eval_agg_expr_stateful] of
      [crates/rekuiper-sql/src/eval.rs]; the composition of [Eval], [Projection],
      [GroupedWindow] and [Joins])

    Expressions over the rows of a group, and the instances that discharge the interfaces
    the windows are proved against: [GroupExprs] by the aggregate-aware evaluation and the
    projection, [Evaluator] by the window evaluation and the window join. *)

From S2P Require Import Prelude Rust Json Ast Engine Columns Values Numbers Aggregates Accumulators Analytic.
From S2P Require Import BatchAggregates SlidingAcc Windows GroupedWindow Joins Eval Projection.

Set Default Goal Selector "!".

(** ** State passing without errors *)

Definition SM (A : Type) : Type := rule_state -> A * rule_state.
Definition sret {A} (a : A) : SM A := fun st => (a, st).
Definition sbind {A B} (m : SM A) (f : A -> SM B) : SM B := fun st => let '(a, st) := m st in f a st.

Definition map_values (f : Expr -> SM value) : list Expr -> SM (list value) :=
  fix go l :=
    match l with
    | [] => sret []
    | x :: r => sbind (f x) (fun v => sbind (go r) (fun vs => sret (v :: vs)))
    end.

Section agg_expr.
Context `{Text} `{Functions} `{WallClock}.

(** A column of the output row built so far, or of the first record. *)
Definition agg_identifier (records : list row) (output : row) (name : string) : value :=
  match output !! name with
  | Some v => v
  | None => default VNull (rec ← list.head records; (rec : row) !! name)
  end.

Definition on_first_record (records : list row) (e : Expr) : value :=
  match list.head records with Some rec => eval_val e rec | None => VNull end.

Definition agg_field (records : list row) (output : row) (e : Expr) (leaf : string) : value :=
  match output !! leaf, output !! to_ekuiper_string e with
  | Some v, _ => v
  | None, Some v => v
  | None, None => on_first_record records e
  end.

Fixpoint eval_agg_expr_stateful (records : list row) (output : row) (partition_key : string) (e : Expr) {struct e}
    : SM value :=
  let eval := eval_agg_expr_stateful records output partition_key in
  match e with
  | Wildcard | WildcardModified _ _ => sret VNull
  | Literal v => sret v
  | Identifier name => sret (agg_identifier records output name)
  | FieldAccess _ leaf => sret (agg_field records output e leaf)
  | Index _ _ | Slice _ _ _ => sret (on_first_record records e)
  | Call name args =>
      let lowered := to_ascii_lowercase name in
      if is_aggregate_call name then eval_aggregate_call name args records
      else
        match (first ← list.head records; eval_context_call eval_val name args first) with
        | Some v => sret v
        | None =>
            if bool_decide (lowered = "had_changed" \/ lowered = "changed_col") then
              sbind (map_values eval args) (fun vals => eval_changed lowered vals (to_ekuiper_string e) partition_key)
            else if bool_decide (lowered = "changed_cols") && (2 <=? length args)%nat then
              sbind (map_values eval args) (fun vals => changed_cols (to_ekuiper_string e) partition_key args vals)
            else sbind (map_values eval args) (fun vals => sret (eval_call name vals))
        end
  | Over call _ _ => eval call
  | BinaryOp l op r =>
      sbind (eval l) (fun lv => sbind (eval r) (fun rv => sret (unwrap_or VNull (eval_binary_op_fallible lv op rv))))
  | UnaryOp op x => sbind (eval x) (fun v => sret (eval_unary_op op v))
  | Between x low high negated =>
      sbind (eval x) (fun v => sbind (eval low) (fun l => sbind (eval high) (fun h =>
        sret (unwrap_or VNull (eval_between_fallible v l h negated)))))
  | InList x items negated =>
      sbind (eval x) (fun v =>
      sbind ((fix go items :=
                match items with
                | [] => sret false
                | i :: rest => sbind (eval i) (fun iv => if values_equal v iv then sret true else go rest)
                end) items)
        (fun matched => sret (VBool (xorb negated matched))))
  | IsNull x negated => sbind (eval x) (fun v => sret (VBool (xorb negated (is_null v))))
  | Case operand when_clauses else_clause =>
      let otherwise := match else_clause with Some x => eval x | None => sret VNull end in
      match operand with
      | Some op =>
          sbind (eval op) (fun op_val =>
            (fix go clauses :=
               match clauses with
               | [] => otherwise
               | (w, t) :: rest => sbind (eval w) (fun wv => if values_equal op_val wv then eval t else go rest)
               end) when_clauses)
      | None =>
          (fix go clauses :=
             match clauses with
             | [] => otherwise
             | (w, t) :: rest => sbind (eval w) (fun wv => if bool_decide (wv = VBool true) then eval t else go rest)
             end) when_clauses
      end
  end.

(** ** The interfaces *)

#[export] Instance sql_group_exprs : GroupExprs := {|
  eval_agg_expr e records output partition_key := eval_agg_expr_stateful records output partition_key e;
  eval_select := eval_select_stateful;
|}.

Context `{ExternalTables} (tm : TableManager) (source_configs : gmap string value).

Definition sql_evaluator : Evaluator := {|
  expr_eval := sql_expr_eval;
  eval_window prefiltered stmt rows st :=
    if prefiltered : bool then eval_window_filtered stmt rows st else eval_window_rows stmt rows st;
  eval_window_join := eval_window_join_batch tm source_configs;
|}.
End agg_expr.
