(* ===== verification/Stateless.v ===== *)
(** * Rules without a window ([run_stateless_rule] and [restore_rule_checkpoint] of
      [crates/rekuiper-server/src/engine/runtime.rs])

    A rule without a window projects each record as it comes.  Without [ASOF] joins the
    loop waits for a record, checks that the rule still runs, and then drains up to 64
    records that are already queued; with them it merges the records of the joined streams
    into the state of the join.  Each record is looked up in the tables of the statement,
    evaluated on the rule state and enqueued, filtered or routed as an error.

    A received record comes with what the loop observes of its surroundings: whether a
    [try_recv] would find it, the rule status when it is read, and the clocks. *)

From S2P Require Import Prelude Rust Json Counters Dlq Ast Engine Columns Windows Values Numbers Aggregates.
From S2P Require Import Accumulators Analytic BatchAggregates GroupedWindow Joins LoopFacts Eval Projection.
From S2P Require Import ProjectionFacts.

Set Default Goal Selector "!".

Record Message := mkMessage {
  received : StreamRecord;
  ready : bool;
  status : option string;
  clock : Clock;
}.

(** The rule goes on, or its task ends. *)
Inductive Flow := Continue | Stop.

#[global] Instance Flow_eq_dec : EqDecision Flow.
Proof. solve_decision. Defined.

(** [op_latency.observe_batch] *)
Definition observe_ops (us records : Z) (c : RuleCounters) : RuleCounters :=
  let '(mkCounters a b d e f g h i j k l m o p q r) := c in
  mkCounters a b d e f g h i j k l m o p (observe_batch us records q) r.

(** [restore_rule_checkpoint]: the saved entries replace those of the fresh state;
    [from_json] is serde_json's reading of a map, and a text that is not one is ignored. *)
Definition restore_rule_checkpoint (from_json : string -> option row) (saved : option string)
    (st : rule_state) : rule_state :=
  match saved ≫= from_json with
  | Some m => m ∪ st
  | None => st
  end.

Definition start_state (from_json : string -> option row) (saved : option string) (rid : string) (now : Z)
    : rule_state :=
  restore_rule_checkpoint from_json saved (initial_rule_state rid now).

Definition DRAIN_BATCH_LIMIT : nat := 64.
Definition next_seq (seq : Z) : Z := (seq + 1) mod 2 ^ 32.

Section stateless.
Context `{Text} `{Functions} `{ExternalTables}.
Context (c : RuleCtx) (tm : TableManager) (source_configs : gmap string value).

Definition halts : bool := bool_decide (on_error (dlq_router c) = Halt).
Definition after_error : Flow := if halts then Stop else Continue.

Definition has_asof : bool := existsb is_asof (joins (stmt c)).
Definition has_lookup_joins : bool := existsb (fun j => negb (is_asof j)) (joins (stmt c)).

Definition route (now : Z) (msg : string) (stage : DlqStage) (d : row) (e : Env) : Env :=
  handle_runtime_error (Some (dlq_router c)) now (rid c) (send_error c) msg (Some stage) (Some d) e.

(** From the joined row to the sink: evaluation, the timing of a sampled record,
    the output stamped [stamp], or the error reported with the row [d].  A panic of the
    evaluation ends the task. *)
Definition project_and_send (clk : Clock) (observe : Env -> Env) (stamp : Z) (d input : row) (e : Env) : Flow * Env :=
  let wall : WallClock := now_ms clk in
  let '(eval_res, st) :=
    eval_select_stateless_fast (stmt c) (stmt_has_analytic (stmt c)) input (rstate e) in
  let e := set_rstate st e in
  match eval_res with
  | Panic => (Stop, e)
  | Ok (Some output) =>
      let '(taken, e) := enqueue_sink_record (mkRecord stamp output) (observe e) in
      (if taken then Continue else Stop, e)
  | Ok None => (Continue, upd_counters (inc_filtered 1) (observe e))
  | Err err => (after_error, route (now_ms clk) err SqlEval d (observe e))
  end.

Definition looked_up (clk : Clock) (d : row) : option row :=
  let wall : WallClock := now_ms clk in
  if has_lookup_joins then apply_lookup_joins tm source_configs (stmt c) d else Some d.

(** ** Rules without [ASOF] joins *)

Definition process (m : Message) (e : Env) : Flow * Env :=
  let d := data (received m) in
  let now := now_ms (clock m) in
  let e := upd_counters (inc_source 1) e in
  match check_record_error d with
  | Some err_msg => (after_error, route now err_msg CodecDecode d e)
  | None =>
      match looked_up (clock m) d with
      | None => (Continue, upd_counters (inc_filtered 1) e)
      | Some joined => project_and_send (clock m) id (timestamp (received m)) d joined e
      end
  end.

(** One batch: [m] and the records that follow it while they are ready.  The result has
    the number of records drained and the messages left. *)
Fixpoint drain_batch (drained : nat) (m : Message) (rest : list Message) (e : Env)
    : Flow * nat * list Message * Env :=
  match process m e with
  | (Stop, e) => (Stop, S drained, rest, e)
  | (Continue, e) =>
      let drained := S drained in
      if (DRAIN_BATCH_LIMIT <=? drained)%nat then (Continue, drained, rest, e)
      else
        match rest with
        | next :: rest' => if ready next then drain_batch drained next rest' e else (Continue, drained, rest, e)
        | [] => (Continue, drained, rest, e)
        end
  end.

Definition observe_sampled (seq : Z) (clk : Clock) (drained : nat) (e : Env) : Env :=
  if Z.land seq 511 =? 0 then upd_counters (observe_ops (elapsed_us clk drained) (Z.of_nat drained)) e else e.

(** The outer loop, until the channel is closed (no message left), the rule is found
    stopped or the task ends; [None] when the fuel does not suffice. *)
Fixpoint stateless_loop (fuel : nat) (seq : Z) (msgs : list Message) (e : Env) : option (Flow * Env) :=
  match fuel, msgs with
  | _, [] => Some (Continue, e)
  | O, _ => None
  | S fuel, m :: rest =>
      if negb (is_rule_running (status m)) then Some (Continue, e)
      else
        let seq := next_seq seq in
        match drain_batch 0 m rest e with
        | (Stop, _, _, e) => Some (Stop, e)
        | (Continue, drained, rest, e) =>
            stateless_loop fuel seq rest (observe_sampled seq (clock m) drained e)
        end
  end.

(** ** Rules with [ASOF] joins *)

Inductive AsofEvent :=
  | RightEvent (clk : Clock) (tagged : TaggedRow)
  | LeftEvent (m : Message).

Record AsofLoop := mkAsof { asof_state : AsofJoinState; sample_seq : Z; asof_env : Env }.

Definition left_ts_field : option string :=
  match source_timestamp_fields (event_time c) !! from (stmt c) with
  | Some f => Some f
  | None => timestamp_field (event_time c)
  end.

Definition probe_and_send (m : Message) (l : AsofLoop) (e : Env) : Flow * AsofLoop :=
  let d := data (received m) in
  let now := now_ms (clock m) in
  let seq := next_seq (sample_seq l) in
  let observe e := if Z.land seq 127 =? 0 then upd_counters (observe_op (elapsed_us (clock m) 0)) e else e in
  let filtered_out := (Continue, mkAsof (asof_state l) seq (observe (upd_counters (inc_filtered 1) e))) in
  let left_ts := extract_event_timestamp now d left_ts_field in
  let wall : WallClock := now in
  match probe_left_event (asof_state l) (stmt c) left_ts d with
  | None => filtered_out
  | Some probed =>
      match looked_up (clock m) probed with
      | None => filtered_out
      | Some joined =>
          let '(flow, e) := project_and_send (clock m) observe now probed joined e in
          (flow, mkAsof (asof_state l) seq e)
      end
  end.

Definition asof_event (ev : AsofEvent) (l : AsofLoop) : Flow * AsofLoop :=
  match ev with
  | RightEvent clk t =>
      let right_ts := extract_event_timestamp (now_ms clk) (tdata t) (source_timestamp_fields (event_time c) !! source t) in
      let wall : WallClock := now_ms clk in
      let s := ingest_right_event (stmt c) (source t) right_ts (tdata t) (asof_state l) in
      (Continue, mkAsof s (sample_seq l) (asof_env l))
  | LeftEvent m =>
      if negb (is_rule_running (status m)) then (Continue, l)
      else
        let e := upd_counters (inc_source 1) (asof_env l) in
        let '(is_error, e) :=
          handle_error_record (Some (dlq_router c)) (now_ms (clock m)) (rid c) (send_error c) (data (received m)) e in
        if is_error : bool then (after_error, mkAsof (asof_state l) (sample_seq l) e)
        else probe_and_send m l e
  end.

(** The merged events until both channels are closed. *)
Fixpoint asof_loop (evs : list AsofEvent) (l : AsofLoop) : Flow * AsofLoop :=
  match evs with
  | [] => (Continue, l)
  | ev :: rest =>
      match asof_event ev l with
      | (Continue, l) => asof_loop rest l
      | (Stop, l) => (Stop, l)
      end
  end.
End stateless.

(** ** Batching is not observable *)

(** The environment without the operator latencies, the only trace of the batches. *)
Definition erase_op (c : RuleCounters) : RuleCounters :=
  let '(mkCounters a b d e f g h i j k l m o p q r) := c in
  mkCounters a b d e f g h i j k l m o p latency_default r.
Definition erase (e : Env) : Env := upd_counters erase_op e.

Lemma erase_upd f e : (forall c, erase_op (f c) = f (erase_op c)) -> erase (upd_counters f e) = upd_counters f (erase e).
Proof. intros Hf. unfold erase, upd_counters, set_counters. simpl. by rewrite Hf. Qed.

Lemma erase_set st e : erase (set_rstate st e) = set_rstate st (erase e).
Proof. done. Qed.

Ltac counters_commute := intros []; done.

Lemma enqueue_erase r e :
  enqueue_sink_record r (erase e) = let '(b, e') := enqueue_sink_record r e in (b, erase e').
Proof.
  unfold enqueue_sink_record. change (sink (erase e)) with (sink e).
  destruct (sink e 0); rewrite ?erase_upd by counters_commute; done.
Qed.

Section batching.
Context `{Text} `{Functions} `{ExternalTables}.
Context (c : RuleCtx) (tm : TableManager) (source_configs : gmap string value).
#[local] Abbreviation process := (process c tm source_configs).
#[local] Abbreviation drain_batch := (drain_batch c tm source_configs).
#[local] Abbreviation stateless_loop := (stateless_loop c tm source_configs).

Lemma route_erase now msg stage d e : route c now msg stage d (erase e) = erase (route c now msg stage d e).
Proof.
  unfold route, handle_runtime_error.
  set (raw := match _ with Some s => Some s | None => _ end).
  assert (Hr : forall dl, route_error (dlq_router c) now (default SqlEval (Some stage)) msg raw (row_to_value <$> Some d) None
     (mkDlqState (erase_op (counters dl)) (buffer dl) (spawned dl)) =
     let s := route_error (dlq_router c) now (default SqlEval (Some stage)) msg raw (row_to_value <$> Some d) None dl in
     mkDlqState (erase_op (counters s)) (buffer s) (spawned s)).
  { intros [ct b s]. unfold route_error. simpl. destruct ct. by case_match. }
  assert (He : mkEnv (route_error (dlq_router c) now (default SqlEval (Some stage)) msg raw (row_to_value <$> Some d) None
      (dlq (erase e))) (sink (erase e)) (sent (erase e)) (rstate (erase e)) =
    erase (mkEnv (route_error (dlq_router c) now (default SqlEval (Some stage)) msg raw (row_to_value <$> Some d) None
      (dlq e)) (sink e) (sent e) (rstate e))).
  { unfold erase at 1, upd_counters, set_counters. cbn [dlq]. rewrite Hr. done. }
  destruct (send_error c); [|exact He].
  rewrite He, enqueue_erase. by destruct (enqueue_sink_record _ _).
Qed.

Lemma process_erase m e : process m (erase e) = let '(f, e') := process m e in (f, erase e').
Proof.
  unfold Stateless.process. rewrite <- (erase_upd (inc_source 1)) by counters_commute.
  set (e1 := upd_counters _ _). destruct (check_record_error _); [by rewrite route_erase|].
  destruct (looked_up _ _ _ _ _) as [joined|]; [|by rewrite erase_upd by counters_commute].
  unfold project_and_send, id. change (rstate (erase e1)) with (rstate e1).
  destruct (eval_select_stateless_fast _ _ _ _) as [res st]. rewrite <- erase_set.
  destruct res as [[output|]|err|]; try done.
  - rewrite enqueue_erase. by destruct (enqueue_sink_record _ _) as [[] ?].
  - by rewrite erase_upd by counters_commute.
  - by rewrite route_erase.
Qed.

(** The reference: records one by one, until the task ends. *)
Fixpoint process_all (msgs : list Message) (e : Env) : Flow * Env :=
  match msgs with
  | [] => (Continue, e)
  | m :: rest =>
      match process m e with
      | (Continue, e) => process_all rest e
      | (Stop, e) => (Stop, e)
      end
  end.

Lemma process_all_app p q e :
  process_all (p ++ q) e = match process_all p e with (Continue, e) => process_all q e | r => r end.
Proof. revert e. induction p as [|m p IH]; intros e; simpl; [done|]. destruct (process m e) as [[] ?]; [apply IH|done]. Qed.

Lemma process_all_erase msgs e : process_all msgs (erase e) = let '(f, e') := process_all msgs e in (f, erase e').
Proof.
  revert e. induction msgs as [|m msgs IH]; intros e; simpl; [done|].
  rewrite process_erase. destruct (process m e) as [[] e']; [apply IH|done].
Qed.

Lemma drain_batch_processes m rest e n : (n < DRAIN_BATCH_LIMIT)%nat ->
  exists p flow rest' e', drain_batch n m rest e = (flow, (n + length p)%nat, rest', e') /\ m :: rest = p ++ rest' /\
    p <> [] /\ (n + length p <= DRAIN_BATCH_LIMIT)%nat /\ process_all p e = (flow, e').
Proof.
  revert m e n. induction rest as [|next rest IH]; intros m e n Hn; cbn [Stateless.drain_batch].
  - destruct (process m e) as [flow e1] eqn:Hp. exists [m], flow, [], e1. rewrite Nat.add_1_r. simpl. rewrite Hp.
    destruct flow; [case_match|]; (split_and!; [done|done|done|lia|done]).
  - destruct (process m e) as [flow e1] eqn:Hp.
    assert (Hone : exists p flow' rest' e', (flow, S n, next :: rest, e1) = (flow', (n + length p)%nat, rest', e') /\
      m :: next :: rest = p ++ rest' /\ p <> [] /\ (n + length p <= DRAIN_BATCH_LIMIT)%nat /\ process_all p e = (flow', e')).
    { exists [m], flow, (next :: rest), e1. rewrite Nat.add_1_r. simpl. rewrite Hp.
      destruct flow; (split_and!; [done|done|done|lia|done]). }
    destruct flow; [|exact Hone]. destruct (Nat.leb_spec DRAIN_BATCH_LIMIT (S n)); [exact Hone|].
    destruct (ready next); [|exact Hone].
    destruct (IH next e1 (S n)) as (p & flow & rest' & e' & -> & Heq & Hne & Hle & Hall); [lia|].
    exists (m :: p), flow, rest', e'. simpl. rewrite Hp, Hall, Heq.
    rewrite Nat.add_succ_r. split_and!; [done|done|done|clear -Hle; lia|done].
Qed.

Lemma erase_observe_sampled seq clk n e : erase (observe_sampled seq clk n e) = erase e.
Proof.
  unfold observe_sampled. case_match; [|done]. unfold erase, upd_counters, set_counters. simpl.
  by destruct (counters (dlq e)).
Qed.

Lemma process_all_congr p e e1 f e' : erase e1 = erase e -> process_all p e1 = (f, e') ->
  exists e2, process_all p e = (f, e2) /\ erase e' = erase e2.
Proof.
  intros He Hp. pose proof (process_all_erase p e1) as Heq. rewrite He, process_all_erase, Hp in Heq.
  destruct (process_all p e) as [f2 e2]. apply pair_equal_spec in Heq as [-> Hee]. exists e2. done.
Qed.

(** What the loop did: it handled the first [k] messages, and stopped at a record found
    when the rule was not running, at the end of the channel or with its task. *)
Definition handled_prefix (msgs : list Message) (e : Env) (k : nat) (flow : Flow) (e' : Env) : Prop :=
  (k <= length msgs)%nat /\
  (exists e2, process_all (take k msgs) e = (flow, e2) /\ erase e' = erase e2) /\
  (flow = Continue -> forall m, msgs !! k = Some m -> is_rule_running (status m) = false) /\
  (forall i, (forall j m, (i <= j)%nat -> msgs !! j = Some m -> is_rule_running (status m) = false) ->
     (i = 0 -> k = 0)%nat /\ (k < i + DRAIN_BATCH_LIMIT)%nat).

Lemma handled_none msgs e :
  (forall m, msgs !! 0%nat = Some m -> is_rule_running (status m) = false) -> handled_prefix msgs e 0 Continue e.
Proof. intros Hm. split_and!; [lia|by exists e|by intros _|]. intros i _. unfold DRAIN_BATCH_LIMIT. lia. Qed.

Lemma handled_batch p rest k e e1 e2 flow e' : p <> [] -> (length p <= DRAIN_BATCH_LIMIT)%nat ->
  (forall m, list.head (p ++ rest) = Some m -> is_rule_running (status m) = true) ->
  process_all p e = (Continue, e1) -> erase e2 = erase e1 ->
  handled_prefix rest e2 k flow e' -> handled_prefix (p ++ rest) e (length p + k) flow e'.
Proof.
  intros Hne Hlen Hhead Hp He (Hk & (e3 & Hp3 & He3) & Hcont & Hstop). split_and!.
  - rewrite length_app. lia.
  - destruct (process_all_congr (take k rest) e1 e2 flow e3) as (e4 & Hp4 & He4); [done|done|].
    exists e4. rewrite take_app_add, process_all_app, Hp. by rewrite He3.
  - intros Hf m. rewrite lookup_app_r by lia. replace (length p + k - length p)%nat with k by lia. by apply Hcont.
  - intros i Hi. destruct (decide (length p <= i)%nat) as [Hle|Hgt].
    + destruct (Hstop (i - length p)%nat) as [Hz Hlt].
      { intros j m Hj Hm. apply (Hi (length p + j)%nat); [lia|].
        rewrite lookup_app_r by lia. by replace (length p + j - length p)%nat with j by lia. }
      destruct p; [done|]. simpl in *. lia.
    + destruct (Hstop 0%nat) as [Hz _].
      { intros j m _ Hm. apply (Hi (length p + j)%nat); [lia|].
        rewrite lookup_app_r by lia. by replace (length p + j - length p)%nat with j by lia. }
      rewrite Hz by done. destruct p as [|m p]; [done|]. specialize (Hhead m eq_refl).
      assert (i <> 0)%nat. { intros ->. by rewrite (Hi 0%nat m ltac:(lia) eq_refl) in Hhead. }
      lia.
Qed.

Lemma stateless_loop_prefix fuel seq msgs e : (length msgs <= fuel)%nat ->
  exists k flow e', stateless_loop fuel seq msgs e = Some (flow, e') /\ handled_prefix msgs e k flow e'.
Proof.
  revert seq msgs e. induction fuel as [|fuel IH]; intros seq [|m msgs] e Hfuel.
  1, 3: exists 0%nat, Continue, e; (split; [done|]); by apply handled_none.
  { simpl in Hfuel. lia. }
  cbn [Stateless.stateless_loop]. destruct (is_rule_running (status m)) eqn:Hrun; cbn [negb].
  2: { exists 0%nat, Continue, e. split; [done|]. apply handled_none. by intros ? [= <-]. }
  destruct (drain_batch_processes m msgs e 0) as (p & flow & rest & e1 & -> & Hsplit & Hne & Hle & Hp).
  { unfold DRAIN_BATCH_LIMIT. lia. }
  assert (Hhead : forall m', list.head (p ++ rest) = Some m' -> is_rule_running (status m') = true).
  { rewrite <- Hsplit. by intros ? [= <-]. }
  destruct flow.
  - destruct (IH (next_seq seq) rest (observe_sampled (next_seq seq) (clock m) (0 + length p) e1))
      as (k & flow & e' & -> & Hpre).
    { apply (f_equal length) in Hsplit. rewrite length_app in Hsplit. destruct p; [done|]. simpl in *. lia. }
    exists (length p + k)%nat, flow, e'. split; [done|]. rewrite Hsplit.
    eapply handled_batch; [done|done|done|done| |done]. apply erase_observe_sampled.
  - exists (length p), Stop, e1. split; [done|]. rewrite Hsplit.
    split_and!; [rewrite length_app; lia|exists e1; by rewrite take_app_length|done|].
    intros i Hi. assert (i <> 0)%nat; [|lia]. intros ->. destruct p as [|m0 p]; [done|].
    specialize (Hhead m0 eq_refl). by rewrite (Hi 0%nat m0 ltac:(lia) eq_refl) in Hhead.
Qed.
End batching.

(** C31. A rule without a window is a fold over its records, however they are batched.
    With fuel for every message the loop returns; it has handled a prefix of the messages
    exactly as if one by one (same outputs, state, dead letters and counters; only the
    sampled latencies differ); it left a message only because the task ended or because that
    message found the rule stopped; and once the rule is stopped at most 63 more records,
    those of the batch being drained, are handled. *)
Theorem stateless_batching_transparent `{Text} `{Functions} `{ExternalTables} (c : RuleCtx) (tm : TableManager)
    (source_configs : gmap string value) (msgs : list Message) (e : Env) :
  exists k flow e', stateless_loop c tm source_configs (length msgs) 0 msgs e = Some (flow, e') /\
    (k <= length msgs)%nat /\
    (exists e2, process_all c tm source_configs (take k msgs) e = (flow, e2) /\ erase e' = erase e2) /\
    (flow = Continue -> forall m, msgs !! k = Some m -> is_rule_running (status m) = false) /\
    (forall i, (forall j m, (i <= j)%nat -> msgs !! j = Some m -> is_rule_running (status m) = false) ->
       (i = 0 -> k = 0)%nat /\ (k <= i + 63)%nat).
Proof.
  destruct (stateless_loop_prefix c tm source_configs (length msgs) 0 msgs e) as (k & flow & e' & Hl & Hk & Hp & Hc & Hs);
    [done|].
  exists k, flow, e'. split_and!; [done|done|done|done|]. intros i Hi. specialize (Hs i Hi).
  unfold DRAIN_BATCH_LIMIT in Hs. lia.
Qed.

(** ** Every record is accounted for *)

(** Source records that are neither enqueued, filtered nor counted as errors. *)
Definition unaccounted (e : Env) : Z :=
  let c := counters (dlq e) in (source_in c - enqueued c - filtered c - exceptions c) mod 2 ^ 64.

(** [shift n e e']: [n] more records are unaccounted for in [e'] than in [e]. *)
Definition shift (n : Z) (e e' : Env) : Prop := unaccounted e' = (unaccounted e + n) mod 2 ^ 64.

Lemma unaccounted_mod e : unaccounted e mod 2 ^ 64 = unaccounted e.
Proof. apply Z.mod_mod. lia. Qed.

Lemma shift_trans n m e1 e2 e3 : shift n e1 e2 -> shift m e2 e3 -> shift (n + m) e1 e3.
Proof.
  unfold shift. intros He He'. rewrite He', He, Z.add_mod_idemp_l by lia. f_equal. lia.
Qed.

Lemma shift_refl e : shift 0 e e.
Proof. unfold shift. by rewrite Z.add_0_r, unaccounted_mod. Qed.

(** An update of the counters, by its effect on the difference. *)
Lemma shift_counters n f e :
  (forall c, (source_in (f c) - enqueued (f c) - filtered (f c) - exceptions (f c)) mod 2 ^ 64 =
             (source_in c - enqueued c - filtered c - exceptions c + n) mod 2 ^ 64) ->
  shift n e (upd_counters f e).
Proof. intros Hf. unfold shift, unaccounted. simpl. by rewrite Hf, Z.add_mod_idemp_l by lia. Qed.

Lemma mod_eq a b k n : a = b + k * n -> a mod n = b mod n.
Proof. intros ->. apply Z_mod_plus_full. Qed.

Ltac shift_one x n k :=
  apply (mod_eq _ _ k); unfold u64_add; pose proof (Z.div_mod (x + n) (2 ^ 64) ltac:(lia)); lia.

Lemma shift_inc_source e : shift 1 e (upd_counters (inc_source 1) e).
Proof.
  apply shift_counters. intros [src out exc fil enq ? ? ? ? ? ? ? ? ? ? ?]. simpl. shift_one src 1 (- ((src + 1) / 2 ^ 64)).
Qed.
Lemma shift_inc_filtered e : shift (-1) e (upd_counters (inc_filtered 1) e).
Proof. apply shift_counters. intros [src out exc fil enq ? ? ? ? ? ? ? ? ? ? ?]. simpl. shift_one fil 1 ((fil + 1) / 2 ^ 64). Qed.
Lemma shift_record_exception msg e : shift (-1) e (upd_counters (record_exception msg) e).
Proof. apply shift_counters. intros [src out exc fil enq ? ? ? ? ? ? ? ? ? ? ?]. simpl. shift_one exc 1 ((exc + 1) / 2 ^ 64). Qed.
Lemma shift_inc_enqueued e : shift (-1) e (upd_counters (inc_enqueued 1) e).
Proof. apply shift_counters. intros [src out exc fil enq ? ? ? ? ? ? ? ? ? ? ?]. simpl. shift_one enq 1 ((enq + 1) / 2 ^ 64). Qed.

(** An update of other counters, of the queue or of the rule state. *)
Lemma shift_other e e' :
  source_in (counters (dlq e')) = source_in (counters (dlq e)) ->
  enqueued (counters (dlq e')) = enqueued (counters (dlq e)) ->
  filtered (counters (dlq e')) = filtered (counters (dlq e)) ->
  exceptions (counters (dlq e')) = exceptions (counters (dlq e)) -> shift 0 e e'.
Proof. intros H1 H2 H3 H4. unfold shift, unaccounted. rewrite H1, H2, H3, H4, Z.add_0_r. by rewrite Z.mod_mod by lia. Qed.

Lemma shift_enqueue r e :
  let '(taken, e') := enqueue_sink_record r e in shift (if taken : bool then -1 else 0) e e'.
Proof.
  unfold enqueue_sink_record. destruct (sink e 0).
  - apply (shift_trans 0 (-1) _ (after_send [r] e)); [by apply shift_other|apply shift_inc_enqueued].
  - set (blocked := upd_counters (fun c => add_blocked_micros elapsed_micros (observe_high_water max_capacity c)) (after_send [r] e)).
    apply (shift_trans 0 (-1) _ blocked); [|apply (shift_inc_enqueued blocked)].
    apply shift_other; simpl; by destruct (counters (dlq e)).
  - apply shift_other; simpl; by destruct (counters (dlq e)).
  - by apply shift_other.
Qed.

Section accounting.
Context `{Text} `{Functions} `{ExternalTables}.
Context (c : RuleCtx) (tm : TableManager) (source_configs : gmap string value).
Context (Hse : send_error c = false).

Lemma shift_route now msg stage d e : shift (-1) e (route c now msg stage d e).
Proof.
  unfold route, handle_runtime_error. rewrite Hse.
  apply (shift_trans (-1) 0 _ (upd_counters (record_exception msg) e)); [apply shift_record_exception|].
  apply shift_other; unfold route_error; simpl; case_match; simpl; by destruct (counters (dlq e)).
Qed.

(** One record more at the source is one more outcome, unless the task ends. *)
Definition accounts (e : Env) (r : Flow * Env) : Prop :=
  shift 0 e r.2 \/ (r.1 = Stop /\ shift 1 e r.2).

Lemma project_and_send_accounts clk obs stamp d input e0 e :
  (forall e, shift 0 e (obs e)) -> shift 1 e0 e -> accounts e0 (project_and_send c clk obs stamp d input e).
Proof.
  intros Hobs He. unfold project_and_send. cbn zeta.
  destruct (eval_select_stateless_fast _ _ _ _) as [res st].
  assert (Hset : shift 1 e0 (set_rstate st e)) by (apply (shift_trans 1 0 _ e); [done|by apply shift_other]).
  assert (Ho : shift 1 e0 (obs (set_rstate st e))) by (by apply (shift_trans 1 0 _ (set_rstate st e))).
  destruct res as [[output|]|err|].
  - pose proof (shift_enqueue (mkRecord stamp output) (obs (set_rstate st e))) as Hq.
    destruct (enqueue_sink_record _ _) as [[] e'].
    + left. by apply (shift_trans 1 (-1) _ _ _ Ho).
    + right. split; [done|]. by apply (shift_trans 1 0 _ _ _ Ho).
  - left. apply (shift_trans 1 (-1) _ _ _ Ho), shift_inc_filtered.
  - left. apply (shift_trans 1 (-1) _ _ _ Ho), shift_route.
  - right. done.
Qed.

Lemma process_accounts m e : accounts e (process c tm source_configs m e).
Proof.
  unfold process. pose proof (shift_inc_source e) as Hs.
  destruct (check_record_error _); [left; apply (shift_trans 1 (-1) _ _ _ Hs), shift_route|].
  destruct (looked_up _ _ _ _ _); [|left; apply (shift_trans 1 (-1) _ _ _ Hs), shift_inc_filtered].
  by apply project_and_send_accounts; [apply shift_refl|].
Qed.

Lemma asof_event_accounts ev l : accounts (asof_env l) (let '(f, l') := asof_event c tm source_configs ev l in (f, asof_env l')).
Proof.
  destruct ev as [clk t|m]; [left; apply shift_refl|]. cbn [asof_event].
  destruct (is_rule_running (status m)); [|left; apply shift_refl]. cbn [negb].
  pose proof (shift_inc_source (asof_env l)) as Hs.
  unfold handle_error_record. destruct (check_record_error _).
  { left. apply (shift_trans 1 (-1) _ _ _ Hs), shift_route. }
  unfold probe_and_send. cbn zeta. set (obs := fun e : Env => if _ : bool then _ else e).
  assert (Hobs : forall e, shift 0 e (obs e)).
  { intros e. subst obs. simpl. case_match; [|apply shift_refl]. apply shift_other; simpl; by destruct (counters (dlq e)). }
  assert (Hfil : accounts (asof_env l) (Continue, obs (upd_counters (inc_filtered 1) (upd_counters (inc_source 1) (asof_env l))))).
  { left. apply (shift_trans 0 0 _ (upd_counters (inc_filtered 1) (upd_counters (inc_source 1) (asof_env l)))); [|apply Hobs].
    apply (shift_trans 1 (-1) _ _ _ Hs), shift_inc_filtered. }
  destruct (probe_left_event _ _ _ _) as [probed|]; [|exact Hfil].
  destruct (looked_up _ _ _ _ _) as [joined|]; [|exact Hfil].
  pose proof (project_and_send_accounts (clock m) obs (now_ms (clock m)) probed joined _ _ Hobs Hs) as Ha.
  by destruct (project_and_send _ _ _ _ _ _ _).
Qed.

Lemma accounts_trans e e1 r : shift 0 e e1 -> accounts e1 r -> accounts e r.
Proof. intros He [Hr|[Hf Hr]]; [left; by apply (shift_trans 0 0 _ e1)|right; split; [done|by apply (shift_trans 0 1 _ e1)]]. Qed.

Lemma process_all_accounts msgs e : accounts e (process_all c tm source_configs msgs e).
Proof.
  revert e. induction msgs as [|m msgs IH]; intros e; simpl; [left; apply shift_refl|].
  pose proof (process_accounts m e) as Hm. destruct (process _ _ _ m e) as [[] e1]; [|done].
  unfold accounts in Hm. simpl in Hm. destruct Hm as [Hm|[? _]]; [|done]. by eapply accounts_trans.
Qed.

Lemma asof_loop_accounts evs l :
  accounts (asof_env l) (let '(f, l') := asof_loop c tm source_configs evs l in (f, asof_env l')).
Proof.
  revert l. induction evs as [|ev evs IH]; intros l; simpl; [left; apply shift_refl|].
  pose proof (asof_event_accounts ev l) as Hm. destruct (asof_event _ _ _ ev l) as [[] l1]; [|done].
  unfold accounts in Hm. simpl in Hm. destruct Hm as [Hm|[? _]]; [|done]. by eapply accounts_trans.
Qed.
End accounting.

Lemma unaccounted_erase e : unaccounted (erase e) = unaccounted e.
Proof. unfold unaccounted. simpl. by destruct (counters (dlq e)). Qed.

(** Conservation of records.  When error events are not forwarded, both loops of a
    rule without a window keep, modulo 2^64, the balance of their counters: every record
    counted at the source is counted exactly once as enqueued, as filtered or as an
    exception.  At most one record escapes, the one during which the sink queue closed or
    the evaluation panicked, and then the task has ended. *)
Theorem stateless_conserves_records `{Text} `{Functions} `{ExternalTables} (c : RuleCtx) (tm : TableManager)
    (source_configs : gmap string value) (msgs : list Message) (evs : list AsofEvent) (e : Env) (s : AsofJoinState) :
  send_error c = false ->
  (exists flow e', stateless_loop c tm source_configs (length msgs) 0 msgs e = Some (flow, e') /\
    (unaccounted e' = unaccounted e \/ flow = Stop /\ unaccounted e' = (unaccounted e + 1) mod 2 ^ 64)) /\
  (forall flow l', asof_loop c tm source_configs evs (mkAsof s 0 e) = (flow, l') ->
    unaccounted (asof_env l') = unaccounted e \/
    flow = Stop /\ unaccounted (asof_env l') = (unaccounted e + 1) mod 2 ^ 64).
Proof.
  intros Hse. split.
  - destruct (stateless_loop_prefix c tm source_configs (length msgs) 0 msgs e)
      as (k & flow & e' & Hl & _ & (e2 & Hp & He) & _ & _); [done|].
    exists flow, e'. split; [done|]. rewrite <- (unaccounted_erase e'), He, unaccounted_erase.
    pose proof (process_all_accounts c tm source_configs Hse (take k msgs) e) as Ha. rewrite Hp in Ha.
    unfold accounts in Ha. simpl in Ha. destruct Ha as [Ha|[Hf Ha]]; [left|by right]. unfold shift in Ha. by rewrite Ha, Z.add_0_r, unaccounted_mod.
  - intros flow l' Hrun. pose proof (asof_loop_accounts c tm source_configs Hse evs (mkAsof s 0 e)) as Ha.
    rewrite Hrun in Ha. unfold accounts in Ha. simpl in Ha. destruct Ha as [Ha|[Hf Ha]]; [left|by right].
    unfold shift in Ha. by rewrite Ha, Z.add_0_r, unaccounted_mod.
Qed.

Module StatelessSample.
Import ProjectionFacts.Sample.
#[export] Instance no_tables : ExternalTables := {|
  redis_lookup_key _ _ := None; sql_lookup_key _ _ _ _ := None; modbus_snapshot _ _ := None;
  opcua_snapshot _ _ := None; sql_config _ := None;
|}.

(** [SELECT x FROM s WHERE x > 1] *)
Definition over_one : SelectStmt :=
  select_from [Identifier "x"] (Some (BinaryOp (Identifier "x") Gt (Literal (value_of_i64 1)))) None.
Definition rule : RuleCtx :=
  mkCtx "r1" over_one false (mkRouter "r1" Dlq true 2 false true) (mkEventTime false 0 None ∅) false [].
Definition message (ready : bool) (status : string) (d : row) : Message :=
  mkMessage (mkRecord 7 d) ready (Some status) (mkClock 0 0 (fun _ => 0)).
Definition fresh : Env := mkEnv (mkDlqState counters_default [] []) (fun _ => Sent) [] ∅.

(** Two records in a batch that outlives the stop, an error record, and one left behind. *)
Definition messages : list Message :=
  [message true "running" {["x" := value_of_i64 2]}; message true "stopped" {["x" := value_of_i64 1]};
   message true "stopped" {["error" := VString "bad"]}; message false "stopped" {["x" := value_of_i64 5]}].

Example messages_run :
  exists e', stateless_loop rule (mkTables ∅ ∅) ∅ 4 0 messages fresh = Some (Continue, e') /\
    sent e' = [mkRecord 7 {["x" := value_of_i64 2]}] /\ source_in (counters (dlq e')) = 3 /\
    filtered (counters (dlq e')) = 1 /\ exceptions (counters (dlq e')) = 1.
Proof. eexists. by vm_compute. Qed.

End StatelessSample.
Import ProjectionFacts.Sample StatelessSample.

Lemma stateless_conserves_records_witness :
  (exists flow e', stateless_loop rule (mkTables ∅ ∅) ∅ 4 0 messages fresh = Some (flow, e') /\
    (unaccounted e' = unaccounted fresh \/ flow = Stop /\ unaccounted e' = (unaccounted fresh + 1) mod 2 ^ 64)) /\
  (forall flow l', asof_loop rule (mkTables ∅ ∅) ∅ (LeftEvent <$> messages) (mkAsof ∅ 0 fresh) = (flow, l') ->
    unaccounted (asof_env l') = unaccounted fresh \/
    flow = Stop /\ unaccounted (asof_env l') = (unaccounted fresh + 1) mod 2 ^ 64).
Proof.
  exact (stateless_conserves_records rule (mkTables ∅ ∅) ∅ messages (LeftEvent <$> messages) fresh ∅ eq_refl).
Defined.
