(* ===== verification/Bus.v ===== *)
(** * Predicates of the stream bus ([crates/rekuiper-core/src/runtime.rs], predicate
      extraction of [crates/rekuiper-server/src/engine/mod.rs])

    A rule that subscribes to a stream hands the bus a predicate extracted from its WHERE
    clause; records that do not match are counted as filtered and never reach the rule. *)

From Stdlib Require Import SpecFloat.
From S2P Require Import Prelude Rust Json Ast Engine Counters Values Aggregates Accumulators Analytic Columns Eval.

Set Default Goal Selector "!".
#[local] Set Warnings "-register-all".

(** ** Predicates *)

Inductive BusPredicate :=
  | FieldEq (field : string) (value : value)
  | FieldNeq (field : string) (value : value)
  | FieldGt (field : string) (threshold : f64)
  | FieldGte (field : string) (threshold : f64)
  | FieldLt (field : string) (threshold : f64)
  | FieldLte (field : string) (threshold : f64)
  | TopicEq (topic : string)
  | PredAnd (preds : list BusPredicate).

(** [Option::is_some_and] *)
Definition is_some_and {A} (o : option A) (f : A -> bool) : bool := from_option f false o.

Definition get_member (key : string) (v : value) : option value :=
  match v with VObject m => object_get key m | _ => None end.

Definition get_number (field : string) (record : row) : option f64 := record !! field ≫= as_f64.

Fixpoint matches (p : BusPredicate) (record : row) : bool :=
  match p with
  | FieldEq field x => is_some_and (record !! field) (fun v => value_eq v x)
  | FieldNeq field x => is_some_and (record !! field) (fun v => negb (value_eq v x))
  | FieldGt field threshold => is_some_and (get_number field record) (fun n => f64_ltb threshold n)
  | FieldGte field threshold => is_some_and (get_number field record) (fun n => f64_leb threshold n)
  | FieldLt field threshold => is_some_and (get_number field record) (fun n => f64_ltb n threshold)
  | FieldLte field threshold => is_some_and (get_number field record) (fun n => f64_leb n threshold)
  | TopicEq expected =>
      let meta := match record !! "__meta__" with Some m => Some m | None => record !! "__mqtt__" end in
      is_some_and ((meta ≫= get_member "topic") ≫= as_str) (fun t => bool_decide (t = expected))
  | PredAnd preds => forallb (fun p => matches p record) preds
  end.

(** Records with an error field always pass; a record that is held back is counted. *)
Definition check_and_account (p : BusPredicate) (record : row) (c : RuleCounters) : bool * RuleCounters :=
  if matches p record then (true, c)
  else if bool_decide (is_Some (record !! "error")) || bool_decide (is_Some (record !! "__error")) then (true, c)
  else (false, inc_filtered 1 (inc_source 1 c)).

(** ** Extraction from a WHERE clause *)

(** [meta(topic) = '...'] *)
Definition topic_test (l : Expr) (op : BinaryOperator) (r : Expr) : option string :=
  match op, l, r with
  | Eq, Call name [Identifier id], Literal (VString expected) =>
      if (eq_ignore_ascii_case name "meta" || eq_ignore_ascii_case name "mqtt") && eq_ignore_ascii_case id "topic"
      then Some expected else None
  | _, _, _ => None
  end.

Definition field_test (op : BinaryOperator) (field : string) (lit : value) : option BusPredicate :=
  match op with
  | Eq => Some (FieldEq field lit)
  | Neq => Some (FieldNeq field lit)
  | Gt => FieldGt field <$> as_f64 lit
  | Gte => FieldGte field <$> as_f64 lit
  | Lt => FieldLt field <$> as_f64 lit
  | Lte => FieldLte field <$> as_f64 lit
  | _ => None
  end.

Definition comparison_predicate (l : Expr) (op : BinaryOperator) (r : Expr) : option BusPredicate :=
  match topic_test l op r with
  | Some expected => Some (TopicEq expected)
  | None =>
      match l, r with
      | Identifier field, Literal lit => field_test op field lit
      | _, _ => None
      end
  end.

Fixpoint extract_bus_predicate (e : Expr) : option BusPredicate :=
  match e with
  | BinaryOp l And r =>
      match extract_bus_predicate l, extract_bus_predicate r with
      | Some p, Some q => Some (PredAnd [p; q])
      | Some p, None | None, Some p => Some p
      | None, None => None
      end
  | BinaryOp l op r => comparison_predicate l op r
  | _ => None
  end.

Fixpoint is_bus_predicate_exhaustive (e : Expr) : bool :=
  match e with
  | BinaryOp l And r => is_bus_predicate_exhaustive l && is_bus_predicate_exhaustive r
  | BinaryOp l op r =>
      match topic_test l op r with
      | Some _ => true
      | None =>
          match l, r with
          | Identifier _, Literal lit =>
              match op with
              | Eq | Neq => true
              | Gt | Gte | Lt | Lte => bool_decide (is_Some (as_f64 lit))
              | _ => false
              end
          | _, _ => false
          end
      end
  | _ => false
  end.

(** ** Integers as floats *)

Lemma digits2_pos_bounds p : 2 ^ (Zpos (digits2_pos p) - 1) <= Zpos p < 2 ^ Zpos (digits2_pos p).
Proof.
  induction p as [p IH|p IH|]; cbn [digits2_pos]; [| |done]; rewrite Pos2Z.inj_succ, <- Z.add_1_r;
    replace (Zpos (digits2_pos p) + 1 - 1) with (Zpos (digits2_pos p) - 1 + 1) by lia; rewrite !Z.pow_add_r, Z.pow_1_r by lia; lia.
Qed.

Lemma digits2_pos_unique p d : 2 ^ (d - 1) <= Zpos p < 2 ^ d -> Zpos (digits2_pos p) = d.
Proof.
  intros [Hlo Hhi]. destruct (digits2_pos_bounds p) as [H1 H2].
  assert (0 < d) by (destruct (Z.le_gt_cases d 0) as [Hd|]; [|done]; destruct (Z.eq_dec d 0) as [->|]; [simpl in Hhi; lia|rewrite (Z.pow_neg_r 2 d) in Hhi by lia; lia]).
  assert (d - 1 < Zpos (digits2_pos p)) by (apply (Z.pow_lt_mono_r_iff 2); lia).
  assert (Zpos (digits2_pos p) - 1 < d) by (apply (Z.pow_lt_mono_r_iff 2); lia). lia.
Qed.

Lemma shr_1_half r : 0 <= shr_m r -> shr_m (shr_1 r) = shr_m r / 2.
Proof.
  destruct r as [m b s]. cbn [shr_m]. rewrite <- Z.div2_div. by destruct m as [|[p|p|]|p].
Qed.

Lemma shr_pow p r : 0 <= shr_m r -> shr_m (SpecFloat.iter_pos shr_1 p r) = shr_m r / 2 ^ Zpos p.
Proof.
  assert (Hnn : forall p r, 0 <= shr_m r -> 0 <= shr_m (SpecFloat.iter_pos shr_1 p r)).
  { intros q. induction q as [q IH|q IH|]; intros r' Hr; cbn [SpecFloat.iter_pos]; [apply IH, IH|apply IH, IH|]; try done;
      rewrite shr_1_half by done; by apply Z.div_pos. }
  revert r. induction p as [p IH|p IH|]; intros r Hr; cbn [SpecFloat.iter_pos].
  - assert (0 <= shr_m (shr_1 r)) by (rewrite shr_1_half by done; by apply Z.div_pos).
    rewrite !IH, shr_1_half by auto. rewrite !Z.div_div by lia. f_equal.
    replace (Zpos p~1) with (1 + Zpos p + Zpos p) by lia. rewrite !Z.pow_add_r by lia. lia.
  - rewrite !IH by auto. rewrite Z.div_div by lia. f_equal. replace (Zpos p~0) with (Zpos p + Zpos p) by lia. by rewrite Z.pow_add_r by lia.
  - by rewrite shr_1_half.
Qed.

(** Rounding a positive mantissa shifts it at most to 53 digits. *)
Lemma shr_fexp_pos m e : -1074 <= e ->
  let '(r, e') := shr_fexp 53 1024 (Zpos m) e loc_Exact in 0 < shr_m r /\ e <= e'.
Proof.
  intros He. unfold shr_fexp, shr, fexp, emin. cbn [Zdigits2 shr_record_of_loc]. destruct (digits2_pos_bounds m) as [Hlo Hhi].
  destruct (_ - e) as [|n|n] eqn:Hn; [simpl; lia| |simpl; lia]. rewrite shr_pow by done. cbn [shr_m]. split; [|lia].
  assert (Zpos n = Zpos (digits2_pos m) - 53) as -> by lia.
  apply Z.div_str_pos. split; [apply Z.pow_pos_nonneg; lia|]. etransitivity; [|exact Hlo]. apply Z.pow_le_mono_r; lia.
Qed.

Lemma round_nearest_even_pos m l : 0 < m -> 0 < round_nearest_even m l.
Proof. intros Hm. destruct l as [|[]]; simpl; try lia. destruct (Z.even m); lia. Qed.

(** What is rounded at an exponent that is not tiny is not below the tolerance. *)
Lemma binary_round_aux_large s m e : -103 <= e -> f64_ltb (f64_abs (binary_round_aux 53 1024 s (Zpos m) e loc_Exact)) f64_epsilon = false.
Proof.
  intros He. unfold binary_round_aux. pose proof (shr_fexp_pos m e ltac:(lia)) as H1.
  destruct (shr_fexp 53 1024 (Zpos m) e loc_Exact) as [r1 e1]. destruct H1 as [Hm1 He1].
  pose proof (round_nearest_even_pos (shr_m r1) (loc_of_shr_record r1) Hm1) as Hr. destruct (round_nearest_even _ _) as [|m1|m1]; try lia.
  pose proof (shr_fexp_pos m1 e1 ltac:(lia)) as H2. destruct (shr_fexp 53 1024 (Zpos m1) e1 loc_Exact) as [r2 e2]. destruct H2 as [Hm2 He2].
  destruct (shr_m r2) as [|m2|m2]; try lia. destruct (e2 <=? _); [|done].
  replace f64_epsilon with (S754_finite false 4503599627370496 (-104)) by (by vm_compute).
  unfold f64_ltb, SFltb, f64_abs, SFabs, SFcompare. destruct (Z.compare_spec e2 (-104)); [lia|lia|done].
Qed.

Lemma shl_align_value m e e' : let '(p, e1) := shl_align m e e' in
  e1 = Z.min e e' /\ Zpos p = Zpos m * 2 ^ (e - Z.min e e').
Proof.
  unfold shl_align. destruct (e' - e) as [|d|d] eqn:Hd; [split; [lia|]; replace (e - Z.min e e') with 0 by lia; lia..|].
  split; [lia|]. replace (e - Z.min e e') with (Zpos d) by lia. clear Hd. revert m.
  induction d as [|d IH] using Pos.peano_ind; intros m; [simpl; lia|]. rewrite Pos.iter_succ. rewrite Pos2Z.inj_xO, IH, Pos2Z.inj_succ, Z.pow_succ_r by lia. lia.
Qed.

(** An integer below 2^53 is its own float. *)
Lemma f64_of_Z_exact a : a <> 0 -> Z.abs a < 2 ^ 53 ->
  exists m e, f64_of_Z a = S754_finite (a <? 0) m e /\ -52 <= e <= 0 /\ Zpos m = Z.abs a * 2 ^ (- e).
Proof.
  intros Hz Ha. assert (Hgo : forall s p, Zpos p < 2 ^ 53 -> exists m e, binary_round 53 1024 s p 0 = S754_finite s m e /\ -52 <= e <= 0 /\ Zpos m = Zpos p * 2 ^ (- e)).
  { intros s p Hp. destruct (digits2_pos_bounds p) as [Hlo Hhi].
    assert (Hd : Zpos (digits2_pos p) <= 53). { apply Z.lt_pred_le. rewrite <- Z.sub_1_r. apply (Z.pow_lt_mono_r_iff 2); lia. }
    unfold binary_round. pose proof (shl_align_value p 0 (fexp 53 1024 (Zpos (digits2_pos p) + 0))) as Hs. destruct (shl_align _ _ _) as [m e].
    assert (Hf : fexp 53 1024 (Zpos (digits2_pos p) + 0) = Zpos (digits2_pos p) - 53) by (unfold fexp, emin; lia). rewrite Hf in Hs.
    destruct Hs as [He Hm]. rewrite Z.min_r in He, Hm by lia. rewrite Z.sub_0_l, <- He in Hm.
    assert (Hdm : Zpos (digits2_pos m) = 53).
    { apply digits2_pos_unique. rewrite Hm. assert (H53 : 53 = Zpos (digits2_pos p) + - e) by lia. rewrite H53 at 2. replace (53 - 1) with ((Zpos (digits2_pos p) - 1) + - e) by lia.
      rewrite !Z.pow_add_r by lia. assert (0 < 2 ^ (- e)) by (apply Z.pow_pos_nonneg; lia). split; [by apply Z.mul_le_mono_nonneg_r; [lia|]|by apply Z.mul_lt_mono_pos_r]. }
    assert (Hshr : shr_fexp 53 1024 (Zpos m) e loc_Exact = (Build_shr_record (Zpos m) false false, e)).
    { unfold shr_fexp. cbn [Zdigits2]. rewrite Hdm. unfold fexp, emin. rewrite Z.max_l by lia. by replace (53 + e - 53 - e) with 0 by lia. }
    exists m, e. split; [|split; [lia|done]]. unfold binary_round_aux. rewrite Hshr. cbn [shr_m loc_of_shr_record round_nearest_even]. rewrite Hshr. cbn [shr_m].
    by rewrite (proj2 (Z.leb_le e _)) by lia. }
  unfold f64_of_Z, binary_normalize. destruct a as [|p|p]; [done| |]; by apply Hgo.
Qed.

(** Two of them that differ do so by more than the tolerance. *)
Lemma f64_of_Z_apart a b : a <> b -> Z.abs a < 2 ^ 53 -> Z.abs b < 2 ^ 53 -> f64_ltb (f64_abs (f64_sub (f64_of_Z a) (f64_of_Z b))) f64_epsilon = false.
Proof.
  intros Hab Ha Hb.
  assert (Hfin : forall s m e, -52 <= e -> f64_ltb (f64_abs (S754_finite s m e)) f64_epsilon = false).
  { intros s m e He. replace f64_epsilon with (S754_finite false 4503599627370496 (-104)) by (by vm_compute).
    unfold f64_ltb, SFltb, f64_abs, SFabs, SFcompare. destruct (Z.compare_spec e (-104)); [lia|lia|done]. }
  destruct (Z.eq_dec a 0) as [->|Ha0]; destruct (Z.eq_dec b 0) as [->|Hb0]; [done|..].
  - destruct (f64_of_Z_exact b Hb0 Hb) as (m & e & -> & He & _). apply Hfin. lia.
  - destruct (f64_of_Z_exact a Ha0 Ha) as (m & e & -> & He & _). apply Hfin. lia.
  - destruct (f64_of_Z_exact a Ha0 Ha) as (ma & ea & -> & Hea & Hma), (f64_of_Z_exact b Hb0 Hb) as (mb & eb & -> & Heb & Hmb).
    unfold f64_sub, SFsub. set (ez := Z.min ea eb).
    pose proof (shl_align_value ma ea ez) as Hxa. pose proof (shl_align_value mb eb ez) as Hxb.
    destruct (shl_align ma ea ez) as [xa ea'], (shl_align mb eb ez) as [xb eb']. destruct Hxa as [_ Hxa], Hxb as [_ Hxb]. cbn [fst].
    rewrite (Z.min_r ea ez) in Hxa by lia. rewrite (Z.min_r eb ez) in Hxb by lia.
    assert (Hpa : cond_Zopp (a <? 0) (Zpos xa) = a * 2 ^ (- ez)).
    { rewrite Hxa, Hma, <- Z.mul_assoc, <- Z.pow_add_r by lia. replace (- ea + (ea - ez)) with (- ez) by lia. destruct (Z.ltb_spec a 0); simpl; lia. }
    assert (Hpb : cond_Zopp (b <? 0) (Zpos xb) = b * 2 ^ (- ez)).
    { rewrite Hxb, Hmb, <- Z.mul_assoc, <- Z.pow_add_r by lia. replace (- eb + (eb - ez)) with (- ez) by lia. destruct (Z.ltb_spec b 0); simpl; lia. }
    rewrite Hpa, Hpb, <- Z.mul_sub_distr_r. assert (Hpow : 0 < 2 ^ (- ez)) by (apply Z.pow_pos_nonneg; lia).
    assert (Hround : forall s p, 2 ^ (- ez) <= Zpos p -> f64_ltb (f64_abs (binary_round 53 1024 s p ez)) f64_epsilon = false).
    { intros s p Hp. unfold binary_round. set (f := fexp 53 1024 (Zpos (digits2_pos p) + ez)). pose proof (shl_align_value p ez f) as Hs.
      destruct (shl_align p ez f) as [p1 e1]. destruct Hs as [-> _]. apply binary_round_aux_large.
      destruct (digits2_pos_bounds p) as [_ Hhi]. assert (- ez < Zpos (digits2_pos p)) by (apply (Z.pow_lt_mono_r_iff 2); lia).
      unfold f, fexp, emin. lia. }
    unfold binary_normalize. destruct ((a - b) * 2 ^ (- ez)) as [|p|p] eqn:Hd; [nia|apply Hround; nia..].
Qed.

(** * Held-back records would not pass the WHERE clause

    The predicate that [extract_bus_predicate] takes from a WHERE clause only holds back
    records on which the clause does not evaluate to true (Bus.v, Eval.v). *)

Section pushdown.
Context `{Text} `{Functions} `{WallClock} (record row_values : row).

(** The bus compares JSON values; a clause compares numbers up to a tolerance when it is one
    comparison, and across integers and floats.  The two can only be compared on values that
    are not both numbers, on integers that floats represent, and on floats that are the same
    or differ by more than the tolerance. *)
Definition comparable (v lit : value) : Prop :=
  is_number v && is_number lit = false \/
  (exists a b, v = value_of_i64 a /\ lit = value_of_i64 b /\ Z.abs a < 2 ^ 53 /\ Z.abs b < 2 ^ 53) \/
  (exists f g, v = VNumber (Float f) /\ lit = VNumber (Float g) /\ (f64_eqb f g = true \/ f64_leb f64_epsilon (f64_abs (f64_sub f g)) = true)).

(** On them both equalities of a clause are equality of JSON values. *)
Definition exact_equality (v lit : value) : Prop :=
  (fast_compare v Eq lit = Ok true -> value_eq v lit = true) /\ (values_equal v lit = true -> value_eq v lit = true).

(** The topic is in the metadata the bus looks at, under the key as written. *)
Definition topic_in_meta (id : string) : Prop :=
  id = "topic" /\ record !! "__mqtt__" = None /\ record !! "mqtt" = None /\
  exists m t, record !! "__meta__" = Some (VObject m) /\ object_get "topic" m = Some t.

(** Records on which the predicate of a clause stands for the clause: the value of a column
    that is tested for equality is comparable with the literal, columns are not the bounds of
    a window, and the topic is in the metadata. *)
Fixpoint bus_regular (e : Expr) : Prop :=
  match e with
  | BinaryOp l And r => bus_regular l /\ bus_regular r
  | BinaryOp (Identifier name) op (Literal lit) =>
      name <> "window_start" /\ name <> "window_end" /\ value_number_wf lit /\
      (forall v, record !! name = Some v -> value_number_wf v /\ (op = Eq -> comparable v lit))
  | BinaryOp (Call _ [Identifier id]) Eq (Literal (VString _)) => topic_in_meta id
  | _ => True
  end.

Lemma bus_regular_and l r : bus_regular (BinaryOp l And r) <-> bus_regular l /\ bus_regular r.
Proof. destruct l as [| | | | | | | | | | | |name [|[] [|]]| |]; try done; by destruct r. Qed.

Lemma eval_identifier_none name : record !! name = None -> name <> "window_start" -> name <> "window_end" ->
  eval_identifier record name = VNull.
Proof. intros Hr Hs He. unfold eval_identifier. rewrite Hr, bool_decide_eq_false_2; [done|]. by intros [-> | ->]. Qed.

Lemma value_eq_null v : value_eq v VNull = is_null v.
Proof. by destruct v. Qed.

(** Equal values are not unequal numbers. *)
Lemma value_eq_numbers v lit : is_number v = true -> is_number lit = true -> value_eq v lit = true -> values_equal v lit = true.
Proof.
  destruct v as [|b|x|s|a|o], lit as [|b'|y|s'|a'|o']; try done. intros _ _ Heq. cbn [value_eq] in Heq. unfold values_equal. cbn -[number_as_i64 number_as_u64].
  destruct x as [n|n|f], y as [n'|n'|f']; cbn in Heq |- *; try (apply bool_decide_eq_true in Heq; discriminate).
  - apply bool_decide_eq_true in Heq as [= ->]. by destruct (n' <=? i64_max); simpl; rewrite ?Z.eqb_refl.
  - apply bool_decide_eq_true in Heq as [= ->]. apply Z.eqb_refl.
  - done.
Qed.

Lemma f64_sub_equal x y : f64_eqb x y = true -> f64_leb f64_epsilon (f64_abs (f64_sub x y)) = false.
Proof.
  intros Heq. unfold f64_eqb, SFeqb in Heq.
  destruct x as [sx|sx| |sx mx ex], y as [sy|sy| |sy my ey]; try done; try (by destruct sx, sy); try (by destruct sx); try (by destruct sy).
  assert (sx = sy /\ mx = my /\ ex = ey) as (-> & -> & ->).
  { cbn [SFcompare] in Heq. destruct sx, sy; try done; destruct (ex ?= ey) eqn:Ee; try done; apply Z.compare_eq in Ee;
        change (Pos.compare_cont Datatypes.Eq mx my) with (mx ?= my)%positive in Heq; destruct (mx ?= my)%positive eqn:Em; simpl in Heq; try discriminate; apply Pos.compare_eq in Em; done. }
  unfold f64_sub, SFsub. by rewrite Z.sub_diag.
Qed.

Lemma f64_eqb_refl f : is_nan f = false -> f64_eqb f f = true.
Proof.
  destruct f as [[]|[]| |[] m e]; try done; intros _; unfold f64_eqb, SFeqb; cbn [SFcompare]; by rewrite Z.compare_refl, Pos.compare_cont_refl.
Qed.

Lemma as_f64_equal v lit lf rf : value_number_wf v -> as_f64 v = Some lf -> as_f64 lit = Some rf -> value_eq v lit = true ->
  f64_eqb lf rf = true.
Proof.
  intros Hwf Hl Hr Heq. pose proof (as_f64_not_nan _ _ Hwf Hl) as Hn.
  destruct v as [|b|x|s|a|o], lit as [|b'|y|s'|a'|o']; try done. simpl in Hl, Hr. injection Hl as <-. injection Hr as <-.
  cbn [value_eq] in Heq. destruct x, y; cbn [number_eq] in Heq; try done; apply bool_decide_eq_true in Heq; try discriminate;
    injection Heq as ->; by apply f64_eqb_refl.
Qed.

Lemma not_number_exact v lit : is_number v && is_number lit = false -> exact_equality v lit.
Proof.
  intros Hn. assert (Hv : values_equal v lit = true -> value_eq v lit = true).
  { unfold values_equal. rewrite Hn. by destruct (is_null v || is_null lit). }
  split; [|done]. unfold fast_compare. destruct (as_f64 v) as [f|] eqn:Ef, (as_f64 lit) as [g|] eqn:Eg;
    [by destruct v, lit|..]; intros Ht; (destruct (eval_binary_op_fallible v Eq lit) as [[]| |] eqn:Hb; try discriminate Ht);
    injection Ht as ->; revert Hb; unfold eval_binary_op_fallible, binary_eq;
    (case_match; [done|]); rewrite Hn; (case_match; [|done]); by intros [= ?].
Qed.

Lemma f64_ltb_not_leb a b : f64_ltb a b = true -> f64_leb b a = true -> False.
Proof.
  unfold f64_ltb, SFltb, f64_leb, SFleb, SFcompare.
  destruct a as [sa|sa| |sa ma ea], b as [sb|sb| |sb mb eb]; try (by destruct sa); try (by destruct sb); try (by destruct sa, sb); try done.
  change (Pos.compare_cont Datatypes.Eq) with Pos.compare. rewrite (Z.compare_antisym ea eb), (Pos.compare_antisym ma mb).
  destruct sa, sb; try done; destruct (ea ?= eb); simpl; try done; destruct (ma ?= mb)%positive; done.
Qed.

Lemma comparable_exact v lit : comparable v lit -> exact_equality v lit.
Proof.
  intros [Hn|[(a & b & -> & -> & Ha & Hb)|(f & g & -> & -> & Hfg)]]; [by apply not_number_exact| |].
  - assert (Hv : forall c, Z.abs c < 2 ^ 53 -> as_f64 (value_of_i64 c) = Some (f64_of_Z c) /\ as_i64 (value_of_i64 c) = Some c).
    { intros c Hc. unfold value_of_i64. destruct (Z.ltb_spec c 0); cbn; [done|]. by rewrite (proj2 (Z.leb_le c i64_max)) by (unfold i64_max; lia). }
    destruct (Hv a Ha) as [Hfa Hia], (Hv b Hb) as [Hfb Hib].
    assert (Heq : a = b -> value_eq (value_of_i64 a) (value_of_i64 b) = true).
    { intros ->. unfold value_of_i64. cbn. destruct (b <? 0); cbn; by apply bool_decide_eq_true. }
    split.
    + unfold fast_compare. rewrite Hfa, Hfb. destruct (decide (a = b)) as [Hab|Hab]; [auto|]. by rewrite f64_of_Z_apart.
    + unfold values_equal. rewrite Hia, Hib. cbn. intros Hab%Z.eqb_eq. auto.
  - assert (Heq : f64_eqb f g = true -> value_eq (VNumber (Float f)) (VNumber (Float g)) = true) by done.
    split.
    + unfold fast_compare. cbn [as_f64 number_as_f64]. destruct Hfg as [Hfg|Hfg]; [auto|]. intros [= Hlt]. by destruct (f64_ltb_not_leb _ _ Hlt Hfg).
    + unfold values_equal. cbn. intros Hab. destruct Hfg as [Hfg|Hfg]; [auto|]. by rewrite f64_sub_equal in Hfg.
Qed.

Lemma where_result_true o : where_result o = Ok true -> o = Ok (VBool true).
Proof. destruct o as [[]| |]; simpl; try done. by intros [= ->]. Qed.

Definition is_order (op : BinaryOperator) : Prop := op = Lt \/ op = Lte \/ op = Gt \/ op = Gte.

Lemma order_not_number op v lit : is_number lit = true -> is_number v = false -> is_order op ->
  eval_binary_op_fallible v op lit <> Ok (VBool true).
Proof.
  intros Hl Hv Hop. unfold eval_binary_op_fallible. destruct lit; try done.
  by destruct v; try done; destruct Hop as [-> |[-> |[-> | ->]]].
Qed.

(** An ordering that fails on numbers, or is not between numbers, is not true. *)
Lemma order_sound op v lit : is_order op -> is_number lit = true -> value_number_wf v -> value_number_wf lit ->
  (forall n, as_f64 v = Some n -> fast_compare v op lit = Ok false) ->
  fast_compare v op lit <> Ok true /\ eval_binary_op_fallible v op lit <> Ok (VBool true).
Proof.
  intros Hop Hl Hwf Hwl Hfail. destruct (as_f64 v) as [n|] eqn:Hv.
  - rewrite (Hfail n eq_refl). split; [done|]. intros Ht. specialize (Hfail n eq_refl).
    rewrite fast_compare_agrees, Ht in Hfail; [done|done|done|]. intros [[-> | ->] _]; by destruct Hop as [|[|[|]]].
  - assert (is_number v = false) as Hn by (by destruct v). pose proof (order_not_number op v lit Hl Hn Hop) as Hg.
    split; [|done]. unfold fast_compare. rewrite Hv. by intros ?%where_result_true.
Qed.

(** A comparison on its own: what its predicate holds back is not true. *)
Lemma field_test_sound name op lit p v : field_test op name lit = Some p -> matches p record = false ->
  record !! name = Some v -> (op = Eq -> exact_equality v lit) -> value_number_wf v -> value_number_wf lit ->
  fast_compare v op lit <> Ok true /\ eval_binary_op_fallible v op lit <> Ok (VBool true).
Proof.
  intros Hp Hm Hv Heq Hwf Hwl. destruct op; try discriminate; simpl in Hp.
  3-6: destruct (as_f64 lit) as [u|] eqn:Hu; [|done]; injection Hp as <-; simpl in Hm; unfold get_number in Hm; rewrite Hv in Hm;
    simpl in Hm; (apply order_sound; [unfold is_order; tauto|by destruct lit|done|done|]); intros n Hn; unfold fast_compare;
    rewrite Hn in Hm |- *; by rewrite Hu, <- Hm.
  - injection Hp as <-. simpl in Hm. rewrite Hv in Hm. simpl in Hm. destruct (Heq eq_refl) as [He1 He2]. split.
    + intros Hf. by rewrite He1 in Hm.
    + unfold eval_binary_op_fallible. case_match; [done|]. unfold binary_eq. case_match; [|case_match; [|done]]; intros [= Ht].
      * rewrite He2 in Hm; [done|by destruct (values_equal v lit)].
      * by rewrite Hm in Ht.
  - injection Hp as <-. simpl in Hm. rewrite Hv in Hm. simpl in Hm. apply negb_false_iff in Hm.
    assert (Hg : eval_binary_op_fallible v Neq lit <> Ok (VBool true)).
    { unfold eval_binary_op_fallible. case_match; [done|]. unfold binary_eq. case_match eqn:En.
      - apply andb_true_iff in En as [En1 En2]. by rewrite (value_eq_numbers v lit En1 En2 Hm).
      - case_match; [|done]. by rewrite Hm. }
    split; [|done]. unfold fast_compare. destruct (as_f64 v) as [lf|] eqn:El.
    + destruct (as_f64 lit) as [rf|] eqn:Er; [|by intros ?%where_result_true].
      rewrite f64_sub_equal; [done|]. by apply (as_f64_equal v lit).
    + by intros ?%where_result_true.
Qed.

(** The call of [meta(topic)] gives the topic of the metadata. *)
Lemma eval_topic name id m t st : eq_ignore_ascii_case name "meta" || eq_ignore_ascii_case name "mqtt" = true ->
  id = "topic" -> record !! "__mqtt__" = None -> record !! "mqtt" = None -> record !! "__meta__" = Some (VObject m) ->
  object_get "topic" m = Some t -> eval_expr record row_values (Call name [Identifier id]) st = (Ok t, st).
Proof.
  intros Hname -> Hq1 Hq2 Hm Ht.
  assert (Hl : to_ascii_lowercase name = "meta" \/ to_ascii_lowercase name = "mqtt").
  { unfold eq_ignore_ascii_case in Hname. by apply orb_true_iff in Hname as [Hn|Hn]; apply bool_decide_eq_true in Hn; [left|right]. }
  cbn [eval_expr]. assert (Ha : is_analytic_expr (Call name [Identifier "topic"]) = false).
  { cbn [is_analytic_expr]. by destruct Hl as [-> | ->]. }
  rewrite Ha, andb_false_r. unfold call_step, eval_context_call.
  destruct Hl as [-> | ->]; cbn -[resolve_meta]; unfold ret; repeat f_equal; unfold resolve_meta, first_present;
    cbn [omap list_omap]; rewrite ?Hq1, ?Hq2, Hm; simpl; unfold meta_get; by rewrite Ht.
Qed.

Lemma topic_test_shape l op r topic : topic_test l op r = Some topic -> exists name id,
  op = Eq /\ l = Call name [Identifier id] /\ r = Literal (VString topic) /\
  eq_ignore_ascii_case name "meta" || eq_ignore_ascii_case name "mqtt" = true.
Proof.
  unfold topic_test. intros Ht. repeat case_match; simplify_eq. do 2 eexists. split_and!; try done.
  match goal with H : _ && _ = true |- _ => by apply andb_true_iff in H as [? _] end.
Qed.

Lemma comparison_shape l op r p : comparison_predicate l op r = Some p ->
  (exists topic, topic_test l op r = Some topic /\ p = TopicEq topic) \/
  (exists name lit, l = Identifier name /\ r = Literal lit /\ field_test op name lit = Some p).
Proof.
  unfold comparison_predicate. destruct (topic_test l op r) as [topic|]; [intros [= <-]; left; by eexists|].
  intros Hp. right. destruct l; try discriminate. destruct r; try discriminate. by do 2 eexists.
Qed.

(** What a topic predicate holds back is not true either. *)
Lemma topic_test_sound l op r topic st : topic_test l op r = Some topic -> matches (TopicEq topic) record = false ->
  bus_regular (BinaryOp l op r) -> (eval_expr record row_values (BinaryOp l op r) st).1 <> Ok (VBool true).
Proof.
  intros Ht Hm Hreg. apply topic_test_shape in Ht as (name & id & -> & -> & -> & Hn).
  cbn [bus_regular] in Hreg. destruct Hreg as (Hid & Hq1 & Hq2 & m & t & Hmeta & Ht).
  rewrite (eval_binary record row_values _ _ _ t (VString topic)); [|intros; by eapply eval_topic|intros; apply eval_literal].
  simpl in Hm. rewrite Hmeta in Hm. simpl in Hm. rewrite Ht in Hm. simpl in Hm.
  destruct t as [| | |s| |]; try done. simpl in Hm |- *. unfold eval_binary_op_fallible, binary_eq. cbn. intros [= He].
  rewrite bool_decide_eq_true in He. injection He as ->. by rewrite bool_decide_eq_true_2 in Hm.
Qed.

Lemma comparison_sound l op r p st : comparison_predicate l op r = Some p -> matches p record = false -> op <> And ->
  bus_regular (BinaryOp l op r) ->
  (eval_expr record row_values (BinaryOp l op r) st).1 <> Ok (VBool true) /\
  (eval_bool_stateful_fallible record row_values (BinaryOp l op r) st).1 <> Ok true.
Proof.
  intros Hp Hm Hop Hreg. apply comparison_shape in Hp as [(topic & Ht & ->)|(name & lit & -> & -> & Hf)].
  - pose proof (topic_test_sound l op r topic st Ht Hm Hreg) as Hs. split; [done|].
    apply topic_test_shape in Ht as (name & id & -> & -> & -> & _). cbn [eval_bool_stateful_fallible]. unfold eval_bool_general.
    destruct (eval_expr _ _ _ st) as [o st']. simpl in Hs |- *. by intros ?%where_result_true.
  - assert (Hreg' : name <> "window_start" /\ name <> "window_end" /\ value_number_wf lit /\
      (forall v, record !! name = Some v -> value_number_wf v /\ (op = Eq -> comparable v lit))) by (by destruct op).
    destruct Hreg' as (Hs & He & Hwl & Hv). cbn [eval_bool_stateful_fallible].
    destruct (record !! name) as [v|] eqn:Hr.
    + destruct (Hv v eq_refl) as [Hwf Heq]. destruct (field_test_sound name op lit p v Hf Hm Hr (fun Ho => comparable_exact v lit (Heq Ho)) Hwf Hwl) as [H2 H3].
      unfold ret. rewrite (eval_binary record row_values _ _ _ v lit); [done|intros; by apply eval_column|intros; apply eval_literal].
    + assert (Hnull : (eval_expr record row_values (BinaryOp (Identifier name) op (Literal lit)) st).1 <> Ok (VBool true)).
      { rewrite (eval_binary record row_values _ _ _ VNull lit); [|intros st'|intros; apply eval_literal].
        - unfold eval_binary_op_fallible. simpl. by destruct op.
        - simpl. rewrite andb_false_r. unfold ret. by rewrite eval_identifier_none. }
      split; [done|]. unfold eval_bool_general. destruct (eval_expr _ _ _ st) as [o st']. simpl in Hnull |- *. by intros ?%where_result_true.
Qed.

Lemma conjunction_true l r st : (eval_expr record row_values (BinaryOp l And r) st).1 = Ok (VBool true) ->
  (exists st1, (eval_expr record row_values l st1).1 = Ok (VBool true)) /\
  (exists st1, (eval_expr record row_values r st1).1 = Ok (VBool true)).
Proof.
  cbn [eval_expr is_analytic_expr]. rewrite andb_false_r. unfold bind_to, mbind, M_bind.
  destruct (eval_expr record row_values l st) as [[lv| |] st1] eqn:El; try done.
  destruct (eval_expr record row_values r st1) as [[rv| |] st2] eqn:Er; try done. simpl. unfold eval_binary_op_fallible.
  case_match; [done|]. unfold binary_logic. destruct lv as [|bl| | | |]; try done. destruct rv as [|br| | | |]; try done. simpl.
  intros [= Hb]. apply andb_true_iff in Hb as [-> ->]. split; [exists st; by rewrite El|exists st1; by rewrite Er].
Qed.

Lemma pushdown_general e : forall p st, extract_bus_predicate e = Some p -> bus_regular e -> matches p record = false ->
  (eval_expr record row_values e st).1 <> Ok (VBool true).
Proof.
  induction e as [| | | |l IHl op r IHr| | | | | | | | | |] using Expr_ind; intros p st Hp Hreg Hm; try discriminate.
  destruct (decide (op = And)) as [->|Hop].
  - rewrite bus_regular_and in Hreg. destruct Hreg as [Hl Hr]. cbn [extract_bus_predicate] in Hp.
    intros [[st1 H2] [st2 H3]]%conjunction_true. destruct (extract_bus_predicate l) as [pl|] eqn:El.
    + destruct (extract_bus_predicate r) as [pr|] eqn:Er; injection Hp as <-.
      * simpl in Hm. rewrite andb_true_r in Hm. apply andb_false_iff in Hm as [Hm|Hm]; [by eapply IHl|by eapply IHr].
      * by eapply IHl.
    + destruct (extract_bus_predicate r) as [pr|] eqn:Er; [|done]. injection Hp as <-. by eapply IHr.
  - assert (comparison_predicate l op r = Some p) as Hp' by (by destruct op). by eapply comparison_sound.
Qed.

(** C15. The predicate that is pushed down to the bus only holds back records on which the WHERE
    clause is not true: when the predicate extracted from a clause does not match a record,
    as the bus delivers it and before a schema has coerced it, the clause does not evaluate to
    true on that record, whatever the state of the rule.  The record must be regular: the
    values tested for equality are comparable with the literals (not both numbers, or integers
    below 2^53 in size, or floats that are the same or further apart than the tolerance), no
    column is a window bound, and [meta(topic)] finds its topic in the metadata.  (A schema
    coerces after the bus has filtered, see [bus_before_coercion]; irregular records are lost,
    see [bus_drops_matching_records].) *)
Theorem bus_filter_sound e p st : extract_bus_predicate e = Some p -> bus_regular e -> matches p record = false ->
  (eval_bool_stateful_fallible record row_values e st).1 <> Ok true.
Proof.
  intros Hp Hreg Hm. destruct e as [| | | |l op r| | | | | | | | | |]; try discriminate.
  destruct (decide (op = And)) as [->|Hop].
  - pose proof (pushdown_general _ p st Hp Hreg Hm) as Hg.
    replace (eval_bool_stateful_fallible record row_values (BinaryOp l And r)) with (eval_bool_general record row_values (BinaryOp l And r)).
    + unfold eval_bool_general. destruct (eval_expr _ _ _ st) as [o st']. simpl in Hg |- *. by intros ?%where_result_true.
    + destruct l; try done; destruct r; done.
  - assert (comparison_predicate l op r = Some p) as Hp' by (by destruct op). by eapply comparison_sound.
Qed.
End pushdown.

(** ** Samples, and records that are held back although they pass *)

Module BusSample.
#[export] Instance no_text : Text := {|
  value_to_string _ := "v"; map_to_json _ := "{}"; parse_rfc3339 _ := None;
|}.
#[export] Instance no_functions : Functions := {|
  eval_call_fallible _ _ := Ok VNull; eval_call _ _ := VNull; expr_debug _ := "";
|}.
#[export] Instance no_clock : WallClock := 0.

(** [kind = 'pump' AND n = 7 AND temp > 20 AND f(x)] *)
Definition clause : Expr :=
  BinaryOp (BinaryOp (BinaryOp (BinaryOp (Identifier "kind") Eq (Literal (VString "pump"))) And
                               (BinaryOp (Identifier "n") Eq (Literal (value_of_i64 7)))) And
                     (BinaryOp (Identifier "temp") Gt (Literal (value_of_i64 20))))
    And (Call "f" [Identifier "x"]).
Definition held_back : row := {["kind" := VString "pump"; "n" := value_of_i64 8; "temp" := value_of_i64 21]}.

(** A number equal to the literal, but written as a float; a column named topic; a window
    bound under its internal name: the clause holds and the record is held back. *)
Lemma bus_drops_matching_records :
  let verdict e (r : row) := ((fun p => matches p r) <$> extract_bus_predicate e, (eval_bool_stateful_fallible r ∅ e ∅).1) in
  verdict (BinaryOp (Identifier "t") Eq (Literal (value_of_i64 20))) {["t" := VNumber (Float (f64_of_Z 20))]} = (Some false, Ok true) /\
  verdict (BinaryOp (Call "meta" [Identifier "topic"]) Eq (Literal (VString "a"))) {["topic" := VString "a"]} = (Some false, Ok true) /\
  verdict (BinaryOp (Identifier "window_start") Lt (Literal (value_of_i64 5))) {["__window_start__" := value_of_i64 1]}
    = (Some false, Ok true).
Proof. split_and!; vm_compute; reflexivity. Qed.
End BusSample.
Import BusSample.

Lemma bus_filter_sound_witness :
  matches (PredAnd [PredAnd [FieldEq "kind" (VString "pump"); FieldEq "n" (value_of_i64 7)]; FieldGt "temp" (f64_of_Z 20)]) held_back = false /\
  (eval_bool_stateful_fallible held_back ∅ clause ∅).1 <> Ok true.
Proof.
  split; [by vm_compute|]. eapply (bus_filter_sound held_back ∅ clause); [reflexivity| |by vm_compute].
  unfold clause. rewrite !bus_regular_and. split; [|done]. split; [split|].
  - split_and!; [done|done|done|]. intros v Hv. vm_compute in Hv. injection Hv as <-. split; [done|]. intros _. by left.
  - split_and!; [done|done|by vm_compute|]. intros v Hv. vm_compute in Hv. injection Hv as <-. split; [by vm_compute|]. intros _. right. left.
    exists 8, 7. done.
  - split_and!; [done|done|by vm_compute|]. intros v Hv. vm_compute in Hv. injection Hv as <-. split; [by vm_compute|done].
Defined.
