(* ===== verification/StreamBus.v ===== *)
(** * The stream bus ([StreamBus] of [crates/rekuiper-core/src/runtime.rs])

    Publishing records to the subscribers of a topic: one record with or without waiting
    for capacity, and a batch that is reserved and committed in chunks.  A subscriber's
    queue is what it has received, how its channel answers reservations (it may never
    answer), and what other publishers put into it between the records of this one: a
    publisher that tested [batch_active] before a batch started sends without the admission
    gate.  The gate keeps every other publication out, so an operation is a function of the
    topic. *)

From S2P Require Import Prelude Rust Json Ast Engine Counters Bus.

Set Default Goal Selector "!".

(** ** Subscribers *)

(** What a channel answers to a reservation that its capacity allows: there is room; it is
    full, and after a wait there is room, or it has closed meanwhile; it is full, and its
    receiver never takes a record; or it is closed. *)
Inductive Reserve := Room | FullThen (granted : bool) | FullForever | Gone.

Record Subscriber := mkSubscriber {
  capacity : nat;
  predicate : option BusPredicate;
  counters : RuleCounters;
  closed : bool;
  reserve : nat -> Reserve;
  between : nat -> list StreamRecord;
  received : list StreamRecord;
}.

Definition set_counters (c : RuleCounters) (s : Subscriber) : Subscriber :=
  mkSubscriber (capacity s) (predicate s) c (closed s) (reserve s) (between s) (received s).
(** One reservation has been answered; a refused one shows that the channel is closed. *)
Definition answered (granted : bool) (s : Subscriber) : Subscriber :=
  mkSubscriber (capacity s) (predicate s) (counters s) (negb granted) (fun i => reserve s (S i)) (between s) (received s).

(** Records in a queue, each behind what others have put there before it. *)
Fixpoint weave (others : nat -> list StreamRecord) (rs : list StreamRecord) : list StreamRecord :=
  match rs with
  | [] => []
  | r :: rs => others 0%nat ++ r :: weave (fun i => others (S i)) rs
  end.

Definition deliver (rs : list StreamRecord) (s : Subscriber) : Subscriber :=
  mkSubscriber (capacity s) (predicate s) (counters s) (closed s) (reserve s) (fun i => between s (length rs + i)%nat)
    (received s ++ weave (between s) rs).

(** The filter of a subscriber on one record; on the records of a chunk, those it keeps. *)
Definition check (r : StreamRecord) (s : Subscriber) : bool * Subscriber :=
  match predicate s with
  | Some p => let '(pass, c) := check_and_account p (data r) (counters s) in (pass, set_counters c s)
  | None => (true, s)
  end.

Fixpoint keep (rs : list StreamRecord) (s : Subscriber) : list StreamRecord * Subscriber :=
  match rs with
  | [] => ([], s)
  | r :: rs =>
      let '(pass, s) := check r s in
      let '(kept, s) := keep rs s in
      (if pass then r :: kept else kept, s)
  end.

(** [try_reserve], without waiting. *)
Inductive TryReserve := Granted | IsFull | IsClosed.
Definition try_reserve (s : Subscriber) : TryReserve * Subscriber :=
  if closed s then (IsClosed, s)
  else
    match reserve s 0 with
    | Room => (Granted, answered true s)
    | FullThen _ | FullForever => (IsFull, answered true s)
    | Gone => (IsClosed, answered false s)
    end.

(** [try_reserve_many], then [reserve_many] when it is full, which waits without a bound
    ([None]: for ever); more slots than the channel has are refused at once. *)
Definition reserve_many (n : nat) (s : Subscriber) : option bool * Subscriber :=
  if closed s then (Some false, s)
  else if (capacity s <? n)%nat then (Some false, s)
  else
    match reserve s 0 with
    | Room | FullThen true => (Some true, answered true s)
    | FullThen false | Gone => (Some false, answered false s)
    | FullForever => (None, s)
    end.

(** ** Topics *)

Abbreviation Topic := (list Subscriber).

Inductive PublishError := NoSubscribers | Full | Closed.
Abbreviation published := (nat + PublishError)%type.

Definition purge_closed (t : Topic) : Topic := List.filter (fun s => negb (closed s)) t.

(** To the only subscriber of a topic; [None]: the publication waits for ever. *)
Definition publish_single (r : StreamRecord) (s : Subscriber) : option published * Topic :=
  let '(pass, s) := check r s in
  if pass then
    let '(granted, s) := reserve_many 1 s in
    match granted with
    | Some true => (Some (inl 1%nat), [deliver [r] s])
    | Some false => (Some (inr Closed), purge_closed [s])
    | None => (None, [s])
    end
  else (Some (inl 0%nat), [s]).

(** What a record meets at a subscriber: it is filtered out, admitted, or refused, or waits. *)
Inductive Admission := Filtered | Accepted | Refused | Waiting.
#[export] Instance Admission_eq_dec : EqDecision Admission.
Proof. solve_decision. Defined.

Definition admission (granted : option bool) : Admission :=
  match granted with Some true => Accepted | Some false => Refused | None => Waiting end.

Definition ask (r : StreamRecord) (s : Subscriber) : Admission * Subscriber :=
  let '(pass, s) := check r s in
  if pass then let '(granted, s) := reserve_many 1 s in (admission granted, s)
  else (Filtered, s).

Definition send_admitted (rs : list StreamRecord) (x : Admission * Subscriber) : Subscriber :=
  match x.1 with Accepted => deliver rs x.2 | _ => x.2 end.

Definition count (a : Admission) (l : list (Admission * Subscriber)) : nat :=
  length (List.filter (fun x => bool_decide (x.1 = a)) l).

(** To several: a slot is reserved at each, one after the other, before the record is sent to
    any; the subscribers behind one that never answers are not asked. *)
Fixpoint ask_all (r : StreamRecord) (t : Topic) : list (Admission * Subscriber) :=
  match t with
  | [] => []
  | s :: t => match ask r s with (Waiting, s) => [(Waiting, s)] ++ map (pair Filtered) t | x => x :: ask_all r t end
  end.

Definition publish_many (r : StreamRecord) (t : Topic) : option published * Topic :=
  let selected := purge_closed t in
  match selected with
  | [] => (Some (inr Closed), [])
  | _ =>
      let asked := ask_all r selected in
      if (count Waiting asked =? 0)%nat then
        let t := purge_closed (map (send_admitted [r]) asked) in
        match count Accepted asked with
        | O => (Some (if (count Refused asked =? 0)%nat then inl 0%nat else inr Closed), t)
        | n => (Some (inl n), t)
        end
      else (None, map snd asked)
  end.

Definition publish_async_topic (r : StreamRecord) (t : Topic) : option published * Topic :=
  match t with
  | [] => (Some (inl 0%nat), [])
  | [s] => publish_single r s
  | _ => publish_many r t
  end.

(** Without waiting, after the filters: [Full] as soon as one queue is full, and then
    nothing is sent. *)
Fixpoint try_all (l : list (bool * Subscriber)) : bool * list (Admission * Subscriber) :=
  match l with
  | [] => (true, [])
  | (false, s) :: l => let '(room, asked) := try_all l in (room, (Filtered, s) :: asked)
  | (true, s) :: l =>
      match try_reserve s with
      | (IsFull, s) => (false, (Refused, s) :: map (fun x => (Filtered, x.2)) l)
      | (Granted, s) => let '(room, asked) := try_all l in (room, (Accepted, s) :: asked)
      | (IsClosed, s) => let '(room, asked) := try_all l in (room, (Refused, s) :: asked)
      end
  end.

Definition try_single (r : StreamRecord) (s : Subscriber) : published * Topic :=
  let '(pass, s) := check r s in
  if pass then
    match try_reserve s with
    | (Granted, s) => (inl 1%nat, [deliver [r] s])
    | (IsClosed, s) => (inr Closed, purge_closed [s])
    | (IsFull, s) => (inr Full, [s])
    end
  else (inl 0%nat, [s]).

Definition try_many (r : StreamRecord) (t : Topic) : published * Topic :=
  match purge_closed t with
  | [] => (inr Closed, [])
  | selected =>
      let checks := map (check r) selected in
      if forallb (fun x => negb x.1) checks then (inl 0%nat, map snd checks)
      else
        let '(room, asked) := try_all checks in
        if room then
          match count Accepted asked with
          | O => (inr Closed, purge_closed (map snd asked))
          | n => (inl n, map (send_admitted [r]) asked)
          end
        else (inr Full, map snd asked)
  end.

(** [try_publish_topic], while a batch is being admitted or another publisher holds the
    gate, or neither. *)
Definition try_publish_topic (batch_active gate_held : bool) (r : StreamRecord) (t : Topic) : published * Topic :=
  match t with
  | [] => (inr NoSubscribers, [])
  | [s] => if batch_active then if gate_held then (inr Full, t) else try_many r t else try_single r s
  | _ => if gate_held then (inr Full, t) else try_many r t
  end.

(** ** Batches *)

Definition ADMISSION_CHUNK_RECORDS : nat := 512.

(** A subscriber with whether it still is in the selection of the batch. *)
Abbreviation Selected := (bool * Subscriber)%type.

(** What a chunk meets at a subscriber: none of its records pass the filter, or slots for
    those that do are admitted or refused, or waited for. *)
Definition admit_chunk (chunk : list StreamRecord) (x : Selected) : Admission * list StreamRecord * Selected :=
  let '(selected, s) := x in
  if selected then
    match keep chunk s with
    | ([], s) => (Filtered, [], (true, s))
    | (kept, s) =>
        let '(granted, s) := reserve_many (length kept) s in
        (admission granted, kept, (true, s))
    end
  else (Filtered, [], x).

(** A subscriber whose filter has seen the chunk, but that was not asked for slots. *)
Definition unasked (chunk : list StreamRecord) (x : Selected) : Selected := (x.1, if x.1 then (keep chunk x.2).2 else x.2).

(** The subscribers are asked one after the other, until one never answers: [inl], with the
    selection as the publication leaves it. *)
Fixpoint admit_all (chunk : list StreamRecord) (t : list Selected) : list Selected + list (Admission * list StreamRecord * Selected) :=
  match t with
  | [] => inr []
  | x :: t =>
      match admit_chunk chunk x with
      | (Waiting, _, x) => inl (x :: map (unasked chunk) t)
      | (_, _, x') as y => match admit_all chunk t with inl t => inl (x' :: t) | inr l => inr (y :: l) end
      end
  end.

Definition is_admission (a : Admission) (x : Admission * list StreamRecord * Selected) : bool := bool_decide (x.1.1 = a).

Definition commit_chunk (x : Admission * list StreamRecord * Selected) : Selected :=
  let '(a, kept, (selected, s)) := x in
  match a with
  | Accepted => (selected, deliver kept s)
  | Filtered | Waiting => (selected, s)
  | Refused => (false, s)
  end.

(** The records not delivered to subscribers that closed after the first commit. *)
Definition missed (committed : bool) (refused remaining : nat) : Z :=
  if committed then Z.of_nat (refused * remaining) else 0.

(** The loop of [publish_batch_topic] over the records that remain; no result: it waits for
    ever. *)
Fixpoint batch_loop (fuel : nat) (records : list StreamRecord) (t : list Selected) (committed : bool) (undelivered : Z)
    : option (option published * list Selected * Z) :=
  match fuel, records with
  | _, [] => Some (Some (inl (length (List.filter fst t))), t, undelivered)
  | O, _ => None
  | S fuel, _ =>
      let chunk := take ADMISSION_CHUNK_RECORDS records in
      let rest := drop ADMISSION_CHUNK_RECORDS records in
      match admit_all chunk t with
      | inl t => Some (None, t, undelivered)
      | inr asked =>
          if forallb (is_admission Filtered) asked then batch_loop fuel rest (map snd asked) true undelivered
          else
            let refused := length (List.filter (is_admission Refused) asked) in
            let undelivered := undelivered + missed committed refused (length records) in
            if existsb (is_admission Accepted) asked
            then batch_loop fuel rest (map commit_chunk asked) true undelivered
            else Some (Some (if committed then inl 0%nat else inr Closed), map commit_chunk asked, undelivered)
      end
  end.

Definition publish_batch_topic (records : list StreamRecord) (t : Topic) : option (option published * Topic * Z) :=
  match records, t with
  | [], _ | _, [] => Some (Some (inl 0%nat), t, 0)
  | _, _ =>
      match purge_closed t with
      | [] => Some (Some (inr Closed), [], 0)
      | selected =>
          '(result, t, undelivered) ← batch_loop (length records) records (pair true <$> selected) false 0;
          Some (result, match result with Some _ => purge_closed (snd <$> t) | None => snd <$> t end, undelivered)
      end
  end.

(** * What the stream bus promises

    A publication that cannot be completed leaves every queue as it was; a batch arrives
    at every subscriber in order, up to the point where the subscriber was lost or the
    publication waits. *)

(** Whether a record passes the filter of a subscriber. *)
Definition passes (s : Subscriber) (r : StreamRecord) : bool := (check r s).1.

(** ** Subscribers *)

(** What an operation may do to a subscriber besides delivering [rs]. *)
Definition gains (rs : list StreamRecord) (s s' : Subscriber) : Prop :=
  received s' = received s ++ weave (between s) rs /\ predicate s' = predicate s /\ capacity s' = capacity s /\
  forall i, between s' i = between s (length rs + i)%nat.

Lemma weave_ext f g rs : (forall i, f i = g i) -> weave f rs = weave g rs.
Proof. revert f g. induction rs as [|r rs IH]; intros f g Hfg; [done|]. simpl. rewrite (Hfg 0%nat). do 2 f_equal. by apply IH. Qed.

Lemma weave_app f rs1 rs2 : weave f (rs1 ++ rs2) = weave f rs1 ++ weave (fun i => f (length rs1 + i)%nat) rs2.
Proof. revert f. induction rs1 as [|r rs1 IH]; intros f; [done|]. simpl. rewrite IH, <- app_assoc. done. Qed.

(** When no other publisher gets in between, the records are contiguous. *)
Lemma weave_alone f rs : (forall i, f i = []) -> weave f rs = rs.
Proof. revert f. induction rs as [|r rs IH]; intros f Hf; [done|]. simpl. rewrite Hf, IH; [done|]. intros i. apply Hf. Qed.

Lemma gains_refl s : gains [] s s.
Proof. split_and!; [by rewrite app_nil_r|done|done|done]. Qed.

Lemma gains_trans rs1 rs2 s s1 s2 : gains rs1 s s1 -> gains rs2 s1 s2 -> gains (rs1 ++ rs2) s s2.
Proof.
  intros (H1 & H2 & H3 & H4) (H5 & H6 & H7 & H8). split_and!; [|congruence|congruence|].
  - rewrite H5, H1, weave_app, app_assoc. f_equal. by apply weave_ext.
  - intros i. rewrite H8, H4, length_app. f_equal. lia.
Qed.

Lemma gains_deliver rs s : gains rs s (deliver rs s).
Proof. done. Qed.

Lemma passes_pred s s' r : predicate s' = predicate s -> passes s' r = passes s r.
Proof.
  intros Hp. unfold passes, check. rewrite Hp. destruct (predicate s) as [p|]; [|done]. unfold check_and_account.
  by repeat case_match; simplify_eq.
Qed.

Lemma check_gains r s : gains [] s (check r s).2.
Proof.
  unfold check. destruct (predicate s) as [p|] eqn:Hp; [|apply gains_refl]. destruct (check_and_account _ _ _).
  split_and!; [by rewrite app_nil_r|done|done|done].
Qed.

Lemma check_closed r s : closed (check r s).2 = closed s /\ reserve (check r s).2 = reserve s.
Proof. unfold check. destruct (predicate s); [|done]. by destruct (check_and_account _ _ _). Qed.

Lemma keep_spec rs s : (keep rs s).1 = List.filter (passes s) rs /\ gains [] s (keep rs s).2 /\
  closed (keep rs s).2 = closed s /\ reserve (keep rs s).2 = reserve s.
Proof.
  revert s. induction rs as [|r rs IH]; intros s; [by split_and!; try apply gains_refl|]. cbn [keep].
  pose proof (check_gains r s) as Hg. pose proof (check_closed r s) as [Hc Hr]. unfold passes at 1.
  destruct (check r s) as [pass s1] eqn:Hcheck. simpl in Hg, Hc, Hr. destruct (IH s1) as (Hk & Hg' & Hc' & Hr').
  destruct (keep rs s1) as [kept s2]. simpl in *. split_and!; [|by apply (gains_trans [] [] s s1 s2)|congruence|congruence].
  rewrite Hk, (List.filter_ext (passes s1) (passes s)).
  - unfold passes at 2. by rewrite Hcheck.
  - intros a. apply passes_pred. apply Hg.
Qed.

Lemma answered_gains b s : gains [] s (answered b s).
Proof. split_and!; [by rewrite app_nil_r|done|done|done]. Qed.

#[local] Hint Resolve gains_refl answered_gains : core.

Lemma reserve_many_gains n s : gains [] s (reserve_many n s).2.
Proof. unfold reserve_many. repeat case_match; simpl; auto. Qed.

Lemma try_reserve_gains s : gains [] s (try_reserve s).2.
Proof. unfold try_reserve. repeat case_match; simpl; auto. Qed.

Lemma try_reserve_closed s s' : try_reserve s = (IsClosed, s') -> closed s' = true.
Proof. unfold try_reserve. repeat case_match; intros [= <-]; done. Qed.

(** ** One record without waiting *)

(** What is left of a topic: subscribers are only dropped when they are closed. *)
Inductive left_of : Topic -> Topic -> Prop :=
  | left_nil : left_of [] []
  | left_keep s t t' : left_of t t' -> left_of (s :: t) (s :: t')
  | left_drop s t t' : closed s = true -> left_of t t' -> left_of (s :: t) t'.

(** A subscriber after an attempt to publish [r] that succeeded or not, with what it got. *)
Definition tried (r : StreamRecord) (sent : bool) (s : Subscriber) (got : list StreamRecord) (s' : Subscriber) : Prop :=
  gains got s s' /\
  (got = [] /\ (sent = true -> passes s r = false \/ closed s' = true) \/ got = [r] /\ sent = true /\ passes s r = true).

Definition is_sent (res : published) : bool := match res with inl _ => true | inr _ => false end.

Lemma left_of_refl t : left_of t t.
Proof. induction t; by constructor. Qed.

Lemma left_of_purge t : left_of t (purge_closed t).
Proof. induction t as [|s t IH]; [constructor|]. unfold purge_closed. simpl. destruct (closed s) eqn:Hc; by constructor. Qed.

(** An operation that starts by dropping the closed subscribers. *)
Lemma lift_purge r sent t gs full t' : Forall3 (tried r sent) (purge_closed t) gs full -> left_of full t' ->
  exists gs' full', Forall3 (tried r sent) t gs' full' /\ left_of full' t' /\ concat gs' = concat gs.
Proof.
  revert gs full t'. unfold purge_closed. induction t as [|s t IH]; intros gs full t' Hall Hleft.
  { simpl in Hall. inversion Hall; subst. by exists [], []. }
  simpl in Hall. destruct (closed s) eqn:Hc; simpl in Hall.
  - destruct (IH _ _ _ Hall Hleft) as (gs' & full' & Hall' & Hf & Hcat). exists ([] :: gs'), (s :: full'). split_and!; [|by constructor|done].
    constructor; [|done]. split; [apply gains_refl|]. left. split; [done|]. by right.
  - inversion Hall as [|? g s' ? gs1 full1 Hone Hrest]; subst. inversion Hleft as [|? ? t1 Hl|? ? ? Hs' Hl]; subst;
      destruct (IH _ _ _ Hrest Hl) as (gs' & full' & Hall' & Hf & Hcat); exists (g :: gs'), (s' :: full');
      (split_and!; [by constructor|by constructor|simpl; by rewrite Hcat]).
Qed.

Definition got (rs : list StreamRecord) (x : Admission * Subscriber) : list StreamRecord :=
  match x.1 with Accepted => rs | _ => [] end.

Lemma count_got r asked : count Accepted asked = length (concat (map (got [r]) asked)).
Proof.
  unfold count. induction asked as [|[[] s] l IH]; simpl; by rewrite ?IH.
Qed.

Lemma none_admitted r asked : count Accepted asked = 0%nat ->
  map (got [r]) asked = map (fun _ => []) asked /\ map (send_admitted [r]) asked = map snd asked.
Proof.
  unfold count. induction asked as [|[a s] l IH]; [done|]. simpl. destruct a; simpl; [|done| |]; intros Hc; destruct (IH Hc) as [H1 H2];
    (split; [by rewrite <- H1|by rewrite <- H2]).
Qed.

Lemma tried_not_sent r b s s' : tried r b s [] s' -> tried r false s [] s'.
Proof. intros [Hg _]. split; [done|]. left. by split. Qed.

Lemma gains_from g s s1 s2 : gains [] s s1 -> gains g s1 s2 -> gains g s s2.
Proof. apply (gains_trans []). Qed.

(** One reservation after the filter. *)
Lemma try_one r s : let '(pass, s1) := check r s in
  if pass then
    match try_reserve s1 with
    | (Granted, s2) => tried r true s [r] (deliver [r] s2) /\ tried r false s [] s2
    | (IsClosed, s2) => tried r true s [] s2
    | (IsFull, s2) => tried r false s [] s2
    end
  else tried r true s [] s1.
Proof.
  pose proof (check_gains r s) as Hg. pose proof (eq_refl (passes s r)) as Hp. unfold passes at 2 in Hp.
  destruct (check r s) as [pass s1]. simpl in Hg, Hp. destruct pass.
  - pose proof (try_reserve_gains s1) as Hg1. pose proof (try_reserve_closed s1) as Hc. destruct (try_reserve s1) as [[] s2]; simpl in Hg1.
    + split; (split; [|try (by right); by left]); eapply gains_from; try done; by eapply gains_from.
    + split; [|by left]. by eapply gains_from.
    + split; [by eapply gains_from|]. left. split; [done|]. right. by eapply Hc.
  - split; [done|]. left. split; [done|]. by left.
Qed.

Lemma forall_not_sent r t l : Forall2 (gains []) t (map snd l) ->
  Forall3 (tried r false) t (map (fun _ : Admission * Subscriber => []) l) (map snd l).
Proof.
  revert t. induction l as [|x l IH]; intros t Hall; inversion Hall; subst; [constructor|]. simpl. constructor; [|by apply IH].
  split; [done|]. left. by split.
Qed.

Lemma try_all_spec r t : let '(room, asked) := try_all (map (check r) t) in
  Forall3 (tried r room) t (map (fun x => if room then got [r] x else []) asked)
          (map (fun x => if room then send_admitted [r] x else x.2) asked).
Proof.
  induction t as [|s t IH]; [constructor|]. cbn [map try_all]. pose proof (try_one r s) as Hone.
  destruct (check r s) as [[] s1].
  - destruct (try_reserve s1) as [[] s2].
    + destruct (try_all (map (check r) t)) as [[] asked]; simpl in *; constructor; try done; by destruct Hone.
    + simpl. constructor; [done|]. rewrite !map_map. clear. induction t as [|s t IH]; [constructor|]. simpl. constructor; [|done].
      split; [apply check_gains|]. left. by split.
    + destruct (try_all (map (check r) t)) as [[] asked]; simpl in *; constructor; try done; by eapply tried_not_sent.
  - destruct (try_all (map (check r) t)) as [[] asked]; simpl in *; constructor; try done; by eapply tried_not_sent.
Qed.

Lemma forall_untouched r t : Forall3 (tried r false) t (map (fun _ => []) t) t.
Proof. induction t; constructor; [|done]. split; [apply gains_refl|]. left. by split. Qed.

Lemma concat_nils {A B} (l : list A) : concat (map (fun _ => @nil B) l) = [].
Proof. by induction l. Qed.

Lemma tried_all_not_sent {A} r b t (l : list A) full :
  Forall3 (tried r b) t (map (fun _ => []) l) full -> Forall3 (tried r false) t (map (fun _ => []) l) full.
Proof.
  revert t full. induction l as [|x l IH]; intros t full Hall; inversion Hall; subst; constructor; [by eapply tried_not_sent|by apply IH].
Qed.

(** What an attempt to publish without waiting does. *)
Definition try_outcome (r : StreamRecord) (t : Topic) (x : published * Topic) : Prop :=
  exists gs full, Forall3 (tried r (is_sent x.1)) t gs full /\ left_of full x.2 /\
    forall n, x.1 = inl n -> n = length (concat gs).

Lemma untouched_outcome r t e : try_outcome r t (inr e, t).
Proof. exists (map (fun _ => []) t), t. split_and!; [apply forall_untouched|apply left_of_refl|done]. Qed.

Lemma try_single_outcome r s : try_outcome r [s] (try_single r s).
Proof.
  unfold try_single. pose proof (try_one r s) as Hone. destruct (check r s) as [[] s1].
  - pose proof (try_reserve_closed s1) as Hc. destruct (try_reserve s1) as [[] s2].
    + exists [[r]], [deliver [r] s2]. split_and!; [constructor; [by destruct Hone|constructor]|apply left_of_refl|by intros n [= <-]].
    + exists [[]], [s2]. split_and!; [constructor; [done|constructor]|apply left_of_refl|done].
    + exists [[]], [s2]. split_and!; [constructor; [by eapply tried_not_sent|constructor]|apply left_of_purge|done].
  - exists [[]], [s1]. split_and!; [constructor; [done|constructor]|apply left_of_refl|by intros n [= <-]].
Qed.

Lemma checks_filtered r t : forallb (fun x => negb x.1) (map (check r) t) = true ->
  Forall3 (tried r true) t (map (fun _ => []) t) (map snd (map (check r) t)).
Proof.
  induction t as [|s t IH]; [constructor|]. simpl. intros [Hs Ht]%andb_true_iff. constructor; [|by apply IH].
  split; [apply check_gains|]. left. split; [done|]. left. by apply negb_true_iff.
Qed.

Lemma try_many_outcome r t : try_outcome r t (try_many r t).
Proof.
  unfold try_many. destruct (purge_closed t) as [|s0 sel] eqn:Hsel.
  - destruct (lift_purge r false t [] [] []) as (gs & full & Hall & Hl & Hc); [rewrite Hsel; constructor|constructor|]. by exists gs, full.
  - remember (s0 :: sel) as selected eqn:Heq. clear Heq. set (checks := map (check r) selected).
    assert (Hlift : forall sent gs full t', Forall3 (tried r sent) selected gs full -> left_of full t' -> forall res, is_sent res = sent ->
      (forall n, res = inl n -> n = length (concat gs)) -> try_outcome r t (res, t')).
    { intros sent gs full t' Hall Hl res Hres Hn. rewrite <- Hsel in Hall. destruct (lift_purge r sent t gs full t' Hall Hl) as (gs' & full' & H1 & H2 & H3).
      exists gs', full'. simpl. rewrite Hres. split_and!; [done|done|]. intros n Hr. rewrite H3. by apply Hn. }
    destruct (forallb _ checks) eqn:Hf.
    + eapply (Hlift true); [by apply checks_filtered|apply left_of_refl|done|]. intros n [= <-]. by rewrite concat_nils.
    + pose proof (try_all_spec r selected) as Hspec. fold checks in Hspec. destruct (try_all checks) as [[] asked].
      * rewrite (count_got r). destruct (length (concat (map (got [r]) asked))) as [|n] eqn:Hn.
        -- destruct (none_admitted r asked) as [Hg Hs]; [by rewrite (count_got r)|].
           assert (Hspec' : Forall3 (tried r true) selected (map (got [r]) asked) (map (send_admitted [r]) asked)) by exact Hspec.
           rewrite Hg, Hs in Hspec'. eapply (Hlift false); [|apply left_of_purge|done|done].
           by eapply tried_all_not_sent.
        -- eapply (Hlift true); [exact Hspec|apply left_of_refl|done|]. intros m [= <-]. by rewrite <- Hn.
      * eapply (Hlift false); [exact Hspec|apply left_of_refl|done|done].
Qed.

(** A publication that does not wait is all or nothing: when it fails, no queue has
    changed, so it may be retried; when it succeeds, every subscriber got the record exactly
    once unless its filter held it back or its channel closed, and the number returned is
    the number of copies.  A subscriber only leaves the topic when its channel is closed. *)
Theorem try_publish_all_or_nothing (batch_active gate_held : bool) (r : StreamRecord) (t : Topic) :
  let '(res, t') := try_publish_topic batch_active gate_held r t in
  exists gs full, Forall3 (tried r (is_sent res)) t gs full /\ left_of full t' /\
    forall n, res = inl n -> n = length (concat gs).
Proof.
  enough (try_outcome r t (try_publish_topic batch_active gate_held r t)) as Ho by by destruct (try_publish_topic _ _ _ _).
  unfold try_publish_topic. destruct t as [|s [|s' t]].
  - exists [], []. by split_and!; [constructor|constructor|].
  - destruct batch_active; [destruct gate_held|]; [apply untouched_outcome|apply try_many_outcome|apply try_single_outcome].
  - destruct gate_held; [apply untouched_outcome|apply try_many_outcome].
Qed.

(** ** Batches *)

(** A subscriber that takes every chunk: it stays open, and a chunk fits in its channel. *)
Definition willing (s : Subscriber) : Prop :=
  closed s = false /\ (ADMISSION_CHUNK_RECORDS <= capacity s)%nat /\ forall i, reserve s i = Room \/ reserve s i = FullThen true.

(** A subscriber that answers: it takes its records or closes. *)
Definition prompt (s : Subscriber) : Prop := forall i, reserve s i <> FullForever.

Definition wanted (s : Subscriber) (rs : list StreamRecord) : list StreamRecord := List.filter (passes s) rs.

(** One chunk at one subscriber. *)
Definition chunk_step (chunk : list StreamRecord) (x x' : Selected) : Prop :=
  (x.1 = false /\ x' = x) \/
  (x.1 = true /\ x'.1 = true /\ gains (wanted x.2 chunk) x.2 x'.2) \/
  (x.1 = true /\ x'.1 = false /\ gains [] x.2 x'.2).

Lemma willing_prompt s : willing s -> prompt s.
Proof. intros (_ & _ & Hr) i. destruct (Hr i) as [-> | ->]; done. Qed.

Lemma reserve_many_willing n s : willing s -> (n <= ADMISSION_CHUNK_RECORDS)%nat ->
  exists s', reserve_many n s = (Some true, s') /\ willing s' /\ gains [] s s'.
Proof.
  intros (Hc & Hcap & Hr) Hn. unfold reserve_many. rewrite Hc. rewrite (proj2 (Nat.ltb_ge _ _)) by lia.
  exists (answered true s). destruct (Hr 0%nat) as [-> | ->]; (split_and!; [done|split_and!; [done|done|intros i; apply Hr]|apply answered_gains]).
Qed.

Lemma reserve_many_prompt n s : prompt s -> is_Some (reserve_many n s).1 /\ prompt (reserve_many n s).2.
Proof.
  intros Hp. unfold reserve_many. destruct (closed s); [by split|]. destruct (capacity s <? n)%nat; [by split|].
  pose proof (Hp 0%nat) as H0. assert (Hp' : forall b, prompt (answered b s)) by (intros b i; apply Hp).
  destruct (reserve s 0) as [|[]| |]; (split; [by eexists|apply Hp']) || done.
Qed.

Lemma filter_length_le {A} (p : A -> bool) l : (length (List.filter p l) <= length l)%nat.
Proof. induction l as [|x l IH]; simpl; [lia|]. destruct (p x); simpl; lia. Qed.

Lemma admit_chunk_spec chunk x : let y := admit_chunk chunk x in
  (y.1.1 <> Waiting -> chunk_step chunk x (commit_chunk y)) /\
  (y.1.1 = Filtered -> y.2 = commit_chunk y) /\
  (gains [] x.2 y.2.2 /\ (y.1.1 <> Accepted -> gains [] x.2 (commit_chunk y).2) /\ (x.1 = false -> y.2 = x)) /\
  (x.1 = true -> willing x.2 -> (length chunk <= ADMISSION_CHUNK_RECORDS)%nat ->
     y.1.1 <> Refused /\ (commit_chunk y).1 = true /\ willing (commit_chunk y).2) /\
  (prompt x.2 -> y.1.1 <> Waiting /\ prompt (commit_chunk y).2).
Proof.
  destruct x as [[] s]; cbn [admit_chunk]; [|split_and!; [intros _; by left|done|apply gains_refl|intros _; apply gains_refl|done|done|done]].
  destruct (keep_spec chunk s) as (Hk & Hg & Hc & Hr). fold (wanted s chunk) in Hk. destruct (keep chunk s) as [kept s1]. simpl in Hk, Hg, Hc, Hr.
  assert (Hw : willing s -> willing s1).
  { intros (H1 & H2 & H3). destruct Hg as (_ & _ & Hcap & _). split_and!; [congruence|by rewrite Hcap|by rewrite Hr]. }
  assert (Hpr : prompt s -> prompt s1) by (unfold prompt; by rewrite Hr).
  destruct kept as [|r kept].
  { simpl. assert (chunk_step chunk (true, s) (true, s1)) by (right; left; split_and!; [done|done|]; cbn [snd]; by rewrite <- Hk).
    split_and!; [by intros _|done|done|done|done| |]; [intros _ Hs _; split_and!; [done|done|by apply Hw]|]. intros Hp. split; [done|by apply Hpr]. }
  pose proof (reserve_many_gains (length (r :: kept)) s1) as Hg2. pose proof (reserve_many_prompt (length (r :: kept)) s1) as Hp2.
  pose proof (reserve_many_willing (length (r :: kept)) s1) as Hw2.
  destruct (reserve_many (length (r :: kept)) s1) as [granted s2]. simpl in Hg2, Hp2.
  assert (Hg3 : gains [] s s2) by (by eapply gains_from).
  assert (Hlen : (length chunk <= ADMISSION_CHUNK_RECORDS)%nat -> (length (r :: kept) <= ADMISSION_CHUNK_RECORDS)%nat).
  { intros Hl. rewrite Hk. unfold wanted. etrans; [apply filter_length_le|done]. }
  split_and!.
  - intros Hnw. destruct granted as [[]|]; simpl in *; [|by right; right|done].
    right. left. split_and!; [done|done|]. cbn [snd]. rewrite <- Hk. by eapply gains_from.
  - by destruct granted as [[]|].
  - done.
  - by destruct granted as [[]|].
  - done.
  - intros _ Hs Hl. destruct (Hw2 (Hw Hs) (Hlen Hl)) as (s' & [= -> ->] & Hs' & _). by split_and!.
  - intros Hp. destruct (Hp2 (Hpr Hp)) as [[b ->] Hp3]. by destruct b.
Qed.

(** What the rest of a batch does to a subscriber of the selection: it gets what it wants of
    a whole number of chunks. *)
Definition batched (records : list StreamRecord) (sent : bool) (all : Prop) (x x' : Selected) : Prop :=
  (exists k, gains (wanted x.2 (take (k * ADMISSION_CHUNK_RECORDS) records)) x.2 x'.2) /\ (x.1 = false -> x' = x) /\
  (sent = false -> gains [] x.2 x'.2) /\ (all -> x'.1 = true /\ gains (wanted x.2 records) x.2 x'.2).

Lemma wanted_pred s s' rs : predicate s' = predicate s -> wanted s' rs = wanted s rs.
Proof. intros Hp. apply List.filter_ext. intros r. by apply passes_pred. Qed.

Lemma wanted_app s a b : wanted s (a ++ b) = wanted s a ++ wanted s b.
Proof. apply List.filter_app. Qed.

Lemma batched_still records sent (all : Prop) x x' : gains [] x.2 x'.2 -> (x.1 = false -> x' = x) ->
  (all -> x'.1 = true /\ gains (wanted x.2 records) x.2 x'.2) -> batched records sent all x x'.
Proof. intros Hg Hx Ha. split_and!; [exists 0%nat; exact Hg|done|done|done]. Qed.

Lemma batched_step records sent all x x1 x' : chunk_step (take ADMISSION_CHUNK_RECORDS records) x x1 -> (sent = false -> gains [] x.2 x1.2) ->
  (all -> x.1 = true /\ x1.1 = true) -> batched (drop ADMISSION_CHUNK_RECORDS records) sent all x1 x' -> batched records sent all x x'.
Proof.
  intros Hstep Hns Hall ((k & Hk) & Hun & Hsent & Hdone). unfold batched.
  destruct Hstep as [[Hf ->]|[(Ht & Ht1 & Hg)|(Ht & Ht1 & Hg)]].
  - rewrite (Hun Hf) in *. split_and!; [exists 0%nat; apply gains_refl|done|done|]. intros Ha. by destruct (Hall Ha); congruence.
  - pose proof (proj1 (proj2 Hg)) as Hp. split_and!.
    + exists (S k). change (S k * ADMISSION_CHUNK_RECORDS)%nat with (ADMISSION_CHUNK_RECORDS + k * ADMISSION_CHUNK_RECORDS)%nat.
      rewrite <- take_take_drop, wanted_app. eapply gains_trans; [exact Hg|]. by rewrite <- (wanted_pred _ _ _ Hp).
    + congruence.
    + intros Hs. by apply (gains_trans [] [] _ x1.2); [apply Hns|apply Hsent].
    + intros Ha. destruct (Hdone Ha) as [H1 H2]. split; [done|]. rewrite <- (take_drop ADMISSION_CHUNK_RECORDS records), wanted_app.
      eapply gains_trans; [exact Hg|]. by rewrite <- (wanted_pred _ _ _ Hp).
  - rewrite (Hun Ht1) in *. split_and!; [exists 0%nat; done|congruence|done|]. intros Ha. destruct (Hall Ha). congruence.
Qed.

(** The loop, from any point of the batch. *)
Definition all_willing (t : list Selected) : Prop := Forall (fun x => x.1 = true /\ willing x.2) t.
Definition all_prompt (t : list Selected) : Prop := Forall (fun x => prompt x.2) t.

Lemma batched_all records sent (all all' : Prop) t t1 t' : (all -> all') ->
  Forall2 (fun x x1 => chunk_step (take ADMISSION_CHUNK_RECORDS records) x x1 /\ (sent = false -> gains [] x.2 x1.2) /\ (all -> x.1 = true /\ x1.1 = true)) t t1 ->
  Forall2 (batched (drop ADMISSION_CHUNK_RECORDS records) sent all') t1 t' -> Forall2 (batched records sent all) t t'.
Proof.
  intros Hall Hstep. revert t'. induction Hstep as [|x x1 t t1 (Hc & Hs & Ha) _ IH]; intros t' Ht'; inversion Ht' as [|? x' ? t2 Hx Hrest]; subst;
    constructor; [|by apply IH]. eapply batched_step; [exact Hc|done|done|].
  destruct Hx as (H1 & H2 & H3 & H4). split_and!; try done. intros Hy. by apply H4, Hall.
Qed.

Lemma Forall2_map_r {A B} (P : A -> B -> Prop) (f : A -> B) l : (forall x, x ∈ l -> P x (f x)) -> Forall2 P l (map f l).
Proof.
  induction l as [|x l IH]; intros Hl; constructor; [apply Hl, list_elem_of_here|]. apply IH. intros y Hy. apply Hl. by apply elem_of_cons; right.
Qed.

(** Asking all: every subscriber is asked on its own, unless one never answers. *)
Lemma admit_all_spec chunk t :
  match admit_all chunk t with
  | inr asked => asked = map (admit_chunk chunk) t /\ Forall (fun x => (admit_chunk chunk x).1.1 <> Waiting) t
  | inl t' => Forall2 (fun x x' => gains [] x.2 x'.2 /\ (x.1 = false -> x' = x)) t t' /\ ~ all_prompt t
  end.
Proof.
  induction t as [|x t IH]; [by split|]. cbn [admit_all map].
  destruct (admit_chunk_spec chunk x) as (_ & _ & (Hg & _ & Hf) & _ & Hp).
  assert (Hcons : forall a kept x', admit_chunk chunk x = (a, kept, x') -> a <> Waiting ->
    match match admit_all chunk t with inl t => inl (x' :: t) | inr l => inr ((a, kept, x') :: l) end with
    | inr asked => asked = admit_chunk chunk x :: map (admit_chunk chunk) t /\ Forall (fun x => (admit_chunk chunk x).1.1 <> Waiting) (x :: t)
    | inl t' => Forall2 (fun x x' => gains [] x.2 x'.2 /\ (x.1 = false -> x' = x)) (x :: t) t' /\ ~ all_prompt (x :: t)
    end).
  { intros a kept x' Hx Ha. rewrite Hx in *. simpl in Hg, Hf. destruct (admit_all chunk t) as [t'|asked]; destruct IH as [H1 H2].
    - split; [by constructor|]. by intros [_ ?]%list.Forall_cons.
    - split; [by rewrite H1|]. constructor; [by rewrite Hx|done]. }
  destruct (admit_chunk chunk x) as [[[] kept] x'] eqn:Hx; try by apply Hcons.
  simpl in Hg, Hf, Hp. split.
  - constructor; [done|]. apply Forall2_map_r. intros [[] s] _; unfold unasked; simpl; [|split; [apply gains_refl|done]].
    split; [apply keep_spec|done].
  - intros [Hx' _]%list.Forall_cons. by destruct (Hp Hx').
Qed.

Section chunk.
Context (chunk : list StreamRecord) (t : list Selected) (Hlen : (length chunk <= ADMISSION_CHUNK_RECORDS)%nat).
Context (Hasked : Forall (fun x => (admit_chunk chunk x).1.1 <> Waiting) t).

Lemma willing_chunk : all_willing t -> all_willing (map (fun x => commit_chunk (admit_chunk chunk x)) t) /\
  Forall (fun x => (admit_chunk chunk x).1.1 <> Refused) t.
Proof using Hlen.
  intros Hall. split; [apply List.Forall_map|]; (eapply list.Forall_impl; [exact Hall|]); intros x [Hx Hw];
    destruct (admit_chunk_spec chunk x) as (_ & _ & _ & Hspec & _); by destruct (Hspec Hx Hw Hlen) as (? & ? & ?).
Qed.

Lemma prompt_chunk : all_prompt t -> all_prompt (map (fun x => commit_chunk (admit_chunk chunk x)) t).
Proof using.
  intros Hall. apply List.Forall_map. eapply list.Forall_impl; [exact Hall|]. intros x Hp.
  destruct (admit_chunk_spec chunk x) as (_ & _ & _ & _ & Hspec). by apply Hspec.
Qed.

Lemma commit_steps sent : (sent = false -> Forall (fun x => (admit_chunk chunk x).1.1 <> Accepted) t) ->
  Forall2 (fun x x1 => chunk_step chunk x x1 /\ (sent = false -> gains [] x.2 x1.2) /\ (all_willing t -> x.1 = true /\ x1.1 = true))
    t (map (fun x => commit_chunk (admit_chunk chunk x)) t).
Proof using Hlen Hasked.
  intros Hns. apply Forall2_map_r. intros x Hx. destruct (admit_chunk_spec chunk x) as (Hc & _ & (_ & Hg & _) & Hw & _). split_and!.
  - apply Hc. by apply (proj1 (list.Forall_forall _ _) Hasked).
  - intros Hs. apply Hg. by apply (proj1 (list.Forall_forall _ _) (Hns Hs)).
  - intros Ha. destruct (proj1 (list.Forall_forall _ _) Ha x Hx) as [Ht Hwill]. split; [done|]. by apply Hw.
Qed.

Lemma filtered_commits : forallb (is_admission Filtered) (map (admit_chunk chunk) t) = true ->
  map snd (map (admit_chunk chunk) t) = map (fun x => commit_chunk (admit_chunk chunk x)) t.
Proof using.
  intros Hf. rewrite map_map. apply List.map_ext_in. intros x Hx. destruct (admit_chunk_spec chunk x) as (_ & Hfil & _).
  apply Hfil.
  assert (List.In (admit_chunk chunk x) (map (admit_chunk chunk) t)) as Hin by (by apply List.in_map).
  apply (proj1 (List.forallb_forall _ _) Hf) in Hin. by apply bool_decide_eq_true in Hin.
Qed.
End chunk.

Lemma bool_filter_all {A} (p : A -> bool) l : Forall (fun x => p x = true) l -> List.filter p l = l.
Proof. induction 1 as [|x l Hx _ IH]; [done|]. simpl. by rewrite Hx, IH. Qed.

Lemma batched_nothing sent t : Forall2 (batched [] sent (all_willing t)) t t.
Proof.
  assert (Hid : Forall2 (batched [] sent (all_willing t)) t (map id t)).
  { apply Forall2_map_r. intros x Hx. apply batched_still; [apply gains_refl|done|].
    intros Ha. split; [by apply (proj1 (list.Forall_forall _ _) Ha)|apply gains_refl]. }
  by rewrite List.map_id in Hid.
Qed.

Lemma batched_lost rs sent (all : Prop) t t' : ~ all -> Forall2 (fun x x' => gains [] x.2 x'.2 /\ (x.1 = false -> x' = x)) t t' ->
  Forall2 (batched rs sent all) t t'.
Proof. intros Hn Hall. eapply list.Forall2_impl; [exact Hall|]. intros x x' [? ?]. by apply batched_still. Qed.

Lemma still_refl t : Forall2 (fun x x' : Selected => gains [] x.2 x'.2 /\ (x.1 = false -> x' = x)) t t.
Proof. induction t; constructor; [|done]. split; [apply gains_refl|done]. Qed.

Lemma all_willing_filter t : all_willing t -> length (List.filter fst t) = length t.
Proof. intros Ha. rewrite bool_filter_all; [done|]. eapply list.Forall_impl; [exact Ha|]. by intros x [? _]. Qed.

Lemma all_willing_prompt t : all_willing t -> all_prompt t.
Proof. intros Ha. eapply list.Forall_impl; [exact Ha|]. intros x [_ Hw]. by apply willing_prompt. Qed.

(** No error: the publication succeeded, or waits. *)
Definition no_error (res : option published) : bool := match res with Some (inr _) => false | _ => true end.

Definition loop_outcome (records : list StreamRecord) (t : list Selected) (committed : bool) (u : Z) (o : option (option published * list Selected * Z)) : Prop :=
  exists res t' u', o = Some (res, t', u') /\ Forall2 (batched records (no_error res) (all_willing t)) t t' /\
    (committed = true -> no_error res = true) /\ (all_willing t -> res = Some (inl (length t)) /\ u' = u) /\ (all_prompt t -> is_Some res).

Lemma batch_loop_spec fuel records t committed u : (length records <= fuel)%nat ->
  loop_outcome records t committed u (batch_loop fuel records t committed u).
Proof.
  assert (Hdone : forall fuel t committed u, loop_outcome [] t committed u (batch_loop fuel [] t committed u)).
  { intros fuel' t' c u'. do 3 eexists. split; [by destruct fuel'|]. split_and!; [apply batched_nothing|done| |by eexists].
    intros Ha. by rewrite all_willing_filter. }
  revert records t committed u. induction fuel as [|fuel IH]; intros [|r records] t committed u Hlen; try apply Hdone; [simpl in Hlen; lia|].
  cbn [batch_loop]. remember (r :: records) as all eqn:Hall. set (chunk := take ADMISSION_CHUNK_RECORDS all).
  assert (Hchunk : (length chunk <= ADMISSION_CHUNK_RECORDS)%nat) by (unfold chunk; rewrite length_take; lia).
  pose proof (admit_all_spec chunk t) as Hadmit. destruct (admit_all chunk t) as [tw|asked].
  { destruct Hadmit as [Hg Hnp]. assert (Hnw : ~ all_willing t) by (by intros ?%all_willing_prompt).
    exists None, tw, u. split_and!; [done|by apply batched_lost|done|done|done]. }
  destruct Hadmit as [-> Hasked]. set (t1 := map (fun x => commit_chunk (admit_chunk chunk x)) t).
  (* the rest of the batch, once a chunk is committed *)
  assert (Hgo : forall u, loop_outcome all t committed u (batch_loop fuel (drop ADMISSION_CHUNK_RECORDS all) t1 true u)).
  { intros u1. destruct (IH (drop ADMISSION_CHUNK_RECORDS all) t1 true u1) as (res & t' & u' & Hrun & Hb & Hs & Hw & Hp).
    { rewrite length_drop. assert (ADMISSION_CHUNK_RECORDS = 512%nat) by done. lia. }
    exists res, t', u'. split; [done|]. specialize (Hs eq_refl). split_and!; [|done| |].
    - eapply batched_all; [|apply commit_steps; [done|done|by rewrite Hs]|exact Hb]. intros Ha. by apply willing_chunk.
    - intros Ha. destruct (Hw (proj1 (willing_chunk chunk t Hchunk Ha))) as [-> ->]. unfold t1. by rewrite length_map.
    - intros Ha. by apply Hp, prompt_chunk. }
  destruct (forallb (is_admission Filtered) (map (admit_chunk chunk) t)) eqn:Hf.
  { rewrite (filtered_commits chunk t Hf). apply Hgo. }
  rewrite map_map. fold t1. set (refused := length _).
  destruct (existsb (is_admission Accepted) (map (admit_chunk chunk) t)) eqn:He.
  - destruct (Hgo (u + missed committed refused (length all))) as (res & t' & u' & Hrun & Hb & Hs & Hw & Hp).
    exists res, t', u'. split_and!; [done|done|done| |done]. intros Ha. destruct (Hw Ha) as [-> ->]. split; [done|].
    enough (refused = 0%nat) as -> by (unfold missed; destruct committed; lia). unfold refused.
    destruct (willing_chunk chunk t Hchunk Ha) as [_ Hr]. clear -Hr. induction Hr as [|x l Hx _ IH]; [done|]. simpl.
    unfold is_admission at 1. rewrite bool_decide_eq_false_2; [exact IH|exact Hx].
  - assert (Hna : Forall (fun x => (admit_chunk chunk x).1.1 <> Accepted) t).
    { apply list.Forall_forall. intros x Hx Hadm. apply list_elem_of_In in Hx. apply not_true_iff_false in He. apply He.
      apply List.existsb_exists. exists (admit_chunk chunk x). split; [by apply List.in_map|]. by apply bool_decide_eq_true. }
    assert (Hnw : ~ all_willing t).
    { intros Ha. apply not_true_iff_false in Hf. apply Hf. apply List.forallb_forall. intros y (x & <- & Hx)%List.in_map_iff.
      apply list_elem_of_In in Hx. destruct (willing_chunk chunk t Hchunk Ha) as [_ Hr].
      pose proof (proj1 (list.Forall_forall _ _) Hr x Hx) as H1. pose proof (proj1 (list.Forall_forall _ _) Hna x Hx) as H2.
      pose proof (proj1 (list.Forall_forall _ _) Hasked x Hx) as H3.
      apply bool_decide_eq_true. cbv beta in H1, H2, H3. by destruct ((admit_chunk chunk x).1.1). }
    do 3 eexists. split; [reflexivity|]. split_and!; [|by intros ->|done|by eexists].
    eapply (batched_all _ _ _ (all_willing t)); [done|by apply commit_steps|]. apply batched_lost; [done|].
    exact (still_refl t1).
Qed.

(** A subscriber after a batch: it got, in order, the records it wants of a whole number of
    chunks of the batch; nothing when the batch failed, and all of them when every subscriber
    is willing. *)
Definition after_batch (records : list StreamRecord) (sent : bool) (all : Prop) (s s' : Subscriber) : Prop :=
  (exists k, gains (wanted s (take (k * ADMISSION_CHUNK_RECORDS) records)) s s') /\ (sent = false -> gains [] s s') /\ (all -> gains (wanted s records) s s').

Lemma lift_after_batch records sent (all : Prop) t full t' : (all -> Forall willing t) ->
  Forall2 (after_batch records sent all) (purge_closed t) full -> left_of full t' ->
  exists full', Forall2 (after_batch records sent all) t full' /\ left_of full' t'.
Proof.
  revert full t'. unfold purge_closed. induction t as [|s t IH]; intros full t' Ha Hall Hleft.
  { simpl in Hall. inversion Hall; subst. by exists []. }
  assert (Ha' : all -> Forall willing t) by (intros Hx; by destruct (proj1 (list.Forall_cons _ _ _) (Ha Hx))).
  simpl in Hall. destruct (closed s) eqn:Hc; simpl in Hall.
  - destruct (IH _ _ Ha' Hall Hleft) as (full' & Hall' & Hf). exists (s :: full'). split; [|by constructor].
    constructor; [|done]. split_and!; [exists 0%nat; apply gains_refl|intros _; apply gains_refl|].
    intros Hx. destruct (proj1 (list.Forall_cons _ _ _) (Ha Hx)) as [[Hs _] _]. congruence.
  - inversion Hall as [|? s' ? full1 Hone Hrest]; subst. inversion Hleft as [|? ? t1 Hl|? ? ? Hs' Hl]; subst;
      destruct (IH _ _ Ha' Hrest Hl) as (full' & Hall' & Hf); exists (s' :: full'); (split; [by constructor|by constructor]).
Qed.

(** C16. A batch is published in order or not at all.  Every subscriber gets, in order, exactly the
    records its filter keeps of a whole number of chunks of the batch, each behind whatever
    publishers outside the admission gate put into its queue before it (contiguously when
    there are none); after an error no queue has changed.  The publication returns unless a
    subscriber never answers a reservation, for which it waits without a bound; and when all
    subscribers are open, take what they are sent and have channels that hold a chunk, each
    gets all the records its filter keeps and the number of subscribers is returned. *)
Theorem publish_batch_in_order (records : list StreamRecord) (t : Topic) :
  exists res t' u full, publish_batch_topic records t = Some (res, t', u) /\ left_of full t' /\
    Forall2 (after_batch records (no_error res) (Forall willing t)) t full /\
    (Forall prompt t -> is_Some res) /\
    (Forall willing t -> records <> [] -> res = Some (inl (length t)) /\ u = 0).
Proof.
  assert (Hid : forall all : Prop, (all -> records = [] \/ t = []) -> Forall2 (after_batch records true all) t t).
  { intros all Ha. induction t as [|s t' IH]; constructor; [|apply IH; intros Hx; destruct (Ha Hx); [by left|done]].
    split_and!; [exists 0%nat; apply gains_refl|done|]. intros Hx. destruct (Ha Hx) as [-> |]; [apply gains_refl|done]. }
  unfold publish_batch_topic. destruct records as [|r records].
  { do 4 eexists. split; [reflexivity|]. split_and!; [apply left_of_refl|apply Hid; by left|by eexists|done]. }
  destruct t as [|s0 t0].
  { do 4 eexists. split; [reflexivity|]. split_and!; [constructor|constructor|by eexists|]. intros _ _. done. }
  set (t := s0 :: t0) in *. set (rs := r :: records) in *. destruct (purge_closed t) as [|s1 sel] eqn:Hsel.
  - destruct (lift_after_batch rs false (Forall willing t) t [] []) as (full & Hall & Hl); [done|rewrite Hsel; constructor|constructor|].
    exists (Some (inr Closed)), [], 0, full. split_and!; [done|done|done|by eexists|]. intros Hw _. exfalso. apply list.Forall_cons in Hw as [[Hs _] _].
    subst t. unfold purge_closed in Hsel. simpl in Hsel. by rewrite Hs in Hsel.
  - set (selected := s1 :: sel) in *.
    destruct (batch_loop_spec (length rs) rs (pair true <$> selected) false 0 (le_n _)) as (res & t' & u & Hrun & Hb & _ & Hw & Hp).
    assert (Hsw : Forall willing t -> all_willing (pair true <$> selected) /\ selected = t).
    { intros Ha. assert (Hpc : purge_closed t = t).
      { apply bool_filter_all. eapply list.Forall_impl; [exact Ha|]. intros x (Hx & _). by rewrite Hx. }
      rewrite Hpc in Hsel. split; [|done]. rewrite <- Hsel. unfold all_willing. apply list.Forall_fmap. eapply list.Forall_impl; [exact Ha|]. by split. }
    assert (Hsp : Forall prompt t -> all_prompt (pair true <$> selected)).
    { intros Ha. unfold all_prompt. apply list.Forall_fmap. apply list.Forall_forall. intros x Hx. simpl. rewrite <- Hsel in Hx.
      unfold purge_closed in Hx. apply list_elem_of_In, List.filter_In in Hx as [Hx%list_elem_of_In _]. by apply (proj1 (list.Forall_forall _ _) Ha). }
    destruct (lift_after_batch rs (no_error res) (Forall willing t) t (snd <$> t') (match res with Some _ => purge_closed (snd <$> t') | None => snd <$> t' end))
      as (full & Hall & Hl); [done| |by destruct res; [apply left_of_purge|apply left_of_refl]|].
    { rewrite Hsel. apply list.Forall2_fmap_r. eapply list.Forall2_impl; [eapply (list.Forall2_fmap_l (pair true)), Hb|].
      intros x x' (H1 & _ & H2 & H3). split_and!; [done|done|]. intros Ha. by apply H3, Hsw. }
    exists res, (match res with Some _ => purge_closed (snd <$> t') | None => snd <$> t' end), u, full. rewrite Hrun. split_and!; [done|done|done|by intros Ha; apply Hp, Hsp|].
    intros Ha _. destruct (Hsw Ha) as [H1 H2]. destruct (Hw H1) as [-> ->]. by rewrite length_fmap, H2.
Qed.

(** ** Losses *)

Module BusLosses.
Definition always (a : Reserve) : nat -> Reserve := fun _ => a.
Definition subscriber (capacity : nat) (p : option BusPredicate) (r : nat -> Reserve) : Subscriber :=
  mkSubscriber capacity p counters_default false r (fun _ => []) [].
Definition record (k : Z) : StreamRecord := mkRecord 0 {["k" := value_of_i64 k]}.
Definition wants_one : option BusPredicate := Some (FieldEq "k" (value_of_i64 1)).

(** An open channel with room, smaller than the batch (a rule whose buffer length is 1): the
    reservation is refused, the publication fails as if the channel were closed, and always
    will. *)
Lemma small_channel_refuses_batch :
  exists s', publish_batch_topic [record 1; record 1] [subscriber 1 None (always Room)] = Some (Some (inr Closed), [s'], 0) /\
    received s' = [] /\ closed s' = false.
Proof. eexists. split; [vm_compute; reflexivity|]. by split. Qed.

(** A subscriber that closes between two chunks ends the publication for the others when
    their filters keep nothing of that chunk: an open subscriber loses the rest of the batch,
    and only the records of the closed one are counted. *)
Lemma closing_neighbour_loses_rest :
  let leaving := subscriber 4096 None (fun i => match i with O => Room | _ => Gone end) in
  let staying := subscriber 4096 wants_one (always Room) in
  exists s', publish_batch_topic (repeat (record 0) 1024 ++ [record 1]) [leaving; staying] = Some (Some (inl 0%nat), [s'], 513) /\
    received s' = [] /\ closed s' = false.
Proof. eexists. split; [vm_compute; reflexivity|]. by split. Qed.

(** A subscriber that never takes its records holds the publication up for ever, with the
    chunks before in its queue and in those of the others. *)
Lemma stalled_subscriber_blocks :
  let stalled := subscriber 4096 None (fun i => match i with O => Room | _ => FullForever end) in
  let ready := subscriber 4096 None (always Room) in
  (fun x => let '(res, t, lost) := x in (res, map (fun s => length (received s)) t, lost)) <$>
    publish_batch_topic (repeat (record 0) 600) [stalled; ready] = Some (None, [512; 512]%nat, 0).
Proof. vm_compute. reflexivity. Qed.

(** A record that is sent without the gate lands between two records of a batch. *)
Lemma record_between_chunks :
  let s := mkSubscriber 4096 None counters_default false (always Room) (fun i => if (i =? 512)%nat then [record 7] else []) [] in
  (fun x => let '(res, t, lost) := x in (res, map (fun s => drop 511 (received s)) t, lost)) <$>
    publish_batch_topic (repeat (record 0) 513) [s] = Some (Some (inl 1%nat), [[record 0; record 7; record 0]], 0).
Proof. vm_compute. reflexivity. Qed.

(** The filters count before the reservations, so a publication that fails and is retried,
    as it may be, counts a filtered record twice. *)
Lemma retry_counts_twice :
  let full := subscriber 4096 None (fun i => match i with O => FullThen true | _ => Room end) in
  let filtering := subscriber 4096 wants_one (always Room) in
  let '(first, t) := try_publish_topic false false (record 0) [full; filtering] in
  let '(second, t) := try_publish_topic false false (record 0) t in
  first = inr Full /\ second = inl 1%nat /\ map (fun s => filtered (counters s)) t = [0; 2].
Proof. vm_compute. by split_and!. Qed.
End BusLosses.
