(* ===== verification/Admission.v ===== *)
(** * Publishers of one topic running together ([publish_async_topic] and
      [publish_batch_topic] of [crates/rekuiper-core/src/runtime.rs])

    Each publisher takes the admission gate of the topic, except that a single record for
    the only subscriber may be sent without it when no batch is active.  The steps are the
    points at which other publishers can run; the log is the queue of a subscriber, every
    record with its publisher. *)

From S2P Require Import Prelude Rust Json Ast Engine.

Set Default Goal Selector "!".

Inductive Request := Single (r : StreamRecord) | Batch (chunks : list (list StreamRecord)).

Definition records_of (q : Request) : list StreamRecord :=
  match q with Single r => [r] | Batch chunks => concat chunks end.
Definition chunks_of (q : Request) : list (list StreamRecord) :=
  match q with Single r => [[r]] | Batch chunks => chunks end.

(** Where a publisher is: not started, past the test of [batch_active] without the gate, in
    the gate with chunks to commit, about to release the gate, done. *)
Inductive Phase := Start | Fast | Admitting (rest : list (list StreamRecord)) | Releasing | Finished.

Record Bus := mkBus {
  log : list (nat * StreamRecord);
  gate : option nat;
  batch_active : bool;
  phase : gmap nat Phase;
}.

Definition bus_init : Bus := mkBus [] None false ∅.
Definition at_phase (b : Bus) (p : nat) : Phase := default Start (phase b !! p).

Section topic.
(** Whether the topic has one subscriber, and what each publisher wants to publish. *)
Context (sole : bool) (request : nat -> Request).

Definition is_batch (p : nat) : bool := match request p with Batch _ => true | Single _ => false end.

Inductive bus_step : Bus -> Bus -> Prop :=
  | fast_test b p r : request p = Single r -> sole = true -> at_phase b p = Start -> batch_active b = false ->
      bus_step b (mkBus (log b) (gate b) (batch_active b) (<[p := Fast]> (phase b)))
  | fast_send b p r : request p = Single r -> at_phase b p = Fast ->
      bus_step b (mkBus (log b ++ [(p, r)]) (gate b) (batch_active b) (<[p := Finished]> (phase b)))
  | take_gate b p : at_phase b p = Start -> gate b = None ->
      bus_step b (mkBus (log b) (Some p) (is_batch p || batch_active b) (<[p := Admitting (chunks_of (request p))]> (phase b)))
  | commit_chunk b p c rest : at_phase b p = Admitting (c :: rest) ->
      bus_step b (mkBus (log b ++ map (pair p) c) (gate b) (batch_active b) (<[p := Admitting rest]> (phase b)))
  | end_batch b p : at_phase b p = Admitting [] ->
      bus_step b (mkBus (log b) (gate b) (negb (is_batch p) && batch_active b) (<[p := Releasing]> (phase b)))
  | release_gate b p : at_phase b p = Releasing ->
      bus_step b (mkBus (log b) None (batch_active b) (<[p := Finished]> (phase b))).

Definition reachable (b : Bus) : Prop := rtc bus_step bus_init b.

(** The records a publisher has yet to commit. *)
Definition to_commit (x : Phase) : list StreamRecord := match x with Admitting rest => concat rest | _ => [] end.
Definition in_gate (x : Phase) : Prop := match x with Admitting _ | Releasing => True | _ => False end.

(** The log is a sequence of whole requests, then what the publisher in the gate has
    committed so far. *)
Definition block (p : nat) : list (nat * StreamRecord) := map (pair p) (records_of (request p)).

Definition gated (b : Bus) : Prop := exists done partial,
  log b = concat (map block done) ++ partial /\
  (forall p, at_phase b p = Finished -> p ∈ done) /\ (forall p, at_phase b p <> Fast) /\
  (forall p, in_gate (at_phase b p) -> gate b = Some p) /\
  match gate b with
  | Some p => in_gate (at_phase b p) /\ partial ++ map (pair p) (to_commit (at_phase b p)) = block p
  | None => partial = []
  end.

Lemma at_phase_insert b p x l g a q : at_phase (mkBus l g a (<[p := x]> (phase b))) q = if decide (q = p) then x else at_phase b q.
Proof. unfold at_phase. simpl. destruct (decide (q = p)) as [->|Hne]; [by rewrite lookup_insert_eq|by rewrite lookup_insert_ne]. Qed.

Lemma concat_chunks q : concat (chunks_of q) = records_of q.
Proof. destruct q; simpl; [done|]. done. Qed.

(** Nobody else is in the gate. *)
Lemma gate_owner b p q : (forall p, in_gate (at_phase b p) -> gate b = Some p) -> in_gate (at_phase b p) -> in_gate (at_phase b q) -> q = p.
Proof. intros Hin Hp Hq. apply Hin in Hp, Hq. congruence. Qed.

Lemma gated_step b b' : sole = false -> gated b -> bus_step b b' -> gated b'.
Proof.
  intros Hsole (done & partial & Hlog & Hfin & Hfast & Hin & Hgate) Hstep.
  inversion Hstep as [? p r Hq Hs|? p r Hq Hp|? p Hp Hg|? p c rest Hp|? p Hp|? p Hp]; subst; [by rewrite Hsole in Hs|by specialize (Hfast p)|..].
  - rewrite Hg in Hgate. subst partial. exists done, []. simpl.
    split_and!; [done|..]; intros; rewrite ?at_phase_insert in *; try case_decide; try done.
    + by apply Hfin.
    + by subst.
    + exfalso. match goal with H : in_gate _ |- _ => apply Hin in H end. congruence.
    + simpl. by rewrite concat_chunks.
  - assert (Hgp : gate b = Some p) by (apply Hin; by rewrite Hp). rewrite Hgp, Hp in Hgate. destruct Hgate as [_ Hgate].
    exists done, (partial ++ map (pair p) c). simpl. rewrite Hgp.
    split_and!; [by rewrite Hlog, app_assoc|..]; intros; rewrite ?at_phase_insert in *; try case_decide; try done.
    + by apply Hfin.
    + by subst.
    + rewrite <- Hgp. by apply Hin.
    + rewrite <- Hgate. simpl. by rewrite map_app, app_assoc.
  - assert (Hgp : gate b = Some p) by (apply Hin; by rewrite Hp). rewrite Hgp, Hp in Hgate. destruct Hgate as [_ Hgate].
    exists done, partial. simpl. rewrite Hgp.
    split_and!; [done|..]; intros; rewrite ?at_phase_insert in *; try case_decide; try done.
    + by apply Hfin.
    + by subst.
    + rewrite <- Hgp. by apply Hin.
  - assert (Hgp : gate b = Some p) by (apply Hin; by rewrite Hp). rewrite Hgp, Hp in Hgate. destruct Hgate as [_ Hgate].
    simpl in Hgate. rewrite app_nil_r in Hgate. exists (done ++ [p]), []. simpl.
    split_and!; [rewrite Hlog, map_app, concat_app, Hgate; simpl; by rewrite !app_nil_r|..]; intros; rewrite ?at_phase_insert in *;
      try case_decide; try done.
    + subst. apply elem_of_app. right. apply list_elem_of_here.
    + apply elem_of_app. left. by apply Hfin.
    + exfalso. match goal with H : in_gate (at_phase b ?q), Hne : ?q <> p |- _ => apply Hne, (gate_owner b p q Hin); [by rewrite Hp|done] end.
Qed.

Lemma gated_init : gated bus_init.
Proof.
  exists [], []. unfold at_phase, bus_init. simpl. split_and!; try done; intros p; rewrite lookup_empty; done.
Qed.

Lemma gated_reachable b : sole = false -> reachable b -> gated b.
Proof.
  intros Hs Hr. unfold reachable in Hr. remember bus_init as b0 eqn:Hb0. assert (gated b0) as Hg by (subst; apply gated_init).
  clear Hb0. induction Hr as [|b0 b1 b2 Hstep _ IH]; [done|]. apply IH. by eapply gated_step.
Qed.

(** Requests to a topic with several subscribers do not interleave: whatever the order
    in which publishers run, once a publisher has finished, its records are contiguous and
    in order in the queue. *)
Theorem requests_contiguous b p : sole = false -> reachable b -> at_phase b p = Finished ->
  exists before after, log b = before ++ map (pair p) (records_of (request p)) ++ after.
Proof.
  intros Hs Hr Hp. destruct (gated_reachable b Hs Hr) as (done & partial & -> & Hfin & _).
  destruct (list_elem_of_split _ _ (Hfin p Hp)) as (l1 & l2 & ->). exists (concat (map block l1)), (concat (map block l2) ++ partial).
  rewrite map_app, concat_app. simpl. by rewrite <- !app_assoc.
Qed.
End topic.

(** ** Two publishers of a topic with one subscriber *)

Module AdmissionSample.
Definition record (k : Z) : StreamRecord := mkRecord k ∅.
Definition request (p : nat) : Request :=
  match p with O => Batch [[record 1]; [record 2]] | _ => Single (record 3) end.

Ltac step_p c p := eapply rtc_l; [eapply (c _ _ _ p); reflexivity|cbn [log gate batch_active phase]].

(** The single record is tested before the batch starts and sent between its chunks. *)
Lemma single_record_splits_batch : exists b, reachable true request b /\ at_phase b 0 = Finished /\
  log b = [(0%nat, record 1); (1%nat, record 3); (0%nat, record 2)].
Proof.
  eexists. split; [|split].
  - unfold reachable. step_p fast_test 1%nat. step_p take_gate 0%nat. step_p commit_chunk 0%nat. step_p fast_send 1%nat.
    step_p commit_chunk 0%nat. step_p end_batch 0%nat. step_p release_gate 0%nat. apply rtc_refl.
  - by vm_compute.
  - by vm_compute.
Qed.
End AdmissionSample.

Import AdmissionSample.
Lemma requests_contiguous_witness : exists b before after,
  log b = before ++ map (pair 0%nat) [record 1; record 2] ++ after /\ log b = [(0%nat, record 1); (0%nat, record 2); (1%nat, record 3)].
Proof.
  assert (exists b, reachable false request b /\ at_phase b 0 = Finished /\
    log b = [(0%nat, record 1); (0%nat, record 2); (1%nat, record 3)]) as (b & Hr & Hp & Hl).
  { eexists. split; [|split].
    - unfold reachable. step_p take_gate 0%nat. step_p commit_chunk 0%nat. step_p commit_chunk 0%nat. step_p end_batch 0%nat.
      step_p release_gate 0%nat. step_p take_gate 1%nat. step_p commit_chunk 1%nat. apply rtc_refl.
    - by vm_compute.
    - by vm_compute. }
  destruct (requests_contiguous false request b 0%nat eq_refl Hr Hp) as (before & after & Heq).
  exists b, before, after. by split.
Defined.
