(* ===== verification/RecordLines.v ===== *)
(** * Records as lines

    The sink cache relies on a text of every record that holds no line break and reads back
    ([LineCodec], [LineCodecOk]).  Records are countable, so binary digits are such a text:
    the laws can hold for them. *)

From Stdlib Require Import SpecFloat Ascii.
From stdpp Require Import countable.
From S2P Require Import Prelude Rust Json Ast Engine SinkCache.

Set Default Goal Selector "!".
#[local] Set Warnings "-register-all".

(** ** Numbers and values are countable *)

Definition float_code : Type := bool + bool + (unit + bool * positive * Z).

Definition float_encode (f : spec_float) : float_code :=
  match f with
  | S754_zero s => inl (inl s)
  | S754_infinity s => inl (inr s)
  | S754_nan => inr (inl tt)
  | S754_finite s m e => inr (inr (s, m, e))
  end.

Definition float_decode (x : float_code) : spec_float :=
  match x with
  | inl (inl s) => S754_zero s
  | inl (inr s) => S754_infinity s
  | inr (inl _) => S754_nan
  | inr (inr (s, m, e)) => S754_finite s m e
  end.

#[export] Program Instance spec_float_countable : Countable spec_float := inj_countable' float_encode float_decode _.
Next Obligation. by intros []. Qed.

Definition number_encode (n : number) : Z + Z + spec_float :=
  match n with PosInt n => inl (inl n) | NegInt n => inl (inr n) | Float f => inr f end.
Definition number_decode (x : Z + Z + spec_float) : number :=
  match x with inl (inl n) => PosInt n | inl (inr n) => NegInt n | inr f => Float f end.

#[export] Program Instance number_countable : Countable number := inj_countable' number_encode number_decode _.
Next Obligation. by intros []. Qed.

Abbreviation leaf := (option bool + number + string)%type.

Fixpoint value_tree (v : value) : gen_tree leaf :=
  match v with
  | VNull => GenLeaf (inl (inl None))
  | VBool b => GenLeaf (inl (inl (Some b)))
  | VNumber n => GenLeaf (inl (inr n))
  | VString s => GenLeaf (inr s)
  | VArray l => GenNode 0 (map value_tree l)
  | VObject m => GenNode 1 (map (fun kv => GenNode 2 [GenLeaf (inr kv.1); value_tree kv.2]) m)
  end.

Fixpoint tree_value (t : gen_tree leaf) : value :=
  match t with
  | GenLeaf (inl (inl (Some b))) => VBool b
  | GenLeaf (inl (inr n)) => VNumber n
  | GenLeaf (inr s) => VString s
  | GenNode 0 l => VArray (map tree_value l)
  | GenNode 1 l =>
      VObject (map (fun t => match t with GenNode 2 [GenLeaf (inr k); x] => (k, tree_value x) | _ => (EmptyString, VNull) end) l)
  | _ => VNull
  end.

Lemma tree_value_tree v : tree_value (value_tree v) = v.
Proof.
  induction v as [| | | |l IH|m IH] using value_ind'; try done; simpl; f_equal; rewrite map_map.
  - induction IH as [|x l Hx _ IHl]; [done|]. simpl. by rewrite Hx, IHl.
  - induction IH as [|[k x] m Hx _ IHm]; [done|]. simpl in *. by rewrite Hx, IHm.
Qed.

#[export] Program Instance value_countable : Countable value := inj_countable' value_tree tree_value tree_value_tree.

Definition record_pair (r : StreamRecord) : Z * row := (timestamp r, data r).
Definition pair_record (x : Z * row) : StreamRecord := mkRecord x.1 x.2.

#[export] Instance StreamRecord_eq_dec : EqDecision StreamRecord.
Proof. solve_decision. Defined.

#[export] Program Instance StreamRecord_countable : Countable StreamRecord := inj_countable' record_pair pair_record _.
Next Obligation. by intros []. Qed.

(** ** Positive numbers as binary digits *)

Fixpoint digits_of (p : positive) : list ascii :=
  match p with
  | xH => []
  | xO p => "0"%char :: digits_of p
  | xI p => "1"%char :: digits_of p
  end.

Fixpoint of_digits (l : list ascii) : positive :=
  match l with
  | [] => xH
  | c :: l => if Ascii.eqb c "1" then xI (of_digits l) else xO (of_digits l)
  end.

Lemma of_digits_of p : of_digits (digits_of p) = p.
Proof. induction p; simpl; congruence. Qed.

Lemma digits_of_binary p c : c ∈ digits_of p -> c = "0"%char \/ c = "1"%char.
Proof.
  induction p; simpl; rewrite ?elem_of_cons; [naive_solver..|]. by intros ?%elem_of_nil.
Qed.

Definition binary_lines : LineCodec StreamRecord := {|
  to_line := fun r => of_chars (digits_of (encode r));
  from_line := fun s => decode (of_digits (chars s));
|}.

Lemma binary_lines_ok : @LineCodecOk StreamRecord binary_lines.
Proof.
  split; simpl.
  - intros r. by rewrite chars_of_chars, of_digits_of, decode_encode.
  - intros r. rewrite chars_of_chars. by intros [|]%digits_of_binary.
  - intros r. rewrite chars_of_chars. by intros [|]%digits_of_binary.
Qed.
