(* ===== verification/SinkFormat.v ===== *)
(** * What a sink sends for a record ([crates/rekuiper-server/src/engine/sinks.rs])

    The options that every kind of action reads, the value sent for a record under those
    options, rows as delimited text, and templates (their engine is the interface
    [Templates]). *)

From Stdlib Require Import Ascii.
From S2P Require Import Prelude Rust Json Ast Engine Values Objects SinkCache.

Set Default Goal Selector "!".

(** ** Options *)

Record CommonSinkOpts := mkSinkOpts {
  send_single : bool;
  send_nil_field : bool;
  fields : option (list string);
  exclude_fields : option (list string);
  data_field : option string;
  format : option string;
  batch_size : Z;
  linger_interval : Z;
}.

(** [Value::get] with a key *)
Definition get (key : string) (v : value) : option value :=
  match v with VObject m => object_get key m | _ => None end.

Definition parse_bool (s : string) : option bool :=
  if bool_decide (s = "true") then Some true else if bool_decide (s = "false") then Some false else None.

Definition bool_option (v : value) : option bool :=
  match as_bool v with Some b => Some b | None => as_str v ≫= parse_bool end.

Definition u64_option (v : value) : option Z :=
  match as_u64 v with Some n => Some n | None => as_str v ≫= parse_u64 end.

(** [Option::or_else] *)
Definition or_else {A} (a b : option A) : option A := match a with Some _ => a | None => b end.

Definition is_action_disabled (action : row) (opts : value) : bool :=
  default false (or_else (action !! "disabled") (action !! "disable") ≫= bool_option)
  || default false (or_else (get "disabled" opts) (get "disable" opts) ≫= bool_option).

Definition string_list (v : value) : option (list string) :=
  match v with VArray arr => Some (omap as_str arr) | _ => None end.

Definition parse_common_opts (opts : value) (rule_send_nil_field default_send_single : bool) : CommonSinkOpts := {|
  send_single := default default_send_single (get "sendSingle" opts ≫= bool_option);
  send_nil_field := default rule_send_nil_field (get "sendNilField" opts ≫= bool_option);
  fields := get "fields" opts ≫= string_list;
  exclude_fields := get "excludeFields" opts ≫= string_list;
  data_field := s ← get "dataField" opts ≫= as_str; if bool_decide (s = "") then None else Some s;
  format := to_ascii_lowercase <$> (get "format" opts ≫= as_str);
  batch_size := default 0 (get "batchSize" opts ≫= u64_option);
  linger_interval := default 0 (get "lingerInterval" opts ≫= u64_option);
|}.

(** ** Values *)

Definition META_KEY : string := "__meta__".

(** Keys that the engine keeps for itself. *)
Definition is_internal (k : string) : bool := bool_decide (k = META_KEY) || String.prefix "__" k.

Fixpoint clean_sink_value (nil : bool) (v : value) : value :=
  match v with
  | VArray arr => VArray (map (clean_sink_value nil) arr)
  | VObject obj =>
      VObject ((fix clean_members (obj : list (string * value)) : list (string * value) :=
        match obj with
        | [] => []
        | (k, val) :: obj =>
            if is_internal k || is_null val && negb nil then clean_members obj
            else (k, clean_sink_value nil val) :: clean_members obj
        end) obj)
  | _ => v
  end.

Definition is_excluded (opts : CommonSinkOpts) (k : string) : bool :=
  match exclude_fields opts with Some ex => bool_decide (k ∈ ex) | None => false end.

Definition is_dropped_null (opts : CommonSinkOpts) (v : value) : bool := is_null v && negb (send_nil_field opts).

Definition opts_clean (opts : CommonSinkOpts) (v : value) : value := clean_sink_value (send_nil_field opts) v.

(** The columns named by [fields], in a map that starts empty. *)
Definition take_fields (get : string -> option value) (skip : string -> bool) (opts : CommonSinkOpts) (fs : list string) : row :=
  foldl (fun map f => if skip f then map else <[f := opts_clean opts (default VNull (get f))]> map) ∅ fs.

Definition format_data_field (opts : CommonSinkOpts) (val : value) : value :=
  match val with
  | VObject obj =>
      match fields opts with
      | Some fs => row_to_value (take_fields (fun f => object_get f obj) (fun _ => false) opts fs)
      | None =>
          VObject (omap (fun kv => if is_excluded opts kv.1 || is_dropped_null opts kv.2 then None
            else Some (kv.1, opts_clean opts kv.2)) obj)
      end
  | _ => opts_clean opts val
  end.

Definition format_columns (data : row) (opts : CommonSinkOpts) : row :=
  match fields opts with
  | Some fs => take_fields (fun f => data !! f) (is_excluded opts) opts fs
  | None =>
      map_imap (fun k v => if is_internal k || is_excluded opts k || is_dropped_null opts v then None
        else Some (opts_clean opts v)) data
  end.

Definition format_record_for_sink (data : row) (opts : CommonSinkOpts) : value :=
  if bool_decide (is_Some (data !! "__raw_error__")) then
    row_to_value (partial_alter (fun _ => data !! "error") "error" (partial_alter (fun _ => data !! "rule_id") "rule_id" ∅))
  else
    match data_field opts with
    | Some df => match data !! df with Some val => format_data_field opts val | None => VNull end
    | None => row_to_value (format_columns data opts)
    end.

Definition format_record_for_sink_val (val : value) (opts : CommonSinkOpts) : value :=
  match val with
  | VObject m => format_record_for_sink (row_of_members m) opts
  | other => other
  end.

Definition to_sink_payload (val : value) (send_single : bool) : value := if send_single then val else VArray [val].

Definition BATCH_ROWS_KEY : string := "__batch_rows__".

(** The rows of a batch record. *)
Definition batch_rows (data : row) : option (list value) :=
  match data !! BATCH_ROWS_KEY with Some (VArray arr) => Some arr | _ => None end.

(** ** Delimited text *)

(** [str::contains] *)
Fixpoint occurs (needle hay : string) : bool :=
  String.prefix needle hay || match hay with EmptyString => false | String _ rest => occurs needle rest end.

Definition quote_char : ascii := "034"%char.

Definition quote_text (s : string) : string :=
  of_chars ([quote_char] ++ flat_map (fun c => if Ascii.eqb c quote_char then [quote_char; quote_char] else [c]) (chars s)
    ++ [quote_char]).

Definition string_le (a b : string) : Prop := String.leb a b = true.
#[export] Instance string_le_dec : RelDecision string_le.
Proof. intros a b. unfold string_le. apply _. Defined.

Definition sorted_keys (ks : list string) : list string := merge_sort string_le ks.

Definition public_columns (data : row) : row := filter (fun kv => is_internal kv.1 = false) data.

Section text.
Context `{Text}.

Definition csv_cell (v : option value) (delim : string) : string :=
  match v with
  | None | Some VNull => ""
  | Some (VString s) =>
      if occurs delim s || existsb (fun c => existsb (Ascii.eqb c) [quote_char; newline; carriage_return]) (chars s)
      then quote_text s else s
  | Some (VBool b) => if b then "true" else "false"
  | Some other => value_to_string other
  end.

Fixpoint format_record_delimited (val : value) (delimiter : string) (fields : option (list string)) : string :=
  match val with
  | VObject m =>
      let keys := match fields with Some f => f | None => sorted_keys (map fst m) end in
      String.concat delimiter (map (fun k => csv_cell (object_get k m) delimiter) keys)
  | VArray arr => String.concat (of_chars [newline]) (map (fun item => format_record_delimited item delimiter fields) arr)
  | other => csv_cell (Some other) delimiter
  end.
End text.

(** ** Templates *)

(** [apply_data_template] and [apply_data_template_value] of the connectors crate. *)
Class Templates := {
  apply_data_template : string -> row -> string;
  apply_data_template_value : string -> value -> string;
}.

Definition action_template (opts : value) : option string := get "dataTemplate" opts ≫= as_str.

Section templates.
Context `{Templates}.

Definition public_row (v : value) : value :=
  match v with
  | VObject m => VObject (List.filter (fun kv => negb (is_internal kv.1)) m)
  | other => other
  end.

Definition render_sink_template_row (template : string) (row : value) : string :=
  apply_data_template_value template (public_row row).

Definition render_sink_template (template : string) (record : row) (send_single : bool) : string :=
  apply_data_template_value template (to_sink_payload (row_to_value (public_columns record)) send_single).

Definition render_sink_template_batch (template : string) (rows : list value) : string :=
  apply_data_template_value template (VArray (map public_row rows)).

(** A URL or a topic with place holders for columns. *)
Definition resolve (text : string) (data : row) : string :=
  if occurs "{{" text then apply_data_template text (public_columns data) else text.
End templates.

(** Cache options per action, in the order of the actions. *)
Definition action_cache_configs (actions : list (list (string * value))) : list (option CacheConfig) :=
  flat_map (fun action =>
    omap (fun ko =>
      if bool_decide (ko.1 = "disabled") || bool_decide (ko.1 = "disable") || is_action_disabled (row_of_members action) ko.2 then None
      else Some (match ko.2 with VObject o => from_action (row_of_members o) | _ => None end)) action) actions.

(** * What reaches a destination

    The value a sink sends for a record (SinkFormat.v): which columns it has, that it holds
    nothing internal to the engine at any depth, and that formatting it again, as happens
    to the rows of a batch, changes nothing. *)

#[local] Set Warnings "-clear-no-such-hyp".

(** ** Public values *)

(** No member of an object, at any depth, is internal to the engine, nor null unless nulls
    are sent. *)
Fixpoint is_public (nil : bool) (v : value) : bool :=
  match v with
  | VArray arr => forallb (is_public nil) arr
  | VObject obj =>
      forallb (fun kv => negb (is_internal kv.1) && (nil || negb (is_null kv.2)) && is_public nil kv.2) obj
  | _ => true
  end.

Lemma clean_null nil v : is_null (clean_sink_value nil v) = is_null v.
Proof. by destruct v. Qed.

Lemma clean_public nil v : is_public nil (clean_sink_value nil v) = true.
Proof.
  induction v as [| | | |l IH|m IH] using value_ind'; try done; simpl.
  - induction IH as [|x l Hx _ IHl]; [done|]. simpl. by rewrite Hx, IHl.
  - induction IH as [|[k x] m Hx _ IHm]; [done|]. simpl. destruct (is_internal k || is_null x && negb nil) eqn:Hd; [done|].
    simpl. apply orb_false_iff in Hd as [-> Hn]. rewrite clean_null, IHm. simpl in Hx. rewrite Hx.
    by destruct nil, (is_null x).
Qed.

Lemma clean_id nil v : is_public nil v = true -> clean_sink_value nil v = v.
Proof.
  induction v as [| | | |l IH|m IH] using value_ind'; try done; simpl; intros Hp; f_equal.
  - induction IH as [|x l Hx _ IHl]; [done|]. simpl in *. apply andb_true_iff in Hp as [H1 H2].
    by rewrite (Hx H1), (IHl H2).
  - induction IH as [|[k x] m Hx _ IHm]; [done|]. simpl in *. apply andb_true_iff in Hp as [H1 H2].
    apply andb_true_iff in H1 as [H1 H3]. apply andb_true_iff in H1 as [H0 H1].
    apply negb_true_iff in H0. rewrite H0, (Hx H3), (IHm H2). simpl. by destruct nil, (is_null x).
Qed.

Lemma clean_idem nil v : clean_sink_value nil (clean_sink_value nil v) = clean_sink_value nil v.
Proof. apply clean_id, clean_public. Qed.

(** ** Columns *)

Section columns.
Context (opts : CommonSinkOpts).

Lemma take_fields_onto (get : string -> option value) (skip : string -> bool) (fs : list string) (acc : row) k :
  foldl (fun (map : row) f => if skip f then map else <[f := opts_clean opts (default VNull (get f))]> map) acc fs !! k =
  if bool_decide (k ∈ fs) && negb (skip k) then Some (opts_clean opts (default VNull (get k))) else acc !! k.
Proof.
  revert acc. induction fs as [|f fs IH]; intros acc; [done|]. cbn [foldl]. rewrite IH.
  destruct (decide (k = f)) as [->|Hne].
  - rewrite (bool_decide_eq_true_2 (f ∈ f :: fs)) by set_solver. destruct (skip f); simpl; [by rewrite andb_false_r|].
    rewrite andb_true_r. case_bool_decide; [done|]. by rewrite lookup_insert_eq.
  - rewrite (bool_decide_ext (k ∈ f :: fs) (k ∈ fs)) by set_solver.
    destruct (_ && _); [done|]. destruct (skip f); [done|]. by rewrite lookup_insert_ne.
Qed.

(** The value of a column under the options, if it is sent. *)
Definition column_sent (data : row) (k : string) : option value :=
  match fields opts with
  | Some fs => if bool_decide (k ∈ fs) && negb (is_excluded opts k) then Some (opts_clean opts (default VNull (data !! k))) else None
  | None =>
      v ← data !! k;
      if is_internal k || is_excluded opts k || is_dropped_null opts v then None else Some (opts_clean opts v)
  end.

Lemma format_columns_lookup data k : format_columns data opts !! k = column_sent data k.
Proof.
  unfold format_columns, column_sent. destruct (fields opts) as [fs|].
  - unfold take_fields. rewrite take_fields_onto. by rewrite lookup_empty.
  - by rewrite map_lookup_imap.
Qed.

Lemma opts_clean_idem v : opts_clean opts (opts_clean opts v) = opts_clean opts v.
Proof. apply clean_idem. Qed.

Lemma dropped_null_clean v : is_dropped_null opts (opts_clean opts v) = is_dropped_null opts v.
Proof. unfold is_dropped_null, opts_clean. by rewrite clean_null. Qed.

Lemma format_columns_idem data : format_columns (format_columns data opts) opts = format_columns data opts.
Proof.
  apply map_eq. intros k. rewrite format_columns_lookup. unfold column_sent. rewrite format_columns_lookup.
  unfold column_sent. destruct (fields opts) as [fs|].
  - destruct (_ && _) eqn:Hk; [|done]. simpl. by rewrite opts_clean_idem.
  - destruct (data !! k) as [v|]; [|done]. simpl. destruct (_ || is_dropped_null opts v) eqn:Hd; [done|]. simpl.
    by rewrite dropped_null_clean, Hd, opts_clean_idem.
Qed.
End columns.

(** The object sent for a record that is not an error has exactly the columns the
    options ask for, with the values of the record; no member of these values, at any
    depth, is internal to the engine, nor null unless nulls are sent. *)
Theorem format_record_columns (data : row) (opts : CommonSinkOpts) :
  data_field opts = None -> data !! "__raw_error__" = None ->
  exists m, format_record_for_sink data opts = VObject m /\
    (forall k, object_get k m = column_sent opts data k) /\
    Forall (fun kv => is_public (send_nil_field opts) kv.2 = true) m /\
    (fields opts = None -> is_public (send_nil_field opts) (VObject m) = true).
Proof.
  intros Hdf Hraw. unfold format_record_for_sink. rewrite Hraw, Hdf. simpl.
  destruct (row_to_value_members (format_columns data opts)) as (m & Hm & _). exists m. split; [done|].
  assert (Hall : map_Forall (fun k v => is_public (send_nil_field opts) v = true /\
    (fields opts = None -> is_internal k = false /\ is_dropped_null opts v = false)) (format_columns data opts)).
  { intros k v Hv. rewrite format_columns_lookup in Hv. unfold column_sent in Hv.
    destruct (fields opts) as [fs|].
    - destruct (_ && _); [|done]. injection Hv as <-. split; [apply clean_public|done].
    - destruct (data !! k) as [x|]; [|done]. simpl in Hv. destruct (_ || is_dropped_null opts x) eqn:Hd; [done|].
      injection Hv as <-. split; [apply clean_public|]. intros _. rewrite dropped_null_clean.
      apply orb_false_iff in Hd as [Hd ->]. by apply orb_false_iff in Hd as [-> _]. }
  apply (row_members_Forall _ m (fun kv => is_public (send_nil_field opts) kv.2 = true /\
    (fields opts = None -> is_internal kv.1 = false /\ is_dropped_null opts kv.2 = false))) in Hall; [|done].
  split_and!.
  - intros k. by rewrite (object_get_row _ _ _ Hm), format_columns_lookup.
  - eapply list.Forall_impl; [exact Hall|]. by intros kv [? _].
  - intros Hf. simpl. apply forallb_forall. intros kv Hin. rewrite list.Forall_forall in Hall.
    apply list_elem_of_In in Hin. destruct (Hall kv Hin) as [-> Hk]. destruct (Hk Hf) as [-> Hn]. rewrite andb_true_r. simpl.
    unfold is_dropped_null in Hn. by destruct (send_nil_field opts), (is_null kv.2).
Qed.

(** The rows of a batch are formatted when they enter the buffer and again when the
    batch is sent; without [dataField] the second time changes nothing. *)
Theorem format_record_idempotent (data : row) (opts : CommonSinkOpts) :
  data_field opts = None -> data !! "__raw_error__" = None ->
  default true (fs ← fields opts; Some (bool_decide ("__raw_error__" ∉ fs))) = true ->
  format_record_for_sink_val (format_record_for_sink data opts) opts = format_record_for_sink data opts.
Proof.
  intros Hdf Hraw Hfs.
  assert (Heq : format_record_for_sink data opts = row_to_value (format_columns data opts)).
  { unfold format_record_for_sink. by rewrite Hraw, Hdf. }
  rewrite Heq. destruct (row_to_value_members (format_columns data opts)) as (m & Hm & _). rewrite Hm at 1. simpl.
  rewrite (row_of_row_to_value _ _ Hm). unfold format_record_for_sink. rewrite Hdf, format_columns_idem.
  rewrite bool_decide_eq_false_2; [done|]. rewrite format_columns_lookup. unfold column_sent.
  destruct (fields opts) as [fs|]; [|by rewrite Hraw; intros [? ?]].
  simpl in Hfs. apply bool_decide_eq_true in Hfs. rewrite bool_decide_eq_false_2 by done. by intros [? ?].
Qed.

(** ** Samples *)

Module SinkFormatSample.
Definition opts (fs : option (list string)) (df : option string) : CommonSinkOpts := mkSinkOpts true false fs None df None 0 0.
Definition nested : value := VObject [("__meta__", VBool true); ("c", VNull); ("d", VNumber (PosInt 1))].
Definition record : row := <["a" := nested]> (<["b" := VNull]> {["__meta__" := VNull]}).

(** With [dataField] the second formatting looks for the field again, and sends null. *)
Lemma data_field_loses_batches :
  let o := opts None (Some "a") in
  format_record_for_sink_val (format_record_for_sink record o) o = VNull.
Proof. by vm_compute. Qed.

(** The members of the field are sent with those that are internal to the engine. *)
Lemma data_field_leaks_internal :
  format_record_for_sink record (opts None (Some "a")) = VObject [("__meta__", VBool true); ("d", VNumber (PosInt 1))].
Proof. by vm_compute. Qed.

(** Rows of a batch as delimited text are not formatted, so all their columns are sent. *)
Lemma delimited_rows_leak_internal `{Text} :
  format_record_delimited (VArray [VObject [("__meta__", VBool true); ("d", VBool true)]]) "," None = "true,true".
Proof. done. Qed.
End SinkFormatSample.

Import SinkFormatSample.
Lemma format_record_columns_witness : exists m, format_record_for_sink record (opts None None) = VObject m /\
  is_public false (VObject m) = true.
Proof.
  destruct (format_record_columns record (opts None None)) as (m & Hm & _ & _ & Hp); [done|by vm_compute|].
  exists m. split; [done|by apply Hp].
Defined.

Lemma format_record_idempotent_witness :
  format_record_for_sink_val (format_record_for_sink record (opts (Some ["a"; "z"]) None)) (opts (Some ["a"; "z"]) None)
  = format_record_for_sink record (opts (Some ["a"; "z"]) None).
Proof. apply format_record_idempotent; by vm_compute. Defined.
