(* ===== verification/DataTemplate.v ===== *)
(** * Data templates ([crates/rekuiper-connectors/src/data_template.rs])

    The text a sink sends for a record, written like a Go template: a scanner splits it into
    text and actions, a lexer reads the actions, a parser nests them into blocks, and an
    evaluator renders the blocks against the record.  Evaluation has no error path: every
    [Result] of the evaluator named [Ok]. *)

From Stdlib Require Import Ascii SpecFloat.
From S2P Require Import Prelude Rust Characters Json Ast Engine Values Numbers FloatText Columns Parser Statements Delimited SinkFormat.

Set Default Goal Selector "!".
#[local] Set Warnings "-register-all".

(** ** Values *)

(** A map lists its members in the order of their keys. *)
Inductive TemplateValue :=
  | NoValue
  | Nil
  | TBool (b : bool)
  | TInt (i : Z)
  | TFloat (f : f64)
  | TString (s : string)
  | TArray (l : list TemplateValue)
  | TMap (m : list (string * TemplateValue)).

Definition hidden_key (k : string) : bool := String.prefix "__" k.

Fixpoint from_json (v : value) : TemplateValue :=
  match v with
  | VNull => Nil
  | VBool b => TBool b
  | VNumber n =>
      match number_as_i64 n with
      | Some i => TInt i
      | None => match number_as_u64 n with Some u => TInt (wrap64 u) | None => TFloat (number_as_f64 n) end
      end
  | VString s => TString s
  | VArray l => TArray (map from_json l)
  | VObject m =>
      TMap ((fix members m :=
        match m with
        | [] => []
        | (k, v) :: m => if hidden_key k then members m else (k, from_json v) :: members m
        end) m)
  end.

Fixpoint to_json (v : TemplateValue) : value :=
  match v with
  | NoValue | Nil => VNull
  | TBool b => VBool b
  | TInt i => value_of_i64 i
  | TFloat f => if is_finite f then VNumber (Float f) else VNull
  | TString s => VString s
  | TArray l => VArray (map to_json l)
  | TMap m => VObject (map (fun e => (e.1, to_json e.2)) m)
  end.

Definition is_truthy (v : TemplateValue) : bool :=
  match v with
  | NoValue | Nil => false
  | TBool b => b
  | TInt i => negb (i =? 0)
  | TFloat f => negb (f64_eqb f f64_zero)
  | TString s => negb (bool_decide (s = ""))
  | TArray l => negb (bool_decide (length l = 0%nat))
  | TMap m => negb (bool_decide (length m = 0%nat))
  end.

Definition float_text (f : f64) : string :=
  if is_integral f && f64_ltb (f64_abs f) (f64_of_Z (10 ^ 15)) then float_fixed 0 f else float_display f.

Fixpoint render (v : TemplateValue) : string :=
  match v with
  | NoValue | Nil => "<no value>"
  | TBool b => if b then "true" else "false"
  | TInt i => integer_text i
  | TFloat f => float_text f
  | TString s => s
  | TArray l => "[" +:+ Columns.join " " (map render l) +:+ "]"
  | TMap m => "map[" +:+ Columns.join " " (map (fun e => e.1 +:+ ":" +:+ render e.2) m) +:+ "]"
  end.

(** ** Syntax *)

Inductive PathBase := Dot | Var (name : string).

Inductive Term :=
  | FieldPath (base : PathBase) (fields : list string)
  | StringLit (s : string)
  | IntLit (i : Z)
  | FloatLit (f : f64)
  | BoolLit (b : bool)
  | NilLit
  | Ident (s : string)
  | SubExpr (p : list (list Term)).

(** A command is its terms, a pipeline its commands. *)
Abbreviation Command := (list Term).
Abbreviation Pipeline := (list (list Term)).

Inductive Node :=
  | NText (s : string)
  | Action (assign_vars : option (list string)) (pipeline : Pipeline)
  | If (branches : list (Pipeline * list Node)) (else_branch : option (list Node))
  | Range (vars : option (string * option string)) (pipeline : Pipeline) (body : list Node) (else_branch : option (list Node)).

Inductive Token :=
  | KDot
  | KDotField (fields : list string)
  | KVarField (name : string) (fields : list string)
  | KString (s : string)
  | KInt (i : Z)
  | KFloat (f : f64)
  | KBool (b : bool)
  | KNil
  | KIdent (s : string)
  | KPipe
  | KAssign
  | KComma
  | KLParen
  | KRParen.

Inductive RawItem := RText (s : string) | RAction (l : list Token).

(** ** The lexer of actions *)

Definition template_error {A} (msg : string) : string + A := inl ("template: sink:1: " +:+ msg).

Abbreviation quote := 34.
Abbreviation backtick := 96.
Abbreviation backslash := 92.

Definition escaped (c : Z) : input :=
  if c =? code "n" then [10]
  else if c =? code "t" then [9]
  else if c =? code "r" then [13]
  else if c =? backslash then [backslash]
  else if c =? quote then [quote]
  else [backslash; c].

(** The content of a literal that [q] closes, and what follows it. *)
Fixpoint lex_string (q : Z) (s : input) : option (input * input) :=
  match s with
  | [] => None
  | c :: r =>
      if c =? q then Some ([], r)
      else if (q =? quote) && (c =? backslash) then
        match r with
        | d :: r => '(l, rest) ← lex_string q r; Some (escaped d ++ l, rest)
        | [] => None
        end
      else '(l, rest) ← lex_string q r; Some (c :: l, rest)
  end.

(** Digits, with at most one point, which a digit follows. *)
Fixpoint lex_digits (has_dot : bool) (s : input) : input * bool * input :=
  match s with
  | c :: r =>
      if is_digit c || (negb has_dot && (c =? code ".") && match r with d :: _ => is_digit d | [] => false end) then
        let '(l, dot, rest) := lex_digits (has_dot || (c =? code ".")) r in (c :: l, dot, rest)
      else ([], has_dot, s)
  | [] => ([], has_dot, [])
  end.

Definition starts_number (c : Z) (r : input) : bool :=
  is_digit c || ((c =? code "-") && match r with d :: _ => is_digit d || (d =? code ".") | [] => false end).

(** The number at the start of [c :: r]; its sign is part of it. *)
Definition lex_number (c : Z) (r : input) : option (Token * input) :=
  let '(l, has_dot, rest) := if c =? code "-" then lex_digits false r else lex_digits false (c :: r) in
  let text := to_str (if c =? code "-" then c :: l else l) in
  if has_dot then f ← parse_f64 text; Some (KFloat f, rest) else n ← parse_i64 text; Some (KInt n, rest).

(** A letter is alphanumeric. *)
Class UnicodeOk `{Unicode} : Prop := alphabetic_alphanumeric : forall c, alphabetic c = true -> alphanumeric c = true.

Section lexer.
Context `{Unicode}.

Definition is_alphabetic (c : Z) : bool := if c <? 128 then is_ascii_alnum c && negb (is_digit c) else alphabetic c.
Definition path_char (c : Z) : bool := word_char c || (c =? code ".").
Definition fields_of (path : input) : list string := map to_str (split_char (code ".") [] path).

Definition unexpected (c : Z) : string + (list Token * input) := template_error ("unexpected character '" +:+ to_str [c] +:+ "'").

Definition keyword_token (w : string) : Token :=
  if bool_decide (w = "true") then KBool true
  else if bool_decide (w = "false") then KBool false
  else if bool_decide (w = "nil") then KNil
  else KIdent w.

(** The token at the start of [c :: r], if it is not white space, and what follows it. *)
Definition lex_one (c : Z) (r : input) : string + (list Token * input) :=
  if is_space c then inr ([], r)
  else if c =? code "|" then inr ([KPipe], r)
  else if c =? code "," then inr ([KComma], r)
  else if c =? code "(" then inr ([KLParen], r)
  else if c =? code ")" then inr ([KRParen], r)
  else if (c =? code ":") && match r with d :: _ => d =? code "=" | [] => false end then inr ([KAssign], drop 1 r)
  else if c =? code "=" then inr ([KAssign], r)
  else if (c =? quote) || (c =? backtick) then
    match lex_string c r with Some (s, r) => inr ([KString (to_str s)], r) | None => template_error "unclosed quote" end
  else if starts_number c r then
    match lex_number c r with Some (t, r) => inr ([t], r) | None => unexpected c end
  else if c =? code "." then
    (if match r with d :: _ => word_char d | [] => false end then
       let '(path, r) := span path_char r in inr ([KDotField (fields_of path)], r)
     else inr ([KDot], r))
  else if c =? code "$" then
    let '(full, r) := span path_char r in
    match fields_of full with
    | name :: fields => inr ([KVarField ("$" +:+ name) fields], r)
    | [] => inr ([KVarField "$" []], r)
    end
  else if is_alphabetic c || (c =? code "_") then
    let '(w, r) := span word_char (c :: r) in inr ([keyword_token (to_str w)], r)
  else unexpected c.

Fixpoint tokenize (fuel : nat) (s : input) : option (string + list Token) :=
  match fuel with
  | O => None
  | S fuel =>
      match s with
      | [] => Some (inr [])
      | c :: r =>
          match lex_one c r with
          | inl e => Some (inl e)
          | inr (ts, r) => (fun l => match l with inl e => inl e | inr l => inr (ts ++ l) end) <$> tokenize fuel r
          end
      end
  end.

Definition tokenize_action (s : input) : option (string + list Token) := tokenize (S (length s)) s.

(** ** The scanner *)

Definition trim_start (s : input) : input := (span is_space s).2.
Definition trim_end (s : input) : input := rev (trim_start (rev s)).

(** The text after the braces that open an action, and after those that close one, which may
    trim that text. *)
Definition opening (s : input) : option input := match s with 123 :: 123 :: after => Some after | _ => None end.
Definition closing (s : input) : option (bool * input) :=
  match s with
  | 45 :: 125 :: 125 :: after => Some (true, after)
  | 125 :: 125 :: after => Some (false, after)
  | _ => None
  end.

(** The text before the first opening braces, and what follows them. *)
Fixpoint find_open (s : input) : option (input * input) :=
  match s with
  | [] => None
  | c :: r =>
      match opening s with
      | Some after => Some ([], after)
      | None => '(before, after) ← find_open r; Some (c :: before, after)
      end
  end.

(** The content of an action, whether its end trims the text after it, and that text.  [q] is
    the quote that is open. *)
Fixpoint find_close (q : option Z) (s : input) : option (input * bool * input) :=
  match s with
  | [] => None
  | c :: r =>
      let next q r := '(content, trims, after) ← find_close q r; Some (c :: content, trims, after) in
      match q with
      | Some qc =>
          if c =? qc then next None r
          else if (qc =? quote) && (c =? backslash) then
            match r with
            | d :: r => '(content, trims, after) ← find_close q r; Some (c :: d :: content, trims, after)
            | [] => None
            end
          else next q r
      | None =>
          if (c =? quote) || (c =? backtick) then next (Some c) r
          else
            match closing s with
            | Some (trims, after) => Some ([], trims, after)
            | None => next None r
            end
      end
  end.

Definition text_item (s : input) : list RawItem := match s with [] => [] | _ => [RText (to_str s)] end.
Definition action_item (l : list Token) : list RawItem := match l with [] => [] | _ => [RAction l] end.

Fixpoint scan (fuel : nat) (s : input) : option (string + list RawItem) :=
  match fuel with
  | O => None
  | S fuel =>
      match find_open s with
      | None => Some (inr (text_item s))
      | Some (before, after) =>
          let '(trim_prev, action) := match after with 45 :: r => (true, r) | _ => (false, after) end in
          match find_close None action with
          | None => Some (template_error "unclosed action")
          | Some (content, trim_next, after) =>
              ts ← tokenize_action content;
              match ts with
              | inl e => Some (inl e)
              | inr ts =>
                  (fun l => match l with
                            | inl e => inl e
                            | inr l => inr (text_item (if trim_prev then trim_end before else before) ++ action_item ts ++ l)
                            end) <$> scan fuel (if trim_next then trim_start after else after)
              end
          end
      end
  end.

Definition scan_raw_items (s : input) : option (string + list RawItem) := scan (S (length s)) s.
End lexer.

(** ** The parser *)

(** A step of the parser may fail, and runs out of fuel as [None]. *)
Definition then_do {A B} (r : option (string + A)) (k : A -> option (string + B)) : option (string + B) :=
  match r with None => None | Some (inl e) => Some (inl e) | Some (inr a) => k a end.
Declare Scope template_scope.
Notation "'let*' x := r 'in' k" := (then_do r (fun x => k)) (at level 10, x pattern, r at level 200, k at level 200) : template_scope.
#[local] Open Scope template_scope.

Definition fails {A} (msg : string) : option (string + A) := Some (template_error msg).
Definition succeeds {A} (a : A) : option (string + A) := Some (inr a).

Inductive ParsedAction :=
  | PEnd
  | PElse
  | PElseIf (p : Pipeline)
  | PIf (p : Pipeline)
  | PRange (vars : option (string * option string)) (p : Pipeline)
  | PPipeline (assign_vars : option (list string)) (p : Pipeline).

Definition is_pipe (t : Token) : bool := match t with KPipe => true | _ => false end.
Definition is_assign (t : Token) : bool := match t with KAssign => true | _ => false end.

(** The tokens up to the parenthesis that closes [depth] open ones, and those after it. *)
Fixpoint close_paren (depth : nat) (ts : list Token) : option (list Token * list Token) :=
  match ts with
  | [] => None
  | t :: ts =>
      let next depth := '(inside, after) ← close_paren depth ts; Some (t :: inside, after) in
      match t, depth with
      | KLParen, _ => next (S depth)
      | KRParen, 1%nat => Some ([], ts)
      | KRParen, _ => next (pred depth)
      | _, _ => next depth
      end
  end.

Section pipelines.
Context (sub : list Token -> option (string + Pipeline)).

Definition parse_term (ts : list Token) : option (string + (Term * list Token)) :=
  match ts with
  | [] => fails "unexpected end of action"
  | t :: ts =>
      match t with
      | KDot => succeeds (FieldPath Dot [], ts)
      | KDotField fields => succeeds (FieldPath Dot fields, ts)
      | KVarField name fields => succeeds (FieldPath (Var name) fields, ts)
      | KString s => succeeds (StringLit s, ts)
      | KInt i => succeeds (IntLit i, ts)
      | KFloat f => succeeds (FloatLit f, ts)
      | KBool b => succeeds (BoolLit b, ts)
      | KNil => succeeds (NilLit, ts)
      | KIdent s => succeeds (Ident s, ts)
      | KLParen =>
          match close_paren 1 ts with
          | None => fails "unclosed parenthesis"
          | Some (inside, ts) => let* p := sub inside in succeeds (SubExpr p, ts)
          end
      | _ => fails "syntax error in expression"
      end
  end.

(** The terms up to a pipe or the end. *)
Fixpoint parse_terms (fuel : nat) (ts : list Token) : option (string + (list Term * list Token)) :=
  match fuel with
  | O => None
  | S fuel =>
      match ts with
      | [] => succeeds ([], [])
      | t :: _ =>
          if is_pipe t then succeeds ([], ts)
          else let* (x, ts) := parse_term ts in let* (xs, ts) := parse_terms fuel ts in succeeds (x :: xs, ts)
      end
  end.

Fixpoint parse_commands (fuel : nat) (ts : list Token) : option (string + list Command) :=
  match fuel with
  | O => None
  | S fuel =>
      match ts with
      | [] => succeeds []
      | _ =>
          let* (terms, ts) := parse_terms (S (length ts)) ts in
          if bool_decide (length terms = 0%nat) then fails "empty command in pipeline"
          else let* cs := parse_commands fuel (drop 1 ts) in succeeds (terms :: cs)
      end
  end.
End pipelines.

Fixpoint parse_pipeline (fuel : nat) (ts : list Token) : option (string + Pipeline) :=
  match fuel with
  | O => None
  | S fuel =>
      let* cs := parse_commands (parse_pipeline fuel) (S (length ts)) ts in
      if bool_decide (length cs = 0%nat) then fails "empty pipeline" else succeeds cs
  end.

Definition parse_pipeline_tokens (ts : list Token) : option (string + Pipeline) := parse_pipeline (S (length ts)) ts.

Definition variables (ts : list Token) : list string :=
  omap (fun t => match t with KVarField v _ => Some v | _ => None end) ts.

(** The tokens before and after the first assignment. *)
Fixpoint split_assign (ts : list Token) : option (list Token * list Token) :=
  match ts with
  | [] => None
  | t :: ts => if is_assign t then Some ([], ts) else '(l, r) ← split_assign ts; Some (t :: l, r)
  end.

Definition var_pair (vars : list string) : option (string * option string) :=
  match vars with [v] => Some (v, None) | [v; w] => Some (v, Some w) | _ => None end.

Definition parse_plain_action (ts : list Token) : option (string + ParsedAction) :=
  let plain := let* p := parse_pipeline_tokens ts in succeeds (PPipeline None p) in
  match split_assign ts with
  | Some (lhs, rhs) =>
      let vars := variables lhs in
      if bool_decide (length vars = 0%nat) then plain
      else let* p := parse_pipeline_tokens rhs in succeeds (PPipeline (Some vars) p)
  | None => plain
  end.

Definition parse_range (ts : list Token) : option (string + ParsedAction) :=
  match split_assign ts with
  | Some (lhs, rhs) => let* p := parse_pipeline_tokens rhs in succeeds (PRange (var_pair (variables lhs)) p)
  | None => let* p := parse_pipeline_tokens ts in succeeds (PRange None p)
  end.

Definition parse_action_tokens (ts : list Token) : option (string + ParsedAction) :=
  match ts with
  | [] => fails "empty action"
  | KIdent id :: rest =>
      if bool_decide (id = "end") then succeeds PEnd
      else if bool_decide (id = "else") then
        match rest with
        | KIdent next :: rest =>
            if bool_decide (next = "if") then let* p := parse_pipeline_tokens rest in succeeds (PElseIf p) else succeeds PElse
        | _ => succeeds PElse
        end
      else if bool_decide (id = "if") then let* p := parse_pipeline_tokens rest in succeeds (PIf p)
      else if bool_decide (id = "range") then parse_range rest
      else parse_plain_action ts
  | _ => parse_plain_action ts
  end.

Definition stops (a : ParsedAction) : bool := match a with PEnd | PElse | PElseIf _ => true | _ => false end.

Definition unexpected_stop (a : ParsedAction) : string :=
  match a with PEnd => "unexpected {{end}}" | PElse => "unexpected {{else}}" | _ => "unexpected {{else if}}" end.

Abbreviation Items := (list RawItem).

Section blocks.
(** The parser of the blocks inside: their nodes, and the items from the one that ends them. *)
Context (block : Items -> option (string + (list Node * Items))).

(** After the body of an [else], its end. *)
Definition expect_end (items : Items) : option (string + Items) :=
  match items with
  | RAction ts :: items =>
      match parse_action_tokens ts with
      | None => None
      | Some (inr PEnd) => succeeds items
      | Some _ => fails "unexpected EOF"
      end
  | _ => fails "unexpected EOF"
  end.

Definition parse_else (items : Items) : option (string + (list Node * Items)) :=
  let* (body, items) := block items in let* items := expect_end items in succeeds (body, items).

(** What follows the body of a branch: more branches, an [else], or the end. *)
Fixpoint parse_branches (fuel : nat) (items : Items) : option (string + (list (Pipeline * list Node) * option (list Node) * Items)) :=
  match fuel with
  | O => None
  | S fuel =>
      match items with
      | RAction ts :: items =>
          let* a := parse_action_tokens ts in
          match a with
          | PElseIf p =>
              let* (body, items) := block items in
              let* (bs, eb, items) := parse_branches fuel items in
              succeeds ((p, body) :: bs, eb, items)
          | PElse => let* (body, items) := parse_else items in succeeds ([], Some body, items)
          | PEnd => succeeds ([], None, items)
          | _ => fails "syntax error in control block"
          end
      | _ => fails "unexpected EOF"
      end
  end.

Definition parse_range_end (items : Items) : option (string + (option (list Node) * Items)) :=
  match items with
  | RAction ts :: items =>
      let* a := parse_action_tokens ts in
      match a with
      | PElse => let* (body, items) := parse_else items in succeeds (Some body, items)
      | PEnd => succeeds (None, items)
      | _ => fails "syntax error in range block"
      end
  | _ => fails "unexpected EOF"
  end.
End blocks.

(** The nodes up to the end of the items, or, inside a block, up to the action that ends it. *)
Fixpoint parse_block (fuel : nat) (stop_at_else_or_end : bool) (items : Items) : option (string + (list Node * Items)) :=
  match fuel with
  | O => None
  | S fuel =>
      let inside := parse_block fuel true in
      let continue n items := let* (nodes, items) := parse_block fuel stop_at_else_or_end items in succeeds (n :: nodes, items) in
      match items with
      | [] => if stop_at_else_or_end then fails "unexpected EOF" else succeeds ([], [])
      | RText s :: items => continue (NText s) items
      | RAction ts :: rest =>
          let* a := parse_action_tokens ts in
          match a with
          | PEnd | PElse | PElseIf _ => if stop_at_else_or_end then succeeds ([], items) else fails (unexpected_stop a)
          | PIf cond =>
              let* (body, rest) := inside rest in
              let* (bs, eb, rest) := parse_branches inside fuel rest in
              continue (If ((cond, body) :: bs) eb) rest
          | PRange vars p =>
              let* (body, rest) := inside rest in
              let* (eb, rest) := parse_range_end inside rest in
              continue (Range vars p body eb) rest
          | PPipeline vars p => continue (Action vars p) rest
          end
      end
  end.

Section templates.
Context `{Unicode}.

Definition parse_template (template : string) : option (string + list Node) :=
  let* items := scan_raw_items (of_str template) in
  let* (nodes, _) := parse_block (S (length items)) false items in
  succeeds nodes.

Definition validate_data_template (template : string) : option (string + unit) :=
  let* _ := parse_template template in succeeds tt.
End templates.

(** ** Functions *)

(** [str::to_lowercase] of a text with characters beyond ASCII. *)
Class Lowercase := lowercase : input -> input.

Definition lower_cp (c : Z) : Z := if (65 <=? c) && (c <=? 90) then c + 32 else c.
Definition to_lowercase `{Lowercase} (s : input) : input := if forallb (fun c => c <? 128) s then map lower_cp s else lowercase s.

Definition to_string_val (arg : option TemplateValue) : string :=
  match arg with
  | Some (TString s) => s
  | Some NoValue | None => ""
  | Some v => render v
  end.

Definition to_f64_val (arg : option TemplateValue) : f64 :=
  match arg with
  | Some (TFloat f) => f
  | Some (TInt i) => f64_of_Z i
  | Some (TString s) => default f64_zero (parse_f64 s)
  | _ => f64_zero
  end.

Definition sign_of (c : comparison) : Z := match c with Datatypes.Lt => -1 | Datatypes.Eq => 0 | Datatypes.Gt => 1 end.
Definition compare_floats (x y : f64) : Z := if f64_ltb x y then -1 else if f64_ltb y x then 1 else 0.
Definition compare_bools (x y : bool) : Z := Z.b2z x - Z.b2z y.

Definition compare_vals (a b : option TemplateValue) : Z :=
  match a, b with
  | Some (TInt x), Some (TInt y) => sign_of (x ?= y)
  | Some (TFloat x), Some (TFloat y) => compare_floats x y
  | Some (TInt x), Some (TFloat y) => compare_floats (f64_of_Z x) y
  | Some (TFloat x), Some (TInt y) => compare_floats x (f64_of_Z y)
  | Some (TString x), Some (TString y) => sign_of (String.compare x y)
  | Some (TBool x), Some (TBool y) => compare_bools x y
  | None, None | Some Nil, Some Nil | Some NoValue, Some NoValue => 0
  | _, _ => -1
  end.

Definition pad (s : string) (width : option Z) (zero_padded : bool) : string :=
  match width with
  | Some w => of_chars (replicate (Z.to_nat (w - Z.of_nat (String.length s))) (if zero_padded then "0" else " ")%char) +:+ s
  | None => s
  end.

(** Hexadecimal digits of a 64-bit pattern. *)
Fixpoint hex_digits (fuel : nat) (upper : bool) (n : Z) : list ascii :=
  let d := n mod 16 in
  let digit := byte_of (if d <? 10 then 48 + d else if upper then 55 + d else 87 + d) in
  match fuel with
  | O => [digit]
  | S fuel => if n <? 16 then [digit] else hex_digits fuel upper (n / 16) ++ [digit]
  end.
Definition hex_text (upper : bool) (i : Z) : string := of_chars (hex_digits 15 upper (i mod 2 ^ 64)).

(** Digits at the start of a format, as a [usize] if they fit. *)
Definition format_number (s : input) : input * option Z * input :=
  let '(ds, r) := span is_digit s in
  (ds, match ds with [] => None | _ => parse_u64 (to_str ds) end, r).

Definition printf_int (arg : option TemplateValue) : Z :=
  match arg with Some (TInt i) => i | Some (TFloat f) => f64_as_i64 f | _ => 0 end.

Definition printf_text (missing : string) (arg : option TemplateValue) : string :=
  match arg with None => missing | Some v => render v end.

Definition format_verb (verb : Z) (width precision : option Z) (zero_padded : bool) (arg : option TemplateValue) : string :=
  if (verb =? code "f") || (verb =? code "F") then
    pad (float_fixed (Z.to_nat (default 6 precision)) (to_f64_val arg)) width zero_padded
  else if (verb =? code "d") || (verb =? code "i") then
    pad (integer_text (match arg with Some (TString s) => default 0 (parse_i64 s) | _ => printf_int arg end)) width zero_padded
  else if verb =? code "s" then
    let s := printf_text "" arg in
    pad (match precision with Some p => to_str (take (Z.to_nat p) (of_str s)) | None => s end) width false
  else if verb =? code "v" then pad (printf_text "<nil>" arg) width false
  else if verb =? code "t" then pad (match arg with Some (TBool true) => "true" | _ => "false" end) width false
  else if verb =? code "x" then pad (hex_text false (printf_int arg)) width zero_padded
  else if verb =? code "X" then pad (hex_text true (printf_int arg)) width zero_padded
  else to_str [code "%"; verb].

Fixpoint format_go (fuel : nat) (fmt : input) (args : list TemplateValue) : string :=
  match fuel with
  | O => ""
  | S fuel =>
      match fmt with
      | [] => ""
      | c :: r =>
          if negb (c =? code "%") then to_str [c] +:+ format_go fuel r args
          else
            match r with
            | 37 :: r => "%" +:+ format_go fuel r args
            | _ =>
                let '(zero_padded, r) := match r with 48 :: r => (true, r) | _ => (false, r) end in
                let '(_, width, r) := format_number r in
                let '(precision, r) :=
                  match r with
                  | 46 :: r => let '(ds, p, r) := format_number r in (match ds with [] => Some 0 | _ => p end, r)
                  | _ => (None, r)
                  end in
                let '(verb, r) := match r with v :: r => (v, r) | [] => (code "%", []) end in
                format_verb verb width precision zero_padded (head args) +:+ format_go fuel r (tail args)
            end
      end
  end.

Definition format_printf (fmt : string) (args : list TemplateValue) : string :=
  let s := of_str fmt in format_go (S (length s)) s args.

(** [str::replace] *)
Fixpoint replace_go (old new : input) (skip : nat) (s : input) : input :=
  match s with
  | [] => match old with [] => new | _ => [] end
  | c :: r =>
      match skip with
      | S skip => replace_go old new skip r
      | O =>
          match old with
          | [] => new ++ c :: replace_go old new 0 r
          | _ => if bool_decide (old `prefix_of` s) then new ++ replace_go old new (pred (length old)) r else c :: replace_go old new 0 r
          end
      end
  end.

Definition find_member {A} (k : string) (m : list (string * A)) : option A := snd <$> List.find (fun e => bool_decide (e.1 = k)) m.

Fixpoint index_value (v : TemplateValue) (keys : list TemplateValue) : TemplateValue :=
  match keys with
  | [] => v
  | key :: keys =>
      match v, key with
      | TMap m, TString k => match find_member k m with Some v => index_value v keys | None => NoValue end
      | TArray l, TInt i =>
          if (0 <=? i) && (i <? Z.of_nat (length l)) then index_value (nth (Z.to_nat i) l NoValue) keys else NoValue
      | _, _ => NoValue
      end
  end.

(** The sum of the numbers, as a double from the first double on. *)
Definition add_values (args : list TemplateValue) : TemplateValue :=
  let add acc arg :=
    match acc, arg with
    | TFloat x, TFloat f => TFloat (f64_add x f)
    | TFloat x, TInt i => TFloat (f64_add x (f64_of_Z i))
    | TInt x, TFloat f => TFloat (f64_add (f64_of_Z x) f)
    | TInt x, TInt i => TInt (wrap64 (x + i))
    | _, _ => acc
    end in
  foldl add (TInt 0) args.

Definition arith (iop : Z -> Z -> Z) (fop : f64 -> f64 -> f64) (a b : option TemplateValue) : TemplateValue :=
  match a, b with
  | Some (TInt x), Some (TInt y) => TInt (wrap64 (iop x y))
  | _, _ => TFloat (fop (to_f64_val a) (to_f64_val b))
  end.

Definition div_values (a b : option TemplateValue) : TemplateValue :=
  let y := to_f64_val b in
  if f64_eqb y f64_zero then TFloat f64_zero
  else let res := f64_div (to_f64_val a) y in if is_integral res then TInt (f64_as_i64 res) else TFloat res.

Definition strip_by (f : input -> input -> option input) (args : list TemplateValue) : string :=
  match args with
  | p :: s :: _ => let s := to_string_val (Some s) in from_option to_str s (f (of_str (to_string_val (Some p))) (of_str s))
  | _ => ""
  end.

Definition strip_prefix_cps (p s : input) : option input := if bool_decide (p `prefix_of` s) then Some (drop (length p) s) else None.
Definition strip_suffix_cps (p s : input) : option input :=
  if bool_decide (p `suffix_of` s) then Some (take (length s - length p) s) else None.

Definition value_len (arg : option TemplateValue) : Z :=
  match arg with
  | Some (TArray l) => Z.of_nat (length l)
  | Some (TMap m) => Z.of_nat (length m)
  | Some (TString s) => Z.of_nat (length (of_str s))
  | _ => 0
  end.

Section evaluator.
Context `{Engine.Text} `{Unicode} `{Lowercase} `{Base64}.

Definition call_json (v : TemplateValue) : TemplateValue := TString (value_to_string (to_json v)).

Definition call_function (name : string) (args : list TemplateValue) (dot : TemplateValue) : TemplateValue :=
  let a := head args in
  let b := args !! 1%nat in
  let named l := bool_decide (name ∈ l) in
  if named ["json"; "toJson"] then call_json (default dot a)
  else if named ["base64"; "b64enc"] then TString (b64_encode (chars (to_string_val (Some (default dot a)))))
  else if named ["b64dec"] then
    TString (match a with
             | Some (TString s) => match b64_decode (trim_str s) with Some bytes => to_str (from_utf8_lossy bytes) | None => "" end
             | _ => ""
             end)
  else if named ["printf"] then TString (match args with [] => "" | f :: args => format_printf (render f) args end)
  else if named ["index"] then match args with [] => NoValue | v :: keys => index_value v keys end
  else if named ["upper"] then TString (to_str (to_uppercase (of_str (to_string_val a))))
  else if named ["lower"] then TString (to_str (to_lowercase (of_str (to_string_val a))))
  else if named ["trim"] then TString (trim_str (to_string_val a))
  else if named ["trimPrefix"] then TString (strip_by strip_prefix_cps args)
  else if named ["trimSuffix"] then TString (strip_by strip_suffix_cps args)
  else if named ["replace"] then
    TString (match args with
             | x :: y :: z :: _ =>
                 to_str (replace_go (of_str (to_string_val (Some x))) (of_str (to_string_val (Some y))) 0 (of_str (to_string_val (Some z))))
             | _ => ""
             end)
  else if named ["len"] then TInt (value_len a)
  else if named ["add"] then add_values args
  else if named ["sub"] then arith Z.sub f64_sub a b
  else if named ["mul"] then arith Z.mul f64_mul a b
  else if named ["div"] then div_values a b
  else if named ["gt"] then TBool (0 <? compare_vals a b)
  else if named ["ge"] then TBool (0 <=? compare_vals a b)
  else if named ["lt"] then TBool (compare_vals a b <? 0)
  else if named ["le"] then TBool (compare_vals a b <=? 0)
  else if named ["eq"] then TBool (compare_vals a b =? 0)
  else if named ["ne"] then TBool (negb (compare_vals a b =? 0))
  else if named ["default"] then (let v := default NoValue b in if is_truthy v then v else default NoValue a)
  else default NoValue a.

(** ** Evaluation *)

Record ExecContext := mkContext { dot : TemplateValue; root : TemplateValue; vars : gmap string TemplateValue }.

Fixpoint field_path (v : TemplateValue) (fields : list string) : TemplateValue :=
  match fields with
  | [] => v
  | f :: fields =>
      match v with
      | TMap m => match find_member f m with Some v => field_path v fields | None => NoValue end
      | _ => NoValue
      end
  end.

Definition base_value (ctx : ExecContext) (b : PathBase) : TemplateValue :=
  match b with
  | Dot => dot ctx
  | Var name => if bool_decide (name = "$") then root ctx else default NoValue (vars ctx !! name)
  end.

(** The function a command of several terms calls. *)
Definition function_name (t : Term) : string :=
  match t with Ident s => s | FieldPath _ fields => default "" (list.last fields) | _ => "" end.

Section terms.
Context (ctx : ExecContext) (eval_term : Term -> TemplateValue).

Definition eval_command (piped : option TemplateValue) (cmd : Command) : TemplateValue :=
  match cmd, piped with
  | [], _ => NoValue
  | [t], None => eval_term t
  | t :: ts, _ => call_function (function_name t) (map eval_term ts ++ option_list piped) (dot ctx)
  end.

Definition eval_commands (p : Pipeline) : TemplateValue :=
  default NoValue (foldl (fun piped cmd => Some (eval_command piped cmd)) None p).
End terms.

Fixpoint eval_term (ctx : ExecContext) (t : Term) : TemplateValue :=
  match t with
  | FieldPath b fields => field_path (base_value ctx b) fields
  | StringLit s => TString s
  | IntLit i => TInt i
  | FloatLit f => TFloat f
  | BoolLit b => TBool b
  | NilLit => Nil
  | Ident name => if bool_decide (name ∈ ["json"; "toJson"]) then call_json (dot ctx) else TString name
  | SubExpr p => eval_commands ctx (eval_term ctx) p
  end.

Definition eval_pipeline (ctx : ExecContext) (p : Pipeline) : TemplateValue := eval_commands ctx (eval_term ctx) p.

Definition set_var (name : string) (v : TemplateValue) (ctx : ExecContext) : ExecContext :=
  mkContext (dot ctx) (root ctx) (<[name := v]> (vars ctx)).

(** The context of one turn of a range, over its own copy of the variables. *)
Definition range_context (ctx : ExecContext) (names : option (string * option string)) (key elem : TemplateValue) : ExecContext :=
  let inner := mkContext elem (root ctx) (vars ctx) in
  match names with
  | Some (v, Some w) => set_var w elem (set_var v key inner)
  | Some (v, None) => set_var v elem inner
  | None => inner
  end.

(** The turns of a range, with their keys; none when the [else] is rendered. *)
Definition range_items (target : TemplateValue) : list (TemplateValue * TemplateValue) :=
  match target with
  | TArray l => imap (fun i v => (TInt (Z.of_nat i), v)) l
  | TMap m => map (fun e => (TString e.1, e.2)) m
  | _ => []
  end.

Definition assign (names : list string) (v : TemplateValue) (ctx : ExecContext) : ExecContext :=
  match names with [name] => set_var name v ctx | _ => ctx end.

Fixpoint eval_node (n : Node) (ctx : ExecContext) : ExecContext * string :=
  let eval_nodes := fix eval_nodes (l : list Node) (ctx : ExecContext) : ExecContext * string :=
    match l with
    | [] => (ctx, "")
    | n :: l => let '(ctx, s) := eval_node n ctx in let '(ctx, s') := eval_nodes l ctx in (ctx, s +:+ s')
    end in
  match n with
  | NText s => (ctx, s)
  | Action names p =>
      let v := eval_pipeline ctx p in
      match names with Some names => (assign names v ctx, "") | None => (ctx, render v) end
  | If branches else_branch =>
      (fix choose (bs : list (Pipeline * list Node)) :=
        match bs with
        | (cond, body) :: bs => if is_truthy (eval_pipeline ctx cond) then eval_nodes body ctx else choose bs
        | [] => match else_branch with Some l => eval_nodes l ctx | None => (ctx, "") end
        end) branches
  | Range names p body else_branch =>
      match range_items (eval_pipeline ctx p) with
      | [] => match else_branch with Some l => eval_nodes l ctx | None => (ctx, "") end
      | items =>
          (ctx, String.concat "" (map (fun e => (eval_nodes body (range_context ctx names e.1 e.2)).2) items))
      end
  end.

Fixpoint eval_nodes (l : list Node) (ctx : ExecContext) : ExecContext * string :=
  match l with
  | [] => (ctx, "")
  | n :: l => let '(ctx, s) := eval_node n ctx in let '(ctx, s') := eval_nodes l ctx in (ctx, s +:+ s')
  end.

(** [apply_data_template_value]: a template that does not parse is sent as it is. *)
Definition render_template (template : string) (data : value) : option string :=
  (fun r => match r with
            | inl _ => template
            | inr nodes => let v := from_json data in (eval_nodes nodes (mkContext v v ∅)).2
            end) <$> parse_template template.
End evaluator.
