(* ===== verification/DataTemplateFacts.v ===== *)
(** * Facts about data templates

    The scanner, the lexer and the parser return on every text. *)

From Stdlib Require Import Ascii SpecFloat.
From S2P Require Import Prelude Rust Characters Json Ast Engine Values Numbers FloatText Columns Parser Statements ParserFacts Delimited SinkFormat DataTemplate.

Set Default Goal Selector "!".
#[local] Set Warnings "-register-all".
#[local] Set Warnings "-clear-no-such-hyp".
#[local] Open Scope template_scope.

(** ** Termination *)

Lemma span_length p s : (length (span p s).2 <= length s)%nat.
Proof. induction s as [|c s IH]; simpl; [lia|]. destruct (p c); simpl; [|lia]. destruct (span p s). simpl in *. lia. Qed.

Lemma trim_start_length s : (length (trim_start s) <= length s)%nat.
Proof. apply span_length. Qed.

Lemma lex_string_length q s l r : lex_string q s = Some (l, r) -> (length r < length s)%nat.
Proof.
  remember (length s) as n eqn:Hn. revert s l r Hn. induction n as [n IH] using lt_wf_ind. intros s l r -> Hl.
  destruct s as [|c s]; [done|]. cbn [lex_string] in Hl. destruct (c =? q); [injection Hl as <- <-; simpl; lia|].
  destruct ((q =? quote) && (c =? backslash)).
  - destruct s as [|d s]; [done|]. apply bind_Some in Hl as ([l' r'] & Hl & [= <- <-]).
    specialize (IH (length s) ltac:(simpl; lia) s l' r' eq_refl Hl). simpl. lia.
  - apply bind_Some in Hl as ([l' r'] & Hl & [= <- <-]). specialize (IH (length s) ltac:(simpl; lia) s l' r' eq_refl Hl). simpl. lia.
Qed.

Lemma lex_digits_length dot s : (length (lex_digits dot s).2 <= length s)%nat.
Proof.
  revert dot. induction s as [|c s IH]; intros dot; cbn [lex_digits]; [done|]. destruct (_ || _); [|done].
  specialize (IH (dot || (c =? code "."))). destruct (lex_digits _ s) as [[l d] r]. simpl in *. lia.
Qed.

Lemma lex_number_length c r t r' : starts_number c r = true -> lex_number c r = Some (t, r') -> (length r' <= length r)%nat.
Proof.
  intros Hs. unfold lex_number. destruct (c =? code "-") eqn:Hc.
  - pose proof (lex_digits_length false r) as Hl. destruct (lex_digits false r) as [[l d] rest]. simpl in Hl.
    destruct d; intros Hn; apply bind_Some in Hn as (x & _ & [= <- <-]); done.
  - cbn [lex_digits]. unfold starts_number in Hs. rewrite Hc, andb_false_l, orb_false_r in Hs. rewrite Hs. cbn [orb].
    pose proof (lex_digits_length (false || (c =? code ".")) r) as Hl. destruct (lex_digits _ r) as [[l d] rest]. simpl in Hl.
    destruct d; intros Hn; apply bind_Some in Hn as (x & _ & [= <- <-]); done.
Qed.

Section termination.
Context `{UnicodeOk}.

Lemma lex_one_length c r ts r' : lex_one c r = inr (ts, r') -> (length r' <= length r)%nat.
Proof.
  unfold lex_one, unexpected, template_error. intros Hl.
  repeat match type of Hl with
  | (if ?b then _ else _) = _ => destruct b eqn:?; try (injection Hl as <- <-; destruct r; simpl; lia)
  | inl _ = inr _ => done
  end.
  - injection Hl as _ <-. rewrite length_drop. lia.
  - destruct (lex_string c r) as [[s r2]|] eqn:Hs; [|done]. injection Hl as <- <-. apply lex_string_length in Hs. lia.
  - destruct (lex_number c r) as [[t r2]|] eqn:Hn; [|done]. injection Hl as <- <-. by eapply lex_number_length.
  - pose proof (span_length path_char r) as Hs. destruct (span path_char r). by injection Hl as <- <-.
  - pose proof (span_length path_char r) as Hs. destruct (span path_char r) as [w r2]. destruct (fields_of w); by injection Hl as <- <-.
  - assert (Hw : word_char c = true).
    { unfold is_alphabetic, word_char, is_alphanumeric in *. destruct (c <? 128); [destruct (is_ascii_alnum c); [done|]; by destruct (c =? code "_")|].
      destruct (alphabetic c) eqn:Ha; [by rewrite alphabetic_alphanumeric|]. destruct (c =? code "_"); [apply orb_true_r|done]. }
    cbn [span] in Hl. rewrite Hw in Hl. pose proof (span_length word_char r) as Hs. destruct (span word_char r). by injection Hl as <- <-.
Qed.

Lemma tokenize_total fuel s : (length s < fuel)%nat -> tokenize fuel s <> None.
Proof.
  revert s. induction fuel as [|fuel IH]; intros s Hf; [lia|]. cbn [tokenize]. destruct s as [|c r]; [done|].
  destruct (lex_one c r) as [e|[ts r']] eqn:Hl; [done|]. apply lex_one_length in Hl. simpl in Hf.
  pose proof (IH r' ltac:(lia)) as Ht. by destruct (tokenize fuel r').
Qed.

Lemma opening_length s after : opening s = Some after -> length s = (length after + 2)%nat.
Proof.
  unfold opening. intros Ho. repeat case_match; simplify_eq; simpl; lia.
Qed.

Lemma closing_length s trims after : closing s = Some (trims, after) -> (length after + 2 <= length s)%nat.
Proof. unfold closing. intros Hc. repeat case_match; simplify_eq; simpl; lia. Qed.

Lemma find_open_length s before after : find_open s = Some (before, after) -> (length after + 2 <= length s)%nat.
Proof.
  revert before. induction s as [|c s IH]; intros before Hf; [done|]. cbn [find_open] in Hf.
  destruct (opening (c :: s)) as [a|] eqn:Ho.
  - injection Hf as <- <-. apply opening_length in Ho. lia.
  - apply bind_Some in Hf as ([b a] & Hf & [= <- <-]). specialize (IH _ Hf). simpl. lia.
Qed.

Lemma find_close_length q s content trims after : find_close q s = Some (content, trims, after) -> (length after < length s)%nat.
Proof.
  remember (length s) as n eqn:Hn. revert q s content Hn. induction n as [n IH] using lt_wf_ind. intros q s content -> Hf.
  destruct s as [|c s]; [done|]. cbn [find_close] in Hf.
  assert (Hnext : forall q, ('(content, trims, after) ← find_close q s; Some (c :: content, trims, after)) = Some (content, trims, after) ->
    (length after < length (c :: s))%nat).
  { intros q' Hb. apply bind_Some in Hb as ([[x y] z] & Hb & [= <- <- <-]).
    specialize (IH (length s) ltac:(simpl; lia) _ _ _ eq_refl Hb). simpl. lia. }
  destruct q as [qc|].
  - destruct (c =? qc); [by eapply Hnext|]. destruct (_ && _); [|by eapply Hnext]. destruct s as [|d s]; [done|].
    apply bind_Some in Hf as ([[x y] z] & Hf & [= <- <- <-]). specialize (IH (length s) ltac:(simpl; lia) _ _ _ eq_refl Hf). simpl. lia.
  - destruct (_ || _); [by eapply Hnext|]. destruct (closing (c :: s)) as [[y a]|] eqn:Hc; [|by eapply Hnext].
    injection Hf as <- <- <-. apply closing_length in Hc. lia.
Qed.

Lemma scan_total fuel s : (length s < fuel)%nat -> scan fuel s <> None.
Proof.
  revert s. induction fuel as [|fuel IH]; intros s Hf; [lia|]. cbn [scan].
  destruct (find_open s) as [[before after]|] eqn:Ho; [|done]. apply find_open_length in Ho.
  set (strip := match after with 45 :: r => (true, r) | _ => (false, after) end).
  assert (Hs : (length strip.2 <= length after)%nat) by (unfold strip; repeat case_match; simpl; lia).
  destruct strip as [trim_prev action]. simpl in Hs.
  destruct (find_close None action) as [[[content trim_next] rest]|] eqn:Hc; [|done]. apply find_close_length in Hc.
  pose proof (tokenize_total (S (length content)) content ltac:(lia)) as Ht. unfold tokenize_action.
  destruct (tokenize _ content) as [[e|ts]|]; simpl; [done| |done].
  assert (Hr : (length (if trim_next then trim_start rest else rest) <= length rest)%nat).
  { destruct trim_next; [apply trim_start_length|done]. }
  pose proof (IH (if trim_next then trim_start rest else rest) ltac:(lia)) as Hn. by destruct (scan fuel _).
Qed.
End termination.

(** ** Termination of the parser *)

(** A step that returns, and leaves no more than [n] of [len]. *)
Definition returns {A} (P : A -> Prop) (r : option (string + A)) : Prop :=
  match r with None => False | Some (inl _) => True | Some (inr a) => P a end.

Lemma returns_bind {A B} (P : A -> Prop) (Q : B -> Prop) (r : option (string + A)) k :
  returns P r -> (forall a, P a -> returns Q (k a)) -> returns Q (then_do r k).
Proof. destruct r as [[e|a]|]; simpl; auto. Qed.

Lemma returns_weaken {A} (P Q : A -> Prop) (r : option (string + A)) : returns P r -> (forall a, P a -> Q a) -> returns Q r.
Proof. destruct r as [[e|a]|]; simpl; auto. Qed.

Lemma returns_total {A} (P : A -> Prop) (r : option (string + A)) : returns P r -> r <> None.
Proof. by destruct r. Qed.

Lemma close_paren_length depth ts inside after : close_paren depth ts = Some (inside, after) -> (length inside + length after < length ts)%nat.
Proof.
  revert depth inside. induction ts as [|t ts IH]; intros depth inside Hc; [done|]. cbn [close_paren] in Hc.
  assert (Hnext : forall d, ('(inside, after) ← close_paren d ts; Some (t :: inside, after)) = Some (inside, after) ->
    (length inside + length after < length (t :: ts))%nat).
  { intros d Hd. apply bind_Some in Hd as ([x y] & Hd & [= <- <-]). specialize (IH _ _ Hd). simpl. lia. }
  destruct t; try by eapply Hnext. destruct depth as [|[|depth]]; [by eapply Hnext| |by eapply Hnext].
  injection Hc as <- <-. simpl. lia.
Qed.

Section parser_termination.
Context (sub : list Token -> option (string + Pipeline)) (n : nat).
Context (sub_returns : forall ts, (length ts < n)%nat -> returns (fun _ => True) (sub ts)).

Lemma parse_term_returns ts : (length ts <= n)%nat -> returns (fun r => length r.2 < length ts)%nat (parse_term sub ts).
Proof.
  intros Hn. destruct ts as [|t ts]; [done|]. destruct t; simpl; try lia; try done.
  destruct (close_paren 1 ts) as [[inside after]|] eqn:Hc; [|done]. apply close_paren_length in Hc.
  eapply returns_bind; [apply sub_returns; simpl in Hn; lia|]. intros p _. simpl. lia.
Qed.

Lemma parse_terms_returns fuel ts : (length ts < fuel)%nat -> (length ts <= n)%nat ->
  returns (fun r => length r.2 <= length ts /\ (r.1 <> [] -> length r.2 < length ts))%nat (parse_terms sub fuel ts).
Proof.
  revert ts. induction fuel as [|fuel IH]; intros ts Hf Hn; [lia|]. cbn [parse_terms]. destruct ts as [|t ts]; [done|].
  destruct (is_pipe t) eqn:Hp; [done|].
  eapply returns_bind; [by apply parse_term_returns|]. intros [x r] Hr. simpl in Hr.
  eapply returns_bind; [apply IH; simpl in *; lia|]. intros [xs r2] [Hr2 _]. simpl in *. lia.
Qed.

Lemma parse_commands_returns fuel ts : (length ts < fuel)%nat -> (length ts <= n)%nat ->
  returns (fun _ => True) (parse_commands sub fuel ts).
Proof.
  revert ts. induction fuel as [|fuel IH]; intros ts Hf Hn; [lia|]. cbn [parse_commands]. destruct ts as [|t ts]; [done|].
  eapply returns_bind; [apply parse_terms_returns; [lia|done]|].
  intros [terms r] [Hr Hne]. simpl in Hr. case_bool_decide as Hl; [done|].
  assert (Hlt : (length r < length (t :: ts))%nat) by (apply Hne; simpl; intros ->; by apply Hl).
  eapply returns_bind; [apply IH; rewrite length_drop; simpl in *; lia|]. done.
Qed.
End parser_termination.

Lemma parse_pipeline_returns fuel ts : (length ts < fuel)%nat -> returns (fun _ => True) (parse_pipeline fuel ts).
Proof.
  revert ts. induction fuel as [|fuel IH]; intros ts Hf; [lia|]. cbn [parse_pipeline].
  eapply returns_bind; [apply (parse_commands_returns _ fuel); [done|lia|lia]|]. intros cs _. by case_bool_decide.
Qed.

Lemma parse_pipeline_tokens_returns ts : returns (fun _ => True) (parse_pipeline_tokens ts).
Proof. apply parse_pipeline_returns. lia. Qed.

Lemma parse_action_returns ts : returns (fun _ => True) (parse_action_tokens ts).
Proof.
  assert (Hp : forall {A} ts (f : Pipeline -> A), returns (fun _ => True) (let* p := parse_pipeline_tokens ts in succeeds (f p))).
  { intros A ts' f. eapply returns_bind; [apply parse_pipeline_tokens_returns|done]. }
  assert (Hplain : forall ts, returns (fun _ => True) (parse_plain_action ts)).
  { intros ts'. unfold parse_plain_action. destruct (split_assign ts') as [[l r]|]; [case_bool_decide|]; apply Hp. }
  destruct ts as [|t ts]; [done|]. destruct t; try apply Hplain. cbn [parse_action_tokens].
  repeat case_bool_decide; try done; try apply Hp; try apply Hplain.
  - destruct ts as [|[] ts]; try done. case_bool_decide; [apply Hp|done].
  - unfold parse_range. destruct (split_assign ts) as [[l r]|]; apply Hp.
Qed.

(** A block leaves fewer items. *)
Definition leaves (n : nat) {A} (r : A * Items) : Prop := (length r.2 <= n)%nat.

Section block_termination.
Context (block : Items -> option (string + (list Node * Items))) (n : nat).
Context (block_returns : forall items, (length items < n)%nat -> returns (leaves (length items)) (block items)).

Lemma expect_end_returns items : returns (fun r => length r < length items)%nat (expect_end items).
Proof.
  destruct items as [|[s|ts] items]; [done|done|]. simpl. pose proof (parse_action_returns ts) as Ha.
  destruct (parse_action_tokens ts) as [[e|a]|]; [done| |done]. destruct a; try done. simpl. lia.
Qed.

Lemma parse_else_returns items : (length items < n)%nat -> returns (leaves (length items)) (parse_else block items).
Proof.
  intros Hn. eapply returns_bind; [by apply block_returns|]. intros [body r] Hr. unfold leaves in *. simpl in Hr.
  eapply returns_bind; [apply expect_end_returns|]. intros r2 Hr2. cbn beta in Hr2. simpl. lia.
Qed.

Lemma parse_branches_returns fuel items : (length items < fuel)%nat -> (length items <= n)%nat ->
  returns (leaves (length items)) (parse_branches block fuel items).
Proof.
  revert items. induction fuel as [|fuel IH]; intros items Hf Hn; [lia|]. cbn [parse_branches].
  destruct items as [|[s|ts] items]; [done|done|]. simpl in Hf, Hn.
  eapply returns_bind; [apply parse_action_returns|]. intros a _. destruct a; try done; unfold leaves; simpl.
  - lia.
  - eapply returns_bind; [apply parse_else_returns; lia|]. intros [body r] Hr. unfold leaves in Hr. simpl in *. lia.
  - eapply returns_bind; [apply block_returns; lia|]. intros [body r] Hr. unfold leaves in Hr. simpl in Hr.
    eapply returns_bind; [apply IH; lia|]. intros [[bs eb] r2] Hr2. unfold leaves in Hr2. simpl in *. lia.
Qed.

Lemma parse_range_end_returns items : (length items <= n)%nat -> returns (leaves (length items)) (parse_range_end block items).
Proof.
  intros Hn. destruct items as [|[s|ts] items]; [done|done|]. simpl in Hn. simpl.
  eapply returns_bind; [apply parse_action_returns|]. intros a _. destruct a; try done; unfold leaves; simpl.
  - lia.
  - eapply returns_bind; [apply parse_else_returns; lia|]. intros [body r] Hr. unfold leaves in Hr. simpl in *. lia.
Qed.
End block_termination.

Lemma parse_block_returns fuel stop items : (length items < fuel)%nat -> returns (leaves (length items)) (parse_block fuel stop items).
Proof.
  revert stop items. induction fuel as [|fuel IH]; intros stop items Hf; [lia|].
  assert (Hcont : forall n r, (length r < length items)%nat ->
    returns (leaves (length items)) (let* (nodes, items) := parse_block fuel stop r in succeeds (n :: nodes, items))).
  { intros n r Hr. eapply returns_bind; [apply IH; lia|]. intros [nodes r2] Hr2. unfold leaves in *. simpl in *. lia. }
  assert (Hin : forall items, (length items < fuel)%nat -> returns (leaves (length items)) (parse_block fuel true items)) by (intros; by apply IH).
  cbn [parse_block]. destruct items as [|[s|ts] rest]; [destruct stop; [done|unfold leaves; simpl; lia]|apply Hcont; simpl; lia|]. simpl in Hf.
  eapply returns_bind; [apply parse_action_returns|]. intros a _.
  destruct a as [| |q|q|vars q|vars q]; try (destruct stop; [unfold leaves; simpl; lia|done]).
  - eapply returns_bind; [apply Hin; lia|]. intros [body r] Hr. unfold leaves in Hr. simpl in Hr.
    eapply returns_bind; [apply (parse_branches_returns _ fuel); [done|lia|lia]|]. intros [[bs eb] r2] Hr2. unfold leaves in Hr2. simpl in Hr2.
    apply Hcont. simpl. lia.
  - eapply returns_bind; [apply Hin; lia|]. intros [body r] Hr. unfold leaves in Hr. simpl in Hr.
    eapply returns_bind; [apply (parse_range_end_returns _ fuel); [done|lia]|]. intros [eb r2] Hr2. unfold leaves in Hr2. simpl in Hr2.
    apply Hcont. simpl. lia.
  - apply Hcont. simpl. lia.
Qed.

Lemma parse_template_total `{UnicodeOk} s : parse_template s <> None.
Proof.
  unfold parse_template, scan_raw_items. pose proof (scan_total (S (length (of_str s))) (of_str s) ltac:(lia)) as Hs.
  destruct (scan _ _) as [[e|items]|]; [done| |done]. cbn [then_do].
  pose proof (parse_block_returns (S (length items)) false items ltac:(lia)) as Hb.
  by destruct (parse_block _ _ _) as [[e|[nodes r]]|].
Qed.

(** ** Rendering *)

(** The templates of the sinks are rendered by the evaluator. *)
#[export] Instance data_templates `{Engine.Text} `{Unicode} `{Lowercase} `{Base64} : Templates := {|
  apply_data_template template data := default template (render_template template (row_to_value data));
  apply_data_template_value template data := default template (render_template template data);
|}.

(** Every template renders every document: the scanner, the lexer of each action and the
    parser of pipelines and blocks return on every text (each call of the parser uses up what
    it reads, nested parentheses included), so a template that is not one is sent as it is and
    no template keeps a sink from sending. *)
Theorem template_renders `{Engine.Text} `{UnicodeOk} `{Lowercase} `{Base64} template data :
  exists out, render_template template data = Some out /\
    (forall e, parse_template template = Some (inl e) -> out = template).
Proof.
  unfold render_template. destruct (parse_template template) as [[e|nodes]|] eqn:Hp; [| |by apply parse_template_total in Hp].
  - by eexists; split.
  - eexists; split; [done|]. by intros e [=].
Qed.

(** A document without the columns a template does not see. *)
Fixpoint visible (v : value) : value :=
  match v with
  | VArray l => VArray (map visible l)
  | VObject m =>
      VObject ((fix members m :=
        match m with [] => [] | (k, v) :: m => if hidden_key k then members m else (k, visible v) :: members m end) m)
  | v => v
  end.

Lemma from_json_visible v : from_json (visible v) = from_json v.
Proof.
  induction v as [| | | |l IH|m IH] using value_ind'; try done.
  - cbn [visible from_json]. f_equal. rewrite map_map. by apply map_ext_Forall.
  - cbn [visible from_json]. f_equal. induction IH as [|[k v] m Hv _ IHm]; [done|]. simpl in Hv.
    destruct (hidden_key k) eqn:Hk; [done|]. rewrite Hk, Hv. by rewrite IHm.
Qed.

(** The columns a rule keeps for itself, those whose names begin with two underscores, do
    not leak into what a sink sends: at whatever depth they are, two documents that differ in
    them only are rendered alike by every template, with [json], [range], [index] and [len]
    as with field paths. *)
Theorem templates_hide_internal `{Engine.Text} `{Unicode} `{Lowercase} `{Base64} template data data' :
  visible data = visible data' -> apply_data_template_value template data = apply_data_template_value template data'.
Proof.
  intros Hv. simpl. unfold render_template. by rewrite <- (from_json_visible data), Hv, from_json_visible.
Qed.

Module TemplateSample.
#[export] Existing Instance ParserSample.ascii_only.
#[export] Existing Instance DelimitedSample.display.
#[export] Instance ascii_letters : UnicodeOk.
Proof. done. Qed.
#[export] Instance ascii_lowercase : Lowercase := fun s => s.
#[export] Instance no_base64 : Base64 := {| b64_encode _ := ""; b64_decode _ := None |}.

(** A template, its single quotes standing for double ones, against a document. *)
Definition quoted (s : string) : string := of_chars (map (fun c => if (c =? "'")%char then "034"%char else c) (chars s)).
Definition shown (template : string) (data : value) : option string := render_template (quoted template) data.

Definition reading : value :=
  VObject [("dev", VString "d0"); ("id", value_of_i64 0); ("temp", VNumber (Float (of_text "20.5"))); ("__seq", value_of_i64 9)].
Definition rows : value := VArray [VObject [("id", value_of_i64 0)]; VObject [("id", value_of_i64 1)]; VObject [("id", value_of_i64 2)]].

Example fields : shown "{'x':{{.id}},'t':'{{.dev}}'}" reading = Some (quoted "{'x':0,'t':'d0'}").
Proof. by vm_compute. Qed.

Example formats : shown "{{printf '%.2f' .temp}}|{{.id}}" reading = Some "20.50|0".
Proof. by vm_compute. Qed.

Example branches : map (fun t => shown t reading)
  ["{{if gt .temp 21.6}}hot{{else}}cold{{end}}"; "{{if lt .temp 10.0}}low{{else if ge .temp 20.5}}high{{else}}mid{{end}}"] = [Some "cold"; Some "high"].
Proof. by vm_compute. Qed.

Example ranges : map (fun t => shown t rows)
  ["{{range .}}{{.id}};{{end}}"; "{{range $i, $e := .}}{{if $i}},{{end}}{{$e.id}}{{end}}"; "{{len .}}{{(index . 2).id}}"; "{{range (index . 0)}}{{.}}{{else}}none{{end}}"]
  = [Some "0;1;2;"; Some "0,1,2"; Some "3<no value>"; Some "0"].
Proof. by vm_compute. Qed.

Example helpers : shown "{{upper .dev}}-{{add .id 1}}-{{trim ' x '}}-{{index . 'dev'}}-[{{.nosuch}}]-{{.dev | upper | printf '%s!'}}" reading
  = Some "D0-1-x-d0-[<no value>]-D0!".
Proof. by vm_compute. Qed.

Example comma_list :
  shown "{{$len := len .values}}{{$loopsize := add $len -1}}{'description': [{{range $index, $ele := .values}}{{if le .t 25.0}}'fine'{{else if gt .t 25.0}}'high'{{end}}{{if eq $loopsize $index}}]{{else}},{{end}}{{end}}}"
    (VObject [("values", VArray (map (fun s => VObject [("t", VNumber (Float (of_text s)))]) ["10.5"; "20.3"; "30.3"]))])
  = Some (quoted "{'description': ['fine','fine','high']}").
Proof. by vm_compute. Qed.

Example rejected : map (fun t => validate_data_template (quoted t)) ["{{.id"; "{{if .temp}}hot"; "{{end}}"; "{{}}"; "{{.id}}"; "{{nosuch .id}}"]
  = map Some [template_error "unclosed action"; template_error "unexpected EOF"; template_error "unexpected {{end}}"; inr tt; inr tt; inr tt].
Proof. by vm_compute. Qed.

(** A column whose name begins with two underscores is not seen. *)
Example hidden : shown "{{.__seq}}" reading = Some "<no value>".
Proof. by vm_compute. Qed.

(** Where the templates are not those of Go: a minus sign next to the braces is taken for a
    trim mark, an assignment in a range is lost after it, zeros are put before the sign, texts and
    numbers compare as smaller both ways, an unknown function gives its first argument, what
    follows [else] and [end] is not looked at, a percent sign at the end is doubled, and a
    number beyond 64 bits leaves the template as it is. *)
Example not_go : map (fun t => shown t rows)
  ["a {{-5}}"; "{{$x := 1}}{{range .}}{{$x = 2}}{{end}}{{$x}}"; "{{$x := 1}}{{range .}}{{$x := 2}}{{end}}{{$x}}"; "{{printf '%05d' -42}}"; "{{lt 'a' 1}}{{lt 1 'a'}}"; "{{nosuch 3}}";
   "{{if true}}x{{else foo}}y{{end z}}"; "{{printf '100%'}}"; "{{99999999999999999999}}"]
  = map Some ["a5"; "1"; "1"; "00-42"; "truetrue"; "3"; "x"; "100%%"; "{{99999999999999999999}}"].
Proof. by vm_compute. Qed.
End TemplateSample.
Import TemplateSample.

Lemma template_renders_witness :
  exists out, render_template "{{.id}" reading = Some out /\ (forall e, parse_template "{{.id}" = Some (inl e) -> out = "{{.id}").
Proof. apply template_renders. Defined.
