(* ===== verification/TemplateRoundTrip.v ===== *)
(** * Templates are read back

    A tree of nodes is written as items, items as text; the scanner, the lexer and the parser
    read the text back as the tree. *)

From Stdlib Require Import Ascii SpecFloat.
From S2P Require Import Prelude Rust Characters Json Ast Engine Values Numbers FloatText Columns Parser Statements ParserFacts Delimited SinkFormat RoundTrip DataTemplate DataTemplateFacts.

Set Default Goal Selector "!".
#[local] Set Warnings "-register-all".
#[local] Set Warnings "-clear-no-such-hyp".
#[local] Open Scope template_scope.

(** ** Trees as tokens *)

Section term_ind.
Context (P : Term -> Prop).
Context (P_path : forall b fs, P (FieldPath b fs)) (P_string : forall s, P (StringLit s)) (P_int : forall i, P (IntLit i))
  (P_float : forall f, P (FloatLit f)) (P_bool : forall b, P (BoolLit b)) (P_nil : P NilLit) (P_ident : forall s, P (Ident s))
  (P_sub : forall p, Forall (Forall P) p -> P (SubExpr p)).

Fixpoint Term_nested_ind (t : Term) : P t :=
  match t with
  | FieldPath b fs => P_path b fs
  | StringLit s => P_string s
  | IntLit i => P_int i
  | FloatLit f => P_float f
  | BoolLit b => P_bool b
  | NilLit => P_nil
  | Ident s => P_ident s
  | SubExpr p =>
      P_sub p ((fix commands (p : Pipeline) : Forall (Forall P) p :=
        match p with
        | [] => List.Forall_nil _
        | c :: p =>
            List.Forall_cons _ c p
              ((fix terms (c : Command) : Forall P c :=
                match c with [] => List.Forall_nil _ | t :: c => List.Forall_cons _ t c (Term_nested_ind t) (terms c) end) c)
              (commands p)
        end) p)
  end.
End term_ind.

Fixpoint join_pipes (l : list (list Token)) : list Token :=
  match l with
  | [] => []
  | [c] => c
  | c :: l => c ++ KPipe :: join_pipes l
  end.

Fixpoint term_tokens (t : Term) : list Token :=
  match t with
  | FieldPath Dot [] => [KDot]
  | FieldPath Dot fields => [KDotField fields]
  | FieldPath (Var name) fields => [KVarField name fields]
  | StringLit s => [KString s]
  | IntLit i => [KInt i]
  | FloatLit f => [KFloat f]
  | BoolLit b => [KBool b]
  | NilLit => [KNil]
  | Ident s => [KIdent s]
  | SubExpr p => KLParen :: join_pipes (map (fun c => concat (map term_tokens c)) p) ++ [KRParen]
  end.

Definition command_tokens (c : Command) : list Token := concat (map term_tokens c).
Definition pipeline_tokens (p : Pipeline) : list Token := join_pipes (map command_tokens p).

(** No pipeline and no command is empty. *)
Fixpoint term_ok (t : Term) : Prop :=
  match t with
  | SubExpr p => p <> [] /\ foldr (fun c P => c <> [] /\ foldr (fun t Q => term_ok t /\ Q) True c /\ P) True p
  | _ => True
  end.

Definition command_ok (c : Command) : Prop := c <> [] /\ Forall term_ok c.
Definition pipeline_ok (p : Pipeline) : Prop := p <> [] /\ Forall command_ok p.

Lemma foldr_Forall {A} (P : A -> Prop) l : foldr (fun a Q => P a /\ Q) True l <-> Forall P l.
Proof. induction l as [|a l IH]; simpl; [by split|]. by rewrite IH, list.Forall_cons. Qed.

Lemma sub_expr_ok p : term_ok (SubExpr p) <-> pipeline_ok p.
Proof.
  cbn [term_ok]. unfold pipeline_ok. apply and_iff_compat_l. induction p as [|c p IH]; simpl; [by split|].
  rewrite IH, list.Forall_cons, foldr_Forall. unfold command_ok. tauto.
Qed.

Definition prepend (l : list Token) (o : option (list Token * list Token)) : option (list Token * list Token) :=
  '(a, b) ← o; Some (l ++ a, b).

Lemma prepend_app l l' o : prepend l (prepend l' o) = prepend (l ++ l') o.
Proof. destruct o as [[a b]|]; simpl; [by rewrite app_assoc|done]. Qed.

(** A list of tokens in which parentheses match. *)
Definition balanced (l : list Token) : Prop := forall d ts, close_paren (S d) (l ++ ts) = prepend l (close_paren (S d) ts).

Lemma balanced_nil : balanced [].
Proof. intros d ts. simpl. by destruct (close_paren _ ts) as [[? ?]|]. Qed.

Lemma balanced_app l l' : balanced l -> balanced l' -> balanced (l ++ l').
Proof. intros Hl Hl' d ts. by rewrite <- app_assoc, Hl, Hl', prepend_app. Qed.

Lemma balanced_one t : t <> KLParen -> t <> KRParen -> balanced [t].
Proof. intros H1 H2 d ts. destruct t; try done; by destruct d. Qed.

Lemma balanced_paren l : balanced l -> balanced (KLParen :: l ++ [KRParen]).
Proof.
  intros Hl d ts. cbn [app close_paren]. rewrite <- app_assoc, Hl. cbn [app close_paren].
  destruct d as [|d]; cbn [pred]; destruct (close_paren _ ts) as [[a b]|]; simpl; [|done| |done]; by rewrite <- app_assoc.
Qed.

Lemma balanced_concat ls : Forall balanced ls -> balanced (concat ls).
Proof. induction 1; simpl; [apply balanced_nil|by apply balanced_app]. Qed.

Lemma balanced_join ls : Forall balanced ls -> balanced (join_pipes ls).
Proof.
  induction 1 as [|l [|l' ls] Hl Hls IH]; [apply balanced_nil|done|]. change (join_pipes (l :: l' :: ls)) with (l ++ [KPipe] ++ join_pipes (l' :: ls)).
  apply balanced_app; [done|]. apply balanced_app; [by apply balanced_one|done].
Qed.

Lemma term_balanced t : balanced (term_tokens t).
Proof.
  induction t as [b fs| | | | | | |p IH] using Term_nested_ind; try by apply balanced_one.
  - destruct b as [|n]; [destruct fs|]; by apply balanced_one.
  - cbn [term_tokens]. apply balanced_paren, balanced_join. apply List.Forall_map. eapply list.Forall_impl; [exact IH|].
    intros c Hc. apply balanced_concat. by apply List.Forall_map.
Qed.

Lemma pipeline_balanced p : balanced (pipeline_tokens p).
Proof.
  apply balanced_join, List.Forall_map, list.Forall_true. intros c. apply balanced_concat, List.Forall_map, list.Forall_true. apply term_balanced.
Qed.

Lemma close_pipeline p ts : close_paren 1 (pipeline_tokens p ++ KRParen :: ts) = Some (pipeline_tokens p, ts).
Proof. rewrite pipeline_balanced. simpl. by rewrite app_nil_r. Qed.

Section parse_tokens.
Context (sub : list Token -> option (string + Pipeline)) (n : nat).
Context (sub_reads : forall p, pipeline_ok p -> (length (pipeline_tokens p) < n)%nat -> sub (pipeline_tokens p) = succeeds p).

Lemma parse_term_tokens t ts : term_ok t -> (length (term_tokens t) <= n)%nat -> parse_term sub (term_tokens t ++ ts) = succeeds (t, ts).
Proof.
  destruct t as [b fs| | | | | | |p]; intros Hok Hn; try done.
  - destruct b as [|v]; [destruct fs|]; done.
  - apply sub_expr_ok in Hok. change (term_tokens (SubExpr p)) with (KLParen :: pipeline_tokens p ++ [KRParen]) in *.
    cbn [app parse_term]. rewrite <- app_assoc. cbn [app]. rewrite close_pipeline.
    rewrite sub_reads; [done|done|]. cbn [length] in Hn. rewrite length_app in Hn. simpl in Hn. lia.
Qed.

Lemma term_tokens_start t : exists k ks, term_tokens t = k :: ks /\ is_pipe k = false /\ is_assign k = false.
Proof. destruct t as [b fs| | | | | | |p]; [destruct b as [|v]; [destruct fs|]|..]; do 2 eexists; (split; [reflexivity|done]). Qed.

(** What follows a command. *)
Definition command_end (ts : list Token) : Prop := match ts with [] => True | t :: _ => is_pipe t = true end.

Lemma parse_terms_tokens fuel c rest : Forall term_ok c -> command_end rest ->
  (length (command_tokens c) <= n)%nat -> (length (command_tokens c) < fuel)%nat ->
  parse_terms sub fuel (command_tokens c ++ rest) = succeeds (c, rest).
Proof.
  revert fuel. induction c as [|t c IH]; intros fuel Hok Hend Hn Hf; destruct fuel as [|fuel]; try lia.
  { cbn [command_tokens concat map app parse_terms]. destruct rest as [|k rest]; [done|]. simpl in Hend. by rewrite Hend. }
  apply list.Forall_cons in Hok as [Ht Hok]. unfold command_tokens in *. cbn [map concat] in *. rewrite length_app in Hn, Hf.
  rewrite <- app_assoc. destruct (term_tokens_start t) as (k & ks & Hk & Hp & _).
  assert (Hlen : (1 <= length (term_tokens t))%nat) by (rewrite Hk; simpl; lia).
  cbn [parse_terms]. rewrite Hk. cbn [app]. rewrite Hp. change (k :: ks ++ concat (map term_tokens c) ++ rest) with ((k :: ks) ++ concat (map term_tokens c) ++ rest).
  rewrite <- Hk, parse_term_tokens by (done || lia). cbn [then_do succeeds]. by rewrite IH by (done || lia).
Qed.

Lemma parse_commands_tokens fuel p : Forall command_ok p -> (length (pipeline_tokens p) <= n)%nat -> (length (pipeline_tokens p) < fuel)%nat ->
  parse_commands sub fuel (pipeline_tokens p) = succeeds p.
Proof.
  revert fuel. induction p as [|c p IH]; intros fuel Hok Hn Hf; destruct fuel as [|fuel]; try lia; [done|].
  apply list.Forall_cons in Hok as [[Hc Ht] Hok].
  assert (Hstep : exists rest, pipeline_tokens (c :: p) = command_tokens c ++ rest /\ command_end rest /\
    drop 1 rest = pipeline_tokens p /\ (p <> [] -> length rest = S (length (pipeline_tokens p)))%nat).
  { unfold pipeline_tokens. cbn [map]. destruct p as [|c' p].
    - exists []. simpl. by rewrite app_nil_r.
    - exists (KPipe :: pipeline_tokens (c' :: p)). done. }
  destruct Hstep as (rest & Heq & Hend & Hdrop & Hlen). rewrite Heq in *. rewrite length_app in *.
  assert (Hone : (1 <= length (command_tokens c))%nat).
  { destruct c as [|t c]; [done|]. unfold command_tokens. cbn [map concat]. destruct (term_tokens_start t) as (k & ks & -> & _). simpl. lia. }
  cbn [parse_commands]. destruct (command_tokens c ++ rest) as [|k l] eqn:Hl.
  { apply (f_equal length) in Hl. rewrite length_app in Hl. simpl in Hl. lia. }
  rewrite <- Hl, length_app, parse_terms_tokens by (done || lia). cbn [then_do succeeds].
  rewrite bool_decide_eq_false_2 by (by destruct c). rewrite Hdrop.
  assert (Hp : (length (pipeline_tokens p) <= length rest)%nat) by (rewrite <- Hdrop, length_drop; lia).
  by rewrite IH by (done || lia).
Qed.
End parse_tokens.

Lemma parse_pipeline_reads fuel p : pipeline_ok p -> (length (pipeline_tokens p) < fuel)%nat -> parse_pipeline fuel (pipeline_tokens p) = succeeds p.
Proof.
  revert p. induction fuel as [|fuel IH]; intros p [Hne Hok] Hf; [lia|]. cbn [parse_pipeline].
  rewrite (parse_commands_tokens _ fuel) by (done || lia || apply IH). cbn [then_do succeeds].
  rewrite bool_decide_eq_false_2; [done|by destruct p].
Qed.

Lemma parse_pipeline_tokens_reads p : pipeline_ok p -> parse_pipeline_tokens (pipeline_tokens p) = succeeds p.
Proof. intros Hp. apply parse_pipeline_reads; [done|lia]. Qed.

(** ** Blocks as items *)

Fixpoint variable_tokens (vars : list string) : list Token :=
  match vars with
  | [] => []
  | [v] => [KVarField v []]
  | v :: vars => KVarField v [] :: KComma :: variable_tokens vars
  end.

Definition names_list (vars : option (string * option string)) : list string :=
  match vars with Some (v, Some w) => [v; w] | Some (v, None) => [v] | None => [] end.

Definition assignment (vars : list string) (p : Pipeline) : list Token :=
  match vars with [] => pipeline_tokens p | _ => variable_tokens vars ++ KAssign :: pipeline_tokens p end.

Definition word_item (w : string) : RawItem := RAction [KIdent w].

Section items.
Context (node_items : Node -> list RawItem).
Definition body_items (l : list Node) : list RawItem := concat (map node_items l).
Definition branch_items (first : bool) (b : Pipeline * list Node) : list RawItem :=
  RAction ((if first then [KIdent "if"] else [KIdent "else"; KIdent "if"]) ++ pipeline_tokens b.1) :: body_items b.2.
Definition else_items (eb : option (list Node)) : list RawItem :=
  match eb with Some l => word_item "else" :: body_items l | None => [] end.
End items.

(** The items a node is written as. *)
Fixpoint node_items (n : Node) : list RawItem :=
  match n with
  | NText s => [RText s]
  | Action vars p => [RAction (assignment (default [] vars) p)]
  | If branches eb =>
      (fix branches_items (first : bool) (bs : list (Pipeline * list Node)) : list RawItem :=
        match bs with [] => [] | b :: bs => branch_items node_items first b ++ branches_items false bs end) true branches
      ++ else_items node_items eb ++ [word_item "end"]
  | Range vars p body eb =>
      RAction (KIdent "range" :: assignment (names_list vars) p) :: body_items node_items body
      ++ else_items node_items eb ++ [word_item "end"]
  end.

Abbreviation nodes_items := (body_items node_items).
Fixpoint branches_items (first : bool) (bs : list (Pipeline * list Node)) : list RawItem :=
  match bs with [] => [] | b :: bs => branch_items node_items first b ++ branches_items false bs end.

Definition keyword (w : string) : bool := bool_decide (w ∈ ["end"; "else"; "if"; "range"]).
Definition starts_plainly (p : Pipeline) : Prop :=
  match p with (Ident w :: _) :: _ => keyword w = false | _ => True end.

Definition action_ok (vars : option (list string)) (p : Pipeline) : Prop :=
  pipeline_ok p /\ match vars with None => starts_plainly p | Some vars => vars <> [] end.

(** Every pipeline is one, every [If] has a branch, and no output begins with a keyword. *)
Fixpoint node_ok (n : Node) : Prop :=
  match n with
  | NText _ => True
  | Action vars p => action_ok vars p
  | If bs eb =>
      bs <> [] /\
      foldr (fun b P => pipeline_ok b.1 /\ foldr (fun n Q => node_ok n /\ Q) True b.2 /\ P) True bs /\
      match eb with Some l => foldr (fun n Q => node_ok n /\ Q) True l | None => True end
  | Range vars p body eb =>
      pipeline_ok p /\ foldr (fun n Q => node_ok n /\ Q) True body /\
      match eb with Some l => foldr (fun n Q => node_ok n /\ Q) True l | None => True end
  end.

Definition branch_ok (b : Pipeline * list Node) : Prop := pipeline_ok b.1 /\ Forall node_ok b.2.
Definition else_ok (eb : option (list Node)) : Prop := forall l, eb = Some l -> Forall node_ok l.

Lemma else_ok_foldr eb : match eb with Some l => foldr (fun n Q => node_ok n /\ Q) True l | None => True end <-> else_ok eb.
Proof.
  destruct eb as [l|]; unfold else_ok; [rewrite foldr_Forall|by split]. split; [by intros Hl ? [= <-]|auto].
Qed.

Lemma if_ok bs eb : node_ok (If bs eb) <-> bs <> [] /\ Forall branch_ok bs /\ else_ok eb.
Proof.
  cbn [node_ok]. rewrite else_ok_foldr. apply and_iff_compat_l, and_iff_compat_r. induction bs as [|b bs IH]; simpl; [by split|].
  rewrite IH, foldr_Forall, list.Forall_cons. unfold branch_ok. tauto.
Qed.

Lemma range_ok vars p body eb : node_ok (Range vars p body eb) <-> pipeline_ok p /\ Forall node_ok body /\ else_ok eb.
Proof. cbn [node_ok]. by rewrite else_ok_foldr, foldr_Forall. Qed.

(** Pipelines do not assign. *)
Lemma split_assign_app l ts : Forall (fun t => is_assign t = false) l -> split_assign (l ++ KAssign :: ts) = Some (l, ts).
Proof. induction 1 as [|t l Ht _ IH]; simpl; [done|]. by rewrite Ht, IH. Qed.

Lemma split_assign_none l : Forall (fun t => is_assign t = false) l -> split_assign l = None.
Proof. induction 1 as [|t l Ht _ IH]; simpl; [done|]. by rewrite Ht, IH. Qed.

Lemma join_no_assign ls : Forall (Forall (fun t => is_assign t = false)) ls -> Forall (fun t => is_assign t = false) (join_pipes ls).
Proof.
  induction 1 as [|l [|l' ls] Hl Hls IH]; [done|done|]. change (join_pipes (l :: l' :: ls)) with (l ++ KPipe :: join_pipes (l' :: ls)).
  apply Forall_app. split; [done|]. by constructor.
Qed.

Lemma term_no_assign t : Forall (fun t => is_assign t = false) (term_tokens t).
Proof.
  induction t as [b fs| | | | | | |p IH] using Term_nested_ind; try by repeat constructor.
  - destruct b as [|n]; [destruct fs|]; by repeat constructor.
  - cbn [term_tokens]. constructor; [done|]. apply Forall_app. split; [|by repeat constructor].
    apply join_no_assign, List.Forall_map. eapply list.Forall_impl; [exact IH|]. intros c Hc. apply Forall_concat. by apply List.Forall_map.
Qed.

Lemma pipeline_no_assign p : Forall (fun t => is_assign t = false) (pipeline_tokens p).
Proof.
  apply join_no_assign, List.Forall_map, list.Forall_true. intros c. apply Forall_concat, List.Forall_map, list.Forall_true, term_no_assign.
Qed.

Lemma variable_no_assign vars : Forall (fun t => is_assign t = false) (variable_tokens vars).
Proof. induction vars as [|v [|w vars] IH]; [done|by repeat constructor|]. cbn [variable_tokens] in *. by repeat constructor. Qed.

Lemma variables_of vars : variables (variable_tokens vars) = vars.
Proof.
  unfold variables. induction vars as [|v [|w vars] IH]; [done|done|].
  change (variable_tokens (v :: w :: vars)) with (KVarField v [] :: KComma :: variable_tokens (w :: vars)). cbn [omap list_omap]. by rewrite IH.
Qed.

Lemma pipeline_start p : pipeline_ok p -> exists t k ks, head p ≫= head = Some t /\ term_tokens t = k :: ks /\ exists r, pipeline_tokens p = k :: r.
Proof.
  intros [Hne Hok]. destruct p as [|[|t c] p]; [done| |].
  { apply list.Forall_cons in Hok as [[? _] _]. done. }
  destruct (term_tokens_start t) as (k & ks & Hk & _). exists t, k, ks. split; [done|]. split; [done|].
  unfold pipeline_tokens. cbn [map]. unfold command_tokens at 1. cbn [map concat]. rewrite Hk. destruct p; simpl; by eexists.
Qed.

Lemma plain_action_reads vars p : action_ok vars p -> parse_action_tokens (assignment (default [] vars) p) = succeeds (PPipeline vars p).
Proof.
  intros [Hp Hv]. destruct vars as [vars|]; simpl.
  - assert (Hplain : parse_plain_action (variable_tokens vars ++ KAssign :: pipeline_tokens p) = succeeds (PPipeline (Some vars) p)).
    { unfold parse_plain_action. rewrite split_assign_app by apply variable_no_assign. rewrite variables_of.
      rewrite bool_decide_eq_false_2 by (by destruct vars). by rewrite parse_pipeline_tokens_reads. }
    destruct vars as [|v vars]; [done|]. unfold assignment. destruct vars as [|w vars]; exact Hplain.
  - assert (Hplain : parse_plain_action (pipeline_tokens p) = succeeds (PPipeline None p)).
    { unfold parse_plain_action. rewrite split_assign_none by apply pipeline_no_assign. by rewrite parse_pipeline_tokens_reads. }
    destruct (pipeline_start p Hp) as (t & k & ks & Ht & Hk & r & Hr). rewrite Hr in *. destruct k; try exact Hplain.
    assert (Hw : t = Ident s) by (destruct t as [b fs| | | | | | |]; [destruct b as [|v]; [destruct fs|]|..]; try done; by injection Hk as ->).
    subst t. destruct p as [|[|t c] p]; try done. injection Ht as ->. simpl in Hv. unfold keyword in Hv. apply bool_decide_eq_false in Hv.
    cbn [parse_action_tokens]. rewrite !bool_decide_eq_false_2; [exact Hplain| | | |]; intros ->; apply Hv; set_solver.
Qed.

Lemma range_action_reads vars p : pipeline_ok p -> parse_action_tokens (KIdent "range" :: assignment (names_list vars) p) = succeeds (PRange vars p).
Proof.
  intros Hp. cbn [parse_action_tokens]. rewrite !bool_decide_eq_false_2, bool_decide_eq_true_2 by done. unfold parse_range.
  destruct vars as [[v [w|]]|]; unfold assignment, names_list.
  - rewrite split_assign_app by apply variable_no_assign. by rewrite parse_pipeline_tokens_reads.
  - rewrite split_assign_app by apply variable_no_assign. by rewrite parse_pipeline_tokens_reads.
  - rewrite split_assign_none by apply pipeline_no_assign. by rewrite parse_pipeline_tokens_reads.
Qed.

(** What may follow the nodes of a block. *)
Definition block_end (stop : bool) (tail : list RawItem) : Prop :=
  match tail with
  | [] => stop = false
  | RAction ts :: _ => stop = true /\ exists a, parse_action_tokens ts = succeeds a /\ stops a = true
  | RText _ :: _ => False
  end.

Lemma end_reads : parse_action_tokens [KIdent "end"] = succeeds PEnd.
Proof. done. Qed.
Lemma else_reads : parse_action_tokens [KIdent "else"] = succeeds PElse.
Proof. done. Qed.
Lemma else_if_reads p : pipeline_ok p -> parse_action_tokens (KIdent "else" :: KIdent "if" :: pipeline_tokens p) = succeeds (PElseIf p).
Proof. intros Hp. cbn [parse_action_tokens]. rewrite !bool_decide_eq_false_2, !bool_decide_eq_true_2 by done. by rewrite parse_pipeline_tokens_reads. Qed.
Lemma if_reads p : pipeline_ok p -> parse_action_tokens (KIdent "if" :: pipeline_tokens p) = succeeds (PIf p).
Proof. intros Hp. cbn [parse_action_tokens]. rewrite !bool_decide_eq_false_2, !bool_decide_eq_true_2 by done. by rewrite parse_pipeline_tokens_reads. Qed.

Lemma end_ends rest : block_end true (word_item "end" :: rest).
Proof. split; [done|]. by exists PEnd. Qed.

Lemma branches_end bs eb rest : Forall branch_ok bs -> block_end true (branches_items false bs ++ else_items node_items eb ++ word_item "end" :: rest).
Proof.
  intros Hb. destruct bs as [|[p body] bs]; simpl.
  - destruct eb as [l|]; [|apply end_ends]. split; [done|]. by exists PElse.
  - apply list.Forall_cons in Hb as [[Hp _] _]. split; [done|]. exists (PElseIf p). split; [exact (else_if_reads p Hp)|done].
Qed.

Section block_reads.
Context (block : Items -> option (string + (list Node * Items))) (n : nat).
Context (block_reads : forall body tail, Forall node_ok body -> block_end true tail -> (length (nodes_items body ++ tail) < n)%nat ->
  block (nodes_items body ++ tail) = succeeds (body, tail)).

Lemma parse_else_reads body rest : Forall node_ok body -> (length (nodes_items body ++ word_item "end" :: rest) < n)%nat ->
  parse_else block (nodes_items body ++ word_item "end" :: rest) = succeeds (body, rest).
Proof.
  intros Hb Hn. unfold parse_else. rewrite block_reads; [|done|apply end_ends|done]. cbn [then_do succeeds]. unfold word_item.
  cbn [expect_end]. by rewrite end_reads.
Qed.

Lemma parse_branches_reads fuel bs eb rest : Forall branch_ok bs -> else_ok eb ->
  let items := branches_items false bs ++ else_items node_items eb ++ word_item "end" :: rest in
  (length items <= n)%nat -> (length items < fuel)%nat -> parse_branches block fuel items = succeeds (bs, eb, rest).
Proof.
  revert fuel. induction bs as [|[p body] bs IH]; intros fuel Hok He items Hn Hf; destruct fuel as [|fuel]; try lia; unfold items in *.
  - cbn [branches_items app] in *. destruct eb as [l|]; cbn [else_items app] in *; unfold word_item at 1; cbn [parse_branches].
    + rewrite else_reads. cbn [then_do succeeds].
      rewrite parse_else_reads; [done|by apply He|simpl in Hn; lia].
    + by rewrite end_reads.
  - apply list.Forall_cons in Hok as [[Hp Hb] Hok]. cbn [branches_items branch_items app] in *.
    cbn [parse_branches fst snd] in *. rewrite else_if_reads by done. cbn [then_do succeeds]. rewrite <- app_assoc in *. cbn [length] in Hn, Hf.
    rewrite block_reads; [|done|by apply branches_end|lia]. cbn [then_do succeeds].
    rewrite length_app in Hn, Hf. by rewrite IH by (done || lia).
Qed.

Lemma parse_range_end_reads eb rest : else_ok eb -> (length (else_items node_items eb ++ word_item "end" :: rest) <= n)%nat ->
  parse_range_end block (else_items node_items eb ++ word_item "end" :: rest) = succeeds (eb, rest).
Proof.
  intros He Hn. destruct eb as [l|]; cbn [else_items app] in *; unfold word_item at 1; cbn [parse_range_end].
  - rewrite else_reads. cbn [then_do succeeds].
    rewrite parse_else_reads; [done|by apply He|simpl in Hn; lia].
  - by rewrite end_reads.
Qed.
End block_reads.

Lemma if_items bs eb : node_items (If bs eb) = branches_items true bs ++ else_items node_items eb ++ [word_item "end"].
Proof. done. Qed.

Lemma range_items_eq vars p body eb : node_items (Range vars p body eb) =
  RAction (KIdent "range" :: assignment (names_list vars) p) :: nodes_items body ++ else_items node_items eb ++ [word_item "end"].
Proof. done. Qed.

Lemma parse_block_reads fuel stop nodes tail : Forall node_ok nodes -> block_end stop tail -> (length (nodes_items nodes ++ tail) < fuel)%nat ->
  parse_block fuel stop (nodes_items nodes ++ tail) = succeeds (nodes, tail).
Proof.
  revert stop nodes tail. induction fuel as [|fuel IH]; intros stop nodes tail Hok Hend Hf; [lia|].
  destruct nodes as [|node nodes].
  { cbn [nodes_items body_items map concat app parse_block]. destruct tail as [|[s|ts] tail]; simpl in Hend; [by subst|done|].
    destruct Hend as (-> & a & Ha & Hs). rewrite Ha. cbn [then_do succeeds]. by destruct a. }
  apply list.Forall_cons in Hok as [Hn Hok]. change (nodes_items (node :: nodes)) with (node_items node ++ nodes_items nodes) in *.
  rewrite <- app_assoc in *.
  assert (Hcont : forall n rest, rest = nodes_items nodes ++ tail -> (length rest < fuel)%nat ->
    (let* (nodes, items) := parse_block fuel stop rest in succeeds (n :: nodes, items)) = succeeds (n :: nodes, tail)).
  { intros n rest -> Hr. by rewrite IH. }
  assert (Hin : forall body tail, Forall node_ok body -> block_end true tail -> (length (nodes_items body ++ tail) < fuel)%nat ->
    parse_block fuel true (nodes_items body ++ tail) = succeeds (body, tail)) by (intros; by apply IH).
  destruct node as [s|vars p|bs eb|vars p body eb]; cbn [app].
  - cbn [node_items app parse_block length] in *. apply Hcont; [done|lia].
  - cbn [node_items app parse_block length] in *. rewrite plain_action_reads by done. cbn [then_do succeeds]. apply Hcont; [done|lia].
  - rewrite if_items in *. apply if_ok in Hn as (Hne & Hbs & He). destruct bs as [|[p body] bs]; [done|].
    apply list.Forall_cons in Hbs as [[Hp Hb] Hbs]. cbn [branches_items branch_items app fst snd] in *.
    rewrite <- !app_assoc in *. cbn [app length parse_block] in *.
    rewrite if_reads by done. cbn [then_do succeeds]. rewrite Hin; [|done|by apply branches_end|lia]. cbn [then_do succeeds].
    rewrite length_app in Hf. rewrite (parse_branches_reads _ fuel Hin) by (done || lia). cbn [then_do succeeds].
    apply Hcont; [done|]. rewrite ?length_app in Hf. cbn [length app] in Hf. rewrite ?length_app in Hf. rewrite length_app. lia.
  - rewrite range_items_eq in *. apply range_ok in Hn as (Hp & Hb & He). rewrite <- app_comm_cons in *. rewrite <- !app_assoc in *. cbn [app length parse_block] in *.
    rewrite range_action_reads by done. cbn [then_do succeeds].
    rewrite Hin; [|done| |lia]; [|by apply (branches_end [])]. cbn [then_do succeeds].
    rewrite length_app in Hf. rewrite (parse_range_end_reads _ fuel Hin) by (done || lia). cbn [then_do succeeds].
    apply Hcont; [done|]. rewrite ?length_app in Hf. cbn [length app] in Hf. rewrite ?length_app in Hf. rewrite length_app. lia.
Qed.

(** ** Items as text *)

Definition escape (c : Z) : input := if (c =? quote) || (c =? backslash) then [backslash; c] else [c].

Fixpoint dotted (fields : list string) : input :=
  match fields with
  | [] => []
  | [f] => of_str f
  | f :: fields => of_str f ++ code "." :: dotted fields
  end.

Definition token_text (t : Token) : input :=
  match t with
  | KDot => cps "."
  | KDotField fields => code "." :: dotted fields
  | KVarField name fields => of_str name ++ match fields with [] => [] | _ => code "." :: dotted fields end
  | KString s => quote :: flat_map escape (of_str s) ++ [quote]
  | KInt i => cps (integer_text i)
  | KFloat _ => []
  | KBool b => cps (if b then "true" else "false")
  | KNil => cps "nil"
  | KIdent s => of_str s
  | KPipe => cps "|"
  | KAssign => cps ":="
  | KComma => cps ","
  | KLParen => cps "("
  | KRParen => cps ")"
  end.

Section text.
Context `{Unicode}.

Definition field_ok (f : string) : bool := forallb word_char (of_str f).

(** The name of a field that follows a dot, of a variable, and of a function. *)
Definition first_field_ok (fields : list string) : bool :=
  match fields with f :: _ => negb (bool_decide (of_str f = [])) | [] => false end && forallb field_ok fields.
Definition variable_ok (name : string) : bool := match of_str name with c :: w => (c =? code "$") && forallb word_char w | [] => false end.
Definition ident_ok (s : string) : bool :=
  match of_str s with
  | c :: w => (c <? 128) && (is_alphabetic c || (c =? code "_")) && forallb word_char w
  | [] => false
  end && negb (bool_decide (s ∈ ["true"; "false"; "nil"])).

(** Doubles are left out. *)
Definition token_ok (t : Token) : bool :=
  match t with
  | KDotField fields => first_field_ok fields
  | KVarField name fields => variable_ok name && forallb field_ok fields
  | KInt i => (i64_min <=? i) && (i <=? i64_max)
  | KFloat _ => false
  | KIdent s => ident_ok s
  | _ => true
  end.

(** The strings of a token are text. *)
Definition token_utf8 (t : Token) : Prop :=
  match t with
  | KDotField fields => Forall is_utf8 fields
  | KVarField name fields => is_utf8 name /\ Forall is_utf8 fields
  | KString s | KIdent s => is_utf8 s
  | _ => True
  end.

Definition token_good (t : Token) : Prop := token_ok t = true /\ token_utf8 t.

Definition tokens_text (ts : list Token) : input := flat_map (fun t => token_text t ++ [32]) ts.

(** A text that opens no action, not even with the braces that follow it. *)
Definition plain_text (s : string) : bool := bool_decide (find_open (of_str s ++ [123; 123]) = Some (of_str s, [])).

Definition item_good (i : RawItem) : Prop :=
  match i with
  | RText s => s <> "" /\ is_utf8 s /\ plain_text s = true
  | RAction ts => ts <> [] /\ Forall token_good ts
  end.

(** No two texts are next to each other. *)
Fixpoint alternating (items : list RawItem) : Prop :=
  match items with
  | RText _ :: ((RText _ :: _) as items) => False
  | _ :: items => alternating items
  | [] => True
  end.

Definition item_text (i : RawItem) : input :=
  match i with RText s => of_str s | RAction ts => 123 :: 123 :: 32 :: tokens_text ts ++ [125; 125] end.

Definition items_text (items : list RawItem) : input := flat_map item_text items.

(** ** Reading a token *)

Lemma span_path fields rest : Forall (fun f => field_ok f = true) fields ->
  span path_char (dotted fields ++ 32 :: rest) = (dotted fields, 32 :: rest).
Proof.
  intros Hf. apply span_stop; [|done]. induction Hf as [|f [|g fields] Hf1 _ IH]; [done| |].
  - cbn [dotted]. apply List.Forall_forall. intros c Hc. unfold field_ok in Hf1. rewrite forallb_forall in Hf1. unfold path_char. by rewrite Hf1.
  - change (dotted (f :: g :: fields)) with (of_str f ++ code "." :: dotted (g :: fields)). apply Forall_app. split; [|by constructor].
    apply List.Forall_forall. intros c Hc. unfold field_ok in Hf1. rewrite forallb_forall in Hf1. unfold path_char. by rewrite Hf1.
Qed.

Lemma word_not_dot c : word_char c = true -> (c =? code ".") = false.
Proof. intros Hw. apply Z.eqb_neq. intros ->. done. Qed.

Lemma split_char_end w acc : Forall (fun c => word_char c = true) w -> split_char (code ".") acc w = [rev acc ++ w].
Proof.
  intros Hw. revert acc. induction Hw as [|c w Hc _ IH]; intros acc; cbn [split_char]; [by rewrite app_nil_r|].
  rewrite word_not_dot by done. rewrite IH. simpl. by rewrite <- app_assoc.
Qed.

Lemma split_char_dot w acc r : Forall (fun c => word_char c = true) w ->
  split_char (code ".") acc (w ++ code "." :: r) = (rev acc ++ w) :: split_char (code ".") [] r.
Proof.
  intros Hw. revert acc. induction Hw as [|c w Hc _ IH]; intros acc; cbn [split_char app].
  - rewrite Z.eqb_refl, app_nil_r. done.
  - rewrite word_not_dot by done. rewrite IH. simpl. by rewrite <- app_assoc.
Qed.

Lemma field_word f : field_ok f = true -> Forall (fun c => word_char c = true) (of_str f).
Proof. intros Hf. apply List.Forall_forall. intros c Hc. unfold field_ok in Hf. rewrite forallb_forall in Hf. by apply Hf. Qed.

Lemma fields_of_dotted fields : fields <> [] -> Forall (fun f => field_ok f = true) fields -> Forall is_utf8 fields -> fields_of (dotted fields) = fields.
Proof.
  unfold fields_of. intros Hne Hf Hu. induction Hf as [|f [|g fields] Hf1 Hf2 IH]; [done| |].
  - apply list.Forall_cons in Hu as [Hu _]. cbn [dotted]. rewrite split_char_end by by apply field_word. simpl. by rewrite to_str_of_str.
  - apply list.Forall_cons in Hu as [Hu Hus]. change (dotted (f :: g :: fields)) with (of_str f ++ code "." :: dotted (g :: fields)).
    rewrite split_char_dot by by apply field_word. cbn [rev app map]. by rewrite to_str_of_str, IH.
Qed.

Lemma lex_string_escape s rest : lex_string quote (flat_map escape s ++ quote :: rest) = Some (s, rest).
Proof.
  induction s as [|c s IH]; [done|]. cbn [flat_map]. rewrite <- app_assoc. unfold escape at 1.
  destruct (Z.eqb_spec c quote) as [->|Hq]; [cbn [orb app lex_string]; rewrite IH; done|].
  destruct (Z.eqb_spec c backslash) as [->|Hb]; cbn [orb app lex_string]; [rewrite IH; done|].
  rewrite (proj2 (Z.eqb_neq c quote)), (proj2 (Z.eqb_neq c backslash)) by done. cbn. by rewrite IH.
Qed.

Lemma lex_digits_all l rest : Forall (fun c => is_digit c = true) l ->
  lex_digits false (l ++ 32 :: rest) = (l, false, 32 :: rest).
Proof.
  induction 1 as [|c l Hc _ IH]; [done|]. cbn [app lex_digits]. rewrite Hc. cbn [orb].
  assert (Hd : (c =? code ".") = false) by (apply Z.eqb_neq; intros ->; done). by rewrite Hd, IH.
Qed.

Lemma digits_digit n : 0 <= n -> exists c l, cps (digits n) = c :: l /\ Forall (fun c => is_digit c = true) (c :: l).
Proof.
  intros Hn. destruct (digits_spec n Hn) as (l & Hl & Hne & _ & Hd). unfold cps. rewrite Hl. destruct l as [|c l]; [done|].
  exists (code c), (map code l). split; [done|]. change (code c :: map code l) with (map code (c :: l)). apply List.Forall_map. exact Hd.
Qed.

(** The tests of the lexer on a character that none of them accepts. *)
Lemma lex_one_later c r : 48 <= c <= 57 \/ 65 <= c <= 90 \/ 95 <= c <= 95 \/ 97 <= c <= 122 \/ c = 45 ->
  lex_one c r = if starts_number c r then match lex_number c r with Some (t, r) => inr ([t], r) | None => unexpected c end
    else if is_alphabetic c || (c =? code "_") then let '(w, r) := span word_char (c :: r) in inr ([keyword_token (to_str w)], r)
    else unexpected c.
Proof.
  intros Hc. unfold lex_one.
  assert (Hs : is_space c = false).
  { unfold is_space. repeat match goal with
    | |- context [?a <=? ?b] => first [rewrite (proj2 (Z.leb_le a b)) by lia|rewrite (proj2 (Z.leb_gt a b)) by lia]
    | |- context [?a =? ?b] => rewrite (proj2 (Z.eqb_neq a b)) by lia
    end. done. }
  rewrite Hs. repeat match goal with |- context [if c =? ?b then _ else _] => rewrite (proj2 (Z.eqb_neq c b)) by (unfold code; simpl; lia) end.
  rewrite (proj2 (Z.eqb_neq c (code ":"))) by (unfold code; simpl; lia). cbn [andb].
  rewrite (proj2 (Z.eqb_neq c quote)), (proj2 (Z.eqb_neq c backtick)) by lia. done.
Qed.

Lemma digit_bounds c : is_digit c = true -> 48 <= c <= 57.
Proof. unfold is_digit. rewrite andb_true_iff, !Z.leb_le. done. Qed.

Lemma lex_integer i rest : in_i64 i -> exists c r, cps (integer_text i) = c :: r /\ lex_one c (r ++ 32 :: rest) = inr ([KInt i], 32 :: rest).
Proof.
  intros Hi. pose proof (parse_integer_text i Hi) as Hp. unfold integer_text in *.
  assert (Htext : forall s l, Forall (fun c => is_digit c = true) l -> cps s = l -> to_str l = s).
  { intros s l Hl <-. apply to_str_cps. unfold cps in Hl. apply List.Forall_map in Hl. eapply list.Forall_impl; [exact Hl|].
    intros a Ha. apply digit_bounds in Ha. lia. }
  destruct (Z.ltb_spec i 0).
  - destruct (digits_digit (- i)) as (c & l & Hd & Hl); [lia|]. exists 45, (c :: l). split; [by rewrite <- Hd|].
    rewrite lex_one_later by lia. pose proof (List.Forall_inv Hl) as Hc. unfold starts_number. cbn [app is_digit].
    change (is_digit 45) with false. change (45 =? code "-") with true. rewrite Hc. cbn [orb andb].
    unfold lex_number. change (45 =? code "-") with true. rewrite app_comm_cons, lex_digits_all by done.
    assert (Ht : to_str (45 :: c :: l) = "-" +:+ digits (- i)).
    { change (to_str (45 :: c :: l)) with ("-" +:+ to_str (c :: l)). f_equal. by apply Htext. }
    by rewrite Ht, Hp.
  - destruct (digits_digit i) as (c & l & Hd & Hl); [lia|]. exists c, l. split; [done|].
    pose proof (List.Forall_inv Hl) as Hc. pose proof (digit_bounds c Hc) as Hb. rewrite lex_one_later by lia.
    unfold starts_number. rewrite Hc. cbn [orb]. unfold lex_number. rewrite (proj2 (Z.eqb_neq c (code "-"))) by (unfold code; simpl; lia).
    rewrite app_comm_cons, lex_digits_all by done. by rewrite (Htext _ _ Hl Hd), Hp.
Qed.

Lemma lex_ident s rest : ident_ok s = true -> is_utf8 s -> exists c r, of_str s = c :: r /\ lex_one c (r ++ 32 :: rest) = inr ([KIdent s], 32 :: rest).
Proof.
  unfold ident_ok. intros Hs Hu. apply andb_true_iff in Hs as [Hs Hk]. destruct (of_str s) as [|c w] eqn:Hof; [done|].
  apply andb_true_iff in Hs as [[Hc Ha]%andb_true_iff Hw]. apply Z.ltb_lt in Hc. apply negb_true_iff, bool_decide_eq_false in Hk.
  assert (Hb : 65 <= c <= 90 \/ 95 <= c <= 95 \/ 97 <= c <= 122).
  { apply orb_true_iff in Ha as [Ha|Ha]; [|apply Z.eqb_eq in Ha; subst; right; left; vm_compute; split; congruence].
    unfold is_alphabetic in Ha. rewrite (proj2 (Z.ltb_lt c 128)) in Ha by done. apply andb_true_iff in Ha as [Ha Hn].
    unfold is_ascii_alnum in Ha. apply negb_true_iff in Hn. rewrite Hn in Ha. cbn [orb] in Ha.
    apply orb_true_iff in Ha as [Ha|Ha]; apply andb_true_iff in Ha as [H1%Z.leb_le H2%Z.leb_le]; lia. }
  exists c, w. split; [done|]. rewrite lex_one_later by lia.
  assert (Hn : starts_number c (w ++ 32 :: rest) = false).
  { unfold starts_number. rewrite (proj2 (Z.eqb_neq c (code "-"))) by (unfold code; simpl; lia).
    unfold is_digit. destruct (Z.leb_spec 48 c), (Z.leb_spec c 57); try done; lia. }
  rewrite Hn, Ha. rewrite app_comm_cons, span_stop; [| |done].
  - rewrite <- Hof, to_str_of_str by done. unfold keyword_token. rewrite !bool_decide_eq_false_2; [done|..]; intros ->; apply Hk; set_solver.
  - constructor; [|by apply List.Forall_forall; intros x Hx; rewrite forallb_forall in Hw; apply Hw].
    unfold word_char, is_alphanumeric. rewrite (proj2 (Z.ltb_lt c 128)) by done. unfold is_alphabetic in Ha.
    rewrite (proj2 (Z.ltb_lt c 128)) in Ha by done. destruct (is_ascii_alnum c); [done|]. by rewrite andb_false_l in Ha.
Qed.

Lemma lex_one_dot r : lex_one 46 r =
  if match r with d :: _ => word_char d | [] => false end
  then let '(path, r) := span path_char r in inr ([KDotField (fields_of path)], r) else inr ([KDot], r).
Proof. done. Qed.

Lemma lex_one_dollar r : lex_one 36 r =
  let '(full, r) := span path_char r in
  match fields_of full with name :: fields => inr ([KVarField ("$" +:+ name) fields], r) | [] => inr ([KVarField "$" []], r) end.
Proof. done. Qed.

Lemma lex_one_quote r : lex_one quote r =
  match lex_string quote r with Some (s, r) => inr ([KString (to_str s)], r) | None => template_error "unclosed quote" end.
Proof. done. Qed.

Lemma lex_token t rest : token_good t -> exists c r, token_text t = c :: r /\ lex_one c (r ++ 32 :: rest) = inr ([t], 32 :: rest).
Proof.
  intros [Hok Hu]. destruct t; cbn [token_ok token_utf8 token_text] in *; try (do 2 eexists; split; reflexivity).
  - apply andb_true_iff in Hok as [Hne Hf]. destruct fields as [|f fields]; [done|]. apply negb_true_iff, bool_decide_eq_false in Hne.
    assert (Hfs : Forall (fun f => field_ok f = true) (f :: fields)) by (apply List.Forall_forall; by rewrite forallb_forall in Hf).
    exists (code "."), (dotted (f :: fields)). split; [done|].
    assert (Hd : exists d l, dotted (f :: fields) = d :: l /\ word_char d = true).
    { pose proof (field_word f (List.Forall_inv Hfs)) as Hw. destruct (of_str f) as [|d l] eqn:Hof; [done|].
      destruct fields as [|g fields]; cbn [dotted]; rewrite Hof; do 2 eexists; (split; [reflexivity|]); by apply List.Forall_inv in Hw. }
    destruct Hd as (d & l & Hd & Hw). pose proof (span_path (f :: fields) rest Hfs) as Hs.
    change (code ".") with 46. rewrite lex_one_dot, Hs. rewrite Hd at 1. cbn [app]. rewrite Hw. by rewrite fields_of_dotted.
  - apply andb_true_iff in Hok as [Hv Hf]. destruct Hu as [Hun Huf]. unfold variable_ok in Hv.
    assert (Hfs : Forall (fun f => field_ok f = true) fields) by (apply List.Forall_forall; by rewrite forallb_forall in Hf).
    destruct (of_str name) as [|c w] eqn:Hof; [done|]. apply andb_true_iff in Hv as [Hc%Z.eqb_eq Hw]. subst c.
    assert (Hname : name = "$" +:+ to_str w). { rewrite <- (to_str_of_str name Hun), Hof. done. }
    assert (Hww : Forall is_utf8 (to_str w :: fields)).
    { constructor; [|done]. exists w. split; [|done]. pose proof (of_str_scalar name Hun) as Hsc. rewrite Hof in Hsc. by apply List.Forall_inv_tail in Hsc. }
    assert (Hwo : of_str (to_str w) = w).
    { apply of_str_to_str. pose proof (of_str_scalar name Hun) as Hsc. rewrite Hof in Hsc. by apply List.Forall_inv_tail in Hsc. }
    assert (Hfw : Forall (fun f => field_ok f = true) (to_str w :: fields)).
    { constructor; [|done]. unfold field_ok. by rewrite Hwo. }
    assert (Hpath : w ++ (match fields with [] => [] | _ => code "." :: dotted fields end) = dotted (to_str w :: fields)).
    { destruct fields as [|f fields]; [cbn [dotted]; by rewrite Hwo, app_nil_r|].
      change (dotted (to_str w :: f :: fields)) with (of_str (to_str w) ++ code "." :: dotted (f :: fields)). by rewrite Hwo. }
    exists 36, (dotted (to_str w :: fields)). split; [by rewrite <- Hpath|].
    pose proof (span_path _ rest Hfw) as Hs. rewrite lex_one_dollar, Hs. by rewrite fields_of_dotted, Hname.
  - exists quote, (flat_map escape (of_str s) ++ [quote]). split; [done|]. rewrite <- app_assoc. rewrite lex_one_quote. cbn [app]. rewrite lex_string_escape. by rewrite to_str_of_str.
  - apply lex_integer. apply andb_true_iff in Hok as [H1%Z.leb_le H2%Z.leb_le]. by split.
  - done.
  - destruct b; do 2 eexists; split; reflexivity.
  - by apply lex_ident.
Qed.

Lemma tokenize_text fuel ts : Forall token_good ts -> (length (tokens_text ts) < fuel)%nat -> tokenize fuel (tokens_text ts) = Some (inr ts).
Proof.
  revert fuel. induction ts as [|t ts IH]; intros fuel Hg Hf; destruct fuel as [|fuel]; try lia; [done|].
  apply list.Forall_cons in Hg as [Ht Hg]. cbn [tokens_text flat_map] in *. rewrite <- app_assoc in *. cbn [app] in *. fold (tokens_text ts) in *.
  destruct (lex_token t (tokens_text ts) Ht) as (c & r & Hc & Hl). rewrite Hc in *. cbn [app tokenize length] in *. rewrite Hl.
  rewrite length_app in Hf. cbn [length] in Hf. destruct fuel as [|fuel]; [lia|]. cbn [tokenize]. change (lex_one 32 (tokens_text ts)) with (inr ([], tokens_text ts) : string + (list Token * input)).
  cbv iota beta. rewrite IH by (done || lia). done.
Qed.

(** ** Reading an action *)

Definition prefixed (l : input) (o : option (input * bool * input)) : option (input * bool * input) :=
  '(content, trims, after) ← o; Some (l ++ content, trims, after).

Lemma prefixed_app l l' o : prefixed l (prefixed l' o) = prefixed (l ++ l') o.
Proof. destruct o as [[[a b] c]|]; simpl; [by rewrite app_assoc|done]. Qed.

(** Characters that neither open a quote nor close an action. *)
Definition harmless (c : Z) : bool := negb ((c =? quote) || (c =? backtick) || (c =? 125)).

Lemma closing_harmless c d r : harmless c = true -> d <> 125 -> closing (c :: d :: r) = None.
Proof.
  unfold harmless. rewrite negb_true_iff, !orb_false_iff, !Z.eqb_neq. intros [_ Hc] Hd. unfold closing. repeat case_match; by simplify_eq.
Qed.

Lemma find_close_harmless l r : Forall (fun c => harmless c = true) l ->
  find_close None (l ++ 32 :: r) = prefixed l (find_close None (32 :: r)).
Proof.
  induction 1 as [|c l Hc Hl IH]; [cbn [app]; by destruct (find_close None (32 :: r)) as [[[? ?] ?]|]|].
  assert (Hq : (c =? quote) || (c =? backtick) = false) by (unfold harmless in Hc; by apply negb_true_iff, orb_false_iff in Hc as [? _]).
  assert (Hcl : closing (c :: l ++ 32 :: r) = None).
  { destruct l as [|d l]; cbn [app]; apply closing_harmless; try done. intros ->. by apply List.Forall_inv in Hl. }
  cbn [app]. change (find_close None (c :: l ++ 32 :: r)) with
    (if (c =? quote) || (c =? backtick)
     then '(content, trims, after) ← find_close (Some c) (l ++ 32 :: r); Some (c :: content, trims, after)
     else match closing (c :: l ++ 32 :: r) with
          | Some (trims, after) => Some ([], trims, after)
          | None => '(content, trims, after) ← find_close None (l ++ 32 :: r); Some (c :: content, trims, after)
          end).
  rewrite Hq, Hcl, IH. by destruct (find_close None (32 :: r)) as [[[? ?] ?]|].
Qed.

Lemma find_close_string s r : find_close (Some quote) (flat_map escape s ++ quote :: r) = prefixed (flat_map escape s ++ [quote]) (find_close None r).
Proof.
  induction s as [|c s IH]; [done|]. cbn [flat_map]. rewrite <- !app_assoc. unfold escape at 1 3.
  destruct (Z.eqb_spec c quote) as [->|Hq]; [|destruct (Z.eqb_spec c backslash) as [->|Hb]]; cbn [orb app].
  - cbn [find_close]. change (backslash =? quote) with false. change (quote =? quote) with true. change (backslash =? backslash) with true.
    cbn [andb]. rewrite IH. by destruct (find_close None r) as [[[? ?] ?]|].
  - cbn [find_close]. change (backslash =? quote) with false. change (quote =? quote) with true. change (backslash =? backslash) with true.
    cbn [andb]. rewrite IH. by destruct (find_close None r) as [[[? ?] ?]|].
  - cbn [find_close]. rewrite (proj2 (Z.eqb_neq c quote)), (proj2 (Z.eqb_neq c backslash)) by done. rewrite andb_false_r, IH.
    by destruct (find_close None r) as [[[? ?] ?]|].
Qed.

Lemma word_harmless c : word_char c = true -> harmless c = true.
Proof.
  intros Hw. unfold harmless. apply negb_true_iff. destruct (Z.eqb_spec c quote) as [->|]; [done|].
  destruct (Z.eqb_spec c backtick) as [->|]; [done|]. destruct (Z.eqb_spec c 125) as [->|]; done.
Qed.

Lemma words_harmless l : Forall (fun c => word_char c = true) l -> Forall (fun c => harmless c = true) l.
Proof. intros Hl. eapply list.Forall_impl; [exact Hl|]. intros c. apply word_harmless. Qed.

Lemma dotted_harmless fields : Forall (fun f => field_ok f = true) fields -> Forall (fun c => harmless c = true) (dotted fields).
Proof.
  induction 1 as [|f [|g fields] Hf _ IH]; [done|by apply words_harmless, field_word|].
  change (dotted (f :: g :: fields)) with (of_str f ++ code "." :: dotted (g :: fields)). apply Forall_app.
  split; [by apply words_harmless, field_word|]. by constructor.
Qed.

Lemma integer_harmless i : Forall (fun c => harmless c = true) (cps (integer_text i)).
Proof.
  unfold cps. apply List.Forall_map. eapply list.Forall_impl; [apply integer_text_chars|]. intros c [Hc| ->]; [|done].
  apply word_harmless. unfold word_char, is_alphanumeric. change (is_digit (code c) = true) in Hc. pose proof (digit_bounds _ Hc).
  rewrite (proj2 (Z.ltb_lt (code c) 128)) by lia. unfold is_ascii_alnum. by rewrite Hc.
Qed.

Lemma find_close_token t r : token_good t -> find_close None (token_text t ++ 32 :: r) = prefixed (token_text t) (find_close None (32 :: r)).
Proof.
  intros [Hok Hu]. destruct t; cbn [token_ok token_utf8 token_text] in *; try done.
  - apply andb_true_iff in Hok as [_ Hf]. apply find_close_harmless. constructor; [done|]. apply dotted_harmless.
    apply List.Forall_forall. by rewrite forallb_forall in Hf.
  - apply andb_true_iff in Hok as [Hv Hf]. apply find_close_harmless. apply Forall_app. split.
    + unfold variable_ok in Hv. destruct (of_str name) as [|c w]; [done|]. apply andb_true_iff in Hv as [Hc%Z.eqb_eq Hw]. subst c.
      constructor; [done|]. apply words_harmless, List.Forall_forall. by rewrite forallb_forall in Hw.
    + destruct fields as [|f fields]; [done|]. constructor; [done|]. apply dotted_harmless, List.Forall_forall. by rewrite forallb_forall in Hf.
  - cbn [app]. rewrite <- app_assoc. cbn [app]. set (l := flat_map escape (of_str s) ++ quote :: 32 :: r).
    change (find_close None (quote :: l)) with ('(content, trims, after) ← find_close (Some quote) l; Some (quote :: content, trims, after)).
    unfold l. rewrite find_close_string. by destruct (find_close None (32 :: r)) as [[[? ?] ?]|].
  - apply find_close_harmless, integer_harmless.
  - apply find_close_harmless. destruct b; vm_compute; by repeat constructor.
  - apply find_close_harmless. vm_compute. by repeat constructor.
  - apply find_close_harmless. unfold ident_ok in Hok. destruct (of_str s) as [|c w]; [done|].
    apply andb_true_iff in Hok as [[[Hc Ha]%andb_true_iff Hw]%andb_true_iff _]. constructor; [|by apply words_harmless, List.Forall_forall; rewrite forallb_forall in Hw].
    apply Z.ltb_lt in Hc. unfold harmless. apply negb_true_iff. destruct (Z.eqb_spec c quote) as [->|]; [done|].
    destruct (Z.eqb_spec c backtick) as [->|]; [done|]. destruct (Z.eqb_spec c 125) as [->|]; done.
  - apply find_close_harmless. vm_compute. by repeat constructor.
Qed.

Lemma find_close_space r : closing (32 :: r) = None /\ find_close None (32 :: r) = prefixed [32] (find_close None r).
Proof. split; [done|]. by destruct r. Qed.

Lemma find_close_tokens ts r : Forall token_good ts ->
  find_close None (32 :: tokens_text ts ++ 125 :: 125 :: r) = Some (32 :: tokens_text ts, false, r).
Proof.
  induction 1 as [|t ts Ht _ IH]; [done|]. cbn [tokens_text flat_map]. fold (tokens_text ts). rewrite <- !app_assoc. cbn [app].
  destruct (find_close_space (token_text t ++ 32 :: tokens_text ts ++ 125 :: 125 :: r)) as [_ ->].
  rewrite find_close_token by done. rewrite IH. done.
Qed.

(** ** Reading the items *)

Lemma opening_here c l r r' : opening (c :: l ++ 123 :: r) = None -> opening (c :: l ++ 123 :: r') = None.
Proof. destruct l as [|d l]; cbn [app]; unfold opening; intros Ho; repeat case_match; by simplify_eq. Qed.

Lemma plain_opens l r : find_open (l ++ [123; 123]) = Some (l, []) -> find_open (l ++ 123 :: 123 :: r) = Some (l, r).
Proof.
  induction l as [|c l IH]; [done|]. cbn [app find_open]. destruct (opening (c :: l ++ [123; 123])) as [a|] eqn:Ho; [done|].
  rewrite (opening_here _ _ [123] (123 :: r) Ho). intros Hf. apply bind_Some in Hf as ([b a] & Hf & [= -> ->]). by rewrite IH.
Qed.

Lemma plain_end l : find_open (l ++ [123; 123]) = Some (l, []) -> find_open l = None.
Proof.
  induction l as [|c l IH]; [done|]. cbn [app find_open]. destruct (opening (c :: l ++ [123; 123])) as [a|] eqn:Ho; [done|].
  intros Hf. apply bind_Some in Hf as ([b a] & Hf & [= -> ->]). rewrite IH by done.
  destruct (opening (c :: l)) as [a|] eqn:Hl; [|done]. exfalso. destruct l as [|d l]; cbn [app] in *; unfold opening in *; repeat case_match; by simplify_eq.
Qed.

Lemma text_item_of s : is_utf8 s -> s <> "" -> text_item (of_str s) = [RText s].
Proof.
  intros Hu Hne. destruct (of_str s) as [|c l] eqn:Hof; [|simpl; by rewrite <- Hof, to_str_of_str].
  exfalso. apply Hne. by rewrite <- (to_str_of_str s Hu), Hof.
Qed.

Lemma tokenize_space fuel l : tokenize (S fuel) (32 :: l) = (fun r => match r with inl e => inl e | inr r => inr r end) <$> tokenize fuel l.
Proof. done. Qed.

Lemma tokenize_action_text ts : Forall token_good ts -> tokenize_action (32 :: tokens_text ts) = Some (inr ts).
Proof.
  intros Hg. unfold tokenize_action. rewrite tokenize_space, (tokenize_text _ ts Hg); [done|].
  cbn [length]. lia.
Qed.

(** Reading a text, if any, and the action after it. *)
Lemma scan_action fuel l ts rest : find_open (l ++ [123; 123]) = Some (l, []) -> ts <> [] -> Forall token_good ts ->
  scan (S fuel) (l ++ item_text (RAction ts) ++ rest) =
  (fun r => match r with inl e => inl e | inr items => inr (text_item l ++ RAction ts :: items) end) <$> scan fuel rest.
Proof.
  intros Hp Hne Hg. cbn [scan item_text app]. rewrite plain_opens by done. rewrite <- app_assoc. cbn [app]. rewrite find_close_tokens by done.
  rewrite tokenize_action_text by done. cbn [mbind option_bind]. by destruct ts.
Qed.

Lemma items_text_cons i items : items_text (i :: items) = item_text i ++ items_text items.
Proof. done. Qed.

Lemma scan_items fuel items : Forall item_good items -> alternating items -> (length items < fuel)%nat -> scan fuel (items_text items) = Some (inr items).
Proof.
  remember (length items) as n eqn:Hn. revert fuel items Hn. induction n as [n IH] using lt_wf_ind. intros fuel items -> Hg Ha Hf.
  destruct fuel as [|fuel]; [lia|]. destruct items as [|[s|ts] items]; [done| |].
  - apply list.Forall_cons in Hg as [(Hne & Hu & Hp) Hg]. unfold plain_text in Hp. apply bool_decide_eq_true in Hp.
    destruct items as [|[s'|ts] items]; [|done|].
    + cbn [items_text flat_map item_text scan]. rewrite app_nil_r, plain_end by done. by rewrite text_item_of.
    + apply list.Forall_cons in Hg as [[Hts Htg] Hg]. rewrite !items_text_cons. change (item_text (RText s)) with (of_str s).
      rewrite scan_action by done. rewrite (IH (length items)); [|simpl; lia|done|done|done|simpl in Hf; lia]. simpl. by rewrite text_item_of.
  - apply list.Forall_cons in Hg as [[Hts Htg] Hg]. rewrite items_text_cons.
    change (item_text (RAction ts) ++ items_text items) with ([] ++ item_text (RAction ts) ++ items_text items).
    rewrite scan_action by done. rewrite (IH (length items)); [done|simpl; lia|done|done|done|simpl in Hf; lia].
Qed.

(** ** The whole template *)

Lemma forall_scalar_ascii l : forallb (fun c => (0 <=? c) && (c <? 128)) l = true -> Forall scalar l.
Proof.
  rewrite forallb_forall. intros Hl. apply List.Forall_forall. intros c Hc. specialize (Hl c Hc).
  apply andb_true_iff in Hl as [H1%Z.leb_le H2%Z.ltb_lt]. unfold scalar. lia.
Qed.

Lemma dotted_scalar fields : Forall is_utf8 fields -> Forall scalar (dotted fields).
Proof.
  induction 1 as [|f [|g fields] Hf _ IH]; [done|by apply of_str_scalar|].
  change (dotted (f :: g :: fields)) with (of_str f ++ code "." :: dotted (g :: fields)). apply Forall_app.
  split; [by apply of_str_scalar|]. constructor; [|done]. by left.
Qed.

Lemma escape_scalar l : Forall scalar l -> Forall scalar (flat_map escape l).
Proof.
  induction 1 as [|c l Hc _ IH]; [done|]. cbn [flat_map]. apply Forall_app. split; [|done]. unfold escape.
  unfold escape. repeat case_match; repeat (apply list.Forall_cons; split); try apply list.Forall_nil; try exact Hc; unfold scalar; lia.
Qed.

Lemma integer_scalar i : Forall scalar (cps (integer_text i)).
Proof.
  unfold cps. apply List.Forall_map. eapply list.Forall_impl; [apply integer_text_chars|]. intros c _. pose proof (code_range c). unfold scalar. lia.
Qed.

Lemma token_scalar t : token_utf8 t -> Forall scalar (token_text t).
Proof.
  intros Hu. destruct t; cbn [token_utf8 token_text] in *; try by apply forall_scalar_ascii.
  - constructor; [by left|by apply dotted_scalar].
  - destruct Hu as [Hn Hf]. apply Forall_app. split; [by apply of_str_scalar|]. destruct fields as [|f fields]; [done|].
    constructor; [by left|by apply dotted_scalar].
  - constructor; [by left|]. apply Forall_app. split; [by apply escape_scalar, of_str_scalar|]. by repeat constructor.
  - apply integer_scalar.
  - by destruct b; apply forall_scalar_ascii.
  - by apply of_str_scalar.
Qed.

Lemma item_scalar i : item_good i -> Forall scalar (item_text i).
Proof.
  destruct i as [s|ts]; intros Hg; cbn [item_good item_text] in *; [by destruct Hg as (_ & Hu & _); apply of_str_scalar|].
  destruct Hg as [_ Hg].
  change (123 :: 123 :: 32 :: tokens_text ts ++ [125; 125]) with ([123; 123; 32] ++ tokens_text ts ++ [125; 125]).
  apply Forall_app. split; [by apply forall_scalar_ascii|]. apply Forall_app. split; [|by apply forall_scalar_ascii].
  induction Hg as [|t ts [_ Ht] _ IH]; [done|]. cbn [tokens_text flat_map]. apply Forall_app. split; [|exact IH].
  apply Forall_app. split; [by apply token_scalar|by apply forall_scalar_ascii].
Qed.

(** The text of a tree. *)
Definition template_text (nodes : list Node) : string := to_str (items_text (nodes_items nodes)).

Lemma items_length items : Forall item_good items -> (length items <= length (items_text items))%nat.
Proof.
  induction 1 as [|i items Hi _ IH]; [done|]. rewrite items_text_cons, length_app. cbn [length].
  assert (Hone : (1 <= length (item_text i))%nat); [|lia]. destruct i as [s|ts]; simpl; [|lia]. destruct Hi as (Hne & Hu & _).
  destruct (of_str s) as [|c l] eqn:Hof; [|simpl; lia]. exfalso. apply Hne. by rewrite <- (to_str_of_str s Hu), Hof.
Qed.

(** C36. A template written from a tree of texts, outputs, assignments, conditionals and ranges
    is read back as that tree: every pipeline with its commands, terms and parentheses, every
    string literal with its escapes, every branch with its body, at any depth.  The tree must
    be one a template can write: no empty command, no text that opens an action or stands next
    to another text, names of letters and digits, integers of 64 bits, no doubles. *)
Theorem parse_template_text nodes : Forall node_ok nodes -> Forall item_good (nodes_items nodes) -> alternating (nodes_items nodes) ->
  parse_template (template_text nodes) = Some (inr nodes).
Proof.
  intros Hok Hg Ha. unfold parse_template, template_text, scan_raw_items. rewrite of_str_to_str.
  2: { unfold items_text. induction Hg as [|i items Hi _ IH]; [done|]. cbn [flat_map]. apply Forall_app. split; [by apply item_scalar|].
       apply IH. destruct i; [|done]. simpl in Ha. by destruct items as [|[] ?]. }
  rewrite scan_items by (done || pose proof (items_length _ Hg); lia). cbn [then_do].
  pose proof (parse_block_reads (S (length (nodes_items nodes))) false nodes [] Hok eq_refl) as Hp. rewrite app_nil_r in Hp.
  rewrite Hp by lia. done.
Qed.
End text.

(** ** A concrete template *)

Module TreeSample.
Definition out (p : Pipeline) : Node := Action None p.
Definition tree : list Node :=
  [NText "[";
   Range (Some ("$i", Some "$e")) [[FieldPath Dot ["values"]]]
     [If [([[FieldPath (Var "$i") []]], [NText ", "])] None;
      If [([[Ident "gt"; FieldPath (Var "$e") ["t"]; IntLit 25]], [NText "high"]);
          ([[Ident "lt"; SubExpr [[Ident "len"; FieldPath Dot ["t"]]; [Ident "add"; IntLit (-1)]]; NilLit]], [out [[StringLit "a\b"]]])]
         (Some [out [[FieldPath Dot ["t"]]; [Ident "printf"; StringLit "%d"]]])]
     (Some [NText "none"]);
   Action (Some ["$n"]) [[BoolLit true]]; NText "]"].

#[local] Existing Instance ParserSample.ascii_only.
Example tree_text : template_text tree =
  TemplateSample.quoted "[{{ range $i , $e := .values }}{{ if $i }}, {{ end }}{{ if gt $e.t 25 }}high{{ else if lt ( len .t | add -1 ) nil }}{{ 'a\\b' }}{{ else }}{{ .t | printf '%d' }}{{ end }}{{ else }}none{{ end }}{{ $n := true }}]".
Proof. by vm_compute. Qed.
End TreeSample.

Lemma parse_template_text_witness :
  parse_template (H := ParserSample.ascii_only) (template_text TreeSample.tree) = Some (inr TreeSample.tree).
Proof.
  apply parse_template_text.
  - repeat constructor; discriminate.
  - repeat first [discriminate | reflexivity | apply ascii_is_utf8; repeat constructor | constructor].
  - by vm_compute.
Defined.
