(* ===== verification/FileSink.v ===== *)
(** * The batch writer of file sinks ([FileBatchWriter] of
      [crates/rekuiper-server/src/engine/sinks.rs])

    Rows collect in a buffer, one writer for each path, and are appended to the file when
    the buffer is flushed.  A write may fail after a part of its bytes. *)

From Stdlib Require Import Ascii.
From S2P Require Import Prelude Rust Json Ast Engine Values Objects SinkCache SinkFormat.

Set Default Goal Selector "!".

(** ** The disk *)

(** The text of the files, the batches written as Parquet, and what the next writes do: all
    of it is written, or opening or writing fails after some bytes. *)
Inductive WriteOutcome := Written | FailsAfter (bytes : nat).

Record Disk := mkDisk {
  texts : gmap string string;
  parquet_batches : list (string * list StreamRecord);
  outcomes : nat -> WriteOutcome;
}.

Definition append_text (path text : string) (d : Disk) : Disk :=
  mkDisk (<[path := default "" (texts d !! path) +:+ text]> (texts d)) (parquet_batches d) (fun i => outcomes d (S i)).
Definition append_parquet (rs : list (string * list StreamRecord)) (d : Disk) : Disk :=
  mkDisk (texts d) (parquet_batches d ++ rs) (fun i => outcomes d (S i)).

(** ** The writer *)

(** The open file handle is left out: it only decides which call reports a failure. *)
Record FileBatchWriter := mkWriter {
  buf : string;
  parquet_buf : list StreamRecord;
  pending : Z;
  has_header_written : bool;
}.

Definition writer_new : FileBatchWriter := mkWriter "" [] 0 false.

Definition newline_text : string := of_chars [newline].

Definition push_parquet_record (data : row) (ts : Z) (w : FileBatchWriter) : FileBatchWriter :=
  mkWriter (buf w) (parquet_buf w ++ [mkRecord ts data]) (pending w + 1) (has_header_written w).

Definition ends_with_newline (s : string) : bool := bool_decide (list.last (chars s) = Some newline).

(** A line of JSON, always terminated; any other text, terminated when it is not yet. *)
Definition push_line (line : string) (w : FileBatchWriter) : FileBatchWriter :=
  mkWriter (buf w +:+ line +:+ newline_text) (parquet_buf w) (pending w + 1) (has_header_written w).

Definition push_text (text : string) (w : FileBatchWriter) : FileBatchWriter :=
  mkWriter (buf w +:+ text +:+ (if ends_with_newline text then "" else newline_text)) (parquet_buf w) (pending w + 1)
    (has_header_written w).

Definition should_flush (w : FileBatchWriter) : bool :=
  match parquet_buf w with
  | [] => (100 <=? pending w) || (64 * 1024 <=? Z.of_nat (String.length (buf w)))
  | rs => 1024 <=? len rs
  end.

(** [true] when everything has been written. *)
Definition flush (path : string) (w : FileBatchWriter) (d : Disk) : bool * FileBatchWriter * Disk :=
  match parquet_buf w with
  | [] =>
      if bool_decide (buf w = "") then (true, w, d)
      else
        match outcomes d 0 with
        | Written => (true, mkWriter "" [] 0 (has_header_written w), append_text path (buf w) d)
        | FailsAfter n => (false, w, append_text path (String.substring 0 n (buf w)) d)
        end
  | rs =>
      let w := mkWriter (buf w) [] 0 (has_header_written w) in
      match outcomes d 0 with
      | Written => (true, w, append_parquet [(path, rs)] d)
      | FailsAfter _ => (false, w, append_parquet [] d)
      end
  end.

Section rows.
Context `{Text} `{Templates}.

Definition push_delimited (data : row) (delimiter : string) (header : bool) (opts : CommonSinkOpts) (w : FileBatchWriter)
    : FileBatchWriter :=
  let keys := match fields opts with
    | Some f => f
    | None => sorted_keys (fst <$> map_to_list (public_columns data))
    end in
  let write_header := header && negb (has_header_written w) in
  let header_text := if write_header then String.concat delimiter keys +:+ newline_text else "" in
  let line := String.concat delimiter (map (fun k => csv_cell (data !! k) delimiter) keys) in
  mkWriter (buf w +:+ header_text +:+ line +:+ newline_text) (parquet_buf w) (pending w + 1)
    (write_header || has_header_written w).

Record FileAction := mkFileAction {
  file_path : string;
  file_template : option string;
  delimited : bool;
  parquet : bool;
  has_header : bool;
  file_delimiter : string;
  file_opts : CommonSinkOpts;
}.

Definition push_formatted (v : value) (ts : Z) (w : FileBatchWriter) : FileBatchWriter :=
  match v with VObject m => push_parquet_record (row_of_members m) ts w | _ => w end.

(** One output record into the writer of its file. *)
Definition push_record (a : FileAction) (output : StreamRecord) (w : FileBatchWriter) : FileBatchWriter :=
  let opts := file_opts a in
  match batch_rows (data output) with
  | Some arr =>
      if parquet a then
        foldl (fun w r => push_formatted (format_record_for_sink_val r opts) (timestamp output) w) w arr
      else if delimited a then push_text (format_record_delimited (VArray arr) (file_delimiter a) (fields opts)) w
      else if send_single opts then
        foldl (fun w r =>
          match file_template a with
          | Some tpl => push_text (render_sink_template_row tpl r) w
          | None => push_line (value_to_string (format_record_for_sink_val r opts)) w
          end) w arr
      else
        match file_template a with
        | Some tpl => push_text (render_sink_template_batch tpl arr) w
        | None => push_line (value_to_string (VArray (map (fun r => format_record_for_sink_val r opts) arr))) w
        end
  | None =>
      if parquet a then push_formatted (format_record_for_sink (data output) opts) (timestamp output) w
      else if delimited a then push_delimited (data output) (file_delimiter a) (has_header a) opts w
      else
        match file_template a with
        | Some tpl => push_text (render_sink_template tpl (data output) (send_single opts)) w
        | None => push_line (value_to_string (to_sink_payload (format_record_for_sink (data output) opts) (send_single opts))) w
        end
  end.
End rows.

(** The writers of a rule, one for each path; flushing all of them counts the failures. *)
Abbreviation Files := (gmap string FileBatchWriter).

Fixpoint flush_each (only_pending : bool) (paths : list string) (files : Files) (d : Disk) : nat * Files * Disk :=
  match paths with
  | [] => (0%nat, files, d)
  | p :: paths =>
      match files !! p with
      | Some w =>
          if negb only_pending || (0 <? pending w) then
            let '(ok, w, d) := flush p w d in
            let '(failures, files, d) := flush_each only_pending paths (<[p := w]> files) d in
            ((if ok then failures else S failures), files, d)
          else flush_each only_pending paths files d
      | None => flush_each only_pending paths files d
      end
  end.

Definition flush_files (only_pending : bool) (files : Files) (d : Disk) : nat * Files * Disk :=
  flush_each only_pending (fst <$> map_to_list files) files d.
