(* ===== verification/Delivery.v ===== *)
(** * Delivery of output records ([crates/rekuiper-server/src/engine/sinks.rs])

    [send_action] sends one record through one action, [deliver_record] through all actions
    of a rule with batching and the offline cache, [resend_cached] sends what is cached.
    The network is a sequence of answers to requests; the requests that were accepted are
    recorded.  Log messages are left out. *)

From Stdlib Require Import Ascii.
From S2P Require Import Prelude StreamBus Rust Json Counters Dlq Ast Engine Values Objects SinkCache SinkFormat FileSink.

Set Default Goal Selector "!".

(** ** The network *)

Record MqttConfig := mkMqtt { topic : string; connection : value }.

(** What is sent to a destination.  The connection settings of a connector are left out. *)
Inductive Request :=
  | HttpSend (method url : string) (headers : list (string * string)) (content_type body : option string)
  | MqttSend (topic payload : string)
  | WebSocketSend (url text : string)
  | RedisSend (payload : string) (output : StreamRecord)
  | KafkaSend (payload : string) (output : StreamRecord)
  | RabbitSend (payload : string)
  | ZmqSend (topic payload : string)
  | BusPublish (topic : string) (r : StreamRecord)
  | SqlInsert (r : StreamRecord)
  | WriteRow (kind : string) (columns : row)
  | WriteRows (kind : string) (rows : list row)
  | OtherSend (kind : string) (destination : option string) (r : StreamRecord).

Inductive Answer :=
  | Taken
  | HttpStatus (status : Z)
  | Rejected (permanent : bool) (message : string)
  | NotPublished (e : PublishError).

Definition is_success (a : Answer) : bool :=
  match a with Taken => true | HttpStatus n => (200 <=? n) && (n <? 300) | _ => false end.

(** The environment of a sink worker: the counters and dead letters of the rule, the files,
    the answers to the requests to come with the requests accepted so far, and the clock (in
    milliseconds) as it will be read. *)
Record World := mkWorld {
  dlq_state : DlqState;
  disk : Disk;
  answers : nat -> Answer;
  accepted : list Request;
  clock : nat -> Z;
}.

Definition set_dlq (s : DlqState) (w : World) : World := mkWorld s (disk w) (answers w) (accepted w) (clock w).
Definition set_disk (d : Disk) (w : World) : World := mkWorld (dlq_state w) d (answers w) (accepted w) (clock w).
Definition count (f : RuleCounters -> RuleCounters) (w : World) : World :=
  set_dlq (mkDlqState (f (counters (dlq_state w))) (buffer (dlq_state w)) (spawned (dlq_state w))) w.

Definition read_clock (w : World) : Z * World :=
  (clock w 0, mkWorld (dlq_state w) (disk w) (answers w) (accepted w) (fun i => clock w (S i))).

Definition request (q : Request) (w : World) : Answer * World :=
  let a := answers w 0 in
  (a, mkWorld (dlq_state w) (disk w) (fun i => answers w (S i)) (if is_success a then accepted w ++ [q] else accepted w)
        (clock w)).

(** What the code asks of the HTTP client, the resolver and the MQTT client: the text of a
    status, the internal address (with the text of its port) a URL leads to, and the error
    of a configuration that is refused. *)
Class Net := {
  status_text : Z -> string;
  internal_address : string -> option (string * string);
  mqtt_config_error : MqttConfig -> option string;
}.

Inductive SendError := Retry (m : string) | Permanent (m : string) | Dropped.

Inductive Delivery := Delivered | Cached | Failed.

Definition delivery_max (a b : Delivery) : Delivery :=
  match a, b with
  | Failed, _ | _, Failed => Failed
  | Cached, _ | _, Cached => Cached
  | _, _ => Delivered
  end.

Abbreviation sending := (World -> option SendError * World).

Definition done_ok : sending := fun w => (None, w).
Definition fail_with (e : SendError) : sending := fun w => (Some e, w).

(** A loop with [?]: the first error ends it. *)
Fixpoint send_each {A} (f : A -> sending) (l : list A) : sending := fun w =>
  match l with
  | [] => (None, w)
  | x :: l => let '(e, w) := f x w in match e with None => send_each f l w | Some _ => (e, w) end
  end.

Definition answer_text (a : Answer) : string := match a with Rejected _ m => m | _ => "" end.

(** A send whose every failure may be retried. *)
Definition send_or_retry (label : string) (q : Request) : sending := fun w =>
  let '(a, w) := request q w in
  (if is_success a then None else Some (Retry (label +:+ " action failed: " +:+ answer_text a)), w).

(** A send that says whether its failure is permanent. *)
Definition send_checked (q : Request) : sending := fun w =>
  let '(a, w) := request q w in
  (if is_success a then None
   else Some (match a with Rejected true m => Permanent m | _ => Retry (answer_text a) end), w).

(** ** Actions *)

Inductive PreparedAction :=
  | Log
  | Nop
  | File (a : FileAction)
  | Rest (url method : string) (headers : list (string * string)) (body_type : string) (template : option string)
      (opts : CommonSinkOpts) (rest_format : option string) (delimiter : string)
  | Mqtt (config : MqttConfig) (template : option string) (opts : CommonSinkOpts) (mqtt_format : option string)
      (delimiter : string)
  | WebSocket (url : string) (template : option string) (opts : CommonSinkOpts)
  | Redis (opts : CommonSinkOpts)
  | Kafka (opts : CommonSinkOpts)
  | Sql
  | Memory (topic : string) (memory_nil_field : bool)
  | RabbitMq (template : option string) (opts : CommonSinkOpts)
  | Zmq (topic : option string) (template : option string) (opts : CommonSinkOpts)
  | Modbus (opts : CommonSinkOpts)
  | OpcUa (opts : CommonSinkOpts)
  | Otlp (opts : CommonSinkOpts)
  | Other (kind : string) (opts : option CommonSinkOpts)
  | Unknown (kind : string).

Definition common_opts (a : PreparedAction) : option CommonSinkOpts :=
  match a with
  | File f => Some (file_opts f)
  | Rest _ _ _ _ _ opts _ _ | Mqtt _ _ opts _ _ | WebSocket _ _ opts | Redis opts | Kafka opts
  | RabbitMq _ opts | Zmq _ _ opts | Modbus opts | OpcUa opts | Otlp opts => Some opts
  | Other _ opts => opts
  | _ => None
  end.

Definition sink_type_name (a : PreparedAction) : string :=
  match a with
  | Log => "log" | Nop => "nop" | File _ => "file" | Rest _ _ _ _ _ _ _ _ => "rest" | Mqtt _ _ _ _ _ => "mqtt"
  | WebSocket _ _ _ => "websocket" | Redis _ => "redis" | Kafka _ => "kafka" | Sql => "sql" | Memory _ _ => "memory"
  | RabbitMq _ _ => "rabbitmq" | Zmq _ _ _ => "zmq" | Modbus _ => "modbus" | OpcUa _ => "opcua" | Otlp _ => "otlp"
  | Other kind _ | Unknown kind => kind
  end.

Record ActionRuntime := mkRuntime {
  action : PreparedAction;
  mqtt_ready : bool;
  cache : option (SinkCache StreamRecord);
  retry_at : Z;
  reported_dropped : Z;
  batch_buffer : list value;
  last_batch_time : Z;
}.

Definition runtime_new (now : Z) (a : PreparedAction) (c : option (SinkCache StreamRecord)) : ActionRuntime :=
  mkRuntime a false c now 0 [] now.

Definition set_ready (rt : ActionRuntime) : ActionRuntime :=
  mkRuntime (action rt) true (cache rt) (retry_at rt) (reported_dropped rt) (batch_buffer rt) (last_batch_time rt).
Definition set_cache (c : option (SinkCache StreamRecord)) (rt : ActionRuntime) : ActionRuntime :=
  mkRuntime (action rt) (mqtt_ready rt) c (retry_at rt) (reported_dropped rt) (batch_buffer rt) (last_batch_time rt).
Definition set_retry_at (t : Z) (rt : ActionRuntime) : ActionRuntime :=
  mkRuntime (action rt) (mqtt_ready rt) (cache rt) t (reported_dropped rt) (batch_buffer rt) (last_batch_time rt).
Definition set_reported (n : Z) (rt : ActionRuntime) : ActionRuntime :=
  mkRuntime (action rt) (mqtt_ready rt) (cache rt) (retry_at rt) n (batch_buffer rt) (last_batch_time rt).
Definition set_buffer (b : list value) (rt : ActionRuntime) : ActionRuntime :=
  mkRuntime (action rt) (mqtt_ready rt) (cache rt) (retry_at rt) (reported_dropped rt) b (last_batch_time rt).
Definition set_batch_time (t : Z) (rt : ActionRuntime) : ActionRuntime :=
  mkRuntime (action rt) (mqtt_ready rt) (cache rt) (retry_at rt) (reported_dropped rt) (batch_buffer rt) t.

#[export] Instance ResendPriority_eq_dec : EqDecision ResendPriority.
Proof. solve_decision. Defined.

(** What a send shares: the rule and its options, and its dead-letter router. *)
Record SinkContext := mkContext { enable_private_net : bool; dlq_router : option DlqRouter }.

Section delivery.
Context `{Text} `{Templates} `{Net} `{LineCodec StreamRecord}.

(** ** What each kind of action sends *)

(** The text sent for a row of a batch, for a whole batch, and for one record. *)
Definition row_text (template : option string) (opts : CommonSinkOpts) (r : value) : string :=
  match template with
  | Some tpl => render_sink_template_row tpl r
  | None => value_to_string (format_record_for_sink_val r opts)
  end.
Definition batch_text (template : option string) (opts : CommonSinkOpts) (arr : list value) : string :=
  match template with
  | Some tpl => render_sink_template_batch tpl arr
  | None => value_to_string (VArray (map (fun r => format_record_for_sink_val r opts) arr))
  end.
Definition record_text (template : option string) (opts : CommonSinkOpts) (data : row) : string :=
  match template with
  | Some tpl => render_sink_template tpl data (send_single opts)
  | None => value_to_string (to_sink_payload (format_record_for_sink data opts) (send_single opts))
  end.

Definition row_columns (r : value) : row := match r with VObject m => row_of_members m | _ => ∅ end.

(** One text for each row, for the batch or for the record; [one] sends a text with the
    columns it is about. *)
Definition send_texts (template : option string) (opts : CommonSinkOpts) (output : StreamRecord) (one : row -> string -> sending)
    : sending :=
  match batch_rows (data output) with
  | Some arr =>
      if send_single opts then send_each (fun r => one (row_columns r) (row_text template opts r)) arr
      else one (data output) (batch_text template opts arr)
  | None => one (data output) (record_text template opts (data output))
  end.

Definition is_delimited (format : option string) (opts : CommonSinkOpts) : bool :=
  bool_decide (format = Some "delimited") || bool_decide (SinkFormat.format opts = Some "delimited").

(** The delimited text of a batch or of a record. *)
Definition delimited_text (delimiter : string) (opts : CommonSinkOpts) (output : StreamRecord) : string :=
  match batch_rows (data output) with
  | Some arr => format_record_delimited (VArray arr) delimiter (fields opts)
  | None => format_record_delimited (format_record_for_sink (data output) opts) delimiter (fields opts)
  end.

Definition upper_char (c : ascii) : ascii := if is_lower c then ascii_of_N (N_of_ascii c - 32) else c.

Definition http_op_name (method : string) : string :=
  match chars method with [] => "" | f :: r => of_chars (upper_char f :: map lower_char r) end.

Definition in_quotes (s : string) : string := of_chars ([quote_char] ++ chars s ++ [quote_char]).

Definition internal_net_error (method url target ip : string) : SendError :=
  Permanent ("rest sink fails to send out the data:err=" +:+ http_op_name method +:+ " " +:+ in_quotes url +:+ ": dial tcp "
    +:+ target +:+ ": ip " +:+ ip +:+ " is in internal network recoverAble=false method=" +:+ method +:+ " path="
    +:+ in_quotes url).

Definition http_method (method : string) : string :=
  if bool_decide (method ∈ ["GET"; "PUT"; "DELETE"; "HEAD"; "PATCH"]) then method else "POST".

Definition execute_rest_request (ctx : SinkContext) (method url : string) (headers : list (string * string))
    (content_type body : option string) (map : row) : sending := fun w =>
  match (if enable_private_net ctx then None else internal_address url) with
  | Some (target, ip) => (Some (internal_net_error method url target ip), w)
  | None =>
      let headers := (fun h => (h.1, resolve h.2 map)) <$> headers in
      let '(a, w) := request (HttpSend (http_method method) url headers content_type body) w in
      (match a with
       | Taken => None
       | HttpStatus n =>
           if is_success a then None
           else if (n =? 408) || (n =? 429) || ((500 <=? n) && (n <? 600))
           then Some (Retry ("rest action HTTP transient error " +:+ status_text n +:+ ": " +:+ url))
           else Some (Permanent ("rest action HTTP client error " +:+ status_text n +:+ ": " +:+ url))
       | _ => Some (Retry ("rest action failed: " +:+ answer_text a))
       end, w)
  end.

Definition body_content_type (body_type : string) : string :=
  if bool_decide (body_type = "text") then "text/plain"
  else if bool_decide (body_type = "html") then "text/html"
  else "application/json".

Definition send_rest (ctx : SinkContext) (destination : option string) (url method : string) (headers : list (string * string))
    (body_type : string) (template : option string) (opts : CommonSinkOpts) (rest_format : option string) (delimiter : string)
    (output : StreamRecord) : sending :=
  let base_url := default url destination in
  let execute content_type body map := execute_rest_request ctx method (resolve base_url map) headers content_type body map in
  if bool_decide (base_url = "") then fail_with (Permanent "rest action missing url")
  else if eq_ignore_ascii_case method "GET" || bool_decide (body_type = "none") then execute None None (data output)
  else if is_delimited rest_format opts then
    execute (Some "text/plain") (Some (delimited_text delimiter opts output)) (data output)
  else send_texts template opts output (fun map text => execute (Some (body_content_type body_type)) (Some text) map).

Definition send_mqtt (destination : option string) (config : MqttConfig) (template : option string) (opts : CommonSinkOpts)
    (mqtt_format : option string) (delimiter : string) (output : StreamRecord) : sending :=
  let one map payload :=
    send_or_retry "mqtt" (MqttSend (match destination with Some d => d | None => resolve (topic config) map end) payload) in
  let delimited := is_delimited mqtt_format opts in
  match batch_rows (data output), template, data output !! "__raw_error__" with
  | Some _, _, _ =>
      if delimited then one (data output) (delimited_text delimiter opts output) else send_texts template opts output one
  | None, None, Some (VString raw_err) => one (data output) raw_err
  | None, None, _ => one (data output) (if delimited then delimited_text delimiter opts output else record_text None opts (data output))
  | None, Some _, _ => one (data output) (record_text template opts (data output))
  end.

(** Rows as maps, for the connectors that write columns. *)
Definition formatted_row (opts : CommonSinkOpts) (r : value) : option row :=
  match format_record_for_sink_val r opts with VObject m => Some (row_of_members m) | _ => None end.
Definition formatted_record (opts : CommonSinkOpts) (output : StreamRecord) : row :=
  match format_record_for_sink (data output) opts with VObject m => row_of_members m | _ => data output end.

Definition write_rows (kind : string) (opts : CommonSinkOpts) (output : StreamRecord) : sending :=
  match batch_rows (data output) with
  | Some arr => send_each (fun map => send_checked (WriteRow kind map)) (omap (formatted_row opts) arr)
  | None => send_checked (WriteRow kind (formatted_record opts output))
  end.

Definition write_batch (kind : string) (opts : CommonSinkOpts) (output : StreamRecord) : sending :=
  match batch_rows (data output) with
  | Some arr => send_checked (WriteRows kind (omap (formatted_row opts) arr))
  | None => send_checked (WriteRow kind (formatted_record opts output))
  end.

(** [memory]: the columns that are public, cleaned. *)
Definition memory_record (nil : bool) (output : StreamRecord) (columns : row) : StreamRecord :=
  mkRecord (timestamp output)
    (map_imap (fun k v => if is_internal k || is_null v && negb nil then None else Some (clean_sink_value nil v)) columns).

Definition send_memory (topic : string) (nil : bool) (output : StreamRecord) : sending := fun w =>
  let topic := resolve topic (data output) in
  match batch_rows (data output) with
  | Some arr =>
      (None, foldl (fun w r => match r with
        | VObject m => (request (BusPublish topic (memory_record nil output (row_of_members m))) w).2
        | _ => w end) w arr)
  | None =>
      let '(a, w) := request (BusPublish topic (memory_record nil output (data output))) w in
      match a with
      | NotPublished StreamBus.Full => (Some Dropped, count (inc_exceptions 1) (count (inc_dropped 1) w))
      | NotPublished StreamBus.Closed => (Some Dropped, count (inc_dropped 1) w)
      | _ => (None, w)
      end
  end.

(** ** One record through one action *)

Abbreviation delivering A := (A * ActionRuntime * Files * World)%type.

Definition without_files (rt : ActionRuntime) (files : Files) (s : option SendError * World) : delivering (option SendError) :=
  (s.1, rt, files, s.2).

Definition send_action (rt : ActionRuntime) (output : StreamRecord) (destination : option string) (ctx : SinkContext)
    (files : Files) (w : World) : delivering (option SendError) :=
  match action rt with
  | Log | Nop | Unknown _ => (None, rt, files, w)
  | File a =>
      let writer := default writer_new (files !! file_path a) in
      (None, rt, <[file_path a := push_record a output writer]> files, w)
  | Rest url method headers body_type template opts rest_format delimiter =>
      without_files rt files (send_rest ctx destination url method headers body_type template opts rest_format delimiter output w)
  | Mqtt config template opts mqtt_format delimiter =>
      match (if mqtt_ready rt then None else mqtt_config_error config) with
      | Some e => (Some (Permanent ("mqtt action configuration invalid: " +:+ e)), rt, files, w)
      | None => without_files (set_ready rt) files (send_mqtt destination config template opts mqtt_format delimiter output w)
      end
  | WebSocket url template opts =>
      without_files rt files (send_texts template opts output (fun _ text => send_or_retry "websocket" (WebSocketSend url text)) w)
  | Redis opts =>
      without_files rt files (send_texts None opts output (fun _ text => send_or_retry "redis" (RedisSend text output)) w)
  | Kafka opts =>
      without_files rt files (send_texts None opts output (fun _ text => send_or_retry "kafka" (KafkaSend text output)) w)
  | Sql => without_files rt files (send_or_retry "sql" (SqlInsert output) w)
  | Memory topic send_nil => without_files rt files (send_memory topic send_nil output w)
  | RabbitMq template opts =>
      without_files rt files (send_texts template opts output (fun _ text => send_or_retry "rabbitmq" (RabbitSend text)) w)
  | Zmq topic template opts =>
      without_files rt files (send_texts template opts output
        (fun map text => send_or_retry "zmq" (ZmqSend (resolve (default (default "" topic) destination) map) text)) w)
  | Modbus opts => without_files rt files (write_rows "modbus" opts output w)
  | OpcUa opts => without_files rt files (write_rows "opcua" opts output w)
  | Otlp opts => without_files rt files (write_batch "otlp" opts output w)
  | Other kind _ => without_files rt files (send_checked (OtherSend kind destination output) w)
  end.

(** ** Failures *)

Definition error_text (e : SendError) : string :=
  match e with Retry m | Permanent m => m | Dropped => "dropped" end.

(** [report_send_error]: an exception of the rule, unless the action has counted it. *)
Definition report_send_error (err : SendError) (w : World) : World :=
  match err with
  | Retry m | Permanent m => count (record_exception m) w
  | Dropped => w
  end.

(** Records the cache had to drop, into the counter of the rule. *)
Definition sync_cache_drops (rt : ActionRuntime) (w : World) : ActionRuntime * World :=
  match cache rt with
  | Some c =>
      let fresh := Z.max 0 (dropped c - reported_dropped rt) in
      if 0 <? fresh then (set_reported (dropped c) rt, count (inc_dropped fresh) w) else (rt, w)
  | None => (rt, w)
  end.

Definition sink_stage (err_msg : string) : DlqStage := if occurs "template" err_msg then DataTemplate else SinkDelivery.

Definition route_failure (rt : ActionRuntime) (record : StreamRecord) (err : SendError) (ctx : SinkContext) (w : World) : World :=
  match dlq_router ctx with
  | Some r =>
      let '(now, w) := read_clock w in
      set_dlq (route_error r now (sink_stage (error_text err)) (error_text err) (Some (map_to_json (data record)))
        (Some (row_to_value (data record))) (Some (sink_type_name (action rt))) (dlq_state w)) w
  | None => w
  end.

(** A record that was not delivered is cached when the destination may come back and the
    action has a cache; otherwise it has failed. *)
Definition after_failure (rt : ActionRuntime) (record : StreamRecord) (err : SendError) (ctx : SinkContext) (w : World)
    : Delivery * ActionRuntime * World :=
  match err, cache rt with
  | Retry _, Some c =>
      let rt := set_cache (Some (push record c)) rt in
      let '(rt, w) := sync_cache_drops rt (report_send_error err w) in (Cached, rt, w)
  | _, _ => (Failed, rt, route_failure rt record err ctx (report_send_error err w))
  end.

(** [send_action] for a live record, with its failures handled. *)
Definition send_live (rt : ActionRuntime) (record : StreamRecord) (ctx : SinkContext) (files : Files) (w : World) : delivering Delivery :=
  let '(e, rt, files, w) := send_action rt record None ctx files w in
  match e with
  | None => (Delivered, rt, files, w)
  | Some err => let '(d, rt, w) := after_failure rt record err ctx w in (d, rt, files, w)
  end.

(** ** Batches *)

Definition batch_record (rows : list value) (w : World) : StreamRecord * World :=
  let '(now, w) := read_clock w in (mkRecord now {[BATCH_ROWS_KEY := VArray rows]}, w).

Definition batching_opts (a : PreparedAction) : option CommonSinkOpts :=
  o ← common_opts a; if (0 <? batch_size o) || (0 <? linger_interval o) then Some o else None.

Definition rows_of (opts : CommonSinkOpts) (output : StreamRecord) : list value :=
  match batch_rows (data output) with
  | Some arr => map (fun item => format_record_for_sink_val item opts) arr
  | None => [format_record_for_sink (data output) opts]
  end.

(** The loop that sends full batches; each turn takes [batch_size] rows, at least one. *)
Fixpoint send_batches (fuel : nat) (size : Z) (rt : ActionRuntime) (ctx : SinkContext) (files : Files) (w : World)
    : delivering Delivery :=
  match fuel with
  | O => (Delivered, rt, files, w)
  | S fuel =>
      if (0 <? size) && (size <=? len (batch_buffer rt)) then
        let batch := take (Z.to_nat size) (batch_buffer rt) in
        let rt := set_buffer (drop (Z.to_nat size) (batch_buffer rt)) rt in
        let '(now, w) := read_clock w in
        let '(record, w) := batch_record batch w in
        let '(d, rt, files, w) := send_live (set_batch_time now rt) record ctx files w in
        let '(d', rt, files, w) := send_batches fuel size rt ctx files w in
        (delivery_max d d', rt, files, w)
      else (Delivered, rt, files, w)
  end.

(** Rows wait in the buffer of an action that batches. *)
Definition deliver_now (rt : ActionRuntime) (output : StreamRecord) (ctx : SinkContext) (files : Files) (w : World)
    : delivering Delivery :=
  match batching_opts (action rt) with
  | Some opts =>
      let rt := set_buffer (batch_buffer rt ++ rows_of opts output) rt in
      send_batches (length (batch_buffer rt)) (batch_size opts) rt ctx files w
  | None => send_live rt output ctx files w
  end.

(** One record through one action, in [deliver_record]: with cache-first priority, it queues
    behind what is cached. *)
Definition deliver_one (rt : ActionRuntime) (output : StreamRecord) (ctx : SinkContext) (files : Files) (w : World)
    : delivering Delivery :=
  match cache rt with
  | Some c =>
      if bool_decide (priority (cfg c) = CacheFirst) && negb (is_empty c) then
        let '(rt, w) := sync_cache_drops (set_cache (Some (push output c)) rt) w in (Cached, rt, files, w)
      else deliver_now rt output ctx files w
  | None => deliver_now rt output ctx files w
  end.

Fixpoint deliver_record (runtimes : list ActionRuntime) (output : StreamRecord) (ctx : SinkContext) (files : Files) (w : World)
    : Delivery * list ActionRuntime * Files * World :=
  match runtimes with
  | [] => (Delivered, [], files, w)
  | rt :: runtimes =>
      let '(d, rt, files, w) := deliver_one rt output ctx files w in
      let '(d', runtimes, files, w) := deliver_record runtimes output ctx files w in
      (delivery_max d d', rt :: runtimes, files, w)
  end.

(** ** Resending *)

Definition RESEND_BATCH_MAX : Z := 4096.
Definition RESEND_RETRY_BACKOFF : Z := 1000.
Definition SINK_TICK : Z := 100.

Definition resend_record (cf : CacheConfig) (r : StreamRecord) : StreamRecord := mkRecord (timestamp r) (resend_copy cf (data r)).

(** Every turn sends the oldest record, and either takes it out of the cache or ends the
    loop. *)
Fixpoint resend_loop (fuel : nat) (sent : Z) (cf : CacheConfig) (rt : ActionRuntime) (ctx : SinkContext) (files : Files) (w : World)
    : option (delivering Z) :=
  if RESEND_BATCH_MAX <=? sent then Some (sent, rt, files, w)
  else
    let '(now, w) := read_clock w in
    if now <? retry_at rt then Some (sent, rt, files, w)
    else
      match cache rt with
      | None => Some (sent, rt, files, w)
      | Some c =>
          let '(oldest, c) := front c in
          let rt := set_cache (Some c) rt in
          match oldest with
          | None => Some (sent, rt, files, w)
          | Some r =>
              match fuel with
              | O => None
              | S fuel =>
                  let copy := resend_record cf r in
                  let '(e, rt, files, w) := send_action rt copy (destination cf) ctx files w in
                  match e with
                  | None =>
                      let rt := set_cache (Some (pop_front c).2) rt in
                      let rt := if resend_interval cf =? 0 then rt
                        else set_retry_at (Z.max (retry_at rt) (now - SINK_TICK) + resend_interval cf) rt in
                      resend_loop fuel (sent + 1) cf rt ctx files w
                  | Some (Retry m) =>
                      Some (sent, set_retry_at (now + Z.max (resend_interval cf) RESEND_RETRY_BACKOFF) rt, files,
                            report_send_error (Retry m) w)
                  | Some err =>
                      let w := count (inc_sink_failed 1) (report_send_error err w) in
                      let rt := set_cache (Some (pop_front c).2) rt in
                      resend_loop fuel sent cf rt ctx files (route_failure rt copy err ctx w)
                  end
              end
          end
      end.

(** The number of records delivered from the cache. *)
Definition resend_cached (rt : ActionRuntime) (live_recent : bool) (ctx : SinkContext) (files : Files) (w : World)
    : option (delivering Z) :=
  match cache rt with
  | Some c =>
      if is_empty c || bool_decide (priority (cfg c) = LiveFirst) && live_recent then Some (0, rt, files, w)
      else resend_loop (Z.to_nat (cache_len c)) 0 (cfg c) rt ctx files w
  | None => Some (0, rt, files, w)
  end.
End delivery.
