(* ===== verification/SinkWorker.v ===== *)
(** * The sink worker of a rule ([spawn_rule_task] of
      [crates/rekuiper-server/src/engine/mod.rs])

    The task that takes output records from the bounded queue of a rule, at most 64 at a
    time, delivers them, flushes files, and on every tick sends lingering batches and cached
    records.  When the queue is closed and drained, it flushes everything and closes the
    caches. *)

From S2P Require Import Prelude StreamBus Rust Json Counters Dlq Ast Engine Values Objects SinkCache SinkFormat FileSink Delivery.

Set Default Goal Selector "!".

Record Worker := mkWorker {
  runtimes : list ActionRuntime;
  writers : Files;
  world : World;
  pending_file_records : Z;
  last_live : Z;
  queue : list StreamRecord;
}.

(** What wakes the worker: it finds the queue as producers left it, or a tick. *)
Inductive Event := Arrive (rs : list StreamRecord) | Poll | Tick.

Definition DRAIN_MAX : nat := 64.

Section worker.
Context `{Text} `{Templates} `{Net} `{LineCodec StreamRecord} (ctx : SinkContext).

Definition is_file (a : PreparedAction) : bool := match a with File _ => true | _ => false end.
Definition is_nop (a : PreparedAction) : bool := match a with Nop => true | _ => false end.

Definition file_actions (rts : list ActionRuntime) : bool := existsb (fun rt => is_file (action rt)) rts.
Definition all_nop (rts : list ActionRuntime) : bool :=
  forallb (fun rt => is_nop (action rt) && bool_decide (cache rt = None)) rts.

Definition num_records (output : StreamRecord) : Z :=
  match batch_rows (data output) with Some a => len a | None => 1 end.

Definition set_world (w : World) (s : Worker) : Worker :=
  mkWorker (runtimes s) (writers s) w (pending_file_records s) (last_live s) (queue s).

(** Records handed to files count as output when the files are flushed. *)
Definition count_delivered (n : Z) (s : Worker) : Worker :=
  if file_actions (runtimes s)
  then mkWorker (runtimes s) (writers s) (world s) (pending_file_records s + n) (last_live s) (queue s)
  else set_world (count (inc_sink_out n) (world s)) s.

Definition process_output (s : Worker) (output : StreamRecord) : Worker :=
  let n := num_records output in
  if all_nop (runtimes s) then set_world (count (inc_sink_out n) (world s)) s
  else
    let '(d, rts, files, w) := deliver_record (runtimes s) output ctx (writers s) (world s) in
    let s := mkWorker rts files w (pending_file_records s) (last_live s) (queue s) in
    match d with
    | Delivered => count_delivered n s
    | Cached => s
    | Failed => set_world (count (inc_sink_failed n) (world s)) s
    end.

(** The records handed to files are output when no flush has failed; [failed] says how
    failures are counted. *)
Definition after_flush (failures : nat) (failed : World -> World) (files : Files) (d : Disk) (s : Worker) : Worker :=
  let w := set_disk d (world s) in
  match failures with
  | O => mkWorker (runtimes s) files (count (inc_sink_out (pending_file_records s)) w) 0 (last_live s) (queue s)
  | _ => mkWorker (runtimes s) files (failed w) (pending_file_records s) (last_live s) (queue s)
  end.

Definition poll (s : Worker) : Worker :=
  match queue s with
  | [] => s
  | _ =>
      let '(now, w) := read_clock (world s) in
      let taken := take DRAIN_MAX (queue s) in
      let s := mkWorker (runtimes s) (writers s) w (pending_file_records s) now (drop DRAIN_MAX (queue s)) in
      let s := foldl process_output s taken in
      if existsb (fun pw => should_flush pw.2) (map_to_list (writers s)) then
        let '(failures, files, d) := flush_files false (writers s) (disk (world s)) in
        after_flush failures (count (inc_exceptions (Z.of_nat failures))) files d s
      else s
  end.

(** A batch that has waited for its linger interval is sent; its failure is only an
    exception of the rule. *)
Definition linger (now : Z) (rt : ActionRuntime) (files : Files) (w : World) : ActionRuntime * Files * World :=
  let interval := from_option linger_interval 0 (common_opts (action rt)) in
  if (0 <? interval) && negb (bool_decide (batch_buffer rt = [])) && (interval <=? Z.max 0 (now - last_batch_time rt)) then
    let '(record, w) := batch_record (batch_buffer rt) w in
    let '(e, rt, files, w) := send_action (set_batch_time now (set_buffer [] rt)) record None ctx files w in
    (rt, files, match e with Some err => report_send_error err w | None => w end)
  else (rt, files, w).

Fixpoint linger_all (now : Z) (rts : list ActionRuntime) (files : Files) (w : World) : list ActionRuntime * Files * World :=
  match rts with
  | [] => ([], files, w)
  | rt :: rts =>
      let '(rt, files, w) := linger now rt files w in
      let '(rts, files, w) := linger_all now rts files w in
      (rt :: rts, files, w)
  end.

(** Cached records are resent action by action; what has been resent is counted. *)
Fixpoint resend_all (live_recent : bool) (before rts : list ActionRuntime) (s : Worker) : option Worker :=
  match rts with
  | [] => Some s
  | rt :: rts =>
      '(resent, rt, files, w) ← resend_cached rt live_recent ctx (writers s) (world s);
      let s := mkWorker (before ++ rt :: rts) files w (pending_file_records s) (last_live s) (queue s) in
      resend_all live_recent (before ++ [rt]) rts (if 0 <? resent then count_delivered resent s else s)
  end.

Definition tick (s : Worker) : option Worker :=
  let '(failures, files, d) := flush_files true (writers s) (disk (world s)) in
  let s := after_flush failures (count (inc_exceptions 1)) files d s in
  let '(now, w) := read_clock (world s) in
  let '(rts, files, w) := linger_all now (runtimes s) (writers s) w in
  let '(now, w) := read_clock w in
  let s := mkWorker rts files w (pending_file_records s) (last_live s) (queue s) in
  resend_all (now - last_live s <? SINK_TICK * 2) [] rts s.

Definition step (s : Worker) (e : Event) : option Worker :=
  match e with
  | Arrive rs => Some (mkWorker (runtimes s) (writers s) (world s) (pending_file_records s) (last_live s) (queue s ++ rs))
  | Poll => Some (poll s)
  | Tick => tick s
  end.

(** ** The end of a rule *)

(** What is left of a batch is sent, whatever comes of it. *)
Fixpoint flush_batches (rts : list ActionRuntime) (files : Files) (w : World) : list ActionRuntime * Files * World :=
  match rts with
  | [] => ([], files, w)
  | rt :: rts =>
      let '(rt, files, w) :=
        match batch_buffer rt with
        | [] => (rt, files, w)
        | batch =>
            let '(record, w) := batch_record batch w in
            let '(_, rt, files, w) := send_action (set_buffer [] rt) record None ctx files w in (rt, files, w)
        end in
      let '(rts, files, w) := flush_batches rts files w in
      (rt :: rts, files, w)
  end.

(** The end of the worker, with the cache directories it leaves. *)
Definition finish (s : Worker) : list (option Fs) * World :=
  let '(rts, files, w) := flush_batches (runtimes s) (writers s) (world s) in
  let '(failures, files, d) := flush_files false files (disk w) in
  let w := set_disk d w in
  let w := match failures with
    | O => count (inc_sink_out (pending_file_records s)) w
    | _ => count (inc_sink_failed (pending_file_records s)) (count (inc_exceptions (Z.of_nat failures)) w)
    end in
  (map (fun rt => close <$> cache rt) rts, w).

Fixpoint drain (fuel : nat) (s : Worker) : Worker :=
  match fuel, queue s with S fuel, _ :: _ => drain fuel (poll s) | _, _ => s end.

(** A run: events, then the queue is closed, drained and the worker ends. *)
Definition run_worker (s : Worker) (events : list Event) : option (list (option Fs) * World) :=
  s ← foldl (fun s e => s ≫= fun s => step s e) (Some s) events;
  Some (finish (drain (length (queue s)) s)).
End worker.
