(* ===== verification/DeliveryFacts.v ===== *)
(** * Delivery through an action with an offline cache

    What one step of delivery does to the cache, the accepted requests and the counters, for
    the actions that make one request for a record. *)

From S2P Require Import Prelude StreamBus Rust Json Counters Dlq Ast Engine Values Objects SinkCache SinkCacheFacts SinkFormat FileSink Delivery.

Set Default Goal Selector "!".
#[local] Set Warnings "-clear-no-such-hyp".

(** ** The options of a cache never change *)

Section config.
Context {R : Type} `{LineCodec R}.
Implicit Types (c : SinkCache R).

Lemma cfg_spill_loop ps c : cfg (spill_loop ps c) = cfg c.
Proof.
  revert c. induction ps as [|p ps IH]; intros c; simpl; case_match; try done.
  - by case_match.
  - by rewrite IH.
Qed.

Lemma cfg_spill_tail c : cfg (spill_tail c) = cfg c.
Proof.
  unfold spill_tail. destruct (tail c); [done|]. rewrite <- (cfg_spill_loop (pages c) c).
  destruct (tail (spill_loop _ _)); [done|]. by destruct (write_page _ _ _) as [[] ?].
Qed.

Lemma cfg_push r c : cfg (push r c) = cfg c.
Proof. unfold push. repeat case_match; try done. by rewrite cfg_spill_tail. Qed.

Lemma cfg_refill c : cfg (refill c) = cfg c.
Proof. unfold refill, load_oldest_page. by repeat case_match; simplify_eq. Qed.

Lemma cfg_pop_front c : cfg (pop_front c).2 = cfg c.
Proof. unfold pop_front, front. case_match; simpl; apply cfg_refill. Qed.

(** The oldest record of a cache that holds one. *)
Lemma front_ok `{!LineCodecOk R} c : cache_ok c ->
  cache_ok (front c).2 /\ abs (front c).2 = abs c /\ write_faults (fs (front c).2) = write_faults (fs c) /\
  (front c).1 = list.head (contents c).
Proof.
  intros Hok. unfold front. simpl. destruct (refill_ok c Hok) as (Hok' & Habs & Hf & Hemp).
  split_and!; try done. assert (Hc : contents (refill c) = contents c) by (unfold abs in Habs; by simplify_eq).
  destruct (head (refill c)) as [|h hs] eqn:Eh; [by rewrite (Hemp eq_refl)|]. rewrite <- Hc. unfold contents. by rewrite Eh.
Qed.

Lemma pop_front_contents `{!LineCodecOk R} c r rest : cache_ok c -> contents c = r :: rest ->
  cache_ok (pop_front c).2 /\ contents (pop_front c).2 = rest /\ dropped (pop_front c).2 = dropped c /\
  write_faults (fs (pop_front c).2) = write_faults (fs c).
Proof.
  intros Hok Hc. unfold pop_front, front. destruct (refill_ok c Hok) as (Hok' & Habs & Hf & Hemp).
  unfold abs in Habs. injection Habs as Hcon Hd. destruct (head (refill c)) as [|h hs] eqn:Eh; simpl; [by rewrite (Hemp eq_refl) in Hc|].
  split; [destruct Hok' as [Hd' Hb Ht Hmo]; constructor; [by destruct Hd'; constructor|done..]|].
  split_and!; [|done|done]. rewrite Hc in Hcon. unfold contents in Hcon |- *. rewrite Eh in Hcon. simpl in *. by simplify_eq.
Qed.

Lemma is_empty_contents `{!LineCodecOk R} c : cache_ok c -> is_empty c = bool_decide (contents c = []).
Proof.
  intros Hok. unfold is_empty. rewrite <- (contents_len c (ok_disk c Hok)). destruct (contents c) as [|r rs]; [done|].
  rewrite (bool_decide_eq_false_2 (r :: rs = [])) by done. apply Z.eqb_neq. unfold len. simpl. lia.
Qed.
End config.

(** ** Counters *)

(** Output, failed and dropped records are counted, modulo the width of a counter. *)
Definition eqm (a b : Z) : Prop := a mod 2 ^ 64 = b mod 2 ^ 64.

#[export] Instance eqm_equivalence : Equivalence eqm.
Proof. unfold eqm. split; [by intros a|by intros a b|by intros a b c ->]. Qed.

Lemma eqm_u64_add a b n : eqm a b -> eqm (u64_add a n) (b + n).
Proof. unfold eqm, u64_add. intros Ha. by rewrite Zmod_mod, Zplus_mod, Ha, <- Zplus_mod. Qed.

Definition moved (c c' : RuleCounters) (out failed lost : Z) : Prop :=
  eqm (sink_out c') (sink_out c + out) /\ eqm (sink_failed c') (sink_failed c + failed) /\
  eqm (dropped_by_policy c') (dropped_by_policy c + lost).

Lemma moved_refl c : moved c c 0 0 0.
Proof. unfold moved. by rewrite !Z.add_0_r. Qed.

Lemma eqm_add a b n : eqm a b -> eqm (a + n) (b + n).
Proof. unfold eqm. intros Ha. by rewrite Zplus_mod, Ha, <- Zplus_mod. Qed.

Lemma moved_trans c1 c2 c3 o1 f1 d1 o2 f2 d2 : moved c1 c2 o1 f1 d1 -> moved c2 c3 o2 f2 d2 ->
  moved c1 c3 (o1 + o2) (f1 + f2) (d1 + d2).
Proof.
  intros (H1 & H2 & H3) (H4 & H5 & H6). unfold moved. rewrite !Z.add_assoc.
  split_and!; (etrans; [eassumption|by apply eqm_add]).
Qed.

Lemma moved_sink_out n c : moved c (inc_sink_out n c) n 0 0.
Proof. destruct c. unfold moved. simpl. rewrite !Z.add_0_r. split_and!; [by apply eqm_u64_add|done|done]. Qed.
Lemma moved_sink_failed n c : moved c (inc_sink_failed n c) 0 n 0.
Proof. destruct c. unfold moved. simpl. rewrite !Z.add_0_r. split_and!; [done|by apply eqm_u64_add|done]. Qed.
Lemma moved_dropped n c : moved c (inc_dropped n c) 0 0 n.
Proof. destruct c. unfold moved. simpl. rewrite !Z.add_0_r. split_and!; [done|done|by apply eqm_u64_add]. Qed.
Lemma moved_exception m c : moved c (record_exception m c) 0 0 0.
Proof. destruct c. unfold moved. simpl. by rewrite !Z.add_0_r. Qed.
Lemma moved_inc_dlq s c : moved c (inc_dlq s c) 0 0 0.
Proof. destruct c. unfold moved. simpl. by rewrite !Z.add_0_r. Qed.

Lemma moved_route r now stage m raw tuple ty s : moved (counters s) (counters (route_error r now stage m raw tuple ty s)) 0 0 0.
Proof.
  unfold route_error. case_bool_decide; simpl; [apply moved_exception|].
  apply (moved_trans _ (record_exception m (counters s)) _ 0 0 0 0 0 0); [apply moved_exception|apply moved_inc_dlq].
Qed.

(** ** Worlds *)

(** The network has not been used, and the counters have moved. *)
Definition quiet (w w' : World) (out failed lost : Z) : Prop :=
  accepted w' = accepted w /\ (forall i, answers w' i = answers w i) /\
  moved (counters (dlq_state w)) (counters (dlq_state w')) out failed lost.

Lemma quiet_refl w : quiet w w 0 0 0.
Proof. split_and!; [done|done|apply moved_refl]. Qed.

Lemma quiet_trans w1 w2 w3 o1 f1 d1 o2 f2 d2 : quiet w1 w2 o1 f1 d1 -> quiet w2 w3 o2 f2 d2 ->
  quiet w1 w3 (o1 + o2) (f1 + f2) (d1 + d2).
Proof.
  intros (H1 & H2 & H3) (H4 & H5 & H6). split_and!; [congruence| |by eapply moved_trans]. intros i. by rewrite H5.
Qed.

Lemma quiet_count f w o fl d : moved (counters (dlq_state w)) (f (counters (dlq_state w))) o fl d -> quiet w (count f w) o fl d.
Proof. intros Hm. by split_and!. Qed.

Lemma quiet_clock w : quiet w (read_clock w).2 0 0 0.
Proof. split_and!; [done|done|apply moved_refl]. Qed.

Lemma quiet_report e w : quiet w (report_send_error e w) 0 0 0.
Proof. destruct e; simpl; [apply quiet_count, moved_exception..|apply quiet_refl]. Qed.

Section facts.
Context `{Text} `{Templates} `{Net} `{LineCodecOk StreamRecord}.

Lemma quiet_route rt record err ctx w : quiet w (route_failure rt record err ctx w) 0 0 0.
Proof. unfold route_failure. destruct (dlq_router ctx); [|apply quiet_refl]. split_and!; [done|done|]. simpl. apply moved_route. Qed.

Lemma quiet_sync rt c w : cache rt = Some c -> reported_dropped rt <= dropped c ->
  quiet w (sync_cache_drops rt w).2 0 0 (dropped c - reported_dropped rt) /\
  (sync_cache_drops rt w).1 = set_reported (dropped c) rt.
Proof.
  intros Hc Hle. unfold sync_cache_drops. rewrite Hc. rewrite Z.max_r by lia.
  destruct (Z.ltb_spec 0 (dropped c - reported_dropped rt)); simpl.
  - split; [|done]. apply quiet_count, moved_dropped.
  - replace (dropped c - reported_dropped rt) with 0 by lia. split; [apply quiet_refl|].
    replace (dropped c) with (reported_dropped rt) by lia. by destruct rt.
Qed.

(** ** One request for one record *)

(** The request an action makes for a record that is not a batch, for the kinds of action
    that make exactly one: internal addresses are allowed and the configuration is valid. *)
Definition rest_content (body_type : string) (template : option string) (opts : CommonSinkOpts) (fmt : option string)
    (delimiter method : string) (output : StreamRecord) : option string * option string :=
  if eq_ignore_ascii_case method "GET" || bool_decide (body_type = "none") then (None, None)
  else if is_delimited fmt opts then (Some "text/plain", Some (delimited_text delimiter opts output))
  else (Some (body_content_type body_type), Some (record_text template opts (data output))).

Definition mqtt_content (template : option string) (opts : CommonSinkOpts) (fmt : option string) (delimiter : string)
    (output : StreamRecord) : string :=
  match template, data output !! "__raw_error__" with
  | Some _, _ => record_text template opts (data output)
  | None, Some (VString raw_err) => raw_err
  | None, _ => if is_delimited fmt opts then delimited_text delimiter opts output else record_text None opts (data output)
  end.

Definition target (ctx : SinkContext) (a : PreparedAction) : option (StreamRecord -> Request) :=
  match a with
  | Rest url method headers body_type template opts fmt delimiter =>
      if enable_private_net ctx && negb (bool_decide (url = "")) then
        Some (fun output =>
          let '(content_type, body) := rest_content body_type template opts fmt delimiter method output in
          HttpSend (http_method method) (resolve url (data output)) ((fun h => (h.1, resolve h.2 (data output))) <$> headers)
            content_type body)
      else None
  | Mqtt config template opts fmt delimiter =>
      match mqtt_config_error config with
      | None => Some (fun output => MqttSend (resolve (topic config) (data output)) (mqtt_content template opts fmt delimiter output))
      | Some _ => None
      end
  | WebSocket url template opts => Some (fun output => WebSocketSend url (record_text template opts (data output)))
  | Redis opts => Some (fun output => RedisSend (record_text None opts (data output)) output)
  | Kafka opts => Some (fun output => KafkaSend (record_text None opts (data output)) output)
  | Sql => Some SqlInsert
  | RabbitMq template opts => Some (fun output => RabbitSend (record_text template opts (data output)))
  | Zmq topic template opts =>
      Some (fun output => ZmqSend (resolve (default "" topic) (data output)) (record_text template opts (data output)))
  | Modbus opts => Some (fun output => WriteRow "modbus" (formatted_record opts output))
  | OpcUa opts => Some (fun output => WriteRow "opcua" (formatted_record opts output))
  | Otlp opts => Some (fun output => WriteRow "otlp" (formatted_record opts output))
  | Other kind _ => Some (OtherSend kind None)
  | _ => None
  end.

Definition ready (rt : ActionRuntime) : ActionRuntime := match action rt with Mqtt _ _ _ _ _ => set_ready rt | _ => rt end.

Definition plain (r : StreamRecord) : Prop := batch_rows (data r) = None.

(** An answer that no later attempt can change. *)
Definition lasting (a : Answer) : bool :=
  match a with
  | Rejected permanent _ => permanent
  | HttpStatus n => negb (is_success a || (n =? 408) || (n =? 429) || ((500 <=? n) && (n <? 600)))
  | _ => false
  end.

(** What an action makes of an answer. *)
Definition outcome (a : Answer) (e : option SendError) : Prop :=
  match e with
  | None => is_success a = true
  | Some (Retry _) => is_success a = false
  | Some (Permanent _) => is_success a = false /\ lasting a = true
  | Some Dropped => False
  end.

Lemma outcome_retry label q w : outcome (answers w 0) (send_or_retry label q w).1 /\
  (send_or_retry label q w).2 = (request q w).2.
Proof. unfold send_or_retry. simpl. by destruct (is_success (answers w 0)) eqn:Hs. Qed.

Lemma outcome_checked q w : outcome (answers w 0) (send_checked q w).1 /\ (send_checked q w).2 = (request q w).2.
Proof.
  unfold send_checked. simpl. split; [|done]. destruct (is_success (answers w 0)) eqn:Hs; [done|].
  by destruct (answers w 0) as [| |[] ?|].
Qed.

Lemma outcome_rest ctx method url headers ct body map w : enable_private_net ctx = true ->
  outcome (answers w 0) (execute_rest_request ctx method url headers ct body map w).1 /\
  (execute_rest_request ctx method url headers ct body map w).2
    = (request (HttpSend (http_method method) url ((fun h => (h.1, resolve h.2 map)) <$> headers) ct body) w).2.
Proof.
  intros Hnet. unfold execute_rest_request. rewrite Hnet. simpl. split; [|done].
  destruct (answers w 0) as [|n|p m|pe] eqn:Ha; try done.
  destruct (is_success (HttpStatus n)) eqn:Hs; [done|].
  destruct ((n =? 408) || (n =? 429) || ((500 <=? n) && (n <? 600))) eqn:Hr; [done|]. split; [done|].
  unfold lasting. rewrite Hs. simpl. by rewrite Hr.
Qed.

(** The single request and what becomes of its answer. *)
Lemma send_action_target ctx rt q output files w : target ctx (action rt) = Some q -> plain output ->
  exists e, send_action rt output None ctx files w = (e, ready rt, files, (request (q output) w).2) /\ outcome (answers w 0) e.
Proof.
  intros Hq Hp. unfold plain in Hp. unfold send_action, ready.
  assert (Hgo : forall rt' (s : option SendError * World), outcome (answers w 0) s.1 /\ s.2 = (request (q output) w).2 ->
    exists e, without_files rt' files s = (e, rt', files, (request (q output) w).2) /\ outcome (answers w 0) e).
  { intros rt' [e w'] [Ho Hw]. simpl in Ho, Hw. subst w'. by exists e. }
  destruct (action rt) as [| | |url method headers body_type template opts fmt delimiter|config template opts fmt delimiter| | | | | | | | | | | |];
    simpl in Hq; try discriminate.
  - destruct (enable_private_net ctx) eqn:Hnet; [|done]. simpl in Hq. destruct (bool_decide (url = "")) eqn:Hu; [done|].
    simpl in Hq. injection Hq as <-. apply Hgo. unfold send_rest, send_texts, rest_content. cbn [default]. rewrite Hu, Hp.
    destruct (_ || _); [by apply outcome_rest|]. destruct (is_delimited fmt opts); by apply outcome_rest.
  - destruct (mqtt_config_error config) eqn:He; [done|]. injection Hq as <-. 
    replace (if mqtt_ready rt then None else None) with (@None string) by (by destruct (mqtt_ready rt)).
    apply Hgo. unfold send_mqtt, mqtt_content. rewrite Hp.
    destruct template; [apply outcome_retry|]. by destruct (data output !! "__raw_error__") as [[]|]; apply outcome_retry.
  - injection Hq as <-. apply Hgo. unfold send_texts. rewrite Hp. apply outcome_retry.
  - injection Hq as <-. apply Hgo. unfold send_texts. rewrite Hp. apply outcome_retry.
  - injection Hq as <-. apply Hgo. unfold send_texts. rewrite Hp. apply outcome_retry.
  - injection Hq as <-. apply Hgo. apply outcome_retry.
  - injection Hq as <-. apply Hgo. unfold send_texts. rewrite Hp. apply outcome_retry.
  - injection Hq as <-. apply Hgo. unfold send_texts. rewrite Hp. apply outcome_retry.
  - injection Hq as <-. apply Hgo. unfold write_rows. rewrite Hp. apply outcome_checked.
  - injection Hq as <-. apply Hgo. unfold write_rows. rewrite Hp. apply outcome_checked.
  - injection Hq as <-. apply Hgo. unfold write_batch. rewrite Hp. apply outcome_checked.
  - injection Hq as <-. apply Hgo. apply outcome_checked.
Qed.

(** ** What a step does *)

(** The records delivered, refused for good and dropped from the cache by a step that
    [new] records arrive in; [out] and [failed_count] is what the counters have moved by.  In
    order, when the cache comes first, pages are written, and no refusal is lasting. *)
Definition in_order (c : SinkCache StreamRecord) (w : World) : Prop :=
  priority (cfg c) = CacheFirst /\ write_faults (fs c) = [] /\ forall i, lasting (answers w i) = false.

Record effect (q : StreamRecord -> Request) (c : SinkCache StreamRecord) (w : World) (new : list StreamRecord)
    (c' : SinkCache StreamRecord) (w' : World) (delivered failed lost : list StreamRecord) (out failed_count : Z) : Prop := {
  eff_cfg : cfg c' = cfg c;
  eff_accepted : accepted w' = accepted w ++ map q delivered;
  eff_answers : exists k, forall i, answers w' i = answers w (k + i)%nat;
  eff_perm : (delivered ++ failed ++ contents c') ++ lost ≡ₚ contents c ++ new;
  eff_dropped : dropped c' = dropped c + len lost;
  eff_failed : (forall i, lasting (answers w i) = false) -> failed = [];
  eff_moved : moved (counters (dlq_state w)) (counters (dlq_state w')) out failed_count (len lost);
  eff_order : in_order c w -> write_faults (fs c') = [] /\ (delivered ++ contents c') `sublist_of` (contents c ++ new);
}.

Lemma step_refl q c w : effect q c w [] c w [] [] [] 0 0.
Proof.
  split; simpl; rewrite ?app_nil_r; try done.
  - by exists 0%nat.
  - unfold len. simpl. lia.
  - apply moved_refl.
  - by intros (_ & Hf & _).
Qed.

Lemma in_order_effect q c w new c' w' del failed lost o f : effect q c w new c' w' del failed lost o f ->
  in_order c w -> in_order c' w'.
Proof.
  intros He (Hp & Hf & Hl). destruct (eff_order _ _ _ _ _ _ _ _ _ _ _ He) as [Hf' _]; [done|].
  destruct (eff_answers _ _ _ _ _ _ _ _ _ _ _ He) as [k Hk]. rewrite <- (eff_cfg _ _ _ _ _ _ _ _ _ _ _ He) in Hp.
  split_and!; [done|done|]. intros i. by rewrite Hk.
Qed.

Lemma step_trans q c w n1 c1 w1 d1 f1 l1 o1 x1 n2 c2 w2 d2 f2 l2 o2 x2 :
  effect q c w n1 c1 w1 d1 f1 l1 o1 x1 -> effect q c1 w1 n2 c2 w2 d2 f2 l2 o2 x2 ->
  effect q c w (n1 ++ n2) c2 w2 (d1 ++ d2) (f1 ++ f2) (l1 ++ l2) (o1 + o2) (x1 + x2).
Proof.
  intros He1 He2. pose proof (in_order_effect _ _ _ _ _ _ _ _ _ _ _ He1) as Hin.
  destruct He1 as [Hc1 Ha1 [k1 Hk1] Hp1 Hd1 Hf1 Hm1 Ho1], He2 as [Hc2 Ha2 [k2 Hk2] Hp2 Hd2 Hf2 Hm2 Ho2]. split.
  - congruence.
  - by rewrite Ha2, Ha1, map_app, app_assoc.
  - exists (k1 + k2)%nat. intros i. by rewrite Hk2, Hk1, Nat.add_assoc.
  - rewrite (app_assoc (contents c)), <- Hp1, <- !app_assoc. apply Permutation_app_head.
    rewrite (Permutation_app_comm l1 n2), (app_assoc (contents c1)), <- Hp2, <- !app_assoc.
    rewrite (app_assoc d2 f1), (Permutation_app_comm d2 f1), <- !app_assoc. do 4 apply Permutation_app_head.
    apply Permutation_app_comm.
  - rewrite Hd2, Hd1. rewrite len_app. lia.
  - intros Hl. rewrite (Hf1 Hl), (Hf2 (fun i => eq_trans (f_equal lasting (Hk1 i)) (Hl (k1 + i)%nat))). done.
  - rewrite len_app. by eapply moved_trans.
  - intros Ho. destruct (Ho1 Ho) as [Hw1 Hs1], (Ho2 (Hin Ho)) as [Hw2 Hs2]. split; [done|].
    rewrite <- app_assoc. etrans; [apply sublist_app; [done|exact Hs2]|]. rewrite !app_assoc. by apply sublist_app.
Qed.

(** A record goes into the cache. *)
Lemma effect_push q r c w w' : cache_ok c -> (forall i, answers w' i = answers w i) \/ (forall i, answers w' i = answers w (S i)) ->
  accepted w' = accepted w ->
  exists lost, cache_ok (push r c) /\ dropped (push r c) = dropped c + len lost /\
    (moved (counters (dlq_state w)) (counters (dlq_state w')) 0 0 (len lost) ->
     effect q c w [r] (push r c) w' [] [] lost 0 0).
Proof.
  intros Hok Hans Hacc. destruct (push_any r c Hok) as (Hok' & lost & Hp & Hd). exists lost. split_and!; [done|done|].
  intros Hm. split; simpl; try done.
  - apply cfg_push.
  - by rewrite app_nil_r.
  - destruct Hans as [Hans|Hans]; [by exists 0%nat|by exists 1%nat].
  - intros (_ & Hf & _). destruct (push_ok r c Hok Hf) as (_ & Hf' & Hs%fifo_step_sublist). by destruct Hs.
Qed.

(** ** Live records *)

(** An action with a cache that makes one request for a record, and resends it unchanged. *)
Record cached_action (ctx : SinkContext) (q : StreamRecord -> Request) (rt : ActionRuntime) (c : SinkCache StreamRecord) : Prop := {
  ca_cache : cache rt = Some c;
  ca_ok : cache_ok c;
  ca_target : target ctx (action rt) = Some q;
  ca_live : batching_opts (action rt) = None;
  ca_copy : indicator_field (cfg c) = None /\ destination (cfg c) = None;
  ca_reported : reported_dropped rt = dropped c;
  ca_buffer : batch_buffer rt = [];
}.

Lemma action_ready rt : action (ready rt) = action rt.
Proof. unfold ready. by case_match. Qed.
Lemma cache_ready rt : cache (ready rt) = cache rt.
Proof. unfold ready. by case_match. Qed.
Lemma reported_ready rt : reported_dropped (ready rt) = reported_dropped rt.
Proof. unfold ready. by case_match. Qed.

Lemma buffer_ready rt : batch_buffer (ready rt) = batch_buffer rt.
Proof. unfold ready. by case_match. Qed.

Lemma cached_action_ready ctx q rt c : cached_action ctx q rt c -> cached_action ctx q (ready rt) c.
Proof. intros [? ? ? ? ? ? ?]. split; by rewrite ?action_ready, ?cache_ready, ?reported_ready, ?buffer_ready. Qed.

(** The record is cached, and what the cache dropped for it is counted. *)
Lemma queue_effect ctx q rt c r w w1 : cached_action ctx q rt c -> 
  accepted w1 = accepted w -> (forall i, answers w1 i = answers w i) \/ (forall i, answers w1 i = answers w (S i)) ->
  moved (counters (dlq_state w)) (counters (dlq_state w1)) 0 0 0 ->
  exists lost, let '(rt', w') := sync_cache_drops (set_cache (Some (push r c)) rt) w1 in
    cached_action ctx q rt' (push r c) /\ effect q c w [r] (push r c) w' [] [] lost 0 0.
Proof.
  intros [Hc Hok Ht Hb Hcopy Hrep Hbuf] Hacc Hans Hm.
  assert (Hle : exists lost : list StreamRecord, dropped (push r c) = dropped c + len lost).
  { destruct (push_any r c Hok) as (_ & lost & _ & Hd). by exists lost. }
  destruct Hle as [l0 Hl0]. pose proof (len_nonneg l0).
  destruct (quiet_sync (set_cache (Some (push r c)) rt) (push r c) w1 eq_refl) as [(Hq1 & Hq2 & Hq3) Hrt]; [simpl; lia|].
  destruct (sync_cache_drops _ w1) as [rt' w'] eqn:Hs. simpl in *. subst rt'.
  destruct (effect_push q r c w w' Hok) as (lost & Hok' & Hd & He); [|by rewrite Hq1|].
  { destruct Hans as [Hans|Hans]; [left|right]; intros i; by rewrite Hq2, Hans. }
  exists lost. split.
  - split; simpl; try done. by rewrite cfg_push.
  - apply He. replace (len lost) with (0 + (dropped (push r c) - reported_dropped rt)) by lia. by eapply (moved_trans _ _ _ 0 0 0 0 0).
Qed.

Lemma answers_request q w i : answers (request q w).2 i = answers w (S i).
Proof. done. Qed.

Lemma accepted_request q w : accepted (request q w).2 = if is_success (answers w 0) then accepted w ++ [q] else accepted w.
Proof. done. Qed.

(** What becomes of a live record. *)
Definition handled (d : Delivery) (r : StreamRecord) (delivered failed : list StreamRecord) : Prop :=
  match d with
  | Delivered => delivered = [r] /\ failed = []
  | Cached => delivered = [] /\ failed = []
  | Failed => delivered = [] /\ failed = [r]
  end.

Lemma report_request e q w : quiet (request q w).2 (report_send_error e (request q w).2) 0 0 0.
Proof. apply quiet_report. Qed.

Lemma sent_effect q c w r : cache_ok c -> is_success (answers w 0) = true ->
  (priority (cfg c) = CacheFirst -> contents c = []) ->
  effect q c w [r] c (request (q r) w).2 [r] [] [] 0 0.
Proof.
  intros Hok Hs Hfirst. split; simpl; try done.
  - by rewrite Hs.
  - by exists 1%nat.
  - rewrite app_nil_r. by rewrite Permutation_app_comm.
  - unfold len. simpl. lia.
  - apply moved_refl.
  - intros (Hp & Hf & _). split; [done|]. by rewrite (Hfirst Hp).
Qed.

Lemma failed_effect q c w w' r : cache_ok c -> lasting (answers w 0) = true -> accepted w' = accepted w ->
  (forall i, answers w' i = answers w (S i)) -> moved (counters (dlq_state w)) (counters (dlq_state w')) 0 0 0 ->
  effect q c w [r] c w' [] [r] [] 0 0.
Proof.
  intros Hok Hl Hacc Hans Hm. split; simpl; try done.
  - by rewrite app_nil_r.
  - by exists 1%nat.
  - rewrite app_nil_r. by rewrite Permutation_cons_append.
  - unfold len. simpl. lia.
  - intros Hno. by rewrite Hno in Hl.
  - intros (_ & _ & Hno). by rewrite Hno in Hl.
Qed.

Lemma send_live_effect ctx q rt c r files w : cached_action ctx q rt c -> plain r ->
  (priority (cfg c) = CacheFirst -> contents c = []) ->
  exists d rt' c' w' del failed lost, send_live rt r ctx files w = (d, rt', files, w') /\ cached_action ctx q rt' c' /\
    effect q c w [r] c' w' del failed lost 0 0 /\ handled d r del failed.
Proof.
  intros Hca Hp Hfirst. unfold send_live.
  destruct (send_action_target ctx rt q r files w (ca_target _ _ _ _ Hca) Hp) as (e & -> & Ho).
  pose proof (cached_action_ready _ _ _ _ Hca) as Hca'. pose proof (ca_cache _ _ _ _ Hca') as Hcache.
  set (w1 := (request (q r) w).2).
  assert (Hcached : forall err, is_success (answers w 0) = false -> exists rt' c' w' del failed lost,
    sync_cache_drops (set_cache (Some (push r c)) (ready rt)) (report_send_error err w1) = (rt', w') /\ cached_action ctx q rt' c' /\
    effect q c w [r] c' w' del failed lost 0 0 /\ handled Cached r del failed).
  { intros err Hs. destruct (report_request err (q r) w) as (Hq1 & Hq2 & Hq3). fold w1 in Hq1, Hq2, Hq3.
    assert (Hacc : accepted w1 = accepted w) by (unfold w1; by rewrite accepted_request, Hs).
    destruct (queue_effect ctx q (ready rt) c r w (report_send_error err w1)) as [lost Hq]; [done|by rewrite Hq1| |done|].
    { right. intros i. by rewrite Hq2. }
    destruct (sync_cache_drops _ _) as [rt' w'] eqn:Hs'. destruct Hq as [Hq Hq'].
    exists rt', (push r c), w', [], [], lost. by split_and!. }
  assert (Hfail : forall err, is_success (answers w 0) = false -> lasting (answers w 0) = true ->
    effect q c w [r] c (route_failure (ready rt) r err ctx (report_send_error err w1)) [] [r] [] 0 0).
  { intros err Hs Hl. destruct (report_request err (q r) w) as (Hq1 & Hq2 & Hq3). fold w1 in Hq1, Hq2, Hq3.
    destruct (quiet_route (ready rt) r err ctx (report_send_error err w1)) as (Hr1 & Hr2 & Hr3).
    apply failed_effect; [by destruct Hca|done| | |].
    - rewrite Hr1, Hq1. unfold w1. by rewrite accepted_request, Hs.
    - intros i. rewrite Hr2. unfold w1. by rewrite Hq2.
    - by eapply (moved_trans _ _ _ 0 0 0 0 0 0). }
  destruct e as [[m|m|]|]; simpl in Ho; [| |done|].
  - unfold after_failure. rewrite Hcache. destruct (Hcached (Retry m) Ho) as (rt' & c' & w' & del & failed & lost & Hs & Hx).
    fold w1. rewrite Hs. by exists Cached, rt', c', w', del, failed, lost.
  - destruct Ho as [Hs Hl]. unfold after_failure. fold w1.
    exists Failed, (ready rt), c, (route_failure (ready rt) r (Permanent m) ctx (report_send_error (Permanent m) w1)), [], [r], [].
    split_and!; [done|done|by apply Hfail|done].
  - exists Delivered, (ready rt), c, w1, [r], [], []. split_and!; [done|done| |done].
    apply sent_effect; [by destruct Hca|done|done].
Qed.

Lemma deliver_one_effect ctx q rt c r files w : cached_action ctx q rt c -> plain r ->
  exists d rt' c' w' del failed lost, deliver_one rt r ctx files w = (d, rt', files, w') /\ cached_action ctx q rt' c' /\
    effect q c w [r] c' w' del failed lost 0 0 /\ handled d r del failed.
Proof.
  intros Hca Hp. unfold deliver_one. rewrite (ca_cache _ _ _ _ Hca). unfold deliver_now. rewrite (ca_live _ _ _ _ Hca).
  rewrite (is_empty_contents c (ca_ok _ _ _ _ Hca)).
  destruct (bool_decide (priority (cfg c) = CacheFirst) && negb (bool_decide (contents c = []))) eqn:Hfirst.
  - destruct (queue_effect ctx q rt c r w w Hca) as [lost Hq]; [done|by left|apply moved_refl|].
    destruct (sync_cache_drops _ w) as [rt' w']. destruct Hq as [Hq1 Hq2].
    exists Cached, rt', (push r c), w', [], [], lost. by split_and!.
  - apply send_live_effect; [done|done|]. intros Hprio. rewrite bool_decide_eq_true_2 in Hfirst by done. simpl in Hfirst.
    apply negb_false_iff, bool_decide_eq_true in Hfirst. done.
Qed.

(** ** Cached records *)

Lemma effect_plain q c w new c' w' del failed lost o f : effect q c w new c' w' del failed lost o f ->
  Forall plain (contents c) -> Forall plain new -> Forall plain (contents c').
Proof.
  intros He Hc Hn. pose proof (eff_perm _ _ _ _ _ _ _ _ _ _ _ He) as Hp.
  assert (Hall : Forall plain (contents c ++ new)) by (apply Forall_app; by split).
  rewrite <- Hp in Hall. apply Forall_app in Hall as [Hall _]. apply Forall_app in Hall as [_ Hall].
  by apply Forall_app in Hall as [_ Hall].
Qed.

(** A step that takes the oldest records out of the cache. *)
Lemma effect_take q c w c' w' del failed k f : cfg c' = cfg c -> contents c = del ++ failed ++ contents c' ->
  dropped c' = dropped c -> write_faults (fs c') = write_faults (fs c) -> accepted w' = accepted w ++ map q del ->
  (forall i, answers w' i = answers w (k + i)%nat) -> moved (counters (dlq_state w)) (counters (dlq_state w')) 0 f 0 ->
  (failed <> [] -> lasting (answers w 0) = true) -> effect q c w [] c' w' del failed [] 0 f.
Proof.
  intros Hcfg Hc Hd Hf Hacc Hans Hm Hl.
  assert (Hnone : (forall i, lasting (answers w i) = false) -> failed = []).
  { intros Hno. destruct failed; [done|]. rewrite Hno in Hl. by specialize (Hl ltac:(done)). }
  split; try done.
  - by exists k.
  - by rewrite !app_nil_r, Hc.
  - unfold len. simpl. lia.
  - intros (_ & Hw & Hno). split; [by rewrite Hf|]. rewrite app_nil_r, Hc, (Hnone Hno). done.
Qed.

Lemma resend_record_id cf (r : StreamRecord) : indicator_field cf = None -> resend_record cf r = r.
Proof. intros Hi. unfold resend_record, resend_copy. rewrite Hi. by destruct r. Qed.

Lemma cached_action_cache ctx q rt c c' : cached_action ctx q rt c -> cache_ok c' -> cfg c' = cfg c -> dropped c' = dropped c ->
  cached_action ctx q (set_cache (Some c') rt) c'.
Proof. intros [? ? ? ? ? ? ?] Hok Hcfg Hd. split; simpl; congruence. Qed.

Lemma cached_action_retry ctx q rt c t : cached_action ctx q rt c -> cached_action ctx q (set_retry_at t rt) c.
Proof. intros [? ? ? ? ? ? ?]. by split. Qed.

(** What the loop leaves: records have been delivered or refused, oldest first. *)
Definition resent (ctx : SinkContext) (q : StreamRecord -> Request) (c : SinkCache StreamRecord) (files : Files) (w : World) (n : Z)
    (x : option (Z * ActionRuntime * Files * World)) : Prop :=
  exists rt' c' w' del failed, x = Some (n + len del, rt', files, w') /\ cached_action ctx q rt' c' /\
    effect q c w [] c' w' del failed [] 0 (len failed).

Lemma resent_after ctx q c w c1 w1 files n del failed x : effect q c w [] c1 w1 del failed [] 0 (len failed) ->
  resent ctx q c1 files w1 (n + len del) x -> resent ctx q c files w n x.
Proof.
  intros He (rt' & c' & w' & del' & failed' & -> & Hca & He').
  exists rt', c', w', (del ++ del'), (failed ++ failed'). split; [by rewrite len_app, Z.add_assoc|]. split; [done|].
  rewrite len_app. by eapply (step_trans _ _ _ [] _ _ _ _ [] 0 _ [] _ _ _ _ [] 0).
Qed.

Lemma resent_stop ctx q rt c files w n : cached_action ctx q rt c -> resent ctx q c files w n (Some (n, rt, files, w)).
Proof.
  intros Hca. exists rt, c, w, [], []. change (len []) with 0. rewrite Z.add_0_r. split_and!; [done|done|apply step_refl].
Qed.

Lemma effect_after q c w c1 w1 c' w' del failed f : effect q c w [] c1 w1 [] [] [] 0 0 -> effect q c1 w1 [] c' w' del failed [] 0 f ->
  effect q c w [] c' w' del failed [] 0 f.
Proof. intros He1 He2. pose proof (step_trans _ _ _ _ _ _ _ _ _ _ _ _ _ _ _ _ _ _ _ He1 He2) as He. exact He. Qed.

Lemma effect_quiet q c w w' f : quiet w w' 0 f 0 -> effect q c w [] c w' [] [] [] 0 f.
Proof.
  intros (Hq1 & Hq2 & Hq3). apply (effect_take _ _ _ _ _ _ _ 0); try done. by rewrite Hq1, app_nil_r.
Qed.

(** Looking at the oldest record and reading the clock. *)
Lemma effect_look q c w : cache_ok c -> effect q c w [] (front c).2 (read_clock w).2 [] [] [] 0 0.
Proof.
  intros Hok. destruct (front_ok c Hok) as (_ & Habs & Hf & _). unfold abs in Habs. injection Habs as Hc Hd.
  apply (effect_take _ _ _ _ _ _ _ 0); simpl; try done; [apply cfg_refill|by rewrite app_nil_r|apply moved_refl].
Qed.

Section request_effects.
Context (q : StreamRecord -> Request) (c : SinkCache StreamRecord) (w : World) (r : StreamRecord) (rest : list StreamRecord).
Context (Hok : cache_ok c) (Hc : contents c = r :: rest).

Lemma effect_resent : is_success (answers w 0) = true ->
  effect q c w [] (pop_front c).2 (request (q r) w).2 [r] [] [] 0 0.
Proof.
  intros Hs. destruct (pop_front_contents c r rest Hok Hc) as (_ & Hc' & Hd & Hf).
  apply (effect_take _ _ _ _ _ _ _ 1); try done; [apply cfg_pop_front|by rewrite Hc, Hc'|by rewrite accepted_request, Hs|apply moved_refl].
Qed.

Lemma effect_refused w' : lasting (answers w 0) = true -> is_success (answers w 0) = false ->
  quiet (request (q r) w).2 w' 0 1 0 -> effect q c w [] (pop_front c).2 w' [] [r] [] 0 1.
Proof.
  intros Hl Hs (Hq1 & Hq2 & Hq3). destruct (pop_front_contents c r rest Hok Hc) as (_ & Hc' & Hd & Hf).
  apply (effect_take _ _ _ _ _ _ _ 1); try done; [apply cfg_pop_front|by rewrite Hc, Hc'|].
  rewrite Hq1, accepted_request, Hs. by rewrite app_nil_r.
Qed.

Lemma effect_postponed w' : is_success (answers w 0) = false -> quiet (request (q r) w).2 w' 0 0 0 ->
  effect q c w [] c w' [] [] [] 0 0.
Proof.
  intros Hs (Hq1 & Hq2 & Hq3). apply (effect_take _ _ _ _ _ _ _ 1); try done.
  rewrite Hq1, accepted_request, Hs. by rewrite app_nil_r.
Qed.
End request_effects.

(** One turn of the loop, on a cache that holds a record. *)
Lemma resend_turn ctx q rt c r rest fuel n files w : cached_action ctx q rt c -> contents c = r :: rest -> plain r ->
  RESEND_BATCH_MAX > n -> retry_at rt <= clock w 0 ->
  exists rt1 c1 w1 del failed, cached_action ctx q rt1 c1 /\ effect q c w [] c1 w1 del failed [] 0 (len failed) /\
    (resend_loop (S fuel) n (cfg c) rt ctx files w = Some (n + len del, rt1, files, w1) \/
     contents c1 = rest /\ cfg c1 = cfg c /\ resend_loop (S fuel) n (cfg c) rt ctx files w
       = resend_loop fuel (n + len del) (cfg c) rt1 ctx files w1).
Proof.
  intros Hca Hc Hp Hn Hr. destruct (ca_copy _ _ _ _ Hca) as [Hi Hdest]. pose proof (ca_ok _ _ _ _ Hca) as Hok.
  cbn [resend_loop]. destruct (Z.leb_spec RESEND_BATCH_MAX n); [lia|]. cbn [read_clock].
  destruct (Z.ltb_spec (clock w 0) (retry_at rt)); [lia|]. rewrite (ca_cache _ _ _ _ Hca).
  pose proof (effect_look q c w Hok) as Hlook. destruct (front_ok c Hok) as (Hok1 & Habs & Hf1 & Hhead).
  pose proof (f_equal fst Habs : contents (front c).2 = contents c) as Hcon.
  pose proof (f_equal snd Habs : dropped (front c).2 = dropped c) as Hdrop. pose proof (cfg_refill c : cfg (front c).2 = cfg c) as Hcfg.
  destruct (front c) as [o c1]. simpl in Hok1, Hcon, Hdrop, Hf1, Hhead, Hcfg, Hlook. rewrite Hc in Hcon, Hhead. simpl in Hhead. subst o.
  rewrite (resend_record_id _ _ Hi), Hdest.
  set (w0 := mkWorld _ _ _ _ _) in *. set (rt1 := set_cache (Some c1) rt).
  assert (Hca1 : cached_action ctx q rt1 c1) by (by eapply cached_action_cache).
  destruct (send_action_target ctx rt1 q r files w0 (ca_target _ _ _ _ Hca1) Hp) as (e & -> & Ho).
  pose proof (cached_action_ready _ _ _ _ Hca1) as Hca2. 
  assert (Hpop : cached_action ctx q (set_cache (Some (pop_front c1).2) (ready rt1)) (pop_front c1).2).
  { destruct (pop_front_contents c1 r rest Hok1 Hcon) as (Hok2 & _ & Hd2 & _).
    eapply cached_action_cache; [done|done|by rewrite cfg_pop_front|by rewrite Hd2]. }
  destruct (pop_front_contents c1 r rest Hok1 Hcon) as (Hok2 & Hc2 & Hd2 & Hf2).
  assert (Hcfg2 : cfg (pop_front c1).2 = cfg c) by (by rewrite cfg_pop_front).
  destruct e as [[m|m|]|]; simpl in Ho; [| |done|].
  - do 2 eexists. exists (report_send_error (Retry m) (request (q r) w0).2), [], []. split_and!.
    + apply cached_action_retry, Hca2.
    + eapply effect_after; [exact Hlook|]. eapply effect_postponed; [done|apply report_request].
    + left. change (len []) with 0. by rewrite Z.add_0_r.
  - destruct Ho as [Hs Hl]. do 3 eexists. exists [], [r]. split_and!; [exact Hpop| |].
    + eapply effect_after; [exact Hlook|]. eapply effect_refused; [done|done|done|done|].
      eapply (quiet_trans _ _ _ 0 1 0 0 0 0); [|apply quiet_route].
      eapply (quiet_trans _ _ _ 0 0 0 0 1 0); [apply report_request|apply quiet_count, moved_sink_failed].
    + right. change (len []) with 0. rewrite Z.add_0_r. by split_and!.
  - set (rt2 := if resend_interval (cfg c) =? 0 then _ else _). exists rt2. do 2 eexists. exists [r], []. split_and!.
    + instantiate (1 := (pop_front c1).2). unfold rt2. case_match; [exact Hpop|by apply cached_action_retry].
    + eapply effect_after; [exact Hlook|by eapply effect_resent].
    + right. by split_and!.
Qed.

(** The fuel is enough: every turn that does not end the loop takes a record out. *)
Lemma resend_loop_effect ctx q files fuel : forall n rt c w, cached_action ctx q rt c -> Forall plain (contents c) ->
  (length (contents c) <= fuel)%nat -> resent ctx q c files w n (resend_loop fuel n (cfg c) rt ctx files w).
Proof.
  induction fuel as [fuel IH] using lt_wf_ind. intros n rt c w Hca Hplain Hfuel.
  pose proof (ca_ok _ _ _ _ Hca) as Hok.
  assert (Hstop : resent ctx q c files w n (Some (n, rt, files, (read_clock w).2))).
  { eapply (resent_after _ _ _ _ c _ _ _ [] []); [|rewrite Z.add_0_r; by apply resent_stop].
    apply effect_quiet, quiet_clock. }
  destruct (Z.leb_spec RESEND_BATCH_MAX n) as [Hmax|Hmax].
  { destruct fuel; cbn [resend_loop]; rewrite (proj2 (Z.leb_le _ _) Hmax); by apply resent_stop. }
  destruct (Z.ltb_spec (clock w 0) (retry_at rt)) as [Hlt|Hge].
  { destruct fuel; cbn [resend_loop]; rewrite (proj2 (Z.leb_gt _ _) Hmax); cbn [read_clock]; by rewrite (proj2 (Z.ltb_lt _ _) Hlt). }
  destruct (contents c) as [|r rest] eqn:Hc.
  - pose proof (effect_look q c w Hok) as Hlook. destruct (front_ok c Hok) as (Hok1 & Habs & _ & Hhead). rewrite Hc in Hhead.
    pose proof (f_equal snd Habs : dropped (front c).2 = dropped c) as Hdrop. pose proof (cfg_refill c : cfg (front c).2 = cfg c) as Hcfg.
    assert (Hend : resend_loop fuel n (cfg c) rt ctx files w = Some (n, set_cache (Some (front c).2) rt, files, (read_clock w).2)).
    { destruct fuel; cbn [resend_loop]; rewrite (proj2 (Z.leb_gt _ _) Hmax); cbn [read_clock];
        rewrite (proj2 (Z.ltb_ge _ _) Hge), (ca_cache _ _ _ _ Hca); destruct (front c); simpl in *; by subst. }
    rewrite Hend. eapply (resent_after _ _ _ _ (front c).2 _ _ _ [] []); [exact Hlook|]. rewrite Z.add_0_r. apply resent_stop.
    by eapply cached_action_cache.
  - destruct fuel as [|fuel]; [simpl in Hfuel; lia|]. apply list.Forall_cons in Hplain as [Hp Hplain].
    destruct (resend_turn ctx q rt c r rest fuel n files w Hca Hc Hp) as (rt1 & c1 & w1 & del & failed & Hca1 & He & [-> |(Hc1 & Hcfg & ->)]);
      [lia|done| |].
    + eapply (resent_after _ _ _ _ c1 _ _ _ del failed); [done|]. by apply resent_stop.
    + eapply (resent_after _ _ _ _ c1 _ _ _ del failed); [done|]. rewrite <- Hcfg. apply IH; [lia|done|by rewrite Hc1|].
      rewrite Hc1. simpl in Hfuel. lia.
Qed.

Lemma resend_cached_effect ctx q rt c recent files w : cached_action ctx q rt c -> Forall plain (contents c) ->
  resent ctx q c files w 0 (resend_cached rt recent ctx files w).
Proof.
  intros Hca Hplain. unfold resend_cached. rewrite (ca_cache _ _ _ _ Hca). destruct (_ || _); [by apply resent_stop|].
  apply resend_loop_effect; [done|done|]. rewrite <- (contents_len c (ok_disk c (ca_ok _ _ _ _ Hca))). unfold len. by rewrite Nat2Z.id.
Qed.

(** ** Batches *)

Lemma send_action_buffer rt output dest ctx files w e rt' files' w' :
  send_action rt output dest ctx files w = (e, rt', files', w') -> batch_buffer rt' = batch_buffer rt.
Proof. unfold send_action, without_files. intros Hs. by repeat case_match; simplify_eq. Qed.

Lemma sync_buffer rt w : batch_buffer (sync_cache_drops rt w).1 = batch_buffer rt.
Proof. unfold sync_cache_drops. by repeat case_match. Qed.

Lemma send_live_buffer rt record ctx files w d rt' files' w' :
  send_live rt record ctx files w = (d, rt', files', w') -> batch_buffer rt' = batch_buffer rt.
Proof.
  unfold send_live. destruct (send_action rt record None ctx files w) as [[[e rt1] files1] w1] eqn:Hs. intros Hl.
  apply send_action_buffer in Hs. rewrite <- Hs. destruct e as [err|]; [|by simplify_eq]. unfold after_failure in Hl.
  destruct err, (cache rt1) as [c|]; simplify_eq; try done.
  pose proof (sync_buffer (set_cache (Some (push record c)) rt1) (report_send_error (Retry m) w1)) as Hb.
  destruct (sync_cache_drops _ _) as [rt2 w2]. by simplify_eq.
Qed.

(** The turns allowed to the loop of a batching action are enough: what is left in its
    buffer is not a full batch. *)
Lemma send_batches_enough fuel : forall size rt ctx files w d rt' files' w', 0 < size -> (length (batch_buffer rt) <= fuel)%nat ->
  send_batches fuel size rt ctx files w = (d, rt', files', w') -> len (batch_buffer rt') < size.
Proof.
  induction fuel as [|fuel IH]; intros size rt ctx files w d rt' files' w' Hsize Hf Hrun.
  { simpl in Hrun. simplify_eq. unfold len. lia. }
  cbn [send_batches] in Hrun. rewrite (proj2 (Z.ltb_lt _ _) Hsize) in Hrun. cbn [andb] in Hrun.
  destruct (Z.leb_spec size (len (batch_buffer rt))) as [Hle|Hlt]; [|by simplify_eq].
  cbn [read_clock batch_record] in Hrun.
  destruct (send_live _ _ _ _ _) as [[[d1 rt1] files1] w1] eqn:Hl. apply send_live_buffer in Hl. simpl in Hl.
  destruct (send_batches fuel size rt1 ctx files1 w1) as [[[d2 rt2] files2] w2] eqn:Hr. simplify_eq.
  eapply IH; [done| |exact Hr]. rewrite Hl, length_drop. unfold len in Hle. lia.
Qed.
End facts.
