(* ===== verification/SinkWorkerFacts.v ===== *)
(** * The sink worker neither loses nor reorders records

    For a rule with one action that has an offline cache and makes one request for a record:
    whatever the network answers and whenever the worker runs, every record it has taken
    from its queue has been accepted by the destination, is in the cache, or is counted. *)

From S2P Require Import Prelude StreamBus Rust Json Counters Dlq Ast Engine Values Objects SinkCache SinkCacheFacts RecordLines SinkFormat FileSink Delivery SinkWorker DeliveryFacts.

Set Default Goal Selector "!".
#[local] Set Warnings "-clear-no-such-hyp".

Definition arrivals (events : list Event) : list StreamRecord :=
  flat_map (fun e => match e with Arrive rs => rs | _ => [] end) events.

Section facts.
Context `{Text} `{Templates} `{Net} `{LineCodecOk StreamRecord} (ctx : SinkContext) (q : StreamRecord -> Request).

(** A worker with one such action and nothing to write to files. *)
Record steady (s : Worker) (rt : ActionRuntime) (c : SinkCache StreamRecord) : Prop := {
  st_runtimes : runtimes s = [rt];
  st_action : cached_action ctx q rt c;
  st_plain : Forall plain (contents c);
  st_writers : writers s = ∅;
  st_pending : pending_file_records s = 0;
}.

(** The worker has taken the records [new], and counted what became of them. *)
Definition progressed (s : Worker) (c : SinkCache StreamRecord) (new : list StreamRecord) (s' : Worker) : Prop :=
  exists rt' c' del failed lost, steady s' rt' c' /\
    effect q c (world s) new c' (world s') del failed lost (len del) (len failed).

Lemma progressed_refl s rt c : steady s rt c -> progressed s c [] s.
Proof. intros Hs. exists rt, c, [], [], []. split; [done|apply step_refl]. Qed.

Lemma effect_quiet_after c w new c' w' w'' del failed lost o f o2 f2 :
  effect q c w new c' w' del failed lost o f -> quiet w' w'' o2 f2 0 -> effect q c w new c' w'' del failed lost (o + o2) (f + f2).
Proof.
  intros [Hcfg Hacc [k Hk] Hp Hd Hf Hm Ho] (Hq1 & Hq2 & Hq3). split; try done.
  - by rewrite Hq1.
  - exists k. intros i. by rewrite Hq2.
  - rewrite <- (Z.add_0_r (len lost)). by eapply moved_trans.
Qed.

Lemma target_not_file a : target ctx a = Some q -> is_file a = false /\ is_nop a = false.
Proof. by destruct a. Qed.

Lemma process_output_progress s rt c r : steady s rt c -> plain r ->
  progressed s c [r] (process_output ctx s r) /\ queue (process_output ctx s r) = queue s.
Proof.
  intros [Hrt Hca Hplain Hw Hpend] Hp. destruct (target_not_file _ (ca_target _ _ _ _ Hca)) as [Hfile Hnop].
  unfold process_output. rewrite Hrt. unfold all_nop. cbn [forallb]. rewrite Hnop. cbn [andb deliver_record].
  destruct (deliver_one_effect ctx q rt c r (writers s) (world s) Hca Hp) as (d & rt' & c' & w' & del & failed & lost & -> & Hca' & He & Hd).
  assert (Hn : num_records r = 1) by (unfold num_records; by rewrite Hp). rewrite Hn.
  assert (Hplain' : Forall plain (contents c')) by (eapply effect_plain; [exact He|done|by repeat constructor]).
  assert (Hfile' : is_file (action rt') = false) by (by destruct (target_not_file _ (ca_target _ _ _ _ Hca'))).
  assert (Hgo : forall w'' o f, quiet w' w'' o f 0 -> o = len del -> f = len failed ->
    progressed s c [r] (mkWorker [rt'] (writers s) w'' (pending_file_records s) (last_live s) (queue s))).
  { intros w'' o f Hq -> ->. exists rt', c', del, failed, lost. split; [by split|].
    apply (effect_quiet_after _ _ _ _ _ w'' _ _ _ _ _ _ _ He Hq). }
  destruct d; destruct Hd as [-> ->]; simpl delivery_max; cbv iota.
  - unfold count_delivered, file_actions. cbn [existsb runtimes]. rewrite Hfile'. split; [|done].
    apply (Hgo _ 1 0); [apply quiet_count, moved_sink_out|done|done].
  - split; [|done]. apply (Hgo _ 0 0); [apply quiet_refl|done|done].
  - split; [|done]. apply (Hgo _ 0 1); [apply quiet_count, moved_sink_failed|done|done].
Qed.

Lemma progressed_trans s c n1 s1 n2 s2 : progressed s c n1 s1 ->
  (forall rt1 c1, steady s1 rt1 c1 -> progressed s1 c1 n2 s2) -> progressed s c (n1 ++ n2) s2.
Proof.
  intros (rt1 & c1 & del & failed & lost & Hs1 & He1) Hn. destruct (Hn rt1 c1 Hs1) as (rt2 & c2 & del2 & failed2 & lost2 & Hs2 & He2).
  exists rt2, c2, (del ++ del2), (failed ++ failed2), (lost ++ lost2). split; [done|]. rewrite !len_app. by eapply step_trans.
Qed.

Lemma process_all_progress rs : forall s rt c, steady s rt c -> Forall plain rs ->
  progressed s c rs (foldl (process_output ctx) s rs) /\ queue (foldl (process_output ctx) s rs) = queue s.
Proof.
  induction rs as [|r rs IH]; intros s rt c Hs Hp; [split; [by eapply progressed_refl|done]|].
  apply list.Forall_cons in Hp as [Hp Hps]. destruct (process_output_progress s rt c r Hs Hp) as [Hr Hq]. cbn [foldl].
  split.
  - change (r :: rs) with ([r] ++ rs). eapply progressed_trans; [exact Hr|]. intros rt1 c1 Hs1. by eapply IH.
  - destruct Hr as (rt1 & c1 & _ & _ & _ & Hs1 & _). destruct (IH _ rt1 c1 Hs1 Hps) as [_ ->]. done.
Qed.

Lemma steady_quiet s rt c w' live qs : steady s rt c -> quiet (world s) w' 0 0 0 ->
  progressed s c [] (mkWorker (runtimes s) (writers s) w' (pending_file_records s) live qs).
Proof. intros [Hrt Hca Hp Hw Hpend] Hq. exists rt, c, [], [], []. split; [by split|]. by apply effect_quiet. Qed.

Lemma poll_progress s rt c : steady s rt c -> Forall plain (queue s) ->
  progressed s c (take DRAIN_MAX (queue s)) (poll ctx s) /\ queue (poll ctx s) = drop DRAIN_MAX (queue s).
Proof.
  intros Hs Hp. unfold poll. destruct (queue s) as [|r0 rs0] eqn:Hqs; [split; [by eapply progressed_refl|done]|].
  rewrite <- Hqs in *. cbn [read_clock]. set (s1 := mkWorker _ _ _ _ _ _).
  assert (Hs1 : progressed s c [] s1) by (eapply steady_quiet; [done|apply quiet_clock]).
  assert (Hall : forall rt1 c1, steady s1 rt1 c1 -> progressed s1 c1 (take DRAIN_MAX (queue s)) (foldl (process_output ctx) s1 (take DRAIN_MAX (queue s)))
    /\ queue (foldl (process_output ctx) s1 (take DRAIN_MAX (queue s))) = queue s1).
  { intros rt1 c1 Hs1'. eapply process_all_progress; [done|by apply Forall_take]. }
  assert (Hfin : progressed s c (take DRAIN_MAX (queue s)) (foldl (process_output ctx) s1 (take DRAIN_MAX (queue s)))).
  { change (take DRAIN_MAX (queue s)) with ([] ++ take DRAIN_MAX (queue s)) at 1. eapply progressed_trans; [exact Hs1|].
    intros rt1 c1 Hs1'. by apply (Hall rt1 c1). }
  assert (Hw : writers (foldl (process_output ctx) s1 (take DRAIN_MAX (queue s))) = ∅) by (by destruct Hfin as (? & ? & ? & ? & ? & [] & _)).
  cbv zeta. destruct (existsb _ (map_to_list _)) eqn:Hex; [by rewrite Hw in Hex|]. split; [done|].
  destruct Hs1 as (rt1 & c1 & _ & _ & _ & Hs1' & _). destruct (Hall rt1 c1 Hs1') as [_ ->]. done.
Qed.

Lemma linger_none now rt files w : batching_opts (action rt) = None -> linger ctx now rt files w = (rt, files, w).
Proof.
  unfold batching_opts, linger. destruct (common_opts (action rt)) as [o|]; simpl; [|done].
  destruct (0 <? batch_size o); [done|]. by destruct (0 <? linger_interval o).
Qed.

Lemma tick_progress s rt c : steady s rt c -> exists s', tick ctx s = Some s' /\ progressed s c [] s' /\ queue s' = queue s.
Proof.
  intros [Hrt Hca Hp Hw Hpend]. unfold tick. rewrite Hw. unfold flush_files. rewrite map_to_list_empty. cbn [fmap list_fmap flush_each].
  cbn -[resend_cached]. rewrite Hrt. cbn -[resend_cached]. rewrite linger_none by apply (ca_live _ _ _ _ Hca).
  cbn -[resend_cached]. rewrite Hpend.
  match goal with |- context [resend_cached ?rt' ?recent _ _ ?w'] =>
    destruct (resend_cached_effect ctx q rt c recent ∅ w' Hca Hp) as (rt1 & c1 & w1 & del & failed & -> & Hca1 & He); set (w0 := w') in * end.
  cbn -[count_delivered]. eexists. split; [reflexivity|].
  assert (Hq : quiet (world s) w0 0 0 0).
  { split_and!; [done|done|]. simpl. apply moved_sink_out. }
  assert (Hplain : Forall plain (contents c1)) by (eapply effect_plain; [exact He|done|constructor]).
  assert (Hfile : is_file (action rt1) = false) by (by destruct (target_not_file _ (ca_target _ _ _ _ Hca1))).
  assert (He' : effect q c (world s) [] c1 w1 del failed [] 0 (len failed)).
  { eapply effect_after; [by apply effect_quiet|exact He]. }
  rewrite Z.add_0_l. destruct (Z.ltb_spec 0 (len del)) as [Hpos|Hzero]; (split; [|by unfold count_delivered, file_actions; cbn [existsb runtimes]; rewrite ?Hfile]).
  - unfold count_delivered, file_actions. cbn [existsb runtimes]. rewrite Hfile. exists rt1, c1, del, failed, []. split; [by split|].
    pose proof (effect_quiet_after _ _ _ _ _ _ _ _ _ _ _ _ _ He' (quiet_count _ _ _ _ _ (moved_sink_out (len del) _))) as Hx.
    rewrite Z.add_0_r in Hx. exact Hx.
  - exists rt1, c1, del, failed, []. split; [by split|]. apply len_nil in Hzero as ->. exact He'.
Qed.

(** ** Runs *)

Lemma run_events events : forall s rt c, steady s rt c -> Forall plain (queue s ++ arrivals events) ->
  exists s' taken, foldl (fun s e => s ≫= fun s => step ctx s e) (Some s) events = Some s' /\ progressed s c taken s' /\
    taken ++ queue s' = queue s ++ arrivals events.
Proof.
  induction events as [|e events IH]; intros s rt c Hs Hp.
  { exists s, []. simpl. rewrite app_nil_r. split_and!; [done|by eapply progressed_refl|done]. }
  assert (Hstep : exists s1 taken, step ctx s e = Some s1 /\ progressed s c taken s1 /\
    taken ++ queue s1 = queue s ++ (match e with Arrive rs => rs | _ => [] end)).
  { destruct e as [rs| |]; simpl.
    - exists (mkWorker (runtimes s) (writers s) (world s) (pending_file_records s) (last_live s) (queue s ++ rs)), [].
      split_and!; [done| |done]. by apply (steady_quiet s rt c (world s)), quiet_refl.
    - apply Forall_app in Hp as [Hp _]. destruct (poll_progress s rt c Hs Hp) as [Hpr Hq].
      exists (poll ctx s), (take DRAIN_MAX (queue s)). rewrite app_nil_r. split_and!; [done|done|]. rewrite Hq. apply take_drop.
    - destruct (tick_progress s rt c Hs) as (s' & -> & Hpr & Hq). exists s', []. rewrite app_nil_r. by split_and!. }
  destruct Hstep as (s1 & taken & Hstep & Hpr & Hq). cbn [foldl mbind option_bind]. rewrite Hstep.
  destruct Hpr as (rt1 & c1 & Hrest). destruct Hrest as (del & failed & lost & Hs1 & He).
  assert (Hq1 : queue s ++ arrivals (e :: events) = taken ++ queue s1 ++ arrivals events).
  { unfold arrivals. simpl. fold (arrivals events). by rewrite app_assoc, <- Hq, <- app_assoc. }
  destruct (IH s1 rt1 c1 Hs1) as (s' & taken' & Hrun & Hpr' & Hq').
  { rewrite Hq1 in Hp. by apply Forall_app in Hp as [_ Hp]. }
  exists s', (taken ++ taken'). split; [exact Hrun|]. split.
  - destruct Hpr' as (rt2 & c2 & del2 & failed2 & lost2 & Hs2 & He2).
    exists rt2, c2, (del ++ del2), (failed ++ failed2), (lost ++ lost2). split; [done|]. rewrite !len_app. by eapply step_trans.
  - by rewrite Hq1, <- Hq', app_assoc.
Qed.

(** Once the queue is closed, it is drained. *)
Lemma drain_progress fuel : forall s rt c, steady s rt c -> Forall plain (queue s) -> (length (queue s) <= fuel)%nat ->
  progressed s c (queue s) (drain ctx fuel s).
Proof.
  induction fuel as [|fuel IH]; intros s rt c Hs Hp Hf.
  { destruct (queue s) eqn:Hq; [|simpl in Hf; lia]. simpl. by eapply progressed_refl. }
  cbn [drain]. destruct (queue s) as [|r0 rs0] eqn:Hq; [by eapply progressed_refl|]. rewrite <- Hq in *.
  destruct (poll_progress s rt c Hs Hp) as [Hpr Hqs]. rewrite <- (take_drop DRAIN_MAX (queue s)) at 1. eapply progressed_trans; [exact Hpr|].
  intros rt1 c1 Hs1. rewrite <- Hqs. eapply IH; [done|rewrite Hqs; by apply Forall_drop|]. rewrite Hqs, length_drop. 
  rewrite Hq in *. unfold DRAIN_MAX. simpl in *. lia.
Qed.

Lemma finish_steady s rt c : steady s rt c -> exists w', finish ctx s = ([Some (close c)], w') /\ quiet (world s) w' 0 0 0.
Proof.
  intros [Hrt Hca Hp Hw Hpend]. unfold finish. rewrite Hrt. cbn [flush_batches]. rewrite (ca_buffer _ _ _ _ Hca), Hw.
  unfold flush_files. rewrite map_to_list_empty. cbn [fmap list_fmap flush_each map]. rewrite (ca_cache _ _ _ _ Hca), Hpend.
  eexists. split; [reflexivity|]. split_and!; [done|done|]. simpl. apply moved_sink_out.
Qed.

Lemma run_worker_progress s rt c events : steady s rt c -> Forall plain (queue s ++ arrivals events) ->
  exists c' w' del failed lost, run_worker ctx s events = Some ([Some (close c')], w') /\ cache_ok c' /\
    effect q c (world s) (queue s ++ arrivals events) c' w' del failed lost (len del) (len failed).
Proof.
  intros Hs Hp. destruct (run_events events s rt c Hs Hp) as (s1 & taken & Hrun & Hpr & Hq).
  unfold run_worker. rewrite Hrun. cbn [mbind option_bind].
  destruct Hpr as (rt1 & c1 & del1 & failed1 & lost1 & Hs1 & He1).
  assert (Hp1 : Forall plain (queue s1)) by (rewrite <- Hq in Hp; by apply Forall_app in Hp as [_ Hp]).
  destruct (drain_progress (length (queue s1)) s1 rt1 c1 Hs1 Hp1 (le_n _)) as (rt2 & c2 & del2 & failed2 & lost2 & Hs2 & He2).
  destruct (finish_steady _ rt2 c2 Hs2) as (w' & -> & Hw').
  exists c2, w', (del1 ++ del2), (failed1 ++ failed2), (lost1 ++ lost2). split; [done|].
  split; [apply (ca_ok _ _ _ _ (st_action _ _ _ Hs2))|]. rewrite <- Hq, !len_app.
  pose proof (step_trans _ _ _ _ _ _ _ _ _ _ _ _ _ _ _ _ _ _ _ He1 He2) as He.
  pose proof (effect_quiet_after _ _ _ _ _ _ _ _ _ _ _ _ _ He Hw') as He'. by rewrite !Z.add_0_r in He'.
Qed.

(** ** What a run of the worker promises *)

(** C2. The worker of a rule with exactly one action, which makes one request for a record
    (any network, database or device sink; not a file, memory or nop action, nor REST with private
    addresses refused), with an offline cache that resends records unchanged and without
    batching by size or linger interval, loses no plain record (one that is not a batch of
    rows): when it has run to its end, whatever the network answered, whichever page writes
    failed and whenever it was woken, every record of the cache, of the queue and of the
    arrivals has been accepted by the destination, in one request each, or refused for good,
    or is in the cache that is closed, or was dropped by the cache; and the output, failed
    and dropped counters have counted them.  Outside of this scope records can be lost, see
    [lingering_batch_lost]. *)
Theorem sink_worker_conserves s rt c events : steady s rt c -> Forall plain (queue s ++ arrivals events) ->
  exists c' w' delivered failed lost, run_worker ctx s events = Some ([Some (close c')], w') /\ cache_ok c' /\
    accepted w' = accepted (world s) ++ map q delivered /\
    (delivered ++ failed ++ contents c') ++ lost ≡ₚ contents c ++ queue s ++ arrivals events /\
    moved (counters (dlq_state (world s))) (counters (dlq_state w')) (len delivered) (len failed) (len lost).
Proof.
  intros Hs Hp. destruct (run_worker_progress s rt c events Hs Hp) as (c' & w' & del & failed & lost & Hrun & Hok & He).
  exists c', w', del, failed, lost. destruct He. by split_and!.
Qed.

(** C3. The worker of a rule with exactly one action, which makes one request for a record,
    with an offline cache that resends records unchanged and without batching by size or
    linger interval, keeps the order of arrival of plain records (not batches of rows): with
    cache-first priority, when pages can be written and no refusal is lasting, what the
    destination accepts followed by what remains in the cache is what was cached before,
    then the queue, then the arrivals, without the records the cache had to drop, whose
    number is counted.  With batching, rows are overtaken, see
    [batching_overtakes_buffer]. *)
Theorem sink_worker_keeps_order s rt c events : steady s rt c -> Forall plain (queue s ++ arrivals events) ->
  priority (cfg c) = CacheFirst -> write_faults (fs c) = [] -> (forall i, lasting (answers (world s) i) = false) ->
  exists c' w' delivered, run_worker ctx s events = Some ([Some (close c')], w') /\
    accepted w' = accepted (world s) ++ map q delivered /\
    (delivered ++ contents c') `sublist_of` (contents c ++ queue s ++ arrivals events) /\
    len (contents c) + len (queue s ++ arrivals events) = len delivered + len (contents c') + (dropped c' - dropped c).
Proof.
  intros Hs Hp Hprio Hfaults Hl. destruct (run_worker_progress s rt c events Hs Hp) as (c' & w' & del & failed & lost & Hrun & Hok & He).
  exists c', w', del. destruct He as [Hcfg Hacc _ Hperm Hd Hf _ Ho]. destruct (Ho (conj Hprio (conj Hfaults Hl))) as [_ Hsub].
  split_and!; [done|done|done|]. rewrite (Hf Hl) in Hperm. simpl in Hperm.
  apply Permutation_length in Hperm. rewrite !length_app in Hperm. rewrite Hd. unfold len in *. rewrite !length_app. lia.
Qed.
End facts.

(** ** Samples *)

Module SinkWorkerSample.
#[export] Existing Instance binary_lines.
#[export] Existing Instance binary_lines_ok.
#[export] Instance sample_text : Text := {| value_to_string := fun _ => "json"; map_to_json := fun _ => "json"; parse_rfc3339 := fun _ => None |}.
#[export] Instance sample_templates : Templates := {| apply_data_template := fun s _ => s; apply_data_template_value := fun s _ => s |}.
#[export] Instance sample_net : Net := {|
  status_text := fun _ => "status"; internal_address := fun _ => None; mqtt_config_error := fun _ => None |}.

Definition router : DlqRouter := mkRouter "r1" Drop false 4 false false.
Definition ctx : SinkContext := mkContext true (Some router).
Definition record (k : Z) : StreamRecord := mkRecord k {["k" := value_of_i64 k]}.
Definition rows (ks : list Z) : StreamRecord :=
  mkRecord 0 {[BATCH_ROWS_KEY := VArray (map (fun k => VObject [("k", value_of_i64 k)]) ks)]}.

Definition sink_opts (size linger : Z) : CommonSinkOpts := mkSinkOpts true false None None None None size linger.
Definition cache_config (p : ResendPriority) : CacheConfig := mkCacheConfig 4 100 2 0 false p None None.

(** The first answers, then every request is taken; the clock advances by a second at each
    reading. *)
Definition network (first : list Answer) : World :=
  mkWorld (mkDlqState counters_default [] []) (mkDisk ∅ [] (fun _ => Written)) (fun i => default Taken (first !! i)) []
    (fun i => 1000 * Z.of_nat i).
Definition worker (a : PreparedAction) (c : option CacheConfig) (first : list Answer) : Worker :=
  mkWorker [runtime_new 0 a (option_map fresh c)] ∅ (network first) 0 0 [].
Definition down : Answer := Rejected false "down".

(** The rows of the accepted records of a Kafka action. *)
Definition sent_rows (w : World) : list (list value) :=
  omap (fun q => match q with
    | KafkaSend _ r => Some (default (option_list (data r !! "k")) (batch_rows (data r)))
    | _ => None end) (accepted w).
Definition row_of (k : Z) : value := VObject [("k", value_of_i64 k)].

(** A batch that waited for its linger interval is sent once: when the destination is down,
    its rows are lost although the action has a cache, and they count as output. *)
Lemma lingering_batch_lost :
  let s := worker (Kafka (sink_opts 0 100)) (Some (cache_config Equal)) [down] in
  match run_worker ctx s [Arrive [record 1]; Poll; Tick] with
  | Some ([Some fs], w) => accepted w = [] /\ files fs = ∅ /\ sink_out (counters (dlq_state w)) = 1 /\
      sink_failed (counters (dlq_state w)) = 0
  | _ => False
  end.
Proof. by vm_compute. Qed.

(** One refused record counts as two exceptions. *)
Lemma refused_record_counts_twice :
  match run_worker ctx (worker (Kafka (sink_opts 0 0)) None [down]) [Arrive [record 1]; Poll] with
  | Some (_, w) => exceptions (counters (dlq_state w)) = 2 /\ sink_failed (counters (dlq_state w)) = 1
  | None => False
  end.
Proof. by vm_compute. Qed.

(** The rows of a batch that a memory topic has no room for are dropped and count as
    output; a single record in the same place counts as dropped. *)
Lemma memory_rows_dropped_silently :
  let full := NotPublished StreamBus.Full in
  match run_worker ctx (worker (Memory "t" false) None [full; full]) [Arrive [rows [1; 2]]; Poll],
        run_worker ctx (worker (Memory "t" false) None [full]) [Arrive [record 1]; Poll] with
  | Some (_, w), Some (_, w') =>
      sink_out (counters (dlq_state w)) = 2 /\ dropped_by_policy (counters (dlq_state w)) = 0 /\
      sink_out (counters (dlq_state w')) = 0 /\ dropped_by_policy (counters (dlq_state w')) = 1
  | _, _ => False
  end.
Proof. by vm_compute. Qed.

(** With batching, cache-first priority does not keep the order: rows left in the buffer
    when a batch is cached are sent after later records. *)
Lemma batching_overtakes_buffer :
  let s := worker (Kafka (mkSinkOpts false false None None None None 2 0)) (Some (cache_config CacheFirst)) [down] in
  match run_worker ctx s [Arrive [rows [1; 2; 3]]; Poll; Arrive [record 4]; Poll; Tick] with
  | Some (_, w) => sent_rows w = [[row_of 1; row_of 2]; [value_of_i64 4]; [row_of 3]]
  | None => False
  end.
Proof. by vm_compute. Qed.

(** A send of several rows that fails half-way is cached whole, so its first rows are
    accepted twice. *)
Lemma partial_batch_sent_twice :
  let s := worker (Kafka (sink_opts 0 0)) (Some (cache_config CacheFirst)) [Taken; down] in
  match run_worker ctx s [Arrive [rows [1; 2]]; Poll; Tick] with
  | Some (_, w) => length (accepted w) = 3%nat
  | None => False
  end.
Proof. by vm_compute. Qed.

(** A write that fails after some bytes is repeated from the start. *)
Lemma partial_write_duplicates :
  let w := push_line "ab" writer_new in
  let d := mkDisk ∅ [] (fun i => match i with O => FailsAfter 1 | _ => Written end) in
  let '(_, w, d) := flush "f" w d in
  let '(_, _, d) := flush "f" w d in
  texts d !! "f" = Some ("aab" +:+ newline_text).
Proof. by vm_compute. Qed.

Lemma worker_steady a p first q : target ctx a = Some q -> batching_opts a = None ->
  steady ctx q (worker a (Some (cache_config p)) first) (runtime_new 0 a (Some (fresh (cache_config p)))) (fresh (cache_config p)).
Proof. intros Ht Hb. split; try done. split; try done. by apply fresh_ok. Qed.
End SinkWorkerSample.

Import SinkWorkerSample.
Definition kafka_request (r : StreamRecord) : Request := KafkaSend (record_text None (sink_opts 0 0) (data r)) r.

(** One record is refused for good, one finds the destination down and is resent. *)
Lemma sink_worker_conserves_witness : exists c' w' delivered failed lost,
  run_worker ctx (worker (Kafka (sink_opts 0 0)) (Some (cache_config Equal)) [Rejected true "bad"; down]) [Arrive [record 1; record 2]; Poll; Tick]
    = Some ([Some (close c')], w') /\
  accepted w' = map kafka_request delivered /\ (delivered ++ failed ++ contents c') ++ lost ≡ₚ [record 1; record 2].
Proof.
  destruct (sink_worker_conserves ctx kafka_request (worker (Kafka (sink_opts 0 0)) (Some (cache_config Equal)) [Rejected true "bad"; down])
    _ _ [Arrive [record 1; record 2]; Poll; Tick] (worker_steady (Kafka (sink_opts 0 0)) Equal _ kafka_request eq_refl eq_refl))
    as (c' & w' & del & failed & lost & Hrun & _ & Hacc & Hp & _); [by repeat constructor|].
  exists c', w', del, failed, lost. exact (conj Hrun (conj Hacc Hp)).
Defined.

Lemma sink_worker_keeps_order_witness : exists c' w' delivered,
  run_worker ctx (worker (Kafka (sink_opts 0 0)) (Some (cache_config CacheFirst)) [down]) [Arrive [record 1; record 2]; Poll; Tick; Arrive [record 3]; Poll]
    = Some ([Some (close c')], w') /\
  accepted w' = map kafka_request delivered /\ (delivered ++ contents c') `sublist_of` [record 1; record 2; record 3].
Proof.
  destruct (sink_worker_keeps_order ctx kafka_request (worker (Kafka (sink_opts 0 0)) (Some (cache_config CacheFirst)) [down])
    _ _ [Arrive [record 1; record 2]; Poll; Tick; Arrive [record 3]; Poll]
    (worker_steady (Kafka (sink_opts 0 0)) CacheFirst _ kafka_request eq_refl eq_refl))
    as (c' & w' & del & Hrun & Hacc & Hsub & _); [by repeat constructor|done|done|by intros [|i]|].
  exists c', w', del. exact (conj Hrun (conj Hacc Hsub)).
Defined.
