(* ===== verification/Schema.v ===== *)
(** * Stream schemas ([coerce_value_to_type], [enforce_stream_schema] of
      [crates/rekuiper-core/src/model.rs], the schema task of
      [crates/rekuiper-server/src/engine/mod.rs])

    The columns a stream declares, the coercion of a value to a declared type, and the task
    that coerces every record of a stream before the rule sees it. *)

From Stdlib Require Import Ascii.
From S2P Require Import Prelude Rust Characters Json Counters Dlq Ast Engine Values Numbers Objects.

Set Default Goal Selector "!".

(** What the code asks of serde_json's parser and of chrono: a text as a JSON value, and a
    date, with or without a time, in one of the formats without a zone, as milliseconds. *)
Class SchemaText := {
  parse_json : string -> option value;
  parse_naive : string -> option Z;
}.

Record StreamField := mkField { f_name : string; f_type : string; f_default : option string }.

(** ** Types in text *)

Definition ends_with (suffix s : string) : bool :=
  bool_decide (drop (String.length s - String.length suffix) (chars s) = chars suffix).

(** [&s[from..len - back]] *)
Definition slice (from back : nat) (s : string) : string := of_chars (take (String.length s - from - back) (drop from (chars s))).

(** The type of the items of an array type, when it says. *)
Definition array_items (ty : string) : option string :=
  if (String.prefix "array(" ty && ends_with ")" ty) || (String.prefix "array[" ty && ends_with "]" ty) then
    let inner := trim_str (slice 6 1 ty) in
    if bool_decide (inner = "") then None else Some inner
  else None.

Inductive TypeClass :=
  | TInteger | TFloat | TString | TBoolean | TDateTime | TBinary | TDecimal
  | TArray (items : option string) | TStruct | TAny.

Definition one_of (ty : string) (names : list string) : bool := bool_decide (ty ∈ names).

(** The arms of [coerce_value_to_type], in their order. *)
Definition type_class (target_type : string) : TypeClass :=
  let ty := to_ascii_lowercase (trim_str target_type) in
  if one_of ty ["bigint"; "int"; "integer"; "smallint"; "tinyint"] then TInteger
  else if one_of ty ["float"; "double"; "real"] then TFloat
  else if one_of ty ["string"; "text"; "varchar"; "char"] then TString
  else if one_of ty ["boolean"; "bool"] then TBoolean
  else if one_of ty ["datetime"; "timestamp"; "date"; "time"] then TDateTime
  else if one_of ty ["bytea"; "binary"; "blob"] then TBinary
  else if String.prefix "decimal" ty || String.prefix "numeric" ty then TDecimal
  else if String.prefix "array" ty then TArray (array_items ty)
  else if ends_with "[]" ty then TArray (Some (trim_str (slice 0 2 ty)))
  else if String.prefix "struct" ty then TStruct
  else TAny.

Section coercion.
Context `{Text} `{SchemaText}.

(** ** Scalars *)

Definition f64_one : f64 := f64_of_Z 1.

Definition parse_i64_trim (s : string) : option Z := parse_i64 (trim_str s).

Definition coerce_integer (v : value) : value :=
  match v with
  | VNumber n =>
      match number_as_i64 n, number_as_u64 n with
      | Some i, _ => value_of_i64 i
      | None, Some u => value_of_i64 (wrap64 u)
      | None, None => value_of_i64 (f64_as_i64 (number_as_f64 n))
      end
  | VString s =>
      match parse_i64_trim s, parse_f64 (trim_str s) with
      | Some i, _ => value_of_i64 i
      | None, Some f => value_of_i64 (f64_as_i64 f)
      | None, None => VNull
      end
  | VBool b => value_of_i64 (if b then 1 else 0)
  | _ => VNull
  end.

Definition coerce_float (v : value) : value :=
  match v with
  | VNumber n => value_of_f64 (number_as_f64 n)
  | VString s => match parse_f64 (trim_str s) with Some f => value_of_f64 f | None => VNull end
  | VBool b => value_of_f64 (if b then f64_one else f64_zero)
  | _ => VNull
  end.

Definition coerce_string (v : value) : value :=
  match v with
  | VString _ | VNull => v
  | VBool b => VString (if b then "true" else "false")
  | other => VString (value_to_string other)
  end.

Definition coerce_boolean (v : value) : value :=
  match v with
  | VBool _ => v
  | VString s =>
      let t := to_ascii_lowercase (trim_str s) in
      if one_of t ["true"; "1"; "t"] then VBool true
      else if one_of t ["false"; "0"; "f"] then VBool false
      else VNull
  | VNumber n =>
      match number_as_i64 n with
      | Some i => if i =? 1 then VBool true else if i =? 0 then VBool false else VNull
      | None => VNull
      end
  | _ => VNull
  end.

Definition coerce_datetime (v : value) : value :=
  match v with
  | VNumber _ => v
  | VString s =>
      let t := trim_str s in
      match parse_rfc3339 t, parse_naive t, parse_i64 t with
      | Some ms, _, _ | None, Some ms, _ | None, None, Some ms => value_of_i64 ms
      | None, None, None => VNull
      end
  | _ => VNull
  end.

Definition coerce_binary (v : value) : value := match v with VString _ | VArray _ => v | _ => VNull end.

Definition coerce_decimal (v : value) : value :=
  match v with
  | VNumber _ => v
  | VString s => match parse_f64 (trim_str s) with Some f => value_of_f64 f | None => VNull end
  | _ => VNull
  end.

Fixpoint coerce_value_to_type (v : value) (target_type : string) : value :=
  match type_class target_type with
  | TInteger => coerce_integer v
  | TFloat => coerce_float v
  | TString => coerce_string v
  | TBoolean => coerce_boolean v
  | TDateTime => coerce_datetime v
  | TBinary => coerce_binary v
  | TDecimal => coerce_decimal v
  | TArray items =>
      match v with
      | VArray l =>
          match items with
          | Some inner => VArray (map (fun item => coerce_value_to_type item inner) l)
          | None => v
          end
      | _ => VNull
      end
  | TStruct => match v with VObject _ => v | _ => VNull end
  | TAny => v
  end.

(** ** Defaults *)

Definition is_quoted (q : ascii) (s : string) : bool :=
  bool_decide (head (chars s) = Some q) && bool_decide (list.last (chars s) = Some q) && (2 <=? String.length s)%nat.

Definition parse_default_value (raw field_type : string) : value :=
  let s := trim_str raw in
  if bool_decide (s = "") || eq_ignore_ascii_case s "null" then VNull
  else if is_quoted "'" s || is_quoted "034" s then coerce_value_to_type (VString (slice 1 1 s)) field_type
  else
    match parse_json s with
    | Some v => coerce_value_to_type v field_type
    | None => coerce_value_to_type (VString s) field_type
    end.

(** ** Records *)

(** The key of a column: its name, or the first key that is its name in another case, in the
    order of iteration. *)
Definition existing_key (data : row) (name : string) : option string :=
  if bool_decide (is_Some (data !! name)) then Some name
  else fst <$> List.find (fun kv => eq_ignore_ascii_case kv.1 name) (map_to_list data).

Definition default_of (f : StreamField) : option value := (fun raw => parse_default_value raw (f_type f)) <$> f_default f.

Definition is_binary_field (f : StreamField) : bool :=
  eq_ignore_ascii_case (f_type f) "bytea" || eq_ignore_ascii_case (f_type f) "binary".

(** A column the record does not have. *)
Definition enforce_missing (data : row) (f : StreamField) : row :=
  match default_of f with
  | Some v => <[f_name f := v]> data
  | None => if is_binary_field f then match data !! "self" with Some v => <[f_name f := v]> data | None => data end else data
  end.

(** A column found under [key], with null for a missing value. *)
Definition enforce_present (data : row) (f : StreamField) (key : string) (v : value) : row :=
  <[f_name f := v]> (delete key data).

Definition enforce_field (data : row) (f : StreamField) : row :=
  match existing_key data (f_name f) with
  | Some key =>
      let v := default VNull (data !! key) in
      enforce_present data f key (if is_null v then default VNull (default_of f) else coerce_value_to_type v (f_type f))
  | None => enforce_missing data f
  end.

Definition enforce_stream_schema (data : row) (fields : list StreamField) : row := foldl enforce_field data fields.

Record SchemaMismatchError := mkMismatch { m_field : string; m_expected : string; m_actual : string }.

Definition mismatch_text (e : SchemaMismatchError) : string :=
  "Field '" +:+ m_field e +:+ "' expected type '" +:+ m_expected e +:+ "', got: " +:+ m_actual e.

(** The record as it is left, with the error of the first column that cannot be coerced. *)
Fixpoint enforce_stream_schema_checked (data : row) (fields : list StreamField) : option SchemaMismatchError * row :=
  match fields with
  | [] => (None, data)
  | f :: fields =>
      match existing_key data (f_name f) with
      | Some key =>
          let v := default VNull (data !! key) in
          if is_null v then enforce_stream_schema_checked (enforce_present data f key (default VNull (default_of f))) fields
          else
            let coerced := coerce_value_to_type v (f_type f) in
            if is_null coerced then (Some (mkMismatch (f_name f) (f_type f) (value_to_string v)), delete key data)
            else enforce_stream_schema_checked (enforce_present data f key coerced) fields
      | None => enforce_stream_schema_checked (enforce_missing data f) fields
      end
  end.

(** ** The schema task *)

(** The records the rule gets and the dead letters, and whether the task has ended; [open]
    says for each record whether the rule still takes it. *)
Record SchemaTask := mkTask { passed : list StreamRecord; letters : DlqState; ended : bool }.

Definition forward (open : bool) (r : StreamRecord) (t : SchemaTask) : SchemaTask :=
  if open then mkTask (passed t ++ [r]) (letters t) false else mkTask (passed t) (letters t) true.

Definition schema_step (router : DlqRouter) (fields : list StreamField) (t : SchemaTask) (input : Z * bool * StreamRecord) : SchemaTask :=
  let '(now, open, r) := input in
  if ended t then t
  else if bool_decide (on_error router = Drop) then
    forward open (mkRecord (timestamp r) (enforce_stream_schema (data r) fields)) t
  else
    match enforce_stream_schema_checked (data r) fields with
    | (None, d) => forward open (mkRecord (timestamp r) d) t
    | (Some err, d) =>
        mkTask (passed t)
          (route_error router now SchemaValidation (mismatch_text err) (Some (map_to_json d)) (Some (row_to_value d)) None (letters t))
          (bool_decide (on_error router = Halt))
    end.

Definition schema_task (router : DlqRouter) (fields : list StreamField) (inputs : list (Z * bool * StreamRecord)) (s : DlqState) : SchemaTask :=
  foldl (schema_step router fields) (mkTask [] s false) inputs.
End coercion.
