(* ===== verification/SchemaFacts.v ===== *)
(** * Facts about stream schemas

    What a coercion may return, the columns of a record after enforcement, the agreement of
    the strict variant with the lenient one, and what the schema task lets through. *)

From Stdlib Require Import SpecFloat.
From S2P Require Import Prelude Rust Characters Json Counters Dlq Ast Engine Values Columns Eval Bus Numbers Objects Schema.

Set Default Goal Selector "!".
#[local] Set Warnings "-register-all".
#[local] Set Warnings "-clear-no-such-hyp".
#[local] Opaque type_class parse_f64 trim_str parse_i64 to_ascii_lowercase.

(** ** Values of a type *)

(** The invariant of [serde_json::Number], at every depth of the arrays. *)
Inductive value_wf : value -> Prop :=
  | wf_array l : Forall value_wf l -> value_wf (VArray l)
  | wf_number n : number_wf n -> value_wf (VNumber n)
  | wf_other v : is_number v = false -> (forall l, v <> VArray l) -> value_wf v.

Definition is_integer (v : value) : bool := match as_i64 v with Some i => bool_decide (v = value_of_i64 i) | None => false end.

Definition is_float (v : value) : bool := match v with VNumber (Float f) => is_finite f | _ => false end.

(** The values a column of a declared type may hold besides null; the items of an array may
    be null. *)
Fixpoint has_type (v : value) (target_type : string) : bool :=
  match type_class target_type, v with
  | TInteger, _ => is_integer v
  | TFloat, _ => is_float v
  | TString, VString _ | TBoolean, VBool _ | TBinary, VString _ | TBinary, VArray _ | TStruct, VObject _ | TAny, _ => true
  | TDateTime, VNumber _ | TDecimal, VNumber _ => true
  | TArray (Some inner), VArray l => forallb (fun item => is_null item || has_type item inner) l
  | TArray None, VArray _ => true
  | _, _ => false
  end.

Definition null_or_typed (ty : string) (v : value) : bool := is_null v || has_type v ty.

(** Without case. *)
Definition same_key (a b : string) : Prop := to_ascii_lowercase a = to_ascii_lowercase b.

#[global] Instance same_key_dec a b : Decision (same_key a b).
Proof. unfold same_key. apply _. Defined.

Section facts.
Context `{Text} `{SchemaText}.

Lemma value_of_i64_integer i : in_i64 i -> is_integer (value_of_i64 i) = true.
Proof. intros Hi. unfold is_integer. rewrite as_i64_of_i64 by done. by apply bool_decide_eq_true_2. Qed.

Lemma value_of_f64_float f : is_null (value_of_f64 f) || is_float (value_of_f64 f) = true.
Proof. unfold value_of_f64, is_float. destruct (is_finite f) eqn:Hf; simpl; by rewrite ?Hf. Qed.

Lemma f64_as_i64_range f : in_i64 (f64_as_i64 f).
Proof. apply f64_as_range. by unfold i64_min, i64_max. Qed.

Lemma number_as_i64_range n i : number_wf n -> number_as_i64 n = Some i -> in_i64 i.
Proof.
  unfold in_i64. destruct n as [u|k|f]; simpl; intros Hwf; [|intros [= <-]; unfold i64_max; lia|done].
  destruct (Z.leb_spec u i64_max); intros [= <-]. unfold i64_min. lia.
Qed.

Lemma wf_number_inv n : value_wf (VNumber n) -> number_wf n.
Proof. inversion 1; [done|]. done. Qed.

Lemma coerce_integer_typed v : value_wf v -> is_null (coerce_integer v) || is_integer (coerce_integer v) = true.
Proof.
  intros Hwf. destruct v as [|b|n|s|l|m]; simpl; try done.
  - by destruct b.
  - apply wf_number_inv in Hwf. destruct (number_as_i64 n) as [i|] eqn:Hi.
    + apply value_of_i64_integer. by eapply number_as_i64_range.
    + destruct (number_as_u64 n); apply value_of_i64_integer; [apply wrap64_range|apply f64_as_i64_range].
  - destruct (parse_i64_trim s) as [i|] eqn:Hi; [|destruct (parse_f64 _) as [f|]; [|done]];
      apply value_of_i64_integer; [by eapply parse_i64_range|apply f64_as_i64_range].
Qed.

Lemma coerce_float_typed v : is_null (coerce_float v) || is_float (coerce_float v) = true.
Proof. destruct v as [|b|n|s|l|m]; simpl; try done; try apply value_of_f64_float. destruct (parse_f64 _); [apply value_of_f64_float|done]. Qed.

(** The types other than arrays, where nothing is coerced below the top. *)
Definition is_array_class (c : TypeClass) : bool := match c with TArray _ => true | _ => false end.

Lemma coerce_scalar_typed v ty : value_wf v -> is_array_class (type_class ty) = false ->
  null_or_typed ty (coerce_value_to_type v ty) = true.
Proof.
  intros Hwf Hc. unfold null_or_typed.
  assert (Hcv : coerce_value_to_type v ty = match type_class ty with
    | TInteger => coerce_integer v | TFloat => coerce_float v | TString => coerce_string v | TBoolean => coerce_boolean v
    | TDateTime => coerce_datetime v | TBinary => coerce_binary v | TDecimal => coerce_decimal v
    | TStruct => match v with VObject _ => v | _ => VNull end | _ => v end).
  { destruct v; simpl; by destruct (type_class ty). }
  assert (Hht : forall w, has_type w ty = match type_class ty with
    | TInteger => is_integer w | TFloat => is_float w
    | TString => match w with VString _ => true | _ => false end | TBoolean => match w with VBool _ => true | _ => false end
    | TDateTime | TDecimal => is_number w | TBinary => match w with VString _ | VArray _ => true | _ => false end
    | TStruct => match w with VObject _ => true | _ => false end | _ => true end).
  { intros w. destruct w; simpl; by destruct (type_class ty). }
  rewrite Hht, Hcv. destruct (type_class ty) eqn:Ht; try done; try by destruct v.
  - by apply coerce_integer_typed.
  - apply coerce_float_typed.
  - destruct v as [| |n|s| |]; simpl; try done; by repeat case_match.
  - destruct v as [| |n|s| |]; simpl; try done. by repeat case_match.
  - destruct v as [| |n|s| |]; simpl; try done. destruct (parse_f64 _); [|done]. unfold value_of_f64. by destruct (is_finite _).
Qed.

Lemma coerce_array l ty items : type_class ty = TArray items ->
  coerce_value_to_type (VArray l) ty = VArray (from_option (fun inner => map (fun item => coerce_value_to_type item inner) l) l items).
Proof. intros Ht. simpl. rewrite Ht. by destruct items. Qed.

Lemma has_type_array l ty items : type_class ty = TArray items ->
  has_type (VArray l) ty = from_option (fun inner => forallb (null_or_typed inner) l) true items.
Proof. intros Ht. simpl. rewrite Ht. by destruct items. Qed.

Lemma coerce_not_array v ty items : type_class ty = TArray items -> (forall l, v <> VArray l) -> coerce_value_to_type v ty = VNull.
Proof. intros Ht Hv. destruct v as [| | | |l|]; simpl; rewrite Ht; try done. by destruct (Hv l). Qed.

(** Null or a value of the type. *)
Lemma coerce_typed v : forall ty, value_wf v -> null_or_typed ty (coerce_value_to_type v ty) = true.
Proof.
  induction v as [| | | |l IH|m] using value_ind'; intros ty Hwf;
    (destruct (is_array_class (type_class ty)) eqn:Hc; [|by apply coerce_scalar_typed]);
    destruct (type_class ty) as [| | | | | | |items| |] eqn:Ht; try done; try by rewrite (coerce_not_array _ _ _ Ht).
  rewrite (coerce_array _ _ _ Ht). unfold null_or_typed. rewrite (has_type_array _ _ _ Ht).
  destruct items as [inner|]; [|done]. simpl. apply forallb_forall. intros w Hw. apply in_map_iff in Hw as (x & <- & Hx).
  apply list_elem_of_In in Hx. rewrite list.Forall_forall in IH. apply IH; [done|].
  inversion Hwf as [l' Hl| |v Hn Hna]; subst; [|by destruct (Hna l)]. by eapply list.Forall_forall in Hl.
Qed.

Lemma coerce_null ty : coerce_value_to_type VNull ty = VNull.
Proof. simpl. by destruct (type_class ty). Qed.

(** A value that has its type is left alone. *)
Lemma coerce_fixed v : forall ty, has_type v ty = true -> coerce_value_to_type v ty = v.
Proof.
  induction v as [|b|n|s|l IH|m] using value_ind'; intros ty; simpl; unfold is_integer, is_float; simpl;
    destruct (type_class ty) as [| | | | | | |items| |]; try done;
    try by destruct items.
  - destruct (number_as_i64 n) as [i|] eqn:Hn; [|done]. intros Hi.
    by apply bool_decide_eq_true in Hi.
  - destruct n as [| |f]; [done..|]. simpl. intros Hf. unfold value_of_f64. by rewrite Hf.
  - destruct items as [inner|]; [|done]. intros Hl. f_equal. rewrite <- (map_id l) at 2. apply map_ext_in. intros x Hx.
    rewrite forallb_forall in Hl. specialize (Hl _ Hx). apply orb_true_iff in Hl as [Hn|Ht].
    + destruct x; [apply coerce_null|done..].
    + rewrite list.Forall_forall in IH. by apply IH; [apply list_elem_of_In|].
Qed.

Lemma coerce_fixed' v ty : null_or_typed ty v = true -> coerce_value_to_type v ty = v.
Proof. intros Hv. apply orb_true_iff in Hv as [Hn|Ht]; [destruct v; [apply coerce_null|done..]|by apply coerce_fixed]. Qed.

(** C18. A coercion returns null or a value of the declared type, at every depth of an array
    type, and coercing again changes nothing. *)
Theorem coerce_normalises v ty : value_wf v ->
  null_or_typed ty (coerce_value_to_type v ty) = true /\
  coerce_value_to_type (coerce_value_to_type v ty) ty = coerce_value_to_type v ty.
Proof. intros Hwf. pose proof (coerce_typed v ty Hwf) as Ht. split; [done|]. by apply coerce_fixed'. Qed.

(** ** Columns *)

(** No two keys, or no two columns, are the same but for their case. *)
Definition distinct_keys (d : row) : Prop := forall k k', is_Some (d !! k) -> is_Some (d !! k') -> same_key k k' -> k = k'.
Definition distinct_fields (fields : list StreamField) : Prop := NoDup (map (fun f => to_ascii_lowercase (f_name f)) fields).

Lemma existing_key_some d name k : existing_key d name = Some k -> is_Some (d !! k) /\ same_key k name.
Proof.
  unfold existing_key, same_key. case_bool_decide as Hd; [by intros [= <-]|]. intros Hf.
  apply fmap_Some in Hf as ([k' v] & Hf & ->). apply List.find_some in Hf as [Hin Hk]. apply list_elem_of_In, elem_of_map_to_list in Hin.
  split; [by eexists|]. by apply bool_decide_eq_true in Hk.
Qed.

Lemma existing_key_none d name : existing_key d name = None -> forall k, same_key k name -> d !! k = None.
Proof.
  unfold existing_key. case_bool_decide as Hd; [done|]. intros Hf k Hk. apply fmap_None in Hf.
  destruct (d !! k) as [v|] eqn:Hv; [|done]. apply elem_of_map_to_list, list_elem_of_In in Hv.
  pose proof (List.find_none _ _ Hf _ Hv) as Hn. simpl in Hn. by apply bool_decide_eq_false in Hn.
Qed.

Lemma existing_key_unique d name k : distinct_keys d -> is_Some (d !! k) -> same_key k name -> existing_key d name = Some k.
Proof.
  intros Hd Hk Hs. destruct (existing_key d name) as [k'|] eqn:He.
  - apply existing_key_some in He as [Hk' Hs']. f_equal. apply Hd; [done|done|]. unfold same_key in *. congruence.
  - destruct Hk as [v Hv]. by rewrite (existing_key_none _ _ He k Hs) in Hv.
Qed.

(** The value of a column of a record that has one. *)
Definition column_of (f : StreamField) (v : value) : value :=
  if is_null v then default VNull (default_of f) else coerce_value_to_type v (f_type f).

(** The column of a record after enforcement, from the record as it was. *)
Definition column (d : row) (f : StreamField) : option value :=
  match existing_key d (f_name f) with
  | Some key => column_of f <$> d !! key
  | None => match default_of f with Some v => Some v | None => if is_binary_field f then d !! "self" else None end
  end.

Lemma same_key_bool a b : eq_ignore_ascii_case a b = true <-> same_key a b.
Proof. apply bool_decide_eq_true. Qed.

Lemma same_key_bool_false a b : eq_ignore_ascii_case a b = false <-> ~ same_key a b.
Proof. apply bool_decide_eq_false. Qed.

Lemma existing_key_exact d name : is_Some (d !! name) -> existing_key d name = Some name.
Proof. intros Hd. unfold existing_key. by rewrite bool_decide_eq_true_2. Qed.

Lemma enforce_field_other d f k : ~ same_key k (f_name f) -> enforce_field d f !! k = d !! k.
Proof.
  intros Hk. assert (Hne : f_name f <> k) by (intros <-; by apply Hk). unfold enforce_field.
  destruct (existing_key d (f_name f)) as [key|] eqn:He.
  - apply existing_key_some in He as [_ Hs]. unfold enforce_present. rewrite lookup_insert_ne by done.
    apply lookup_delete_ne. intros ->. by apply Hk.
  - unfold enforce_missing. repeat case_match; try done; by rewrite lookup_insert_ne.
Qed.

Lemma enforce_field_name d f : enforce_field d f !! f_name f = column d f.
Proof.
  unfold enforce_field, column. destruct (existing_key d (f_name f)) as [key|] eqn:He.
  - pose proof (existing_key_some _ _ _ He) as [[v Hv] _]. unfold enforce_present. rewrite lookup_insert_eq, Hv. simpl.
    unfold column_of. by destruct v.
  - pose proof (existing_key_none _ _ He (f_name f) eq_refl) as Hn. unfold enforce_missing.
    destruct (default_of f) as [v|]; [by rewrite lookup_insert_eq|]. destruct (is_binary_field f); [|done].
    destruct (d !! "self"); [by rewrite lookup_insert_eq|done].
Qed.

Lemma enforce_field_variant d f k : distinct_keys d -> same_key k (f_name f) -> k <> f_name f -> enforce_field d f !! k = None.
Proof.
  intros Hd Hs Hne. destruct (enforce_field d f !! k) as [v|] eqn:Hk; [|done]. exfalso.
  assert (Hin : is_Some (d !! k)).
  { unfold enforce_field in Hk. destruct (existing_key d (f_name f)) as [key|] eqn:He.
    - unfold enforce_present in Hk. rewrite lookup_insert_ne in Hk by done. by apply lookup_delete_Some in Hk as [_ Hk].
    - unfold enforce_missing in Hk. repeat case_match; try (by rewrite (existing_key_none _ _ He k Hs) in Hk);
        rewrite lookup_insert_ne in Hk by done; by rewrite (existing_key_none _ _ He k Hs) in Hk. }
  pose proof (existing_key_unique _ _ _ Hd Hin Hs) as He. unfold enforce_field in Hk. rewrite He in Hk.
  unfold enforce_present in Hk. rewrite lookup_insert_ne, lookup_delete_eq in Hk by done. done.
Qed.

Lemma enforce_field_distinct d f : distinct_keys d -> distinct_keys (enforce_field d f).
Proof.
  intros Hd. assert (Hv : forall k, is_Some (enforce_field d f !! k) -> same_key k (f_name f) -> k = f_name f).
  { intros k [v Hk] Hs. destruct (decide (k = f_name f)) as [|Hne]; [done|].
    by rewrite (enforce_field_variant d f k Hd Hs Hne) in Hk. }
  intros k k' Hk Hk' Hs. destruct (decide (same_key k (f_name f))) as [Hf|Hf].
  - rewrite (Hv k Hk Hf). symmetry. apply Hv; [done|]. unfold same_key in *. congruence.
  - rewrite enforce_field_other in Hk by done. rewrite enforce_field_other in Hk'.
    + by apply Hd.
    + unfold same_key in *. congruence.
Qed.

Lemma existing_key_enforce d f name : distinct_keys d -> ~ same_key name (f_name f) ->
  existing_key (enforce_field d f) name = existing_key d name.
Proof.
  intros Hd Hn. assert (Hk : forall k, same_key k name -> enforce_field d f !! k = d !! k).
  { intros k Hs. apply enforce_field_other. unfold same_key in *. congruence. }
  destruct (existing_key d name) as [k|] eqn:He.
  - apply existing_key_some in He as [Hin Hs]. apply existing_key_unique; [by apply enforce_field_distinct| |done]. by rewrite Hk.
  - destruct (existing_key (enforce_field d f) name) as [k|] eqn:He'; [|done].
    apply existing_key_some in He' as [[v Hv] Hs]. rewrite Hk in Hv by done. by rewrite (existing_key_none _ _ He k Hs) in Hv.
Qed.

Lemma column_enforce d f g : distinct_keys d -> ~ same_key (f_name g) (f_name f) -> ~ same_key "self" (f_name f) ->
  column (enforce_field d f) g = column d g.
Proof.
  intros Hd Hg Hs. unfold column. rewrite existing_key_enforce by done. destruct (existing_key d (f_name g)) as [key|] eqn:He.
  - apply existing_key_some in He as [_ Hk]. rewrite enforce_field_other; [done|]. unfold same_key in *. congruence.
  - by rewrite enforce_field_other.
Qed.

(** C17. The record after enforcement, key by key, when neither the record nor the schema uses a
    name in two cases and no column is called [self]: under a declared name the coerced
    value of the key that is that name in any case, the declared default where it is missing
    or null, the raw payload for a missing binary column; nothing under another case of the
    name; every other key as it was. *)
Theorem enforce_schema_columns d fields k : distinct_keys d -> distinct_fields fields ->
  Forall (fun f => ~ same_key "self" (f_name f)) fields ->
  enforce_stream_schema d fields !! k =
    match List.find (fun f => eq_ignore_ascii_case k (f_name f)) fields with
    | Some f => if bool_decide (k = f_name f) then column d f else None
    | None => d !! k
    end.
Proof.
  revert d. induction fields as [|f fields IH]; [done|]. intros d Hd Hf Hs.
  apply list.NoDup_cons in Hf as [Hni Hf]. apply list.Forall_cons in Hs as [Hsf Hs].
  assert (Hother : forall g, g ∈ fields -> ~ same_key (f_name g) (f_name f)).
  { intros g Hg Hsame. apply Hni. apply list_elem_of_fmap. by exists g. }
  change (enforce_stream_schema d (f :: fields)) with (enforce_stream_schema (enforce_field d f) fields).
  rewrite IH by (done || by apply enforce_field_distinct). simpl.
  destruct (List.find _ fields) as [g|] eqn:Hg.
  - apply List.find_some in Hg as [Hin Hk]. apply list_elem_of_In in Hin. apply same_key_bool in Hk. specialize (Hother g Hin).
    rewrite column_enforce by done. destruct (eq_ignore_ascii_case k (f_name f)) eqn:Hkf; [|done].
    apply same_key_bool in Hkf. exfalso. apply Hother. unfold same_key in *. congruence.
  - destruct (eq_ignore_ascii_case k (f_name f)) eqn:Hkf.
    + apply same_key_bool in Hkf. case_bool_decide as Hk; [subst k; apply enforce_field_name|by apply enforce_field_variant].
    + apply enforce_field_other. by apply same_key_bool_false.
Qed.

(** ** The strict variant *)

(** The key and the value of a column that cannot be coerced. *)
Definition mismatch (d : row) (f : StreamField) : option (string * value) :=
  key ← existing_key d (f_name f); v ← d !! key;
  if negb (is_null v) && is_null (coerce_value_to_type v (f_type f)) then Some (key, v) else None.

Lemma checked_cons d f fields :
  enforce_stream_schema_checked d (f :: fields) =
  match mismatch d f with
  | Some (key, v) => (Some (mkMismatch (f_name f) (f_type f) (value_to_string v)), delete key d)
  | None => enforce_stream_schema_checked (enforce_field d f) fields
  end.
Proof.
  simpl. unfold mismatch, enforce_field. destruct (existing_key d (f_name f)) as [key|] eqn:He; [|done]. simpl.
  apply existing_key_some in He as [[v Hv] _]. rewrite Hv. simpl. by destruct (is_null v), (is_null (coerce_value_to_type v (f_type f))).
Qed.

(** The strict variant computes the lenient record when every present, non-null value can be
    coerced; otherwise it stops at the first column whose value cannot, names it, its type
    and its value, and leaves the record with the columns before it enforced and the value
    removed. *)
Theorem enforce_checked_first_mismatch fields : forall d,
  let before i := enforce_stream_schema d (take i fields) in
  match enforce_stream_schema_checked d fields with
  | (None, d') => d' = enforce_stream_schema d fields /\ forall i f, fields !! i = Some f -> mismatch (before i) f = None
  | (Some e, d') => exists i f key v, fields !! i = Some f /\ mismatch (before i) f = Some (key, v) /\
      (forall j g, (j < i)%nat -> fields !! j = Some g -> mismatch (before j) g = None) /\
      e = mkMismatch (f_name f) (f_type f) (value_to_string v) /\ d' = delete key (before i)
  end.
Proof.
  induction fields as [|f fields IH]; intros d before; [done|]. rewrite checked_cons.
  destruct (mismatch d f) as [[key v]|] eqn:Hm.
  { exists 0%nat, f, key, v. split_and!; try done. intros j g Hj. lia. }
  specialize (IH (enforce_field d f)). cbv zeta in IH.
  destruct (enforce_stream_schema_checked (enforce_field d f) fields) as [[e|] d'].
  - destruct IH as (i & g & key & v & Hg & Hmm & Hfirst & He & Hd). exists (S i), g, key, v. split_and!; try done.
    intros [|j] h Hj Hh; [by injection Hh as <-|]. apply (Hfirst j); [lia|done].
  - destruct IH as [-> Hall]. split; [done|]. intros [|j] h Hh; [by injection Hh as <-|]. by apply (Hall j).
Qed.

(** ** The schema task *)

(** What becomes of a record: the record for the rule, or the dead letter. *)
Definition verdict (router : DlqRouter) (fields : list StreamField) (input : Z * bool * StreamRecord) : StreamRecord + dlq_request :=
  let '(now, _, r) := input in
  if bool_decide (on_error router = Drop) then inl (mkRecord (timestamp r) (enforce_stream_schema (data r) fields))
  else
    match enforce_stream_schema_checked (data r) fields with
    | (None, d) => inl (mkRecord (timestamp r) d)
    | (Some e, d) => inr (mkRequest now SchemaValidation (mismatch_text e) (Some (map_to_json d)) (Some (row_to_value d)) None)
    end.

Definition is_open (input : Z * bool * StreamRecord) : bool := input.1.2.

(** The task ends when the rule no longer takes a record, and on a dead letter under the
    policy that halts. *)
Definition stops (router : DlqRouter) (fields : list StreamField) (input : Z * bool * StreamRecord) : bool :=
  match verdict router fields input with
  | inl _ => negb (is_open input)
  | inr _ => bool_decide (on_error router = Halt)
  end.

(** The inputs the task handles: all up to the first that ends it. *)
Fixpoint handled (router : DlqRouter) (fields : list StreamField) (inputs : list (Z * bool * StreamRecord)) : list (Z * bool * StreamRecord) :=
  match inputs with
  | [] => []
  | i :: inputs => i :: if stops router fields i then [] else handled router fields inputs
  end.

Definition delivered (router : DlqRouter) (fields : list StreamField) (input : Z * bool * StreamRecord) : option StreamRecord :=
  match verdict router fields input with inl r => if is_open input then Some r else None | inr _ => None end.

Definition rejected (router : DlqRouter) (fields : list StreamField) (input : Z * bool * StreamRecord) : option dlq_request :=
  match verdict router fields input with inl _ => None | inr q => Some q end.

Lemma schema_step_ended router fields t input : ended t = true -> schema_step router fields t input = t.
Proof. intros Ht. destruct input as [[now open] r]. simpl. by rewrite Ht. Qed.

Lemma schema_step_running router fields t input : ended t = false ->
  schema_step router fields t input =
  mkTask (passed t ++ option_list (delivered router fields input))
    (route_all router (option_list (rejected router fields input)) (letters t)) (stops router fields input).
Proof.
  intros Ht. destruct input as [[now open] r]. unfold delivered, rejected, stops, is_open, verdict. simpl. rewrite Ht.
  destruct (bool_decide (on_error router = Drop)).
  - unfold forward. by destruct open; rewrite ?app_nil_r.
  - destruct (enforce_stream_schema_checked (data r) fields) as [[e|] d]; [by rewrite app_nil_r|].
    unfold forward. by destruct open; rewrite ?app_nil_r.
Qed.

Lemma schema_task_from router fields inputs : forall t, ended t = false ->
  foldl (schema_step router fields) t inputs =
  mkTask (passed t ++ omap (delivered router fields) (handled router fields inputs))
    (route_all router (omap (rejected router fields) (handled router fields inputs)) (letters t))
    (existsb (stops router fields) inputs).
Proof.
  induction inputs as [|i inputs IH]; intros t Ht; simpl; [destruct t; simpl in *; by rewrite app_nil_r, Ht|].
  rewrite schema_step_running by done. destruct (stops router fields i) eqn:Hs.
  - assert (Hfix : forall l t', ended t' = true -> foldl (schema_step router fields) t' l = t').
    { intros l. induction l as [|x l IHl]; intros t' Ht'; simpl; [done|]. by rewrite schema_step_ended, IHl by (done || by rewrite schema_step_ended). }
    rewrite Hfix by done. by destruct (delivered router fields i), (rejected router fields i).
  - rewrite IH by done. simpl. rewrite <- app_assoc. unfold route_all. by destruct (delivered router fields i), (rejected router fields i).
Qed.

Lemma outcomes_length router fields inputs : Forall (fun i => is_open i = true) inputs ->
  length inputs = (length (omap (delivered router fields) inputs) + length (omap (rejected router fields) inputs))%nat.
Proof.
  induction 1 as [|i inputs Hi _ IH]; [done|]. cbn [omap list_omap]. cbn [length]. rewrite IH.
  assert (Hd : (length (option_list (delivered router fields i)) + length (option_list (rejected router fields i)) = 1)%nat).
  { unfold delivered, rejected. destruct (verdict router fields i); by rewrite ?Hi. }
  destruct (delivered router fields i), (rejected router fields i); simpl in *; lia.
Qed.

Lemma handled_all router fields inputs : on_error router <> Halt -> Forall (fun i => is_open i = true) inputs ->
  handled router fields inputs = inputs.
Proof.
  intros Hh. induction 1 as [|i inputs Hi _ IH]; [done|]. simpl. assert (stops router fields i = false) as ->; [|by rewrite IH].
  unfold stops. rewrite Hi. destruct (verdict router fields i); [done|]. by apply bool_decide_eq_false.
Qed.

(** Of the records before the one that ends the task, that one included, the rule gets
    exactly the accepted ones, coerced and in order, and the others become dead letters in
    order; and while the rule runs and does not halt on errors no record ends the task, so
    each is either delivered or a dead letter. *)
Theorem schema_task_accounts router fields inputs s :
  let t := schema_task router fields inputs s in
  let seen := handled router fields inputs in
  passed t = omap (delivered router fields) seen /\
  letters t = route_all router (omap (rejected router fields) seen) s /\
  ended t = existsb (stops router fields) inputs /\
  (on_error router <> Halt -> Forall (fun i => is_open i = true) inputs ->
   seen = inputs /\ length inputs = (length (passed t) + length (omap (rejected router fields) seen))%nat).
Proof.
  intros t seen. unfold t, seen, schema_task. rewrite schema_task_from by done. simpl. split_and!; [done..|].
  intros Hh Ho. rewrite !handled_all by done. split; [done|]. by apply outcomes_length.
Qed.
End facts.

(** ** Samples *)

#[local] Transparent type_class parse_f64 trim_str parse_i64 to_ascii_lowercase.

Module SchemaSample.
#[export] Instance display : Text := {| value_to_string _ := "v"; map_to_json _ := "{}"; parse_rfc3339 _ := None |}.
#[export] Instance plain : SchemaText := {| parse_json _ := None; parse_naive _ := None |}.

Definition fields : list StreamField :=
  [mkField "id" "bigint" None; mkField "Name" "string" (Some "'none'"); mkField "tags" "array(float)" None].
Definition input_row : row :=
  {["ID" := VString " 42 "; "tags" := VArray [VNumber (PosInt 1); VString "x"]; "extra" := VBool true]}.

Example enforced : enforce_stream_schema input_row fields =
  {["id" := value_of_i64 42; "Name" := VString "none"; "tags" := VArray [VNumber (Float (f64_of_Z 1)); VNull]; "extra" := VBool true]}.
Proof. by vm_compute. Qed.

(** An unsigned number beyond i64 becomes negative. *)
Example bigint_wraps : coerce_value_to_type (VNumber (PosInt u64_max)) "bigint" = value_of_i64 (-1).
Proof. by vm_compute. Qed.

(** Of two keys that differ in case only one is read, and the other stays as it was; of two
    columns that differ in case the first is lost. *)
Example columns_in_two_cases :
  enforce_stream_schema {["a" := VString "1"; "A" := VString "2"]} [mkField "a" "bigint" None]
    = {["a" := value_of_i64 1; "A" := VString "2"]} /\
  enforce_stream_schema {["a" := VString "1"]} [mkField "a" "bigint" None; mkField "A" "bigint" None]
    = {["A" := value_of_i64 1]}.
Proof. split; by vm_compute. Qed.

(** The strict variant does not see an item of an array that cannot be coerced. *)
Example mismatch_in_array :
  enforce_stream_schema_checked input_row fields = (None, enforce_stream_schema input_row fields).
Proof. by vm_compute. Qed.

(** The record of a dead letter does not have the value that was rejected. *)
Example rejected_value_removed :
  (enforce_stream_schema_checked {["id" := VString "x"; "b" := VNull]} fields).2 !! "id" = None.
Proof. by vm_compute. Qed.

(** The predicate on the bus sees the record before coercion. *)
Example bus_before_coercion :
  let r : row := {["t" := VString "10"]} in
  matches (FieldGt "t" (f64_of_Z 5)) r = false /\
  matches (FieldGt "t" (f64_of_Z 5)) (enforce_stream_schema r [mkField "t" "bigint" None]) = true.
Proof. split; by vm_compute. Qed.
End SchemaSample.
Import SchemaSample.

Lemma coerce_normalises_witness :
  null_or_typed "array(float)" (coerce_value_to_type (VArray [VNumber (PosInt 1); VString "x"]) "array(float)") = true /\
  coerce_value_to_type (coerce_value_to_type (VArray [VNumber (PosInt 1); VString "x"]) "array(float)") "array(float)"
  = coerce_value_to_type (VArray [VNumber (PosInt 1); VString "x"]) "array(float)".
Proof.
  apply (coerce_normalises (VArray [VNumber (PosInt 1); VString "x"]) "array(float)").
  apply wf_array. repeat constructor; by vm_compute.
Defined.

Lemma sample_distinct_keys : distinct_keys input_row.
Proof.
  intros k k' Hk Hk' Hs. unfold input_row in Hk, Hk'.
  assert (Hin : forall k, is_Some (input_row !! k) -> k ∈ ["ID"; "tags"; "extra"]).
  { intros j [v Hj]. apply elem_of_dom_2 in Hj. unfold input_row in Hj. set_solver. }
  apply Hin in Hk, Hk'. unfold same_key in Hs. repeat (apply elem_of_cons in Hk as [->|Hk]; [|]); try by apply elem_of_nil in Hk.
  all: repeat (apply elem_of_cons in Hk' as [->|Hk']; [by vm_compute in Hs || done|]); by apply elem_of_nil in Hk'.
Qed.

Lemma enforce_schema_columns_witness :
  enforce_stream_schema input_row fields !! "id" = Some (value_of_i64 42) /\
  enforce_stream_schema input_row fields !! "ID" = None.
Proof.
  split; rewrite (enforce_schema_columns input_row fields) by (apply sample_distinct_keys || (vm_compute; repeat constructor; set_solver)).
  - by vm_compute.
  - by vm_compute.
Defined.
