(* ===== verification/FieldMask.v ===== *)
(** * Columns a rule needs ([stmt_called_functions] and [stmt_referenced_fields] of
      [crates/rekuiper-server/src/handlers/rules.rs], [extract_required_fields_from_expr_names]
      and [JsonFieldMask] of [crates/rekuiper-connectors/src/codec.rs])

    The functions a statement calls and the columns it mentions; a source that knows them
    decodes only the members of a payload that some rule needs. *)

From Stdlib Require Import Ascii.
From S2P Require Import Prelude Rust Characters Json Ast Engine Columns Values Numbers Aggregates Accumulators Analytic Eval Projection Parser Statements ParserFacts Schema.

Set Default Goal Selector "!".

(** ** Called functions *)

Section expressions.
Context {A : Type} (collect : Expr -> list A).
Definition of_option (o : option Expr) : list A := match o with Some x => collect x | None => [] end.
Definition of_clauses (l : list (Expr * Expr)) : list A := flat_map (fun c => collect c.1 ++ collect c.2) l.
End expressions.

Fixpoint collect_called_functions (e : Expr) : list string :=
  let opt := of_option collect_called_functions in
  match e with
  | Call name args => name :: flat_map collect_called_functions args
  | BinaryOp l _ r => collect_called_functions l ++ collect_called_functions r
  | UnaryOp _ x | IsNull x _ | FieldAccess x _ => collect_called_functions x
  | Between x low high _ => collect_called_functions x ++ collect_called_functions low ++ collect_called_functions high
  | InList x items _ => collect_called_functions x ++ flat_map collect_called_functions items
  | Index base index => collect_called_functions base ++ collect_called_functions index
  | Slice base lo hi => collect_called_functions base ++ opt lo ++ opt hi
  | Case operand when_clauses else_clause =>
      opt operand ++ of_clauses collect_called_functions when_clauses ++ opt else_clause
  | Over call partition_by when => collect_called_functions call ++ opt partition_by ++ opt when
  | Wildcard | WildcardModified _ _ | Identifier _ | Literal _ => []
  end.

(** The expressions of one statement the collectors look at. *)
Definition statement_exprs (stmt : SelectStmt) : list Expr :=
  fields stmt ++ option_list (where_clause stmt) ++ group_by stmt ++ option_list (having stmt)
  ++ map order_expr (order_by stmt) ++ omap on (joins stmt).

Fixpoint stmt_called_functions (stmt : SelectStmt) : list string :=
  flat_map collect_called_functions (statement_exprs stmt)
  ++ match set_op stmt with Some (_, rhs) => stmt_called_functions rhs | None => [] end.

(** ** Referenced columns *)

(** Whether the whole record is needed, and the names that are mentioned. *)
Definition Referenced : Type := bool * list string.
Definition both (a b : Referenced) : Referenced := (a.1 || b.1, a.2 ++ b.2).
Definition gather {A} (f : A -> Referenced) : list A -> Referenced := foldr (fun x => both (f x)) (false, []).

Fixpoint collect_referenced_fields (e : Expr) : Referenced :=
  let opt o := match o with Some x => collect_referenced_fields x | None => (false, []) end in
  match e with
  | Wildcard | WildcardModified _ _ => (true, [])
  | Identifier name => (false, [name])
  | FieldAccess parent field =>
      if bool_decide (field = "*") then (true, [])
      else match parent with
           | Identifier p => (false, [p; field])
           | _ => both (false, [field]) (collect_referenced_fields parent)
           end
  | Call name args =>
      both (eq_ignore_ascii_case name "meta" && bool_decide (args = []), []) (gather collect_referenced_fields args)
  | BinaryOp l _ r => both (collect_referenced_fields l) (collect_referenced_fields r)
  | UnaryOp _ x | IsNull x _ => collect_referenced_fields x
  | Between x low high _ => both (collect_referenced_fields x) (both (collect_referenced_fields low) (collect_referenced_fields high))
  | InList x items _ => both (collect_referenced_fields x) (gather collect_referenced_fields items)
  | Index base index => both (collect_referenced_fields base) (collect_referenced_fields index)
  | Slice base lo hi => both (collect_referenced_fields base) (both (opt lo) (opt hi))
  | Case operand when_clauses else_clause =>
      both (opt operand)
        (both (gather (fun c => both (collect_referenced_fields c.1) (collect_referenced_fields c.2)) when_clauses) (opt else_clause))
  | Over call partition_by when => both (collect_referenced_fields call) (both (opt partition_by) (opt when))
  | Literal _ => (false, [])
  end.

Fixpoint stmt_referenced_fields (stmt : SelectStmt) : Referenced :=
  both (gather collect_referenced_fields (statement_exprs stmt))
    match set_op stmt with Some (_, rhs) => stmt_referenced_fields rhs | None => (false, []) end.

(** ** The mask *)

Record JsonFieldMask := mkMask { mask_fields : gset string }.

Definition extract_required_fields_from_expr_names (r : Referenced) (timestamp_field : option string) : option JsonFieldMask :=
  if r.1 || bool_decide (r.2 = []) then None
  else Some (mkMask (list_to_set (r.2 ++ option_list timestamp_field ++ ["timestamp"; "ts"; "event_time"; "time"]))).

Definition materialized (mask : JsonFieldMask) (key : string) : bool :=
  bool_decide (key ∈ mask_fields mask) || bool_decide (key = "error" \/ key = "__error").

(** The members of an object in the order of its text, the last of each name. *)
Definition decode_members (mask : JsonFieldMask) (members : list (string * value)) : row :=
  foldl (fun out kv => if materialized mask kv.1 then <[kv.1 := kv.2]> out else out) ∅ members.

(** All members of an object. *)
Definition all_members (members : list (string * value)) : row := foldl (fun out kv => <[kv.1 := kv.2]> out) ∅ members.

(** * What a mask keeps is all a rule reads

    The evaluation of expressions, conditions and projections on a record from which the
    columns outside the mask have been left out. *)

#[local] Set Warnings "-clear-no-such-hyp".

(** ** Computations that agree *)

Definition meq {A} (m m' : M A) : Prop := forall st, m st = m' st.

Lemma meq_refl {A} (m : M A) : meq m m.
Proof. done. Qed.

Lemma meq_bind {A B} (m m' : M A) (f f' : A -> M B) : meq m m' -> (forall a, meq (f a) (f' a)) -> meq (bind_to m f) (bind_to m' f').
Proof. intros Hm Hf st. unfold bind_to, mbind, M_bind. rewrite Hm. destruct (m' st) as [[] ?]; [apply Hf|done|done]. Qed.

Lemma meq_map_err {A} f (m m' : M A) : meq m m' -> meq (map_err f m) (map_err f m').
Proof. intros Hm st. unfold map_err. by rewrite Hm. Qed.

Lemma meq_eval_all (f f' : Expr -> M value) args : Forall (fun a => meq (f a) (f' a)) args -> meq (eval_all f args) (eval_all f' args).
Proof.
  induction 1 as [|a args Ha _ IH]; [apply meq_refl|]. apply meq_bind; [done|]. intros v. apply meq_bind; [exact IH|]. intros; apply meq_refl.
Qed.

Lemma meq_foldM {A B} (f f' : B -> A -> M B) l : (forall b x, x ∈ l -> meq (f b x) (f' b x)) -> forall b, meq (foldM f b l) (foldM f' b l).
Proof.
  induction l as [|x l IH]; intros Hf b; [apply meq_refl|]. apply meq_bind; [apply Hf; by left|]. intros b'. apply IH. intros. apply Hf. by right.
Qed.

#[local] Hint Resolve meq_refl meq_bind meq_map_err : core.

(** ** Expressions whose columns a mask has *)

(** [meta] and [mqtt] name the column they look up. *)
Definition static_call (name : string) (args : list Expr) : bool :=
  negb (bool_decide (to_ascii_lowercase name ∈ ["meta"; "mqtt"])) ||
  match args with [] | Wildcard :: _ | Identifier _ :: _ => true | _ => false end.

Fixpoint static (e : Expr) : bool :=
  let opt o := match o with Some x => static x | None => true end in
  match e with
  | Call name args => static_call name args && forallb static args
  | Over call partition_by when => static call && opt partition_by && opt when
  | BinaryOp l _ r => static l && static r
  | UnaryOp _ x | IsNull x _ | FieldAccess x _ => static x
  | Index base index => static base && static index
  | Slice base lo hi => static base && opt lo && opt hi
  | Between x low high _ => static x && static low && static high
  | InList x items _ => static x && forallb static items
  | Case operand when_clauses else_clause =>
      opt operand && forallb (fun c => static c.1 && static c.2) when_clauses && opt else_clause
  | WildcardModified _ _ | Wildcard | Literal _ | Identifier _ => true
  end.

(** Columns the engine adds, or that functions of the record read. *)
Definition engine_columns : list string :=
  ["meta"; "__meta__"; "mqtt"; "__mqtt__"; "__timestamp__"; "__rule_id__"; "__rule_start__";
   "window_start"; "window_end"; "__window_start__"; "__window_end__"].

(** A column that may be left out: no object, no dot in its name, none of the engine's. *)
Definition plain (k : string) (v : value) : bool :=
  negb (bool_decide (k ∈ engine_columns)) && negb (existsb (fun c => bool_decide (c = "."%char)) (chars k))
  && match v with VObject _ => false | _ => true end.

Ltac keys := intros; repeat match goal with K : _ ∈ _ :: _ |- _ => apply elem_of_cons in K as [->|K] | K : _ ∈ [] |- _ => by apply not_elem_of_nil in K end;
  apply (bool_decide_unpack _); vm_compute; exact I.

(** [r'] is [r] without some columns outside [keep]. *)
Definition pruned (keep : gset string) (r r' : row) : Prop :=
  forall k, r' !! k = r !! k \/ ((k ∉ keep) /\ r' !! k = None /\ exists v, r !! k = Some v /\ plain k v = true).

Definition covers (keep : gset string) (R : Referenced) : Prop := R.1 = false /\ forall n, n ∈ R.2 -> n ∈ keep.

Lemma covers_both keep a b : covers keep (both a b) <-> covers keep a /\ covers keep b.
Proof. unfold covers, both. simpl. rewrite orb_false_iff. split; [intros [? Hn]; split; (split; [tauto|]; intros; apply Hn, elem_of_app; tauto)|]. intros [[? Ha] [? Hb]]. split; [done|]. intros n [?|?]%elem_of_app; auto. Qed.

Lemma covers_none keep : covers keep (false, []).
Proof. split; [done|]. intros n Hn. by apply not_elem_of_nil in Hn. Qed.

Lemma covers_gather {A} keep (f : A -> Referenced) l : covers keep (gather f l) <-> Forall (fun x => covers keep (f x)) l.
Proof.
  induction l as [|x l IH]; simpl; [split; [constructor|intros; apply covers_none]|]. by rewrite covers_both, IH, list.Forall_cons.
Qed.

Section soundness.
Context `{Text} `{Functions} `{WallClock} (keep : gset string) (r r' : row).
Context (Hpruned : pruned keep r r') (Hkeep : forall k, k ∈ ["timestamp"; "event_time"] -> k ∈ keep).
#[local] Abbreviation sees := (covers keep).

Lemma kept k : k ∈ keep -> r' !! k = r !! k.
Proof. intros Hk. by destruct (Hpruned k) as [|[? _]]. Qed.

Lemma engine k : k ∈ engine_columns -> r' !! k = r !! k.
Proof.
  intros Hk. destruct (Hpruned k) as [|(_ & _ & v & _ & Hp)]; [done|]. unfold plain in Hp. by rewrite (bool_decide_true _ Hk) in Hp.
Qed.

Lemma chars_app s t : chars (s +:+ t) = chars s ++ chars t.
Proof. induction s as [|c s IH]; [done|]. change (c :: chars (s +:+ t) = c :: (chars s ++ chars t)). by rewrite IH. Qed.

Lemma with_dot p f : r' !! (p +:+ "." +:+ f) = r !! (p +:+ "." +:+ f).
Proof.
  destruct (Hpruned (p +:+ "." +:+ f)) as [|(_ & _ & v & _ & Hp)]; [done|]. exfalso. unfold plain in Hp.
  rewrite !chars_app, !existsb_app in Hp. simpl in Hp. by rewrite !orb_true_r, andb_false_r in Hp.
Qed.

Lemma same_identifier name : name ∈ keep -> eval_identifier r' name = eval_identifier r name.
Proof.
  intros Hn. unfold eval_identifier. rewrite (kept name Hn). destruct (r !! name); [done|]. case_bool_decide as Hw; [|done].
  rewrite engine; [done|]. destruct Hw as [-> | ->]; cbn; set_solver.
Qed.

Lemma existsb_row (f : string * value -> bool) (m : row) : existsb f (map_to_list m) = true <-> exists k v, m !! k = Some v /\ f (k, v) = true.
Proof.
  rewrite existsb_exists. split.
  - intros ([k v] & Hin & Hf). exists k, v. split; [|done]. by apply elem_of_map_to_list, list_elem_of_In.
  - intros (k & v & Hk & Hf). exists (k, v). split; [|done]. by apply list_elem_of_In, elem_of_map_to_list.
Qed.

Lemma same_existsb (f : string * value -> bool) : (forall k v, plain k v = true -> f (k, v) = false) -> existsb f (map_to_list r') = existsb f (map_to_list r).
Proof.
  intros Hf. apply eq_true_iff_eq. rewrite !existsb_row. split; intros (k & v & Hk & Hv); exists k, v; (split; [|done]).
  - destruct (Hpruned k) as [He|(_ & He & _)]; congruence.
  - destruct (Hpruned k) as [He|(_ & _ & w & Hw & Hp)]; [congruence|]. rewrite Hk in Hw. injection Hw as <-. by rewrite Hf in Hv.
Qed.

Lemma same_field parent pv field : sees (collect_referenced_fields (FieldAccess parent field)) -> field <> "*" ->
  eval_field r' parent pv field = eval_field r parent pv field.
Proof.
  intros [_ Hs] Hf. cbn [collect_referenced_fields] in Hs. rewrite bool_decide_false in Hs by done. unfold eval_field.
  destruct (match pv with VObject m => object_get field m | _ => None end) as [v|]; [done|].
  destruct parent; try done. rewrite with_dot. destruct (r !! _) as [v|]; [done|]. rewrite same_existsb.
  - rewrite kept; [done|]. apply Hs. set_solver.
  - intros k v Hp. unfold plain in Hp. apply andb_true_iff in Hp as [_ Hp]. simpl. destruct v; [..|done]; by rewrite andb_false_r.
Qed.

Lemma same_first keys : (forall k, k ∈ keys -> k ∈ engine_columns) -> first_present keys r' = first_present keys r.
Proof.
  intros Hk. unfold first_present. f_equal. induction keys as [|k keys IH]; [done|]. cbn [omap list_omap].
  rewrite engine by (apply Hk; by left). rewrite IH; [done|]. intros. apply Hk. by right.
Qed.

Lemma same_event_time : resolve_event_time r' = resolve_event_time r.
Proof.
  unfold resolve_event_time. cbn [omap list_omap]. rewrite !kept by (apply Hkeep; set_solver). rewrite engine; [done|]. cbn. set_solver.
Qed.

Lemma same_meta evalv evalv' args keys : (forall k, k ∈ keys -> k ∈ engine_columns) ->
  match args with [] | Wildcard :: _ => True | Identifier name :: _ => name ∈ keep | _ => False end ->
  resolve_meta evalv' args r' keys = resolve_meta evalv args r keys.
Proof.
  intros Hk Ha. unfold resolve_meta. rewrite same_first by done. destruct args as [|[] args]; try done. by rewrite kept.
Qed.

Lemma static_meta name args : static_call name args = true -> Forall (fun a => sees (collect_referenced_fields a)) args ->
  to_ascii_lowercase name ∈ ["meta"; "mqtt"] -> match args with [] | Wildcard :: _ => True | Identifier name :: _ => name ∈ keep | _ => False end.
Proof.
  intros Hs Ha Hn. unfold static_call in Hs. rewrite bool_decide_true in Hs by done. destruct args as [|[] args]; try done.
  apply list.Forall_cons in Ha as [[_ Ha] _]. apply Ha. by left.
Qed.

Lemma same_context evalv evalv' name args : static_call name args = true -> Forall (fun a => sees (collect_referenced_fields a)) args ->
  eval_context_call evalv' name args r' = eval_context_call evalv name args r.
Proof.
  intros Hs Ha. unfold eval_context_call. pose proof (static_meta name args Hs Ha) as Hm.
  case_bool_decide as Hn; [rewrite (same_meta evalv); [done|keys|apply Hm; rewrite Hn; set_solver]|].
  case_bool_decide as Hq; [rewrite (same_meta evalv); [done|keys|apply Hm; rewrite Hq; set_solver]|].
  case_bool_decide; [by rewrite same_event_time|].
  case_bool_decide; [unfold resolve_rule_id; rewrite engine; [done|keys]|].
  case_bool_decide; [unfold resolve_rule_start; rewrite engine; [done|keys]|].
  unfold resolve_window_bound. by rewrite !same_first by keys.
Qed.

(** An aggregate over one record. *)
Lemma same_aggregate evalv evalv' args : Forall (fun a => evalv' a r' = evalv a r) args ->
  let local f : ExprEval := {| eval_val := f; eval_bool _ _ := false; eval_bool_stateful _ _ st := (false, st) |} in
  agg_count (H := local evalv') args [r'] = agg_count (H := local evalv) args [r] /\
  agg_sum (H := local evalv') args [r'] = agg_sum (H := local evalv) args [r] /\
  agg_avg (H := local evalv') args [r'] = agg_avg (H := local evalv) args [r] /\
  agg_min (H := local evalv') args [r'] = agg_min (H := local evalv) args [r] /\
  agg_max (H := local evalv') args [r'] = agg_max (H := local evalv) args [r].
Proof.
  intros Ha. destruct args as [|a args]; [done|]. apply list.Forall_cons in Ha as [Ha _].
  unfold agg_count, agg_sum, agg_avg, agg_min, agg_max, agg_extreme, agg_numeric_values. cbn [fmap list_fmap foldl eval_val]. rewrite Ha.
  split_and!; try done; by destruct args.
Qed.

Lemma same_call rec rec' evalv evalv' e name args pkey skip : static_call name args = true ->
  Forall (fun a => sees (collect_referenced_fields a)) args -> Forall (fun a => meq (rec' a) (rec a)) args -> Forall (fun a => evalv' a r' = evalv a r) args ->
  meq (call_step rec' evalv' r' e name args pkey skip) (call_step rec evalv r e name args pkey skip).
Proof.
  intros Hs Hc Hr Hv. pose proof (meq_eval_all _ _ _ Hr) as Hall. unfold call_step.
  assert (Hargs : forall f : list value -> M value, meq (bind_to (eval_all rec' args) f) (bind_to (eval_all rec args) f)) by auto.
  destruct (is_acc_call _); [apply Hargs|]. case_bool_decide; [apply Hargs|]. rewrite same_event_time.
  case_bool_decide; [apply Hargs|]. case_bool_decide; [apply Hargs|]. destruct (_ && _); [apply Hargs|]. case_bool_decide; [done|].
  case_bool_decide; [done|]. case_bool_decide; [unfold last_hit_time; by rewrite same_event_time|].
  case_bool_decide; [unfold rule_id; intros st; rewrite engine; [done|keys]|].
  case_bool_decide; [unfold rule_start; intros st; rewrite engine; [done|keys]|].
  rewrite (same_context evalv) by done. destruct (eval_context_call _ _ _ _); [done|].
  destruct (same_aggregate evalv evalv' args Hv) as (E1 & E2 & E3 & E4 & E5). case_bool_decide; [|apply Hargs].
  by rewrite E1, E2, E3, E4, E5.
Qed.

(** ** Expressions *)

Definition readable (e : Expr) : Prop := sees (collect_referenced_fields e) /\ static e = true.
Definition same (e : Expr) : Prop := readable e -> forall row_values, meq (eval_expr r' row_values e) (eval_expr r row_values e).

(** An analytic expression that has its value. *)
Ltac uncache := match goal with |- meq (match ?c with _ => _ end) _ => destruct c; [done|] end.

Lemma readable_all l : sees (gather collect_referenced_fields l) -> forallb static l = true -> Forall readable l.
Proof.
  rewrite covers_gather, forallb_forall, !list.Forall_forall. intros Hc Hs x Hx. split; [by apply Hc|]. by apply Hs, list_elem_of_In.
Qed.

Lemma readable_opt o : sees match o with Some x => collect_referenced_fields x | None => (false, []) end ->
  match o with Some x => static x | None => true end = true -> on_option readable o.
Proof. by intros Hc Hs x ->. Qed.

Lemma same_opt {A} o (f : value -> M A) (d : M A) row_values : on_option same o -> on_option readable o ->
  meq (match o with Some x => bind_to (eval_expr r' row_values x) f | None => d end)
      (match o with Some x => bind_to (eval_expr r row_values x) f | None => d end).
Proof. intros Hs Hr. destruct o as [x|]; [|done]. apply meq_bind; [|done]. by apply Hs, Hr. Qed.

Lemma same_both P l : Forall same l -> Forall readable l -> (forall x, same x -> readable x -> P x) -> Forall P l.
Proof. rewrite !list.Forall_forall. intros Hs Hr Hp x Hx. apply Hp; [by apply Hs|by apply Hr]. Qed.

(** The arguments of a call, evaluated with the state and without. *)
Lemma same_args name args row_values e pkey skip : Forall same args -> readable (Call name args) ->
  meq (call_step (eval_expr r' row_values) (fun a r => unwrap_or VNull (eval_expr r ∅ a ∅).1) r' e name args pkey skip)
      (call_step (eval_expr r row_values) (fun a r => unwrap_or VNull (eval_expr r ∅ a ∅).1) r e name args pkey skip).
Proof.
  intros Hs [Hc Hst]. cbn [collect_referenced_fields static] in *. apply covers_both in Hc as [_ Hc].
  apply andb_true_iff in Hst as [Hn Hst]. pose proof (readable_all args Hc Hst) as Hr. apply same_call; [done| | |].
  - by apply covers_gather.
  - apply same_both; [done..|]. intros x Hx Hrx. by apply Hx.
  - apply same_both; [done..|]. intros x Hx Hrx. by rewrite (Hx Hrx).
Qed.

Lemma same_in x items negated : same x -> Forall same items -> same (InList x items negated).
Proof.
  intros Hx Hs [Hc Hst] rv. cbn [collect_referenced_fields static eval_expr] in *. apply covers_both in Hc as [Hcx Hc].
  apply andb_true_iff in Hst as [Hsx Hst]. pose proof (readable_all items Hc Hst) as Hr. uncache.
  apply meq_bind; [by apply Hx|]. intros v. apply meq_bind; [|done]. clear Hc Hst.
  induction Hs as [|i items Hi _ IH]; [done|]. apply list.Forall_cons in Hr as [Hri Hr].
  apply meq_bind; [by apply Hi|]. intros iv. destruct (values_equal v iv); [done|by apply IH].
Qed.

Lemma same_clauses (test : value -> bool) (otherwise otherwise' : M value) clauses row_values :
  Forall (fun c => same c.1 /\ same c.2) clauses -> Forall (fun c => readable c.1 /\ readable c.2) clauses -> meq otherwise' otherwise ->
  meq ((fix go clauses := match clauses with
        | [] => otherwise'
        | (w, t) :: rest => bind_to (eval_expr r' row_values w) (fun wv => if test wv then eval_expr r' row_values t else go rest)
        end) clauses)
      ((fix go clauses := match clauses with
        | [] => otherwise
        | (w, t) :: rest => bind_to (eval_expr r row_values w) (fun wv => if test wv then eval_expr r row_values t else go rest)
        end) clauses).
Proof.
  intros Hs Hr Ho. induction Hs as [|[w t] clauses [Hw Ht] _ IH]; [done|]. apply list.Forall_cons in Hr as [[Hrw Hrt] Hr].
  apply meq_bind; [by apply Hw|]. intros wv. destruct (test wv); [by apply Ht|by apply IH].
Qed.

Lemma same_case operand clauses other :
  on_option same operand -> Forall (fun c => same c.1 /\ same c.2) clauses -> on_option same other -> same (Case operand clauses other).
Proof.
  intros Ho Hs He [Hc Hst] rv. cbn [collect_referenced_fields static eval_expr] in *. rewrite !covers_both in Hc. destruct Hc as (Hco & Hcc & Hce).
  rewrite !andb_true_iff in Hst. destruct Hst as [[Hso Hsc] Hse].
  pose proof (readable_opt _ Hco Hso) as Hro. pose proof (readable_opt _ Hce Hse) as Hre.
  assert (Hrc : Forall (fun c => readable c.1 /\ readable c.2) clauses).
  { apply covers_gather in Hcc. rewrite forallb_forall in Hsc. rewrite !list.Forall_forall in *. intros [w t] Hin.
    specialize (Hcc _ Hin). apply covers_both in Hcc as [? ?]. specialize (Hsc _ (proj1 (list_elem_of_In _ _) Hin)).
    apply andb_true_iff in Hsc as [? ?]. done. }
  uncache.
  assert (Hoth : meq (match other with Some x => eval_expr r' rv x | None => ret (Ok VNull) end)
                     (match other with Some x => eval_expr r rv x | None => ret (Ok VNull) end)).
  { destruct other as [x|]; [|done]. apply (He x eq_refl). by apply Hre. }
  destruct operand as [op|].
  - apply meq_bind; [apply (Ho op eq_refl); by apply Hro|]. intros ov. by apply (same_clauses (values_equal ov)).
  - by apply (same_clauses (fun wv => bool_decide (wv = VBool true))).
Qed.

Lemma same_over call part when : same call -> Forall same (match call with Call _ args => args | _ => [] end) ->
  on_option same part -> on_option same when -> same (Over call part when).
Proof.
  intros Hs Hargs Hp Hw [Hc Hst] rv. cbn [collect_referenced_fields static eval_expr] in *. rewrite !covers_both in Hc. destruct Hc as (Hcc & Hcp & Hcw).
  rewrite !andb_true_iff in Hst. destruct Hst as [[Hsc Hsp] Hsw]. uncache.
  apply meq_bind; [by apply same_opt, readable_opt|]. intros pkey. apply meq_bind; [by apply same_opt, readable_opt|]. intros skip.
  assert (Hr : readable call) by done. destruct call; try by apply Hs. by apply same_args.
Qed.

Ltac reading :=
  intros [Hc Hst] rv; cbn [collect_referenced_fields static eval_expr] in *; rewrite ?covers_both in Hc; rewrite ?andb_true_iff in Hst; uncache.

Lemma same_expr e : same e /\ Forall same (match e with Call _ args => args | _ => [] end).
Proof.
  induction e as [| except replace _ |name| |l op r0 [Hl _] [Hr _]|op x [Hx _]|x low high n [Hx _] [Hlo _] [Hhi _]
    |x items n [Hx _] Hi|x n [Hx _]|parent field [Hp _]|base index [Hb _] [Hi _]|base lo hi [Hb _] Hlo Hhi
    |name args Ha|operand clauses other Ho Hc He|call part when [Hc Hargs] Hp Hw] using Expr_ind'; try (split; [|constructor]).
  1-2,4: by reading.
  - reading. rewrite same_identifier; [done|]. apply Hc. by left.
  - reading. destruct Hc, Hst. apply meq_bind; [by apply Hl|]. intros lv. apply meq_bind; [by apply Hr|done].
  - reading. apply meq_bind; [by apply Hx|done].
  - reading. destruct Hc as (?&?&?), Hst as [[? ?] ?]. apply meq_bind; [by apply Hx|]. intros v.
    apply meq_bind; [by apply Hlo|]. intros lv. apply meq_bind; [by apply Hhi|done].
  - apply same_in; [done|]. eapply list.Forall_impl; [exact Hi|by intros ? []].
  - reading. apply meq_bind; [by apply Hx|done].
  - reading. destruct (decide (field = "*")) as [->|Hf]; [by destruct Hc|].
    apply meq_bind; [|intros pv; rewrite same_field; [done| |done]; by cbn [collect_referenced_fields]].
    rewrite bool_decide_false in Hc by done. apply Hp. split; [|done]. destruct parent; try by apply covers_both in Hc as [_ Hc].
    split; [done|]. intros n Hn. apply Hc. apply list_elem_of_singleton in Hn as ->. by left.
  - reading. destruct Hc, Hst. apply meq_bind; [by apply Hb|]. intros bv. apply meq_bind; [by apply Hi|done].
  - reading. destruct Hc as (?&?&?), Hst as [[? ?] ?]. apply meq_bind; [by apply Hb|]. intros bv.
    apply meq_bind; [apply same_opt; [by intros ? [? _]%Hlo|by apply readable_opt]|]. intros lv.
    apply meq_bind; [apply same_opt; [by intros ? [? _]%Hhi|by apply readable_opt]|done].
  - assert (Hs : Forall same args) by (eapply list.Forall_impl; [exact Ha|by intros ? []]). split; [|done].
    intros Hr rv. cbn [eval_expr]. uncache. by apply same_args.
  - apply same_case; [by intros ? [? _]%Ho| |by intros ? [? _]%He]. eapply list.Forall_impl; [exact Hc|]. by intros ? [[] []].
  - apply same_over; [done|done|by intros ? [? _]%Hp|by intros ? [? _]%Hw].
Qed.

(** What an expression reads, its value, errors and changes of the state, do not depend on
    the columns left out. *)
Lemma eval_same e row_values : readable e -> meq (eval_expr r' row_values e) (eval_expr r row_values e).
Proof. intros Hr. by apply same_expr. Qed.

(** ** Conditions and projections *)

Lemma condition_same e row_values : readable e -> meq (eval_bool_stateful_fallible r' row_values e) (eval_bool_stateful_fallible r row_values e).
Proof.
  intros Hr. assert (Hg : meq (eval_bool_general r' row_values e) (eval_bool_general r row_values e)).
  { intros st. unfold eval_bool_general. by rewrite eval_same. }
  assert (Hname : forall name, name ∈ (collect_referenced_fields e).2 -> r' !! name = r !! name).
  { intros name Hn. apply kept. by apply (proj1 Hr). }
  destruct e as [| | | |l op x| | | | | | | | | |]; try exact Hg. cbn [collect_referenced_fields] in Hname.
  cbn [eval_bool_stateful_fallible]. destruct l, x; try exact Hg; (rewrite Hname; [by destruct (r !! _)|]); simpl; set_solver.
Qed.

Lemma same_fast e : sees (collect_referenced_fields e) -> fast_f64 r' e = fast_f64 r e.
Proof.
  induction e as [| | | |l IHl op x IHx| | | | | | | | | |]; try done; cbn [collect_referenced_fields fast_f64].
  - intros [_ Hn]. rewrite kept; [done|]. apply Hn. by left.
  - intros [Hl Hx]%covers_both. by rewrite IHl, IHx.
Qed.

Lemma fields_same stmt row_values out f : readable f.2.2 -> meq (project_field stmt r' row_values out f) (project_field stmt r row_values out f).
Proof.
  destruct f as [idx [key field]]. simpl. intros Hr. pose proof (eval_same field row_values Hr) as He. unfold project_field.
  assert (Hgen : forall g, meq (bind_to (match try_eval_numeric_fast field r' with Some v => ret (Ok v) | None => map_err g (eval_expr r' row_values field) end)
                                  (fun v => ret (Ok (<[key:=v]> out))))
                               (bind_to (match try_eval_numeric_fast field r with Some v => ret (Ok v) | None => map_err g (eval_expr r row_values field) end)
                                  (fun v => ret (Ok (<[key:=v]> out))))).
  { intros g. unfold try_eval_numeric_fast. rewrite same_fast by apply Hr. apply meq_bind; [|done]. case_match; [done|by apply meq_map_err]. }
  destruct field as [| |name| | | | | | |parent leaf| | |name args| |]; try apply Hgen; try (destruct Hr as [[Hr _] _]; discriminate Hr).
  - rewrite same_identifier; [done|]. apply (proj1 Hr). by left.
  - case_bool_decide as Hl; [destruct Hr as [[Hr _] _]; cbn in Hr; by rewrite bool_decide_true in Hr|]. by apply meq_bind; [apply meq_map_err|].
  - destruct Hr as [Hc Hs]. cbn [collect_referenced_fields static] in Hc, Hs. apply covers_both in Hc as [_ Hc]. apply andb_true_iff in Hs as [_ Hs].
    pose proof (readable_all args Hc Hs) as Hargs. destruct (eq_ignore_ascii_case name "extract").
    + destruct args as [|arg args]; [done|]. apply list.Forall_cons in Hargs as [Ha _]. apply meq_bind; [|done]. by apply meq_map_err, eval_same.
    + destruct (_ && _); [|by apply meq_bind; [apply meq_map_err|]]. unfold project_changed_cols. destruct args as [|p [|n cols]]; [done|done|].
      apply list.Forall_cons in Hargs as [Hp [Hn Hcols]%list.Forall_cons].
      assert (Hnull : forall e, readable e -> meq (eval_or_null r' row_values e) (eval_or_null r row_values e)).
      { intros e Hre st. unfold eval_or_null. by rewrite eval_same. }
      apply meq_bind; [by apply Hnull|]. intros pv. apply meq_bind; [by apply Hnull|]. intros nv. apply meq_foldM. intros b [i x] Hx.
      assert (Hrx : readable x). { apply list_elem_of_lookup in Hx as [j Hj]. rewrite list_lookup_imap in Hj.
        destruct (cols !! j) eqn:Hcj; simplify_eq/=. by eapply list.Forall_lookup_1 in Hcj. }
      unfold changed_cols_arg. simpl. destruct x; try by apply meq_bind; [apply Hnull|]. by destruct Hrx as [[? _] _].
Qed.

(** ** Statements *)

Definition inside (e : Expr) : Prop := readable e -> Forall readable (collect_analytic_exprs e).

Lemma inside_own e l : Forall readable l -> readable e -> Forall readable (l ++ if is_analytic_expr e then [e] else []).
Proof. intros Hl He. apply Forall_app. split; [done|]. destruct (is_analytic_expr e); [by apply list.Forall_singleton|constructor]. Qed.

Lemma inside_opt o : on_option inside o -> on_option readable o -> Forall readable match o with Some x => collect_analytic_exprs x | None => [] end.
Proof. intros Hi Hr. destruct o as [x|]; [|constructor]. by apply Hi, Hr. Qed.

Lemma inside_all l : Forall inside l -> Forall readable l -> Forall readable (concat (map collect_analytic_exprs l)).
Proof.
  intros Hi Hr. induction Hi as [|x l Hx _ IH]; [constructor|]. apply list.Forall_cons in Hr as [Hrx Hr]. simpl. apply Forall_app.
  split; [by apply Hx|by apply IH].
Qed.

Ltac looking := intros Hr; cbn [collect_analytic_exprs]; apply inside_own; [|exact Hr]; destruct Hr as [Hc Hst];
  cbn [collect_referenced_fields static] in Hc, Hst; rewrite ?covers_both in Hc; rewrite ?andb_true_iff in Hst; rewrite ?Forall_app.

Lemma analytic_inside e : inside e /\ Forall inside (match e with Call _ args => args | _ => [] end).
Proof.
  induction e as [| except replace _ |name| |l op r0 [Hl _] [Hr0 _]|op x [Hx _]|x low high n [Hx _] [Hlo _] [Hhi _]
    |x items n [Hx _] Hi|x n [Hx _]|parent field [Hp _]|base index [Hb _] [Hi _]|base lo hi [Hb _] Hlo Hhi
    |name args Ha|operand clauses other Ho Hcl He|call part when [Hcall Hargs] Hp Hw] using Expr_ind'; try (split; [|constructor]).
  1,3-4: by looking; constructor.
  - intros [[Hr _] _]. discriminate Hr.
  - looking. destruct Hc, Hst. split; [by apply Hl|by apply Hr0].
  - looking. by apply Hx.
  - looking. destruct Hc as (?&?&?), Hst as [[? ?] ?]. split_and!; [by apply Hx|by apply Hlo|by apply Hhi].
  - looking. destruct Hc, Hst. split; [by apply Hx|]. apply inside_all; [|by apply readable_all]. eapply list.Forall_impl; [exact Hi|by intros ? []].
  - looking. by apply Hx.
  - looking. destruct parent; try (constructor; fail). all: case_bool_decide; [by destruct Hc|]. all: try (apply covers_both in Hc as [_ Hc]; by apply Hp).
  - looking. destruct Hc, Hst. split; [by apply Hb|by apply Hi].
  - looking. destruct Hc as (?&?&?), Hst as [[? ?] ?].
    split_and!; [by apply Hb|apply inside_opt; [by intros ? [? _]%Hlo|by apply readable_opt]|apply inside_opt; [by intros ? [? _]%Hhi|by apply readable_opt]].
  - assert (Hs : Forall inside args) by (eapply list.Forall_impl; [exact Ha|by intros ? []]). split; [|done].
    looking. destruct Hc, Hst. by apply inside_all, readable_all.
  - looking. destruct Hc as (?&Hcc&?), Hst as [[? Hsc] ?].
    split_and!; [apply inside_opt; [by intros ? [? _]%Ho|by apply readable_opt]|apply inside_opt; [by intros ? [? _]%He|by apply readable_opt]|].
    apply covers_gather in Hcc. rewrite forallb_forall in Hsc. apply Forall_concat, Forall_map. rewrite !list.Forall_forall in *. intros [w t] Hin.
    specialize (Hcc _ Hin). apply covers_both in Hcc as [? ?]. specialize (Hsc _ (proj1 (list_elem_of_In _ _) Hin)). apply andb_true_iff in Hsc as [? ?].
    destruct (Hcl _ Hin) as [[Hiw _] [Hit _]]. apply Forall_app. split; [by apply Hiw|by apply Hit].
  - looking. destruct Hc as (?&?&?), Hst as [[Hsc ?] ?].
    split_and!; [|apply inside_opt; [by intros ? [? _]%Hp|by apply readable_opt]|apply inside_opt; [by intros ? [? _]%Hw|by apply readable_opt]].
    destruct call as [| | | | | | | | | | | |name args| |]; try constructor. cbn [collect_referenced_fields static] in *. apply andb_true_iff in Hsc as [_ ?].
    apply inside_all; [done|]. apply readable_all; [|done].
    match goal with K : sees (both _ (gather _ _)) |- _ => by apply covers_both in K as [_ K] end.
Qed.

Lemma advance_same wrap row_values call : readable call -> meq (advance_call wrap r' row_values call) (advance_call wrap r row_values call).
Proof. intros Hr. unfold advance_call. destruct (row_values !! _); [done|]. apply meq_bind; [|done]. by apply meq_map_err, eval_same. Qed.

Lemma advance_all_same wrap e row_values : readable e ->
  meq (foldM (advance_call wrap r') row_values (collect_analytic_exprs e)) (foldM (advance_call wrap r) row_values (collect_analytic_exprs e)).
Proof.
  intros Hr. apply meq_foldM. intros rv call Hin. apply advance_same. destruct (analytic_inside e) as [Hi _]. specialize (Hi Hr).
  rewrite list.Forall_forall in Hi. by apply Hi.
Qed.

(** Every expression of a statement and of its [UNION] branches is static. *)
Fixpoint static_stmt (stmt : SelectStmt) : bool :=
  forallb static (statement_exprs stmt) && match set_op stmt with Some (_, rhs) => static_stmt rhs | None => true end.

Definition readable_stmt (stmt : SelectStmt) : Prop := sees (stmt_referenced_fields stmt) /\ static_stmt stmt = true.

Lemma readable_exprs stmt : readable_stmt stmt -> Forall readable (statement_exprs stmt).
Proof.
  intros [Hc Hs]. destruct stmt as [fs ? ? ? ? ? ? ? ? ? ? ? ? ? so]. cbn [stmt_referenced_fields static_stmt] in *.
  apply covers_both in Hc as [Hc _]. apply andb_true_iff in Hs as [Hs _]. by apply readable_all.
Qed.

Lemma readable_rhs stmt op rhs : readable_stmt stmt -> set_op stmt = Some (op, rhs) -> readable_stmt rhs.
Proof.
  intros [Hc Hs] Hso. destruct stmt as [fs ? ? ? ? ? ? ? ? ? ? ? ? ? so]. cbn [stmt_referenced_fields static_stmt set_op] in *. subst so.
  apply covers_both in Hc as [_ Hc]. by apply andb_true_iff in Hs as [_ Hs].
Qed.

Lemma readable_fields stmt : readable_stmt stmt -> Forall readable (fields stmt).
Proof. intros Hr%readable_exprs. unfold statement_exprs in Hr. by apply Forall_app in Hr as [? _]. Qed.

Lemma readable_where stmt condition : readable_stmt stmt -> where_clause stmt = Some condition -> readable condition.
Proof.
  intros Hr%readable_exprs Hw. unfold statement_exprs in Hr. apply Forall_app in Hr as [_ Hr]. rewrite Hw in Hr. by apply list.Forall_cons in Hr as [? _].
Qed.

Lemma imap_pair_elem {A} (l : list A) i x : (i, x) ∈ imap pair l -> x ∈ l.
Proof.
  intros [j Hj]%list_elem_of_lookup. rewrite list_lookup_imap in Hj. destruct (l !! j) eqn:Hl; simplify_eq/=. by eapply list_elem_of_lookup_2.
Qed.

Lemma select_same stmt row_values : readable_stmt stmt ->
  meq (eval_select_stateful_fallible stmt r' row_values) (eval_select_stateful_fallible stmt r row_values).
Proof.
  revert stmt. fix IH 1. intros stmt Hr. pose proof (readable_fields stmt Hr) as Hf. pose proof (readable_rhs stmt) as Hrhs.
  destruct stmt as [fs al fr fa js wc gb w wf wt wp hv ob lim so]. cbn [eval_select_stateful_fallible set_op].
  apply meq_bind.
  - apply meq_foldM. intros out [idx [key field]] Hin%imap_pair_elem. apply fields_same. simpl. unfold named_fields in Hin.
    apply list_elem_of_lookup in Hin as [j Hj]. rewrite list_lookup_imap in Hj. cbn [fields] in Hj.
    destruct (fs !! j) eqn:Hl; simplify_eq/=. by eapply list.Forall_lookup_1 in Hl.
  - intros l. destruct so as [[op rhs]|]; [|done]. apply meq_bind; [|done]. apply (IH rhs). by apply (Hrhs op rhs).
Qed.

Lemma filtered_same stmt : readable_stmt stmt ->
  meq (eval_select_filtered_stateful_fallible stmt r') (eval_select_filtered_stateful_fallible stmt r).
Proof.
  intros Hr. unfold eval_select_filtered_stateful_fallible, eval_select_stateless_fast. pose proof (readable_where stmt) as Hw.
  destruct (where_clause stmt) as [c|]; [|by apply select_same]. specialize (Hw c Hr eq_refl). destruct (negb _).
  - apply meq_bind; [by apply condition_same|]. intros b. destruct b; [by apply select_same|done].
  - apply meq_bind.
    + apply meq_bind; [|intros rv; by apply advance_all_same]. apply meq_foldM. intros rv [i f] Hin%imap_pair_elem.
      apply advance_all_same. pose proof (readable_fields stmt Hr) as Hf. rewrite list.Forall_forall in Hf. by apply Hf.
    + intros rv. apply meq_bind; [by apply condition_same|]. intros b. destruct b; [by apply select_same|done].
Qed.
End soundness.

(** ** The masked payload *)

Lemma all_members_snoc l k v : all_members (l ++ [(k, v)]) = <[k := v]> (all_members l).
Proof. unfold all_members. by rewrite foldl_app. Qed.

Lemma decode_members_lookup mask l k : decode_members mask l !! k = if materialized mask k then all_members l !! k else None.
Proof.
  induction l as [|[j v] l IH] using rev_ind.
  { unfold decode_members, all_members. simpl. rewrite lookup_empty. by destruct (materialized mask k). }
  rewrite all_members_snoc. unfold decode_members in *. rewrite foldl_app. simpl. destruct (materialized mask j) eqn:Hj.
  - destruct (decide (j = k)) as [->|Hk]; [by rewrite !lookup_insert_eq, Hj|by rewrite !lookup_insert_ne, IH].
  - rewrite IH. destruct (materialized mask k) eqn:Hk; [|done]. rewrite lookup_insert_ne; congruence.
Qed.

Lemma all_members_elem l k v : all_members l !! k = Some v -> (k, v) ∈ l.
Proof.
  induction l as [|[j w] l IH] using rev_ind; [done|]. rewrite all_members_snoc. intros Hk. apply elem_of_app.
  destruct (decide (j = k)) as [->|Hjk]; [rewrite lookup_insert_eq in Hk; right; simplify_eq; by left|].
  rewrite lookup_insert_ne in Hk by done. left. by apply IH.
Qed.

Lemma masked_pruned keep shared members extra : (forall k, k ∈ keep -> k ∈ mask_fields shared) ->
  Forall (fun kv => materialized shared kv.1 || plain kv.1 kv.2 = true) members ->
  pruned keep (extra ∪ all_members members) (extra ∪ decode_members shared members).
Proof.
  intros Hk Hm k. rewrite !lookup_union, decode_members_lookup. destruct (materialized shared k) eqn:Hs; [by left|].
  destruct (extra !! k); [by left; destruct (all_members members !! k)|].
  destruct (all_members members !! k) as [v|] eqn:Hv; [|by left]. right. split_and!; [|done|].
  - intros Hin%Hk. unfold materialized in Hs. by rewrite bool_decide_true in Hs.
  - exists v. split; [done|]. apply all_members_elem in Hv. rewrite list.Forall_forall in Hm. specialize (Hm _ Hv). simpl in Hm. by rewrite Hs in Hm.
Qed.

Lemma required_covers (R : Referenced) ts mask : extract_required_fields_from_expr_names R ts = Some mask ->
  covers (mask_fields mask) R /\ (forall k, k ∈ ["timestamp"; "event_time"] -> k ∈ mask_fields mask).
Proof.
  unfold extract_required_fields_from_expr_names. destruct (R.1 || _) eqn:Hw; [done|]. intros [= <-]. apply orb_false_iff in Hw as [Hw _].
  cbn [mask_fields]. split; [split; [done|]|]; intros k Hk; apply elem_of_list_to_set, elem_of_app; [by left|right]. apply elem_of_app. right. set_solver.
Qed.

(** Decoding only the columns that the statement of a rule mentions does not change what
    the rule computes: on a payload decoded with any mask that has them (the rule's own or
    the one it shares with other rules), with the same columns added by the engine, the WHERE
    clause, the analytic functions and the projection, with the branches of a UNION, give the
    same row, the same error and the same rule state as on the whole payload.  The members
    left out must be neither objects nor have a dot or an engine name, and [meta] must
    name its column. *)
Lemma masked_select `{Text} `{Functions} `{WallClock} stmt timestamp_field needed shared members extra st :
  extract_required_fields_from_expr_names (stmt_referenced_fields stmt) timestamp_field = Some needed ->
  mask_fields needed ⊆ mask_fields shared -> static_stmt stmt = true ->
  Forall (fun kv => materialized shared kv.1 || plain kv.1 kv.2 = true) members ->
  eval_select_filtered_stateful_fallible stmt (extra ∪ decode_members shared members) st =
  eval_select_filtered_stateful_fallible stmt (extra ∪ all_members members) st.
Proof.
  intros Hn Hsub Hs Hm. apply required_covers in Hn as [Hc Hk].
  apply (filtered_same (mask_fields needed)); [|done|by split]. by apply masked_pruned.
Qed.

Module FieldMaskSample.
#[export] Existing Instance ParserSample.ascii_only.
#[export] Instance text : Text := {| value_to_string _ := "v"; map_to_json _ := "{}"; parse_rfc3339 _ := None |}.
#[export] Instance functions : Functions := {| eval_call_fallible _ _ := Ok VNull; eval_call _ _ := VNull; expr_debug _ := "" |}.
#[export] Instance clock : WallClock := 0.
#[export] Instance schema_text : SchemaText := {| parse_json _ := None; parse_naive _ := None |}.

Definition parsed (sql : string) : option SelectStmt := match parse_select_text (cps sql) with POk stmt _ => Some stmt | _ => None end.
Definition mask_of (sql : string) : option JsonFieldMask :=
  stmt ← parsed sql; extract_required_fields_from_expr_names (stmt_referenced_fields stmt) None.
Definition has (sql column : string) : option bool := (fun m => bool_decide (column ∈ mask_fields m)) <$> mask_of sql.

Definition int (i : Z) : value := value_of_i64 i.
Definition members : list (string * value) := [("a", int 7); ("b", int 9); ("c", VArray [int 1]); ("a", int 8); ("error", VString "e")].

(** A member that no clause mentions is skipped, the last of two members of a name is taken,
    errors are kept. *)
Example masked_members :
  (fun m => decode_members m members) <$> mask_of "SELECT a AS x FROM demo WHERE a > 5" = Some ({["a" := int 8; "error" := VString "e"]}).
Proof. vm_compute. done. Qed.

(** The filter and the trigger of a window, its partition and the conditions of a state
    window are not looked at, so their columns are missing from the payload. *)
Example window_columns_missing :
  map (fun sql => has sql "b")
    ["SELECT count(a) FROM demo GROUP BY TUMBLINGWINDOW(ss, 10) FILTER (WHERE b > 5)";
     "SELECT a FROM demo GROUP BY SLIDINGWINDOW(ss, 10) OVER (WHEN b > 5)";
     "SELECT a FROM demo GROUP BY STATEWINDOW(b > 5, b < 1)"]
  = [Some false; Some false; Some false].
Proof. by vm_compute. Qed.

Definition columns (sql : string) (members : list (string * value)) : option row := (fun m => decode_members m members) <$> mask_of sql.

(** The rule counts the records whose [b] is above 5, and sees none. *)
Example window_filter_sees_nothing :
  let sql := "SELECT count(a) FROM demo GROUP BY TUMBLINGWINDOW(ss, 10) FILTER (WHERE b > 5)" in
  let passes r := (fun stmt => default true ((fun f => eval_bool f r) <$> window_filter stmt)) <$> parsed sql in
  passes (all_members members) = Some true /\ columns sql members ≫= passes = Some false.
Proof. split; by vm_compute. Qed.

(** Columns of a declared stream are found in any case, but only after the mask, which
    knows the name of the statement; and a literal argument of [meta] is not a column. *)
Example other_case_lost :
  let declared := [mkField "temp" "bigint" None] in
  let payload := [("Temp", int 21)] in
  enforce_stream_schema (all_members payload) declared !! "temp" = Some (int 21) /\
  ((fun r => enforce_stream_schema r declared !! "temp") <$> columns "SELECT temp FROM demo" payload) = Some None.
Proof. split; by vm_compute. Qed.

Example meta_of_literal : has "SELECT a, meta('c') AS m FROM demo" "c" = Some false.
Proof. by vm_compute. Qed.

(** With an object left out, a qualified column is looked up without its owner. *)
Example owner_left_out :
  let payload := [("f", int 1); ("other", VObject [("f", int 2)])] in
  let value r := (eval_expr r ∅ (FieldAccess (Identifier "p") "f") ∅).1 in
  value (all_members payload) = Ok VNull /\ value <$> columns "SELECT p.f FROM demo" payload = Some (Ok (int 1)).
Proof. split; by vm_compute. Qed.
End FieldMaskSample.
