(* ===== verification/SharedSources.v ===== *)
(** * Shared sources ([bootstrap_stream_sources], [cancel_rule_source] and their helpers of
      [crates/rekuiper-server/src/engine/mod.rs])

    The rules that read a stream share one source.  The server keeps, per stream, the tasks
    of its source, the rules that read it, what each of them needs of a payload, and the mask
    the source decodes with, in a cell the source looks at for every message. *)

From S2P Require Import Prelude Rust Characters Json Ast Engine Columns Values Eval Projection Parser Statements ParserFacts FieldMask.

Set Default Goal Selector "!".

(** ** State *)

(** What the definition of a stream resolves to: an endpoint of the HTTP server, an MQTT
    source (which decodes with the mask), a source of another type (which attaches metadata,
    as EdgeX, or not), a video source whose configuration is refused with an error, or
    nothing. *)
Inductive Source := HttpPush (path : string) | MqttSource | OtherSource (attaches : bool) | InvalidVideo (e : string).

(** A task that was spawned: its stream, the cell of its mask, the endpoint it removes at
    its end. *)
Record Task := mkTask { task_stream : string; task_mask : option nat; task_endpoint : option string }.

Inductive TaskState := Running | Cancelled | Ended.

Record AppState := mkState {
  stream_source_cancels : gmap string (list nat);
  stream_active_rules : gmap string (gset string);
  rule_streams : gmap string (gset string);
  source_cancels : gmap string nat;
  stream_attach_meta : gmap string bool;
  stream_field_masks : gmap string nat;
  stream_rule_field_masks : gmap string (gmap string (option (gset string)));
  http_push_endpoints : gmap string string;
  cells : list (option JsonFieldMask);
  tasks : list (Task * TaskState);
}.

Definition initial : AppState := mkState ∅ ∅ ∅ ∅ ∅ ∅ ∅ ∅ [] [].

(** ** Masks *)

Definition compute_union_field_mask (rules_map : gmap string (option (gset string))) : option JsonFieldMask :=
  sets ← mapM snd (map_to_list rules_map);
  let union_set : gset string := ⋃ sets in
  if bool_decide (union_set = ∅) then None else Some (mkMask union_set).

(** The cell of the stream's mask, a new one when it has none. *)
Definition update_stream_field_mask (stream rule : string) (field_mask : option JsonFieldMask) (s : AppState) : nat * AppState :=
  let rules_map := <[rule := mask_fields <$> field_mask]> (default ∅ (stream_rule_field_masks s !! stream)) in
  let masks := <[stream := rules_map]> (stream_rule_field_masks s) in
  let combined := compute_union_field_mask rules_map in
  let '(mkState sc ar rs rc am fm _ hp cs ts) := s in
  match fm !! stream with
  | Some cell => (cell, mkState sc ar rs rc am fm masks hp (<[cell := combined]> cs) ts)
  | None => let cell := length cs in (cell, mkState sc ar rs rc am (<[stream := cell]> fm) masks hp (cs ++ [combined]) ts)
  end.

(** ** Starting *)

Definition add_to_set (k x : string) (m : gmap string (gset string)) : gmap string (gset string) := <[k := {[x]} ∪ default ∅ (m !! k)]> m.

(** The senders of [source_cancels] have no receivers, so only their number is kept. *)
Definition add_reader (stream rule : string) (s : AppState) : AppState :=
  let '(mkState sc ar rs rc am fm rm hp cs ts) := s in
  mkState sc (add_to_set stream rule ar) (add_to_set rule stream rs) (<[rule := S (default 0%nat (rc !! rule))]> rc) am fm rm hp cs ts.

Definition register_rule_stream_source (stream rule : string) (t : Task) (s : AppState) : AppState :=
  let '(mkState sc ar rs rc am fm rm hp cs ts) := add_reader stream rule s in
  mkState (<[stream := default [] (sc !! stream) ++ [length ts]]> sc) ar rs rc am fm rm hp cs (ts ++ [(t, Running)]).

Definition set_meta (stream : string) (b : bool) (s : AppState) : AppState :=
  let '(mkState sc ar rs rc am fm rm hp cs ts) := s in mkState sc ar rs rc (<[stream := b]> am) fm rm hp cs ts.

(** [flag.store(true)] on the flag of the source, when it has one. *)
Definition raise_meta (stream : string) (needs_meta : bool) (s : AppState) : AppState :=
  match stream_attach_meta s !! stream with Some _ => if needs_meta then set_meta stream true s else s | None => s end.

Definition add_endpoint (path stream : string) (s : AppState) : AppState :=
  let '(mkState sc ar rs rc am fm rm hp cs ts) := s in mkState sc ar rs rc am fm rm (<[path := stream]> hp) cs ts.

(** With the error that is written to the status of the rule: that of a video source whose
    configuration is refused, which is neither registered nor started. *)
Definition start_source (resolved : option Source) (rule stream : string) (needs_meta : bool) (cell : nat) (s : AppState)
    : option string * AppState :=
  match resolved with
  | Some (HttpPush path) =>
      (None, add_endpoint path stream (register_rule_stream_source stream rule (mkTask stream None (Some path)) s))
  | Some MqttSource => (None, register_rule_stream_source stream rule (mkTask stream (Some cell) None) (set_meta stream needs_meta s))
  | Some (OtherSource attaches) =>
      (None, register_rule_stream_source stream rule (mkTask stream None None) (if attaches then set_meta stream needs_meta s else s))
  | Some (InvalidVideo e) => (Some e, s)
  | None => (None, s)
  end.

Definition bootstrap_stream_sources (resolved : option Source) (rule stream : string) (needs_meta : bool)
    (field_mask : option JsonFieldMask) (s : AppState) : option string * AppState :=
  if bool_decide (rule ∈ default ∅ (stream_active_rules s !! stream)) then
    (None, (update_stream_field_mask stream rule field_mask (raise_meta stream needs_meta s)).2)
  else
    match stream_source_cancels s !! stream with
    | Some _ => (None, (update_stream_field_mask stream rule field_mask (raise_meta stream needs_meta (add_reader stream rule s))).2)
    | None => let '(cell, s) := update_stream_field_mask stream rule field_mask s in start_source resolved rule stream needs_meta cell s
    end.

(** ** Stopping *)

Definition cancel_task (ts : list (Task * TaskState)) (n : nat) : list (Task * TaskState) :=
  alter (fun t => (t.1, match t.2 with Running => Cancelled | other => other end)) n ts.

(** The stream's source stops with everything that is kept for the stream. *)
Definition cancel_stream_sources (stream : string) (s : AppState) : AppState :=
  let '(mkState sc ar rs rc am fm rm hp cs ts) := s in
  mkState (delete stream sc) (delete stream ar) rs rc (delete stream am) (delete stream fm) (delete stream rm)
    (filter (fun e => e.2 <> stream) hp) cs (foldl cancel_task ts (default [] (sc !! stream))).

(** A rule leaves a stream: the source stops with its last reader, otherwise the mask
    is computed anew. *)
Definition leave_stream (rule : string) (s : AppState) (stream : string) : AppState :=
  let '(mkState sc ar rs rc am fm rm hp cs ts) := s in
  let left := (fun rules => rules ∖ {[rule]}) <$> ar !! stream in
  let ar' := match left with Some rules => <[stream := rules]> ar | None => ar end in
  if bool_decide (left = Some ∅) then cancel_stream_sources stream (mkState sc ar' rs rc am fm rm hp cs ts)
  else
    let rules_map := delete rule <$> rm !! stream in
    let rm' := match rules_map with Some m => <[stream := m]> rm | None => rm end in
    let recomputed := rules_map ≫= compute_union_field_mask in
    mkState sc ar' rs rc am fm rm' hp (match fm !! stream with Some cell => <[cell := recomputed]> cs | None => cs end) ts.

Definition cancel_rule_source (rule : string) (s : AppState) : AppState :=
  let '(mkState sc ar rs rc am fm rm hp cs ts) := s in
  let streams : gset string := default ∅ (rs !! rule) in
  foldl (leave_stream rule) (mkState sc ar (delete rule rs) (delete rule rc) am fm rm hp cs ts) (elements streams).

(** The end of a task.  That of an endpoint waits until it is cancelled, and removes the
    endpoint when it still belongs to its stream; any other task may also end by itself (a
    file is read, a connection is lost, a simulator without [loop] has sent its data), and
    nothing else changes then. *)
Definition end_task (n : nat) (s : AppState) : AppState :=
  let '(mkState sc ar rs rc am fm rm hp cs ts) := s in
  match ts !! n with
  | Some (t, Running) =>
      if bool_decide (is_Some (task_endpoint t)) then s else mkState sc ar rs rc am fm rm hp cs (<[n := (t, Ended)]> ts)
  | Some (t, Cancelled) =>
      let hp' := match task_endpoint t with
                 | Some path => if bool_decide (hp !! path = Some (task_stream t)) then delete path hp else hp
                 | None => hp
                 end in
      mkState sc ar rs rc am fm rm hp' cs (<[n := (t, Ended)]> ts)
  | _ => s
  end.

(** ** The sources of a rule *)

(** What the server knows of a name: a table, or a stream with its definition's [TIMESTAMP]
    option and the source it resolves to; [table_source] starts the source of a table. *)
Record Catalogue := mkCatalogue {
  is_table : string -> bool;
  timestamp_option : string -> option string;
  resolve : string -> option Source;
  table_source : string -> AppState -> AppState;
}.

Definition needs_metadata (stmt : SelectStmt) : bool :=
  existsb (fun f => eq_ignore_ascii_case f "meta" || eq_ignore_ascii_case f "mqtt") (stmt_called_functions stmt).

Definition mask_for_stream (cat : Catalogue) (stmt : SelectStmt) (stream : string) : option JsonFieldMask :=
  extract_required_fields_from_expr_names (stmt_referenced_fields stmt) (timestamp_option cat stream).

Definition bootstrap_one (cat : Catalogue) (rule : string) (stmt : SelectStmt) (s : AppState) (name : string) : option string * AppState :=
  if is_table cat name then (None, table_source cat name s)
  else bootstrap_stream_sources (resolve cat name) rule name (needs_metadata stmt) (mask_for_stream cat stmt name) s.

Definition joined_sources (cat : Catalogue) (stmt : SelectStmt) : list string :=
  List.filter (fun name => is_table cat name || negb (bool_decide (name = from stmt))) (map target (joins stmt)).

Definition bootstrap_all (cat : Catalogue) (rule : string) (stmt : SelectStmt) (names : list string) (s : AppState) : list string * AppState :=
  foldl (fun '(errors, s) name => let '(e, s) := bootstrap_one cat rule stmt s name in (errors ++ option_list e, s)) ([], s) names.

(** The sources of a rule are started, with the errors that are written to its status. *)
Definition bootstrap_rule_sources (cat : Catalogue) (rule : string) (stmt : SelectStmt) (s : AppState) : list string * AppState :=
  bootstrap_all cat rule stmt (from stmt :: joined_sources cat stmt) s.

(** * One source per stream, decoding what its readers need

    The tables of the server against a map of the readers of every stream: a stream has one
    registered source exactly while some rule reads it, which runs unless it has ended by
    itself, and the mask the source decodes with has what every reader needs, whatever the
    order in which rules start, stop and restart, streams are dropped and sources end. *)

#[local] Set Warnings "-clear-no-such-hyp".
#[local] Set Warnings "-register-all".

(** ** Specification: the readers of every stream, with what they need *)

Abbreviation Need := (option (gset string)).
Abbreviation Readers := (gmap string (gmap string Need)).

Inductive Op :=
  | Join (resolved : option Source) (rule stream : string) (needs_meta : bool) (field_mask : option JsonFieldMask)
  | Leave (rule : string)
  | DropStream (stream : string)
  | EndTask (n : nat).

Definition remaining (rule : string) (m : gmap string Need) : option (gmap string Need) :=
  let m := delete rule m in if bool_decide (m = ∅) then None else Some m.

(** What the stream resolves to is started. *)
Definition startable (resolved : option Source) : bool := match resolved with None | Some (InvalidVideo _) => false | Some _ => true end.

Definition readers_step (a : Readers) (op : Op) : Readers :=
  match op with
  | Join resolved rule stream _ field_mask =>
      match a !! stream, startable resolved with
      | None, false => a
      | _, _ => <[stream := <[rule := mask_fields <$> field_mask]> (default ∅ (a !! stream))]> a
      end
  | Leave rule => omap (remaining rule) a
  | DropStream stream => delete stream a
  | EndTask _ => a
  end.

Definition op_step (s : AppState) (op : Op) : AppState :=
  match op with
  | Join resolved rule stream needs_meta field_mask => (bootstrap_stream_sources resolved rule stream needs_meta field_mask s).2
  | Leave rule => cancel_rule_source rule s
  | DropStream stream => cancel_stream_sources stream s
  | EndTask n => end_task n s
  end.

(** What a reader needs is decoded: no mask, or one that has the reader's columns. *)
Definition decodes (mask : option JsonFieldMask) (need : Need) : Prop :=
  match mask with None => True | Some m => exists columns, need = Some columns /\ columns ⊆ mask_fields m end.

(** ** The union of the masks *)

Lemma union_decodes rules_map rule need : rules_map !! rule = Some need -> decodes (compute_union_field_mask rules_map) need.
Proof.
  intros Hr. unfold compute_union_field_mask. destruct (mapM snd (map_to_list rules_map)) as [sets|] eqn:Hm; [|done]. simpl.
  apply mapM_Some_1 in Hm. case_bool_decide; [done|]. apply elem_of_map_to_list, list_elem_of_lookup in Hr as [i Hi].
  destruct (Forall2_lookup_l _ _ _ _ _ Hm Hi) as (columns & Hc & Hn). exists columns. split; [done|]. simpl.
  apply list_elem_of_lookup_2 in Hc. intros x Hx. apply elem_of_union_list. by exists columns.
Qed.

Lemma union_empty : compute_union_field_mask ∅ = None.
Proof. by vm_compute. Qed.

(** ** Invariant *)

Definition runs (s : AppState) (n : nat) (t : Task) : Prop := tasks s !! n = Some (t, Running).
Definition masks_of (s : AppState) (stream : string) : gmap string Need := default ∅ (stream_rule_field_masks s !! stream).

Definition no_source (s : AppState) (stream : string) : Prop :=
  stream_source_cancels s !! stream = None /\ forall n t, runs s n t -> task_stream t <> stream.

(** The task goes on or has ended by itself: it was not cancelled. *)
Definition lives (s : AppState) (n : nat) (t : Task) : Prop := runs s n t \/ tasks s !! n = Some (t, Ended).

Definition one_source (s : AppState) (stream : string) : Prop :=
  exists n t, stream_source_cancels s !! stream = Some [n] /\ lives s n t /\ task_stream t = stream /\
    (forall n' t', runs s n' t' -> task_stream t' = stream -> n' = n) /\
    (forall c, task_mask t = Some c -> stream_field_masks s !! stream = Some c).

(** The cells of the streams are their own and hold the union of what the rules need. *)
Record cells_ok (s : AppState) : Prop := {
  cells_hold : forall stream c, stream_field_masks s !! stream = Some c -> cells s !! c = Some (compute_union_field_mask (masks_of s stream));
  cells_own : forall st1 st2 c, stream_field_masks s !! st1 = Some c -> stream_field_masks s !! st2 = Some c -> st1 = st2;
}.

Record Inv (s : AppState) (a : Readers) : Prop := {
  inv_active : forall stream, stream_active_rules s !! stream = dom <$> a !! stream;
  inv_nonempty : forall stream m, a !! stream = Some m -> m <> ∅;
  inv_needs : forall stream m rule need, a !! stream = Some m -> m !! rule = Some need -> masks_of s stream !! rule = Some need;
  inv_cells : cells_ok s;
  inv_source : forall stream, match a !! stream with None => no_source s stream | Some _ => one_source s stream end;
}.

(** The streams of a rule are known to it. *)
Definition known (s : AppState) (a : Readers) : Prop :=
  forall stream m rule, a !! stream = Some m -> is_Some (m !! rule) -> stream ∈ default ∅ (rule_streams s !! rule).

Lemma inv_initial : Inv initial ∅ /\ known initial ∅.
Proof. split; [|by intros stream m rule]. split; done. Qed.

(** The mask of a running source covers its readers. *)
Lemma inv_decodes s a stream m rule need n t c : Inv s a -> a !! stream = Some m -> m !! rule = Some need ->
  runs s n t -> task_stream t = stream -> task_mask t = Some c -> exists mask, cells s !! c = Some mask /\ decodes mask need.
Proof.
  intros Hi Ha Hm Hr Ht Hc. pose proof (inv_source _ _ Hi stream) as Hs. rewrite Ha in Hs. destruct Hs as (n' & t' & _ & Hr' & _ & Hu & Hf).
  assert (n = n') as -> by (by eapply Hu). assert (t' = t) as -> by (unfold lives, runs in *; destruct Hr'; congruence).
  exists (compute_union_field_mask (masks_of s stream)). split; [by apply (cells_hold _ (inv_cells _ _ Hi)), Hf|].
  eapply union_decodes. by eapply (inv_needs _ _ Hi).
Qed.

(** ** Masks *)

Lemma masks_of_insert s stream st m rm : stream_rule_field_masks s = <[stream := m]> rm ->
  masks_of s st = if decide (st = stream) then m else default ∅ (rm !! st).
Proof. intros He. unfold masks_of. rewrite He. destruct (decide (st = stream)) as [->|]; [by rewrite lookup_insert_eq|by rewrite lookup_insert_ne]. Qed.

Lemma update_spec stream rule mask s : cells_ok s ->
  let p := update_stream_field_mask stream rule mask s in
  stream_source_cancels p.2 = stream_source_cancels s /\ stream_active_rules p.2 = stream_active_rules s /\
  rule_streams p.2 = rule_streams s /\ tasks p.2 = tasks s /\
  stream_field_masks p.2 = <[stream := p.1]> (stream_field_masks s) /\
  stream_rule_field_masks p.2 = <[stream := <[rule := mask_fields <$> mask]> (masks_of s stream)]> (stream_rule_field_masks s) /\
  (forall c, stream_field_masks s !! stream = Some c -> c = p.1) /\ cells_ok p.2.
Proof.
  intros [Hh Ho]. destruct s as [sc ar rs rc am fm rm hp cs ts]. unfold update_stream_field_mask. cbn [stream_field_masks stream_rule_field_masks] in *.
  unfold masks_of in *. cbn [stream_rule_field_masks cells] in *.
  destruct (fm !! stream) as [cell|] eqn:Hf; cbn -[compute_union_field_mask].
  - rewrite insert_id by done. split_and!; try done; [congruence|]. split; [|done]. intros st c Hst. cbn -[compute_union_field_mask] in *.
    unfold masks_of. cbn [stream_rule_field_masks]. destruct (decide (st = stream)) as [->|Hne].
    + assert (c = cell) as -> by congruence. rewrite lookup_insert_eq. apply list_lookup_insert_eq. by eapply lookup_lt_Some, Hh.
    + rewrite (lookup_insert_ne rm) by done. rewrite list_lookup_insert_ne; [by apply Hh|]. intros ->. apply Hne. by eapply Ho.
  - split_and!; try done. split; cbn -[compute_union_field_mask].
    + intros st c Hst. unfold masks_of. cbn [stream_rule_field_masks]. destruct (decide (st = stream)) as [->|Hne].
      * rewrite lookup_insert_eq in Hst. injection Hst as <-. rewrite lookup_insert_eq. by rewrite lookup_app_r, Nat.sub_diag.
      * rewrite lookup_insert_ne in Hst by done. rewrite (lookup_insert_ne rm) by done. apply lookup_app_l_Some. by apply Hh.
    + assert (Hlt : forall st c, fm !! st = Some c -> (c < length cs)%nat) by (intros st c Hst; by eapply lookup_lt_Some, Hh).
      intros st1 st2 c. rewrite !lookup_insert_Some. intros [[<- <-]|[_ H1]] [[<- Hc]|[_ H2]]; try done.
      * apply Hlt in H2. lia.
      * subst c. apply Hlt in H1. lia.
      * by eapply Ho.
Qed.

Definition source_ok (s : AppState) (a : Readers) (stream : string) : Prop :=
  match a !! stream with None => no_source s stream | Some _ => one_source s stream end.

Lemma update_masks_of stream rule mask s st : cells_ok s ->
  masks_of (update_stream_field_mask stream rule mask s).2 st =
  if decide (st = stream) then <[rule := mask_fields <$> mask]> (masks_of s stream) else masks_of s st.
Proof. intros Hc. destruct (update_spec stream rule mask s Hc) as (_ & _ & _ & _ & _ & Hm & _). by apply masks_of_insert. Qed.

(** The sources are as before a change of the masks. *)
Lemma update_source stream rule mask s a st : cells_ok s -> source_ok s a st -> source_ok (update_stream_field_mask stream rule mask s).2 a st.
Proof.
  intros Hc. destruct (update_spec stream rule mask s Hc) as (Hsc & _ & _ & Ht & Hf & _ & Hcell & _). unfold source_ok, no_source, one_source, lives, runs.
  rewrite Hsc, Ht, Hf. destruct (a !! st); [|done]. intros (n & t & H1 & H2 & H3 & H4 & H5). exists n, t. split_and!; try done.
  intros c Hm%H5. destruct (decide (st = stream)) as [->|]; [|by rewrite lookup_insert_ne]. rewrite lookup_insert_eq. by rewrite (Hcell c).
Qed.

Lemma inv_update stream rule mask s a : cells_ok s -> (forall st m, a !! st = Some m -> m <> ∅) ->
  (forall st m r need, a !! st = Some m -> m !! r = Some need -> masks_of s st !! r = Some need) ->
  let a' := <[stream := <[rule := mask_fields <$> mask]> (default ∅ (a !! stream))]> a in
  (forall st, stream_active_rules s !! st = dom <$> a' !! st) -> (forall st, source_ok s a' st) ->
  Inv (update_stream_field_mask stream rule mask s).2 a'.
Proof.
  intros Hc Hne Hn a' Ha Hs. destruct (update_spec stream rule mask s Hc) as (_ & Har & _ & _ & _ & _ & _ & Hc'). split.
  - intros st. by rewrite Har.
  - intros st m [[<- <-]|[? ?]]%lookup_insert_Some; [apply insert_non_empty|by eapply Hne].
  - intros st m r need Hm Hr. rewrite update_masks_of by done. subst a'. destruct (decide (st = stream)) as [->|Hst].
    + rewrite lookup_insert_eq in Hm. injection Hm as <-. destruct (decide (r = rule)) as [->|Hrr]; [by rewrite lookup_insert_eq in *|].
      rewrite lookup_insert_ne in * by done. destruct (a !! stream) as [m|] eqn:Hm; [by eapply Hn|cbn in Hr; by rewrite lookup_empty in Hr].
    + rewrite lookup_insert_ne in Hm by done. by eapply Hn.
  - done.
  - intros st. by apply update_source.
Qed.

(** A rule that gets no source leaves its mask behind. *)
Lemma inv_update_unread stream rule mask s a : Inv s a -> a !! stream = None -> Inv (update_stream_field_mask stream rule mask s).2 a.
Proof.
  intros [Ha Hne Hn Hc Hs] Hnone. destruct (update_spec stream rule mask s Hc) as (_ & Har & _ & _ & _ & _ & _ & Hc'). split; [|exact Hne| |exact Hc'|].
  - intros st. by rewrite Har.
  - intros st m r need Hm Hr. rewrite update_masks_of by done. destruct (decide (st = stream)) as [->|]; [congruence|by eapply Hn].
  - intros st. apply update_source; [done|exact (Hs st)].
Qed.

Lemma runs_snoc s n t t0 : (tasks s ++ [(t0, Running)]) !! n = Some (t, Running) -> runs s n t \/ (n = length (tasks s) /\ t = t0).
Proof. intros [Hl|[Hl He]]%lookup_app_Some; [by left|]. right. apply list_lookup_singleton_Some in He as [Hz [= ->]]. split; [lia|done]. Qed.

Lemma inv_register stream rule t need s a : Inv s a -> a !! stream = None -> masks_of s stream !! rule = Some need -> task_stream t = stream ->
  (forall c, task_mask t = Some c -> stream_field_masks s !! stream = Some c) ->
  Inv (register_rule_stream_source stream rule t s) (<[stream := {[rule := need]}]> a).
Proof.
  intros [Ha Hne Hn [Hh Ho] Hs] Hnone Hm Ht Hc. pose proof (Hs stream) as Hno. rewrite Hnone in Hno. destruct Hno as [Hsc Hno].
  assert (Har : stream_active_rules s !! stream = None) by (by rewrite Ha, Hnone).
  destruct s as [sc ar rs rc am fm rm hp cs ts]. unfold no_source, one_source, lives, runs, masks_of in *. cbn in *. split; cbn.
  - intros st. unfold add_to_set. destruct (decide (st = stream)) as [->|]; [|rewrite !lookup_insert_ne by done; apply Ha].
    rewrite !lookup_insert_eq. rewrite Har. simpl. f_equal. rewrite dom_singleton_L. set_solver.
  - intros st m [[<- <-]|[? ?]]%lookup_insert_Some; [apply map_non_empty_singleton|by eapply Hne].
  - intros st m r n [[<- <-]|[Hst Hm']]%lookup_insert_Some Hr; [|by eapply Hn]. by apply lookup_singleton_Some in Hr as [<- <-].
  - by split.
  - intros st. destruct (decide (st = stream)) as [->|Hst].
    + rewrite lookup_insert_eq. exists (length ts), t. unfold lives, runs. cbn. rewrite lookup_insert_eq, Hsc. split_and!; try done.
      * left. by rewrite lookup_app_r, Nat.sub_diag.
      * intros n' t' [Hr|[-> _]]%(runs_snoc (mkState sc ar rs rc am fm rm hp cs ts)) Hst; [by apply Hno in Hr|done].
    + rewrite lookup_insert_ne by done. specialize (Hs st). destruct (a !! st).
      * destruct Hs as (n & t0 & H1 & H2 & H3 & H4 & H5). exists n, t0. unfold lives, runs in *. cbn in *. rewrite lookup_insert_ne by done. split_and!; try done.
        -- destruct H2; [left|right]; by apply lookup_app_l_Some.
        -- intros n' t' [Hr|[-> ->]]%(runs_snoc (mkState sc ar rs rc am fm rm hp cs ts)) Hst'; [by eapply H4|congruence].
      * destruct Hs as [H1 H2]. unfold no_source, runs. cbn. rewrite lookup_insert_ne by done. split; [done|].
        intros n t' [Hr|[-> ->]]%(runs_snoc (mkState sc ar rs rc am fm rm hp cs ts)); [by eapply H2|congruence].
Qed.

(** ** A rule starts to read *)

Lemma inv_set_meta stream b s a : Inv s a -> Inv (set_meta stream b s) a.
Proof. destruct s. intros [H1 H2 H3 [H4 H5] H6]. split; [exact H1|exact H2|exact H3|split; [exact H4|exact H5]|exact H6]. Qed.

Lemma inv_raise_meta stream b s a : Inv s a -> Inv (raise_meta stream b s) a.
Proof. intros Hi. unfold raise_meta. destruct (stream_attach_meta s !! stream), b; auto using inv_set_meta. Qed.

Lemma inv_add_endpoint path stream s a : Inv s a -> Inv (add_endpoint path stream s) a.
Proof. destruct s. intros [H1 H2 H3 [H4 H5] H6]. split; [exact H1|exact H2|exact H3|split; [exact H4|exact H5]|exact H6]. Qed.

Lemma cells_ok_raise stream b s : cells_ok s -> cells_ok (raise_meta stream b s).
Proof. intros [H1 H2]. unfold raise_meta. destruct (stream_attach_meta s !! stream), b, s; split; (exact H1 || exact H2). Qed.

Lemma cells_ok_reader stream rule s : cells_ok s -> cells_ok (add_reader stream rule s).
Proof. intros [H1 H2]. destruct s. split; [exact H1|exact H2]. Qed.

Lemma raise_meta_fields stream b s :
  stream_source_cancels (raise_meta stream b s) = stream_source_cancels s /\ stream_active_rules (raise_meta stream b s) = stream_active_rules s /\
  rule_streams (raise_meta stream b s) = rule_streams s.
Proof. unfold raise_meta. destruct (stream_attach_meta s !! stream), b, s; done. Qed.

Lemma inv_start_source resolved rule stream needs_meta cell need s a : startable (Some resolved) = true -> Inv s a -> a !! stream = None -> masks_of s stream !! rule = Some need ->
  stream_field_masks s !! stream = Some cell ->
  Inv (start_source (Some resolved) rule stream needs_meta cell s).2 (<[stream := {[rule := need]}]> a).
Proof.
  intros Hst Hi Hn Hm Hc. destruct resolved as [path| |[]|e]; cbn [start_source snd]; [| | | |done].
  - apply inv_add_endpoint. by apply inv_register.
  - apply inv_register; [by apply inv_set_meta|done|by destruct s|done|]. intros c [= <-]. by destruct s.
  - apply inv_register; [by apply inv_set_meta|done|by destruct s|done|by intros c [=]].
  - by apply inv_register.
Qed.

Lemma has_source s a stream : Inv s a -> is_Some (stream_source_cancels s !! stream) <-> is_Some (a !! stream).
Proof.
  intros Hi. pose proof (inv_source _ _ Hi stream) as Hs. destruct (a !! stream).
  - destruct Hs as (n & t & -> & _). done.
  - destruct Hs as [-> _]. done.
Qed.

Lemma inv_join resolved rule stream needs_meta mask s a : Inv s a ->
  Inv (bootstrap_stream_sources resolved rule stream needs_meta mask s).2 (readers_step a (Join resolved rule stream needs_meta mask)).
Proof.
  intros Hi. unfold bootstrap_stream_sources. cbn [readers_step]. pose proof (inv_active _ _ Hi stream) as Ha. case_bool_decide as Hr.
  - rewrite Ha in Hr. destruct (a !! stream) as [m|] eqn:Hm; [|by apply not_elem_of_empty in Hr]. simpl in Hr. simpl.
    pose proof (inv_raise_meta stream needs_meta s a Hi) as [H1 H2 H3 H4 H5]. change m with (default ∅ (Some m)). rewrite <- Hm. apply inv_update; try done.
    + intros st. rewrite H1. destruct (decide (st = stream)) as [->|]; [|by rewrite lookup_insert_ne]. rewrite lookup_insert_eq, Hm. simpl. f_equal. set_solver.
    + intros st. specialize (H5 st). unfold source_ok. destruct (decide (st = stream)) as [->|]; [|by rewrite lookup_insert_ne].
      rewrite lookup_insert_eq. by rewrite Hm in H5.
  - pose proof (has_source s a stream Hi) as Hsrc. destruct (stream_source_cancels s !! stream) as [l|] eqn:Hl.
    + destruct (proj1 Hsrc (ltac:(by eexists))) as [m Hm]. rewrite Hm. simpl. change m with (default ∅ (Some m)). rewrite <- Hm.
      assert (Hi' : exists s', add_reader stream rule s = s' /\ stream_active_rules s' = add_to_set stream rule (stream_active_rules s) /\ cells_ok s' /\
        (forall st m r need, a !! st = Some m -> m !! r = Some need -> masks_of s' st !! r = Some need) /\ (forall st, source_ok s' a st)).
      { destruct Hi as [_ _ H3 [H4 H5] H6]. exists (add_reader stream rule s). destruct s. split_and!; [done|done|split; [exact H4|exact H5]|exact H3|exact H6]. }
      destruct Hi' as (s' & -> & Har & Hc & Hn & Hs). assert (Hboth : exists s'', raise_meta stream needs_meta s' = s'' /\ stream_active_rules s'' = stream_active_rules s' /\ cells_ok s'' /\
        (forall st m r need, a !! st = Some m -> m !! r = Some need -> masks_of s'' st !! r = Some need) /\ (forall st, source_ok s'' a st)).
      { eexists. split; [done|]. destruct Hc as [Hc1 Hc2]. unfold raise_meta. destruct (stream_attach_meta s' !! stream), needs_meta, s'; (split_and!; [done|split; [exact Hc1|exact Hc2]|exact Hn|exact Hs]). }
      destruct Hboth as (s'' & -> & Har' & Hc' & Hn' & Hs'). apply inv_update; try done.
      * by apply (inv_nonempty _ _ Hi).
      * intros st. rewrite Har', Har. unfold add_to_set. destruct (decide (st = stream)) as [->|].
        -- rewrite !lookup_insert_eq, Ha, Hm. simpl. f_equal. set_solver.
        -- rewrite !lookup_insert_ne by done. apply (inv_active _ _ Hi).
      * intros st. specialize (Hs' st). unfold source_ok in *. destruct (decide (st = stream)) as [->|]; [|by rewrite lookup_insert_ne].
        rewrite lookup_insert_eq. by rewrite Hm in Hs'.
    + assert (Hnone : a !! stream = None). { destruct (a !! stream) eqn:Hs; [|done]. destruct (proj2 Hsrc (ltac:(by eexists))) as [? [=]]. }
      rewrite Hnone. pose proof (inv_update_unread stream rule mask s a Hi Hnone) as Hi'.
      pose proof (update_masks_of stream rule mask s stream (inv_cells _ _ Hi)) as Hmasks.
      destruct (update_spec stream rule mask s (inv_cells _ _ Hi)) as (_ & _ & _ & _ & Hf & _).
      destruct (update_stream_field_mask stream rule mask s) as [cell s']. cbn [fst snd] in *. destruct (startable resolved) eqn:Hstart.
      2: by destruct resolved as [[]|].
      destruct resolved as [r|]; [|done]. apply inv_start_source; [done|done|done| |by rewrite Hf, lookup_insert_eq]. rewrite Hmasks, decide_True by done. by rewrite lookup_insert_eq.
Qed.

(** ** A rule stops to read, a stream is dropped *)

Lemma cancel_runs ts n k t : cancel_task ts n !! k = Some (t, Running) <-> ts !! k = Some (t, Running) /\ k <> n.
Proof.
  unfold cancel_task. destruct (decide (k = n)) as [->|Hk].
  - rewrite list_lookup_alter_eq. split; [|by intros [_ ?]]. destruct (ts !! n) as [[t' []]|]; intros [=].
  - rewrite list_lookup_alter_ne by done. naive_solver.
Qed.

Lemma cancel_ended ts n k t : cancel_task ts n !! k = Some (t, Ended) <-> ts !! k = Some (t, Ended).
Proof.
  unfold cancel_task. destruct (decide (k = n)) as [->|Hk]; [|by rewrite list_lookup_alter_ne].
  rewrite list_lookup_alter_eq. destruct (ts !! n) as [[t' []]|]; split; intros [=]; subst; done.
Qed.

(** Dropping a stream, whatever the server thinks its readers are. *)
Lemma inv_drop stream s a : (forall st, st <> stream -> stream_active_rules s !! st = dom <$> a !! st) ->
  (forall st m, a !! st = Some m -> m <> ∅) -> (forall st m r need, a !! st = Some m -> m !! r = Some need -> masks_of s st !! r = Some need) ->
  cells_ok s -> (forall st, source_ok s a st) -> Inv (cancel_stream_sources stream s) (delete stream a).
Proof.
  intros Ha Hne Hn [Hh Ho] Hs. pose proof (Hs stream) as Hmine.
  assert (Hrun : forall n t, runs (cancel_stream_sources stream s) n t <-> runs s n t /\ task_stream t <> stream).
  { intros n t. destruct s as [sc ar rs rc am fm rm hp cs ts]. unfold source_ok, one_source, no_source, lives, runs in *. cbn in *. destruct (a !! stream).
    - destruct Hmine as (k & t' & Hk & Hr & Ht & Hu & _). rewrite Hk. cbn. rewrite cancel_runs. split; intros [H1 H2]; (split; [done|]).
      + intros Hst. apply H2. by eapply Hu.
      + intros ->. destruct Hr as [Hr|Hr]; rewrite Hr in H1; [|done]. injection H1 as <-. done.
    - destruct Hmine as [-> Hno]. cbn. split; [|by intros [? _]]. intros Hr. split; [done|by eapply Hno]. }
  assert (Hended : forall n t, tasks (cancel_stream_sources stream s) !! n = Some (t, Ended) <-> tasks s !! n = Some (t, Ended)).
  { intros n t. destruct s as [sc ar rs rc am fm rm hp cs ts]. unfold source_ok, one_source, no_source in *. cbn in *. destruct (a !! stream).
    - destruct Hmine as (k & t' & Hk & _). rewrite Hk. apply cancel_ended.
    - by destruct Hmine as [-> Hno]. }
  destruct s as [sc ar rs rc am fm rm hp cs ts]. unfold masks_of in *. cbn in Ha, Hn, Hh, Ho. split; [cbn..|].
  - intros st. destruct (decide (st = stream)) as [->|]; [by rewrite !lookup_delete_eq|]. rewrite !lookup_delete_ne by done. by apply Ha.
  - intros st m [_ Hm]%lookup_delete_Some. by eapply Hne.
  - intros st m r need [Hst Hm]%lookup_delete_Some Hr. unfold masks_of. cbn. rewrite lookup_delete_ne by done. by eapply Hn.
  - split; cbn -[compute_union_field_mask].
    + intros st c [Hst Hc]%lookup_delete_Some. unfold masks_of. cbn. rewrite lookup_delete_ne by done. by apply Hh.
    + intros st1 st2 c [_ H1]%lookup_delete_Some [_ H2]%lookup_delete_Some. by eapply Ho.
  - intros st. destruct (decide (st = stream)) as [->|Hst].
    + rewrite lookup_delete_eq. split; [cbn; by rewrite lookup_delete_eq|]. by intros n t [_ Ht]%Hrun.
    + rewrite lookup_delete_ne by done. specialize (Hs st). unfold source_ok, one_source, no_source, lives in *.
      destruct (a !! st); setoid_rewrite Hrun; try setoid_rewrite Hended; cbn; rewrite ?lookup_delete_ne by done.
      * destruct Hs as (n & t & H1 & H2 & H3 & H4 & H5). exists n, t. split_and!; try done; [destruct H2; [left; split; [done|congruence]|by right]|]. intros n' t' [? _] ?. by eapply H4.
      * destruct Hs as [H1 H2]. split; [done|]. intros n t [Hr _]. by eapply H2.
Qed.

Definition leave_at (rule : string) (a : Readers) (stream : string) : Readers := partial_alter (fun o => o ≫= remaining rule) stream a.

Lemma leave_at_lookup rule a stream st : leave_at rule a stream !! st = if decide (st = stream) then a !! stream ≫= remaining rule else a !! st.
Proof. unfold leave_at. destruct (decide (st = stream)) as [->|]; [by rewrite lookup_partial_alter_eq|by rewrite lookup_partial_alter_ne]. Qed.

Lemma remaining_some rule m m' : remaining rule m = Some m' -> m' = delete rule m /\ m' <> ∅.
Proof. unfold remaining. case_bool_decide; [done|]. by intros [= <-]. Qed.

Lemma remaining_dom rule m : dom m ∖ {[rule]} = ∅ <-> remaining rule m = None.
Proof.
  unfold remaining. rewrite <- dom_delete_L. case_bool_decide as He; [rewrite He, dom_empty_L; done|]. split; [|done].
  intros Hd%dom_empty_inv_L. done.
Qed.

(** A rule leaves a stream that other rules still read, or that it did not read. *)
Lemma inv_leave_read rule s a stream : Inv s a -> stream_active_rules (leave_stream rule s stream) !! stream = dom <$> (a !! stream ≫= remaining rule) ->
  (forall st, st <> stream -> stream_active_rules (leave_stream rule s stream) !! st = dom <$> a !! st) ->
  (fun rules => rules ∖ {[rule]}) <$> stream_active_rules s !! stream <> Some ∅ ->
  Inv (leave_stream rule s stream) (leave_at rule a stream).
Proof.
  intros [Ha Hne Hn [Hh Ho] Hs] Har Har' Hleft. unfold leave_stream in *. destruct s as [sc ar rs rc am fm rm hp cs ts]. cbn in Ha, Hh, Ho, Hleft.
  rewrite (bool_decide_false _ Hleft) in *.
  assert (Hmasks : forall st, default ∅ (match delete rule <$> rm !! stream with Some m => <[stream := m]> rm | None => rm end !! st) =
    if decide (st = stream) then delete rule (default ∅ (rm !! stream)) else default ∅ (rm !! st)).
  { intros st. destruct (decide (st = stream)) as [->|]; destruct (rm !! stream) eqn:Hrm; cbn; rewrite ?lookup_insert_eq, ?lookup_insert_ne, ?Hrm by done; done. }
  assert (Hunion : (delete rule <$> rm !! stream) ≫= compute_union_field_mask = compute_union_field_mask (delete rule (default ∅ (rm !! stream)))).
  { destruct (rm !! stream); cbn -[compute_union_field_mask]; [done|]. by rewrite delete_empty, union_empty. }
  split.
  - intros st. rewrite leave_at_lookup. destruct (decide (st = stream)) as [->|]; [exact Har|by apply Har'].
  - intros st m. rewrite leave_at_lookup. destruct (decide (st = stream)) as [->|]; [|by apply Hne]. destruct (a !! stream); [|done].
    by intros [_ ?]%remaining_some.
  - intros st m r need. rewrite leave_at_lookup. unfold masks_of. cbn. rewrite Hmasks. destruct (decide (st = stream)) as [->|]; [|by apply Hn].
    destruct (a !! stream) as [m0|] eqn:Hm0; [|done]. intros [-> _]%remaining_some [Hrr Hr]%lookup_delete_Some. rewrite lookup_delete_ne by done. by eapply Hn.
  - split; cbn -[compute_union_field_mask]; [|exact Ho]. intros st c Hc. unfold masks_of. cbn -[compute_union_field_mask]. rewrite Hmasks, Hunion.
    destruct (decide (st = stream)) as [->|Hst].
    + rewrite Hc. apply list_lookup_insert_eq. by eapply lookup_lt_Some, Hh.
    + destruct (fm !! stream) as [cell|] eqn:Hcell; [|by apply Hh]. rewrite list_lookup_insert_ne; [by apply Hh|]. intros ->. apply Hst. by eapply Ho.
  - intros st. specialize (Hs st). rewrite leave_at_lookup. destruct (decide (st = stream)) as [->|]; [|exact Hs].
    destruct (a !! stream) as [m|] eqn:Hm; [|exact Hs]. simpl. destruct (remaining rule m) eqn:Hr; [exact Hs|].
    exfalso. apply Hleft. rewrite Ha. rewrite Hm. simpl. f_equal. by apply remaining_dom.
Qed.

Lemma inv_leave_stream rule s a stream : Inv s a -> Inv (leave_stream rule s stream) (leave_at rule a stream).
Proof.
  intros Hi. destruct (decide ((fun rules => rules ∖ {[rule]}) <$> stream_active_rules s !! stream = Some ∅)) as [Hl|Hl].
  - pose proof (inv_active _ _ Hi) as Ha. assert (Hgone : a !! stream ≫= remaining rule = None).
    { rewrite Ha in Hl. destruct (a !! stream); [|done]. simpl in Hl. injection Hl as Hl. by apply remaining_dom. }
    replace (leave_at rule a stream) with (delete stream a).
    2: { apply map_eq. intros st. rewrite leave_at_lookup. destruct (decide (st = stream)) as [->|]; [by rewrite lookup_delete_eq|by rewrite lookup_delete_ne]. }
    unfold leave_stream. destruct Hi as [_ Hne Hn Hc Hs]. destruct s as [sc ar rs rc am fm rm hp cs ts]. cbn in Hl. rewrite (bool_decide_true _ Hl).
    apply inv_drop; [|done|exact Hn|split; apply Hc|exact Hs]. intros st Hst. cbn. destruct (_ <$> ar !! stream); cbn; [rewrite lookup_insert_ne by done|]; apply Ha.
  - apply inv_leave_read; [done| | |done]; unfold leave_stream; destruct Hi as [Ha _ _ _ _]; destruct s as [sc ar rs rc am fm rm hp cs ts]; cbn in Ha, Hl;
      rewrite (bool_decide_false _ Hl); cbn; [|intros st Hst; destruct (ar !! stream); cbn; [rewrite lookup_insert_ne by done|]; apply Ha].
    rewrite Ha in *. destruct (a !! stream) as [m|] eqn:Hm; cbn; [rewrite lookup_insert_eq|by rewrite Ha, Hm].
    destruct (remaining rule m) as [m'|] eqn:Hr; [apply remaining_some in Hr as [-> _]; simpl; by rewrite dom_delete_L|].
    apply remaining_dom in Hr. cbn in Hl. by rewrite Hr in Hl.
Qed.

Lemma inv_leave_all rule l s a : Inv s a -> Inv (foldl (leave_stream rule) s l) (foldl (leave_at rule) a l).
Proof. revert s a. induction l as [|stream l IH]; intros s a Hi; [done|]. by apply IH, inv_leave_stream. Qed.

Lemma leave_all_lookup rule l a st : NoDup l -> foldl (leave_at rule) a l !! st = if decide (st ∈ l) then a !! st ≫= remaining rule else a !! st.
Proof.
  revert a. induction l as [|stream l IH]; intros a Hl; [done|]. apply list.NoDup_cons in Hl as [Hs Hl]. simpl. rewrite IH by done.
  rewrite leave_at_lookup. destruct (decide (st = stream)) as [->|Hst].
  - rewrite decide_False, decide_True by (done || by left). done.
  - destruct (decide (st ∈ l)); [rewrite decide_True by (by right); done|]. rewrite decide_False; [done|]. by intros [?|?]%elem_of_cons.
Qed.

Lemma inv_leave rule s a : Inv s a -> known s a -> Inv (cancel_rule_source rule s) (omap (remaining rule) a).
Proof.
  intros Hi Hk. unfold cancel_rule_source. destruct s as [sc ar rs rc am fm rm hp cs ts].
  set (s' := mkState sc ar (delete rule rs) (delete rule rc) am fm rm hp cs ts).
  assert (Hi' : Inv s' a). { destruct Hi as [H1 H2 H3 [H4 H5] H6]. split; [exact H1|exact H2|exact H3|split; [exact H4|exact H5]|exact H6]. }
  replace (omap (remaining rule) a) with (foldl (leave_at rule) a (elements (default ∅ (rs !! rule)))); [by apply inv_leave_all|].
  apply map_eq. intros st. rewrite lookup_omap, leave_all_lookup by apply NoDup_elements. destruct (decide _) as [|Hout]; [done|].
  destruct (a !! st) as [m|] eqn:Hm; [|done]. simpl. unfold remaining. rewrite delete_id.
  - rewrite bool_decide_false; [done|]. by eapply (inv_nonempty _ _ Hi).
  - apply eq_None_not_Some. intros Hr. apply Hout. rewrite elem_of_elements. by apply (Hk st m rule).
Qed.

(** Of the task that ends only its state changes. *)
Lemma end_task_tasks n s : exists ts, tasks (end_task n s) = ts /\
  forall k t st, ts !! k = Some (t, st) -> tasks s !! k = Some (t, st) \/ (k = n /\ st = Ended /\ exists st', tasks s !! k = Some (t, st')).
Proof.
  eexists. split; [done|]. unfold end_task. destruct s as [sc ar rs rc am fm rm hp cs ts]. intros k t st. cbn.
  destruct (ts !! n) as [[t0 []]|] eqn:Hn; [case_bool_decide| | |]; cbn; try by left.
  all: destruct (decide (k = n)) as [->|]; [|rewrite list_lookup_insert_ne by done; by left]; rewrite list_lookup_insert_eq by (by eapply lookup_lt_Some);
    intros [= <- <-]; right; eauto.
Qed.

Lemma end_task_runs n s k t : runs (end_task n s) k t -> runs s k t.
Proof. unfold runs. destruct (end_task_tasks n s) as (ts & -> & Ht). by intros [?|(_ & [=] & _)]%Ht. Qed.

Lemma end_task_lives n s k t : lives s k t -> lives (end_task n s) k t.
Proof.
  unfold lives, runs, end_task. destruct s as [sc ar rs rc am fm rm hp cs ts]. cbn.
  destruct (ts !! n) as [[t0 []]|] eqn:Hn; [case_bool_decide| | |]; cbn; try done.
  all: destruct (decide (k = n)) as [->|]; [|by rewrite list_lookup_insert_ne]; rewrite list_lookup_insert_eq by (by eapply lookup_lt_Some); rewrite Hn.
  - intros [[= <-]|[=]]. by right.
  - by intros [[=]|[=]].
Qed.

Lemma inv_end_task n s a : Inv s a -> Inv (end_task n s) a.
Proof.
  intros [Ha Hne Hn [Hh Ho] Hs]. pose proof (end_task_runs n s) as Hr. pose proof (end_task_lives n s) as Hl.
  assert (Hsame : exists hp ts, end_task n s = mkState (stream_source_cancels s) (stream_active_rules s) (rule_streams s) (source_cancels s)
    (stream_attach_meta s) (stream_field_masks s) (stream_rule_field_masks s) hp (cells s) ts).
  { unfold end_task. destruct s as [sc ar rs rc am fm rm hp cs ts]. destruct (ts !! n) as [[t0 []]|]; [case_bool_decide| | |]; by eexists _, _. }
  destruct Hsame as (hp & ts & He). rewrite He in *. split; [exact Ha|exact Hne|exact Hn|split; [exact Hh|exact Ho]|].
  intros st. specialize (Hs st). unfold one_source, no_source in *. cbn. destruct (a !! st).
  - destruct Hs as (k & t & H1 & H2 & H3 & H4 & H5). exists k, t. split_and!; try done; [by apply Hl|]. intros k' t' Hk. eapply H4, Hr, Hk.
  - destruct Hs as [H1 H2]. split; [done|]. intros k t Hk. eapply H2, Hr, Hk.
Qed.

(** ** The streams of a rule *)

Lemma leave_stream_rule_streams rule s stream : rule_streams (leave_stream rule s stream) = rule_streams s.
Proof. destruct s. unfold leave_stream. by case_bool_decide. Qed.

Lemma leave_rule_streams rule s : rule_streams (cancel_rule_source rule s) = delete rule (rule_streams s).
Proof.
  destruct s as [sc ar rs rc am fm rm hp cs ts]. unfold cancel_rule_source. cbn [rule_streams].
  assert (Hf : forall l s, rule_streams (foldl (leave_stream rule) s l) = rule_streams s).
  { intros l. induction l as [|x l IH]; intros s; [done|]. simpl. by rewrite IH, leave_stream_rule_streams. }
  by rewrite Hf.
Qed.

Lemma join_rule_streams resolved rule stream needs_meta mask s a st r : Inv s a ->
  st ∈ default ∅ (rule_streams s !! r) \/ (r = rule /\ st = stream /\ is_Some (readers_step a (Join resolved rule stream needs_meta mask) !! stream) /\
    rule ∉ default ∅ (stream_active_rules s !! stream)) ->
  st ∈ default ∅ (rule_streams (bootstrap_stream_sources resolved rule stream needs_meta mask s).2 !! r).
Proof.
  intros Hi Hin. pose proof (inv_cells _ _ Hi) as Hc. unfold bootstrap_stream_sources.
  assert (Hset : forall rs : gmap string (gset string), st ∈ default ∅ (rs !! r) \/ (r = rule /\ st = stream) -> st ∈ default ∅ (add_to_set rule stream rs !! r)).
  { intros rs Hrs. unfold add_to_set. destruct (decide (r = rule)) as [->|]; [rewrite lookup_insert_eq; simpl|rewrite lookup_insert_ne by done]; set_solver. }
  case_bool_decide as Hr; cbn [snd].
  - assert (Hc' : cells_ok (raise_meta stream needs_meta s)) by (apply (inv_cells _ a), inv_raise_meta; done).
    destruct (update_spec stream rule mask _ Hc') as (_ & _ & -> & _). destruct (raise_meta_fields stream needs_meta s) as (_ & _ & ->).
    destruct Hin as [?|(_ & _ & _ & ?)]; done.
  - destruct (stream_source_cancels s !! stream) eqn:Hl; cbn [snd].
    + assert (Hc' : cells_ok (raise_meta stream needs_meta (add_reader stream rule s))) by (by apply cells_ok_raise, cells_ok_reader).
      destruct (update_spec stream rule mask _ Hc') as (_ & _ & -> & _). destruct (raise_meta_fields stream needs_meta (add_reader stream rule s)) as (_ & _ & ->).
      destruct s. apply Hset. naive_solver.
    + destruct (update_spec stream rule mask s Hc) as (_ & _ & Hrs & _). destruct (update_stream_field_mask stream rule mask s) as [cell s']. cbn [fst snd] in *.
      rewrite <- Hrs in Hin. destruct resolved as [[path| |[]|e]|]; cbn [start_source snd]; destruct s'; cbn in *; try (apply Hset; naive_solver).
      all: destruct Hin as [?|(_ & _ & Hsome & _)]; [done|].
      all: pose proof (has_source _ _ stream Hi) as Hh; rewrite Hl in Hh; destruct (a !! stream) eqn:Has;
        [destruct (proj2 Hh (ltac:(by eexists))) as [? [=]]|rewrite Has in Hsome; by destruct Hsome].
Qed.

Lemma known_join resolved rule stream needs_meta mask s a : Inv s a -> known s a ->
  known (bootstrap_stream_sources resolved rule stream needs_meta mask s).2 (readers_step a (Join resolved rule stream needs_meta mask)).
Proof.
  intros Hi Hk st m r Hm Hr. apply (join_rule_streams _ _ _ _ _ _ a); [done|].
  assert (Hold : forall m0, a !! st = Some m0 -> is_Some (m0 !! r) -> st ∈ default ∅ (rule_streams s !! r)) by (intros; by eapply Hk).
  assert (Hnew : a !! st = Some m \/ (st = stream /\ m = <[rule := mask_fields <$> mask]> (default ∅ (a !! stream)))).
  { cbn [readers_step] in Hm. destruct (a !! stream), (startable resolved); try (by left).
    all: apply lookup_insert_Some in Hm as [[<- <-]|[? ?]]; [by right|by left]. }
  destruct Hnew as [Hm'|[-> ->]]; [left; by eapply Hold|]. destruct (decide (r = rule)) as [->|Hne].
  - destruct (a !! stream) as [m0|] eqn:Ha; [destruct (m0 !! rule) eqn:Hm0|].
    + left. by apply (Hold m0); [|rewrite Hm0].
    + right. split_and!; [done|done|by rewrite Hm|]. rewrite (inv_active _ _ Hi), Ha. simpl. by rewrite not_elem_of_dom.
    + right. split_and!; [done|done|by rewrite Hm|]. rewrite (inv_active _ _ Hi), Ha. simpl. set_solver.
  - left. rewrite lookup_insert_ne in Hr by done. destruct (a !! stream) as [m0|]; [by apply (Hold m0)|].
    simpl in Hr. rewrite lookup_empty in Hr. by destruct Hr.
Qed.

Lemma known_leave rule s a : known s a -> known (cancel_rule_source rule s) (omap (remaining rule) a).
Proof.
  intros Hk st m r Hm Hr. rewrite leave_rule_streams. rewrite lookup_omap in Hm. apply bind_Some in Hm as (m0 & Hm0 & [-> _]%remaining_some).
  destruct Hr as [need [Hrr Hr]%lookup_delete_Some]. rewrite lookup_delete_ne by done. by eapply Hk.
Qed.

Lemma inv_step s a op : Inv s a -> known s a -> Inv (op_step s op) (readers_step a op) /\ known (op_step s op) (readers_step a op).
Proof.
  intros Hi Hk. destruct op as [resolved rule stream needs_meta mask|rule|stream|n]; cbn [op_step].
  - split; [by apply inv_join|by apply known_join].
  - split; [by apply inv_leave|by apply known_leave].
  - cbn [readers_step]. split; [apply inv_drop; apply Hi || (intros; apply Hi)|]. intros st m r [_ Hm]%lookup_delete_Some Hr. destruct s. by eapply Hk.
  - split; [by apply inv_end_task|]. intros st m r Hm Hr. unfold end_task. destruct s as [sc ar rs rc am fm rm hp cs ts].
    destruct (ts !! n) as [[t0 []]|]; [case_bool_decide| | |]; by eapply Hk.
Qed.

(** The server and the readers after a sequence of operations. *)
Definition run (ops : list Op) : AppState := foldl op_step initial ops.
Definition readers_of (ops : list Op) : Readers := foldl readers_step ∅ ops.

Lemma inv_run ops : Inv (run ops) (readers_of ops).
Proof.
  enough (Inv (run ops) (readers_of ops) /\ known (run ops) (readers_of ops)) by tauto. unfold run, readers_of.
  destruct inv_initial as [Hi Hk]. revert Hi Hk. generalize initial, (∅ : Readers). induction ops as [|op ops IH]; intros s a Hi Hk; [done|].
  destruct (inv_step s a op Hi Hk). by apply IH.
Qed.

(** ** Tasks that have ended *)

Lemma raise_meta_tasks stream b s : tasks (raise_meta stream b s) = tasks s.
Proof. unfold raise_meta. destruct (stream_attach_meta s !! stream), b, s; done. Qed.

Lemma update_tasks stream rule mask s : tasks (update_stream_field_mask stream rule mask s).2 = tasks s.
Proof. destruct s as [sc ar rs rc am fm rm hp cs ts]. unfold update_stream_field_mask. by destruct (fm !! stream). Qed.

(** A rule that starts to read leaves the tasks there are, and may start one. *)
Lemma join_tasks resolved rule stream needs_meta mask s :
  exists l, tasks (bootstrap_stream_sources resolved rule stream needs_meta mask s).2 = tasks s ++ map (fun t => (t, Running)) l.
Proof.
  unfold bootstrap_stream_sources. case_bool_decide; cbn [snd]; [exists []; by rewrite update_tasks, raise_meta_tasks, app_nil_r|].
  destruct (stream_source_cancels s !! stream); cbn [snd].
  - exists []. rewrite update_tasks, raise_meta_tasks, app_nil_r. by destruct s.
  - pose proof (update_tasks stream rule mask s) as Ht. destruct (update_stream_field_mask stream rule mask s) as [cell s']. cbn [snd] in Ht. rewrite <- Ht.
    destruct resolved as [[path| |[]|e]|]; cbn [start_source snd]; destruct s'; cbn; solve [by eexists [_] | exists []; by rewrite app_nil_r].
Qed.

Lemma cancel_all_ended l ts k t : foldl cancel_task ts l !! k = Some (t, Ended) <-> ts !! k = Some (t, Ended).
Proof. revert ts. induction l as [|n l IH]; intros ts; [done|]. cbn [foldl]. by rewrite IH, cancel_ended. Qed.

Lemma drop_ended stream s k t : tasks (cancel_stream_sources stream s) !! k = Some (t, Ended) <-> tasks s !! k = Some (t, Ended).
Proof. destruct s. apply cancel_all_ended. Qed.

Lemma leave_ended rule s k t : tasks (cancel_rule_source rule s) !! k = Some (t, Ended) <-> tasks s !! k = Some (t, Ended).
Proof.
  destruct s as [sc ar rs rc am fm rm hp cs ts]. unfold cancel_rule_source. cbn [tasks].
  assert (Hf : forall l s, tasks (foldl (leave_stream rule) s l) !! k = Some (t, Ended) <-> tasks s !! k = Some (t, Ended)).
  { intros l. induction l as [|x l IH]; intros s; [done|]. cbn [foldl]. rewrite IH. destruct s. unfold leave_stream. case_bool_decide; [|done]. by rewrite drop_ended. }
  by rewrite Hf.
Qed.

Lemma ended_step s op k t : tasks (op_step s op) !! k = Some (t, Ended) -> tasks s !! k = Some (t, Ended) \/ op = EndTask k.
Proof.
  destruct op as [resolved rule stream needs_meta mask|rule|stream|n]; cbn [op_step].
  - destruct (join_tasks resolved rule stream needs_meta mask s) as [l ->]. intros [?|[_ Hl]]%lookup_app_Some; [by left|].
    rewrite list_lookup_fmap in Hl. by apply fmap_Some in Hl as (? & _ & [=]).
  - rewrite leave_ended. by left.
  - rewrite drop_ended. by left.
  - destruct (end_task_tasks n s) as (ts & -> & Ht). intros [?|(-> & _)]%Ht; [by left|by right].
Qed.

(** Only a task whose end is among the operations has ended. *)
Lemma ended_by_itself ops n t : tasks (run ops) !! n = Some (t, Ended) -> EndTask n ∈ ops.
Proof.
  unfold run. enough (Hgo : forall s, tasks (foldl op_step s ops) !! n = Some (t, Ended) -> tasks s !! n = Some (t, Ended) \/ EndTask n ∈ ops).
  { intros [Hn|?]%Hgo; [|done]. by apply lookup_nil in Hn || done. }
  induction ops as [|op ops IH]; intros s; [by left|]. intros [[?|<-]%ended_step|?]%IH; [by left|right; by left|right; by right].
Qed.

(** C37. Whatever the order in which rules start, restart and stop, streams are dropped and
    sources end by themselves: while some rule reads a stream, exactly one source is registered
    for it, which runs unless it has ended by itself, and no other source of the stream runs;
    without a reader none is registered and none runs.  When the registered source decodes with a
    mask, the mask has every column that each of the present readers asked for last; a reader
    that asked for the whole payload has it. *)
Theorem shared_source_serves_readers ops stream :
  match readers_of ops !! stream with
  | None => stream_source_cancels (run ops) !! stream = None /\ forall n t, runs (run ops) n t -> task_stream t <> stream
  | Some readers =>
      exists n t, stream_source_cancels (run ops) !! stream = Some [n] /\ task_stream t = stream /\
        (runs (run ops) n t \/ (tasks (run ops) !! n = Some (t, Ended) /\ EndTask n ∈ ops)) /\
        (forall n' t', runs (run ops) n' t' -> task_stream t' = stream -> n' = n) /\
        (forall c, task_mask t = Some c -> exists mask, cells (run ops) !! c = Some mask /\
           forall rule need, readers !! rule = Some need -> decodes mask need)
  end.
Proof.
  pose proof (inv_run ops) as Hi. pose proof (inv_source _ _ Hi stream) as Hs. destruct (readers_of ops !! stream) as [readers|] eqn:Ha; [|done].
  destruct Hs as (n & t & H1 & H2 & H3 & H4 & H5). exists n, t. split_and!; try done.
  - destruct H2 as [?|He]; [by left|right]. split; [done|by eapply ended_by_itself].
  - intros c Hc. exists (compute_union_field_mask (masks_of (run ops) stream)). split; [by apply (cells_hold _ (inv_cells _ _ Hi)), H5|].
    intros rule need Hr. eapply union_decodes. by eapply (inv_needs _ _ Hi).
Qed.

(** ** What a reader computes *)

Definition decode_payload (mask : option JsonFieldMask) (members : list (string * value)) : row :=
  match mask with Some m => decode_members m members | None => all_members members end.

Definition left_out_plain (mask : option JsonFieldMask) (members : list (string * value)) : Prop :=
  Forall (fun kv => match mask with Some m => materialized m kv.1 | None => true end || plain kv.1 kv.2 = true) members.

(** C38. A rule without a window, on a stream without a schema, computes from a shared source what
    it would compute on its own: after any sequence of operations, when the rule reads a stream
    with what its statement asks for, decoding a payload with the present mask of the stream's
    source and evaluating the statement on the row (its filter, its projection and the functions
    with state) gives the same row, error and rule state as on the whole payload, with the same
    columns added by the engine.  The members left out must be neither objects nor have a dot or
    an engine name, and [meta] must name its column.  (Windows and schemas are outside of it: a
    [FILTER] of a window function is not among the columns asked for, see
    [window_filter_sees_nothing], and a schema finds columns in another case, which the mask
    leaves out, see [other_case_lost].) *)
Theorem shared_rows_transparent `{Text} `{Functions} `{WallClock} ops cat stmt stream rule readers n t c mask members extra st :
  readers_of ops !! stream = Some readers -> readers !! rule = Some (mask_fields <$> mask_for_stream cat stmt stream) ->
  runs (run ops) n t -> task_stream t = stream -> task_mask t = Some c -> cells (run ops) !! c = Some mask ->
  static_stmt stmt = true -> left_out_plain mask members ->
  eval_select_filtered_stateful_fallible stmt (extra ∪ decode_payload mask members) st =
  eval_select_filtered_stateful_fallible stmt (extra ∪ all_members members) st.
Proof.
  intros Ha Hr Ht Hs Hc Hm Hst Hp. destruct (inv_decodes _ _ _ _ _ _ _ _ _ (inv_run ops) Ha Hr Ht Hs Hc) as (mask' & Hm' & Hd).
  assert (mask' = mask) as -> by congruence. destruct mask as [shared|]; [|done]. destruct Hd as (columns & Hn & Hsub).
  apply fmap_Some in Hn as (needed & Hn & ->). by apply (masked_select stmt (timestamp_option cat stream) needed shared).
Qed.

(** ** Two rules on one stream *)

Module SharedSample.
Import FieldMaskSample.
Definition catalogue : Catalogue := mkCatalogue (fun _ => false) (fun _ => None) (fun _ => Some MqttSource) (fun _ s => s).
Definition statement (sql : string) : SelectStmt := default (mkSelect [] [] "" None [] None [] None None None None None [] None None) (parsed sql).
Definition first : SelectStmt := statement "SELECT a AS x, lag(a) AS y FROM demo WHERE a > 5".
Definition second : SelectStmt := statement "SELECT c FROM demo".
Definition whole : SelectStmt := statement "SELECT * FROM demo".

Definition join (rule : string) (stmt : SelectStmt) : Op := Join (Some MqttSource) rule "demo" false (mask_for_stream catalogue stmt "demo").
Definition both_read : list Op := [join "r1" first; join "r2" second].

(** The mask of the running sources of [demo]. *)
Definition present_masks (ops : list Op) : list (option (option (gset string))) :=
  let s := run ops in
  omap (fun t => match t.2 with Running => Some (task_mask t.1 ≫= fun c => cells s !! c ≫= fun m => Some (mask_fields <$> m)) | _ => None end) (tasks s).
Definition seen (ops : list Op) (column : string) : list (option (option bool)) :=
  map (fun (o : option (option (gset string))) => (fun m : option (gset string) => (fun f : gset string => bool_decide (column ∈ f)) <$> m) <$> o) (present_masks ops).

Example shared : seen both_read "a" = [Some (Some true)] /\ seen both_read "c" = [Some (Some true)] /\ seen both_read "b" = [Some (Some false)].
Proof. by vm_compute. Qed.

(** A reader of whole payloads lifts the mask; it is back when that reader leaves; the last
    reader stops the source. *)
Example readers_come_and_go :
  seen (both_read ++ [join "r3" whole]) "a" = [Some None] /\ seen (both_read ++ [join "r3" whole; Leave "r3"; Leave "r1"]) "a" = [Some (Some false)] /\
  seen (both_read ++ [Leave "r2"; Leave "r1"]) "a" = [].
Proof. by vm_compute. Qed.

(** The bootstrapping of a rule is a join for its stream. *)
Example bootstrap_joins : bootstrap_rule_sources catalogue "r1" first initial = ([], op_step initial (join "r1" first)).
Proof. by vm_compute. Qed.

(** A source that has ended by itself stays registered: a rule that starts later joins it and
    gets no rows, unless all its readers stop first. *)
Example ended_source_stays :
  present_masks (both_read ++ [EndTask 0]) = [] /\ present_masks (both_read ++ [EndTask 0; join "r3" whole]) = [] /\
  stream_source_cancels (run (both_read ++ [EndTask 0; join "r3" whole])) !! "demo" = Some [0%nat] /\
  seen (both_read ++ [EndTask 0; Leave "r1"; Leave "r2"; join "r3" whole]) "a" = [Some None].
Proof. by vm_compute. Qed.

(** A video source that is refused is not registered, though what the rule needs is noted. *)
Example refused_video_unregistered :
  let '(e, s) := bootstrap_stream_sources (Some (InvalidVideo "no url")) "r1" "demo" false None initial in
  e = Some "no url" /\ tasks s = [] /\ stream_source_cancels s !! "demo" = None /\ stream_active_rules s !! "demo" = None /\
  is_Some (stream_rule_field_masks s !! "demo").
Proof. vm_compute. split_and!; (done || by eexists). Qed.

(** When a stream is dropped and created again while a rule reads it, the new source only
    decodes what later rules need. *)
Example dropped_stream_forgets_reader :
  let ops := [join "r1" first; DropStream "demo"; join "r2" second] in
  (rule_streams (run ops) !! "r1" = Some {["demo"]}) /\ seen ops "a" = [Some (Some false)].
Proof. by vm_compute. Qed.

(** The task of an endpoint that was cancelled ends after the rule has been restarted, and
    takes the new endpoint with it. *)
Example restart_loses_endpoint :
  let start := Join (Some (HttpPush "/push")) "r1" "demo" false None in
  http_push_endpoints (run [start; Leave "r1"; start]) !! "/push" = Some "demo" /\
  http_push_endpoints (run [start; Leave "r1"; start; EndTask 0]) !! "/push" = None /\
  present_masks [start; Leave "r1"; start; EndTask 0] = [None].
Proof. by vm_compute. Qed.
End SharedSample.
Import FieldMaskSample SharedSample.

Lemma shared_rows_transparent_witness :
  let mask := default None (cells (run both_read) !! 0%nat) in
  let meta : row := {["__meta__" := VNull]} in
  eval_select_filtered_stateful_fallible first (meta ∪ decode_payload mask members) ∅ =
  eval_select_filtered_stateful_fallible first (meta ∪ all_members members) ∅.
Proof.
  intros mask meta.
  apply (shared_rows_transparent both_read catalogue first "demo" "r1" (default ∅ (readers_of both_read !! "demo")) 0 (mkTask "demo" (Some 0%nat) None) 0 mask).
  1-7: vm_compute; reflexivity.
  by repeat (apply list.Forall_cons; split; [by vm_compute|]).
Defined.
