(* ===== verification/Kv.v ===== *)
(** * The key-value store ([crates/rekuiper-core/src/kv.rs])

    Values under a namespace and a key, and the cache of one namespace that the SQL function
    [get_keyed_state] reads. *)

From S2P Require Import Prelude Rust Json Ast Engine.

Set Default Goal Selector "!".

Inductive KvOperation :=
  | KvSet (namespace key val : string)
  | KvDelete (namespace key : string).

(** The stored values, and the answers of the storage to the writes to come: an error leaves
    the values as they are; a store in memory has no answers left and never fails. *)
Record Kv := mkKv { entries : gmap (string * string) string; answers : list (option string) }.

Definition mem_kv : Kv := mkKv ∅ [].

Definition write_kv (f : gmap (string * string) string -> gmap (string * string) string) (s : Kv) : option string * Kv :=
  match answers s with
  | Some e :: l => (Some e, mkKv (entries s) l)
  | None :: l => (None, mkKv (f (entries s)) l)
  | [] => (None, mkKv (f (entries s)) [])
  end.

Definition kv_get (namespace key : string) (s : Kv) : option string := entries s !! (namespace, key).
Definition kv_set (namespace key val : string) : Kv -> option string * Kv := write_kv (insert (namespace, key) val).
Definition kv_delete (namespace key : string) : Kv -> option string * Kv := write_kv (delete (namespace, key)).

(** The order of [str] keys. *)
Definition entry_leb {A} (a b : string * A) : Prop := String.leb a.1 b.1 = true.

#[export] Instance entry_leb_dec {A} : RelDecision (@entry_leb A).
Proof. intros a b. unfold entry_leb. apply _. Defined.

(** The entries of a namespace, sorted by their keys. *)
Definition list_all (namespace : string) (s : Kv) : list (string * string) :=
  merge_sort entry_leb
    (omap (fun e : string * string * string => if bool_decide (e.1.1 = namespace) then Some (e.1.2, e.2) else None) (map_to_list (entries s))).

Definition apply_op (op : KvOperation) (m : gmap (string * string) string) : gmap (string * string) string :=
  match op with
  | KvSet namespace key val => <[(namespace, key) := val]> m
  | KvDelete namespace key => delete (namespace, key) m
  end.

(** All the operations or, when the storage fails, none. *)
Definition apply_transaction (ops : list KvOperation) : Kv -> option string * Kv :=
  write_kv (fun m => foldl (fun m op => apply_op op m) m ops).

(** The transaction of a store that has none of its own: it stops at the first failure. *)
Fixpoint apply_each (ops : list KvOperation) (s : Kv) : option string * Kv :=
  match ops with
  | [] => (None, s)
  | op :: ops =>
      match (match op with KvSet ns k v => kv_set ns k v s | KvDelete ns k => kv_delete ns k s end) with
      | (Some e, s) => (Some e, s)
      | (None, s) => apply_each ops s
      end
  end.

(** ** The cache of keyed state *)

Definition KeyedState : Type := gmap string string.

Definition get_keyed_state (key : string) (c : KeyedState) : option string := c !! key.
Definition set_keyed_state (key val : string) (c : KeyedState) : KeyedState := <[key := val]> c.
Definition remove_keyed_state (key : string) (c : KeyedState) : KeyedState := delete key c.

Definition sqlite_open (s : Kv) (c : KeyedState) : KeyedState :=
  foldl (fun c kv => set_keyed_state kv.1 kv.2 c) c (list_all "keyed_state" s).

Definition sqlite_set (namespace key val : string) (s : Kv) (c : KeyedState) : option string * Kv * KeyedState :=
  match kv_set namespace key val s with
  | (Some e, s) => (Some e, s, c)
  | (None, s) => (None, s, if bool_decide (namespace = "keyed_state") then set_keyed_state key val c else c)
  end.

Definition sqlite_delete (namespace key : string) (s : Kv) (c : KeyedState) : option string * Kv * KeyedState :=
  match kv_delete namespace key s with
  | (Some e, s) => (Some e, s, c)
  | (None, s) => (None, s, if bool_decide (namespace = "keyed_state") then remove_keyed_state key c else c)
  end.

(** ** Facts *)

Lemma write_kv_ok f s s' : write_kv f s = (None, s') -> entries s' = f (entries s).
Proof. unfold write_kv. by destruct (answers s) as [|[e|] l]; intros [= <-]. Qed.

Lemma write_kv_failed f s s' e : write_kv f s = (Some e, s') -> entries s' = entries s.
Proof. unfold write_kv. by destruct (answers s) as [|[e'|] l]; intros [= _ <-]. Qed.

Lemma elem_of_list_all ns k v s : (k, v) ∈ list_all ns s <-> entries s !! (ns, k) = Some v.
Proof.
  unfold list_all. rewrite merge_sort_Permutation, list_elem_of_omap. split.
  - intros ([[ns' k'] v'] & Hin & Hx). simpl in Hx. case_bool_decide as Hns; [|done]. injection Hx as -> ->. subst ns'.
    by apply elem_of_map_to_list in Hin.
  - intros He. exists (ns, k, v). split; [by apply elem_of_map_to_list|]. simpl. by rewrite bool_decide_eq_true_2.
Qed.

Lemma NoDup_list_all ns s : NoDup (list_all ns s).*1.
Proof.
  unfold list_all. rewrite merge_sort_Permutation.
  assert (Hnd : NoDup (map_to_list (entries s)).*1) by apply NoDup_fst_map_to_list.
  induction (map_to_list (entries s)) as [|[[ns' k] v] l IH]; [constructor|]. apply list.NoDup_cons in Hnd as [Hni Hnd].
  simpl. case_bool_decide as Hns; [|by apply IH]. subst ns'. simpl. apply list.NoDup_cons. split; [|by apply IH].
  intros Hin. apply list_elem_of_fmap in Hin as ([k' v'] & -> & Hin). apply list_elem_of_omap in Hin as ([[n' k''] v''] & Hin & Hx).
  simpl in Hx. case_bool_decide; [|done]. injection Hx as <- <-. subst n'. apply Hni. apply list_elem_of_fmap. by exists (ns, k'', v'').
Qed.
