(* ===== verification/Managers.v ===== *)
(** * Managers of streams, tables, schemas and rules
      ([crates/rekuiper-core/src/manager.rs], definitions of [model.rs])

    A manager keeps definitions in memory and writes each change to the key-value store
    first.  The store is threaded through the operations; [None] is a manager without one.
    An operation answers [None], or the text of its error.  The locks are left out: an
    operation runs to its end before the next one. *)

From S2P Require Import Prelude Rust Json Counters Dlq Ast Engine Values Schema Kv.

Set Default Goal Selector "!".

(** ** Definitions of streams, tables, schemas and rules
    ([crates/rekuiper-core/src/model.rs])

    What a client registers, as the managers keep it and as it is written to the store. *)

Record StreamDefinition := mkStream {
  s_name : string; s_sql : string; s_fields : list StreamField; s_options : gmap string string;
}.

Record SchemaDefinition := mkSchema {
  sc_name : string; sc_kind : string; sc_content : option string; sc_file : option string;
}.

Record TableDefinition := mkTable {
  t_name : string; t_sql : string; t_fields : list StreamField; t_options : gmap string string;
}.

Record GraphNode := mkNode { node_category : string; node_type : string; node_props : row }.
Record GraphTopo := mkTopo { topo_sources : list string; topo_edges : gmap string (list string) }.
Record GraphDefinition := mkGraph { graph_nodes : gmap string GraphNode; graph_topo : GraphTopo }.

Record RuleDefinition := mkRule {
  r_id : string;
  r_name : option string;
  r_version : option string;
  r_sql : string;
  r_actions : list row;
  r_options : option row;
  r_graph : option GraphDefinition;
  r_tags : list string;
}.

Record RuleStatus := mkStatus {
  st_status : string;
  st_message : string;
  st_last_exception : string;
  st_last_start : Z;
  st_last_stop : Z;
  st_next_start : Z;
  st_source_in : Z;
  st_sink_out : Z;
  st_exceptions : Z;
  st_filtered : Z;
  st_enqueued : Z;
  st_failed : Z;
  st_dropped : Z;
  st_high_water : Z;
  st_blocked : Z;
  st_dlq : Z;
}.

Definition status_default (now : Z) : RuleStatus := mkStatus "running" "" "" now 0 0 0 0 0 0 0 0 0 0 0 0.

(** The statistics of the dead letters of a rule. *)
Record DlqStats := mkStats {
  ds_rule_id : string;
  ds_total : Z;
  ds_codec_decode : Z;
  ds_schema_validation : Z;
  ds_sql_eval : Z;
  ds_data_template : Z;
  ds_sink_delivery : Z;
  ds_sink_failures : Z;
  ds_recent : list DlqEnvelope;
}.

(** ** Storage *)

(** serde_json's writer and reader of a type. *)
Class JsonText (A : Type) := {
  to_json : A -> string;
  of_json : string -> option A;
}.

Class JsonTextOk (A : Type) `{JsonText A} : Prop := of_to_json : forall a : A, of_json (to_json a) = Some a.

Abbreviation Store := (option Kv).

Definition persist (namespace key val : string) (kv : Store) : option string * Store :=
  match kv with
  | Some s => let '(r, s) := kv_set namespace key val s in (r, Some s)
  | None => (None, None)
  end.

Definition unpersist (namespace key : string) (kv : Store) : option string * Store :=
  match kv with
  | Some s => let '(r, s) := kv_delete namespace key s in (r, Some s)
  | None => (None, None)
  end.

(** ** Registries of definitions *)

Section registry.
Context {A : Type} `{JsonText A} (kind namespace : string) (name_of : A -> string).

Definition store_def (d : A) (m : gmap string A) (kv : Store) : option string * gmap string A * Store :=
  match persist namespace (name_of d) (to_json d) kv with
  | (Some e, kv) => (Some e, m, kv)
  | (None, kv) => (None, <[name_of d := d]> m, kv)
  end.

Definition create_def (d : A) (m : gmap string A) (kv : Store) : option string * gmap string A * Store :=
  if bool_decide (is_Some (m !! name_of d)) then (Some (kind +:+ " " +:+ name_of d +:+ " already exists"), m, kv)
  else store_def d m kv.

Definition update_def (d : A) (m : gmap string A) (kv : Store) : option string * gmap string A * Store :=
  if bool_decide (is_Some (m !! name_of d)) then store_def d m kv
  else (Some (kind +:+ " " +:+ name_of d +:+ " not found"), m, kv).

Definition delete_def (name : string) (m : gmap string A) (kv : Store) : option string * gmap string A * Store :=
  if bool_decide (is_Some (m !! name)) then
    match unpersist namespace name kv with
    | (Some e, kv) => (Some e, m, kv)
    | (None, kv) => (None, delete name m, kv)
    end
  else (Some (kind +:+ " " +:+ name +:+ " not found"), m, kv).

(** Entries that cannot be read are skipped. *)
Definition load_defs (s : Kv) (m : gmap string A) : gmap string A :=
  foldl (fun m e => match of_json e.2 with Some d => <[name_of d := d]> m | None => m end) m (list_all namespace s).
End registry.

(** ** Streams *)

Abbreviation StreamManager := (gmap string StreamDefinition).

Definition create_stream `{JsonText StreamDefinition} := create_def "Stream" "streams" s_name.
Definition update_stream `{JsonText StreamDefinition} := update_def "Stream" "streams" s_name.
Definition delete_stream : string -> StreamManager -> Store -> option string * StreamManager * Store := delete_def "Stream" "streams".
Definition get_stream (name : string) (m : StreamManager) : option StreamDefinition := m !! name.
Definition list_streams (m : StreamManager) : list string := (map_to_list m).*1.
Definition load_streams `{JsonText StreamDefinition} := load_defs "streams" s_name.

(** ** Tables *)

Record TableManager := mkTables { tables : gmap string TableDefinition; table_rows : gmap string (list row) }.

Definition with_tables (f : gmap string TableDefinition -> Store -> option string * gmap string TableDefinition * Store)
    (m : TableManager) (kv : Store) : option string * TableManager * Store :=
  let '(r, defs, kv) := f (tables m) kv in (r, mkTables defs (table_rows m), kv).

Definition create_table `{JsonText TableDefinition} (d : TableDefinition) := with_tables (create_def "Table" "tables" t_name d).
Definition update_table `{JsonText TableDefinition} (d : TableDefinition) := with_tables (update_def "Table" "tables" t_name d).
Definition get_table (name : string) (m : TableManager) : option TableDefinition := tables m !! name.
Definition list_tables (m : TableManager) : list string := (map_to_list (tables m)).*1.
Definition list_table_definitions (m : TableManager) : list TableDefinition := (map_to_list (tables m)).*2.
Definition load_tables `{JsonText TableDefinition} (s : Kv) (m : TableManager) : TableManager :=
  mkTables (load_defs "tables" t_name s (tables m)) (table_rows m).

Definition delete_table (name : string) (m : TableManager) (kv : Store) : option string * TableManager * Store :=
  match delete_def "Table" "tables" name (tables m) kv with
  | (Some e, defs, kv) => (Some e, mkTables defs (table_rows m), kv)
  | (None, defs, kv) => (None, mkTables defs (delete name (table_rows m)), kv)
  end.

(** The first option under one of the names, in any case. *)
Definition table_option (names : list string) (d : TableDefinition) : option string :=
  snd <$> List.find (fun kv => existsb (eq_ignore_ascii_case kv.1) names) (map_to_list (t_options d)).

Definition key_column (d : option TableDefinition) : option string := d ≫= table_option ["KEY"; "PRIMARY_KEY"].
Definition retain_size (d : option TableDefinition) : option Z := (d ≫= table_option ["RETAIN_SIZE"]) ≫= parse_u64.

(** The position of the row with the same value in the key column. *)
Definition same_key_row (k : string) (r : row) (rows : list row) : option nat :=
  match r !! k with
  | Some target => fst <$> list_find (fun r' : row => from_option (fun v => value_eq v target) false (r' !! k) = true) rows
  | None => None
  end.

(** [while rows.len() > max { rows.remove(0) }] *)
Definition prune (max_size : Z) (rows : list row) : list row := drop (Z.to_nat (Z.of_nat (length rows) - max_size)) rows.

Definition max_rows (d : option TableDefinition) : Z :=
  default (if bool_decide (is_Some (key_column d)) then u64_max else 100) (retain_size d).

Definition insert_row (d : option TableDefinition) (r : row) (rows : list row) : list row :=
  match key_column d ≫= fun k => same_key_row k r rows with
  | Some pos => <[pos := r]> rows
  | None => prune (max_rows d) (rows ++ [r])
  end.

Definition get_table_rows (table : string) (m : TableManager) : list row := default [] (table_rows m !! table).

Definition insert_table_row (table : string) (r : row) (m : TableManager) : TableManager :=
  mkTables (tables m) (<[table := insert_row (get_table table m) r (get_table_rows table m)]> (table_rows m)).

(** ** Schemas *)

Abbreviation SchemaManager := (gmap string SchemaDefinition).

Definition storage_key (kind name : string) : string := kind +:+ "/" +:+ name.
Definition schema_key (d : SchemaDefinition) : string := storage_key (sc_kind d) (sc_name d).

Definition register_schema `{JsonText SchemaDefinition} : SchemaDefinition -> SchemaManager -> Store -> option string * SchemaManager * Store :=
  store_def "schemas" schema_key.
Definition get_schema (kind name : string) (m : SchemaManager) : option SchemaDefinition := m !! storage_key kind name.
Definition list_schemas (kind : string) (m : SchemaManager) : list string :=
  (merge_sort entry_leb (omap (fun d => if bool_decide (sc_kind d = kind) then Some (sc_name d, tt) else None) (map_to_list m).*2)).*1.
Definition delete_schema (kind name : string) : SchemaManager -> Store -> option string * SchemaManager * Store :=
  delete_def "Schema" "schemas" (storage_key kind name).
Definition load_schemas `{JsonText SchemaDefinition} (s : Kv) (m : SchemaManager) : SchemaManager :=
  foldl (fun m e => match of_json e.2 with Some d => <[e.1 := d]> m | None => m end) m (list_all "schemas" s).

(** A file of a schema directory: its kind, its path, the stem of its name, and its text
    when it can be read. *)
Record ProtoFile := mkProtoFile { pf_kind : string; pf_path : string; pf_stem : string; pf_text : option string }.

Definition load_proto_file (f : ProtoFile) (m : SchemaManager) : SchemaManager * nat :=
  match bool_decide (pf_stem f = ""), pf_text f with
  | false, Some content =>
      (<[storage_key (pf_kind f) (pf_stem f) := mkSchema (pf_stem f) (pf_kind f) (Some content) (Some (pf_path f))]> m, 1%nat)
  | _, _ => (m, 0%nat)
  end.

Definition load_proto_dir (files : list ProtoFile) (m : SchemaManager) : SchemaManager * nat :=
  foldl (fun '(m, n) f => let '(m, k) := load_proto_file f m in (m, (n + k)%nat)) (m, 0%nat) files.
