(* ===== verification/Payload.v ===== *)
(** * Payloads ([decode_payload_into_with_mask] and the metadata of messages in
      [crates/rekuiper-connectors/src/mqtt.rs], [resolve_payload_format] of
      [crates/rekuiper-server/src/engine/mod.rs])

    What the [FORMAT] of a stream makes of the bytes of a message. *)

From Stdlib Require Import Ascii.
From S2P Require Import Prelude Rust Characters Json Ast Engine Columns Values Numbers Objects Parser Delimited EdgeX Wire Protobuf ProtoText FieldMask Schema Kv Managers.

Set Default Goal Selector "!".

(** [serde_json]: a whole document, a document in a string, and the members that are wanted
    of the object a text begins with, whatever comes after it. *)
Class JsonReader := {
  from_slice : list ascii -> option value;
  from_text : string -> option value;
  object_members : (string -> bool) -> list ascii -> option (list (string * value));
}.

Inductive PayloadFormat :=
  | JsonFormat
  | BinaryFormat
  | DelimitedFormat (codec : DelimitedCodec)
  | ProtobufFormat (message : ProtoMessage)
  | EdgeXFormat.

Section payload.
Context `{Engine.Text} `{Base64} `{JsonReader}.

(** [std::str::from_utf8]: the bytes that are the encoding of what they decode to. *)
Definition from_utf8 (bytes : list ascii) : option input :=
  let s := from_utf8_lossy bytes in if bool_decide (flat_map utf8 s = bytes) then Some s else None.

Definition object_row (v : value) : option row := match v with VObject m => Some (row_of_members m) | _ => None end.

(** An object, or an array of objects. *)
Definition rows_of_document (v : value) : option (list row) :=
  match v with VArray items => mapM object_row items | _ => (fun r => [r]) <$> object_row v end.

Definition decode_object (mask : JsonFieldMask) (payload : list ascii) : option row :=
  decode_members mask <$> object_members (materialized mask) payload.

Definition decode_json (mask : option JsonFieldMask) (payload : list ascii) : option (list row) :=
  match mask ≫= fun m => decode_object m payload with
  | Some data => Some [data]
  | None => from_slice payload ≫= rows_of_document
  end.

Definition is_line_end (c : Z) : bool := (c =? 13) || (c =? 10).
Definition trim_line (s : input) : input := rev (span is_line_end (rev s)).2.

Definition decode_rows (format : PayloadFormat) (mask : option JsonFieldMask) (payload : list ascii) (meta : option value) : option (list row) :=
  match format with
  | JsonFormat => decode_json mask payload
  | BinaryFormat => Some [{["self" := VString (match from_utf8 payload with Some s => to_str s | None => b64_encode payload end)]}]
  | DelimitedFormat codec => (fun s => [decode_row codec (trim_line s)]) <$> from_utf8 payload
  | ProtobufFormat message => (fun r => [r]) <$> object_row (Protobuf.decode payload message)
  | EdgeXFormat => option_list <$> (from_slice payload ≫= fun root => EdgeX.decode from_text root meta)
  end.

(** The rows of a payload, [None] for one that is skipped; [meta] goes to every row. *)
Definition decode_payload_into_with_mask (format : PayloadFormat) (mask : option JsonFieldMask) (payload : list ascii) (meta : option value) : option (list row) :=
  rows ← decode_rows format mask payload meta;
  Some (match meta with Some m => map (<["__meta__" := m]>) rows | None => rows end).

Definition decode_payload_into (format : PayloadFormat) (payload : list ascii) (meta : option value) : option (list row) :=
  decode_payload_into_with_mask format None payload meta.

(** ** The metadata of a message *)

Record Publish := mkPublish { p_topic : string; p_qos : Z; p_pkid : Z; p_payload : list ascii }.

Definition mqtt_meta (topic : string) (qos pkid : Z) : value :=
  VObject [("messageId", value_of_i64 pkid); ("qos", value_of_i64 qos); ("topic", VString topic)].

(** The metadata of the last message that had no packet identifier. *)
Definition MetaCache : Type := option (string * Z * value).

Definition publish_meta (p : Publish) (cache : MetaCache) : value * MetaCache :=
  if p_pkid p =? 0 then
    let fresh := mqtt_meta (p_topic p) (p_qos p) 0 in
    match cache with
    | Some (topic, qos, v) => if bool_decide (topic = p_topic p) && (qos =? p_qos p) then (v, cache) else (fresh, Some (p_topic p, p_qos p, fresh))
    | None => (fresh, Some (p_topic p, p_qos p, fresh))
    end
  else (mqtt_meta (p_topic p) (p_qos p) (p_pkid p), cache).
End payload.

(** ** The format of a stream *)

Section format.
Context `{Unicode} (schemas : SchemaManager) (read_to_string : string -> option string).

(** The text before and after the first dot. *)
Fixpoint split_dot (s : string) : option (string * string) :=
  match s with
  | "" => None
  | String c r => if bool_decide (c = "."%char) then Some ("", r) else '(a, b) ← split_dot r; Some (String c a, b)
  end.

(** The text of a schema: its content unless blank, otherwise its file. *)
Definition schema_text (d : SchemaDefinition) : option string :=
  match sc_content d, sc_file d with
  | Some content, _ => if bool_decide (trim_str content = "") then sc_file d ≫= read_to_string else Some content
  | None, Some path => read_to_string path
  | None, None => None
  end.

(** [None] when there is no such message; a panic of the schema's parser is kept. *)
Definition resolve_proto_message (schema_id : string) : outcome (option ProtoMessage) :=
  match split_dot schema_id with
  | None => Ok None
  | Some (schema, message) =>
      match get_schema "protobuf" schema schemas ≫= schema_text with
      | None => Ok None
      | Some text =>
          match parse_proto (of_str text) with
          | POk messages _ => Ok (snd <$> List.find (fun m => bool_decide (m.1 = message)) (rev messages))
          | PPanic => Panic
          | _ => Ok None
          end
      end
  end.

(** The first option of a name in any case. *)
Definition option_named (options : list (string * string)) (name : string) : option string :=
  (fun kv => trim_str kv.2) <$> List.find (fun kv => eq_ignore_ascii_case kv.1 name) options.

Definition resolve_payload_format_options (options : list (string * string)) (stream_fields : list Schema.StreamField) : outcome (option PayloadFormat) :=
  let format := to_ascii_lowercase (default "" (option_named options "FORMAT")) in
  if bool_decide (format = "binary") then Ok (Some BinaryFormat)
  else if bool_decide (format = "delimited") then
    let delimiter := match option_named options "DELIMITER" with
                     | Some d => if bool_decide (d = "") then 44 else delimiter_from_name d
                     | None => 44
                     end in
    Ok (Some (DelimitedFormat (mkDelimited delimiter (map Schema.f_name stream_fields))))
  else if bool_decide (format = "protobuf") then
    match resolve_proto_message (default "" (option_named options "SCHEMAID")) with
    | Ok o => Ok (ProtobufFormat <$> o)
    | Err e => Err e
    | Panic => Panic
    end
  else Ok (Some JsonFormat).
End format.
