(* ===== verification/ArrayFunctions.v ===== *)
(** * Array, object and JSON path functions ([crates/rekuiper-sql/src/eval/array.rs], [json.rs])

    The functions of SQL over arrays and objects, on evaluated arguments, and the two
    languages of paths: dots with brackets, and JSON pointers.  An object keeps its members
    in the order of their keys, so an object made by insertions is a map that is written
    out.  [array_shuffle] takes the shuffle of the random number generator; [sequence] and
    [repeat] make vectors of any length up to what a vector can hold. *)

From Stdlib Require Import Ascii.
From S2P Require Import Prelude Rust Characters Json Ast Engine Columns Values Objects Numbers Accumulators Parser Payload.

Set Default Goal Selector "!".

(** The generator behind [array_shuffle] and [rand]. *)
Class Random := {
  shuffle : list value -> list value;
  random_f64 : f64;
}.

(** The number of values a [Vec] can grow to by pushes, which double its capacity, and the
    number it can be made with.  A vector takes at most [isize::MAX] bytes and a value more
    than eight; what goes beyond the limit panics, or aborts when the memory of the machine
    ran out before. *)
Class VecLimit := {
  push_limit : Z;
  make_limit : Z;
  vec_limits : 0 < push_limit <= make_limit /\ make_limit < 2 ^ 60;
}.

Definition as_array (v : value) : option (list value) := match v with VArray l => Some l | _ => None end.
Definition as_object (v : value) : option (list (string * value)) := match v with VObject m => Some m | _ => None end.

(** [map.insert] of every entry: the last one of a key stays. *)
Definition insert_all (entries : list (string * value)) (m : row) : row := foldl (fun m '(k, v) => <[k := v]> m) m entries.
Definition object_of (entries : list (string * value)) : value := row_to_value (insert_all entries ∅).

Definition count_of {A} (l : list A) : value := value_of_i64 (Z.of_nat (length l)).

(** [slice::get] with an index of any size. *)
Definition nth_of {A} (l : list A) (i : Z) : option A :=
  if (0 <=? i) && (i <? Z.of_nat (length l)) then l !! Z.to_nat i else None.

(** ** Objects *)

Section objects.
Context `{Text}.

Definition func_keys (args : list value) : value :=
  match args with
  | [VObject m] => VArray (map (fun kv => VString kv.1) m)
  | _ => VNull
  end.

Definition func_values (args : list value) : value :=
  match args with
  | [VObject m] => VArray (map snd m)
  | _ => VNull
  end.

Definition func_object (args : list value) : value :=
  match args with
  | [VArray keys; VArray vals] =>
      if (length keys =? length vals)%nat then object_of (zip (map to_string_always keys) vals) else VNull
  | _ => VNull
  end.

Definition pair_of (entry : value) : option (string * value) :=
  match entry with
  | VArray [k; v] => Some (to_string_always k, v)
  | _ => None
  end.

Definition func_zip (args : list value) : value :=
  match args with
  | [VArray entries] => match mapM pair_of entries with Some l => object_of l | None => VNull end
  | _ => VNull
  end.

Definition func_items (args : list value) : value :=
  match args with
  | [VObject m] => VArray (map (fun kv => VArray [VString kv.1; kv.2]) m)
  | _ => VNull
  end.

(** The arguments two by two. *)
Fixpoint pairs {A} (l : list A) : list (A * A) :=
  match l with
  | k :: v :: r => (k, v) :: pairs r
  | _ => []
  end.

Definition func_object_construct (args : list value) : value :=
  if Nat.odd (length args) then VNull
  else object_of (omap (fun '(k, v) => if is_null v then None else Some (to_string_always k, v)) (pairs args)).

Definition func_json_map (args : list value) : value :=
  if Nat.odd (length args) then VNull
  else object_of (map (fun '(k, v) => (to_string_always k, v)) (pairs args)).

Definition func_object_concat (args : list value) : value :=
  if (length args <? 2)%nat then VNull
  else match mapM as_object args with Some objects => object_of (concat objects) | None => VNull end.

Definition key_names (args : list value) : list string :=
  flat_map (fun arg => match arg with VArray l => map to_string_always l | _ => [to_string_always arg] end) args.

Definition func_erase (args : list value) : value :=
  match args with
  | VObject m :: ((_ :: _) as keys) => VObject (List.filter (fun kv => negb (existsb (String.eqb kv.1) (key_names keys))) m)
  | _ => VNull
  end.

Definition func_object_pick (args : list value) : value :=
  match args with
  | VObject m :: ((_ :: _) as keys) => object_of (omap (fun k => (fun v => (k, v)) <$> object_get k m) (key_names keys))
  | _ => VNull
  end.

Definition func_obj_to_kvpair_array (args : list value) : value :=
  match args with
  | [VObject m] => VArray (map (fun kv => VObject [("key", VString kv.1); ("value", kv.2)]) m)
  | _ => VNull
  end.

(** The first of the names that the object has. *)
Definition get_first (names : list string) (m : list (string * value)) : option value :=
  foldr (fun k rest => match object_get k m with Some v => Some v | None => rest end) None names.

Definition kvpair (item : value) : option (string * value) :=
  m ← as_object item;
  k ← get_first ["key"; "Key"; "k"] m;
  Some (to_string_always k, default VNull (get_first ["value"; "Value"; "v"] m)).

Definition func_kvpair_array_to_obj (args : list value) : value :=
  match args with
  | [VArray arr] => object_of (omap kvpair arr)
  | _ => VNull
  end.

Definition func_to_json (args : list value) : value :=
  match args with
  | [v] => if is_null v then VNull else VString (value_to_string v)
  | _ => VNull
  end.

Definition func_parse_json `{JsonReader} (args : list value) : value :=
  match args with
  | [VString s] => default VNull (from_text s)
  | [v] => v
  | _ => VNull
  end.
End objects.

(** ** Arrays *)

Section arrays.
Context `{Text}.

Definition func_array_contains (args : list value) : value :=
  match args with
  | [VArray arr; x] => VBool (existsb (fun item => values_equal item x) arr)
  | [_; _] => VBool false
  | _ => VNull
  end.

Definition func_array_join (args : list value) : value :=
  match args with
  | VArray (item :: items) :: r =>
      let arr := item :: items in
      if (2 <? length r)%nat then VNull
      else match r with
           | VNull :: _ => VNull
           | _ =>
               let sep := match r with [] => "," | s :: _ => to_string_always s end in
               let null_replacement := match r with [_; x] => Some (to_string_always x) | _ => None end in
               VString (join sep (omap (fun item => if is_null item then null_replacement else Some (to_string_always item)) arr))
           end
  | _ => VNull
  end.

Definition func_array_create (args : list value) : value := VArray args.

Fixpoint position {A} (p : A -> bool) (l : list A) : option nat :=
  match l with
  | [] => None
  | x :: r => if p x then Some O else S <$> position p r
  end.

Definition rposition {A} (p : A -> bool) (l : list A) : option nat := (fun i => (length l - 1 - i)%nat) <$> position p (rev l).

Definition position_value (i : option nat) : value := match i with Some i => value_of_i64 (Z.of_nat i) | None => value_of_i64 (-1) end.

Definition func_array_position (args : list value) : value :=
  match args with
  | [VNull; _] => value_of_i64 (-1)
  | [VArray arr; x] => position_value (position (fun item => values_equal item x) arr)
  | _ => VNull
  end.

Definition func_array_last_position (args : list value) : value :=
  match args with
  | [VNull; _] => value_of_i64 (-1)
  | [VArray arr; x] => position_value (rposition (fun item => values_equal item x) arr)
  | _ => VNull
  end.

Definition func_array_positions (args : list value) : value :=
  match args with
  | [VNull; _] => VArray []
  | [VArray arr; target] =>
      VArray (omap (fun '(i, item) => if values_equal item target then Some (value_of_i64 (Z.of_nat i)) else None)
                (zip (seq 0 (length arr)) arr))
  | _ => VNull
  end.

Definition func_array_shuffle `{Random} (args : list value) : value :=
  match args with
  | [VArray arr] => VArray (shuffle arr)
  | _ => VNull
  end.

Fixpoint map_outcome {A B} (f : A -> outcome B) (l : list A) : outcome (list B) :=
  match l with
  | [] => Ok []
  | x :: r => y ← f x; ys ← map_outcome f r; Ok (y :: ys)
  end.

(** [call] is [eval_call]. *)
Definition func_array_map (call : string -> list value -> outcome value) (args : list value) : outcome value :=
  match args with
  | [VString func_name; VArray arr] => mapped ← map_outcome (fun item => call func_name [item]) arr; Ok (VArray mapped)
  | _ => Ok VNull
  end.

Definition func_array_length (args : list value) : value :=
  match args with
  | [VArray arr] => count_of arr
  | _ => VNull
  end.

(** Bounds count from 1 and are inclusive. *)
Definition slice_of (arr : list value) (start stop : Z) : list value :=
  let len := Z.of_nat (length arr) in
  let start := if start <? 1 then 1 else start in
  let stop := if len <? stop then len else stop in
  if (stop <? start) || (len <? start) || (stop <? 1) then []
  else take (Z.to_nat (stop - (start - 1))) (drop (Z.to_nat (start - 1)) arr).

Definition func_array_slice (args : list value) : value :=
  match args with
  | [VArray arr; start; stop] =>
      match to_i64_arg start, to_i64_arg stop with
      | Some start, Some stop => VArray (slice_of arr start stop)
      | _, _ => VNull
      end
  | _ => VNull
  end.

Definition func_array_concat (args : list value) : value :=
  match args with
  | [VArray a; VArray b] => VArray (a ++ b)
  | _ => VNull
  end.

(** [out.push(item)] unless an equal value is there. *)
Definition push_unseen (out : list value) (item : value) : list value :=
  if existsb (fun seen => values_equal seen item) out then out else out ++ [item].
Definition unseen (arr : list value) : list value := foldl push_unseen [] arr.

Definition func_deduplicate (args : list value) : value :=
  match args with
  | [VArray arr] => VArray (unseen arr)
  | _ => VNull
  end.
Definition func_array_distinct (args : list value) : value := func_deduplicate args.

Definition func_cardinality (args : list value) : value :=
  match args with
  | [VArray arr] => count_of arr
  | [VNull] => value_of_i64 0
  | _ => VNull
  end.

(** Positions count from 0, and from the end when they are negative. *)
Definition func_element_at (args : list value) : value :=
  match args with
  | [VObject m; VString key] => default VNull (object_get key m)
  | [VArray arr; index] =>
      match to_i64_arg index with
      | Some i => default VNull (nth_of arr (if 0 <=? i then i else Z.of_nat (length arr) + i))
      | None => VNull
      end
  | _ => VNull
  end.

Definition func_array_contains_any (args : list value) : value :=
  match args with
  | [VArray haystack; VArray needles] => VBool (existsb (fun n => existsb (fun h => values_equal h n) haystack) needles)
  | [_; _] => VBool false
  | _ => VNull
  end.

Definition func_array_remove (args : list value) : value :=
  match args with
  | [VArray arr; x] => VArray (List.filter (fun item => negb (values_equal item x)) arr)
  | _ => VNull
  end.

Definition func_array_intersect (args : list value) : value :=
  match args with
  | [VArray a; VArray b] => VArray (unseen (List.filter (fun item => existsb (fun other => values_equal item other) b) a))
  | _ => VNull
  end.

Definition func_array_union (args : list value) : value :=
  match args with
  | [VArray a; VArray b] => VArray (unseen (a ++ b))
  | _ => VNull
  end.

Definition func_array_except (args : list value) : value :=
  match args with
  | [VArray a; VArray b] => VArray (List.filter (fun item => negb (existsb (fun other => values_equal item other) b)) a)
  | _ => VNull
  end.

(** The number that is better than those before it. *)
Definition better_of (better : comparison -> bool) (best : option value) (item : value) : option value :=
  if negb (is_number item) then best
  else match best with
       | None => Some item
       | Some current =>
           match compare_values item current with
           | Some ord => if better ord then Some item else best
           | None => best
           end
       end.
Definition array_extreme (better : comparison -> bool) (arr : list value) : value := default VNull (foldl (better_of better) None arr).

Definition func_array_max (args : list value) : value :=
  match args with
  | [VArray arr] => array_extreme (fun ord => match ord with Datatypes.Gt => true | _ => false end) arr
  | _ => VNull
  end.
Definition func_array_min (args : list value) : value :=
  match args with
  | [VArray arr] => array_extreme (fun ord => match ord with Datatypes.Lt => true | _ => false end) arr
  | _ => VNull
  end.

Definition func_array_avg (args : list value) : value :=
  match args with
  | [VArray arr] =>
      let numbers := omap as_f64 arr in
      if bool_decide (numbers = []) then VNull
      else value_of_f64 (f64_div (foldl f64_add f64_zero numbers) (f64_of_Z (Z.of_nat (length numbers))))
  | _ => VNull
  end.

Definition func_array_flatten (args : list value) : value :=
  match args with
  | [VArray arr] => VArray (flat_map (fun item => match item with VArray inner => inner | other => [other] end) arr)
  | _ => VNull
  end.

(** Values of different types compare as texts.  Where that is not an order, the code leaves
    the result open; the model takes that of an insertion sort. *)
Definition sort_order (a b : value) : comparison :=
  default (String.compare (to_string_always a) (to_string_always b)) (compare_values a b).

Definition func_array_sort (args : list value) : value :=
  match args with
  | [VArray arr] => VArray (sort_by sort_order arr)
  | _ => VNull
  end.

Definition func_repeat `{VecLimit} (args : list value) : outcome value :=
  match args with
  | [x; n] =>
      match to_i64_arg n with
      | Some n =>
          if n <? 0 then Ok VNull
          else if n <=? make_limit then Ok (VArray (replicate (Z.to_nat n) x)) else Panic
      | None => Ok VNull
      end
  | _ => Ok VNull
  end.
End arrays.

(** ** Sequences

    The loop ends when it meets [stop] exactly or leaves the range of [i64], or when a push
    finds the vector at its limit; [depth] is the logarithm of a number of turns, and 60 of
    them reach the limit. *)

Section sequences.
Context `{VecLimit}.

(** The numbers pushed; then the loop has ended, or goes on with the next number, or the push
    of one more has panicked. *)
Fixpoint sequence_loop (depth : nat) (stop step current len : Z) : list Z * outcome (option Z) :=
  match depth with
  | O =>
      if len <? push_limit then ([current], Ok (if current =? stop then None else checked_add current step))
      else ([], Panic)
  | S depth =>
      match sequence_loop depth stop step current len with
      | (out, Ok (Some next)) =>
          let '(more, rest) := sequence_loop depth stop step next (len + 2 ^ Z.of_nat depth) in (out ++ more, rest)
      | done => done
      end
  end.

Definition sequence (start stop step : Z) : outcome (list Z) :=
  let '(out, ending) := sequence_loop 60 stop step start 0 in _ ← ending; Ok out.

Definition func_sequence (args : list value) : outcome value :=
  match args with
  | start :: stop :: (([] | [_]) as rest) =>
      match to_i64_arg start, to_i64_arg stop with
      | Some start, Some stop =>
          match (match rest with
                 | step :: _ => s ← to_i64_arg step; if s =? 0 then None else Some s
                 | [] => Some (if start <=? stop then 1 else -1)
                 end) with
          | None => Ok VNull
          | Some step =>
              if ((0 <? step) && (stop <? start)) || ((step <? 0) && (start <? stop)) then Ok VNull
              else numbers ← sequence start stop step; Ok (VArray (map value_of_i64 numbers))
          end
      | _, _ => Ok VNull
      end
  | _ => Ok VNull
  end.
End sequences.

(** ** JSON paths *)

Module JsonPath.

Inductive JsonPathStep :=
  | Field (name : string)
  | Index (i : Z)
  | Wildcard.

Definition strip_char (c : ascii) (l : list ascii) : list ascii :=
  match l with x :: r => if Ascii.eqb x c then r else l | [] => [] end.

(** What is before the first [c], and after it. *)
Fixpoint break_at (c : ascii) (l : list ascii) : option (list ascii * list ascii) :=
  match l with
  | [] => None
  | x :: r => if Ascii.eqb x c then Some ([], r) else '(a, b) ← break_at c r; Some (x :: a, b)
  end.

(** [str::split] on a character. *)
Fixpoint split_on (c : ascii) (cur l : list ascii) : list (list ascii) :=
  match l with
  | [] => [rev cur]
  | x :: r => if Ascii.eqb x c then rev cur :: split_on c [] r else split_on c (x :: cur) r
  end.

Definition parse_usize (token : list ascii) : option Z := parse_u64 (of_chars token).

(** The brackets after a name, each read by [token]; nothing else may follow them. *)
Fixpoint brackets {A} (token : list ascii -> option A) (fuel : nat) (rest : list ascii) : option (list A) :=
  match rest, fuel with
  | [], _ => Some []
  | _, O => None
  | c :: inner, S fuel =>
      if Ascii.eqb c "[" then
        '(text, rest) ← break_at "]" inner;
        x ← token text;
        xs ← brackets token fuel rest;
        Some (x :: xs)
      else None
  end.

Definition name_and_rest (seg : list ascii) : list ascii * list ascii :=
  match break_at "[" seg with
  | None => (seg, [])
  | Some (name, rest) => (name, "["%char :: rest)
  end.

Definition token_step (token : list ascii) : option JsonPathStep :=
  if bool_decide (token = ["*"%char]) then Some Wildcard else Index <$> parse_usize token.

Definition segment_steps (seg : list ascii) : option (list JsonPathStep) :=
  if bool_decide (seg = []) then None
  else
    let '(name, rest) := name_and_rest seg in
    steps ← brackets token_step (length rest) rest;
    Some (match name with [] => steps | _ => Field (of_chars name) :: steps end).

Definition compile_json_path (path : string) : option (list JsonPathStep) :=
  let p := strip_char "." (strip_char "$" (chars (trim_str path))) in
  match p with
  | [] => Some []
  | _ => mjoin <$> mapM segment_steps (split_on "." [] p)
  end.

(** A name selects a member of an object, or an item of an array when it is a number. *)
Definition step_into (v : value) (name : string) : option value :=
  match v with
  | VObject m => object_get name m
  | VArray arr => parse_u64 name ≫= nth_of arr
  | _ => None
  end.
Definition step_index (v : value) (i : Z) : option value := match v with VArray arr => nth_of arr i | _ => None end.

Fixpoint json_collect (steps : list JsonPathStep) (v : value) : list value :=
  match steps with
  | [] => [v]
  | Field name :: steps => match step_into v name with Some next => json_collect steps next | None => [] end
  | Index i :: steps => match step_index v i with Some next => json_collect steps next | None => [] end
  | Wildcard :: steps => match v with VArray arr => flat_map (json_collect steps) arr | _ => [] end
  end.

Definition split_path_segment (seg : list ascii) : list ascii * list Z :=
  let '(name, rest) := name_and_rest seg in
  match brackets parse_usize (length rest) rest with Some indices => (name, indices) | None => (seg, []) end.

(** [str::replace] of two different characters by one. *)
Fixpoint replace_pair (a b by_ : ascii) (l : list ascii) : list ascii :=
  match l with
  | x :: ((y :: r) as t) => if Ascii.eqb x a && Ascii.eqb y b then by_ :: replace_pair a b by_ r else x :: replace_pair a b by_ t
  | _ => l
  end.

Definition pointer_token (token : list ascii) : string := of_chars (replace_pair "~" "0" "~" (replace_pair "~" "1" "/" token)).

Definition walk {A} (f : value -> A -> option value) (l : list A) (v : value) : option value :=
  foldl (fun o x => o ≫= fun v => f v x) (Some v) l.

Definition walk_segment (v : value) (seg : list ascii) : option value :=
  let '(name, indices) := split_path_segment seg in
  v ← match name with [] => Some v | _ => step_into v (of_chars name) end;
  walk step_index indices v.

Definition is_pointer (path : string) : bool := match chars (trim_str path) with "/"%char :: _ => true | _ => false end.

Definition json_resolve_path (v : value) (path : string) : option value :=
  let p := chars (trim_str path) in
  match p with
  | [] => Some v
  | _ =>
      if is_pointer path then walk step_into (map pointer_token (drop 1 (split_on "/" [] p))) v
      else walk walk_segment (split_on "." [] p) v
  end.

Definition is_wildcard (s : JsonPathStep) : bool := match s with Wildcard => true | _ => false end.

Definition func_json_path_query (args : list value) : value :=
  match args with
  | [v; VString path] =>
      if is_pointer path then default VNull (json_resolve_path v path)
      else match compile_json_path path with
           | None => VNull
           | Some steps =>
               match json_collect steps v with
               | [] => VNull
               | (first :: _) as out => if existsb is_wildcard steps then VArray out else first
               end
           end
  | _ => VNull
  end.

(** The first item of an array, any other value itself. *)
Definition first_of (v : option value) : value :=
  match v with
  | Some (VArray arr) => default VNull (head arr)
  | Some v => v
  | None => VNull
  end.

Definition func_json_path_query_first (args : list value) : value :=
  match args with
  | [v; VString path] =>
      if is_pointer path then first_of (json_resolve_path v path)
      else match compile_json_path path with
           | None => VNull
           | Some steps => first_of (head (json_collect steps v))
           end
  | _ => VNull
  end.

Definition func_json_path_exists (args : list value) : value :=
  match args with
  | [v; VString path] =>
      VBool (if is_pointer path then bool_decide (is_Some (json_resolve_path v path))
             else match compile_json_path path with
                  | None => false
                  | Some steps => match json_collect steps v with [] => false | _ => true end
                  end)
  | [_; _] => VBool false
  | _ => VNull
  end.

(** *** Paths as text *)

Definition step_text (s : JsonPathStep) : list ascii :=
  match s with
  | Field name => "."%char :: chars name
  | Index i => "["%char :: chars (digits i) ++ ["]"%char]
  | Wildcard => ["["%char; "*"%char; "]"%char]
  end.
Definition path_text (steps : list JsonPathStep) : string := of_chars ("$"%char :: flat_map step_text steps).

(** Names without dots and brackets, indices of [usize]. *)
Definition plain (c : ascii) : bool := negb (Ascii.eqb c "." || Ascii.eqb c "[").
Definition step_ok (s : JsonPathStep) : Prop :=
  match s with
  | Field name => name <> "" /\ forallb plain (chars name) = true
  | Index i => 0 <= i <= u64_max
  | Wildcard => True
  end.

(** A token of a pointer with its escapes. *)
Definition escape (token : string) : list ascii :=
  flat_map (fun c => if Ascii.eqb c "~" then ["~"; "0"] else if Ascii.eqb c "/" then ["~"; "1"] else [c])%char (chars token).
Definition pointer_text (tokens : list string) : string := of_chars (flat_map (fun t => "/"%char :: escape t) tokens).
End JsonPath.

(** ** Sequences end at [stop], or at the end of the integers *)

(** [n] numbers from [start] on. *)
Definition progression (start step : Z) (n : nat) : list Z := map (fun i => start + Z.of_nat i * step) (seq 0 n).

Lemma progression_app start step n m :
  progression start step (n + m) = progression start step n ++ progression (start + Z.of_nat n * step) step m.
Proof.
  unfold progression. rewrite seq_app, map_app. f_equal. simpl. rewrite <- (Nat.add_0_r n) at 1. generalize 0%nat as k.
  induction m as [|m IH]; intros k; [done|]. simpl. f_equal; [lia|]. rewrite <- (IH (S k)). by rewrite Nat.add_succ_r.
Qed.

(** The number of turns of the loop when nothing limits it: up to the stop when the steps
    meet it, otherwise up to the end of the range. *)
Definition turns (start stop step : Z) : Z :=
  (if ((stop - start) mod step =? 0) && (0 <=? (stop - start) / step) then (stop - start) / step
   else if 0 <? step then (i64_max - start) / step
   else (start - i64_min) / - step) + 1.

(** [n] turns have been made without meeting the stop before the last. *)
Definition passed_by (start stop step : Z) (n : nat) : Prop :=
  (forall i, (i < n)%nat -> in_i64 (start + Z.of_nat i * step)) /\
  (forall i, (i < n - 1)%nat -> start + Z.of_nat i * step <> stop).

Section sequence_facts.
Context `{VecLimit} (stop step : Z).

(** What [2 ^ depth] turns do: they stop behind the [n]-th number, or the vector is full, or
    all of them pass. *)
Definition loop_ending (depth : nat) (current len : Z) (n : nat) (ending : outcome (option Z)) : Prop :=
  match ending with
  | Ok None => (0 < n)%nat /\ (current + Z.of_nat (n - 1) * step = stop \/ ~ in_i64 (current + Z.of_nat n * step))
  | Ok (Some next) =>
      n = (2 ^ depth)%nat /\ next = current + Z.of_nat n * step /\ in_i64 next /\ current + Z.of_nat (n - 1) * step <> stop
  | Panic =>
      len + Z.of_nat n = push_limit /\ in_i64 (current + Z.of_nat n * step) /\
      forall i, (i < n)%nat -> current + Z.of_nat i * step <> stop
  | Err _ => False
  end.

Lemma sequence_loop_spec depth current len : in_i64 current -> len <= push_limit ->
  exists n, (n <= 2 ^ depth)%nat /\ len + Z.of_nat n <= push_limit /\ passed_by current stop step n /\
    (sequence_loop depth stop step current len).1 = progression current step n /\
    loop_ending depth current len n (sequence_loop depth stop step current len).2.
Proof.
  revert current len. induction depth as [|depth IH]; intros current len Hc Hlen.
  - cbn [sequence_loop]. destruct (Z.ltb_spec len push_limit).
    + exists 1%nat. split_and!; [done|lia|split|unfold progression; simpl; f_equal; lia|].
      * intros i Hi. assert (i = 0%nat) as -> by lia. by rewrite Z.mul_0_l, Z.add_0_r.
      * intros; lia.
      * destruct (Z.eqb_spec current stop); [split; [lia|left; simpl; lia]|]. unfold checked_add. simpl. case_decide.
        -- split_and!; [done|lia|done|lia].
        -- split; [lia|]. right. by rewrite Z.mul_1_l.
    + exists 0%nat. split_and!; [simpl; lia|lia|split; intros; lia|done|]. simpl. split_and!; [lia|by rewrite Z.add_0_r|intros; lia].
  - cbn [sequence_loop]. destruct (IH current len Hc Hlen) as (n & Hn & Hroom & [Hin Hne] & Hl & Hr).
    destruct (sequence_loop depth stop step current len) as [l ending]. cbn [fst snd] in *.
    assert (Hpow : (2 ^ S depth = 2 ^ depth + 2 ^ depth)%nat) by (simpl; lia).
    destruct ending as [[next|]|msg|]; [|exists n; split_and!; done || lia..].
    destruct Hr as (Hn' & Hnext & Hrange & Hlast). assert (Hd : 2 ^ Z.of_nat depth = Z.of_nat n) by (rewrite Hn', Nat2Z.inj_pow; done).
    rewrite Hd. destruct (IH next (len + Z.of_nat n) Hrange Hroom) as (m & Hm & Hroom' & [Hin' Hne'] & Hl' & Hr').
    destruct (sequence_loop depth stop step next (len + Z.of_nat n)) as [l' rest]. cbn [fst snd] in *.
    assert (Hadd : forall k, current + Z.of_nat (n + k) * step = next + Z.of_nat k * step) by (intros; lia).
    assert (Hall : forall i, (i < n)%nat -> current + Z.of_nat i * step <> stop).
    { intros i Hi. destruct (decide (i = n - 1)%nat) as [->|]; [done|]. apply Hne. lia. }
    assert (0 < n)%nat by (rewrite Hn'; apply Nat.neq_0_lt_0, Nat.pow_nonzero; lia).
    exists (n + m)%nat. split_and!; [lia|lia|split| |].
    + intros i Hi. destruct (decide (i < n)%nat); [by apply Hin|]. replace i with (n + (i - n))%nat by lia. rewrite Hadd. apply Hin'. lia.
    + intros i Hi. destruct (decide (i < n)%nat); [by apply Hall|]. replace i with (n + (i - n))%nat by lia. rewrite Hadd. apply Hne'. lia.
    + rewrite Hl, Hl', progression_app. by rewrite <- Hnext.
    + destruct rest as [[next'|]|msg|]; simpl in Hr' |- *; rewrite ?Hadd.
      * destruct Hr' as (Hm' & -> & ? & ?). split_and!; [lia|done|done|]. replace (n + m - 1)%nat with (n + (m - 1))%nat by lia. by rewrite Hadd.
      * destruct Hr' as [? ?]. split; [lia|]. replace (n + m - 1)%nat with (n + (m - 1))%nat by lia. by rewrite Hadd.
      * done.
      * destruct Hr' as (? & ? & Hno). split_and!; [lia|done|]. intros i Hi. destruct (decide (i < n)%nat); [by apply Hall|].
        replace i with (n + (i - n))%nat by lia. rewrite Hadd. apply Hno. lia.
Qed.

Lemma sequence_loop_no_error depth current len msg : (sequence_loop depth stop step current len).2 <> Err msg.
Proof.
  revert current len. induction depth as [|depth IH]; intros current len; cbn [sequence_loop]; [by case_match|].
  pose proof (IH current len) as Hc. destruct (sequence_loop depth stop step current len) as [l [[next|]|e|]]; [|done..].
  pose proof (IH next (len + 2 ^ Z.of_nat depth)). by destruct (sequence_loop depth stop step next _).
Qed.

Lemma meets_iff start : step <> 0 ->
  ((stop - start) mod step =? 0) && (0 <=? (stop - start) / step) = true <-> exists k, stop = start + Z.of_nat k * step.
Proof.
  intros Hs. rewrite andb_true_iff, Z.eqb_eq, Z.leb_le. split.
  - intros [Hm Hd]. exists (Z.to_nat ((stop - start) / step)). rewrite Z2Nat.id by done. pose proof (Z.div_mod (stop - start) step Hs). lia.
  - intros [k ->]. replace (start + Z.of_nat k * step - start) with (Z.of_nat k * step) by lia.
    rewrite Z.mod_mul, Z.div_mul by done. lia.
Qed.

(** The turns there are when the loop has ended, and when it is cut short. *)
Lemma turns_ended start n : step <> 0 -> in_i64 stop -> passed_by start stop step n -> (0 < n)%nat ->
  start + Z.of_nat (n - 1) * step = stop \/ ~ in_i64 (start + Z.of_nat n * step) -> turns start stop step = Z.of_nat n.
Proof.
  intros Hs Hstop [Hin Hne] Hn Hend. pose proof (meets_iff start Hs) as Hm. unfold turns. pose proof (Hin (n - 1)%nat ltac:(lia)) as Hl.
  pose proof (Hin 0%nat Hn) as H0. unfold in_i64 in *.
  destruct (_ && _) eqn:Hb.
  - destruct (proj1 Hm eq_refl) as [k Hk]. rewrite Hk. replace (start + Z.of_nat k * step - start) with (Z.of_nat k * step) by lia.
    rewrite Z.div_mul by done. assert (~ (k < n - 1)%nat) by (intros Hlt; by apply (Hne k Hlt)). destruct Hend; nia.
  - assert (start + Z.of_nat (n - 1) * step <> stop) as Hnm by (intros He; discriminate (proj2 Hm (ex_intro _ _ (eq_sym He)))).
    destruct Hend as [|Hend]; [done|]. destruct (Z.ltb_spec 0 step).
    + rewrite <- (Z.div_unique (i64_max - start) step (Z.of_nat (n - 1)) (i64_max - start - step * Z.of_nat (n - 1))); nia.
    + rewrite <- (Z.div_unique (start - i64_min) (- step) (Z.of_nat (n - 1)) (start - i64_min - - step * Z.of_nat (n - 1))); nia.
Qed.

Lemma turns_more start n : step <> 0 -> in_i64 (start + Z.of_nat n * step) -> (forall i, (i < n)%nat -> start + Z.of_nat i * step <> stop) ->
  Z.of_nat n < turns start stop step.
Proof.
  intros Hs Hin Hne. pose proof (meets_iff start Hs) as Hm. unfold turns, in_i64 in *. destruct (_ && _).
  - destruct (proj1 Hm eq_refl) as [k Hk]. rewrite Hk. replace (start + Z.of_nat k * step - start) with (Z.of_nat k * step) by lia.
    rewrite Z.div_mul by done. assert (~ (k < n)%nat) by (intros Hlt; by apply (Hne k Hlt)). lia.
  - enough (forall a b, 0 < b -> Z.of_nat n * b <= a -> Z.of_nat n <= a / b) as Hd; [|intros; apply Z.div_le_lower_bound; lia].
    destruct (Z.ltb_spec 0 step); [pose proof (Hd (i64_max - start) step)|pose proof (Hd (start - i64_min) (- step))]; lia.
Qed.

(** [sequence] returns the numbers from the start to the stop when the steps meet it; when
    they pass over it, it goes on to the end of the range of [i64]; and it panics exactly when
    a vector cannot hold that many. *)
Theorem sequence_ends start : step <> 0 -> in_i64 start -> in_i64 stop ->
  sequence start stop step =
    if turns start stop step <=? push_limit then Ok (progression start step (Z.to_nat (turns start stop step))) else Panic.
Proof.
  intros Hs Hstart Hstop. pose proof vec_limits as Hlim. destruct (sequence_loop_spec 60 start 0 Hstart) as (n & Hn & Hroom & Hpass & Hl & Hr); [lia|].
  unfold sequence. destruct (sequence_loop 60 stop step start 0) as [out [[next|]|msg|]]; cbn [fst snd loop_ending] in *; [| |done|].
  - exfalso. destruct Hr as [-> _]. rewrite Nat2Z.inj_pow in Hroom. change (Z.of_nat 2 ^ Z.of_nat 60) with (2 ^ 60) in Hroom. lia.
  - destruct Hr as [Hpos Hend]. rewrite (turns_ended start n) by done. destruct (Z.leb_spec (Z.of_nat n) push_limit); [|lia].
    by rewrite Nat2Z.id, <- Hl.
  - destruct Hr as (Hfull & Hin & Hne). pose proof (turns_more start n Hs Hin Hne). by destruct (Z.leb_spec (turns start stop step) push_limit); [lia|].
Qed.
End sequence_facts.

(** ** Values that were seen *)

Definition seen_in (out : list value) (x : value) : Prop := exists y, y ∈ out /\ (y = x \/ values_equal y x = true).

Lemma push_unseen_seen out x : seen_in (push_unseen out x) x.
Proof.
  unfold push_unseen. destruct (existsb _ out) eqn:Hx.
  - apply existsb_exists in Hx as (y & Hy%list_elem_of_In & Heq). exists y. auto.
  - exists x. split; [set_solver|by left].
Qed.

Lemma push_unseen_keeps out x y : seen_in out y -> seen_in (push_unseen out x) y.
Proof. unfold push_unseen. intros (z & Hz & Heq). exists z. split; [|done]. case_match; [done|]. apply elem_of_app. by left. Qed.

Definition all_different (l : list value) : Prop := forall i j x y, (i < j)%nat -> l !! i = Some x -> l !! j = Some y -> values_equal x y = false.

Lemma push_unseen_different out x : all_different out -> all_different (push_unseen out x).
Proof.
  unfold push_unseen. intros Hd. destruct (existsb _ out) eqn:Hx; [done|]. intros i j a b Hij Ha Hb.
  apply lookup_snoc_Some in Hb as [[? Hb]|[-> ->]].
  - apply lookup_snoc_Some in Ha as [[? Ha]|[-> _]]; [exact (Hd i j a b Hij Ha Hb)|lia].
  - apply lookup_snoc_Some in Ha as [[? Ha]|[-> _]]; [|lia].
    destruct (values_equal a b) eqn:He; [|done]. rewrite <- Hx. symmetry. apply existsb_exists. exists a.
    split; [|done]. apply list_elem_of_In. by eapply list_elem_of_lookup_2.
Qed.

Lemma unseen_from arr out : all_different out ->
  (exists extra, foldl push_unseen out arr = out ++ extra /\ extra `sublist_of` arr) /\
  all_different (foldl push_unseen out arr) /\ (forall x, seen_in out x \/ x ∈ arr -> seen_in (foldl push_unseen out arr) x).
Proof.
  revert out. induction arr as [|a arr IH]; intros out Hd; cbn [foldl].
  { split; [exists []; by rewrite app_nil_r|split; [done|]]. intros x [?|?%elem_of_nil]; done. }
  destruct (IH _ (push_unseen_different out a Hd)) as ((extra & He & Hs) & Hd' & Hseen). split; [|split; [done|]].
  - rewrite He. unfold push_unseen. case_match; [by exists extra; auto using sublist_cons|].
    exists (a :: extra). rewrite <- app_assoc. by split; [|constructor].
  - intros x Hx. apply Hseen. rewrite elem_of_cons in Hx.
    destruct Hx as [Hx|[->|Hx]]; [left; by apply push_unseen_keeps|left; apply push_unseen_seen|right; exact Hx].
Qed.

(** [deduplicate], [array_distinct], [array_union] and [array_intersect] keep the order, keep
    a value equal to every one they read, and keep no two equal values; a null is equal to
    nothing, so all of them stay. *)
Theorem unseen_exact arr :
  unseen arr `sublist_of` arr /\ all_different (unseen arr) /\ (forall x, x ∈ arr -> seen_in (unseen arr) x).
Proof.
  destruct (unseen_from arr []) as ((extra & He & Hs) & Hd & Hseen); [by intros ? ? ? ? ? Hx|].
  unfold unseen. rewrite He in *. split_and!; [done|done|]. intros. apply Hseen. by right.
Qed.

(** ** Objects taken apart and put together again *)

Lemma insert_all_notin k m0 (m : list (string * value)) : k ∉ m.*1 -> insert_all m m0 !! k = m0 !! k.
Proof.
  unfold insert_all. revert m0. induction m as [|[k' v] m IH]; intros m0 Hk; [done|]. cbn [foldl].
  rewrite fmap_cons, not_elem_of_cons in Hk. rewrite IH by apply Hk. by rewrite lookup_insert_ne by (destruct Hk; cbn in *; congruence).
Qed.

Lemma insert_all_members (m : list (string * value)) : NoDup m.*1 -> insert_all m ∅ = list_to_map m.
Proof.
  enough (Hg : forall m0 : row, NoDup m.*1 -> (forall k, k ∈ m.*1 -> m0 !! k = None) -> insert_all m m0 = m0 ∪ list_to_map m).
  { intros Hm. rewrite Hg; [by rewrite (left_id_L ∅ (∪))|done|done]. }
  unfold insert_all. induction m as [|[k v] m IH]; intros m0 Hm Hn; [simpl; by rewrite (right_id_L ∅ (∪))|].
  cbn [foldl]. rewrite fmap_cons, list.NoDup_cons in Hm. destruct Hm as [Hk Hm]. rewrite IH; [|done|].
  - cbn [list_to_map]. simpl. rewrite <- insert_union_r by (apply Hn; rewrite fmap_cons; set_solver). by rewrite insert_union_l.
  - intros k' Hk'. rewrite lookup_insert_ne by (intros ->; done). apply Hn. rewrite fmap_cons. set_solver.
Qed.

Lemma object_of_members d m : row_to_value d = VObject m -> object_of m = VObject m.
Proof.
  intros Hm. unfold object_of. rewrite insert_all_members.
  - change (list_to_map m) with (row_of_members m). by rewrite (row_of_row_to_value d m Hm).
  - destruct (row_to_value_members d) as (m' & Hm' & Hp). rewrite Hm in Hm'. injection Hm' as <-. by eapply NoDup_members.
Qed.

Lemma mapM_Some_map {A B} (f : A -> option B) (g : B -> A) (l : list B) : (forall x, f (g x) = Some x) -> mapM f (map g l) = Some l.
Proof. intros Hf. induction l as [|x l IH]; simpl; [done|]. by rewrite Hf, IH. Qed.

Lemma omap_Some_map {A B} (f : A -> option B) (g : B -> A) (l : list B) : (forall x, f (g x) = Some x) -> omap f (map g l) = l.
Proof. intros Hf. induction l as [|x l IH]; [done|]. simpl. rewrite Hf. f_equal. exact IH. Qed.

(** An object is put together again from its items, from its keys and values, and from its
    pairs of key and value. *)
Theorem objects_put_together `{Text} (d : row) :
  let o := row_to_value d in
  func_zip [func_items [o]] = o /\ func_object [func_keys [o]; func_values [o]] = o /\
  func_kvpair_array_to_obj [func_obj_to_kvpair_array [o]] = o.
Proof.
  cbv zeta. destruct (row_to_value_members d) as (m & Hm & _). rewrite Hm. cbn [func_items func_keys func_values func_obj_to_kvpair_array].
  unfold func_zip, func_object, func_kvpair_array_to_obj. split_and!.
  - rewrite mapM_Some_map by (by intros []). by eapply object_of_members.
  - rewrite !length_map, Nat.eqb_refl, map_map. cbn [to_string_always].
    replace (zip (map (fun kv : string * value => kv.1) m) (map snd m)) with m; [by eapply object_of_members|].
    clear. induction m as [|[k v] m IH]; simpl; [done|]. by rewrite <- IH.
  - rewrite omap_Some_map by (by intros []). by eapply object_of_members.
Qed.

(** ** Paths are read back *)

Module JsonPathFacts.
Import JsonPath.

Definition bracket (s : JsonPathStep) : Prop := match s with Field _ => False | _ => True end.

Lemma plain_no c l : (c = "." \/ c = "[")%char -> forallb plain l = true -> c ∉ l.
Proof.
  intros Hc Hl Hin. rewrite forallb_forall in Hl. apply list_elem_of_In, Hl in Hin. unfold plain in Hin.
  by destruct Hc as [-> | ->].
Qed.

Lemma break_at_app c l r : c ∉ l -> break_at c (l ++ c :: r) = Some (l, r).
Proof.
  induction l as [|x l IH]; intros Hc; cbn; [by rewrite Ascii.eqb_refl|].
  rewrite not_elem_of_cons in Hc. destruct Hc as [Hx Hc]. destruct (Ascii.eqb_spec x c); [by subst|]. by rewrite IH.
Qed.

Lemma break_at_none c l : c ∉ l -> break_at c l = None.
Proof.
  induction l as [|x l IH]; intros Hc; [done|]. rewrite not_elem_of_cons in Hc. destruct Hc as [Hx Hc].
  cbn. destruct (Ascii.eqb_spec x c); [by subst|]. by rewrite IH.
Qed.

Lemma split_on_app c cur l r : c ∉ l -> split_on c cur (l ++ r) = split_on c (rev l ++ cur) r.
Proof.
  revert cur. induction l as [|x l IH]; intros cur Hc; [done|]. rewrite not_elem_of_cons in Hc. destruct Hc as [Hx Hc].
  cbn. destruct (Ascii.eqb_spec x c); [by subst|]. rewrite IH by done. by rewrite <- app_assoc.
Qed.

Lemma digits_no i c : 0 <= i -> is_ascii_digit c = false -> c ∉ chars (digits i).
Proof.
  intros Hi Hc Hin. destruct (digits_spec i Hi) as (l & Hl & _ & _ & Hd). rewrite Hl in Hin.
  rewrite list.Forall_forall in Hd. apply Hd in Hin. congruence.
Qed.

Lemma token_step_digits i : 0 <= i <= u64_max -> token_step (chars (digits i)) = Some (Index i).
Proof.
  intros Hi. unfold token_step. rewrite bool_decide_false.
  2: { intros Hd. apply (digits_no i "*"%char); [lia|done|]. rewrite Hd. set_solver. }
  unfold parse_usize, parse_u64. rewrite chars_of_chars. destruct (digits_spec i) as (l & Hl & _ & _ & Hd); [lia|].
  rewrite strip_sign_digits by (done || by rewrite Hl). cbn [default]. rewrite parse_digits_text by lia. cbn.
  by destruct (Z.leb_spec i u64_max); [|lia].
Qed.

Lemma step_no_dot s : step_ok s -> bracket s -> "."%char ∉ step_text s.
Proof.
  destruct s as [|i|]; cbn [step_ok bracket step_text]; intros Hs Hb; [done| |set_solver].
  pose proof (digits_no i "."%char ltac:(lia) eq_refl). rewrite elem_of_cons, elem_of_app, list_elem_of_singleton. naive_solver.
Qed.

Lemma brackets_text steps fuel : Forall step_ok steps -> Forall bracket steps -> (length steps <= fuel)%nat ->
  brackets token_step fuel (flat_map step_text steps) = Some steps.
Proof.
  revert fuel. induction steps as [|s steps IH]; intros fuel Hok Hb Hf; [by destruct fuel|].
  destruct fuel as [|fuel]; [simpl in Hf; lia|]. apply list.Forall_cons in Hok as [Hs Hok]. apply list.Forall_cons in Hb as [Hsb Hb].
  cbn [length] in Hf. cbn [flat_map]. destruct s as [|i|]; [done| |].
  - cbn [step_text app brackets]. rewrite Ascii.eqb_refl, <- app_assoc. cbn [app]. cbn [step_ok] in Hs.
    rewrite break_at_app by (apply digits_no; [lia|done]). cbn. rewrite token_step_digits by done. cbn.
    by rewrite IH by (done || lia).
  - cbn [step_text app brackets]. rewrite Ascii.eqb_refl. cbn -[brackets]. by rewrite IH by (done || lia).
Qed.

Definition field_of (name : string) : list JsonPathStep := if bool_decide (name = "") then [] else [Field name].

Lemma step_text_length steps : (length steps <= length (flat_map step_text steps))%nat.
Proof. induction steps as [|[] steps IH]; cbn; rewrite ?length_app; cbn; lia. Qed.

Lemma chars_nil s : chars s = [] -> s = "".
Proof. intros Hs. by rewrite <- (of_chars_chars s), Hs. Qed.

Lemma segment_steps_text name idx : forallb plain (chars name) = true -> Forall step_ok idx -> Forall bracket idx ->
  chars name ++ flat_map step_text idx <> [] ->
  segment_steps (chars name ++ flat_map step_text idx) = Some (field_of name ++ idx).
Proof.
  intros Hp Hok Hb Hne. unfold segment_steps. rewrite bool_decide_false by done. unfold name_and_rest.
  pose proof (plain_no "["%char _ (or_intror eq_refl) Hp) as Hno.
  assert (Hn : match chars name with [] => Some idx | _ => Some (Field (of_chars (chars name)) :: idx) end = Some (field_of name ++ idx)).
  { unfold field_of. rewrite of_chars_chars. destruct (chars name) eqn:Hc.
    - apply chars_nil in Hc as ->. by rewrite bool_decide_true.
    - rewrite bool_decide_false; [done|]. intros ->. done. }
  destruct idx as [|s idx].
  - cbn [flat_map]. rewrite app_nil_r. rewrite break_at_none by done. cbn [length brackets]. cbn. rewrite <- Hn. by destruct (chars name).
  - assert (exists rest, flat_map step_text (s :: idx) = "["%char :: rest) as [rest Hr].
    { apply list.Forall_cons in Hb as [Hs _]. destruct s as [|i|]; [done| |]; by eexists. }
    pose proof (step_text_length (s :: idx)) as Hlen. rewrite Hr in *. rewrite break_at_app by done.
    rewrite <- Hr at 2. rewrite brackets_text by done. cbn. rewrite <- Hn. by destruct (chars name).
Qed.

Lemma segments_text steps name idx : Forall step_ok steps -> forallb plain (chars name) = true -> Forall step_ok idx -> Forall bracket idx ->
  chars name ++ flat_map step_text idx <> [] ->
  mjoin <$> mapM segment_steps (split_on "." (rev (chars name ++ flat_map step_text idx)) (flat_map step_text steps)) =
  Some (field_of name ++ idx ++ steps).
Proof.
  revert name idx. induction steps as [|s steps IH]; intros name idx Hok Hp Hi Hb Hne.
  { cbn [flat_map split_on mapM]. rewrite rev_involutive, segment_steps_text by done. cbn. by rewrite !app_nil_r. }
  apply list.Forall_cons in Hok as [Hs Hok]. assert (bracket s \/ ~ bracket s) as [Hsb|Hsb] by (destruct s; cbn; auto).
  - cbn [flat_map]. rewrite split_on_app by (by apply step_no_dot).
    rewrite <- rev_app_distr, <- app_assoc. replace (flat_map step_text idx ++ step_text s) with (flat_map step_text (idx ++ [s]))
      by (rewrite flat_map_app; cbn; by rewrite app_nil_r).
    rewrite IH; [by rewrite <- app_assoc|done|done| | |].
    + apply Forall_app. auto.
    + apply Forall_app. auto.
    + rewrite flat_map_app. destruct (chars name); [|done]. by destruct (flat_map step_text idx).
  - destruct s as [n|i|]; [|by destruct Hsb|by destruct Hsb]. cbn [step_ok] in Hs. destruct Hs as [Hn Hpn].
    cbn [flat_map step_text app]. cbn [split_on]. rewrite Ascii.eqb_refl, rev_involutive. cbn [mapM].
    rewrite segment_steps_text by done. rewrite split_on_app by (apply plain_no; auto).
    assert (Hnn : chars n <> []) by (by intros ?%chars_nil).
    specialize (IH n [] Hok Hpn (list.Forall_nil_2 _) (list.Forall_nil_2 _)). cbn [flat_map] in IH. rewrite !app_nil_r in IH. specialize (IH Hnn).
    rewrite app_nil_r. destruct (mapM segment_steps _) as [l|]; [|done]. injection IH as IH. change (Some ((field_of name ++ idx) ++ mjoin l) = Some (field_of name ++ idx ++ Field n :: steps)).
    rewrite IH. unfold field_of at 2. rewrite bool_decide_false by done. by rewrite <- app_assoc.
Qed.

Lemma compile_path_text steps : Forall step_ok steps -> trim_str (path_text steps) = path_text steps ->
  compile_json_path (path_text steps) = Some steps.
Proof.
  intros Hok Ht. unfold compile_json_path. rewrite Ht. unfold path_text. rewrite chars_of_chars. cbn [strip_char]. rewrite Ascii.eqb_refl.
  destruct steps as [|s steps]; [done|]. apply list.Forall_cons in Hok as [Hs Hok]. destruct s as [n|i|].
  - cbn [step_ok] in Hs. destruct Hs as [Hn Hp]. cbn [flat_map step_text app strip_char]. rewrite Ascii.eqb_refl.
    pose proof (segments_text steps n [] Hok Hp (list.Forall_nil_2 _) (list.Forall_nil_2 _)) as Hseg.
    cbn [flat_map] in Hseg. rewrite !app_nil_r in Hseg. assert (Hnn : chars n <> []) by (by intros ?%chars_nil). specialize (Hseg Hnn).
    rewrite split_on_app by (apply plain_no; auto). rewrite app_nil_r. unfold field_of in Hseg. rewrite bool_decide_false in Hseg by done.
    destruct (chars n); [done|]. exact Hseg.
  - assert (Hi : Forall step_ok [Index i]) by (constructor; [exact Hs|constructor]). assert (Hb : Forall bracket [Index i]) by (by constructor).
    pose proof (segments_text steps "" _ Hok eq_refl Hi Hb ltac:(done)) as Hseg.
    transitivity (mjoin <$> mapM segment_steps (split_on "." [] (step_text (Index i) ++ flat_map step_text steps))); [reflexivity|].
    rewrite split_on_app, app_nil_r by (by apply step_no_dot). cbn [flat_map] in Hseg. rewrite app_nil_r in Hseg. exact Hseg.
  - assert (Hi : Forall step_ok [Wildcard]) by (constructor; [exact Hs|constructor]). assert (Hb : Forall bracket [Wildcard]) by (by constructor).
    pose proof (segments_text steps "" _ Hok eq_refl Hi Hb ltac:(done)) as Hseg.
    exact Hseg.
Qed.

(** *** Pointers *)

Lemma escape_char (c : ascii) l :
  escape (of_chars (c :: l)) =
  ((if Ascii.eqb c "~" then ["~"; "0"] else if Ascii.eqb c "/" then ["~"; "1"] else [c]) ++ escape (of_chars l))%char.
Proof. unfold escape. by rewrite !chars_of_chars. Qed.

Lemma escape_no_slash t : "/"%char ∉ escape t.
Proof.
  unfold escape. induction (chars t) as [|c l IH]; [set_solver|]. cbn [flat_map]. rewrite elem_of_app. intros [Hin|Hin]; [|done].
  destruct (Ascii.eqb_spec c "~"), (Ascii.eqb_spec c "/"); set_solver.
Qed.

Lemma unescape l : replace_pair "~" "0" "~" (replace_pair "~" "1" "/" (escape (of_chars l))) = l.
Proof.
  assert (H1 : replace_pair "~" "1" "/" (escape (of_chars l)) = flat_map (fun c => if Ascii.eqb c "~" then ["~"; "0"] else [c])%char l).
  { induction l as [|c l IH]; [done|]. rewrite escape_char. cbn [flat_map].
    destruct (Ascii.eqb_spec c "~") as [->|Hc]; [|destruct (Ascii.eqb_spec c "/") as [->|Hc']].
    - rewrite <- IH. cbn [app]. destruct (escape (of_chars l)) as [|x r]; [done|]. by cbn.
    - cbn. by rewrite IH.
    - rewrite <- IH. cbn [app]. destruct (escape (of_chars l)) as [|x r]; [done|]. cbn [replace_pair].
      destruct (Ascii.eqb_spec c "~"); [done|]. done. }
  rewrite H1. clear H1. induction l as [|c l IH]; [done|]. cbn [flat_map]. destruct (Ascii.eqb_spec c "~") as [->|Hc].
  - cbn. by rewrite IH.
  - cbn [app]. rewrite <- IH at 2. destruct (flat_map _ l) as [|x r]; [done|]. cbn [replace_pair]. by destruct (Ascii.eqb_spec c "~").
Qed.

Lemma pointer_token_escape t : pointer_token (escape t) = t.
Proof. unfold pointer_token. rewrite <- (of_chars_chars t) at 1. by rewrite unescape, of_chars_chars. Qed.

Lemma split_pointer tokens cur : split_on "/" cur (flat_map (fun t => "/"%char :: escape t) tokens) = rev cur :: map escape tokens.
Proof.
  revert cur. induction tokens as [|t tokens IH]; intros cur; [done|]. cbn [flat_map app split_on]. rewrite Ascii.eqb_refl.
  rewrite split_on_app by apply escape_no_slash. rewrite IH, app_nil_r, rev_involutive. done.
Qed.

Lemma resolve_pointer v tokens : tokens <> [] -> trim_str (pointer_text tokens) = pointer_text tokens ->
  json_resolve_path v (pointer_text tokens) = walk step_into tokens v.
Proof.
  intros Hne Ht. unfold json_resolve_path, is_pointer. rewrite Ht. unfold pointer_text. rewrite chars_of_chars.
  assert (He : forall l, map pointer_token (map escape l) = l).
  { intros l. rewrite map_map. rewrite <- (map_id l) at 2. apply map_ext, pointer_token_escape. }
  destruct tokens as [|t tokens]; [done|]. rewrite split_pointer. exact (f_equal (fun l => walk step_into l v) (He (t :: tokens))).
Qed.

(** A path is read back from its text: the steps of a path with dots and brackets whose
    names have neither, and the names of a JSON pointer, with their slashes and tildes
    escaped, which then select member by member. *)
Theorem json_paths_read_back :
  (forall steps, Forall step_ok steps -> trim_str (path_text steps) = path_text steps -> compile_json_path (path_text steps) = Some steps) /\
  (forall v tokens, tokens <> [] -> trim_str (pointer_text tokens) = pointer_text tokens ->
     json_resolve_path v (pointer_text tokens) = walk step_into tokens v).
Proof. split; [exact compile_path_text|exact resolve_pointer]. Qed.
End JsonPathFacts.

(** ** Samples *)

Module ArraySample.
Import JsonPath.

Definition int (i : Z) : value := value_of_i64 i.
Definition ints (l : list Z) : value := VArray (map int l).

#[local] Instance vec_limit : VecLimit := {| push_limit := 2 ^ 57; make_limit := 2 ^ 58 - 1; vec_limits := ltac:(lia) |}.

(** Steps that pass over the stop: the loop goes on towards the end of the range, until the
    vector is full; a larger step ends there. *)
Lemma sequence_passes_stop :
  func_sequence [int 1; int 4; int 2] = Panic /\ func_repeat [int 1; int i64_max] = Panic /\
  func_sequence [int 1; int 4; int (2 ^ 62)] = Ok (ints [1; 2 ^ 62 + 1]).
Proof.
  split; [|by vm_compute]. change (func_sequence [int 1; int 4; int 2]) with (numbers ← sequence 1 4 2; Ok (VArray (map value_of_i64 numbers))).
  rewrite sequence_ends; [by vm_compute|done|unfold in_i64, i64_min, i64_max; lia..].
Qed.

Example sequences :
  func_sequence [int 1; int 7; int 3] = Ok (ints [1; 4; 7]) /\ func_sequence [int 3; int 1] = Ok (ints [3; 2; 1]) /\
  func_sequence [int 1; int 4; int (-1)] = Ok VNull /\ func_sequence [int 1; int 4; int 0] = Ok VNull.
Proof. by vm_compute. Qed.

(** Nulls are equal to nothing, so every one of them stays, and none is ever found. *)
Example nulls_stay :
  func_deduplicate [VArray [VNull; int 1; VNull; int 1]] = VArray [VNull; int 1; VNull] /\
  func_array_contains [VArray [VNull]; VNull] = VBool false /\
  func_array_except [VArray [VNull]; VArray [VNull]] = VArray [VNull].
Proof. by vm_compute. Qed.

Definition doc : value := VObject [("a", VArray [VObject [("b", int 1)]; VObject [("b", int 2)]]); ("c/d", int 3)].

Example paths :
  func_json_path_query [doc; VString "$.a[*].b"] = ints [1; 2] /\ func_json_path_query [doc; VString "a.1.b"] = int 2 /\
  func_json_path_query [doc; VString "/c~1d"] = int 3 /\ func_json_path_exists [doc; VString "$.a[2]"] = VBool false /\
  func_json_path_query_first [doc; VString "$.a"] = VObject [("b", int 1)].
Proof. by vm_compute. Qed.

Example slices :
  func_array_slice [ints [1; 2; 3]; int 0; int 2] = ints [1; 2] /\ func_element_at [ints [1; 2; 3]; int (-1)] = int 3 /\
  func_element_at [ints [1; 2; 3]; int 3] = VNull.
Proof. by vm_compute. Qed.
End ArraySample.
