(* ===== verification/ScalarFunctions.v ===== *)
(** * Scalar functions ([crates/rekuiper-sql/src/eval/math.rs], [string.rs], [transform.rs])

    The functions of SQL on numbers and texts, the conversions, and their dispatch by name
    ([eval_call] of eval.rs).  The elementary functions of [f64], digests, regular
    expressions, compression, dates and plugins are interfaces; texts have no bound, and the
    pause of [delay] is left out. *)

From Stdlib Require Import Ascii SpecFloat.
From S2P Require Import DataTemplate FloatText Statements Parser Prelude Rust Characters Json Ast Engine Columns Values Numbers Accumulators Eval Delimited Payload ArrayFunctions.

Set Default Goal Selector "!".

(** ** Code outside the program *)

(** The functions of [f64] whose precision the standard library leaves open. *)
Class Libm := {
  f64_sin : f64 -> f64; f64_cos : f64 -> f64; f64_tan : f64 -> f64;
  f64_asin : f64 -> f64; f64_acos : f64 -> f64; f64_atan : f64 -> f64; f64_atan2 : f64 -> f64 -> f64;
  f64_exp : f64 -> f64; f64_ln : f64 -> f64; f64_log2 : f64 -> f64; f64_log10 : f64 -> f64;
  f64_cosh : f64 -> f64; f64_sinh : f64 -> f64; f64_tanh : f64 -> f64;
  f64_powf : f64 -> f64 -> f64;
  powi10 : Z -> f64;
}.

(** Digests by name, as bytes; CRC-32; regular expressions ([None] for a pattern that is
    not one), with the groups of the first match; compression by name. *)
Class Crates := {
  digest_of : string -> list ascii -> list ascii;
  crc32 : list ascii -> Z;
  regex_is_match : string -> string -> option bool;
  regex_replace_all : string -> string -> string -> option string;
  regex_captures : string -> string -> option (option (list (option string)));
  compress_with : string -> list ascii -> option (list ascii);
  decompress_with : string -> list ascii -> option (list ascii);
}.

(** The functions of dates (datetime.rs) by name, the cast to a date, fresh identifiers,
    the registries of plugins, and the state kept by key. *)
Class Environment := {
  date_call : string -> list value -> value;
  cast_to_datetime : value -> value;
  new_uuid : string;
  call_udf : string -> list value -> option value;
  call_wasm : string -> string -> list value -> option value;
  keyed_state : string -> option string;
}.

Definition any_null (args : list value) : bool := existsb is_null args.

(** ** Rounding of [f64] *)

Definition sign_of (f : f64) : bool :=
  match f with S754_zero s | S754_infinity s | S754_finite s _ _ => s | S754_nan => false end.

(** A function of the fraction [num / den] on floats; a zero keeps the sign. *)
Definition rounded (round : Z -> Z -> Z) (f : f64) : f64 :=
  match f with
  | S754_finite s m e =>
      if 0 <=? e then f
      else
        let z := round (if s then Z.neg m else Z.pos m) (2 ^ (- e)) in
        if z =? 0 then S754_zero s else f64_of_Z z
  | _ => f
  end.
Definition f64_floor : f64 -> f64 := rounded Z.div.
Definition f64_ceil : f64 -> f64 := rounded (fun num den => - ((- num) / den)).
Definition f64_trunc_f64 : f64 -> f64 := rounded Z.quot.
(** Half away from zero. *)
Definition f64_round : f64 -> f64 := rounded (fun num den => Z.quot (2 * num + Z.sgn num * den) (2 * den)).
Definition f64_sqrt : f64 -> f64 := SFsqrt 53 1024.
Definition f64_one : f64 := f64_of_Z 1.
Definition f64_const (s : string) : f64 := default S754_nan (parse_f64 s).
Definition f64_pi : f64 := f64_const "3.14159265358979323846264338327950288".

(** [f64::clamp] *)
Definition f64_clamp (lo hi f : f64) : f64 := if f64_ltb f lo then lo else if f64_ltb hi f then hi else f.

(** [json!] of a result that has to be a number. *)
Definition finite_or_null (r : f64) : value := if is_finite r then value_of_f64 r else VNull.

(** ** Mathematics *)

Section math.
Context `{Engine.Text} `{Libm}.

Definition func_abs (args : list value) : outcome value :=
  match args with
  | [VNumber n] =>
      Ok match number_as_i64 n, number_as_u64 n with
         | Some i, _ => if i =? i64_min then value_of_f64 (f64_abs (f64_of_Z i)) else value_of_i64 (Z.abs i)
         | None, Some u => value_of_u64 u
         | None, None => value_of_f64 (f64_abs (number_as_f64 n))
         end
  | [VNull] => Ok VNull
  | [_] => Err "call func abs error: only float64 & int type are supported"
  | _ => Ok VNull
  end.

(** A function of one number that gives null for what is not one. *)
Definition on_number (f : f64 -> value) (args : list value) : value :=
  match args with
  | [v] => if is_null v then VNull else match to_f64 v with Some x => f x | None => VNull end
  | _ => VNull
  end.

Definition func_ceil : list value -> value := on_number (fun x => value_of_f64 (f64_ceil x)).
Definition func_floor : list value -> value := on_number (fun x => value_of_f64 (f64_floor x)).

(** [p as i32] *)
Definition wrap32 (z : Z) : Z := (z + 2 ^ 31) mod 2 ^ 32 - 2 ^ 31.

Definition func_round (args : list value) : value :=
  match args with
  | v :: (([] | [_]) as rest) =>
      if any_null args then VNull
      else match to_f64 v, (match rest with p :: _ => wrap32 <$> to_i64_arg p | [] => Some 0 end) with
           | Some v, Some precision =>
               let factor := powi10 precision in
               let scaled := f64_mul v factor in
               if is_finite factor && is_finite scaled then value_of_f64 (f64_div (f64_round scaled) factor) else VNull
           | _, _ => VNull
           end
  | _ => VNull
  end.

(** The argument of a function that refuses what is not a number. *)
Definition fallible_number (name : string) (args : list value) (f : value -> f64 -> outcome value) : outcome value :=
  match args with
  | [v] =>
      if is_null v then Ok VNull
      else match to_f64 v with
           | Some x => f v x
           | None => Err ("call func " +:+ name +:+ " error: cannot convert " +:+ format_ekuiper_val_type v +:+ " to float64")
           end
  | _ => Ok VNull
  end.

Definition shown_number (v : value) (x : f64) : string := match as_i64 v with Some i => integer_text i | None => float_display x end.

Definition func_sqrt (args : list value) : outcome value :=
  fallible_number "sqrt" args (fun v x =>
    if f64_ltb x f64_zero then Err ("call func sqrt error: The argument must be a positive number but got " +:+ shown_number v x)
    else let r := f64_sqrt x in if is_nan r then Ok VNull else Ok (value_of_f64 r)).

Definition func_ln (args : list value) : outcome value :=
  fallible_number "ln" args (fun v x =>
    if f64_leb x f64_zero then Err ("call func ln error: The argument must be a strictly positive number but got " +:+ shown_number v x)
    else Ok (finite_or_null (f64_ln x))).

Definition func_cot (args : list value) : outcome value :=
  fallible_number "cot" args (fun _ x =>
    let tan := f64_tan x in
    if f64_eqb tan f64_zero then Err "call func cot error: divided by zero" else Ok (finite_or_null (f64_div f64_one tan))).

(** [i64::checked_pow]: a power of at least 64 of anything but -1, 0 and 1 overflows. *)
Definition checked_pow (base e : Z) : option Z :=
  if Z.abs base <=? 1 then
    Some (if e =? 0 then 1 else if base =? -1 then (if Z.even e then 1 else -1) else base)
  else if 63 <? e then None
  else if decide (in_i64 (base ^ e)) then Some (base ^ e) else None.

Definition func_power (args : list value) : value :=
  match args with
  | [b; e] =>
      if any_null args then VNull
      else match as_i64 b, as_i64 e with
           | Some base, Some exp =>
               if 0 <=? exp then
                 match (if exp <? 2 ^ 32 then checked_pow base exp else None) with Some n => value_of_i64 n | None => VNull end
               else finite_or_null (f64_powf (f64_of_Z base) (f64_of_Z exp))
           | _, _ =>
               match to_f64 b, to_f64 e with
               | Some x, Some y => finite_or_null (f64_powf x y)
               | _, _ => VNull
               end
           end
  | _ => VNull
  end.

Definition func_float1 (f : f64 -> f64) : list value -> value := on_number (fun x => finite_or_null (f x)).

Definition func_atan2 (args : list value) : value :=
  match args with
  | [y; x] =>
      if any_null args then VNull
      else match to_f64 y, to_f64 x with
           | Some y, Some x => finite_or_null (f64_atan2 y x)
           | _, _ => VNull
           end
  | _ => VNull
  end.

Definition positive_log (f : f64 -> f64) : list value -> value :=
  on_number (fun x => if f64_ltb f64_zero x then finite_or_null (f x) else VNull).
Definition func_log10 : list value -> value := positive_log f64_log10.
Definition func_log2 : list value -> value := positive_log f64_log2.

(** A result next to a whole number is that number. *)
Definition log_result (raw : f64) : value :=
  if is_finite raw then
    let whole := f64_round raw in
    value_of_f64 (if f64_ltb (f64_abs (f64_sub raw whole)) (f64_const "1e-12") then whole else raw)
  else VNull.

Definition near (a b : f64) : bool := f64_ltb (f64_abs (f64_sub a b)) f64_epsilon.

Definition func_log (args : list value) : value :=
  match args with
  | [_] => func_log10 args
  | [b; x] =>
      if any_null args then VNull
      else match to_f64 b, to_f64 x with
           | Some base, Some val =>
               if f64_leb base f64_zero || near base f64_one || f64_leb val f64_zero then VNull
               else log_result (if near base (f64_of_Z 10) then f64_log10 val
                                else if near base (f64_of_Z 2) then f64_log2 val
                                else f64_div (f64_ln val) (f64_ln base))
           | _, _ => VNull
           end
  | _ => VNull
  end.

Definition func_radians : list value -> value := on_number (fun x => value_of_f64 (f64_mul x (f64_div f64_pi (f64_of_Z 180)))).
Definition func_degrees : list value -> value := on_number (fun x => value_of_f64 (f64_mul x (f64_const "57.2957795130823208767981548141051703"))).

Definition bit_function (f : Z -> Z -> Z) (args : list value) : value :=
  match args with
  | [a; b] =>
      if any_null args then VNull
      else match to_i64_arg a, to_i64_arg b with
           | Some a, Some b => value_of_i64 (f a b)
           | _, _ => VNull
           end
  | _ => VNull
  end.
Definition func_bitand : list value -> value := bit_function Z.land.
Definition func_bitor : list value -> value := bit_function Z.lor.
Definition func_bitxor : list value -> value := bit_function Z.lxor.
Definition func_bitnot (args : list value) : value :=
  match args with
  | [v] => if is_null v then VNull else match to_i64_arg v with Some a => value_of_i64 (Z.lnot a) | None => VNull end
  | _ => VNull
  end.

Definition func_sign (args : list value) : value :=
  match args with
  | [v] =>
      if is_null v then VNull
      else match as_i64 v, as_u64 v with
           | Some i, _ => value_of_i64 (Z.sgn i)
           | None, Some u => value_of_i64 (if u =? 0 then 0 else 1)
           | None, None =>
               match to_f64 v with
               | Some f => value_of_i64 (if f64_ltb f64_zero f then 1 else if f64_ltb f f64_zero then -1 else 0)
               | None => VNull
               end
           end
  | _ => VNull
  end.

(** The quotient of [i64::MIN] and -1 overflows. *)
Definition func_mod (args : list value) : outcome value :=
  let not_number v := "call func mod error: cannot convert " +:+ format_ekuiper_val_type v +:+ " to float64" in
  match args with
  | [a; b] =>
      if any_null args then Ok VNull
      else match to_f64 a, to_f64 b with
           | None, _ => Err (not_number a)
           | _, None => Err (not_number b)
           | Some f1, Some f2 =>
               if f64_eqb f2 f64_zero then Err "call func mod error: divided by zero"
               else match as_i64 a, as_i64 b with
                    | Some i1, Some i2 =>
                        if i2 =? 0 then Err "call func mod error: divided by zero" else (r ← i64_rem i1 i2; Ok (value_of_i64 r))
                    | _, _ => Ok (value_of_f64 (f64_rem f1 f2))
                    end
           end
  | _ => Ok VNull
  end.
End math.

(** ** Bases *)

(** [char::to_digit] *)
Definition to_digit (base c : Z) : option Z :=
  let d := if is_digit c then c - 48 else if (97 <=? c) && (c <=? 122) then c - 87 else if (65 <=? c) && (c <=? 90) then c - 55 else base in
  if d <? base then Some d else None.

(** [char::from_digit] *)
Definition from_digit (d : Z) : Z := if d <? 10 then d + 48 else d + 87.

(** The loop of [parse_radix], with its checked operations. *)
Fixpoint radix_value (base acc : Z) (l : input) : option Z :=
  match l with
  | [] => Some acc
  | c :: r =>
      d ← to_digit base c;
      let acc := acc * base + d in
      if acc <=? i64_max then radix_value base acc r else None
  end.

(** A minus sign or a plus sign, and what follows it. *)
Definition split_sign (text : input) : bool * input :=
  match text with
  | c :: r => if c =? 45 then (true, r) else if c =? 43 then (false, r) else (false, text)
  | [] => (false, [])
  end.

Definition parse_radix (text : input) (base : Z) : option Z :=
  let '(negative, digits) := split_sign (trim_cps text) in
  match digits with
  | [] => None
  | _ => (fun v => if negative then - v else v) <$> radix_value base 0 digits
  end.

(** The digits of [n], at most [fuel] of them. *)
Fixpoint radix_digits (fuel : nat) (base n : Z) : input :=
  match fuel with
  | O => []
  | S fuel => if 0 <? n then radix_digits fuel base (n / base) ++ [from_digit (n mod base)] else []
  end.

Definition format_radix (value base : Z) : input :=
  if value =? 0 then [48]
  else (if value <? 0 then [45] else []) ++ radix_digits 64 base (Z.abs value).

Definition in_bases (base : Z) : bool := (2 <=? base) && (base <=? 36).

Definition func_conv (args : list value) : value :=
  match args with
  | [num; from; to_] =>
      if any_null args then VNull
      else match to_i64_arg from, to_i64_arg to_ with
           | Some from_base, Some to_base =>
               if in_bases from_base && in_bases to_base then
                 match (match num with
                        | VString s => Some (trim_cps (of_str s))
                        | VNumber _ => (fun n => of_str (integer_text n)) <$> to_i64_arg num
                        | _ => None
                        end) ≫= fun digits => parse_radix digits from_base with
                 | Some n => VString (to_str (format_radix n to_base))
                 | None => VNull
                 end
               else VNull
           | _, _ => VNull
           end
  | _ => VNull
  end.

(** [i64::from_str_radix] *)
Fixpoint radix_exact (base acc : Z) (l : input) : option Z :=
  match l with
  | [] => Some acc
  | c :: r => d ← to_digit base c; radix_exact base (acc * base + d) r
  end.
Definition from_str_radix (l : input) (base : Z) : option Z :=
  let '(negative, digits) := split_sign l in
  match digits with
  | [] => None
  | _ => v ← radix_exact base 0 digits; let v := if negative then - v else v in if decide (in_i64 v) then Some v else None
  end.

Definition strip_hex (l : input) : input :=
  match Parser.strip_prefix (cps "0x") l with
  | Some r => r
  | None => default l (Parser.strip_prefix (cps "0X") l)
  end.

Definition func_hex2dec (args : list value) : value :=
  match args with
  | [VString s] => match from_str_radix (strip_hex (trim_cps (of_str s))) 16 with Some n => value_of_i64 n | None => VNull end
  | _ => VNull
  end.

(** [format!("{:x}", n)] *)
Definition hex (n : Z) : input := if n =? 0 then [48] else radix_digits 64 16 n.

Definition func_dec2hex (args : list value) : value :=
  match args with
  | [v] =>
      if is_null v then VNull
      else match to_i64_arg v with
           | Some n => VString (to_str ((if n <? 0 then [45] else []) ++ [48; 120] ++ hex (Z.abs n)))
           | None => VNull
           end
  | _ => VNull
  end.

(** ** Vectors *)

Section vectors.
Context `{JsonReader}.

Definition item_f64 (item : value) : option f64 :=
  match as_f64 item with
  | Some f => Some f
  | None => s ← as_str item; parse_f64 (trim_str s)
  end.

Definition extract_f64_vec (v : value) : option (list f64) :=
  match v with
  | VArray arr => mapM item_f64 arr
  | VString s => match from_text (trim_str s) with Some (VArray arr) => mapM item_f64 arr | _ => None end
  | _ => None
  end.

(** Two vectors of the same length, which is not zero. *)
Definition on_vectors (f : list (f64 * f64) -> f64) (args : list value) : value :=
  match args with
  | [a; b] =>
      match extract_f64_vec a, extract_f64_vec b with
      | Some v1, Some v2 =>
          if bool_decide (v1 = []) || negb (length v1 =? length v2)%nat then VNull else value_of_f64 (f (zip v1 v2))
      | _, _ => VNull
      end
  | _ => VNull
  end.

(** A loop from 0.0, and [Iterator::sum], which begins with -0.0. *)
Definition sum_loop (l : list f64) : f64 := foldl f64_add f64_zero l.
Definition sum_iter (l : list f64) : f64 := foldl f64_add (S754_zero true) l.

Definition similarity (l : list (f64 * f64)) : f64 :=
  let dot := sum_loop (map (fun '(a, b) => f64_mul a b) l) in
  let norm1 := sum_loop (map (fun '(a, _) => f64_mul a a) l) in
  let norm2 := sum_loop (map (fun '(_, b) => f64_mul b b) l) in
  if f64_leb norm1 f64_zero || f64_leb norm2 f64_zero then f64_zero
  else f64_clamp (f64_of_Z (-1)) f64_one (f64_div dot (f64_mul (f64_sqrt norm1) (f64_sqrt norm2))).

Definition func_cosine_similarity : list value -> value := on_vectors similarity.
Definition func_vector_l2 : list value -> value :=
  on_vectors (fun l => f64_sqrt (sum_iter (map (fun '(a, b) => f64_mul (f64_sub a b) (f64_sub a b)) l))).
Definition func_vector_dot : list value -> value := on_vectors (fun l => sum_iter (map (fun '(a, b) => f64_mul a b) l)).

(** In [vector_match] norms have to be positive, so one that is not a number gives 0. *)
Definition match_similarity (l : list (f64 * f64)) : f64 :=
  let dot := sum_loop (map (fun '(a, b) => f64_mul a b) l) in
  let norm1 := sum_loop (map (fun '(a, _) => f64_mul a a) l) in
  let norm2 := sum_loop (map (fun '(_, b) => f64_mul b b) l) in
  if f64_ltb f64_zero norm1 && f64_ltb f64_zero norm2
  then f64_clamp (f64_of_Z (-1)) f64_one (f64_div dot (f64_mul (f64_sqrt norm1) (f64_sqrt norm2)))
  else f64_zero.

Definition scored (query : list f64) (candidate : value) : option (f64 * value) :=
  v ← match candidate with
      | VObject obj => (match object_get "embedding" obj with Some e => Some e | None => object_get "vector" obj end) ≫= extract_f64_vec
      | _ => extract_f64_vec candidate
      end;
  if (length v =? length query)%nat then
    let sim := match_similarity (zip query v) in
    Some (sim, VObject [("item", candidate); ("similarity", value_of_f64 sim)])
  else None.

Definition func_vector_match (args : list value) : value :=
  match args with
  | q :: VArray candidates :: (([] | [_]) as rest) =>
      match extract_f64_vec q with
      | Some query =>
          let top_k := match rest with k :: _ => default 5 (as_u64 k) | [] => 5 end in
          let best := sort_by (fun a b => default Datatypes.Eq (f64_partial_cmp b.1 a.1)) (omap (scored query) candidates) in
          VArray (map snd (take (Z.to_nat (Z.min top_k (Z.of_nat (length best)))) best))
      | None => VNull
      end
  | _ => VNull
  end.
End vectors.

(** ** Texts *)

(** [str::split] and [str::replace]: the matches of a pattern from left to right; the empty
    pattern matches between any two characters and at both ends. *)
Definition matches_at (pat s : input) : bool := bool_decide (is_Some (Parser.strip_prefix pat s)).
Fixpoint split_matches (pat cur s : input) (skip : nat) : list input :=
  match s, skip with
  | [], _ => [rev cur]
  | _ :: r, S skip => split_matches pat cur r skip
  | c :: r, O =>
      if matches_at pat s then rev cur :: split_matches pat [] r (length pat - 1)
      else split_matches pat (c :: cur) r 0
  end.
Definition split_text (pat s : input) : list input :=
  match pat with
  | [] => [] :: map (fun c => [c]) s ++ [[]]
  | _ => split_matches pat [] s 0
  end.

Fixpoint intercalate (sep : input) (l : list input) : input :=
  match l with
  | [] => []
  | [x] => x
  | x :: r => x ++ sep ++ intercalate sep r
  end.
Definition replace_text (pat by_ s : input) : input := intercalate by_ (split_text pat s).

Section strings.
Context `{Engine.Text} `{Unicode} `{Lowercase}.

Definition text_arg (v : value) : input := of_str (to_string_always v).
Definition text_value (s : input) : value := VString (to_str s).

Definition func_concat (args : list value) : value :=
  match args with
  | [] => VNull
  | _ => VString (Columns.join "" (map to_string_always args))
  end.

(** A function of one text. *)
Definition on_text (f : input -> input) (args : list value) : value :=
  match args with
  | [v] => if is_null v then VNull else text_value (f (text_arg v))
  | _ => VNull
  end.

Definition skip_spaces (s : input) : input := (span is_space s).2.

Definition func_lower : list value -> value := on_text DataTemplate.to_lowercase.
Definition func_upper : list value -> value := on_text to_uppercase.
Definition func_trim : list value -> value := on_text trim_cps.
Definition func_ltrim : list value -> value := on_text skip_spaces.
Definition func_rtrim : list value -> value := on_text (fun s => rev (skip_spaces (rev s))).
Definition func_reverse : list value -> value := on_text (@rev Z).

Definition func_length (args : list value) : value :=
  match args with
  | [VNull] => value_of_i64 0
  | [VArray l] => count_of l
  | [VObject m] => count_of m
  | [v] => count_of (text_arg v)
  | _ => VNull
  end.

(** The slice [start..end] of the characters, whose end is computed in [i64]. *)
Definition func_substr (args : list value) : outcome value :=
  match args with
  | s :: start :: (([] | [_]) as rest) =>
      if any_null args then Ok VNull
      else
        let cs := text_arg s in
        let n := Z.of_nat (length cs) in
        match to_i64_arg start with
        | None => Ok VNull
        | Some start =>
            let start := if start <=? 0 then 0 else start - 1 in
            if n <=? start then Ok (VString "")
            else match rest with
                 | [] => Ok (text_value (drop (Z.to_nat start) cs))
                 | len :: _ =>
                     match to_i64_arg len with
                     | None => Ok VNull
                     | Some len =>
                         if len <? 0 then Ok VNull
                         else if len =? 0 then Ok (VString "")
                         else
                           let stop := Z.min (wrap64 (start + len)) n in
                           if stop <? 0 then Panic else Ok (text_value (take (Z.to_nat (stop - start)) (drop (Z.to_nat start) cs)))
                     end
                 end
        end
  | _ => Ok VNull
  end.

(** A test of two texts. *)
Definition on_two_texts (f : string -> string -> bool) (args : list value) : value :=
  match args with
  | [a; b] => VBool (negb (any_null args) && f (to_string_always a) (to_string_always b))
  | _ => VNull
  end.
Definition func_startswith : list value -> value := on_two_texts (fun s prefix => bool_decide (chars prefix `prefix_of` chars s)).
Definition func_endswith : list value -> value := on_two_texts (fun s suffix => bool_decide (chars suffix `suffix_of` chars s)).

Definition pad_char (pad : value) : Z :=
  match text_arg pad with c :: _ => c | [] => 32 end.

(** [place] puts the padding before or after the text.  Without a third argument as many
    spaces as the width are added; with one the text is filled up to the width. *)
Definition padded (place : input -> input -> input) (args : list value) : value :=
  match args with
  | s :: total :: (([] | [_]) as rest) =>
      if any_null args then VNull
      else match to_i64_arg total with
           | None => VNull
           | Some total =>
               let cs := text_arg s in
               if total <? 0 then VNull
               else match rest with
                    | [] => text_value (place (replicate (Z.to_nat total) 32) cs)
                    | pad :: _ => text_value (place (replicate (Z.to_nat (total - Z.of_nat (length cs))) (pad_char pad)) cs)
                    end
           end
  | _ => VNull
  end.
Definition func_lpad : list value -> value := padded (fun pad s => pad ++ s).
Definition func_rpad : list value -> value := padded (fun pad s => s ++ pad).

Definition func_replace (args : list value) : value :=
  match args with
  | [s; pat; by_] => if any_null args then VNull else text_value (replace_text (text_arg pat) (text_arg by_) (text_arg s))
  | _ => VNull
  end.

Definition func_split (args : list value) : value :=
  match args with
  | [s; pat] => if any_null args then VNull else VArray (map text_value (split_text (text_arg pat) (text_arg s)))
  | _ => VNull
  end.

(** [str::find] gives the position of a byte. *)
Definition func_indexof (args : list value) : value :=
  match args with
  | [VString s; VString sub] => match String.index 0 sub s with Some i => value_of_i64 (Z.of_nat i) | None => value_of_i64 (-1) end
  | _ => VNull
  end.

Fixpoint grouped (sep : ascii) (first : bool) (l : list ascii) : list ascii :=
  match l with
  | [] => []
  | c :: r => (if negb first && (length l mod 3 =? 0)%nat then [sep] else []) ++ c :: grouped sep false r
  end.

Definition comma_decimal (locale : string) : bool :=
  existsb (fun p => bool_decide (chars p `prefix_of` chars locale)) ["de"; "fr"; "it"].

(** The integer part in groups of three, and the decimals. *)
Definition localized (locale : string) (decimals : nat) (num : f64) : string :=
  let '(thousand_sep, decimal_sep) := if comma_decimal locale then ("."%char, ","%char) else (","%char, "."%char) in
  let base := chars (float_fixed decimals num) in
  let '(int_part, fraction) := match JsonPath.break_at "." base with Some (a, b) => (a, Some b) | None => (base, None) end in
  let res := match int_part with
             | "-"%char :: raw => "-"%char :: grouped thousand_sep true raw
             | raw => grouped thousand_sep true raw
             end in
  of_chars (match fraction with
            | Some b => if (0 <? decimals)%nat then res ++ decimal_sep :: b else res
            | None => res
            end).

Definition func_format (args : list value) : value :=
  match args with
  | v :: rest =>
      if (2 <? length rest)%nat then VNull
      else match to_f64 v with
           | None => VNull
           | Some num =>
               let decimals := Z.to_nat (match rest with d :: _ => Z.max 0 (default 0 (as_i64 d)) | [] => 0 end) in
               VString (match rest with
                        | [_; locale] => localized (default "en_US" (as_str locale)) decimals num
                        | _ => float_fixed decimals num
                        end)
           end
  | _ => VNull
  end.
End strings.

(** ** Conversions *)

Section transform.
Context `{Engine.Text} `{Base64} `{Libm} `{Crates} `{Environment}.

Definition cast_error (v : value) (target : string) : string :=
  "call func cast error: not supported type conversion, got error cannot convert " +:+ format_ekuiper_val_type v +:+ " to " +:+ target.

Definition cast_to_bigint (v : value) : outcome value :=
  match v with
  | VNull => Ok VNull
  | VNumber n =>
      Ok match number_as_i64 n, number_as_u64 n with
         | Some i, _ => value_of_i64 i
         | None, Some _ => VNull
         | None, None => if is_finite (number_as_f64 n) then value_of_i64 (f64_as_i64 (number_as_f64 n)) else VNull
         end
  | VBool b => Ok (value_of_i64 (if b then 1 else 0))
  | VString s => match parse_i64 (trim_str s) with Some i => Ok (value_of_i64 i) | None => Err (cast_error v "int") end
  | _ => Err (cast_error v "int")
  end.

Definition cast_to_float (v : value) : outcome value :=
  match v with
  | VNull => Ok VNull
  | VNumber n => Ok (value_of_f64 (number_as_f64 n))
  | VBool b => Ok (value_of_f64 (if b then f64_one else f64_zero))
  | VString s => match parse_f64 (trim_str s) with Some f => Ok (value_of_f64 f) | None => Err (cast_error v "float64") end
  | _ => Err (cast_error v "float64")
  end.

Definition cast_to_string (v : value) : value := if is_null v then VNull else VString (to_string_always v).

Definition cast_to_bool (v : value) : value :=
  match v with
  | VBool b => VBool b
  | VNumber n => VBool (negb (f64_eqb (number_as_f64 n) f64_zero))
  | VString s =>
      let t := to_ascii_lowercase (trim_str s) in
      if existsb (String.eqb t) ["1"; "t"; "true"] then VBool true
      else if existsb (String.eqb t) ["0"; "f"; "false"] then VBool false
      else VNull
  | _ => VNull
  end.

Definition func_cast (args : list value) : outcome value :=
  match args with
  | [v; VString target] =>
      if is_null v then Ok VNull
      else
        let t := to_ascii_lowercase (trim_str target) in
        let is_ names := existsb (String.eqb t) names in
        if is_ ["bigint"; "int"] then cast_to_bigint v
        else if is_ ["float"; "double"] then cast_to_float v
        else if is_ ["string"] then Ok (cast_to_string v)
        else if is_ ["boolean"; "bool"] then Ok (cast_to_bool v)
        else if is_ ["datetime"; "timestamp"] then Ok (cast_to_datetime v)
        else if is_ ["bytea"] then
          let s := to_string_always v in Ok (VString (if bool_decide (s = "") then "" else b64_encode (chars s)))
        else Ok VNull
  | _ => Ok VNull
  end.

Definition func_coalesce (args : list value) : value := default VNull (List.find (fun a => negb (is_null a)) args).

Definition func_isnan (args : list value) : value :=
  match args with
  | [v] => VBool (match as_f64 v with Some f => is_nan f | None => false end)
  | _ => VNull
  end.

Definition func_isnumeric (args : list value) : value :=
  match args with
  | [v] => VBool (bool_decide (is_Some (to_f64 v)))
  | _ => VNull
  end.

Definition func_wasm_run (args : list value) : value :=
  match args with
  | VString module_name :: VString func_name :: func_args => default VNull (call_wasm module_name func_name func_args)
  | _ => VNull
  end.

(** Two digits for every byte. *)
Definition hex_bytes (bytes : list ascii) : string :=
  to_str (flat_map (fun b => [from_digit (code b / 16); from_digit (code b mod 16)]) bytes).

Definition hashed (name : string) (args : list value) : value :=
  match args with
  | [v] => if is_null v then VNull else VString (hex_bytes (digest_of name (chars (to_string_always v))))
  | _ => VNull
  end.
Definition func_md5 : list value -> value := hashed "md5".
Definition func_sha1 : list value -> value := hashed "sha1".
Definition func_sha256 : list value -> value := hashed "sha256".
Definition func_sha384 : list value -> value := hashed "sha384".
Definition func_sha512 : list value -> value := hashed "sha512".

Definition func_crc32 (args : list value) : value :=
  match args with
  | [v] =>
      if is_null v then VNull
      else
        let s := to_string_always v in
        VString (if bool_decide (s = "") then "0" else to_str (hex (crc32 (chars s))))
  | _ => VNull
  end.

Definition func_regexp_matches (args : list value) : value :=
  match args with
  | [VString text; VString pattern] => match regex_is_match pattern text with Some b => VBool b | None => VNull end
  | _ => VNull
  end.

Definition func_regexp_replace (args : list value) : value :=
  match args with
  | [VString text; VString pattern; VString repl] =>
      match regex_replace_all pattern text repl with Some s => VString s | None => VNull end
  | _ => VNull
  end.

(** The first group if it took part in the match, the whole match otherwise. *)
Definition func_regexp_substring (args : list value) : value :=
  match args with
  | [VString text; VString pattern] =>
      match regex_captures pattern text with
      | Some (Some groups) =>
          match mjoin (groups !! 1%nat), mjoin (groups !! 0%nat) with
          | Some s, _ => VString s
          | None, Some s => VString s
          | None, None => VNull
          end
      | _ => VNull
      end
  | _ => VNull
  end.

Definition func_split_value (args : list value) : outcome value :=
  match args with
  | [text; sep; index] =>
      if any_null args then Ok VNull
      else match to_i64_arg index with
           | None => Ok VNull
           | Some index =>
               let parts := split_text (of_str (to_string_always sep)) (of_str (to_string_always text)) in
               let len := Z.of_nat (length parts) in
               match nth_of parts (if 0 <=? index then index else len + index) with
               | Some part => Ok (VString (to_str part))
               | None =>
                   Err ("call func split_value error: " +:+ integer_text index +:+ " out of index array (size = " +:+ integer_text len +:+ ")")
               end
           end
  | _ => Ok VNull
  end.

Definition func_numbytes (args : list value) : value :=
  match args with
  | [VString s] => count_of (chars s)
  | _ => VNull
  end.

(** [char::from_u32] *)
Definition is_char (c : Z) : bool := (0 <=? c) && ((c <? 55296) || ((57344 <=? c) && (c <? 1114112))).

Definition func_chr (args : list value) : value :=
  match args with
  | [v] =>
      if is_null v then VNull
      else match to_i64_arg v with
           | Some c => if is_char c then VString (to_str [c]) else VNull
           | None => VNull
           end
  | _ => VNull
  end.

Definition func_trunc (args : list value) : value :=
  match args with
  | v :: (([] | [_]) as rest) =>
      if any_null args then VNull
      else match to_f64 v, (match rest with d :: _ => (fun d => Z.max 0 (Z.min 34 d)) <$> to_i64_arg d | [] => Some 0 end) with
           | Some num, Some decimals =>
               if negb (is_finite num) then VNull
               else
                 let factor := powi10 decimals in
                 let truncated := f64_div (f64_trunc_f64 (f64_mul num factor)) factor in
                 if (decimals =? 0) && f64_leb (f64_of_Z (- 2 ^ 53)) truncated && f64_leb truncated (f64_of_Z (2 ^ 53))
                 then value_of_i64 (f64_as_i64 truncated)
                 else value_of_f64 truncated
           | _, _ => VNull
           end
  | _ => VNull
  end.

Definition method_of (s : string) : string := to_ascii_lowercase (trim_str s).

Definition func_base64_encode (args : list value) : value :=
  match args with
  | [v] => if is_null v then VNull else VString (b64_encode (chars (to_string_always v)))
  | _ => VNull
  end.

Definition func_encode (args : list value) : value :=
  match args with
  | [v; VString method] => if bool_decide (method_of method = "base64") then func_base64_encode [v] else VNull
  | _ => VNull
  end.

(** Bytes that are a text. *)
Definition decoded (bytes : option (list ascii)) : value :=
  match bytes ≫= from_utf8 with Some s => VString (to_str s) | None => VNull end.

Definition func_base64_decode (args : list value) : value :=
  match args with
  | [VString text] => decoded (b64_decode (trim_str text))
  | _ => VNull
  end.

Definition func_decode (args : list value) : value :=
  match args with
  | [VString text; VString method] => if bool_decide (method_of method = "base64") then func_base64_decode [VString text] else VNull
  | _ => VNull
  end.

(** [flate] and [deflate] are the same method. *)
Definition compression (method : string) : option string :=
  let m := method_of method in
  if bool_decide (m = "flate") then Some "deflate"
  else if existsb (String.eqb m) ["zlib"; "gzip"; "deflate"; "zstd"] then Some m else None.

Definition func_compress (args : list value) : value :=
  match args with
  | [v; VString method] =>
      if is_null v then VNull
      else match compression method ≫= fun m => compress_with m (chars (to_string_always v)) with
           | Some bytes => VString (b64_encode bytes)
           | None => VNull
           end
  | _ => VNull
  end.

Definition func_decompress (args : list value) : value :=
  match args with
  | [v; VString method] =>
      if is_null v then VNull
      else
        let bytes := match v with
                     | VString s => default (chars s) (b64_decode (trim_str s))
                     | _ => chars (to_string_always v)
                     end in
        match compression method ≫= fun m => decompress_with m bytes with
        | Some out => VString (match from_utf8 out with Some s => to_str s | None => b64_encode out end)
        | None => VNull
        end
  | _ => VNull
  end.

(** The pause of the first argument, at most ten seconds, is left out. *)
Definition func_delay (args : list value) : value :=
  match args with
  | [_; v] => v
  | _ => VNull
  end.

(** [extract] and [unnest] of one value. *)
Definition func_extract (args : list value) : value :=
  match args with
  | [v] => v
  | _ => VNull
  end.
Definition func_unnest_scalar : list value -> value := func_extract.

Definition func_changed_cols_scalar (args : list value) : value :=
  match args with
  | _ :: _ :: v :: _ => v
  | _ => VNull
  end.

(** ** Analytic functions without history, and the state kept by key *)

Definition func_collect_scalar (args : list value) : value :=
  match args with
  | [v] => VArray (if is_null v then [] else [v])
  | _ => VNull
  end.

(** [lead] and [lag]: the default. *)
Definition func_lag_scalar (args : list value) : value :=
  if bool_decide (args = []) || (4 <? length args)%nat then VNull else default VNull (args !! 2%nat).
Definition func_lead_scalar : list value -> value := func_lag_scalar.

Definition func_latest_scalar (args : list value) : value :=
  match args with
  | v :: (([] | [_]) as rest) => if is_null v then default VNull (head rest) else v
  | _ => VNull
  end.

Definition func_row_number_scalar (args : list value) : value := match args with [] => value_of_i64 1 | _ => VNull end.
Definition func_had_changed_scalar (args : list value) : value := match args with [_] => VBool true | _ => VNull end.
Definition func_changed_col_scalar : list value -> value := func_extract.

Definition parse_bool (s : string) : option bool :=
  if bool_decide (s = "true") then Some true else if bool_decide (s = "false") then Some false else None.

Definition func_get_keyed_state (args : list value) : value :=
  match args with
  | [VString key; VString data_type; default_val] =>
      let t := to_ascii_lowercase data_type in
      match keyed_state key with
      | Some s =>
          if existsb (String.eqb t) ["bigint"; "datetime"] then match parse_i64 s with Some i => value_of_i64 i | None => default_val end
          else if bool_decide (t = "float") then match parse_f64 s with Some f => value_of_f64 f | None => default_val end
          else if bool_decide (t = "boolean") then match parse_bool s with Some b => VBool b | None => default_val end
          else if bool_decide (t = "string") then VString s
          else default_val
      | None => default_val
      end
  | [_; _; default_val] => default_val
  | _ => VNull
  end.
End transform.

(** ** The dispatch by name *)

Section dispatch.
Context `{Engine.Text} `{WallClock} `{Unicode} `{Lowercase} `{Base64} `{JsonReader} `{Random} `{VecLimit} `{Libm} `{Crates} `{Environment}.

Definition Builtin : Type := list string * (list value -> outcome value).

Definition total (f : list value -> value) : list value -> outcome value := fun args => Ok (f args).
Definition or_null (f : list value -> outcome value) : list value -> outcome value :=
  fun args => match f args with Err _ => Ok VNull | r => r end.
Definition always (v : value) : list value -> outcome value := fun _ => Ok v.

Definition date_names : list string :=
  ["now"; "current_timestamp"; "local_timestamp"; "current_date"; "cur_date"; "current_time"; "cur_time"; "local_time";
   "format_date"; "format_time"; "from_unix_time"; "date_parse"; "date_add"; "date_diff"; "date_calc"; "convert_tz"; "year";
   "month"; "day"; "day_of_week"; "day_of_month"; "day_of_year"; "day_name"; "month_name"; "microsecond"; "last_day";
   "to_seconds"; "from_days"; "hour"; "minute"; "second"].

Definition math_builtins : list Builtin :=
  [(["abs"], or_null func_abs); (["ceil"; "ceiling"], total func_ceil); (["floor"], total func_floor); (["round"], total func_round);
   (["sqrt"], or_null func_sqrt); (["power"; "pow"], total func_power); (["sin"], total (func_float1 f64_sin));
   (["cos"], total (func_float1 f64_cos)); (["tan"], total (func_float1 f64_tan)); (["asin"], total (func_float1 f64_asin));
   (["acos"], total (func_float1 f64_acos)); (["atan"], total (func_float1 f64_atan)); (["atan2"], total func_atan2);
   (["exp"], total (func_float1 f64_exp)); (["ln"], or_null func_ln); (["log"], total func_log); (["log2"], total func_log2);
   (["log10"], total func_log10); (["sign"], total func_sign); (["mod"], or_null func_mod); (["cosh"], total (func_float1 f64_cosh));
   (["sinh"], total (func_float1 f64_sinh)); (["tanh"], total (func_float1 f64_tanh)); (["cot"], or_null func_cot);
   (["radians"], total func_radians); (["degrees"], total func_degrees); (["bitand"], total func_bitand); (["bitor"], total func_bitor);
   (["bitxor"], total func_bitxor); (["bitnot"], total func_bitnot); (["pi"], always (value_of_f64 f64_pi));
   (["rand"], always (value_of_f64 random_f64)); (["conv"], total func_conv); (["cosine_similarity"], total func_cosine_similarity);
   (["vector_l2"; "euclidean_distance"], total func_vector_l2); (["vector_dot"; "vector_dot_product"], total func_vector_dot);
   (["vector_match"], total func_vector_match)].

Definition text_builtins : list Builtin :=
  [(["concat"], total func_concat); (["lower"], total func_lower); (["upper"], total func_upper); (["length"], total func_length);
   (["trim"], total func_trim); (["ltrim"], total func_ltrim); (["rtrim"], total func_rtrim); (["lpad"], total func_lpad);
   (["rpad"], total func_rpad); (["replace"], total func_replace); (["split"], total func_split); (["reverse"], total func_reverse);
   (["substr"; "substring"], func_substr); (["startswith"], total func_startswith); (["endswith"], total func_endswith);
   (["indexof"], total func_indexof); (["format"], total func_format); (["regexp_matches"], total func_regexp_matches);
   (["regexp_replace"], total func_regexp_replace); (["regexp_substring"; "regexp_substr"], total func_regexp_substring);
   (["split_value"], or_null func_split_value); (["numbytes"], total func_numbytes); (["chr"], total func_chr)].

Definition array_builtins (call : string -> list value -> outcome value) : list Builtin :=
  [(["array_contains"], total func_array_contains); (["array_join"], total func_array_join); (["keys"], total func_keys);
   (["values"], total func_values); (["object"], total func_object); (["zip"], total func_zip); (["items"], total func_items);
   (["object_construct"], total func_object_construct); (["object_concat"], total func_object_concat);
   (["erase"; "object_erase"], total func_erase); (["object_pick"], total func_object_pick);
   (["obj_to_kvpair_array"; "object_to_kvpair_array"], total func_obj_to_kvpair_array); (["to_json"; "tojson"], total func_to_json);
   (["parse_json"; "parsejson"; "json_parse"], total func_parse_json); (["json_path_query"], total JsonPath.func_json_path_query);
   (["json_path_query_first"], total JsonPath.func_json_path_query_first); (["json_path_exists"], total JsonPath.func_json_path_exists);
   (["json_map"], total func_json_map); (["array_create"], total func_array_create); (["array_position"], total func_array_position);
   (["array_positions"], total func_array_positions); (["array_last_position"], total func_array_last_position);
   (["array_shuffle"], total func_array_shuffle); (["array_map"], func_array_map call); (["array_length"], total func_array_length);
   (["array_slice"], total func_array_slice); (["array_concat"], total func_array_concat); (["deduplicate"], total func_deduplicate);
   (["cardinality"; "array_cardinality"], total func_cardinality); (["element_at"], total func_element_at);
   (["array_contains_any"], total func_array_contains_any); (["array_remove"], total func_array_remove);
   (["array_distinct"], total func_array_distinct); (["array_intersect"], total func_array_intersect);
   (["array_union"], total func_array_union); (["array_except"], total func_array_except); (["array_max"], total func_array_max);
   (["array_min"], total func_array_min); (["array_avg"], total func_array_avg); (["array_flatten"], total func_array_flatten);
   (["array_sort"], total func_array_sort); (["repeat"], func_repeat); (["sequence"], func_sequence);
   (["kvpair_array_to_obj"], total func_kvpair_array_to_obj)].

Definition other_builtins : list Builtin :=
  [(["wasm"; "wasm_run"], total func_wasm_run); (["cast"], or_null func_cast); (["coalesce"; "nvl"], total func_coalesce);
   (["delay"], total func_delay); (["compress"], total func_compress); (["decompress"], total func_decompress);
   (["extract"], total func_extract); (["unnest"], total func_unnest_scalar); (["changed_cols"], total func_changed_cols_scalar);
   (["isnan"], total func_isnan); (["isnumeric"], total func_isnumeric); (["md5"], total func_md5); (["sha256"], total func_sha256);
   (["sha512"], total func_sha512); (["sha1"], total func_sha1); (["sha384"], total func_sha384); (["crc32"], total func_crc32);
   (["trunc"], total func_trunc); (["hex2dec"], total func_hex2dec); (["dec2hex"], total func_dec2hex); (["encode"], total func_encode);
   (["base64_encode"], total func_base64_encode); (["decode"], total func_decode); (["base64_decode"], total func_base64_decode);
   (["collect"], total func_collect_scalar); (["lead"], total func_lead_scalar); (["lag"], total func_lag_scalar);
   (["latest"], total func_latest_scalar); (["had_changed"], total func_had_changed_scalar);
   (["changed_col"], total func_changed_col_scalar); (["row_number"], total func_row_number_scalar);
   (["sequence_match"], always (VBool false)); (["sequence_count"], always (value_of_i64 0));
   (["isnull"], total (fun args => VBool (match args with v :: _ => is_null v | [] => true end)));
   (["tstamp"; "rule_start"; "event_time"], always (value_of_i64 wall_clock)); (["uuid"; "newuuid"], always (VString new_uuid));
   (["window_start"; "window_end"; "meta"; "mqtt"], always VNull); (["rule_id"], always (VString ""));
   (["last_hit_count"; "last_hit_time"; "last_agg_hit_count"; "last_agg_hit_time"], always (value_of_i64 0));
   (["get_keyed_state"], total func_get_keyed_state)].

Definition builtins (call : string -> list value -> outcome value) : list Builtin :=
  math_builtins ++ text_builtins ++ array_builtins call ++ other_builtins.

(** [eval_call] with [call] in the place of its recursion; user functions keep the name as
    it was written. *)
Definition eval_call_with (call : string -> list value -> outcome value) (name : string) (args : list value) : outcome value :=
  let lower := to_ascii_lowercase name in
  if existsb (String.eqb lower) date_names then Ok (date_call lower args)
  else match List.find (fun b => existsb (String.eqb lower) b.1) (builtins call) with
       | Some (_, f) => f args
       | None => Ok (default VNull (call_udf name args))
       end.

(** Only [array_map] calls back, with one argument, and with one argument it does not. *)
Definition eval_call : string -> list value -> outcome value := eval_call_with (eval_call_with (fun _ _ => Ok VNull)).

Definition fallible_builtins : list Builtin :=
  [(["abs"], func_abs); (["ln"], func_ln); (["sqrt"], func_sqrt); (["cot"], func_cot); (["mod"], func_mod); (["cast"], func_cast);
   (["split_value"], func_split_value)].

Definition eval_call_fallible (name : string) (args : list value) : outcome value :=
  match List.find (fun b => existsb (String.eqb (to_ascii_lowercase name)) b.1) fallible_builtins with
  | Some (_, f) => f args
  | None => eval_call name args
  end.

(** What the evaluator asks of the library.  Where it has no place for a panic, a panic
    is a null. *)
Definition scalar_functions (debug : Expr -> string) : Functions := {|
  Eval.eval_call_fallible := eval_call_fallible;
  Eval.eval_call name args := match eval_call name args with Ok v => v | _ => VNull end;
  expr_debug := debug;
|}.
End dispatch.

(** ** Numbers in a base are read back *)

Lemma to_i64_arg_int n : in_i64 n -> to_i64_arg (value_of_i64 n) = Some n.
Proof.
  intros Hn. unfold value_of_i64, to_i64_arg, number_as_i64. destruct (Z.ltb_spec n 0); [done|].
  unfold in_i64 in Hn. by destruct (Z.leb_spec n i64_max); [|lia].
Qed.

Lemma to_from_digit base d : 2 <= base <= 36 -> 0 <= d < base -> to_digit base (from_digit d) = Some d.
Proof.
  intros Hb Hd. unfold to_digit, from_digit, is_digit.
  destruct (Z.ltb_spec d 10).
  - replace ((48 <=? d + 48) && (d + 48 <=? 57)) with true by lia. replace (d + 48 - 48) with d by lia. by destruct (Z.ltb_spec d base); [|lia].
  - replace ((48 <=? d + 87) && (d + 87 <=? 57)) with false by lia. replace ((97 <=? d + 87) && (d + 87 <=? 122)) with true by lia.
    replace (d + 87 - 87) with d by lia. by destruct (Z.ltb_spec d base); [|lia].
Qed.

Lemma from_digit_range d : 0 <= d < 36 -> 48 <= from_digit d <= 57 \/ 97 <= from_digit d <= 122.
Proof. unfold from_digit. destruct (Z.ltb_spec d 10); lia. Qed.

Lemma radix_value_app base acc l c :
  radix_value base acc (l ++ [c]) = radix_value base acc l ≫= fun acc => radix_value base acc [c].
Proof.
  revert acc. induction l as [|x l IH]; intros acc; [done|]. cbn [radix_value app].
  destruct (to_digit base x) as [d|]; [|done]. cbn. destruct (acc * base + d <=? i64_max); [apply IH|done].
Qed.

Lemma radix_value_digits base fuel n : 2 <= base <= 36 -> 0 <= n <= i64_max -> n < base ^ Z.of_nat fuel ->
  radix_value base 0 (radix_digits fuel base n) = Some n.
Proof.
  intros Hb. revert n. induction fuel as [|fuel IH]; intros n Hn Hlt; [rewrite Z.pow_0_r in Hlt; cbn; f_equal; lia|].
  cbn [radix_digits]. destruct (Z.ltb_spec 0 n); [|cbn; f_equal; lia].
  rewrite Nat2Z.inj_succ, Z.pow_succ_r in Hlt by lia. pose proof (Z.div_mod n base ltac:(lia)) as Hdm.
  pose proof (Z.mod_pos_bound n base ltac:(lia)). assert (n / base <= n) by (apply Z.div_le_upper_bound; nia).
  assert (0 <= n / base) by (apply Z.div_pos; lia).
  rewrite radix_value_app, IH; [|lia|apply Z.div_lt_upper_bound; lia].
  cbn. rewrite to_from_digit by lia. cbn. replace (n / base * base + n mod base) with n by lia.
  by destruct (Z.leb_spec n i64_max); [|lia].
Qed.

Lemma radix_digits_forall base fuel n : 2 <= base <= 36 -> Forall (fun c => 48 <= c <= 57 \/ 97 <= c <= 122) (radix_digits fuel base n).
Proof.
  intros Hb. revert n. induction fuel as [|fuel IH]; intros n; [constructor|]. cbn [radix_digits]. case_match; [|constructor].
  apply Forall_app. split; [apply IH|]. constructor; [|constructor]. apply from_digit_range.
  pose proof (Z.mod_pos_bound n base ltac:(lia)). lia.
Qed.

Lemma radix_digits_S base fuel n : 0 < n -> radix_digits (S fuel) base n = radix_digits fuel base (n / base) ++ [from_digit (n mod base)].
Proof. intros Hn. cbn [radix_digits]. by destruct (Z.ltb_spec 0 n); [|lia]. Qed.

Lemma radix_digits_nonempty base fuel n : 0 < n -> radix_digits (S fuel) base n <> [].
Proof. intros Hn. cbn [radix_digits]. destruct (Z.ltb_spec 0 n); [|lia]. by destruct (radix_digits _ _ _). Qed.

Lemma format_radix_forall value base : 2 <= base <= 36 ->
  Forall (fun c => is_space c = false /\ scalar c) (format_radix value base).
Proof.
  intros Hb. assert (Hc : forall l, Forall (fun c => 48 <= c <= 57 \/ 97 <= c <= 122) l -> Forall (fun c => is_space c = false /\ scalar c) l).
  { intros l Hl. eapply list.Forall_impl; [exact Hl|]. intros c Hr. simpl in Hr. unfold is_space, scalar. split; [|lia].
    repeat match goal with |- context [?a =? ?b] => destruct (Z.eqb_spec a b); [lia|] | |- context [?a <=? ?b] => destruct (Z.leb_spec a b) end; done || lia. }
  unfold format_radix. case_match; [repeat constructor; by vm_compute|]. apply Forall_app. split; [|by apply Hc, radix_digits_forall].
  case_match; [|constructor]. repeat constructor; by vm_compute.
Qed.

(** The text of any integer but the least one is read back; the least one is not, since
    [parse_radix] reads the digits before it negates. *)
Lemma parse_format_radix value base : 2 <= base <= 36 -> in_i64 value ->
  parse_radix (format_radix value base) base = if value =? i64_min then None else Some value.
Proof.
  intros Hb Hv. unfold parse_radix. rewrite trim_none by (eapply list.Forall_impl; [by apply format_radix_forall|]; by intros ? []).
  unfold format_radix. destruct (Z.eqb_spec value 0) as [->|Hz].
  { pose proof (to_from_digit base 0 Hb ltac:(lia)) as Hd. change (from_digit 0) with 48 in Hd. cbn -[to_digit]. by rewrite Hd. }
  pose proof (radix_digits_nonempty base 63 (Z.abs value) ltac:(lia)) as Hne.
  pose proof (radix_digits_forall base 64 (Z.abs value) Hb) as Hall.
  assert (Hread : radix_value base 0 (radix_digits 64 base (Z.abs value)) = if value =? i64_min then None else Some (Z.abs value)).
  { unfold in_i64 in Hv. assert (2 ^ 64 <= base ^ Z.of_nat 64) by (apply Z.pow_le_mono_l; lia).
    destruct (Z.eqb_spec value i64_min) as [->|Hm].
    - rewrite (radix_digits_S base 63) by done.
      pose proof (Z.div_mod (Z.abs i64_min) base ltac:(lia)) as Hdm. pose proof (Z.mod_pos_bound (Z.abs i64_min) base ltac:(lia)).
      assert (Hq : 0 <= Z.abs i64_min / base) by (apply Z.div_pos; lia).
      assert (Hsmall : Z.abs i64_min / base <= i64_max) by (apply Z.div_le_upper_bound; unfold i64_min, i64_max; lia).
      rewrite radix_value_app, radix_value_digits; [|lia|lia|].
      2: { apply Z.div_lt_upper_bound; [lia|]. rewrite <- Z.pow_succ_r, <- Nat2Z.inj_succ by lia. unfold i64_min. lia. }
      cbn. rewrite to_from_digit by lia. cbn. replace (_ * base + _) with (Z.abs i64_min) by lia. done.
    - apply radix_value_digits; [lia|unfold i64_min, i64_max in *; lia|unfold i64_min, i64_max in *; lia]. }
  destruct (Z.ltb_spec value 0).
  - cbn [app split_sign]. rewrite Z.eqb_refl. destruct (radix_digits 64 base (Z.abs value)); [done|]. rewrite Hread.
    case_match; [done|]. cbn. f_equal. lia.
  - cbn [app]. destruct (radix_digits 64 base (Z.abs value)) as [|c l]; [done|]. apply list.Forall_cons in Hall as [Hc _].
    cbn [split_sign]. destruct (Z.eqb_spec c 45); [lia|]. destruct (Z.eqb_spec c 43); [lia|]. rewrite Hread.
    case_match; [done|]. cbn. f_equal. lia.
Qed.

Lemma of_str_format value base : 2 <= base <= 36 -> of_str (to_str (format_radix value base)) = format_radix value base.
Proof. intros Hb. apply of_str_to_str. eapply list.Forall_impl; [by apply format_radix_forall|]. by intros ? []. Qed.

(** [conv] from one base to another takes the text of an integer to its text, for every
    integer but the least. *)
Theorem conv_converts value base base' : 2 <= base <= 36 -> 2 <= base' <= 36 -> in_i64 value -> value <> i64_min ->
  func_conv [VString (to_str (format_radix value base)); value_of_i64 base; value_of_i64 base'] = VString (to_str (format_radix value base')).
Proof.
  intros Hb Hb' Hv Hm.
  assert (Harg : forall b, 2 <= b <= 36 -> to_i64_arg (value_of_i64 b) = Some b /\ in_bases b = true /\ is_null (value_of_i64 b) = false).
  { intros b Hr. unfold in_bases. replace ((2 <=? b) && (b <=? 36)) with true by lia.
    split_and!; [apply to_i64_arg_int; unfold in_i64, i64_min, i64_max; lia|done..]. }
  destruct (Harg _ Hb) as (H1 & H2 & H3). destruct (Harg _ Hb') as (H1' & H2' & H3').
  unfold func_conv, any_null. cbn [existsb is_null]. rewrite H3, H3', H1, H1', H2, H2'. cbn -[trim_cps of_str to_str parse_radix format_radix].
  rewrite trim_none by (rewrite of_str_format by done; eapply list.Forall_impl; [by apply format_radix_forall|]; by intros ? []).
  rewrite of_str_format, parse_format_radix by done. by destruct (Z.eqb_spec value i64_min).
Qed.

Lemma radix_value_exact base acc l v : radix_value base acc l = Some v -> radix_exact base acc l = Some v.
Proof.
  revert acc. induction l as [|c l IH]; intros acc; [done|]. cbn [radix_value radix_exact].
  destruct (to_digit base c) as [d|]; [|done]. cbn. case_match; [apply IH|done].
Qed.

(** [hex2dec] reads back what [dec2hex] writes for the numbers that are not negative; the
    text of a negative one has its sign before the prefix, where it does not look. *)
Theorem hex_round_trip `{Engine.Text} n : in_i64 n ->
  func_hex2dec [func_dec2hex [value_of_i64 n]] = if 0 <=? n then value_of_i64 n else VNull.
Proof.
  intros Hn. unfold func_dec2hex.
  rewrite to_i64_arg_int by done. change (is_null (value_of_i64 n)) with false. cbn iota. unfold func_hex2dec.
  assert (Hf : Forall (fun c => is_space c = false /\ scalar c) (hex (Z.abs n))).
  { pose proof (format_radix_forall (Z.abs n) 16 ltac:(lia)) as Hf. unfold hex. revert Hf. unfold format_radix.
    destruct (Z.abs n =? 0); intros Hf; [exact Hf|]. apply Forall_app in Hf as [_ Hf]. rewrite (Z.abs_eq (Z.abs n)) in Hf by lia. exact Hf. }
  set (t := (if n <? 0 then [45] else []) ++ [48; 120] ++ hex (Z.abs n)).
  assert (Ht : Forall (fun c => is_space c = false /\ scalar c) t).
  { unfold t. apply Forall_app. split; [case_match; repeat constructor; by vm_compute|]. apply Forall_app. split; [|done]. repeat constructor; by vm_compute. }
  rewrite of_str_to_str by (eapply list.Forall_impl; [exact Ht|]; by intros ? []).
  rewrite trim_none by (eapply list.Forall_impl; [exact Ht|]; by intros ? []). subst t.
  destruct (Z.ltb_spec n 0); [by destruct (Z.leb_spec 0 n); [lia|]|]. destruct (Z.leb_spec 0 n); [|lia].
  rewrite Z.abs_eq by done. cbn [app]. change (strip_hex (48 :: 120 :: hex n)) with (hex n).
  destruct (Z.eq_dec n 0) as [->|Hz]; [by vm_compute|]. unfold hex. destruct (Z.eqb_spec n 0); [done|].
  pose proof (radix_digits_forall 16 64 n ltac:(lia)) as Hall. pose proof (radix_digits_nonempty 16 63 n ltac:(lia)).
  pose proof (radix_value_digits 16 64 n ltac:(lia) ltac:(unfold in_i64 in Hn; lia)) as Hr.
  unfold from_str_radix. destruct (radix_digits 64 16 n) as [|c l]; [done|]. apply list.Forall_cons in Hall as [Hc _].
  cbn [split_sign]. destruct (Z.eqb_spec c 45); [lia|]. destruct (Z.eqb_spec c 43); [lia|].
  rewrite (radix_value_exact _ _ _ n) by (apply Hr; unfold in_i64, i64_max in Hn; change (Z.of_nat 64) with 64; lia).
  cbn. by rewrite decide_True.
Qed.

(** ** Texts split and joined *)

Lemma split_matches_skip pat cur a t : split_matches pat cur (a ++ t) (length a) = split_matches pat cur t 0.
Proof. induction a as [|x a IH]; [done|]. exact IH. Qed.

Lemma split_matches_nonempty pat cur s k : split_matches pat cur s k <> [].
Proof. revert cur k. induction s as [|c s IH]; intros cur [|k]; cbn [split_matches]; [done..| |apply IH]. by case_match; [|apply IH]. Qed.

Lemma strip_prefix_Some pat s r : Parser.strip_prefix pat s = Some r -> s = pat ++ r.
Proof.
  revert s. induction pat as [|x pat IH]; intros s; cbn; [by intros [= ->]|]. destruct s as [|y s]; [done|].
  destruct (Z.eqb_spec x y) as [->|]; [|done]. intros Hs. by rewrite (IH _ Hs).
Qed.

Lemma intercalate_cons sep x l : l <> [] -> intercalate sep (x :: l) = x ++ sep ++ intercalate sep l.
Proof. by destruct l. Qed.

Lemma intercalate_split_matches pat cur s : pat <> [] -> intercalate pat (split_matches pat cur s 0) = rev cur ++ s.
Proof.
  intros Hp. revert cur. induction s as [s IH] using (induction_ltof1 _ (@length Z)). intros cur.
  destruct s as [|c s]; cbn [split_matches]; [by rewrite app_nil_r|].
  destruct (matches_at pat (c :: s)) eqn:Hm.
  - unfold matches_at in Hm. apply bool_decide_eq_true in Hm as [t Ht]. apply strip_prefix_Some in Ht.
    rewrite intercalate_cons by apply split_matches_nonempty. f_equal. rewrite Ht. f_equal.
    destruct pat as [|x pat]; [done|]. injection Ht as <- ->. cbn [length]. replace (S (length pat) - 1)%nat with (length pat) by lia.
    rewrite split_matches_skip, IH; [done|]. unfold ltof. cbn [length]. rewrite length_app. lia.
  - rewrite IH by (unfold ltof; cbn; lia). cbn [rev]. by rewrite <- app_assoc.
Qed.

(** Splitting a text and joining its parts with the separator gives the text back, the empty
    separator included; so does replacing a text by itself. *)
Theorem split_join_text pat s : intercalate pat (split_text pat s) = s /\ replace_text pat pat s = s.
Proof.
  assert (Hs : intercalate pat (split_text pat s) = s); [|by split].
  destruct pat as [|c pat]; [|by apply (intercalate_split_matches _ [])]. cbn [split_text].
  assert (Hi : forall l, l <> [] -> intercalate [] l = concat l).
  { induction l as [|x [|y l] IH]; intros Hl; [done|cbn; by rewrite app_nil_r|]. change (x ++ intercalate [] (y :: l) = x ++ concat (y :: l)). by rewrite IH. }
  rewrite Hi by done. cbn [concat app]. rewrite List.concat_app. cbn. rewrite app_nil_r. induction s as [|c s IH]; [done|]. cbn. by rewrite IH.
Qed.

(** [substr] panics exactly when the end of a slice that begins inside the text overflows. *)
Theorem substr_panics_iff `{Engine.Text} `{Unicode} `{Lowercase} s start len : in_i64 start -> in_i64 len ->
  let first := Z.max 0 (start - 1) in
  func_substr [VString s; value_of_i64 start; value_of_i64 len] = Panic <->
  0 < len /\ first < Z.of_nat (length (of_str s)) /\ i64_max < first + len.
Proof.
  intros Hs Hl first. unfold func_substr.
  cbn [any_null existsb]. unfold any_null. rewrite !to_i64_arg_int by done. cbn [existsb is_null value_of_i64 orb text_arg to_string_always].
  replace (if start <=? 0 then 0 else start - 1) with first by (unfold first; destruct (Z.leb_spec start 0); lia).
  set (n := Z.of_nat (length (text_arg (VString s)))). change (Z.of_nat (length (of_str s))) with n.
  unfold in_i64 in *. assert (0 <= n) by (unfold n; lia). unfold wrap64, i64_min, i64_max in *.
  destruct (Z.leb_spec n first); [split; [done|lia]|]. destruct (Z.ltb_spec len 0); [split; [done|lia]|].
  destruct (Z.eqb_spec len 0); [split; [done|lia]|].
  assert (Hw : (first + len + 2 ^ 63) mod 2 ^ 64 - 2 ^ 63 = if first + len <=? 2 ^ 63 - 1 then first + len else first + len - 2 ^ 64).
  { destruct (Z.leb_spec (first + len) (2 ^ 63 - 1)); [rewrite Z.mod_small; lia|].
    rewrite <- (Z_mod_plus_full _ (-1)), Z.mod_small; lia. }
  rewrite Hw. destruct (Z.leb_spec (first + len) (2 ^ 63 - 1)).
  - destruct (Z.ltb_spec (Z.min (first + len) n) 0); [lia|]. split; [done|lia].
  - destruct (Z.ltb_spec (Z.min (first + len - 2 ^ 64) n) 0); [|lia]. split; [|done]. intros _. lia.
Qed.

(** ** The dispatch *)

Section dispatch_facts.
Context `{Engine.Text} `{WallClock} `{Unicode} `{Lowercase} `{Base64} `{JsonReader} `{Random} `{VecLimit} `{Libm} `{Crates} `{Environment}.

Lemma find_app {A} (p : A -> bool) l l' : List.find p (l ++ l') = match List.find p l with Some x => Some x | None => List.find p l' end.
Proof. induction l as [|x l IH]; [done|]. cbn. by destruct (p x). Qed.

Definition no_error (f : list value -> outcome value) : Prop := forall args msg, f args <> Err msg.

Lemma total_no_error f : no_error (total f).
Proof. by intros args msg. Qed.
Lemma always_no_error v : no_error (always v).
Proof. by intros args msg. Qed.
Lemma or_null_no_error f : no_error (or_null f).
Proof. intros args msg. unfold or_null. by destruct (f args). Qed.
Lemma substr_no_error : no_error func_substr.
Proof. intros args msg. unfold func_substr. by repeat case_match. Qed.

Lemma repeat_no_error : no_error func_repeat.
Proof. intros args msg. unfold func_repeat. by repeat case_match. Qed.
Lemma sequence_no_error : no_error func_sequence.
Proof.
  assert (Hs : forall start stop step msg, sequence start stop step <> Err msg).
  { intros start stop step msg. unfold sequence. pose proof (sequence_loop_no_error stop step 60 start 0) as Hn.
    destruct (sequence_loop 60 stop step start 0) as [out [next|e|]]; cbn; try done. by destruct (Hn e). }
  intros args msg. unfold func_sequence. repeat case_match; try done; destruct (sequence _ _ _) eqn:E; cbn; try done; by apply Hs in E.
Qed.

Lemma array_map_no_error call : (forall name, no_error (call name)) -> no_error (func_array_map call).
Proof.
  intros Hc args msg. unfold func_array_map. repeat case_match; try done.
  assert (Hm : forall f l m, no_error f -> map_outcome (fun item : value => f [item]) l <> Err m).
  { intros f l' m Hf. induction l' as [|x r IH]; [done|]. cbn. specialize (Hf [x]).
    destruct (f [x]) as [y|e|]; cbn; [|by destruct (Hf e)|done]. destruct (map_outcome _ r); cbn; done || congruence. }
  destruct (map_outcome _ _) eqn:E; cbn; [done| |done]. by apply Hm in E.
Qed.

#[local] Hint Resolve total_no_error always_no_error or_null_no_error substr_no_error repeat_no_error sequence_no_error array_map_no_error : core.

Lemma builtins_no_error call : (forall name, no_error (call name)) -> Forall (fun b => no_error b.2) (builtins call).
Proof.
  intros Hc. unfold builtins, math_builtins, text_builtins, array_builtins, other_builtins.
  repeat (apply Forall_app; split); repeat (apply list.Forall_cons; split; [cbn [snd]; auto|]); constructor.
Qed.

Lemma call_with_no_error call name : (forall name, no_error (call name)) -> no_error (eval_call_with call name).
Proof.
  intros Hc args msg. unfold eval_call_with. case_match; [done|]. destruct (List.find _ _) as [[names f]|] eqn:Hf; [|done].
  apply List.find_some in Hf as [Hin _]. pose proof (builtins_no_error call Hc) as Hall. rewrite list.Forall_forall in Hall.
  apply (Hall (names, f)). by apply list_elem_of_In.
Qed.

Lemma eval_call_no_error name : no_error (eval_call name).
Proof. apply call_with_no_error. intros name'. by apply call_with_no_error. Qed.

(** [array_map] is the only entry that depends on the recursion. *)
Lemma call_with_same call call' name args :
  (to_ascii_lowercase name = "array_map" -> func_array_map call args = func_array_map call' args) ->
  eval_call_with call name args = eval_call_with call' name args.
Proof.
  intros Hm. unfold eval_call_with. cbv zeta. case_match; [done|]. destruct (decide (to_ascii_lowercase name = "array_map")) as [Hn|Hn].
  - rewrite Hn. exact (Hm Hn).
  - assert (Hp : existsb (String.eqb (to_ascii_lowercase name)) ["array_map"] = false).
    { cbn. rewrite orb_false_r. by apply String.eqb_neq. }
    revert Hp. generalize (existsb (String.eqb (to_ascii_lowercase name))) as p. intros p Hp.
    assert (Ha : List.find (fun b : list string * (list value -> outcome value) => p b.1) (array_builtins call') = List.find (fun b : list string * (list value -> outcome value) => p b.1) (array_builtins call)).
    { unfold array_builtins. cbn [List.find fst]. by rewrite Hp. }
    unfold builtins. by rewrite !find_app, Ha.
Qed.

Lemma map_outcome_ext {A B} (f g : A -> outcome B) l : (forall x, f x = g x) -> map_outcome f l = map_outcome g l.
Proof. intros Hf. induction l as [|x l IH]; [done|]. cbn [map_outcome]. by rewrite IH, Hf. Qed.

Lemma array_map_same call call' args : (forall name x, call name [x] = call' name [x]) -> func_array_map call args = func_array_map call' args.
Proof.
  intros Hc. destruct args as [|[] [|[] []]]; try done. cbn [func_array_map].
  by rewrite (map_outcome_ext _ _ _ (Hc s)).
Qed.

(** The recursion of [eval_call] is cut where it ends: it satisfies its own equation. *)
Theorem eval_call_unfolds name args : eval_call name args = eval_call_with eval_call name args.
Proof.
  apply call_with_same. intros _. apply array_map_same. intros name' x. apply call_with_same. by intros _.
Qed.

(** The call that cannot fail gives what the call that can gives, and a null for its errors. *)
Lemma eval_call_agrees name args : eval_call name args = or_null (eval_call_fallible name) args.
Proof.
  unfold or_null, eval_call_fallible.
  match goal with |- context [List.find ?p fallible_builtins] => destruct (List.find p fallible_builtins) as [[names f]|] eqn:Hf end.
  - apply List.find_some in Hf as [Hin Hn]. cbn [fst] in Hn.
    cbn [fallible_builtins In] in Hin.
    repeat (destruct Hin as [Heq|Hin];
      [injection Heq as <- <-; cbn [existsb] in Hn; rewrite orb_false_r in Hn; apply String.eqb_eq in Hn;
       unfold eval_call; unfold eval_call_with at 1; cbv zeta; rewrite Hn; reflexivity|]).
    by destruct Hin.
  - pose proof (eval_call_no_error name args) as Hok. destruct (eval_call name args) as [v|e|]; [done| |done]. by destruct (Hok e).
Qed.

(** ** The calls that are refused *)

(** A number, or a text of one. *)
Definition numeric (v : value) : Prop := is_Some (to_f64 v).

(** The arguments that [abs], [sqrt], [ln], [cot], [mod], [cast] and [split_value] refuse. *)
Inductive refused : string -> list value -> Prop :=
  | refused_abs v : v <> VNull -> (forall n, v <> VNumber n) -> refused "abs" [v]
  | refused_text name v : name ∈ ["sqrt"; "ln"; "cot"] -> v <> VNull -> ~ numeric v -> refused name [v]
  | refused_sqrt v x : v <> VNull -> to_f64 v = Some x -> f64_ltb x f64_zero = true -> refused "sqrt" [v]
  | refused_ln v x : v <> VNull -> to_f64 v = Some x -> f64_leb x f64_zero = true -> refused "ln" [v]
  | refused_cot v x : v <> VNull -> to_f64 v = Some x -> f64_eqb (f64_tan x) f64_zero = true -> refused "cot" [v]
  | refused_mod_text a b : a <> VNull -> b <> VNull -> ~ numeric a \/ ~ numeric b -> refused "mod" [a; b]
  | refused_mod_zero a b y : a <> VNull -> b <> VNull -> numeric a -> to_f64 b = Some y -> f64_eqb y f64_zero = true ->
      refused "mod" [a; b]
  | refused_cast_int v target : to_ascii_lowercase (trim_str target) ∈ ["bigint"; "int"] ->
      match v with VString s => parse_i64 (trim_str s) = None | VArray _ | VObject _ => True | _ => False end ->
      refused "cast" [v; VString target]
  | refused_cast_float v target : to_ascii_lowercase (trim_str target) ∈ ["float"; "double"] ->
      match v with VString s => parse_f64 (trim_str s) = None | VArray _ | VObject _ => True | _ => False end ->
      refused "cast" [v; VString target]
  | refused_split text sep index i : text <> VNull -> sep <> VNull -> index <> VNull -> to_i64_arg index = Some i ->
      let n := Z.of_nat (length (split_text (of_str (to_string_always sep)) (of_str (to_string_always text)))) in
      ~ (- n <= i < n) -> refused "split_value" [text; sep; index].

Definition errs (r : outcome value) : Prop := exists msg, r = Err msg.

Lemma not_errs r : (forall msg, r <> Err msg) -> ~ errs r.
Proof. intros Hr [msg Hm]. by apply (Hr msg). Qed.

Lemma is_null_iff v : is_null v = true <-> v = VNull.
Proof. by destruct v. Qed.

Lemma errs_ok v : ~ errs (Ok v).
Proof. by intros [msg [=]]. Qed.
Lemma errs_err msg : errs (Err msg).
Proof. by exists msg. Qed.
#[local] Hint Resolve errs_ok errs_err : core.

Lemma numeric_none v : to_f64 v = None -> ~ numeric v.
Proof. intros Hv [x Hx]. congruence. Qed.
Lemma numeric_some v x : to_f64 v = Some x -> numeric v.
Proof. by eexists. Qed.
#[local] Hint Resolve numeric_none numeric_some : core.

Lemma abs_errs args : errs (func_abs args) <-> refused "abs" args.
Proof.
  split.
  - intros Herr. destruct args as [|v [|]]; simpl in Herr; try by apply errs_ok in Herr.
    + destruct v; try (by apply errs_ok in Herr); by constructor.
    + by destruct v; apply errs_ok in Herr.
  - inversion 1 as [v Hv Hn|? ? Hin| | | | | | | |]; subst; [|set_solver]. simpl. destruct v; [done|..]; auto. by destruct (Hn n).
Qed.

(** The functions of one number. *)
Lemma number_errs name args f : errs (fallible_number name args f) <->
  exists v, args = [v] /\ v <> VNull /\ match to_f64 v with Some x => errs (f v x) | None => True end.
Proof.
  unfold fallible_number. destruct args as [|v [|? ?]]; [split; [by intros ?%errs_ok|naive_solver]| |split; [by intros ?%errs_ok|naive_solver]].
  destruct (is_null v) eqn:Hn.
  - apply is_null_iff in Hn as ->. split; [by intros ?%errs_ok|]. by intros (? & [= <-] & ? & _).
  - assert (v <> VNull) by (intros ->; done). destruct (to_f64 v) as [x|] eqn:Hx.
    + split; [intros He; exists v; by rewrite Hx|]. by intros (? & [= <-] & _ & He); rewrite Hx in He.
    + split; [intros _; exists v; by rewrite Hx|auto].
Qed.

Lemma sqrt_errs args : errs (func_sqrt args) <-> refused "sqrt" args.
Proof.
  unfold func_sqrt. rewrite number_errs. split.
  - intros (v & -> & Hv & He). destruct (to_f64 v) as [x|] eqn:Hx; [|constructor; [set_solver|done|by apply numeric_none]].
    destruct (f64_ltb x f64_zero) eqn:Hlt; [by eapply refused_sqrt|]. destruct (is_nan _); by apply errs_ok in He.
  - intros Hr. inversion Hr; subst; eexists; (split; [done|]); (split; [done|]).
    + case_match; [|done]. exfalso; eauto.
    + match goal with Hx : to_f64 _ = _ |- _ => rewrite Hx end. match goal with Hl : f64_ltb _ _ = _ |- _ => rewrite Hl end. auto.
Qed.

Lemma ln_errs args : errs (func_ln args) <-> refused "ln" args.
Proof.
  unfold func_ln. rewrite number_errs. split.
  - intros (v & -> & Hv & He). destruct (to_f64 v) as [x|] eqn:Hx; [|constructor; [set_solver|done|by apply numeric_none]].
    destruct (f64_leb x f64_zero) eqn:Hle; [by eapply refused_ln|]. by apply errs_ok in He.
  - intros Hr. inversion Hr; subst; eexists; (split; [done|]); (split; [done|]).
    + case_match; [|done]. exfalso; eauto.
    + match goal with Hx : to_f64 _ = _ |- _ => rewrite Hx end. match goal with Hl : f64_leb _ _ = _ |- _ => rewrite Hl end. auto.
Qed.

Lemma cot_errs args : errs (func_cot args) <-> refused "cot" args.
Proof.
  unfold func_cot. rewrite number_errs. split.
  - intros (v & -> & Hv & He). destruct (to_f64 v) as [x|] eqn:Hx; [|constructor; [set_solver|done|by apply numeric_none]].
    cbv zeta in He. destruct (f64_eqb (f64_tan x) f64_zero) eqn:Ht; [by eapply refused_cot|]. by apply errs_ok in He.
  - intros Hr. inversion Hr; subst; eexists; (split; [done|]); (split; [done|]).
    + case_match; [|done]. exfalso; eauto.
    + match goal with Hx : to_f64 _ = _ |- _ => rewrite Hx end. cbv zeta. match goal with Hl : f64_eqb _ _ = _ |- _ => rewrite Hl end. auto.
Qed.

Lemma zero_divisor b i x : as_i64 b = Some i -> to_f64 b = Some x -> i = 0 -> f64_eqb x f64_zero = true.
Proof.
  intros Hi Hx ->. destruct b as [| |[u|j|f]| | |]; cbn in Hi, Hx; try done; injection Hx as <-.
  - by destruct (u <=? i64_max); simplify_eq.
  - by simplify_eq.
Qed.

Lemma any_null_two a b : any_null [a; b] = false <-> a <> VNull /\ b <> VNull.
Proof. unfold any_null. simpl. destruct a, b; naive_solver. Qed.
Lemma any_null_three a b c : any_null [a; b; c] = false <-> a <> VNull /\ b <> VNull /\ c <> VNull.
Proof. unfold any_null. simpl. destruct a, b, c; naive_solver. Qed.

Lemma mod_errs args : errs (func_mod args) <-> refused "mod" args.
Proof.
  split.
  - unfold func_mod. cbv zeta. destruct args as [|a [|b [|? ?]]]; try by intros ?%errs_ok.
    destruct (any_null [a; b]) eqn:Hnull; [by intros ?%errs_ok|]. apply any_null_two in Hnull as [Ha Hb].
    destruct (to_f64 a) as [f1|] eqn:Hfa; [|intros _; constructor; [done|done|left; by apply numeric_none]].
    destruct (to_f64 b) as [f2|] eqn:Hfb; [|intros _; constructor; [done|done|right; by apply numeric_none]].
    destruct (f64_eqb f2 f64_zero) eqn:Hz; [intros _; by eapply refused_mod_zero; eauto|].
    destruct (as_i64 a) as [i1|]; [|by intros ?%errs_ok]. destruct (as_i64 b) as [i2|] eqn:Hi; [|by intros ?%errs_ok].
    destruct (Z.eqb_spec i2 0); [by rewrite (zero_divisor b i2 f2) in Hz|]. unfold i64_rem.
    repeat case_match; cbn; intros [msg [=]].
  - intros Hr. inversion Hr; subst; [set_solver|..]; unfold func_mod; cbv zeta; rewrite (proj2 (any_null_two _ _)) by done.
    + destruct (to_f64 a) eqn:Hfa; [|auto]. destruct (to_f64 b) eqn:Hfb; [|auto]. exfalso. naive_solver eauto.
    + match goal with Hn : numeric a |- _ => destruct Hn as [f1 ->] end. match goal with Hx : to_f64 b = _ |- _ => rewrite Hx end.
      match goal with Hl : f64_eqb _ _ = _ |- _ => rewrite Hl end. auto.
Qed.

Lemma bigint_errs v : errs (cast_to_bigint v) <-> match v with VString s => parse_i64 (trim_str s) = None | VArray _ | VObject _ => True | _ => False end.
Proof.
  destruct v; cbn; try (split; [by intros ?%errs_ok|done]); try (split; [done|auto]).
  destruct (parse_i64 _); split; [by intros ?%errs_ok|done|done|auto].
Qed.
Lemma float_errs v : errs (cast_to_float v) <-> match v with VString s => parse_f64 (trim_str s) = None | VArray _ | VObject _ => True | _ => False end.
Proof.
  destruct v; cbn; try (split; [by intros ?%errs_ok|done]); try (split; [done|auto]).
  destruct (parse_f64 _); split; [by intros ?%errs_ok|done|done|auto].
Qed.

Lemma existsb_eq t names : existsb (String.eqb t) names = true <-> t ∈ names.
Proof.
  rewrite existsb_exists. split; [intros (x & Hx & <-%String.eqb_eq); by apply list_elem_of_In|].
  intros Ht. exists t. split; [by apply list_elem_of_In|apply String.eqb_refl].
Qed.

Lemma cast_errs args : errs (func_cast args) <-> refused "cast" args.
Proof.
  split.
  - destruct args as [|v [|[] [|? ?]]]; cbn [func_cast]; try by intros ?%errs_ok.
    destruct (is_null v); [by intros ?%errs_ok|]. cbv zeta. set (t := to_ascii_lowercase (trim_str s)).
    destruct (existsb (String.eqb t) ["bigint"; "int"]) eqn:Hi; [apply existsb_eq in Hi; intros He%bigint_errs; by constructor|].
    destruct (existsb (String.eqb t) ["float"; "double"]) eqn:Hf; [apply existsb_eq in Hf; intros He%float_errs; by apply refused_cast_float|].
    repeat case_match; by intros ?%errs_ok.
  - intros Hr. inversion Hr as [|? ? Hin| | | | | |? target Ht Hv|? target Ht Hv|]; subst; [set_solver|..]; cbn [func_cast]; cbv zeta.
    + rewrite (proj2 (existsb_eq _ _) Ht). destruct (is_null v) eqn:Hn; [by apply is_null_iff in Hn as ->|]. by apply bigint_errs.
    + destruct (is_null v) eqn:Hn; [by apply is_null_iff in Hn as ->|].
      destruct (existsb _ ["bigint"; "int"]) eqn:Hi; [apply existsb_eq in Hi; revert Ht; generalize dependent (to_ascii_lowercase (trim_str target)); set_solver|].
      rewrite (proj2 (existsb_eq _ _) Ht). by apply float_errs.
Qed.

Lemma nth_of_none {A} (l : list A) i : nth_of l i = None <-> ~ (0 <= i < Z.of_nat (length l)).
Proof.
  unfold nth_of. destruct (Z.leb_spec 0 i), (Z.ltb_spec i (Z.of_nat (length l))); simpl; try (split; [lia|done]).
  rewrite lookup_ge_None. lia.
Qed.

Lemma split_errs args : errs (func_split_value args) <-> refused "split_value" args.
Proof.
  assert (Hpos : forall A (l : list A) i, nth_of l (if 0 <=? i then i else Z.of_nat (length l) + i) = None <-> ~ (- Z.of_nat (length l) <= i < Z.of_nat (length l))).
  { intros A l i. rewrite nth_of_none. destruct (Z.leb_spec 0 i); lia. }
  split.
  - destruct args as [|text [|sep [|index [|? ?]]]]; cbn [func_split_value]; try by intros ?%errs_ok.
    destruct (any_null _) eqn:Hn; [by intros ?%errs_ok|]. apply any_null_three in Hn as (? & ? & ?).
    destruct (to_i64_arg index) as [i|] eqn:Hi; [|by intros ?%errs_ok]. cbv zeta. case_match eqn:Hp; [by intros ?%errs_ok|].
    intros _. apply (refused_split text sep index i); try done. by apply Hpos.
  - intros Hr. inversion Hr as [|? ? Hin| | | | | | | |text sep index i Ht Hs Hx Hi n Hn]; subst; [set_solver|]. cbn [func_split_value].
    rewrite (proj2 (any_null_three _ _ _)), Hi by done. cbv zeta. apply Hpos in Hn. rewrite Hn. auto.
Qed.

Definition fallible_names : list string := ["abs"; "ln"; "sqrt"; "cot"; "mod"; "cast"; "split_value"].

Lemma refused_fallible name args : refused name args -> name ∈ fallible_names.
Proof. by inversion 1; subst; set_solver. Qed.

(** C28. The errors of scalar functions, exactly: [abs] of a value that is neither null nor a
    number; [sqrt], [ln] and [cot] of one that is neither null nor numeric, [sqrt] of a
    negative number, [ln] of one that is not positive, [cot] where the tangent is zero; [mod]
    of values of which one is not numeric, and by zero; a cast to an integer or a float of an
    array, an object or a text that is not one; and [split_value] at a position outside the
    parts.  No other call has an error.  Where the fallible call has one, the call that cannot
    fail gives a null; everywhere else (a panic included) both do the same. *)
Theorem call_errors_iff name args : let lower := to_ascii_lowercase name in
  (errs (eval_call_fallible name args) <-> refused lower args) /\
  (refused lower args -> eval_call name args = Ok VNull) /\
  (~ refused lower args -> eval_call name args = eval_call_fallible name args).
Proof.
  intros lower. assert (Hiff : errs (eval_call_fallible name args) <-> refused lower args).
  { unfold eval_call_fallible. fold lower.
    destruct (decide (lower ∈ fallible_names)) as [Hin|Hout].
    - unfold fallible_names in Hin. repeat (apply elem_of_cons in Hin as [->|Hin]; [cbn -[func_abs func_ln func_sqrt func_cot func_mod func_cast func_split_value];
        auto using abs_errs, ln_errs, sqrt_errs, cot_errs, mod_errs, cast_errs, split_errs|]). by apply elem_of_nil in Hin.
    - match goal with |- context [List.find ?p fallible_builtins] => destruct (List.find p fallible_builtins) as [[names f]|] eqn:Hf end.
      + exfalso. apply Hout. apply List.find_some in Hf as [Hin Hn]. apply existsb_eq in Hn. cbn [fst] in Hn.
        cbn [fallible_builtins In] in Hin. repeat (destruct Hin as [[= <- <-]|Hin]; [set_solver|]). done.
      + split; [intros Hm; by destruct (not_errs _ (eval_call_no_error name args))|]. by intros Hr%refused_fallible. }
  split; [done|]. rewrite eval_call_agrees. unfold or_null. split.
  - intros Hr. apply Hiff in Hr as [msg ->]. done.
  - intros Hr. destruct (eval_call_fallible name args) eqn:He; try done. destruct Hr. apply Hiff. apply errs_err.
Qed.
End dispatch_facts.

(** ** Samples *)

Module ScalarSample.

#[local] Instance text : Engine.Text := {| value_to_string v := match as_i64 v with Some i => integer_text i | None => "" end; map_to_json _ := ""; parse_rfc3339 _ := None |}.
#[local] Instance unicode : Unicode := {| alphanumeric _ := true; alphabetic _ := true; uppercase c := [c] |}.
#[local] Instance lowercase : Lowercase := fun s => s.

Definition int (i : Z) : value := value_of_i64 i.

(** The least integer has a text in every base that [conv] does not read, and negative
    numbers a hexadecimal text that [hex2dec] does not read. *)
Example least_integer_unread :
  func_conv [int i64_min; int 10; int 16] = VNull /\ func_conv [int (i64_min + 1); int 10; int 16] = VString "-7fffffffffffffff" /\
  func_dec2hex [int (-16)] = VString "-0x10" /\ func_hex2dec [VString "-0x10"] = VNull /\ func_hex2dec [VString "-10"] = int (-16).
Proof. by vm_compute. Qed.

(** A length that overflows the end of the slice, and the quotient of the least integer. *)
Example panics :
  func_substr [VString "abc"; int 2; int i64_max] = Panic /\ func_substr [VString "abc"; int 1; int i64_max] = Ok (VString "abc") /\
  func_mod [int i64_min; int (-1)] = Panic.
Proof. by vm_compute. Qed.

(** The position of [indexof] counts bytes, where [substr] and [length] count characters. *)
Example indexof_counts_bytes :
  let s := to_str [233; 98] in
  func_length [VString s] = int 2 /\ func_indexof [VString s; VString "b"] = int 2 /\
  func_substr [VString s; int 3] = Ok (VString "").
Proof. by vm_compute. Qed.

Example texts :
  func_split [VString "a,b,"; VString ","] = VArray [VString "a"; VString "b"; VString ""] /\
  func_replace [VString "aaa"; VString "aa"; VString "b"] = VString "ba" /\
  func_lpad [VString "7"; int 3; VString "0"] = VString "007" /\ func_lpad [VString "7"; int 3] = VString "   7" /\
  func_reverse [VString "abc"] = VString "cba".
Proof. by vm_compute. Qed.

(** Halves are rounded away from zero, and a zero keeps its sign. *)
Example rounding :
  f64_round (f64_const "-2.5") = f64_const "-3" /\ f64_floor (f64_const "-0.5") = f64_const "-1" /\
  f64_ceil (f64_const "-0.5") = S754_zero true /\ f64_trunc_f64 (f64_const "2.9") = f64_const "2".
Proof. by vm_compute. Qed.

Example number_formats :
  func_format [int 1234567; int 2; VString "en_US"] = VString "1,234,567.00" /\
  func_format [int (-1234567); int 1; VString "de_DE"] = VString "-1.234.567,0" /\ func_format [int 5] = VString "5".
Proof. by vm_compute. Qed.
End ScalarSample.
