(* ===== verification/MqttSource.v ===== *)
(** * The MQTT source ([crates/rekuiper-connectors/src/mqtt.rs])

    The options of a connection, and the loop of a source: what it makes of the events that
    its client has queued, batch by batch, while the mask and the metadata flag its rules
    share change.  The client and the broker are not modelled: what they do is the events
    that arrive, and whether a subscription is accepted. *)

From S2P Require Import Prelude Rust Characters Json Counters Ast Engine Columns Values Numbers Objects Delimited Parser Statements EdgeX Wire Protobuf ProtoText FieldMask Schema Kv Managers Payload.

Set Default Goal Selector "!".

(** ** Configuration *)

Record MqttConfig := mkConfig {
  server : string;
  topic : string;
  client_id : option string;
  qos : Z;
  username : option string;
  password : option string;
  clean_session : option bool;
  keep_alive : option Z;
  root_ca_path : option string;
  root_ca_raw : option string;
  certification_path : option string;
  certification_raw : option string;
  private_key_path : option string;
  private_key_raw : option string;
  insecure_skip_verify : bool;
  format : PayloadFormat;
  attach_meta : bool;
  field_mask : option JsonFieldMask;
}.

Definition default_config : MqttConfig :=
  mkConfig "tcp://127.0.0.1:1883" "" None 0 None None None None None None None None None None false JsonFormat false None.

Inductive QoS := AtMostOnce | AtLeastOnce | ExactlyOnce.

Definition qos_from_u8 (qos : Z) : QoS := if qos =? 1 then AtLeastOnce else if qos =? 2 then ExactlyOnce else AtMostOnce.
Definition qos_level (c : MqttConfig) : QoS := qos_from_u8 (qos c).

Definition topics (c : MqttConfig) : list string :=
  List.filter (fun t => negb (bool_decide (t = ""))) (map (fun t => to_str (trim_cps t)) (split_char 44 [] (of_str (topic c)))).

(** The configured identifier unless it is empty. *)
Definition effective_client_id (generated : string) (c : MqttConfig) : string :=
  match client_id c with Some id => if bool_decide (id = "") then generated else id | None => generated end.

(** [rsplit_once] *)
Definition rsplit_at_char (c : Z) (s : input) : option (input * input) :=
  '(b, a) ← split_at_char c (rev s); Some (rev a, rev b).

Fixpoint split_scheme (s : input) : option (input * input) :=
  match strip_prefix (cps "://") s, s with
  | Some r, _ => Some ([], r)
  | None, [] => None
  | None, c :: r => '(a, b) ← split_scheme r; Some (c :: a, b)
  end.

Definition path_start (c : Z) : bool := (c =? 47) || (c =? 63) || (c =? 35).

(** [[::1]] is [::1]. *)
Definition unbracket (host : input) : input :=
  match host with
  | c :: r =>
      match rev r with
      | d :: m => if (c =? 91) && (d =? 93) then rev m else host
      | [] => host
      end
  | [] => host
  end.

Definition default_port (scheme : string) : Z :=
  if bool_decide (scheme ∈ ["ssl"; "tls"; "tcps"; "mqtts"]) then 8883 else 1883.

(** The host and the port after the last colon, when what follows it is a number. *)
Definition host_and_port (scheme : string) (hostport : input) : option (input * Z) :=
  match rsplit_at_char 58 hostport with
  | Some (h, p) =>
      if negb (bool_decide (p = [])) && forallb is_digit p then
        port ← parse_u64 (to_str p); if port <=? 65535 then Some (trim_cps h, port) else None
      else Some (hostport, default_port scheme)
  | None => Some (hostport, default_port scheme)
  end.

Definition parse_mqtt_server_url_ext (server : string) : option (string * string * Z) :=
  let s := trim_cps (of_str server) in
  if bool_decide (s = []) then None
  else
    let '(scheme, remainder) := match split_scheme s with
                                | Some (scheme, rest) => (to_ascii_lowercase (to_str (trim_cps scheme)), trim_cps rest)
                                | None => ("", s)
                                end in
    if bool_decide (remainder = []) then None
    else
      let hostport := trim_cps (span (fun c => negb (path_start c)) remainder).1 in
      if bool_decide (hostport = []) then None
      else
        '(host, port) ← host_and_port scheme hostport;
        let host := unbracket host in
        if bool_decide (host = []) then None else Some (scheme, to_str host, port).

Definition parse_mqtt_server_url (server : string) : option (string * Z) :=
  '(_, host, port) ← parse_mqtt_server_url_ext server; Some (host, port).

Definition is_secure_mqtt_scheme (scheme : string) : bool :=
  bool_decide (to_ascii_lowercase scheme ∈ ["ssl"; "tls"; "tcps"; "mqtts"]).

Definition is_tls_required (c : MqttConfig) (scheme : string) : bool :=
  is_secure_mqtt_scheme scheme ||
  existsb (fun o => bool_decide (is_Some o)) [root_ca_path c; root_ca_raw c; certification_path c; certification_raw c; private_key_path c; private_key_raw c] ||
  insecure_skip_verify c.

Record MqttOptions := mkOptions {
  o_client_id : string; o_host : string; o_port : Z; o_keep_alive : Z; o_clean_session : option bool;
  o_credentials : option (string * string); o_tls : bool;
}.

(** [tls] says whether the certificates and keys of a configuration can be loaded. *)
Definition mqtt_options (tls : MqttConfig -> bool) (generated : string) (c : MqttConfig) : option MqttOptions :=
  '(scheme, host, port) ← parse_mqtt_server_url_ext (server c);
  if bool_decide (scheme ∈ [""; "tcp"; "mqtt"; "ssl"; "tls"; "tcps"; "mqtts"]) then
    let secure := is_tls_required c scheme in
    if secure && negb (tls c) then None
    else Some (mkOptions (effective_client_id generated c) host port (Z.max (default 30 (keep_alive c)) 5) (clean_session c)
                 ((fun u => (u, default "" (password c))) <$> username c) secure)
  else None.

(** ** The loop *)

Definition MQTT_SOURCE_MAX_BATCH : nat := 1024.

Inductive Event := Published (p : Publish) | ConnAck | OtherEvent.

(** What the source has put together: rows, the counters of its rule, the metadata it keeps. *)
Record Batch := mkBatch { rows : list row; b_counters : option RuleCounters; b_cache : MetaCache }.

(** [events]: what the client has read from the network; [mask_cell] and [meta_flag]: what
    the rules of the stream share with the source. *)
Record Loop := mkLoop {
  events : list Event;
  mask_cell : option (option JsonFieldMask);
  meta_flag : option bool;
  meta_cache : MetaCache;
  rule_counters : option RuleCounters;
  sent : list (list row);
  subscriptions : nat;
  running : bool;
}.

Definition exception (c : option RuleCounters) : option RuleCounters := inc_exceptions 1 <$> c.

Section source.
Context `{Engine.Text} `{Base64} `{JsonReader} (config : MqttConfig).

(** The metadata of a message, when it is attached. *)
Definition message_meta (flag : option bool) (p : Publish) (cache : MetaCache) : option value * MetaCache :=
  if attach_meta config || default false flag then let '(m, cache) := publish_meta p cache in (Some m, cache) else (None, cache).

Definition push_decoded_with_cache_and_mask (mask : option JsonFieldMask) (flag : option bool) (p : Publish) (b : Batch) : Batch :=
  let '(meta, cache) := message_meta flag p (b_cache b) in
  match decode_payload_into_with_mask (format config) mask (p_payload p) meta with
  | Some rs => mkBatch (rows b ++ rs) (b_counters b) cache
  | None => mkBatch (rows b) (exception (b_counters b)) cache
  end.

(** Messages at the front of the queue, until there are [max] rows. *)
Fixpoint drain_buffered_publishes_with_cache_and_mask (mask : option JsonFieldMask) (max : nat) (flag : option bool) (events : list Event) (b : Batch) : list Event * Batch :=
  match events with
  | Published p :: rest =>
      if (length (rows b) <? max)%nat
      then drain_buffered_publishes_with_cache_and_mask mask max flag rest (push_decoded_with_cache_and_mask mask flag p b)
      else (events, b)
  | _ => (events, b)
  end.

(** [accepted]: whether the client takes the request. *)
Definition subscribe_topics (accepted : bool) : bool := negb (bool_decide (topics config = [])) && accepted.

Definition active_mask (s : Loop) : option JsonFieldMask := match mask_cell s with Some m => m | None => field_mask config end.

(** The rows of a batch go to the stream bus at once. *)
Definition send (b : Batch) (rest : list Event) (s : Loop) : Loop :=
  mkLoop rest (mask_cell s) (meta_flag s) (b_cache b) (b_counters b)
    (if bool_decide (rows b = []) then sent s else sent s ++ [rows b]) (subscriptions s) (running s).

Definition resubscribe (accepted : bool) (rest : list Event) (s : Loop) : Loop :=
  if subscribe_topics accepted
  then mkLoop rest (mask_cell s) (meta_flag s) (meta_cache s) (rule_counters s) (sent s) (S (subscriptions s)) (running s)
  else mkLoop rest (mask_cell s) (meta_flag s) (meta_cache s) (exception (rule_counters s)) (sent s) (subscriptions s) (running s).

(** The next event, if there is one. *)
Definition poll (accepted : bool) (s : Loop) : Loop :=
  match events s with
  | [] => s
  | Published p :: rest =>
      let mask := active_mask s in
      let b := push_decoded_with_cache_and_mask mask (meta_flag s) p (mkBatch [] (rule_counters s) (meta_cache s)) in
      let '(rest, b) := drain_buffered_publishes_with_cache_and_mask mask MQTT_SOURCE_MAX_BATCH (meta_flag s) rest b in
      send b rest s
  | ConnAck :: rest => resubscribe accepted rest s
  | OtherEvent :: rest =>
      mkLoop rest (mask_cell s) (meta_flag s) (meta_cache s) (rule_counters s) (sent s) (subscriptions s) (running s)
  end.

(** What happens to a source: its client reads events, it is polled, the connection fails,
    its rules write the shared mask or raise the flag, it is cancelled. *)
Inductive Step := Arrive (es : list Event) | Poll (accepted : bool) | ConnectionError | SetMask (m : option JsonFieldMask) | RaiseMeta | Cancel.

Definition step (s : Loop) (e : Step) : Loop :=
  if running s then
    match e with
    | Arrive es => mkLoop (events s ++ es) (mask_cell s) (meta_flag s) (meta_cache s) (rule_counters s) (sent s) (subscriptions s) true
    | Poll accepted => poll accepted s
    | ConnectionError =>
        mkLoop (events s) (mask_cell s) (meta_flag s) (meta_cache s) (exception (rule_counters s)) (sent s) (subscriptions s) true
    | SetMask m =>
        mkLoop (events s) ((fun _ => m) <$> mask_cell s) (meta_flag s) (meta_cache s) (rule_counters s) (sent s) (subscriptions s) true
    | RaiseMeta =>
        mkLoop (events s) (mask_cell s) ((fun _ => true) <$> meta_flag s) (meta_cache s) (rule_counters s) (sent s) (subscriptions s) true
    | Cancel => mkLoop (events s) (mask_cell s) (meta_flag s) (meta_cache s) (rule_counters s) (sent s) (subscriptions s) false
    end
  else s.

(** A source that starts: it does not run when its options are bad or it cannot subscribe. *)
Definition spawn (tls : MqttConfig -> bool) (generated : string) (accepted : bool) (counters : option RuleCounters)
    (mask_cell : option (option JsonFieldMask)) (meta_flag : option bool) : Loop :=
  match mqtt_options tls generated config with
  | None => mkLoop [] mask_cell meta_flag None (exception counters) [] 0 false
  | Some _ =>
      if subscribe_topics accepted then mkLoop [] mask_cell meta_flag None counters [] 1 true
      else mkLoop [] mask_cell meta_flag None (exception counters) [] 0 false
  end.
End source.

(** * What an MQTT source sends

    Taking the messages a client has already queued in one batch, with the metadata of the
    last message kept, sends the rows that polling them one by one and making the metadata
    of each sends, in the same order. *)

(** ** A source that takes one event at a time *)

Record Plain := mkPlain {
  p_events : list Event;
  p_mask_cell : option (option JsonFieldMask);
  p_meta_flag : option bool;
  p_counters : option RuleCounters;
  p_rows : list row;
  p_subscriptions : nat;
  p_running : bool;
}.

Section source.
Context `{Engine.Text} `{Base64} `{JsonReader} (config : MqttConfig).

(** The rows of a message that is decoded on its own. *)
Definition message_rows (mask : option JsonFieldMask) (flag : option bool) (p : Publish) : option (list row) :=
  decode_payload_into_with_mask (format config) mask (p_payload p)
    (if attach_meta config || default false flag then Some (mqtt_meta (p_topic p) (p_qos p) (p_pkid p)) else None).

Definition plain_mask (s : Plain) : option JsonFieldMask := match p_mask_cell s with Some m => m | None => field_mask config end.

Definition plain_poll (accepted : bool) (s : Plain) : Plain :=
  let '(mkPlain es mc mf c rs n b) := s in
  match es with
  | [] => s
  | Published p :: rest =>
      match message_rows (plain_mask s) mf p with
      | Some new => mkPlain rest mc mf c (rs ++ new) n b
      | None => mkPlain rest mc mf (exception c) rs n b
      end
  | ConnAck :: rest => if subscribe_topics config accepted then mkPlain rest mc mf c rs (S n) b else mkPlain rest mc mf (exception c) rs n b
  | OtherEvent :: rest => mkPlain rest mc mf c rs n b
  end.

Definition plain_step (s : Plain) (e : Step) : Plain :=
  let '(mkPlain es mc mf c rs n b) := s in
  if b then
    match e with
    | Arrive new => mkPlain (es ++ new) mc mf c rs n b
    | Poll accepted => plain_poll accepted s
    | ConnectionError => mkPlain es mc mf (exception c) rs n b
    | SetMask m => mkPlain es ((fun _ => m) <$> mc) mf c rs n b
    | RaiseMeta => mkPlain es mc ((fun _ => true) <$> mf) c rs n b
    | Cancel => mkPlain es mc mf c rs n false
    end
  else s.

(** What can be seen of a source: not its batches, nor the metadata it keeps. *)
Definition view (s : Loop) : Plain :=
  mkPlain (events s) (mask_cell s) (meta_flag s) (rule_counters s) (concat (sent s)) (subscriptions s) (running s).

(** The steps of a source, with its polls repeated. *)
Inductive expands : list Step -> list Step -> Prop :=
  | expands_nil : expands [] []
  | expands_poll a n tr tr' : expands tr tr' -> expands (Poll a :: tr) (repeat (Poll a) (S n) ++ tr')
  | expands_other e tr tr' : (forall a, e <> Poll a) -> expands tr tr' -> expands (e :: tr) (e :: tr').

(** ** The metadata that is kept *)

Definition cache_ok (cache : MetaCache) : Prop := match cache with Some (topic, qos, v) => v = mqtt_meta topic qos 0 | None => True end.

Lemma publish_meta_fresh p cache : cache_ok cache ->
  (publish_meta p cache).1 = mqtt_meta (p_topic p) (p_qos p) (p_pkid p) /\ cache_ok (publish_meta p cache).2.
Proof.
  intros Hc. unfold publish_meta. destruct (Z.eqb_spec (p_pkid p) 0) as [->|]; [|done].
  destruct cache as [[[t q] v]|]; [|done]. case_bool_decide as Ht; [|done]. destruct (Z.eqb_spec q (p_qos p)) as [->|]; [|done].
  cbn [andb]. by subst.
Qed.

(** Decoding a message into a batch is decoding it on its own. *)
Lemma push_message mask flag p b : cache_ok (b_cache b) ->
  exists cache, cache_ok cache /\
    push_decoded_with_cache_and_mask config mask flag p b =
      match message_rows mask flag p with
      | Some rs => mkBatch (rows b ++ rs) (b_counters b) cache
      | None => mkBatch (rows b) (exception (b_counters b)) cache
      end.
Proof.
  intros Hc. unfold push_decoded_with_cache_and_mask, message_meta, message_rows.
  destruct (attach_meta config || default false flag); [|by exists (b_cache b)].
  destruct (publish_meta_fresh p (b_cache b) Hc) as [Hm Hc']. destruct (publish_meta p (b_cache b)) as [m cache].
  cbn [fst snd] in Hm, Hc'. subst m. by exists cache.
Qed.

(** ** Batches *)

(** A source with a batch that it has not sent yet, seen from outside. *)
Definition pending (s : Loop) (es : list Event) (b : Batch) : Plain :=
  mkPlain es (mask_cell s) (meta_flag s) (b_counters b) (concat (sent s) ++ rows b) (subscriptions s) (running s).

Lemma push_is_poll s a p rest b : running s = true -> cache_ok (b_cache b) ->
  let b' := push_decoded_with_cache_and_mask config (active_mask config s) (meta_flag s) p b in
  cache_ok (b_cache b') /\ plain_step (pending s (Published p :: rest) b) (Poll a) = pending s rest b'.
Proof.
  intros Hrun Hc b'. subst b'. destruct (push_message (active_mask config s) (meta_flag s) p b Hc) as (cache & Hok & ->).
  unfold pending, plain_step. rewrite Hrun. cbn [plain_poll]. change (plain_mask _) with (active_mask config s).
  destruct (message_rows _ _ p); (split; [done|]); cbn [rows b_counters]; by rewrite ?app_assoc.
Qed.

Lemma drain_is_polls s a max es : forall b rest b', running s = true -> cache_ok (b_cache b) ->
  drain_buffered_publishes_with_cache_and_mask config (active_mask config s) max (meta_flag s) es b = (rest, b') ->
  cache_ok (b_cache b') /\ exists n, foldl plain_step (pending s es b) (repeat (Poll a) n) = pending s rest b'.
Proof.
  induction es as [|e es IH]; intros b rest b' Hrun Hc Hd.
  - simplify_eq/=. split; [done|]. by exists O.
  - assert (Hstop : (e :: es, b) = (rest, b') -> cache_ok (b_cache b') /\
      exists n, foldl plain_step (pending s (e :: es) b) (repeat (Poll a) n) = pending s rest b').
    { intros [= <- <-]. split; [done|]. by exists O. }
    destruct e as [p| |]; [|by apply Hstop..]. cbn [drain_buffered_publishes_with_cache_and_mask] in Hd.
    destruct (Nat.ltb_spec (length (rows b)) max); [|by apply Hstop].
    destruct (push_is_poll s a p es b Hrun Hc) as [Hok Hp].
    destruct (IH _ _ _ Hrun Hok Hd) as (Hok' & n & Hn). split; [done|]. exists (S n). cbn [repeat foldl]. by rewrite Hp.
Qed.

Lemma view_send s b rest : view (send b rest s) = pending s rest b.
Proof.
  unfold view, send, pending. cbn [events mask_cell meta_flag rule_counters sent subscriptions running]. f_equal.
  case_bool_decide as Hr; [by rewrite Hr, app_nil_r|]. rewrite concat_app. simpl. by rewrite app_nil_r.
Qed.

(** One poll of a source is some polls of the one that takes one event at a time. *)
Lemma poll_is_polls s a : running s = true -> cache_ok (meta_cache s) ->
  cache_ok (meta_cache (poll config a s)) /\
  exists n, view (poll config a s) = foldl plain_step (view s) (repeat (Poll a) (S n)).
Proof.
  intros Hrun Hc. unfold poll. destruct (events s) as [|[p| |] rest] eqn:Hes.
  - split; [done|]. exists O. unfold view. simpl. by rewrite Hes, Hrun.
  - set (b0 := mkBatch [] (rule_counters s) (meta_cache s)). destruct (push_is_poll s a p rest b0 Hrun Hc) as [Hok Hp].
    set (b := push_decoded_with_cache_and_mask config (active_mask config s) (meta_flag s) p b0) in *.
    destruct (drain_buffered_publishes_with_cache_and_mask _ _ _ _ rest b) as [rest' b'] eqn:Hd.
    destruct (drain_is_polls s a _ _ _ _ _ Hrun Hok Hd) as (Hok' & n & Hn). split; [done|]. exists n.
    rewrite view_send, <- Hn. cbn [repeat foldl]. rewrite <- Hp. f_equal. unfold view, pending. by rewrite Hes, app_nil_r.
  - unfold resubscribe. destruct (subscribe_topics config a) eqn:Hs; (split; [done|]); exists O; unfold view; simpl; by rewrite Hes, Hrun, Hs.
  - split; [done|]. exists O. unfold view. simpl. by rewrite Hes, Hrun.
Qed.

Lemma step_view s e : cache_ok (meta_cache s) ->
  cache_ok (meta_cache (step config s e)) /\
  exists n, view (step config s e) = foldl plain_step (view s) (match e with Poll a => repeat (Poll a) (S n) | _ => [e] end).
Proof.
  intros Hc. unfold step. destruct (running s) eqn:Hrun.
  - destruct e as [es|a| |m| |]; try (split; [done|]; exists O; unfold view; simpl; by rewrite Hrun). by apply poll_is_polls.
  - split; [done|]. exists O. unfold view. rewrite Hrun. by destruct e.
Qed.

Lemma run_view tr : forall s, cache_ok (meta_cache s) ->
  exists tr', expands tr tr' /\ view (foldl (step config) s tr) = foldl plain_step (view s) tr'.
Proof.
  induction tr as [|e tr IH]; intros s Hc; [exists []; split; [constructor|done]|].
  destruct (step_view s e Hc) as (Hok & n & Hv). destruct (IH _ Hok) as (tr' & Hex & Hrun). cbn [foldl].
  destruct e as [es|a| |m| |]; try (eexists (_ :: tr'); split; [apply expands_other; [done|exact Hex]|]; by rewrite Hrun, Hv).
  exists (repeat (Poll a) (S n) ++ tr'). split; [by constructor|]. rewrite Hrun, Hv. by rewrite foldl_app.
Qed.

(** A batch that is sent has rows. *)
Lemma step_sent s e : Forall (fun b => b <> []) (sent s) -> Forall (fun b => b <> []) (sent (step config s e)).
Proof.
  intros Hs. unfold step. destruct (running s); [|done]. destruct e as [es|a| |m| |]; try done. unfold poll.
  destruct (events s) as [|[p| |] rest]; [done| |unfold resubscribe; by destruct (subscribe_topics config a)|done].
  destruct (drain_buffered_publishes_with_cache_and_mask _ _ _ _ _ _) as [rest' b']. unfold send. cbn [sent].
  case_bool_decide; [done|]. apply Forall_app; split; [done|]. by repeat constructor.
Qed.

Lemma spawn_sent tls generated accepted counters mask flag :
  sent (spawn config tls generated accepted counters mask flag) = [] /\ meta_cache (spawn config tls generated accepted counters mask flag) = None.
Proof. unfold spawn. destruct (mqtt_options _ _ _); [|done]. by destruct (subscribe_topics config accepted). Qed.

(** C40. Batches of an MQTT source: from its start, whatever its client reads, its rules and
    its connection do, a source that takes up to 1024 rows of queued messages at once and
    keeps the metadata of the last message has the same queue, counters and subscriptions,
    and has sent the same rows in the same order, as one that takes one event per poll and
    makes the metadata of every message; and no batch it sends is empty. *)
Theorem batching_is_polling tls generated accepted counters mask flag (tr : list Step) :
  let s0 := spawn config tls generated accepted counters mask flag in
  (exists tr', expands tr tr' /\ view (foldl (step config) s0 tr) = foldl plain_step (view s0) tr') /\
  Forall (fun b => b <> []) (sent (foldl (step config) s0 tr)).
Proof.
  intros s0. destruct (spawn_sent tls generated accepted counters mask flag) as [Hsent Hcache]. split.
  - apply run_view. subst s0. by rewrite Hcache.
  - clear Hcache. assert (Hs : Forall (fun b => b <> []) (sent s0)) by (subst s0; rewrite Hsent; constructor).
    clearbody s0. revert s0 Hsent Hs. intros s0 _. revert s0. induction tr as [|e tr IH]; intros s0 Hs; [done|].
    cbn [foldl]. by apply IH, step_sent.
Qed.

(** ** Order *)

Definition event_rows (mask : option JsonFieldMask) (flag : option bool) (e : Event) : list row :=
  match e with Published p => default [] (message_rows mask flag p) | _ => [] end.

Definition arrived (tr : list Step) : list Event := flat_map (fun e => match e with Arrive es => es | _ => [] end) tr.

(** The steps of a source that runs and whose rules stay as they are. *)
Definition steady (e : Step) : Prop := match e with SetMask _ | RaiseMeta | Cancel => False | _ => True end.

Lemma plain_in_order mc mf m es0 rs0 : m = match mc with Some m => m | None => field_mask config end ->
  forall tr c n, Forall steady tr ->
  let s := foldl plain_step (mkPlain es0 mc mf c rs0 n true) tr in
  p_rows s ++ flat_map (event_rows m mf) (p_events s) = rs0 ++ flat_map (event_rows m mf) (es0 ++ arrived tr).
Proof.
  intros Hm tr. revert es0 rs0. induction tr as [|e tr IH]; intros es0 rs0 c n Htr s; subst s; [by rewrite app_nil_r|].
  apply list.Forall_cons in Htr as [He Htr]. cbn [foldl]. specialize (IH) with (1 := Htr).
  destruct e as [es|a| | | |]; try done; cbn [plain_step].
  - rewrite IH. unfold arrived. cbn [flat_map]. by rewrite app_assoc.
  - destruct es0 as [|[p| |] es0]; cbn [plain_poll].
    + by rewrite IH.
    + change (plain_mask _) with (match mc with Some m => m | None => field_mask config end). rewrite <- Hm.
      cbn [app flat_map event_rows]. destruct (message_rows m mf p); rewrite IH; [by rewrite <- app_assoc|done].
    + destruct (subscribe_topics config a); by rewrite IH.
    + by rewrite IH.
  - by rewrite IH.
Qed.

Lemma expands_steady tr tr' : expands tr tr' -> Forall steady tr -> Forall steady tr' /\ arrived tr' = arrived tr.
Proof.
  induction 1 as [|a n tr tr' _ IH|e tr tr' He _ IH]; intros Htr; [done| |]; apply list.Forall_cons in Htr as [Hs Htr]; destruct (IH Htr) as [Hs' Ha].
  - split.
    + apply Forall_app; split; [|done]. clear. induction (S n); by constructor.
    + unfold arrived in *. rewrite flat_map_app, Ha. cbn [flat_map]. clear. by induction n.
  - split; [by constructor|]. unfold arrived in *. cbn [flat_map]. by rewrite Ha.
Qed.

(** While its rules stay as they are, a source has sent the rows of the messages that have
    arrived, in order, except those of the messages still in its queue. *)
Theorem rows_in_order tls generated accepted counters mask flag tr :
  let s0 := spawn config tls generated accepted counters mask flag in
  let s := foldl (step config) s0 tr in
  running s0 = true -> Forall steady tr ->
  concat (sent s) ++ flat_map (event_rows (active_mask config s0) flag) (events s) = flat_map (event_rows (active_mask config s0) flag) (arrived tr).
Proof.
  intros s0 s Hrun Htr. destruct (spawn_sent tls generated accepted counters mask flag) as [Hsent Hcache]. fold s0 in Hsent, Hcache.
  destruct (run_view tr s0) as (tr' & Hex & Hv); [by rewrite Hcache|]. destruct (expands_steady _ _ Hex Htr) as [Htr' Ha]. fold s in Hv.
  change (concat (sent s)) with (p_rows (view s)). change (events s) with (p_events (view s)). rewrite Hv, <- Ha.
  assert (Hv0 : view s0 = mkPlain [] mask flag (rule_counters s0) [] (subscriptions s0) true /\ active_mask config s0 = match mask with Some m => m | None => field_mask config end).
  { unfold s0, spawn, active_mask, view in *. destruct (mqtt_options _ _ _); [|done]. by destruct (subscribe_topics config accepted). }
  destruct Hv0 as [-> ->]. by apply (plain_in_order mask flag _ [] []).
Qed.
End source.

(** ** Samples *)

Module MqttSample.
Example urls :
  map parse_mqtt_server_url_ext ["tcp://127.0.0.1:1883"; " MQTTS://broker/path?x "; "ssl://[::1]:8884"; "broker:x"; "tcp://broker:65536"; "tcp://"; "[]:1"] =
  [Some ("tcp", "127.0.0.1", 1883); Some ("mqtts", "broker", 8883); Some ("ssl", "::1", 8884); Some ("", "broker:x", 1883); None; None; None].
Proof. by vm_compute. Qed.

(** An address without brackets loses its last group to the port. *)
Example bare_ipv6 : parse_mqtt_server_url "tcp://::1" = Some (":", 1).
Proof. by vm_compute. Qed.

Section run.
Context `{Engine.Text} `{Base64} `{JsonReader}.

Definition config : MqttConfig :=
  mkConfig "tcp://b" "a/+, b" None 0 None None None None None None None None None None false BinaryFormat true None.

Definition message (text : string) : Event := Published (mkPublish "a/x" 0 0 (chars text)).
Definition row_of (text : string) : row :=
  {["self" := VString text; "__meta__" := mqtt_meta "a/x" 0 0]}.

(** Two polls: a batch of two messages up to the acknowledgement of a reconnection, which is
    refused, and nothing for it. *)
Example batch :
  let s := foldl (step config) (spawn config (fun _ => true) "id" true (Some counters_default) None None)
    [Arrive [message "1"; message "2"; ConnAck; message "3"]; Poll true; Poll false] in
  topics config = ["a/+"; "b"] /\ sent s = [[row_of "1"; row_of "2"]] /\ events s = [message "3"] /\
  rule_counters s = Some (inc_exceptions 1 counters_default) /\ subscriptions s = 1%nat.
Proof. vm_compute. repeat split. Qed.
End run.
End MqttSample.
