(* ===== verification/RuleManager.v ===== *)
(** * The rule manager ([RuleManager] of [crates/rekuiper-core/src/manager.rs])

    A rule has a definition, a status, the handle of its running task, the counters and the
    buffer of dead letters it shares with that task.  Definition and status are written to
    the store before they change in memory.  Tasks are numbers; aborting one puts it on a
    list.  A clock reading is an argument. *)

From S2P Require Import Prelude Rust Json Counters Dlq Ast Engine Values Schema Kv Managers.

Set Default Goal Selector "!".

(** What the store keeps of a rule. *)
Record PersistedRule := mkPersisted { p_def : RuleDefinition; p_status : string }.

Record ActiveRule := mkActive {
  a_def : RuleDefinition;
  a_status : RuleStatus;
  a_handle : option nat;
  a_counters : RuleCounters;
  a_dlq : list DlqEnvelope;
  a_capacity : Z;
}.

Record RuleManager := mkRules { rules : gmap string ActiveRule; aborted : list nat }.

Definition rules_new : RuleManager := mkRules ∅ [].

(** ** Reading and writing one rule *)

Definition with_def (d : RuleDefinition) (a : ActiveRule) : ActiveRule :=
  mkActive d (a_status a) (a_handle a) (a_counters a) (a_dlq a) (a_capacity a).
Definition with_status (s : RuleStatus) (a : ActiveRule) : ActiveRule :=
  mkActive (a_def a) s (a_handle a) (a_counters a) (a_dlq a) (a_capacity a).
Definition with_handle (h : option nat) (a : ActiveRule) : ActiveRule :=
  mkActive (a_def a) (a_status a) h (a_counters a) (a_dlq a) (a_capacity a).
Definition with_counters (c : RuleCounters) (a : ActiveRule) : ActiveRule :=
  mkActive (a_def a) (a_status a) (a_handle a) c (a_dlq a) (a_capacity a).
Definition with_dlq (l : list DlqEnvelope) (a : ActiveRule) : ActiveRule :=
  mkActive (a_def a) (a_status a) (a_handle a) (a_counters a) l (a_capacity a).

Definition is_running (a : ActiveRule) : bool := bool_decide (st_status (a_status a) = "running").

Definition put_rule (id : string) (a : ActiveRule) (m : RuleManager) : RuleManager := mkRules (<[id := a]> (rules m)) (aborted m).

(** [handle.take()] and [abort] *)
Definition abort_task (h : option nat) (m : RuleManager) : RuleManager := mkRules (rules m) (aborted m ++ option_list h).

Definition set_status (status : string) (s : RuleStatus) : RuleStatus :=
  let '(mkStatus _ b c d e f g h i j k l m n o p) := s in mkStatus status b c d e f g h i j k l m n o p.
Definition set_message (message : string) (s : RuleStatus) : RuleStatus :=
  let '(mkStatus a _ c d e f g h i j k l m n o p) := s in mkStatus a message c d e f g h i j k l m n o p.
Definition set_last_exception (err : string) (s : RuleStatus) : RuleStatus :=
  let '(mkStatus a b _ d e f g h i j k l m n o p) := s in mkStatus a b err d e f g h i j k l m n o p.
Definition set_last_start (now : Z) (s : RuleStatus) : RuleStatus :=
  let '(mkStatus a b c _ e f g h i j k l m n o p) := s in mkStatus a b c now e f g h i j k l m n o p.
Definition set_last_stop (now : Z) (s : RuleStatus) : RuleStatus :=
  let '(mkStatus a b c d _ f g h i j k l m n o p) := s in mkStatus a b c d now f g h i j k l m n o p.

(** The counters as the status shows them; the text of the last error stays when the
    counters have none. *)
Definition sync_to (c : RuleCounters) (s : RuleStatus) : RuleStatus :=
  let kept := bool_decide (last_exception c = "") in
  mkStatus (st_status s)
    (if kept then st_message s else last_exception c)
    (if kept then st_last_exception s else last_exception c)
    (st_last_start s) (st_last_stop s) (st_next_start s)
    (source_in c) (sink_out c) (exceptions c) (filtered c) (enqueued c) (sink_failed c)
    (dropped_by_policy c) (high_water c) (blocked_micros c) (dlq_records c).

Definition started (now : Z) (s : RuleStatus) : RuleStatus := set_message "" (set_last_start now (set_status "running" s)).
Definition stopped (now : Z) (message : string) (s : RuleStatus) : RuleStatus :=
  set_message message (set_last_stop now (set_status "stopped" s)).

(** The first of the names the options have, when it is a number. *)
Definition extract_dlq_capacity (d : RuleDefinition) : Z :=
  let option_of o :=
    match o !! "dlq" with
    | Some (VObject m) =>
        match object_get "buffer_capacity" m, object_get "bufferCapacity" m, object_get "buffer_size" m with
        | Some v, _, _ | None, Some v, _ | None, None, Some v => Some v
        | None, None, None => object_get "capacity" m
        end
    | _ => None
    end in
  default 100 ((r_options d ≫= option_of) ≫= as_u64).

Definition not_found (id : string) : string := "Rule " +:+ id +:+ " not found".

Section rules.
Context `{JsonText PersistedRule}.

(** ** The store *)

Definition persist_rule (id : string) (d : RuleDefinition) (status : string) : Store -> option string * Store :=
  persist "rules" id (to_json (mkPersisted d status)).
Definition unpersist_rule (id : string) : Store -> option string * Store := unpersist "rules" id.

Definition save_rule_checkpoint (id state_json : string) : Store -> option string * Store := persist "rule_checkpoints" id state_json.
Definition delete_rule_checkpoint (id : string) : Store -> option string * Store := unpersist "rule_checkpoints" id.
Definition load_rule_checkpoint (id : string) (kv : Store) : option string := kv ≫= kv_get "rule_checkpoints" id.

(** ** Operations *)

Definition new_rule (now : Z) (d : RuleDefinition) (status : string) : ActiveRule :=
  mkActive d (set_status status (status_default now)) None counters_default [] (extract_dlq_capacity d).

Definition create_rule (now : Z) (d : RuleDefinition) (m : RuleManager) (kv : Store) : option string * RuleManager * Store :=
  if bool_decide (is_Some (rules m !! r_id d)) then (Some ("Rule " +:+ r_id d +:+ " already exists"), m, kv)
  else
    match persist_rule (r_id d) d "running" kv with
    | (Some e, kv) => (Some e, m, kv)
    | (None, kv) => (None, put_rule (r_id d) (new_rule now d "running") m, kv)
    end.

Definition get_rule (id : string) (m : RuleManager) : option RuleDefinition := a_def <$> rules m !! id.
Definition list_rules (m : RuleManager) : list RuleDefinition := map a_def (map_to_list (rules m)).*2.

(** A change of one rule: [status] is written with [d], and [f] changes the rule. *)
Definition change_rule (id : string) (d : ActiveRule -> RuleDefinition) (status : ActiveRule -> string)
    (f : ActiveRule -> RuleManager -> RuleManager) (m : RuleManager) (kv : Store) : option string * RuleManager * Store :=
  match rules m !! id with
  | None => (Some (not_found id), m, kv)
  | Some a =>
      match persist_rule id (d a) (status a) kv with
      | (Some e, kv) => (Some e, m, kv)
      | (None, kv) => (None, f a m, kv)
      end
  end.

(** The task of a running rule is aborted; the caller starts a new one. *)
Definition update_rule (d : RuleDefinition) (m : RuleManager) (kv : Store) : (string + bool) * RuleManager * Store :=
  let was_running := from_option is_running false (rules m !! r_id d) in
  let '(r, m', kv) :=
    change_rule (r_id d) (fun _ => d) (fun a => if is_running a then "running" else "stopped")
      (fun a m =>
         if is_running a then abort_task (a_handle a) (put_rule (r_id d) (with_handle None (with_def d a)) m)
         else put_rule (r_id d) (with_def d a) m) m kv in
  (match r with Some e => inl e | None => inr was_running end, m', kv).

(** [Vec::dedup]: of equal neighbours the last one. *)
Fixpoint dedup (l : list string) : list string :=
  match l with
  | x :: (y :: _) as l => if bool_decide (x = y) then dedup l else x :: dedup l
  | _ => l
  end.

(** Tags are kept sorted and distinct. *)
Definition sort_tags (tags : list string) : list string := dedup (merge_sort entry_leb (map (fun t => (t, tt)) tags)).*1.

Definition with_tags (tags : list string) (d : RuleDefinition) : RuleDefinition :=
  mkRule (r_id d) (r_name d) (r_version d) (r_sql d) (r_actions d) (r_options d) (r_graph d) tags.

Lemma elem_of_dedup x l : x ∈ dedup l <-> x ∈ l.
Proof.
  induction l as [|y [|z l] IH]; [done|done|]. cbn [dedup]. case_bool_decide as Hy.
  - rewrite IH. subst z. rewrite !elem_of_cons. tauto.
  - by rewrite !(elem_of_cons _ _ y), IH.
Qed.

Lemma elem_of_sort_tags x l : x ∈ sort_tags l <-> x ∈ l.
Proof.
  unfold sort_tags. rewrite elem_of_dedup, merge_sort_Permutation, <- list_fmap_compose, list_elem_of_fmap. split.
  - by intros (y & -> & Hy).
  - intros Hx. by exists x.
Qed.

Definition update_rule_tags (id : string) (update_fn : list string -> list string) (m : RuleManager) (kv : Store)
    : option string * RuleManager * Store :=
  let retag a := with_tags (sort_tags (update_fn (r_tags (a_def a)))) (a_def a) in
  change_rule id retag (fun a => st_status (a_status a)) (fun a m => put_rule id (with_def (retag a) a) m) m kv.

Definition start_rule (now : Z) (id : string) : RuleManager -> Store -> option string * RuleManager * Store :=
  change_rule id a_def (fun _ => "running") (fun a m => put_rule id (with_status (started now (a_status a)) a) m).

Definition stop_rule (now : Z) (id : string) : RuleManager -> Store -> option string * RuleManager * Store :=
  change_rule id a_def (fun _ => "stopped")
    (fun a m => abort_task (a_handle a)
       (put_rule id (with_handle None (with_status (stopped now "canceled manually" (a_status a)) a)) m)).

Definition restart_rule (now : Z) (id : string) : RuleManager -> Store -> option string * RuleManager * Store :=
  change_rule id a_def (fun _ => "running")
    (fun a m => abort_task (a_handle a) (put_rule id (with_handle None (with_status (started now (a_status a)) a)) m)).

Definition halt_rule_with_error (now : Z) (id error_msg : string) : RuleManager -> Store -> option string * RuleManager * Store :=
  change_rule id a_def (fun _ => "stopped")
    (fun a m =>
       let st := set_last_exception error_msg (stopped now ("halted on error: " +:+ error_msg) (a_status a)) in
       abort_task (a_handle a)
         (put_rule id (with_handle None (with_counters (record_exception error_msg (a_counters a)) (with_status st a))) m)).

(** A failure to delete the checkpoint is ignored. *)
Definition delete_rule (id : string) (m : RuleManager) (kv : Store) : option string * RuleManager * Store :=
  match rules m !! id with
  | None => (Some (not_found id), m, kv)
  | Some a =>
      match unpersist_rule id kv with
      | (Some e, kv) => (Some e, m, kv)
      | (None, kv) =>
          let kv := (delete_rule_checkpoint id kv).2 in
          (None, abort_task (a_handle a) (mkRules (delete id (rules m)) (aborted m)), kv)
      end
  end.

(** The task spawned for a rule: it is aborted when the rule is gone or no longer running,
    and replaces the task the rule had. *)
Definition set_rule_handle (id : string) (handle : nat) (m : RuleManager) : RuleManager :=
  match rules m !! id with
  | Some a =>
      if is_running a then abort_task (a_handle a) (put_rule id (with_handle (Some handle) a) m)
      else abort_task (Some handle) (put_rule id (with_handle None a) m)
  | None => abort_task (Some handle) m
  end.

(** ** Status, counters, dead letters *)

Definition get_rule_status (id : string) (m : RuleManager) : option RuleStatus * RuleManager :=
  match rules m !! id with
  | Some a => let s := sync_to (a_counters a) (a_status a) in (Some s, put_rule id (with_status s a) m)
  | None => (None, m)
  end.

(** [rule_status_handle], whose holder may write the status past the manager: nothing is
    persisted and the rule keeps its task. *)
Definition rule_status_handle (id : string) (m : RuleManager) : option RuleStatus := a_status <$> rules m !! id.

Definition write_status (id : string) (f : RuleStatus -> RuleStatus) (m : RuleManager) : RuleManager :=
  match rules m !! id with Some a => put_rule id (with_status (f (a_status a)) a) m | None => m end.

(** The one write of the server, when the configuration of a video source is refused. *)
Definition video_failed (e : string) (s : RuleStatus) : RuleStatus :=
  set_last_exception e (set_message ("Video source validation error: " +:+ e) (set_status "error" s)).

Definition fail_video_source (id e : string) (m : RuleManager) : RuleManager :=
  match rule_status_handle id m with Some _ => write_status id (video_failed e) m | None => m end.

Definition bump (id : string) (f : RuleCounters -> RuleCounters) (m : RuleManager) : RuleManager :=
  match rules m !! id with Some a => put_rule id (with_counters (f (a_counters a)) a) m | None => m end.

Definition rule_inc_exceptions (id : string) (count : Z) : RuleManager -> RuleManager := bump id (inc_exceptions count).
Definition rule_record_exception (id err : string) : RuleManager -> RuleManager := bump id (record_exception err).
Definition rule_inc_sink_failed (id : string) (count : Z) : RuleManager -> RuleManager := bump id (inc_sink_failed count).
Definition rule_inc_dropped (id : string) (count : Z) : RuleManager -> RuleManager := bump id (inc_dropped count).

(** The counters at zero; the last error stays. *)
Definition reset_counters (c : RuleCounters) : RuleCounters :=
  mkCounters 0 0 0 0 0 0 0 0 0 (last_exception c) 0 (replicate (length (dlq_stages c)) 0) 0
    (latency_reset (source_latency c)) (latency_reset (op_latency c)) (latency_reset (sink_latency c)).

Definition reset_rule_metrics (id : string) (m : RuleManager) : option string * RuleManager :=
  match rules m !! id with
  | Some a =>
      let c := reset_counters (a_counters a) in
      (None, put_rule id (with_status (sync_to c (a_status a)) (with_counters c a)) m)
  | None => (Some (not_found id), m)
  end.

Definition get_rule_dlq (id : string) (m : RuleManager) : option (list DlqEnvelope) := a_dlq <$> rules m !! id.

Definition clear_rule_dlq (id : string) (m : RuleManager) : (string + nat) * RuleManager :=
  match rules m !! id with
  | Some a => (inr (length (a_dlq a)), put_rule id (with_dlq [] a) m)
  | None => (inl (not_found id), m)
  end.

Definition get_rule_dlq_stats (id : string) (m : RuleManager) : option DlqStats :=
  (fun a =>
     let c := a_counters a in
     mkStats id (dlq_records c) (dlq_stage_records CodecDecode c) (dlq_stage_records SchemaValidation c)
       (dlq_stage_records SqlEval c) (dlq_stage_records DataTemplate c) (dlq_stage_records SinkDelivery c)
       (dlq_sink_failures c) (a_dlq a)) <$> rules m !! id.

(** ** Restart of the daemon *)

(** A rule that was not running is stopped. *)
Definition restored_status (status : string) : string := if bool_decide (status = "running") then "running" else "stopped".

Definition load_rules (now : Z) (s : Kv) (m : RuleManager) : RuleManager :=
  foldl (fun m e =>
    match of_json e.2 with
    | Some p => put_rule (r_id (p_def p)) (new_rule now (p_def p) (restored_status (p_status p))) m
    | None => m
    end) m (list_all "rules" s).
End rules.
