(* ===== verification/RuleManagerFacts.v ===== *)
(** * Facts about the managers

    The store holds what memory holds, whatever the storage answers, so a restart finds the
    rules again; and every task ever spawned for a rule is attached to a rule or has been
    aborted, but for a task that is replaced at a rule whose status was set to an error. *)

From Stdlib Require Import Ascii.
From stdpp Require Import countable.
From S2P Require Import Prelude Rust Json Counters Dlq Ast Engine Values SinkCache RecordLines Schema Kv Managers RuleManager.

Set Default Goal Selector "!".
#[local] Set Warnings "-register-all".

(** ** Operations as data *)

Inductive RuleOp :=
  | OpCreate (now : Z) (d : RuleDefinition)
  | OpUpdate (d : RuleDefinition)
  | OpTags (id : string) (f : list string -> list string)
  | OpStart (now : Z) (id : string)
  | OpStop (now : Z) (id : string)
  | OpRestart (now : Z) (id : string)
  | OpHalt (now : Z) (id msg : string)
  | OpDelete (id : string)
  | OpHandle (id : string) (task : nat)
  | OpStatus (id : string)
  | OpCount (id : string) (f : RuleCounters -> RuleCounters)
  | OpReset (id : string)
  | OpClearDlq (id : string)
  | OpVideoError (id e : string).

Section facts.
Context `{JsonText PersistedRule}.

Definition rule_op (op : RuleOp) (m : RuleManager) (kv : Store) : RuleManager * Store :=
  match op with
  | OpCreate now d => let '(_, m, kv) := create_rule now d m kv in (m, kv)
  | OpUpdate d => let '(_, m, kv) := update_rule d m kv in (m, kv)
  | OpTags id f => let '(_, m, kv) := update_rule_tags id f m kv in (m, kv)
  | OpStart now id => let '(_, m, kv) := start_rule now id m kv in (m, kv)
  | OpStop now id => let '(_, m, kv) := stop_rule now id m kv in (m, kv)
  | OpRestart now id => let '(_, m, kv) := restart_rule now id m kv in (m, kv)
  | OpHalt now id msg => let '(_, m, kv) := halt_rule_with_error now id msg m kv in (m, kv)
  | OpDelete id => let '(_, m, kv) := delete_rule id m kv in (m, kv)
  | OpHandle id task => (set_rule_handle id task m, kv)
  | OpStatus id => ((get_rule_status id m).2, kv)
  | OpCount id f => (bump id f m, kv)
  | OpReset id => ((reset_rule_metrics id m).2, kv)
  | OpClearDlq id => ((clear_rule_dlq id m).2, kv)
  | OpVideoError id e => (fail_video_source id e m, kv)
  end.

Definition rule_ops (ops : list RuleOp) (m : RuleManager) (kv : Store) : RuleManager * Store :=
  foldl (fun '(m, kv) op => rule_op op m kv) (m, kv) ops.

(** ** The store mirrors memory *)

(** The rules whose status was set to an error. *)
Definition failed_rule (op : RuleOp) : option string := match op with OpVideoError id _ => Some id | _ => None end.
Definition failed_rules (ops : list RuleOp) : list string := omap failed_rule ops.

Definition stored_as (status : string) (a : ActiveRule) : string := to_json (mkPersisted (a_def a) status).

Definition running_or_stopped (status : string) : Prop := status = "running" \/ status = "stopped".

(** The status that is stored is that of the rule, but for a rule whose status was set to an
    error past the store. *)
Definition persists (failed : list string) (id : string) (a : ActiveRule) (status : string) : Prop :=
  (st_status (a_status a) = status /\ running_or_stopped status) \/
  (st_status (a_status a) = "error" /\ id ∈ failed /\ (running_or_stopped status \/ status = "error")).

Definition entry_ok (failed : list string) (id : string) (entry : option string) (rule : option ActiveRule) : Prop :=
  match rule with
  | None => entry = None
  | Some a => r_id (a_def a) = id /\ exists status, entry = Some (stored_as status a) /\ persists failed id a status
  end.

Definition coherent (failed : list string) (m : RuleManager) (kv : Store) : Prop :=
  exists s, kv = Some s /\ forall id, entry_ok failed id (entries s !! ("rules", id)) (rules m !! id).

Lemma persists_more failed failed' id a status : failed ⊆ failed' -> persists failed id a status -> persists failed' id a status.
Proof. intros Hf [?|(? & ? & ?)]; [by left|right]. split_and!; [done|by apply Hf|done]. Qed.

Lemma coherent_more failed failed' m kv : failed ⊆ failed' -> coherent failed m kv -> coherent failed' m kv.
Proof.
  intros Hf (s & -> & Hm). exists s. split; [done|]. intros id. specialize (Hm id). unfold entry_ok in *. destruct (rules m !! id); [|done].
  destruct Hm as (Hid & status & He & Hp). split; [done|]. exists status. split; [done|]. by eapply persists_more.
Qed.

Lemma coherent_persist failed m kv id a status : coherent failed m kv -> r_id (a_def a) = id -> persists failed id a status ->
  let r := persist "rules" id (stored_as status a) kv in coherent failed (match r.1 with Some _ => m | None => put_rule id a m end) r.2.
Proof.
  intros (s & -> & Hm) Hid Hst. simpl. destruct (kv_set _ _ _ s) as [[e|] s'] eqn:Hs; simpl; exists s'; (split; [done|]); intros id'.
  - apply write_kv_failed in Hs. rewrite Hs. apply Hm.
  - apply write_kv_ok in Hs. rewrite Hs. simpl. destruct (decide (id = id')) as [<-|Hne].
    + rewrite !lookup_insert_eq. split; [done|]. by exists status.
    + rewrite !lookup_insert_ne by congruence. apply Hm.
Qed.

Lemma coherent_unpersist failed m kv id : coherent failed m kv ->
  let r := unpersist "rules" id kv in
  coherent failed (match r.1 with Some _ => m | None => mkRules (delete id (rules m)) (aborted m) end) r.2.
Proof.
  intros (s & -> & Hm). simpl. destruct (kv_delete _ _ s) as [[e|] s'] eqn:Hs; simpl; exists s'; (split; [done|]); intros id'.
  - apply write_kv_failed in Hs. rewrite Hs. apply Hm.
  - apply write_kv_ok in Hs. rewrite Hs. simpl.
    destruct (decide (id = id')) as [<-|Hne]; [by rewrite !lookup_delete_eq|]. rewrite !lookup_delete_ne by congruence. apply Hm.
Qed.

(** Checkpoints are written to another namespace. *)
Lemma coherent_checkpoint failed m kv id : coherent failed m kv -> coherent failed m (delete_rule_checkpoint id kv).2.
Proof.
  intros (s & -> & Hm). unfold delete_rule_checkpoint. simpl. destruct (kv_delete _ _ s) as [[e|] s'] eqn:Hs; simpl; exists s'; (split; [done|]); intros id'.
  - apply write_kv_failed in Hs. rewrite Hs. apply Hm.
  - apply write_kv_ok in Hs. rewrite Hs, lookup_delete_ne by done. apply Hm.
Qed.

Lemma coherent_rules failed m m' kv : rules m' = rules m -> coherent failed m kv -> coherent failed m' kv.
Proof. unfold coherent. by intros ->. Qed.

(** A rule whose definition stays and whose status is still what the store says. *)
Lemma coherent_update failed m kv id a a' : coherent failed m kv -> rules m !! id = Some a -> a_def a' = a_def a ->
  (forall status, persists failed id a status -> persists failed id a' status) -> coherent failed (put_rule id a' m) kv.
Proof.
  intros (s & -> & Hm) Ha Hd Hst. exists s. split; [done|]. intros id'. simpl. destruct (decide (id = id')) as [<-|Hne].
  - rewrite lookup_insert_eq. specialize (Hm id). rewrite Ha in Hm. destruct Hm as (Hid & status & He & Hp). split; [by rewrite Hd|].
    exists status. split; [by rewrite He; unfold stored_as; rewrite Hd|by apply Hst].
  - rewrite lookup_insert_ne by done. apply Hm.
Qed.

(** A rule whose definition and status stay. *)
Lemma coherent_quiet failed m kv id a a' : coherent failed m kv -> rules m !! id = Some a -> a_def a' = a_def a ->
  st_status (a_status a') = st_status (a_status a) -> coherent failed (put_rule id a' m) kv.
Proof. intros Hc Ha Hd Hst. apply (coherent_update failed m kv id a); [done..|]. unfold persists. by rewrite Hst. Qed.

Lemma coherent_change failed id d status f m kv : coherent failed m kv ->
  (forall a p, rules m !! id = Some a -> r_id (a_def a) = id -> persists failed id a p ->
     exists a', rules (f a m) = rules (put_rule id a' m) /\ r_id (a_def a') = id /\ a_def a' = d a /\ persists failed id a' (status a)) ->
  let '(_, m', kv') := change_rule id d status f m kv in coherent failed m' kv'.
Proof.
  intros Hc Hf. unfold change_rule. destruct (rules m !! id) as [a|] eqn:Ha; [|done].
  assert (Hok : r_id (a_def a) = id /\ exists p, persists failed id a p).
  { destruct Hc as (s & _ & Hm). specialize (Hm id). rewrite Ha in Hm. destruct Hm as (? & p & _ & ?). eauto. }
  destruct Hok as (Hid & p & Hp). destruct (Hf a p eq_refl Hid Hp) as (a' & Hr & Hid' & Hd & Hp').
  unfold persist_rule. rewrite <- Hd. pose proof (coherent_persist failed m kv id a' (status a) Hc Hid' Hp') as Hw. unfold stored_as in Hw.
  destruct (persist "rules" id _ kv) as [[e|] kv']; simpl in Hw; [done|]. by eapply coherent_rules.
Qed.

(** The status after a change is what was written. *)
Ltac put_status := unfold persists, running_or_stopped; match goal with |- context [a_status ?a] => destruct (a_status a) end; simpl; split_and!; auto.

Lemma update_coherent failed d m kv : coherent failed m kv -> let '(_, m', kv') := update_rule d m kv in coherent failed m' kv'.
Proof.
  intros Hc. unfold update_rule.
  match goal with |- context [change_rule ?i ?d' ?st ?f m kv] =>
    assert (Hp : let '(_, m', kv') := change_rule i d' st f m kv in coherent failed m' kv') end.
  { apply coherent_change; [done|]. intros a p _ Hid Hst.
    exists (if is_running a then with_handle None (with_def d a) else with_def d a). unfold persists, running_or_stopped in *. unfold is_running in *.
    case_bool_decide as Hr; split_and!; try done; cbn [a_status with_handle with_def]; [by auto|]. destruct Hst as [(<- & [?|?])|(? & ? & _)]; auto 6. done. }
  by destruct (change_rule _ _ _ _ m kv) as [[r m'] kv'].
Qed.

Lemma rule_op_coherent failed op m kv : coherent failed m kv ->
  let '(m', kv') := rule_op op m kv in coherent (option_list (failed_rule op) ++ failed) m' kv'.
Proof.
  intros Hc. destruct op as [now d|d|id f|now id|now id|now id|now id msg|id|id task|id|id f|id|id|id e]; simpl.
  - unfold create_rule. case_bool_decide; [done|]. unfold persist_rule.
    pose proof (coherent_persist failed m kv (r_id d) (new_rule now d "running") "running" Hc eq_refl) as Hp.
    unfold stored_as in Hp. cbn [a_def new_rule] in Hp.
    destruct (persist _ _ _ kv) as [[e|] kv']; apply Hp; left; (split; [done|by left]).
  - pose proof (update_coherent failed d m kv Hc) as Hp. by destruct (update_rule d m kv) as [[r m'] kv'].
  - assert (Hp : let '(_, m', kv') := update_rule_tags id f m kv in coherent failed m' kv').
    { apply coherent_change; [done|]. intros a p _ Hid Hst. exists (with_def (with_tags (sort_tags (f (r_tags (a_def a)))) (a_def a)) a).
      split_and!; [done|done|done|]. destruct Hst as [(Hs & ?)|(Hs & ? & _)]; [left; by rewrite <- Hs in *|right; auto]. }
    by destruct (update_rule_tags id f m kv) as [[r m'] kv'].
  - assert (Hp : let '(_, m', kv') := start_rule now id m kv in coherent failed m' kv').
    { apply coherent_change; [done|]. intros a p _ Hid _. exists (with_status (started now (a_status a)) a). put_status. }
    by destruct (start_rule now id m kv) as [[r m'] kv'].
  - assert (Hp : let '(_, m', kv') := stop_rule now id m kv in coherent failed m' kv').
    { apply coherent_change; [done|]. intros a p _ Hid _.
      exists (with_handle None (with_status (stopped now "canceled manually" (a_status a)) a)). put_status. }
    by destruct (stop_rule now id m kv) as [[r m'] kv'].
  - assert (Hp : let '(_, m', kv') := restart_rule now id m kv in coherent failed m' kv').
    { apply coherent_change; [done|]. intros a p _ Hid _. exists (with_handle None (with_status (started now (a_status a)) a)). put_status. }
    by destruct (restart_rule now id m kv) as [[r m'] kv'].
  - assert (Hp : let '(_, m', kv') := halt_rule_with_error now id msg m kv in coherent failed m' kv').
    { apply coherent_change; [done|]. intros a p _ Hid _.
      eexists (with_handle None (with_counters _ (with_status (set_last_exception msg (stopped now _ (a_status a))) a))).
      split; [reflexivity|]. put_status. }
    by destruct (halt_rule_with_error now id msg m kv) as [[r m'] kv'].
  - unfold delete_rule. destruct (rules m !! id) as [a|] eqn:Ha; [|done]. unfold unpersist_rule.
    pose proof (coherent_unpersist failed m kv id Hc) as Hp. destruct (unpersist "rules" id kv) as [[e|] kv']; simpl in Hp; [done|].
    by apply coherent_checkpoint.
  - unfold set_rule_handle. destruct (rules m !! id) as [a|] eqn:Ha; [|done].
    destruct (is_running a); eapply coherent_rules; try reflexivity; by apply (coherent_quiet failed m kv id a).
  - unfold get_rule_status. destruct (rules m !! id) as [a|] eqn:Ha; [|done]. by apply (coherent_quiet failed m kv id a).
  - unfold bump. destruct (rules m !! id) as [a|] eqn:Ha; [|done]. by apply (coherent_quiet failed m kv id a).
  - unfold reset_rule_metrics. destruct (rules m !! id) as [a|] eqn:Ha; [|done]. by apply (coherent_quiet failed m kv id a).
  - unfold clear_rule_dlq. destruct (rules m !! id) as [a|] eqn:Ha; [|done]. by apply (coherent_quiet failed m kv id a).
  - apply (coherent_more _ (id :: failed)) in Hc; [|set_solver]. unfold fail_video_source, rule_status_handle, write_status.
    destruct (rules m !! id) as [a|] eqn:Ha; [|done]. simpl. apply (coherent_update _ m kv id a); [done..|].
    intros status Hst. right. split_and!; [by destruct (a_status a)|by left|]. destruct Hst as [(_ & ?)|(_ & _ & ?)]; auto.
Qed.

Lemma rule_ops_coherent ops : forall failed m kv, coherent failed m kv ->
  let '(m', kv') := rule_ops ops m kv in exists failed', coherent failed' m' kv' /\ forall id, id ∈ failed' -> id ∈ failed_rules ops ++ failed.
Proof.
  unfold rule_ops, failed_rules. induction ops as [|op ops IH]; intros failed m kv Hc; [by exists failed|]. cbn [foldl].
  pose proof (rule_op_coherent failed op m kv Hc) as Hp. destruct (rule_op op m kv) as [m' kv']. specialize (IH _ m' kv' Hp).
  destruct (foldl _ _ ops) as [m2 kv2]. destruct IH as (failed' & ? & Hf). exists failed'. split; [done|]. intros id Hid%Hf.
  simpl. destruct (failed_rule op); simpl in *; set_solver.
Qed.
(** ** Restart *)

(** Entries of distinct rules, each written from the definition of the rule of its key. *)
Lemma load_entries `{!JsonTextOk PersistedRule} now (stored : gmap string PersistedRule) l : forall m : RuleManager,
  (forall id p, stored !! id = Some p -> r_id (p_def p) = id) ->
  (forall e, e ∈ l -> to_json <$> stored !! e.1 = Some e.2) ->
  forall id, rules (foldl (fun m e =>
    match of_json e.2 with
    | Some p => put_rule (r_id (p_def p)) (new_rule now (p_def p) (restored_status (p_status p))) m
    | None => m
    end) m l) !! id = if bool_decide (id ∈ l.*1) then (fun p => new_rule now (p_def p) (restored_status (p_status p))) <$> stored !! id else rules m !! id.
Proof.
  induction l as [|[k v] l IH]; intros m Hid Hl id; [done|]. simpl.
  pose proof (Hl (k, v) (list_elem_of_here _ _)) as Hk. apply fmap_Some in Hk as (p & Hp & Hv). simpl in Hp, Hv. subst v.
  rewrite of_to_json. rewrite IH; [|done|intros e He; apply Hl; by apply list_elem_of_further].
  rewrite (Hid k p Hp). simpl. destruct (decide (id ∈ l.*1)) as [Hin|Hni].
  - rewrite !bool_decide_eq_true_2; [done|by apply list_elem_of_further|done].
  - rewrite (bool_decide_eq_false_2 _ Hni). destruct (decide (k = id)) as [<-|Hne].
    + rewrite bool_decide_eq_true_2 by apply list_elem_of_here. by rewrite lookup_insert_eq, Hp.
    + rewrite bool_decide_eq_false_2; [by rewrite lookup_insert_ne|]. intros Hin. apply elem_of_cons in Hin as [Hin|Hin]; [by apply Hne|done].
Qed.

(** C5. After any operations on the rules, whatever the storage answers to the writes, a daemon
    that restarts from the store finds exactly the rules that were in memory, each with its
    definition and with the status it had, running or stopped; a rule whose status was set to
    an error, past the store, is found running or stopped. *)
Theorem restart_restores_rules `{!JsonTextOk PersistedRule} ops now s : (forall id, entries s !! ("rules", id) = None) ->
  let '(m, kv) := rule_ops ops rules_new (Some s) in
  exists s', kv = Some s' /\
    forall id, match rules m !! id with
      | None => rules (load_rules now s' rules_new) !! id = None
      | Some a => exists status, rules (load_rules now s' rules_new) !! id = Some (new_rule now (a_def a) status) /\ running_or_stopped status /\
          (st_status (a_status a) = status \/ (st_status (a_status a) = "error" /\ id ∈ failed_rules ops))
      end.
Proof.
  intros Hs. assert (Hc : coherent [] rules_new (Some s)) by (exists s; split; [done|]; intros id; apply Hs).
  pose proof (rule_ops_coherent ops [] rules_new (Some s) Hc) as Hp. destruct (rule_ops ops rules_new (Some s)) as [m kv].
  destruct Hp as (failed & (s' & -> & Hm) & Hf). exists s'. split; [done|]. intros id.

  set (stored := map_imap (fun id (_ : ActiveRule) => entries s' !! ("rules", id) ≫= of_json) (rules m)).
  assert (Hst : forall id a, rules m !! id = Some a -> exists status, entries s' !! ("rules", id) = Some (to_json (mkPersisted (a_def a) status)) /\
    stored !! id = Some (mkPersisted (a_def a) status) /\ r_id (a_def a) = id /\ persists failed id a status).
  { intros id' a Ha. specialize (Hm id'). rewrite Ha in Hm. destruct Hm as (Hid & status & He & Hp). exists status.
    split_and!; [exact He| |done|done]. unfold stored. rewrite map_lookup_imap, Ha. simpl. rewrite He. simpl. unfold stored_as. by rewrite of_to_json. }
  assert (Hnone : forall id, rules m !! id = None -> stored !! id = None) by (intros id' Ha; unfold stored; by rewrite map_lookup_imap, Ha).
  unfold load_rules. rewrite (load_entries now stored).
  - destruct (rules m !! id) as [a|] eqn:Ha.
    + destruct (Hst _ _ Ha) as (status & He & -> & _ & Hp). rewrite bool_decide_eq_true_2.
      2: { apply list_elem_of_fmap. exists (id, to_json (mkPersisted (a_def a) status)). split; [done|by apply elem_of_list_all]. }
      simpl. exists (restored_status status). split; [done|]. unfold restored_status, running_or_stopped. split; [case_bool_decide; auto|].
      destruct Hp as [(-> & [->| ->])|(Herr & Hin & _)]; [by left|by left|right]. split; [done|].
      apply Hf in Hin. by rewrite app_nil_r in Hin.
    + rewrite (Hnone _ Ha). by case_bool_decide.
  - intros id' p Hp. destruct (rules m !! id') as [a|] eqn:Ha; [|by rewrite Hnone in Hp]. destruct (Hst _ _ Ha) as (status & _ & He & Hid & _).
    rewrite He in Hp. by injection Hp as <-.
  - intros [k v] Hin. apply elem_of_list_all in Hin. simpl. specialize (Hm k). destruct (rules m !! k) as [a|] eqn:Ha; [|simpl in Hm; congruence].
    destruct (Hst _ _ Ha) as (status & He & -> & _). simpl. congruence.
Qed.

(** ** Tasks *)

Definition attached (m : RuleManager) : list nat := omap a_handle (map_to_list (rules m)).*2.

(** The tasks an operation is given. *)
Definition given (op : RuleOp) : list nat := match op with OpHandle _ task => [task] | _ => [] end.

(** A task that a rule had without running, when it is given another: nothing aborts it. *)
Definition detached (op : RuleOp) (m : RuleManager) : list nat :=
  match op with
  | OpHandle id _ => from_option (fun a => if is_running a then [] else option_list (a_handle a)) [] (rules m !! id)
  | _ => []
  end.

Fixpoint detached_by (ops : list RuleOp) (m : RuleManager) (kv : Store) : list nat :=
  match ops with
  | [] => []
  | op :: ops => let '(m', kv') := rule_op op m kv in detached op m ++ detached_by ops m' kv'
  end.

(** Only rules that run or whose status was set to an error have a task. *)
Definition task_ok (failed : list string) (id : string) (a : ActiveRule) : Prop :=
  is_running a = false -> a_handle a = None \/ (st_status (a_status a) = "error" /\ id ∈ failed).
Definition tasks_ok (failed : list string) (m : RuleManager) : Prop := map_Forall (task_ok failed) (rules m).

Lemma omap_handles_perm (l l' : list (string * ActiveRule)) : l ≡ₚ l' -> omap a_handle l.*2 ≡ₚ omap a_handle l'.*2.
Proof. intros Hl. by rewrite Hl. Qed.

Lemma attached_insert m id a : rules m !! id = None -> attached (put_rule id a m) ≡ₚ option_list (a_handle a) ++ attached m.
Proof.
  intros Hid. unfold attached. simpl. rewrite (omap_handles_perm _ _ (map_to_list_insert (rules m) id a Hid)). simpl.
  by destruct (a_handle a).
Qed.

Lemma attached_delete m id a : rules m !! id = Some a ->
  attached m ≡ₚ option_list (a_handle a) ++ attached (mkRules (delete id (rules m)) (aborted m)).
Proof.
  intros Ha. unfold attached. simpl. rewrite <- (omap_handles_perm _ _ (map_to_list_delete (rules m) id a Ha)). simpl.
  by destruct (a_handle a).
Qed.

Lemma attached_put m id a a' : rules m !! id = Some a ->
  option_list (a_handle a) ++ attached (put_rule id a' m) ≡ₚ option_list (a_handle a') ++ attached m.
Proof.
  intros Ha. pose proof (attached_delete m id a Ha) as Hd.
  pose proof (attached_insert (mkRules (delete id (rules m)) (aborted m)) id a' (lookup_delete_eq _ _)) as Hi.
  assert (Hp : attached (put_rule id a' m) = attached (put_rule id a' (mkRules (delete id (rules m)) (aborted m)))).
  { unfold attached. simpl. by rewrite insert_delete_eq. }
  rewrite Hp, Hi, Hd, !app_assoc. f_equiv. apply Permutation_app_comm.
Qed.

(** Every task is attached to a rule or has been aborted. *)
Definition all_tasks (m : RuleManager) : list nat := attached m ++ aborted m.

(** A rule keeps its task, gives it up to be aborted, or takes a new one. *)
Lemma tasks_put m id a a' h g : rules m !! id = Some a ->
  option_list (a_handle a') ++ option_list h ≡ₚ option_list (a_handle a) ++ g ->
  all_tasks (abort_task h (put_rule id a' m)) ≡ₚ g ++ all_tasks m.
Proof.
  intros Ha Hh. pose proof (attached_put m id a a' Ha) as Hp. unfold all_tasks. simpl.
  change (attached (abort_task h (put_rule id a' m))) with (attached (put_rule id a' m)).
  apply (Permutation_app_inv_l (option_list (a_handle a))).
  rewrite !app_assoc, Hp, <- Hh, <- !app_assoc. f_equiv. rewrite (Permutation_app_comm (option_list h)), <- app_assoc. f_equiv.
Qed.

Lemma tasks_keep m id a a' : rules m !! id = Some a -> a_handle a' = a_handle a -> all_tasks (put_rule id a' m) ≡ₚ all_tasks m.
Proof.
  intros Ha Hh. rewrite <- (tasks_put m id a a' None [] Ha) by by rewrite Hh.
  unfold all_tasks. simpl. by rewrite app_nil_r.
Qed.

Lemma tasks_change failed id d status f m kv :
  tasks_ok failed m ->
  (forall a, rules m !! id = Some a -> task_ok failed id a -> tasks_ok failed (f a m) /\ all_tasks (f a m) ≡ₚ all_tasks m) ->
  let '(_, m', _) := change_rule id d status f m kv in tasks_ok failed m' /\ all_tasks m' ≡ₚ all_tasks m.
Proof.
  intros Hok Hf. unfold change_rule. destruct (rules m !! id) as [a|] eqn:Ha; [|done]. unfold persist_rule.
  destruct (persist _ _ _ kv) as [[e|] kv']; [done|]. apply Hf; [done|]. exact (Hok id a Ha).
Qed.

Lemma tasks_ok_put failed m id a h : tasks_ok failed m -> task_ok failed id a -> tasks_ok failed (abort_task h (put_rule id a m)).
Proof. intros Hok Ha. by apply map_Forall_insert_2. Qed.

Lemma tasks_ok_more failed failed' m : failed ⊆ failed' -> tasks_ok failed m -> tasks_ok failed' m.
Proof. intros Hf Hok id a Ha Hr. destruct (Hok id a Ha Hr) as [?|[? ?]]; [by left|right]. split; [done|by apply Hf]. Qed.

(** The rule gives up its task. *)
Lemma tasks_release failed m id a a' : tasks_ok failed m -> rules m !! id = Some a -> a_handle a' = None ->
  tasks_ok failed (abort_task (a_handle a) (put_rule id a' m)) /\ all_tasks (abort_task (a_handle a) (put_rule id a' m)) ≡ₚ all_tasks m.
Proof.
  intros Hok Ha Hh. split; [apply tasks_ok_put; [done|]; by left|]. apply (tasks_put m id a a' _ [] Ha). by rewrite Hh, app_nil_r.
Qed.

(** The rule keeps its task. *)
Lemma tasks_retain failed m id a a' : tasks_ok failed m -> rules m !! id = Some a -> a_handle a' = a_handle a ->
  task_ok failed id a' -> tasks_ok failed (put_rule id a' m) /\ all_tasks (put_rule id a' m) ≡ₚ all_tasks m.
Proof. intros Hok Ha Hh Hr. split; [|by apply (tasks_keep m id a)]. by apply (tasks_ok_put failed m id a' None). Qed.

(** The rule keeps its task and its status. *)
Lemma tasks_quiet failed m id a a' : tasks_ok failed m -> rules m !! id = Some a -> a_handle a' = a_handle a ->
  st_status (a_status a') = st_status (a_status a) -> tasks_ok failed (put_rule id a' m) /\ all_tasks (put_rule id a' m) ≡ₚ all_tasks m.
Proof.
  intros Hok Ha Hh Hs. apply (tasks_retain _ m id a); [done..|]. pose proof (Hok id a Ha) as Ht. unfold task_ok, is_running in *. by rewrite Hh, Hs.
Qed.

Lemma started_running a now : is_running (with_status (started now (a_status a)) a) = true.
Proof. unfold is_running. by destruct (a_status a). Qed.

Lemma video_failed_error e a : st_status (video_failed e (a_status a)) = "error".
Proof. by destruct (a_status a). Qed.

Lemma rule_op_tasks failed op m kv : tasks_ok failed m ->
  let '(m', _) := rule_op op m kv in
  tasks_ok (option_list (failed_rule op) ++ failed) m' /\ all_tasks m' ++ detached op m ≡ₚ given op ++ all_tasks m.
Proof.
  intros Hok. destruct op as [now d|d|id f|now id|now id|now id|now id msg|id|id task|id|id f|id|id|id e]; simpl; rewrite ?app_nil_r.
  - unfold create_rule. case_bool_decide as Hn; [by rewrite app_nil_r|]. destruct (persist_rule _ _ _ kv) as [[e|] kv']; rewrite app_nil_r; [done|].
    split; [by apply (tasks_ok_put _ m _ _ None)|]. unfold all_tasks. rewrite attached_insert; [done|]. by apply eq_None_not_Some.
  - assert (Hp : let '(_, m', _) := update_rule d m kv in tasks_ok failed m' /\ all_tasks m' ≡ₚ all_tasks m).
    { unfold update_rule.
      match goal with |- context [change_rule ?i ?d' ?st ?f m kv] =>
        assert (Hp : let '(_, m', _) := change_rule i d' st f m kv in tasks_ok failed m' /\ all_tasks m' ≡ₚ all_tasks m) end.
      { apply tasks_change; [done|]. intros a Ha Hr. destruct (is_running a) eqn:Hrun; [by apply tasks_release|by apply (tasks_quiet _ m _ a)]. }
      by destruct (change_rule _ _ _ _ m kv) as [[r m'] kv']. }
    destruct (update_rule d m kv) as [[r m'] kv']. by rewrite app_nil_r.
  - assert (Hp : let '(_, m', _) := update_rule_tags id f m kv in tasks_ok failed m' /\ all_tasks m' ≡ₚ all_tasks m).
    { apply tasks_change; [done|]. intros a Ha Hr. by apply (tasks_quiet _ m _ a). }
    destruct (update_rule_tags id f m kv) as [[r m'] kv']. by rewrite app_nil_r.
  - assert (Hp : let '(_, m', _) := start_rule now id m kv in tasks_ok failed m' /\ all_tasks m' ≡ₚ all_tasks m).
    { apply tasks_change; [done|]. intros a Ha Hr. apply (tasks_retain _ m _ a); [done..|]. unfold task_ok. by rewrite started_running. }
    destruct (start_rule now id m kv) as [[r m'] kv']. by rewrite app_nil_r.
  - assert (Hp : let '(_, m', _) := stop_rule now id m kv in tasks_ok failed m' /\ all_tasks m' ≡ₚ all_tasks m).
    { apply tasks_change; [done|]. intros a Ha Hr. by apply tasks_release. }
    destruct (stop_rule now id m kv) as [[r m'] kv']. by rewrite app_nil_r.
  - assert (Hp : let '(_, m', _) := restart_rule now id m kv in tasks_ok failed m' /\ all_tasks m' ≡ₚ all_tasks m).
    { apply tasks_change; [done|]. intros a Ha Hr. by apply tasks_release. }
    destruct (restart_rule now id m kv) as [[r m'] kv']. by rewrite app_nil_r.
  - assert (Hp : let '(_, m', _) := halt_rule_with_error now id msg m kv in tasks_ok failed m' /\ all_tasks m' ≡ₚ all_tasks m).
    { apply tasks_change; [done|]. intros a Ha Hr. by apply tasks_release. }
    destruct (halt_rule_with_error now id msg m kv) as [[r m'] kv']. by rewrite app_nil_r.
  - unfold delete_rule. destruct (rules m !! id) as [a|] eqn:Ha; [|by rewrite app_nil_r]. destruct (unpersist_rule id kv) as [[e|] kv']; rewrite app_nil_r; [done|].
    split; [by apply map_Forall_delete|]. unfold all_tasks. simpl. rewrite (attached_delete m id a Ha).
    change (attached (abort_task (a_handle a) (mkRules (delete id (rules m)) (aborted m)))) with (attached (mkRules (delete id (rules m)) (aborted m))).
    rewrite <- app_assoc, (app_assoc (attached _)). apply Permutation_app_comm.
  - unfold set_rule_handle. destruct (rules m !! id) as [a|] eqn:Ha; simpl.
    + destruct (is_running a) eqn:Hr.
      * rewrite app_nil_r. split; [apply tasks_ok_put; [done|]; intros Hf; change (is_running a = false) in Hf; congruence|].
        apply (tasks_put m id a _ _ [task] Ha). apply Permutation_app_comm.
      * split; [apply tasks_ok_put; [done|]; by left|]. pose proof (attached_put m id a (with_handle None a) Ha) as Hp. unfold all_tasks. simpl in *.
        change (attached (abort_task (Some task) (put_rule id (with_handle None a) m))) with (attached (put_rule id (with_handle None a) m)).
        rewrite Permutation_app_comm, app_assoc, Hp, app_assoc. symmetry. apply Permutation_cons_append.
    + split; [done|]. rewrite app_nil_r. unfold all_tasks. simpl. change (attached (abort_task (Some task) m)) with (attached m).
      rewrite app_assoc. symmetry. apply Permutation_cons_append.
  - unfold get_rule_status. destruct (rules m !! id) as [a|] eqn:Ha; [|done]. by apply (tasks_quiet _ m id a).
  - unfold bump. destruct (rules m !! id) as [a|] eqn:Ha; [|done]. by apply (tasks_quiet _ m id a).
  - unfold reset_rule_metrics. destruct (rules m !! id) as [a|] eqn:Ha; [|done]. by apply (tasks_quiet _ m id a).
  - unfold clear_rule_dlq. destruct (rules m !! id) as [a|] eqn:Ha; [|done]. by apply (tasks_quiet _ m id a).
  - apply (tasks_ok_more _ (id :: failed)) in Hok; [|set_solver]. unfold fail_video_source, rule_status_handle, write_status.
    destruct (rules m !! id) as [a|] eqn:Ha; [|done]. simpl. apply (tasks_retain _ m id a); [done..|]. intros _. right.
    split; [apply video_failed_error|by left].
Qed.

(** C6. Whatever operations run on the rules, and whether the storage takes their writes or not:
    every task ever spawned for a rule is attached to exactly one rule or has been aborted,
    or was replaced at a rule that had it without running; and a rule that is not running
    has no task, unless its status was set to an error past the manager (when a video
    source is refused), which leaves the task attached.  So as long as no video source is
    refused, every task is attached or aborted and only running rules have one. *)
Theorem rule_tasks_accounted ops kv :
  let '(m, _) := rule_ops ops rules_new kv in
  all_tasks m ++ detached_by ops rules_new kv ≡ₚ flat_map given ops /\
  (forall id a, rules m !! id = Some a -> is_running a = false ->
     a_handle a = None \/ (st_status (a_status a) = "error" /\ id ∈ failed_rules ops)) /\
  (failed_rules ops = [] -> detached_by ops rules_new kv = []).
Proof.
  assert (Hall : forall failed m kv, tasks_ok failed m ->
    let '(m', _) := rule_ops ops m kv in
    all_tasks m' ++ detached_by ops m kv ≡ₚ flat_map given ops ++ all_tasks m /\
    (exists failed', tasks_ok failed' m' /\ forall id, id ∈ failed' -> id ∈ failed_rules ops ++ failed) /\
    (failed = [] -> failed_rules ops = [] -> detached_by ops m kv = [])).
  { unfold rule_ops, failed_rules. clear kv. induction ops as [|op ops IH]; intros failed m kv Hok; [simpl; rewrite app_nil_r; eauto|]. cbn [foldl detached_by].
    pose proof (rule_op_tasks failed op m kv Hok) as Hp. destruct (rule_op op m kv) as [m1 kv1]. destruct Hp as [Hok1 Hp].
    specialize (IH _ m1 kv1 Hok1). destruct (foldl _ _ ops) as [m2 kv2]. destruct IH as (IH & (failed' & Hok2 & Hf) & Hd). split_and!.
    - rewrite (Permutation_app_comm (detached op m)), app_assoc, IH, <- app_assoc, Hp. simpl.
      rewrite !app_assoc. f_equiv. apply Permutation_app_comm.
    - exists failed'. split; [done|]. intros id Hid%Hf. simpl. destruct (failed_rule op); simpl in *; set_solver.
    - intros -> Hno. simpl in Hno. destruct (failed_rule op) as [id|]; [done|]. rewrite Hd by done. rewrite app_nil_r.
      destruct op as [| | | | | | | |id task| | | | |]; try done. simpl. destruct (rules m !! id) as [a|] eqn:Ha; [|done]. simpl.
      destruct (is_running a) eqn:Hr; [done|]. destruct (Hok id a Ha Hr) as [->|[_ Hin]]; [done|by apply elem_of_nil in Hin]. }
  specialize (Hall [] rules_new kv). destruct (rule_ops ops rules_new kv) as [m kv'].
  destruct Hall as (Hp & (failed' & Hok & Hf) & Hd); [by apply map_Forall_empty|]. split_and!; [| |by apply Hd].
  - rewrite Hp. unfold all_tasks, attached. simpl. by rewrite map_to_list_empty, !app_nil_r.
  - intros id a Ha Hr. destruct (Hok id a Ha Hr) as [?|[? Hin%Hf]]; [by left|right]. by rewrite app_nil_r in Hin.
Qed.
End facts.

(** ** Lookup tables *)

Lemma length_prune n rows : 0 <= n -> Z.of_nat (length (prune n rows)) <= n.
Proof. intros Hn. unfold prune. rewrite length_drop. lia. Qed.

Lemma prune_lastn n rows : 0 <= n -> prune n rows = lastn (Z.to_nat n) rows.
Proof. intros Hn. unfold prune, lastn. f_equal. lia. Qed.

Lemma max_rows_nonneg d : 0 <= max_rows d.
Proof.
  unfold max_rows, retain_size. destruct ((d ≫= _) ≫= parse_u64) as [n|] eqn:Hr; simpl.
  - apply bind_Some in Hr as (t & _ & Ht). apply parse_u64_range in Ht. lia.
  - case_bool_decide; unfold u64_max; lia.
Qed.

(** A table never holds more rows than it retains. *)
Lemma insert_row_bounded d r rows :
  Z.of_nat (length rows) <= max_rows d -> Z.of_nat (length (insert_row d r rows)) <= max_rows d.
Proof.
  intros Hl. unfold insert_row. destruct (key_column d ≫= _) as [pos|]; [by rewrite length_insert|].
  apply length_prune, max_rows_nonneg.
Qed.

Lemma lastn_app {A} n (l l' : list A) : lastn n (lastn n l ++ l') = lastn n (l ++ l').
Proof.
  unfold lastn at 1 3. rewrite !length_app. unfold lastn. rewrite length_drop.
  rewrite <- drop_app_le by lia. rewrite drop_drop. f_equal. lia.
Qed.

(** Without a key column a table holds the most recent rows, in their order. *)
Lemma unkeyed_table_recent d rows rows0 : key_column d = None -> rows <> [] ->
  foldl (fun rows r => insert_row d r rows) rows0 rows = lastn (Z.to_nat (max_rows d)) (rows0 ++ rows).
Proof.
  intros Hk. revert rows0. induction rows as [|r rows IH]; intros rows0 Hne; [done|]. simpl. unfold insert_row at 2. rewrite Hk. simpl.
  rewrite prune_lastn by apply max_rows_nonneg. destruct rows as [|r' rows]; [done|].
  rewrite IH by done. rewrite lastn_app, <- app_assoc. done.
Qed.

(** ** Samples *)

#[export] Instance StreamField_eq_dec : EqDecision StreamField.
Proof. solve_decision. Defined.
#[export] Instance GraphNode_eq_dec : EqDecision GraphNode.
Proof. solve_decision. Defined.
#[export] Program Instance GraphNode_countable : Countable GraphNode :=
  inj_countable' (fun n => (node_category n, node_type n, node_props n)) (fun x => mkNode x.1.1 x.1.2 x.2) _.
Next Obligation. by intros []. Qed.
#[export] Instance GraphTopo_eq_dec : EqDecision GraphTopo.
Proof. solve_decision. Defined.
#[export] Program Instance GraphTopo_countable : Countable GraphTopo :=
  inj_countable' (fun t => (topo_sources t, topo_edges t)) (fun x => mkTopo x.1 x.2) _.
Next Obligation. by intros []. Qed.
#[export] Instance GraphDefinition_eq_dec : EqDecision GraphDefinition.
Proof. solve_decision. Defined.
#[export] Program Instance GraphDefinition_countable : Countable GraphDefinition :=
  inj_countable' (fun g => (graph_nodes g, graph_topo g)) (fun x => mkGraph x.1 x.2) _.
Next Obligation. by intros []. Qed.
#[export] Instance RuleDefinition_eq_dec : EqDecision RuleDefinition.
Proof. solve_decision. Defined.
#[export] Program Instance RuleDefinition_countable : Countable RuleDefinition :=
  inj_countable' (fun r => (r_id r, r_name r, r_version r, r_sql r, (r_actions r, r_options r, r_graph r, r_tags r)))
    (fun x => let '(i, n, v, s, (a, o, g, t)) := x in mkRule i n v s a o g t) _.
Next Obligation. by intros []. Qed.
#[export] Instance PersistedRule_eq_dec : EqDecision PersistedRule.
Proof. solve_decision. Defined.
#[export] Program Instance PersistedRule_countable : Countable PersistedRule :=
  inj_countable' (fun p => (p_def p, p_status p)) (fun x => mkPersisted x.1 x.2) _.
Next Obligation. by intros []. Qed.

(** Binary digits are a text that reads back. *)
Definition binary_text {A} `{Countable A} : JsonText A := {|
  to_json := fun a => of_chars (digits_of (encode a));
  of_json := fun s => decode (of_digits (chars s));
|}.

Lemma binary_text_ok {A} `{Countable A} : @JsonTextOk A binary_text.
Proof. intros a. simpl. by rewrite chars_of_chars, of_digits_of, decode_encode. Qed.

Module RuleSample.
#[export] Instance rule_text : JsonText PersistedRule := binary_text.
#[export] Instance rule_text_ok : JsonTextOk PersistedRule := binary_text_ok.

Definition rule (id : string) : RuleDefinition := mkRule id None None "SELECT * FROM demo" [{["log" := VObject []]}] None None [].

(** The storage takes the first rule, refuses the second, and takes the stop. *)
Definition failing : Kv := mkKv ∅ [None; Some "disk full"; None].
Definition ops : list RuleOp := [OpCreate 1 (rule "a"); OpHandle "a" 7; OpCreate 2 (rule "b"); OpHandle "b" 8; OpStop 3 "a"].

(** A rule that is started again shows the error of its last run as its message, and so does
    one that was stopped. *)
Example message_of_old_error :
  let m := (rule_ops [OpCreate 1 (rule "a"); OpHalt 2 "a" "bad row"; OpStart 3 "a"] rules_new None).1 in
  (fun s => (st_status s, st_message s)) <$> (get_rule_status "a" m).1 = Some ("running", "bad row") /\
  (fun a => (st_status (a_status a), st_message (a_status a))) <$> rules m !! "a" = Some ("running", "").
Proof. split; vm_compute; reflexivity. Qed.
End RuleSample.
Import RuleSample.

Lemma restart_restores_rules_witness :
  let m := (rule_ops ops rules_new (Some failing)).1 in
  (forall id, entries failing !! ("rules", id) = None) /\
  exists s', (rule_ops ops rules_new (Some failing)).2 = Some s' /\
    match rules m !! "a" with
    | None => rules (load_rules 9 s' rules_new) !! "a" = None
    | Some a => exists status, rules (load_rules 9 s' rules_new) !! "a" = Some (new_rule 9 (a_def a) status) /\ running_or_stopped status /\
        (st_status (a_status a) = status \/ (st_status (a_status a) = "error" /\ "a" ∈ failed_rules ops))
    end.
Proof.
  intros m. split; [done|]. pose proof (restart_restores_rules ops 9 failing (fun id => eq_refl)) as Hr. unfold m.
  destruct (rule_ops ops rules_new (Some failing)) as [m' kv]. destruct Hr as (s' & Hs & Hl). exists s'. split; [exact Hs|exact (Hl "a")].
Defined.

(** A rule whose video source is refused has its task attached and is found running after a
    restart; when it is stopped its task is aborted, when it is given another one without
    being started the first is forgotten. *)
Definition refused : list RuleOp := [OpCreate 1 (rule "a"); OpHandle "a" 7; OpVideoError "a" "no url"].
Definition state_of (ops : list RuleOp) : option (string * string * option nat) * list nat :=
  let m := (rule_ops ops rules_new (Some (mkKv ∅ []))).1 in
  ((fun a => (st_status (a_status a), st_message (a_status a), a_handle a)) <$> rules m !! "a", aborted m).

Example refused_video_keeps_task :
  state_of refused = (Some ("error", "Video source validation error: no url", Some 7%nat), []) /\
  state_of (refused ++ [OpStop 2 "a"]) = (Some ("stopped", "canceled manually", None), [7%nat]) /\
  state_of (refused ++ [OpStart 2 "a"; OpHandle "a" 8]) = (Some ("running", "", Some 8%nat), [7%nat]) /\
  state_of (refused ++ [OpHandle "a" 8]) = (Some ("error", "Video source validation error: no url", None), [8%nat]) /\
  detached_by (refused ++ [OpHandle "a" 8]) rules_new (Some (mkKv ∅ [])) = [7%nat] /\
  (let '(_, kv) := rule_ops refused rules_new (Some (mkKv ∅ [])) in
   (kv ≫= fun s => (fun a => st_status (a_status a)) <$> rules (load_rules 9 s rules_new) !! "a") = Some "running").
Proof. vm_compute. split_and!; reflexivity. Qed.

Example stopped_rule_restored :
  let '(m, kv) := rule_ops ops rules_new (Some failing) in
  (fun a => st_status (a_status a)) <$> rules m !! "a" = Some "stopped" /\ rules m !! "b" = None /\ aborted m = [8; 7]%nat.
Proof. vm_compute. split_and!; reflexivity. Qed.
