(* ===== verification/Manifest.v ===== *)
(** * Declarative manifests ([crates/rekuiper-core/src/model.rs])

    A manifest declares connections, schemas, streams, tables and rules.  It is read from a
    file, or merged from the files of a directory, after the environment variables in its
    text have been replaced. *)

From Stdlib Require Import Ascii.
From S2P Require Import Prelude Rust Characters Json Counters Dlq Ast Engine Schema Kv Managers.

Set Default Goal Selector "!".

(** ** Diagnostics *)

Inductive DiagnosticLevel := LevelError | LevelWarning.

#[global] Instance DiagnosticLevel_eq_dec : EqDecision DiagnosticLevel.
Proof. solve_decision. Defined.

Record ValidationDiagnostic := mkDiag { level : DiagnosticLevel; entity_type : string; entity_id : string; message : string }.

Definition error_in (entity id msg : string) : ValidationDiagnostic := mkDiag LevelError entity id msg.
Definition is_error (d : ValidationDiagnostic) : bool := bool_decide (level d = LevelError).

(** The marks are a cross and a warning sign, in UTF-8. *)
Definition mark (l : DiagnosticLevel) : string :=
  match l with
  | LevelError => of_chars (map ascii_of_N [226; 156; 151]%N)
  | LevelWarning => of_chars (map ascii_of_N [226; 154; 160]%N)
  end.

Definition diagnostic_text (d : ValidationDiagnostic) : string :=
  mark (level d) +:+ " " +:+ entity_type d +:+ " '" +:+ entity_id d +:+ "': " +:+ message d.

(** ** Environment variables *)

Definition is_name_start (c : ascii) : bool := is_upper c || is_lower c || Ascii.eqb c "_".
Definition is_name_char (c : ascii) : bool := is_ascii_alphanumeric c || Ascii.eqb c "_".

(** The longest prefix of characters that satisfy [p], and the rest. *)
Fixpoint span (p : ascii -> bool) (l : list ascii) : list ascii * list ascii :=
  match l with
  | c :: r => if p c then let '(a, b) := span p r in (c :: a, b) else ([], l)
  | [] => ([], [])
  end.

(** A variable reference at the start of a text: a name in braces after a dollar sign, and
    an optional default after [:-] up to the closing brace: the name, the default, and the
    number of characters matched. *)
Definition match_variable (l : list ascii) : option (string * option string * nat) :=
  match l with
  | d :: b :: c :: r =>
      if Ascii.eqb d "$" && Ascii.eqb b "{" && is_name_start c then
        let '(name, rest) := span is_name_char r in
        let name := c :: name in
        match rest with
        | x :: rest' =>
            if Ascii.eqb x "}" then Some (of_chars name, None, (3 + length name)%nat)
            else
              match rest' with
              | y :: rest' =>
                  if Ascii.eqb x ":" && Ascii.eqb y "-" then
                    let '(def, rest) := span (fun c => negb (Ascii.eqb c "}")) rest' in
                    match rest with
                    | _ :: _ => Some (of_chars name, Some (of_chars def), (5 + length name + length def)%nat)
                    | [] => None
                    end
                  else None
              | [] => None
              end
        | [] => None
        end
      else None
  | _ => None
  end.

Definition unresolved_text (name : string) : string := "Unresolved environment variable: ${" +:+ name +:+ "}".

(** What a match is replaced by, and the error it leaves. *)
Definition substitute (env : string -> option string) (allow_unresolved : bool) (name : string) (dflt : option string)
    (matched : list ascii) : list ascii * list string :=
  match env name, dflt with
  | Some val, _ => (chars val, [])
  | None, Some d => (chars d, [])
  | None, None => (matched, if allow_unresolved then [] else [unresolved_text name])
  end.

(** The matches from left to right; [skip] characters belong to the match before. *)
Fixpoint interpolate (env : string -> option string) (allow_unresolved : bool) (skip : nat) (l : list ascii) : list ascii * list string :=
  match l with
  | [] => ([], [])
  | c :: r =>
      match skip with
      | S skip => interpolate env allow_unresolved skip r
      | O =>
          match match_variable l with
          | Some (name, dflt, n) =>
              let '(out, errs) := substitute env allow_unresolved name dflt (take n l) in
              let '(out', errs') := interpolate env allow_unresolved (n - 1) r in
              (out ++ out', errs ++ errs')
          | None => let '(out, errs) := interpolate env allow_unresolved 0 r in (c :: out, errs)
          end
      end
  end.

Definition interpolate_env_vars (env : string -> option string) (raw : string) (allow_unresolved : bool) : list string + string :=
  let '(out, errs) := interpolate env allow_unresolved 0 (chars raw) in
  match errs with [] => inr (of_chars out) | _ => inl errs end.

(** ** Rules of a manifest *)

Inductive DeclarativeRuleValue := Structured (r : RuleDefinition) | Stringified (s : string).

Inductive DeclarativeRules :=
  | RulesMap (m : gmap string DeclarativeRuleValue)
  | RulesList (l : list RuleDefinition).

(** The entries of a [BTreeMap], in the order of their keys. *)
Definition sorted_entries {A} (m : gmap string A) : list (string * A) := merge_sort entry_leb (map_to_list m).

Lemma elem_of_sorted_entries {A} (m : gmap string A) k v : (k, v) ∈ sorted_entries m <-> m !! k = Some v.
Proof. unfold sorted_entries. rewrite merge_sort_Permutation. apply elem_of_map_to_list. Qed.

Definition with_id (id : string) (r : RuleDefinition) : RuleDefinition :=
  mkRule id (r_name r) (r_version r) (r_sql r) (r_actions r) (r_options r) (r_graph r) (r_tags r).

Record DeclarativeManifest := mkManifest {
  version : string;
  connections : gmap string value;
  schemas : gmap string SchemaDefinition;
  streams : gmap string string;
  m_tables : gmap string string;
  m_rules : DeclarativeRules;
}.

Definition manifest_default : DeclarativeManifest := mkManifest "" ∅ ∅ ∅ ∅ (RulesMap ∅).

Section rules.
Context `{JsonText RuleDefinition} (json_error : string -> string).

Definition to_rule_definition (fallback_id : string) (v : DeclarativeRuleValue) : string + RuleDefinition :=
  let named r := if bool_decide (r_id r = "") then with_id fallback_id r else r in
  match v with
  | Structured r => inr (named r)
  | Stringified s =>
      match of_json s with
      | Some r => inr (named r)
      | None => inl ("Failed to parse rule '" +:+ fallback_id +:+ "' stringified JSON: " +:+ json_error s)
      end
  end.

Fixpoint rules_of_map (l : list (string * DeclarativeRuleValue)) (m : gmap string RuleDefinition) : string + gmap string RuleDefinition :=
  match l with
  | [] => inr m
  | (id, v) :: l => match to_rule_definition id v with inl e => inl e | inr r => rules_of_map l (<[id := r]> m) end
  end.

Fixpoint rules_of_list (l : list RuleDefinition) (m : gmap string RuleDefinition) : string + gmap string RuleDefinition :=
  match l with
  | [] => inr m
  | r :: l => if bool_decide (r_id r = "") then inl "Rule in list missing 'id' field" else rules_of_list l (<[r_id r := r]> m)
  end.

Definition into_rules_map (rs : DeclarativeRules) : string + gmap string RuleDefinition :=
  match rs with
  | RulesMap m => rules_of_map (sorted_entries m) ∅
  | RulesList l => rules_of_list l ∅
  end.

Fixpoint rules_vec_of_map (l : list (string * DeclarativeRuleValue)) : string + list RuleDefinition :=
  match l with
  | [] => inr []
  | (id, v) :: l =>
      match to_rule_definition id v with
      | inl e => inl e
      | inr r => match rules_vec_of_map l with inl e => inl e | inr rs => inr (r :: rs) end
      end
  end.

Definition to_rules_vec (rs : DeclarativeRules) : string + list RuleDefinition :=
  match rs with RulesMap m => rules_vec_of_map (sorted_entries m) | RulesList l => inr l end.
End rules.

(** ** Reading manifests *)

(** The readers of the three formats. *)
Class ManifestReader := {
  read_toml : string -> string + DeclarativeManifest;
  read_json : string -> string + DeclarativeManifest;
  read_yaml : string -> string + DeclarativeManifest;
}.

Fixpoint trim_start_char (c : ascii) (l : list ascii) : list ascii :=
  match l with x :: r => if Ascii.eqb x c then trim_start_char c r else l | [] => [] end.

Definition labelled {A} (label : string) (r : string + A) : string + A :=
  match r with inl e => inl (label +:+ e) | inr a => inr a end.

Fixpoint join (sep : string) (l : list string) : string :=
  match l with
  | [] => ""
  | [x] => x
  | x :: l => x +:+ sep +:+ join sep l
  end.

Section reading.
Context `{ManifestReader} `{JsonText RuleDefinition} (json_error : string -> string) (env : string -> option string).

Definition from_str (content ext_or_format : string) (allow_unresolved_env : bool) : string + DeclarativeManifest :=
  match interpolate_env_vars env content allow_unresolved_env with
  | inl errs => inl (join "; " errs)
  | inr text =>
      let format_lower := to_ascii_lowercase (of_chars (trim_start_char "." (chars ext_or_format))) in
      if bool_decide (format_lower = "toml") then labelled "TOML deserialization error: " (read_toml text)
      else if bool_decide (format_lower = "json") then labelled "JSON deserialization error: " (read_json text)
      else labelled "YAML deserialization error: " (read_yaml text)
  end.

(** ** Merging a directory *)

(** A file of the directory: its name, its extension, and its text when it can be read. *)
Record ManifestFile := mkFile { file_name : string; extension : option string; content : string + string }.

Definition is_manifest_file (f : ManifestFile) : bool :=
  match extension f with
  | Some ext => let l := to_ascii_lowercase ext in bool_decide (l ∈ ["yaml"; "yml"; "json"; "toml"])
  | None => false
  end.

(** Which file declared a name first. *)
Abbreviation Seen := (gmap string string).

Definition duplicate_text (label name prev file : string) : string :=
  "Duplicate " +:+ label +:+ " '" +:+ name +:+ "' defined in both '" +:+ prev +:+ "' and '" +:+ file +:+ "'".

Definition merge_entry {A} (entity label file : string) (acc : Seen * gmap string A * list ValidationDiagnostic) (e : string * A) :=
  let '(seen, combined, diags) := acc in
  match seen !! e.1 with
  | Some prev => (seen, combined, diags ++ [error_in entity e.1 (duplicate_text label e.1 prev file)])
  | None => (<[e.1 := file]> seen, <[e.1 := e.2]> combined, diags)
  end.

Definition merge_section {A} (entity label file : string) (new : gmap string A)
    (acc : Seen * gmap string A * list ValidationDiagnostic) : Seen * gmap string A * list ValidationDiagnostic :=
  foldl (merge_entry entity label file) acc (sorted_entries new).

Record Merge := mkMerge {
  mg_version : string;
  mg_connections : Seen * gmap string value;
  mg_schemas : Seen * gmap string SchemaDefinition;
  mg_streams : Seen * gmap string string;
  mg_tables : Seen * gmap string string;
  mg_rules : Seen * gmap string DeclarativeRuleValue;
  mg_diags : list ValidationDiagnostic;
}.

Definition merge_init : Merge := mkMerge "" (∅, ∅) (∅, ∅) (∅, ∅) (∅, ∅) (∅, ∅) [].

Definition merge_file (allow : bool) (g : Merge) (f : ManifestFile) : Merge :=
  let fail entity e :=
    mkMerge (mg_version g) (mg_connections g) (mg_schemas g) (mg_streams g) (mg_tables g) (mg_rules g)
      (mg_diags g ++ [error_in entity (file_name f) e]) in
  match content f with
  | inl e => fail "manifest" ("Failed to read file: " +:+ e)
  | inr text =>
      match from_str text (default "yaml" (extension f)) allow with
      | inl e => fail "manifest" e
      | inr m =>
          let file := file_name f in
          let ver := if bool_decide (mg_version g = "v1") && negb (bool_decide (version m = "v1")) then version m else mg_version g in
          let '(sc, conns, ds) := merge_section "connection" "connection" file (connections m) (mg_connections g, mg_diags g) in
          let '(ss, schs, ds) := merge_section "schema" "schema" file (schemas m) (mg_schemas g, ds) in
          let '(st, strs, ds) := merge_section "stream" "stream" file (streams m) (mg_streams g, ds) in
          let '(ts, tabs, ds) := merge_section "table" "table" file (m_tables m) (mg_tables g, ds) in
          let '(rr, rules, ds) :=
            match into_rules_map json_error (m_rules m) with
            | inr rm => merge_section "rule" "rule ID" file (Structured <$> rm) (mg_rules g, ds)
            | inl e => (mg_rules g, ds ++ [error_in "rule" file e])
            end in
          mkMerge ver (sc, conns) (ss, schs) (st, strs) (ts, tabs) (rr, rules) ds
      end
  end.

Definition load_from_dir (files : string + list ManifestFile) (dir : string) (allow : bool) : list ValidationDiagnostic + DeclarativeManifest :=
  match files with
  | inl e => inl [error_in "manifest" dir ("Failed to read directory " +:+ dir +:+ ": " +:+ e)]
  | inr files =>
      let entries := (merge_sort entry_leb (map (fun f => (file_name f, f)) (List.filter is_manifest_file files))).*2 in
      if bool_decide (length entries = 0%nat) then inr manifest_default
      else
        let g := foldl (merge_file allow) merge_init entries in
        if existsb is_error (mg_diags g) then inl (mg_diags g)
        else inr (mkManifest (mg_version g) (mg_connections g).2 (mg_schemas g).2 (mg_streams g).2 (mg_tables g).2 (RulesMap (mg_rules g).2))
  end.

(** What is at a path. *)
Inductive PathKind :=
  | Missing
  | AFile (extension : option string) (content : string + string)
  | ADir (files : string + list ManifestFile)
  | Other.

Definition load_from_path (p : PathKind) (path : string) (allow : bool) : list ValidationDiagnostic + DeclarativeManifest :=
  match p with
  | Missing => inl [error_in "manifest" path ("Manifest path does not exist: " +:+ path)]
  | AFile ext (inl e) => inl [error_in "manifest" path ("Failed to read manifest file: " +:+ e)]
  | AFile ext (inr text) =>
      match from_str text (default "yaml" ext) allow with
      | inl e => inl [error_in "manifest" path e]
      | inr m => inr m
      end
  | ADir files => load_from_dir files path allow
  | Other => inl [error_in "manifest" path ("Manifest path is neither file nor directory: " +:+ path)]
  end.
End reading.
