(* ===== verification/GraphRule.v ===== *)
(** * Graph rules ([compile_graph_to_sql_and_actions] of [crates/rekuiper-core/src/model.rs])

    A rule drawn as a graph of sources, operators and sinks is compiled to a SELECT statement
    and the actions of its sinks.  The edges are only searched for cycles: a depth-first search
    that keeps the nodes of the current path and the nodes it has finished. *)

From S2P Require Import Prelude Rust Characters Json Ast Engine Values Numbers Kv Managers RuleManager Manifest Parser Statements ParserFacts.

Set Default Goal Selector "!".
#[local] Set Warnings "-register-all".

(** ** Properties of a node *)

(** A text that is not blank, trimmed. *)
Definition trimmed_text (v : value) : option string :=
  s ← as_str v; let s := trim_str s in if bool_decide (s = "") then None else Some s.

Definition prop_str (props : row) (key : string) : option string := props !! key ≫= trimmed_text.

Definition prop_u64 (props : row) (key : string) (dflt : Z) : Z :=
  match props !! key with
  | None => dflt
  | Some v =>
      match as_u64 v with
      | Some n => n
      | None =>
          match as_i64 v with
          | Some n => if 0 <=? n then n else dflt
          | None => default dflt (s ← as_str v; parse_u64 (trim_str s))
          end
      end
  end.

(** ** Cycles *)

Definition cycle_text (node : string) : string := "Graph contains a cycle at node '" +:+ node +:+ "'".

(** The nodes of the current path, and those that are finished. *)
Record Search := mkSearch { visiting : gset string; done : gset string }.

Fixpoint visit_all (visit : string -> Search -> option (string + Search)) (targets : list string) (s : Search) : option (string + Search) :=
  match targets with
  | [] => Some (inr s)
  | t :: targets => r ← visit t s; match r with inl e => Some (inl e) | inr s => visit_all visit targets s end
  end.

(** [fuel] bounds the length of the path. *)
Fixpoint visit (edges : gmap string (list string)) (fuel : nat) (node : string) (s : Search) : option (string + Search) :=
  match fuel with
  | O => None
  | S fuel =>
      if bool_decide (node ∈ visiting s) then Some (inl (cycle_text node))
      else if bool_decide (node ∈ done s) then Some (inr (mkSearch (({[node]} ∪ visiting s) ∖ {[node]}) (done s)))
      else
        r ← visit_all (visit edges fuel) (default [] (edges !! node)) (mkSearch ({[node]} ∪ visiting s) (done s));
        Some (match r with
              | inl e => inl e
              | inr s => inr (mkSearch (visiting s ∖ {[node]}) ({[node]} ∪ done s))
              end)
  end.

Definition endpoints (edges : gmap string (list string)) : list string :=
  sort_tags ((map_to_list edges).*1 ++ concat (map_to_list edges).*2).

Definition check_acyclic (edges : gmap string (list string)) : option (string + Search) :=
  visit_all (visit edges (S (length (endpoints edges)))) (endpoints edges) (mkSearch ∅ ∅).

(** ** The statement *)

(** The source: a name of the first source node, or the first entry point. *)
Definition graph_source (g : GraphDefinition) : string + string :=
  match List.filter (fun e => bool_decide (node_category e.2 = "source")) (sorted_entries (graph_nodes g)) with
  | (key, n) :: _ =>
      inr (match prop_str (node_props n) "sourceName" with
           | Some s => s
           | None => default key (prop_str (node_props n) "datasource")
           end)
  | [] => match topo_sources (graph_topo g) with s :: _ => inr s | [] => inl "Graph rule has no source" end
  end.

Record Parts := mkParts {
  filters : list string; projections : list string; window : option string; sink_actions : list row;
}.

Definition call_text (name : string) (args : list string) : string := name +:+ "(" +:+ join ", " args +:+ ")".

Definition window_text (props : row) : string :=
  let text key dflt := to_ascii_lowercase (default dflt (props !! key ≫= as_str)) in
  let kind := text "type" "tumblingwindow" in
  let unit := text "unit" "ss" in
  let size := prop_u64 props "size" 10 in
  let interval := prop_u64 props "interval" size in
  let given := bool_decide (is_Some (props !! "interval")) in
  if bool_decide (kind = "hoppingwindow") then
    call_text "HOPPINGWINDOW" [unit; integer_text size; integer_text (if given then interval else size)]
  else if bool_decide (kind = "slidingwindow") then call_text "SLIDINGWINDOW" [unit; integer_text size]
  else if bool_decide (kind = "sessionwindow") then call_text "SESSIONWINDOW" [unit; integer_text size; integer_text interval]
  else if bool_decide (kind = "countwindow") then
    (if given then call_text "COUNTWINDOW" [integer_text size; integer_text interval] else call_text "COUNTWINDOW" [integer_text size])
  else call_text "TUMBLINGWINDOW" [unit; integer_text size].

Definition compile_operator (n : GraphNode) (p : Parts) : Parts :=
  let '(mkParts fs ps w acts) := p in
  let ty := node_type n in
  let props := node_props n in
  if bool_decide (ty = "filter") then
    match prop_str props "expr" with Some e => mkParts (fs ++ ["(" +:+ e +:+ ")"]) ps w acts | None => p end
  else if bool_decide (ty = "pick") then
    match props !! "fields" with
    | Some (VArray fields) => mkParts fs (ps ++ omap trimmed_text fields) w acts
    | _ => p
    end
  else if bool_decide (ty ∈ ["function"; "aggfunc"]) then
    match prop_str props "expr" with Some e => mkParts fs (ps ++ [e]) w acts | None => p end
  else if bool_decide (ty = "window") then mkParts fs ps (Some (window_text props)) acts
  else p.

Definition sink_action (key : string) (n : GraphNode) : row :=
  {[ (if bool_decide (node_type n = "") then key else node_type n) := row_to_value (node_props n) ]}.

Definition compile_node (p : Parts) (e : string * GraphNode) : Parts :=
  let '(key, n) := e in
  if bool_decide (node_category n = "operator") then compile_operator n p
  else if bool_decide (node_category n = "sink") then
    mkParts (filters p) (projections p) (window p) (sink_actions p ++ [sink_action key n])
  else p.

Definition compile_nodes (g : GraphDefinition) : Parts :=
  foldl compile_node (mkParts [] [] None []) (sorted_entries (graph_nodes g)).

Definition sql_of (source : string) (p : Parts) : string :=
  "SELECT " +:+ (match projections p with [] => "*" | ps => join ", " ps end) +:+ " FROM " +:+ source
  +:+ (match filters p with [] => "" | fs => " WHERE " +:+ join " AND " fs end)
  +:+ (match window p with Some w => " GROUP BY " +:+ w | None => "" end).

Definition compile_graph_to_sql_and_actions (g : GraphDefinition) : option (string + string * list row) :=
  r ← check_acyclic (topo_edges (graph_topo g));
  Some (match r with
        | inl e => inl e
        | inr _ =>
            match graph_source g with
            | inl e => inl e
            | inr source => let p := compile_nodes g in inr (sql_of source p, sink_actions p)
            end
        end).

(** * Facts about graph rules

    The depth-first search returns on every graph, and finds a cycle exactly when there is one;
    what compiles are the acyclic graphs with a source. *)

From stdpp Require Import relations.

#[local] Set Warnings "-clear-no-such-hyp".
#[local] Set Warnings "-register-all".

Section search.
Context (edges : gmap string (list string)).

Definition edge (x y : string) : Prop := y ∈ default [] (edges !! x).
Definition acyclic : Prop := forall n, ~ tc edge n n.

(** What the search has finished leads nowhere else, and to no cycle. *)
Record searched (s : Search) : Prop := {
  done_closed : forall x y, x ∈ done s -> edge x y -> y ∈ done s;
  done_acyclic : forall x, x ∈ done s -> ~ tc edge x x;
  done_left : done s ## visiting s;
}.

Definition nodes : gset string := list_to_set (endpoints edges).

Lemma elem_of_nodes x : x ∈ nodes <-> is_Some (edges !! x) \/ exists k ts, edges !! k = Some ts /\ x ∈ ts.
Proof.
  unfold nodes, endpoints. rewrite elem_of_list_to_set, elem_of_sort_tags, elem_of_app, list_elem_of_fmap, list_elem_of_In, List.in_concat.
  setoid_rewrite <- list_elem_of_In. setoid_rewrite list_elem_of_fmap. split.
  - intros [([k ts] & -> & Hk)|(ts & ([k ts'] & -> & Hk) & Hx)]; apply elem_of_map_to_list in Hk; [left|right]; eauto.
  - intros [[ts Hk]|(k & ts & Hk & Hx)]; apply elem_of_map_to_list in Hk; [left; by exists (x, ts)|right].
    exists ts. split; [by exists (k, ts)|done].
Qed.

Lemma edge_nodes x y : edge x y -> y ∈ nodes.
Proof.
  unfold edge. intros Hy. apply elem_of_nodes. right. destruct (edges !! x) as [ts|] eqn:Hx; [by exists x, ts|by apply elem_of_nil in Hy].
Qed.

Lemma closed_reach s x y : searched s -> x ∈ done s -> tc edge x y -> y ∈ done s.
Proof. intros Hs Hx Hr. revert Hx. induction Hr as [x y Hxy|x y z Hxy _ IH]; intros Hx; [|apply IH]; by eapply done_closed. Qed.

(** Visiting [node] from the path [visiting s], every node of which leads to it. *)
Definition visited (node : string) (s : Search) (r : option (string + Search)) : Prop :=
  match r with
  | None => False
  | Some (inl e) => exists n, tc edge n n /\ e = cycle_text n
  | Some (inr s') => visiting s' = visiting s /\ done s ⊆ done s' /\ node ∈ done s' /\ searched s'
  end.

Definition leads (s : Search) (node : string) : Prop := forall v, v ∈ visiting s -> tc edge v node.

Lemma visit_all_spec f targets s : searched s -> (forall t, t ∈ targets -> leads s t) ->
  (forall t s', t ∈ targets -> searched s' -> leads s' t -> visiting s' = visiting s -> visited t s' (f t s')) ->
  match visit_all f targets s with
  | None => False
  | Some (inl e) => exists n, tc edge n n /\ e = cycle_text n
  | Some (inr s') => visiting s' = visiting s /\ done s ⊆ done s' /\ (forall t, t ∈ targets -> t ∈ done s') /\ searched s'
  end.
Proof.
  revert s. induction targets as [|t targets IH]; intros s Hs Hl Hf; simpl.
  { split_and!; try done. intros t Ht. by apply elem_of_nil in Ht. }
  assert (Ht : visited t s (f t s)) by (apply Hf; [set_solver|done|apply Hl; set_solver|done]).
  destruct (f t s) as [[e|s1]|]; simpl in *; [done| |done]. destruct Ht as (Hv & Hd & Hin & Hs1).
  assert (Hl1 : forall t, t ∈ targets -> leads s1 t) by (intros t' Ht' v; rewrite Hv; apply Hl; set_solver).
  assert (Hf1 : forall t s', t ∈ targets -> searched s' -> leads s' t -> visiting s' = visiting s1 -> visited t s' (f t s')).
  { intros t' s' Ht' Hs' Hl' Hv'. apply Hf; [set_solver|done|done|congruence]. }
  specialize (IH s1 Hs1 Hl1 Hf1). destruct (visit_all f targets s1) as [[e|s2]|]; [done| |done].
  destruct IH as (Hv2 & Hd2 & Hin2 & Hs2). split_and!; [congruence|set_solver| |done].
  intros t' Ht'. apply elem_of_cons in Ht' as [->|Ht']; [set_solver|by apply Hin2].
Qed.

Lemma finish_node node s s' : searched s' -> node ∉ visiting s -> node ∉ done s' -> visiting s' = {[node]} ∪ visiting s ->
  (forall t, t ∈ default [] (edges !! node) -> t ∈ done s') ->
  searched (mkSearch (visiting s' ∖ {[node]}) ({[node]} ∪ done s')).
Proof.
  intros Hs Hnv Hnd Hv Ht. pose proof (done_left _ Hs). constructor; simpl.
  - intros x y Hx Hy. apply elem_of_union in Hx as [->%elem_of_singleton|Hx]; [set_solver|]. apply elem_of_union_r. by eapply done_closed.
  - intros x Hx Hc. apply elem_of_union in Hx as [->%elem_of_singleton|Hx]; [|by eapply done_acyclic].
    apply Hnd. assert (Hy : exists y, edge node y /\ rtc edge y node).
    { inversion Hc as [? ? He|? y ? He Hr]; subst; [by exists node|]. exists y. split; [done|]. by apply tc_rtc. }
    destruct Hy as (y & Hy & Hr). apply Ht in Hy. apply rtc_tc in Hr as [->|Hr]; [done|]. by eapply closed_reach.
  - set_solver.
Qed.

Lemma room_left s node fuel : node ∈ nodes -> node ∉ visiting s -> (size (nodes ∖ visiting s) < S fuel)%nat ->
  (size (nodes ∖ ({[node]} ∪ visiting s)) < fuel)%nat.
Proof.
  intros Hn Hv Hf. assert (Hlt : (size (nodes ∖ ({[node]} ∪ visiting s)) < size (nodes ∖ visiting s))%nat); [|lia].
  apply subset_size. set_solver.
Qed.

Lemma size_nodes : (size nodes <= length (endpoints edges))%nat.
Proof.
  unfold nodes. induction (endpoints edges) as [|x l IH]; [done|]. cbn [list_to_set length].
  pose proof (size_union_alt (C:=gset string) {[x]} (list_to_set l)) as Hu. rewrite size_singleton in Hu.
  assert (Hle : (size ((list_to_set l : gset string) ∖ {[x]}) <= size (list_to_set l : gset string))%nat) by (apply subseteq_size; set_solver).
  lia.
Qed.

Lemma cycle_node n : tc edge n n -> n ∈ nodes.
Proof.
  intros Hn. enough (Hend : forall x y, tc edge x y -> y ∈ nodes) by (by eapply Hend).
  induction 1 as [x y Hy|x y z _ _ IH]; [by eapply edge_nodes|done].
Qed.

Lemma visit_spec fuel node s : searched s -> leads s node -> node ∈ nodes -> (size (nodes ∖ visiting s) < fuel)%nat ->
  visited node s (visit edges fuel node s).
Proof.
  revert node s. induction fuel as [|fuel IH]; intros node s Hs Hl Hn Hf; [lia|]. cbn [visit].
  case_bool_decide as Hv. { exists node. split; [by apply Hl|done]. }
  case_bool_decide as Hd.
  { simpl. split_and!; [set_solver|done|done|]. destruct Hs as [H1 H2 H3]. constructor; simpl; [done|done|set_solver]. }
  assert (Hs0 : searched (mkSearch ({[node]} ∪ visiting s) (done s))).
  { destruct Hs as [H1 H2 H3]. constructor; simpl; [done|done|set_solver]. }
  assert (Hl0 : forall t, t ∈ default [] (edges !! node) -> leads (mkSearch ({[node]} ∪ visiting s) (done s)) t).
  { intros t Ht v Hin. simpl in Hin. assert (He : edge node t) by done.
    apply elem_of_union in Hin as [->%elem_of_singleton|Hin]; [by apply tc_once|]. eapply tc_r; [by apply Hl|done]. }
  pose proof (visit_all_spec (visit edges fuel) (default [] (edges !! node)) _ Hs0 Hl0) as Hall.
  destruct (visit_all _ _ _) as [[e|s1]|]; simpl in *.
  - apply Hall. intros t s1 Ht Hs1 Hl1 Hv1. apply IH; [done|done|by eapply edge_nodes|]. rewrite Hv1. by apply room_left.
  - destruct Hall as (Hv1 & Hd1 & Ht1 & Hs1).
    { intros t s2 Ht Hs2 Hl2 Hv2. apply IH; [done|done|by eapply edge_nodes|]. rewrite Hv2. by apply room_left. }
    pose proof (done_left _ Hs1). split_and!; [set_solver|set_solver|set_solver|]. eapply finish_node; [done|done|set_solver|done|done].
  - apply Hall. intros t s1 Ht Hs1 Hl1 Hv1. apply IH; [done|done|by eapply edge_nodes|]. rewrite Hv1. by apply room_left.
Qed.

Lemma check_acyclic_spec :
  match check_acyclic edges with
  | None => False
  | Some (inl e) => exists n, tc edge n n /\ e = cycle_text n
  | Some (inr _) => acyclic
  end.
Proof.
  assert (Hs : searched (mkSearch ∅ ∅)) by (constructor; set_solver).
  pose proof (visit_all_spec (visit edges (S (length (endpoints edges)))) (endpoints edges) _ Hs) as Hall.
  unfold check_acyclic. destruct (visit_all _ _ _) as [[e|s]|].
  1, 3: apply Hall; [by intros t _ v|].
  1, 2: intros t s' Ht Hs' Hl Hv; apply visit_spec; [done|done|by apply elem_of_list_to_set|].
  1, 2: rewrite Hv; simpl; pose proof (size_nodes); rewrite difference_empty_L; lia.
  destruct Hall as (_ & _ & Hd & Hsd); [by intros t _ v| |].
  { intros t s' Ht Hs' Hl Hv; apply visit_spec; [done|done|by apply elem_of_list_to_set|].
    rewrite Hv; simpl; pose proof (size_nodes); rewrite difference_empty_L; lia. }
  intros n Hn. assert (Hin : n ∈ nodes) by (apply cycle_node; exact Hn).
  eapply done_acyclic; [exact Hsd| |exact Hn]. apply Hd. unfold nodes in Hin. by apply elem_of_list_to_set in Hin.
Qed.
End search.

Lemma compiled_graph_sources g :
  match graph_source g with
  | inl e => e = "Graph rule has no source" /\ (forall k n, graph_nodes g !! k = Some n -> node_category n <> "source") /\ topo_sources (graph_topo g) = []
  | inr _ => (exists k n, graph_nodes g !! k = Some n /\ node_category n = "source") \/ topo_sources (graph_topo g) <> []
  end.
Proof.
  unfold graph_source. destruct (List.filter _ _) as [|[k n] l] eqn:Hf.
  - assert (Hno : forall k n, graph_nodes g !! k = Some n -> node_category n <> "source").
    { intros k n Hk Hc. assert (Hin : (k, n) ∈ @nil (string * GraphNode)); [|by apply elem_of_nil in Hin].
      rewrite <- Hf. apply list_elem_of_In, List.filter_In. split; [|by apply bool_decide_eq_true_2].
      apply list_elem_of_In. by apply elem_of_sorted_entries. }
    destruct (topo_sources _); [done|]. by right.
  - left. exists k, n. assert (Hin : In (k, n) ((k, n) :: l)) by (by left). rewrite <- Hf in Hin.
    apply List.filter_In in Hin as [Hin Hc]. apply bool_decide_eq_true in Hc. split; [|done].
    apply list_elem_of_In in Hin. by apply elem_of_sorted_entries.
Qed.

(** C35. Compiling a graph returns on every graph.  It fails for a graph with a cycle, naming a
    node that lies on one, and for a graph that has neither a source node nor an entry point; it
    succeeds for every other graph, diamonds included. *)
Theorem graph_compiles_iff g :
  match compile_graph_to_sql_and_actions g with
  | None => False
  | Some (inl e) =>
      (exists n, tc (edge (topo_edges (graph_topo g))) n n /\ e = cycle_text n) \/
      (acyclic (topo_edges (graph_topo g)) /\ e = "Graph rule has no source" /\
       (forall k n, graph_nodes g !! k = Some n -> node_category n <> "source") /\ topo_sources (graph_topo g) = [])
  | Some (inr _) =>
      acyclic (topo_edges (graph_topo g)) /\
      ((exists k n, graph_nodes g !! k = Some n /\ node_category n = "source") \/ topo_sources (graph_topo g) <> [])
  end.
Proof.
  unfold compile_graph_to_sql_and_actions. pose proof (check_acyclic_spec (topo_edges (graph_topo g))) as Hc.
  destruct (check_acyclic _) as [[e|s]|]; simpl; [by left| |done].
  pose proof (compiled_graph_sources g) as Hs. destruct (graph_source g) as [e|src]; [right|]; by split.
Qed.

Module GraphSample.
#[export] Existing Instance ParserSample.ascii_only.

Definition op (ty : string) (props : row) : GraphNode := mkNode "operator" ty props.
Definition graph (edges : gmap string (list string)) : GraphDefinition :=
  mkGraph {["src" := mkNode "source" "mqtt" {["datasource" := VString " demo "]};
            "f" := op "filter" {["expr" := VString "a > 1"]};
            "w" := op "window" {["type" := VString "HoppingWindow"; "size" := VString "6"; "interval" := value_of_i64 2]};
            "avg" := op "aggfunc" {["expr" := VString "avg(a) AS m"]};
            "having" := op "filter" {["expr" := VString "m > 10"]};
            "out" := mkNode "sink" "log" ∅]}
    (mkTopo ["src"] edges).

Definition compiled (edges : gmap string (list string)) : option string :=
  match compile_graph_to_sql_and_actions (graph edges) with
  | Some (inr (sql, _)) => Some sql
  | Some (inl e) => Some e
  | None => None
  end.

Definition line : gmap string (list string) :=
  {["src" := ["f"]; "f" := ["w"]; "w" := ["avg"]; "avg" := ["having"]; "having" := ["out"]]}.

(** A filter after the window and the aggregate becomes a condition on the rows before them. *)
Example filter_after_window : compiled line = Some "SELECT avg(a) AS m FROM demo WHERE (a > 1) AND (m > 10) GROUP BY HOPPINGWINDOW(ss, 6, 2)".
Proof. by vm_compute. Qed.

(** The edges do not matter. *)
Example edges_ignored : compiled ∅ = compiled line /\ compiled {["out" := ["f"; "w"]; "f" := ["avg"]; "w" := ["avg"]]} = compiled line.
Proof. split; by vm_compute. Qed.

Example cycles : compiled {["a" := ["b"]; "b" := ["c"]; "c" := ["b"]]} = Some "Graph contains a cycle at node 'b'" /\
  compiled {["a" := ["a"]]} = Some "Graph contains a cycle at node 'a'".
Proof. split; by vm_compute. Qed.

(** The statement of a graph is read back as the statement it stands for. *)
Example statement_parses :
  match parse_select_text (cps (default "" (compiled line))) with
  | POk stmt _ => from stmt = "demo" /\ length (fields stmt) = 1%nat /\ is_Some (where_clause stmt)
  | _ => False
  end.
Proof. vm_compute. repeat split; eauto. Qed.
End GraphSample.
