(* ===== verification/ManifestFacts.v ===== *)
(** * Facts about manifests

    Interpolation replaces exactly the variable references of a text; a directory is read as
    the disjoint union of its files, or not at all. *)

From Stdlib Require Import Ascii.
From S2P Require Import Prelude Rust Characters Json Counters Dlq Ast Engine Schema Kv Managers Manifest.

Set Default Goal Selector "!".
#[local] Set Warnings "-register-all".
#[local] Set Warnings "-clear-no-such-hyp".

(** ** Interpolation *)

(** A text as plain pieces and variable references. *)
Inductive Segment := Plain (l : list ascii) | Ref (first : ascii) (rest : list ascii) (dflt : option (list ascii)).

Definition segment_ok (s : Segment) : Prop :=
  match s with
  | Plain l => "$"%char ∉ l
  | Ref c r d =>
      is_name_start c = true /\ Forall (fun x => is_name_char x = true) r /\ match d with Some d => "}"%char ∉ d | None => True end
  end.

Definition segment_text (s : Segment) : list ascii :=
  match s with
  | Plain l => l
  | Ref c r None => "$"%char :: "{"%char :: c :: r ++ ["}"%char]
  | Ref c r (Some d) => "$"%char :: "{"%char :: c :: r ++ ":"%char :: "-"%char :: d ++ ["}"%char]
  end.

(** The value of a segment in an environment, and the errors it leaves. *)
Definition segment_value (env : string -> option string) (allow : bool) (s : Segment) : list ascii * list string :=
  match s with
  | Plain l => (l, [])
  | Ref c r d => substitute env allow (of_chars (c :: r)) (of_chars <$> d) (segment_text s)
  end.

Definition segments_text (l : list Segment) : list ascii := flat_map segment_text l.
Definition segments_value (env : string -> option string) (allow : bool) (l : list Segment) : list ascii * list string :=
  (flat_map (fun s => (segment_value env allow s).1) l, flat_map (fun s => (segment_value env allow s).2) l).

Lemma segment_span_stop p l x r : Forall (fun c => p c = true) l -> p x = false -> span p (l ++ x :: r) = (l, x :: r).
Proof. intros Hl Hx. induction Hl as [|c l Hc _ IH]; simpl; [by rewrite Hx|]. by rewrite Hc, IH. Qed.

Lemma no_brace d : "}"%char ∉ d -> Forall (fun c => negb (Ascii.eqb c "}") = true) d.
Proof.
  intros Hd. apply list.Forall_forall. intros c Hc. apply negb_true_iff. destruct (Ascii.eqb_spec c "}"%char) as [->|]; done.
Qed.

Lemma match_reference c r d rest : segment_ok (Ref c r d) ->
  match_variable (segment_text (Ref c r d) ++ rest)
  = Some (of_chars (c :: r), of_chars <$> d, length (segment_text (Ref c r d))).
Proof.
  intros (Hc & Hr & Hd). destruct d as [d|]; simpl; rewrite Hc; simpl.
  - rewrite <- app_assoc. simpl. rewrite (segment_span_stop _ r ":"%char) by done. simpl. rewrite <- app_assoc. simpl.
    rewrite (segment_span_stop _ d "}"%char) by (done || by apply no_brace). do 2 f_equal. rewrite !length_app. simpl. rewrite length_app. simpl. lia.
  - rewrite <- app_assoc. simpl. rewrite (segment_span_stop _ r "}"%char) by done. simpl. do 2 f_equal. rewrite length_app. simpl. lia.
Qed.

Lemma interpolate_skip env allow l l' : interpolate env allow (length l) (l ++ l') = interpolate env allow 0 l'.
Proof. by induction l as [|c l IH]. Qed.

Lemma match_variable_plain c r : c <> "$"%char -> match_variable (c :: r) = None.
Proof.
  intros Hc. simpl. assert (Ascii.eqb c "$" = false) as -> by by apply Ascii.eqb_neq. by destruct r as [|? [|? ?]].
Qed.

Lemma interpolate_plain env allow l l' : "$"%char ∉ l ->
  interpolate env allow 0 (l ++ l') = (l ++ (interpolate env allow 0 l').1, (interpolate env allow 0 l').2).
Proof.
  intros Hl. induction l as [|c l IH]; [simpl; by destruct (interpolate env allow 0 l')|]. apply not_elem_of_cons in Hl as [Hc Hl].
  rewrite <- app_comm_cons. cbn [interpolate]. rewrite match_variable_plain by congruence. by rewrite IH.
Qed.

Lemma segment_text_cons c r d : exists t, segment_text (Ref c r d) = "$"%char :: t.
Proof. destruct d; by eexists. Qed.

Lemma interpolate_reference env allow c r d l : segment_ok (Ref c r d) ->
  interpolate env allow 0 (segment_text (Ref c r d) ++ l) =
  ((segment_value env allow (Ref c r d)).1 ++ (interpolate env allow 0 l).1,
   (segment_value env allow (Ref c r d)).2 ++ (interpolate env allow 0 l).2).
Proof.
  intros Hok. pose proof (match_reference c r d l Hok) as Hm. unfold segment_value. set (txt := segment_text (Ref c r d)) in *.
  destruct (segment_text_cons c r d) as [t Ht]. change (segment_text (Ref c r d)) with txt in Ht. rewrite Ht in *.
  rewrite <- app_comm_cons in *. cbn [interpolate]. rewrite Hm. cbn [length]. rewrite Nat.sub_succ, Nat.sub_0_r, interpolate_skip.
  cbn [take]. rewrite take_app_length. destruct (substitute _ _ _ _ _) as [out errs].
  by destruct (interpolate env allow 0 l) as [out' errs'].
Qed.

Lemma interpolate_segments env allow segs : Forall segment_ok segs ->
  interpolate env allow 0 (segments_text segs) = segments_value env allow segs.
Proof.
  induction 1 as [|s segs Hs _ IH]; [done|]. change (segments_text (s :: segs)) with (segment_text s ++ segments_text segs).
  destruct s as [l|c r d].
  - simpl segment_text. rewrite interpolate_plain by done. by rewrite IH.
  - rewrite interpolate_reference by done. by rewrite IH.
Qed.

(** A text made of plain pieces without a dollar sign and of variable references is
    interpolated piece by piece: a variable that is set becomes its value, which is not
    interpolated again, one that is not set becomes its default, one without a default stays
    as it is, and without the permission for that the result is the list of exactly those
    variables. *)
Theorem interpolate_replaces_references env segs allow : Forall segment_ok segs ->
  let '(text, unresolved) := segments_value env allow segs in
  interpolate_env_vars env (of_chars (segments_text segs)) allow =
    match unresolved with [] => inr (of_chars text) | _ => inl unresolved end.
Proof. intros Hs. unfold interpolate_env_vars. rewrite chars_of_chars, interpolate_segments by done. done. Qed.

(** ** Merging *)

Lemma sorted_entries_map {A} (m : gmap string A) : list_to_map (sorted_entries m) = m /\ NoDup (sorted_entries m).*1.
Proof.
  assert (Hp : sorted_entries m ≡ₚ map_to_list m) by apply merge_sort_Permutation.
  assert (Hnd : NoDup (sorted_entries m).*1) by (rewrite Hp; apply NoDup_fst_map_to_list).
  split; [|done]. rewrite (list_to_map_proper _ _ Hnd Hp). apply list_to_map_to_list.
Qed.

Definition all_errors (ds : list ValidationDiagnostic) : Prop := Forall (fun d => is_error d = true) ds.

(** The names seen are the names declared. *)
Definition seen_ok {A} (s : gmap string string * gmap string A) : Prop := forall k, is_Some (s.1 !! k) <-> is_Some (s.2 !! k).

Lemma merge_entries {A} entity label file (l : list (string * A)) : NoDup l.*1 -> forall seen comb diags, seen_ok (seen, comb) ->
  let '(seen', comb', diags') := foldl (merge_entry entity label file) (seen, comb, diags) l in
  seen_ok (seen', comb') /\ comb' = comb ∪ list_to_map l /\
  exists ds, diags' = diags ++ ds /\ all_errors ds /\ (ds = [] <-> comb ##ₘ list_to_map l).
Proof.
  induction l as [|[k v] l IH]; intros Hnd seen comb diags Hs; simpl.
  { split_and!; [done|by rewrite (right_id_L ∅ (∪))|]. exists []. split_and!; [by rewrite app_nil_r|constructor|].
    split; [intros _; apply map_disjoint_empty_r|done]. }
  apply list.NoDup_cons in Hnd as [Hni Hnd]. simpl in Hni.
  assert (Hk : (list_to_map l : gmap string A) !! k = None) by by apply not_elem_of_list_to_map_1.
  destruct (seen !! k) as [prev|] eqn:Hseen.
  - assert (Hc : is_Some (comb !! k)) by (apply (Hs k); by eexists).
    specialize (IH Hnd seen comb (diags ++ [error_in entity k (duplicate_text label k prev file)]) Hs).
    destruct (foldl _ _ l) as [[seen' comb'] diags']. destruct IH as (Hs' & -> & ds & -> & He & Hd). split_and!; [done| |].
    + apply map_eq. intros j. destruct (decide (j = k)) as [->|Hne].
      * destruct Hc as [w Hw]. by rewrite !(lookup_union_Some_l _ _ _ w).
      * rewrite !lookup_union, lookup_insert_ne by done. done.
    + eexists. split_and!; [by rewrite <- app_assoc|by constructor|]. split; [done|]. intros Hdis. exfalso.
      apply map_disjoint_insert_r in Hdis as [Hn _]. destruct Hc as [w Hw]. congruence.
  - assert (Hc : comb !! k = None) by (apply eq_None_not_Some; intros Hc; apply (Hs k) in Hc as [w Hw]; simpl in Hw; congruence).
    assert (Hs1 : seen_ok (<[k:=file]> seen, <[k:=v]> comb)).
    { intros j. simpl. destruct (decide (j = k)) as [->|Hne]; [by rewrite !lookup_insert_eq|]. rewrite !lookup_insert_ne by done. apply Hs. }
    specialize (IH Hnd _ _ diags Hs1). destruct (foldl _ _ l) as [[seen' comb'] diags'].
    destruct IH as (Hs' & -> & ds & -> & He & Hd). split_and!; [done| |].
    + by rewrite <- insert_union_l, <- insert_union_r.
    + exists ds. split_and!; [done..|]. rewrite Hd, map_disjoint_insert_l, map_disjoint_insert_r. naive_solver.
Qed.

Lemma merge_section_spec {A} entity label file (new : gmap string A) acc diags : seen_ok acc ->
  let '(acc', diags') := merge_section entity label file new (acc, diags) in
  seen_ok acc' /\ acc'.2 = acc.2 ∪ new /\
  exists ds, diags' = diags ++ ds /\ all_errors ds /\ (ds = [] <-> acc.2 ##ₘ new).
Proof.
  intros Hs. destruct acc as [seen comb]. destruct (sorted_entries_map new) as [Hm Hnd]. unfold merge_section.
  pose proof (merge_entries entity label file (sorted_entries new) Hnd seen comb diags Hs) as He.
  destruct (foldl _ _ (sorted_entries new)) as [[seen' comb'] diags']. by rewrite Hm in He.
Qed.

Section merging.
Context `{ManifestReader} `{JsonText RuleDefinition} (json_error : string -> string) (env : string -> option string).

(** What a manifest declares, with the rules by their names. *)
Definition declared (m : DeclarativeManifest) : option (gmap string value * gmap string SchemaDefinition * gmap string string
    * gmap string string * gmap string DeclarativeRuleValue) :=
  match into_rules_map json_error (m_rules m) with
  | inr rm => Some (connections m, schemas m, streams m, m_tables m, Structured <$> rm)
  | inl _ => None
  end.

Definition read_file (allow : bool) (f : ManifestFile) :=
  match content f with
  | inr text => match from_str env text (default "yaml" (extension f)) allow with inr m => declared m | inl _ => None end
  | inl _ => None
  end.

Abbreviation Sections := (gmap string value * gmap string SchemaDefinition * gmap string string * gmap string string
  * gmap string DeclarativeRuleValue)%type.

Definition merged (g : Merge) : Sections :=
  ((mg_connections g).2, (mg_schemas g).2, (mg_streams g).2, (mg_tables g).2, (mg_rules g).2).

Definition disjoint_sections (x y : Sections) : Prop :=
  let '(c, s, t, u, r) := x in let '(c', s', t', u', r') := y in
  c ##ₘ c' /\ s ##ₘ s' /\ t ##ₘ t' /\ u ##ₘ u' /\ r ##ₘ r'.

Definition union_sections (x y : Sections) : Sections :=
  let '(c, s, t, u, r) := x in let '(c', s', t', u', r') := y in (c ∪ c', s ∪ s', t ∪ t', u ∪ u', r ∪ r').

Definition merge_ok (g : Merge) : Prop :=
  seen_ok (mg_connections g) /\ seen_ok (mg_schemas g) /\ seen_ok (mg_streams g) /\ seen_ok (mg_tables g) /\ seen_ok (mg_rules g) /\
  all_errors (mg_diags g) /\ mg_version g = "".

Lemma all_errors_app ds ds' : all_errors ds -> all_errors ds' -> all_errors (ds ++ ds').
Proof. intros. by apply Forall_app. Qed.

(** The sections of a file are added, and there is a new error exactly when the file cannot be
    read or declares a name again. *)
Lemma merge_file_spec allow g f : merge_ok g ->
  let g' := merge_file json_error env allow g f in
  merge_ok g' /\ exists ds, mg_diags g' = mg_diags g ++ ds /\
    (ds = [] <-> exists x, read_file allow f = Some x /\ disjoint_sections (merged g) x) /\
    (forall x, read_file allow f = Some x -> merged g' = union_sections (merged g) x).
Proof.
  intros (Hc & Hs & Ht & Hu & Hr & He & Hv). unfold merge_file, read_file.
  assert (Hfail : forall entity e,
    merge_ok (mkMerge (mg_version g) (mg_connections g) (mg_schemas g) (mg_streams g) (mg_tables g) (mg_rules g)
      (mg_diags g ++ [error_in entity (file_name f) e]))).
  { intros entity e. split_and!; try done. apply all_errors_app; [done|by constructor]. }
  destruct (content f) as [e|text].
  { split; [apply Hfail|]. eexists. split_and!; [done| |done]. split; [done|]. by intros (x & ? & _). }
  destruct (from_str env text _ allow) as [e|m].
  { split; [apply Hfail|]. eexists. split_and!; [done| |done]. split; [done|]. by intros (x & ? & _). }
  unfold declared.
  pose proof (merge_section_spec "connection" "connection" (file_name f) (connections m) (mg_connections g) (mg_diags g) Hc) as H1.
  destruct (merge_section _ _ _ (connections m) _) as [[sc conns] d1]. destruct H1 as (Hc' & Hcu & ds1 & -> & He1 & Hd1).
  pose proof (merge_section_spec "schema" "schema" (file_name f) (schemas m) (mg_schemas g) (mg_diags g ++ ds1) Hs) as H2.
  destruct (merge_section _ _ _ (schemas m) _) as [[ss schs] d2]. destruct H2 as (Hs' & Hsu & ds2 & -> & He2 & Hd2).
  pose proof (merge_section_spec "stream" "stream" (file_name f) (streams m) (mg_streams g) ((mg_diags g ++ ds1) ++ ds2) Ht) as H3.
  destruct (merge_section _ _ _ (streams m) _) as [[st strs] d3]. destruct H3 as (Ht' & Htu & ds3 & -> & He3 & Hd3).
  pose proof (merge_section_spec "table" "table" (file_name f) (m_tables m) (mg_tables g) (((mg_diags g ++ ds1) ++ ds2) ++ ds3) Hu) as H4.
  destruct (merge_section _ _ _ (m_tables m) _) as [[ts tabs] d4]. destruct H4 as (Hu' & Huu & ds4 & -> & He4 & Hd4).
  destruct (into_rules_map json_error (m_rules m)) as [e|rm].
  { destruct (mg_rules g) as [rr0 rules0]. split.
    - split_and!; simpl; [done..| |by rewrite Hv]. unfold all_errors in *. rewrite !Forall_app. split_and!; try done. by constructor.
    - eexists. split_and!; [simpl; by rewrite <- !app_assoc| |done]. split; [|by intros (x & ? & _)]. intros Hnil.
      by repeat (apply app_eq_nil in Hnil as [_ Hnil]). }
  pose proof (merge_section_spec "rule" "rule ID" (file_name f) (Structured <$> rm) (mg_rules g)
    ((((mg_diags g ++ ds1) ++ ds2) ++ ds3) ++ ds4) Hr) as H5.
  destruct (merge_section _ _ _ (Structured <$> rm) _) as [[rr rules] d5]. destruct H5 as (Hr' & Hru & ds5 & -> & He5 & Hd5).
  simpl in *. subst conns schs strs tabs rules. split.
  - split_and!; simpl; [done..| |by rewrite Hv]. by repeat apply all_errors_app.
  - exists (ds1 ++ ds2 ++ ds3 ++ ds4 ++ ds5). split_and!; [by rewrite <- !app_assoc| |by intros x [= <-]].
    rewrite !app_nil, Hd1, Hd2, Hd3, Hd4, Hd5. split; [|by intros (x & [= <-] & ?)].
    intros Hd. eexists. split; [done|]. by unfold merged, disjoint_sections.
Qed.
#[local] Arguments union_sections : simpl never.
#[local] Arguments merged : simpl never.

(** Each file declares nothing that the files before it declare. *)
Fixpoint distinct_from (x : Sections) (xs : list Sections) : Prop :=
  match xs with [] => True | y :: xs => disjoint_sections x y /\ distinct_from (union_sections x y) xs end.

Definition reads (allow : bool) (f : ManifestFile) (x : Sections) : Prop := read_file allow f = Some x.

Lemma merge_files_spec allow files : forall g, merge_ok g ->
  let g' := foldl (merge_file json_error env allow) g files in
  merge_ok g' /\ exists ds, mg_diags g' = mg_diags g ++ ds /\
    (ds = [] <-> exists xs, Forall2 (reads allow) files xs /\ distinct_from (merged g) xs) /\
    (forall xs, Forall2 (reads allow) files xs -> merged g' = foldl union_sections (merged g) xs).
Proof.
  induction files as [|f files IH]; intros g Hg; simpl.
  - split; [done|]. exists []. split_and!; [by rewrite app_nil_r| |by intros xs Hxs; inversion Hxs].
    split; [|done]. intros _. exists []. split; [constructor|done].
  - pose proof (merge_file_spec allow g f Hg) as Hf. cbv zeta in Hf. destruct Hf as (Hg1 & ds1 & Hds1 & Hd1 & Hm1).
    destruct (IH _ Hg1) as (Hg2 & ds2 & Hds2 & Hd2 & Hm2). split; [done|]. exists (ds1 ++ ds2). split_and!.
    + by rewrite Hds2, Hds1, app_assoc.
    + rewrite app_nil, Hd1, Hd2. split.
      * intros [(x & Hx & Hdis) (xs & Hxs & Hrest)]. exists (x :: xs). split; [by constructor|]. simpl. by rewrite <- (Hm1 x Hx).
      * intros (xs & Hxs & Hrest). inversion Hxs as [|? x ? xs' Hx Hxs']; subst. simpl in Hrest. destruct Hrest as [Hdis Hrest].
        split; [by exists x|]. exists xs'. by rewrite (Hm1 x Hx).
    + intros xs Hxs. inversion Hxs as [|? x ? xs' Hx Hxs']; subst. simpl. by rewrite (Hm2 xs' Hxs'), (Hm1 x Hx).
Qed.

Definition no_sections : Sections := (∅, ∅, ∅, ∅, ∅).

(** The manifest files of a directory, in the order of their names. *)
Definition dir_entries (files : list ManifestFile) : list ManifestFile :=
  (merge_sort entry_leb (map (fun f => (file_name f, f)) (List.filter is_manifest_file files))).*2.

Lemma errors_found ds : all_errors ds -> existsb is_error ds = negb (bool_decide (ds = [])).
Proof. intros Hd. destruct Hd as [|d ds Hd _]; [done|]. simpl. by rewrite Hd. Qed.

(** A directory with manifest files is loaded exactly when every one of them can be read and
    declares no connection, schema, stream, table or rule that another one declares; the
    result then declares what the files declare, and its version is empty.  Otherwise the
    answer is a list of errors that is not empty. *)
Theorem load_dir_disjoint_union files dir allow : dir_entries files <> [] ->
  let all xs := Forall2 (reads allow) (dir_entries files) xs /\ distinct_from no_sections xs in
  match load_from_dir json_error env (inr files) dir allow with
  | inr m => version m = "" /\ exists xs rs, all xs /\ m_rules m = RulesMap rs /\
      (connections m, schemas m, streams m, m_tables m, rs) = foldl union_sections no_sections xs
  | inl ds => ds <> [] /\ all_errors ds /\ forall xs, ~ all xs
  end.
Proof.
  intros Hne all. unfold load_from_dir. fold (dir_entries files). rewrite bool_decide_eq_false_2 by (by destruct (dir_entries files)).
  assert (Hok : merge_ok merge_init).
  { assert (Hs : forall A, seen_ok (∅ : gmap string string, ∅ : gmap string A)) by (intros A k; simpl; rewrite !lookup_empty; by split; intros []).
    split_and!; try apply Hs; [constructor|done]. }
  destruct (merge_files_spec allow (dir_entries files) merge_init Hok) as (Hg & ds & Hds & Hd & Hm).
  set (g := foldl _ _ _) in *. simpl in Hds. rewrite errors_found by apply Hg. rewrite Hds. case_bool_decide as Hnil; simpl.
  - destruct (proj1 Hd Hnil) as (xs & Hxs & Hdis). split; [apply Hg|]. exists xs, (mg_rules g).2.
    split; [done|]. split; [done|]. exact (Hm xs Hxs).
  - split; [done|]. split; [rewrite <- Hds; apply Hg|]. intros xs Hxs. apply Hnil, Hd. by exists xs.
Qed.
End merging.

(** ** Samples *)

Module ManifestSample.
Definition rule (id sql : string) : RuleDefinition := mkRule id None None sql [] None None [].

(** A reader of one-word manifests. *)
Definition word_manifest (s : string) : string + DeclarativeManifest :=
  if bool_decide (s = "") then inl "empty" else inr (mkManifest "v2" ∅ ∅ {[s := "CREATE STREAM " +:+ s]} ∅ (RulesMap ∅)).

#[export] Instance words : ManifestReader := {| read_toml := word_manifest; read_json := word_manifest; read_yaml := word_manifest |}.
#[export] Instance no_json : JsonText RuleDefinition := {| to_json _ := ""; of_json _ := None |}.
Definition sample_env (name : string) : option string := if bool_decide (name = "TOPIC") then Some "t" else None.

Definition files : list ManifestFile :=
  [mkFile "b.yaml" (Some "yaml") (inr "${TOPIC}1"); mkFile "a.JSON" (Some "JSON") (inr "${MISSING:-s}"); mkFile "readme" None (inl "?")].

(** The version of the files is lost. *)
Example directory_version_lost :
  version <$> match load_from_dir (fun _ => "") sample_env (inr files) "etc" false with inr m => Some m | inl _ => None end = Some "" /\
  version <$> match word_manifest "s" with inr m => Some m | inl _ => None end = Some "v2".
Proof. split; vm_compute; reflexivity. Qed.

(** Of two rules with the same id in a list the second silently replaces the first. *)
Example list_ids_collapse :
  into_rules_map (fun _ => "") (RulesList [rule "a" "SELECT 1"; rule "a" "SELECT 2"]) = inr {["a" := rule "a" "SELECT 2"]}.
Proof. by vm_compute. Qed.

Definition segments : list Segment :=
  [Plain (chars "url: "); Ref "T" (chars "OPIC") None; Plain (chars "/"); Ref "X" [] (Some (chars "d-1")); Ref "_" (chars "9") None].
End ManifestSample.
Import ManifestSample.

Lemma interpolate_replaces_references_witness :
  interpolate_env_vars sample_env (of_chars (segments_text segments)) true = inr "url: t/d-1${_9}" /\
  interpolate_env_vars sample_env (of_chars (segments_text segments)) false = inl ["Unresolved environment variable: ${_9}"].
Proof.
  assert (Hs : Forall segment_ok segments).
  { unfold segments. repeat constructor; simpl; repeat (apply not_elem_of_cons; split; [done|]); apply not_elem_of_nil. }
  split.
  - exact (interpolate_replaces_references sample_env segments true Hs).
  - exact (interpolate_replaces_references sample_env segments false Hs).
Defined.

Lemma load_dir_disjoint_union_witness :
  dir_entries files <> [] /\
  match load_from_dir (fun _ => "") sample_env (inr files) "etc" false with
  | inr m => version m = "" /\ exists xs rs, (Forall2 (reads (fun _ => "") sample_env false) (dir_entries files) xs /\ distinct_from no_sections xs) /\
      m_rules m = RulesMap rs /\ (connections m, schemas m, streams m, m_tables m, rs) = foldl union_sections no_sections xs
  | inl ds => ds <> [] /\ all_errors ds /\
      forall xs, ~ (Forall2 (reads (fun _ => "") sample_env false) (dir_entries files) xs /\ distinct_from no_sections xs)
  end.
Proof.
  assert (Hne : dir_entries files <> []) by by vm_compute.
  split; [exact Hne|]. exact (load_dir_disjoint_union (fun _ => "") sample_env files "etc" false Hne).
Defined.
