(* ===== verification/Validator.v ===== *)
(** * The validator of manifests ([crates/rekuiper-sql/src/validator.rs], the names of
      [crates/rekuiper-sql/src/functions.rs])

    Before a manifest touches a running system its statements are parsed, the names they refer
    to are looked up, and its actions and options are inspected.  A parser that panics ends
    the validation: the outcome is [None]. *)

From Stdlib Require Import Ascii.
From S2P Require Import Prelude Rust Characters Json Counters Dlq Ast Engine Values Columns Parser Statements ParserFacts Schema SchemaFacts Kv Managers Manifest ManifestFacts.

Set Default Goal Selector "!".
#[local] Set Warnings "-register-all".

Definition KNOWN_SINK_TYPES : list string :=
  ["mqtt"; "http"; "rest"; "log"; "file"; "memory"; "influx"; "influx2"; "tdengine"; "tdengine3"; "iotdb"; "kafka";
   "sql"; "image"; "nop"; "edgex"; "redis"; "redisPub"; "rabbitmq"; "zmq"; "zeromq"; "video"; "websocket";
   "neuron"; "modbus"; "opcua"; "opc_ua"; "opc-ua"; "otlp"].

Definition BUILTIN_STREAMS : list string := ["demo"; "demo2"; "mockstream"; "mock_stream"; "table1"].

(** ** The function catalogue *)

(** The names of the catalogue, and which of them aggregate. *)
Definition builtin_functions : list string :=
  ["abs"; "ceil"; "ceiling"; "floor"; "round"; "sqrt"; "power"; "pow"; "sin"; "cos"; "tan"; "asin"; "acos"; "atan";
   "atan2"; "exp"; "ln"; "log"; "log2"; "log10"; "sign"; "mod"; "cosh"; "sinh"; "tanh"; "cot"; "radians";
   "degrees"; "bitand"; "bitor"; "bitxor"; "bitnot"; "pi"; "rand"; "conv"; "concat"; "lower"; "upper"; "length";
   "trim"; "ltrim"; "rtrim"; "lpad"; "rpad"; "replace"; "split"; "reverse"; "substr"; "substring"; "startswith";
   "endswith"; "format_time"; "indexof"; "format"; "array_contains"; "array_join"; "keys"; "values"; "object";
   "zip"; "items"; "object_construct"; "object_concat"; "erase"; "object_erase"; "object_pick";
   "obj_to_kvpair_array"; "object_to_kvpair_array"; "to_json"; "tojson"; "parse_json"; "parsejson"; "json_parse";
   "array_create"; "array_position"; "array_positions"; "array_length"; "array_slice"; "array_concat";
   "deduplicate"; "cardinality"; "array_cardinality"; "element_at"; "array_contains_any"; "array_remove";
   "array_distinct"; "array_intersect"; "array_union"; "array_except"; "array_max"; "array_min"; "array_avg";
   "array_flatten"; "array_sort"; "repeat"; "sequence"; "kvpair_array_to_obj"; "array_last_position";
   "array_shuffle"; "array_map"; "now"; "current_timestamp"; "local_timestamp"; "current_date"; "cur_date";
   "current_time"; "cur_time"; "local_time"; "format_date"; "from_unix_time"; "date_parse"; "date_add";
   "date_diff"; "date_calc"; "convert_tz"; "year"; "month"; "day"; "day_of_week"; "day_of_month"; "day_of_year";
   "day_name"; "month_name"; "microsecond"; "last_day"; "to_seconds"; "from_days"; "hour"; "minute"; "second";
   "json_path_query"; "json_path_query_first"; "json_path_exists"; "json_map"; "md5"; "sha256"; "sha512"; "sha1";
   "sha384"; "crc32"; "regexp_matches"; "regexp_replace"; "regexp_substring"; "regexp_substr"; "split_value";
   "numbytes"; "chr"; "trunc"; "hex2dec"; "dec2hex"; "encode"; "base64_encode"; "decode"; "base64_decode";
   "compress"; "decompress"; "cast"; "delay"; "unnest"; "extract"; "coalesce"; "isnan"; "isnumeric"; "nvl";
   "isnull"; "tstamp"; "uuid"; "newuuid"; "avg"; "collect"; "count"; "last_value"; "latest"; "lead"; "max";
   "median"; "merge_agg"; "min"; "percentile"; "percentile_cont"; "percentile_disc"; "row_number"; "stddev";
   "stddevs"; "sum"; "var"; "vars"; "last_agg_hit_count"; "last_agg_hit_time"; "acc_avg"; "acc_count";
   "acc_map_agg"; "acc_max"; "acc_max_by"; "acc_min"; "acc_min_by"; "acc_sum"; "changed_col"; "had_changed"; "lag";
   "changed_cols"; "acc_collect"; "acc_distinct_collect"; "distinct_acc"; "sequence_match"; "sequence_count";
   "event_time"; "meta"; "mqtt"; "rule_id"; "window_end"; "window_start"; "rule_start"; "last_hit_count";
   "last_hit_time"; "get_keyed_state"; "cosine_similarity"; "vector_l2"; "vector_dot"; "vector_match"; "wasm_run"].

Definition builtin_aggregates : list string :=
  ["avg"; "collect"; "count"; "last_value"; "latest"; "lead"; "max"; "median"; "merge_agg"; "min"; "percentile";
   "percentile_cont"; "percentile_disc"; "row_number"; "stddev"; "stddevs"; "sum"; "var"; "vars";
   "last_agg_hit_count"; "last_agg_hit_time"].

Definition is_builtin_function (name : string) : bool := bool_decide (to_ascii_lowercase name ∈ builtin_functions).

Definition pseudo_functions : list string :=
  ["meta"; "window_start"; "window_end"; "cast"; "coalesce"; "isnull"; "dedup"; "element_at"; "cardinality";
   "array_contains"; "array_join"; "now"; "current_timestamp"; "local_timestamp"; "to_seconds"; "json_path_query";
   "json_path_exists"; "latest"; "lag"; "echo"; "countplusone"; "accumulatewordcount"].

Definition is_known_function (name : string) : bool :=
  let lower := to_ascii_lowercase name in
  existsb (fun m => eq_ignore_ascii_case m lower) builtin_functions || bool_decide (lower ∈ pseudo_functions).

(** The names an expression calls, in the order of the text. *)
Fixpoint collect_functions (e : Expr) : list string :=
  let opt o := match o with Some x => collect_functions x | None => [] end in
  match e with
  | Call name args => name :: flat_map collect_functions args
  | Over call partition_by when => collect_functions call ++ opt partition_by ++ opt when
  | BinaryOp l _ r => collect_functions l ++ collect_functions r
  | UnaryOp _ x => collect_functions x
  | Between x low high _ => collect_functions x ++ collect_functions low ++ collect_functions high
  | InList x items _ => collect_functions x ++ flat_map collect_functions items
  | IsNull x _ => collect_functions x
  | FieldAccess parent _ => collect_functions parent
  | Index base index => collect_functions base ++ collect_functions index
  | Slice base lo hi => collect_functions base ++ opt lo ++ opt hi
  | Case operand when_clauses else_clause =>
      opt operand ++ flat_map (fun '(w, t) => collect_functions w ++ collect_functions t) when_clauses ++ opt else_clause
  | WildcardModified _ replace => flat_map (fun '(x, _) => collect_functions x) replace
  | Wildcard | Identifier _ | Literal _ => []
  end.

(** ** Names in a statement *)

Definition trim_matches (c : ascii) (s : string) : string :=
  of_chars (rev (trim_start_char c (rev (trim_start_char c (chars s))))).

Definition source_name (s : string) : string := trim_matches "034" (trim_matches "`" (trim_str s)).

Section validate.
Context `{Unicode} `{JsonText RuleDefinition} (json_error parse_error : string -> string).

Definition source_exists (stream_names table_names : list string) (source : string) : bool :=
  let lower := to_ascii_lowercase source in
  bool_decide (lower ∈ stream_names) || bool_decide (lower ∈ table_names) || bool_decide (lower ∈ BUILTIN_STREAMS).

(** The expressions whose calls are looked up. *)
Definition checked_exprs (stmt : SelectStmt) : list Expr :=
  fields stmt ++ option_list (where_clause stmt) ++ group_by stmt ++ option_list (having stmt)
  ++ option_list (window_filter stmt) ++ option_list (window_trigger_condition stmt).

Definition undefined_source (rule_id clause source : string) : ValidationDiagnostic :=
  error_in "rule" rule_id ("references undefined stream or table '" +:+ source +:+ "' in " +:+ clause +:+ " clause").

Definition validate_rule_select (stmt : SelectStmt) (rule_id : string) (stream_names table_names : list string) : list ValidationDiagnostic :=
  let known := source_exists stream_names table_names in
  let check clause s := if known s then [] else [undefined_source rule_id clause s] in
  check "FROM" (source_name (from stmt))
  ++ flat_map (fun j => check "JOIN" (source_name (target j))) (joins stmt)
  ++ flat_map (fun f => if is_known_function f then [] else [error_in "rule" rule_id ("references unknown function '" +:+ f +:+ "'")])
       (flat_map collect_functions (checked_exprs stmt)).

(** ** Definitions *)

(** The text of an option that names a connection. *)
Definition check_option (connection_names : list string) (entity id : string) (kv : string * string) : list ValidationDiagnostic :=
  let '(opt_key, opt_val) := kv in
  if eq_ignore_ascii_case opt_key "connection" || eq_ignore_ascii_case opt_key "conf_key" then
    let lower := to_ascii_lowercase opt_val in
    if negb (bool_decide (opt_val = "")) && negb (bool_decide (lower ∈ connection_names)) && negb (bool_decide (lower = "default")) then
      [error_in entity id ("references undefined connection '" +:+ opt_val +:+ "' in options")]
    else []
  else [].

Definition check_schema_option (m : DeclarativeManifest) (id : string) (kv : string * string) : list ValidationDiagnostic :=
  let '(opt_key, opt_val) := kv in
  if eq_ignore_ascii_case opt_key "schema" && negb (bool_decide (is_Some (schemas m !! opt_val))) then
    [mkDiag LevelWarning "stream" id ("references schema '" +:+ opt_val +:+ "' not explicitly declared in manifest schemas")]
  else [].

(** What a parser says of a text; [None] is a panic. *)
Definition parsed {A} (r : presult A) : option (option A) :=
  match r with POk a _ => Some (Some a) | PErr => Some None | PPanic | PFuel => None end.

Definition validate_stream (m : DeclarativeManifest) (connection_names : list string) (e : string * string) : option (list ValidationDiagnostic) :=
  let '(name, ddl) := e in
  (fun r => match r with
   | Some stmt => flat_map (fun kv => check_option connection_names "stream" name kv ++ check_schema_option m name kv) (map_to_list (options stmt))
   | None => [error_in "stream" name ("invalid CREATE STREAM DDL syntax: " +:+ parse_error ddl)]
   end) <$> parsed (parse_create_stream (of_str ddl)).

Definition validate_table (connection_names : list string) (e : string * string) : option (list ValidationDiagnostic) :=
  let '(name, ddl) := e in
  (fun r => match r with
   | Some stmt => flat_map (check_option connection_names "table" name) (map_to_list (options stmt))
   | None => [error_in "table" name ("invalid CREATE TABLE DDL syntax: " +:+ parse_error ddl)]
   end) <$> parsed (parse_create_table (of_str ddl)).

(** ** Actions and options *)

Definition is_object (v : value) : bool := match v with VObject _ => true | _ => false end.

Definition validate_action (rule_id : string) (e : string * value) : list ValidationDiagnostic :=
  let '(action_type, props) := e in
  (if existsb (fun k => eq_ignore_ascii_case k (to_ascii_lowercase action_type)) KNOWN_SINK_TYPES then []
   else [mkDiag LevelWarning "rule" rule_id
           ("action '" +:+ action_type +:+ "' is not a known built-in sink type (may require external plugin)")])
  ++ (if is_object props then [] else [error_in "rule" rule_id ("action '" +:+ action_type +:+ "' configuration must be an object")]).

Definition validate_actions (rule_id : string) (actions : list row) : list ValidationDiagnostic :=
  match actions with
  | [] => [error_in "rule" rule_id "must define at least one sink action"]
  | _ => flat_map (fun a : row => flat_map (validate_action rule_id) (map_to_list a)) actions
  end.

Definition validate_options (rule_id : string) (opts : row) : list ValidationDiagnostic :=
  (match opts !! "onError" with
   | Some (VString s) =>
       if bool_decide (to_ascii_lowercase s ∈ ["drop"; "dlq"; "halt"]) then []
       else [error_in "rule" rule_id ("invalid 'onError' option '" +:+ s +:+ "'; must be 'drop', 'dlq', or 'halt'")]
   | Some _ => [error_in "rule" rule_id "'onError' option must be a string ('drop', 'dlq', or 'halt')"]
   | None => []
   end) ++
  match opts !! "dlq" with
  | Some (VObject m) =>
      match object_get "action" m with
      | Some a => if is_object a then [] else [error_in "rule" rule_id "'dlq.action' must be an object specifying a sink action"]
      | None => []
      end
  | Some _ => [error_in "rule" rule_id "'dlq' option must be an object"]
  | None => []
  end.

Definition validate_rule (stream_names table_names : list string) (e : string * RuleDefinition) : option (list ValidationDiagnostic) :=
  let '(rule_id, rule) := e in
  if bool_decide (trim_str (r_sql rule) = "") then Some [error_in "rule" rule_id "SQL statement cannot be empty"]
  else
    (fun r =>
       (match r with
        | Some stmt => validate_rule_select stmt rule_id stream_names table_names
        | None => [error_in "rule" rule_id ("SQL parse error: " +:+ parse_error (r_sql rule))]
        end)
       ++ validate_actions rule_id (r_actions rule)
       ++ from_option (validate_options rule_id) [] (r_options rule))
    <$> parsed (parse_select_text (of_str (r_sql rule))).

(** ** Manifests *)

Record ValidationSummary := mkSummary {
  streams_count : nat; tables_count : nat; rules_count : nat; connections_count : nat; schemas_count : nat;
  errors_count : nat; warnings_count : nat;
}.

Fixpoint concat_outcomes (l : list (option (list ValidationDiagnostic))) : option (list ValidationDiagnostic) :=
  match l with
  | [] => Some []
  | o :: l => ds ← o; rest ← concat_outcomes l; Some (ds ++ rest)
  end.

Definition names_of {A} (m : gmap string A) : list string := map (fun e => to_ascii_lowercase e.1) (sorted_entries m).

Definition manifest_rules (m : DeclarativeManifest) : list ValidationDiagnostic * gmap string RuleDefinition :=
  match into_rules_map json_error (m_rules m) with
  | inr rm => ([], rm)
  | inl e => ([error_in "rules" "catalog" e], ∅)
  end.

Definition manifest_diagnostics (m : DeclarativeManifest) : option (list ValidationDiagnostic) :=
  let conns := names_of (connections m) in
  ds1 ← concat_outcomes (map (validate_stream m conns) (sorted_entries (streams m)));
  ds2 ← concat_outcomes (map (validate_table conns) (sorted_entries (m_tables m)));
  let '(ds3, rm) := manifest_rules m in
  ds4 ← concat_outcomes (map (validate_rule (names_of (streams m)) (names_of (m_tables m))) (sorted_entries rm));
  Some (ds1 ++ ds2 ++ ds3 ++ ds4).

Definition validate_manifest (m : DeclarativeManifest) : option (list ValidationDiagnostic + ValidationSummary) :=
  (fun ds =>
     let errors := length (List.filter is_error ds) in
     let warnings := length (List.filter (fun d => negb (is_error d)) ds) in
     if (errors =? 0)%nat then
       inr (mkSummary (size (streams m)) (size (m_tables m)) (size (manifest_rules m).2) (size (connections m)) (size (schemas m)) errors warnings)
     else inl ds) <$> manifest_diagnostics m.
End validate.

(** * Facts about the validator

    A manifest is accepted exactly when its statements parse and every name it uses is
    declared. *)

#[local] Set Warnings "-register-all".
#[local] Set Warnings "-clear-no-such-hyp".

(** ** Calls of an expression *)

Definition children (e : Expr) : list Expr :=
  match e with
  | Call _ args => args
  | Over call p w => call :: option_list p ++ option_list w
  | BinaryOp l _ r => [l; r]
  | UnaryOp _ x | IsNull x _ => [x]
  | Between x low high _ => [x; low; high]
  | InList x items _ => x :: items
  | FieldAccess p _ => [p]
  | Index b i => [b; i]
  | Slice b lo hi => b :: option_list lo ++ option_list hi
  | Case o cs other => option_list o ++ flat_map (fun c => [c.1; c.2]) cs ++ option_list other
  | WildcardModified _ replace => map fst replace
  | Wildcard | Identifier _ | Literal _ => []
  end.

(** [Within x e]: [x] is [e] or one of its parts, at any depth. *)
Inductive Within (x : Expr) : Expr -> Prop :=
  | within_self : Within x x
  | within_child e c : c ∈ children e -> Within x c -> Within x e.

Lemma flat_map_map {A B C} (f : A -> B) (g : B -> list C) l : flat_map g (map f l) = flat_map (fun x => g (f x)) l.
Proof. induction l as [|x l IH]; [done|]. simpl. by rewrite IH. Qed.

Lemma collect_children e :
  collect_functions e = (match e with Call name _ => [name] | _ => [] end) ++ flat_map collect_functions (children e).
Proof.
  destruct e as [|ex rep|n|v|l op r|op x|x lo hi n|x items n|x n|p f|b i|b lo hi|n args|o cs other|c p w]; simpl;
    rewrite ?app_nil_r; try done.
  - rewrite flat_map_map. apply flat_map_ext. by intros [].
  - by destruct lo, hi; simpl; rewrite ?app_nil_r.
  - assert (Hcs : flat_map (fun '(w, t) => collect_functions w ++ collect_functions t) cs
                  = flat_map collect_functions (flat_map (fun c : Expr * Expr => [c.1; c.2]) cs)).
    { induction cs as [|[w t] cs IH]; [done|]. simpl. by rewrite IH, app_assoc. }
    rewrite !flat_map_app, Hcs. by destruct o, other; simpl; rewrite ?app_nil_r.
  - by destruct p, w; simpl; rewrite ?app_nil_r.
Qed.

Lemma elem_of_flat_map {A B} (f : A -> list B) l y : y ∈ flat_map f l <-> exists x, x ∈ l /\ y ∈ f x.
Proof. rewrite list_elem_of_In, in_flat_map. by setoid_rewrite <- list_elem_of_In. Qed.

Lemma children_smaller (P : Expr -> Prop) : (forall e, (forall c, c ∈ children e -> P c) -> P e) -> forall e, P e.
Proof.
  intros Hstep e. induction e using Expr_ind'; apply Hstep; simpl; intros c Hc;
    repeat match goal with
    | H : _ ∈ [] |- _ => by apply elem_of_nil in H
    | H : _ ∈ _ :: _ |- _ => apply elem_of_cons in H as [->|H]; [done|]
    | H : _ ∈ _ ++ _ |- _ => apply elem_of_app in H as [H|H]
    | H : _ ∈ option_list ?o |- _ => destruct o; simpl in H
    | H : on_option _ (Some ?x) |- _ => specialize (H x eq_refl)
    end; try done.
  all: match goal with H : Forall _ _ |- _ => rewrite list.Forall_forall in H; rename H into Hall end; try by apply Hall.
  - apply list_elem_of_fmap in Hc as (r & -> & Hr). by apply Hall.
  - apply elem_of_flat_map in Hc as (wt & Hwt & Hc). destruct (Hall wt Hwt) as [Hw Ht].
    apply elem_of_cons in Hc as [->|Hc]; [done|]. by apply list_elem_of_singleton in Hc as ->.
Qed.

Lemma collect_within e name : name ∈ collect_functions e <-> exists args, Within (Call name args) e.
Proof.
  revert e. apply (children_smaller (fun e => name ∈ collect_functions e <-> exists args, Within (Call name args) e)). intros e IH.
  rewrite collect_children, elem_of_app, elem_of_flat_map. split.
  - intros [Hown|(c & Hc & Hin)].
    + destruct e as [| | | | | | | | | | | |n args| |]; try by apply elem_of_nil in Hown.
      apply list_elem_of_singleton in Hown as ->. exists args. constructor.
    + apply IH in Hin as [args Hin]; [|done]. exists args. by eapply within_child.
  - intros [args Hw]. inversion Hw as [|? c Hc Hw']; subst; [left; apply list_elem_of_here|]. right. exists c. split; [done|].
    apply IH; [done|]. by exists args.
Qed.

(** ** Diagnostics without errors *)

Definition no_errors (ds : list ValidationDiagnostic) : Prop := Forall (fun d => is_error d = false) ds.

Lemma no_errors_app ds ds' : no_errors (ds ++ ds') <-> no_errors ds /\ no_errors ds'.
Proof. apply Forall_app. Qed.

Lemma no_errors_flat_map {A} (f : A -> list ValidationDiagnostic) l : no_errors (flat_map f l) <-> forall x, x ∈ l -> no_errors (f x).
Proof.
  unfold no_errors. rewrite list.Forall_forall. setoid_rewrite elem_of_flat_map. setoid_rewrite list.Forall_forall. naive_solver.
Qed.

Lemma no_errors_one entity i msg : ~ no_errors [error_in entity i msg].
Proof. intros Hn. by apply list.Forall_cons in Hn as [Hn _]. Qed.

Lemma no_errors_if (b : bool) entity i msg : no_errors (if b then [] else [error_in entity i msg]) <-> b = true.
Proof. destruct b; [split; [done|intros _; constructor]|]. split; [by intros ?%no_errors_one|done]. Qed.

Lemma no_errors_count ds : length (List.filter is_error ds) = 0%nat <-> no_errors ds.
Proof.
  unfold no_errors. induction ds as [|d ds IH]; simpl; [by split|]. rewrite list.Forall_cons, <- IH.
  destruct (is_error d); simpl; split; [lia|by intros [? _]|by intros ?|by intros [_ ?]].
Qed.

Lemma concat_outcomes_ok {A} (f : A -> option (list ValidationDiagnostic)) l :
  (exists ds, concat_outcomes (map f l) = Some ds /\ no_errors ds) <-> forall x, x ∈ l -> exists ds, f x = Some ds /\ no_errors ds.
Proof.
  induction l as [|x l IH]; simpl.
  - split; [by intros _ x ?%elem_of_nil|]. intros _. exists []. split; [done|constructor].
  - split.
    + intros (ds & Hds & Hn). apply bind_Some in Hds as (dx & Hx & Hds). apply bind_Some in Hds as (dl & Hl & [= <-]).
      apply no_errors_app in Hn as [Hnx Hnl]. intros y [->|Hy]%elem_of_cons; [by exists dx|]. apply IH; [|done]. by exists dl.
    + intros Hall. destruct (Hall x (list_elem_of_here _ _)) as (dx & -> & Hnx).
      destruct (proj2 IH) as (ds & -> & Hn); [intros y Hy; apply Hall; by apply list_elem_of_further|].
      eexists. split; [done|]. by apply no_errors_app.
Qed.

(** ** Accepted manifests *)

Section accept.
Context `{Unicode} `{JsonText RuleDefinition} (json_error parse_error : string -> string).

(** A name of a map, in any case. *)
Definition has_name {A} (m : gmap string A) (s : string) : Prop := exists k, is_Some (m !! k) /\ same_key k s.

Definition declared_source (m : DeclarativeManifest) (s : string) : Prop :=
  has_name (streams m) s \/ has_name (m_tables m) s \/ to_ascii_lowercase s ∈ BUILTIN_STREAMS.

(** An option that names a connection names none, the default or a declared one. *)
Definition connections_ok (m : DeclarativeManifest) (stmt : CreateStmt) : Prop :=
  forall k v, options stmt !! k = Some v -> same_key k "connection" \/ same_key k "conf_key" ->
    v = "" \/ same_key v "default" \/ has_name (connections m) v.

Definition select_ok (m : DeclarativeManifest) (stmt : SelectStmt) : Prop :=
  declared_source m (source_name (from stmt)) /\
  (forall j, j ∈ joins stmt -> declared_source m (source_name (target j))) /\
  (forall e name args, e ∈ checked_exprs stmt -> Within (Call name args) e -> is_known_function name = true).

Definition options_ok (opts : row) : Prop :=
  (forall v, opts !! "onError" = Some v -> exists s, v = VString s /\ to_ascii_lowercase s ∈ ["drop"; "dlq"; "halt"]) /\
  (forall v, opts !! "dlq" = Some v -> exists m, v = VObject m /\ forall a, object_get "action" m = Some a -> is_object a = true).

Definition rule_ok (m : DeclarativeManifest) (r : RuleDefinition) : Prop :=
  trim_str (r_sql r) <> "" /\
  (exists stmt rest, parse_select_text (of_str (r_sql r)) = POk stmt rest /\ select_ok m stmt) /\
  r_actions r <> [] /\ (forall (a : row) k v, a ∈ r_actions r -> a !! k = Some v -> is_object v = true) /\
  forall opts, r_options r = Some opts -> options_ok opts.

Definition manifest_ok (m : DeclarativeManifest) : Prop :=
  (forall name ddl, streams m !! name = Some ddl -> exists stmt rest, parse_create_stream (of_str ddl) = POk stmt rest /\ connections_ok m stmt) /\
  (forall name ddl, m_tables m !! name = Some ddl -> exists stmt rest, parse_create_table (of_str ddl) = POk stmt rest /\ connections_ok m stmt) /\
  exists rm, into_rules_map json_error (m_rules m) = inr rm /\ forall id r, rm !! id = Some r -> rule_ok m r.

Lemma elem_of_names {A} (m : gmap string A) s : to_ascii_lowercase s ∈ names_of m <-> has_name m s.
Proof.
  unfold names_of, has_name, same_key. rewrite list_elem_of_fmap. split.
  - intros ([k v] & Hk & Hin). apply elem_of_sorted_entries in Hin. exists k. split; [by eexists|done].
  - intros (k & [v Hv] & Hk). exists (k, v). split; [done|]. by apply elem_of_sorted_entries.
Qed.

Lemma check_option_ok m entity i k v :
  no_errors (check_option (names_of (connections m)) entity i (k, v)) <->
  (same_key k "connection" \/ same_key k "conf_key" -> v = "" \/ same_key v "default" \/ has_name (connections m) v).
Proof.
  unfold check_option. rewrite <- elem_of_names, <- !same_key_bool.
  destruct (eq_ignore_ascii_case k "connection" || eq_ignore_ascii_case k "conf_key") eqn:Hk.
  - apply orb_true_iff in Hk. split.
    + intros Hn _. destruct (decide (v = "")) as [|Hv]; [by left|]. right. rewrite (bool_decide_eq_false_2 _ Hv) in Hn. simpl in Hn.
      case_bool_decide as Hc; [by right|]. case_bool_decide as Hd; simpl in Hn; [left; by apply same_key_bool|by apply no_errors_one in Hn].
    + intros Hv. destruct (Hv Hk) as [->|[Hd|Hc]].
      * constructor.
      * apply same_key_bool in Hd. rewrite (bool_decide_eq_true_2 (to_ascii_lowercase v = "default")) by exact Hd.
        rewrite andb_false_r. constructor.
      * rewrite (bool_decide_eq_true_2 _ Hc), andb_false_r. constructor.
  - apply orb_false_iff in Hk as [H1 H2]. rewrite H1, H2. split; [by intros _ [|]|intros _; constructor].
Qed.

(** A statement that parses gives its diagnostics, one that does not gives an error. *)
Lemma parsed_ok {A} (r : presult A) (f : A -> list ValidationDiagnostic) entity i msg :
  (exists ds, (fun o => match o with Some stmt => f stmt | None => [error_in entity i msg] end) <$> parsed r = Some ds /\ no_errors ds)
  <-> exists stmt rest, r = POk stmt rest /\ no_errors (f stmt).
Proof.
  destruct r as [stmt rest| | |]; simpl; split.
  - intros (ds & [= <-] & Hn). by exists stmt, rest.
  - intros (stmt' & rest' & [= <- <-] & Hn). by eexists.
  - intros (ds & [= <-] & Hn). by apply no_errors_one in Hn.
  - by intros (? & ? & ? & _).
  - by intros (? & ? & _).
  - by intros (? & ? & ? & _).
  - by intros (? & ? & _).
  - by intros (? & ? & ? & _).
Qed.

Lemma check_schema_ok m name kv : no_errors (check_schema_option m name kv).
Proof. destruct kv as [k v]. unfold check_schema_option. destruct (_ && _); by repeat constructor. Qed.

Lemma options_checked m entity name (o : gmap string string) (extra : string * string -> list ValidationDiagnostic) :
  (forall kv, no_errors (extra kv)) ->
  no_errors (flat_map (fun kv => check_option (names_of (connections m)) entity name kv ++ extra kv) (map_to_list o)) <->
  forall k v, o !! k = Some v -> same_key k "connection" \/ same_key k "conf_key" ->
    v = "" \/ same_key v "default" \/ has_name (connections m) v.
Proof.
  intros He. rewrite no_errors_flat_map. split.
  - intros Hall k v Hk. apply elem_of_map_to_list in Hk. specialize (Hall _ Hk). apply no_errors_app in Hall as [Hc _]. exact (proj1 (check_option_ok m entity name k v) Hc).
  - intros Hall [k v] Hk. apply elem_of_map_to_list in Hk. apply no_errors_app. split; [|done]. apply check_option_ok. by apply Hall.
Qed.

Lemma validate_stream_ok m name ddl :
  (exists ds, validate_stream parse_error m (names_of (connections m)) (name, ddl) = Some ds /\ no_errors ds) <->
  exists stmt rest, parse_create_stream (of_str ddl) = POk stmt rest /\ connections_ok m stmt.
Proof.
  unfold validate_stream, connections_ok. rewrite parsed_ok. split; intros (stmt & rest & Hp & Hn); exists stmt, rest; (split; [done|]);
    by apply (options_checked m "stream" name (options stmt) _ (check_schema_ok m name)).
Qed.

Lemma validate_table_ok m name ddl :
  (exists ds, validate_table parse_error (names_of (connections m)) (name, ddl) = Some ds /\ no_errors ds) <->
  exists stmt rest, parse_create_table (of_str ddl) = POk stmt rest /\ connections_ok m stmt.
Proof.
  unfold validate_table, connections_ok. rewrite parsed_ok. split; intros (stmt & rest & Hp & Hn); exists stmt, rest; (split; [done|]).
  - apply (options_checked m "table" name (options stmt) (fun _ => [])); [by constructor|].
    rewrite no_errors_flat_map in *. intros kv Hkv. rewrite app_nil_r. by apply Hn.
  - rewrite no_errors_flat_map. intros [k v] Hkv. apply check_option_ok. apply Hn. by apply elem_of_map_to_list.
Qed.

Lemma source_exists_ok m s : source_exists (names_of (streams m)) (names_of (m_tables m)) s = true <-> declared_source m s.
Proof.
  unfold source_exists, declared_source. rewrite !orb_true_iff, !bool_decide_eq_true, !elem_of_names. tauto.
Qed.

Lemma validate_select_ok m stmt rule_id :
  no_errors (validate_rule_select stmt rule_id (names_of (streams m)) (names_of (m_tables m))) <-> select_ok m stmt.
Proof.
  unfold validate_rule_select, select_ok. rewrite !no_errors_app, !no_errors_flat_map. unfold undefined_source.
  setoid_rewrite no_errors_if. setoid_rewrite source_exists_ok. f_equiv. f_equiv. setoid_rewrite elem_of_flat_map. setoid_rewrite collect_within.
  naive_solver.
Qed.

Lemma validate_action_ok rule_id e : no_errors (validate_action rule_id e) <-> is_object e.2 = true.
Proof.
  destruct e as [k v]. unfold validate_action. rewrite no_errors_app, no_errors_if. split; [by intros [_ ?]|]. intros Hv. split; [|done].
  destruct (existsb _ _); by repeat constructor.
Qed.

Lemma validate_actions_ok rule_id actions :
  no_errors (validate_actions rule_id actions) <->
  actions <> [] /\ forall (a : row) k v, a ∈ actions -> a !! k = Some v -> is_object v = true.
Proof.
  destruct actions as [|a0 l]; [split; [by intros ?%no_errors_one|by intros [? _]]|]. unfold validate_actions.
  rewrite no_errors_flat_map. setoid_rewrite no_errors_flat_map. setoid_rewrite validate_action_ok. split.
  - intros Hall. split; [done|]. intros a k v Ha Hk. apply (Hall a Ha (k, v)). by apply elem_of_map_to_list.
  - intros [_ Hall] a Ha [k v] Hk. apply elem_of_map_to_list in Hk. by eapply Hall.
Qed.

Lemma validate_options_ok rule_id opts : no_errors (validate_options rule_id opts) <-> options_ok opts.
Proof.
  unfold validate_options, options_ok. rewrite no_errors_app. f_equiv.
  - destruct (opts !! "onError") as [v|]; [|split; [done|intros _; constructor]].
    destruct v as [| | |s| |]; try (split; [by intros ?%no_errors_one|by intros Hv; destruct (Hv _ eq_refl) as (? & ? & _)]).
    rewrite no_errors_if, bool_decide_eq_true. split; [intros Hs v [= <-]; by exists s|].
    intros Hv. by destruct (Hv _ eq_refl) as (s' & [= <-] & Hs).
  - destruct (opts !! "dlq") as [v|]; [|split; [done|intros _; constructor]].
    destruct v as [| | | | |m]; try (split; [by intros ?%no_errors_one|by intros Hv; destruct (Hv _ eq_refl) as (? & ? & _)]).
    split.
    + intros Hn v [= <-]. exists m. split; [done|]. intros a Ha. rewrite Ha in Hn. by apply no_errors_if in Hn.
    + intros Hv. destruct (Hv _ eq_refl) as (m' & [= <-] & Hm). destruct (object_get "action" m) as [a|]; [|constructor].
      apply no_errors_if. by apply Hm.
Qed.

Lemma validate_rule_ok m id r :
  (exists ds, validate_rule parse_error (names_of (streams m)) (names_of (m_tables m)) (id, r) = Some ds /\ no_errors ds) <-> rule_ok m r.
Proof.
  unfold validate_rule, rule_ok. case_bool_decide as Ht.
  { split; [intros (ds & [= <-] & Hn); by apply no_errors_one in Hn|by intros [? _]]. }
  set (tail := validate_actions id (r_actions r) ++ from_option (validate_options id) [] (r_options r)).
  assert (Htail : no_errors tail <-> r_actions r <> [] /\ (forall (a : row) k v, a ∈ r_actions r -> a !! k = Some v -> is_object v = true) /\
    forall opts, r_options r = Some opts -> options_ok opts).
  { unfold tail. rewrite no_errors_app, validate_actions_ok. destruct (r_options r) as [o|]; simpl.
    - rewrite validate_options_ok. naive_solver.
    - split; [by intros [[? ?] _]|]. intros (? & ? & _). split; [done|constructor]. }
  destruct (parse_select_text (of_str (r_sql r))) as [stmt rest| | |]; simpl.
  - split.
    + intros (ds & [= <-] & Hn). apply no_errors_app in Hn as [Hs Hn]. apply Htail in Hn. split; [done|]. split; [|done].
      exists stmt, rest. split; [done|]. by apply validate_select_ok in Hs.
    + intros (_ & (stmt' & rest' & [= <- <-] & Hs) & Hn). eexists. split; [done|]. apply no_errors_app.
      split; [by apply validate_select_ok|by apply Htail].
  - split; [|by intros (_ & (? & ? & ? & _) & _)]. intros (ds & [= <-] & Hn). apply list.Forall_cons in Hn as [Hn _]. done.
  - split; [by intros (? & ? & _)|by intros (_ & (? & ? & ? & _) & _)].
  - split; [by intros (? & ? & _)|by intros (_ & (? & ? & ? & _) & _)].
Qed.

Lemma sorted_entries_ok {A} (m : gmap string A) (P : string -> A -> Prop) :
  (forall e, e ∈ sorted_entries m -> P e.1 e.2) <-> forall k v, m !! k = Some v -> P k v.
Proof.
  split.
  - intros Hall k v Hk. by apply (Hall (k, v)), elem_of_sorted_entries.
  - intros Hall [k v] He. apply elem_of_sorted_entries in He. by apply Hall.
Qed.

Lemma concat_entries_ok {A} (f : string * A -> option (list ValidationDiagnostic)) (m : gmap string A) (P : string -> A -> Prop) :
  (forall k v, (exists ds, f (k, v) = Some ds /\ no_errors ds) <-> P k v) ->
  (exists ds, concat_outcomes (map f (sorted_entries m)) = Some ds /\ no_errors ds) <-> forall k v, m !! k = Some v -> P k v.
Proof.
  intros Hf. rewrite concat_outcomes_ok, <- sorted_entries_ok. split; intros Hall [k v] He; apply Hf; exact (Hall (k, v) He).
Qed.

Lemma manifest_accepted m : (exists s, validate_manifest json_error parse_error m = Some (inr s)) <-> manifest_ok m.
Proof.
  assert (Hd : (exists s, validate_manifest json_error parse_error m = Some (inr s)) <->
    exists ds, manifest_diagnostics json_error parse_error m = Some ds /\ no_errors ds).
  { unfold validate_manifest. setoid_rewrite <- no_errors_count. destruct (manifest_diagnostics _ _ m) as [ds|]; simpl.
    - destruct (Nat.eqb_spec (length (List.filter is_error ds)) 0) as [He|He]; split.
      + intros _. by exists ds.
      + intros _. by eexists.
      + by intros (? & ?).
      + intros (ds' & [= <-] & Hn). done.
    - split; [by intros (? & ?)|by intros (? & ? & _)]. }
  rewrite Hd. unfold manifest_ok.
  rewrite <- (concat_entries_ok (validate_stream parse_error m (names_of (connections m))) (streams m) _ (validate_stream_ok m)).
  rewrite <- (concat_entries_ok (validate_table parse_error (names_of (connections m))) (m_tables m) _ (validate_table_ok m)).
  unfold manifest_diagnostics, manifest_rules. destruct (into_rules_map json_error (m_rules m)) as [e|rm]; split.
  - intros (ds & Hds & Hn). apply bind_Some in Hds as (d1 & _ & Hds). apply bind_Some in Hds as (d2 & _ & Hds).
    apply bind_Some in Hds as (d4 & _ & [= <-]). rewrite !no_errors_app in Hn. destruct Hn as (_ & _ & Hn). by apply list.Forall_cons in Hn as [Hn _].
  - by intros (_ & _ & ? & ? & _).
  - intros (ds & Hds & Hn). apply bind_Some in Hds as (d1 & H1 & Hds). apply bind_Some in Hds as (d2 & H2 & Hds).
    apply bind_Some in Hds as (d4 & H4 & [= <-]). rewrite !no_errors_app in Hn. destruct Hn as (Hn1 & Hn2 & Hn4).
    split; [by exists d1|]. split; [by exists d2|]. exists rm. split; [done|].
    apply (concat_entries_ok _ rm (fun _ r => rule_ok m r) (validate_rule_ok m)). by exists d4.
  - intros ((d1 & -> & Hn1) & (d2 & -> & Hn2) & rm' & [= <-] & Hr). simpl.
    apply (concat_entries_ok _ rm (fun _ r => rule_ok m r) (validate_rule_ok m)) in Hr as (d4 & -> & Hn4). simpl.
    eexists. split; [done|]. by rewrite !no_errors_app.
Qed.
(** C19. The validator accepts a manifest, with a summary that counts its entries and no errors,
    exactly when every stream and table definition parses and names, in its connection and
    conf_key options, only declared connections or the default, and every rule has a
    statement that parses, with declared streams or tables behind FROM and JOIN and only
    known functions, at any depth, in its fields, its WHERE, GROUP BY and HAVING clauses and
    its window's filter and trigger condition, actions that are objects, and well-formed
    error options.  ORDER BY, join conditions and the right side of UNION are not looked at
    (see [unchecked_clauses]). *)
Theorem validate_accepts_iff m :
  (exists s rm, validate_manifest json_error parse_error m = Some (inr s) /\ into_rules_map json_error (m_rules m) = inr rm /\
     errors_count s = 0%nat /\ streams_count s = size (streams m) /\ tables_count s = size (m_tables m) /\ rules_count s = size rm)
  <-> manifest_ok m.
Proof.
  rewrite <- manifest_accepted. split; [by intros (s & rm & Hs & _); exists s|]. intros [s Hs].
  destruct (proj1 (manifest_accepted m) (ex_intro _ s Hs)) as (_ & _ & rm & Hrm & _). exists s, rm. split; [done|]. split; [done|].
  unfold validate_manifest, manifest_rules in Hs. rewrite Hrm in Hs. apply fmap_Some in Hs as (ds & _ & Hs).
  destruct (Nat.eqb_spec (length (List.filter is_error ds)) 0) as [He|]; [|done]. injection Hs as ->. by rewrite He.
Qed.
End accept.

(** Every aggregate the evaluator knows is in the catalogue as one, and every name that is one
    in the catalogue is one for the evaluator. *)
Lemma catalogue_aggregates :
  (forall name, name ∈ builtin_functions -> is_aggregate_call name = bool_decide (name ∈ builtin_aggregates)) /\
  forall name, is_aggregate_call name = true -> to_ascii_lowercase name ∈ builtin_functions.
Proof.
  split.
  - assert (Hall : Forall (fun n => is_aggregate_call n = bool_decide (n ∈ builtin_aggregates)) builtin_functions).
    { apply (bool_decide_unpack _). by vm_compute. }
    by rewrite list.Forall_forall in Hall.
  - intros name. unfold is_aggregate_call. generalize (to_ascii_lowercase name). intros n Hn. apply bool_decide_eq_true in Hn.
    repeat (apply elem_of_cons in Hn as [->|Hn]; [apply (bool_decide_unpack _); by vm_compute|]). by apply elem_of_nil in Hn.
Qed.

(** ** Samples *)

Module ValidatorSample.
#[export] Existing Instance ParserSample.ascii_only.
#[export] Instance no_json : JsonText RuleDefinition := {| to_json _ := ""; of_json _ := None |}.

Definition rule_of (sql : string) : RuleDefinition := mkRule "r" None None sql [{["log" := VObject []]}] None None [].
Definition manifest_of (sql : string) : DeclarativeManifest :=
  mkManifest "v1" {["broker" := VObject []]} ∅ {["s1" := "CREATE STREAM s1 () WITH (TYPE=mqtt, CONNECTION=Broker)"]} ∅
    (RulesList [rule_of sql]).
Definition accepted (sql : string) : bool :=
  match validate_manifest (fun _ => "") (fun _ => "") (manifest_of sql) with Some (inr _) => true | _ => false end.

Example accepts_declared_names :
  map accepted ["SELECT abs(a) FROM S1"; "SELECT a FROM s2"; "SELECT a FROM s1 WHERE coalesce(nosuch(a), 1) > 2"; ""] = [true; false; false; false].
Proof. by vm_compute. Qed.

(** Names in the right side of a UNION, in ON and in ORDER BY are not looked up. *)
Example unchecked_clauses :
  map accepted ["SELECT a FROM s1 UNION SELECT a FROM nosuch"; "SELECT a FROM s1 ORDER BY nosuch(a)";
                "SELECT a FROM s1 INNER JOIN s1 AS b ON nosuch(a) = 1"] = [true; true; true].
Proof. by vm_compute. Qed.

(** Two aliases and a function the evaluator dispatches on are unknown to the validator. *)
Example known_to_the_evaluator_only :
  map is_known_function ["euclidean_distance"; "vector_dot_product"; "wasm"; "vector_l2"; "wasm_run"] = [false; false; false; true; true].
Proof. by vm_compute. Qed.
End ValidatorSample.
