(* ===== verification/RuleCheck.v ===== *)
(** * What the server checks of a rule ([crates/rekuiper-server/src/handlers/rules.rs])

    The checks of a rule's options, of its actions and of its statement against the streams,
    tables and functions the server knows, and how a rule is described.  An answer is a status
    code and a body: a text, a JSON document, or the JSON object of an error. *)

From stdpp Require Import pretty.
From S2P Require Import Prelude Rust Characters Json Counters Dlq Ast Engine Values Columns Parser Statements SinkCache SinkFormat DataTemplate FieldMask Schema Kv Managers Validator.

Set Default Goal Selector "!".

Inductive Body := TextBody (text : string) | JsonBody (v : value) | ErrorBody (error : Z) (message : string).

Record Response := mkResponse { code : Z; body : Body }.

Definition text_response (code : Z) (message : string) : Response := mkResponse code (TextBody message).
Definition json_response (v : value) : Response := mkResponse 200 (JsonBody v).
Definition json_error (code error : Z) (message : string) : Response := mkResponse code (ErrorBody error message).

(** The first error of a list of checks. *)
Definition first_error {A E} (f : A -> option E) (l : list A) : option E := list.head (omap f l).

(** ** Options *)

Definition is_integer (v : value) : bool := bool_decide (is_Some (as_i64 v)) || bool_decide (is_Some (as_u64 v)).
Definition is_boolean (v : value) : bool := bool_decide (is_Some (as_bool v)).

Definition boolean_options : list string := ["debug"; "isEventTime"; "sendMetaToSink"; "sendNilField"; "sendError"].
Definition integer_options : list string := ["concurrency"; "bufferLength"].

Definition option_error (kv : string * value) : option string :=
  let '(k, v) := kv in
  if bool_decide (k = "qos") then
    if negb (is_integer v) then Some "invalid rule json: qos must be an integer (0, 1, or 2)"
    else let q := default (-1) (as_i64 v) in
      if (0 <=? q) && (q <=? 2) then None else Some "invalid rule json: qos must be 0, 1, or 2"
  else if bool_decide (k ∈ boolean_options) && negb (is_boolean v) then Some ("invalid rule json: " +:+ k +:+ " must be a boolean")
  else if bool_decide (k ∈ integer_options) && negb (is_integer v) then Some ("invalid rule json: " +:+ k +:+ " must be an integer")
  else None.

Definition validate_rule_options (options : option row) : option string := options ≫= fun o => first_error option_error (map_to_list o).

(** ** Actions *)

Definition SUPPORTED_FORMATS : list string := ["json"; "binary"; "delimited"; "protobuf"; "custom"; "urlencoded"].

(** A text property, empty when it is absent or not a text. *)
Definition text_of (opts : value) (key : string) : option string := get key opts ≫= as_str.
Definition property (opts : value) (key : string) : string := default "" (text_of opts key).

Definition one_of (kind : string) (names : list string) : bool := existsb (eq_ignore_ascii_case kind) names.

(** The first of the properties that is missing. *)
Definition required (kind : string) (opts : value) (keys : list string) : option string :=
  first_error (fun key => if bool_decide (property opts key = "") then Some (kind +:+ " sink is missing property " +:+ key) else None) keys.

Section actions.
Context `{Engine.Text} `{Unicode} `{Lowercase} `{Base64}.

(** What is wrong with a template, if it is not one. *)
Definition template_error (o : option value) : option string :=
  match o ≫= as_str with
  | Some t => match validate_data_template t with Some (inl e) => Some e | _ => None end
  | None => None
  end.

Definition format_error (kind : string) (opts : value) : option string :=
  if eq_ignore_ascii_case kind "image" then None
  else fmt ← text_of opts "format";
    if one_of fmt SUPPORTED_FORMATS then None else Some ("format type " +:+ fmt +:+ " not supported").

Definition mqtt_error (opts : value) : option string :=
  let selector := or_else (get "connectionSelector" opts) (or_else (get "resourceId" opts) (or_else (get "confKey" opts) (get "CONF_KEY" opts))) in
  let has_conn_selector := match selector ≫= as_str with Some s => negb (bool_decide (s = "")) | None => false end in
  if bool_decide (property opts "topic" = "") then Some "mqtt sink is missing property topic"
  else if bool_decide (property opts "server" = "") && negb has_conn_selector then Some "missing server property"
  else None.

Definition upper (s : string) : string := to_str (to_uppercase (of_str s)).
Definition lower (s : string) : string := to_str (to_lowercase (of_str s)).

Definition rest_error (opts : value) : option string :=
  or_else
    (m ← text_of opts "method";
     if bool_decide (upper m ∈ ["GET"; "POST"; "PUT"; "DELETE"; "HEAD"; "PATCH"]) then None else Some ("Not supported HTTP method " +:+ m +:+ "."))
    (bt ← text_of opts "bodyType";
     if eq_ignore_ascii_case bt "form" && negb (eq_ignore_ascii_case (property opts "format") "urlencoded")
     then Some "format must be urlencoded if bodyType is form" else None).

Definition influx_error (opts : value) : option string :=
  first_error (fun key => s ← text_of opts key; if bool_decide (trim_str s = "") then Some ("influx sink is missing property " +:+ key) else None)
    ["addr"; "database"; "measurement"].

Definition image_error (opts : value) : option string :=
  or_else (required "image" opts ["path"])
    (fmt ← text_of opts "format";
     if bool_decide (lower fmt ∈ ["png"; "jpeg"; "jpg"]) then None else Some ("image format type " +:+ fmt +:+ " not supported")).

Definition zmq_error (kind : string) (opts : value) : option string :=
  if bool_decide (default "" (or_else (get "server" opts) (get "url" opts) ≫= as_str) = "")
  then Some (kind +:+ " sink is missing property server") else None.

(** The kinds are tested one after the other; a kind has one name at most. *)
Definition kind_error (kind : string) (opts : value) : option string :=
  if eq_ignore_ascii_case kind "mqtt" then mqtt_error opts
  else if one_of kind ["rest"; "http"] then rest_error opts
  else if eq_ignore_ascii_case kind "influx" then influx_error opts
  else if eq_ignore_ascii_case kind "influx2" then required "influx2" opts ["addr"; "org"; "bucket"; "measurement"]
  else if one_of kind ["tdengine"; "tdengine3"] then required kind opts ["database"; "table"]
  else if eq_ignore_ascii_case kind "iotdb" then required "iotdb" opts ["device"]
  else if eq_ignore_ascii_case kind "image" then image_error opts
  else if one_of kind ["zmq"; "zeromq"] then zmq_error kind opts
  else None.

Definition sink_error (action : row) (ko : string * value) : option string :=
  let '(kind, opts) := ko in
  if bool_decide (kind = "disabled") || bool_decide (kind = "disable") || is_action_disabled action opts then None
  else or_else (template_error (get "dataTemplate" opts)) (or_else (format_error kind opts) (kind_error kind opts)).

Definition action_error (action : row) : option string :=
  or_else (template_error (action !! "dataTemplate")) (first_error (sink_error action) (map_to_list action)).

Definition validate_sink_actions (actions : list row) : option string := first_error action_error actions.
End actions.

(** ** The statement *)

(** The first name that an earlier field has; wildcards have none. *)
Fixpoint duplicate_name (seen : gset string) (fields : list (string * Expr)) : option string :=
  match fields with
  | [] => None
  | (_, Wildcard) :: rest | (_, WildcardModified _ _) :: rest => duplicate_name seen rest
  | (name, _) :: rest => if bool_decide (name ∈ seen) then Some name else duplicate_name ({[name]} ∪ seen) rest
  end.

Definition check_duplicate_fields (stmt : SelectStmt) : option Response :=
  (fun name => text_response 400 ("duplicate field definition " +:+ name)) <$> duplicate_name ∅ (named_fields stmt).

Section statement.
Context (streams : StreamManager) (tables : TableManager).

(** Whether a plugin has the function. *)
Context (plugin_function : string -> bool).

Definition find_unknown_function (stmt : SelectStmt) : option string :=
  List.find (fun name => negb (is_builtin_function name || plugin_function name)) (stmt_called_functions stmt).

Definition check_rule_functions (stmt : SelectStmt) : option Response :=
  (fun f => text_response 422 ("invalid rule json: Parse SQL ... error: function " +:+ f +:+ " not found.")) <$> find_unknown_function stmt.

Definition is_event_time (options : option row) : bool := default false ((options ≫= fun o => o !! "isEventTime") ≫= as_bool).

(** The first option of a stream with a name, in any case. *)
Definition stream_option (name : string) (d : StreamDefinition) : option string :=
  snd <$> List.find (fun kv => eq_ignore_ascii_case kv.1 name) (map_to_list (s_options d)).

Definition event_time_error (stmt : SelectStmt) (options : option row) : option Response :=
  if is_event_time options then
    d ← get_stream (from stmt) streams;
    match stream_option "TIMESTAMP" d with
    | Some _ => None
    | None => Some (json_error 400 1000 "preprocessor is set to be event time but stream option TIMESTAMP not found")
    end
  else None.

Definition is_asof (j : JoinClause) : bool := bool_decide (join_type j = Asof \/ join_type j = LeftAsof).

Definition join_error (stmt : SelectStmt) : option Response :=
  if negb (bool_decide (joins stmt = [])) && bool_decide (window stmt = None) &&
     existsb (fun j => negb (is_asof j) && bool_decide (get_table (target j) tables = None)) (joins stmt)
  then Some (json_error 400 1000 "a time window or count window is required to join multiple streams") else None.

(** The policies of the streams that have one. *)
Definition stream_policies (stmt : SelectStmt) : list (string * string) :=
  omap (fun name => d ← get_stream name streams; pol ← stream_option "buffer_full_policy" d; Some (name, pol)) (from stmt :: map target (joins stmt)).

Definition policy_error (stmt : SelectStmt) : option Response :=
  match stream_policies stmt with
  | [] => None
  | (name, policy) :: rest =>
      first_error (fun sp => if eq_ignore_ascii_case sp.2 policy then None
        else Some (json_error 400 1000 ("conflicting BUFFER_FULL_POLICY in joined streams: stream '" +:+ name +:+ "' uses '" +:+ policy
          +:+ "', but stream '" +:+ sp.1 +:+ "' uses '" +:+ sp.2 +:+ "'"))) rest
  end.

Definition stream_exists (name : string) : bool :=
  bool_decide (is_Some (get_stream name streams)) || bool_decide (is_Some (get_table name tables)).

(** [validation]: unresolved names are answered with 422 instead of 400. *)
Definition resolution_error (stmt : SelectStmt) (validation : bool) : option Response :=
  let status := if validation then 422 else 400 in
  if stream_exists (from stmt) then
    (fun f => json_error status 1000 ("invalid rule json: Parse SQL ... error: function " +:+ f +:+ " not found.")) <$> find_unknown_function stmt
  else Some (json_error status 1000 ("fail to get stream " +:+ from stmt +:+ ", please check if stream is created")).

Definition group_error (stmt : SelectStmt) : option Response :=
  if negb (bool_decide (group_by stmt = [])) && bool_decide (window stmt = None)
  then Some (json_error 400 1000 "select stmt group by should be used with window") else None.

Definition reject_invalid_rule (stmt : SelectStmt) (options : option row) (validation : bool) : option Response :=
  or_else (check_duplicate_fields stmt) (or_else (group_error stmt) (or_else (event_time_error stmt options)
    (or_else (join_error stmt) (or_else (policy_error stmt) (resolution_error stmt validation))))).
End statement.

(** ** Descriptions *)

Section describe.
Context `{Engine.Text}.

Definition not_text (negated : bool) : string := if negated then "NOT " else "".

Fixpoint expr_to_string (e : Expr) : string :=
  match e with
  | Wildcard => "*"
  | WildcardModified except replace =>
      "*" +:+ (if bool_decide (except = []) then "" else " EXCEPT(" +:+ join ", " except +:+ ")")
      +:+ (if bool_decide (length replace = 0%nat) then "" else " REPLACE(" +:+ join ", " (map (fun r => expr_to_string r.1 +:+ " AS " +:+ r.2) replace) +:+ ")")
  | Identifier name => name
  | Literal v => value_to_string v
  | BinaryOp l op r => expr_to_string l +:+ " " +:+ op_text op +:+ " " +:+ expr_to_string r
  | UnaryOp Not x => "NOT " +:+ expr_to_string x
  | UnaryOp Neg x => "-" +:+ expr_to_string x
  | Between x low high negated => expr_to_string x +:+ " " +:+ not_text negated +:+ "BETWEEN " +:+ expr_to_string low +:+ " AND " +:+ expr_to_string high
  | InList x items negated => expr_to_string x +:+ " " +:+ not_text negated +:+ "IN (" +:+ join ", " (map expr_to_string items) +:+ ")"
  | IsNull x negated => expr_to_string x +:+ " IS " +:+ not_text negated +:+ "NULL"
  | FieldAccess parent field => expr_to_string parent +:+ "." +:+ field
  | Index base i => expr_to_string base +:+ "[" +:+ expr_to_string i +:+ "]"
  | Slice base lo hi => expr_to_string base +:+ "[" +:+ from_option expr_to_string "" lo +:+ ":" +:+ from_option expr_to_string "" hi +:+ "]"
  | Call name args => name +:+ "(" +:+ join ", " (map expr_to_string args) +:+ ")"
  | Case _ _ _ => "CASE ... END"
  | Over call _ _ => expr_to_string call +:+ " OVER (...)"
  end.

Definition time_unit_to_string (u : TimeUnit) : string :=
  match u with Dd => "dd" | Hh => "hh" | Mi => "mi" | Ss => "ss" | Ms => "ms" end.

Definition window_to_string (w : WindowDef) : string :=
  let of_unit u l := time_unit_to_string u +:+ ", " +:+ pretty l in
  let of_nat n := pretty (Z.of_nat n) in
  match w with
  | TumblingTime u l => "TUMBLINGWINDOW(" +:+ of_unit u l +:+ ")"
  | HoppingTime u l i => "HOPPINGWINDOW(" +:+ of_unit u l +:+ ", " +:+ pretty i +:+ ")"
  | SlidingTime u l (Some d) => "SLIDINGWINDOW(" +:+ of_unit u l +:+ ", " +:+ pretty d +:+ ")"
  | SlidingTime u l None => "SLIDINGWINDOW(" +:+ of_unit u l +:+ ")"
  | CountWindow n (Some i) => "COUNTWINDOW(" +:+ of_nat n +:+ ", " +:+ of_nat i +:+ ")"
  | CountWindow n None => "COUNTWINDOW(" +:+ of_nat n +:+ ")"
  | Session u m t => "SESSIONWINDOW(" +:+ of_unit u m +:+ ", " +:+ pretty t +:+ ")"
  | StateWindow b (Some e) => "STATEWINDOW(" +:+ expr_to_string b +:+ ", " +:+ expr_to_string e +:+ ")"
  | StateWindow b None => "STATEWINDOW(" +:+ expr_to_string b +:+ ")"
  end.

Definition object_value (l : list (string * value)) : value := row_to_value (list_to_map l).
Definition texts (l : list string) : value := VArray (map VString l).
Definition optional_text (o : option string) : value := from_option VString VNull o.

(** [get_rule_topo]: the graph of a rule that has one with nodes, or of its statement. *)
Definition graph_topology (g : GraphDefinition) : value :=
  object_value [("sources", texts (topo_sources (graph_topo g))); ("nodes", texts (map_to_list (graph_nodes g)).*1);
    ("edges", row_to_value ((fun l => texts l) <$> topo_edges (graph_topo g)))].

Definition statement_topology (stmt : SelectStmt) : value :=
  let source := "source_" +:+ from stmt in
  object_value [("sources", texts [from stmt]); ("nodes", texts [source; "op_eval"; "sink_actions"]);
    ("edges", object_value [(source, texts ["op_eval"]); ("op_eval", texts ["sink_actions"])])].

(** [get_rule_explain] *)
Definition explanation (name : string) (actions : list row) (stmt : SelectStmt) : value :=
  object_value [("rule", VString name); ("source", VString (from stmt)); ("projection", texts (map expr_to_string (Ast.fields stmt)));
    ("filter", optional_text (expr_to_string <$> where_clause stmt)); ("window", optional_text (window_to_string <$> window stmt));
    ("groupBy", texts (map expr_to_string (group_by stmt))); ("having", optional_text (expr_to_string <$> having stmt));
    ("actions", texts (flat_map (fun a => (map_to_list a).*1) actions))].
End describe.

(** ** Tags *)

Definition strings_of (v : value) : option (list string) := match v with VArray l => Some (omap as_str l) | _ => None end.

Definition extract_tags_from_value (v : value) : list string :=
  let one key := (fun s => [s]) <$> (get key v ≫= as_str) in
  default [] (or_else (get "tags" v ≫= strings_of) (or_else (get "keys" v ≫= strings_of) (or_else (one "tag") (or_else (one "key") (strings_of v))))).

(** What a request makes of the tags of a rule. *)
Definition replace_tags (new tags : list string) : list string := new.
Definition add_tags (new tags : list string) : list string := foldl (fun ts t => if bool_decide (t ∈ ts) then ts else ts ++ [t]) tags new.
Definition remove_tags (old tags : list string) : list string :=
  if bool_decide (old = []) then [] else List.filter (fun t => negb (bool_decide (t ∈ old))) tags.

(** The rules with all of the tags; none when there are none to look for. *)
Definition rules_with_tags (search : list string) (defs : list RuleDefinition) : list string :=
  if bool_decide (search = []) then []
  else merge_sort string_le (map r_id (List.filter (fun d => forallb (fun t => bool_decide (t ∈ r_tags d)) search) defs)).
