(* ===== verification/Server.v ===== *)
(** * The server's requests ([crates/rekuiper-server/src/handlers/rules.rs], [streams.rs] and
      [reset_configuration] of [data.rs], [restore_running_rules] of [engine/mod.rs])

    What a request makes of the managers, the tasks of the rules and the sources of the
    streams.  A request runs to its end before the next one.  [None] as an answer is a panic
    of the SQL parser, which ends the request.  Traces are left out. *)

From Stdlib Require Import Ascii.
From S2P Require Import Prelude Rust Characters Json Counters Dlq Ast Engine Columns Values Delimited EdgeX Parser Statements SinkCache SinkFormat DataTemplate FieldMask SharedSources Schema Kv Managers Payload RuleManager Manifest GraphRule Validator RuleCheck.

Set Default Goal Selector "!".

(** [sv_table_sources]: the tables whose listeners run, which the code keeps among the sources
    under names of their own; [next_task] numbers the tasks of rules. *)
Record Server := mkServer {
  sv_rules : RuleManager;
  sv_kv : Store;
  sv_streams : StreamManager;
  sv_tables : TableManager;
  sv_sources : AppState;
  sv_table_sources : gset string;
  sv_topics : gset string;
  next_task : nat;
}.

Definition with_rules (rm : RuleManager) (kv : Store) (s : Server) : Server :=
  mkServer rm kv (sv_streams s) (sv_tables s) (sv_sources s) (sv_table_sources s) (sv_topics s) (next_task s).
Definition with_streams (sm : StreamManager) (kv : Store) (s : Server) : Server :=
  mkServer (sv_rules s) kv sm (sv_tables s) (sv_sources s) (sv_table_sources s) (sv_topics s) (next_task s).
Definition with_sources (src : AppState) (s : Server) : Server :=
  mkServer (sv_rules s) (sv_kv s) (sv_streams s) (sv_tables s) src (sv_table_sources s) (sv_topics s) (next_task s).
Definition with_table_sources (ts : gset string) (s : Server) : Server :=
  mkServer (sv_rules s) (sv_kv s) (sv_streams s) (sv_tables s) (sv_sources s) ts (sv_topics s) (next_task s).
Definition with_table_manager (tm : TableManager) (kv : Store) (s : Server) : Server :=
  mkServer (sv_rules s) kv (sv_streams s) tm (sv_sources s) (sv_table_sources s) (sv_topics s) (next_task s).
Definition get_or_create (topic : string) (s : Server) : Server :=
  mkServer (sv_rules s) (sv_kv s) (sv_streams s) (sv_tables s) (sv_sources s) (sv_table_sources s) ({[topic]} ∪ sv_topics s) (next_task s).

Definition server_new (kv : Store) : Server := mkServer rules_new kv ∅ (mkTables ∅ ∅) initial ∅ ∅ 0.

(** ** Requests that may be refused *)

Definition Reply : Type := option Response * Server.

(** A check gives a value, an answer that refuses the request, or the parser's panic. *)
Definition Checked (A : Type) : Type := option (Response + A).

Definition check_then {A B} (m : Checked A) (f : A -> Checked B) : Checked B :=
  match m with Some (inr a) => f a | Some (inl r) => Some (inl r) | None => None end.
Definition refuse_if (o : option Response) : Checked unit := Some (match o with Some r => inl r | None => inr tt end).
Definition accept {A} (a : A) : Checked A := Some (inr a).

(** A request that passes its checks is carried out. *)
Definition when_checked {A} (m : Checked A) (f : A -> Reply) (s : Server) : Reply :=
  match m with Some (inr a) => f a | Some (inl r) => (Some r, s) | None => (None, s) end.

Declare Scope check_scope.
Delimit Scope check_scope with check.
Notation "'let?' x := m 'in' k" := (check_then m (fun x => k)) (at level 10, x pattern, m at level 200, k at level 200) : check_scope.
Open Scope check_scope.

Definition contains (pattern s : string) : bool := bool_decide (is_Some (String.index 0 pattern s)).

Definition check_valid_name (name : string) : option Response :=
  if existsb (fun p => contains p name) [" "; "%20"; ";"; "/"; "\"]
  then Some (text_response 400 ("name '" +:+ name +:+ "' contains invalid characters")) else None.

Definition rule_not_found (name : string) : Response := json_error 404 1002 ("Rule " +:+ name +:+ " not found").

Definition blank (s : string) : bool := bool_decide (trim_str s = "").

Section server.
Context `{Engine.Text} `{Unicode} `{Lowercase} `{Base64} `{JsonReader}.
Context `{JsonText PersistedRule} `{JsonText StreamDefinition} `{JsonText TableDefinition}.

(** Functions of plugins, the source a stream resolves to, what is wrong with the options of a
    video stream, the text of a parser's error. *)
Context (plugin_function : string -> bool) (resolve : StreamManager -> string -> option Source).
Context (video_error : gmap string string -> option string) (parse_error : string -> string).

(** ** Tasks and sources of a rule *)

Definition has_table (s : Server) (name : string) : bool := bool_decide (is_Some (get_table name (sv_tables s))).

Definition bootstrap_table_source (name : string) (s : Server) : Server :=
  if has_table s name then with_table_sources ({[name]} ∪ sv_table_sources s) s else s.
Definition cancel_table_source (name : string) (s : Server) : Server := with_table_sources (sv_table_sources s ∖ {[name]}) s.

Definition catalogue (s : Server) : Catalogue :=
  mkCatalogue (has_table s) (fun name => get_stream name (sv_streams s) ≫= stream_option "TIMESTAMP") (resolve (sv_streams s)) (fun _ src => src).

(** The errors of refused video sources, written to the status of the rule. *)
Definition fail_sources (id : string) (errors : list string) (rm : RuleManager) : RuleManager := foldl (fun rm e => fail_video_source id e rm) rm errors.

Definition bootstrap_sources (id : string) (stmt : SelectStmt) (s : Server) : Server :=
  let '(errors, src) := bootstrap_rule_sources (catalogue s) id stmt (sv_sources s) in
  let s' := with_rules (fail_sources id errors (sv_rules s)) (sv_kv s) (with_sources src s) in
  foldl (fun s name => bootstrap_table_source name s) s' (from stmt :: map target (joins stmt)).

(** [spawn_rule_task], whose task is registered at its end. *)
Definition spawn_rule_task (id : string) (s : Server) : Server :=
  mkServer (set_rule_handle id (next_task s) (sv_rules s)) (sv_kv s) (sv_streams s) (sv_tables s) (sv_sources s) (sv_table_sources s) (sv_topics s)
    (S (next_task s)).

Definition start_tasks (id : string) (stmt : SelectStmt) (s : Server) : Server := bootstrap_sources id stmt (spawn_rule_task id s).

Definition activate_rule (id : string) (s : Server) : Server :=
  match get_rule id (sv_rules s) with
  | Some rule => match parse_select_text (of_str (r_sql rule)) with POk stmt _ => start_tasks id stmt s | _ => s end
  | None => s
  end.

Definition stop_sources (id : string) (s : Server) : Server := with_sources (cancel_rule_source id (sv_sources s)) s.

(** ** Creating and replacing rules *)

Definition with_compiled (sql : string) (actions : list row) (r : RuleDefinition) : RuleDefinition :=
  mkRule (r_id r) (r_name r) (r_version r) sql (if bool_decide (r_actions r = []) then actions else r_actions r) (r_options r) (r_graph r) (r_tags r).

(** A graph is compiled when there is no statement. *)
Definition compile_rule (r : RuleDefinition) : Checked RuleDefinition :=
  match r_graph r with
  | Some g =>
      if blank (r_sql r) then
        match compile_graph_to_sql_and_actions g with
        | Some (inr (sql, actions)) => accept (with_compiled sql actions r)
        | Some (inl e) => Some (inl (json_error 400 1000 ("Invalid rule graph: " +:+ e)))
        | None => None
        end
      else accept r
  | None => accept r
  end.

Definition parse_rule (sql : string) : Checked SelectStmt :=
  match parse_select_text (of_str sql) with
  | POk stmt _ => accept stmt
  | PErr => Some (inl (json_error 400 1000 ("Invalid rule SQL: " +:+ parse_error sql)))
  | _ => None
  end.

Definition bad_rule (o : option string) : option Response := json_error 400 1000 <$> o.

Definition missing_actions (r : RuleDefinition) : option Response :=
  if bool_decide (r_actions r = []) then Some (json_error 400 1000 "invalid rule json: Missing rule actions.") else None.

(** The rule as it is kept, and its statement. *)
Definition check_statement (s : Server) (r : RuleDefinition) : Checked (RuleDefinition * SelectStmt) :=
  let? r := compile_rule r in
  let? _ := refuse_if (missing_actions r) in
  let? stmt := parse_rule (r_sql r) in
  let? _ := refuse_if (reject_invalid_rule (sv_streams s) (sv_tables s) plugin_function stmt (r_options r) false) in
  accept (r, stmt).

Definition check_new_rule (s : Server) (r : RuleDefinition) : Checked (RuleDefinition * SelectStmt) :=
  let? _ := refuse_if (if blank (r_id r) then Some (json_error 400 1000 "Missing rule id.") else None) in
  let? _ := refuse_if (bad_rule (validate_rule_options (r_options r))) in
  let? _ := refuse_if (bad_rule (validate_sink_actions (r_actions r))) in
  check_statement s r.

Definition create_rule (now : Z) (r : RuleDefinition) (s : Server) : Reply :=
  when_checked (check_new_rule s r) (fun '(r, stmt) =>
    match RuleManager.create_rule now r (sv_rules s) (sv_kv s) with
    | (Some e, rm, kv) =>
        let msg := if contains "already exists" e then "Rule " +:+ r_id r +:+ " already exists" else e in
        (Some (json_error 400 1000 msg), with_rules rm kv s)
    | (None, rm, kv) =>
        (Some (text_response 201 ("Rule " +:+ r_id r +:+ " was created successfully.")), start_tasks (r_id r) stmt (with_rules rm kv s))
    end) s.

(** A rule that exists, under a name that is a name. *)
Definition check_rule (name : string) (s : Server) : Checked RuleDefinition :=
  let? _ := refuse_if (check_valid_name name) in
  match get_rule name (sv_rules s) with Some r => accept r | None => Some (inl (rule_not_found name)) end.

Definition with_id (id : string) (r : RuleDefinition) : RuleDefinition :=
  mkRule id (r_name r) (r_version r) (r_sql r) (r_actions r) (r_options r) (r_graph r) (r_tags r).

Definition check_new_definition (name : string) (s : Server) (r : RuleDefinition) : Checked (RuleDefinition * SelectStmt) :=
  let? _ := check_rule name s in
  let? _ := refuse_if (bad_rule (validate_rule_options (r_options r))) in
  let? (r, stmt) := check_statement s (with_id name r) in
  let? _ := refuse_if (bad_rule (validate_sink_actions (r_actions r))) in
  accept (r, stmt).

Definition update_rule (name : string) (r : RuleDefinition) (s : Server) : Reply :=
  when_checked (check_new_definition name s r) (fun '(r, stmt) =>
    match RuleManager.update_rule r (sv_rules s) (sv_kv s) with
    | (inl e, rm, kv) => (Some (json_error 500 1000 e), with_rules rm kv s)
    | (inr was_running, rm, kv) =>
        let s := stop_sources name (with_rules rm kv s) in
        (Some (text_response 200 ("Rule " +:+ name +:+ " was updated successfully.")), if was_running then start_tasks name stmt s else s)
    end) s.

(** The same checks, without a change; unresolved names are answered with 422. *)
Definition check_validated (s : Server) (stmt : SelectStmt) (options : option row) (sources : list string) : Checked Response :=
  let? _ := refuse_if (reject_invalid_rule (sv_streams s) (sv_tables s) plugin_function stmt options true) in
  let? _ := refuse_if (check_rule_functions plugin_function stmt) in
  accept (json_response (object_value [("sources", texts sources); ("valid", VBool true)])).

Definition validate_rule (r : RuleDefinition) (s : Server) : option Response :=
  let checked :=
    let? _ := refuse_if (bad_rule (validate_rule_options (r_options r))) in
    let? _ := refuse_if (bad_rule (validate_sink_actions (r_actions r))) in
    let? _ := refuse_if (if bool_decide (r_actions r = [] /\ r_graph r = None)
                         then Some (json_error 422 1000 "invalid rule json: Missing rule actions.") else None) in
    let? compiled := compile_rule r in
    let? stmt := parse_rule (r_sql compiled) in
    check_validated s stmt (r_options r)
      (match r_graph r with Some g => if blank (r_sql r) then topo_sources (graph_topo g) else [from stmt] | None => [from stmt] end) in
  match checked with Some (inr r) | Some (inl r) => Some r | None => None end.

(** ** Starting and stopping *)

Definition has_status (status name : string) (s : Server) : bool * Server :=
  let '(st, rm) := get_rule_status name (sv_rules s) in
  (from_option (fun st => bool_decide (st_status st = status)) false st, with_rules rm (sv_kv s) s).

(** [f] changes the rule in the manager; when it has, [after] changes the server. *)
Definition change (f : RuleManager -> Store -> option string * RuleManager * Store) (after : Server -> Server) (done : string) (s : Server) : Reply :=
  match f (sv_rules s) (sv_kv s) with
  | (Some e, rm, kv) => (Some (text_response 500 e), with_rules rm kv s)
  | (None, rm, kv) => (Some (text_response 200 done), after (with_rules rm kv s))
  end.

Definition start_rule (now : Z) (name : string) (s : Server) : Reply :=
  let done := "Rule " +:+ name +:+ " was started" in
  when_checked (check_rule name s) (fun _ =>
    let '(running, s) := has_status "running" name s in
    if running then (Some (text_response 200 done), s)
    else change (RuleManager.start_rule now name) (activate_rule name) done s) s.

Definition stop_rule (now : Z) (name : string) (s : Server) : Reply :=
  let done := "Rule " +:+ name +:+ " was stopped." in
  when_checked (check_rule name s) (fun _ =>
    let '(stopped, s) := has_status "stopped" name s in
    if stopped then (Some (text_response 200 done), s)
    else change (RuleManager.stop_rule now name) (stop_sources name) done s) s.

Definition restart_rule (now : Z) (name : string) (s : Server) : Reply :=
  when_checked (check_rule name s) (fun _ =>
    change (RuleManager.restart_rule now name) (fun s => activate_rule name (stop_sources name s)) ("Rule " +:+ name +:+ " was restarted") s) s.

Definition delete_rule (name : string) (s : Server) : Reply :=
  when_checked (check_rule name s) (fun _ =>
    change (RuleManager.delete_rule name) (stop_sources name) ("Rule " +:+ name +:+ " is dropped.") s) s.

(** The rules with one of the tags, or all when there are none; each with its error. *)
Definition bulk (f : string -> RuleManager -> Store -> option string * RuleManager * Store) (after : string -> Server -> Server)
    (tags : list string) (s : Server) : list (string * option string) * Server :=
  foldl (fun '(results, s) (r : RuleDefinition) =>
    if negb (bool_decide (tags = [])) && negb (existsb (fun t => bool_decide (t ∈ r_tags r)) tags) then (results, s)
    else
      let '(e, rm, kv) := f (r_id r) (sv_rules s) (sv_kv s) in
      let s := with_rules rm kv s in
      (results ++ [(r_id r, e)], match e with None => after (r_id r) s | Some _ => s end)) ([], s) (list_rules (sv_rules s)).

Definition bulk_start_rules (now : Z) : list string -> Server -> list (string * option string) * Server :=
  bulk (RuleManager.start_rule now) (fun _ s => s).
Definition bulk_stop_rules (now : Z) : list string -> Server -> list (string * option string) * Server :=
  bulk (RuleManager.stop_rule now) stop_sources.

(** [put_rule_tags], [patch_rule_tags], [delete_rule_tags]; the body is read leniently. *)
Definition tag_rule (f : list string -> list string -> list string) (name : string) (body : list ascii) (s : Server) : Reply :=
  let tags := extract_tags_from_value (default VNull (from_slice body)) in
  when_checked (refuse_if (check_valid_name name)) (fun _ =>
    let '(e, rm, kv) := update_rule_tags name (f tags) (sv_rules s) (sv_kv s) in
    (Some (match e with None => json_response (object_value [("message", VString "success")]) | Some e => text_response 404 e end), with_rules rm kv s)) s.

(** A rule whose error policy is to halt stops itself. *)
Definition halt_rule (now : Z) (id msg : string) (s : Server) : Server :=
  let '(_, rm, kv) := halt_rule_with_error now id msg (sv_rules s) (sv_kv s) in with_rules rm kv s.

(** ** Restarting and resetting *)

Definition restore_rule (s : Server) (r : RuleDefinition) : Server :=
  let '(running, s) := has_status "running" (r_id r) s in
  if running then match parse_select_text (of_str (r_sql r)) with POk stmt _ => start_tasks (r_id r) stmt s | _ => s end else s.

Definition restore_running_rules (s : Server) : Server :=
  let s := foldl (fun s name => bootstrap_table_source name s) s (list_tables (sv_tables s)) in
  foldl restore_rule s (list_rules (sv_rules s)).

Definition reset_rule (s : Server) (r : RuleDefinition) : Server :=
  let '(_, rm, kv) := RuleManager.delete_rule (r_id r) (sv_rules s) (sv_kv s) in stop_sources (r_id r) (with_rules rm kv s).
Definition drop_stream (s : Server) (name : string) : Server := with_sources (cancel_stream_sources name (sv_sources s)) s.
Definition reset_stream (s : Server) (name : string) : Server :=
  let '(_, sm, kv) := Managers.delete_stream name (sv_streams s) (sv_kv s) in drop_stream (with_streams sm kv s) name.
Definition reset_table (s : Server) (name : string) : Server :=
  let '(_, tm, kv) := Managers.delete_table name (sv_tables s) (sv_kv s) in cancel_table_source name (with_table_manager tm kv s).

Definition reset_configuration (s : Server) : Server :=
  let s := foldl reset_rule s (list_rules (sv_rules s)) in
  let s := foldl reset_stream s (list_streams (sv_streams s)) in
  foldl reset_table s (list_tables (sv_tables s)).

(** ** Streams *)

Definition is_one_of (v : string) (names : list string) : bool := existsb (eq_ignore_ascii_case v) names.

Definition stream_option_error (kv : string * string) : option Response :=
  let '(k, v) := kv in
  if eq_ignore_ascii_case k "buffer_full_policy" && negb (is_one_of v ["block"; "dropOldest"])
  then Some (text_response 400 ("Invalid buffer_full_policy: '" +:+ v +:+ "', must be 'block' or 'dropOldest'"))
  else if is_one_of k ["offset_reset"; "offsetreset"] && negb (is_one_of v ["earliest"; "latest"])
  then Some (text_response 400 ("Invalid offset_reset: '" +:+ v +:+ "', must be 'earliest' or 'latest'"))
  else None.

Definition command_error (what e : string) : Response := json_error 400 3000 (what +:+ " command error: " +:+ e).

Definition check_stream_options (options : gmap string string) : Checked unit :=
  let? _ := refuse_if (first_error stream_option_error (map_to_list options)) in
  refuse_if (command_error "Stream" <$> video_error options).

Definition to_stream_fields (cols : list StreamColumn) : list StreamField :=
  map (fun c => mkField (col_name c) (data_type c) (default_value c)) cols.

Definition field_value (f : StreamField) : value :=
  object_value ([("Name", VString (f_name f)); ("FieldType", VString (f_type f))] ++
    match f_default f with Some d => [("DefaultValue", VString d)] | None => [] end).

Definition describe (name : string) (fields : list StreamField) (options : gmap string string) (stream_type : Z) : value :=
  object_value [("Name", VString name); ("StreamFields", VArray (map field_value fields)); ("Options", row_to_value (VString <$> options));
    ("StreamType", value_of_i64 stream_type); ("Statement", VNull)].
Definition describe_stream (d : StreamDefinition) : value := describe (s_name d) (s_fields d) (s_options d) 0.
Definition describe_table (d : TableDefinition) : value := describe (t_name d) (t_fields d) (t_options d) 1.

Definition describe_error (what noun name : string) : Response :=
  json_error 400 3000 ("describe " +:+ what +:+ " error: Describe " +:+ noun +:+ " fails, " +:+ name +:+ " is not found.").

(** [split_whitespace] *)
Fixpoint words_from (cur : input) (s : input) : list input :=
  let word := if bool_decide (cur = []) then [] else [rev cur] in
  match s with
  | [] => word
  | c :: r => if is_space c then word ++ words_from [] r else words_from (c :: cur) r
  end.

Definition unquoted (s : input) : input :=
  let mark c := bool_decide (c ∈ cps "'`;") || (c =? 34) in (Characters.span mark (rev (Characters.span mark (rev s)).2)).2.

(** [SHOW STREAMS] and [DESCRIBE STREAM name], in any case. *)
Inductive StreamCommand := ShowStreams | DescribeStream (target : string) | OtherCommand.

Definition stream_command (sql : string) : StreamCommand :=
  let word w := to_str (map upper_cp w) in
  match words_from [] (of_str sql) with
  | a :: b :: rest =>
      if bool_decide (word a = "SHOW" /\ word b = "STREAMS") then ShowStreams
      else if bool_decide (word a = "DESCRIBE" /\ word b = "STREAM") then DescribeStream (to_str (unquoted (default [] (list.head rest))))
      else OtherCommand
  | _ => OtherCommand
  end.

Definition parse_ddl (p : input -> presult CreateStmt) (sql : string) (refused : string -> Response) : Checked CreateStmt :=
  match p (of_str sql) with
  | POk stmt _ => accept stmt
  | PErr => Some (inl (refused (parse_error sql)))
  | _ => None
  end.

Definition exists_error (what name e : string) : string :=
  if contains "already exists" e then what +:+ " command error: Create " +:+ to_ascii_lowercase what +:+ " fails: Item " +:+ name +:+ " already exists."
  else what +:+ " command error: " +:+ e.

Definition add_stream (d : StreamDefinition) (s : Server) : Reply :=
  match Managers.create_stream d (sv_streams s) (sv_kv s) with
  | (Some e, sm, kv) => (Some (json_error 400 3000 (exists_error "Stream" (s_name d) e)), with_streams sm kv s)
  | (None, sm, kv) => (Some (text_response 201 ("Stream " +:+ s_name d +:+ " is created.")), get_or_create (s_name d) (with_streams sm kv s))
  end.

Definition create_stream_sql (sql : string) (s : Server) : Reply :=
  match stream_command sql with
  | ShowStreams => (Some (mkResponse 201 (JsonBody (texts (list_streams (sv_streams s))))), s)
  | DescribeStream target =>
      (Some (if bool_decide (target = "") then text_response 400 "Missing stream name in DESCRIBE STREAM"
             else match get_stream target (sv_streams s) with
                  | Some d => mkResponse 201 (JsonBody (describe_stream d))
                  | None => describe_error "stream" "stream" target
                  end), s)
  | OtherCommand =>
      when_checked (let? stmt := parse_ddl parse_create_stream sql (command_error "Stream") in
                    let? _ := check_stream_options (options stmt) in accept stmt)
        (fun stmt => add_stream (mkStream (create_name stmt) sql (to_stream_fields (create_fields stmt)) (options stmt)) s) s
  end.

(** [create_stream]: a statement, or a name alone. *)
Definition create_stream (sql name : option string) (s : Server) : Reply :=
  match sql, name with
  | Some sql, _ => create_stream_sql sql s
  | None, Some name => add_stream (mkStream name "" [] ∅) s
  | None, None => (Some (json_error 400 3000 "Missing sql or name in request"), s)
  end.

Definition delete_stream (name : string) (s : Server) : Reply :=
  when_checked (refuse_if (check_valid_name name)) (fun _ =>
    match Managers.delete_stream name (sv_streams s) (sv_kv s) with
    | (Some e, sm, kv) => (Some (text_response 404 e), with_streams sm kv s)
    | (None, sm, kv) => (Some (text_response 200 ("Stream " +:+ name +:+ " is dropped.")), drop_stream (with_streams sm kv s) name)
    end) s.

(** The statement of a body: text, or the member [sql] of an object. *)
Definition body_sql (what : string) (body : list ascii) : Checked string :=
  let? _ := refuse_if (if bool_decide (body = []) then Some (text_response 400 ("Missing " +:+ what +:+ " definition")) else None) in
  match from_slice body with
  | Some v => match text_of v "sql" with Some sql => accept sql | None => Some (inl (text_response 400 "Missing sql in request")) end
  | None => match from_utf8 body with
            | Some text => accept (to_str text)
            | None => Some (inl (text_response 400 ("Invalid " +:+ what +:+ " definition")))
            end
  end.

Definition invalid_sql (e : string) : Response := text_response 400 ("Invalid SQL: " +:+ e).

Definition update_stream (name : string) (body : list ascii) (s : Server) : Reply :=
  when_checked
    (let? _ := refuse_if (check_valid_name name) in
     let? _ := refuse_if (match get_stream name (sv_streams s) with Some _ => None | None => Some (text_response 404 ("Stream " +:+ name +:+ " not found")) end) in
     let? sql := body_sql "stream" body in
     let? stmt := parse_ddl parse_create_stream sql invalid_sql in
     let? _ := check_stream_options (options stmt) in
     accept (sql, stmt))
    (fun '(sql, stmt) =>
       match Managers.update_stream (mkStream name sql (to_stream_fields (create_fields stmt)) (options stmt)) (sv_streams s) (sv_kv s) with
       | (Some e, sm, kv) => (Some (text_response 400 e), with_streams sm kv s)
       | (None, sm, kv) => (Some (text_response 200 ("Stream " +:+ name +:+ " is replaced.")), get_or_create name (with_streams sm kv s))
       end) s.

(** ** Tables *)

Definition create_table (sql : option string) (s : Server) : Reply :=
  match sql with
  | None => (Some (json_error 400 3000 "Missing sql in request"), s)
  | Some sql =>
      when_checked (parse_ddl parse_create_table sql (command_error "Table")) (fun stmt =>
        let name := create_name stmt in
        match Managers.create_table (mkTable name sql (to_stream_fields (create_fields stmt)) (options stmt)) (sv_tables s) (sv_kv s) with
        | (Some e, tm, kv) => (Some (json_error 400 3000 (exists_error "Table" name e)), with_table_manager tm kv s)
        | (None, tm, kv) => (Some (text_response 201 ("Table " +:+ name +:+ " is created.")), bootstrap_table_source name (with_table_manager tm kv s))
        end) s
  end.

(** The listeners stop whether or not the table can be deleted. *)
Definition delete_table (name : string) (s : Server) : Reply :=
  when_checked (refuse_if (check_valid_name name)) (fun _ =>
    let s := cancel_table_source name s in
    match Managers.delete_table name (sv_tables s) (sv_kv s) with
    | (Some e, tm, kv) => (Some (text_response 404 e), with_table_manager tm kv s)
    | (None, tm, kv) => (Some (text_response 200 ("Table " +:+ name +:+ " is dropped.")), with_table_manager tm kv s)
    end) s.

Definition update_table (name : string) (body : list ascii) (s : Server) : Reply :=
  when_checked
    (let? _ := refuse_if (check_valid_name name) in
     let? _ := refuse_if (match get_table name (sv_tables s) with Some _ => None | None => Some (text_response 404 ("Table " +:+ name +:+ " not found")) end) in
     let? sql := body_sql "table" body in
     let? stmt := parse_ddl parse_create_table sql invalid_sql in
     accept (sql, stmt))
    (fun '(sql, stmt) =>
       let s := cancel_table_source name s in
       match Managers.update_table (mkTable name sql (to_stream_fields (create_fields stmt)) (options stmt)) (sv_tables s) (sv_kv s) with
       | (Some e, tm, kv) => (Some (text_response 400 e), with_table_manager tm kv s)
       | (None, tm, kv) => (Some (text_response 200 ("Table " +:+ name +:+ " is replaced.")), bootstrap_table_source name (with_table_manager tm kv s))
       end) s.
End server.

(** * Rules that run have a task, and sources run for rules that run

    Whatever is asked of a server, apart from starting rules in bulk and from rules that halt
    themselves.  A rule whose video source was refused has the status [error] and keeps the
    task it was given. *)

(** ** What is seen of the rules *)

(** The definition of a rule, its task, and its status. *)
Definition view (a : ActiveRule) : RuleDefinition * option nat * string := (a_def a, a_handle a, st_status (a_status a)).
Abbreviation View := (gmap string (RuleDefinition * option nat * string)).
Definition view_of (rm : RuleManager) : View := view <$> rules rm.

(** A rule of this status has a task. *)
Definition alive (status : string) : bool := bool_decide (status = "running") || bool_decide (status = "error").

Section tasks.
Context `{Unicode} (resolve : StreamManager -> string -> option Source).

Definition sources_of (stmt : SelectStmt) : list string := from stmt :: map target (joins stmt).

Definition parses (d : RuleDefinition) (stmt : SelectStmt) : Prop := exists rest, parse_select_text (of_str (r_sql d)) = POk stmt rest.

(** Only a video source that is refused sets a status to an error. *)
Definition status_ok (status : string) : Prop :=
  status = "running" \/ status = "stopped" \/ (status = "error" /\ exists sm stream e, resolve sm stream = Some (InvalidVideo e)).

(** Rules are kept under their names and can be parsed; one that runs or was refused a source
    has a task of its own that has not been aborted, one that is stopped has none.  The rule
    [id] may not have its task yet. *)
Record tasks_ok (except : option string) (v : View) (gone : list nat) (n : nat) : Prop := {
  ok_name : forall id d h st, v !! id = Some (d, h, st) -> r_id d = id /\ exists stmt, parses d stmt;
  ok_status : forall id d h st, v !! id = Some (d, h, st) -> status_ok st;
  ok_task : forall id d h st, v !! id = Some (d, h, st) -> Some id <> except ->
    if alive st then (exists t : nat, h = Some t /\ (t ∉ gone) /\ Nat.lt t n) else h = None;
  ok_none : forall id d h st, v !! id = Some (d, h, st) -> Some id = except -> h = None;
  ok_own : forall id id' d d' t st st', v !! id = Some (d, Some t, st) -> v !! id' = Some (d', Some t, st') -> id = id';
  ok_gone : Forall (fun t => (t < n)%nat) gone;
}.

(** An operation on one rule: its task, if any, is aborted. *)
Lemma server_tasks_change id v v' gone l n : tasks_ok None v gone n -> (forall id', id' <> id -> v' !! id' = v !! id') ->
  (forall t, t ∈ l -> exists d st, v !! id = Some (d, Some t, st)) ->
  (forall d h st, v' !! id = Some (d, h, st) -> r_id d = id /\ (exists stmt, parses d stmt) /\ h = None /\ status_ok st) ->
  tasks_ok (Some id) v' (gone ++ l) n.
Proof.
  intros [Hname Hst Htask _ Hown Hgone] Hother Hl Hid. split.
  - intros id' d h st Hv. destruct (decide (id' = id)) as [->|Hne]; [destruct (Hid _ _ _ Hv) as (? & ? & _); done|].
    rewrite Hother in Hv by done. by eapply Hname.
  - intros id' d h st Hv. destruct (decide (id' = id)) as [->|Hne]; [by destruct (Hid _ _ _ Hv) as (_ & _ & _ & ?)|].
    rewrite Hother in Hv by done. by eapply Hst.
  - intros id' d h st Hv Hne. assert (Hne' : id' <> id) by congruence. rewrite Hother in Hv by done.
    pose proof (Htask _ _ _ _ Hv ltac:(done)) as Ht. destruct (alive st); [|done]. destruct Ht as (t & -> & Ht & Hlt).
    exists t. split_and!; [done| |done]. intros [?|Hin]%elem_of_app; [done|]. destruct (Hl t Hin) as (d' & st' & Hv').
    by apply Hne', (Hown _ _ _ _ _ _ _ Hv Hv').
  - intros id' d h st Hv [= ->]. by apply (Hid d h st).
  - intros i j d d' t st st' Hi Hj. destruct (decide (i = id)) as [->|Hi'].
    { destruct (Hid _ _ _ Hi) as (_ & _ & [=] & _). }
    destruct (decide (j = id)) as [->|Hj']; [destruct (Hid _ _ _ Hj) as (_ & _ & [=] & _)|]. rewrite Hother in Hi, Hj by done. by eapply Hown.
  - apply Forall_app. split; [done|]. apply list.Forall_forall. intros t Ht. destruct (Hl t Ht) as (d & st & Hv).
    pose proof (Htask _ _ _ _ Hv ltac:(done)) as Hb. destruct (alive st); [|done]. by destruct Hb as (? & [= <-] & _ & ?).
Qed.

(** The rule that has no task is stopped. *)
Lemma tasks_stopped id v gone n : tasks_ok (Some id) v gone n -> (forall d h st, v !! id = Some (d, h, st) -> alive st = false) -> tasks_ok None v gone n.
Proof.
  intros [Hname Hst Htask Hnone Hown Hgone] Hstop. split; try done. intros id' d h st Hv _.
  destruct (decide (id' = id)) as [->|Hne]; [|apply (Htask _ _ _ _ Hv); congruence].
  rewrite (Hstop _ _ _ Hv). by apply (Hnone _ _ _ _ Hv).
Qed.

(** The rule keeps its task, or that it has none. *)
Lemma tasks_same id v gone n d h st d' st' : tasks_ok None v gone n -> v !! id = Some (d, h, st) ->
  r_id d' = id -> (exists stmt, parses d' stmt) -> alive st' = alive st -> status_ok st' -> tasks_ok None (<[id := (d', h, st')]> v) gone n.
Proof.
  intros [Hname Hst Htask Hnone Hown Hgone] Hv Hid Hp Hal Hok.
  assert (Hold : forall i di hi si, <[id := (d', h, st')]> v !! i = Some (di, hi, si) -> exists dj sj, v !! i = Some (dj, hi, sj) /\ alive sj = alive si).
  { intros i di hi si [[<- [= <- <- <-]]|[_ Hi]]%lookup_insert_Some; [exists d, st; auto|exists di, si; auto]. }
  split; [| | |done| |done].
  - intros i di hi si [[<- [= <- <- <-]]|[_ Hi]]%lookup_insert_Some; [done|by eapply Hname].
  - intros i di hi si [[<- [= <- <- <-]]|[_ Hi]]%lookup_insert_Some; [done|by eapply Hst].
  - intros i di hi si Hi _. destruct (Hold _ _ _ _ Hi) as (dj & sj & Hj & <-). by apply (Htask _ _ _ _ Hj).
  - intros i j d1 d2 t s1 s2 Hi Hj. destruct (Hold _ _ _ _ Hi) as (? & ? & Hq1 & _), (Hold _ _ _ _ Hj) as (? & ? & Hq2 & _). by eapply Hown.
Qed.

(** The rule gets its task; one that it has is aborted. *)
Lemma tasks_spawn except id d h v gone n : tasks_ok except v gone n -> except = None \/ except = Some id -> v !! id = Some (d, h, "running") ->
  tasks_ok None (<[id := (d, Some n, "running")]> v) (gone ++ option_list h) (S n).
Proof.
  intros [Hname Hst Htask Hnone Hown Hgone] Hex Hv.
  assert (Hold : forall i d' t st, v !! i = Some (d', Some t, st) -> (t < n)%nat).
  { intros i d' t st Hi. destruct (decide (Some i = except)) as [He|He]; [by pose proof (Hnone _ _ _ _ Hi He)|].
    pose proof (Htask _ _ _ _ Hi He) as Hb. destruct (alive st); [|done]. by destruct Hb as (? & [= <-] & _ & ?). }
  assert (Hgone' : Forall (fun t => (t < n)%nat) (gone ++ option_list h)).
  { apply Forall_app. split; [done|]. destruct h as [t|]; [|done]. apply list.Forall_singleton. by eapply Hold. }
  split.
  - intros i d' h' st [[<- [= <- <- <-]]|[_ Hi]]%lookup_insert_Some; [by eapply Hname|by eapply Hname].
  - intros i d' h' st [[<- [= <- <- <-]]|[_ Hi]]%lookup_insert_Some; [by left|by eapply Hst].
  - intros i d' h' st [[<- [= <- <- <-]]|[Hne Hi]]%lookup_insert_Some _.
    + exists n. split_and!; [done| |lia]. intros Hin. rewrite list.Forall_forall in Hgone'. apply Hgone' in Hin. lia.
    + pose proof (Htask _ _ _ _ Hi ltac:(destruct Hex as [->| ->]; congruence)) as Hb. destruct (alive st); [|done].
      destruct Hb as (t & -> & Hg & ?). exists t. split_and!; [done| |lia]. intros [?|Hin]%elem_of_app; [done|].
      destruct h as [t'|]; [|by apply elem_of_nil in Hin]. apply list_elem_of_singleton in Hin as ->. by apply Hne, (Hown _ _ _ _ _ _ _ Hv Hi).
  - done.
  - intros i j d1 d2 t b1 b2 Hi Hj. apply lookup_insert_Some in Hi as [[<- [= <- <- <-]]|[Hni Hi]], Hj as [[<- Hj]|[Hnj Hj]]; try done.
    + apply Hold in Hj. lia.
    + injection Hj as <- <- <-. apply Hold in Hi. lia.
    + by eapply Hown.
  - eapply list.Forall_impl; [exact Hgone'|]. simpl. lia.
Qed.
End tasks.

(** ** What the manager's operations make of it *)

Section manager.
Context `{Unicode} `{JsonText PersistedRule}.

Lemma view_lookup rm id a : rules rm !! id = Some a -> view_of rm !! id = Some (view a).
Proof. intros Ha. unfold view_of. by rewrite lookup_fmap, Ha. Qed.

Lemma view_put id a rm : view_of (put_rule id a rm) = <[id := view a]> (view_of rm).
Proof. unfold view_of, put_rule. simpl. by rewrite fmap_insert. Qed.

Lemma view_abort h rm : view_of (abort_task h rm) = view_of rm.
Proof. done. Qed.

(** An operation fails and changes no rule, or changes the view of one rule to [new] and
    aborts the task it had. *)
Definition one_change (id : string) (new : option (RuleDefinition * option nat * string)) (rm rm' : RuleManager) : Prop :=
  view_of rm' = partial_alter (fun _ => new) id (view_of rm) /\
  exists l, aborted rm' = aborted rm ++ l /\ forall t, t ∈ l -> exists d st, view_of rm !! id = Some (d, Some t, st).

Lemma change_view id d status f rm kv e rm' kv' : change_rule id d status f rm kv = (e, rm', kv') ->
  match e with
  | Some _ => rm' = rm
  | None => exists a, rules rm !! id = Some a /\ rm' = f a rm
  end.
Proof.
  unfold change_rule. destruct (rules rm !! id) as [a|] eqn:Ha; [|by intros [= <- <- <-]].
  destruct (persist_rule _ _ _ _) as [[e0|] kv0]; intros [= <- <- <-]; [done|]. by exists a.
Qed.

Lemma put_insert id x (v : View) : partial_alter (fun _ => Some x) id v = <[id := x]> v.
Proof. done. Qed.

Lemma abort_change id a x v rm : rules rm !! id = Some a -> view x = v -> one_change id (Some v) rm (abort_task (a_handle a) (put_rule id x rm)).
Proof.
  intros Ha <-. split; [by rewrite put_insert, view_abort, view_put|]. exists (option_list (a_handle a)). split; [done|].
  intros t Ht. exists (a_def a), (st_status (a_status a)). rewrite (view_lookup _ _ _ Ha). unfold view. repeat f_equal.
  destruct (a_handle a); simpl in Ht; [|by apply elem_of_nil in Ht]. by apply list_elem_of_singleton in Ht as ->.
Qed.

Lemma quiet_change id x v rm : view x = v -> one_change id (Some v) rm (put_rule id x rm).
Proof. intros <-. split; [by rewrite put_insert, view_put|]. exists []. split; [by rewrite app_nil_r|]. intros t Ht. by apply elem_of_nil in Ht. Qed.

Lemma create_view now d rm kv e rm' kv' : RuleManager.create_rule now d rm kv = (e, rm', kv') ->
  match e with
  | Some _ => rm' = rm
  | None => view_of rm !! r_id d = None /\ one_change (r_id d) (Some (d, None, "running")) rm rm'
  end.
Proof.
  unfold RuleManager.create_rule. case_bool_decide as Hd; [by intros [= <- <- <-]|].
  destruct (persist_rule _ _ _ _) as [[e0|] kv0]; intros [= <- <- <-]; [done|]. split; [|by apply quiet_change].
  unfold view_of. rewrite lookup_fmap. destruct (rules rm !! r_id d); [|done]. by destruct Hd.
Qed.

Lemma update_view d rm kv e rm' kv' : RuleManager.update_rule d rm kv = (e, rm', kv') ->
  match e with
  | inl _ => rm' = rm
  | inr running => exists d0 h0 st, view_of rm !! r_id d = Some (d0, h0, st) /\ running = bool_decide (st = "running") /\
      one_change (r_id d) (Some (d, if running then None else h0, st)) rm rm' /\ (running = false -> aborted rm' = aborted rm)
  end.
Proof.
  unfold RuleManager.update_rule. destruct (change_rule _ _ _ _ _ _) as [[e0 rm0] kv0] eqn:Hc. intros [= <- <- <-].
  apply change_view in Hc. destruct e0 as [e0|]; [done|]. destruct Hc as (a & Ha & ->). rewrite Ha. cbn [from_option].
  exists (a_def a), (a_handle a), (st_status (a_status a)). split; [by rewrite (view_lookup _ _ _ Ha)|]. split; [done|].
  destruct (is_running a) eqn:Hr; (split; [|done]); [by apply abort_change|by apply quiet_change].
Qed.

Lemma start_view now id rm kv e rm' kv' : RuleManager.start_rule now id rm kv = (e, rm', kv') ->
  match e with
  | Some _ => rm' = rm
  | None => exists d h st, view_of rm !! id = Some (d, h, st) /\ one_change id (Some (d, h, "running")) rm rm' /\ aborted rm' = aborted rm
  end.
Proof.
  intros Hc%change_view. destruct e; [done|]. destruct Hc as (a & Ha & ->). exists (a_def a), (a_handle a), (st_status (a_status a)).
  split; [by rewrite (view_lookup _ _ _ Ha)|]. split; [|done]. apply quiet_change. by destruct a as [? [] ? ? ? ?].
Qed.

Lemma stop_view now id rm kv e rm' kv' : RuleManager.stop_rule now id rm kv = (e, rm', kv') ->
  match e with
  | Some _ => rm' = rm
  | None => exists d h st, view_of rm !! id = Some (d, h, st) /\ one_change id (Some (d, None, "stopped")) rm rm'
  end.
Proof.
  intros Hc%change_view. destruct e; [done|]. destruct Hc as (a & Ha & ->). exists (a_def a), (a_handle a), (st_status (a_status a)).
  split; [by rewrite (view_lookup _ _ _ Ha)|].
  apply abort_change; [done|]. by destruct a as [? [] ? ? ? ?].
Qed.

Lemma restart_view now id rm kv e rm' kv' : RuleManager.restart_rule now id rm kv = (e, rm', kv') ->
  match e with
  | Some _ => rm' = rm
  | None => exists d h st, view_of rm !! id = Some (d, h, st) /\ one_change id (Some (d, None, "running")) rm rm'
  end.
Proof.
  intros Hc%change_view. destruct e; [done|]. destruct Hc as (a & Ha & ->). exists (a_def a), (a_handle a), (st_status (a_status a)).
  split; [by rewrite (view_lookup _ _ _ Ha)|]. apply abort_change; [done|]. by destruct a as [? [] ? ? ? ?].
Qed.

Lemma delete_view id rm kv e rm' kv' : RuleManager.delete_rule id rm kv = (e, rm', kv') ->
  match e with Some _ => rm' = rm | None => one_change id None rm rm' end.
Proof.
  unfold RuleManager.delete_rule. destruct (rules rm !! id) as [a|] eqn:Ha; [|by intros [= <- <- <-]].
  destruct (unpersist_rule id kv) as [[e0|] kv0]; intros [= <- <- <-]; [done|]. split.
  - unfold view_of, abort_task. simpl. by rewrite fmap_delete.
  - exists (option_list (a_handle a)). split; [done|]. intros t Ht. exists (a_def a), (st_status (a_status a)).
    rewrite (view_lookup _ _ _ Ha). unfold view. repeat f_equal.
    destruct (a_handle a); simpl in Ht; [|by apply elem_of_nil in Ht]. by apply list_elem_of_singleton in Ht as ->.
Qed.

Lemma tags_view id f rm kv e rm' kv' : update_rule_tags id f rm kv = (e, rm', kv') ->
  match e with
  | Some _ => rm' = rm
  | None => exists d h b tags, view_of rm !! id = Some (d, h, b) /\ view_of rm' = <[id := (with_tags tags d, h, b)]> (view_of rm) /\ aborted rm' = aborted rm
  end.
Proof.
  intros Hc%change_view. destruct e; [done|]. destruct Hc as (a & Ha & ->). eexists _, _, _, _. split; [by apply view_lookup|].
  split; [by rewrite view_put|done].
Qed.

(** Reading a status copies counters into it. *)
Lemma status_view id rm st rm' : get_rule_status id rm = (st, rm') -> view_of rm' = view_of rm /\ aborted rm' = aborted rm /\
  st_status <$> st = (fun a => st_status (a_status a)) <$> rules rm !! id.
Proof.
  unfold get_rule_status. destruct (rules rm !! id) as [a|] eqn:Ha; intros [= <- <-]; [|done]. split_and!; [|done|done].
  rewrite view_put, insert_id; [done|]. rewrite (view_lookup _ _ _ Ha). by destruct a as [d s h c q n].
Qed.

Lemma spawn_view id n rm d h : view_of rm !! id = Some (d, h, "running") ->
  view_of (set_rule_handle id n rm) = <[id := (d, Some n, "running")]> (view_of rm) /\ aborted (set_rule_handle id n rm) = aborted rm ++ option_list h.
Proof.
  unfold view_of at 1. rewrite lookup_fmap. destruct (rules rm !! id) as [a|] eqn:Ha; [|done]. intros [= <- <- Hr].
  unfold set_rule_handle, is_running. rewrite Ha, Hr, bool_decide_true by done. split; [|done]. rewrite view_abort, view_put. unfold view. simpl. by rewrite Hr.
Qed.

Lemma fail_view id e rm : aborted (fail_video_source id e rm) = aborted rm /\
  rules (fail_video_source id e rm) = match rules rm !! id with Some a => <[id := with_status (video_failed e (a_status a)) a]> (rules rm) | None => rules rm end.
Proof. unfold fail_video_source, rule_status_handle, write_status. by destruct (rules rm !! id) as [a|]. Qed.

Lemma fail_sources_view id errors rm a : rules rm !! id = Some a ->
  aborted (fail_sources id errors rm) = aborted rm /\
  view_of (fail_sources id errors rm) = <[id := (a_def a, a_handle a, if bool_decide (errors = []) then st_status (a_status a) else "error")]> (view_of rm) /\
  exists a', rules (fail_sources id errors rm) !! id = Some a' /\
    (errors <> [] -> exists e, e ∈ errors /\ st_message (a_status a') = "Video source validation error: " +:+ e).
Proof.
  revert rm a. unfold fail_sources. induction errors as [|e errors IH]; intros rm a Ha.
  - split_and!; [done| |by exists a]. simpl. rewrite insert_id; [done|]. by rewrite (view_lookup _ _ _ Ha).
  - cbn [foldl]. destruct (fail_view id e rm) as [Hab Hr]. rewrite Ha in Hr.
    destruct (IH (fail_video_source id e rm) (with_status (video_failed e (a_status a)) a)) as (H1 & H2 & a' & H3 & H4); [rewrite Hr; apply lookup_insert_eq|].
    split_and!; [by rewrite H1| |].
    + rewrite H2. unfold view_of. rewrite Hr, fmap_insert, insert_insert_eq. rewrite (bool_decide_false (e :: errors = [])) by done. f_equal.
      cbn [a_def a_handle a_status with_status]. f_equal. case_bool_decide; [by destruct (a_status a)|done].
    + exists a'. split; [done|]. intros _. destruct errors as [|e2 errors].
      * exists e. split; [by left|]. cbn [foldl] in H3. rewrite Hr, lookup_insert_eq in H3. injection H3 as <-. by destruct (a_status a).
      * destruct H4 as (e' & ? & ?); [done|]. exists e'. split; [by right|done].
Qed.
End manager.

(** ** Who reads what *)

Definition Reader (ops : list Op) (rule stream : string) : Prop := exists m, readers_of ops !! stream = Some m /\ is_Some (m !! rule).

Lemma readers_snoc ops op : readers_of (ops ++ [op]) = readers_step (readers_of ops) op.
Proof. unfold readers_of. by rewrite foldl_snoc. Qed.

Lemma run_snoc ops op : run (ops ++ [op]) = op_step (run ops) op.
Proof. unfold run. by rewrite foldl_snoc. Qed.

Lemma join_reader ops resolved rule stream needs_meta mask r st :
  Reader (ops ++ [Join resolved rule stream needs_meta mask]) r st -> Reader ops r st \/ (r = rule /\ st = stream).
Proof.
  unfold Reader. rewrite readers_snoc. intros (m & Hm & Hr). cbn [readers_step] in Hm.
  assert (Hnew : readers_of ops !! st = Some m \/ (st = stream /\ m = <[rule := mask_fields <$> mask]> (default ∅ (readers_of ops !! stream)))).
  { destruct (readers_of ops !! stream) eqn:Hs, (startable resolved); try (by left).
    all: apply lookup_insert_Some in Hm as [[<- <-]|[? ?]]; [by right|by left]. }
  destruct Hnew as [?|[-> ->]]; [left; by exists m|]. destruct Hr as [need [[<- _]|[Hne Hn]]%lookup_insert_Some]; [by right|].
  left. destruct (readers_of ops !! stream) as [m0|]; [by exists m0|]. simpl in Hn. by rewrite lookup_empty in Hn.
Qed.

Lemma leave_reader ops rule r st : Reader (ops ++ [Leave rule]) r st -> Reader ops r st /\ r <> rule.
Proof.
  unfold Reader. rewrite readers_snoc. intros (m & Hm & need & Hr). cbn [readers_step] in Hm. rewrite lookup_omap in Hm.
  apply bind_Some in Hm as (m0 & Hm0 & [-> _]%remaining_some). apply lookup_delete_Some in Hr as [Hne Hr]. split; [by exists m0|done].
Qed.

Lemma drop_reader ops stream r st : Reader (ops ++ [DropStream stream]) r st -> Reader ops r st.
Proof.
  unfold Reader. rewrite readers_snoc. intros (m & Hm & Hr). cbn [readers_step] in Hm.
  apply lookup_delete_Some in Hm as [_ Hm]. by exists m.
Qed.

Section sources.
Context `{Unicode} (cat : Catalogue) (Hplain : forall name src, table_source cat name src = src).

Lemma bootstrap_one_reader id stmt ops name : exists ops', (bootstrap_one cat id stmt (run ops) name).2 = run ops' /\
  forall r st, Reader ops' r st -> Reader ops r st \/ (r = id /\ st = name).
Proof using Hplain.
  unfold bootstrap_one. destruct (is_table cat name).
  - exists ops. split; [apply Hplain|]. by left.
  - eexists (ops ++ [Join _ _ _ _ _]). split; [by rewrite run_snoc|]. intros r st. apply join_reader.
Qed.

Lemma bootstrap_all_cons id stmt name names s :
  let '(e, s1) := bootstrap_one cat id stmt s name in
  bootstrap_all cat id stmt (name :: names) s = (option_list e ++ (bootstrap_all cat id stmt names s1).1, (bootstrap_all cat id stmt names s1).2).
Proof using.
  unfold bootstrap_all. cbn [foldl]. destruct (bootstrap_one cat id stmt s name) as [e s1]. cbn [app].
  generalize (option_list e) as errors. revert s1. clear e. induction names as [|x names IH]; intros s1 errors; [by rewrite app_nil_r|]. cbn [foldl].
  destruct (bootstrap_one cat id stmt s1 x) as [e s2]. rewrite IH. rewrite (IH _ ([] ++ option_list e)). simpl. by rewrite app_assoc.
Qed.

(** Bootstrapping the sources of a statement makes its rule a reader of them only. *)
Lemma bootstrap_reader id stmt ops : exists ops', (bootstrap_rule_sources cat id stmt (run ops)).2 = run ops' /\
  forall r st, Reader ops' r st -> Reader ops r st \/ (r = id /\ st ∈ sources_of stmt).
Proof using Hplain.
  assert (Hl : forall x, x ∈ from stmt :: joined_sources cat stmt -> x ∈ sources_of stmt).
  { intros x [->|Hx]%elem_of_cons; [apply elem_of_cons; by left|]. apply elem_of_cons. right. unfold joined_sources in Hx.
    by apply list_elem_of_In, List.filter_In in Hx as [Hx%list_elem_of_In _]. }
  unfold bootstrap_rule_sources. revert Hl. generalize (from stmt :: joined_sources cat stmt) as l. intros l. revert ops.
  induction l as [|name l IH]; intros ops Hl; [exists ops; split; [done|by left]|].
  pose proof (bootstrap_all_cons id stmt name l (run ops)) as Hcons. destruct (bootstrap_one_reader id stmt ops name) as (ops1 & He & H1).
  destruct (bootstrap_one cat id stmt (run ops) name) as [e s1]. simpl in He. subst s1. rewrite Hcons. cbn [snd]. destruct (IH ops1) as (ops2 & -> & H2).
  { intros x Hx. apply Hl. by right. }
  exists ops2. split; [done|]. intros r st [Hr|?]%H2; [|by right]. apply H1 in Hr as [?|[-> ->]]; [by left|]. right. split; [done|]. apply Hl. by left.
Qed.
End sources.

(** ** The invariant of a server *)

Section invariant.
Context `{Engine.Text} `{Unicode} `{Lowercase} `{Base64} `{JsonReader}.
Context `{JsonText PersistedRule} `{JsonText StreamDefinition} `{JsonText TableDefinition}.
Context (plugin_function : string -> bool) (resolve : StreamManager -> string -> option Source).
Context (video_error : gmap string string -> option string) (parse_error : string -> string).

(** Every reader of a source is a rule that is not stopped and whose statement names the
    stream. *)
Definition sources_ok (v : View) (src : AppState) : Prop :=
  exists ops, src = run ops /\
    forall rule stream, Reader ops rule stream ->
      exists d h st stmt, v !! rule = Some (d, h, st) /\ alive st = true /\ parses d stmt /\ stream ∈ sources_of stmt.

Definition ok (except : option string) (s : Server) : Prop :=
  tasks_ok resolve except (view_of (sv_rules s)) (aborted (sv_rules s)) (next_task s) /\ sources_ok (view_of (sv_rules s)) (sv_sources s).

(** What a request may change besides is of no account. *)
Lemma ok_same except s s' : sv_rules s' = sv_rules s -> sv_sources s' = sv_sources s -> next_task s' = next_task s -> ok except s -> ok except s'.
Proof. unfold ok. by intros -> -> ->. Qed.

Lemma ok_view except s s' : view_of (sv_rules s') = view_of (sv_rules s) -> aborted (sv_rules s') = aborted (sv_rules s) ->
  sv_sources s' = sv_sources s -> next_task s' = next_task s -> ok except s -> ok except s'.
Proof. unfold ok. by intros -> -> -> ->. Qed.

Lemma sources_change id v v' src : sources_ok v src -> (forall id', id' <> id -> v' !! id' = v !! id') ->
  (forall d h st, v !! id = Some (d, h, st) -> alive st = false) -> sources_ok v' src.
Proof.
  intros (ops & -> & Hr) Hother Hid. exists ops. split; [done|]. intros rule stream Hread.
  destruct (Hr _ _ Hread) as (d & h & st & stmt & Hv & Hal & Hp). exists d, h, st, stmt. split; [|done]. rewrite Hother; [done|].
  intros ->. apply Hid in Hv. congruence.
Qed.

(** A rule that keeps what its definition says. *)
Lemma sources_same id d h st d' h' st' v src : sources_ok v src -> v !! id = Some (d, h, st) -> (forall stmt, parses d stmt -> parses d' stmt) ->
  (alive st = true -> alive st' = true) -> sources_ok (<[id := (d', h', st')]> v) src.
Proof.
  intros (ops & -> & Hr) Hv Hd Hal. exists ops. split; [done|]. intros rule stream Hread.
  destruct (Hr _ _ Hread) as (d0 & h0 & st0 & stmt & Hv0 & Hal0 & Hp & Hin). destruct (decide (rule = id)) as [->|Hne].
  - rewrite Hv in Hv0. injection Hv0 as <- <- <-. exists d', h', st', stmt. rewrite lookup_insert_eq. auto.
  - exists d0, h0, st0, stmt. by rewrite lookup_insert_ne.
Qed.

Lemma sources_leave id v v' src : sources_ok v src -> (forall id', id' <> id -> v' !! id' = v !! id') -> sources_ok v' (cancel_rule_source id src).
Proof.
  intros (ops & -> & Hr) Hother. exists (ops ++ [Leave id]). split; [by rewrite run_snoc|].
  intros rule stream [Hread Hne]%leave_reader. destruct (Hr _ _ Hread) as (d & h & st & stmt & Hv & Hp). exists d, h, st, stmt. by rewrite Hother.
Qed.

Lemma sources_drop v stream src : sources_ok v src -> sources_ok v (cancel_stream_sources stream src).
Proof.
  intros (ops & -> & Hr). exists (ops ++ [DropStream stream]). split; [by rewrite run_snoc|]. intros r st Hread%drop_reader. by apply Hr.
Qed.

Lemma sources_end v n src : sources_ok v src -> sources_ok v (end_task n src).
Proof.
  intros (ops & -> & Hr). exists (ops ++ [EndTask n]). split; [by rewrite run_snoc|]. intros r st (m & Hm & Hin). rewrite readers_snoc in Hm. apply Hr. by exists m.
Qed.

Lemma tables_only l : forall s, exists ts, foldl (fun s name => bootstrap_table_source name s) s l = with_table_sources ts s.
Proof.
  induction l as [|name l IH]; intros s; [exists (sv_table_sources s); by destruct s|]. cbn [foldl]. unfold bootstrap_table_source at 2.
  destruct (has_table s name); [|apply IH]. destruct (IH (with_table_sources ({[name]} ∪ sv_table_sources s) s)) as [ts ->]. by exists ts.
Qed.

(** An error of a refused video source comes from what the stream resolves to. *)
Lemma bootstrap_errors cat id stmt src (Hplain : forall name src, table_source cat name src = src) : (bootstrap_rule_sources cat id stmt src).1 <> [] ->
  exists name e, SharedSources.resolve cat name = Some (InvalidVideo e).
Proof using.
  unfold bootstrap_rule_sources. generalize (from stmt :: joined_sources cat stmt) as l. intros l. revert src.
  induction l as [|name l IH]; intros src; [done|]. pose proof (bootstrap_all_cons cat id stmt name l src) as Hcons. unfold bootstrap_one in Hcons.
  destruct (is_table cat name); [rewrite Hcons; apply IH|].
  destruct (SharedSources.resolve cat name) as [[path| |b|e]|] eqn:Hres; [| | |by exists name, e|]; unfold bootstrap_stream_sources in Hcons;
    (case_bool_decide; [rewrite Hcons; apply IH|]);
    (destruct (stream_source_cancels src !! name); [rewrite Hcons; apply IH|]);
    destruct (update_stream_field_mask _ _ _ _); cbn [start_source] in Hcons; rewrite Hcons; apply IH.
Qed.

(** What starting the tasks of a rule that runs makes of the rules. *)
Lemma start_tasks_spec id d h stmt s : view_of (sv_rules s) !! id = Some (d, h, "running") ->
  let '(errors, src) := bootstrap_rule_sources (catalogue resolve s) id stmt (sv_sources s) in
  let s' := start_tasks resolve id stmt s in
  sv_sources s' = src /\ next_task s' = S (next_task s) /\
  view_of (sv_rules s') = <[id := (d, Some (next_task s), if bool_decide (errors = []) then "running" else "error")]> (view_of (sv_rules s)) /\
  aborted (sv_rules s') = aborted (sv_rules s) ++ option_list h /\
  exists a, rules (sv_rules s') !! id = Some a /\
    (errors <> [] -> exists e, e ∈ errors /\ st_message (a_status a) = "Video source validation error: " +:+ e).
Proof using.
  intros Hv. destruct (spawn_view id (next_task s) (sv_rules s) d h Hv) as [Hview Habort]. unfold start_tasks, bootstrap_sources.
  change (catalogue resolve (spawn_rule_task id s)) with (catalogue resolve s). cbn [sv_sources spawn_rule_task].
  destruct (bootstrap_rule_sources (catalogue resolve s) id stmt (sv_sources s)) as [errors src].
  match goal with |- context [foldl ?f ?s0 (from stmt :: ?l)] => destruct (tables_only (from stmt :: l) s0) as [ts ->] end.
  cbn [sv_rules next_task with_table_sources with_sources with_rules sv_sources spawn_rule_task].
  assert (Ha : exists a, rules (set_rule_handle id (next_task s) (sv_rules s)) !! id = Some a /\ view a = (d, Some (next_task s), "running")).
  { assert (Hq : view_of (set_rule_handle id (next_task s) (sv_rules s)) !! id = Some (d, Some (next_task s), "running")) by (rewrite Hview; apply lookup_insert_eq).
    unfold view_of in Hq. rewrite lookup_fmap in Hq. apply fmap_Some in Hq as (a & Ha & Hq). by exists a. }
  destruct Ha as (a & Ha & [= Hd Hh Hs]). destruct (fail_sources_view id errors _ a Ha) as (H1' & H2' & Hmsg). split_and!; [done|done| |rewrite H1'; exact Habort|done].
  rewrite H2', Hview, insert_insert_eq, Hd, Hh, Hs. done.
Qed.

(** A rule that runs and whose task is missing, or is that of an earlier run, gets its task
    and becomes a reader of its sources. *)
Lemma start_tasks_ok except id d h stmt s : ok except s -> except = None \/ except = Some id -> view_of (sv_rules s) !! id = Some (d, h, "running") ->
  parses d stmt -> ok None (start_tasks resolve id stmt s).
Proof using.
  intros [Ht Hs] Hex Hv Hp. pose proof (start_tasks_spec id d h stmt s Hv) as Hspec.
  pose proof (bootstrap_errors (catalogue resolve s) id stmt (sv_sources s) (fun _ _ => eq_refl)) as Herr.
  destruct Hs as (ops & Hops & Hr). destruct (bootstrap_reader (catalogue resolve s) (fun _ _ => eq_refl) id stmt ops) as (ops' & Hrun & Hnew).
  rewrite <- Hops in Hrun. destruct (bootstrap_rule_sources (catalogue resolve s) id stmt (sv_sources s)) as [errors src]. cbn [fst snd] in *.
  destruct Hspec as (Hsrc & Hnext & Hview & Habort & _). split.
  - pose proof (tasks_spawn _ _ _ _ _ _ _ _ Ht Hex Hv) as Hspawn. rewrite Hview, Habort, Hnext. case_bool_decide as He; [done|].
    destruct (ok_name _ _ _ _ _ Ht _ _ _ _ Hv) as [Hid _].
    pose proof (tasks_same resolve id _ _ _ d (Some (next_task s)) "running" d "error" Hspawn (lookup_insert_eq _ _ _) Hid ltac:(by exists stmt) eq_refl) as Hsame.
    rewrite insert_insert_eq in Hsame. apply Hsame. right. right. split; [done|]. destruct (Herr He) as (name & e & ?). by exists (sv_streams s), name, e.
  - rewrite Hsrc, Hrun, Hview. exists ops'. split; [done|]. intros rule stream [Hold|[-> Hin]]%Hnew.
    + destruct (Hr _ _ Hold) as (d' & h' & st' & stmt' & Hv' & Hal' & Hp' & Hin'). destruct (decide (rule = id)) as [->|Hne].
      * rewrite Hv in Hv'. injection Hv' as <- <- <-. eexists _, _, _, stmt'. rewrite lookup_insert_eq. split_and!; [done| |done|done]. by case_bool_decide.
      * exists d', h', st', stmt'. by rewrite lookup_insert_ne.
    + eexists _, _, _, stmt. rewrite lookup_insert_eq. split_and!; [done| |done|done]. by case_bool_decide.
Qed.

(** A change of one rule leaves a server that is right but for the task of that rule. *)
Lemma one_change_tasks id new rm rm' n : tasks_ok resolve None (view_of rm) (aborted rm) n -> one_change id new rm rm' ->
  (forall d h st, new = Some (d, h, st) -> r_id d = id /\ (exists stmt, parses d stmt) /\ h = None /\ status_ok resolve st) ->
  tasks_ok resolve (Some id) (view_of rm') (aborted rm') n.
Proof.
  intros Ht [Hv (l & -> & Hl)] Hnew. rewrite Hv. eapply server_tasks_change; [done|by intros; rewrite lookup_partial_alter_ne|done|].
  intros d h b. rewrite lookup_partial_alter_eq. apply Hnew.
Qed.

Lemma one_change_other id new rm rm' id' : one_change id new rm rm' -> id' <> id -> view_of rm' !! id' = view_of rm !! id'.
Proof. intros [-> _] Hne. by rewrite lookup_partial_alter_ne. Qed.

Lemma one_change_self id new rm rm' : one_change id new rm rm' -> view_of rm' !! id = new.
Proof. intros [-> _]. by rewrite lookup_partial_alter_eq. Qed.

(** ** Requests *)

Lemma check_then_ok {A B} (m : Checked A) (f : A -> Checked B) b : check_then m f = Some (inr b) -> exists a, m = Some (inr a) /\ f a = Some (inr b).
Proof. destruct m as [[r|a]|]; [done| |done]. by exists a. Qed.

Lemma check_statement_parses s r r' stmt : check_statement plugin_function parse_error s r = Some (inr (r', stmt)) -> parses r' stmt /\ r_id r' = r_id r.
Proof.
  unfold check_statement. intros (r1 & Hc & (_ & _ & (stmt1 & Hp & (_ & _ & [= <- <-])%check_then_ok)%check_then_ok)%check_then_ok)%check_then_ok. split.
  - unfold parse_rule in Hp. destruct (parse_select_text _) as [stmt2 rest| | |] eqn:Hs; [|done..]. injection Hp as <-. by exists rest.
  - unfold compile_rule in Hc. destruct (r_graph r) as [g|]; [|by injection Hc as <-]. destruct (blank (r_sql r)); [|by injection Hc as <-].
    destruct (compile_graph_to_sql_and_actions g) as [[e|[sql actions]]|]; [done| |done]. by injection Hc as <-.
Qed.

Lemma check_new_rule_parses s r r' stmt : check_new_rule plugin_function parse_error s r = Some (inr (r', stmt)) -> parses r' stmt /\ r_id r' = r_id r.
Proof.
  unfold check_new_rule. intros (_ & _ & (_ & _ & (_ & _ & Hs)%check_then_ok)%check_then_ok)%check_then_ok.
  by apply check_statement_parses in Hs.
Qed.

Lemma check_new_definition_parses name s r r' stmt : check_new_definition plugin_function parse_error name s r = Some (inr (r', stmt)) ->
  parses r' stmt /\ r_id r' = name.
Proof.
  unfold check_new_definition. intros (_ & _ & (_ & _ & ((r1 & stmt1) & Hs & (_ & _ & [= <- <-])%check_then_ok)%check_then_ok)%check_then_ok)%check_then_ok.
  by apply check_statement_parses in Hs.
Qed.

Lemma when_checked_ok {A} except (m : Checked A) f s : ok except s -> (forall a, m = Some (inr a) -> ok except (f a).2) -> ok except (when_checked m f s).2.
Proof. intros Hs Hf. destruct m as [[r|a]|]; [done| |done]. by apply Hf. Qed.

(** A rule that has been stopped, deleted or left as it was. *)
Lemma rule_stopped_ok id new rm' kv s : ok None s -> one_change id new (sv_rules s) rm' ->
  (forall d h st, new = Some (d, h, st) -> st = "stopped" /\ r_id d = id /\ (exists stmt, parses d stmt) /\ h = None) ->
  ok None (stop_sources id (with_rules rm' kv s)).
Proof.
  intros [Ht Hs] Hc Hnew. split; cbn [sv_rules next_task stop_sources with_sources with_rules sv_sources].
  - apply (tasks_stopped resolve id).
    + eapply one_change_tasks; [done|done|]. intros d h st He. destruct (Hnew _ _ _ He) as (-> & ? & ? & ?). split_and!; [done..|]. right. by left.
    + intros d h st Hv. rewrite (one_change_self _ _ _ _ Hc) in Hv. by destruct (Hnew _ _ _ Hv) as [-> _].
  - eapply sources_leave; [done|]. intros id' Hne. by apply (one_change_other _ _ _ _ _ Hc).
Qed.

Lemma unchanged_ok id rm' kv s : ok None s -> rm' = sv_rules s -> ok None (stop_sources id (with_rules rm' kv s)).
Proof. intros [Ht Hs] ->. split; [done|]. by apply (sources_leave id (view_of (sv_rules s))). Qed.

Lemma rules_same rm' kv s : ok None s -> rm' = sv_rules s -> ok None (with_rules rm' kv s).
Proof. intros Hs ->. by apply (ok_same None s). Qed.

Lemma create_ok now r s : ok None s -> ok None (create_rule plugin_function resolve parse_error now r s).2.
Proof.
  intros Hs. apply when_checked_ok; [done|]. intros [r' stmt] [Hp _]%check_new_rule_parses.
  destruct (RuleManager.create_rule now r' (sv_rules s) (sv_kv s)) as [[e rm] kv] eqn:Hc. apply create_view in Hc.
  destruct e; [by apply rules_same|]. destruct Hc as [Hnone Hc]. destruct Hs as [Ht Hsrc].
  eapply (start_tasks_ok (Some (r_id r'))); [|by right|by apply (one_change_self _ _ _ _ Hc)|done].
  split; [eapply one_change_tasks; [exact Ht|exact Hc|]; intros d h b [= <- <- <-]; split_and!; [done|by exists stmt|done|by left]|].
  eapply sources_change; [done|intros id' Hne; by apply (one_change_other _ _ _ _ _ Hc)|]. intros d h st Hv. cbn in Hv. congruence.
Qed.

(** The definition and the task of a rule, from what is seen of it. *)
Lemma seen s id d h st : ok None s -> view_of (sv_rules s) !! id = Some (d, h, st) ->
  r_id d = id /\ (exists stmt, parses d stmt) /\ (alive st = false -> h = None) /\ status_ok resolve st.
Proof.
  intros [[Hname Hst Htask _ _ _] _] Hv. destruct (Hname _ _ _ _ Hv) as [? ?]. split_and!; [done|done| |by apply (Hst _ _ _ _ Hv)].
  intros Hal. pose proof (Htask _ _ _ _ Hv ltac:(done)) as Ht. by rewrite Hal in Ht.
Qed.

Lemma update_ok name r s : ok None s -> ok None (update_rule plugin_function resolve parse_error name r s).2.
Proof.
  intros Hs. apply when_checked_ok; [done|]. intros [r' stmt] [Hp Hid]%check_new_definition_parses.
  destruct (RuleManager.update_rule r' (sv_rules s) (sv_kv s)) as [[e rm] kv] eqn:Hc. apply update_view in Hc. rewrite Hid in Hc.
  destruct e as [e|running]; [by apply rules_same|]. destruct Hc as (d0 & h0 & st & Hv & -> & Hc & Hab). cbn [snd].
  destruct (seen _ _ _ _ _ Hs Hv) as (_ & _ & _ & Hst). destruct Hs as [Ht Hsrc]. case_bool_decide as Hrun.
  - subst st. eapply (start_tasks_ok (Some name)); [|by right|by apply (one_change_self _ _ _ _ Hc)|done]. split.
    + eapply one_change_tasks; [exact Ht|exact Hc|]. intros d h b [= <- <- <-]. split_and!; [done|by exists stmt|done|by left].
    + eapply sources_leave; [exact Hsrc|]. intros id' Hne. by apply (one_change_other _ _ _ _ _ Hc).
  - destruct Hc as [Hview _]. split; cbn [sv_rules next_task stop_sources with_sources with_rules sv_sources].
    + rewrite Hview, put_insert, Hab by done. eapply tasks_same; [exact Ht|exact Hv|done|by exists stmt|done|done].
    + eapply sources_leave; [exact Hsrc|]. intros id' Hne. rewrite Hview. by rewrite lookup_partial_alter_ne.
Qed.

Lemma has_status_ok status name s : ok None s ->
  ok None (has_status status name s).2 /\ view_of (sv_rules (has_status status name s).2) = view_of (sv_rules s) /\
  ((has_status status name s).1 = false -> forall d h st, view_of (sv_rules s) !! name = Some (d, h, st) -> st <> status).
Proof.
  intros Hs. unfold has_status. destruct (get_rule_status name (sv_rules s)) as [st rm] eqn:Hg. apply status_view in Hg as (Hv & Ha & Hst).
  cbn [fst snd]. split_and!; [by apply (ok_view None s)|done|]. intros Hf d h st' Hd. unfold view_of in Hd. rewrite lookup_fmap in Hd.
  destruct (rules (sv_rules s) !! name) as [a|]; [|done]. injection Hd as <- <- Hr. destruct st as [st|]; [|done]. injection Hst as Hst. cbn in Hf.
  rewrite Hst, Hr in Hf. by case_bool_decide.
Qed.

Lemma get_rule_view id rm d h st : view_of rm !! id = Some (d, h, st) -> get_rule id rm = Some d.
Proof. unfold view_of, get_rule. rewrite lookup_fmap. destruct (rules rm !! id); [|done]. by intros [= <- _ _]. Qed.

(** A rule that runs is activated. *)
Lemma activate_ok except id d h s : ok except s -> except = None \/ except = Some id -> view_of (sv_rules s) !! id = Some (d, h, "running") ->
  ok None (activate_rule resolve id s).
Proof.
  intros Hs Hex Hv. unfold activate_rule. rewrite (get_rule_view _ _ _ _ _ Hv). pose proof Hs as [[Hname _ _ _ _ _] _].
  destruct (Hname _ _ _ _ Hv) as (_ & stmt & rest & Hp). rewrite Hp. by apply (start_tasks_ok except id d h); [| | |exists rest].
Qed.

Lemma start_ok now name s : ok None s -> ok None (start_rule resolve now name s).2.
Proof.
  intros Hs. apply when_checked_ok; [done|]. intros _ _. destruct (has_status_ok "running" name s Hs) as (Hs' & Hv & Hnot).
  destruct (has_status "running" name s) as [running s']. cbn [fst snd] in *. destruct running; [done|]. specialize (Hnot eq_refl).
  unfold change. destruct (RuleManager.start_rule now name (sv_rules s') (sv_kv s')) as [[e rm] kv] eqn:Hc. apply start_view in Hc.
  destruct e; [by apply rules_same|]. destruct Hc as (d & h & st & Hd & Hc & Hab). destruct (seen _ _ _ _ _ Hs' Hd) as (Hid & Hp & Hh & _).
  destruct Hs' as [Ht Hsrc]. destruct (alive st) eqn:Hal.
  - apply (activate_ok None name d h); [|by left|by apply (one_change_self _ _ _ _ Hc)]. destruct Hc as [Hc _]. rewrite put_insert in Hc.
    split; cbn [sv_rules next_task with_rules sv_sources]; rewrite Hc; [rewrite Hab|].
    + eapply tasks_same; [exact Ht|exact Hd|done|done|by rewrite Hal|by left].
    + eapply sources_same; [exact Hsrc|exact Hd|done|done].
  - rewrite Hh in Hc by done. apply (activate_ok (Some name) name d None); [|by right|by apply (one_change_self _ _ _ _ Hc)]. split.
    + eapply one_change_tasks; [exact Ht|exact Hc|]. intros ? ? ? [= <- <- <-]. split_and!; [done|done|done|by left].
    + eapply sources_change; [exact Hsrc|intros id' Hne; by apply (one_change_other _ _ _ _ _ Hc)|]. intros d' h' st' Hv'. congruence.
Qed.

Lemma stop_change_ok now name s e rm kv : ok None s -> RuleManager.stop_rule now name (sv_rules s) (sv_kv s) = (e, rm, kv) ->
  ok None (match e with None => stop_sources name (with_rules rm kv s) | Some _ => with_rules rm kv s end).
Proof.
  intros Hs Hc%stop_view. destruct e; [by apply rules_same|]. destruct Hc as (d & h & st & Hd & Hc).
  destruct (seen _ _ _ _ _ Hs Hd) as (Hid & Hp & _). eapply rule_stopped_ok; [done|exact Hc|]. by intros ? ? ? [= <- <- <-].
Qed.

Lemma stop_ok now name s : ok None s -> ok None (stop_rule now name s).2.
Proof.
  intros Hs. apply when_checked_ok; [done|]. intros _ _. destruct (has_status_ok "stopped" name s Hs) as (Hs' & _).
  destruct (has_status "stopped" name s) as [stopped s']. cbn [fst snd] in *. destruct stopped; [done|]. unfold change.
  destruct (RuleManager.stop_rule now name (sv_rules s') (sv_kv s')) as [[e rm] kv] eqn:Hc. pose proof (stop_change_ok _ _ _ _ _ _ Hs' Hc).
  by destruct e.
Qed.

Lemma restart_ok now name s : ok None s -> ok None (restart_rule resolve now name s).2.
Proof.
  intros Hs. apply when_checked_ok; [done|]. intros _ _. unfold change.
  destruct (RuleManager.restart_rule now name (sv_rules s) (sv_kv s)) as [[e rm] kv] eqn:Hc. apply restart_view in Hc.
  destruct e; [by apply rules_same|]. destruct Hc as (d & h & st & Hd & Hc). destruct (seen _ _ _ _ _ Hs Hd) as (Hid & Hp & _). destruct Hs as [Ht Hsrc].
  apply (activate_ok (Some name) name d None); [|by right|by apply (one_change_self _ _ _ _ Hc)]. split.
  - eapply one_change_tasks; [exact Ht|exact Hc|]. intros ? ? ? [= <- <- <-]. split_and!; [done|done|done|by left].
  - eapply sources_leave; [exact Hsrc|]. intros id' Hne. by apply (one_change_other _ _ _ _ _ Hc).
Qed.

Lemma delete_ok name s : ok None s -> ok None (delete_rule name s).2.
Proof.
  intros Hs. apply when_checked_ok; [done|]. intros _ _. unfold change.
  destruct (RuleManager.delete_rule name (sv_rules s) (sv_kv s)) as [[e rm] kv] eqn:Hc. apply delete_view in Hc.
  destruct e; [by apply rules_same|]. by eapply rule_stopped_ok.
Qed.

Lemma bulk_stop_ok now tags s : ok None s -> ok None (bulk_stop_rules now tags s).2.
Proof.
  unfold bulk_stop_rules, bulk. match goal with |- _ -> ok None (foldl ?f _ _).2 => enough (Hf : forall l res s, ok None s -> ok None (foldl f (res, s) l).2) by apply Hf end.
  clear s. intros l. induction l as [|r l IH]; intros res s Hs; [done|]. cbn [foldl]. destruct (_ && _); [by apply IH|].
  destruct (RuleManager.stop_rule now (r_id r) (sv_rules s) (sv_kv s)) as [[e rm] kv] eqn:Hc. apply IH.
  pose proof (stop_change_ok _ _ _ _ _ _ Hs Hc). by destruct e.
Qed.

Lemma tag_ok f name body s : ok None s -> ok None (tag_rule f name body s).2.
Proof.
  intros Hs. apply when_checked_ok; [done|]. intros _ _.
  destruct (update_rule_tags name _ (sv_rules s) (sv_kv s)) as [[e rm] kv] eqn:Hc. apply tags_view in Hc. cbn [snd].
  destruct e; [by apply rules_same|]. destruct Hc as (d & h & st & tags & Hv & Hv' & Ha). destruct (seen _ _ _ _ _ Hs Hv) as (Hid & Hp & _ & Hst).
  destruct Hs as [Ht Hsrc]. split; cbn [sv_rules next_task with_rules sv_sources]; rewrite Hv'; [rewrite Ha|].
  - eapply tasks_same; [exact Ht|exact Hv|done|exact Hp|done|done].
  - eapply sources_same; [exact Hsrc|exact Hv|done|done].
Qed.

Ltac unseen := repeat first [ assumption | match goal with |- ok None (when_checked _ _ _).2 => apply when_checked_ok; [assumption|intros; try case_match] end
  | match goal with |- ok _ (match ?x with _ => _ end).2 => destruct x end | match goal with |- ok None (?r, ?s').2 => cbn [snd] end
  | (eapply ok_same; [| | |eassumption]; reflexivity) ].

Lemma add_stream_ok d s : ok None s -> ok None (add_stream d s).2.
Proof. intros Hs. unfold add_stream. unseen. Qed.

Lemma create_stream_ok sql name s : ok None s -> ok None (create_stream video_error parse_error sql name s).2.
Proof.
  intros Hs. unfold create_stream, create_stream_sql. destruct sql as [sql|]; [|destruct name; [by apply add_stream_ok|done]].
  destruct (stream_command sql); [done|done|]. apply when_checked_ok; [done|]. intros. by apply add_stream_ok.
Qed.

Lemma update_stream_ok name body s : ok None s -> ok None (update_stream video_error parse_error name body s).2.
Proof. intros Hs. unfold update_stream. unseen. Qed.

Lemma drop_stream_ok s name : ok None s -> ok None (drop_stream s name).
Proof. intros [Ht Hs]. split; [done|]. by apply sources_drop. Qed.

Lemma delete_stream_ok name s : ok None s -> ok None (delete_stream name s).2.
Proof.
  intros Hs. apply when_checked_ok; [done|]. intros _ _. match goal with |- context [Managers.delete_stream ?a ?b ?c] => destruct (Managers.delete_stream a b c) as [[[e|] sm] kv]; [by eapply ok_same; [| | |exact Hs]|] end.
  cbn [snd]. by apply drop_stream_ok, (ok_same None s).
Qed.

Lemma table_source_ok name s : ok None s -> ok None (bootstrap_table_source name s).
Proof. intros Hs. unfold bootstrap_table_source. destruct (has_table s name); [|done]. by apply (ok_same None s). Qed.

Lemma create_table_ok sql s : ok None s -> ok None (create_table parse_error sql s).2.
Proof.
  intros Hs. unfold create_table. destruct sql as [sql|]; [|done]. apply when_checked_ok; [done|]. intros stmt _.
  match goal with |- context [Managers.create_table ?a ?b ?c] => destruct (Managers.create_table a b c) as [[[e|] tm] kv]; cbn [snd]; [by apply (ok_same None s)|] end. by apply table_source_ok, (ok_same None s).
Qed.

Lemma delete_table_ok name s : ok None s -> ok None (delete_table name s).2.
Proof.
  intros Hs. apply when_checked_ok; [done|]. intros _ _. cbv beta zeta. match goal with |- context [Managers.delete_table ?a ?b ?c] => destruct (Managers.delete_table a b c) as [[[e|] tm] kv] end; by apply (ok_same None s).
Qed.

Lemma update_table_ok name body s : ok None s -> ok None (update_table parse_error name body s).2.
Proof.
  intros Hs. apply when_checked_ok; [done|]. intros [sql stmt] _. cbv beta zeta. match goal with |- context [Managers.update_table ?a ?b ?c] => destruct (Managers.update_table a b c) as [[[e|] tm] kv]; cbn [snd] end.
  - by apply (ok_same None s).
  - by apply table_source_ok, (ok_same None s).
Qed.

Lemma fold_ok {A} (f : Server -> A -> Server) (Hf : forall s a, ok None s -> ok None (f s a)) l : forall s, ok None s -> ok None (foldl f s l).
Proof. induction l as [|a l IH]; intros s Hs; [done|]. by apply IH, Hf. Qed.

Lemma reset_ok s : ok None s -> ok None (reset_configuration s).
Proof.
  intros Hs. unfold reset_configuration. apply fold_ok.
  { intros s0 name Hq0. unfold reset_table. match goal with |- context [Managers.delete_table ?a ?b ?c] => destruct (Managers.delete_table a b c) as [[e tm] kv] end. by apply (ok_same None s0). }
  apply fold_ok.
  { intros s0 name Hq0. unfold reset_stream. match goal with |- context [Managers.delete_stream ?a ?b ?c] => destruct (Managers.delete_stream a b c) as [[e sm] kv] end. by apply drop_stream_ok, (ok_same None s0). }
  apply fold_ok; [|done]. intros s0 r Hq0. unfold reset_rule.
  destruct (RuleManager.delete_rule (r_id r) (sv_rules s0) (sv_kv s0)) as [[e rm] kv] eqn:Hc. apply delete_view in Hc.
  destruct e; [by apply unchanged_ok|]. by eapply rule_stopped_ok.
Qed.

(** ** Runs *)

Inductive Request :=
  | CreateRule (r : RuleDefinition)
  | UpdateRule (name : string) (r : RuleDefinition)
  | StartRule (name : string)
  | StopRule (name : string)
  | RestartRule (name : string)
  | DeleteRule (name : string)
  | BulkStop (tags : list string)
  | TagRule (f : list string -> list string -> list string) (name : string) (body : list ascii)
  | CreateStream (sql name : option string)
  | UpdateStream (name : string) (body : list ascii)
  | DeleteStream (name : string)
  | CreateTable (sql : option string)
  | UpdateTable (name : string) (body : list ascii)
  | DeleteTable (name : string)
  | ResetConfiguration
  | SourceEnds (n : nat).

Lemma source_ends_ok n s : ok None s -> ok None (with_sources (end_task n (sv_sources s)) s).
Proof. intros [Ht Hs]. split; [done|]. by apply sources_end. Qed.

(** A request at a time; between requests the task of a source may end. *)
Definition serve (s : Server) (q : Z * Request) : Server :=
  let '(now, q) := q in
  match q with
  | CreateRule r => (create_rule plugin_function resolve parse_error now r s).2
  | UpdateRule name r => (update_rule plugin_function resolve parse_error name r s).2
  | StartRule name => (start_rule resolve now name s).2
  | StopRule name => (stop_rule now name s).2
  | RestartRule name => (restart_rule resolve now name s).2
  | DeleteRule name => (delete_rule name s).2
  | BulkStop tags => (bulk_stop_rules now tags s).2
  | TagRule f name body => (tag_rule f name body s).2
  | CreateStream sql name => (create_stream video_error parse_error sql name s).2
  | UpdateStream name body => (update_stream video_error parse_error name body s).2
  | DeleteStream name => (delete_stream name s).2
  | CreateTable sql => (create_table parse_error sql s).2
  | UpdateTable name body => (update_table parse_error name body s).2
  | DeleteTable name => (delete_table name s).2
  | ResetConfiguration => reset_configuration s
  | SourceEnds n => with_sources (end_task n (sv_sources s)) s
  end.

Lemma serve_ok s q : ok None s -> ok None (serve s q).
Proof.
  intros Hs. destruct q as [now []]; simpl;
    eauto using create_ok, update_ok, start_ok, stop_ok, restart_ok, delete_ok, bulk_stop_ok, tag_ok, create_stream_ok, update_stream_ok,
      delete_stream_ok, create_table_ok, update_table_ok, delete_table_ok, reset_ok, source_ends_ok.
Qed.

Lemma new_ok kv : ok None (server_new kv).
Proof. split; [by split|]. exists []. split; [done|]. intros rule stream (m & Hm & _). done. Qed.

(** C7. Whatever requests a server has served and however its storage answered them, and
    whichever sources have ended by themselves: a rule that runs has exactly one task, which
    is its own and has not been aborted; a rule that is stopped has none; and a rule is
    otherwise in error, still with a task of its own, only after a video stream was refused.
    A source only runs for a stream that the statement of a rule that is not stopped names.
    (Rules started in bulk or halted by their error policy are not among the requests: for
    them it is false.) *)
Theorem server_runs_its_rules kv (requests : list (Z * Request)) :
  let s := foldl serve (server_new kv) requests in
  (forall id a, rules (sv_rules s) !! id = Some a ->
     let status := st_status (a_status a) in
     (status = "stopped" /\ a_handle a = None) \/
     ((status = "running" \/ (status = "error" /\ exists sm stream e, resolve sm stream = Some (InvalidVideo e))) /\
      exists t, a_handle a = Some t /\ (t ∉ aborted (sv_rules s)) /\
        forall id' a', rules (sv_rules s) !! id' = Some a' -> a_handle a' = Some t -> id' = id)) /\
  (forall n t, runs (sv_sources s) n t -> exists id a stmt,
     rules (sv_rules s) !! id = Some a /\ st_status (a_status a) <> "stopped" /\ parses (a_def a) stmt /\ task_stream t ∈ sources_of stmt).
Proof.
  intros s. assert (Hs : ok None s) by (apply fold_ok; [by intros; apply serve_ok|apply new_ok]). clearbody s.
  destruct Hs as [[Hname Hst Htask _ Hown _] (ops & Hops & Hr)]. split.
  - intros id a Ha status. pose proof (view_lookup _ _ _ Ha) as Hq1. pose proof (Htask _ _ _ _ Hq1 ltac:(done)) as Ht. pose proof (Hst _ _ _ _ Hq1) as Hok. fold status in Ht, Hok.
    assert (Hcase : (status = "stopped" /\ alive status = false) \/
      ((status = "running" \/ (status = "error" /\ exists sm stream e, resolve sm stream = Some (InvalidVideo e))) /\ alive status = true)).
    { destruct Hok as [Heq|[Heq|[Heq He]]]; rewrite Heq; [right|left|right]; auto. }
    destruct Hcase as [[? Hal]|[? Hal]]; rewrite Hal in Ht; [by left|right]. split; [done|].
    destruct Ht as (t & Ht & Hg & _). exists t. split_and!; [done|done|]. intros id' a' Ha' Ht'.
    pose proof (view_lookup _ _ _ Ha') as Hq2. unfold view in Hq1, Hq2. rewrite Ht in Hq1. rewrite Ht' in Hq2.
    by apply (Hown _ _ _ _ _ _ _ Hq2 Hq1).
  - intros n t Hrun. rewrite Hops in Hrun. pose proof (inv_source _ _ (inv_run ops) (task_stream t)) as Hsrc.
    destruct (readers_of ops !! task_stream t) as [m|] eqn:Hm; [|by destruct (proj2 Hsrc n t Hrun)].
    destruct (map_choose m) as (rule & need & Hneed); [by eapply inv_nonempty; [apply inv_run|]|].
    destruct (Hr rule (task_stream t)) as (d & h & st & stmt & Hv & Hal & Hp & Hin); [by exists m; split; [|exists need]|].
    unfold view_of in Hv. rewrite lookup_fmap in Hv. destruct (rules (sv_rules s) !! rule) as [a|] eqn:Ha; [|done].
    injection Hv as <- _ <-. exists rule, a, stmt. split_and!; [done| |done|done]. intros Hstop. by rewrite Hstop in Hal.
Qed.

(** ** Creating a rule *)

(** Checks that refuse with 400. *)
Definition refuses (o : option Response) : Prop := forall r, o = Some r -> code r = 400.

Lemma refuses_or a b : refuses a -> refuses b -> refuses (or_else a b).
Proof. destruct a; [|done]. intros Ha _. exact Ha. Qed.

Lemma refuses_first {A} (f : A -> option Response) l : (forall x, refuses (f x)) -> refuses (first_error f l).
Proof.
  intros Hf r. unfold first_error. induction l as [|x l IH]; [done|]. simpl. destruct (f x) eqn:Hx; [|done].
  intros [= <-]. by apply (Hf x).
Qed.

Lemma refuses_message {A} (f : A -> Response) o : (forall x, code (f x) = 400) -> refuses (f <$> o).
Proof. intros Hf r (x & _ & ->)%fmap_Some. apply Hf. Qed.

Lemma reject_refuses streams tables stmt options : refuses (reject_invalid_rule streams tables plugin_function stmt options false).
Proof.
  repeat apply refuses_or.
  - by apply refuses_message.
  - intros r. unfold group_error. destruct (_ && _); [by intros [= <-]|done].
  - intros r. unfold event_time_error. destruct (is_event_time options); [|done]. intros (d & _ & Hd)%bind_Some.
    destruct (stream_option _ _); [done|]. by injection Hd as <-.
  - intros r. unfold join_error. destruct (_ && _); [by intros [= <-]|done].
  - unfold policy_error. destruct (stream_policies streams stmt) as [|[name policy] rest]; [done|]. apply refuses_first. intros x r.
    destruct (eq_ignore_ascii_case _ _); [done|]. by intros [= <-].
  - intros r. unfold resolution_error. destruct (stream_exists _ _ _); [by intros (? & _ & ->)%fmap_Some|]. by intros [= <-].
Qed.

Lemma refuse_then {B} o (f : unit -> Checked B) resp : refuses o -> check_then (refuse_if o) f = Some (inl resp) -> code resp = 400 \/ f () = Some (inl resp).
Proof. destruct o as [r0|]; [|by right]. intros Ho. simpl. intros [= <-]. left. by apply Ho. Qed.

Lemma check_refuses s r resp : check_new_rule plugin_function parse_error s r = Some (inl resp) -> code resp = 400.
Proof.
  intros Hc. apply refuse_then in Hc as [?|Hc]; [done| |intros r0; destruct (blank _); [by intros [= <-]|done]].
  apply refuse_then in Hc as [?|Hc]; [done| |by apply refuses_message]. apply refuse_then in Hc as [?|Hc]; [done| |by apply refuses_message].
  unfold check_statement in Hc. destruct (compile_rule r) as [[e|r1]|] eqn:Hr; [| |done].
  { injection Hc as ->. unfold compile_rule in Hr. destruct (r_graph r); [|done]. destruct (blank (r_sql r)); [|done].
    destruct (compile_graph_to_sql_and_actions g) as [[e|[]]|]; [|done|done]. by injection Hr as <-. }
  cbn [check_then] in Hc. apply refuse_then in Hc as [?|Hc]; [done| |intros r0; unfold missing_actions; case_bool_decide; [by intros [= <-]|done]].
  destruct (parse_rule parse_error (r_sql r1)) as [[e|stmt]|] eqn:Hp; [| |done].
  { injection Hc as ->. unfold parse_rule in Hp. destruct (parse_select_text _); [done| |done|done]. by injection Hp as <-. }
  cbn [check_then] in Hc. apply refuse_then in Hc as [?|Hc]; [done|done|apply reject_refuses].
Qed.

(** A stream that can be started, or that is read, is read by the rule that starts, and stays
    so. *)
Lemma join_makes_reader ops resolved rule stream needs_meta mask : startable resolved = true \/ is_Some (readers_of ops !! stream) ->
  Reader (ops ++ [Join resolved rule stream needs_meta mask]) rule stream.
Proof.
  intros Hres. unfold Reader. rewrite readers_snoc. cbn [readers_step].
  exists (<[rule := mask_fields <$> mask]> (default ∅ (readers_of ops !! stream))). split; [|by rewrite lookup_insert_eq].
  destruct (readers_of ops !! stream); [by rewrite lookup_insert_eq|]. destruct Hres as [->|[? [=]]]. by rewrite lookup_insert_eq.
Qed.

Lemma join_keeps_reader ops resolved rule stream needs_meta mask r st : Reader ops r st ->
  Reader (ops ++ [Join resolved rule stream needs_meta mask]) r st.
Proof.
  intros (m & Hm & Hr). unfold Reader. rewrite readers_snoc. cbn [readers_step].
  assert (Hgo : exists m', <[stream := <[rule := mask_fields <$> mask]> (default ∅ (readers_of ops !! stream))]> (readers_of ops) !! st = Some m' /\ is_Some (m' !! r)).
  { destruct (decide (st = stream)) as [->|Hne]; [|exists m; by rewrite lookup_insert_ne]. rewrite lookup_insert_eq, Hm. eexists. split; [done|].
    simpl. destruct (decide (r = rule)) as [->|]; [by rewrite lookup_insert_eq|by rewrite lookup_insert_ne]. }
  destruct (readers_of ops !! stream), (startable resolved); try done. by exists m.
Qed.

(** A stream whose video source is refused has no readers after a start unless it had before. *)
Lemma join_unread ops resolved rule stream needs_meta mask st : (st = stream -> startable resolved = false) ->
  readers_of (ops ++ [Join resolved rule stream needs_meta mask]) !! st = None <-> readers_of ops !! st = None.
Proof.
  intros Hres. rewrite readers_snoc. cbn [readers_step].
  assert (Hins : (st = stream -> is_Some (readers_of ops !! stream)) -> <[stream := <[rule := mask_fields <$> mask]> (default ∅ (readers_of ops !! stream))]> (readers_of ops) !! st = None <->
    readers_of ops !! st = None).
  { intros Hread. destruct (decide (st = stream)) as [->|Hne]; [|by rewrite lookup_insert_ne]. destruct (Hread eq_refl) as [m Hm]. by rewrite lookup_insert_eq, Hm. }
  destruct (readers_of ops !! stream) eqn:Hs; [apply Hins; eauto|]. destruct (startable resolved); [|done]. apply Hins. intros He. by apply Hres in He.
Qed.

(** The error of a start: that of a refused video source, unless the stream has a source. *)
Lemma join_error ops resolved rule stream needs_meta mask :
  (bootstrap_stream_sources resolved rule stream needs_meta mask (run ops)).1 =
  match readers_of ops !! stream, resolved with None, Some (InvalidVideo e) => Some e | _, _ => None end.
Proof.
  pose proof (inv_run ops) as Hi. pose proof (inv_active _ _ Hi stream) as Ha. pose proof (has_source _ _ stream Hi) as Hsrc.
  unfold bootstrap_stream_sources. rewrite Ha. destruct (readers_of ops !! stream) as [m|].
  - case_bool_decide; [done|]. destruct (proj2 Hsrc) as [l ->]; [by eexists|done].
  - rewrite bool_decide_false by (simpl; set_solver). destruct (stream_source_cancels (run ops) !! stream) as [l|]; [by destruct (proj1 Hsrc (ltac:(by eexists)))|].
    destruct (update_stream_field_mask _ _ _ _). by destruct resolved as [[]|].
Qed.

(** The streams whose video source is refused when the sources of a rule are started. *)
Definition refused (cat : Catalogue) (src : AppState) (stream e : string) : Prop :=
  is_table cat stream = false /\ SharedSources.resolve cat stream = Some (InvalidVideo e) /\ stream_source_cancels src !! stream = None.

Lemma unregistered ops stream : stream_source_cancels (run ops) !! stream = None <-> readers_of ops !! stream = None.
Proof. by rewrite !eq_None_not_Some, (has_source _ _ stream (inv_run ops)). Qed.

Lemma bootstrap_serves cat id stmt ops : (forall name src, table_source cat name src = src) ->
  let '(errors, src) := bootstrap_rule_sources cat id stmt (run ops) in
  exists ops', src = run ops' /\
    (forall st, st ∈ sources_of stmt -> is_table cat st = false -> is_Some (SharedSources.resolve cat st) ->
       (exists e, refused cat (run ops) st e) \/ Reader ops' id st) /\
    (forall e, e ∈ errors <-> exists st, st ∈ sources_of stmt /\ refused cat (run ops) st e) /\
    (forall n t st, tasks src !! n = Some (t, st) -> tasks (run ops) !! n = Some (t, st) \/ st = Running).
Proof.
  intros Hplain. assert (Hl : forall st, st ∈ sources_of stmt /\ is_table cat st = false <-> st ∈ from stmt :: joined_sources cat stmt /\ is_table cat st = false).
  { assert (Hj : forall st, st ∈ joined_sources cat stmt <-> st ∈ map target (joins stmt) /\ is_table cat st || negb (bool_decide (st = from stmt)) = true).
    { intros st. unfold joined_sources. by rewrite list_elem_of_In, List.filter_In, <- list_elem_of_In. }
    intros st. unfold sources_of. rewrite !elem_of_cons, Hj.
    destruct (decide (st = from stmt)) as [->|Hne]; [tauto|]. rewrite (bool_decide_false (st = from stmt)) by done. split; [|tauto].
    intros [[?|?] ->]; [done|]. split; [right; by split|done]. }
  enough (Hgo : forall l ops, let '(errors, src) := bootstrap_all cat id stmt l (run ops) in
    exists ops', src = run ops' /\ (forall r st, Reader ops r st -> Reader ops' r st) /\
    (forall st, st ∈ l -> is_table cat st = false -> is_Some (SharedSources.resolve cat st) -> (exists e, refused cat (run ops) st e) \/ Reader ops' id st) /\
    (forall e, e ∈ errors <-> exists st, st ∈ l /\ refused cat (run ops) st e) /\
    (forall n t st, tasks src !! n = Some (t, st) -> tasks (run ops) !! n = Some (t, st) \/ st = Running)).
  { specialize (Hgo (from stmt :: joined_sources cat stmt) ops). unfold bootstrap_rule_sources. destruct (bootstrap_all _ _ _ _ _) as [errors src].
    destruct Hgo as (ops' & -> & _ & Hr & He & Ht). exists ops'. split_and!; [done| | |done].
    - intros st Hin Htab. apply Hr; [|done]. by apply (Hl st).
    - intros e. rewrite He. split; intros (st & Hin & Href); exists st; (split; [|done]); apply (Hl st); (split; [done|apply Href]). }
  intros l. clear Hl ops. induction l as [|name l IH]; intros ops.
  { exists ops. split_and!; [done|done|by intros st ?%elem_of_nil| |by left]. intros e. split; [by intros ?%elem_of_nil|by intros (st & ?%elem_of_nil & _)]. }
  pose proof (bootstrap_all_cons cat id stmt name l (run ops)) as Hcons. unfold bootstrap_one in Hcons. destruct (is_table cat name) eqn:Hn.
  - rewrite Hplain in Hcons. rewrite Hcons. specialize (IH ops). destruct (bootstrap_all cat id stmt l (run ops)) as [errors src]. cbn [fst snd option_list app].
    destruct IH as (ops' & -> & Hkeep & Hr & He & Ht). exists ops'. split_and!; [done|done| | |done].
    + intros st [->|Hin]%elem_of_cons Htab; [congruence|by apply Hr].
    + intros e. rewrite He. split; intros (st & Hin & Href); exists st; (split; [|done]); [by right|].
      apply elem_of_cons in Hin as [->|?]; [|done]. destruct Href as [? _]. congruence.
  - set (op := Join (SharedSources.resolve cat name) id name (needs_metadata stmt) (mask_for_stream cat stmt name)).
    pose proof (join_error ops (SharedSources.resolve cat name) id name (needs_metadata stmt) (mask_for_stream cat stmt name)) as Hje.
    pose proof (join_tasks (SharedSources.resolve cat name) id name (needs_metadata stmt) (mask_for_stream cat stmt name) (run ops)) as [new Hnew].
    pose proof (run_snoc ops op) as Hsnoc. cbn [op op_step] in Hsnoc.
    destruct (bootstrap_stream_sources _ _ _ _ _ _) as [e0 s1]. cbn [fst snd] in *. subst s1 e0. rewrite Hcons. clear Hcons. specialize (IH (ops ++ [op])).
    destruct (bootstrap_all cat id stmt l _) as [errors src]. cbn [fst snd].
    assert (Href : forall st e, refused cat (run (ops ++ [op])) st e <-> refused cat (run ops) st e).
    { intros st e. unfold refused. rewrite !unregistered.
      assert (Hju : SharedSources.resolve cat st = Some (InvalidVideo e) -> readers_of (ops ++ [op]) !! st = None <-> readers_of ops !! st = None).
      { intros Hv. apply join_unread. intros ->. by rewrite Hv. }
      split; intros (? & Hv & ?); (split; [done|]; split; [done|]; by apply (Hju Hv)). }
    destruct IH as (ops' & -> & Hkeep & Hr & He & Ht). exists ops'. split_and!; [done| | | |].
    + intros r st Hread. by apply Hkeep, join_keeps_reader.
    + intros st [->|Hin]%elem_of_cons Htab Hs.
      * destruct (startable (SharedSources.resolve cat name)) eqn:Hstart; [right; apply Hkeep, join_makes_reader; by left|].
        destruct (readers_of ops !! name) as [m|] eqn:Hread; [right; apply Hkeep, join_makes_reader; right; by rewrite Hread|left].
        destruct (SharedSources.resolve cat name) as [[| | |e]|] eqn:Hv; try done. exists e. split_and!; [done|done|by apply unregistered].
      * destruct (Hr st Hin Htab Hs) as [[e Hre]|?]; [left|by right]. exists e. by apply Href.
    + intros e. rewrite elem_of_app, He. split.
      * intros [Hin|(st & Hin & Hre)]; [|exists st; split; [by right|by apply Href]]. exists name. split; [by left|].
        destruct (readers_of ops !! name) eqn:Hread; [by apply elem_of_nil in Hin|]. destruct (SharedSources.resolve cat name) as [[| | |e']|] eqn:Hv; try by apply elem_of_nil in Hin.
        apply list_elem_of_singleton in Hin as ->. split_and!; [done|done|by apply unregistered].
      * intros (st & [->|Hin]%elem_of_cons & Hre); [left|right; exists st; split; [done|by apply Href]].
        destruct Hre as (_ & -> & Hu). apply unregistered in Hu. rewrite Hu. by left.
    + intros n t st [Hold|?]%Ht; [|by right]. rewrite Hnew in Hold. apply lookup_app_Some in Hold as [?|[_ Hold]]; [by left|right].
      rewrite list_lookup_fmap in Hold. by apply fmap_Some in Hold as (? & _ & [= _ ->]).
Qed.

(** The rule [id] reads the stream from a source that is registered for it, and that runs
    unless it had already ended by itself. *)
Definition reads_from_source (before after : AppState) (id stream : string) : Prop :=
  id ∈ default ∅ (stream_active_rules after !! stream) /\
  exists n t, stream_source_cancels after !! stream = Some [n] /\ task_stream t = stream /\
    (runs after n t \/ tasks before !! n = Some (t, Ended)).

Lemma reader_has_source before ops id stream : (forall n t st, tasks (run ops) !! n = Some (t, st) -> tasks before !! n = Some (t, st) \/ st = Running) ->
  Reader ops id stream -> reads_from_source before (run ops) id stream.
Proof.
  intros Hold (m & Hm & Hr). pose proof (inv_run ops) as Hi. split.
  - rewrite (inv_active _ _ Hi), Hm. simpl. by apply elem_of_dom.
  - pose proof (inv_source _ _ Hi stream) as Hs. rewrite Hm in Hs. destruct Hs as (n & t & Hreg & Hlive & Ht & _). exists n, t. split_and!; [done|done|].
    destruct Hlive as [?|He]; [by left|right]. by destruct (Hold _ _ _ He).
Qed.

(** C8. Creating a rule does all or nothing, on any server that requests have led to.  With the
    answer 201 the rule is kept, has its task, and is a reader of every stream of its statement
    that is not a table and resolves to a source, unless that is a video source that is
    refused; the source runs unless it had ended by itself before.  The rule runs when no
    video source was refused, and otherwise is in error with the message of one that was.
    With any other answer, or none, no rule and no source has changed. *)
Theorem create_rule_all_or_nothing kv requests now r :
  let s := foldl serve (server_new kv) requests in
  let '(reply, s') := create_rule plugin_function resolve parse_error now r s in
  if bool_decide (code <$> reply = Some 201) then
    exists a stmt, rules (sv_rules s') !! r_id r = Some a /\ a_handle a = Some (next_task s) /\ parses (a_def a) stmt /\
      (forall stream, stream ∈ sources_of stmt -> has_table s stream = false -> is_Some (resolve (sv_streams s) stream) ->
         (exists e, refused (catalogue resolve s) (sv_sources s) stream e) \/ reads_from_source (sv_sources s) (sv_sources s') (r_id r) stream) /\
      ((st_status (a_status a) = "running" /\ forall stream e, stream ∈ sources_of stmt -> ~ refused (catalogue resolve s) (sv_sources s) stream e) \/
       (st_status (a_status a) = "error" /\ exists stream e, stream ∈ sources_of stmt /\ refused (catalogue resolve s) (sv_sources s) stream e /\
          st_message (a_status a) = "Video source validation error: " +:+ e))
  else sv_rules s' = sv_rules s /\ sv_sources s' = sv_sources s.
Proof.
  intros s. assert (Hs : ok None s) by (apply fold_ok; [by intros; apply serve_ok|apply new_ok]). clearbody s.
  unfold create_rule. destruct (check_new_rule plugin_function parse_error s r) as [[resp|[r' stmt]]|] eqn:Hc; cbn [when_checked].
  { apply check_refuses in Hc. rewrite bool_decide_false; [done|]. simpl. congruence. }
  2: by rewrite bool_decide_false.
  apply check_new_rule_parses in Hc as [Hp Hid]. destruct (RuleManager.create_rule now r' (sv_rules s) (sv_kv s)) as [[e rm] kv'] eqn:Hm.
  apply create_view in Hm. destruct e as [e|]; [rewrite bool_decide_false by done; by subst rm|]. destruct Hm as [_ Hm].
  rewrite bool_decide_true by done. rewrite Hid in *. destruct Hs as [_ (ops & Hops & _)].
  pose proof (start_tasks_spec (r_id r) r' None stmt (with_rules rm kv' s) (one_change_self _ _ _ _ Hm)) as Hspec.
  change (sv_sources (with_rules rm kv' s)) with (sv_sources s) in Hspec. change (catalogue resolve (with_rules rm kv' s)) with (catalogue resolve s) in Hspec.
  change (next_task (with_rules rm kv' s)) with (next_task s) in Hspec. rewrite Hops in Hspec |- *.
  pose proof (bootstrap_serves (catalogue resolve s) (r_id r) stmt ops (fun _ _ => eq_refl)) as Hserve.
  destruct (bootstrap_rule_sources _ _ _ _) as [errors src]. destruct Hserve as (ops' & Hsrc & Hread & Herr & Htasks).
  destruct Hspec as (-> & _ & Hview & _ & a & Ha & Hmsg). pose proof (view_lookup _ _ _ Ha) as Hv. rewrite Hview, lookup_insert_eq in Hv. injection Hv as Hd Hh Hst.
  exists a, stmt. split_and!; [done|done|by rewrite <- Hd| |].
  - intros stream Hin Htab Hres. destruct (Hread stream Hin Htab Hres) as [?|Hr]; [by left|right]. rewrite Hsrc in *. by apply reader_has_source.
  - rewrite <- Hst. case_bool_decide as He.
    + left. split; [done|]. intros stream e Hin Href. assert (Hine : e ∈ errors) by (apply Herr; by exists stream). rewrite He in Hine. by apply elem_of_nil in Hine.
    + right. split; [done|]. destruct (Hmsg He) as (e & Hine & Hmessage). apply Herr in Hine as (stream & Hin & Href). by exists stream, e.
Qed.
End invariant.

(** ** Samples *)

Module ServerSample.
Section sample.
Context `{Engine.Text} `{Unicode} `{Lowercase} `{Base64} `{JsonReader}.
Context `{JsonText PersistedRule} `{JsonText StreamDefinition} `{JsonText TableDefinition}.

Definition resolve (sm : StreamManager) (name : string) : option Source := (fun _ => MqttSource) <$> sm !! name.
Definition answer (q : Server -> Reply) (s : Server) : Reply := q s.
Definition new_stream (name : string) (s : Server) : Server := (create_stream (fun _ => None) (fun _ => "") (Some ("CREATE STREAM " +:+ name +:+ " ()")) None s).2.
Definition rule_of (id sql : string) : RuleDefinition := mkRule id None None sql [{["log" := VObject []]}] None None [].
Definition new_rule (id sql : string) (s : Server) : Reply := create_rule (fun _ => false) resolve (fun _ => "") 0 (rule_of id sql) s.

(** Whether a rule runs, its task, and the streams whose sources run. *)
Definition look (id : string) (s : Server) : option (bool * option nat) * list string :=
  ((fun a => (is_running a, a_handle a)) <$> rules (sv_rules s) !! id,
   omap (fun t => match t.2 with Running => Some (task_stream t.1) | _ => None end) (tasks (sv_sources s))).

Definition server : Server := new_stream "demo" (server_new None).
Definition one_rule : Server := (new_rule "r" "SELECT * FROM demo" server).2.
Definition stopped_rule : Server := (stop_rule 1 "r" one_rule).2.

Example lifecycle :
  (new_rule "r" "SELECT * FROM demo" server).1 = Some (text_response 201 "Rule r was created successfully.") /\
  look "r" one_rule = (Some (true, Some 0%nat), ["demo"]) /\ look "r" stopped_rule = (Some (false, None), []) /\
  look "r" (start_rule resolve 2 "r" stopped_rule).2 = (Some (true, Some 1%nat), ["demo"]) /\
  look "r" (delete_rule "r" one_rule).2 = (None, []).
Proof. vm_compute. done. Qed.

Example refused :
  (new_rule "r" "SELECT * FROM nowhere" server).1 = Some (json_error 400 1000 "fail to get stream nowhere, please check if stream is created") /\
  (new_rule "r" "SELECT f(a) FROM demo" server).1 = Some (json_error 400 1000 "invalid rule json: Parse SQL ... error: function f not found.") /\
  (new_rule "r" "SELECT a, b AS a FROM demo" server).1 = Some (text_response 400 "duplicate field definition a") /\
  (new_rule "r" "SELECT * FROM demo" one_rule).1 = Some (json_error 400 1000 "Rule r already exists").
Proof. vm_compute. done. Qed.

(** A rule on a video stream whose configuration is refused is created with 201, has a task and
    is in error, with no source; started once the stream is right, it gets another task and
    its source, and stopping it aborts the task. *)
Definition refusing (sm : StreamManager) (name : string) : option Source := (fun _ => InvalidVideo "missing url") <$> sm !! name.
Definition refused_rule : Reply := create_rule (fun _ => false) refusing (fun _ => "") 0 (rule_of "r" "SELECT * FROM demo") server.
Definition status_of (s : Server) : option (string * string) := (fun a => (st_status (a_status a), st_message (a_status a))) <$> rules (sv_rules s) !! "r".

Example refused_video :
  code <$> refused_rule.1 = Some 201 /\ status_of refused_rule.2 = Some ("error", "Video source validation error: missing url") /\
  look "r" refused_rule.2 = (Some (false, Some 0%nat), []) /\
  (let s := (start_rule resolve 1 "r" refused_rule.2).2 in
   look "r" s = (Some (true, Some 1%nat), ["demo"]) /\ aborted (sv_rules s) = [0%nat]) /\
  (let s := (stop_rule 1 "r" refused_rule.2).2 in look "r" s = (Some (false, None), []) /\ aborted (sv_rules s) = [0%nat]).
Proof. vm_compute. done. Qed.

(** When the source of a stream has ended by itself, rules created later are readers of the
    stream without a source that runs. *)
Example ended_source_not_restarted :
  let s := with_sources (end_task 0 (sv_sources one_rule)) one_rule in
  let '(reply, s) := new_rule "q" "SELECT * FROM demo" s in
  code <$> reply = Some 201 /\ look "q" s = (Some (true, Some 1%nat), []) /\ stream_source_cancels (sv_sources s) !! "demo" = Some [0%nat].
Proof. vm_compute. done. Qed.

(** Rules started in bulk are said to run, but have neither a task nor a source, and starting
    one by name does nothing. *)
Example bulk_start_starts_nothing :
  let s := (bulk_start_rules 2 [] stopped_rule).2 in
  look "r" s = (Some (true, None), []) /\ look "r" (start_rule resolve 3 "r" s).2 = (Some (true, None), []).
Proof. vm_compute. done. Qed.

(** The source of a rule that halted itself goes on, also after the rule is stopped. *)
Example halted_rule_keeps_source :
  let s := halt_rule 1 "r" "error" one_rule in
  look "r" s = (Some (false, None), ["demo"]) /\ look "r" (stop_rule 2 "r" s).2 = (Some (false, None), ["demo"]).
Proof. vm_compute. done. Qed.

(** A joined stream is not looked for, and when it is created later it has no source. *)
Example joined_stream_missing :
  let '(reply, s) := new_rule "r" "SELECT demo.a FROM demo INNER JOIN other ON demo.a = other.a GROUP BY TUMBLINGWINDOW(ss, 10)" server in
  code <$> reply = Some 201 /\ look "r" (new_stream "other" s) = (Some (true, Some 0%nat), ["demo"]).
Proof. vm_compute. done. Qed.

(** The actions of a graph are checked when a rule is replaced, not when it is created. *)
Definition graph : GraphDefinition :=
  mkGraph {["in" := mkNode "source" "mqtt" {["sourceName" := VString "demo"]}; "out" := mkNode "sink" "mqtt" ∅]} (mkTopo ["in"] ∅).
Definition graph_rule : RuleDefinition := mkRule "g" None None "" [] None (Some graph) [].

Example graph_actions_unchecked :
  let '(reply, s) := create_rule (fun _ => false) resolve (fun _ => "") 0 graph_rule server in
  code <$> reply = Some 201 /\
  (update_rule (fun _ => false) resolve (fun _ => "") "g" graph_rule s).1 = Some (json_error 400 1000 "mqtt sink is missing property topic").
Proof. vm_compute. done. Qed.
End sample.
End ServerSample.
