(* ===== verification/Reconcile.v ===== *)
(** * Reconciling a running server with a manifest
      ([crates/rekuiper-server/src/declarative.rs])

    A manifest that passes the validator is compared with what the server runs: definitions are
    created, replaced or removed, and a rule is restarted unless it runs and the digest of
    everything it depends on is the one recorded when it was started. *)

From Stdlib Require Import Ascii.
From S2P Require Import Prelude Rust Characters Wire Json Counters Dlq Ast Engine Values Parser Statements Schema Kv Managers RuleManager Manifest Validator.

Set Default Goal Selector "!".
#[local] Set Warnings "-register-all".

(** The part of the server the manifest is about.  [next_task] numbers the tasks. *)
Record AppState := mkApp {
  as_connections : gmap string value;
  as_schemas : SchemaManager;
  as_streams : StreamManager;
  as_tables : TableManager;
  as_rules : RuleManager;
  as_hashes : gmap string Z;
  as_topics : gset string;
  as_kv : Store;
  next_task : nat;
}.

Record ReconcileReport := mkReport {
  streams_created : nat; streams_updated : nat; streams_deleted : nat;
  tables_created : nat; tables_updated : nat; tables_deleted : nat;
  rules_started : nat; rules_restarted : nat; rules_unchanged : nat; rules_stopped : nat;
}.

Definition report_default : ReconcileReport := mkReport 0 0 0 0 0 0 0 0 0 0.

(** [SHA-256], of which the first eight bytes are taken. *)
Class Digest := digest : list ascii -> list ascii.

Definition finish_ctx_u64 `{Digest} (bytes : list ascii) : Z := from_le_bytes (take 8 (digest bytes)).

(** ** What a rule depends on *)

Definition ctx_str (s : string) : list ascii := to_le_bytes 8 (Z.of_nat (String.length s)) ++ chars s.

(** serde's view of a graph. *)
Definition object_of (l : list (string * value)) : value := row_to_value (list_to_map l).

Definition graph_to_value (g : GraphDefinition) : value :=
  object_of [
    ("nodes", row_to_value ((fun n => object_of [("type", VString (node_category n)); ("nodeType", VString (node_type n));
                                                 ("props", row_to_value (node_props n))]) <$> graph_nodes g));
    ("topo", object_of [("sources", VArray (map VString (topo_sources (graph_topo g))));
                        ("edges", row_to_value ((fun l => VArray (map VString l)) <$> topo_edges (graph_topo g)))])].

Definition option_value {A} (f : A -> value) (o : option A) : value := from_option f VNull o.

Section reconcile.
Context `{Text} `{Unicode} `{Digest}.
Context `{JsonText RuleDefinition} `{JsonText PersistedRule} `{JsonText StreamDefinition} `{JsonText TableDefinition} `{JsonText SchemaDefinition}.
Context (json_error parse_error : string -> string).

(** The definitions of a source, in any case of its name. *)
Definition source_ctx (m : DeclarativeManifest) (source : string) : list ascii :=
  let lower := to_ascii_lowercase source in
  let ddls (defs : gmap string string) :=
    flat_map (fun e => if eq_ignore_ascii_case e.1 lower then ctx_str e.2 else []) (sorted_entries defs) in
  ctx_str lower ++ ddls (streams m) ++ ddls (m_tables m).

Definition rule_ctx (r : RuleDefinition) (m : DeclarativeManifest) : list ascii :=
  ctx_str (r_id r) ++ from_option ctx_str [] (r_name r) ++ from_option ctx_str [] (r_version r) ++ ctx_str (r_sql r)
  ++ ctx_str (value_to_string (VArray (map row_to_value (r_actions r))))
  ++ ctx_str (value_to_string (option_value row_to_value (r_options r)))
  ++ ctx_str (value_to_string (option_value graph_to_value (r_graph r)))
  ++ flat_map ctx_str (r_tags r)
  ++ (match parse_select_text (of_str (r_sql r)) with
      | POk stmt _ => source_ctx m (source_name (from stmt)) ++ flat_map (fun j => source_ctx m (source_name (target j))) (joins stmt)
      | _ => []
      end)
  ++ flat_map (fun e => ctx_str (to_ascii_lowercase e.1) ++ ctx_str (value_to_string e.2)) (sorted_entries (connections m))
  ++ flat_map (fun e => ctx_str (to_ascii_lowercase e.1) ++ from_option ctx_str [] (sc_content e.2)) (sorted_entries (schemas m)).

Definition compute_rule_effective_hash (r : RuleDefinition) (m : DeclarativeManifest) : Z := finish_ctx_u64 (rule_ctx r m).

(** ** The phases *)

Definition reconcile_connections (m : DeclarativeManifest) (s : AppState) : AppState :=
  mkApp (foldl (fun c e => <[e.1 := e.2]> c) (as_connections s) (sorted_entries (connections m)))
    (as_schemas s) (as_streams s) (as_tables s) (as_rules s) (as_hashes s) (as_topics s) (as_kv s) (next_task s).

Definition reconcile_schemas (m : DeclarativeManifest) (s : AppState) : AppState :=
  let '(sm, kv) := foldl (fun '(sm, kv) d => let '(_, sm, kv) := register_schema d sm kv in (sm, kv))
    (as_schemas s, as_kv s) (sorted_entries (schemas m)).*2 in
  mkApp (as_connections s) sm (as_streams s) (as_tables s) (as_rules s) (as_hashes s) (as_topics s) kv (next_task s).

Definition to_stream_fields (cols : list StreamColumn) : list StreamField :=
  map (fun c => mkField (col_name c) (data_type c) (default_value c)) cols.

(** Errors of the managers are ignored. *)
Definition reconcile_stream (existing : StreamManager) (acc : (ReconcileReport * AppState)) (e : string * string) : ReconcileReport * AppState :=
  let '(rep, s) := acc in
  let '(name, ddl) := e in
  match parse_create_stream (of_str ddl) with
  | POk stmt _ =>
      let def := mkStream name ddl (to_stream_fields (create_fields stmt)) (options stmt) in
      let put sm kv := mkApp (as_connections s) (as_schemas s) sm (as_tables s) (as_rules s) (as_hashes s) ({[name]} ∪ as_topics s) kv (next_task s) in
      let '(mkReport a b c d e f g h i j) := rep in
      match existing !! name with
      | Some old =>
          if bool_decide (s_sql old = ddl) then acc
          else
            let '(_, sm, kv) := delete_stream name (as_streams s) (as_kv s) in
            let '(_, sm, kv) := create_stream def sm kv in
            (mkReport a (S b) c d e f g h i j, put sm kv)
      | None =>
          let '(_, sm, kv) := create_stream def (as_streams s) (as_kv s) in
          (mkReport (S a) b c d e f g h i j, put sm kv)
      end
  | _ => acc
  end.

Definition remove_stream (m : DeclarativeManifest) (acc : ReconcileReport * AppState) (old : string) : ReconcileReport * AppState :=
  let '(mkReport a b c d e f g h i j, s) := acc in
  if bool_decide (is_Some (streams m !! old)) then acc
  else
    let '(_, sm, kv) := delete_stream old (as_streams s) (as_kv s) in
    (mkReport a b (S c) d e f g h i j,
     mkApp (as_connections s) (as_schemas s) sm (as_tables s) (as_rules s) (as_hashes s) (as_topics s) kv (next_task s)).

Definition reconcile_streams (m : DeclarativeManifest) (acc : ReconcileReport * AppState) : ReconcileReport * AppState :=
  let existing := as_streams acc.2 in
  foldl (remove_stream m) (foldl (reconcile_stream existing) acc (sorted_entries (streams m))) (map_to_list existing).*1.

Definition reconcile_table (existing : gmap string TableDefinition) (acc : ReconcileReport * AppState) (e : string * string) : ReconcileReport * AppState :=
  let '(rep, s) := acc in
  let '(name, ddl) := e in
  match parse_create_table (of_str ddl) with
  | POk stmt _ =>
      let def := mkTable name ddl (to_stream_fields (create_fields stmt)) (options stmt) in
      let put tm kv := mkApp (as_connections s) (as_schemas s) (as_streams s) tm (as_rules s) (as_hashes s) (as_topics s) kv (next_task s) in
      let '(mkReport a b c d e f g h i j) := rep in
      match existing !! name with
      | Some old =>
          if bool_decide (t_sql old = ddl) then acc
          else
            let '(_, tm, kv) := delete_table name (as_tables s) (as_kv s) in
            let '(_, tm, kv) := create_table def tm kv in
            (mkReport a b c d (S e) f g h i j, put tm kv)
      | None =>
          let '(_, tm, kv) := create_table def (as_tables s) (as_kv s) in
          (mkReport a b c (S d) e f g h i j, put tm kv)
      end
  | _ => acc
  end.

Definition remove_table (m : DeclarativeManifest) (acc : ReconcileReport * AppState) (old : string) : ReconcileReport * AppState :=
  let '(mkReport a b c d e f g h i j, s) := acc in
  if bool_decide (is_Some (m_tables m !! old)) then acc
  else
    let '(_, tm, kv) := delete_table old (as_tables s) (as_kv s) in
    (mkReport a b c d e (S f) g h i j,
     mkApp (as_connections s) (as_schemas s) (as_streams s) tm (as_rules s) (as_hashes s) (as_topics s) kv (next_task s)).

Definition reconcile_tables (m : DeclarativeManifest) (acc : ReconcileReport * AppState) : ReconcileReport * AppState :=
  let existing := tables (as_tables acc.2) in
  foldl (remove_table m) (foldl (reconcile_table existing) acc (sorted_entries (m_tables m))) (map_to_list existing).*1.

(** ** Rules *)

Definition with_rules (s : AppState) (rm : RuleManager) (hashes : gmap string Z) (kv : Store) (next : nat) : AppState :=
  mkApp (as_connections s) (as_schemas s) (as_streams s) (as_tables s) rm hashes (as_topics s) kv next.

(** [stop_rule] and [delete_rule], whose errors are ignored. *)
Definition drop_rule (now : Z) (id : string) (rm : RuleManager) (kv : Store) : RuleManager * Store :=
  let '(_, rm, kv) := stop_rule now id rm kv in
  let '(_, rm, kv) := delete_rule id rm kv in (rm, kv).

(** The new rule and its task. *)
Definition start_new_rule (now : Z) (id : string) (r : RuleDefinition) (hash : Z) (s : AppState) : AppState :=
  let '(_, rm, kv) := create_rule now r (as_rules s) (as_kv s) in
  with_rules s (set_rule_handle id (next_task s) rm) (<[id := hash]> (as_hashes s)) kv (S (next_task s)).

Definition reconcile_rule (now : Z) (m : DeclarativeManifest) (existing : list string)
    (acc : option string * (ReconcileReport * AppState)) (e : string * RuleDefinition) : option string * (ReconcileReport * AppState) :=
  match acc with
  | (Some err, _) => acc
  | (None, (mkReport a b c d e' f g h i j, s)) =>
      let '(id, r) := e in
      let hash := compute_rule_effective_hash r m in
      let stored := as_hashes s !! id in
      let '(status, rm) := get_rule_status id (as_rules s) in
      let running := from_option (fun st => bool_decide (st_status st = "running")) false status in
      let s := with_rules s rm (as_hashes s) (as_kv s) (next_task s) in
      if bool_decide (stored = Some hash) && running then (None, (mkReport a b c d e' f g h (S i) j, s))
      else
        let '(rep, s) :=
          if bool_decide (id ∈ existing) then
            let '(rm, kv) := drop_rule now id (as_rules s) (as_kv s) in
            (mkReport a b c d e' f g (S h) i j, with_rules s rm (as_hashes s) kv (next_task s))
          else (mkReport a b c d e' f (S g) h i j, s) in
        match parse_select_text (of_str (r_sql r)) with
        | POk _ _ => (None, (rep, start_new_rule now id r hash s))
        | _ => (Some ("Failed to parse SQL for rule '" +:+ id +:+ "': " +:+ parse_error (r_sql r)), (rep, s))
        end
  end.

Definition stop_absent (now : Z) (incoming : gmap string RuleDefinition) (acc : ReconcileReport * AppState) (old : string) : ReconcileReport * AppState :=
  let '(mkReport a b c d e f g h i j, s) := acc in
  if bool_decide (is_Some (incoming !! old)) then acc
  else
    let '(rm, kv) := drop_rule now old (as_rules s) (as_kv s) in
    (mkReport a b c d e f g h i (S j), with_rules s rm (delete old (as_hashes s)) kv (next_task s)).

Definition reconcile_rules (now : Z) (m : DeclarativeManifest) (rep : ReconcileReport) (s : AppState) : (string + ReconcileReport) * AppState :=
  match into_rules_map json_error (m_rules m) with
  | inl e => (inl ("Failed to parse rules from manifest: " +:+ e), s)
  | inr incoming =>
      let existing := map r_id (list_rules (as_rules s)) in
      match foldl (reconcile_rule now m existing) (None, (rep, s)) (sorted_entries incoming) with
      | (Some err, (_, s)) => (inl err, s)
      | (None, acc) => let '(rep, s) := foldl (stop_absent now incoming) acc existing in (inr rep, s)
      end
  end.

Definition count_text (n : nat) : string := value_to_string (value_of_i64 (Z.of_nat n)).

(** The text of line breaks between diagnostics. *)
Definition newline_text : string := of_chars [ascii_of_N 10].

Definition reconcile_manifest (now : Z) (m : DeclarativeManifest) (s : AppState) : option ((string + ReconcileReport) * AppState) :=
  (fun v =>
     match v with
     | inl ds => (inl ("Manifest validation failed with " +:+ count_text (length ds) +:+ " error(s):" +:+ newline_text
                       +:+ join newline_text (map diagnostic_text ds)), s)
     | inr _ =>
         let s := reconcile_schemas m (reconcile_connections m s) in
         let '(rep, s) := reconcile_tables m (reconcile_streams m (report_default, s)) in
         reconcile_rules now m rep s
     end) <$> validate_manifest json_error parse_error m.

(** ** The watcher *)

(** The bytes of a file, or of the manifest files of a directory in the order of their paths;
    nothing was read when there are none. *)
Definition file_ctx (bytes : list ascii) : list ascii := to_le_bytes 8 (Z.of_nat (length bytes)) ++ bytes.

Record WatchedFile := mkWatched { w_name : string; w_ext : option string; w_bytes : option (list ascii) }.

Definition watched (f : WatchedFile) : bool :=
  match w_ext f with Some ext => bool_decide (to_ascii_lowercase ext ∈ ["yaml"; "yml"; "json"; "toml"]) | None => false end.

Inductive Watch := WatchFile (bytes : option (list ascii)) | WatchDir (files : list WatchedFile) | WatchNone.

Definition compute_path_fingerprint (p : Watch) : Z :=
  match p with
  | WatchFile (Some bytes) => finish_ctx_u64 (file_ctx bytes)
  | WatchDir files =>
      let kept := List.filter watched files in
      if existsb (fun f => bool_decide (is_Some (w_bytes f))) kept then
        finish_ctx_u64 (flat_map (fun f => ctx_str (w_name f) ++ from_option file_ctx [] (w_bytes f)) kept)
      else 0
  | _ => 0
  end.

Context `{ManifestReader} (env : string -> option string) (path_debug : string -> string).

(** The path is loaded without tolerance for unresolved variables. *)
Definition reconcile_declarative_path (now : Z) (p : PathKind) (path : string) (s : AppState) : option ((string + ReconcileReport) * AppState) :=
  match load_from_path json_error env p path false with
  | inl ds => Some (inl ("Failed to load manifest at " +:+ path_debug path +:+ ":" +:+ newline_text +:+ join newline_text (map diagnostic_text ds)), s)
  | inr m => reconcile_manifest now m s
  end.

(** One tick of the watcher: the fingerprint to compare with next, how often reloading failed,
    and the server. *)
Definition watch_tick (now : Z) (current : Z) (p : PathKind) (path : string) (acc : Z * Z * AppState) : option (Z * Z * AppState) :=
  let '(last_hash, failures, s) := acc in
  if negb (current =? 0) && negb (current =? last_hash) then
    '(r, s) ← reconcile_declarative_path now p path s;
    Some (current, match r with inl _ => u64_add failures 1 | inr _ => failures end, s)
  else Some acc.
End reconcile.
