(* ===== verification/ReconcileFacts.v ===== *)
(** * Facts about reconciliation

    A manifest that is accepted makes the server run what it declares, and reconciling again
    leaves every running rule alone. *)

From Stdlib Require Import Ascii.
From S2P Require Import Prelude Rust Characters Wire Json Counters Dlq Ast Engine Values Parser Statements ParserFacts Schema SchemaFacts Kv Managers RuleManager Manifest ManifestFacts Validator Reconcile.

Set Default Goal Selector "!".
#[local] Set Warnings "-register-all".
#[local] Set Warnings "-clear-no-such-hyp".

(** ** A storage that takes every write *)

Definition calm (kv : Store) : Prop := match kv with Some s => answers s = [] | None => True end.

Lemma persist_calm ns key val kv : calm kv -> exists kv', persist ns key val kv = (None, kv') /\ calm kv'.
Proof. intros Hkv. destruct kv as [s|]; [|by exists None]. simpl in *. unfold kv_set, write_kv. rewrite Hkv. by eexists. Qed.

Lemma unpersist_calm ns key kv : calm kv -> exists kv', unpersist ns key kv = (None, kv') /\ calm kv'.
Proof. intros Hkv. destruct kv as [s|]; [|by exists None]. simpl in *. unfold kv_delete, write_kv. rewrite Hkv. by eexists. Qed.

Section registry.
Context {A : Type} `{JsonText A} (kind namespace : string) (name_of : A -> string).

Lemma store_def_calm d m kv : calm kv -> exists kv', store_def namespace name_of d m kv = (None, <[name_of d := d]> m, kv') /\ calm kv'.
Proof.
  intros Hkv. unfold store_def. destruct (persist_calm namespace (name_of d) (to_json d) kv Hkv) as (kv' & -> & Hkv'). by exists kv'.
Qed.

Lemma create_def_calm d m kv : calm kv -> m !! name_of d = None ->
  exists kv', create_def kind namespace name_of d m kv = (None, <[name_of d := d]> m, kv') /\ calm kv'.
Proof. intros Hkv Hn. unfold create_def. rewrite bool_decide_eq_false_2 by (rewrite Hn; by intros []). by apply store_def_calm. Qed.

Lemma delete_def_calm name m kv : calm kv -> is_Some (m !! name) ->
  exists kv', @delete_def A kind namespace name m kv = (None, delete name m, kv') /\ calm kv'.
Proof.
  intros Hkv Hn. unfold delete_def. rewrite bool_decide_eq_true_2 by done.
  destruct (unpersist_calm namespace name kv Hkv) as (kv' & -> & Hkv'). by exists kv'.
Qed.
End registry.

(** ** Phases for definitions *)

(** What the phases for definitions leave alone. *)
Definition same_rules (s s' : AppState) : Prop :=
  as_rules s' = as_rules s /\ as_hashes s' = as_hashes s /\ next_task s' = next_task s /\ calm (as_kv s').

(** A phase writes the definitions of the manifest and removes the others; [view] shows their
    texts, and [other] what the phase must not touch. *)
Section phase.
Context (view : AppState -> gmap string string) {B : Type} (other : AppState -> B) (parses : string * string -> Prop).
Context (existing declared : gmap string string).
Context (put : ReconcileReport * AppState -> string * string -> ReconcileReport * AppState).
Context (remove : ReconcileReport * AppState -> string -> ReconcileReport * AppState).

Definition kept (s s' : AppState) : Prop := same_rules s s' /\ other s' = other s.

Context (put_step : forall rep s e, calm (as_kv s) -> parses e -> existing !! e.1 = view s !! e.1 ->
  let '(_, s') := put (rep, s) e in kept s s' /\ view s' = <[e.1 := e.2]> (view s)).
Context (remove_step : forall rep s k, calm (as_kv s) -> is_Some (view s !! k) ->
  let '(_, s') := remove (rep, s) k in
  kept s s' /\ view s' = if bool_decide (is_Some (declared !! k)) then view s else delete k (view s)).

Lemma kept_refl s : calm (as_kv s) -> kept s s.
Proof. by repeat split. Qed.

Lemma kept_trans s1 s2 s3 : kept s1 s2 -> kept s2 s3 -> kept s1 s3.
Proof. unfold kept, same_rules. intros [(-> & -> & -> & _) ->] [(-> & -> & -> & ?) ->]. done. Qed.

Lemma put_fold l : forall rep s, calm (as_kv s) -> NoDup l.*1 -> Forall parses l ->
  (forall k, k ∈ l.*1 -> existing !! k = view s !! k) ->
  let '(_, s') := foldl put (rep, s) l in kept s s' /\ view s' = list_to_map l ∪ view s.
Proof.
  induction l as [|e l IH]; intros rep s Hkv Hnd Hp Hex; cbn [foldl]; [split; [by apply kept_refl|simpl; by rewrite (left_id_L ∅ (∪))]|].
  apply list.NoDup_cons in Hnd as [Hni Hnd]. apply list.Forall_cons in Hp as [Hpe Hp].
  pose proof (put_step rep s e Hkv Hpe (Hex _ (list_elem_of_here _ _))) as Hs. destruct (put (rep, s) e) as [rep1 s1].
  destruct Hs as [Hk1 Hv1]. specialize (IH rep1 s1). destruct (foldl put (rep1, s1) l) as [rep2 s2].
  destruct IH as [Hk2 Hv2]; [apply Hk1|done|done| |].
  - intros k Hk. rewrite Hv1, lookup_insert_ne by (intros <-; done). apply Hex. by apply list_elem_of_further.
  - split; [by eapply kept_trans|]. rewrite Hv2, Hv1. destruct e as [k v]. simpl.
    rewrite <- insert_union_l, insert_union_r; [done|]. by apply not_elem_of_list_to_map_1.
Qed.

Lemma remove_fold l : forall rep s, calm (as_kv s) -> NoDup l -> (forall k, k ∈ l -> is_Some (view s !! k)) ->
  let '(_, s') := foldl remove (rep, s) l in
  kept s s' /\ forall k, view s' !! k = if bool_decide (k ∈ l /\ declared !! k = None) then None else view s !! k.
Proof.
  induction l as [|k l IH]; intros rep s Hkv Hnd Hin; cbn [foldl].
  { split; [by apply kept_refl|]. intros k. by rewrite bool_decide_eq_false_2 by by intros [?%elem_of_nil _]. }
  apply list.NoDup_cons in Hnd as [Hni Hnd].
  pose proof (remove_step rep s k Hkv (Hin k (list_elem_of_here _ _))) as Hs. destruct (remove (rep, s) k) as [rep1 s1].
  destruct Hs as [Hk1 Hv1]. specialize (IH rep1 s1). destruct (foldl remove (rep1, s1) l) as [rep2 s2].
  assert (Hl1 : forall j, view s1 !! j = if bool_decide (j = k /\ declared !! j = None) then None else view s !! j).
  { intros j. rewrite Hv1. case_bool_decide as Hd.
    - rewrite bool_decide_eq_false_2; [done|]. intros [-> Hn]. rewrite Hn in Hd. by destruct Hd.
    - destruct (decide (j = k)) as [->|Hne].
      + rewrite lookup_delete_eq, bool_decide_eq_true_2; [done|]. split; [done|]. by apply eq_None_not_Some.
      + rewrite lookup_delete_ne, bool_decide_eq_false_2; [done|by intros []|done]. }
  destruct IH as [Hk2 Hv2]; [apply Hk1|done| |].
  { intros j Hj. rewrite Hl1, bool_decide_eq_false_2; [apply Hin; by apply list_elem_of_further|]. by intros [-> _]. }
  split; [by eapply kept_trans|]. intros j. rewrite Hv2, Hl1. repeat case_bool_decide; try done; set_solver.
Qed.

Lemma phase_spec rep s : calm (as_kv s) -> Forall parses (sorted_entries declared) -> existing = view s ->
  let '(_, s') := foldl remove (foldl put (rep, s) (sorted_entries declared)) (map_to_list existing).*1 in
  kept s s' /\ view s' = declared.
Proof.
  intros Hkv Hp Hex. destruct (sorted_entries_map declared) as [Hmap Hnd].
  pose proof (put_fold (sorted_entries declared) rep s Hkv Hnd Hp (fun k _ => f_equal (lookup k) Hex)) as Hf.
  destruct (foldl put (rep, s) _) as [rep1 s1]. destruct Hf as [Hk1 Hv1]. rewrite Hmap in Hv1.
  assert (Hin : forall k, k ∈ (map_to_list existing).*1 <-> is_Some (existing !! k)).
  { intros k. rewrite list_elem_of_fmap. split.
    - intros ([k' v] & -> & He). apply elem_of_map_to_list in He. by eexists.
    - intros [v Hv]. exists (k, v). split; [done|]. by apply elem_of_map_to_list. }
  pose proof (remove_fold (map_to_list existing).*1 rep1 s1) as Hd. destruct (foldl remove (rep1, s1) _) as [rep2 s2].
  destruct Hd as [Hk2 Hv2]; [apply Hk1|apply NoDup_fst_map_to_list| |].
  { intros k Hk. apply Hin in Hk. rewrite Hv1, lookup_union_is_Some, <- Hex. by right. }
  split; [by eapply kept_trans|]. apply map_eq. intros k. rewrite Hv2, Hv1, lookup_union, <- Hex.
  destruct (declared !! k) as [ddl|] eqn:Hd.
  - rewrite bool_decide_eq_false_2 by by intros []. by destruct (existing !! k).
  - destruct (existing !! k) as [v|] eqn:He.
    + rewrite bool_decide_eq_true_2; [done|]. split; [apply Hin; by eexists|done].
    + rewrite bool_decide_eq_false_2; [done|]. intros [Hk _]. apply Hin in Hk as []. congruence.
Qed.

(** When the definitions are the declared ones nothing happens. *)
Lemma phase_idle acc : existing = declared ->
  (forall acc e, declared !! e.1 = Some e.2 -> put acc e = acc) -> (forall acc k, is_Some (declared !! k) -> remove acc k = acc) ->
  foldl remove (foldl put acc (sorted_entries declared)) (map_to_list existing).*1 = acc.
Proof.
  intros Hsame Hput Hremove. rewrite Hsame.
  assert (Hp : forall l acc, (forall e, e ∈ l -> declared !! e.1 = Some e.2) -> foldl put acc l = acc).
  { induction l as [|e l IH]; intros acc' Hl; simpl; [done|]. rewrite Hput by (apply Hl, list_elem_of_here).
    apply IH. intros e' He'. by apply Hl, list_elem_of_further. }
  assert (Hr : forall l acc, (forall k, k ∈ l -> is_Some (declared !! k)) -> foldl remove acc l = acc).
  { induction l as [|k l IH]; intros acc' Hl; simpl; [done|]. rewrite Hremove by (apply Hl, list_elem_of_here).
    apply IH. intros k' Hk'. by apply Hl, list_elem_of_further. }
  rewrite Hp; [|intros [k v] He; by apply elem_of_sorted_entries in He]. apply Hr. intros k Hk.
  apply list_elem_of_fmap in Hk as ([k' v] & -> & He). apply elem_of_map_to_list in He. by eexists.
Qed.
End phase.

Section facts.
Context `{Text} `{Unicode} `{Digest}.
Context `{JsonText RuleDefinition} `{JsonText PersistedRule} `{JsonText StreamDefinition} `{JsonText TableDefinition} `{JsonText SchemaDefinition}.
Context (json_error parse_error : string -> string).

(** ** Streams and tables *)

Definition stream_sqls (s : AppState) : gmap string string := s_sql <$> as_streams s.
Definition table_sqls (s : AppState) : gmap string string := t_sql <$> tables (as_tables s).

Definition stream_parses (e : string * string) : Prop := exists stmt rest, parse_create_stream (of_str e.2) = POk stmt rest.
Definition table_parses (e : string * string) : Prop := exists stmt rest, parse_create_table (of_str e.2) = POk stmt rest.

Lemma insert_view {A} (f : A -> string) (m : gmap string A) k d old : m !! k = Some old -> f <$> <[k := d]> (delete k m) = <[k := f d]> (f <$> m).
Proof. intros _. by rewrite fmap_insert, fmap_delete, insert_delete_eq. Qed.

Lemma reconcile_stream_step existing rep s e : calm (as_kv s) -> stream_parses e -> (s_sql <$> existing) !! e.1 = stream_sqls s !! e.1 ->
  let '(_, s') := reconcile_stream existing (rep, s) e in
  kept as_tables s s' /\ stream_sqls s' = <[e.1 := e.2]> (stream_sqls s).
Proof.
  intros Hkv (stmt & rest & Hp) He. destruct e as [name ddl]. unfold stream_sqls in *. simpl in *. rewrite Hp.
  destruct rep as [a b c d e f g h i j]. set (def := mkStream name ddl _ _). rewrite !lookup_fmap in He.
  destruct (existing !! name) as [old|] eqn:Hold.
  - destruct (as_streams s !! name) as [cur|] eqn:Hcur; [|done]. simpl in He. injection He as He. case_bool_decide as Hsql.
    { split; [by apply kept_refl|]. symmetry. apply insert_id. rewrite lookup_fmap, Hcur. simpl. congruence. }
    destruct (delete_def_calm "Stream" "streams" name (as_streams s) (as_kv s) Hkv) as (kv1 & Hd & Hkv1); [by eexists|].
    unfold delete_stream. rewrite Hd. cbv beta iota.
    destruct (create_def_calm "Stream" "streams" s_name def (delete name (as_streams s)) kv1 Hkv1) as (kv2 & Hc & Hkv2); [apply lookup_delete_eq|].
    unfold create_stream. rewrite Hc. split; [done|]. exact (insert_view s_sql (as_streams s) name def cur Hcur).
  - destruct (as_streams s !! name) as [cur|] eqn:Hcur; [done|].
    destruct (create_def_calm "Stream" "streams" s_name def (as_streams s) (as_kv s) Hkv Hcur) as (kv2 & Hc & Hkv2).
    unfold create_stream. rewrite Hc. split; [done|]. simpl. by rewrite fmap_insert.
Qed.

Lemma remove_stream_step m rep s k : calm (as_kv s) -> is_Some (stream_sqls s !! k) ->
  let '(_, s') := remove_stream m (rep, s) k in
  kept as_tables s s' /\ stream_sqls s' = if bool_decide (is_Some (streams m !! k)) then stream_sqls s else delete k (stream_sqls s).
Proof.
  intros Hkv Hk. unfold remove_stream, stream_sqls in *. destruct rep as [a b c d e f g h i j]. rewrite lookup_fmap in Hk.
  case_bool_decide as Hm; [split; [by apply kept_refl|done]|]. apply fmap_is_Some in Hk.
  destruct (delete_def_calm "Stream" "streams" k (as_streams s) (as_kv s) Hkv Hk) as (kv1 & Hd & Hkv1).
  unfold delete_stream. rewrite Hd. split; [done|]. simpl. by rewrite fmap_delete.
Qed.

Lemma reconcile_table_step existing rep s e : calm (as_kv s) -> table_parses e -> (t_sql <$> existing) !! e.1 = table_sqls s !! e.1 ->
  let '(_, s') := reconcile_table existing (rep, s) e in
  kept as_streams s s' /\ table_sqls s' = <[e.1 := e.2]> (table_sqls s).
Proof.
  intros Hkv (stmt & rest & Hp) He. destruct e as [name ddl]. unfold table_sqls in *. simpl in *. rewrite Hp.
  destruct rep as [a b c d e f g h i j]. set (def := mkTable name ddl _ _). rewrite !lookup_fmap in He.
  destruct (existing !! name) as [old|] eqn:Hold.
  - destruct (tables (as_tables s) !! name) as [cur|] eqn:Hcur; [|done]. simpl in He. injection He as He. case_bool_decide as Hsql.
    { split; [by apply kept_refl|]. symmetry. apply insert_id. rewrite lookup_fmap, Hcur. simpl. congruence. }
    destruct (delete_def_calm "Table" "tables" name (tables (as_tables s)) (as_kv s) Hkv) as (kv1 & Hd & Hkv1); [by eexists|].
    unfold delete_table. rewrite Hd. cbv beta iota. unfold create_table, with_tables. cbn [tables].
    destruct (create_def_calm "Table" "tables" t_name def (delete name (tables (as_tables s))) kv1 Hkv1) as (kv2 & Hc & Hkv2); [apply lookup_delete_eq|].
    rewrite Hc. split; [done|]. exact (insert_view t_sql (tables (as_tables s)) name def cur Hcur).
  - destruct (tables (as_tables s) !! name) as [cur|] eqn:Hcur; [done|]. unfold create_table, with_tables.
    destruct (create_def_calm "Table" "tables" t_name def (tables (as_tables s)) (as_kv s) Hkv Hcur) as (kv2 & Hc & Hkv2).
    rewrite Hc. split; [done|]. simpl. by rewrite fmap_insert.
Qed.

Lemma remove_table_step m rep s k : calm (as_kv s) -> is_Some (table_sqls s !! k) ->
  let '(_, s') := remove_table m (rep, s) k in
  kept as_streams s s' /\ table_sqls s' = if bool_decide (is_Some (m_tables m !! k)) then table_sqls s else delete k (table_sqls s).
Proof.
  intros Hkv Hk. unfold remove_table, table_sqls in *. destruct rep as [a b c d e f g h i j]. rewrite lookup_fmap in Hk.
  case_bool_decide as Hm; [split; [by apply kept_refl|done]|]. apply fmap_is_Some in Hk.
  destruct (delete_def_calm "Table" "tables" k (tables (as_tables s)) (as_kv s) Hkv Hk) as (kv1 & Hd & Hkv1).
  unfold delete_table. rewrite Hd. split; [done|]. simpl. by rewrite fmap_delete.
Qed.

(** The keys of a map and of its view. *)
Lemma view_keys {A} (f : A -> string) (m : gmap string A) : (map_to_list (f <$> m)).*1 = (map_to_list m).*1.
Proof. rewrite map_to_list_fmap. rewrite <- list_fmap_compose. by apply list_fmap_ext; intros ? []. Qed.

Lemma reconcile_streams_spec m rep s : calm (as_kv s) -> Forall stream_parses (sorted_entries (streams m)) ->
  let '(_, s') := reconcile_streams m (rep, s) in kept as_tables s s' /\ stream_sqls s' = streams m.
Proof.
  intros Hkv Hp. unfold reconcile_streams. cbn [snd]. rewrite <- (view_keys s_sql).
  by apply (phase_spec stream_sqls as_tables stream_parses (s_sql <$> as_streams s) (streams m) (reconcile_stream (as_streams s)) (remove_stream m)
    (reconcile_stream_step (as_streams s)) (remove_stream_step m)).
Qed.

Lemma reconcile_tables_spec m rep s : calm (as_kv s) -> Forall table_parses (sorted_entries (m_tables m)) ->
  let '(_, s') := reconcile_tables m (rep, s) in kept as_streams s s' /\ table_sqls s' = m_tables m.
Proof.
  intros Hkv Hp. unfold reconcile_tables. cbn [snd]. rewrite <- (view_keys t_sql).
  by apply (phase_spec table_sqls as_streams table_parses (t_sql <$> tables (as_tables s)) (m_tables m) (reconcile_table (tables (as_tables s)))
    (remove_table m) (reconcile_table_step (tables (as_tables s))) (remove_table_step m)).
Qed.
(** ** Rules *)

Definition ids_ok (rm : RuleManager) : Prop := forall id a, rules rm !! id = Some a -> r_id (a_def a) = id.

Lemma change_rule_calm id d status f rm kv a : calm kv -> rules rm !! id = Some a ->
  exists kv', change_rule id d status f rm kv = (None, f a rm, kv') /\ calm kv'.
Proof.
  intros Hkv Ha. unfold change_rule, persist_rule. rewrite Ha.
  destruct (persist_calm "rules" id (to_json (mkPersisted (d a) (status a))) kv Hkv) as (kv' & -> & Hkv'). by exists kv'.
Qed.

Lemma delete_rule_calm id rm kv a : calm kv -> rules rm !! id = Some a ->
  exists kv', delete_rule id rm kv = (None, abort_task (a_handle a) (mkRules (delete id (rules rm)) (aborted rm)), kv') /\ calm kv'.
Proof.
  intros Hkv Ha. unfold delete_rule, unpersist_rule, delete_rule_checkpoint. rewrite Ha.
  destruct (unpersist_calm "rules" id kv Hkv) as (kv1 & -> & Hkv1).
  destruct (unpersist_calm "rule_checkpoints" id kv1 Hkv1) as (kv2 & -> & Hkv2). by exists kv2.
Qed.

Lemma drop_rule_calm now id rm kv : calm kv -> is_Some (rules rm !! id) ->
  exists rm' kv', drop_rule now id rm kv = (rm', kv') /\ rules rm' = delete id (rules rm) /\ calm kv'.
Proof.
  intros Hkv [a Ha]. unfold drop_rule, stop_rule.
  match goal with |- context [change_rule id ?d ?st ?f rm kv] => destruct (change_rule_calm id d st f rm kv a Hkv Ha) as (kv1 & -> & Hkv1) end.
  match goal with |- context [delete_rule id ?rm1 kv1] => destruct (delete_rule_calm id rm1 kv1 (with_handle None
    (with_status (stopped now "canceled manually" (a_status a)) a)) Hkv1) as (kv2 & -> & Hkv2); [apply lookup_insert_eq|] end.
  do 2 eexists. split; [done|]. split; [|done]. simpl. by rewrite delete_insert_eq.
Qed.

Lemma create_rule_calm now d rm kv : calm kv -> rules rm !! r_id d = None ->
  exists kv', create_rule now d rm kv = (None, put_rule (r_id d) (new_rule now d "running") rm, kv') /\ calm kv'.
Proof.
  intros Hkv Hn. unfold create_rule, persist_rule. rewrite bool_decide_eq_false_2 by (rewrite Hn; by intros []).
  destruct (persist_calm "rules" (r_id d) (to_json (mkPersisted d "running")) kv Hkv) as (kv' & -> & Hkv'). by exists kv'.
Qed.

(** A rule of the manifest that runs, with the digest it was started with. *)
Definition runs (m : DeclarativeManifest) (s : AppState) (id : string) (r : RuleDefinition) : Prop :=
  as_hashes s !! id = Some (compute_rule_effective_hash r m) /\
  exists a, rules (as_rules s) !! id = Some a /\ is_running a = true /\ r_id (a_def a) = id.

(** Only the rule [id] may differ. *)
Definition only_rule (id : string) (s s' : AppState) : Prop :=
  as_streams s' = as_streams s /\ as_tables s' = as_tables s /\ calm (as_kv s') /\
  forall k, k <> id -> rules (as_rules s') !! k = rules (as_rules s) !! k /\ as_hashes s' !! k = as_hashes s !! k.

Definition synced (a : ActiveRule) : ActiveRule := with_status (sync_to (a_counters a) (a_status a)) a.

Lemma rule_status id rm : get_rule_status id rm =
  match rules rm !! id with Some a => (Some (a_status (synced a)), put_rule id (synced a) rm) | None => (None, rm) end.
Proof. done. Qed.

(** A rule that runs with the digest of what the manifest says is left alone. *)
Definition unchanged (m : DeclarativeManifest) (s : AppState) (id : string) (r : RuleDefinition) : bool :=
  bool_decide (as_hashes s !! id = Some (compute_rule_effective_hash r m)) && from_option is_running false (rules (as_rules s) !! id).

(** What becomes of a rule of the manifest: one that is unchanged stays as it is, its counters
    shown in the status; any other has the definition of the manifest and a new task. *)
Definition brought_about (m : DeclarativeManifest) (before after : AppState) (id : string) (r : RuleDefinition) : Prop :=
  exists a, rules (as_rules after) !! id = Some a /\
    if unchanged m before id r then synced <$> rules (as_rules before) !! id = Some a
    else a_def a = r /\ exists t, a_handle a = Some t /\ (next_task before <= t)%nat.

Lemma brought_about_same m before before' after after' id r : rules (as_rules before') !! id = rules (as_rules before) !! id ->
  as_hashes before' !! id = as_hashes before !! id -> (next_task before <= next_task before')%nat ->
  rules (as_rules after') !! id = rules (as_rules after) !! id -> brought_about m before' after id r -> brought_about m before after' id r.
Proof.
  intros Hr Hh Hn Ha. unfold brought_about, unchanged. rewrite Hr, Hh, Ha. intros (a & Hl & Hc). exists a. split; [done|].
  destruct (_ && _); [done|]. destruct Hc as (? & t & ? & ?). split; [done|]. exists t. split; [done|lia].
Qed.

Lemma start_new_rule_spec now id r hash s : calm (as_kv s) -> rules (as_rules s) !! id = None -> r_id r = id ->
  let s' := start_new_rule now id r hash s in
  only_rule id s s' /\ as_hashes s' !! id = Some hash /\
  (exists a, rules (as_rules s') !! id = Some a /\ is_running a = true /\ r_id (a_def a) = id /\ a_def a = r /\ a_handle a = Some (next_task s)) /\
  next_task s' = S (next_task s).
Proof.
  intros Hkv Hn Hid. unfold start_new_rule. subst id.
  destruct (create_rule_calm now r (as_rules s) (as_kv s) Hkv Hn) as (kv' & -> & Hkv'). unfold set_rule_handle. simpl.
  rewrite lookup_insert_eq. simpl. split.
  - split; [done|]. split; [done|]. split; [done|]. intros k Hk. simpl. by rewrite !lookup_insert_ne by done.
  - split; [by rewrite lookup_insert_eq|]. split; [|done]. eexists. by rewrite lookup_insert_eq.
Qed.

Lemma reconcile_rule_step now m existing rep s id r : calm (as_kv s) -> r_id r = id ->
  (exists stmt rest, parse_select_text (of_str (r_sql r)) = POk stmt rest) -> (id ∈ existing <-> is_Some (rules (as_rules s) !! id)) ->
  ids_ok (as_rules s) ->
  exists rep' s', reconcile_rule parse_error now m existing (None, (rep, s)) (id, r) = (None, (rep', s')) /\ only_rule id s s' /\ runs m s' id r /\
    brought_about m s s' id r /\ (next_task s <= next_task s')%nat.
Proof.
  intros Hkv Hid (stmt & rest & Hp) Hex Hok. unfold reconcile_rule. destruct rep as [c1 c2 c3 c4 c5 c6 c7 c8 c9 c10].
  rewrite rule_status. destruct (rules (as_rules s) !! id) as [a|] eqn:Ha.
  - change (from_option _ _ (Some (a_status (synced a)))) with (is_running a).
    assert (Hun : unchanged m s id r = bool_decide (as_hashes s !! id = Some (compute_rule_effective_hash r m)) && is_running a) by (unfold unchanged; by rewrite Ha).
    destruct (bool_decide (as_hashes s !! id = Some _) && is_running a) eqn:Hrun.
    + apply andb_true_iff in Hrun as [Hh Hrun]. apply bool_decide_eq_true in Hh. do 2 eexists. split; [reflexivity|]. split.
      * split; [done|]. split; [done|]. split; [done|]. intros k Hk. simpl. by rewrite lookup_insert_ne.
      * split.
        { split; [done|]. exists (synced a). simpl. rewrite lookup_insert_eq. split; [done|]. split; [done|]. by apply (Hok id a). }
        split; [|done]. exists (synced a). simpl. rewrite lookup_insert_eq, Hun, Ha. done.
    + rewrite bool_decide_eq_true_2 by (apply Hex; by eexists). cbn [as_rules with_rules as_kv].
      destruct (drop_rule_calm now id (put_rule id (synced a) (as_rules s)) (as_kv s) Hkv) as (rm1 & kv1 & -> & Hr1 & Hkv1).
      { simpl. rewrite lookup_insert_eq. by eexists. }
      rewrite Hp. cbv beta iota.
      match goal with |- context [start_new_rule now id r ?h ?s1] =>
        destruct (start_new_rule_spec now id r h s1 Hkv1) as ((Hs1 & Hs2 & Hs3 & Hs4) & Hs5 & (a' & Ha' & Hrun' & Hid' & Hd' & Hh') & Hn') end;
        [simpl; by rewrite Hr1, lookup_delete_eq|done|].
      do 2 eexists. split; [reflexivity|]. split; [|split; [split; [done|by exists a']|split; [exists a'; split; [done|]; rewrite Hun; split; [done|]; by eexists|rewrite Hn'; simpl; lia]]]. split; [done|]. split; [done|]. split; [done|]. intros k Hk.
      destruct (Hs4 k Hk) as [Hk1 Hk2]. rewrite Hk1, Hk2. simpl. rewrite Hr1. simpl. by rewrite lookup_delete_ne, lookup_insert_ne.
  - simpl from_option. rewrite andb_false_r. rewrite bool_decide_eq_false_2 by (rewrite Hex; by intros []). rewrite Hp. cbv beta iota.
    match goal with |- context [start_new_rule now id r ?h ?s1] =>
      destruct (start_new_rule_spec now id r h s1 Hkv Ha Hid) as ((Hs1 & Hs2 & Hs3 & Hs4) & Hs5 & (a' & Ha' & Hrun' & Hid' & Hd' & Hh') & Hn') end.
    assert (Hun : unchanged m s id r = false) by (unfold unchanged; rewrite Ha; apply andb_false_r).
    do 2 eexists. split; [reflexivity|]. split; [by split|]. split; [split; [done|by exists a']|].
    split; [exists a'; split; [done|]; rewrite Hun; split; [done|]; by eexists|rewrite Hn'; simpl; lia].
Qed.

(** The rules of a list run, and nothing else changed. *)
Definition only_rules (l : list (string * RuleDefinition)) (s s' : AppState) : Prop :=
  as_streams s' = as_streams s /\ as_tables s' = as_tables s /\ calm (as_kv s') /\
  forall k, k ∉ l.*1 -> rules (as_rules s') !! k = rules (as_rules s) !! k /\ as_hashes s' !! k = as_hashes s !! k.

Definition rule_parses (e : string * RuleDefinition) : Prop :=
  r_id e.2 = e.1 /\ exists stmt rest, parse_select_text (of_str (r_sql e.2)) = POk stmt rest.

Lemma ids_ok_step m s s' id r : ids_ok (as_rules s) -> only_rule id s s' -> runs m s' id r -> ids_ok (as_rules s').
Proof.
  intros Hok (_ & _ & _ & Ho) (_ & a & Ha & _ & Hid) k b Hb. destruct (decide (k = id)) as [->|Hne]; [congruence|].
  destruct (Ho k Hne) as [Hr _]. rewrite Hr in Hb. by apply (Hok k).
Qed.

Lemma reconcile_rule_fold now m existing l : forall rep s, calm (as_kv s) -> ids_ok (as_rules s) -> NoDup l.*1 -> Forall rule_parses l ->
  (forall k, k ∈ l.*1 -> k ∈ existing <-> is_Some (rules (as_rules s) !! k)) ->
  exists rep' s', foldl (reconcile_rule parse_error now m existing) (None, (rep, s)) l = (None, (rep', s')) /\
    only_rules l s s' /\ ids_ok (as_rules s') /\ (forall e, e ∈ l -> runs m s' e.1 e.2 /\ brought_about m s s' e.1 e.2).
Proof.
  induction l as [|[id r] l IH]; intros rep s Hkv Hok Hnd Hp Hex.
  { exists rep, s. split; [done|]. split; [by split_and!|]. split; [done|]. by intros e ?%elem_of_nil. }
  apply list.NoDup_cons in Hnd as [Hni Hnd]. apply list.Forall_cons in Hp as [[Hid Hpr] Hp]. cbn [foldl]. simpl in Hid, Hni.
  destruct (reconcile_rule_step now m existing rep s id r Hkv Hid Hpr (Hex id (list_elem_of_here _ _)) Hok) as (rep1 & s1 & -> & Ho1 & Hr1 & Hb1 & Hn1).
  pose proof (ids_ok_step m s s1 id r Hok Ho1 Hr1) as Hok1. destruct Ho1 as (Hs1 & Ht1 & Hkv1 & Hk1).
  destruct (IH rep1 s1 Hkv1 Hok1 Hnd Hp) as (rep2 & s2 & -> & (Hs2 & Ht2 & Hkv2 & Hk2) & Hok2 & Hr2).
  { intros k Hk. assert (Hne : k <> id) by (intros ->; done). destruct (Hk1 k Hne) as [-> _]. apply Hex. by apply list_elem_of_further. }
  exists rep2, s2. split; [done|]. split; [|split; [done|]].
  - split; [congruence|]. split; [congruence|]. split; [done|]. intros k Hk. apply not_elem_of_cons in Hk as [Hne Hk].
    destruct (Hk2 k Hk) as [-> ->]. by apply Hk1.
  - intros e [->|He]%elem_of_cons.
    + destruct (Hk2 id Hni) as [Hra Hrh]. split; [unfold runs in *; simpl; by rewrite Hra, Hrh|]. by apply (brought_about_same m s s s1).
    + destruct (Hr2 e He) as [Hrun Hb]. split; [done|]. assert (Hne : e.1 <> id) by (intros Heq; apply Hni; rewrite <- Heq; by apply list_elem_of_fmap_2).
      destruct (Hk1 e.1 Hne) as [? ?]. by apply (brought_about_same m s s1 s2).
Qed.

Lemma stop_absent_fold now incoming l : forall rep s, calm (as_kv s) -> NoDup l -> (forall k, k ∈ l -> is_Some (rules (as_rules s) !! k)) ->
  exists rep' s', foldl (stop_absent now incoming) (rep, s) l = (rep', s') /\
    as_streams s' = as_streams s /\ as_tables s' = as_tables s /\ calm (as_kv s') /\
    (forall k, rules (as_rules s') !! k = if bool_decide (k ∈ l /\ incoming !! k = None) then None else rules (as_rules s) !! k) /\
    forall k, is_Some (incoming !! k) -> as_hashes s' !! k = as_hashes s !! k.
Proof.
  induction l as [|k l IH]; intros rep s Hkv Hnd Hin; cbn [foldl].
  { exists rep, s. by split_and!. }
  apply list.NoDup_cons in Hnd as [Hni Hnd]. unfold stop_absent at 2. destruct rep as [a b c d e f g h i j].
  destruct (decide (is_Some (incoming !! k))) as [Hk|Hk].
  - rewrite bool_decide_eq_true_2 by done.
    destruct (IH (mkReport a b c d e f g h i j) s Hkv Hnd) as (rep2 & s2 & -> & Hs2 & Ht2 & Hkv2 & Hr2 & Hh2).
    { intros j' Hj. by apply Hin, list_elem_of_further. }
    exists rep2, s2. split_and!; try done. intros j'. rewrite Hr2. destruct Hk as [v Hv].
    repeat case_bool_decide; try done; [set_solver|]. naive_solver set_solver.
  - rewrite bool_decide_eq_false_2 by done.
    destruct (drop_rule_calm now k (as_rules s) (as_kv s) Hkv (Hin k (list_elem_of_here _ _))) as (rm1 & kv1 & -> & Hr1 & Hkv1).
    set (s1 := with_rules s rm1 _ kv1 _).
    destruct (IH (mkReport a b c d e f g h i (S j)) s1 Hkv1 Hnd) as (rep2 & s2 & -> & Hs2 & Ht2 & Hkv2 & Hr2 & Hh2).
    { intros j' Hj. simpl. rewrite Hr1, lookup_delete_ne by (intros ->; done). by apply Hin, list_elem_of_further. }
    exists rep2, s2. split; [done|]. split; [by rewrite Hs2|]. split; [by rewrite Ht2|]. split; [done|]. split.
    + intros j'. rewrite Hr2. simpl. rewrite Hr1. apply eq_None_not_Some in Hk. destruct (decide (j' = k)) as [->|Hne].
      * rewrite lookup_delete_eq. rewrite (bool_decide_eq_true_2 (k ∈ k :: l /\ _)) by (split; [by apply list_elem_of_here|done]).
        by case_bool_decide.
      * rewrite lookup_delete_ne by done. repeat case_bool_decide; try done; set_solver.
    + intros j' Hj. rewrite Hh2 by done. simpl. rewrite lookup_delete_ne; [done|]. by intros ->.
Qed.

(** What a server runs after a manifest: its definitions, and its rules, running, with their
    digests. *)
Definition settled (m : DeclarativeManifest) (s : AppState) : Prop :=
  stream_sqls s = streams m /\ table_sqls s = m_tables m /\
  exists incoming, into_rules_map json_error (m_rules m) = inr incoming /\
    (forall id, is_Some (rules (as_rules s) !! id) <-> is_Some (incoming !! id)) /\
    forall id r, incoming !! id = Some r -> runs m s id r.

(** The names of the rules are their ids. *)
Definition named_by_id (m : DeclarativeManifest) : Prop :=
  forall incoming id r, into_rules_map json_error (m_rules m) = inr incoming -> incoming !! id = Some r -> r_id r = id.

Lemma elem_of_existing rm k : ids_ok rm -> k ∈ map r_id (list_rules rm) <-> is_Some (rules rm !! k).
Proof.
  intros Hok. unfold list_rules. rewrite list_elem_of_fmap. setoid_rewrite list_elem_of_fmap. setoid_rewrite list_elem_of_fmap. split.
  - intros (d & -> & a & -> & [id a'] & -> & Hin). apply elem_of_map_to_list in Hin. simpl. rewrite (Hok id a' Hin). by eexists.
  - intros [a Ha]. exists (a_def a). split; [by rewrite (Hok k a Ha)|]. exists a. split; [done|]. exists (k, a). split; [done|].
    by apply elem_of_map_to_list.
Qed.

Lemma existing_ids rm : ids_ok rm -> map r_id (list_rules rm) = (map_to_list (rules rm)).*1.
Proof.
  intros Hok. unfold list_rules. rewrite map_map. change (map (fun x => r_id (a_def x))) with (fmap (M := list) (fun x => r_id (a_def x))).
  rewrite <- list_fmap_compose. apply list_fmap_ext. intros i [id a] Hi. simpl. apply (Hok id). apply elem_of_map_to_list.
  by eapply list_elem_of_lookup_2.
Qed.

Lemma reconcile_rules_settles now m rep s incoming : calm (as_kv s) -> ids_ok (as_rules s) ->
  into_rules_map json_error (m_rules m) = inr incoming -> Forall rule_parses (sorted_entries incoming) ->
  stream_sqls s = streams m -> table_sqls s = m_tables m ->
  exists rep' s', reconcile_rules json_error parse_error now m rep s = (inr rep', s') /\ settled m s' /\ calm (as_kv s') /\
    forall id r, incoming !! id = Some r -> brought_about m s s' id r.
Proof.
  intros Hkv Hok Hin Hp Hst Htb. unfold reconcile_rules. rewrite Hin. destruct (sorted_entries_map incoming) as [_ Hnd].
  destruct (reconcile_rule_fold now m (map r_id (list_rules (as_rules s))) (sorted_entries incoming) rep s Hkv Hok Hnd Hp)
    as (rep1 & s1 & -> & (Hs1 & Ht1 & Hkv1 & Hk1) & Hok1 & Hr1).
  { intros k _. by apply elem_of_existing. }
  assert (Hkeys : forall k, k ∈ (sorted_entries incoming).*1 <-> is_Some (incoming !! k)).
  { intros k. rewrite list_elem_of_fmap. split.
    - intros ([k' v] & -> & He). apply elem_of_sorted_entries in He. by eexists.
    - intros [v Hv]. exists (k, v). split; [done|]. by apply elem_of_sorted_entries. }
  destruct (stop_absent_fold now incoming (map r_id (list_rules (as_rules s))) rep1 s1 Hkv1) as (rep2 & s2 & -> & Hs2 & Ht2 & Hkv2 & Hr2 & Hh2).
  { rewrite existing_ids by done. apply NoDup_fst_map_to_list. }
  { intros k Hk. apply elem_of_existing in Hk; [|done]. destruct (decide (k ∈ (sorted_entries incoming).*1)) as [Hi|Hi].
    - apply list_elem_of_fmap in Hi as ([k' r] & -> & He). destruct (Hr1 _ He) as [(_ & a & Ha & _) _]. by exists a.
    - destruct (Hk1 k Hi) as [-> _]. done. }
  exists rep2, s2. split; [done|]. split; [|split; [done|]].
  2: { intros id r Hr. destruct (Hr1 (id, r)) as [_ Hb]; [by apply elem_of_sorted_entries|]. apply (brought_about_same m s s s1); [done|done|done| |exact Hb].
       rewrite Hr2, bool_decide_eq_false_2; [done|]. intros [_ Hn]. simpl in *. congruence. }
  unfold settled, stream_sqls, table_sqls in *. rewrite Hs2, Hs1, Ht2, Ht1.
  split; [done|]. split; [done|]. exists incoming. split; [done|].
  assert (Hruns : forall id r, incoming !! id = Some r -> runs m s2 id r).
  { intros id r Hr. assert (Hrun : runs m s1 id r) by (apply (Hr1 (id, r)); by apply elem_of_sorted_entries).
    unfold runs in *. rewrite Hh2 by by eexists. rewrite Hr2, bool_decide_eq_false_2; [done|]. intros [_ Hn]. congruence. }
  split; [|done]. intros id. split.
  - rewrite Hr2. case_bool_decide as Hc; [by intros []|]. intros Hsome. destruct (incoming !! id) as [r|] eqn:Hi; [by eexists|].
    exfalso. apply Hc. split; [|done]. apply elem_of_existing; [done|].
    destruct (Hk1 id) as [<- _]; [|done]. rewrite Hkeys, Hi. by intros [].
  - intros [r Hr]. destruct (Hruns id r Hr) as (_ & a & Ha & _). by exists a.
Qed.
(** ** Reconciling again *)

Lemma reconcile_rule_idle now m existing n s id r : runs m s id r ->
  exists a, rules (as_rules s) !! id = Some a /\
    reconcile_rule parse_error now m existing (None, (mkReport 0 0 0 0 0 0 0 0 n 0, s)) (id, r)
    = (None, (mkReport 0 0 0 0 0 0 0 0 (S n) 0,
              with_rules s (put_rule id (synced a) (as_rules s)) (as_hashes s) (as_kv s) (next_task s))).
Proof.
  intros (Hh & a & Ha & Hrun & _). exists a. split; [done|]. unfold reconcile_rule. rewrite rule_status, Ha.
  change (from_option _ _ (Some (a_status (synced a)))) with (is_running a). by rewrite (bool_decide_eq_true_2 _ Hh), Hrun.
Qed.

(** The rules of [s'] are those of [s], their counters shown in the status. *)
Definition shown (ids : list string) (s s' : AppState) : Prop :=
  as_streams s' = as_streams s /\ as_tables s' = as_tables s /\ as_hashes s' = as_hashes s /\ next_task s' = next_task s /\
  as_kv s' = as_kv s /\ aborted (as_rules s') = aborted (as_rules s) /\
  forall k, rules (as_rules s') !! k = if bool_decide (k ∈ ids) then synced <$> rules (as_rules s) !! k else rules (as_rules s) !! k.

Lemma reconcile_rules_idle_fold now m existing l : forall n s, NoDup l.*1 -> (forall e, e ∈ l -> runs m s e.1 e.2) ->
  exists s', foldl (reconcile_rule parse_error now m existing) (None, (mkReport 0 0 0 0 0 0 0 0 n 0, s)) l
    = (None, (mkReport 0 0 0 0 0 0 0 0 (length l + n) 0, s')) /\ shown l.*1 s s'.
Proof.
  induction l as [|[id r] l IH]; intros n s Hnd Hl; cbn [foldl]; [by exists s|].
  apply list.NoDup_cons in Hnd as [Hni Hnd]. simpl in Hni.
  destruct (reconcile_rule_idle now m existing n s id r (Hl (id, r) (list_elem_of_here _ _))) as (a & Ha & ->).
  set (s1 := with_rules s _ _ _ _). destruct (IH (S n) s1 Hnd) as (s2 & -> & Hs1 & Hs2 & Hs3 & Hs4 & Hs5 & Hs6 & Hk).
  { intros [k r'] He. pose proof (Hl (k, r') (list_elem_of_further _ _ _ He)) as Hr. unfold runs in *. simpl in *.
    rewrite lookup_insert_ne; [done|]. intros <-. apply Hni. apply list_elem_of_fmap. by exists (id, r'). }
  exists s2. split; [f_equal; f_equal; f_equal; simpl; lia|]. split_and!; try done. intros k. rewrite Hk. simpl.
  destruct (decide (k = id)) as [->|Hne].
  - rewrite (bool_decide_eq_false_2 _ Hni), lookup_insert_eq, Ha. by rewrite bool_decide_eq_true_2 by apply list_elem_of_here.
  - rewrite lookup_insert_ne by done. repeat case_bool_decide; try done; set_solver.
Qed.

Lemma settled_ids m s : settled m s -> ids_ok (as_rules s).
Proof.
  intros (_ & _ & incoming & _ & Hdom & Hruns) id a Ha. destruct (proj1 (Hdom id)) as [r Hr]; [by exists a|].
  destruct (Hruns id r Hr) as (_ & b & Hb & _ & Hid). congruence.
Qed.

Lemma reconcile_rules_idle now m s : settled m s ->
  exists incoming s', into_rules_map json_error (m_rules m) = inr incoming /\
    reconcile_rules json_error parse_error now m report_default s = (inr (mkReport 0 0 0 0 0 0 0 0 (size incoming) 0), s') /\
    shown (sorted_entries incoming).*1 s s'.
Proof.
  intros Hset. pose proof (settled_ids m s Hset) as Hok. destruct Hset as (_ & _ & incoming & Hin & Hdom & Hruns).
  destruct (sorted_entries_map incoming) as [_ Hnd]. exists incoming. unfold reconcile_rules. rewrite Hin.
  destruct (reconcile_rules_idle_fold now m (map r_id (list_rules (as_rules s))) (sorted_entries incoming) 0 s Hnd) as (s1 & Hf & Hs1).
  { intros [id r] He. apply elem_of_sorted_entries in He. by apply Hruns. }
  unfold report_default. rewrite Hf. exists s1. split; [done|]. split; [|done].
  assert (Hstop : forall l acc, (forall k, k ∈ l -> is_Some (incoming !! k)) -> foldl (stop_absent now incoming) acc l = acc).
  { induction l as [|k l IH]; intros acc Hl; simpl; [done|]. unfold stop_absent at 2. destruct acc as [[c1 c2 c3 c4 c5 c6 c7 c8 c9 c10] s2].
    rewrite bool_decide_eq_true_2 by (apply Hl, list_elem_of_here). apply IH. intros k' Hk'. by apply Hl, list_elem_of_further. }
  rewrite Hstop.
  - rewrite Nat.add_0_r. unfold sorted_entries. by rewrite merge_sort_Permutation, length_map_to_list.
  - intros k Hk. apply Hdom. by apply elem_of_existing.
Qed.

Lemma settled_shown m s s' ids : shown ids s s' -> settled m s -> settled m s'.
Proof.
  intros (Hs1 & Hs2 & Hs3 & _ & _ & _ & Hk) (Hst & Htb & incoming & Hin & Hdom & Hruns).
  unfold settled, stream_sqls, table_sqls in *. rewrite Hs1, Hs2. split; [done|]. split; [done|]. exists incoming. split; [done|]. split.
  - intros id. rewrite Hk, <- Hdom. case_bool_decide; [by rewrite fmap_is_Some|done].
  - intros id r Hr. destruct (Hruns id r Hr) as (Hh & a & Ha & Hrun & Hid). split; [by rewrite Hs3|]. rewrite Hk, Ha.
    case_bool_decide; eexists; (split; [done|]); by split.
Qed.

(** The first phases. *)
Lemma register_all_calm l : forall sm kv, calm kv ->
  calm (foldl (fun '(sm, kv) d => let '(_, sm, kv) := register_schema d sm kv in (sm, kv)) (sm, kv) l).2.
Proof.
  induction l as [|d l IH]; intros sm kv Hkv; cbn [foldl]; [done|].
  destruct (store_def_calm "schemas" schema_key d sm kv Hkv) as (kv1 & Hs & Hkv1). unfold register_schema at 2. rewrite Hs. by apply IH.
Qed.

Definition prepared (m : DeclarativeManifest) (s : AppState) : AppState := reconcile_schemas m (reconcile_connections m s).

Lemma prepared_spec m s : calm (as_kv s) ->
  as_streams (prepared m s) = as_streams s /\ as_tables (prepared m s) = as_tables s /\ as_rules (prepared m s) = as_rules s /\
  as_hashes (prepared m s) = as_hashes s /\ next_task (prepared m s) = next_task s /\ calm (as_kv (prepared m s)).
Proof.
  intros Hkv. unfold prepared, reconcile_schemas. cbn [as_schemas as_kv reconcile_connections].
  pose proof (register_all_calm (sorted_entries (schemas m)).*2 (as_schemas s) (as_kv s) Hkv) as Hc. by destruct (foldl _ _ _) as [sm kv].
Qed.

(** The definitions of a settled server stay. *)
Lemma definitions_idle m s rep : stream_sqls s = streams m -> table_sqls s = m_tables m ->
  reconcile_tables m (reconcile_streams m (rep, s)) = (rep, s).
Proof.
  intros Hst Htb. assert (Hs : reconcile_streams m (rep, s) = (rep, s)).
  { unfold reconcile_streams. cbn [snd]. rewrite <- (view_keys s_sql). apply phase_idle; [done| |].
    - intros acc [name ddl] Hd. unfold reconcile_stream. destruct acc as [rep' s']. destruct (parse_create_stream _); try done. simpl in Hd.
      rewrite <- Hst in Hd. unfold stream_sqls in Hd. rewrite lookup_fmap in Hd. destruct (as_streams s !! name) as [old|]; [|done].
      simpl in Hd. injection Hd as Hd. rewrite bool_decide_eq_true_2 by done. by destruct rep'.
    - intros [rep' s'] k Hk. unfold remove_stream. rewrite bool_decide_eq_true_2 by done. by destruct rep'. }
  rewrite Hs. unfold reconcile_tables. cbn [snd]. rewrite <- (view_keys t_sql). apply phase_idle; [done| |].
  - intros acc [name ddl] Hd. unfold reconcile_table. destruct acc as [rep' s']. destruct (parse_create_table _); try done. simpl in Hd.
    rewrite <- Htb in Hd. unfold table_sqls in Hd. rewrite lookup_fmap in Hd. destruct (tables (as_tables s) !! name) as [old|]; [|done].
    simpl in Hd. injection Hd as Hd. rewrite bool_decide_eq_true_2 by done. by destruct rep'.
  - intros [rep' s'] k Hk. unfold remove_table. rewrite bool_decide_eq_true_2 by done. by destruct rep'.
Qed.

Lemma entries_parse {A} (m : gmap string A) (P : string * A -> Prop) : (forall k v, m !! k = Some v -> P (k, v)) -> Forall P (sorted_entries m).
Proof. intros Hm. apply list.Forall_forall. intros [k v] He. apply elem_of_sorted_entries in He. by apply Hm. Qed.

Lemma reconcile_accepted now m s : manifest_ok json_error m ->
  reconcile_manifest json_error parse_error now m s =
  Some (let '(rep, s) := reconcile_tables m (reconcile_streams m (report_default, prepared m s)) in
        reconcile_rules json_error parse_error now m rep s).
Proof.
  intros Hok. destruct (proj2 (manifest_accepted json_error parse_error m) Hok) as [sum Hsum].
  unfold reconcile_manifest. by rewrite Hsum.
Qed.

Lemma reconcile_settles now m s : calm (as_kv s) -> ids_ok (as_rules s) -> manifest_ok json_error m -> named_by_id m ->
  exists rep s' incoming, into_rules_map json_error (m_rules m) = inr incoming /\
    reconcile_manifest json_error parse_error now m s = Some (inr rep, s') /\ settled m s' /\ calm (as_kv s') /\
    forall id r, incoming !! id = Some r -> brought_about m s s' id r.
Proof.
  intros Hkv Hids Hok Hnamed. rewrite reconcile_accepted by done.
  destruct (prepared_spec m s Hkv) as (Hp1 & Hp2 & Hp3 & Hp4 & Hp5 & Hp6). destruct Hok as (Hst & Htb & incoming & Hin & Hrules).
  pose proof (reconcile_streams_spec m report_default (prepared m s) Hp6) as Hs1.
  destruct (reconcile_streams m (report_default, prepared m s)) as [rep1 s1].
  destruct Hs1 as [[(Hr1 & Hh1 & Hn1 & Hkv1) _] Hv1].
  { apply entries_parse. intros k ddl Hk. destruct (Hst k ddl Hk) as (stmt & rest & Hpr & _). by exists stmt, rest. }
  pose proof (reconcile_tables_spec m rep1 s1 Hkv1) as Hs2. destruct (reconcile_tables m (rep1, s1)) as [rep2 s2].
  destruct Hs2 as [[(Hr2 & Hh2 & Hn2 & Hkv2) Hstr] Hv2].
  { apply entries_parse. intros k ddl Hk. destruct (Htb k ddl Hk) as (stmt & rest & Hpr & _). by exists stmt, rest. }
  destruct (reconcile_rules_settles now m rep2 s2 incoming Hkv2) as (rep' & s' & Hrec & Hset & Hkv' & Hb); try done.
  - by rewrite Hr2, Hr1, Hp3.
  - apply entries_parse. intros k r Hk. destruct (Hrules k r Hk) as (_ & (stmt & rest & Hpr & _) & _).
    split; [by apply (Hnamed incoming)|]. by exists stmt, rest.
  - unfold stream_sqls in *. by rewrite Hstr.
  - exists rep', s', incoming. rewrite Hrec. split_and!; [done|done|done|done|]. intros id r Hr.
    apply (brought_about_same m s s2 s'); [by rewrite Hr2, Hr1, Hp3|by rewrite Hh2, Hh1, Hp4|by rewrite Hn2, Hn1, Hp5|done|by apply Hb].
Qed.

(** C4. When the validator accepts a manifest whose rules are named by their ids, the rules of the
    server are kept under their ids and the storage takes the writes, reconciling succeeds and
    the server then has exactly the streams and tables of the manifest, with their definitions,
    and exactly its rules, all running: a rule that ran with the same digest of everything it
    depends on stays as it was, every other has the definition of the manifest and a new task.
    Reconciling the same manifest again reports every rule as unchanged and nothing created,
    updated, deleted or restarted; no task is aborted or spawned, and every rule keeps its
    definition, its task and its counters. *)
Theorem reconcile_converges now now' m s : calm (as_kv s) -> ids_ok (as_rules s) -> manifest_ok json_error m -> named_by_id m ->
  exists rep s' incoming s'', into_rules_map json_error (m_rules m) = inr incoming /\
    reconcile_manifest json_error parse_error now m s = Some (inr rep, s') /\ settled m s' /\
    (forall id r, incoming !! id = Some r -> brought_about m s s' id r) /\
    reconcile_manifest json_error parse_error now' m s'
      = Some (inr (mkReport 0 0 0 0 0 0 0 0 (size incoming) 0), s'') /\ settled m s'' /\
    aborted (as_rules s'') = aborted (as_rules s') /\ next_task s'' = next_task s' /\
    forall id, rules (as_rules s'') !! id = synced <$> rules (as_rules s') !! id.
Proof.
  intros Hkv Hids Hok Hnamed. destruct (reconcile_settles now m s Hkv Hids Hok Hnamed) as (rep & s' & incoming0 & Hin0 & Hrec & Hset & Hkv' & Hbrought).
  exists rep, s'. destruct (prepared_spec m s' Hkv') as (Hp1 & Hp2 & Hp3 & Hp4 & Hp5 & Hp6).
  assert (Hset1 : settled m (prepared m s')).
  { destruct Hset as (Hst & Htb & incoming & Hin & Hdom & Hruns). unfold settled, runs, stream_sqls, table_sqls in *.
    rewrite Hp1, Hp2, Hp3, Hp4. split; [done|]. split; [done|]. by exists incoming. }
  destruct (reconcile_rules_idle now' m (prepared m s') Hset1) as (incoming & s'' & Hin & Hidle & Hshown). exists incoming, s''.
  rewrite Hin in Hin0. injection Hin0 as <-. split; [done|]. split; [done|]. split; [done|]. split; [done|]. split.
  { rewrite reconcile_accepted by done. destruct Hset1 as (Hst & Htb & _). by rewrite definitions_idle, Hidle. }
  split; [by eapply settled_shown|]. destruct Hshown as (_ & _ & _ & Hn & _ & Ha & Hk). rewrite Ha, Hn, Hp3, Hp5.
  split; [done|]. split; [done|]. intros id. rewrite Hk, Hp3. case_bool_decide as Hi; [done|].
  destruct (rules (as_rules s') !! id) as [a|] eqn:Hr; [|done]. exfalso. apply Hi.
  destruct Hset1 as (_ & _ & incoming' & Hin' & Hdom & _). rewrite Hin in Hin'. injection Hin' as <-.
  rewrite Hp3 in Hdom. destruct (proj1 (Hdom id)) as [r Hri]; [by exists a|]. apply list_elem_of_fmap. exists (id, r).
  split; [done|]. by apply elem_of_sorted_entries.
Qed.

(** A manifest that is rejected changes nothing. *)
Lemma reconcile_rejected now m s : ~ manifest_ok json_error m ->
  match reconcile_manifest json_error parse_error now m s with
  | None => validate_manifest json_error parse_error m = None
  | Some (r, s') => s' = s /\ exists e, r = inl e
  end.
Proof.
  intros Hno. unfold reconcile_manifest. destruct (validate_manifest json_error parse_error m) as [[ds|sum]|] eqn:Hv; simpl; [|exfalso|done].
  - split; [done|by eexists].
  - apply Hno, (manifest_accepted json_error parse_error). by exists sum.
Qed.
End facts.

Module ReconcileSample.
#[export] Existing Instance ParserSample.ascii_only.
#[export] Instance sample_text : Text := {| value_to_string _ := "v"; map_to_json _ := "{}"; parse_rfc3339 _ := None |}.
#[export] Instance no_json {A} : JsonText A := {| to_json _ := ""; of_json _ := None |}.
#[export] Instance sum_of_bytes : Digest := fun l => to_le_bytes 8 (foldr (fun c n => Z.of_nat (nat_of_ascii c) + 31 * n) 0 l).

Definition rule (id : string) (name version : option string) : RuleDefinition :=
  mkRule id name version "SELECT a FROM s1" [{["log" := VObject []]}] None None [].

Definition manifest (rs : DeclarativeRules) : DeclarativeManifest :=
  mkManifest "v1" {["broker" := VObject []]} ∅ {["s1" := "CREATE STREAM s1 () WITH (TYPE=mqtt, CONNECTION=broker)"]} ∅ rs.

(** A server that already has a rule and a stream the manifest does not name. *)
Definition busy : AppState :=
  let '(_, sm, _) := create_stream (mkStream "s0" "CREATE STREAM s0 ()" [] ∅) ∅ None in
  start_new_rule 1 "old" (rule "old" None None) 5 (mkApp ∅ ∅ sm (mkTables ∅ ∅) rules_new ∅ ∅ None 0).

Definition run (now : Z) (m : DeclarativeManifest) (s : AppState) : option ((string + ReconcileReport) * AppState) :=
  reconcile_manifest (fun e => e) (fun e => e) now m s.

(** The names of the rules, with their tasks, and the number of the next task. *)
Definition running (s : AppState) : list (string * option nat) * nat :=
  (map (fun e => (e.1, a_handle e.2)) (sorted_entries (rules (as_rules s))), next_task s).

Definition twice (m : DeclarativeManifest) : option (list (string * option nat) * nat) * option (list (string * option nat) * nat) :=
  let one := snd <$> run 2 m busy in (running <$> one, (running ∘ snd) <$> (one ≫= run 3 m)).

Example keeps_rules : twice (manifest (RulesList [rule "r" None None])) = (Some ([("r", Some 1)], 2), Some ([("r", Some 1)], 2))%nat.
Proof. by vm_compute. Qed.

(** The task of a rule written under a name that is not its id is aborted as soon as it is
    spawned, and the next reconciliation deletes the rule as one the manifest does not have. *)
Example name_is_not_id :
  twice (manifest (RulesMap {["name" := Structured (rule "r" None None)]})) = (Some ([("r", None)], 2), Some ([], 3))%nat.
Proof. by vm_compute. Qed.

(** A name and a version are hashed alike, so moving the text from one to the other is not seen. *)
Lemma name_or_version m : rule_ctx (rule "r" (Some "x") None) m = rule_ctx (rule "r" None (Some "x")) m.
Proof. done. Qed.
End ReconcileSample.
Import ReconcileSample.

Lemma reconcile_converges_witness :
  let m := manifest (RulesList [rule "r" None None]) in
  calm (as_kv busy) /\ ids_ok (as_rules busy) /\ manifest_ok (fun e => e) m /\ named_by_id (fun e => e) m /\
  exists rep s' incoming s'', into_rules_map (fun e => e) (m_rules m) = inr incoming /\
    reconcile_manifest (fun e => e) (fun e => e) 2 m busy = Some (inr rep, s') /\ settled (fun e => e) m s' /\
    (forall id r, incoming !! id = Some r -> brought_about m busy s' id r) /\
    reconcile_manifest (fun e => e) (fun e => e) 3 m s'
      = Some (inr (mkReport 0 0 0 0 0 0 0 0 (size incoming) 0), s'') /\ settled (fun e => e) m s'' /\
    aborted (as_rules s'') = aborted (as_rules s') /\ next_task s'' = next_task s' /\
    forall id, rules (as_rules s'') !! id = synced <$> rules (as_rules s') !! id.
Proof.
  intros m.
  assert (Hkv : calm (as_kv busy)) by done.
  assert (Hids : ids_ok (as_rules busy)).
  { intros id a Ha. assert (Hr : exists b, rules (as_rules busy) = {["old" := b]} /\ r_id (a_def b) = "old") by (eexists; split; reflexivity).
    destruct Hr as (b & Hr & Hb). rewrite Hr in Ha. apply lookup_singleton_Some in Ha as [<- <-]. exact Hb. }
  assert (Hok : manifest_ok (fun e => e) m).
  { apply (manifest_accepted (fun e => e) (fun e => e)). eexists. vm_compute. reflexivity. }
  assert (Hnamed : named_by_id (fun e => e) m).
  { intros incoming id r [= <-] Hr. simpl in Hr. apply lookup_insert_Some in Hr as [[<- <-]|[_ Hr]]; [reflexivity|].
    by rewrite lookup_empty in Hr. }
  split_and!; [exact Hkv|exact Hids|exact Hok|exact Hnamed|].
  exact (reconcile_converges (fun e => e) (fun e => e) 2 3 m busy Hkv Hids Hok Hnamed).
Defined.
